(* ===== verification/_CoqProject ===== *)
-Q . S2P
Prelude.v
Bitmap.v
OneHelpers.v
Alloc.v
Rng.v
Extras.v
ExtrasTheorems.v
DetStages.v
AutoFiles.v
DetTriples.v
DetFlips.v
DetEffector.v
DetArith.v
DetTheorems.v
ExtrasStages.v
Mopt.v
Havoc.v
HavocSpec.v
HavocTheorems.v
MoptHavoc.v
Colorize.v
ColorizeTheorems.v
NumText.v
FloatBits.v
Its.v
CmpLog.v
CmpLogTheorems.v
Rtn.v
RtnTheorems.v
TestCache.v
TestCacheTheorems.v
Trim.v
CustomTrim.v
Tmin.v
TminTheorems.v
Analyze.v
AnalyzeTheorems.v
ItsStage.v
ItsTheorems.v
Queue.v
Alias.v
Names.v
Startup.v
AliasTheorems.v
Schedule.v
ScheduleTheorems.v
Swarm.v
SwarmTheorems.v
Run.v
RunTheorems.v
FuzzLoop.v
DryRun.v
DryRunTheorems.v
Sync.v
FuzzOne.v
Libgen.v
LibgenTheorems.v
LibgenLimits.v
Depend.v
ArgMap.v
Args.v
ArgsTheorems.v
Session.v
