(* ===== verification/Prelude.v ===== *)
(** * AFLLive: a verification development for the in-vivo fuzzer

    ** The program

    AFLLive fuzzes single functions of a running program.  It has two halves.

    - The _fuzzer_ is a fork of AFL++ (src/aflplusplus).  It reads the test cases it starts
      with, tries each of them ([perform_dry_run]), and then picks one after the other,
      modifies it in deterministic, dictionary, input-to-state and random stages
      ([fuzz_one]), runs the target on each result ([common_fuzz_stuff]), compares the
      coverage map the target leaves behind with what was seen before
      ([save_if_interesting]) and queues test cases that show something new.  AFLLive adds
      target functions: each queue entry belongs to one, the fuzzer works on the targets in
      turns and restarts the fork server when the target changes.
    - The _library in the target_ (src/libgen) is called on entry to each instrumented
      function.  It first records the arguments of a call into a shared map, from which the
      fuzzer takes the seeds, and later rebuilds the arguments of one call from the bytes
      of a test case, so that they satisfy the user's constraints.

    Beside them stand the tools of AFL++ for single test cases (afl-tmin, afl-analyze).

    ** Files

    Each file names its sources; definitions keep the names of the C and C++ code.  A file
    [XTheorems] holds the theorems on [X].

    - [Prelude] (this file): fixed-width integers as [Z] with the wrap-around written out
      ([u8], [u32], [u64], [s32]), little-endian words, lemmas on lists, tactics and the
      hint database the other files share.
    - [Bitmap]: src/afl-fuzz-bitmap.c, include/coverage-{32,64}.h.  Classification of hit
      counts, [has_new_bits], [has_new_bits_unclassified], [simplify_trace], the counters.
    - [Queue]: src/afl-fuzz-queue.c.  Entries, [top_rated] with reference counts,
      [update_bitmap_score], [cull_queue], and AFLLive's walk over the targets.
    - [TestCache]: the cache of test cases of the same file.  [Alias]: its alias tables;
      [Schedule]: [calculate_score] and the choice of the next entry.
    - [Alloc]: include/alloc-inl.h, the growing buffers.  [Rng]: src/afl-performance.c and
      [rand_below], the generators and the interface [Random].
    - [OneHelpers]: the redundancy tests of src/afl-fuzz-one.c.  [DetStages]: the
      deterministic stages, over the interface [Fuzzer]; [DetTriples] is a program logic
      for them, [DetFlips], [DetEffector], [DetArith] and [DetTheorems] use it.
    - [Extras]: src/afl-fuzz-extras.c, the dictionaries; [AutoFiles] the files of automatic
      tokens; [ExtrasStages] the dictionary stages.  [Mopt]: the copy of all of these stages
      in MOpt; [Swarm]: its particle swarm ([pso_updating] and the two modules).
    - [Havoc]: havoc and splicing; [HavocSpec] the abstract edits and the
      weakest-precondition rules, [HavocTheorems] the stage as a whole; [MoptHavoc] the
      havoc stage of MOpt.
    - Input-to-state mutation (src/afl-fuzz-redqueen.c): [Colorize] the colorization,
      [NumText] and [FloatBits] numbers as text and as bits, [Its] the monad of the stage,
      [CmpLog] the comparisons ([cmp_fuzz], [cmp_extend_encoding]), [Rtn] the calls with
      buffers ([rtn_fuzz]), [ItsStage] the stage with its caller, [ItsTheorems] the whole.
    - [Trim]: [trim_case] of src/afl-fuzz-run.c, over the interface [Executor];
      [CustomTrim] the trimmers of custom mutators ([trim_case_custom] of
      src/afl-fuzz-mutators.c), over the interface [CustomMutator].
    - [Run]: [common_fuzz_stuff], [calibrate_case], [save_if_interesting], on the maps of
      [Bitmap] and the queue of [Queue], over [Executor] and [Forkserver]; [RunTheorems]
      their invariant, [FuzzLoop] the theorems on sequences of test cases.  [FuzzOne] puts
      the state of [Run] and the dictionaries behind the interface of the stages.
    - Start-up (src/afl-fuzz-init.c): [Names] the names of test cases and what is read from
      them, [Startup] [read_testcases] and [pivot_inputs], [DryRun] [perform_dry_run].
      [Sync]: [sync_fuzzers] of src/afl-fuzz-run.c.
    - [Libgen]: src/libgen types.cc, buff_utils.cc, ConstraintFactory.cc, both directions
      over an explicit heap; [LibgenTheorems] that recorded arguments are rebuilt,
      [LibgenLimits] termination, constraints and defects.  [Depend]: Dependencies.cc, the
      order of the arguments, over the interface [TopologicalSort].  [ArgMap]: the map of
      recorded arguments from both ends (libgen main.cc and afl-fuzz-init.c).  [Args]: what
      [gen_values] does with the arguments of a call; [Session]: which call that is, and
      when the process ends.
    - [Tmin]: src/afl-tmin.c, the minimizer; [Analyze]: src/afl-analyze.c, the analyzer.

    ** What the theorems show

    - _Coverage._  The word-wise routines compute their bytewise meaning in both word
      sizes; the routine for unclassified traces agrees with the plain one.  A test case
      that ends normally is queued exactly if a byte of its trace falls in a bucket that the
      virgin map still waits for, and no test case with the same buckets is queued later,
      whatever ran in between.  The deterministic stages run on the fuzzer itself leave the
      coverage of every input of their enumeration known, and queue only such inputs.
    - _Stages._  The deterministic stages run exactly an enumerated list of inputs, in
      order, without leaving their buffers, and put the test case back; the effector map
      is what it should be; values are skipped only if an earlier stage tries them (with one
      proved exception).  Every havoc case implements one of five abstract edits; havoc,
      splicing and MOpt end and run only such edits of the test case.  Colorization keeps
      the path and finds the bytes that may change; without their transformations, the stages
      on comparisons and calls put the input back and end, and those at the first level try
      the other operand wherever an operand that changed with the coloring is found.
    - _Queue._  [cull_queue] leaves a favored set that covers every byte held by an entry,
      with exact counters and marks once the first cycle is over; the holders and reference counts are right in every reachable
      state.  The alias tables draw each entry with its weight (in exact arithmetic), the
      scores stay in their bounds, and the next entry is one of the target in turn.  The
      cache of test cases returns what the files hold.  Trimming ends, and leaves a shorter
      test case with the same checksum; so do the trimmers of custom mutators that count
      their steps.  The operators of MOpt keep a fair share.
    - _Start-up._  The dry run leaves exact counters, one entry per trace (the first of the
      shortest) and an active target; names can be read back; [pivot_inputs] gives every
      entry a name of its own; automatic tokens survive their files.
    - _Arguments._  What [serializeToBuffer] writes without constraints, [populateFromBuffer]
      rebuilds, up to the upper halves of 64-bit numbers and to null pointers, which become
      empty arrays; and so the arguments of a whole call survive the way through the shared
      map into the next run.  The generator ends on arbitrary bytes, for recursive types too;
      generated integers satisfy the constraints between them if each has at most one, no
      right side is narrower and there is no cycle; a session exits with the call it fuzzed.
    - _Tools._  The minimizer ends for every target, and for a deterministic one its result
      behaves like the input and loses that with any one byte; the analyzer's report is
      the function of the input it should be.
    - _Defects._  Where the code does not do what it means to, a theorem or an example says
      so: a splice copies the beginning of the other test case, AFL_KEEP_TIMEOUTS without
      instrumentation never ends, two test cases of the largest size starve in the default
      cache, one target never completes its first cycle, a list of packed nodes is never
      fully read, the fitness of MOpt ignores what it should measure and its pacemaker mode
      is never left, seeds that all crash hang the dry run, a resumed queue is reversed,
      other fuzzers' test cases are never imported, two constraints that say the same crash
      the target, the analyzer compares 32 bits of a checksum with 64, and others.

    ** Modelling choices

    Loops that are not structural carry fuel, and running out of it is a value of its own
    ([None], [Starved], [RNoFuel], [TrimNoFuel], [NoFuel]), never mistaken for a result.
    Theorems give amounts that are enough: 2400 * [havoc_max_mult] rounds for a random stage
    and 16 of those with splicing, 20 passes of 1023 runs for trimming, 20 runs for a
    calibration, 256 steps of the walk over the targets, 2n+1 passes of the minimizer for n
    bytes, as many passes through [goto save_to_queue] as the virgin map of timeouts has
    weight.  A [do ... while] that draws random numbers until one fits ends for a source of
    numbers that is fair (every value comes up within a given number of draws); the
    hypothesis is stated where it is needed and has an instance.

    Memory that matters is explicit: an access outside a buffer is [UB] or [Oob], and
    theorems exclude it; libgen works over a heap whose allocator is a parameter.  Files are
    lists of bytes.  Where C leaves the order of two draws open, the model draws from left to
    right.  Counters wrap at their width.  Doubles are IEEE numbers ([SpecFloat]) where bits
    matter, and otherwise an interface with an instance of exact rationals, in which the
    algorithms are judged; what C leaves to the platform is a parameter.

    The target, its fork server, the C library's [realloc] and [qsort], XXH3 ([hash64]) and
    boost's topological sort are parameters, most of them typeclasses ([Fuzzer], [Corpus],
    [Random], [Executor], [Forkserver], [CustomMutator], [Deterministic],
    [TopologicalSort]) with instances that show they can be met.

    ** Not modelled

    Process control (fork server, shared memory, timers), the set-up of directories, the
    json configuration and the types made from it, statistics and display: they consist of
    system calls and text.  Custom mutators beyond their trimmers (the model is that of a
    run without them) and bundled mutators; compiler wrappers and passes, which work on the
    compilers' data; option handling of the tools, afl-showmap and afl-gotcpu; binary-only modes; vendored
    code; the scripts. *)
From Stdlib Require Export ZArith Lia Btauto.
From stdpp Require Export base numbers list list_numbers option strings gmap.

#[global] Open Scope Z_scope.
#[global] Set Default Proof Using "Type".

(** ** Machine integers: a w-bit unsigned value is a [Z] in [0, 2^w). *)

Definition u8 (z : Z) : Z := z `mod` 2 ^ 8.
Definition u16 (z : Z) : Z := z `mod` 2 ^ 16.
Definition u32 (z : Z) : Z := z `mod` 2 ^ 32.
Definition u64 (z : Z) : Z := z `mod` 2 ^ 64.

Lemma u32_id z : 0 <= z < 2 ^ 32 -> u32 z = z.
Proof. apply Z.mod_small. Qed.
Lemma u64_id z : 0 <= z < 2 ^ 64 -> u64 z = z.
Proof. apply Z.mod_small. Qed.

(** Signed reading of a w-bit pattern. *)
Definition s8 (z : Z) : Z := (z + 2 ^ 7) `mod` 2 ^ 8 - 2 ^ 7.
Definition s16 (z : Z) : Z := (z + 2 ^ 15) `mod` 2 ^ 16 - 2 ^ 15.
Definition s32 (z : Z) : Z := (z + 2 ^ 31) `mod` 2 ^ 32 - 2 ^ 31.

Definition byte_ok (b : Z) : Prop := 0 <= b < 2 ^ 8.

(** ** Little-endian words over byte lists *)

Definition le_word (bs : list Z) : Z := little_endian_to_Z 8 bs.
Definition word_le (n : Z) (w : Z) : list Z := Z_to_little_endian n 8 w.

(** ** Hint databases of the development *)
Create HintDb afl discriminated.
Create HintDb bytes discriminated.

#[export] Instance byte_ok_dec b : Decision (byte_ok b).
Proof. unfold byte_ok. apply _. Defined.

(** A concrete list of bytes. *)
Ltac byte_list :=
  repeat first [apply List.Forall_nil | apply List.Forall_cons; [unfold byte_ok; lia|]].

(** [lia] with division and modulus by constants turned into equations. *)
Ltac dlia := Z.div_mod_to_equations; lia.

(** ** Bitwise reasoning on [Z] *)

Lemma byte_ok_testbit_high b i : byte_ok b -> 8 <= i -> Z.testbit b i = false.
Proof.
  intros [Hlo Hhi] Hi. destruct (decide (b = 0)) as [->|]; [apply Z.testbit_0_l|].
  apply Z.bits_above_log2; [done|]. assert (Z.log2 b < 8) by (apply Z.log2_lt_pow2; lia). lia.
Qed.

Lemma bounded_testbit_high b w i :
  0 <= b < 2 ^ w -> 0 <= w <= i -> Z.testbit b i = false.
Proof.
  intros [Hlo Hhi] Hi. destruct (decide (b = 0)) as [->|]; [apply Z.testbit_0_l|].
  apply Z.bits_above_log2; [done|]. assert (Z.log2 b < w) by (apply Z.log2_lt_pow2; lia). lia.
Qed.

(** [zbits] proves an equality of integers bit by bit: it pushes [Z.testbit]
    through the bitwise operations and splits on the position of the bit. *)
Ltac zbits_step :=
  first
    [ rewrite Z.land_spec | rewrite Z.lor_spec | rewrite Z.lxor_spec
    | rewrite Z.ldiff_spec | rewrite Z.testbit_0_l
    | match goal with
      | |- context [Z.testbit (Z.lnot ?a) ?i] => rewrite (Z.lnot_spec a i) by lia
      | |- context [Z.testbit (?a ≪ ?n) ?i] => rewrite (Z.shiftl_spec a n i) by lia
      | |- context [Z.testbit (?a ≫ ?n) ?i] => rewrite (Z.shiftr_spec a n i) by lia
      | |- context [Z.testbit ?a ?i] => rewrite (Z.testbit_neg_r a i) by lia
      end ].

Ltac zbits_push := repeat zbits_step.

(** Bits of a byte-sized value above position 7 are clear. *)
Ltac byte_high :=
  repeat match goal with
  | H : byte_ok ?b |- context [Z.testbit ?b ?i] =>
      rewrite (byte_ok_testbit_high b i H) by lia
  end.

Ltac zbits :=
  apply Z.bits_inj'; intros ?i ?Hi; zbits_push; try btauto.

(** [cases_le i k]: split a bit position against a bound. *)
Ltac cases_lt i k := destruct (Z_lt_le_dec i k).

Lemma lor_disjoint_add a b k :
  0 <= k -> 0 <= a < 2 ^ k -> Z.lor a (b ≪ k) = a + b * 2 ^ k.
Proof.
  intros Hk Ha. rewrite <- Z.shiftl_mul_pow2 by lia. symmetry.
  rewrite Z.add_nocarry_lxor.
  - zbits. cases_lt i k.
    + zbits_push. btauto.
    + rewrite (bounded_testbit_high a k) by lia. btauto.
  - zbits. cases_lt i k.
    + zbits_push. btauto.
    + rewrite (bounded_testbit_high a k) by lia. btauto.
Qed.

(** ** Lemmas on little-endian words *)

Lemma le_word_nil : le_word [] = 0.
Proof. done. Qed.

Lemma le_word_cons b bs : byte_ok b -> le_word (b :: bs) = b + 256 * le_word bs.
Proof.
  intros Hb. unfold le_word; simpl. rewrite lor_disjoint_add; [|lia|exact Hb].
  change (2 ^ 8) with 256. lia.
Qed.

Lemma le_word_bound bs :
  Forall byte_ok bs -> 0 <= le_word bs < 2 ^ (8 * Z.of_nat (length bs)).
Proof.
  intros H. rewrite (Z.mul_comm 8). apply little_endian_to_Z_bound; [lia|exact H].
Qed.

Lemma word_le_le_word n bs :
  Forall byte_ok bs -> n = Z.of_nat (length bs) -> word_le n (le_word bs) = bs.
Proof. intros H ->. apply Z_to_little_endian_to_Z; [lia|lia|exact H]. Qed.

Lemma le_word_word_le n w :
  0 <= n -> 0 <= w < 2 ^ (8 * n) -> le_word (word_le n w) = w.
Proof.
  intros Hn Hw. unfold le_word, word_le.
  rewrite little_endian_to_Z_to_little_endian by lia.
  apply Z.mod_small. rewrite (Z.mul_comm n). exact Hw.
Qed.

Lemma length_word_le n w : 0 <= n -> length (word_le n w) = Z.to_nat n.
Proof.
  intros. apply Nat2Z.inj. unfold word_le.
  rewrite length_Z_to_little_endian by lia. lia.
Qed.

Lemma word_le_ok n w : 0 <= n -> Forall byte_ok (word_le n w).
Proof. intros. unfold word_le. apply Z_to_little_endian_bound; lia. Qed.

Lemma le_word_eq_0 bs : Forall byte_ok bs -> le_word bs = 0 <-> Forall (fun b => b = 0) bs.
Proof.
  induction 1 as [|b bs Hb Hbs IH]; [done|].
  rewrite le_word_cons, Forall_cons by done.
  pose proof (le_word_bound bs Hbs) as HB. unfold byte_ok in *. split.
  - intros Heq. assert (b = 0) by lia. split; [done|]. apply IH. lia.
  - intros [-> H0]. apply IH in H0. lia.
Qed.

(** A value whose bits from position [k] on are clear is a [k]-bit value. *)
Lemma bits_bounded k n :
  0 <= k -> (forall l, k <= l -> Z.testbit n l = false) -> 0 <= n < 2 ^ k.
Proof.
  intros Hk Hbits. assert (0 <= n).
  { apply Z.bits_iff_nonneg_ex. exists k. intros m Hm. apply Hbits. lia. }
  by apply Z.bounded_iff_bits_nonneg'.
Qed.

(** A bitwise operation on words is the same operation on their bytes.  The
    operation is any one that acts on each bit position separately. *)
Section bitwise_words.
Context (op : Z -> Z -> Z) (f : bool -> bool -> bool).
Hypothesis op_spec : forall a b i, Z.testbit (op a b) i = f (Z.testbit a i) (Z.testbit b i).
Hypothesis f_false : f false false = false.

Lemma bitwise_byte_ok a b : byte_ok a -> byte_ok b -> byte_ok (op a b).
Proof using op_spec f_false.
  intros Ha Hb. apply (bits_bounded 8); [lia|]. intros l Hl. rewrite op_spec. byte_high. done.
Qed.

Lemma bitwise_bytes_ok xs ys :
  Forall byte_ok xs -> Forall byte_ok ys -> Forall byte_ok (zip_with op xs ys).
Proof using op_spec f_false.
  intros Hx Hy. revert ys Hy.
  induction Hx; intros [|y ys] Hy; simpl; try constructor;
    apply Forall_cons in Hy as [??]; eauto using bitwise_byte_ok.
Qed.

Lemma le_word_zip xs ys :
  Forall byte_ok xs -> Forall byte_ok ys -> length xs = length ys ->
  le_word (zip_with op xs ys) = op (le_word xs) (le_word ys).
Proof using op_spec f_false.
  intros Hx. revert ys.
  induction Hx as [|x xs Hx Hxs IH]; intros [|y ys] Hy Hlen; try discriminate.
  - apply Z.bits_inj'. intros i Hi. rewrite op_spec. simpl. by rewrite !Z.testbit_0_l.
  - apply Forall_cons in Hy as [Hy Hys]. specialize (IH ys Hys ltac:(simpl in Hlen; lia)).
    unfold le_word in *. simpl. rewrite IH. apply Z.bits_inj'. intros i Hi.
    rewrite op_spec, !Z.lor_spec, !Z.shiftl_spec, !op_spec by lia.
    cases_lt i 8.
    + zbits_push. by rewrite f_false, !orb_false_r.
    + byte_high. by rewrite f_false.
Qed.
End bitwise_words.

Lemma le_word_land xs ys :
  Forall byte_ok xs -> Forall byte_ok ys -> length xs = length ys ->
  le_word (zip_with Z.land xs ys) = Z.land (le_word xs) (le_word ys).
Proof. by apply (le_word_zip _ andb Z.land_spec). Qed.

Lemma le_word_ldiff xs ys :
  Forall byte_ok xs -> Forall byte_ok ys -> length xs = length ys ->
  le_word (zip_with Z.ldiff xs ys) = Z.ldiff (le_word xs) (le_word ys).
Proof. by apply (le_word_zip _ (fun a b => a && negb b) Z.ldiff_spec). Qed.

Lemma byte_ok_land a b : byte_ok a -> byte_ok b -> byte_ok (Z.land a b).
Proof. by apply (bitwise_byte_ok _ andb Z.land_spec). Qed.

Lemma byte_ok_ldiff a b : byte_ok a -> byte_ok b -> byte_ok (Z.ldiff a b).
Proof. by apply (bitwise_byte_ok _ (fun a b => a && negb b) Z.ldiff_spec). Qed.

Lemma byte_ok_lxor a b : byte_ok a -> byte_ok b -> byte_ok (Z.lxor a b).
Proof. by apply (bitwise_byte_ok _ xorb Z.lxor_spec). Qed.

Lemma byte_ok_u8 z : byte_ok (u8 z).
Proof. apply Z.mod_pos_bound; lia. Qed.

Lemma byte_ok_shiftr b k : 0 <= k -> byte_ok b -> byte_ok (b ≫ k).
Proof.
  intros Hk Hb. apply (bits_bounded 8); [lia|]. intros l Hl.
  rewrite Z.shiftr_spec by lia. by byte_high.
Qed.

Lemma bytes_ok_map (g : Z -> Z) bs :
  (forall b, byte_ok b -> byte_ok (g b)) -> Forall byte_ok bs -> Forall byte_ok (map g bs).
Proof. intros Hg Hok. apply Forall_fmap, (Forall_impl _ _ _ Hok). exact Hg. Qed.

#[export] Hint Resolve byte_ok_shiftr bytes_ok_map : bytes.
#[export] Hint Resolve byte_ok_land byte_ok_ldiff byte_ok_lxor byte_ok_u8 : bytes.

(** ** Lists of bytes: slices *)

Lemma Forall_take_drop {A} (P : A -> Prop) n (l : list A) :
  Forall P l -> Forall P (take n l) /\ Forall P (drop n l).
Proof. intros H. split; [by apply Forall_take|by apply Forall_drop]. Qed.

#[export] Hint Resolve Forall_take Forall_drop : bytes.

(** Statements about all bytes, decided by evaluation. *)
Definition all_bytes (p : Z -> bool) : bool := forallb p (seqZ 0 256).

Lemma all_bytes_spec p b : all_bytes p = true -> byte_ok b -> p b = true.
Proof.
  intros H [Hlo Hhi]. unfold all_bytes in H. rewrite forallb_forall in H.
  apply H. apply list_elem_of_In, elem_of_seqZ. lia.
Qed.

Lemma all_bytes_eq (f g : Z -> Z) b :
  all_bytes (fun b => f b =? g b) = true -> byte_ok b -> f b = g b.
Proof. intros H Hb. apply Z.eqb_eq. exact (all_bytes_spec _ b H Hb). Qed.

(** ** Word-wise loops over byte arrays

    [while (i--) { f(mem); mem++; }] over words of [wb] bytes: [f] rewrites one
    word, the bytes past the last whole word stay as they are. *)
Fixpoint map_words (wb : nat) (f : list Z -> list Z) (i : nat) (mem : list Z) : list Z :=
  match i with
  | O => mem
  | S i => f (take wb mem) ++ map_words wb f i (drop wb mem)
  end.

(** The same loop reading only, with an accumulator. *)
Fixpoint fold_words {A} (wb : nat) (f : A -> list Z -> A) (i : nat) (mem : list Z) (acc : A) : A :=
  match i with
  | O => acc
  | S i => fold_words wb f i (drop wb mem) (f acc (take wb mem))
  end.

(** When [f] acts on every full word as a byte map, so does the whole loop. *)
Lemma map_words_map wb f g i mem :
  (forall w, Forall byte_ok w -> length w = wb -> f w = map g w) ->
  Forall byte_ok mem -> (i * wb <= length mem)%nat ->
  map_words wb f i mem = map g (take (i * wb) mem) ++ drop (i * wb) mem.
Proof.
  intros Hf. revert mem. induction i as [|i IH]; intros mem Hok Hlen; simpl in *; [done|].
  rewrite Hf; [|by apply Forall_take|rewrite length_take; lia].
  rewrite IH; [|by apply Forall_drop|rewrite length_drop; lia].
  rewrite drop_drop, app_assoc, <- map_app. do 3 f_equal.
  rewrite <- (take_drop wb (take (wb + i * wb) mem)). f_equal.
  - rewrite take_take. f_equal. lia.
  - rewrite skipn_firstn_comm. f_equal. lia.
Qed.

Lemma take_split {A} n m (l : list A) : take (n + m) l = take n l ++ take m (drop n l).
Proof. by rewrite take_take_drop. Qed.

Lemma sumZ_app (l k : list Z) : foldr Z.add 0 (l ++ k) = foldr Z.add 0 l + foldr Z.add 0 k.
Proof. induction l as [|x l IH]; simpl; lia. Qed.

(** A 32-bit accumulator over the words of an array adds up, modulo 2^32, the
    contributions of its bytes. *)
Lemma fold_words_sum wb (f : list Z -> Z) (g : Z -> Z) i mem acc :
  (forall w, Forall byte_ok w -> length w = wb -> f w = foldr Z.add 0 (map g w)) ->
  Forall byte_ok mem -> (i * wb <= length mem)%nat -> 0 <= acc < 2 ^ 32 ->
  fold_words wb (fun acc w => u32 (acc + f w)) i mem acc
  = u32 (acc + foldr Z.add 0 (map g (take (i * wb) mem))).
Proof.
  intros Hf. revert mem acc. induction i as [|i IH]; intros mem acc Hok Hlen Hacc; simpl in *.
  - unfold u32. rewrite Z.mod_small; lia.
  - rewrite IH; [|by apply Forall_drop|rewrite length_drop; lia|apply Z.mod_pos_bound; lia].
    rewrite Hf; [|by apply Forall_take|rewrite length_take; lia].
    rewrite take_split, map_app, sumZ_app. unfold u32.
    rewrite Zplus_mod_idemp_l. f_equal. lia.
Qed.

(** Masking a shifted word byte by byte: the mask keeps, in every byte, only
    positions that the shift filled from the same byte. *)
Lemma le_word_mask_shift bs k m :
  0 <= k <= 8 -> 0 <= m < 2 ^ (8 - k) -> Forall byte_ok bs ->
  Z.land (le_word bs ≫ k) (le_word (replicate (length bs) m))
  = le_word (map (fun b => Z.land (b ≫ k) m) bs).
Proof.
  intros Hk Hm. assert (Hmb : byte_ok m).
  { unfold byte_ok. assert (2 ^ (8 - k) <= 2 ^ 8) by (apply Z.pow_le_mono_r; lia). lia. }
  induction 1 as [|b bs Hb Hbs IH]; [by rewrite Z.shiftr_0_l|].
  unfold le_word in *; simpl. rewrite <- IH. zbits. cases_lt i 8.
  - destruct (Z_lt_le_dec i (8 - k)).
    + zbits_push. btauto.
    + rewrite (bounded_testbit_high m (8 - k) i) by lia. zbits_push. btauto.
  - byte_high. zbits_push. replace (i - 8 + k) with (i + k - 8) by lia. btauto.
Qed.

Lemma le_word_4 a b c d :
  byte_ok a -> byte_ok b -> byte_ok c -> byte_ok d ->
  le_word [a; b; c; d] = a + 256 * b + 65536 * c + 16777216 * d.
Proof. intros. rewrite !le_word_cons by done. rewrite le_word_nil. lia. Qed.

Lemma length_4 {A} (l : list A) : length l = 4%nat -> exists a b c d, l = [a; b; c; d].
Proof. destruct l as [|a [|b [|c [|d [|? ?]]]]]; try discriminate. eauto. Qed.

(** Break a [Forall] over an explicit list into its elements. *)
Ltac inv_Forall :=
  repeat match goal with H : Forall _ (_ :: _) |- _ => apply Forall_cons in H as [? ?] end.

(** ** Tables filled by loops *)
Section fill_loops.
Context {A : Type} (k v : A -> Z).

Lemma foldl_insert_other (l : list A) (t : gmap Z Z) j :
  (forall x, x ∈ l -> k x <> j) ->
  foldl (fun t x => <[k x := v x]> t) t l !! j = t !! j.
Proof.
  revert t. induction l as [|x l IH]; intros t Hne; [done|]. simpl.
  rewrite IH by (intros y Hy; apply Hne; set_solver).
  apply lookup_insert_ne, Hne. set_solver.
Qed.

Lemma foldl_insert_in (l : list A) (t : gmap Z Z) x :
  x ∈ l -> (forall y, y ∈ l -> k y = k x -> v y = v x) ->
  foldl (fun t x => <[k x := v x]> t) t l !! k x = Some (v x).
Proof.
  revert t. induction l as [|y l IH] using rev_ind; intros t Hin Hinj; [set_solver|].
  rewrite foldl_app. simpl. rewrite lookup_insert. case_decide as Heq.
  - f_equal. apply Hinj; [set_solver|done].
  - apply IH; [set_solver|]. intros z Hz. apply Hinj. set_solver.
Qed.
End fill_loops.

(** ** 16-bit and 8-bit views of the same memory *)

Fixpoint pair16 (bs : list Z) : list Z :=
  match bs with
  | a :: b :: bs => Z.lor a (b ≪ 8) :: pair16 bs
  | _ => []
  end.

Lemma list_pair_ind {A} (P : list A -> Prop) :
  P [] -> (forall x, P [x]) -> (forall x y l, P l -> P (x :: y :: l)) -> forall l, P l.
Proof.
  intros H0 H1 H2. assert (H : forall l, P l /\ forall x, P (x :: l)); [|intros l; apply H].
  induction l as [|x l [IH1 IH2]]; split; auto.
Qed.

Lemma le_word_pair16 bs :
  Nat.even (length bs) = true -> le_word bs = little_endian_to_Z 16 (pair16 bs).
Proof.
  induction bs as [| |a b bs IH] using list_pair_ind; intros Hev; [done|discriminate|].
  unfold le_word in *. simpl in *. rewrite IH by done.
  rewrite Z.shiftl_lor, Z.shiftl_shiftl, Z.lor_assoc by lia. done.
Qed.

Lemma pair16_length bs : length bs = (2 * length (pair16 bs) + Nat.b2n (Nat.odd (length bs)))%nat.
Proof.
  induction bs as [| |a b bs IH] using list_pair_ind; [done..|].
  simpl length. change (Nat.odd (S (S (length bs)))) with (Nat.odd (length bs)). lia.
Qed.

Lemma pair16_ok bs :
  Forall byte_ok bs -> Forall (fun m => 0 <= m < 2 ^ 16) (pair16 bs).
Proof.
  induction bs as [| |a b bs IH] using list_pair_ind; intros Hok; simpl; [constructor..|].
  inv_Forall. constructor; [|auto]. unfold byte_ok in *. rewrite lor_disjoint_add by lia. lia.
Qed.

(** ** Loads and stores of little-endian values in a buffer *)

Definition ld (n : nat) (buf : list Z) (i : Z) : Z := le_word (take n (drop (Z.to_nat i) buf)).

Definition st (n : nat) (buf : list Z) (i v : Z) : list Z :=
  take (Z.to_nat i) buf ++ word_le (Z.of_nat n) v ++ drop (Z.to_nat i + n) buf.

(** The window [i, i+n) lies inside the buffer. *)
Definition in_range (n : nat) (buf : list Z) (i : Z) : Prop :=
  0 <= i /\ i + Z.of_nat n <= Z.of_nat (length buf).

#[export] Instance in_range_dec n buf i : Decision (in_range n buf i).
Proof. unfold in_range. apply _. Defined.

Section load_store.
Context (n : nat).
Implicit Types (buf : list Z) (i v : Z).

Lemma length_st buf i v : in_range n buf i -> length (st n buf i v) = length buf.
Proof.
  intros [Hi Hn]. unfold st. rewrite !length_app, length_take, length_drop, length_word_le by lia. lia.
Qed.

Lemma st_ok buf i v : Forall byte_ok buf -> Forall byte_ok (st n buf i v).
Proof.
  intros H. unfold st. rewrite !Forall_app. repeat split; auto with bytes.
  apply word_le_ok. lia.
Qed.

Lemma st_st buf i v v' : in_range n buf i -> st n (st n buf i v) i v' = st n buf i v'.
Proof.
  intros [Hi Hn]. unfold st.
  assert (Hl : length (take (Z.to_nat i) buf) = Z.to_nat i) by (rewrite length_take; lia).
  rewrite take_app_le, take_take, Nat.min_id by lia. do 2 f_equal.
  rewrite drop_app_ge by lia. rewrite Hl.
  replace (Z.to_nat i + n - Z.to_nat i)%nat with n by lia.
  rewrite drop_app_ge by (rewrite length_word_le; lia).
  rewrite length_word_le by lia. rewrite drop_drop. f_equal. lia.
Qed.

Lemma st_ld buf i : Forall byte_ok buf -> in_range n buf i -> st n buf i (ld n buf i) = buf.
Proof.
  intros Hok [Hi Hn]. unfold st, ld. rewrite word_le_le_word.
  - rewrite <- drop_drop, take_drop, take_drop. done.
  - auto with bytes.
  - rewrite length_take, length_drop. lia.
Qed.

Lemma ld_st buf i v : in_range n buf i -> ld n (st n buf i v) i = v `mod` 2 ^ (8 * Z.of_nat n).
Proof.
  intros [Hi Hn]. unfold st, ld.
  assert (Hl : length (take (Z.to_nat i) buf) = Z.to_nat i) by (rewrite length_take; lia).
  rewrite drop_app_length' by done. rewrite take_app_length' by (rewrite length_word_le; lia).
  unfold le_word, word_le. rewrite little_endian_to_Z_to_little_endian by lia.
  f_equal. f_equal. lia.
Qed.

Lemma ld_bound buf i :
  Forall byte_ok buf -> in_range n buf i -> 0 <= ld n buf i < 2 ^ (8 * Z.of_nat n).
Proof.
  intros Hok [Hi Hn]. unfold ld.
  pose proof (le_word_bound (take n (drop (Z.to_nat i) buf)) ltac:(auto with bytes)) as H.
  rewrite length_take, length_drop in H. rewrite Nat.min_l in H by lia. done.
Qed.

Lemma st_mod buf i v : st n buf i (v `mod` 2 ^ (8 * Z.of_nat n)) = st n buf i v.
Proof.
  unfold st. do 2 f_equal.
  assert (H : forall m w, 0 <= m -> word_le m w = word_le m (w `mod` 2 ^ (8 * m))).
  { intros m w Hm. rewrite <- (word_le_le_word m (word_le m w)).
    - f_equal. unfold le_word, word_le. rewrite little_endian_to_Z_to_little_endian by lia.
      f_equal. f_equal. lia.
    - by apply word_le_ok.
    - rewrite length_word_le; lia. }
  symmetry. apply H. lia.
Qed.
End load_store.
