(* ===== verification/Bitmap.v ===== *)
(** * Coverage bitmaps (src/aflplusplus/src/afl-fuzz-bitmap.c, include/coverage-64.h,
    include/coverage-32.h)

    The trace of one execution is a byte array of hit counts.  This file models
    the routines that classify hit counts into buckets, compare a trace with the
    "virgin" map of what has never been seen, and summarise maps.  The C code
    works on machine words ([wb] bytes each: 8 under WORD_SIZE_64, 4 otherwise);
    every theorem relates the word-wise routine to what it means byte by byte. *)
From S2P Require Import Prelude.

(** ** Data *)

(** The part of [afl_forkserver_t] these routines read and write. *)
Record afl_forkserver_t := {
  trace_bits : list Z;      (* u8 *trace_bits *)
  map_size : Z;             (* u32 map_size, a multiple of 64 *)
  real_map_size : Z;        (* u32 real_map_size, what the target reported *)
}.

Definition set_trace (tb : list Z) (f : afl_forkserver_t) : afl_forkserver_t :=
  {| trace_bits := tb; map_size := map_size f; real_map_size := real_map_size f |}.

(** The virgin maps of [afl_state_t] and the flag [bitmap_changed]. *)
Record virgin_maps := {
  virgin_bits : list Z;
  virgin_tmout : list Z;
  virgin_crash : list Z;
  bitmap_changed : Z;
}.

(** Which of the three maps a caller passes as [virgin_map]. *)
Inductive virgin_sel := VirginBits | VirginTmout | VirginCrash.

#[export] Instance virgin_sel_dec : EqDecision virgin_sel.
Proof. solve_decision. Defined.

Definition get_virgin (s : virgin_sel) (v : virgin_maps) : list Z :=
  match s with
  | VirginBits => virgin_bits v
  | VirginTmout => virgin_tmout v
  | VirginCrash => virgin_crash v
  end.

Definition set_virgin (s : virgin_sel) (m : list Z) (v : virgin_maps) : virgin_maps :=
  match s with
  | VirginBits =>
      {| virgin_bits := m; virgin_tmout := virgin_tmout v;
         virgin_crash := virgin_crash v; bitmap_changed := bitmap_changed v |}
  | VirginTmout =>
      {| virgin_bits := virgin_bits v; virgin_tmout := m;
         virgin_crash := virgin_crash v; bitmap_changed := bitmap_changed v |}
  | VirginCrash =>
      {| virgin_bits := virgin_bits v; virgin_tmout := virgin_tmout v;
         virgin_crash := m; bitmap_changed := bitmap_changed v |}
  end.

Definition mark_changed (v : virgin_maps) : virgin_maps :=
  {| virgin_bits := virgin_bits v; virgin_tmout := virgin_tmout v;
     virgin_crash := virgin_crash v; bitmap_changed := 1 |}.

(** ** Counting *)

Definition words_of (wb : Z) (size : Z) : nat := Z.to_nat ((size + (wb - 1)) / wb).

(** One step of [count_bits]: the population count of a 32-bit word. *)
Definition count_bits_word (v : Z) : Z :=
  if v =? 0xffffffff then 32
  else
    let v := u32 (v - Z.land (v ≫ 1) 0x55555555) in
    let v := u32 (Z.land v 0x33333333 + Z.land (v ≫ 2) 0x33333333) in
    u32 (Z.land (u32 (v + (v ≫ 4))) 0xF0F0F0F * 0x01010101) ≫ 24.

Definition count_bits (fsrv : afl_forkserver_t) (mem : list Z) : Z :=
  fold_words 4 (fun ret w => u32 (ret + count_bits_word (le_word w)))
    (words_of 4 (real_map_size fsrv)) mem 0.

Definition b2z (b : bool) : Z := if b then 1 else 0.

Definition count_bytes_word (v : Z) : Z :=
  if v =? 0 then 0
  else
    b2z (negb (Z.land v 0x000000ff =? 0)) + b2z (negb (Z.land v 0x0000ff00 =? 0))
    + b2z (negb (Z.land v 0x00ff0000 =? 0)) + b2z (negb (Z.land v 0xff000000 =? 0)).

Definition count_bytes (fsrv : afl_forkserver_t) (mem : list Z) : Z :=
  fold_words 4 (fun ret w => u32 (ret + count_bytes_word (le_word w)))
    (words_of 4 (real_map_size fsrv)) mem 0.

Definition count_non_255_word (v : Z) : Z :=
  if v =? 0xffffffff then 0
  else
    b2z (negb (Z.land v 0x000000ff =? 0x000000ff))
    + b2z (negb (Z.land v 0x0000ff00 =? 0x0000ff00))
    + b2z (negb (Z.land v 0x00ff0000 =? 0x00ff0000))
    + b2z (negb (Z.land v 0xff000000 =? 0xff000000)).

Definition count_non_255_bytes (fsrv : afl_forkserver_t) (mem : list Z) : Z :=
  fold_words 4 (fun ret w => u32 (ret + count_non_255_word (le_word w)))
    (words_of 4 (real_map_size fsrv)) mem 0.

(** ** Lookup tables *)

Definition simplify_lookup : list Z := 1 :: replicate 255 128.

Definition count_class_lookup8 : list Z :=
  [0; 1; 2; 4] ++ replicate 4 8 ++ replicate 8 16 ++ replicate 16 32
  ++ replicate 96 64 ++ replicate 128 128.

Definition lookup8 (tbl : list Z) (b : Z) : Z := tbl !!! Z.to_nat b.

(** [count_class_lookup16] after [init_count_class16]: the two nested loops. *)
Definition init_count_class16 : gmap Z Z :=
  foldl (fun t b1 =>
    foldl (fun t b2 =>
      <[ (b1 ≪ 8) + b2 :=
          Z.lor (lookup8 count_class_lookup8 b1 ≪ 8) (lookup8 count_class_lookup8 b2) ]> t)
      t (seqZ 0 256))
    ∅ (seqZ 0 256).

(** ** Classification *)

Section word_size.
(** Bytes per machine word: [WORD_SIZE_64] selects 8 (coverage-64.h), else 4
    (coverage-32.h). *)
Context (wb : nat).
(** [count_class_lookup16], as [init_count_class16] left it. *)
Context (count_class_lookup16 : gmap Z Z).

Definition zwb : Z := Z.of_nat wb.

(** [memcpy] to [u16 mem16[wb/2]], one table lookup each, [memcpy] back. *)
Definition classify_word (word : Z) : Z :=
  let mem16 := Z_to_little_endian (zwb / 2) 16 word in
  little_endian_to_Z 16 (map (fun m => count_class_lookup16 !!! m) mem16).

Definition simplify_word (w : list Z) : list Z :=
  if negb (le_word w =? 0)
  then map (lookup8 simplify_lookup) w
  else replicate wb 1.

Definition simplify_trace (fsrv : afl_forkserver_t) (bytes : list Z) : list Z :=
  map_words wb simplify_word (Z.to_nat (map_size fsrv / zwb)) bytes.

Definition classify_counts (fsrv : afl_forkserver_t) : afl_forkserver_t :=
  set_trace
    (map_words wb
       (fun w => if negb (le_word w =? 0) then word_le zwb (classify_word (le_word w)) else w)
       (Z.to_nat (map_size fsrv / zwb)) (trace_bits fsrv))
    fsrv.

(** The disjunction [(cur[0] && vir[0] == 0xff) || ...] over a word's bytes. *)
Definition pristine_hit (cur vir : list Z) : bool :=
  existsb (fun '(c, v) => negb (c =? 0) && (v =? 0xff)) (zip cur vir).

Definition discover_word (ret : Z) (current virgin : list Z) : Z * list Z :=
  if negb (Z.land (le_word current) (le_word virgin) =? 0)
  then
    ((if ret <? 2 then (if pristine_hit current virgin then 2 else 1) else ret),
     word_le zwb (Z.land (le_word virgin) (Z.lnot (le_word current))))
  else (ret, virgin).

Fixpoint has_new_bits_loop (i : nat) (ret : Z) (current virgin : list Z) : Z * list Z :=
  match i with
  | O => (ret, virgin)
  | S i =>
      let '(ret, v) :=
        if negb (le_word (take wb current) =? 0)
        then discover_word ret (take wb current) (take wb virgin)
        else (ret, take wb virgin) in
      let '(ret, vs) := has_new_bits_loop i ret (drop wb current) (drop wb virgin) in
      (ret, v ++ vs)
  end.

Definition has_new_bits (fsrv : afl_forkserver_t) (sel : virgin_sel) (vm : virgin_maps)
  : Z * virgin_maps :=
  let '(ret, v) :=
    has_new_bits_loop (words_of zwb (real_map_size fsrv)) 0 (trace_bits fsrv)
      (get_virgin sel vm) in
  let vm := set_virgin sel v vm in
  (ret, if negb (ret =? 0) && bool_decide (sel = VirginBits) then mark_changed vm else vm).

(** The portable [skim]: four words per iteration. *)
Definition skim_word (virgin current : list Z) (k : nat) : bool :=
  let c := le_word (take wb (drop (k * wb) current)) in
  let v := le_word (take wb (drop (k * wb) virgin)) in
  negb (c =? 0) && negb (Z.land (classify_word c) v =? 0).

Fixpoint skim (i : nat) (virgin current : list Z) : Z :=
  match i with
  | O => 0
  | S i =>
      if skim_word virgin current 0 then 1
      else if skim_word virgin current 1 then 1
      else if skim_word virgin current 2 then 1
      else if skim_word virgin current 3 then 1
      else skim i (drop (4 * wb) virgin) (drop (4 * wb) current)
  end.

(** Iterations of [for (; current < current_end; ... += 4)]. *)
Definition skim_iterations (size : Z) : nat := words_of (4 * zwb) size.

Definition has_new_bits_unclassified (fsrv : afl_forkserver_t) (sel : virgin_sel)
    (vm : virgin_maps) : Z * afl_forkserver_t * virgin_maps :=
  if skim (skim_iterations (map_size fsrv)) (get_virgin sel vm) (trace_bits fsrv) =? 0
  then (0, fsrv, vm)
  else
    let fsrv := classify_counts fsrv in
    let '(r, vm) := has_new_bits fsrv sel vm in
    (r, fsrv, vm).
End word_size.

(** [minimize_bits]: one bit per byte of the source. *)
Fixpoint minimize_bits_loop (n : nat) (i : Z) (dst src : list Z) : list Z :=
  match n with
  | O => dst
  | S n =>
      let dst :=
        if negb (src !!! 0%nat =? 0)
        then <[ Z.to_nat (i ≫ 3) := u8 (Z.lor (dst !!! Z.to_nat (i ≫ 3)) (1 ≪ Z.land i 7)) ]> dst
        else dst in
      minimize_bits_loop n (i + 1) dst (drop 1 src)
  end.

Definition minimize_bits (fsrv : afl_forkserver_t) (dst src : list Z) : list Z :=
  minimize_bits_loop (Z.to_nat (map_size fsrv)) 0 dst src.

(** The 32-bit build (coverage-32.h). *)
Definition classify_word_32 := classify_word 4.
Definition simplify_trace_32 := simplify_trace 4.
Definition classify_counts_32 := classify_counts 4.
Definition discover_word_32 := discover_word 4.
Definition skim_32 := skim 4.

(** ** Population count *)

Definition popcount8 (b : Z) : Z := foldr Z.add 0 (map (fun i => b2z (Z.testbit b i)) (seqZ 0 8)).

(** The three SWAR steps of [count_bits] on one byte. *)
Definition swar1 (b : Z) : Z := b - Z.land (b ≫ 1) 0x55.
Definition swar2 (c : Z) : Z := Z.land c 0x33 + Z.land (c ≫ 2) 0x33.

Lemma swar_byte b :
  byte_ok b ->
  byte_ok (swar1 b) /\ byte_ok (swar2 (swar1 b)) /\
  0 <= swar2 (swar1 b) `mod` 16 <= 4 /\ 0 <= swar2 (swar1 b) / 16 <= 4 /\
  swar2 (swar1 b) `mod` 16 + swar2 (swar1 b) / 16 = popcount8 b.
Proof.
  intros Hb.
  assert (H := all_bytes_spec (fun b =>
    bool_decide (byte_ok (swar1 b)) && bool_decide (byte_ok (swar2 (swar1 b))) &&
    (swar2 (swar1 b) `mod` 16 <=? 4) && (swar2 (swar1 b) / 16 <=? 4) &&
    (swar2 (swar1 b) `mod` 16 + swar2 (swar1 b) / 16 =? popcount8 b))
    b eq_refl Hb).
  rewrite !andb_true_iff, !bool_decide_eq_true, !Z.leb_le, Z.eqb_eq in H.
  destruct H as [[[[H1 H2] H3] H4] H5].
  assert (0 <= swar2 (swar1 b) `mod` 16) by (apply Z.mod_pos_bound; lia).
  assert (0 <= swar2 (swar1 b) / 16) by (apply Z.div_pos; unfold byte_ok in *; lia).
  auto 10.
Qed.

Lemma swar1_ok b : byte_ok b -> byte_ok (swar1 b).
Proof. apply swar_byte. Qed.

Lemma swar2_ok c : byte_ok c -> byte_ok (swar2 c).
Proof.
  intros Hc.
  exact (bool_decide_eq_true_1 _
    (all_bytes_spec (fun c => bool_decide (byte_ok (swar2 c))) c eq_refl Hc)).
Qed.

#[local] Hint Resolve swar1_ok swar2_ok : bytes.

(** A masked shift of a 4-byte word, byte by byte. *)
Lemma mask4 bs k m :
  length bs = 4%nat -> Forall byte_ok bs -> 0 <= k <= 8 -> 0 <= m < 2 ^ (8 - k) ->
  Z.land (le_word bs ≫ k) (le_word [m; m; m; m]) = le_word (map (fun b => Z.land (b ≫ k) m) bs).
Proof.
  intros Hlen Hok Hk Hm. change [m; m; m; m] with (replicate 4 m). rewrite <- Hlen.
  by apply le_word_mask_shift.
Qed.

Lemma u32_le_word bs : length bs = 4%nat -> Forall byte_ok bs -> u32 (le_word bs) = le_word bs.
Proof.
  intros Hlen Hok. apply Z.mod_small. pose proof (le_word_bound _ Hok) as H.
  rewrite Hlen in H. exact H.
Qed.

Lemma swar1_word bs :
  length bs = 4%nat -> Forall byte_ok bs ->
  u32 (le_word bs - Z.land (le_word bs ≫ 1) 0x55555555) = le_word (map swar1 bs).
Proof.
  intros Hlen Hok. change 0x55555555 with (le_word [0x55; 0x55; 0x55; 0x55]).
  rewrite mask4 by (done || lia). rewrite <- (u32_le_word (map swar1 bs)) by
    (rewrite ?length_map; auto with bytes).
  f_equal. assert (Forall byte_ok (map swar1 bs)) by auto with bytes.
  assert (Forall byte_ok (map (fun b => Z.land (b ≫ 1) 0x55) bs)).
  { apply bytes_ok_map; [|done]. intros b Hb. apply byte_ok_land; [|done].
    apply byte_ok_shiftr; [lia|done]. }
  destruct (length_4 _ Hlen) as (a & b & c & d & ->). unfold swar1 in *. simpl in *.
  inv_Forall. rewrite !le_word_4 by done. lia.
Qed.

Lemma swar2_word bs :
  length bs = 4%nat -> Forall byte_ok bs ->
  u32 (Z.land (le_word bs) 0x33333333 + Z.land (le_word bs ≫ 2) 0x33333333)
  = le_word (map swar2 bs).
Proof.
  intros Hlen Hok. change 0x33333333 with (le_word [0x33; 0x33; 0x33; 0x33]).
  pose proof (mask4 bs 0 0x33 Hlen Hok ltac:(lia) ltac:(lia)) as H0.
  rewrite Z.shiftr_0_r in H0. rewrite H0. rewrite mask4 by (done || lia).
  rewrite <- (u32_le_word (map swar2 bs)) by (rewrite ?length_map; auto with bytes).
  f_equal. assert (Forall byte_ok (map swar2 bs)) by auto with bytes.
  assert (forall k, 0 <= k -> Forall byte_ok (map (fun b => Z.land (b ≫ k) 0x33) bs)) as Hk.
  { intros k Hk0. apply bytes_ok_map; [|done]. intros b Hb. apply byte_ok_land; [|done].
    by apply byte_ok_shiftr. }
  pose proof (Hk 0 ltac:(lia)). pose proof (Hk 2 ltac:(lia)).
  destruct (length_4 _ Hlen) as (a & b & c & d & ->). unfold swar2 in *. simpl in *.
  inv_Forall. rewrite !le_word_4 by done. rewrite !Z.shiftr_0_r. lia.
Qed.

(** Multiplying by 0x01010101 gathers four small digits in the top byte. *)
Lemma gather4 a b c d :
  0 <= a <= 8 -> 0 <= b <= 8 -> 0 <= c <= 8 -> 0 <= d <= 8 ->
  u32 (le_word [a; b; c; d] * 0x01010101) ≫ 24 = a + (b + (c + (d + 0))).
Proof.
  intros. rewrite le_word_4 by (unfold byte_ok; lia). rewrite Z.shiftr_div_pow2 by lia.
  unfold u32.
  replace ((a + 256 * b + 65536 * c + 16777216 * d) * 0x01010101) with
    ((a + 256 * (a + b) + 65536 * (a + b + c) + 16777216 * (a + b + c + d))
     + (b + c + d + 256 * (c + d) + 65536 * d) * 2 ^ 32) by lia.
  rewrite Z.mod_add by lia. rewrite Z.mod_small by lia.
  symmetry. apply (Z.div_unique_pos _ _ _ (a + 256 * (a + b) + 65536 * (a + b + c))); lia.
Qed.

(** The last step: the nibble sums, gathered by the multiplication. *)
Lemma swar3_word bs :
  length bs = 4%nat -> Forall byte_ok bs ->
  Forall (fun c => c `mod` 16 <= 4 /\ c / 16 <= 4) bs ->
  u32 (Z.land (u32 (le_word bs + (le_word bs ≫ 4))) 0xF0F0F0F * 0x01010101) ≫ 24
  = foldr Z.add 0 (map (fun c => c `mod` 16 + c / 16) bs).
Proof.
  intros Hlen Hok Hn. destruct (length_4 _ Hlen) as (a & b & c & d & ->). inv_Forall.
  set (v := le_word _). rewrite (Z.shiftr_div_pow2 v 4) by lia.
  assert (Hs : u32 (v + v / 2 ^ 4) =
    le_word [a + a / 16 + 16 * (b `mod` 16); b + b / 16 + 16 * (c `mod` 16);
             c + c / 16 + 16 * (d `mod` 16); d + d / 16]).
  { subst v. unfold byte_ok in *. rewrite !le_word_4 by (unfold byte_ok; dlia).
    unfold u32. rewrite Z.mod_small; dlia. }
  rewrite Hs. change 0xF0F0F0F with (le_word [15; 15; 15; 15]).
  unfold byte_ok in *.
  rewrite <- le_word_land by (repeat constructor; unfold byte_ok; dlia). simpl.
  change 15 with (Z.ones 4). rewrite !Z.land_ones by lia. change (2 ^ 4) with 16.
  assert (Hnib : forall x y, 0 <= x -> 0 <= x `mod` 16 + x / 16 <= 8 ->
    (x + x / 16 + 16 * y) `mod` 16 = x `mod` 16 + x / 16) by (intros; dlia).
  replace (d + d / 16) with (d + d / 16 + 16 * 0) by lia.
  assert (Hb8 : forall x, 0 <= x -> x `mod` 16 <= 4 /\ x / 16 <= 4 ->
    0 <= x `mod` 16 + x / 16 <= 8) by (intros; dlia).
  rewrite !Hnib by (try apply Hb8; lia).
  pose proof (Hb8 a). pose proof (Hb8 b). pose proof (Hb8 c). pose proof (Hb8 d).
  apply gather4; lia.
Qed.

(** One word of [count_bits] counts the set bits of its four bytes. *)
Lemma count_bits_word_correct bs :
  Forall byte_ok bs -> length bs = 4%nat ->
  count_bits_word (le_word bs) = foldr Z.add 0 (map popcount8 bs).
Proof.
  intros Hok Hlen. unfold count_bits_word.
  rewrite swar1_word, swar2_word by (rewrite ?length_map; auto with bytes).
  rewrite swar3_word.
  - destruct (Z.eqb_spec (le_word bs) 0xffffffff) as [E|_].
    + assert (bs = [255; 255; 255; 255]) as ->; [|done].
      rewrite <- (word_le_le_word 4 bs), E by (done || lia). done.
    + rewrite !map_map. f_equal. apply map_ext_in. intros b Hb.
      rewrite <- list_elem_of_In in Hb. rewrite Forall_forall in Hok.
      by apply swar_byte, Hok.
  - by rewrite !length_map.
  - auto with bytes.
  - rewrite map_map. apply Forall_fmap, (Forall_impl _ _ _ Hok).
    intros b Hb. pose proof (swar_byte b Hb). simpl. lia.
Qed.

(** ** Counting bytes *)

Lemma land_byte_word bs i :
  length bs = 4%nat -> Forall byte_ok bs -> (i < 4)%nat ->
  Z.land (le_word bs) (le_word (<[i := 255]> (replicate 4 0)))
  = le_word (<[i := bs !!! i]> (replicate 4 0)).
Proof.
  intros Hlen Hok Hi. destruct (length_4 _ Hlen) as (a & b & c & d & ->).
  rewrite <- le_word_land; [|done| |by rewrite length_insert].
  2: { do 4 (destruct i as [|i]; [repeat constructor; done|]). lia. }
  inv_Forall. assert (Hl : forall x, byte_ok x -> Z.land x 255 = x).
  { intros x Hx. change 255 with (Z.ones 8). rewrite Z.land_ones by lia. by apply Z.mod_small. }
  do 4 (destruct i as [|i]; [simpl; by rewrite !Z.land_0_r, Hl|]). lia.
Qed.

(** The masks 0x000000ff .. 0xff000000 test the four bytes one by one. *)
Lemma land_byte_cmp bs i (full : bool) :
  length bs = 4%nat -> Forall byte_ok bs -> (i < 4)%nat ->
  (Z.land (le_word bs) (le_word (<[i := 255]> (replicate 4 0)))
     =? le_word (<[i := if full then 255 else 0]> (replicate 4 0)))
  = (bs !!! i =? if full then 255 else 0).
Proof.
  intros Hlen Hok Hi. rewrite land_byte_word by done.
  destruct (length_4 _ Hlen) as (a & b & c & d & ->). inv_Forall.
  apply eq_bool_prop_intro.
  do 4 (destruct i as [|i]; [simpl; rewrite !le_word_4 by (done || by destruct full);
    rewrite !Is_true_true, !Z.eqb_eq; destruct full; lia|]). lia.
Qed.

Lemma count_bytes_word_correct bs :
  Forall byte_ok bs -> length bs = 4%nat ->
  count_bytes_word (le_word bs) = foldr Z.add 0 (map (fun b => b2z (negb (b =? 0))) bs).
Proof.
  intros Hok Hlen. unfold count_bytes_word.
  pose proof (land_byte_cmp bs 0 false Hlen Hok ltac:(lia)) as H0.
  pose proof (land_byte_cmp bs 1 false Hlen Hok ltac:(lia)) as H1.
  pose proof (land_byte_cmp bs 2 false Hlen Hok ltac:(lia)) as H2.
  pose proof (land_byte_cmp bs 3 false Hlen Hok ltac:(lia)) as H3.
  simpl in H0, H1, H2, H3. cbn [negb].
  change (le_word [255; 0; 0; 0]) with 0x000000ff in H0.
  change (le_word [0; 255; 0; 0]) with 0x0000ff00 in H1.
  change (le_word [0; 0; 255; 0]) with 0x00ff0000 in H2.
  change (le_word [0; 0; 0; 255]) with 0xff000000 in H3.
  change (le_word [0; 0; 0; 0]) with 0 in H0, H1, H2, H3.
  rewrite H0, H1, H2, H3. pose proof (le_word_eq_0 bs Hok) as Hz.
  destruct (length_4 _ Hlen) as (a & b & c & d & ->). simpl.
  destruct (Z.eqb_spec (le_word [a; b; c; d]) 0) as [E|_]; [|lia].
  apply Hz in E. inv_Forall. by subst.
Qed.

Lemma count_non_255_word_correct bs :
  Forall byte_ok bs -> length bs = 4%nat ->
  count_non_255_word (le_word bs) = foldr Z.add 0 (map (fun b => b2z (negb (b =? 255))) bs).
Proof.
  intros Hok Hlen. unfold count_non_255_word.
  pose proof (land_byte_cmp bs 0 true Hlen Hok ltac:(lia)) as H0.
  pose proof (land_byte_cmp bs 1 true Hlen Hok ltac:(lia)) as H1.
  pose proof (land_byte_cmp bs 2 true Hlen Hok ltac:(lia)) as H2.
  pose proof (land_byte_cmp bs 3 true Hlen Hok ltac:(lia)) as H3.
  simpl in H0, H1, H2, H3.
  change (le_word [255; 0; 0; 0]) with 0x000000ff in H0.
  change (le_word [0; 255; 0; 0]) with 0x0000ff00 in H1.
  change (le_word [0; 0; 255; 0]) with 0x00ff0000 in H2.
  change (le_word [0; 0; 0; 255]) with 0xff000000 in H3.
  rewrite H0, H1, H2, H3.
  destruct (length_4 _ Hlen) as (a & b & c & d & ->). simpl.
  destruct (Z.eqb_spec (le_word [a; b; c; d]) 0xffffffff) as [E|_]; [|lia].
  assert ([a; b; c; d] = [255; 255; 255; 255]) as [= -> -> -> ->]; [|done].
  rewrite <- (word_le_le_word 4 [a; b; c; d]), E by (done || lia). done.
Qed.

(** ** Bytewise meaning of the tables *)

Definition count_class (b : Z) : Z := lookup8 count_class_lookup8 b.
Definition simplify_byte (b : Z) : Z := lookup8 simplify_lookup b.

Lemma count_class_ok b : byte_ok b -> byte_ok (count_class b).
Proof.
  intros Hb. exact (bool_decide_eq_true_1 _
    (all_bytes_spec (fun b => bool_decide (byte_ok (count_class b))) b eq_refl Hb)).
Qed.

#[export] Hint Resolve count_class_ok : bytes.

(** The table holds, at every 16-bit index, the classes of its two bytes. *)
Lemma init_count_class16_lookup b1 b2 :
  byte_ok b1 -> byte_ok b2 ->
  init_count_class16 !!! Z.lor b2 (b1 ≪ 8) = Z.lor (count_class b2) (count_class b1 ≪ 8).
Proof.
  intros Hb1 Hb2. rewrite lor_disjoint_add by (lia || exact Hb2).
  replace (b2 + b1 * 2 ^ 8) with ((b1 ≪ 8) + b2) by (rewrite Z.shiftl_mul_pow2 by lia; lia).
  apply lookup_total_correct. unfold init_count_class16.
  set (inner := fun (t : gmap Z Z) b1 => foldl _ t _).
  assert (H : forall l t, b1 ∈ l -> Forall byte_ok l ->
    foldl inner t l !! ((b1 ≪ 8) + b2) = Some (Z.lor (count_class b2) (count_class b1 ≪ 8))).
  { intros l. induction l as [|x l IH] using rev_ind; intros t Hin Hok; [set_solver|].
    rewrite foldl_app. cbn [foldl]. unfold inner at 1.
    apply Forall_app in Hok as [Hok Hx]. inv_Forall.
    destruct (decide (x = b1)) as [->|Hne].
    - rewrite (foldl_insert_in (fun b2 => (b1 ≪ 8) + b2)
        (fun b2 => Z.lor (lookup8 count_class_lookup8 b1 ≪ 8) (lookup8 count_class_lookup8 b2))
        _ _ b2).
      + by rewrite Z.lor_comm.
      + apply elem_of_seqZ. unfold byte_ok in *. lia.
      + intros y _ Hy. replace y with b2 by lia. done.
    - rewrite (foldl_insert_other (fun b2 => (x ≪ 8) + b2)
        (fun b2 => Z.lor (lookup8 count_class_lookup8 x ≪ 8) (lookup8 count_class_lookup8 b2))).
      + apply IH; [set_solver|done].
      + intros y Hy. apply elem_of_seqZ in Hy. rewrite !Z.shiftl_mul_pow2 by lia.
        unfold byte_ok in *. lia. }
  apply H; [apply elem_of_seqZ; unfold byte_ok in *; lia|].
  apply Forall_forall. intros x Hx. apply elem_of_seqZ in Hx. unfold byte_ok. lia.
Qed.

(** From here on the table is known through its lookup lemma only. *)
Opaque init_count_class16.

(** ** Bytewise meaning of the word-wise routines *)

Definition hit (cv : Z * Z) : bool := negb (Z.land cv.1 cv.2 =? 0).

(** 2 when a byte is hit for the first time, 1 when only a new hit count shows
    up, 0 otherwise. *)
Definition verdict (cur vir : list Z) : Z :=
  if pristine_hit cur vir then 2 else if existsb hit (zip cur vir) then 1 else 0.

Definition clear_seen (cur vir : list Z) : list Z := zip_with Z.ldiff vir cur.

Lemma hit_0 v : hit (0, v) = false.
Proof. done. Qed.

Lemma pristine_imp_hit cur vir :
  Forall byte_ok cur -> pristine_hit cur vir = true -> existsb hit (zip cur vir) = true.
Proof.
  intros Hok. unfold pristine_hit. rewrite !existsb_exists. intros [[c v] [Hin Hcv]].
  exists (c, v). split; [done|]. apply andb_true_iff in Hcv as [Hc Hv].
  apply Z.eqb_eq in Hv as ->. unfold hit; simpl. change 255 with (Z.ones 8).
  rewrite Z.land_ones, Z.mod_small; [done| |lia].
  apply in_combine_l in Hin. rewrite Forall_forall in Hok. apply Hok. by apply list_elem_of_In.
Qed.

Lemma ldiff_no_hit c v : Z.land c v = 0 -> Z.ldiff v c = v.
Proof.
  intros H. apply Z.bits_inj'. intros i Hi. rewrite Z.ldiff_spec.
  pose proof (f_equal (fun z => Z.testbit z i) H) as Hb. simpl in Hb.
  rewrite Z.land_spec, Z.testbit_0_l in Hb.
  destruct (Z.testbit c i), (Z.testbit v i); done.
Qed.

Lemma clear_seen_no_hit cur vir :
  length cur = length vir -> existsb hit (zip cur vir) = false -> clear_seen cur vir = vir.
Proof.
  revert vir. induction cur as [|c cur IH]; intros [|v vir] Hlen; try discriminate; [done|].
  simpl. intros [Hc Hcs]%orb_false_iff. unfold clear_seen in *. simpl.
  f_equal; [|by apply IH; [simpl in Hlen; lia|]].
  apply ldiff_no_hit. unfold hit in Hc. simpl in Hc. apply negb_false_iff, Z.eqb_eq in Hc. done.
Qed.

Lemma clear_seen_ok cur vir :
  Forall byte_ok cur -> Forall byte_ok vir -> Forall byte_ok (clear_seen cur vir).
Proof.
  intros. by apply (bitwise_bytes_ok _ (fun a b => a && negb b) Z.ldiff_spec).
Qed.

Lemma word_no_hit cur vir :
  Forall byte_ok cur -> Forall byte_ok vir -> length cur = length vir ->
  (Z.land (le_word cur) (le_word vir) =? 0) = negb (existsb hit (zip cur vir)).
Proof.
  intros Hc Hv Hlen. rewrite <- le_word_land by done. apply eq_bool_prop_intro.
  rewrite !Is_true_true, Z.eqb_eq, negb_true_iff.
  rewrite le_word_eq_0 by (by apply (bitwise_bytes_ok _ andb Z.land_spec)).
  clear Hc Hv. revert vir Hlen.
  induction cur as [|c cur IH]; intros [|v vir] Hlen; try discriminate; [done|]. simpl.
  rewrite Forall_cons, orb_false_iff, IH by (simpl in Hlen; lia).
  unfold hit; simpl. rewrite negb_false_iff, Z.eqb_eq. done.
Qed.

Lemma zip_app_take {A B} n (l : list A) (k : list B) :
  zip l k = zip (take n l) (take n k) ++ zip (drop n l) (drop n k).
Proof.
  revert l k. induction n as [|n IH]; intros [|x l] [|y k]; simpl; try done.
  - by destruct (drop n l).
  - by rewrite <- IH.
Qed.

Lemma verdict_range cur vir : 0 <= verdict cur vir <= 2.
Proof. unfold verdict. repeat case_match; lia. Qed.

Lemma verdict_split n cur vir :
  verdict cur vir = Z.max (verdict (take n cur) (take n vir)) (verdict (drop n cur) (drop n vir)).
Proof.
  unfold verdict, pristine_hit. rewrite (zip_app_take n cur vir), !existsb_app.
  repeat match goal with |- context [existsb ?p ?l] => destruct (existsb p l) end; done.
Qed.

Lemma clear_seen_split n cur vir :
  clear_seen cur vir =
  clear_seen (take n cur) (take n vir) ++ clear_seen (drop n cur) (drop n vir).
Proof.
  unfold clear_seen. revert cur vir.
  induction n as [|n IH]; intros [|c cur] [|v vir]; simpl; try done.
  - by destruct (drop n vir).
  - by rewrite <- IH.
Qed.

(** The classification, word by word, is the bytewise table. *)
Lemma classify_pair16 bs :
  Forall byte_ok bs ->
  map (fun m => init_count_class16 !!! m) (pair16 bs) = pair16 (map count_class bs).
Proof.
  induction bs as [| |a b bs IH] using list_pair_ind; intros Hok; [done..|].
  inv_Forall. cbn [map pair16]. rewrite init_count_class16_lookup, IH by done. done.
Qed.

(** [skim] looks for a classified byte that still is in the virgin map. *)
Definition cls_hit (cur vir : list Z) : bool := existsb hit (zip (map count_class cur) vir).

Lemma cls_hit_split a b cur vir :
  (a <= length cur)%nat -> (a <= length vir)%nat ->
  cls_hit (take (a + b) cur) (take (a + b) vir) =
  cls_hit (take a cur) (take a vir) || cls_hit (take b (drop a cur)) (take b (drop a vir)).
Proof.
  intros Hc Hv. unfold cls_hit. rewrite !take_split, map_app.
  rewrite zip_with_app by (rewrite length_map, !length_take; lia).
  by rewrite existsb_app.
Qed.

Section word_size_proofs.
Context (wb : nat) (Hwb : wb = 4%nat \/ wb = 8%nat).

Lemma classify_word_correct bs :
  Forall byte_ok bs -> length bs = wb ->
  classify_word wb init_count_class16 (le_word bs) = le_word (map count_class bs).
Proof using Hwb.
  intros Hok Hlen. assert (Hev : Nat.even (length bs) = true) by (rewrite Hlen; by destruct Hwb as [-> | ->]).
  unfold classify_word. rewrite le_word_pair16 by done.
  rewrite Z_to_little_endian_to_Z; [| |lia|by apply pair16_ok].
  - rewrite classify_pair16 by done. symmetry. apply le_word_pair16. by rewrite length_map.
  - pose proof (pair16_length bs) as H. rewrite <- Nat.negb_even, Hev in H. simpl in H.
    unfold zwb. rewrite <- Hlen. dlia.
Qed.

Lemma classify_step_map w :
  Forall byte_ok w -> length w = wb ->
  (if negb (le_word w =? 0)
   then word_le (zwb wb) (classify_word wb init_count_class16 (le_word w)) else w)
  = map count_class w.
Proof using Hwb.
  intros Hok Hlen. destruct (Z.eqb_spec (le_word w) 0) as [E|_]; simpl.
  - apply le_word_eq_0 in E; [|done]. clear -E. induction E as [|x l -> ? IH]; [done|].
    simpl. by rewrite <- IH.
  - rewrite classify_word_correct by done.
    apply word_le_le_word; [auto with bytes|]. rewrite length_map. unfold zwb. lia.
Qed.

Lemma simplify_step_map w :
  Forall byte_ok w -> length w = wb -> simplify_word wb w = map simplify_byte w.
Proof using Hwb.
  intros Hok Hlen. unfold simplify_word.
  destruct (Z.eqb_spec (le_word w) 0) as [E|_]; simpl; [|done].
  apply le_word_eq_0 in E; [|done]. rewrite <- Hlen. clear -E.
  induction E as [|x l -> ? IH]; [done|]. simpl. by rewrite IH.
Qed.

Lemma discover_word_correct ret cur vir :
  Forall byte_ok cur -> Forall byte_ok vir -> length cur = wb -> length vir = wb ->
  0 <= ret <= 2 ->
  discover_word wb ret cur vir = (Z.max ret (verdict cur vir), clear_seen cur vir).
Proof using Hwb.
  intros Hc Hv Hlc Hlv Hret. unfold discover_word, verdict.
  rewrite word_no_hit by (done || congruence). rewrite negb_involutive.
  pose proof (pristine_imp_hit cur vir Hc) as Hp.
  destruct (existsb hit (zip cur vir)) eqn:Eh.
  - f_equal.
    + destruct (pristine_hit cur vir); destruct (Z.ltb_spec ret 2); lia.
    + rewrite <- Z.ldiff_land, <- le_word_ldiff by (done || congruence).
      apply word_le_le_word; [by apply clear_seen_ok|].
      unfold clear_seen, zwb. rewrite length_zip_with. lia.
  - destruct (pristine_hit cur vir); [by discriminate Hp|].
    rewrite clear_seen_no_hit by (done || congruence). f_equal. lia.
Qed.

Lemma has_new_bits_loop_correct i ret cur vir :
  Forall byte_ok cur -> Forall byte_ok vir ->
  (i * wb <= length cur)%nat -> (i * wb <= length vir)%nat -> 0 <= ret <= 2 ->
  has_new_bits_loop wb i ret cur vir =
  (Z.max ret (verdict (take (i * wb) cur) (take (i * wb) vir)),
   clear_seen (take (i * wb) cur) (take (i * wb) vir) ++ drop (i * wb) vir).
Proof using Hwb.
  revert ret cur vir. induction i as [|i IH]; intros ret cur vir Hc Hv Hlc Hlv Hret.
  { simpl. f_equal. unfold verdict, pristine_hit. simpl. lia. }
  cbn [has_new_bits_loop].
  assert (Hstep :
    (if negb (le_word (take wb cur) =? 0)
     then discover_word wb ret (take wb cur) (take wb vir) else (ret, take wb vir)) =
    (Z.max ret (verdict (take wb cur) (take wb vir)), clear_seen (take wb cur) (take wb vir))).
  { assert (Hd : discover_word wb ret (take wb cur) (take wb vir) = _) by
      (apply discover_word_correct; auto with bytes; rewrite length_take; lia).
    destruct (Z.eqb_spec (le_word (take wb cur)) 0) as [E|_]; [|exact Hd].
    rewrite <- Hd. unfold discover_word. rewrite E, Z.land_0_l. done. }
  rewrite Hstep. rewrite IH; auto with bytes; [|rewrite length_drop; lia..|].
  2: { pose proof (verdict_range (take wb cur) (take wb vir)). lia. }
  simpl Nat.mul. f_equal.
  - rewrite (verdict_split wb (take (wb + i * wb) cur)), !take_take, !skipn_firstn_comm.
    rewrite !Nat.min_l by lia. replace (wb + i * wb - wb)%nat with (i * wb)%nat by lia. lia.
  - rewrite (clear_seen_split wb (take (wb + i * wb) cur)), !take_take, !skipn_firstn_comm.
    rewrite !Nat.min_l by lia. replace (wb + i * wb - wb)%nat with (i * wb)%nat by lia.
    by rewrite <- app_assoc, drop_drop.
Qed.

Lemma skim_word_correct vir cur k :
  Forall byte_ok cur -> Forall byte_ok vir ->
  (k * wb + wb <= length cur)%nat -> (k * wb + wb <= length vir)%nat ->
  skim_word wb init_count_class16 vir cur k
  = cls_hit (take wb (drop (k * wb) cur)) (take wb (drop (k * wb) vir)).
Proof using Hwb.
  intros Hc Hv Hlc Hlv. unfold skim_word, cls_hit.
  set (c := take wb (drop _ cur)). set (v := take wb (drop _ vir)).
  assert (Hokc : Forall byte_ok c) by (subst c; auto with bytes).
  assert (Hokv : Forall byte_ok v) by (subst v; auto with bytes).
  assert (Hlenc : length c = wb) by (subst c; rewrite length_take, length_drop; lia).
  assert (Hlenv : length v = wb) by (subst v; rewrite length_take, length_drop; lia).
  rewrite classify_word_correct, word_no_hit by
    (auto with bytes; rewrite ?length_map; congruence).
  rewrite negb_involutive. destruct (Z.eqb_spec (le_word c) 0) as [E|_]; [|done].
  apply le_word_eq_0 in E; [|done]. simpl. symmetry. clearbody c v. clear -E. revert v.
  induction E as [|x l -> ? IH]; intros [|y v]; [done..|]. cbn [map zip_with existsb].
  by rewrite IH, hit_0.
Qed.

Lemma skim_correct i vir cur :
  Forall byte_ok cur -> Forall byte_ok vir ->
  (i * (4 * wb) <= length cur)%nat -> (i * (4 * wb) <= length vir)%nat ->
  skim wb init_count_class16 i vir cur
  = if cls_hit (take (i * (4 * wb)) cur) (take (i * (4 * wb)) vir) then 1 else 0.
Proof using Hwb.
  revert vir cur. induction i as [|i IH]; intros vir cur Hc Hv Hlc Hlv; [done|].
  cbn [skim]. rewrite !skim_word_correct by (done || lia).
  rewrite IH by (auto with bytes; rewrite length_drop; lia).
  replace (S i * (4 * wb))%nat with (wb + (wb + (wb + (wb + i * (4 * wb)))))%nat by lia.
  do 4 (rewrite cls_hit_split by (rewrite ?length_drop; lia)).
  rewrite !drop_drop.
  replace (0 * wb)%nat with 0%nat by lia. replace (1 * wb)%nat with wb by lia.
  replace (2 * wb)%nat with (wb + wb)%nat by lia.
  replace (3 * wb)%nat with (wb + (wb + wb))%nat by lia.
  replace (4 * wb)%nat with (wb + (wb + (wb + wb)))%nat by lia.
  rewrite !Nat.add_assoc, !drop_0.
  repeat match goal with |- context [cls_hit ?a ?b] => destruct (cls_hit a b) end; done.
Qed.
End word_size_proofs.

(** ** Well-formed maps *)

(** What [afl-fuzz] sets up: the trace and virgin maps hold [map_size] bytes,
    [map_size] is a multiple of 64 and at least the size the target reported. *)
Record maps_ok (fsrv : afl_forkserver_t) (vm : virgin_maps) : Prop := {
  mo_div : map_size fsrv `mod` 64 = 0;
  mo_real : 0 <= real_map_size fsrv <= map_size fsrv;
  mo_trace : Z.of_nat (length (trace_bits fsrv)) = map_size fsrv;
  mo_virgin sel : Z.of_nat (length (get_virgin sel vm)) = map_size fsrv;
  mo_trace_ok : Forall byte_ok (trace_bits fsrv);
  mo_virgin_ok sel : Forall byte_ok (get_virgin sel vm);
}.

(** The bytes [has_new_bits] scans: the reported size rounded up to words. *)
Definition scanned (wb : nat) (fsrv : afl_forkserver_t) : nat :=
  (words_of (zwb wb) (real_map_size fsrv) * wb)%nat.

Section bitmap_theorems.
Context (wb : nat) (Hwb : wb = 4%nat \/ wb = 8%nat).

Lemma scanned_le fsrv vm : maps_ok fsrv vm -> Z.of_nat (scanned wb fsrv) <= map_size fsrv.
Proof using Hwb.
  intros [Hdiv Hreal _ _ _ _]. unfold scanned, words_of, zwb.
  destruct Hwb as [-> | ->]; dlia.
Qed.

Lemma classify_counts_map fsrv vm :
  maps_ok fsrv vm ->
  trace_bits (classify_counts wb init_count_class16 fsrv) = map count_class (trace_bits fsrv).
Proof using Hwb.
  intros [Hdiv Hreal Ht _ Htok _]. simpl.
  assert (Hn : (Z.to_nat (map_size fsrv / zwb wb) * wb)%nat = length (trace_bits fsrv)).
  { unfold zwb. destruct Hwb as [-> | ->]; dlia. }
  rewrite (map_words_map _ _ count_class); [| |done|lia].
  - rewrite Hn, firstn_all, drop_all, app_nil_r. done.
  - intros w Hw Hlen. by apply classify_step_map.
Qed.

Lemma classify_counts_ok fsrv vm :
  maps_ok fsrv vm -> maps_ok (classify_counts wb init_count_class16 fsrv) vm.
Proof using Hwb.
  intros Hok. pose proof (classify_counts_map _ _ Hok) as Hc. destruct Hok.
  constructor; simpl in *; try done; rewrite Hc; [by rewrite length_map|auto with bytes].
Qed.

Lemma has_new_bits_eq fsrv sel vm :
  maps_ok fsrv vm ->
  let n := scanned wb fsrv in
  let cur := take n (trace_bits fsrv) in
  let vir := take n (get_virgin sel vm) in
  let vm' := set_virgin sel (clear_seen cur vir ++ drop n (get_virgin sel vm)) vm in
  has_new_bits wb fsrv sel vm =
  (verdict cur vir,
   if negb (verdict cur vir =? 0) && bool_decide (sel = VirginBits)
   then mark_changed vm' else vm').
Proof using Hwb.
  intros Hok n cur vir vm'. pose proof (scanned_le _ _ Hok) as Hn.
  destruct Hok as [_ _ Ht Hv Htok Hvok]. unfold has_new_bits.
  rewrite (has_new_bits_loop_correct wb Hwb) by
    (auto; try specialize (Hv sel); unfold scanned in Hn; lia).
  fold (scanned wb fsrv). fold n cur vir. rewrite Z.max_r by apply verdict_range. done.
Qed.
End bitmap_theorems.

(** ** [minimize_bits] *)

(** Bit [j] of a packed bitmap. *)
Definition packed_bit (dst : list Z) (j : Z) : bool :=
  Z.testbit (dst !!! Z.to_nat (j / 8)) (j `mod` 8).

Lemma or_bit_byte b k : byte_ok b -> 0 <= k < 8 -> byte_ok (Z.lor b (1 ≪ k)).
Proof.
  intros Hb Hk. apply (bits_bounded 8); [lia|]. intros l Hl. zbits_push. byte_high.
  change 1 with (2 ^ 0). rewrite Z.pow2_bits_false by lia. done.
Qed.

Lemma or_bit_testbit b k m :
  byte_ok b -> 0 <= k < 8 -> 0 <= m ->
  Z.testbit (u8 (Z.lor b (1 ≪ k))) m = Z.testbit b m || bool_decide (m = k).
Proof.
  intros Hb Hk Hm. unfold u8. rewrite Z.mod_small by (by apply or_bit_byte).
  zbits_push. f_equal. case_bool_decide as E.
  - subst. by rewrite Z.sub_diag.
  - change 1 with (2 ^ 0). apply Z.pow2_bits_false. lia.
Qed.

Lemma lookup_total_ok dst k : Forall byte_ok dst -> byte_ok (dst !!! k).
Proof.
  intros H. rewrite list_lookup_total_alt. destruct (dst !! k) eqn:E; simpl; [|done].
  exact (Forall_lookup_1 _ _ _ _ H E).
Qed.

Lemma minimize_bits_loop_spec n i dst src :
  Forall byte_ok dst -> 0 <= i -> i + Z.of_nat n <= 8 * Z.of_nat (length dst) ->
  length src = n ->
  let dst' := minimize_bits_loop n i dst src in
  length dst' = length dst /\ Forall byte_ok dst' /\
  forall j, 0 <= j ->
    packed_bit dst' j =
    packed_bit dst j ||
    (bool_decide (i <= j < i + Z.of_nat n) && negb (src !!! Z.to_nat (j - i) =? 0)).
Proof.
  revert i dst src. induction n as [|n IH]; intros i dst src Hok Hi Hb Hlen; cbn [minimize_bits_loop].
  { repeat split; [done|]. intros j Hj. rewrite bool_decide_false by lia. by rewrite orb_false_r. }
  destruct src as [|s src]; [discriminate|]. cbn [drop]. rewrite list_lookup_total_alt. simpl.
  rewrite Z.shiftr_div_pow2 by lia. change (2 ^ 3) with 8.
  change 7 with (Z.ones 3). rewrite Z.land_ones by lia. change (2 ^ 3) with 8.
  set (dst1 := if negb (s =? 0) then _ else _).
  assert (Hlen1 : length dst1 = length dst) by (subst dst1; case_match; by rewrite ?length_insert).
  assert (Hm : 0 <= i `mod` 8 < 8) by (apply Z.mod_pos_bound; lia).
  assert (Hok1 : Forall byte_ok dst1).
  { subst dst1. case_match; [|done]. apply Forall_insert; [done|apply byte_ok_u8]. }
  assert (Hq : (Z.to_nat (i / 8) < length dst)%nat) by dlia.
  assert (Hbit : forall j, 0 <= j ->
    packed_bit dst1 j = packed_bit dst j || (bool_decide (j = i) && negb (s =? 0))).
  { intros j Hj. subst dst1. destruct (Z.eqb_spec s 0); simpl; [by rewrite andb_false_r, orb_false_r|].
    rewrite andb_true_r. unfold packed_bit.
    destruct (decide (Z.to_nat (j / 8) = Z.to_nat (i / 8))) as [E|E].
    - rewrite E, list_lookup_total_insert_eq by done.
      rewrite or_bit_testbit by (try apply lookup_total_ok; dlia || done).
      f_equal. apply bool_decide_ext. split; dlia.
    - rewrite list_lookup_total_insert_ne by done. rewrite bool_decide_false by (intros ->; done).
      by rewrite orb_false_r. }
  destruct (IH (i + 1) dst1 src) as (Hl & Ho & Hs); [done|lia|lia|simpl in Hlen; lia|].
  split; [etrans; [exact Hl|exact Hlen1]|]. split; [exact Ho|]. intros j Hj.
  etrans; [exact (Hs j Hj)|]. rewrite Hbit by done.
  rewrite <- orb_assoc. f_equal. destruct (decide (j = i)) as [->|Hne].
  - rewrite (bool_decide_true (i = i)) by done. rewrite (bool_decide_false (i + 1 <= i < _)) by lia.
    rewrite bool_decide_true by lia. rewrite Z.sub_diag. simpl. by rewrite orb_false_r.
  - rewrite (bool_decide_false (j = i)) by done. simpl. destruct (decide (i < j)).
    + replace (Z.to_nat (j - i)) with (S (Z.to_nat (j - (i + 1)))) by lia. simpl.
      f_equal. apply bool_decide_ext. lia.
    + rewrite !bool_decide_false by lia. done.
Qed.

(** ** Properties *)

(** The bucket of a hit count, as the comment above [count_class_lookup8] means it. *)
Definition bucket (b : Z) : Z :=
  if b =? 0 then 0 else if b =? 1 then 1 else if b =? 2 then 2 else if b =? 3 then 4
  else if b <=? 7 then 8 else if b <=? 15 then 16 else if b <=? 31 then 32
  else if b <=? 127 then 64 else 128.

Lemma count_class_bucket b : byte_ok b -> count_class b = bucket b.
Proof. by apply all_bytes_eq. Qed.

(** [classify_counts], in either word size, replaces every byte of the trace
    by the bucket of its hit count and changes nothing else. *)
Theorem classify_counts_bytewise wb fsrv vm :
  wb = 4%nat \/ wb = 8%nat -> maps_ok fsrv vm ->
  classify_counts wb init_count_class16 fsrv
  = set_trace (map bucket (trace_bits fsrv)) fsrv.
Proof.
  intros Hwb Hok. pose proof (classify_counts_map wb Hwb fsrv vm Hok) as H.
  destruct fsrv as [tb ms rs]. unfold set_trace. simpl in *.
  unfold classify_counts, set_trace in *. simpl in *. f_equal. rewrite H.
  apply map_ext_in. intros b Hb. apply count_class_bucket.
  destruct Hok as [_ _ _ _ Htok _]. rewrite Forall_forall in Htok.
  apply Htok. by apply list_elem_of_In.
Qed.

(** [simplify_trace] turns every byte into 1 (not hit) or 128 (hit). *)
Theorem simplify_trace_bytewise wb fsrv vm :
  wb = 4%nat \/ wb = 8%nat -> maps_ok fsrv vm ->
  simplify_trace wb fsrv (trace_bits fsrv)
  = map (fun b => if b =? 0 then 1 else 128) (trace_bits fsrv).
Proof.
  intros Hwb [Hdiv Hreal Ht _ Htok _]. unfold simplify_trace.
  assert (Hn : (Z.to_nat (map_size fsrv / zwb wb) * wb)%nat = length (trace_bits fsrv)).
  { unfold zwb. destruct Hwb as [-> | ->]; dlia. }
  rewrite (map_words_map _ _ simplify_byte); [| |done|lia].
  - rewrite Hn, firstn_all, drop_all, app_nil_r. apply map_ext_in. intros b Hb.
    rewrite Forall_forall in Htok.
    apply (all_bytes_eq simplify_byte (fun b => if b =? 0 then 1 else 128) b eq_refl).
    apply Htok. by apply list_elem_of_In.
  - intros w Hw Hlen. by apply simplify_step_map.
Qed.

(** What one comparison of a trace with a virgin map must do, byte by byte. *)
Record discovery (cur vir vir' : list Z) (r : Z) : Prop := {
  d_new_tuple : r = 2 <-> exists i c, cur !! i = Some c /\ c <> 0 /\ vir !! i = Some 255;
  d_new_count : r = 0 <-> forall i c v, cur !! i = Some c -> vir !! i = Some v -> Z.land c v = 0;
  d_range : r = 0 \/ r = 1 \/ r = 2;
  d_update i : vir' !! i = (v ← vir !! i; c ← cur !! i; Some (Z.ldiff v c));
}.

Lemma verdict_discovery cur vir :
  Forall byte_ok cur -> length cur = length vir ->
  discovery cur vir (clear_seen cur vir) (verdict cur vir).
Proof.
  intros Hok Hlen. pose proof (pristine_imp_hit cur vir Hok) as Hph.
  assert (Hp : pristine_hit cur vir = true <->
    exists i c, cur !! i = Some c /\ c <> 0 /\ vir !! i = Some 255).
  { unfold pristine_hit. rewrite existsb_exists. split.
    - intros [[c v] [Hin Hcv]]. apply list_elem_of_In, list_elem_of_lookup in Hin as [i Hi].
      apply lookup_zip_with_Some in Hi as (c' & v' & [= -> ->] & Hc & Hv).
      apply andb_true_iff in Hcv as [Hn%negb_true_iff%Z.eqb_neq Hv'%Z.eqb_eq]. subst. eauto.
    - intros (i & c & Hc & Hn & Hv). exists (c, 255). split.
      + apply list_elem_of_In, list_elem_of_lookup. exists i. apply lookup_zip_with_Some. eauto 10.
      + apply andb_true_iff. split; [|done]. by apply negb_true_iff, Z.eqb_neq. }
  assert (Hh : existsb hit (zip cur vir) = false <->
    forall i c v, cur !! i = Some c -> vir !! i = Some v -> Z.land c v = 0).
  { rewrite <- not_true_iff_false, existsb_exists. split.
    - intros Hno i c v Hc Hv. destruct (Z.eqb_spec (Z.land c v) 0) as [|Hne]; [done|].
      destruct Hno. exists (c, v). split.
      + apply list_elem_of_In, list_elem_of_lookup. exists i. apply lookup_zip_with_Some. eauto 10.
      + unfold hit. simpl. by apply negb_true_iff, Z.eqb_neq.
    - intros Hall [[c v] [Hin Hcv]]. apply list_elem_of_In, list_elem_of_lookup in Hin as [i Hi].
      apply lookup_zip_with_Some in Hi as (c' & v' & [= -> ->] & Hc & Hv).
      unfold hit in Hcv. simpl in Hcv. by rewrite (Hall _ _ _ Hc Hv) in Hcv. }
  constructor.
  - rewrite <- Hp. unfold verdict. destruct (pristine_hit cur vir); [done|].
    split; [|done]. by case_match.
  - rewrite <- Hh. unfold verdict. destruct (pristine_hit cur vir); [by rewrite Hph|].
    by destruct (existsb hit (zip cur vir)).
  - unfold verdict. repeat case_match; auto.
  - intros i. unfold clear_seen. rewrite lookup_zip_with. done.
Qed.

(** C5: [has_new_bits] returns 2 exactly when a byte is hit whose virgin byte is
    untouched, 0 exactly when every hit bit was already cleared, and 1 otherwise;
    it clears from the virgin map exactly the bits of the trace, touches neither
    the bytes past the reported map size nor the other virgin maps, and raises
    [bitmap_changed] exactly when something new was found in [virgin_bits]. *)
Theorem has_new_bits_spec wb fsrv sel vm :
  wb = 4%nat \/ wb = 8%nat -> maps_ok fsrv vm ->
  let n := scanned wb fsrv in
  let '(r, vm') := has_new_bits wb fsrv sel vm in
  discovery (take n (trace_bits fsrv)) (take n (get_virgin sel vm))
    (take n (get_virgin sel vm')) r /\
  drop n (get_virgin sel vm') = drop n (get_virgin sel vm) /\
  (forall sel', sel' <> sel -> get_virgin sel' vm' = get_virgin sel' vm) /\
  bitmap_changed vm'
  = (if negb (r =? 0) && bool_decide (sel = VirginBits) then 1 else bitmap_changed vm).
Proof.
  intros Hwb Hok n. rewrite (has_new_bits_eq wb Hwb) by done. fold n.
  pose proof (scanned_le wb Hwb _ _ Hok) as Hn. fold n in Hn.
  destruct Hok as [_ _ Ht Hv Htok Hvok]. specialize (Hv sel).
  set (cur := take n (trace_bits fsrv)). set (vir := take n (get_virgin sel vm)).
  assert (Hlc : length cur = n) by (subst cur; rewrite length_take; lia).
  assert (Hlv : length vir = n) by (subst vir; rewrite length_take; lia).
  assert (Hcs : length (clear_seen cur vir) = n)
    by (unfold clear_seen; rewrite length_zip_with; lia).
  set (vm' := if _ && _ then _ else _).
  assert (Hget : get_virgin sel vm' = clear_seen cur vir ++ drop n (get_virgin sel vm))
    by (subst vm'; by destruct sel, (_ && _)).
  rewrite Hget, take_app_length', drop_app_length' by done. split; [|split; [done|split]].
  - apply verdict_discovery; [subst cur; auto with bytes|congruence].
  - intros sel' Hne. subst vm'. by destruct sel, sel', (_ && _).
  - subst vm'. by destruct sel, (negb _).
Qed.

Lemma verdict_cleared cur vir :
  Forall byte_ok cur -> length cur = length vir -> verdict cur (clear_seen cur vir) = 0.
Proof.
  intros Hok Hlen.
  assert (Hno : existsb hit (zip cur (clear_seen cur vir)) = false).
  { clear Hok. revert vir Hlen. induction cur as [|c cur IH]; intros [|v vir] Hlen; try done.
    unfold clear_seen. simpl. fold (clear_seen cur vir).
    rewrite IH by (simpl in Hlen; lia). unfold hit. simpl.
    replace (Z.land c (Z.ldiff v c)) with 0; [done|]. zbits. }
  unfold verdict. rewrite Hno. destruct (pristine_hit cur (clear_seen cur vir)) eqn:E; [|done].
  apply pristine_imp_hit in E; congruence.
Qed.

Lemma clear_seen_idemp cur vir :
  length cur = length vir -> clear_seen cur (clear_seen cur vir) = clear_seen cur vir.
Proof.
  revert vir. induction cur as [|c cur IH]; intros [|v vir] Hlen; try done.
  unfold clear_seen in *. simpl in *. rewrite IH by lia. f_equal. zbits.
Qed.

(** What [has_new_bits] does to the maps. *)
Record compared (wb : nat) (fsrv : afl_forkserver_t) (sel : virgin_sel) (vm vm' : virgin_maps) (r : Z) : Prop := {
  cp_verdict : r = verdict (take (scanned wb fsrv) (trace_bits fsrv)) (take (scanned wb fsrv) (get_virgin sel vm));
  cp_map : get_virgin sel vm' = clear_seen (take (scanned wb fsrv) (trace_bits fsrv))
             (take (scanned wb fsrv) (get_virgin sel vm)) ++ drop (scanned wb fsrv) (get_virgin sel vm);
  cp_other : forall sel', sel' <> sel -> get_virgin sel' vm' = get_virgin sel' vm;
  cp_ok : maps_ok fsrv vm';
}.

Lemma has_new_bits_compared wb fsrv sel vm :
  wb = 4%nat \/ wb = 8%nat -> maps_ok fsrv vm ->
  let '(r, vm') := has_new_bits wb fsrv sel vm in compared wb fsrv sel vm vm' r.
Proof.
  intros Hwb Hok. rewrite (has_new_bits_eq wb Hwb) by done.
  pose proof (scanned_le wb Hwb _ _ Hok) as Hn. set (n := scanned wb fsrv) in *.
  set (cur := take n (trace_bits fsrv)). set (vir := take n (get_virgin sel vm)).
  destruct Hok as [Hd Hr Ht Hv Htok Hvok].
  assert (Hlc : length cur = n) by (subst cur; rewrite length_take; lia).
  assert (Hlv : length vir = n) by (subst vir; rewrite length_take; specialize (Hv sel); lia).
  assert (Hcs : length (clear_seen cur vir) = n)
    by (unfold clear_seen; rewrite length_zip_with; lia).
  set (vm' := if _ && _ then _ else _).
  assert (Hget : get_virgin sel vm' = clear_seen cur vir ++ drop n (get_virgin sel vm))
    by (subst vm'; by destruct sel, (_ && _)).
  assert (Hoth : forall sel', sel' <> sel -> get_virgin sel' vm' = get_virgin sel' vm).
  { intros sel' Hne. subst vm'. by destruct sel, sel', (_ && _). }
  constructor; [done|done|done|].
  constructor; try done; intros sel'; destruct (decide (sel' = sel)) as [->|Hne].
  - rewrite Hget, length_app, Hcs, length_drop. specialize (Hv sel). lia.
  - rewrite (Hoth _ Hne). apply Hv.
  - rewrite Hget. apply Forall_app. split; [|auto with bytes].
    apply clear_seen_ok; [subst cur|subst vir]; auto with bytes.
  - rewrite (Hoth _ Hne). apply Hvok.
Qed.

(** After [has_new_bits] a second comparison of the same trace finds nothing
    and leaves the whole state as it is ("subsequent calls will always return 0"). *)
Theorem has_new_bits_idempotent wb fsrv sel vm :
  wb = 4%nat \/ wb = 8%nat -> maps_ok fsrv vm ->
  let '(r, vm') := has_new_bits wb fsrv sel vm in
  has_new_bits wb fsrv sel vm' = (0, vm').
Proof.
  intros Hwb Hok. pose proof (has_new_bits_compared wb fsrv sel vm Hwb Hok) as Hcp.
  pose proof (scanned_le wb Hwb _ _ Hok) as Hn.
  destruct (has_new_bits wb fsrv sel vm) as [r vm'], Hcp as [_ Hget _ Hok'], Hok as [_ _ Ht Hv Htok _].
  rewrite (has_new_bits_eq wb Hwb) by done. rewrite Hget. set (n := scanned wb fsrv) in *.
  set (cur := take n (trace_bits fsrv)) in *. set (vir := take n (get_virgin sel vm)) in *.
  assert (Hlen : length cur = length vir) by (subst cur vir; rewrite !length_take; specialize (Hv sel); lia).
  assert (Hcs : length (clear_seen cur vir) = n)
    by (unfold clear_seen; rewrite length_zip_with, Hlen; subst vir; rewrite length_take; specialize (Hv sel); lia).
  rewrite take_app_length', drop_app_length' by done. rewrite verdict_cleared, clear_seen_idemp by
    (subst cur; auto with bytes; congruence).
  simpl. f_equal. rewrite <- Hget. by destruct vm', sel.
Qed.

Lemma no_hit_verdict cur vir :
  Forall byte_ok cur -> existsb hit (zip cur vir) = false <-> verdict cur vir = 0.
Proof.
  intros Hok. pose proof (pristine_imp_hit cur vir Hok) as Hp. unfold verdict. split.
  - intros Hno. rewrite Hno in *. destruct (pristine_hit cur vir); [by discriminate Hp|done].
  - destruct (pristine_hit cur vir); [done|]. by destruct (existsb hit (zip cur vir)).
Qed.

Lemma cls_hit_zero cur vir : Forall (fun b => b = 0) cur -> cls_hit cur vir = false.
Proof.
  intros H. unfold cls_hit. revert vir. induction H as [|x l -> ? IH]; intros [|v vir]; try done.
  cbn [map zip_with existsb]. by rewrite IH, hit_0.
Qed.

Lemma set_virgin_same sel vm : set_virgin sel (get_virgin sel vm) vm = vm.
Proof. by destruct vm, sel. Qed.

(** The one-pass comparison, against the two-pass one. *)
Lemma unclassified_compared wb fsrv sel vm :
  wb = 4%nat \/ wb = 8%nat -> maps_ok fsrv vm ->
  let classified := classify_counts wb init_count_class16 fsrv in
  let '(r, fsrv', vm') := has_new_bits_unclassified wb init_count_class16 fsrv sel vm in
  (r, vm') = has_new_bits wb classified sel vm /\
  (fsrv' = fsrv /\ r = 0 \/ fsrv' = classified) /\
  (r = 0 -> Forall (fun b => b = 0) (drop (scanned wb fsrv) (trace_bits fsrv)) -> fsrv' = fsrv).
Proof.
  intros Hwb Hok classified. unfold has_new_bits_unclassified. fold classified.
  pose proof (classify_counts_ok wb Hwb _ _ Hok) as Hokc. fold classified in Hokc.
  pose proof (classify_counts_map wb Hwb _ _ Hok) as Hmap. fold classified in Hmap.
  pose proof (scanned_le wb Hwb _ _ Hok) as Hn.
  assert (Hsc : scanned wb classified = scanned wb fsrv) by done.
  pose proof Hok as [Hd Hr Ht Hv Htok Hvok]. specialize (Hv sel). specialize (Hvok sel).
  assert (HN : (skim_iterations wb (map_size fsrv) * (4 * wb))%nat = length (trace_bits fsrv)).
  { unfold skim_iterations, words_of, zwb. destruct Hwb as [-> | ->]; dlia. }
  rewrite (skim_correct wb Hwb) by (done || lia). rewrite HN, firstn_all.
  replace (length (trace_bits fsrv)) with (length (get_virgin sel vm)) by lia.
  rewrite firstn_all. rewrite (has_new_bits_eq wb Hwb) by done. rewrite Hsc, Hmap.
  set (n := scanned wb fsrv) in *. rewrite firstn_map.
  assert (Hsplit : cls_hit (trace_bits fsrv) (get_virgin sel vm) =
    cls_hit (take n (trace_bits fsrv)) (take n (get_virgin sel vm)) ||
    cls_hit (drop n (trace_bits fsrv)) (drop n (get_virgin sel vm))).
  { unfold cls_hit. rewrite (zip_app_take n), existsb_app, firstn_map, skipn_map. done. }
  set (cur := map count_class (take n (trace_bits fsrv))).
  set (vir := take n (get_virgin sel vm)).
  assert (Hcur : Forall byte_ok cur) by (subst cur; auto with bytes).
  pose proof (no_hit_verdict cur vir Hcur) as Hnv. unfold cls_hit in Hsplit at 2.
  fold cur vir in Hsplit. destruct (cls_hit (trace_bits fsrv) (get_virgin sel vm)) eqn:Ehit.
  - simpl. split; [done|]. split; [by right|]. intros H0 Hz.
    rewrite (cls_hit_zero _ _ Hz), orb_false_r in Hsplit. apply Hnv in H0. congruence.
  - simpl. symmetry in Hsplit. apply orb_false_iff in Hsplit as [H1 _].
    rewrite (proj1 Hnv H1). simpl. split; [|by auto].
    rewrite clear_seen_no_hit; [|subst cur vir; rewrite length_map, !length_take; lia|done].
    subst vir. by rewrite take_drop, set_virgin_same.
Qed.

(** C24: the one-pass [has_new_bits_unclassified] finds exactly what
    [classify_counts] followed by [has_new_bits] finds, and leaves the same virgin
    maps; the trace is either left alone or classified, and when 0 is returned it
    is left alone, provided the padding past the reported map size is clean. *)
Theorem has_new_bits_unclassified_equiv wb fsrv sel vm :
  wb = 4%nat \/ wb = 8%nat -> maps_ok fsrv vm ->
  let classified := classify_counts wb init_count_class16 fsrv in
  let '(r, fsrv', vm') := has_new_bits_unclassified wb init_count_class16 fsrv sel vm in
  (r, vm') = has_new_bits wb classified sel vm /\
  (fsrv' = fsrv /\ r = 0 \/ fsrv' = classified) /\
  (r = 0 -> Forall (fun b => b = 0) (drop (scanned wb fsrv) (trace_bits fsrv)) -> fsrv' = fsrv).
Proof. apply unclassified_compared. Qed.

(** The word-parallel counters of the status screen return, modulo 2^32, the
    number of set bits, of non-zero bytes and of non-255 bytes of the map. *)
Theorem map_counters_correct fsrv mem :
  let n := (words_of 4 (real_map_size fsrv) * 4)%nat in
  Forall byte_ok mem -> (n <= length mem)%nat ->
  count_bits fsrv mem = u32 (foldr Z.add 0 (map popcount8 (take n mem))) /\
  count_bytes fsrv mem = u32 (Z.of_nat (length (filter (fun b => b <> 0) (take n mem)))) /\
  count_non_255_bytes fsrv mem
  = u32 (Z.of_nat (length (filter (fun b => b <> 255) (take n mem)))).
Proof.
  intros n Hok Hlen.
  assert (Hf : forall k (l : list Z),
    foldr Z.add 0 (map (fun b => b2z (negb (b =? k))) l)
    = Z.of_nat (length (filter (fun b => b <> k) l))).
  { intros k l. induction l as [|x l IH]; [done|]. cbn [map foldr]. rewrite IH, filter_cons.
    destruct (Z.eqb_spec x k); case_decide; simpl; lia. }
  unfold count_bits, count_bytes, count_non_255_bytes. repeat split.
  - rewrite (fold_words_sum _ _ popcount8) by
      (lia || done || intros; by apply count_bits_word_correct). done.
  - rewrite (fold_words_sum _ _ (fun b => b2z (negb (b =? 0)))) by
      (lia || done || intros; by apply count_bytes_word_correct). by rewrite Hf.
  - rewrite (fold_words_sum _ _ (fun b => b2z (negb (b =? 255)))) by
      (lia || done || intros; by apply count_non_255_word_correct). by rewrite Hf.
Qed.

(** [minimize_bits] sets bit [j] of the packed map exactly when byte [j] of the
    trace is non-zero, keeps the bits that were set and never leaves the buffer. *)
Theorem minimize_bits_packs fsrv dst src :
  Forall byte_ok dst -> 0 <= map_size fsrv -> map_size fsrv <= 8 * Z.of_nat (length dst) ->
  Z.of_nat (length src) = map_size fsrv ->
  let dst' := minimize_bits fsrv dst src in
  length dst' = length dst /\
  forall j, 0 <= j ->
    packed_bit dst' j =
    packed_bit dst j || (bool_decide (j < map_size fsrv) && negb (src !!! Z.to_nat j =? 0)).
Proof.
  intros Hok Hpos Hb Hlen dst'.
  destruct (minimize_bits_loop_spec (Z.to_nat (map_size fsrv)) 0 dst src) as (Hl & _ & Hs);
    [done|lia..|]. split; [exact Hl|]. intros j Hj. etrans; [exact (Hs j Hj)|].
  rewrite Z.sub_0_r. do 2 f_equal. apply bool_decide_ext. lia.
Qed.

(** ** Witnesses: a 64-byte map with a few hits *)

Definition demo_fsrv : afl_forkserver_t :=
  {| trace_bits := [3; 0; 200; 1] ++ replicate 60 0; map_size := 64; real_map_size := 10 |}.

Definition demo_vm : virgin_maps :=
  {| virgin_bits := [251; 255; 255] ++ replicate 61 255; virgin_tmout := replicate 64 255;
     virgin_crash := replicate 64 255; bitmap_changed := 0 |}.

Lemma demo_ok : maps_ok demo_fsrv demo_vm.
Proof.
  constructor; try (by vm_compute); try (intros []; by vm_compute).
  - apply (bool_decide_unpack _). by vm_compute.
  - intros []; apply (bool_decide_unpack _); by vm_compute.
Qed.

Lemma classify_counts_bytewise_witness :
  (8%nat = 4%nat \/ 8%nat = 8%nat) /\
  classify_counts 8 init_count_class16 demo_fsrv
  = set_trace ([4; 0; 128; 1] ++ replicate 60 0) demo_fsrv.
Proof.
  split; [by right|].
  apply (classify_counts_bytewise 8 demo_fsrv demo_vm); [by right|exact demo_ok].
Defined.

Lemma simplify_trace_bytewise_witness :
  (4%nat = 4%nat \/ 4%nat = 8%nat) /\
  simplify_trace 4 demo_fsrv (trace_bits demo_fsrv) = [128; 1; 128; 128] ++ replicate 60 1.
Proof.
  split; [by left|].
  apply (simplify_trace_bytewise 4 demo_fsrv demo_vm); [by left|exact demo_ok].
Defined.

Lemma has_new_bits_spec_witness :
  maps_ok demo_fsrv demo_vm /\
  discovery (take 16 (trace_bits demo_fsrv)) (take 16 (virgin_bits demo_vm))
    (take 16 (virgin_bits (has_new_bits 8 demo_fsrv VirginBits demo_vm).2)) 2.
Proof.
  split; [exact demo_ok|].
  exact (proj1 (has_new_bits_spec 8 demo_fsrv VirginBits demo_vm (or_intror eq_refl) demo_ok)).
Defined.

Lemma has_new_bits_idempotent_witness :
  let '(r, vm') := has_new_bits 8 demo_fsrv VirginBits demo_vm in
  has_new_bits 8 demo_fsrv VirginBits vm' = (0, vm').
Proof.
  exact (has_new_bits_idempotent 8 demo_fsrv VirginBits demo_vm (or_intror eq_refl) demo_ok).
Defined.

Lemma has_new_bits_unclassified_equiv_witness :
  let classified := classify_counts 4 init_count_class16 demo_fsrv in
  let '(r, fsrv', vm') := has_new_bits_unclassified 4 init_count_class16 demo_fsrv VirginBits demo_vm in
  (r, vm') = has_new_bits 4 classified VirginBits demo_vm /\
  (fsrv' = demo_fsrv /\ r = 0 \/ fsrv' = classified) /\
  (r = 0 -> Forall (fun b => b = 0) (drop (scanned 4 demo_fsrv) (trace_bits demo_fsrv)) ->
   fsrv' = demo_fsrv).
Proof.
  exact (has_new_bits_unclassified_equiv 4 demo_fsrv VirginBits demo_vm (or_introl eq_refl) demo_ok).
Defined.

Lemma map_counters_correct_witness :
  count_bits demo_fsrv (trace_bits demo_fsrv) = 6 /\
  count_bytes demo_fsrv (trace_bits demo_fsrv) = 3 /\
  count_non_255_bytes demo_fsrv (virgin_bits demo_vm) = 1.
Proof.
  destruct (map_counters_correct demo_fsrv (trace_bits demo_fsrv)) as (H1 & H2 & _);
    [apply (mo_trace_ok _ _ demo_ok)|vm_compute; lia|].
  destruct (map_counters_correct demo_fsrv (virgin_bits demo_vm)) as (_ & _ & H3);
    [apply (mo_virgin_ok _ _ demo_ok VirginBits)|vm_compute; lia|].
  split; [exact H1|]. split; [exact H2|exact H3].
Defined.

Lemma minimize_bits_packs_witness :
  packed_bit (minimize_bits demo_fsrv (replicate 8 0) (trace_bits demo_fsrv)) 2 = true /\
  packed_bit (minimize_bits demo_fsrv (replicate 8 0) (trace_bits demo_fsrv)) 1 = false.
Proof.
  destruct (minimize_bits_packs demo_fsrv (replicate 8 0) (trace_bits demo_fsrv)) as [_ H];
    [apply (bool_decide_unpack _); by vm_compute|vm_compute; congruence|vm_compute; congruence
    |by vm_compute|].
  split; [exact (H 2 ltac:(lia))|exact (H 1 ltac:(lia))].
Defined.
