(* ===== verification/OneHelpers.v ===== *)
(** * Helpers of the deterministic stages (src/aflplusplus/src/afl-fuzz-one.c)

    [could_be_bitflip], [could_be_arith] and [could_be_interest] decide whether
    a candidate value is redundant because an earlier deterministic stage tries
    it anyway; [locate_diffs] finds where two inputs differ.  The theorems say
    exactly which values they recognise. *)
From S2P Require Import Prelude.

(** ** Constants (include/config.h, src/afl-fuzz-state.c) *)

Definition ARITH_MAX : Z := 35.

Definition INTERESTING_8 : list Z := [-128; -1; 0; 1; 16; 32; 64; 100; 127].
Definition INTERESTING_16 : list Z :=
  [-32768; -129; 128; 255; 256; 512; 1000; 1024; 4096; 32767].
Definition INTERESTING_32 : list Z :=
  [-2147483648; -100663046; -32769; 32768; 65535; 65536; 100663045; 2147483647].

Definition interesting_8 : list Z := INTERESTING_8.
Definition interesting_16 : list Z := INTERESTING_8 ++ INTERESTING_16.
Definition interesting_32 : list Z := INTERESTING_8 ++ INTERESTING_16 ++ INTERESTING_32.

(** ** Byte swapping (include/types.h) *)

Definition SWAP16 (x : Z) : Z :=
  let ret := u16 x in u16 (Z.lor (ret ≪ 8) (ret ≫ 8)).

Definition SWAP32 (x : Z) : Z :=
  let ret := u32 x in
  u32 (Z.lor (Z.lor (Z.lor (ret ≪ 24) (ret ≫ 24)) (Z.land (ret ≪ 8) 0x00FF0000))
         (Z.land (ret ≫ 8) 0x0000FF00)).

(** ** [could_be_bitflip] *)

(** [while (!(xor_val & 1)) { ++sh; xor_val >>= 1; }]: at most 31 steps for a
    non-zero 32-bit value. *)
Fixpoint strip_zeros (fuel : nat) (sh xor_val : Z) : Z * Z :=
  match fuel with
  | O => (sh, xor_val)
  | S fuel =>
      if Z.land xor_val 1 =? 0 then strip_zeros fuel (sh + 1) (xor_val ≫ 1)
      else (sh, xor_val)
  end.

Definition could_be_bitflip (xor_val : Z) : bool :=
  if xor_val =? 0 then true
  else
    let '(sh, xor_val) := strip_zeros 32 0 xor_val in
    if (xor_val =? 1) || (xor_val =? 3) || (xor_val =? 15) then true
    else if negb (Z.land sh 7 =? 0) then false
    else (xor_val =? 0xff) || (xor_val =? 0xffff) || (xor_val =? 0xffffffff).

(** ** [could_be_arith] *)

(** The scan over the [n] chunks of [w] bits: how many differ, and the last
    differing pair. *)
Fixpoint diff_scan (w : Z) (n : nat) (i : Z) (old_val new_val : Z) (acc : Z * Z * Z)
  : Z * Z * Z :=
  match n with
  | O => acc
  | S n =>
      let a := (old_val ≫ (w * i)) `mod` 2 ^ w in
      let b := (new_val ≫ (w * i)) `mod` 2 ^ w in
      let acc := if negb (a =? b) then (acc.1.1 + 1, a, b) else acc in
      diff_scan w n (i + 1) old_val new_val acc
  end.

(** [(uW)(ov - nv) <= ARITH_MAX || (uW)(nv - ov) <= ARITH_MAX] *)
Definition within (w : Z) (ov nv : Z) : bool :=
  ((ov - nv) `mod` 2 ^ w <=? ARITH_MAX) || ((nv - ov) `mod` 2 ^ w <=? ARITH_MAX).

Definition could_be_arith (old_val new_val blen : Z) : bool :=
  if old_val =? new_val then true
  else
    let '(diffs, ov, nv) := diff_scan 8 (Z.to_nat blen) 0 old_val new_val (0, 0, 0) in
    if (diffs =? 1) && within 8 ov nv then true
    else if blen =? 1 then false
    else
      let '(diffs, ov, nv) :=
        diff_scan 16 (Z.to_nat (blen / 2)) 0 old_val new_val (0, ov, nv) in
      if (diffs =? 1) && (within 16 ov nv || within 16 (SWAP16 ov) (SWAP16 nv)) then true
      else if blen =? 4 then
        within 32 old_val new_val || within 32 (SWAP32 old_val) (SWAP32 new_val)
      else false.

(** ** [could_be_interest] *)

(** [(old_val & ~(mask << (i * 8))) | (v << (i * 8))] on 32 bits. *)
Definition insert_at (mask old_val i v : Z) : Z :=
  u32 (Z.lor (Z.land old_val (Z.lnot (mask ≪ (i * 8)))) (v ≪ (i * 8))).

Definition could_be_interest (old_val new_val blen : Z) (check_le : bool) : bool :=
  if old_val =? new_val then true
  else if existsb (fun i => existsb (fun j => new_val =? insert_at 0xff old_val i (u8 j))
            interesting_8) (seqZ 0 blen) then true
  else if (blen =? 2) && negb check_le then false
  else if existsb (fun i =>
            existsb (fun j =>
              (new_val =? insert_at 0xffff old_val i (u16 j)) ||
              ((2 <? blen) && (new_val =? insert_at 0xffff old_val i (SWAP16 j))))
              interesting_16) (seqZ 0 (blen - 1)) then true
  else (blen =? 4) && check_le && existsb (fun j => new_val =? u32 j) interesting_32.

(** ** [locate_diffs] *)

Fixpoint locate_diffs_loop (pos : Z) (ptr1 ptr2 : list Z) (f_loc l_loc : Z) : Z * Z :=
  match ptr1, ptr2 with
  | a :: ptr1, b :: ptr2 =>
      let '(f_loc, l_loc) :=
        if negb (a =? b) then ((if f_loc =? -1 then pos else f_loc), pos)
        else (f_loc, l_loc) in
      locate_diffs_loop (pos + 1) ptr1 ptr2 f_loc l_loc
  | _, _ => (f_loc, l_loc)
  end.

Definition locate_diffs (ptr1 ptr2 : list Z) (len : Z) : Z * Z :=
  locate_diffs_loop 0 (take (Z.to_nat len) ptr1) (take (Z.to_nat len) ptr2) (-1) (-1).

(** ** Which differences [could_be_bitflip] accepts *)

Lemma land_1_even x : (Z.land x 1 =? 0) = Z.even x.
Proof.
  change 1 with (Z.ones 1). rewrite Z.land_ones by lia. change (2 ^ 1) with 2.
  rewrite <- Zeven_mod. done.
Qed.

(** The loop strips all trailing zero bits of a non-zero value. *)
Lemma strip_zeros_spec fuel sh x :
  0 < x < 2 ^ Z.of_nat fuel ->
  exists k p, strip_zeros fuel sh x = (sh + k, p) /\ 0 <= k /\ Z.odd p = true /\ x = p ≪ k.
Proof.
  revert sh x. induction fuel as [|fuel IH]; intros sh x Hx; [simpl in Hx; lia|].
  cbn [strip_zeros]. rewrite land_1_even. destruct (Z.even x) eqn:Ev.
  - assert (Hhalf : x = 2 * (x ≫ 1)).
    { rewrite Z.shiftr_div_pow2 by lia. change (2 ^ 1) with 2.
      apply Z.even_spec in Ev as [y ->]. rewrite Z.mul_comm, Z.div_mul by lia. lia. }
    destruct (IH (sh + 1) (x ≫ 1)) as (k & p & -> & Hk & Hodd & Hp).
    { rewrite Nat2Z.inj_succ, Z.pow_succ_r in Hx by lia. lia. }
    exists (k + 1), p. repeat split; [f_equal; lia|lia|done|].
    rewrite Hhalf, Hp, !Z.shiftl_mul_pow2, Z.pow_add_r by lia. lia.
  - exists 0, x. rewrite Z.shiftl_0_r. repeat split; [f_equal; lia|lia|].
    by rewrite <- Z.negb_even, Ev.
Qed.

(** The odd part and the shift of a non-zero value are unique. *)
Lemma odd_shift_unique p q k l :
  Z.odd p = true -> Z.odd q = true -> 0 <= k -> 0 <= l -> p ≪ k = q ≪ l -> p = q /\ k = l.
Proof.
  intros Hp Hq Hk Hl Heq.
  assert (Hb : forall p k, Z.odd p = true -> 0 <= k ->
    Z.testbit (p ≪ k) k = true /\ forall m, 0 <= m < k -> Z.testbit (p ≪ k) m = false).
  { intros r n Hr Hn. split.
    - rewrite Z.shiftl_spec, Z.sub_diag by lia. by rewrite Z.bit0_odd.
    - intros m Hm. rewrite Z.shiftl_spec, Z.testbit_neg_r by lia. done. }
  destruct (Hb p k Hp Hk) as [Hp1 Hp2]. destruct (Hb q l Hq Hl) as [Hq1 Hq2].
  assert (k = l) as ->.
  { destruct (Z.lt_trichotomy k l) as [Hlt|[Heq'|Hlt]]; [|done|].
    - rewrite Heq in Hp1. rewrite Hq2 in Hp1 by lia. done.
    - rewrite <- Heq in Hq1. rewrite Hp2 in Hq1 by lia. done. }
  split; [|done]. rewrite !Z.shiftl_mul_pow2 in Heq by lia.
  apply Z.mul_reg_r in Heq; [done|]. pose proof (Z.pow_pos_nonneg 2 l). lia.
Qed.

(** The patterns of the walking flips, as differences of little-endian words. *)
Definition flip_pattern (p sh : Z) : Prop :=
  p = 1 \/ p = 3 \/ p = 15 \/
  (sh `mod` 8 = 0 /\ (p = 0xff \/ p = 0xffff \/ p = 0xffffffff)).

(** [could_be_bitflip] terminates on every 32-bit difference and accepts
    exactly zero, a run of 1, 2 or 4 set bits anywhere, and a run of 8, 16 or 32
    set bits that starts on a byte boundary. *)
Theorem could_be_bitflip_iff x :
  0 <= x < 2 ^ 32 ->
  could_be_bitflip x = true <->
  x = 0 \/ exists p sh, 0 <= sh /\ x = p ≪ sh /\ flip_pattern p sh.
Proof.
  intros Hx. unfold could_be_bitflip. destruct (Z.eqb_spec x 0) as [->|Hne]; [tauto|].
  destruct (strip_zeros_spec 32 0 x) as (k & p & -> & Hk & Hodd & ->); [lia|].
  rewrite Z.add_0_l.
  assert (Hmod : Z.land k 7 = k `mod` 8) by (change 7 with (Z.ones 3); by rewrite Z.land_ones).
  rewrite Hmod. split.
  - intros H. right. exists p, k. split; [done|]. split; [done|]. unfold flip_pattern.
    destruct ((p =? 1) || (p =? 3) || (p =? 15)) eqn:E1.
    { rewrite !orb_true_iff, !Z.eqb_eq in E1. tauto. }
    destruct (Z.eqb_spec (k `mod` 8) 0); simpl in H; [|done].
    rewrite !orb_true_iff, !Z.eqb_eq in H. tauto.
  - intros [H0|(q & sh & Hsh & Heq & Hpat)]; [lia|].
    assert (Hq : Z.odd q = true) by
      (destruct Hpat as [->|[->|[->|[_ [->|[->| ->]]]]]]; done).
    destruct (odd_shift_unique p q k sh) as [-> ->]; try done.
    destruct ((q =? 1) || (q =? 3) || (q =? 15)) eqn:E1; [done|].
    destruct Hpat as [->|[->|[->|[Hm Hp]]]]; try done. rewrite Hm. simpl.
    destruct Hp as [->|[->| ->]]; done.
Qed.

Lemma could_be_bitflip_iff_witness :
  0 <= 0x1E0 < 2 ^ 32 /\ could_be_bitflip 0x1E0 = true.
Proof.
  split; [lia|]. apply (could_be_bitflip_iff 0x1E0); [lia|]. right. exists 15, 5.
  split; [lia|]. split; [done|]. unfold flip_pattern. auto.
Defined.

(** ** Which changes [could_be_arith] accepts *)

Definition chunk (w i x : Z) : Z := (x ≫ (w * i)) `mod` 2 ^ w.

(** [y] is [x] plus or minus at most [ARITH_MAX], on [w] bits. *)
Definition arith_step (w x y : Z) : Prop :=
  exists j, 0 <= j <= ARITH_MAX /\ (y = (x + j) `mod` 2 ^ w \/ y = (x - j) `mod` 2 ^ w).

(** Among the first [n] chunks of [w] bits, [i] is the only one that differs. *)
Definition only_chunk (w n i x y : Z) : Prop :=
  0 <= i < n /\ forall k, 0 <= k < n -> chunk w k x <> chunk w k y <-> k = i.

Lemma within_spec w x y :
  0 < w -> 0 <= x < 2 ^ w -> 0 <= y < 2 ^ w -> within w x y = true <-> arith_step w x y.
Proof.
  intros Hw Hx Hy. unfold within, arith_step.
  assert (Hmod : forall a b, (a - (a - b) `mod` 2 ^ w) `mod` 2 ^ w = b `mod` 2 ^ w).
  { intros a b. rewrite Zminus_mod_idemp_r. f_equal. lia. }
  assert (Hj : forall j, 0 <= j <= ARITH_MAX -> j `mod` 2 ^ w <= ARITH_MAX).
  { intros j Hj. pose proof (Z.mod_le j (2 ^ w)). lia. }
  rewrite orb_true_iff, !Z.leb_le. split.
  - intros [H|H].
    + exists ((x - y) `mod` 2 ^ w). split; [split; [apply Z.mod_pos_bound; lia|done]|].
      right. rewrite Hmod. by rewrite Z.mod_small.
    + exists ((y - x) `mod` 2 ^ w). split; [split; [apply Z.mod_pos_bound; lia|done]|].
      left. rewrite Zplus_mod_idemp_r. replace (x + (y - x)) with y by lia. by rewrite Z.mod_small.
  - intros (j & Hb & [->| ->]).
    + right. rewrite Zminus_mod_idemp_l. replace (x + j - x) with j by lia. auto.
    + left. rewrite Zminus_mod_idemp_r. replace (x - (x - j)) with j by lia. auto.
Qed.

(** The scan collects the differing pairs of chunks. *)
Definition diff_pairs (w : Z) (n : nat) (i x y : Z) : list (Z * Z) :=
  filter (fun p => p.1 <> p.2) (map (fun k => (chunk w k x, chunk w k y)) (seqZ i (Z.of_nat n))).

Lemma last_cons_default {A} (l : list A) q d : List.last (q :: l) d = List.last l q.
Proof.
  revert q d. induction l as [|x l IH]; intros q d; [done|].
  change (List.last (q :: x :: l) d) with (List.last (x :: l) d). by rewrite !IH.
Qed.

Lemma diff_scan_spec w n i x y d a b :
  diff_scan w n i x y (d, a, b) =
  (d + Z.of_nat (length (diff_pairs w n i x y)),
   (List.last (diff_pairs w n i x y) (a, b)).1, (List.last (diff_pairs w n i x y) (a, b)).2).
Proof.
  revert i d a b. induction n as [|n IH]; intros i d a b.
  { simpl. unfold diff_pairs. simpl. f_equal. f_equal. lia. }
  cbn [diff_scan]. fold (chunk w i x) (chunk w i y).
  unfold diff_pairs. rewrite seqZ_cons by lia. replace (Z.pred (Z.of_nat (S n))) with (Z.of_nat n) by lia.
  cbn [map]. rewrite filter_cons. cbn [fst snd]. fold (diff_pairs w n (Z.succ i) x y).
  destruct (Z.eqb_spec (chunk w i x) (chunk w i y)) as [E|E]; cbn [negb].
  - rewrite decide_False by (simpl; auto). rewrite IH. done.
  - rewrite decide_True by done. cbn [fst snd]. rewrite IH.
    replace (i + 1) with (Z.succ i) by lia.
    rewrite last_cons_default, length_cons, Nat2Z.inj_succ. do 2 f_equal. lia.
Qed.

Lemma diff_pairs_one w n i x y :
  (exists a b, diff_pairs w n i x y = [(a, b)]) <->
  exists k, i <= k < i + Z.of_nat n /\
    (forall m, i <= m < i + Z.of_nat n -> chunk w m x <> chunk w m y <-> m = k).
Proof.
  revert i. induction n as [|n IH]; intros i.
  { split; [intros (a & b & H); discriminate|intros (k & Hk & _); lia]. }
  unfold diff_pairs. rewrite seqZ_cons by lia.
  replace (Z.pred (Z.of_nat (S n))) with (Z.of_nat n) by lia.
  cbn [map]. rewrite filter_cons. cbn [fst snd]. fold (diff_pairs w n (Z.succ i) x y).
  destruct (decide (chunk w i x <> chunk w i y)) as [Hd|Hd].
  - split.
    + intros (a & b & [= <- <- Hnil]). exists i. split; [lia|]. intros m Hm. split; [|by intros ->].
      intros Hne. destruct (decide (m = i)); [done|]. exfalso.
      apply (not_elem_of_nil (chunk w m x, chunk w m y)). rewrite <- Hnil.
      unfold diff_pairs. apply list_elem_of_filter. split; [done|].
      apply list_elem_of_fmap. exists m. split; [done|]. apply elem_of_seqZ. lia.
    + intros (k & Hk & Hall). exists (chunk w i x), (chunk w i y). f_equal.
      destruct (diff_pairs w n (Z.succ i) x y) as [|[a b] l] eqn:E; [done|exfalso].
      assert (Hin : (a, b) ∈ diff_pairs w n (Z.succ i) x y) by (rewrite E; set_solver).
      unfold diff_pairs in Hin. apply list_elem_of_filter in Hin as [Hab Hin].
      apply list_elem_of_fmap in Hin as (m & [= -> ->] & Hm). apply elem_of_seqZ in Hm.
      simpl in Hab. pose proof (proj1 (Hall i ltac:(lia)) Hd).
      pose proof (proj1 (Hall m ltac:(lia)) Hab). lia.
  - assert (Heq : chunk w i x = chunk w i y) by (destruct (decide (chunk w i x = chunk w i y)); tauto).
    rewrite IH. split; intros (k & Hk & Hall); exists k.
    + split; [lia|]. intros m Hm. destruct (decide (m = i)) as [->|]; [|apply Hall; lia].
      split; [tauto|lia].
    + destruct (decide (k = i)) as [->|Hne]; [exfalso; by apply (proj2 (Hall i ltac:(lia)) eq_refl)|].
      split; [lia|]. intros m Hm. apply Hall. lia.
Qed.

(** A test on the single differing pair of the scan is a test on the single
    differing chunk. *)
Lemma scan_test w n x y a0 b0 (test : Z -> Z -> bool) :
  let '(diffs, ov, nv) := diff_scan w n 0 x y (0, a0, b0) in
  (diffs =? 1) && test ov nv = true <->
  exists i, only_chunk w (Z.of_nat n) i x y /\ test (chunk w i x) (chunk w i y) = true.
Proof.
  rewrite diff_scan_spec. pose proof (diff_pairs_one w n 0 x y) as H1.
  rewrite Z.add_0_l in H1. set (L := diff_pairs w n 0 x y) in *.
  assert (Hel : forall a b k, L = [(a, b)] -> only_chunk w (Z.of_nat n) k x y ->
    a = chunk w k x /\ b = chunk w k y).
  { intros a b k HL [Hk Hall]. assert (Hin : (a, b) ∈ L) by (rewrite HL; set_solver).
    subst L. apply list_elem_of_filter in Hin as [Hab Hin].
    apply list_elem_of_fmap in Hin as (m & [= -> ->] & Hm). apply elem_of_seqZ in Hm.
    simpl in Hab. apply Hall in Hab; [by subst|lia]. }
  rewrite andb_true_iff, Z.eqb_eq. split.
  - intros [Hlen Ht]. destruct L as [|[a b] [|? ?]] eqn:EL; try (simpl in Hlen; lia).
    destruct (proj1 H1) as (k & Hk & Hall); [eauto|]. exists k.
    assert (Hoc : only_chunk w (Z.of_nat n) k x y) by (split; [lia|done]).
    split; [done|]. destruct (Hel a b k eq_refl Hoc) as [<- <-]. done.
  - intros (k & Hoc & Ht). destruct Hoc as [Hk Hall].
    destruct (proj2 H1) as (a & b & HL); [exists k; split; [lia|done]|].
    destruct (Hel a b k HL (conj Hk Hall)) as [-> ->]. rewrite HL. done.
Qed.

Lemma chunk_range w i x : 0 < w -> 0 <= chunk w i x < 2 ^ w.
Proof. intros. apply Z.mod_pos_bound, Z.pow_pos_nonneg; lia. Qed.

Lemma SWAP16_range x : 0 <= SWAP16 x < 2 ^ 16.
Proof. apply Z.mod_pos_bound. lia. Qed.

Lemma SWAP32_range x : 0 <= SWAP32 x < 2 ^ 32.
Proof. apply Z.mod_pos_bound. lia. Qed.

(** The changes the arithmetic stages can make to a value of [blen] bytes: one
    byte, one aligned 16-bit word or the whole 32-bit word moves by at most
    [ARITH_MAX], in either byte order. *)
Definition arith_reachable (blen x y : Z) : Prop :=
  x = y \/
  (exists i, only_chunk 8 blen i x y /\ arith_step 8 (chunk 8 i x) (chunk 8 i y)) \/
  (exists i, only_chunk 16 (blen / 2) i x y /\
     (arith_step 16 (chunk 16 i x) (chunk 16 i y) \/
      arith_step 16 (SWAP16 (chunk 16 i x)) (SWAP16 (chunk 16 i y)))) \/
  (blen = 4 /\ (arith_step 32 x y \/ arith_step 32 (SWAP32 x) (SWAP32 y))).

(** [could_be_arith] accepts exactly the changes of [arith_reachable], for the
    value sizes the stages use. *)
Theorem could_be_arith_iff x y blen :
  blen = 1 \/ blen = 2 \/ blen = 4 ->
  0 <= x < 2 ^ 32 -> 0 <= y < 2 ^ 32 ->
  could_be_arith x y blen = true <-> arith_reachable blen x y.
Proof.
  intros Hblen Hx Hy. unfold could_be_arith, arith_reachable.
  destruct (Z.eqb_spec x y) as [->|Hne]; [tauto|].
  pose proof (scan_test 8 (Z.to_nat blen) x y 0 0 (within 8)) as H8.
  destruct (diff_scan 8 _ 0 x y (0, 0, 0)) as [[d8 ov] nv].
  pose proof (scan_test 16 (Z.to_nat (blen / 2)) x y ov nv
    (fun a b => within 16 a b || within 16 (SWAP16 a) (SWAP16 b))) as H16.
  destruct (diff_scan 16 _ 0 x y (0, ov, nv)) as [[d16 ov2] nv2].
  assert (Hz : Z.of_nat (Z.to_nat blen) = blen /\ Z.of_nat (Z.to_nat (blen / 2)) = blen / 2)
    by (destruct Hblen as [->|[->| ->]]; done).
  destruct Hz as [Hz1 Hz2]. rewrite Hz1 in H8. rewrite Hz2 in H16.
  assert (E8 : forall i, within 8 (chunk 8 i x) (chunk 8 i y) = true <->
    arith_step 8 (chunk 8 i x) (chunk 8 i y)).
  { intros i. apply within_spec; [lia|by apply chunk_range..]. }
  assert (E16 : forall i, within 16 (chunk 16 i x) (chunk 16 i y)
      || within 16 (SWAP16 (chunk 16 i x)) (SWAP16 (chunk 16 i y)) = true <->
    arith_step 16 (chunk 16 i x) (chunk 16 i y) \/
    arith_step 16 (SWAP16 (chunk 16 i x)) (SWAP16 (chunk 16 i y))).
  { intros i. rewrite orb_true_iff, !within_spec; try done;
      try apply chunk_range; try apply SWAP16_range; lia. }
  assert (E32 : within 32 x y || within 32 (SWAP32 x) (SWAP32 y) = true <->
    arith_step 32 x y \/ arith_step 32 (SWAP32 x) (SWAP32 y)).
  { rewrite orb_true_iff, !within_spec; try done; try apply SWAP32_range; lia. }
  setoid_rewrite E8 in H8. setoid_rewrite E16 in H16.
  assert (Hno16 : blen = 1 -> ~ exists i, only_chunk 16 (blen / 2) i x y /\
     (arith_step 16 (chunk 16 i x) (chunk 16 i y) \/
      arith_step 16 (SWAP16 (chunk 16 i x)) (SWAP16 (chunk 16 i y)))).
  { intros -> (i & [Hi _] & _). change (1 / 2) with 0 in Hi. lia. }
  rewrite <- H8 in *. rewrite <- H16 in *. clear H8 H16 E8 E16.
  destruct ((d8 =? 1) && within 8 ov nv); [tauto|].
  destruct (Z.eqb_spec blen 1) as [->|H1].
  { split; [done|]. intros [?|[?|[H|[? _]]]]; [done|done|exfalso; tauto|lia]. }
  destruct ((d16 =? 1) && _); [tauto|].
  destruct (Z.eqb_spec blen 4) as [->|H4]; [rewrite E32; intuition congruence|].
  intuition congruence.
Qed.

Lemma could_be_arith_iff_witness :
  could_be_arith 0x10FF 0x1100 2 = true /\ arith_reachable 2 0x10FF 0x1100.
Proof.
  assert (H : could_be_arith 0x10FF 0x1100 2 = true) by reflexivity. split; [exact H|].
  apply (could_be_arith_iff 0x10FF 0x1100 2); [auto|lia|lia|exact H].
Defined.

(** ** Where two inputs differ *)

Definition differ (a b : list Z) (k : Z) : Prop :=
  0 <= k /\ a !! Z.to_nat k <> b !! Z.to_nat k.

(** What the loop has found when it started at [pos] with [f], [l]. *)
Definition diff_bounds (a b : list Z) (pos f l f' l' : Z) : Prop :=
  (a = b /\ f' = f /\ l' = l) \/
  (exists k0 k1, differ a b k0 /\ differ a b k1 /\ (forall k, differ a b k -> k0 <= k <= k1) /\
     f' = (if f =? -1 then pos + k0 else f) /\ l' = pos + k1).

Lemma differ_cons x y a b k :
  differ (x :: a) (y :: b) k <-> (k = 0 /\ x <> y) \/ (1 <= k /\ differ a b (k - 1)).
Proof.
  unfold differ. destruct (decide (k = 0)) as [->|Hk].
  - simpl. split; [intros [_ H]; left; split; congruence|intros [[_ H]|[H _]]; [|lia]].
    split; [lia|congruence].
  - destruct (decide (0 <= k)); [|split; [lia|intros [[? _]|[? _]]; lia]].
    replace (Z.to_nat k) with (S (Z.to_nat (k - 1))) by lia. simpl.
    split; [intros [_ H]; right; split; [lia|split; [lia|done]]|intros [[? _]|[? [_ H]]]; [lia|done]].
Qed.

Lemma locate_diffs_loop_spec a b pos f l :
  length a = length b -> 0 <= pos ->
  let '(f', l') := locate_diffs_loop pos a b f l in diff_bounds a b pos f l f' l'.
Proof.
  revert b pos f l. induction a as [|x a IH]; intros [|y b] pos f l Hlen Hpos; try done.
  { left. done. }
  cbn [locate_diffs_loop]. destruct (Z.eqb_spec x y) as [->|Hxy]; cbn [negb].
  - specialize (IH b (pos + 1) f l ltac:(simpl in Hlen; lia) ltac:(lia)).
    destruct (locate_diffs_loop (pos + 1) a b f l) as [f' l'].
    destruct IH as [(-> & -> & ->)|(k0 & k1 & H0 & H1 & Hall & -> & ->)]; [by left|right].
    exists (k0 + 1), (k1 + 1). pose proof H0 as [? _]. pose proof H1 as [? _].
    rewrite !differ_cons, !Z.add_simpl_r.
    split; [right; split; [lia|done]|]. split; [right; split; [lia|done]|].
    split; [|split; [destruct (f =? -1); lia|lia]].
    intros k [[_ ?]|[? Hd]]%differ_cons; [done|]. apply Hall in Hd. lia.
  - set (f1 := if f =? -1 then pos else f).
    specialize (IH b (pos + 1) f1 pos ltac:(simpl in Hlen; lia) ltac:(lia)).
    destruct (locate_diffs_loop (pos + 1) a b f1 pos) as [f' l'].
    assert (Hf1 : (f1 =? -1) = false) by (subst f1; destruct (Z.eqb_spec f (-1)); lia).
    assert (Hf' : f1 = (if f =? -1 then pos + 0 else f)) by (subst f1; destruct (f =? -1); lia).
    right. exists 0. destruct IH as [(-> & -> & ->)|(k0 & k1 & H0 & H1 & Hall & -> & ->)].
    + exists 0. rewrite differ_cons. do 2 (split; [tauto|]). split; [|split; [done|lia]].
      intros k [[-> _]|[? [_ []]]]%differ_cons; [lia|done].
    + exists (k1 + 1). pose proof H1 as [? _]. rewrite !differ_cons, Z.add_simpl_r.
      rewrite Hf1. split; [tauto|]. split; [right; split; [lia|done]|].
      split; [|split; [done|lia]].
      intros k [[-> _]|[? Hd]]%differ_cons; [lia|]. apply Hall in Hd. lia.
Qed.

(** [locate_diffs] returns -1, -1 for equal buffers, and otherwise the first
    and the last offset below [len] at which they differ. *)
Theorem locate_diffs_correct p1 p2 len :
  0 <= len <= Z.of_nat (length p1) -> len <= Z.of_nat (length p2) ->
  let a := take (Z.to_nat len) p1 in
  let b := take (Z.to_nat len) p2 in
  let '(first, last) := locate_diffs p1 p2 len in
  (a = b /\ first = -1 /\ last = -1) \/
  (differ a b first /\ differ a b last /\ forall k, differ a b k -> first <= k <= last).
Proof.
  intros H1 H2 a b. unfold locate_diffs. fold a b.
  pose proof (locate_diffs_loop_spec a b 0 (-1) (-1)) as Hs.
  destruct (locate_diffs_loop 0 a b (-1) (-1)) as [f l].
  destruct Hs as [?|(k0 & k1 & Hd0 & Hd1 & Hall & -> & ->)];
    [subst a b; rewrite !length_take; lia|lia|by left|right].
  rewrite !Z.add_0_l. done.
Qed.

Lemma locate_diffs_correct_witness :
  locate_diffs [1; 2; 3; 4; 5] [1; 9; 3; 8; 5] 5 = (1, 3) /\
  differ [1; 2; 3; 4; 5] [1; 9; 3; 8; 5] 1.
Proof.
  split; [reflexivity|].
  pose proof (locate_diffs_correct [1; 2; 3; 4; 5] [1; 9; 3; 8; 5] 5 ltac:(simpl; lia) ltac:(simpl; lia)) as H.
  destruct H as [[H _]|[H _]]; [discriminate H|exact H].
Defined.
