(* ===== verification/Alloc.v ===== *)
(** * Growable buffers (src/aflplusplus/include/alloc-inl.h)

    [next_pow2], and the [afl_realloc] family that keeps the size of a buffer in front
    of it.  A buffer is its allocation: the complete size and the bytes behind the
    header.  [realloc] of the C library may fail; when it does not it keeps the bytes
    the two sizes have in common. *)
From S2P Require Import Prelude.

(** The next power of 2 greater or equal to the argument, or 0 on overflow. *)
Definition next_pow2 (n : Z) : Z :=
  let out := u64 (n - 1) in
  let out := Z.lor out (out ≫ 1) in
  let out := Z.lor out (out ≫ 2) in
  let out := Z.lor out (out ≫ 4) in
  let out := Z.lor out (out ≫ 8) in
  let out := Z.lor out (out ≫ 16) in
  u64 (out + 1).

Definition INITIAL_GROWTH_SIZE : Z := 64.
Definition AFL_ALLOC_SIZE_OFFSET : Z := 8.

(** [struct afl_alloc_buf]: [complete_size] counts the header. *)
Record afl_alloc_buf := AllocBuf { complete_size : Z; buf : list Z }.

Definition afl_alloc_bufsize (b : afl_alloc_buf) : Z := complete_size b - AFL_ALLOC_SIZE_OFFSET.

Section alloc.
(** [realloc(p, n)]: does the request succeed, and what the bytes beyond the old
    allocation hold *)
Context (can_alloc : Z -> bool) (fresh : Z -> Z).

Definition resize (old : option afl_alloc_buf) (size : Z) : list Z :=
  let have := match old with Some b => buf b | None => [] end in
  let n := Z.to_nat (size - AFL_ALLOC_SIZE_OFFSET) in
  take n have ++ map (fun i => fresh i) (seqZ (Z.of_nat (length have)) (Z.of_nat n - Z.of_nat (length have))).

(** [None] is the NULL pointer. *)
Definition afl_realloc (b : option afl_alloc_buf) (size_needed : Z) : option afl_alloc_buf :=
  let current_size := match b with Some b => complete_size b | None => 0 end in
  let size_needed := u64 (size_needed + AFL_ALLOC_SIZE_OFFSET) in
  if size_needed <=? current_size then b
  else
    let next_size :=
      if size_needed <? INITIAL_GROWTH_SIZE then INITIAL_GROWTH_SIZE
      else let p := next_pow2 size_needed in if p =? 0 then size_needed else p in
    if can_alloc next_size then Some (AllocBuf next_size (resize b next_size)) else None.

Definition afl_realloc_exact (b : option afl_alloc_buf) (size_needed : Z) : option afl_alloc_buf :=
  let current_size := match b with Some b => complete_size b | None => 0 end in
  let size_needed := u64 (size_needed + AFL_ALLOC_SIZE_OFFSET) in
  if current_size =? size_needed then b
  else if can_alloc size_needed then Some (AllocBuf size_needed (resize b size_needed)) else None.
End alloc.

(** ** [next_pow2] *)

(** Bit [j] of [y] collects the [k] bits of [x] from [j] on. *)
Definition smeared (x k y : Z) : Prop :=
  0 <= y /\ forall j, 0 <= j ->
    Z.testbit y j = true <-> exists d, 0 <= d < k /\ Z.testbit x (j + d) = true.

Lemma smeared_start x : 0 <= x -> smeared x 1 x.
Proof.
  intros Hx. split; [done|]. intros j Hj. split.
  - intros H. exists 0. rewrite Z.add_0_r. split; [lia|done].
  - intros (d & Hd & H). by replace (j + d) with j in H by lia.
Qed.

Lemma smeared_step x k y : 0 < k -> smeared x k y -> smeared x (2 * k) (Z.lor y (y ≫ k)).
Proof.
  intros Hk [Hy Hb]. split; [apply Z.lor_nonneg; split; [done|by apply Z.shiftr_nonneg]|].
  intros j Hj. rewrite Z.lor_spec, Z.shiftr_spec, orb_true_iff, !Hb by lia. split.
  - intros [(d & Hd & H)|(d & Hd & H)]; [exists d; split; [lia|done]|].
    exists (k + d). split; [lia|]. by rewrite Z.add_assoc.
  - intros (d & Hd & H). destruct (Z_lt_le_dec d k); [left; exists d; split; [lia|done]|].
    right. exists (d - k). split; [lia|]. by replace (j + k + (d - k)) with (j + d) by lia.
Qed.

Definition smear (x : Z) : Z :=
  let out := Z.lor x (x ≫ 1) in
  let out := Z.lor out (out ≫ 2) in
  let out := Z.lor out (out ≫ 4) in
  let out := Z.lor out (out ≫ 8) in
  Z.lor out (out ≫ 16).

Lemma smear_smeared x : 0 <= x -> smeared x 32 (smear x).
Proof.
  intros Hx. unfold smear. cbv zeta.
  apply (smeared_step x 16), (smeared_step x 8), (smeared_step x 4), (smeared_step x 2),
    (smeared_step x 1), smeared_start; lia.
Qed.

Lemma smear_bounds x : 0 <= x < 2 ^ 64 -> x <= smear x < 2 ^ 64.
Proof.
  intros Hx. destruct (smear_smeared x) as [Hnn Hb]; [lia|]. split.
  - apply Z.ldiff_le; [done|]. apply Z.bits_inj'. intros j Hj. rewrite Z.ldiff_spec, Z.testbit_0_l.
    destruct (Z.testbit x j) eqn:E; [|done]. simpl. apply negb_false_iff, Hb; [done|]. exists 0.
    rewrite Z.add_0_r. split; [lia|done].
  - apply bits_bounded; [lia|]. intros l Hl. apply not_true_is_false. intros H.
    apply Hb in H as (d & Hd & H); [|lia]. by rewrite (bounded_testbit_high x 64) in H by lia.
Qed.

Lemma smear_32 x : 0 < x < 2 ^ 32 -> smear x = 2 ^ (Z.log2 x + 1) - 1.
Proof.
  intros Hx. destruct (smear_smeared x) as [Hnn Hb]; [lia|].
  assert (Hlog : 0 <= Z.log2 x < 32) by (split; [apply Z.log2_nonneg|apply Z.log2_lt_pow2; lia]).
  replace (2 ^ (Z.log2 x + 1) - 1) with (Z.ones (Z.log2 x + 1))
    by (rewrite Z.ones_equiv; lia).
  apply Z.bits_inj'. intros j Hj. apply eq_true_iff_eq. rewrite Hb by done.
  rewrite Z.testbit_ones_nonneg by lia. rewrite Z.ltb_lt. split.
  - intros (d & Hd & H). destruct (Z_lt_le_dec (Z.log2 x) (j + d)); [|lia].
    by rewrite Z.bits_above_log2 in H by lia.
  - intros Hlt. exists (Z.log2 x - j). split; [lia|]. replace (j + (Z.log2 x - j)) with (Z.log2 x) by lia.
    apply Z.bit_log2. lia.
Qed.

Lemma next_pow2_smear n : 1 <= n < 2 ^ 64 -> next_pow2 n = u64 (smear (n - 1) + 1).
Proof.
  intros Hn. unfold next_pow2, smear. replace (u64 (n - 1)) with (n - 1); [done|].
  unfold u64. symmetry. apply Z.mod_small. lia.
Qed.

Lemma next_pow2_least n :
  1 <= n <= 2 ^ 32 -> exists k, 0 <= k <= 32 /\ next_pow2 n = 2 ^ k /\ n <= 2 ^ k
    /\ forall m, 0 <= m -> n <= 2 ^ m -> k <= m.
Proof.
  intros Hn. rewrite next_pow2_smear by lia. destruct (decide (n = 1)) as [->|Hne].
  { exists 0. split; [lia|]. split; [reflexivity|]. split; [lia|]. intros; lia. }
  rewrite smear_32 by lia. exists (Z.log2 (n - 1) + 1).
  pose proof (Z.log2_spec (n - 1) ltac:(lia)) as [Hlo Hhi].
  assert (Hlog : 0 <= Z.log2 (n - 1) < 32)
    by (split; [apply Z.log2_nonneg|apply Z.log2_lt_pow2; lia]).
  unfold Z.succ in Hhi. pose proof (Z.pow_le_mono_r 2 (Z.log2 (n - 1) + 1) 32 ltac:(lia) ltac:(lia)).
  split; [lia|]. split; [|split; [lia|]].
  - rewrite Z.sub_add. unfold u64. apply Z.mod_small. lia.
  - intros m Hm Hnm. assert (Z.log2 (n - 1) < m); [|lia]. apply Z.log2_lt_pow2; lia.
Qed.

Lemma next_pow2_ge n : 1 <= n < 2 ^ 64 -> next_pow2 n = 0 \/ n <= next_pow2 n < 2 ^ 64.
Proof.
  intros Hn. rewrite next_pow2_smear by done. pose proof (smear_bounds (n - 1) ltac:(lia)) as H.
  unfold u64. destruct (decide (smear (n - 1) = 2 ^ 64 - 1)) as [->|Hne]; [by left|].
  right. rewrite Z.mod_small by lia. lia.
Qed.

(** ** [afl_realloc] *)

Definition buffer_ok (b : afl_alloc_buf) : Prop :=
  AFL_ALLOC_SIZE_OFFSET <= complete_size b < 2 ^ 64
  /\ Z.of_nat (length (buf b)) = afl_alloc_bufsize b.

Definition contents (b : option afl_alloc_buf) : list Z :=
  match b with Some b => buf b | None => [] end.

Lemma length_resize fresh b size :
  AFL_ALLOC_SIZE_OFFSET <= size ->
  Z.of_nat (length (resize fresh b size)) = size - AFL_ALLOC_SIZE_OFFSET.
Proof.
  intros Hs. unfold resize. rewrite length_app, length_take, length_map, length_seqZ. lia.
Qed.

Lemma resize_keeps fresh b size :
  Z.of_nat (length (contents b)) <= size - AFL_ALLOC_SIZE_OFFSET ->
  take (length (contents b)) (resize fresh b size) = contents b.
Proof.
  intros Hs. unfold resize. fold (contents b). rewrite (take_ge (contents b)) by lia.
  by rewrite take_app_length.
Qed.

(** [afl_realloc] delivers.  For any request below 2^63 bytes it either reports that
    the system has no memory, or returns a consistent buffer with room for the request
    that still starts with the old contents; a buffer that is large enough is returned
    as it is, and a new one of more than INITIAL_GROWTH_SIZE and at most 2^32 bytes is
    the least power of two that does. *)
Theorem afl_realloc_correct can_alloc fresh b size :
  0 <= size < 2 ^ 63 -> (forall x, b = Some x -> buffer_ok x) ->
  match afl_realloc can_alloc fresh b size with
  | Some b' =>
      buffer_ok b' /\ size <= Z.of_nat (length (buf b'))
      /\ take (length (contents b)) (buf b') = contents b
      /\ (Some b' <> b -> INITIAL_GROWTH_SIZE <= size + AFL_ALLOC_SIZE_OFFSET <= 2 ^ 32 ->
          exists k, complete_size b' = 2 ^ k
            /\ forall m, 0 <= m -> size + AFL_ALLOC_SIZE_OFFSET <= 2 ^ m -> k <= m)
  | None => exists n, size < n /\ can_alloc n = false
  end.
Proof.
  intros Hs Hb. unfold afl_realloc, AFL_ALLOC_SIZE_OFFSET.
  replace (u64 (size + 8)) with (size + 8) by (unfold u64; symmetry; apply Z.mod_small; lia).
  set (cur := match b with Some b => complete_size b | None => 0 end).
  destruct (Z.leb_spec (size + 8) cur) as [Hle|Hgt].
  { destruct b as [b|]; [|subst cur; simpl in Hle; lia]. subst cur. simpl.
    destruct (Hb b eq_refl) as [H1 H2]. split; [done|]. split; [|split].
    - rewrite H2. unfold afl_alloc_bufsize, AFL_ALLOC_SIZE_OFFSET. lia.
    - by rewrite take_ge.
    - done. }
  set (nx := if size + 8 <? INITIAL_GROWTH_SIZE then _ else _).
  assert (Hnx : size + 8 <= nx < 2 ^ 64).
  { subst nx. unfold INITIAL_GROWTH_SIZE. destruct (Z.ltb_spec (size + 8) 64); [lia|].
    destruct (Z.eqb_spec (next_pow2 (size + 8)) 0); [lia|].
    destruct (next_pow2_ge (size + 8)); lia. }
  destruct (can_alloc nx) eqn:Hc; [|exists nx; split; [lia|done]].
  assert (Hlen : Z.of_nat (length (contents b)) <= nx - AFL_ALLOC_SIZE_OFFSET).
  { destruct b as [b|]; [|simpl; unfold AFL_ALLOC_SIZE_OFFSET; lia]. destruct (Hb b eq_refl) as [_ H2].
    simpl. rewrite H2. unfold afl_alloc_bufsize. subst cur. lia. }
  split; [split; [simpl; unfold AFL_ALLOC_SIZE_OFFSET; lia|apply length_resize; unfold AFL_ALLOC_SIZE_OFFSET; lia]|].
  split; [simpl; rewrite length_resize; unfold AFL_ALLOC_SIZE_OFFSET; lia|].
  split; [by apply resize_keeps|].
  intros _ [H64 H32]. simpl. subst nx. unfold INITIAL_GROWTH_SIZE in *.
  destruct (Z.ltb_spec (size + 8) 64); [lia|].
  destruct (next_pow2_least (size + 8) ltac:(lia)) as (k & Hk & Hp & _ & Hmin).
  pose proof (Z.pow_pos_nonneg 2 k). destruct (Z.eqb_spec (next_pow2 (size + 8)) 0); [lia|].
  exists k. auto.
Qed.

Lemma afl_realloc_correct_witness :
  exists b, afl_realloc (fun _ => true) (fun _ => 0) None 100 = Some b
    /\ complete_size b = 128 /\ 100 <= Z.of_nat (length (buf b)).
Proof.
  pose proof (afl_realloc_correct (fun _ => true) (fun _ => 0) None 100 ltac:(lia) ltac:(discriminate)) as H.
  destruct (afl_realloc _ _ None 100) as [b|] eqn:E; [|destruct H as (n & _ & H); discriminate H].
  exists b. split; [reflexivity|]. destruct H as (_ & H & _).
  vm_compute in E. injection E as <-. split; [reflexivity|exact H].
Defined.

(** A request for nothing is served: the buffer is neither freed nor is NULL returned. *)
Theorem afl_realloc_zero can_alloc fresh :
  can_alloc INITIAL_GROWTH_SIZE = true ->
  exists b, afl_realloc can_alloc fresh None 0 = Some b
    /\ Z.of_nat (length (buf b)) = INITIAL_GROWTH_SIZE - AFL_ALLOC_SIZE_OFFSET.
Proof.
  intros Hc. unfold afl_realloc. change (u64 (0 + AFL_ALLOC_SIZE_OFFSET)) with 8.
  cbn -[resize INITIAL_GROWTH_SIZE]. change (if 8 <? INITIAL_GROWTH_SIZE then INITIAL_GROWTH_SIZE else _) with INITIAL_GROWTH_SIZE.
  rewrite Hc. eexists. split; [reflexivity|]. cbn [buf]. by rewrite length_resize.
Qed.

(** Above 2^32 the smearing stops short: the result is no power of two. *)
Theorem next_pow2_above_32 : next_pow2 (2 ^ 40 + 1) = 2 ^ 41 - 2 ^ 9 + 1.
Proof. vm_compute. reflexivity. Qed.
