(* ===== verification/Rng.v ===== *)
(** * Random numbers (src/aflplusplus/src/afl-performance.c, include/afl-fuzz.h)

    The romuDuoJr / RomuTrio32 generators, [rand_below] with its rejection loop and
    its reseeding from /dev/urandom, and the helpers that pick lengths with it.
    [Random] is what the rest of the fuzzer relies on. *)
From S2P Require Import Prelude.

(** The generator's fields of [afl_state_t]. *)
Record rng := Rng {
  rand_seed0 : Z;
  rand_seed1 : Z;
  rand_seed2 : Z;
  rand_cnt : Z;
  fixed_seed : bool;
  init_seed : Z;
}.

Definition UINT64_MAX : Z := 2 ^ 64 - 1.
Definition RESEED_RNG : Z := 100000.

(** [((d << r) | (d >> (bits - r)))] on [bits]-wide words *)
Definition ROTL (bits d r : Z) : Z := Z.lor ((d ≪ r) `mod` 2 ^ bits) (d ≫ (bits - r)).

(** romuDuoJr, the 64-bit build: the value returned and the next state. *)
Definition rand_next (g : rng) : Z * rng :=
  let xp := rand_seed0 g in
  let s0 := u64 (15241094284759029579 * rand_seed1 g) in
  let s1 := ROTL 64 (u64 (rand_seed1 g - xp)) 27 in
  (xp, Rng s0 s1 (rand_seed2 g) (rand_cnt g) (fixed_seed g) (init_seed g)).

(** RomuTrio32, the 32-bit build. *)
Definition rand_next_32 (g : rng) : Z * rng :=
  let xp := rand_seed0 g in
  let yp := rand_seed1 g in
  let zp := rand_seed2 g in
  (xp, Rng (u32 (3323815723 * zp)) (ROTL 32 (u32 (yp - xp)) 6) (ROTL 32 (u32 (zp - yp)) 22)
         (rand_cnt g) (fixed_seed g) (init_seed g)).

Section generator.
(** XXH3 is not part of the sources; the operating system hands out the words read
    from /dev/urandom. *)
Context (hash64 : list Z -> Z) (urandom : rng -> Z * Z * Z).

Definition rand_set_seed (init : Z) (g : rng) : rng :=
  let s0 := hash64 (word_le 8 (u64 init)) in
  let s1 := Z.lxor s0 0x1234567890abcdef in
  let s2 := Z.lxor (Z.land s0 0x1234567890abcdef) (Z.lor s1 0xfedcba9876543210) in
  Rng s0 s1 s2 (rand_cnt g) (fixed_seed g) init.

Definition rand_get_seed (g : rng) : Z := if fixed_seed g then init_seed g else rand_seed0 g.

(** [if (!afl->rand_cnt-- && !afl->fixed_seed) { reseed }]; [rand_cnt] is a u32. *)
Definition reseed (g : rng) : rng :=
  let cnt := u32 (rand_cnt g - 1) in
  if (rand_cnt g =? 0) && negb (fixed_seed g) then
    let '(a, b, c) := urandom g in
    Rng a b c (RESEED_RNG / 2 + b `mod` RESEED_RNG) (fixed_seed g) (init_seed g)
  else Rng (rand_seed0 g) (rand_seed1 g) (rand_seed2 g) cnt (fixed_seed g) (init_seed g).

(** [do { rnd = rand_next(); } while (rnd >= UINT64_MAX - UINT64_MAX % limit)]; [None]
    when [fuel] draws were all rejected. *)
Fixpoint draw (fuel : nat) (limit : Z) (g : rng) : option (Z * rng) :=
  match fuel with
  | O => None
  | S fuel =>
      let '(rnd, g) := rand_next g in
      if UINT64_MAX - UINT64_MAX `mod` limit <=? rnd then draw fuel limit g else Some (rnd, g)
  end.

Definition rand_below (fuel : nat) (limit : Z) (g : rng) : option (Z * rng) :=
  if limit <=? 1 then Some (0, g)
  else
    let g := reseed g in
    '(rnd, g) ← draw fuel limit g;
    Some (rnd `mod` limit, g).
End generator.

(** ** What the generator promises to its clients *)

Class Random (W : Type) := {
  (** [rand_below(afl, limit)] *)
  below : W -> Z -> Z * W;
  below_small : forall w limit, limit <= 1 -> below w limit = (0, w);
  below_range : forall w limit, 1 < limit -> 0 <= (below w limit).1 < limit;
}.

Lemma below_bound {W} `{!Random W} w limit : 0 < limit -> 0 <= (below w limit).1 < limit.
Proof.
  intros H. destruct (decide (limit <= 1)); [rewrite below_small by done; simpl; lia|].
  apply below_range. lia.
Qed.

(** ** Helpers that draw lengths *)

Definition HAVOC_BLK_SMALL : Z := 32.
Definition HAVOC_BLK_MEDIUM : Z := 128.
Definition HAVOC_BLK_LARGE : Z := 1500.
Definition HAVOC_BLK_XL : Z := 32768.

Section helpers.
Context {W : Type} `{!Random W}.

Definition rand_below_datalen (w : W) (limit : Z) : Z * W :=
  if limit <=? 1 then (0, w)
  else
    let '(k, w) := below w 3 in
    if k =? 2 then
      let '(a, w) := below w limit in
      let '(b, w) := below w (limit - 1) in
      let '(c, w) := below w (limit - 1) in
      ((a `mod` (1 + b)) `mod` (1 + c), w)
    else if k =? 1 then
      let '(a, w) := below w limit in
      let '(b, w) := below w (limit - 1) in
      (a `mod` (1 + b), w)
    else if k =? 0 then below w limit
    else (1, w).

(** Helper to choose a random block length for block operations; [queue_cycle] and
    [run_over10m] are the fuzzer's. *)
Definition choose_block_len (queue_cycle : Z) (run_over10m : bool) (w : W) (limit : Z) : Z * W :=
  let rlim := Z.min queue_cycle 3 in
  let rlim := if negb run_over10m then 1 else rlim in
  let '(k, w) := below w rlim in
  let '(min_value, max_value, w) :=
    if k =? 0 then (1, HAVOC_BLK_SMALL, w)
    else if k =? 1 then (HAVOC_BLK_SMALL, HAVOC_BLK_MEDIUM, w)
    else
      let '(t, w) := below w 10 in
      if negb (t =? 0) then (HAVOC_BLK_MEDIUM, HAVOC_BLK_LARGE, w)
      else (HAVOC_BLK_LARGE, HAVOC_BLK_XL, w) in
  let min_value := if limit <=? min_value then 1 else min_value in
  let '(r, w) := below w (u32 (Z.min max_value limit - min_value + 1)) in
  (min_value + r, w).

(** [choose_block_len] never returns zero and never more than the limit: for every
    positive 32-bit limit the block length lies between 1 and the limit. *)
Theorem choose_block_len_range queue_cycle run_over10m w limit :
  0 < limit < 2 ^ 32 ->
  1 <= (choose_block_len queue_cycle run_over10m w limit).1 <= limit.
Proof.
  intros Hl. unfold choose_block_len. destruct (below w _) as [k w1].
  set (p := if k =? 0 then _ else _).
  assert (Hp : exists mn mx w', p = (mn, mx, w') /\ 1 <= mn <= mx /\ mx <= 32768).
  { subst p. destruct (k =? 0); [|destruct (k =? 1)]; [by do 3 eexists..|].
    destruct (below w1 10) as [t w2]. destruct (negb _); by do 3 eexists. }
  destruct Hp as (mn & mx & w' & -> & Hmn & Hmx).
  set (mn' := if limit <=? mn then 1 else mn).
  assert (Hmn' : 1 <= mn' <= limit /\ mn' <= mx) by (subst mn'; destruct (Z.leb_spec limit mn); lia).
  unfold u32. rewrite Z.mod_small by lia.
  pose proof (below_bound w' (Z.min mx limit - mn' + 1)) as Hr.
  destruct (below w' _) as [r w3]. simpl in *. lia.
Qed.

(** [rand_below_datalen] stays below its limit. *)
Theorem rand_below_datalen_range w limit :
  0 < limit -> 0 <= (rand_below_datalen w limit).1 < limit.
Proof.
  intros Hl. unfold rand_below_datalen. destruct (Z.leb_spec limit 1); [simpl; lia|].
  pose proof (below_bound w 3 ltac:(lia)) as Hk. destruct (below w 3) as [k w1]. simpl in Hk.
  pose proof (below_bound w1 limit ltac:(lia)) as Ha.
  destruct (Z.eqb_spec k 2).
  - destruct (below w1 limit) as [a w2]. simpl in Ha.
    pose proof (below_bound w2 (limit - 1) ltac:(lia)) as Hb.
    destruct (below w2 (limit - 1)) as [b w3]. simpl in Hb.
    pose proof (below_bound w3 (limit - 1) ltac:(lia)) as Hc.
    destruct (below w3 (limit - 1)) as [c w4]. simpl in *.
    pose proof (Z.mod_pos_bound (a `mod` (1 + b)) (1 + c) ltac:(lia)). lia.
  - destruct (Z.eqb_spec k 1).
    + destruct (below w1 limit) as [a w2]. simpl in Ha.
      pose proof (below_bound w2 (limit - 1) ltac:(lia)) as Hb.
      destruct (below w2 (limit - 1)) as [b w3]. simpl in *.
      pose proof (Z.mod_pos_bound a (1 + b) ltac:(lia)). lia.
    + destruct (Z.eqb_spec k 0); [exact Ha|lia].
Qed.
End helpers.

(** A generator for evaluating the helpers: it counts. *)
#[global] Instance counting_random : Random Z.
Proof.
  refine {| below w limit := if limit <=? 1 then (0, w) else (w `mod` limit, w + 1) |}.
  - intros w limit H. by rewrite (proj2 (Z.leb_le limit 1) H).
  - intros w limit H. destruct (Z.leb_spec limit 1); [lia|]. simpl. apply Z.mod_pos_bound. lia.
Defined.

Lemma choose_block_len_range_witness :
  1 <= (choose_block_len 5 true 7 40).1 <= 40.
Proof. apply (choose_block_len_range 5 true 7 40). lia. Defined.

Lemma rand_below_datalen_range_witness : 0 <= (rand_below_datalen 5 10).1 < 10.
Proof. apply (rand_below_datalen_range 5 10). lia. Defined.

(** ** The generator *)

Definition rng_ok (g : rng) : Prop :=
  0 <= rand_seed0 g < 2 ^ 64 /\ 0 <= rand_seed1 g < 2 ^ 64.

Lemma ROTL_add bits d r :
  0 < r < bits -> 0 <= d < 2 ^ bits ->
  ROTL bits d r = d `div` 2 ^ (bits - r) + (d `mod` 2 ^ (bits - r)) * 2 ^ r.
Proof.
  intros Hr Hd. unfold ROTL.
  assert (Hp : 2 ^ bits = 2 ^ (bits - r) * 2 ^ r) by (rewrite <- Z.pow_add_r by lia; f_equal; lia).
  assert (0 < 2 ^ (bits - r)) by (apply Z.pow_pos_nonneg; lia).
  assert (0 < 2 ^ r) by (apply Z.pow_pos_nonneg; lia).
  rewrite Z.shiftl_mul_pow2, Z.shiftr_div_pow2, Hp by lia.
  rewrite Z.mul_mod_distr_r by lia.
  rewrite Z.lor_comm, <- (Z.shiftl_mul_pow2 _ r), lor_disjoint_add; [by rewrite Z.shiftl_mul_pow2 by lia|lia| |lia].
  split; [apply Z.div_pos; lia|]. apply Z.div_lt_upper_bound; lia.
Qed.

Lemma ROTL_range bits d r :
  0 < r < bits -> 0 <= d < 2 ^ bits -> 0 <= ROTL bits d r < 2 ^ bits.
Proof.
  intros Hr Hd. rewrite ROTL_add by done.
  assert (Hp : 2 ^ bits = 2 ^ (bits - r) * 2 ^ r) by (rewrite <- Z.pow_add_r by lia; f_equal; lia).
  assert (0 < 2 ^ (bits - r)) by (apply Z.pow_pos_nonneg; lia).
  assert (0 < 2 ^ r) by (apply Z.pow_pos_nonneg; lia).
  pose proof (Z.mod_pos_bound d (2 ^ (bits - r)) ltac:(lia)).
  assert (0 <= d / 2 ^ (bits - r) < 2 ^ r)
    by (split; [apply Z.div_pos; lia|apply Z.div_lt_upper_bound; lia]).
  nia.
Qed.

Lemma ROTL_inj bits d d' r :
  0 < r < bits -> 0 <= d < 2 ^ bits -> 0 <= d' < 2 ^ bits ->
  ROTL bits d r = ROTL bits d' r -> d = d'.
Proof.
  intros Hr Hd Hd' H. rewrite !ROTL_add in H by done.
  assert (Hp : 2 ^ bits = 2 ^ (bits - r) * 2 ^ r) by (rewrite <- Z.pow_add_r by lia; f_equal; lia).
  set (m := 2 ^ (bits - r)) in *. set (n := 2 ^ r) in *.
  assert (0 < m) by (apply Z.pow_pos_nonneg; lia).
  assert (0 < n) by (apply Z.pow_pos_nonneg; lia).
  assert (Hq : forall x, 0 <= x < 2 ^ bits -> 0 <= x / m < n)
    by (intros x Hx; split; [apply Z.div_pos; lia|apply Z.div_lt_upper_bound; lia]).
  pose proof (Hq d Hd). pose proof (Hq d' Hd').
  rewrite (Z.div_mod d m), (Z.div_mod d' m) by lia.
  assert (d `mod` m = d' `mod` m) by nia. assert (d / m = d' / m) by nia. congruence.
Qed.

(** The inverse of the multiplier modulo 2^64. *)
Definition romu_inverse : Z := Eval vm_compute in
  (fix go (n : nat) (x : Z) : Z :=
     match n with
     | O => x
     | S n => go n (u64 (x * (2 - 15241094284759029579 * x)))
     end) 7%nat 1.

Lemma romu_mul_inj y y' :
  0 <= y < 2 ^ 64 -> 0 <= y' < 2 ^ 64 ->
  u64 (15241094284759029579 * y) = u64 (15241094284759029579 * y') -> y = y'.
Proof.
  intros Hy Hy' H. unfold u64 in H.
  assert (Hi : forall x, 0 <= x < 2 ^ 64 ->
    (romu_inverse * ((15241094284759029579 * x) `mod` 2 ^ 64)) `mod` 2 ^ 64 = x).
  { intros x Hx. rewrite Zmult_mod_idemp_r, Z.mul_assoc, <- Zmult_mod_idemp_l.
    replace ((romu_inverse * 15241094284759029579) `mod` 2 ^ 64) with 1 by reflexivity.
    rewrite Z.mul_1_l. by apply Z.mod_small. }
  rewrite <- (Hi y Hy), <- (Hi y' Hy'). by rewrite H.
Qed.

(** The 64-bit generator is a permutation of its states: a step keeps both words in
    range, and two states with the same successor are equal, so the sequence never
    falls into a shorter cycle from the outside. *)
Theorem rand_next_permutes g g' :
  rng_ok g -> rng_ok g' ->
  rng_ok (rand_next g).2 /\
  (rand_seed0 (rand_next g).2 = rand_seed0 (rand_next g').2 ->
   rand_seed1 (rand_next g).2 = rand_seed1 (rand_next g').2 ->
   rand_seed0 g = rand_seed0 g' /\ rand_seed1 g = rand_seed1 g').
Proof.
  intros [H0 H1] [H0' H1']. unfold rand_next; simpl.
  assert (Hu : forall z, 0 <= u64 z < 2 ^ 64) by (intros z; apply Z.mod_pos_bound; lia).
  split; [split; simpl; [apply Hu|apply ROTL_range; [lia|apply Hu]]|].
  intros Hm Hr. apply romu_mul_inj in Hm; [|done..]. split; [|done].
  apply ROTL_inj in Hr; [|lia|apply Hu..]. rewrite Hm in Hr. unfold u64 in Hr. dlia.
Qed.

Lemma rand_next_permutes_witness :
  rng_ok (rand_next (Rng 1 2 3 0 false 0)).2.
Proof.
  apply (rand_next_permutes (Rng 1 2 3 0 false 0) (Rng 1 2 3 0 false 0)); split; simpl; lia.
Defined.

Lemma accept_bound limit :
  1 < limit -> UINT64_MAX - UINT64_MAX `mod` limit = limit * (UINT64_MAX / limit).
Proof. intros. pose proof (Z.div_mod UINT64_MAX limit). lia. Qed.

(** [rand_below] is unbiased.  It returns a value below its limit however many draws
    it rejects, and each value is the answer to exactly [UINT64_MAX / limit] of the
    64-bit draws it accepts: a draw is turned into [r] iff it is [r] plus a multiple
    [k] of the limit with [k < UINT64_MAX / limit]. *)
Theorem rand_below_unbiased urandom limit g :
  1 < limit < 2 ^ 32 -> rng_ok (reseed urandom g) ->
  (forall fuel r g', rand_below urandom fuel limit g = Some (r, g') -> 0 <= r < limit) /\
  (forall r, 0 <= r < limit ->
     (exists g', rand_below urandom 1 limit g = Some (r, g')) <->
     exists k, 0 <= k < UINT64_MAX / limit /\
       rand_seed0 (reseed urandom g) = r + limit * k).
Proof.
  intros Hl [H0 _]. unfold rand_below. destruct (Z.leb_spec limit 1); [lia|]. split.
  - intros fuel r g' H1. destruct (draw fuel limit (reseed urandom g)) as [[x g1]|]; [|done].
    simpl in H1. injection H1 as <- <-. apply Z.mod_pos_bound. lia.
  - intros r Hr. set (x := rand_seed0 (reseed urandom g)) in *. simpl. fold x.
    rewrite accept_bound by lia. destruct (Z.leb_spec (limit * (UINT64_MAX / limit)) x) as [Hx|Hx];
      simpl.
    + split; [by intros [g' ?]|]. intros (k & Hk & ->). nia.
    + split.
      * intros [g' Heq]. injection Heq as Heq _. exists (x / limit).
        split; [|pose proof (Z.div_mod x limit); lia].
        split; [apply Z.div_pos; lia|]. apply Z.div_lt_upper_bound; lia.
      * intros (k & Hk & ->). eexists. repeat f_equal.
        rewrite (Z.mul_comm limit), Z_mod_plus_full. apply Z.mod_small. lia.
Qed.

Lemma rand_below_unbiased_witness :
  exists g', rand_below (fun _ => (0, 0, 0)) 1 10 (Rng 47 2 3 5 false 0) = Some (7, g').
Proof.
  apply (rand_below_unbiased (fun _ => (0, 0, 0)) 10 (Rng 47 2 3 5 false 0));
    [lia|split; simpl; lia|lia|].
  exists 4. split; [split; [lia|reflexivity]|reflexivity].
Defined.
