(* ===== verification/Extras.v ===== *)
(** * Dictionaries (src/aflplusplus/src/afl-fuzz-extras.c)

    The user's tokens ([extras]) and the tokens found while fuzzing ([a_extras]):
    reading a dictionary line, adding, de-duplicating, widening back from UTF-16/32,
    and the orderings the dictionary stages of [fuzz_one] rely on. *)
From stdpp Require Import sorting.
From S2P Require Import Prelude OneHelpers Rng.

Definition MAX_DICT_FILE : Z := 128.
Definition USE_AUTO_EXTRAS : Z := 4096.
Definition MAX_AUTO_EXTRAS : Z := USE_AUTO_EXTRAS * 8.
Definition MAX_AUTO_EXTRA : Z := 32.

(** ** C strings and character classes (C locale) *)

Definition isspace (c : Z) : bool := (c =? 32) || ((9 <=? c) && (c <=? 13)).
Definition isdigit (c : Z) : bool := (48 <=? c) && (c <=? 57).
Definition isalnum (c : Z) : bool :=
  isdigit c || ((65 <=? c) && (c <=? 90)) || ((97 <=? c) && (c <=? 122)).
Definition isxdigit (c : Z) : bool :=
  isdigit c || ((65 <=? c) && (c <=? 70)) || ((97 <=? c) && (c <=? 102)).
Definition tolower (c : Z) : Z := if (65 <=? c) && (c <=? 90) then c + 32 else c.

(** [while (p( *lptr)) ++lptr;] on a string without its terminator *)
Fixpoint skip_while (p : Z -> bool) (s : list Z) : list Z :=
  match s with
  | c :: s' => if p c then skip_while p s' else s
  | [] => []
  end.

(** [atoi]: white space, a sign, digits. *)
Fixpoint atoi_digits (acc : Z) (s : list Z) : Z :=
  match s with
  | c :: s' => if isdigit c then atoi_digits (10 * acc + (c - 48)) s' else acc
  | [] => acc
  end.
Definition atoi (s : list Z) : Z :=
  match skip_while isspace s with
  | 45 :: s' => - atoi_digits 0 s'
  | 43 :: s' => atoi_digits 0 s'
  | s' => atoi_digits 0 s'
  end.

(** ** Reading one line of a dictionary file *)

(** [strchr("0123456789abcdef", tolower(c)) - hexdigits] *)
Definition hexval (c : Z) : Z := if isdigit c then c - 48 else tolower c - 87.

(** The loop over the characters between the quotes, with the token written so far;
    [None] when [fuel] iterations are not enough. *)
Fixpoint decode (fuel : nat) (lptr acc : list Z) : option (list Z) :=
  match fuel, lptr with
  | O, _ => None
  | S fuel, [] => Some acc
  | S fuel, c :: rest =>
      if ((1 <=? c) && (c <=? 31)) || ((128 <=? c) && (c <=? 255)) then
        (* "Non-printable characters": [continue] leaves [lptr] where it is *)
        decode fuel lptr acc
      else if c =? 92 then
        match rest with
        | d :: rest' =>
            if (d =? 92) || (d =? 34) then decode fuel rest' (acc ++ [d])
            else
              match rest' with
              | h1 :: h2 :: rest'' =>
                  if negb (d =? 120) || negb (isxdigit h1) || negb (isxdigit h2)
                  then decode fuel rest acc
                  else decode fuel rest''
                         (acc ++ [u8 (Z.lor (hexval h1 ≪ 4) (hexval h2))])
              | _ => decode fuel rest acc
              end
        | [] => decode fuel rest acc
        end
      else decode fuel rest (acc ++ [c])
  end.

Inductive line_result :=
| Skipped            (** empty, a comment, above the level, malformed or too big *)
| Keyword (tok : list Z)
| Hangs.             (** the decoding loop did not finish *)

(** Trim on left and right. *)
Definition trim (s : list Z) : list Z := reverse (skip_while isspace (reverse (skip_while isspace s))).

(** [if ( *lptr == '@') { ...; if (atoi(lptr) > dict_level) continue; ... }] *)
Definition skip_level (dict_level : Z) (s : list Z) : option (list Z) :=
  match s with
  | 64 :: s' => if dict_level <? atoi s' then None else Some (skip_while isdigit s')
  | _ => Some s
  end.

(** [if ( *lptr == '[') { do ++lptr; while (digit); if ( *lptr == ']') ++lptr; }] *)
Definition skip_index (s : list Z) : list Z :=
  match s with
  | 91 :: s' => match skip_while isdigit s' with 93 :: s'' => s'' | s'' => s'' end
  | _ => s
  end.

Definition load_line (fuel : nat) (dict_level : Z) (line : list Z) : line_result :=
  let s := trim line in
  match s with
  | [] => Skipped
  | c :: _ =>
      if c =? 35 then Skipped
      else
        match reverse s with
        | 34 :: body =>
            let s := skip_while (fun c => isalnum c || (c =? 95)) (reverse body) in
            match skip_level dict_level s with
            | None => Skipped
            | Some s =>
                match skip_while (fun c => isspace c || (c =? 61)) (skip_index s) with
                | 34 :: [] => Skipped
                | 34 :: s =>
                    match decode fuel s [] with
                    | None => Hangs
                    | Some tok =>
                        if MAX_DICT_FILE <? Z.of_nat (length tok) then Skipped else Keyword tok
                    end
                | _ => Skipped
                end
            end
        | _ => Skipped
        end
  end.

(** ** The dictionaries *)

Record auto_extra_data := AutoExtra { a_data : list Z; a_hit_cnt : Z }.

#[export] Instance auto_extra_data_eq_dec : EqDecision auto_extra_data.
Proof. solve_decision. Defined.

Record dict := Dict {
  extras : list (list Z);
  a_extras : list auto_extra_data;
  auto_changed : bool;
}.

(** Three-way comparison, as [qsort]'s callbacks return it. *)
Definition compare_extras_len (e1 e2 : list Z) : Z :=
  Z.of_nat (length e1) - Z.of_nat (length e2).
Definition compare_auto_extras_len (e1 e2 : auto_extra_data) : Z :=
  Z.of_nat (length (a_data e1)) - Z.of_nat (length (a_data e2)).
(** descending order *)
Definition compare_auto_extras_use_d (e1 e2 : auto_extra_data) : Z :=
  s32 (a_hit_cnt e2 - a_hit_cnt e1).

(** [qsort] of the C library: it permutes its array, and sorts it when the callback is a
    total preorder. *)
Class Qsort := {
  qsort : forall {A}, (A -> A -> Z) -> list A -> list A;
  qsort_permutes : forall A (cmp : A -> A -> Z) l, qsort cmp l ≡ₚ l;
  qsort_sorts : forall A (cmp : A -> A -> Z) l,
    (forall x y z, cmp x y <= 0 -> cmp y z <= 0 -> cmp x z <= 0) ->
    (forall x y, cmp x y <= 0 \/ cmp y x <= 0) ->
    StronglySorted (fun x y => cmp x y <= 0) (qsort cmp l);
}.

Section dictionary.
Context `{!Qsort}.

Definition extras_check_and_sort (d : dict) : dict :=
  match extras d with
  | [] => d
  | _ => Dict (qsort compare_extras_len (extras d)) (a_extras d) (auto_changed d)
  end.

(** The lines of a dictionary file, appended in order. *)
Fixpoint load_extras_file (fuel : nat) (dict_level : Z) (lines : list (list Z)) (d : dict)
  : option dict :=
  match lines with
  | [] => Some d
  | line :: lines =>
      match load_line fuel dict_level line with
      | Skipped => load_extras_file fuel dict_level lines d
      | Keyword tok =>
          load_extras_file fuel dict_level lines
            (Dict (extras d ++ [tok]) (a_extras d) (auto_changed d))
      | Hangs => None
      end
  end.

(** Files of a dictionary directory: contents of the regular, non-empty ones. *)
Definition load_extras_dir (files : list (list Z)) (d : dict) : dict :=
  extras_check_and_sort
    (Dict (extras d ++ List.filter (fun f => negb (Z.of_nat (length f) =? 0)
                                     && (Z.of_nat (length f) <=? MAX_DICT_FILE)) files)
       (a_extras d) (auto_changed d)).

(** [load_extras] on a file. *)
Definition load_extras (fuel : nat) (dict_level : Z) (lines : list (list Z)) (d : dict)
  : option dict :=
  d ← load_extras_file fuel dict_level lines d; Some (extras_check_and_sort d).

Definition add_extra_nocheck (tok : list Z) (d : dict) : dict :=
  Dict (extras d ++ [tok]) (a_extras d) (auto_changed d).

(** *** [deunicode_extras] *)

(** Zero bytes at the positions [p], from position [j] on; the bytes at [p]. *)
Fixpoint zeros (p : Z -> bool) (j : Z) (l : list Z) : Z :=
  match l with
  | [] => 0
  | c :: l' => (if p j && (c =? 0) then 1 else 0) + zeros p (j + 1) l'
  end.
Fixpoint pick (p : Z -> bool) (j : Z) (l : list Z) : list Z :=
  match l with
  | [] => []
  | c :: l' => if p j then c :: pick p (j + 1) l' else pick p (j + 1) l'
  end.

Definition at2 (r j : Z) : bool := j `mod` 2 =? r.
Definition at4 (r j : Z) : bool := j `mod` 4 =? r.

(** The narrowed tokens of one entry: from 32-bit characters, then from 16-bit ones. *)
Definition deunicode (tok : list Z) : list (list Z) :=
  let len := Z.of_nat (length tok) in
  if (len <? 6) || (64 <? len) || negb (len `mod` 2 =? 0) then []
  else
    let half := len ≫ 1 in
    let quarter := half ≫ 1 in
    let z1 := zeros (at2 0) 0 tok in
    let z2 := zeros (at2 1) 0 tok in
    let z3 := zeros (at4 2) 0 tok in
    let z4 := zeros (at4 3) 0 tok in
    if ((z1 <? half) && (z2 <? half)) || (z1 + z2 =? len) then []
    else
      (if (len `mod` 4 =? 0) && (12 <=? len) && ((z3 =? quarter) || (z4 =? quarter))
          && (z1 + z2 =? quarter * 3)
       then [if z4 <? quarter then pick (at4 3) 0 tok
             else if z3 <? quarter then pick (at4 2) 0 tok
             else if z2 <? half then pick (at4 1) 0 tok
             else pick (at4 0) 0 tok]
       else [])
      ++ [if z1 <? half then pick (at2 0) 0 tok else pick (at2 1) 0 tok].

Definition deunicode_extras (d : dict) : dict :=
  match extras d with
  | [] => d
  | _ =>
      let d := foldl (fun d tok => add_extra_nocheck tok d) d (flat_map deunicode (extras d)) in
      Dict (qsort compare_extras_len (extras d)) (a_extras d) (auto_changed d)
  end.

(** *** [dedup_extras] *)

(** The inner loop at [j], with [x] the entry at [i]: stops at the first other length,
    deletes an equal entry and stays in place. *)
Fixpoint dedup_from (x : list Z) (l : list (list Z)) : list (list Z) :=
  match l with
  | [] => []
  | y :: l' =>
      if negb (length x =? length y)%nat then l
      else if bool_decide (x = y) then dedup_from x l'
      else y :: dedup_from x l'
  end.

Fixpoint dedup_loop (fuel : nat) (l : list (list Z)) : list (list Z) :=
  match fuel, l with
  | S fuel, x :: l' => x :: dedup_loop fuel (dedup_from x l')
  | _, _ => l
  end.

Definition dedup_extras (d : dict) : dict :=
  if (length (extras d) <? 2)%nat then d
  else Dict (dedup_loop (length (extras d)) (extras d)) (a_extras d) (auto_changed d).

(** *** [add_extra] *)

(** [true] when the scan meets the token: it stops after the entries of its length. *)
Fixpoint scan_extras (tok : list Z) (found : bool) (l : list (list Z)) : bool :=
  match l with
  | [] => false
  | x :: l' =>
      if (length x =? length tok)%nat then
        if bool_decide (x = tok) then true else scan_extras tok true l'
      else if found then false else scan_extras tok found l'
  end.

Definition add_extra (tok : list Z) (d : dict) : dict :=
  if scan_extras tok false (extras d) then d
  else if MAX_DICT_FILE <? Z.of_nat (length tok) then d
  else
    let d := add_extra_nocheck tok d in
    Dict (qsort compare_extras_len (extras d)) (a_extras d) (auto_changed d).

(** *** [maybe_add_auto] *)

(** [0] when the two byte strings agree up to ASCII case *)
Definition memcmp_nocase (m1 m2 : list Z) : bool :=
  negb (bool_decide (map tolower m1 = map tolower m2)).

(** Runs of identical bytes. *)
Definition is_run (mem : list Z) : bool :=
  match mem with [] => false | c :: mem' => forallb (fun x => x =? c) mem' end.

(** The builtin values are rejected by comparing the token, read as a little-endian
    word, with the signed 16-bit and the unsigned 32-bit constants. *)
Definition is_builtin (mem : list Z) : bool :=
  (if (length mem =? 2)%nat
   then existsb (fun v => (le_word mem =? v) || (le_word mem =? SWAP16 v)) interesting_16
   else false)
  || (if (length mem =? 4)%nat
      then existsb (fun v => (le_word mem =? u32 v) || (le_word mem =? SWAP32 v)) interesting_32
      else false).

(** The scan of the sorted extras. *)
Fixpoint skip_shorter (n : nat) (l : list (list Z)) : list (list Z) :=
  match l with
  | x :: l' => if (n <=? length x)%nat then l else skip_shorter n l'
  | [] => []
  end.
Fixpoint match_nocase (mem : list Z) (l : list (list Z)) : bool :=
  match l with
  | x :: l' =>
      if (length x =? length mem)%nat
      then if negb (memcmp_nocase x mem) then true else match_nocase mem l'
      else false
  | [] => false
  end.

(** Bump the hit count of the first entry that agrees up to case. *)
Fixpoint bump_auto (mem : list Z) (l : list auto_extra_data) : option (list auto_extra_data) :=
  match l with
  | [] => None
  | x :: l' =>
      if (length (a_data x) =? length mem)%nat && negb (memcmp_nocase (a_data x) mem)
      then Some (AutoExtra (a_data x) (u32 (a_hit_cnt x + 1)) :: l')
      else l'' ← bump_auto mem l'; Some (x :: l'')
  end.

(** By use count, then the top [USE_AUTO_EXTRAS] entries by size. *)
Definition sort_a_extras (l : list auto_extra_data) : list auto_extra_data :=
  let l := qsort compare_auto_extras_use_d l in
  let n := Z.to_nat (Z.min USE_AUTO_EXTRAS (Z.of_nat (length l))) in
  qsort compare_auto_extras_len (take n l) ++ drop n l.

Definition maybe_add_auto {W} `{!Random W} (mem : list Z) (d : dict) (w : W) : dict * W :=
  if is_run mem || (MAX_AUTO_EXTRA <? Z.of_nat (length mem)) then (d, w)
  else if is_builtin mem then (d, w)
  else if match_nocase mem (skip_shorter (length mem) (extras d)) then (d, w)
  else
    match bump_auto mem (a_extras d) with
    | Some l => (Dict (extras d) (sort_a_extras l) true, w)
    | None =>
        if Z.of_nat (length (a_extras d)) <? MAX_AUTO_EXTRAS
        then (Dict (extras d) (sort_a_extras (a_extras d ++ [AutoExtra mem 0])) true, w)
        else
          let '(r, w) := below w ((MAX_AUTO_EXTRAS + 1) / 2) in
          let i := MAX_AUTO_EXTRAS / 2 + r in
          (Dict (extras d) (sort_a_extras (<[Z.to_nat i := AutoExtra mem 0]> (a_extras d))) true, w)
    end.
End dictionary.
