(* ===== verification/ExtrasTheorems.v ===== *)
(** * Dictionaries: what the operations guarantee

    Order by size, absence of duplicates, bounds of the automatic dictionary, and the
    dictionary file format. *)
From stdpp Require Import sorting.
From S2P Require Import Prelude OneHelpers Rng Extras.

(** ** Sorted by size *)

Definition by_len (l : list (list Z)) : Prop :=
  StronglySorted (fun x y => length x <= length y)%nat l.

Lemma StronglySorted_impl {A} (R R' : A -> A -> Prop) l :
  (forall x y, R x y -> R' x y) -> StronglySorted R l -> StronglySorted R' l.
Proof. intros H. induction 1; constructor; [done|]. eapply Forall_impl; eauto. Qed.

Lemma qsort_by_len `{!Qsort} l : by_len (qsort compare_extras_len l).
Proof.
  eapply StronglySorted_impl; [|apply (qsort_sorts _ compare_extras_len)];
    unfold compare_extras_len; intros; simpl in *; lia.
Qed.

(** ** [dedup_extras] *)

Lemma dedup_from_filter x l :
  by_len (x :: l) -> dedup_from x l = filter (fun y => y <> x) l.
Proof.
  intros Hs. apply StronglySorted_inv in Hs as [Hs Hx]. revert Hs Hx.
  induction l as [|y l IH]; intros Hs Hx; [done|]. inv Hx. apply StronglySorted_inv in Hs as [Hs Hy].
  simpl. destruct (Nat.eqb_spec (length x) (length y)) as [E|E]; simpl.
  - case_bool_decide as Hxy.
    + subst. rewrite filter_cons_False by auto. auto.
    + rewrite filter_cons_True by auto. f_equal. auto.
  - assert (Hall : Forall (fun z => z <> x) (y :: l)).
    { constructor; [congruence|]. eapply Forall_impl; [exact Hy|]. intros z Hz ->. lia. }
    symmetry. revert Hall. generalize (y :: l). intros l' Hall.
    induction Hall; [done|]. rewrite filter_cons_True by done. congruence.
Qed.

Lemma StronglySorted_filter {A} (R : A -> A -> Prop) (P : A -> Prop) `{!forall x, Decision (P x)} l :
  StronglySorted R l -> StronglySorted R (filter P l).
Proof.
  induction 1 as [|x l Hs IH Hx]; [constructor|]. rewrite filter_cons. case_decide; [|done].
  constructor; [done|]. apply Forall_forall. intros y Hy. apply list_elem_of_filter in Hy as [_ Hy].
  by eapply Forall_forall in Hx.
Qed.

Lemma dedup_loop_spec fuel l :
  by_len l -> (length l <= fuel)%nat ->
  NoDup (dedup_loop fuel l) /\ by_len (dedup_loop fuel l)
  /\ forall x, x ∈ dedup_loop fuel l <-> x ∈ l.
Proof.
  assert (Hnil : NoDup (@nil (list Z)) /\ by_len [] /\ forall x : list Z, x ∈ [] <-> x ∈ [])
    by (split; [constructor|split; [constructor|done]]).
  revert l. induction fuel as [|fuel IH]; intros [|x l] Hs Hl; simpl in *; [done|lia|done|].
  rewrite dedup_from_filter by done. apply StronglySorted_inv in Hs as [Hs Hx].
  destruct (IH (filter (fun y => y <> x) l)) as (Hn & Hb & Hi).
  { by apply StronglySorted_filter. }
  { etrans; [apply length_filter|lia]. }
  split; [|split].
  - constructor; [|done]. rewrite Hi, list_elem_of_filter. tauto.
  - constructor; [done|]. apply Forall_forall. intros y Hy. apply Hi, list_elem_of_filter in Hy as [_ Hy].
    by eapply Forall_forall in Hx.
  - intros y. rewrite !elem_of_cons, Hi, list_elem_of_filter.
    destruct (decide (y = x)); tauto.
Qed.

(** On a dictionary sorted by size, [dedup_extras] removes every duplicate and
    nothing else, and keeps the order by size. *)
Theorem dedup_extras_correct d :
  by_len (extras d) ->
  NoDup (extras (dedup_extras d)) /\ by_len (extras (dedup_extras d))
  /\ forall x, x ∈ extras (dedup_extras d) <-> x ∈ extras d.
Proof.
  intros Hs. unfold dedup_extras. destruct (Nat.ltb_spec (length (extras d)) 2) as [Hl|Hl].
  - split; [|done]. destruct (extras d) as [|x [|y l]]; simpl in *; [constructor| |lia].
    constructor; [set_solver|constructor].
  - simpl. by apply dedup_loop_spec.
Qed.

Lemma dedup_extras_correct_witness :
  extras (dedup_extras (Dict [[1]; [2]; [1]; [3; 4]; [3; 4]] [] false)) = [[1]; [2]; [3; 4]]
  /\ NoDup (extras (dedup_extras (Dict [[1]; [2]; [1]; [3; 4]; [3; 4]] [] false))).
Proof.
  split; [reflexivity|].
  apply (dedup_extras_correct (Dict [[1]; [2]; [1]; [3; 4]; [3; 4]] [] false)).
  repeat constructor.
Defined.

(** ** [add_extra] *)

Lemma scan_extras_spec tok found l :
  by_len l -> (found = true -> Forall (fun y => length tok <= length y)%nat l) ->
  scan_extras tok found l = true <-> tok ∈ l.
Proof.
  revert found. induction l as [|x l IH]; intros found Hs Hf; simpl; [set_solver|].
  apply StronglySorted_inv in Hs as [Hs Hx]. rewrite elem_of_cons.
  destruct (Nat.eqb_spec (length x) (length tok)) as [E|E].
  - case_bool_decide as Hxt; [subst; tauto|]. rewrite IH; [|done|].
    + split; [tauto|]. intros [->|?]; [done|done].
    + intros _. eapply Forall_impl; [exact Hx|]. simpl. intros; lia.
  - destruct found.
    + specialize (Hf eq_refl). inv Hf. split; [done|]. intros [->|Hin]; [done|].
      eapply Forall_forall in Hx; [|exact Hin]. simpl in *. lia.
    + rewrite IH by done. split; [tauto|]. intros [->|?]; [done|done].
Qed.

(** On a sorted dictionary without duplicates, [add_extra] adds the token exactly when
    it is new and at most MAX_DICT_FILE bytes long, and keeps both properties, although
    its scan gives up after the entries of the token's length. *)
Theorem add_extra_correct `{!Qsort} tok d :
  by_len (extras d) -> NoDup (extras d) ->
  by_len (extras (add_extra tok d)) /\ NoDup (extras (add_extra tok d))
  /\ forall x, x ∈ extras (add_extra tok d) <->
       x ∈ extras d \/ (x = tok /\ Z.of_nat (length tok) <= MAX_DICT_FILE).
Proof.
  intros Hs Hn. unfold add_extra.
  pose proof (scan_extras_spec tok false (extras d) Hs ltac:(done)) as Hscan.
  destruct (scan_extras tok false (extras d)).
  { split; [done|]. split; [done|]. intros x. split; [tauto|].
    intros [?|[-> _]]; [done|]. by apply Hscan. }
  assert (Hnew : tok ∉ extras d) by (intros Hin; by apply Hscan in Hin).
  destruct (Z.ltb_spec MAX_DICT_FILE (Z.of_nat (length tok))).
  { split; [done|]. split; [done|]. intros x. split; [tauto|]. intros [?|[_ ?]]; [done|lia]. }
  simpl. split; [apply qsort_by_len|]. rewrite qsort_permutes. split.
  - apply NoDup_app. split; [done|]. split; [set_solver|]. apply NoDup_singleton.
  - intros x. rewrite qsort_permutes. set_solver.
Qed.

(** [qsort] by merge sort, for evaluation. *)
#[global] Instance merge_qsort : Qsort.
Proof.
  refine {| qsort A cmp l :=
    merge_sort (fun x y => is_true (cmp x y <=? 0)) l |}.
  - intros A cmp l. apply merge_sort_Permutation.
  - intros A cmp l Htrans Htot.
    assert (Ht : Transitive (fun x y => is_true (cmp x y <=? 0))).
    { intros x y z Hxy Hyz. unfold is_true in *. rewrite Z.leb_le in *. eauto. }
    assert (Hc : Total (fun x y => is_true (cmp x y <=? 0))).
    { intros x y. unfold is_true. rewrite !Z.leb_le. apply Htot. }
    eapply StronglySorted_impl; [|apply (StronglySorted_merge_sort _)].
    intros x y Hxy. by apply Z.leb_le.
Defined.

Lemma add_extra_correct_witness :
  [5; 6] ∈ extras (add_extra [5; 6] (Dict [[1]; [2; 3; 4]] [] false)).
Proof.
  apply (add_extra_correct [5; 6] (Dict [[1]; [2; 3; 4]] [] false)).
  - repeat constructor.
  - apply NoDup_cons. split; [set_solver|apply NoDup_singleton].
  - right. split; [reflexivity|]. unfold MAX_DICT_FILE. simpl. lia.
Defined.

(** ** [maybe_add_auto] *)

(** What two tokens share when they agree up to ASCII case. *)
Definition folded (mem : list Z) : list Z := map tolower mem.

Lemma memcmp_nocase_folded a b : negb (memcmp_nocase a b) = bool_decide (folded a = folded b).
Proof. unfold memcmp_nocase. by rewrite negb_involutive. Qed.

(** The automatic dictionary: bounded, its entries bounded and distinct up to case, and
    its most used part, the one the stages walk, sorted by size. *)
Record auto_ok (l : list auto_extra_data) : Prop := {
  auto_bounded : Z.of_nat (length l) <= MAX_AUTO_EXTRAS;
  auto_lens : Forall (fun x => Z.of_nat (length (a_data x)) <= MAX_AUTO_EXTRA) l;
  auto_nodup : NoDup (map (fun x => folded (a_data x)) l);
  auto_sorted : by_len (map a_data (take (Z.to_nat USE_AUTO_EXTRAS) l));
}.

Section autos.
Context {Q : Qsort}.

Lemma sort_a_extras_permutes l : sort_a_extras l ≡ₚ l.
Proof.
  unfold sort_a_extras. rewrite qsort_permutes, take_drop. apply qsort_permutes.
Qed.

Lemma StronglySorted_map {A B} (f : A -> B) (R : B -> B -> Prop) l :
  StronglySorted (fun x y => R (f x) (f y)) l -> StronglySorted R (map f l).
Proof. induction 1; simpl; constructor; [done|]. by apply Forall_fmap. Qed.

Lemma sort_a_extras_sorted l :
  by_len (map a_data (take (Z.to_nat USE_AUTO_EXTRAS) (sort_a_extras l))).
Proof.
  unfold sort_a_extras. set (l' := qsort compare_auto_extras_use_d l).
  set (n := Z.to_nat (Z.min USE_AUTO_EXTRAS (Z.of_nat (length l')))).
  assert (Hn : (n = Nat.min (Z.to_nat USE_AUTO_EXTRAS) (length l'))%nat) by lia.
  assert (Hlen : length (qsort compare_auto_extras_len (take n l')) = n).
  { rewrite (Permutation_length (qsort_permutes _ _ _)), length_take. lia. }
  assert (Hs : by_len (map a_data (qsort compare_auto_extras_len (take n l')))).
  { apply StronglySorted_map. eapply StronglySorted_impl;
      [|apply (qsort_sorts _ compare_auto_extras_len)];
      unfold compare_auto_extras_len; intros; simpl in *; lia. }
  destruct (decide (length l' <= Z.to_nat USE_AUTO_EXTRAS)%nat).
  - rewrite (drop_ge l') by lia. rewrite app_nil_r, take_ge by lia. done.
  - rewrite take_app_le, take_ge by lia. done.
Qed.

Lemma auto_ok_sorted l :
  Z.of_nat (length l) <= MAX_AUTO_EXTRAS ->
  Forall (fun x => Z.of_nat (length (a_data x)) <= MAX_AUTO_EXTRA) l ->
  NoDup (map (fun x => folded (a_data x)) l) -> auto_ok (sort_a_extras l).
Proof.
  intros Hl Hb Hn. pose proof (sort_a_extras_permutes l) as Hp. split.
  - by rewrite (Permutation_length Hp).
  - by rewrite Hp.
  - by rewrite Hp.
  - apply sort_a_extras_sorted.
Qed.

Lemma bump_auto_spec mem l :
  match bump_auto mem l with
  | Some l' => map a_data l' = map a_data l /\ folded mem ∈ map (fun x => folded (a_data x)) l
  | None => folded mem ∉ map (fun x => folded (a_data x)) l
  end.
Proof.
  induction l as [|x l IH]; simpl; [set_solver|]. rewrite memcmp_nocase_folded.
  assert (Hlen : folded (a_data x) = folded mem -> length (a_data x) = length mem).
  { intros H. apply (f_equal length) in H. unfold folded in H. by rewrite !length_map in H. }
  case_bool_decide as Hf.
  - rewrite (proj2 (Nat.eqb_eq _ _) (Hlen Hf)). simpl. split; [done|]. rewrite Hf. set_solver.
  - rewrite andb_false_r. destruct (bump_auto mem l) as [l'|]; simpl.
    + destruct IH as [-> IH]. split; [done|]. set_solver.
    + set_solver.
Qed.

Lemma skip_shorter_in n l x :
  by_len l -> length x = n -> x ∈ skip_shorter n l <-> x ∈ l.
Proof.
  intros Hs Hx. induction l as [|y l IH]; simpl; [done|].
  apply StronglySorted_inv in Hs as [Hs _]. destruct (Nat.leb_spec n (length y)); [done|].
  rewrite IH, elem_of_cons by done. split; [tauto|]. intros [->|?]; [lia|done].
Qed.

Lemma skip_shorter_sorted n l :
  by_len l -> by_len (skip_shorter n l) /\ Forall (fun y => n <= length y)%nat (skip_shorter n l).
Proof.
  induction l as [|y l IH]; intros Hs; simpl; [split; constructor|].
  destruct (StronglySorted_inv Hs) as [Hs' Hy]. destruct (Nat.leb_spec n (length y)); [|auto].
  split; [done|]. constructor; [done|]. eapply Forall_impl; [exact Hy|]. simpl. intros; lia.
Qed.

Lemma match_nocase_spec mem l :
  by_len l -> Forall (fun y => length mem <= length y)%nat l ->
  match_nocase mem l = true <-> exists x, x ∈ l /\ folded x = folded mem.
Proof.
  assert (Hlen : forall x, folded x = folded mem -> length x = length mem).
  { intros x H. apply (f_equal length) in H. unfold folded in H. by rewrite !length_map in H. }
  induction l as [|y l IH]; intros Hs Hl; simpl.
  { split; [done|]. intros (x & Hx & _). by apply not_elem_of_nil in Hx. }
  apply StronglySorted_inv in Hs as [Hs Hy]. inv Hl. rewrite memcmp_nocase_folded.
  destruct (Nat.eqb_spec (length y) (length mem)) as [E|E].
  - case_bool_decide as Hf; [split; [intros _; exists y; set_solver|done]|]. rewrite IH by done.
    split; [intros (x & ? & ?); exists x; set_solver|].
    intros (x & Hx & Hxf). apply elem_of_cons in Hx as [->|Hx]; [done|by exists x].
  - split; [done|]. intros (x & Hx & Hxf). apply Hlen in Hxf.
    apply elem_of_cons in Hx as [->|Hx]; [done|].
    eapply Forall_forall in Hy; [|exact Hx]. simpl in Hy. lia.
Qed.

Lemma NoDup_list_insert {A} (l : list A) i x : NoDup l -> x ∉ l -> NoDup (<[i := x]> l).
Proof.
  intros Hn Hx. destruct (decide (i < length l)%nat) as [Hi|Hi];
    [|by rewrite list_insert_ge by lia].
  rewrite insert_take_drop by done. rewrite <- (take_drop i l) in Hn, Hx.
  apply NoDup_app in Hn as (H1 & H2 & H3). apply not_elem_of_app in Hx as [Hx1 Hx2].
  assert (Hsub : forall y, y ∈ drop (S i) l -> y ∈ drop i l).
  { intros y Hy. apply list_elem_of_lookup in Hy as [k Hk]. rewrite lookup_drop in Hk.
    apply list_elem_of_lookup. exists (S k). rewrite lookup_drop. rewrite <- Hk. f_equal. lia. }
  apply NoDup_app. split; [done|]. split.
  - intros y Hy. rewrite elem_of_cons. intros [->|Hy']; [done|]. by apply (H2 y Hy), Hsub.
  - apply NoDup_cons. split; [intros Hy; by apply Hx2, Hsub|].
    replace (S i) with (i + 1)%nat by lia.
    rewrite <- drop_drop. apply (sublist_NoDup _ (drop i l)); [done|apply sublist_drop].
Qed.

(** Why [maybe_add_auto] ignores a token. *)
Definition auto_rejects (mem : list Z) (d : dict) : Prop :=
  is_run mem = true \/ MAX_AUTO_EXTRA < Z.of_nat (length mem) \/ is_builtin mem = true
  \/ exists x, x ∈ extras d /\ folded x = folded mem.

Lemma folded_elem_insert (l : list auto_extra_data) i mem :
  (i < length l)%nat ->
  folded mem ∈ map (fun x => folded (a_data x)) (<[i := AutoExtra mem 0]> l).
Proof.
  intros Hi. apply list_elem_of_fmap. exists (AutoExtra mem 0). split; [done|].
  by apply list_elem_of_insert.
Qed.

(** The three ways a token is recorded. *)
Definition auto_post (mem : list Z) (l : list auto_extra_data) : Prop :=
  auto_ok l /\ folded mem ∈ map (fun x => folded (a_data x)) l.

Lemma auto_ok_bump mem l l' :
  auto_ok l -> bump_auto mem l = Some l' -> auto_post mem (sort_a_extras l').
Proof.
  intros [Hb Hl Hn _] Hbump. pose proof (bump_auto_spec mem l) as H. rewrite Hbump in H.
  destruct H as [Hd Hin].
  assert (Hd' : map (fun x => folded (a_data x)) l' = map (fun x => folded (a_data x)) l).
  { rewrite <- !(map_map a_data folded). by rewrite Hd. }
  split; [apply auto_ok_sorted|by rewrite sort_a_extras_permutes, Hd'].
  - apply (f_equal length) in Hd. rewrite !length_map in Hd. by rewrite Hd.
  - apply (List.Forall_map a_data (fun y => Z.of_nat (length y) <= MAX_AUTO_EXTRA)).
    rewrite Hd. by apply List.Forall_map.
  - by rewrite Hd'.
Qed.

Lemma auto_ok_append mem l :
  auto_ok l -> folded mem ∉ map (fun x => folded (a_data x)) l ->
  Z.of_nat (length l) < MAX_AUTO_EXTRAS -> Z.of_nat (length mem) <= MAX_AUTO_EXTRA ->
  auto_post mem (sort_a_extras (l ++ [AutoExtra mem 0])).
Proof.
  intros [Hb Hl Hn _] Hnew Hroom Hmem.
  split; [apply auto_ok_sorted|rewrite sort_a_extras_permutes, map_app; set_solver].
  - rewrite length_app. simpl. lia.
  - apply Forall_app. split; [done|]. constructor; [simpl; lia|constructor].
  - rewrite map_app. apply NoDup_app. split; [done|]. split; [|apply NoDup_singleton].
    intros y Hy Hy'. apply list_elem_of_singleton in Hy'. by subst.
Qed.

Lemma auto_ok_evict mem l i :
  auto_ok l -> folded mem ∉ map (fun x => folded (a_data x)) l ->
  (i < length l)%nat -> Z.of_nat (length mem) <= MAX_AUTO_EXTRA ->
  auto_post mem (sort_a_extras (<[i := AutoExtra mem 0]> l)).
Proof.
  intros [Hb Hl Hn _] Hnew Hi Hmem.
  split; [apply auto_ok_sorted|rewrite sort_a_extras_permutes; by apply folded_elem_insert].
  - by rewrite length_insert.
  - apply Forall_insert; [done|]. simpl. lia.
  - change (map ?f (<[?i:=?x]> ?l)) with (f <$> <[i:=x]> l). rewrite list_fmap_insert.
    by apply NoDup_list_insert.
Qed.

Lemma match_nocase_extras mem l :
  by_len l ->
  match_nocase mem (skip_shorter (length mem) l) = true <-> exists x, x ∈ l /\ folded x = folded mem.
Proof.
  intros Hs. destruct (skip_shorter_sorted (length mem) l Hs) as [Hs' Hl].
  rewrite match_nocase_spec by done.
  assert (Hlen : forall x, folded x = folded mem -> length x = length mem).
  { intros x Hf. apply (f_equal length) in Hf. unfold folded in Hf. by rewrite !length_map in Hf. }
  split; intros (x & Hx & Hf); exists x; (split; [|done]);
    (apply (skip_shorter_in (length mem)); [done|by apply Hlen|done]).
Qed.

Lemma maybe_add_auto_ok {W} {R : Random W} mem d (w : W) :
  by_len (extras d) -> auto_ok (a_extras d) ->
  let d' := (maybe_add_auto mem d w).1 in
  extras d' = extras d /\ auto_ok (a_extras d')
  /\ (auto_rejects mem d -> d' = d)
  /\ (~ auto_rejects mem d -> folded mem ∈ map (fun x => folded (a_data x)) (a_extras d')).
Proof.
  intros Hs Hok. unfold maybe_add_auto, auto_rejects.
  pose proof (match_nocase_extras mem (extras d) Hs) as Hm.
  destruct (is_run mem); simpl; [by intuition|].
  destruct (Z.ltb_spec MAX_AUTO_EXTRA (Z.of_nat (length mem))); [simpl; by intuition lia|].
  destruct (is_builtin mem); simpl; [by intuition|].
  destruct (match_nocase _ _); simpl.
  { split; [done|]. split; [done|]. split; [done|]. intros Hc. destruct Hc. tauto. }
  set (d' := (match bump_auto _ _ with Some _ => _ | None => _ end).1).
  enough (Hpost : extras d' = extras d /\ auto_post mem (a_extras d')).
  { destruct Hpost as (H1 & H2 & H3). split; [done|]. split; [done|]. split; [|done].
    intros [?|[?|[?|Hx]]]; [done|lia|done|]. by apply Hm in Hx. }
  subst d'. pose proof (bump_auto_spec mem (a_extras d)) as Hbump.
  destruct (bump_auto mem (a_extras d)) as [l|] eqn:E.
  - split; [done|]. by apply (auto_ok_bump mem (a_extras d)).
  - destruct (Z.ltb_spec (Z.of_nat (length (a_extras d))) MAX_AUTO_EXTRAS) as [Hl|Hl].
    + split; [done|]. by apply auto_ok_append.
    + pose proof (below_bound w ((MAX_AUTO_EXTRAS + 1) / 2) ltac:(done)) as Hr.
      destruct (below w _) as [r w']. simpl in Hr |- *. split; [done|].
      apply auto_ok_evict; [done..| |done].
      change ((MAX_AUTO_EXTRAS + 1) / 2) with 16384 in Hr.
      change MAX_AUTO_EXTRAS with 32768 in *. change (32768 / 2) with 16384. lia.
Qed.
(** *** The tokens that are ignored *)

(** The bytes of a builtin value: an interesting 32-bit number in either byte order, an
    interesting 16-bit number in big-endian order, or one that is not negative in
    little-endian order.  (The negative ones are meant, too: see below.) *)
Definition builtin_token (mem : list Z) : Prop :=
  (exists v, v ∈ interesting_16 /\ (mem = reverse (word_le 2 (u16 v)) \/ 0 <= v /\ mem = word_le 2 v))
  \/ (exists v, v ∈ interesting_32 /\ (mem = reverse (word_le 4 (u32 v)) \/ mem = word_le 4 (u32 v))).

(** One byte, once or more; longer than a token may be; a builtin value; a token of the user *)
Definition ignored (mem : list Z) (d : dict) : Prop :=
  (exists c n, mem = replicate (S n) c) \/ MAX_AUTO_EXTRA < Z.of_nat (length mem) \/ builtin_token mem
  \/ exists x, x ∈ extras d /\ folded x = folded mem.

Lemma is_run_spec mem : is_run mem = true <-> exists c n, mem = replicate (S n) c.
Proof.
  destruct mem as [|c mem]; cbn [is_run].
  { split; [done|]. by intros (c & n & ?). }
  rewrite forallb_forall. split.
  - intros H. exists c, (length mem). simpl. f_equal. clear -H. induction mem as [|x mem IH]; [done|]. simpl. f_equal.
    + specialize (H x (or_introl eq_refl)). lia.
    + apply IH. intros y Hy. apply H. by right.
  - intros (c' & n & [= -> ->]) x Hx%list_elem_of_In%elem_of_replicate. apply Z.eqb_eq. tauto.
Qed.

Lemma le_word_is n mem c :
  Forall byte_ok mem -> Z.of_nat (length mem) = n -> 0 <= c < 2 ^ (8 * n) -> le_word mem = c <-> mem = word_le n c.
Proof.
  intros Hb Hl Hc. split.
  - intros <-. symmetry. by apply word_le_le_word.
  - intros ->. apply le_word_word_le; lia.
Qed.

Lemma swap16_builtin v : v ∈ interesting_16 ->
  0 <= SWAP16 v < 2 ^ (8 * 2) /\ word_le 2 (SWAP16 v) = reverse (word_le 2 (u16 v)) /\ v < 2 ^ (8 * 2).
Proof.
  revert v. apply Forall_forall. repeat (constructor; [vm_compute; split_and!; congruence|]). constructor.
Qed.

Lemma swap32_builtin v : v ∈ interesting_32 ->
  0 <= SWAP32 v < 2 ^ (8 * 4) /\ word_le 4 (SWAP32 v) = reverse (word_le 4 (u32 v)).
Proof.
  revert v. apply Forall_forall. repeat (constructor; [vm_compute; split_and!; congruence|]). constructor.
Qed.

Lemma and_iff_in (A B C : Prop) : (A -> (B <-> C)) -> (A /\ B <-> A /\ C).
Proof. tauto. Qed.

Lemma is_builtin_spec mem : Forall byte_ok mem -> is_builtin mem = true <-> builtin_token mem.
Proof.
  intros Hb. unfold is_builtin, builtin_token. rewrite orb_true_iff. f_equiv.
  - destruct (Nat.eqb_spec (length mem) 2) as [Hl|Hl].
    + rewrite existsb_exists. setoid_rewrite <- list_elem_of_In. f_equiv. intros v. apply and_iff_in.
      intros Hv. destruct (swap16_builtin v Hv) as (Hr & Hsw & Hlt). rewrite orb_true_iff, !Z.eqb_eq.
      rewrite (le_word_is 2 mem (SWAP16 v)), Hsw by (done || lia). split; [intros [H|H]; [right|by left]|].
      * pose proof (le_word_bound mem Hb). split; [lia|]. apply (le_word_is 2); [done|lia|lia|done].
      * intros [H|[H0 H]]; [by right|left]. apply (le_word_is 2); [done|lia|lia|done].
    + split; [done|]. intros (v & _ & [->|[_ ->]]); destruct Hl; by rewrite ?length_reverse, length_word_le by lia.
  - destruct (Nat.eqb_spec (length mem) 4) as [Hl|Hl].
    + rewrite existsb_exists. setoid_rewrite <- list_elem_of_In. f_equiv. intros v. apply and_iff_in.
      intros Hv. destruct (swap32_builtin v Hv) as (Hr & Hsw). rewrite orb_true_iff, !Z.eqb_eq.
      rewrite (le_word_is 4 mem (SWAP32 v)), Hsw by (done || lia).
      rewrite (le_word_is 4 mem (u32 v)) by (done || lia || (unfold u32; apply Z.mod_pos_bound; lia)). tauto.
    + split; [done|]. intros (v & _ & [->| ->]); destruct Hl; by rewrite ?length_reverse, length_word_le by lia.
Qed.

Lemma ignored_rejects mem d : Forall byte_ok mem -> ignored mem d <-> auto_rejects mem d.
Proof. intros Hb. unfold ignored, auto_rejects. by rewrite is_run_spec, is_builtin_spec. Qed.

(** C37: the automatic dictionary keeps its shape.  [maybe_add_auto] leaves the user's
    tokens alone, ignores a token exactly when it is a run of one byte, too long, a user token
    up to case, or a builtin value (32 bits in either byte order, 16 bits in big-endian order
    and, if not negative, in little-endian order), and otherwise records it; the automatic
    dictionary stays within MAX_AUTO_EXTRAS entries that are distinct up to case, each at most
    MAX_AUTO_EXTRA bytes, the first USE_AUTO_EXTRAS of them sorted by size. *)
Theorem maybe_add_auto_correct {W} {R : Random W} mem d (w : W) :
  Forall byte_ok mem -> by_len (extras d) -> auto_ok (a_extras d) ->
  let d' := (maybe_add_auto mem d w).1 in
  extras d' = extras d /\ auto_ok (a_extras d')
  /\ (ignored mem d -> d' = d)
  /\ (~ ignored mem d -> folded mem ∈ map (fun x => folded (a_data x)) (a_extras d')).
Proof.
  intros Hb Hs Hok. pose proof (ignored_rejects mem d Hb) as Hi.
  destruct (maybe_add_auto_ok mem d w Hs Hok) as (H1 & H2 & H3 & H4). cbv zeta. split_and!; [done..| |].
  - intros H. by apply H3, Hi.
  - intros H. apply H4. by rewrite <- Hi.
Qed.
End autos.


Lemma maybe_add_auto_correct_witness :
  auto_ok (a_extras (maybe_add_auto [73; 72; 68; 82] (Dict [[1]] [] false) 0).1).
Proof.
  apply (maybe_add_auto_correct [73; 72; 68; 82] (Dict [[1]] [] false) 0).
  - repeat constructor; unfold byte_ok; lia.
  - repeat constructor.
  - split; simpl; [unfold MAX_AUTO_EXTRAS, USE_AUTO_EXTRAS; lia|constructor..].
Defined.

(** Builtin 16-bit values with the sign bit set are not rejected.  The 16-bit test
    compares an unsigned word with a signed constant, so the little-endian bytes of the
    builtin -128 are taken for a new token, while the 32-bit test casts and rejects the
    same value. *)
Theorem is_builtin_misses_negative :
  -128 ∈ interesting_16 /\ is_builtin (word_le 2 (u16 (-128))) = false
  /\ -128 ∈ interesting_32 /\ is_builtin (word_le 4 (u32 (-128))) = true.
Proof.
  repeat split; try reflexivity; apply list_elem_of_In; vm_compute; tauto.
Qed.

(** ** The dictionary file format *)

(** A token written as a quoted string of \xNN escapes. *)
Definition hexdigit (v : Z) : Z := if v <? 10 then 48 + v else 87 + v.
Definition escape (b : Z) : list Z := [92; 120; hexdigit (b ≫ 4); hexdigit (Z.land b 15)].
Definition dict_line (label tok : list Z) : list Z :=
  label ++ [61; 34] ++ flat_map escape tok ++ [34].

Lemma escape_ok b :
  byte_ok b ->
  isxdigit (hexdigit (b ≫ 4)) = true /\ isxdigit (hexdigit (Z.land b 15)) = true
  /\ u8 (Z.lor (hexval (hexdigit (b ≫ 4)) ≪ 4) (hexval (hexdigit (Z.land b 15)))) = b.
Proof.
  intros Hb. pose proof (all_bytes_spec (fun b =>
    isxdigit (hexdigit (b ≫ 4)) && isxdigit (hexdigit (Z.land b 15))
    && (u8 (Z.lor (hexval (hexdigit (b ≫ 4)) ≪ 4) (hexval (hexdigit (Z.land b 15)))) =? b)) b
    ltac:(by vm_compute) Hb) as H. cbv beta in H.
  rewrite !andb_true_iff, Z.eqb_eq in H. tauto.
Qed.

Lemma decode_escapes tok acc fuel :
  Forall byte_ok tok -> (length tok < fuel)%nat ->
  decode fuel (flat_map escape tok) acc = Some (acc ++ tok).
Proof.
  intros Hok. revert acc fuel. induction Hok as [|b tok Hb Hok IH]; intros acc [|fuel] Hf;
    simpl in Hf; try lia; [by rewrite app_nil_r|].
  destruct (escape_ok b Hb) as (H1 & H2 & H3).
  cbn [flat_map escape app]. cbn -[isxdigit hexdigit hexval Z.shiftr Z.land u8 Z.lor flat_map].
  rewrite H1, H2. cbn -[hexdigit hexval Z.shiftr Z.land u8 Z.lor flat_map].
  rewrite H3, IH by lia. by rewrite <- app_assoc.
Qed.

Lemma skip_while_stop p s c rest :
  forallb p s = true -> p c = false -> skip_while p (s ++ c :: rest) = c :: rest.
Proof.
  intros Hs Hc. induction s as [|x s IH]; simpl in *; [by rewrite Hc|].
  apply andb_true_iff in Hs as [-> Hs]. auto.
Qed.

Lemma skip_while_head p c s : p c = false -> skip_while p (c :: s) = c :: s.
Proof. simpl. by intros ->. Qed.

Definition label_char (c : Z) : bool := isalnum c || (c =? 95).

Lemma label_char_plain c : label_char c = true -> isspace c = false /\ c <> 35.
Proof.
  unfold label_char, isalnum, isdigit, isspace. rewrite !orb_true_iff, !andb_true_iff, !Z.leb_le, !Z.eqb_eq.
  intros H. split; [|lia]. rewrite orb_false_iff, andb_false_iff, Z.eqb_neq, !Z.leb_gt. lia.
Qed.

(** A line of the format starts with a character that is neither a space nor '#'. *)
Lemma dict_line_head label tok :
  forallb label_char label = true ->
  exists c s, dict_line label tok = c :: s /\ isspace c = false /\ c <> 35.
Proof.
  intros Hl. destruct label as [|c label]; simpl in *; [by exists 61, (34 :: flat_map escape tok ++ [34])|].
  apply andb_true_iff in Hl as [Hc _]. apply label_char_plain in Hc. by do 2 eexists.
Qed.

(** Every token can be written in a dictionary file and is read back unchanged: for
    any label of alphanumerics and underscores and any non-empty token of at most
    MAX_DICT_FILE bytes, the line label="\xNN..." yields exactly that token, within one
    iteration per escape. *)
Theorem load_line_roundtrip level label tok fuel :
  forallb label_char label = true -> Forall byte_ok tok -> tok <> [] ->
  Z.of_nat (length tok) <= MAX_DICT_FILE -> (length tok < fuel)%nat ->
  load_line fuel level (dict_line label tok) = Keyword tok.
Proof.
  intros Hl Hok Hne Hmax Hf. unfold load_line, trim.
  destruct (dict_line_head label tok Hl) as (c & s & Hs & Hc & Hh).
  rewrite Hs, skip_while_head by done. rewrite <- Hs.
  assert (Hrev : reverse (dict_line label tok) = 34 :: reverse (label ++ [61; 34] ++ flat_map escape tok)).
  { unfold dict_line. rewrite !app_assoc, reverse_snoc. by rewrite <- !app_assoc. }
  rewrite Hrev, skip_while_head by done. rewrite <- Hrev, reverse_involutive, Hs.
  rewrite (proj2 (Z.eqb_neq c 35) Hh), <- Hs, Hrev, reverse_involutive.
  assert (Hskip : skip_while (fun c => isalnum c || (c =? 95)) (label ++ [61; 34] ++ flat_map escape tok)
    = 61 :: 34 :: flat_map escape tok) by (by apply skip_while_stop).
  rewrite Hskip. cbn [skip_level skip_index]. simpl skip_while.
  destruct tok as [|b tok]; [done|].
  pose proof (decode_escapes (b :: tok) [] fuel Hok Hf) as Hd. rewrite app_nil_l in Hd.
  cbn [flat_map escape app] in Hd |- *. rewrite Hd.
  destruct (Z.ltb_spec MAX_DICT_FILE (Z.of_nat (length (b :: tok)))); [lia|done].
Qed.

Lemma load_line_roundtrip_witness :
  load_line 10 0 (dict_line [107; 49] [255; 0; 65]) = Keyword [255; 0; 65].
Proof.
  apply (load_line_roundtrip 0 [107; 49] [255; 0; 65] 10);
    [reflexivity|byte_list|discriminate|unfold MAX_DICT_FILE; simpl; lia|simpl; lia].
Defined.

Definition nonprint (c : Z) : bool :=
  ((1 <=? c) && (c <=? 31)) || ((128 <=? c) && (c <=? 255)).

(** One iteration on a printable character consumes at least that character. *)
Lemma decode_step c rest acc :
  nonprint c = false ->
  exists used rest' acc', rest = used ++ rest' /\ forallb (fun x => negb (nonprint x)) used = true
    /\ (length acc' <= length acc + S (length used))%nat
    /\ forall fuel, decode (S fuel) (c :: rest) acc = decode fuel rest' acc'.
Proof.
  intros Hc. unfold nonprint in Hc. cbn [decode]. rewrite Hc.
  assert (Hlen : forall x : Z, (length (acc ++ [x]) <= length acc + 1)%nat)
    by (intros x; rewrite length_app; simpl; lia).
  destruct (Z.eqb_spec c 92) as [->|_].
  2: { exists [], rest, (acc ++ [c]). split; [done|]. split; [done|]. split; [simpl; auto|done]. }
  destruct rest as [|d rest].
  { exists [], [], acc. split; [done|]. split; [done|]. split; [simpl; lia|done]. }
  destruct ((d =? 92) || (d =? 34)) eqn:Hd.
  { exists [d], rest, (acc ++ [d]). split; [done|]. split; [|split; [specialize (Hlen d); simpl; lia|done]].
    apply orb_true_iff in Hd. rewrite !Z.eqb_eq in Hd. by destruct Hd as [->| ->]. }
  destruct rest as [|h1 [|h2 rest]]; [by exists [], [d], acc; simpl; split_and!; [..|lia|]| |].
  { by exists [], [d; h1], acc; simpl; split_and!; [..|lia|]. }
  destruct (negb (d =? 120) || negb (isxdigit h1) || negb (isxdigit h2)) eqn:Hx.
  { by exists [], (d :: h1 :: h2 :: rest), acc; simpl; split_and!; [..|lia|]. }
  exists [d; h1; h2], rest. eexists. split; [done|].
  rewrite !orb_false_iff, !negb_false_iff, Z.eqb_eq in Hx. destruct Hx as [[-> H1] H2].
  assert (Hp : forall h, isxdigit h = true -> nonprint h = false).
  { intros h. unfold isxdigit, isdigit, nonprint.
    rewrite !orb_true_iff, !andb_true_iff, !Z.leb_le, orb_false_iff, !andb_false_iff, !Z.leb_gt. lia. }
  split; [simpl; by rewrite !Hp|]. split; [|done]. rewrite length_app. simpl. lia.
Qed.

Lemma decode_returns fuel s acc :
  forallb (fun x => negb (nonprint x)) s = true -> (length s < fuel)%nat ->
  exists tok, decode fuel s acc = Some tok /\ (length tok <= length acc + length s)%nat.
Proof.
  revert s acc. induction fuel as [|fuel IH]; intros [|c rest] acc Hp Hf; simpl in Hf; try lia.
  { exists acc. simpl. split; [done|lia]. }
  simpl in Hp. apply andb_true_iff in Hp as [Hc Hp]. apply negb_true_iff in Hc.
  destruct (decode_step c rest acc Hc) as (used & rest' & acc' & -> & _ & Hl & Hstep).
  rewrite Hstep. rewrite forallb_app, andb_true_iff in Hp. rewrite length_app in Hf.
  destruct (IH rest' acc') as (tok & Ht & Hlt); [tauto|lia|]. exists tok. split; [done|].
  simpl. rewrite length_app. lia.
Qed.

Lemma decode_stuck fuel s acc :
  forallb (fun x => negb (nonprint x)) s = false -> decode fuel s acc = None.
Proof.
  revert s acc. induction fuel as [|fuel IH]; intros [|c rest] acc Hp; try done.
  destruct (nonprint c) eqn:Hc.
  - cbn [decode]. unfold nonprint in Hc. rewrite Hc. apply IH. simpl. unfold nonprint. by rewrite Hc.
  - destruct (decode_step c rest acc Hc) as (used & rest' & acc' & -> & Hu & _ & Hstep).
    rewrite Hstep. apply IH. simpl in Hp. rewrite Hc in Hp. simpl in Hp.
    by rewrite forallb_app, Hu in Hp.
Qed.

(** C39: reading a keyword ends exactly on printable text.  If every character between the
    quotes is printable, one iteration per character is enough and the token is no
    longer than the text (it fits the buffer allocated for it); a control character or
    a byte above 127 is warned about and then looked at again forever. *)
Theorem decode_terminates_iff s :
  (exists fuel tok, decode fuel s [] = Some tok) <->
  forallb (fun x => negb (nonprint x)) s = true /\
  exists tok, decode (S (length s)) s [] = Some tok /\ (length tok <= length s)%nat.
Proof.
  split.
  - intros (fuel & tok & Ht).
    destruct (forallb (fun x => negb (nonprint x)) s) eqn:Hp; [|by rewrite decode_stuck in Ht].
    split; [done|]. apply (decode_returns (S (length s)) s []); [done|lia].
  - intros (_ & tok & Ht & _). by eexists _, tok.
Qed.

(** A dictionary with a tab inside a keyword hangs the loader, whatever the number of
    iterations. *)
Theorem load_extras_hangs `{!Qsort} fuel d :
  load_extras fuel 0 [[97; 61; 34; 98; 9; 99; 34]] d = None.
Proof.
  unfold load_extras. cbn [load_extras_file].
  replace (load_line fuel 0 [97; 61; 34; 98; 9; 99; 34]) with Hangs; [done|].
  unfold load_line. change (trim [97; 61; 34; 98; 9; 99; 34]) with [97; 61; 34; 98; 9; 99; 34].
  cbn -[decode]. by rewrite decode_stuck.
Qed.

(** ** [deunicode_extras] *)

Definition widen_le (t : list Z) : list Z := flat_map (fun c => [c; 0]) t.
Definition widen_be (t : list Z) : list Z := flat_map (fun c => [0; c]) t.

Lemma at2_step r j : 0 <= r < 2 -> at2 r (j + 2) = at2 r j.
Proof. intros. unfold at2. f_equal. dlia. Qed.

Lemma at2_parity j : j `mod` 2 = 0 ->
  at2 0 j = true /\ at2 1 j = false /\ at2 0 (j + 1) = false /\ at2 1 (j + 1) = true.
Proof.
  intros Hj. unfold at2. repeat split; rewrite ?Z.eqb_eq, ?Z.eqb_neq; dlia.
Qed.

Lemma widen_facts t j :
  Forall (fun c => c <> 0) t -> j `mod` 2 = 0 ->
  zeros (at2 0) j (widen_le t) = 0 /\ zeros (at2 1) j (widen_le t) = Z.of_nat (length t)
  /\ pick (at2 0) j (widen_le t) = t
  /\ zeros (at2 1) j (widen_be t) = 0 /\ zeros (at2 0) j (widen_be t) = Z.of_nat (length t)
  /\ pick (at2 1) j (widen_be t) = t.
Proof.
  intros Ht. revert j. induction Ht as [|c t Hc Ht IH]; intros j Hj; [done|].
  destruct (at2_parity j Hj) as (H1 & H2 & H3 & H4).
  destruct (IH (j + 1 + 1)) as (I1 & I2 & I3 & I4 & I5 & I6); [dlia|].
  apply Z.eqb_neq in Hc. cbn [widen_le widen_be flat_map app zeros pick length].
  fold (widen_le t) (widen_be t). rewrite H1, H2, H3, H4, Hc, I1, I2, I3, I4, I5, I6. simpl.
  repeat split; lia.
Qed.

Lemma length_widen t :
  Z.of_nat (length (widen_le t)) = 2 * Z.of_nat (length t)
  /\ Z.of_nat (length (widen_be t)) = 2 * Z.of_nat (length t).
Proof. induction t as [|c t [IH1 IH2]]; [done|]. simpl. lia. Qed.

Lemma deunicode_widened t w :
  Forall (fun c => c <> 0) t -> 3 <= Z.of_nat (length t) <= 32 ->
  w = widen_le t \/ w = widen_be t -> t ∈ deunicode w.
Proof.
  intros Ht Hl Hw. destruct (widen_facts t 0 Ht eq_refl) as (I1 & I2 & I3 & I4 & I5 & I6).
  destruct (length_widen t) as [L1 L2]. unfold deunicode.
  assert (Hlen : Z.of_nat (length w) = 2 * Z.of_nat (length t)) by (destruct Hw as [->| ->]; done).
  rewrite Hlen. destruct (Z.ltb_spec (2 * Z.of_nat (length t)) 6); [lia|].
  destruct (Z.ltb_spec 64 (2 * Z.of_nat (length t))); [lia|].
  replace ((2 * Z.of_nat (length t)) `mod` 2) with 0 by dlia. cbn [orb negb Z.eqb].
  replace ((2 * Z.of_nat (length t)) ≫ 1) with (Z.of_nat (length t))
    by (rewrite Z.shiftr_div_pow2 by lia; dlia).
  assert (Hpos : (0 <? Z.of_nat (length t)) = true) by (apply Z.ltb_lt; lia).
  assert (Hi : (Z.of_nat (length t) <? Z.of_nat (length t)) = false) by (apply Z.ltb_ge; lia).
  assert (Hs : (Z.of_nat (length t) =? 2 * Z.of_nat (length t)) = false) by (apply Z.eqb_neq; lia).
  destruct Hw as [->| ->].
  - rewrite I1, I2, I3, Z.add_0_l, Hpos, Hi, Hs. cbn [andb orb]. apply elem_of_app. right. set_solver.
  - rewrite I4, I5, I6, Z.add_0_r, Hpos, Hi, Hs. cbn [andb orb]. apply elem_of_app. right. set_solver.
Qed.

Lemma extras_add_all (l : list (list Z)) d :
  extras (foldl (fun d tok => add_extra_nocheck tok d) d l) = extras d ++ l.
Proof.
  revert d. induction l as [|t l IH]; intros d; simpl; [by rewrite app_nil_r|].
  rewrite IH. simpl. by rewrite <- app_assoc.
Qed.

(** [deunicode_extras] keeps every token, leaves the dictionary sorted by size, and
    for a token of 3 to 32 non-zero characters stored as UTF-16 of either byte order it
    adds the narrow form. *)
Theorem deunicode_extras_correct `{!Qsort} d :
  extras d <> [] ->
  by_len (extras (deunicode_extras d))
  /\ (forall t, t ∈ extras d -> t ∈ extras (deunicode_extras d))
  /\ (forall t, Forall (fun c => c <> 0) t -> 3 <= Z.of_nat (length t) <= 32 ->
        widen_le t ∈ extras d \/ widen_be t ∈ extras d -> t ∈ extras (deunicode_extras d)).
Proof.
  intros Hne. unfold deunicode_extras. destruct (extras d) as [|x0 l0] eqn:E; [done|].
  rewrite <- E. cbn [extras]. split; [apply qsort_by_len|]. rewrite extras_add_all.
  split.
  - intros t Ht. rewrite qsort_permutes. set_solver.
  - intros t Ht Hl Hw. rewrite qsort_permutes. apply elem_of_app. right.
    apply list_elem_of_In, in_flat_map.
    destruct Hw as [Hw|Hw]; (eexists; split; [by apply list_elem_of_In|]);
      apply list_elem_of_In, deunicode_widened; auto.
Qed.

Lemma deunicode_extras_correct_witness :
  [97; 98; 99] ∈ extras (deunicode_extras (Dict [[97; 0; 98; 0; 99; 0]] [] false)).
Proof.
  apply (deunicode_extras_correct (Dict [[97; 0; 98; 0; 99; 0]] [] false)).
  - discriminate.
  - repeat constructor; lia.
  - simpl. lia.
  - left. simpl. set_solver.
Defined.
