(* ===== verification/DetStages.v ===== *)
(** * Deterministic fuzzing stages (src/aflplusplus/src/afl-fuzz-one.c, fuzz_one_original)

    From "bitflip 1/1" to "interest 32/8", [fuzz_one_original] mutates the test
    case [out_buf] in place, runs the target on it ([common_fuzz_stuff]), and puts
    the old bytes back.  Each stage is a program of the small monad [M] below:
    a step returns, abandons the entry ([goto abandon_entry]), or reads or writes
    outside a buffer ([UB]).  What a run does to the rest of the fuzzer is the
    interface [Fuzzer]; the theorems hold for every implementation of it. *)
From S2P Require Import Prelude OneHelpers.

(** ** The rest of the fuzzer, as these stages see it *)

Class Fuzzer (W : Type) := {
  (** [common_fuzz_stuff(afl, out_buf, len)]: run the target on the buffer; [true]
      asks to abandon the entry *)
  common_fuzz_stuff : W -> list Z -> W * bool;
  (** [hash64(afl->fsrv.trace_bits, afl->fsrv.map_size, HASH_CONST)] *)
  trace_cksum : W -> Z;
  (** [maybe_add_auto(afl, mem, len)] *)
  maybe_add_auto : W -> list Z -> W;
  (** [afl->queued_items + afl->saved_crashes] *)
  hit_cnt : W -> Z;
}.

(** ** Constants (include/config.h) *)
Definition MIN_AUTO_EXTRA : Z := 3.
Definition MAX_AUTO_EXTRA : Z := 32.
Definition EFF_MAP_SCALE2 : Z := 3.
Definition EFF_MIN_LEN : Z := 128.
Definition EFF_MAX_PERC : Z := 90.
Definition MAX_FILE : Z := 25 * 1024 * 1024.

Definition EFF_APOS (p : Z) : Z := p ≫ EFF_MAP_SCALE2.
Definition EFF_REM (x : Z) : Z := Z.land x ((1 ≪ EFF_MAP_SCALE2) - 1).
Definition EFF_ALEN (l : Z) : Z := EFF_APOS l + (if EFF_REM l =? 0 then 0 else 1).

Inductive stage_id :=
| STAGE_FLIP1 | STAGE_FLIP2 | STAGE_FLIP4 | STAGE_FLIP8 | STAGE_FLIP16 | STAGE_FLIP32
| STAGE_ARITH8 | STAGE_ARITH16 | STAGE_ARITH32
| STAGE_INTEREST8 | STAGE_INTEREST16 | STAGE_INTEREST32
| STAGE_EXTRAS_UO | STAGE_EXTRAS_UI | STAGE_EXTRAS_AO | STAGE_EXTRAS_AI.

#[export] Instance stage_id_dec : EqDecision stage_id.
Proof. solve_decision. Defined.

Inductive stage_val := STAGE_VAL_NONE | STAGE_VAL_LE | STAGE_VAL_BE.

(** ** State *)

(** The locals of [fuzz_one_original] and the fields of [afl_state_t] the stages
    use.  [runs] records every input the target was run on, with the checksum of
    the trace it left. *)
Record det (W : Type) := Det {
  out_buf : list Z;
  world : W;
  eff_map : list Z;
  stage_cur : Z;
  stage_max : Z;
  stage_cur_byte : Z;
  stage_cur_val : Z;
  stage_val_type : stage_val;
  orig_hit_cnt : Z;
  stage_finds : stage_id -> Z;
  stage_cycles : stage_id -> Z;
  blocks_eff_select : Z;
  blocks_eff_total : Z;
  runs : list (list Z * Z);
}.
Arguments Det {W}.
Arguments out_buf {W}. Arguments world {W}. Arguments eff_map {W}. Arguments stage_cur {W}.
Arguments stage_max {W}. Arguments stage_cur_byte {W}. Arguments stage_cur_val {W}.
Arguments stage_val_type {W}. Arguments orig_hit_cnt {W}. Arguments stage_finds {W}.
Arguments stage_cycles {W}. Arguments blocks_eff_select {W}. Arguments blocks_eff_total {W}.
Arguments runs {W}.

(** ** The monad of a stage *)

Inductive outcome (W A : Type) :=
| Ret (a : A) (s : det W)
| Abandon (s : det W)
| UB.
Arguments Ret {W A}. Arguments Abandon {W A}. Arguments UB {W A}.

Definition M (W A : Type) : Type := det W -> outcome W A.

#[export] Instance M_ret W : MRet (M W) := fun A a s => Ret a s.
#[export] Instance M_bind W : MBind (M W) := fun A B k m s =>
  match m s with
  | Ret a s' => k a s'
  | Abandon s' => Abandon s'
  | UB => UB
  end.

Section stages.
Context {W : Type} `{!Fuzzer W}.

Definition modify (f : det W -> det W) : M W unit := fun s => Ret tt (f s).
Definition gets {A} (f : det W -> A) : M W A := fun s => Ret (f s) s.

Definition set_buf (b : list Z) (s : det W) : det W :=
  Det b (world s) (eff_map s) (stage_cur s) (stage_max s) (stage_cur_byte s) (stage_cur_val s)
    (stage_val_type s) (orig_hit_cnt s) (stage_finds s) (stage_cycles s)
    (blocks_eff_select s) (blocks_eff_total s) (runs s).
Definition set_world (w : W) (s : det W) : det W :=
  Det (out_buf s) w (eff_map s) (stage_cur s) (stage_max s) (stage_cur_byte s) (stage_cur_val s)
    (stage_val_type s) (orig_hit_cnt s) (stage_finds s) (stage_cycles s)
    (blocks_eff_select s) (blocks_eff_total s) (runs s).
Definition set_run (w : W) (s : det W) : det W :=
  Det (out_buf s) w (eff_map s) (stage_cur s) (stage_max s) (stage_cur_byte s) (stage_cur_val s)
    (stage_val_type s) (orig_hit_cnt s) (stage_finds s) (stage_cycles s)
    (blocks_eff_select s) (blocks_eff_total s) (runs s ++ [(out_buf s, trace_cksum w)]).
Definition set_eff (e : list Z) (s : det W) : det W :=
  Det (out_buf s) (world s) e (stage_cur s) (stage_max s) (stage_cur_byte s) (stage_cur_val s)
    (stage_val_type s) (orig_hit_cnt s) (stage_finds s) (stage_cycles s)
    (blocks_eff_select s) (blocks_eff_total s) (runs s).
Definition set_stage (cur mx : Z) (s : det W) : det W :=
  Det (out_buf s) (world s) (eff_map s) cur mx (stage_cur_byte s) (stage_cur_val s)
    (stage_val_type s) (orig_hit_cnt s) (stage_finds s) (stage_cycles s)
    (blocks_eff_select s) (blocks_eff_total s) (runs s).
Definition set_byte (b : Z) (s : det W) : det W :=
  Det (out_buf s) (world s) (eff_map s) (stage_cur s) (stage_max s) b (stage_cur_val s)
    (stage_val_type s) (orig_hit_cnt s) (stage_finds s) (stage_cycles s)
    (blocks_eff_select s) (blocks_eff_total s) (runs s).
Definition set_val (v : Z) (s : det W) : det W :=
  Det (out_buf s) (world s) (eff_map s) (stage_cur s) (stage_max s) (stage_cur_byte s) v
    (stage_val_type s) (orig_hit_cnt s) (stage_finds s) (stage_cycles s)
    (blocks_eff_select s) (blocks_eff_total s) (runs s).
Definition set_val_type (t : stage_val) (s : det W) : det W :=
  Det (out_buf s) (world s) (eff_map s) (stage_cur s) (stage_max s) (stage_cur_byte s)
    (stage_cur_val s) t (orig_hit_cnt s) (stage_finds s) (stage_cycles s)
    (blocks_eff_select s) (blocks_eff_total s) (runs s).
Definition set_orig (h : Z) (s : det W) : det W :=
  Det (out_buf s) (world s) (eff_map s) (stage_cur s) (stage_max s) (stage_cur_byte s)
    (stage_cur_val s) (stage_val_type s) h (stage_finds s) (stage_cycles s)
    (blocks_eff_select s) (blocks_eff_total s) (runs s).
Definition set_blocks (sel tot : Z) (s : det W) : det W :=
  Det (out_buf s) (world s) (eff_map s) (stage_cur s) (stage_max s) (stage_cur_byte s)
    (stage_cur_val s) (stage_val_type s) (orig_hit_cnt s) (stage_finds s) (stage_cycles s)
    sel tot (runs s).

Definition bump (f : stage_id -> Z) (k : stage_id) (d : Z) : stage_id -> Z :=
  fun k' => if bool_decide (k' = k) then f k' + d else f k'.

(** [new_hit_cnt = queued_items + saved_crashes; stage_finds[k] += new_hit_cnt -
    orig_hit_cnt; stage_cycles[k] += stage_max;], then [orig_hit_cnt = new_hit_cnt]
    where the next stage starts. *)
Definition end_stage (k : stage_id) : M W unit := modify (fun s =>
  let new_hit_cnt := hit_cnt (world s) in
  Det (out_buf s) (world s) (eff_map s) (stage_cur s) (stage_max s) (stage_cur_byte s)
    (stage_cur_val s) (stage_val_type s) new_hit_cnt
    (bump (stage_finds s) k (new_hit_cnt - orig_hit_cnt s))
    (bump (stage_cycles s) k (stage_max s))
    (blocks_eff_select s) (blocks_eff_total s) (runs s)).

(** [if (common_fuzz_stuff(afl, out_buf, len)) { goto abandon_entry; }] *)
Definition run : M W unit := fun s =>
  let '(w, abandon) := common_fuzz_stuff (world s) (out_buf s) in
  let s' := set_run w s in
  if abandon then Abandon s' else Ret tt s'.

(** Reads and writes of [n]-byte values at [out_buf + i]. *)
Definition load (n : nat) (i : Z) : M W Z := fun s =>
  if decide (in_range n (out_buf s) i) then Ret (ld n (out_buf s) i) s else UB.
Definition store (n : nat) (i v : Z) : M W unit := fun s =>
  if decide (in_range n (out_buf s) i) then Ret tt (set_buf (st n (out_buf s) i v) s) else UB.

(** [eff_map[EFF_APOS(i)]] *)
Definition eff (i : Z) : M W bool := fun s =>
  match eff_map s !! Z.to_nat (EFF_APOS i) with
  | Some b => Ret (negb (b =? 0)) s
  | None => UB
  end.

Definition inc_cur : M W unit := modify (fun s => set_stage (stage_cur s + 1) (stage_max s) s).
Definition sub_max (d : Z) : M W unit :=
  modify (fun s => set_stage (stage_cur s) (stage_max s - d) s).

(** [for (i = i0; i < i0 + n; ++i) body(i)] *)
Fixpoint for_range (n : nat) (i : Z) (body : Z -> M W unit) : M W unit :=
  match n with
  | O => mret tt
  | S n => body i;; for_range n (i + 1) body
  end.

(** [for (stage_cur = 0; stage_cur < stage_max; ++stage_cur) body(stage_cur)]; the
    body leaves both counters alone, so [n = stage_max] rounds are made. *)
Definition for_stage (body : Z -> M W unit) : M W unit :=
  modify (fun s => set_stage 0 (stage_max s) s);;
  n ← gets stage_max;
  for_range (Z.to_nat n) 0 (fun i => body i;; inc_cur).

(** [FLIP_BIT(out_buf, b)] *)
Definition FLIP_BIT (b : Z) : M W unit :=
  x ← load 1 (b ≫ 3);
  store 1 (b ≫ 3) (Z.lxor x (128 ≫ Z.land b 7)).

(** XOR of the [n]-byte value at [out_buf + i] with [mask]. *)
Definition xor_at (n : nat) (i mask : Z) : M W unit :=
  x ← load n i; store n i (Z.lxor x mask).

(** One guarded attempt of the arithmetic and interesting-value stages: run the
    target with [v] at [i] unless [skip]; either way one candidate is accounted
    for. *)
Definition attempt (n : nat) (skip : bool) (cur_val i v : Z) : M W unit :=
  if skip then sub_max 1
  else
    modify (set_val cur_val);;
    store n i v;;
    run;;
    inc_cur.

(** ** Walking bit flips *)

(** [maybe_add_auto(afl, a_collect, a_len)] when the collected length is usable. *)
Definition offer_token (a_collect : list Z) (a_len : Z) : M W unit :=
  if (MIN_AUTO_EXTRA <=? a_len) && (a_len <=? MAX_AUTO_EXTRA)
  then modify (fun s => set_world (maybe_add_auto (world s) (take (Z.to_nat a_len) a_collect)) s)
  else mret tt.

(** [a_collect[a_len] = b] *)
Definition put_collect (a_collect : list Z) (a_len b : Z) : M W (list Z) := fun s =>
  if decide (0 <= a_len < Z.of_nat (length a_collect))
  then Ret (<[Z.to_nat a_len := b]> a_collect) s else UB.

(** [if (a_len < MAX_AUTO_EXTRA) a_collect[a_len] = out_buf[stage_cur >> 3]; ++a_len;] *)
Definition collect_byte (i : Z) (a_collect : list Z) (a_len : Z) : M W (list Z * Z) :=
  if a_len <? MAX_AUTO_EXTRA
  then
    b ← load 1 (i ≫ 3);
    a_collect ← put_collect a_collect a_len b;
    mret (a_collect, a_len + 1)
  else mret (a_collect, a_len + 1).

(** The token detection that rides on the flips of the least significant bits. *)
Definition detect_token (i prev_cksum prev0 : Z) (a_collect : list Z) (a_len : Z)
  : M W (Z * list Z * Z) :=
  cksum ← gets (fun s => trace_cksum (world s));
  mx ← gets stage_max;
  st1 ← (if (i =? mx - 1) && (cksum =? prev_cksum)
         then '(a_collect, a_len) ← collect_byte i a_collect a_len;
              offer_token a_collect a_len;;
              mret (prev_cksum, a_collect, a_len)
         else if negb (cksum =? prev_cksum)
         then offer_token a_collect a_len;; mret (cksum, a_collect, 0)
         else mret (prev_cksum, a_collect, a_len));
  let '(prev_cksum, a_collect, a_len) := st1 in
  if negb (cksum =? prev0)
  then '(a_collect, a_len) ← collect_byte i a_collect a_len; mret (prev_cksum, a_collect, a_len)
  else mret (prev_cksum, a_collect, a_len).

Fixpoint flip1_loop (n : nat) (i : Z) (non_instrumented_mode : bool)
    (prev_cksum prev0 : Z) (a_collect : list Z) (a_len : Z) : M W unit :=
  match n with
  | O => mret tt
  | S n =>
      modify (set_byte (i ≫ 3));;
      FLIP_BIT i;;
      run;;
      FLIP_BIT i;;
      st1 ← (if negb non_instrumented_mode && (Z.land i 7 =? 7)
             then detect_token i prev_cksum prev0 a_collect a_len
             else mret (prev_cksum, a_collect, a_len));
      let '(prev_cksum, a_collect, a_len) := st1 in
      inc_cur;;
      flip1_loop n (i + 1) non_instrumented_mode prev_cksum prev0 a_collect a_len
  end.

(** "bitflip 1/1"; returns the checksum of the unmodified input. *)
Definition stage_flip1 (len : Z) (non_instrumented_mode : bool) : M W Z :=
  modify (fun s => set_stage (stage_cur s) (len ≪ 3) s);;
  modify (set_val_type STAGE_VAL_NONE);;
  modify (fun s => set_orig (hit_cnt (world s)) s);;
  run;;
  prev_cksum ← gets (fun s => trace_cksum (world s));
  modify (fun s => set_stage 0 (stage_max s) s);;
  n ← gets stage_max;
  flip1_loop (Z.to_nat n) 0 non_instrumented_mode prev_cksum prev_cksum (replicate 32 0) 0;;
  end_stage STAGE_FLIP1;;
  mret prev_cksum.

(** "bitflip 2/1" *)
Definition stage_flip2 (len : Z) : M W unit :=
  modify (fun s => set_stage (stage_cur s) ((len ≪ 3) - 1) s);;
  for_stage (fun i =>
    modify (set_byte (i ≫ 3));;
    FLIP_BIT i;; FLIP_BIT (i + 1);;
    run;;
    FLIP_BIT i;; FLIP_BIT (i + 1));;
  end_stage STAGE_FLIP2.

(** "bitflip 4/1" *)
Definition stage_flip4 (len : Z) : M W unit :=
  modify (fun s => set_stage (stage_cur s) ((len ≪ 3) - 3) s);;
  for_stage (fun i =>
    modify (set_byte (i ≫ 3));;
    FLIP_BIT i;; FLIP_BIT (i + 1);; FLIP_BIT (i + 2);; FLIP_BIT (i + 3);;
    run;;
    FLIP_BIT i;; FLIP_BIT (i + 1);; FLIP_BIT (i + 2);; FLIP_BIT (i + 3));;
  end_stage STAGE_FLIP4.

(** ** The effector map and the walking byte *)

Definition set_eff_at (k : Z) : M W unit := fun s =>
  if decide (0 <= k < Z.of_nat (length (eff_map s)))
  then Ret tt (set_eff (<[Z.to_nat k := 1]> (eff_map s)) s) else UB.

(** [eff_map[0] = 1; if (EFF_APOS(len - 1) != 0) { eff_map[...] = 1; ++eff_cnt; }]; the
    memory comes from [afl_realloc] and keeps what it held before. *)
Definition init_eff_map (len : Z) : M W Z :=
  set_eff_at 0;;
  if negb (EFF_APOS (len - 1) =? 0)
  then set_eff_at (EFF_APOS (len - 1));; mret 2
  else mret 1.

(** [if (!eff_map[EFF_APOS(i)]) { ... }]: flag the byte's block when flipping the byte
    changed the checksum, or always in non-instrumented mode and on short files. *)
Definition flag_byte (i len : Z) (non_instrumented_mode : bool) (prev_cksum eff_cnt : Z) : M W Z :=
  flagged ← eff i;
  if negb flagged
  then
    cksum ← (if negb non_instrumented_mode && (EFF_MIN_LEN <=? len)
             then gets (fun s => trace_cksum (world s))
             else mret (u64 (Z.lnot prev_cksum)));
    if negb (cksum =? prev_cksum)
    then set_eff_at (EFF_APOS i);; mret (eff_cnt + 1)
    else mret eff_cnt
  else mret eff_cnt.

Fixpoint flip8_loop (n : nat) (i len : Z) (non_instrumented_mode : bool) (prev_cksum eff_cnt : Z)
  : M W Z :=
  match n with
  | O => mret eff_cnt
  | S n =>
      modify (set_byte i);;
      xor_at 1 i 0xFF;;
      run;;
      eff_cnt ← flag_byte i len non_instrumented_mode prev_cksum eff_cnt;
      xor_at 1 i 0xFF;;
      inc_cur;;
      flip8_loop n (i + 1) len non_instrumented_mode prev_cksum eff_cnt
  end.

(** "If the effector map is more than EFF_MAX_PERC dense, just flag the whole thing" *)
Definition settle_eff_map (len eff_cnt : Z) : M W unit :=
  (if negb (eff_cnt =? EFF_ALEN len) && (EFF_MAX_PERC <? eff_cnt * 100 / EFF_ALEN len)
   then modify (fun s => set_eff (replicate (Z.to_nat (EFF_ALEN len)) 1
                              ++ drop (Z.to_nat (EFF_ALEN len)) (eff_map s)) s);;
        modify (fun s => set_blocks (blocks_eff_select s + EFF_ALEN len) (blocks_eff_total s) s)
   else modify (fun s => set_blocks (blocks_eff_select s + eff_cnt) (blocks_eff_total s) s));;
  modify (fun s => set_blocks (blocks_eff_select s) (blocks_eff_total s + EFF_ALEN len) s).

(** "bitflip 8/8" *)
Definition stage_flip8 (len : Z) (non_instrumented_mode : bool) (prev_cksum : Z) : M W unit :=
  eff_cnt ← init_eff_map len;
  modify (fun s => set_stage (stage_cur s) len s);;
  modify (fun s => set_stage 0 (stage_max s) s);;
  n ← gets stage_max;
  eff_cnt ← flip8_loop (Z.to_nat n) 0 len non_instrumented_mode prev_cksum eff_cnt;
  settle_eff_map len eff_cnt;;
  end_stage STAGE_FLIP8.

(** [!eff_map[EFF_APOS(i)] && ... && !eff_map[EFF_APOS(i + k)]] *)
Fixpoint no_eff (k : nat) (i : Z) : M W bool :=
  match k with
  | O => mret true
  | S k => e ← eff i; if (e : bool) then mret false else no_eff k (i + 1)
  end.

(** "bitflip 16/8" and "bitflip 32/8" *)
Definition walk_words (width : nat) (mask : Z) (len : Z) : M W unit :=
  modify (fun s => set_stage 0 (len - (Z.of_nat width - 1)) s);;
  for_range (Z.to_nat (len - (Z.of_nat width - 1))) 0 (fun i =>
    dull ← no_eff width i;
    if (dull : bool) then sub_max 1
    else
      modify (set_byte i);;
      xor_at width i mask;;
      run;;
      inc_cur;;
      xor_at width i mask).

Definition stage_flip16 (len : Z) : M W unit :=
  walk_words 2 0xFFFF len;; end_stage STAGE_FLIP16.

Definition stage_flip32 (len : Z) : M W unit :=
  walk_words 4 0xFFFFFFFF len;; end_stage STAGE_FLIP32.

(** ** Arithmetic *)

(** "arith 8/8" *)
Definition stage_arith8 (len : Z) : M W unit :=
  modify (fun s => set_stage 0 (2 * len * ARITH_MAX) s);;
  modify (set_val_type STAGE_VAL_LE);;
  for_range (Z.to_nat len) 0 (fun i =>
    orig ← load 1 i;
    dull ← no_eff 1 i;
    if (dull : bool) then sub_max (2 * ARITH_MAX)
    else
      modify (set_byte i);;
      for_range (Z.to_nat ARITH_MAX) 1 (fun j =>
        let r := Z.lxor orig (u8 (orig + j)) in
        attempt 1 (could_be_bitflip r) j i (orig + j);;
        let r := Z.lxor orig (u8 (orig - j)) in
        attempt 1 (could_be_bitflip r) (- j) i (orig - j);;
        store 1 i orig));;
  end_stage STAGE_ARITH8.

(** "arith 16/8" *)
Definition stage_arith16 (len : Z) : M W unit :=
  modify (fun s => set_stage 0 (4 * (len - 1) * ARITH_MAX) s);;
  for_range (Z.to_nat (len - 1)) 0 (fun i =>
    orig ← load 2 i;
    dull ← no_eff 2 i;
    if (dull : bool) then sub_max (4 * ARITH_MAX)
    else
      modify (set_byte i);;
      for_range (Z.to_nat ARITH_MAX) 1 (fun j =>
        let r1 := Z.lxor orig (u16 (orig + j)) in
        let r2 := Z.lxor orig (u16 (orig - j)) in
        let r3 := Z.lxor orig (SWAP16 (SWAP16 orig + j)) in
        let r4 := Z.lxor orig (SWAP16 (SWAP16 orig - j)) in
        modify (set_val_type STAGE_VAL_LE);;
        attempt 2 (negb ((0xff <? Z.land orig 0xff + j) && negb (could_be_bitflip r1)))
          j i (orig + j);;
        attempt 2 (negb ((Z.land orig 0xff <? j) && negb (could_be_bitflip r2)))
          (- j) i (orig - j);;
        modify (set_val_type STAGE_VAL_BE);;
        attempt 2 (negb ((0xff <? (orig ≫ 8) + j) && negb (could_be_bitflip r3)))
          j i (SWAP16 (SWAP16 orig + j));;
        attempt 2 (negb (((orig ≫ 8) <? j) && negb (could_be_bitflip r4)))
          (- j) i (SWAP16 (SWAP16 orig - j));;
        store 2 i orig));;
  end_stage STAGE_ARITH16.

(** "arith 32/8" *)
Definition stage_arith32 (len : Z) : M W unit :=
  modify (fun s => set_stage 0 (4 * (len - 3) * ARITH_MAX) s);;
  for_range (Z.to_nat (len - 3)) 0 (fun i =>
    orig ← load 4 i;
    dull ← no_eff 4 i;
    if (dull : bool) then sub_max (4 * ARITH_MAX)
    else
      modify (set_byte i);;
      for_range (Z.to_nat ARITH_MAX) 1 (fun j =>
        let r1 := Z.lxor orig (u32 (orig + j)) in
        let r2 := Z.lxor orig (u32 (orig - j)) in
        let r3 := Z.lxor orig (SWAP32 (SWAP32 orig + j)) in
        let r4 := Z.lxor orig (SWAP32 (SWAP32 orig - j)) in
        modify (set_val_type STAGE_VAL_LE);;
        attempt 4 (negb ((0xffff <? u32 (Z.land orig 0xffff + j)) && negb (could_be_bitflip r1)))
          j i (orig + j);;
        attempt 4 (negb ((Z.land orig 0xffff <? j) && negb (could_be_bitflip r2)))
          (- j) i (orig - j);;
        modify (set_val_type STAGE_VAL_BE);;
        attempt 4 (negb ((0xffff <? u32 (Z.land (SWAP32 orig) 0xffff + j))
                         && negb (could_be_bitflip r3)))
          j i (SWAP32 (SWAP32 orig + j));;
        attempt 4 (negb ((Z.land (SWAP32 orig) 0xffff <? j) && negb (could_be_bitflip r4)))
          (- j) i (SWAP32 (SWAP32 orig - j));;
        store 4 i orig));;
  end_stage STAGE_ARITH32.

(** ** Interesting values *)

Fixpoint for_each (l : list Z) (body : Z -> M W unit) : M W unit :=
  match l with
  | [] => mret tt
  | x :: l => body x;; for_each l body
  end.

(** "interest 8/8" *)
Definition stage_interest8 (len : Z) : M W unit :=
  modify (fun s => set_stage 0 (len * Z.of_nat (length interesting_8)) s);;
  modify (set_val_type STAGE_VAL_LE);;
  for_range (Z.to_nat len) 0 (fun i =>
    orig ← load 1 i;
    dull ← no_eff 1 i;
    if (dull : bool) then sub_max (Z.of_nat (length interesting_8))
    else
      modify (set_byte i);;
      for_each interesting_8 (fun v =>
        if could_be_bitflip (Z.lxor orig (u8 v)) || could_be_arith orig (u8 v) 1
        then sub_max 1
        else
          modify (set_val v);;
          store 1 i v;;
          run;;
          store 1 i orig;;
          inc_cur));;
  end_stage STAGE_INTEREST8.

(** "interest 16/8" *)
Definition stage_interest16 (len : Z) : M W unit :=
  modify (fun s => set_stage 0 (2 * (len - 1) * Z.of_nat (length interesting_16)) s);;
  for_range (Z.to_nat (len - 1)) 0 (fun i =>
    orig ← load 2 i;
    dull ← no_eff 2 i;
    if (dull : bool) then sub_max (2 * Z.of_nat (length interesting_16))
    else
      modify (set_byte i);;
      for_each interesting_16 (fun v =>
        modify (set_val v);;
        (if negb (could_be_bitflip (Z.lxor orig (u16 v))) && negb (could_be_arith orig (u16 v) 2)
            && negb (could_be_interest orig (u16 v) 2 false)
         then modify (set_val_type STAGE_VAL_LE);; store 2 i v;; run;; inc_cur
         else sub_max 1);;
        (if negb (u16 v =? SWAP16 v) && negb (could_be_bitflip (Z.lxor orig (SWAP16 v)))
            && negb (could_be_arith orig (SWAP16 v) 2)
            && negb (could_be_interest orig (SWAP16 v) 2 true)
         then modify (set_val_type STAGE_VAL_BE);; store 2 i (SWAP16 v);; run;; inc_cur
         else sub_max 1));;
      store 2 i orig);;
  end_stage STAGE_INTEREST16.

(** "interest 32/8" *)
Definition stage_interest32 (len : Z) : M W unit :=
  modify (fun s => set_stage 0 (2 * (len - 3) * Z.of_nat (length interesting_32)) s);;
  for_range (Z.to_nat (len - 3)) 0 (fun i =>
    orig ← load 4 i;
    dull ← no_eff 4 i;
    if (dull : bool) then sub_max (2 * Z.of_nat (length interesting_32))
    else
      modify (set_byte i);;
      for_each interesting_32 (fun v =>
        modify (set_val v);;
        (if negb (could_be_bitflip (Z.lxor orig (u32 v))) && negb (could_be_arith orig (u32 v) 4)
            && negb (could_be_interest orig (u32 v) 4 false)
         then modify (set_val_type STAGE_VAL_LE);; store 4 i v;; run;; inc_cur
         else sub_max 1);;
        (if negb (u32 v =? SWAP32 v) && negb (could_be_bitflip (Z.lxor orig (SWAP32 v)))
            && negb (could_be_arith orig (SWAP32 v) 4)
            && negb (could_be_interest orig (SWAP32 v) 4 true)
         then modify (set_val_type STAGE_VAL_BE);; store 4 i (SWAP32 v);; run;; inc_cur
         else sub_max 1));;
      store 4 i orig);;
  end_stage STAGE_INTEREST32.

(** ** The stages in order, with their early exits *)
Definition det_stages (len : Z) (non_instrumented_mode no_arith : bool) : M W unit :=
  prev_cksum ← stage_flip1 len non_instrumented_mode;
  stage_flip2 len;;
  stage_flip4 len;;
  stage_flip8 len non_instrumented_mode prev_cksum;;
  (if len <? 2 then mret tt
   else stage_flip16 len;; if len <? 4 then mret tt else stage_flip32 len);;
  (if no_arith then mret tt
   else
     stage_arith8 len;;
     if len <? 2 then mret tt
     else stage_arith16 len;; if len <? 4 then mret tt else stage_arith32 len);;
  stage_interest8 len;;
  (if no_arith || (len <? 2) then mret tt
   else stage_interest16 len;; if len <? 4 then mret tt else stage_interest32 len).
End stages.

(** ** A concrete fuzzer, for evaluating the stages

    The world is the last input and the number of runs; the "trace" is the first
    byte of the input, and nothing ever asks to abandon. *)
#[global] Instance sample_fuzzer : Fuzzer (list Z * Z) := {|
  common_fuzz_stuff w b := ((b, w.2 + 1), false);
  trace_cksum w := default 0 (head w.1);
  maybe_add_auto w _ := w;
  hit_cnt w := 0;
|}.

Definition sample_det (buf eff0 : list Z) : det (list Z * Z) :=
  Det buf ([], 0) eff0 0 0 0 0 STAGE_VAL_NONE 0 (fun _ => 0) (fun _ => 0) 0 0 [].
