(* ===== verification/AutoFiles.v ===== *)
(** * Files of automatic tokens (src/aflplusplus/src/afl-fuzz-extras.c)

    [save_auto] writes the most used automatic tokens to numbered files,
    [auto_extras/auto_000000] and so on; a session that is resumed reads them back with
    [load_auto].  The directory is a map from the numbers to the contents. *)
From S2P Require Import Prelude DetStages Rng Extras ExtrasTheorems.
#[local] Open Scope Z_scope.

(** Files [i], [i + 1], ... written over *)
Fixpoint write_autos (i : nat) (l : list auto_extra_data) (dir : gmap nat (list Z)) : gmap nat (list Z) :=
  match l with
  | [] => dir
  | x :: l => write_autos (S i) l (<[i := a_data x]> dir)
  end.

Definition save_auto (d : dict) (dir : gmap nat (list Z)) : dict * gmap nat (list Z) :=
  if negb (auto_changed d) then (d, dir)
  else (Dict (extras d) (a_extras d) false,
        write_autos 0 (take (Z.to_nat (Z.min USE_AUTO_EXTRAS (Z.of_nat (length (a_extras d))))) (a_extras d)) dir).

Section load.
Context {Hsort : Qsort} {W : Type} `{!Random W}.

(** [for (i = 0; i < USE_AUTO_EXTRAS; ++i)], with [n] rounds left; one byte more than the
    longest token is read. *)
Fixpoint load_autos (n i : nat) (dir : gmap nat (list Z)) (d : dict) (w : W) : dict * W :=
  match n with
  | O => (d, w)
  | S n =>
      match dir !! i with
      | None => (d, w)
      | Some file =>
          let tmp := take (Z.to_nat (MAX_AUTO_EXTRA + 1)) file in
          let len := Z.of_nat (length tmp) in
          let '(d, w) :=
            if (MIN_AUTO_EXTRA <=? len) && (len <=? MAX_AUTO_EXTRA) then maybe_add_auto tmp d w else (d, w) in
          load_autos n (S i) dir d w
      end
  end.

Definition load_auto (dir : gmap nat (list Z)) (d : dict) (w : W) : dict * W := load_autos (Z.to_nat USE_AUTO_EXTRAS) 0 dir d w.

(** ** Tokens that were added once are accepted again *)

Definition auto_kept (d : dict) : Prop := Forall (fun x => ~ auto_rejects (a_data x) d) (a_extras d).

Lemma maybe_add_auto_data mem d (w : W) :
  let d' := (maybe_add_auto mem d w).1 in
  extras d' = extras d
  /\ (d' = d \/ (is_run mem = false /\ Z.of_nat (length mem) <= MAX_AUTO_EXTRA /\ is_builtin mem = false
       /\ match_nocase mem (skip_shorter (length mem) (extras d)) = false
       /\ forall x, x ∈ a_extras d' -> a_data x = mem \/ exists y, y ∈ a_extras d /\ a_data x = a_data y)).
Proof.
  unfold maybe_add_auto. destruct (is_run mem) eqn:E1; [simpl; auto|]. cbn [orb].
  destruct (Z.ltb_spec MAX_AUTO_EXTRA (Z.of_nat (length mem))); [simpl; auto|].
  destruct (is_builtin mem) eqn:E2; [simpl; auto|]. destruct (match_nocase _ _) eqn:E3; [simpl; auto|].
  set (d' := (match bump_auto _ _ with Some _ => _ | None => _ end).1).
  enough (H1 : extras d' = extras d /\ forall x, x ∈ a_extras d' -> a_data x = mem \/ exists y, y ∈ a_extras d /\ a_data x = a_data y)
    by (split; [apply H1|right; repeat split; try done; apply H1]).
  subst d'. pose proof (bump_auto_spec mem (a_extras d)) as Hb. destruct (bump_auto mem (a_extras d)) as [l|]; cbn [fst].
  - split; [done|]. intros x. cbn [a_extras]. rewrite sort_a_extras_permutes. intros Hx. right.
    assert (Hin : a_data x ∈ map a_data (a_extras d)) by (destruct Hb as [<- _]; by apply list_elem_of_fmap_2).
    apply list_elem_of_fmap in Hin as (y & Hy & Hin). by exists y.
  - destruct (_ <? _); [|destruct (below w _) as [r w']]; (split; [done|]); cbn [fst a_extras]; intros x; rewrite sort_a_extras_permutes.
    + intros [Hx|Hx%list_elem_of_singleton]%elem_of_app; [right; by exists x|left; by subst].
    + intros (i & Hi)%list_elem_of_lookup. apply list_lookup_insert_Some in Hi as [(_ & <- & _)|(_ & Hi)]; [by left|].
      right. exists x. split; [by eapply list_elem_of_lookup_2|done].
Qed.

(** The automatic dictionary never holds a token it would reject. *)
Lemma maybe_add_auto_kept mem d (w : W) : by_len (extras d) -> auto_kept d -> auto_kept (maybe_add_auto mem d w).1.
Proof.
  intros Hs Hk. destruct (maybe_add_auto_data mem d w) as [He Hc]. cbv zeta in *. destruct Hc as [->|(H1 & H2 & H3 & H4 & Hx)]; [done|].
  apply Forall_forall. intros x Hin. unfold auto_rejects. rewrite He. destruct (Hx x Hin) as [->|(y & Hy & ->)].
  - intros [?|[?|[?|Hm]]]; [congruence|lia|congruence|]. apply (match_nocase_extras mem (extras d) Hs) in Hm. congruence.
  - unfold auto_kept in Hk. rewrite Forall_forall in Hk. exact (Hk y Hy).
Qed.

(** A new token is appended as long as there is room. *)
Lemma maybe_add_auto_new mem d (w : W) :
  by_len (extras d) -> ~ auto_rejects mem d -> folded mem ∉ map (fun x => folded (a_data x)) (a_extras d) ->
  Z.of_nat (length (a_extras d)) < MAX_AUTO_EXTRAS ->
  maybe_add_auto mem d w = (Dict (extras d) (sort_a_extras (a_extras d ++ [AutoExtra mem 0])) true, w).
Proof.
  intros Hs Hr Hn Hl. unfold auto_rejects in Hr. unfold maybe_add_auto.
  destruct (is_run mem); [tauto|]. cbn [orb]. destruct (Z.ltb_spec MAX_AUTO_EXTRA (Z.of_nat (length mem))); [tauto|].
  destruct (is_builtin mem); [tauto|]. destruct (match_nocase _ _) eqn:E.
  { apply match_nocase_extras in E; [tauto|done]. }
  pose proof (bump_auto_spec mem (a_extras d)) as Hb. destruct (bump_auto mem (a_extras d)); [tauto|].
  by rewrite (proj2 (Z.ltb_lt _ _) Hl).
Qed.

(** The tokens that come back: those long enough *)
Definition long_enough (x : auto_extra_data) : Prop := MIN_AUTO_EXTRA <= Z.of_nat (length (a_data x)).
#[export] Instance long_enough_dec x : Decision (long_enough x).
Proof. unfold long_enough. apply _. Defined.

Lemma write_autos_lookup i l dir j :
  write_autos i l dir !! j = if decide (i <= j < i + length l)%nat then a_data <$> l !! (j - i)%nat else dir !! j.
Proof.
  revert i dir. induction l as [|x l IH]; intros i dir; cbn [write_autos length].
  { by rewrite decide_False by lia. }
  rewrite IH. destruct (decide (j = i)) as [->|Hj].
  - rewrite decide_False by lia. rewrite decide_True by lia. by rewrite lookup_insert_eq, Nat.sub_diag.
  - rewrite lookup_insert_ne by done. destruct (decide (S i <= j < S i + length l)%nat).
    + rewrite decide_True by lia. by replace (j - i)%nat with (S (j - S i)) by lia.
    + by rewrite decide_False by lia.
Qed.

(** A token as it is when it has been read *)
Definition unused (x : auto_extra_data) : auto_extra_data := AutoExtra (a_data x) 0.
Definition folds (l : list auto_extra_data) : list (list Z) := map (fun x => folded (a_data x)) l.

Lemma folds_unused l : folds (map unused l) = folds l.
Proof. unfold folds. rewrite map_map. done. Qed.

Lemma load_autos_ok l n i dir d (w : W) :
  by_len (extras d) -> Forall (fun x => ~ auto_rejects (a_data x) d) l -> NoDup (folds (a_extras d ++ l)) ->
  Z.of_nat (length (a_extras d ++ l)) < MAX_AUTO_EXTRAS -> (length l <= n)%nat ->
  (forall j, (j < length l)%nat -> dir !! (i + j)%nat = a_data <$> l !! j) ->
  dir !! (i + length l)%nat = None \/ n = length l ->
  exists d', load_autos n i dir d w = (d', w) /\ extras d' = extras d
    /\ a_extras d' ≡ₚ a_extras d ++ map unused (filter long_enough l).
Proof.
  revert n i d. induction l as [|x l IH]; intros n i d Hs Hr Hn Hsz Hln Hdir Hend.
  { exists d. cbn [length map] in *. rewrite Nat.add_0_r in Hend. rewrite app_nil_r.
    destruct n as [|n]; [done|]. cbn [load_autos]. destruct Hend as [->|]; [done|lia]. }
  destruct n as [|n]; [simpl in Hln; lia|]. cbn [load_autos]. apply Forall_cons in Hr as [Hx Hr].
  pose proof (Hdir 0%nat ltac:(simpl; lia)) as H0. rewrite Nat.add_0_r in H0. rewrite H0. cbn [lookup list_lookup fmap option_fmap option_map].
  assert (Hlen : Z.of_nat (length (a_data x)) <= MAX_AUTO_EXTRA) by (destruct (decide (MAX_AUTO_EXTRA < Z.of_nat (length (a_data x)))); [|lia]; exfalso; apply Hx; right; by left).
  rewrite take_ge by lia. rewrite (proj2 (Z.leb_le _ _) Hlen), andb_true_r.
  assert (Hdir' : forall j, (j < length l)%nat -> dir !! (S i + j)%nat = a_data <$> l !! j).
  { intros j Hj. specialize (Hdir (S j) ltac:(simpl; lia)). by replace (S i + j)%nat with (i + S j)%nat by lia. }
  assert (Hend' : dir !! (S i + length l)%nat = None \/ n = length l).
  { destruct Hend as [Hend|Hend]; [left|right; simpl in Hend; lia]. cbn [length] in Hend. by replace (S i + length l)%nat with (i + S (length l))%nat by lia. }
  rewrite filter_cons. destruct (decide (long_enough x)) as [Hlong|Hshort].
  - unfold long_enough in Hlong. rewrite (proj2 (Z.leb_le _ _) Hlong).
    rewrite length_app in Hsz. cbn [length] in Hsz, Hln.
    unfold folds in Hn. rewrite map_app, map_cons, <- Permutation_middle, NoDup_cons in Hn. destruct Hn as [Hnew Hn].
    rewrite maybe_add_auto_new; [|done|done|set_solver|lia].
    pose proof (sort_a_extras_permutes (a_extras d ++ [AutoExtra (a_data x) 0])) as Hp.
    set (d1 := Dict (extras d) _ true).
    destruct (IH n (S i) d1) as (d' & E & He & Ha); try done; [| |lia|].
    + cbn [a_extras d1]. unfold folds. rewrite map_app, Hp, map_app. cbn [map a_data]. rewrite <- app_assoc. cbn [app].
      rewrite <- Permutation_middle. by apply NoDup_cons.
    + cbn [a_extras d1]. rewrite length_app, Hp, length_app. cbn [length]. lia.
    + exists d'. split; [exact E|]. split; [done|]. rewrite Ha. cbn [a_extras d1]. rewrite Hp, <- app_assoc. reflexivity.
  - unfold long_enough in Hshort. rewrite (proj2 (Z.leb_gt _ _)) by lia. cbn [andb].
    rewrite length_app in Hsz. cbn [length] in Hsz, Hln.
    destruct (IH n (S i) d) as (d' & E & He & Ha); try done; [|rewrite length_app; lia|lia|by exists d'].
    unfold folds in *. rewrite map_app, map_cons, <- Permutation_middle, NoDup_cons in Hn. rewrite map_app. apply Hn.
Qed.
End load.

(** ** Theorems *)

(** C29: the automatic dictionary survives a restart.  The files that [save_auto] writes for a
    dictionary of tokens that [maybe_add_auto] accepted, read by [load_auto] into a dictionary
    without automatic tokens, give the tokens back, up to their order and with their counts
    at zero: those among the USE_AUTO_EXTRAS most used that have MIN_AUTO_EXTRA bytes.  The
    shorter ones, which RedQueen adds, are written but not read. *)
Theorem auto_files_roundtrip {Hsort : Qsort} {W} {R : Random W} d changed (w : W) :
  by_len (extras d) -> auto_ok (a_extras d) -> auto_kept d -> auto_changed d = true ->
  exists d', load_auto (save_auto d ∅).2 (Dict (extras d) [] changed) w = (d', w)
    /\ extras d' = extras d
    /\ a_extras d' ≡ₚ map unused (filter long_enough (take (Z.to_nat USE_AUTO_EXTRAS) (a_extras d))).
Proof.
  intros Hs Hok Hk Hch. unfold save_auto. rewrite Hch. cbn [negb snd].
  set (l := take (Z.to_nat (Z.min USE_AUTO_EXTRAS (Z.of_nat (length (a_extras d))))) (a_extras d)).
  assert (Hl : l = take (Z.to_nat USE_AUTO_EXTRAS) (a_extras d)).
  { unfold l. destruct (decide (Z.of_nat (length (a_extras d)) <= USE_AUTO_EXTRAS)); [rewrite !take_ge by lia; done|].
    by rewrite Z.min_l by lia. }
  clearbody l. assert (Hll : (length l <= Z.to_nat USE_AUTO_EXTRAS)%nat) by (rewrite Hl, length_take; lia).
  rewrite <- Hl. unfold load_auto. assert (Hn : Z.of_nat (Z.to_nat USE_AUTO_EXTRAS) = 4096) by (rewrite Z2Nat.id; done).
  set (n := Z.to_nat USE_AUTO_EXTRAS) in *. clearbody n.
  pose proof (load_autos_ok l n 0 (write_autos 0 l ∅) (Dict (extras d) [] changed) w) as H. cbn [extras a_extras app] in H. apply H.
  - exact Hs.
  - rewrite Hl. apply Forall_take. exact Hk.
  - pose proof (auto_nodup _ Hok) as Hnd. rewrite <- (take_drop n (a_extras d)), map_app in Hnd.
    rewrite Hl. by apply NoDup_app in Hnd as [? _].
  - unfold MAX_AUTO_EXTRAS, USE_AUTO_EXTRAS. lia.
  - exact Hll.
  - intros j Hj. rewrite write_autos_lookup, decide_True by lia. by rewrite Nat.sub_0_r.
  - left. rewrite write_autos_lookup, decide_False by lia. done.
Qed.

Definition sample_autos : dict := Dict [[1]] [AutoExtra [1; 2; 3] 7; AutoExtra [73; 72; 68; 82] 5] true.

Lemma auto_files_roundtrip_witness :
  exists d', load_auto (save_auto sample_autos ∅).2 (Dict [[1]] [] false) 0 = (d', 0)
    /\ a_extras d' ≡ₚ [AutoExtra [1; 2; 3] 0; AutoExtra [73; 72; 68; 82] 0].
Proof.
  destruct (auto_files_roundtrip sample_autos false 0) as (d' & E & _ & Hd).
  - repeat constructor.
  - split; [vm_compute; discriminate|by repeat constructor| |].
    + cbn. apply NoDup_cons. split; [intros H%list_elem_of_singleton; discriminate H|apply NoDup_singleton].
    + unfold by_len. cbn. repeat constructor.
  - repeat (apply Forall_cons; split; [intros [H|[H|[H|(x & Hx%list_elem_of_singleton & H)]]]; [discriminate H|vm_compute in H; discriminate H|discriminate H|subst; discriminate H]|]).
    by apply Forall_nil.
  - done.
  - exists d'. split; [exact E|]. exact Hd.
Defined.
