(* ===== verification/DetTriples.v ===== *)
(** * A program logic for the deterministic stages

    [does P m Q cands dc tot]: from a state in [P] the program [m] never reads or
    writes outside a buffer; if it returns, the state satisfies [Q], the target has
    been run on exactly [cands], [stage_cur] grew by [dc] and [stage_max] shrank by
    [tot - dc]; if it abandons the entry, the target has been run on a non-empty
    prefix of [cands].  The per-stage statistics do not change.  The rules below
    follow the structure of a stage. *)
From S2P Require Import Prelude OneHelpers DetStages.

(** [untracked]: the side conditions of a [modify] of fields no rule tracks. *)
Ltac untracked := intros; cbn; try done; try lia; repeat split; try done; try lia.

Section logic.
Context {W : Type} `{!Fuzzer W}.
Implicit Types (P : det W -> Prop) (s : det W) (b e buf : list Z).

(** The inputs the target was run on. *)
Definition inputs s : list (list Z) := (runs s).*1.

Definition same_stats s s' : Prop :=
  stage_finds s' = stage_finds s /\ stage_cycles s' = stage_cycles s
  /\ orig_hit_cnt s' = orig_hit_cnt s.

Definition does {A} P (m : M W A) (Q : A -> det W -> Prop) (cands : list (list Z)) (dc tot : Z)
  : Prop :=
  forall s, P s ->
  match m s with
  | Ret a s' =>
      Q a s' /\ inputs s' = inputs s ++ cands /\ stage_cur s' = stage_cur s + dc
      /\ stage_max s' = stage_max s - (tot - dc) /\ same_stats s s'
  | Abandon s' =>
      (exists k, (0 < k <= length cands)%nat /\ inputs s' = inputs s ++ take k cands)
      /\ stage_cycles s' = stage_cycles s
  | UB => False
  end.

(** ** Structural rules *)

Lemma does_ret {A} P (Q : A -> det W -> Prop) a :
  (forall s, P s -> Q a s) -> does P (mret a) Q [] 0 0.
Proof.
  intros H s Hs. simpl. rewrite app_nil_r. repeat split; auto; lia.
Qed.

Lemma does_pure {A} P (m : M W A) Q c dc tot (φ : Prop) :
  (φ -> does P m Q c dc tot) -> does (fun s => φ /\ P s) m Q c dc tot.
Proof. intros H s [Hφ Hs]. by apply H. Qed.

Lemma does_conseq {A} P P' (m : M W A) Q Q' c c' dc dc' tot tot' :
  does P' m Q' c' dc' tot' ->
  (forall s, P s -> P' s) -> (forall a s, Q' a s -> Q a s) -> c = c' -> dc = dc' -> tot = tot' ->
  does P m Q c dc tot.
Proof.
  intros H HP HQ -> -> -> s Hs. specialize (H s (HP s Hs)). destruct (m s); [|done..].
  destruct H as (H & ?). auto.
Qed.

Lemma does_bind {A B} P (m : M W A) (k : A -> M W B) R Q c1 c2 d1 d2 t1 t2 :
  does P m R c1 d1 t1 ->
  (forall a, does (R a) (k a) Q c2 d2 t2) ->
  does P (m ≫= k) Q (c1 ++ c2) (d1 + d2) (t1 + t2).
Proof.
  intros H1 H2 s Hs. unfold mbind, M_bind. specialize (H1 s Hs).
  destruct (m s) as [a s1|s1|]; [|destruct H1 as [(n & Hn & ->) ?]|done].
  - destruct H1 as (HR & Hi & Hc & Hm & Hf & Hcy & Ho). specialize (H2 a s1 HR).
    destruct (k a s1) as [a2 s2|s2|]; [| |done].
    + destruct H2 as (? & Hi2 & Hc2 & Hm2 & Hf2 & Hcy2 & Ho2). unfold same_stats.
      rewrite Hi2, Hi, Hc2, Hc, Hm2, Hm, Hf2, Hcy2, Ho2, app_assoc. repeat split; auto; lia.
    + destruct H2 as ((n & Hn & ->) & Hcy2). rewrite Hi. split; [|congruence].
      exists (length c1 + n)%nat. rewrite length_app. split; [lia|].
      rewrite <- app_assoc. f_equal. rewrite take_app_ge by lia. do 2 f_equal. lia.
  - split; [|done]. exists n. rewrite length_app. split; [lia|]. f_equal.
    by rewrite take_app_le by lia.
Qed.

(** Sequencing where neither half looks at the value. *)
Lemma does_seq {A B} P (m : M W A) (k : M W B) R Q c1 c2 d1 d2 t1 t2 :
  does P m (fun _ => R) c1 d1 t1 -> does R k Q c2 d2 t2 ->
  does P (m;; k) Q (c1 ++ c2) (d1 + d2) (t1 + t2).
Proof. intros H1 H2. eapply does_bind; [exact H1|]. auto. Qed.

(** A silent first step. *)
Lemma does_then {A B} P (m : M W A) (k : A -> M W B) R Q c d t :
  does P m R [] 0 0 -> (forall a, does (R a) (k a) Q c d t) -> does P (m ≫= k) Q c d t.
Proof. intros H1 H2. exact (does_bind P m k R Q [] c 0 d 0 t H1 H2). Qed.

(** Programs that count one [stage_cur] per execution. *)
Definition counts {A} P (m : M W A) (Q : A -> det W -> Prop) (cands : list (list Z)) (tot : Z)
  : Prop := does P m Q cands (Z.of_nat (length cands)) tot.

Lemma counts_seq {A B} P (m : M W A) (k : M W B) R Q c1 c2 t1 t2 :
  counts P m (fun _ => R) c1 t1 -> counts R k Q c2 t2 -> counts P (m;; k) Q (c1 ++ c2) (t1 + t2).
Proof.
  intros H1 H2. unfold counts. rewrite length_app, Nat2Z.inj_add. by apply does_seq with R.
Qed.

Lemma counts_for_range P n i (body : Z -> M W unit) (C : Z -> list (list Z)) T :
  (forall j, i <= j < i + Z.of_nat n -> counts P (body j) (fun _ => P) (C j) T) ->
  counts P (for_range n i body) (fun _ => P) (flat_map C (seqZ i (Z.of_nat n))) (Z.of_nat n * T).
Proof.
  revert i. induction n as [|n IH]; intros i H.
  - simpl. change (seqZ i 0) with (@nil Z). simpl. by apply does_ret.
  - rewrite seqZ_cons by lia. replace (Z.pred (Z.of_nat (S n))) with (Z.of_nat n) by lia.
    cbn [for_range flat_map].
    replace (Z.of_nat (S n) * T) with (T + Z.of_nat n * T) by lia.
    apply counts_seq with P; [apply H; lia|]. rewrite <- Z.add_1_r. apply IH. intros. apply H. lia.
Qed.

Lemma counts_for_each P l (body : Z -> M W unit) (C : Z -> list (list Z)) T :
  (forall v, v ∈ l -> counts P (body v) (fun _ => P) (C v) T) ->
  counts P (for_each l body) (fun _ => P) (flat_map C l) (Z.of_nat (length l) * T).
Proof.
  induction l as [|v l IH]; intros H; [by apply does_ret|].
  cbn [for_each flat_map length].
  replace (Z.of_nat (S (length l)) * T) with (T + Z.of_nat (length l) * T) by lia.
  apply counts_seq with P; [apply H; set_solver|]. apply IH. intros. apply H. set_solver.
Qed.

(** ** Primitive steps *)

Lemma does_modify P (Q : det W -> Prop) f dc tot :
  (forall s, P s -> Q (f s)) ->
  (forall s, inputs (f s) = inputs s) ->
  (forall s, stage_cur (f s) = stage_cur s + dc) ->
  (forall s, stage_max (f s) = stage_max s - (tot - dc)) ->
  (forall s, same_stats s (f s)) ->
  does P (modify f) (fun _ => Q) [] dc tot.
Proof. intros H1 H2 H3 H4 H5 s Hs. simpl. rewrite app_nil_r. auto. Qed.

(** The buffer and the effector map. *)
Definition mem_is b e s : Prop := out_buf s = b /\ eff_map s = e.

(** The buffer is [buf] up to the [n]-byte window at [i]. *)
Definition window n i buf e s : Prop := exists v, mem_is (st n buf i v) e s.

(** A property of the state that only looks at the buffer and the effector map. *)
Definition mem_only P : Prop :=
  forall s s', out_buf s = out_buf s' -> eff_map s = eff_map s' -> P s -> P s'.

Lemma mem_only_mem_is b e : mem_only (mem_is b e).
Proof. intros s s' Hb He [H1 H2]. split; congruence. Qed.
Lemma mem_only_window n i buf e : mem_only (window n i buf e).
Proof. intros s s' Hb He [v H]. exists v. revert H. by apply mem_only_mem_is. Qed.
Lemma mem_only_and P P' : mem_only P -> mem_only P' -> mem_only (fun s => P s /\ P' s).
Proof. intros H H' s s' Hb He [? ?]. split; [by apply (H s)|by apply (H' s)]. Qed.

#[local] Hint Resolve mem_only_mem_is mem_only_window mem_only_and : afl.

Lemma does_run P b :
  mem_only P -> (forall s, P s -> out_buf s = b) -> does P run (fun _ => P) [b] 0 0.
Proof.
  intros HP Hb s Hs. unfold run. destruct (common_fuzz_stuff _ _) as [w []].
  - split; [|done]. exists 1%nat. split; [simpl; lia|].
    unfold inputs; simpl. by rewrite fmap_app, (Hb s Hs).
  - unfold inputs; simpl. rewrite fmap_app, (Hb s Hs). repeat split; try lia. by apply (HP s).
Qed.

Lemma does_run_is b e : does (mem_is b e) run (fun _ => mem_is b e) [b] 0 0.
Proof. apply does_run; [auto with afl|]. by intros s [? _]. Qed.

Lemma does_run_then {A} b e (k : M W A) Q c dc tot :
  does (mem_is b e) k Q c dc tot -> does (mem_is b e) (run;; k) Q (b :: c) dc tot.
Proof. exact (does_seq _ _ k _ _ [b] c 0 dc 0 tot (does_run_is b e)). Qed.

Lemma does_inc_cur P : mem_only P -> does P inc_cur (fun _ => P) [] 1 1.
Proof. intros HP. apply does_modify; [intros s Hs; by apply (HP s)|untracked..]. Qed.

Lemma does_inc_then {A} P (k : M W A) Q c dc tot :
  mem_only P -> does P k Q c dc tot -> does P (inc_cur;; k) Q c (1 + dc) (1 + tot).
Proof. intros HP. exact (does_seq _ _ k _ _ [] c 1 dc 1 tot (does_inc_cur P HP)). Qed.

Lemma does_sub_max P d : mem_only P -> does P (sub_max d) (fun _ => P) [] 0 d.
Proof. intros HP. apply does_modify; [intros s Hs; by apply (HP s)|untracked..]. Qed.

Lemma does_load P b n i :
  (forall s, P s -> out_buf s = b) -> in_range n b i ->
  does P (load n i) (fun v s => v = ld n b i /\ P s) [] 0 0.
Proof.
  intros Hb Hr s Hs. unfold load. rewrite (Hb s Hs), decide_True by done.
  rewrite app_nil_r. repeat split; auto; lia.
Qed.

Lemma does_store b e n i v :
  in_range n b i -> does (mem_is b e) (store n i v) (fun _ => mem_is (st n b i v) e) [] 0 0.
Proof.
  intros Hr s [Hb He]. unfold store. rewrite Hb, decide_True by done.
  rewrite app_nil_r. repeat split; simpl; auto; lia.
Qed.

Lemma in_range_st n m b i v : in_range n b i -> in_range m (st n b i v) i <-> in_range m b i.
Proof. intros Hr. unfold in_range. by rewrite length_st. Qed.

Lemma does_store_window buf e n i v :
  in_range n buf i ->
  does (window n i buf e) (store n i v) (fun _ => mem_is (st n buf i v) e) [] 0 0.
Proof.
  intros Hr s [v0 Hs]. pose proof (does_store (st n buf i v0) e n i v) as H.
  rewrite in_range_st in H by done. specialize (H Hr s Hs). rewrite st_st in H by done. exact H.
Qed.

Lemma window_refl n i buf e s :
  Forall byte_ok buf -> in_range n buf i -> mem_is buf e s -> window n i buf e s.
Proof. intros Hok Hr Hs. exists (ld n buf i). by rewrite st_ld. Qed.

(** Writing the original value back closes the window. *)
Lemma does_restore buf e n i :
  Forall byte_ok buf -> in_range n buf i ->
  does (window n i buf e) (store n i (ld n buf i)) (fun _ => mem_is buf e) [] 0 0.
Proof.
  intros Hok Hr. eapply does_conseq; [by apply does_store_window|done| |done..].
  intros ? s. by rewrite st_ld.
Qed.

(** Store a value, run the target, count the execution. *)
Lemma counts_try buf e n i v :
  in_range n buf i ->
  counts (window n i buf e) (store n i v;; run;; inc_cur) (fun _ => window n i buf e)
    [st n buf i v] 1.
Proof.
  intros Hr. eapply does_then; [by apply does_store_window|]. intros ?. cbn beta.
  apply does_run_then. eapply does_conseq; [apply (does_inc_cur (mem_is (st n buf i v) e)); auto with afl|done| |done..].
  intros ? s Hs. by exists v.
Qed.

Lemma counts_attempt buf e n i skip cv v :
  in_range n buf i ->
  counts (window n i buf e) (attempt n skip cv i v) (fun _ => window n i buf e)
    (if skip then [] else [st n buf i v]) 1.
Proof.
  intros Hr. unfold attempt. destruct skip; [apply does_sub_max; auto with afl|].
  eapply does_then; [apply does_modify with (Q := window n i buf e); [done|untracked..]|]. intros ?. by apply counts_try.
Qed.

Lemma counts_skip P d : mem_only P -> counts P (sub_max d) (fun _ => P) [] d.
Proof. apply does_sub_max. Qed.

(** ** Consulting the effector map *)

(** [eff_map[EFF_APOS(i)] != 0] *)
Definition eff_at e i : bool :=
  match e !! Z.to_nat (EFF_APOS i) with Some f => negb (f =? 0) | None => false end.

(** Some byte of the [k]-byte window at [i] lies in a flagged block. *)
Definition some_eff e (k : nat) i : bool := existsb (eff_at e) (seqZ i (Z.of_nat k)).

Definition eff_covers e (k : nat) i : Prop :=
  forall j, i <= j < i + Z.of_nat k -> (Z.to_nat (EFF_APOS j) < length e)%nat.

Lemma does_no_eff b e k i :
  eff_covers e k i ->
  does (mem_is b e) (no_eff k i) (fun r s => r = negb (some_eff e k i) /\ mem_is b e s) [] 0 0.
Proof.
  revert i. induction k as [|k IH]; intros i Hc.
  - apply does_ret. intros s Hs. split; [|done]. reflexivity.
  - unfold some_eff. rewrite seqZ_cons by lia.
    replace (Z.pred (Z.of_nat (S k))) with (Z.of_nat k) by lia. rewrite <- Z.add_1_r.
    simpl. eapply does_then with (R := fun r s => r = eff_at e i /\ mem_is b e s).
    + intros s [Hb He]. unfold eff, eff_at. rewrite He.
      destruct (lookup_lt_is_Some_2 e (Z.to_nat (EFF_APOS i))) as [f ->]; [apply Hc; lia|].
      rewrite app_nil_r. repeat split; auto; lia.
    + intros r. apply does_pure. intros ->. destruct (eff_at e i); simpl.
      * by apply does_ret.
      * apply IH. intros j Hj. apply Hc. lia.
Qed.

(** ** Whole stages *)

Definition tallied (f : stage_id -> Z) (l : list (stage_id * Z)) : stage_id -> Z :=
  foldl (fun f kd => bump f kd.1 kd.2) f l.

(** [performs P m Q cands tally]: as [does], for programs made of whole stages, with
    the executions each stage adds to its [stage_cycles]. *)
Definition performs {A} P (m : M W A) (Q : A -> det W -> Prop) (cands : list (list Z))
    (tally : list (stage_id * Z)) : Prop :=
  forall s, P s ->
  match m s with
  | Ret a s' =>
      Q a s' /\ inputs s' = inputs s ++ cands /\ stage_cycles s' = tallied (stage_cycles s) tally
  | Abandon s' => exists k, (0 < k <= length cands)%nat /\ inputs s' = inputs s ++ take k cands
  | UB => False
  end.

Lemma performs_bind {A B} P (m : M W A) (k : A -> M W B) R Q c1 c2 t1 t2 :
  performs P m R c1 t1 -> (forall a, performs (R a) (k a) Q c2 t2) ->
  performs P (m ≫= k) Q (c1 ++ c2) (t1 ++ t2).
Proof.
  intros H1 H2 s Hs. unfold mbind, M_bind. specialize (H1 s Hs).
  destruct (m s) as [a s1|s1|]; [|destruct H1 as (n & Hn & ->)|done].
  - destruct H1 as (HR & Hi & Hc). specialize (H2 a s1 HR).
    destruct (k a s1) as [a2 s2|s2|]; [| |done].
    + destruct H2 as (? & Hi2 & Hc2). unfold tallied. rewrite foldl_app.
      rewrite Hi2, Hi, Hc2, Hc, app_assoc. auto.
    + destruct H2 as (n & Hn & ->). rewrite Hi.
      exists (length c1 + n)%nat. rewrite length_app. split; [lia|].
      rewrite <- app_assoc. f_equal. rewrite take_app_ge by lia. do 2 f_equal. lia.
  - exists n. rewrite length_app. split; [lia|]. f_equal. by rewrite take_app_le by lia.
Qed.

Lemma performs_ret {A} P (Q : A -> det W -> Prop) a :
  (forall s, P s -> Q a s) -> performs P (mret a) Q [] [].
Proof. intros H s Hs. simpl. rewrite app_nil_r. auto. Qed.

Lemma performs_conseq {A} P P' (m : M W A) Q Q' c t :
  performs P' m Q' c t -> (forall s, P s -> P' s) -> (forall a s, Q' a s -> Q a s) ->
  performs P m Q c t.
Proof.
  intros H HP HQ s Hs. specialize (H s (HP s Hs)). destruct (m s); [|done..].
  destruct H as (H & ?). auto.
Qed.

Lemma performs_modify {A} P P' f (m : M W A) Q c t :
  (forall s, P s -> P' (f s)) -> (forall s, inputs (f s) = inputs s) ->
  (forall s, stage_cycles (f s) = stage_cycles s) ->
  performs P' m Q c t -> performs P (modify f;; m) Q c t.
Proof.
  intros HP Hi Hc Hm s Hs. unfold mbind, M_bind; simpl. specialize (Hm (f s) (HP s Hs)).
  rewrite Hi, Hc in Hm. exact Hm.
Qed.

(** A stage accounts for exactly the executions it made. *)
Lemma performs_stage {A} P (m : M W A) Q c tot k :
  mem_only Q -> counts P m (fun _ => Q) c tot ->
  performs (fun s => P s /\ stage_cur s = 0 /\ stage_max s = tot) (m;; end_stage k)
    (fun _ s => Q s /\ stage_cur s = stage_max s) c [(k, Z.of_nat (length c))].
Proof.
  intros HQ Hm s (Hs & Hc & Hx). unfold mbind, M_bind. specialize (Hm s Hs).
  destruct (m s) as [a s1|s1|]; [|by destruct Hm|done].
  destruct Hm as (H1 & Hi & Hc1 & Hm1 & _ & Hcy & _). simpl. repeat split.
  - by apply (HQ s1).
  - rewrite Hc1, Hm1. lia.
  - exact Hi.
  - unfold tallied. simpl. rewrite Hcy, Hm1, Hx. f_equal. lia.
Qed.

Lemma performs_assoc {A B C} P (m : M W A) (k : A -> M W B) (h : B -> M W C) Q c t :
  performs P ((m ≫= k) ≫= h) Q c t -> performs P (m ≫= (fun a => k a ≫= h)) Q c t.
Proof.
  intros H s Hs. specialize (H s Hs). unfold mbind, M_bind in *. by destruct (m s).
Qed.

Lemma performs_gets {A B} P (f : det W -> A) (k : A -> M W B) Q c t :
  (forall a, performs (fun s => a = f s /\ P s) (k a) Q c t) -> performs P (gets f ≫= k) Q c t.
Proof. intros H s Hs. by apply (H (f s) s). Qed.

Lemma performs_run_then {A} P b (k : M W A) Q c t :
  (forall s, P s -> out_buf s = b) -> (forall s w, P s -> P (set_run w s)) ->
  performs P k Q c t -> performs P (run;; k) Q (b :: c) t.
Proof.
  intros Hb HP Hk. apply (performs_bind _ _ _ (fun _ => P) _ [b] c [] t); [|auto].
  intros s Hs. unfold run. destruct (common_fuzz_stuff _ _) as [w []]; unfold inputs; simpl;
    rewrite fmap_app, (Hb s Hs); [|by auto].
  exists 1%nat. split; [lia|done].
Qed.

Lemma performs_counted {A} P (m : M W A) Q c tot :
  counts P m Q c tot ->
  performs (fun s => P s /\ stage_cur s = 0 /\ stage_max s = tot) m
    (fun a s => Q a s /\ stage_cur s = Z.of_nat (length c) /\ stage_max s = Z.of_nat (length c)) c [].
Proof.
  intros Hm s (Hs & Hc & Hx). specialize (Hm s Hs). destruct (m s); [|by destruct Hm|done].
  destruct Hm as (? & ? & H1 & H2 & _ & ? & _). repeat split; try done; lia.
Qed.

Lemma performs_silent {A B} P (m : M W A) (k : A -> M W B) R Q c t :
  does P m R [] 0 0 -> (forall a, performs (R a) (k a) Q c t) -> performs P (m ≫= k) Q c t.
Proof.
  intros Hm Hk. apply (performs_bind P m k R Q [] c [] t); [|done].
  intros s Hs. specialize (Hm s Hs). destruct (m s); [|by destruct Hm|done].
  destruct Hm as (? & ? & _ & _ & _ & ? & _). done.
Qed.

Lemma performs_end P Q k n :
  (forall s s', out_buf s = out_buf s' -> eff_map s = eff_map s' -> runs s = runs s' ->
     stage_cur s = stage_cur s' -> stage_max s = stage_max s' -> P s -> Q s') ->
  performs (fun s => P s /\ stage_max s = n) (end_stage k) (fun _ => Q) [] [(k, n)].
Proof.
  intros HPQ s [Hs <-]. simpl. rewrite app_nil_r. split; [|done]. by apply (HPQ s).
Qed.

Lemma flat_map_sing {A B} (f : A -> B) l : flat_map (fun x => [f x]) l = map f l.
Proof. induction l; simpl; congruence. Qed.

Lemma counts_inc P (m : M W unit) x :
  mem_only P -> does P m (fun _ => P) [x] 0 0 -> counts P (m;; inc_cur) (fun _ => P) [x] 1.
Proof.
  intros HP Hm. exact (does_seq _ _ _ _ _ [x] [] 0 1 0 1 Hm (does_inc_cur P HP)).
Qed.

Lemma performs_for_stage P (body : Z -> M W unit) (C : Z -> list Z) n k :
  mem_only P -> 0 <= n ->
  (forall i, 0 <= i < n -> does P (body i) (fun _ => P) [C i] 0 0) ->
  performs (fun s => P s /\ stage_max s = n) (for_stage body;; end_stage k)
    (fun _ s => P s /\ stage_cur s = stage_max s) (map C (seqZ 0 n)) [(k, n)].
Proof.
  intros HP Hn Hb s [Hs Hx].
  pose proof (counts_for_range P (Z.to_nat n) 0 (fun i => body i;; inc_cur) (fun i => [C i]) 1) as H.
  rewrite flat_map_sing, Z2Nat.id in H by done. specialize (H ltac:(
    intros i Hi; apply counts_inc; [done|apply Hb; lia])).
  pose proof (performs_stage P _ P _ _ k HP H (set_stage 0 n s)) as H'.
  replace (Z.of_nat (length (map C (seqZ 0 n)))) with n in H'
    by (rewrite length_map, length_seqZ; lia).
  unfold for_stage, mbind, M_bind, modify, gets in *. simpl. rewrite Hx.
  apply H'. split; [by apply (HP s)|]. simpl. lia.
Qed.
End logic.


#[export] Hint Resolve mem_only_mem_is mem_only_window mem_only_and : afl.

(** [silent]: drop a leading [modify] of fields no rule tracks. *)
Ltac silent :=
  eapply does_then;
  [ match goal with
    | |- does ?P _ _ _ _ _ => apply does_modify with (Q := P) (dc := 0) (tot := 0)
    end; [ intros ? H; exact H | untracked.. ]
  | intros ? ].
