(* ===== verification/DetFlips.v ===== *)
(** * The walking bit and byte flips

    What "bitflip 1/1" to "bitflip 32/8" run, and that each of them puts the buffer
    back; the effector map "bitflip 8/8" leaves behind. *)
From S2P Require Import Prelude OneHelpers DetStages DetTriples.

(** ** Flips of a buffer *)

(** [FLIP_BIT(b, k)]: bit [k] counted from the most significant bit of byte 0. *)
Definition flip_bit (k : Z) (b : list Z) : list Z :=
  alter (fun x => Z.lxor x (128 ≫ Z.land k 7)) (Z.to_nat (k ≫ 3)) b.

(** [w] adjacent bits from bit [i] on. *)
Definition flip_bits (w : nat) (i : Z) (b : list Z) : list Z :=
  foldl (fun b k => flip_bit k b) b (seqZ i (Z.of_nat w)).

(** The [n]-byte value at [i] with all bits inverted. *)
Definition flip_word (n : nat) (i : Z) (b : list Z) : list Z :=
  st n b i (Z.lxor (ld n b i) (2 ^ (8 * Z.of_nat n) - 1)).

Lemma bit_index k : Z.land k 7 = k `mod` 8 /\ k ≫ 3 = k `div` 8.
Proof.
  split; [change 7 with (Z.ones 3); by rewrite Z.land_ones by lia|].
  by rewrite Z.shiftr_div_pow2 by lia.
Qed.

Lemma flip_mask_ok k : byte_ok (128 ≫ Z.land k 7).
Proof.
  destruct (bit_index k) as [-> _]. pose proof (Z.mod_pos_bound k 8 ltac:(lia)).
  apply byte_ok_shiftr; [lia|]. unfold byte_ok; lia.
Qed.

Lemma length_flip_bit k b : length (flip_bit k b) = length b.
Proof. apply length_alter. Qed.

Lemma lxor_swap x a b : Z.lxor (Z.lxor x a) b = Z.lxor (Z.lxor x b) a.
Proof. rewrite !Z.lxor_assoc. f_equal. apply Z.lxor_comm. Qed.

Lemma lxor_cancel x a : Z.lxor (Z.lxor x a) a = x.
Proof. by rewrite Z.lxor_assoc, Z.lxor_nilpotent, Z.lxor_0_r. Qed.

Lemma flip_bit_comm j k b : flip_bit j (flip_bit k b) = flip_bit k (flip_bit j b).
Proof.
  unfold flip_bit. destruct (decide (Z.to_nat (j ≫ 3) = Z.to_nat (k ≫ 3))) as [->|Hne].
  - rewrite !list_alter_alter_eq. generalize (Z.to_nat (k ≫ 3)) as i. intros i.
    apply list_eq. intros j'. destruct (decide (i = j')) as [->|Hne].
    + rewrite !list_lookup_alter_eq. destruct (b !! j'); simpl; [|done]. f_equal. apply lxor_swap.
    + by rewrite !list_lookup_alter_ne by done.
  - by apply list_alter_alter_ne.
Qed.

Lemma flip_bit_twice k b : flip_bit k (flip_bit k b) = b.
Proof.
  unfold flip_bit. rewrite list_alter_alter_eq. apply list_alter_id. intros x. apply lxor_cancel.
Qed.

Lemma flip_bit_ok k b : Forall byte_ok b -> Forall byte_ok (flip_bit k b).
Proof.
  intros Hok. apply Forall_alter; [done|]. intros x _ Hx. apply byte_ok_lxor; [done|].
  apply flip_mask_ok.
Qed.

Lemma flip_bits_comm w i k b : flip_bit k (flip_bits w i b) = flip_bits w i (flip_bit k b).
Proof.
  unfold flip_bits. generalize (seqZ i (Z.of_nat w)). intros l. revert b.
  induction l as [|j l IH]; intros b; simpl; [done|]. by rewrite IH, flip_bit_comm.
Qed.

(** Flipping the same bits again, in the same order, undoes the change. *)
Lemma flip_bits_twice w i b : flip_bits w i (flip_bits w i b) = b.
Proof.
  unfold flip_bits. generalize (seqZ i (Z.of_nat w)) as l. intros l. revert b.
  induction l as [|j l IH]; intros b; simpl; [done|].
  assert (Hc : forall b', flip_bit j (foldl (fun b k => flip_bit k b) b' l)
               = foldl (fun b k => flip_bit k b) (flip_bit j b') l).
  { clear. induction l as [|k l IH]; intros b'; simpl; [done|]. by rewrite IH, flip_bit_comm. }
  by rewrite Hc, flip_bit_twice, IH.
Qed.

Lemma flip_bits_S w i b : flip_bits (S w) i b = flip_bits w (i + 1) (flip_bit i b).
Proof.
  unfold flip_bits. rewrite seqZ_cons by lia. cbn [foldl]. do 2 f_equal; lia.
Qed.

Lemma flip_bits_1 i b : flip_bits 1 i b = flip_bit i b.
Proof. by rewrite flip_bits_S. Qed.
Lemma flip_bits_2 i b : flip_bits 2 i b = flip_bit (i + 1) (flip_bit i b).
Proof. by rewrite flip_bits_S, flip_bits_1. Qed.
Lemma flip_bits_4 i b :
  flip_bits 4 i b = flip_bit (i + 3) (flip_bit (i + 2) (flip_bit (i + 1) (flip_bit i b))).
Proof. rewrite !flip_bits_S, <- !Z.add_assoc. done. Qed.

Lemma st_1 b i v : in_range 1 b i -> st 1 b i v = <[Z.to_nat i := u8 v]> b.
Proof.
  intros [Hi Hl]. unfold st. rewrite insert_take_drop by lia. f_equal.
  change (Z.of_nat 1) with 1. replace (Z.to_nat i + 1)%nat with (S (Z.to_nat i)) by lia.
  unfold word_le. simpl. f_equal. unfold u8. by rewrite Z.land_ones by lia.
Qed.

Lemma ld_1 b i x : Forall byte_ok b -> 0 <= i -> b !! Z.to_nat i = Some x -> ld 1 b i = x.
Proof.
  intros Hok Hi Hx. unfold ld.
  rewrite <- (take_drop_middle b (Z.to_nat i) x Hx) at 1.
  assert (length (take (Z.to_nat i) b) = Z.to_nat i).
  { apply lookup_lt_Some in Hx. rewrite length_take. lia. }
  rewrite drop_app_length' by done. cbn [take].
  rewrite le_word_cons by (by eapply Forall_lookup_1). rewrite take_0, le_word_nil. lia.
Qed.

Lemma u8_id x : byte_ok x -> u8 x = x.
Proof. intros Hx. by apply Z.mod_small. Qed.

Lemma flip_bit_st k b :
  Forall byte_ok b -> in_range 1 b (k ≫ 3) ->
  st 1 b (k ≫ 3) (Z.lxor (ld 1 b (k ≫ 3)) (128 ≫ Z.land k 7)) = flip_bit k b.
Proof.
  intros Hok Hr. rewrite st_1 by done. destruct Hr as [Hi Hl].
  destruct (lookup_lt_is_Some_2 b (Z.to_nat (k ≫ 3))) as [x Hx]; [lia|].
  erewrite ld_1 by done. unfold flip_bit. apply list_eq. intros j.
  destruct (decide (j = Z.to_nat (k ≫ 3))) as [->|Hne].
  - rewrite list_lookup_insert_eq, list_lookup_alter_eq, Hx by lia. simpl. f_equal. apply u8_id.
    apply byte_ok_lxor; [by eapply Forall_lookup_1|apply flip_mask_ok].
  - by rewrite list_lookup_insert_ne, list_lookup_alter_ne by done.
Qed.

Lemma lxor_range n x y : 0 <= n -> 0 <= x < 2 ^ n -> 0 <= y < 2 ^ n -> 0 <= Z.lxor x y < 2 ^ n.
Proof.
  intros Hn Hx Hy. apply bits_bounded; [lia|].
  intros i Hi. rewrite Z.lxor_spec, !(bounded_testbit_high _ n) by lia. done.
Qed.

Lemma flip_word_twice n i b :
  Forall byte_ok b -> in_range n b i -> flip_word n i (flip_word n i b) = b.
Proof.
  intros Hok Hr. unfold flip_word. rewrite ld_st, st_st by done.
  pose proof (Z.pow_pos_nonneg 2 (8 * Z.of_nat n)) as Hp.
  pose proof (ld_bound n b i Hok Hr) as Hb.
  rewrite Z.mod_small by (apply lxor_range; lia).
  by rewrite lxor_cancel, st_ld.
Qed.

(** ** Well-formed buffers *)

Definition buf_ok (len : Z) (b : list Z) : Prop := Forall byte_ok b /\ Z.of_nat (length b) = len.

Lemma buf_ok_flip_bit len k b : buf_ok len b -> buf_ok len (flip_bit k b).
Proof. intros [H1 H2]. split; [by apply flip_bit_ok|by rewrite length_flip_bit]. Qed.

Lemma buf_ok_st len n i v b : in_range n b i -> buf_ok len b -> buf_ok len (st n b i v).
Proof. intros Hr [H1 H2]. split; [by apply st_ok|by rewrite length_st]. Qed.

Lemma buf_ok_range len n i b :
  buf_ok len b -> 0 <= i -> i + Z.of_nat n <= len -> in_range n b i.
Proof. intros [_ H] ??. unfold in_range. lia. Qed.

Lemma buf_ok_bit len k b : buf_ok len b -> 0 <= k < 8 * len -> in_range 1 b (k ≫ 3).
Proof.
  intros [_ H] Hk. destruct (bit_index k) as [_ ->]. unfold in_range. dlia.
Qed.

Lemma buf_ok_bytes len b : buf_ok len b -> Forall byte_ok b.
Proof. by intros []. Qed.

#[export] Hint Resolve buf_ok_flip_bit buf_ok_range buf_ok_bit buf_ok_bytes : afl.

(** ** What the flip stages run *)

Definition flips (w : nat) (len : Z) (b : list Z) : list (list Z) :=
  map (fun i => flip_bits w i b) (seqZ 0 (8 * len - (Z.of_nat w - 1))).

Definition byte_flips (len : Z) (b : list Z) : list (list Z) :=
  map (fun i => flip_word 1 i b) (seqZ 0 len).

(** Whole-word flips at the positions the effector map keeps. *)
Definition word_flips (n : nat) (len : Z) (e b : list Z) : list (list Z) :=
  flat_map (fun i => if some_eff e n i then [flip_word n i b] else [])
    (seqZ 0 (len - (Z.of_nat n - 1))).

Section flips.
Context {W : Type} `{!Fuzzer W}.
Implicit Types (b e buf : list Z).

Lemma does_FLIP_BIT len b e k :
  buf_ok len b -> 0 <= k < 8 * len ->
  does (mem_is (W:=W) b e) (FLIP_BIT k) (fun _ => mem_is (flip_bit k b) e) [] 0 0.
Proof.
  intros Hb Hk. pose proof (buf_ok_bit len k b Hb Hk) as Hr. unfold FLIP_BIT.
  eapply does_then; [apply (does_load _ b); [by intros s []|done]|].
  intros x. apply does_pure. intros ->. rewrite <- flip_bit_st by eauto with afl.
  by apply does_store.
Qed.

Lemma does_FLIP_BIT_then {A} len b e k (m : M W A) Q c dc tot :
  buf_ok len b -> 0 <= k < 8 * len -> does (mem_is (flip_bit k b) e) m Q c dc tot ->
  does (mem_is b e) (FLIP_BIT k;; m) Q c dc tot.
Proof.
  intros Hb Hk Hm. eapply does_then; [by apply (does_FLIP_BIT len)|]. intros []. exact Hm.
Qed.

Ltac flip_step len := apply (does_FLIP_BIT_then len); [eauto 10 with afl|lia|].
Ltac flip_last len :=
  match goal with |- does (mem_is ?b ?e) _ _ _ _ _ =>
    eapply does_conseq; [apply (does_FLIP_BIT len b e); [eauto 10 with afl|lia]|done| |done..]
  end.

(** The body of "bitflip 2/1". *)
Lemma does_flip2_body len buf e i :
  buf_ok len buf -> 0 <= i < 8 * len - 1 ->
  does (mem_is (W:=W) buf e)
    (modify (set_byte (i ≫ 3));; FLIP_BIT i;; FLIP_BIT (i + 1);; run;; FLIP_BIT i;; FLIP_BIT (i + 1))
    (fun _ => mem_is buf e) [flip_bits 2 i buf] 0 0.
Proof.
  intros Hb Hi. rewrite flip_bits_2. silent. do 2 flip_step len.
  apply does_run_then. flip_step len. flip_last len.
  intros [] s. rewrite <- !flip_bits_2. by rewrite flip_bits_twice.
Qed.

(** The body of "bitflip 4/1". *)
Lemma does_flip4_body len buf e i :
  buf_ok len buf -> 0 <= i < 8 * len - 3 ->
  does (mem_is (W:=W) buf e)
    (modify (set_byte (i ≫ 3));;
     FLIP_BIT i;; FLIP_BIT (i + 1);; FLIP_BIT (i + 2);; FLIP_BIT (i + 3);; run;;
     FLIP_BIT i;; FLIP_BIT (i + 1);; FLIP_BIT (i + 2);; FLIP_BIT (i + 3))
    (fun _ => mem_is buf e) [flip_bits 4 i buf] 0 0.
Proof.
  intros Hb Hi. rewrite flip_bits_4. silent. do 4 flip_step len.
  apply does_run_then. do 3 flip_step len. flip_last len.
  intros [] s. rewrite <- !flip_bits_4. by rewrite flip_bits_twice.
Qed.

(** A stage's result: the buffer is back, and [stage_cur] has met [stage_max]. *)
Definition stage_post b e (_ : unit) (s : det W) : Prop :=
  mem_is b e s /\ stage_cur s = stage_max s.

Lemma performs_flip2 len buf e :
  buf_ok len buf -> 1 <= len ->
  performs (mem_is buf e) (stage_flip2 len) (stage_post buf e)
    (flips 2 len buf) [(STAGE_FLIP2, 8 * len - 1)].
Proof.
  intros Hb Hl. unfold stage_flip2. rewrite Z.shiftl_mul_pow2, (Z.mul_comm len) by lia.
  eapply performs_modify; [|done..|apply (performs_for_stage (mem_is buf e)); [auto with afl|lia|]].
  - intros s Hs. split; [exact Hs|done].
  - intros i Hi. by apply (does_flip2_body len).
Qed.

Lemma performs_flip4 len buf e :
  buf_ok len buf -> 1 <= len ->
  performs (mem_is buf e) (stage_flip4 len) (stage_post buf e)
    (flips 4 len buf) [(STAGE_FLIP4, 8 * len - 3)].
Proof.
  intros Hb Hl. unfold stage_flip4. rewrite Z.shiftl_mul_pow2, (Z.mul_comm len) by lia.
  eapply performs_modify; [|done..|apply (performs_for_stage (mem_is buf e)); [auto with afl|lia|]].
  - intros s Hs. split; [exact Hs|done].
  - intros i Hi. by apply (does_flip4_body len).
Qed.

(** ** Whole-word flips *)

Lemma does_xor_at b e n i :
  in_range n b i ->
  does (mem_is (W:=W) b e) (xor_at n i (2 ^ (8 * Z.of_nat n) - 1))
    (fun _ => mem_is (flip_word n i b) e) [] 0 0.
Proof.
  intros Hr. unfold xor_at. eapply does_then; [apply (does_load _ b); [by intros s []|done]|].
  intros x. apply does_pure. intros ->. by apply does_store.
Qed.

Lemma in_range_flip_word n b i : in_range n b i -> in_range n (flip_word n i b) i.
Proof. intros Hr. unfold flip_word. by rewrite in_range_st. Qed.

(** Flipping back restores the buffer. *)
Lemma does_xor_back b e n i :
  Forall byte_ok b -> in_range n b i ->
  does (mem_is (W:=W) (flip_word n i b) e) (xor_at n i (2 ^ (8 * Z.of_nat n) - 1))
    (fun _ => mem_is b e) [] 0 0.
Proof.
  intros Hok Hr. eapply does_conseq;
    [apply does_xor_at; by apply in_range_flip_word|done| |done..].
  intros [] s. by rewrite flip_word_twice.
Qed.

(** The effector map has a cell for every byte of the test case. *)
Definition eff_ok (len : Z) e : Prop := EFF_ALEN len <= Z.of_nat (length e).

Lemma EFF_APOS_div i : EFF_APOS i = i `div` 8.
Proof. unfold EFF_APOS, EFF_MAP_SCALE2. by rewrite Z.shiftr_div_pow2 by lia. Qed.

Lemma EFF_ALEN_div l : EFF_ALEN l = (l + 7) `div` 8.
Proof.
  unfold EFF_ALEN, EFF_REM. rewrite EFF_APOS_div.
  change (1 ≪ EFF_MAP_SCALE2 - 1) with 7. destruct (bit_index l) as [-> _].
  destruct (Z.eqb_spec (l `mod` 8) 0); dlia.
Qed.

Lemma eff_ok_covers len e n i :
  eff_ok len e -> 0 <= i -> i + Z.of_nat n <= len -> eff_covers e n i.
Proof.
  unfold eff_ok. rewrite EFF_ALEN_div. intros He Hi Hn j Hj. rewrite EFF_APOS_div. dlia.
Qed.

Lemma counts_walk_body len buf e n i :
  buf_ok len buf -> eff_ok len e -> 0 <= i -> i + Z.of_nat n <= len ->
  counts (mem_is (W:=W) buf e)
    (dull ← no_eff n i;
     if (dull : bool) then sub_max 1
     else
       modify (set_byte i);;
       xor_at n i (2 ^ (8 * Z.of_nat n) - 1);;
       run;;
       inc_cur;;
       xor_at n i (2 ^ (8 * Z.of_nat n) - 1))
    (fun _ => mem_is buf e) (if some_eff e n i then [flip_word n i buf] else []) 1.
Proof.
  intros Hb He Hi Hn. assert (Hr : in_range n buf i) by eauto with afl.
  eapply does_then; [apply does_no_eff; by eapply eff_ok_covers|].
  intros dull. apply does_pure. intros ->. destruct (some_eff e n i); simpl.
  - silent. eapply does_then; [by apply does_xor_at|]. intros []. apply does_run_then.
    eapply (does_seq _ _ _ _ _ [] [] 1 0 1 0); [apply does_inc_cur; auto with afl|].
    apply does_xor_back; eauto with afl.
  - apply does_sub_max. auto with afl.
Qed.

Lemma performs_walk len buf e n k :
  (1 <= n)%nat -> buf_ok len buf -> eff_ok len e -> Z.of_nat n <= len ->
  performs (mem_is buf e) (walk_words n (2 ^ (8 * Z.of_nat n) - 1) len;; end_stage k)
    (stage_post buf e) (word_flips n len e buf)
    [(k, Z.of_nat (length (word_flips n len e buf)))].
Proof.
  intros Hn Hb He Hl s Hs. set (N := len - (Z.of_nat n - 1)).
  pose proof (counts_for_range (mem_is buf e) (Z.to_nat N) 0 _
    (fun i => if some_eff e n i then [flip_word n i buf] else []) 1
    ltac:(intros i Hi; apply (counts_walk_body len buf e n i Hb He); lia)) as H.
  rewrite Z2Nat.id in H by lia.
  exact (performs_stage _ _ _ _ _ k (mem_only_mem_is buf e) H (set_stage 0 N s)
           (conj Hs (conj eq_refl (eq_sym (Z.mul_1_r N))))).
Qed.

Lemma performs_flip16 len buf e :
  buf_ok len buf -> eff_ok len e -> 2 <= len ->
  performs (mem_is buf e) (stage_flip16 len) (stage_post buf e) (word_flips 2 len e buf)
    [(STAGE_FLIP16, Z.of_nat (length (word_flips 2 len e buf)))].
Proof. intros. by apply performs_walk; [lia|..]. Qed.

Lemma performs_flip32 len buf e :
  buf_ok len buf -> eff_ok len e -> 4 <= len ->
  performs (mem_is buf e) (stage_flip32 len) (stage_post buf e) (word_flips 4 len e buf)
    [(STAGE_FLIP32, Z.of_nat (length (word_flips 4 len e buf)))].
Proof. intros. by apply performs_walk; [lia|..]. Qed.

(** ** The walking bit and its token detection *)

Definition token_ok (a_collect : list Z) (a_len : Z) : Prop :=
  length a_collect = Z.to_nat MAX_AUTO_EXTRA /\ 0 <= a_len.

(** A step that may tell the fuzzer something but runs nothing and keeps the memory. *)
Definition quiet {A} buf e (m : M W A) (φ : A -> Prop) : Prop :=
  does (mem_is buf e) m (fun a s => φ a /\ mem_is buf e s) [] 0 0.

Lemma quiet_ret {A} buf e (a : A) (φ : A -> Prop) : φ a -> quiet buf e (mret a) φ.
Proof. intros. by apply does_ret. Qed.

Lemma quiet_bind {A B} buf e (m : M W A) (k : A -> M W B) φ ψ :
  quiet buf e m φ -> (forall a, φ a -> quiet buf e (k a) ψ) -> quiet buf e (m ≫= k) ψ.
Proof. intros Hm Hk. eapply does_then; [exact Hm|]. intros a. apply does_pure, Hk. Qed.

Lemma quiet_gets {A} buf e (f : det W -> A) : quiet buf e (gets f) (fun _ => True).
Proof. intros s Hs. simpl. rewrite app_nil_r. repeat split; try apply Hs; lia. Qed.

Lemma quiet_offer buf e a_collect a_len : quiet buf e (offer_token a_collect a_len) (fun _ => True).
Proof.
  unfold offer_token. case_match; [|by apply quiet_ret].
  eapply does_conseq; [apply does_modify with (Q := mem_is buf e) (dc := 0) (tot := 0)|..];
    try done; untracked.
Qed.

Lemma quiet_collect buf e len i a_collect a_len :
  buf_ok len buf -> 0 <= i < 8 * len -> token_ok a_collect a_len ->
  quiet buf e (collect_byte i a_collect a_len) (fun r => token_ok r.1 r.2).
Proof.
  intros Hb Hi [Hl Ha]. unfold collect_byte.
  destruct (Z.ltb_spec a_len MAX_AUTO_EXTRA) as [Hlt|];
    [|apply quiet_ret; split; simpl; [done|lia]].
  eapply quiet_bind with (φ := fun _ => True).
  { eapply does_conseq; [apply (does_load (mem_is buf e) buf); [by intros s []|eauto with afl]|done| |done..].
    by intros a s [_ ?]. }
  intros b _. eapply quiet_bind with (φ := fun c => length c = length a_collect).
  - intros s Hs. unfold put_collect. rewrite decide_True by lia. rewrite app_nil_r.
    repeat split; try apply Hs; try lia. by rewrite length_insert.
  - intros c Hc. apply quiet_ret. split; simpl; [congruence|lia].
Qed.

Lemma quiet_detect buf e len i prev prev0 a_collect a_len :
  buf_ok len buf -> 0 <= i < 8 * len -> token_ok a_collect a_len ->
  quiet buf e (detect_token i prev prev0 a_collect a_len)
    (fun r => token_ok r.1.2 r.2).
Proof.
  intros Hb Hi Ht. unfold detect_token.
  eapply quiet_bind; [apply quiet_gets|]. intros cksum _.
  eapply quiet_bind; [apply quiet_gets|]. intros mx _.
  eapply quiet_bind with (φ := fun r => token_ok r.1.2 r.2).
  - case_match; [|case_match; [|by apply quiet_ret]].
    + eapply quiet_bind; [by eapply quiet_collect|]. intros [c l] Hc.
      eapply quiet_bind; [apply quiet_offer|]. intros ? _. by apply quiet_ret.
    + eapply quiet_bind; [apply quiet_offer|]. intros ? _. apply quiet_ret.
      split; [apply Ht|done].
  - intros [[p c] l] Hc. case_match; [|by apply quiet_ret].
    eapply quiet_bind; [by eapply quiet_collect|]. intros [c' l'] Hc'. by apply quiet_ret.
Qed.

Lemma counts_flip1_loop len buf e nim n i prev prev0 a_collect a_len :
  buf_ok len buf -> 0 <= i -> i + Z.of_nat n <= 8 * len -> token_ok a_collect a_len ->
  counts (mem_is buf e) (flip1_loop n i nim prev prev0 a_collect a_len) (fun _ => mem_is buf e)
    (map (fun i => flip_bits 1 i buf) (seqZ i (Z.of_nat n))) (Z.of_nat n).
Proof.
  revert i prev a_collect a_len. induction n as [|n IH]; intros i prev a_collect a_len Hb Hi Hn Ht.
  { by apply does_ret. }
  rewrite seqZ_cons by lia. replace (Z.pred (Z.of_nat (S n))) with (Z.of_nat n) by lia.
  cbn [flip1_loop map]. silent. rewrite flip_bits_1. flip_step len. apply does_run_then.
  flip_step len. rewrite flip_bit_twice.
  eapply does_then with (R := fun r s => token_ok r.1.2 r.2 /\ mem_is buf e s).
  - case_match; [apply (quiet_detect buf e len); [done|lia|done]|by apply quiet_ret].
  - intros [[p c] l]. apply does_pure. intros Hc.
    rewrite <- Z.add_1_r. specialize (IH (i + 1) p c l Hb ltac:(lia) ltac:(lia) Hc).
    eapply does_conseq; [apply (does_inc_then (mem_is buf e)); [auto with afl|exact IH]|done|done
      |done|cbn [length]; lia|lia].
Qed.

(** "bitflip 1/1" first runs the unmodified input, then every single-bit flip; only
    the flips are counted as cycles of the stage. *)
Lemma performs_flip1 len buf e nim :
  buf_ok len buf -> 1 <= len ->
  performs (mem_is buf e) (stage_flip1 len nim) (fun _ s => stage_post buf e tt s)
    (buf :: flips 1 len buf) [(STAGE_FLIP1, 8 * len)].
Proof.
  intros Hb Hl. unfold stage_flip1. rewrite Z.shiftl_mul_pow2, (Z.mul_comm len) by lia.
  change (2 ^ 3 * len) with (8 * len).
  apply performs_modify with (P' := fun s => mem_is buf e s /\ stage_max s = 8 * len); [|done..|].
  { intros s Hs. by split. }
  do 2 (apply performs_modify with (P' := fun s => mem_is buf e s /\ stage_max s = 8 * len);
        [intros s Hs; exact Hs|done..|]).
  apply performs_run_then; [by intros s [[]]|auto|].
  apply performs_gets. intros prev.
  apply performs_modify with
    (P' := fun s => mem_is buf e s /\ stage_cur s = 0 /\ stage_max s = 8 * len); [|done..|].
  { intros s (_ & Hs & Hx). by split. }
  apply performs_gets. intros n. apply performs_assoc.
  intros s (-> & Hs & Hc & Hx). rewrite Hx.
  pose proof (counts_flip1_loop len buf e nim (Z.to_nat (8 * len)) 0 prev prev (replicate 32 0) 0
    Hb ltac:(lia) ltac:(lia) (conj eq_refl (Z.le_refl 0))) as H.
  rewrite Z2Nat.id in H by lia.
  pose proof (performs_stage _ _ _ _ _ STAGE_FLIP1 (mem_only_mem_is buf e) H) as H'.
  replace (Z.of_nat (length (map _ (seqZ 0 (8 * len))))) with (8 * len) in H'
    by (rewrite length_map, length_seqZ; lia).
  pose proof (performs_bind _ _ (fun _ => mret prev) _ (fun _ s => stage_post buf e tt s) _ [] _ []
    H' ltac:(intros a; apply performs_ret; done)) as H2.
  rewrite !app_nil_r in H2. unfold flips. rewrite Z.sub_0_r. exact (H2 s (conj Hs (conj Hc Hx))).
Qed.
End flips.
