(* ===== verification/DetEffector.v ===== *)
(** * The effector map of "bitflip 8/8"

    While it inverts each byte in turn, the stage marks the 8-byte blocks whose
    change made the target take another path; the later stages skip the rest. *)
From S2P Require Import Prelude OneHelpers DetStages DetTriples DetFlips.

(** ** What the stage computes *)

(** The byte made a difference, or nothing is measured: "just flag everything without
    wasting time on checksums". *)
Definition effective (len : Z) (nim : bool) (prev cksum : Z) : bool :=
  nim || (len <? EFF_MIN_LEN) || negb (cksum =? prev).

(** Mark the blocks of the bytes from [i] on, given the checksums of their runs; the
    second component counts the blocks that were not marked before. *)
Fixpoint mark (len : Z) (nim : bool) (prev : Z) (e : list Z) (i : Z) (cks : list Z)
  : list Z * Z :=
  match cks with
  | [] => (e, 0)
  | ck :: cks =>
      if negb (eff_at e i) && effective len nim prev ck
      then
        let '(e', n) := mark len nim prev (<[Z.to_nat (EFF_APOS i) := 1]> e) (i + 1) cks in
        (e', 1 + n)
      else mark len nim prev e (i + 1) cks
  end.

Lemma eff_at_insert e i j :
  0 <= i -> 0 <= j -> (Z.to_nat (EFF_APOS i) < length e)%nat ->
  eff_at (<[Z.to_nat (EFF_APOS i) := 1]> e) j
  = bool_decide (EFF_APOS i = EFF_APOS j) || eff_at e j.
Proof.
  intros Hi Hj Hl. unfold eff_at. rewrite !EFF_APOS_div in *.
  case_bool_decide as Heq; simpl.
  - by rewrite <- Heq, list_lookup_insert_eq.
  - rewrite list_lookup_insert_ne; [done|]. intros Hc. apply Heq.
    apply Z2Nat.inj in Hc; dlia.
Qed.

Lemma mark_length len nim prev e i cks : length (mark len nim prev e i cks).1 = length e.
Proof.
  revert e i. induction cks as [|ck cks IH]; intros e i; simpl; [done|].
  case_match; [|apply IH]. destruct (mark _ _ _ _ _ _) as [e' n] eqn:E. simpl.
  replace e' with (mark len nim prev (<[Z.to_nat (EFF_APOS i):=1]> e) (i + 1) cks).1 by by rewrite E.
  by rewrite IH, length_insert.
Qed.

(** Some run from [i] on made a difference in the block of byte [j]. *)
Definition touched (len : Z) (nim : bool) (prev i : Z) (cks : list Z) (j : Z) : Prop :=
  exists k ck, cks !! k = Some ck /\ EFF_APOS (i + Z.of_nat k) = EFF_APOS j
    /\ effective len nim prev ck = true.

Lemma touched_cons len nim prev i ck cks j :
  touched len nim prev i (ck :: cks) j <->
  (EFF_APOS i = EFF_APOS j /\ effective len nim prev ck = true)
  \/ touched len nim prev (i + 1) cks j.
Proof.
  split.
  - intros ([|k] & ck' & Hk & Ha & He).
    + injection Hk as <-. left. rewrite Z.add_0_r in Ha. done.
    + right. exists k, ck'. split; [done|]. split; [|done]. rewrite <- Ha. f_equal. lia.
  - intros [[Ha He]|(k & ck' & Hk & Ha & He)].
    + exists 0%nat, ck. rewrite Z.add_0_r. done.
    + exists (S k), ck'. split; [done|]. split; [|done]. rewrite <- Ha. f_equal. lia.
Qed.

(** A byte's block ends up marked iff it was marked before or one of the block's bytes
    made a difference. *)
Lemma eff_at_mark len nim prev e i cks j :
  0 <= i -> 0 <= j -> eff_covers e (length cks) i ->
  eff_at (mark len nim prev e i cks).1 j = true <->
  eff_at e j = true \/ touched len nim prev i cks j.
Proof.
  revert e i. induction cks as [|ck cks IH]; intros e i Hi Hj Hc; simpl.
  { split; [tauto|]. intros [?|(k & ck & ? & _)]; [done|]. by rewrite lookup_nil in *. }
  assert (Hc' : forall x, eff_covers (<[Z.to_nat (EFF_APOS i) := x]> e) (length cks) (i + 1)).
  { intros x j' Hj'. rewrite length_insert. apply Hc. simpl. lia. }
  assert (Hc0 : eff_covers e (length cks) (i + 1)) by (intros j' Hj'; apply Hc; simpl; lia).
  assert (Hlen : (Z.to_nat (EFF_APOS i) < length e)%nat) by (apply Hc; simpl; lia).
  rewrite touched_cons. destruct (eff_at e i) eqn:Hei, (effective len nim prev ck) eqn:Hef; simpl.
  - rewrite (IH e) by (done || lia). split; [tauto|].
    intros [?|[[Ha _]|?]]; [tauto| |tauto]. left. unfold eff_at in *. by rewrite <- Ha.
  - rewrite (IH e) by (done || lia). intuition done.
  - destruct (mark _ _ _ _ _ _) as [e' n] eqn:E. simpl.
    replace e' with (mark len nim prev (<[Z.to_nat (EFF_APOS i):=1]> e) (i + 1) cks).1 by by rewrite E.
    rewrite IH by (done || lia). rewrite eff_at_insert by done.
    rewrite orb_true_iff, bool_decide_eq_true. tauto.
  - rewrite (IH e) by (done || lia). intuition done.
Qed.

Lemma lnot_ne p : u64 (Z.lnot p) <> p.
Proof.
  unfold u64. rewrite Z.lnot_eq_pred_opp || unfold Z.lnot. intros H. dlia.
Qed.

Section effector.
Context {W : Type} `{!Fuzzer W}.
Implicit Types (b e buf : list Z) (r : list (list Z * Z)).

(** Memory, recorded runs and the checksum of the last trace. *)
Definition traced b e r ck (s : det W) : Prop :=
  mem_is b e s /\ runs s = r /\ trace_cksum (world s) = ck.

Lemma does_exists {A X} (P : X -> det W -> Prop) (m : M W A) Q c dc tot :
  (forall x, does (P x) m Q c dc tot) -> does (fun s => exists x, P x s) m Q c dc tot.
Proof. intros H s [x Hs]. by apply (H x). Qed.

Lemma traced_store b e r ck n i v :
  in_range n b i ->
  does (traced b e r ck) (store n i v) (fun _ => traced (st n b i v) e r ck) [] 0 0.
Proof.
  intros Hr s ((Hb & He) & Hrs & Hck). unfold store. rewrite Hb, decide_True by done.
  rewrite app_nil_r. repeat split; simpl; auto; lia.
Qed.

Lemma traced_xor b e r ck i :
  in_range 1 b i ->
  does (traced b e r ck) (xor_at 1 i 0xFF) (fun _ => traced (flip_word 1 i b) e r ck) [] 0 0.
Proof.
  intros Hr. eapply does_then; [apply (does_load _ b); [by intros s [[]]|done]|].
  intros x. apply does_pure. intros ->. by apply traced_store.
Qed.

Lemma traced_run b e r ck :
  does (traced b e r ck) run (fun _ s => exists ck', traced b e (r ++ [(b, ck')]) ck' s) [b] 0 0.
Proof.
  intros s ((Hb & He) & Hrs & Hck). unfold run. destruct (common_fuzz_stuff _ _) as [w []].
  - split; [|done]. exists 1%nat. split; [simpl; lia|].
    unfold inputs; simpl. by rewrite fmap_app, Hb.
  - unfold inputs; simpl. rewrite fmap_app, Hb. repeat split; try lia.
    exists (trace_cksum w). repeat split; simpl; try done. by rewrite Hrs, Hb.
Qed.

Lemma traced_eff b e r ck i :
  eff_covers e 1 i ->
  does (traced b e r ck) (eff i) (fun f s => f = eff_at e i /\ traced b e r ck s) [] 0 0.
Proof.
  intros Hc s Hs. unfold eff, eff_at. destruct (Hs) as ((_ & ->) & _).
  destruct (lookup_lt_is_Some_2 e (Z.to_nat (EFF_APOS i))) as [f ->]; [apply Hc; lia|].
  rewrite app_nil_r. repeat split; try apply Hs; lia.
Qed.

Lemma traced_set_eff b e r ck k :
  0 <= k < Z.of_nat (length e) ->
  does (traced b e r ck) (set_eff_at k) (fun _ => traced b (<[Z.to_nat k := 1]> e) r ck) [] 0 0.
Proof.
  intros Hk s ((Hb & He) & Hrs & Hck). unfold set_eff_at. rewrite He, decide_True by done.
  rewrite app_nil_r. repeat split; simpl; auto; lia.
Qed.

(** The decision about one byte, after its run. *)
Lemma traced_flag b e r ck len nim prev i cnt :
  eff_covers e 1 i -> 0 <= i ->
  does (traced b e r ck)
    (flag_byte i len nim prev cnt)
    (fun cnt' s =>
       if negb (eff_at e i) && effective len nim prev ck
       then cnt' = cnt + 1 /\ traced b (<[Z.to_nat (EFF_APOS i) := 1]> e) r ck s
       else cnt' = cnt /\ traced b e r ck s) [] 0 0.
Proof.
  intros Hc Hi. assert (Hk : 0 <= EFF_APOS i < Z.of_nat (length e)).
  { specialize (Hc i ltac:(lia)). rewrite EFF_APOS_div in *. dlia. }
  eapply does_then; [by apply traced_eff|]. intros f. apply does_pure. intros ->.
  destruct (eff_at e i); cbn [negb andb]; [by apply does_ret|].
  eapply does_then with
    (R := fun c s => negb (c =? prev) = effective len nim prev ck /\ traced b e r ck s).
  - unfold effective. destruct nim; cbn [negb andb orb].
    + apply does_ret. intros s Hs. split; [|done].
      by rewrite (proj2 (Z.eqb_neq _ _) (lnot_ne prev)).
    + rewrite <- Z.leb_antisym || rewrite Z.ltb_antisym.
      destruct (EFF_MIN_LEN <=? len) eqn:E.
      * intros s Hs. simpl. rewrite app_nil_r. destruct (Hs) as (_ & _ & ->).
        repeat split; try apply Hs; lia.
      * apply does_ret. intros s Hs. split; [|done].
        by rewrite (proj2 (Z.eqb_neq _ _) (lnot_ne prev)).
  - intros c. apply does_pure. intros ->. destruct (effective len nim prev ck).
    + eapply does_then; [by apply traced_set_eff|]. intros []. by apply does_ret.
    + by apply does_ret.
Qed.

Lemma mem_only_traced {A} b e r ck (m : M W A) Q c dc tot :
  does (traced b e r ck) m Q c dc tot -> does (traced b e r ck) (inc_cur;; m) Q c (1 + dc) (1 + tot).
Proof.
  intros Hm. refine (does_seq _ _ m (traced b e r ck) _ [] c 1 dc 1 tot _ Hm).
  apply does_modify; untracked.
Qed.

Lemma eff_covers_insert e n i k x : eff_covers (<[k := x]> e) n i <-> eff_covers e n i.
Proof. unfold eff_covers. by rewrite length_insert. Qed.

(** The loop of "bitflip 8/8", with the checksums its runs produced. *)
Definition flip8_post len nim prev buf e r i n cnt (cnt' : Z) (s : det W) : Prop :=
  exists cks ck, length cks = n
    /\ traced buf (mark len nim prev e i cks).1
        (r ++ zip (map (fun j => flip_word 1 j buf) (seqZ i (Z.of_nat n))) cks) ck s
    /\ cnt' = cnt + (mark len nim prev e i cks).2.

Lemma flip8_post_cons len nim prev buf e r i n cnt cnt1 cnt' ck s :
  let marked := negb (eff_at e i) && effective len nim prev ck in
  let e1 := if marked then <[Z.to_nat (EFF_APOS i) := 1]> e else e in
  cnt1 = (if marked then cnt + 1 else cnt) ->
  flip8_post len nim prev buf e1 (r ++ [(flip_word 1 i buf, ck)]) (i + 1) n cnt1 cnt' s ->
  flip8_post len nim prev buf e r i (S n) cnt cnt' s.
Proof.
  intros marked e1 -> (cks & ck' & Hl & Hs & ->). exists (ck :: cks), ck'.
  split; [simpl; congruence|]. rewrite seqZ_cons by lia.
  replace (Z.pred (Z.of_nat (S n))) with (Z.of_nat n) by lia. rewrite <- Z.add_1_r.
  cbn [map zip_with mark]. subst marked e1. rewrite <- app_assoc in Hs.
  destruct (negb _ && _); [|by split].
  destruct (mark len nim prev (<[_:=1]> e) (i + 1) cks) as [e' m]. simpl in *. split; [done|lia].
Qed.

(** Flipping the byte back and going on. *)
Lemma traced_back {A} b e r ck i (k : M W A) Q c dc tot :
  Forall byte_ok b -> in_range 1 b i -> does (traced b e r ck) k Q c dc tot ->
  does (traced (flip_word 1 i b) e r ck) (xor_at 1 i 0xFF;; inc_cur;; k) Q c (1 + dc) (1 + tot).
Proof.
  intros Hok Hr Hk. eapply does_then with (R := fun _ => traced b e r ck).
  - eapply does_conseq; [apply traced_xor; by apply in_range_flip_word|done| |done..].
    intros ? s. by rewrite flip_word_twice.
  - intros _. by apply mem_only_traced.
Qed.

Lemma counts_flip8_loop len nim prev buf n i e r ck cnt :
  buf_ok len buf -> 0 <= i -> i + Z.of_nat n <= len -> eff_covers e n i ->
  counts (traced buf e r ck) (flip8_loop n i len nim prev cnt)
    (flip8_post len nim prev buf e r i n cnt)
    (map (fun j => flip_word 1 j buf) (seqZ i (Z.of_nat n))) (Z.of_nat n).
Proof.
  intros Hb. revert i e r ck cnt. induction n as [|n IH]; intros i e r ck cnt Hi Hn He.
  { apply does_ret. intros s Hs. exists [], ck. simpl.
    rewrite app_nil_r, Z.add_0_r. by split. }
  rewrite seqZ_cons by lia. replace (Z.pred (Z.of_nat (S n))) with (Z.of_nat n) by lia.
  rewrite <- Z.add_1_r. cbn [flip8_loop map]. silent.
  assert (Hr : in_range 1 buf i) by (eapply buf_ok_range; [done|lia..]).
  eapply does_then; [by apply traced_xor|]. intros [].
  refine (does_bind _ _ _ _ _ [_] _ 0 _ 0 _ (traced_run _ _ _ _) _). intros _.
  apply does_exists. intros ck1.
  eapply does_then; [apply traced_flag; [intros j Hj; apply He; lia|done]|]. intros cnt1.
  set (marked := negb (eff_at e i) && effective len nim prev ck1).
  set (e1 := if marked then <[Z.to_nat (EFF_APOS i) := 1]> e else e).
  eapply does_conseq with
    (P' := fun s => cnt1 = (if marked then cnt + 1 else cnt)
      /\ traced (flip_word 1 i buf) e1 (r ++ [(flip_word 1 i buf, ck1)]) ck1 s);
    [|unfold e1; by destruct marked|intros a' s' H; exact H|done|..].
  - apply does_pure. intros Hcnt. apply traced_back; [eauto with afl|done|].
    eapply does_conseq; [apply (IH (i + 1) e1 (r ++ [(flip_word 1 i buf, ck1)]) ck1 cnt1); [lia..|]|done| |done..].
    + assert (Hc1 : eff_covers e n (i + 1)) by (intros j Hj; apply He; lia).
      unfold e1. case_match; [by apply eff_covers_insert|done].
    + intros cnt' s'. by apply flip8_post_cons.
  - cbn [length]. lia.
  - lia.
Qed.

(** ** The whole stage *)

(** The cells flagged up front: the first and the last block. *)
Definition init_cells (len : Z) e : list Z :=
  if EFF_APOS (len - 1) =? 0 then <[0%nat := 1]> e
  else <[Z.to_nat (EFF_APOS (len - 1)) := 1]> (<[0%nat := 1]> e).

Definition init_count (len : Z) : Z := if EFF_APOS (len - 1) =? 0 then 1 else 2.

(** More than [EFF_MAX_PERC] percent of the blocks were flagged, but not all. *)
Definition dense (len cnt : Z) : bool :=
  negb (cnt =? EFF_ALEN len) && (EFF_MAX_PERC <? cnt * 100 / EFF_ALEN len).

Definition settled (len cnt : Z) e : list Z :=
  if dense len cnt
  then replicate (Z.to_nat (EFF_ALEN len)) 1 ++ drop (Z.to_nat (EFF_ALEN len)) e else e.

(** The effector map for given checksums of the byte flips. *)
Definition effector (len : Z) (nim : bool) (prev : Z) e (cks : list Z) : list Z :=
  let m := mark len nim prev (init_cells len e) 0 cks in
  settled len (init_count len + m.2) m.1.

Lemma length_init_cells len e : length (init_cells len e) = length e.
Proof. unfold init_cells. case_match; by rewrite !length_insert. Qed.

Lemma length_settled len cnt e : eff_ok len e -> length (settled len cnt e) = length e.
Proof.
  unfold eff_ok, settled. intros H. case_match; [|done].
  rewrite length_app, length_replicate, length_drop. lia.
Qed.

Lemma length_effector len nim prev e cks :
  eff_ok len e -> length (effector len nim prev e cks) = length e.
Proof.
  intros H. unfold effector. rewrite length_settled; unfold eff_ok;
    by rewrite mark_length, length_init_cells.
Qed.

Lemma traced_init b e r ck len :
  1 <= len -> eff_ok len e ->
  does (traced b e r ck) (init_eff_map len)
    (fun cnt s => cnt = init_count len /\ traced b (init_cells len e) r ck s) [] 0 0.
Proof.
  unfold eff_ok. rewrite EFF_ALEN_div. intros Hl He. unfold init_eff_map, init_count, init_cells.
  eapply does_then; [apply traced_set_eff; dlia|]. intros [].
  rewrite EFF_APOS_div. destruct (Z.eqb_spec ((len - 1) `div` 8) 0); simpl; [by apply does_ret|].
  eapply does_then; [apply traced_set_eff; rewrite length_insert; dlia|]. intros [].
  by apply does_ret.
Qed.

Lemma traced_settle b e r ck len cnt :
  does (traced b e r ck) (settle_eff_map len cnt)
    (fun _ => traced b (settled len cnt e) r ck) [] 0 0.
Proof.
  unfold settle_eff_map, settled, dense.
  intros s ((Hb & He) & Hr & Hck). unfold mbind, M_bind.
  destruct (negb _ && _); simpl; rewrite app_nil_r; repeat split; simpl; try done; try lia.
  by rewrite He.
Qed.

(** Everything "bitflip 8/8" leaves behind. *)
Definition flip8_result len nim prev buf e r (s : det W) : Prop :=
  exists cks ck, length cks = Z.to_nat len
    /\ traced buf (effector len nim prev e cks) (r ++ zip (byte_flips len buf) cks) ck s.

(** Closing the stage: the density rule and the statistics. *)
Lemma performs_flip8_tail len nim prev buf e r cnt :
  0 <= len ->
  performs (fun s => flip8_post len nim prev buf (init_cells len e) r 0 (Z.to_nat len)
                       (init_count len) cnt s
                     /\ stage_cur s = len /\ stage_max s = len)
    (settle_eff_map len cnt;; end_stage STAGE_FLIP8)
    (fun _ s => flip8_result len nim prev buf e r s /\ stage_cur s = stage_max s)
    [] [(STAGE_FLIP8, len)].
Proof.
  intros Hl s0 ((cks & ck & Hk & Hs & ->) & Hc & Hx). rewrite Z2Nat.id in Hs by lia.
  set (m := mark len nim prev (init_cells len e) 0 cks) in *.
  pose proof (traced_settle buf m.1 (r ++ zip (byte_flips len buf) cks) ck len (init_count len + m.2)
    s0 Hs) as H.
  unfold mbind, M_bind. destruct (settle_eff_map _ _ s0) as [a s1|s1|];
    [|by destruct H as [(k & Hk' & _) _]; simpl in Hk'; lia|done].
  destruct H as (H1 & Hi & Hc1 & Hx1 & _ & Hcy & _).
  split; [split; [by exists cks, ck|simpl; lia]|]. split; [exact Hi|].
  unfold tallied. simpl. by rewrite Hcy, Hx1, Hx, !Z.sub_0_r.
Qed.

Lemma performs_flip8 len nim prev buf e r :
  buf_ok len buf -> 1 <= len -> eff_ok len e ->
  performs (fun s => mem_is buf e s /\ runs s = r) (stage_flip8 len nim prev)
    (fun _ s => flip8_result len nim prev buf e r s /\ stage_cur s = stage_max s)
    (byte_flips len buf) [(STAGE_FLIP8, len)].
Proof.
  intros Hb Hl He s0 [Hs0 Hr0]. set (ck := trace_cksum (world s0)).
  enough (performs (traced buf e r ck) (stage_flip8 len nim prev)
    (fun _ s => flip8_result len nim prev buf e r s /\ stage_cur s = stage_max s)
    (byte_flips len buf) [(STAGE_FLIP8, len)]) as H by by apply H.
  clear Hs0. unfold stage_flip8.
  eapply performs_silent; [by apply traced_init|]. intros cnt. intros s [-> Hs]. revert s Hs.
  set (e1 := init_cells len e).
  apply performs_modify with (P' := fun s => traced buf e1 r ck s /\ stage_max s = len); [done..|].
  apply performs_modify with
    (P' := fun s => traced buf e1 r ck s /\ stage_cur s = 0 /\ stage_max s = len);
    [by intros s []|done..|].
  apply performs_gets. intros n. intros s (-> & Hs). destruct (Hs) as (_ & _ & ->). revert s Hs.
  assert (Hc : eff_covers e1 (Z.to_nat len) 0).
  { intros j Hj. unfold e1. rewrite length_init_cells. apply (eff_ok_covers len e 1 j); [done|lia..]. }
  pose proof (performs_counted _ _ _ _ _ (counts_flip8_loop len nim prev buf (Z.to_nat len) 0 e1 r ck
    (init_count len) Hb ltac:(lia) ltac:(lia) Hc)) as Hloop.
  rewrite Z2Nat.id in Hloop by lia. fold (byte_flips len buf) in Hloop.
  assert (Hlen : Z.of_nat (length (byte_flips len buf)) = len)
    by (unfold byte_flips; rewrite length_map, length_seqZ; lia).
  rewrite Hlen in Hloop.
  rewrite <- (app_nil_r (byte_flips len buf)).
  apply (performs_bind _ _ _ _ _ _ _ [] _ Hloop). intros cnt. apply performs_flip8_tail. lia.
Qed.

(** The cells of [settled]: all of them when the map is dense. *)
Lemma eff_at_settled len cnt e j :
  eff_ok len e -> 0 <= j < len ->
  eff_at (settled len cnt e) j = dense len cnt || eff_at e j.
Proof.
  unfold eff_ok, settled. intros He Hj. destruct (dense len cnt); [|done]. simpl.
  unfold eff_at. rewrite EFF_ALEN_div, EFF_APOS_div in *.
  rewrite lookup_app_l by (rewrite length_replicate; dlia).
  by rewrite lookup_replicate_2 by dlia.
Qed.

Lemma eff_at_init len e j :
  1 <= len -> eff_ok len e -> 0 <= j < len ->
  eff_at (init_cells len e) j = true <->
  EFF_APOS j = 0 \/ EFF_APOS j = EFF_APOS (len - 1) \/ eff_at e j = true.
Proof.
  unfold eff_ok. rewrite EFF_ALEN_div. intros Hl He Hj. unfold init_cells.
  assert (H0 : eff_at (<[0%nat:=1]> e) j = bool_decide (0 = EFF_APOS j) || eff_at e j).
  { apply (eff_at_insert e 0 j); rewrite ?EFF_APOS_div; [lia..|]. simpl. dlia. }
  destruct (Z.eqb_spec (EFF_APOS (len - 1)) 0) as [E|E].
  - rewrite H0, orb_true_iff, bool_decide_eq_true, E. intuition.
  - rewrite eff_at_insert, H0, !orb_true_iff, !bool_decide_eq_true;
      [intuition|lia|lia|]. rewrite length_insert, EFF_APOS_div. dlia.
Qed.
End effector.

(** The effector map after "bitflip 8/8" flags a byte's block exactly when the
    block is the first or the last one, was flagged in the reused memory, holds a byte
    whose flip changed the checksum of the trace (every byte counts in
    non-instrumented mode and below EFF_MIN_LEN), or the map is dense.  In
    particular no byte that made a difference is ever skipped later. *)
Theorem stage_flip8_effector {W} `{!Fuzzer W} len nim prev buf e (s s' : det W) :
  buf_ok len buf -> 1 <= len -> eff_ok len e -> mem_is buf e s ->
  stage_flip8 len nim prev s = Ret tt s' ->
  exists cks, runs s' = runs s ++ zip (byte_flips len buf) cks /\ length cks = Z.to_nat len
  /\ out_buf s' = buf
  /\ forall j, 0 <= j < len ->
     eff_at (eff_map s') j = true <->
     EFF_APOS j = 0 \/ EFF_APOS j = EFF_APOS (len - 1) \/ eff_at e j = true
     \/ touched len nim prev 0 cks j
     \/ dense len (init_count len + (mark len nim prev (init_cells len e) 0 cks).2) = true.
Proof.
  intros Hb Hl He Hs Hrun.
  pose proof (performs_flip8 len nim prev buf e (runs s) Hb Hl He s (conj Hs eq_refl)) as H.
  rewrite Hrun in H. destruct H as (((cks & ck & Hk & ([Ho Hm] & Hr & _)) & _) & _).
  exists cks. repeat (split; [done|]). intros j Hj. rewrite Hm. unfold effector.
  assert (He1 : eff_ok len (init_cells len e)) by (unfold eff_ok; by rewrite length_init_cells).
  rewrite eff_at_settled; [|unfold eff_ok; by rewrite mark_length|done].
  rewrite orb_true_iff, eff_at_mark, eff_at_init; [tauto|lia|done|done|lia|lia|].
  intros i Hi. rewrite Hk, Z2Nat.id in Hi by lia.
  apply (eff_ok_covers len _ 1 i); [done|lia..].
Qed.

Lemma stage_flip8_effector_witness :
  let buf := replicate 20 0x41 in
  exists s', stage_flip8 20 false 0x41 (sample_det buf [0; 0; 0]) = Ret tt s' /\ out_buf s' = buf.
Proof.
  intros buf.
  destruct (stage_flip8 20 false 0x41 (sample_det buf [0; 0; 0])) as [[] s'|s'|] eqn:E;
    [|exfalso; vm_compute in E; discriminate E..].
  exists s'. split; [reflexivity|].
  assert (Hb : buf_ok 20 buf) by (split; [byte_list|reflexivity]).
  destruct (stage_flip8_effector 20 false 0x41 buf [0; 0; 0] (sample_det buf [0; 0; 0]) s' Hb ltac:(lia)
    ltac:(vm_compute; discriminate) (conj eq_refl eq_refl) E) as (cks & _ & _ & H & _).
  exact H.
Defined.
