(* ===== verification/DetArith.v ===== *)
(** * Arithmetic and interesting-value stages

    "arith 8/8" to "interest 32/8": which values each of them tries at which
    offsets, and that every offset gets its bytes back. *)
From S2P Require Import Prelude OneHelpers DetStages DetTriples DetFlips.

(** ** What the stages try *)

(** A value and whether the stage skips it. *)
Definition trial : Type := bool * Z.

Definition tries (n : nat) (buf : list Z) (i : Z) (l : list trial) : list (list Z) :=
  flat_map (fun t : trial => if t.1 then [] else [st n buf i t.2]) l.

Definition arith8_at (orig j : Z) : list trial :=
  [(could_be_bitflip (Z.lxor orig (u8 (orig + j))), orig + j);
   (could_be_bitflip (Z.lxor orig (u8 (orig - j))), orig - j)].

Definition arith16_at (orig j : Z) : list trial :=
  [(negb ((0xff <? Z.land orig 0xff + j) && negb (could_be_bitflip (Z.lxor orig (u16 (orig + j))))),
    orig + j);
   (negb ((Z.land orig 0xff <? j) && negb (could_be_bitflip (Z.lxor orig (u16 (orig - j))))),
    orig - j);
   (negb ((0xff <? (orig ≫ 8) + j)
          && negb (could_be_bitflip (Z.lxor orig (SWAP16 (SWAP16 orig + j))))),
    SWAP16 (SWAP16 orig + j));
   (negb (((orig ≫ 8) <? j) && negb (could_be_bitflip (Z.lxor orig (SWAP16 (SWAP16 orig - j))))),
    SWAP16 (SWAP16 orig - j))].

Definition arith32_at (orig j : Z) : list trial :=
  [(negb ((0xffff <? u32 (Z.land orig 0xffff + j))
          && negb (could_be_bitflip (Z.lxor orig (u32 (orig + j))))), orig + j);
   (negb ((Z.land orig 0xffff <? j) && negb (could_be_bitflip (Z.lxor orig (u32 (orig - j))))),
    orig - j);
   (negb ((0xffff <? u32 (Z.land (SWAP32 orig) 0xffff + j))
          && negb (could_be_bitflip (Z.lxor orig (SWAP32 (SWAP32 orig + j))))),
    SWAP32 (SWAP32 orig + j));
   (negb ((Z.land (SWAP32 orig) 0xffff <? j)
          && negb (could_be_bitflip (Z.lxor orig (SWAP32 (SWAP32 orig - j))))),
    SWAP32 (SWAP32 orig - j))].

Definition ariths (at_ : Z -> Z -> list trial) (orig : Z) : list trial :=
  flat_map (at_ orig) (seqZ 1 ARITH_MAX).

Definition interest8_at (orig v : Z) : list trial :=
  [(could_be_bitflip (Z.lxor orig (u8 v)) || could_be_arith orig (u8 v) 1, v)].

Definition interest16_at (orig v : Z) : list trial :=
  [(negb (negb (could_be_bitflip (Z.lxor orig (u16 v))) && negb (could_be_arith orig (u16 v) 2)
          && negb (could_be_interest orig (u16 v) 2 false)), v);
   (negb (negb (u16 v =? SWAP16 v) && negb (could_be_bitflip (Z.lxor orig (SWAP16 v)))
          && negb (could_be_arith orig (SWAP16 v) 2)
          && negb (could_be_interest orig (SWAP16 v) 2 true)), SWAP16 v)].

Definition interest32_at (orig v : Z) : list trial :=
  [(negb (negb (could_be_bitflip (Z.lxor orig (u32 v))) && negb (could_be_arith orig (u32 v) 4)
          && negb (could_be_interest orig (u32 v) 4 false)), v);
   (negb (negb (u32 v =? SWAP32 v) && negb (could_be_bitflip (Z.lxor orig (SWAP32 v)))
          && negb (could_be_arith orig (SWAP32 v) 4)
          && negb (could_be_interest orig (SWAP32 v) 4 true)), SWAP32 v)].

(** The trials at every offset the effector map keeps. *)
Definition value_cands (n : nat) (len : Z) (e buf : list Z) (trials : Z -> list trial)
  : list (list Z) :=
  flat_map (fun i => if some_eff e n i then tries n buf i (trials (ld n buf i)) else [])
    (seqZ 0 (len - (Z.of_nat n - 1))).

Lemma tries_app n buf i l k : tries n buf i (l ++ k) = tries n buf i l ++ tries n buf i k.
Proof. apply flat_map_app. Qed.

Lemma tries_flat_map {A} n buf i (f : A -> list trial) l :
  tries n buf i (flat_map f l) = flat_map (fun x => tries n buf i (f x)) l.
Proof. induction l as [|x l IH]; [done|]. cbn [flat_map]. by rewrite tries_app, IH. Qed.

Section values.
Context {W : Type} `{!Fuzzer W}.
Implicit Types (b e buf : list Z).

(** One more trial in front of a program that keeps the window. *)
Lemma counts_attempt_then {A} buf e n i skip cv v l (k : M W A) Q T :
  in_range n buf i ->
  counts (window n i buf e) k Q (tries n buf i l) (T - 1) ->
  counts (window n i buf e) (attempt n skip cv i v;; k) Q (tries n buf i ((skip, v) :: l)) T.
Proof.
  intros Hr Hk. replace T with (1 + (T - 1)) by lia. exact (counts_seq _ _ _ _ _ _ _ _ _ (counts_attempt buf e n i skip cv v Hr) Hk).
Qed.

Lemma counts_branch buf e n i (go : bool) vt v :
  in_range n buf i ->
  counts (window n i buf e)
    (if go then modify (set_val_type vt);; store n i v;; run;; inc_cur else sub_max 1)
    (fun _ => window n i buf e) (tries n buf i [(negb go, v)]) 1.
Proof.
  intros Hr. destruct go; simpl; [|apply does_sub_max; auto with afl].
  silent. by apply counts_try.
Qed.

Lemma counts_restore buf e n i :
  Forall byte_ok buf -> in_range n buf i ->
  counts (window (W:=W) n i buf e) (store n i (ld n buf i)) (fun _ => mem_is buf e) [] 0.
Proof. apply does_restore. Qed.

Lemma counts_silent {A} P P' f (k : M W A) Q c T :
  (forall s : det W, P s -> P' (f s)) -> (forall s, inputs (f s) = inputs s) ->
  (forall s, stage_cur (f s) = stage_cur s) -> (forall s, stage_max (f s) = stage_max s) ->
  (forall s, same_stats s (f s)) -> counts P' k Q c T -> counts P (modify f;; k) Q c T.
Proof.
  intros. eapply does_then; [apply does_modify with (Q := P') (dc := 0) (tot := 0); auto|auto].
  - intros s. rewrite H1. lia.
  - intros s. rewrite H2. lia.
Qed.

(** One offset: skipped when no byte of the window is in a flagged block. *)
Lemma counts_position len buf e n i T (B : Z -> M W unit) l :
  buf_ok len buf -> eff_ok len e -> 0 <= i -> i + Z.of_nat n <= len ->
  counts (mem_is buf e) (B (ld n buf i)) (fun _ => mem_is buf e) (tries n buf i l) T ->
  counts (mem_is buf e)
    (orig ← load n i;
     dull ← no_eff n i;
     if (dull : bool) then sub_max T else modify (set_byte i);; B orig)
    (fun _ => mem_is buf e) (if some_eff e n i then tries n buf i l else []) T.
Proof.
  intros Hb He Hi Hn HB.
  eapply does_then; [apply (does_load (mem_is buf e) buf); [by intros s []|eauto with afl]|].
  intros orig. apply does_pure. intros ->.
  eapply does_then; [apply does_no_eff; by eapply eff_ok_covers|].
  intros dull. apply does_pure. intros ->. destruct (some_eff e n i); simpl.
  - silent. exact HB.
  - apply does_sub_max. auto with afl.
Qed.

(** All offsets, closed by [end_stage]. *)
Lemma performs_positions len buf e n N T k (B : Z -> Z -> M W unit) (trials : Z -> list trial) :
  (1 <= n)%nat -> buf_ok len buf -> eff_ok len e -> Z.of_nat n <= len ->
  N = len - (Z.of_nat n - 1) ->
  (forall i, 0 <= i -> i + Z.of_nat n <= len ->
     counts (mem_is buf e) (B i (ld n buf i)) (fun _ => mem_is buf e)
       (tries n buf i (trials (ld n buf i))) T) ->
  performs (fun s => mem_is buf e s /\ stage_cur s = 0 /\ stage_max s = N * T)
    (for_range (Z.to_nat N) 0 (fun i =>
       orig ← load n i;
       dull ← no_eff n i;
       if (dull : bool) then sub_max T else modify (set_byte i);; B i orig);; end_stage k)
    (stage_post buf e) (value_cands n len e buf trials)
    [(k, Z.of_nat (length (value_cands n len e buf trials)))].
Proof.
  intros Hn Hb He Hl -> HB.
  pose proof (counts_for_range (mem_is buf e) (Z.to_nat (len - (Z.of_nat n - 1))) 0
    (fun i => orig ← load n i; dull ← no_eff n i;
       if (dull : bool) then sub_max T else modify (set_byte i);; B i orig)
    (fun i => if some_eff e n i then tries n buf i (trials (ld n buf i)) else []) T) as H.
  rewrite Z2Nat.id in H by lia.
  apply performs_stage; [auto with afl|]. apply H. intros i Hi.
  apply (counts_position len buf e n i T (B i)); auto with lia.
Qed.

(** [stage_cur = 0; stage_max = T;] *)
Lemma performs_start {A} buf e T T' (m : M W A) Q c t :
  T = T' ->
  performs (fun s => mem_is buf e s /\ stage_cur s = 0 /\ stage_max s = T') m Q c t ->
  performs (mem_is buf e) (modify (fun s => set_stage 0 T s);; m) Q c t.
Proof. intros -> Hm. eapply performs_modify; [|done..|exact Hm]. by intros s []. Qed.

Lemma performs_val_type {A} buf e T vt (m : M W A) Q c t :
  performs (fun s => mem_is buf e s /\ stage_cur s = 0 /\ stage_max s = T) m Q c t ->
  performs (fun s => mem_is buf e s /\ stage_cur s = 0 /\ stage_max s = T)
    (modify (set_val_type vt);; m) Q c t.
Proof. intros Hm. eapply performs_modify; [|done..|exact Hm]. by intros s Hs. Qed.

(** ** The stages *)

(** Open the window at an offset. *)
Lemma counts_open {A} buf e n i (m : M W A) Q c T :
  Forall byte_ok buf -> in_range n buf i ->
  counts (window n i buf e) m Q c T -> counts (mem_is buf e) m Q c T.
Proof.
  intros Hok Hr Hm. eapply does_conseq; [exact Hm|intros s; by apply window_refl|done..].
Qed.

Lemma counts_ariths buf e n i orig (at_ : Z -> Z -> list trial) (B : Z -> M W unit) T :
  (forall j, counts (mem_is buf e) (B j) (fun _ => mem_is buf e) (tries n buf i (at_ orig j)) T) ->
  counts (mem_is buf e) (for_range (Z.to_nat ARITH_MAX) 1 B) (fun _ => mem_is buf e)
    (tries n buf i (ariths at_ orig)) (ARITH_MAX * T).
Proof.
  intros HB. unfold ariths. rewrite tries_flat_map.
  exact (counts_for_range (mem_is buf e) (Z.to_nat ARITH_MAX) 1 B _ T (fun j _ => HB j)).
Qed.

Lemma counts_interests n i (P : det W -> Prop) buf orig (at_ : Z -> Z -> list trial) l B T :
  (forall v, counts P (B v) (fun _ => P) (tries n buf i (at_ orig v)) T) ->
  counts P (for_each l B) (fun _ => P) (tries n buf i (flat_map (at_ orig) l))
    (Z.of_nat (length l) * T).
Proof. intros HB. rewrite tries_flat_map. apply counts_for_each. auto. Qed.

Ltac keep :=
  match goal with |- counts ?P _ _ _ _ =>
    apply counts_silent with (P' := P); [intros s H; exact H|by intros; cbn..|]
  end.
Ltac open_at len := eapply counts_open; [by eapply buf_ok_bytes|by eapply buf_ok_range|].
Ltac close_at len := apply counts_restore; [by eapply buf_ok_bytes|by eapply buf_ok_range].
Ltac trial len := apply counts_attempt_then; [by eapply buf_ok_range|].

Lemma performs_arith8 len buf e :
  buf_ok len buf -> eff_ok len e -> 1 <= len ->
  performs (mem_is buf e) (stage_arith8 len) (stage_post buf e)
    (value_cands 1 len e buf (ariths arith8_at))
    [(STAGE_ARITH8, Z.of_nat (length (value_cands 1 len e buf (ariths arith8_at))))].
Proof.
  intros Hb He Hl. unfold stage_arith8.
  apply performs_start with (T' := len * (2 * ARITH_MAX)); [lia|]. apply performs_val_type.
  apply (performs_positions len buf e 1 len (2 * ARITH_MAX) STAGE_ARITH8
    (fun i orig => for_range (Z.to_nat ARITH_MAX) 1 (fun j => _))); [lia|done..|lia|].
  intros i Hi Hn. rewrite (Z.mul_comm 2). apply counts_ariths. intros j.
  unfold arith8_at. open_at len. do 2 trial len. close_at len.
Qed.

Lemma performs_arith16 len buf e :
  buf_ok len buf -> eff_ok len e -> 2 <= len ->
  performs (mem_is buf e) (stage_arith16 len) (stage_post buf e)
    (value_cands 2 len e buf (ariths arith16_at))
    [(STAGE_ARITH16, Z.of_nat (length (value_cands 2 len e buf (ariths arith16_at))))].
Proof.
  intros Hb He Hl. unfold stage_arith16.
  apply performs_start with (T' := (len - 1) * (4 * ARITH_MAX)); [lia|].
  apply (performs_positions len buf e 2 (len - 1) (4 * ARITH_MAX) STAGE_ARITH16
    (fun i orig => for_range (Z.to_nat ARITH_MAX) 1 (fun j => _))); [lia|done..|].
  intros i Hi Hn. rewrite (Z.mul_comm 4). apply counts_ariths. intros j.
  unfold arith16_at. open_at len. keep. do 2 trial len. keep. do 2 trial len. close_at len.
Qed.

Lemma performs_arith32 len buf e :
  buf_ok len buf -> eff_ok len e -> 4 <= len ->
  performs (mem_is buf e) (stage_arith32 len) (stage_post buf e)
    (value_cands 4 len e buf (ariths arith32_at))
    [(STAGE_ARITH32, Z.of_nat (length (value_cands 4 len e buf (ariths arith32_at))))].
Proof.
  intros Hb He Hl. unfold stage_arith32.
  apply performs_start with (T' := (len - 3) * (4 * ARITH_MAX)); [lia|].
  apply (performs_positions len buf e 4 (len - 3) (4 * ARITH_MAX) STAGE_ARITH32
    (fun i orig => for_range (Z.to_nat ARITH_MAX) 1 (fun j => _))); [lia|done..|].
  intros i Hi Hn. rewrite (Z.mul_comm 4). apply counts_ariths. intros j.
  unfold arith32_at. open_at len. keep. do 2 trial len. keep. do 2 trial len. close_at len.
Qed.

(** "interest 8/8" writes the original byte back after every value. *)
Lemma counts_interest8_body buf e i skip v :
  Forall byte_ok buf -> in_range 1 buf i ->
  counts (mem_is (W:=W) buf e)
    (if (skip : bool) then sub_max 1
     else modify (set_val v);; store 1 i v;; run;; store 1 i (ld 1 buf i);; inc_cur)
    (fun _ => mem_is buf e) (tries 1 buf i [(skip, v)]) 1.
Proof.
  intros Hok Hr. destruct skip; simpl; [apply does_sub_max; auto with afl|]. silent.
  eapply does_then; [by apply does_store|]. intros []. apply does_run_then.
  eapply does_then with (R := fun _ => mem_is buf e).
  - eapply does_conseq; [apply (does_restore buf e 1 i); done| |done..]. intros s Hs. by exists v.
  - intros _. apply does_inc_cur. auto with afl.
Qed.

Lemma performs_interest8 len buf e :
  buf_ok len buf -> eff_ok len e -> 1 <= len ->
  let c := value_cands 1 len e buf (fun orig => flat_map (interest8_at orig) interesting_8) in
  performs (mem_is buf e) (stage_interest8 len) (stage_post buf e) c
    [(STAGE_INTEREST8, Z.of_nat (length c))].
Proof.
  intros Hb He Hl c. unfold stage_interest8. eapply performs_start; [done|].
  apply performs_val_type.
  apply (performs_positions len buf e 1 len (Z.of_nat (length interesting_8)) STAGE_INTEREST8
    (fun i orig => for_each interesting_8 (fun v => _))
    (fun orig => flat_map (interest8_at orig) interesting_8)); [lia|done..|lia|].
  intros i Hi Hn. rewrite <- (Z.mul_1_r (Z.of_nat (length interesting_8))).
  apply counts_interests. intros v. apply counts_interest8_body; eauto with afl.
Qed.

(** The wider stages write it back after the last value. *)
Lemma counts_interest_pair len buf e n i v (go1 go2 : bool) v1 v2 :
  buf_ok len buf -> 0 <= i -> i + Z.of_nat n <= len ->
  counts (window (W:=W) n i buf e)
    (modify (set_val v);;
     (if go1 then modify (set_val_type STAGE_VAL_LE);; store n i v1;; run;; inc_cur else sub_max 1);;
     (if go2 then modify (set_val_type STAGE_VAL_BE);; store n i v2;; run;; inc_cur else sub_max 1))
    (fun _ => window n i buf e) (tries n buf i [(negb go1, v1); (negb go2, v2)]) 2.
Proof.
  intros Hb Hi Hn. keep. change [(negb go1, v1); (negb go2, v2)] with ([(negb go1, v1)] ++ [(negb go2, v2)]).
  rewrite tries_app. apply (counts_seq _ _ _ (window n i buf e) _ _ _ 1 1); apply counts_branch;
    eauto with afl.
Qed.

Lemma counts_interest_all len buf e n i (at_ : Z -> Z -> list trial) l (B : Z -> M W unit) T :
  buf_ok len buf -> 0 <= i -> i + Z.of_nat n <= len -> T = Z.of_nat (length l) * 2 ->
  (forall v, counts (window n i buf e) (B v) (fun _ => window n i buf e)
     (tries n buf i (at_ (ld n buf i) v)) 2) ->
  counts (mem_is buf e) (for_each l B;; store n i (ld n buf i)) (fun _ => mem_is buf e)
    (tries n buf i (flat_map (at_ (ld n buf i)) l)) T.
Proof.
  intros Hb Hi Hn -> HB. open_at len. rewrite <- (app_nil_r (tries _ _ _ _)).
  rewrite <- (Z.add_0_r (Z.of_nat _ * 2)).
  eapply counts_seq; [by apply counts_interests|close_at len].
Qed.

Lemma performs_interest16 len buf e :
  buf_ok len buf -> eff_ok len e -> 2 <= len ->
  let c := value_cands 2 len e buf (fun orig => flat_map (interest16_at orig) interesting_16) in
  performs (mem_is buf e) (stage_interest16 len) (stage_post buf e) c
    [(STAGE_INTEREST16, Z.of_nat (length c))].
Proof.
  intros Hb He Hl c. unfold stage_interest16.
  apply performs_start with (T' := (len - 1) * (2 * Z.of_nat (length interesting_16))); [lia|].
  apply (performs_positions len buf e 2 (len - 1) (2 * Z.of_nat (length interesting_16))
    STAGE_INTEREST16 (fun i orig => for_each interesting_16 (fun v => _);; store 2 i orig)
    (fun orig => flat_map (interest16_at orig) interesting_16)); [lia|done..|].
  intros i Hi Hn. apply (counts_interest_all len buf e 2 i interest16_at); [done..|].
  intros v. by apply (counts_interest_pair len).
Qed.

Lemma performs_interest32 len buf e :
  buf_ok len buf -> eff_ok len e -> 4 <= len ->
  let c := value_cands 4 len e buf (fun orig => flat_map (interest32_at orig) interesting_32) in
  performs (mem_is buf e) (stage_interest32 len) (stage_post buf e) c
    [(STAGE_INTEREST32, Z.of_nat (length c))].
Proof.
  intros Hb He Hl c. unfold stage_interest32.
  apply performs_start with (T' := (len - 3) * (2 * Z.of_nat (length interesting_32))); [lia|].
  apply (performs_positions len buf e 4 (len - 3) (2 * Z.of_nat (length interesting_32))
    STAGE_INTEREST32 (fun i orig => for_each interesting_32 (fun v => _);; store 4 i orig)
    (fun orig => flat_map (interest32_at orig) interesting_32)); [lia|done..|].
  intros i Hi Hn. apply (counts_interest_all len buf e 4 i interest32_at); [done..|].
  intros v. by apply (counts_interest_pair len).
Qed.
End values.
