(* ===== verification/DetTheorems.v ===== *)
(** * The deterministic stages as a whole

    What [det_stages] runs, in which order, and that it is memory safe and leaves the
    test case as it found it; which values the skipping rules leave out. *)
From S2P Require Import Prelude OneHelpers DetStages DetTriples DetFlips DetEffector DetArith.

(** ** The inputs of the stages, in order *)

(** Up to "bitflip 8/8": nothing is skipped. *)
Definition first_cands (len : Z) (buf : list Z) : list (list Z) :=
  (buf :: flips 1 len buf) ++ flips 2 len buf ++ flips 4 len buf ++ byte_flips len buf.

Definition first_tally (len : Z) : list (stage_id * Z) :=
  [(STAGE_FLIP1, 8 * len); (STAGE_FLIP2, 8 * len - 1); (STAGE_FLIP4, 8 * len - 3);
   (STAGE_FLIP8, len)].

(** From "bitflip 16/8" on, under the effector map [e]: stages with their inputs. *)
Definition later_stages (len : Z) (no_arith : bool) (e buf : list Z)
  : list (stage_id * list (list Z)) :=
  (if len <? 2 then []
   else (STAGE_FLIP16, word_flips 2 len e buf)
        :: if len <? 4 then [] else [(STAGE_FLIP32, word_flips 4 len e buf)])
  ++ (if no_arith then []
      else (STAGE_ARITH8, value_cands 1 len e buf (ariths arith8_at))
           :: if len <? 2 then []
              else (STAGE_ARITH16, value_cands 2 len e buf (ariths arith16_at))
                   :: if len <? 4 then []
                      else [(STAGE_ARITH32, value_cands 4 len e buf (ariths arith32_at))])
  ++ [(STAGE_INTEREST8,
       value_cands 1 len e buf (fun orig => flat_map (interest8_at orig) interesting_8))]
  ++ (if no_arith || (len <? 2) then []
      else (STAGE_INTEREST16,
            value_cands 2 len e buf (fun orig => flat_map (interest16_at orig) interesting_16))
           :: if len <? 4 then []
              else [(STAGE_INTEREST32,
                value_cands 4 len e buf (fun orig => flat_map (interest32_at orig) interesting_32))]).

Definition later_cands len no_arith e buf : list (list Z) :=
  flat_map snd (later_stages len no_arith e buf).

Definition later_tally len no_arith e buf : list (stage_id * Z) :=
  map (fun k => (k.1, Z.of_nat (length k.2))) (later_stages len no_arith e buf).

Section whole.
Context {W : Type} `{!Fuzzer W}.
Implicit Types (e buf : list Z).

(** [performs] for a list of stages with their inputs. *)
Definition performs_list e buf (m : M W unit) (l : list (stage_id * list (list Z))) : Prop :=
  performs (mem_is buf e) m (fun _ => mem_is buf e) (flat_map snd l)
    (map (fun k => (k.1, Z.of_nat (length k.2))) l).

Lemma performs_list_nil e buf : performs_list e buf (mret tt) [].
Proof. by apply performs_ret. Qed.

Lemma performs_list_app e buf m k l l' :
  performs_list e buf m l -> performs_list e buf k l' -> performs_list e buf (m;; k) (l ++ l').
Proof.
  intros Hm Hk. unfold performs_list. rewrite flat_map_app, map_app.
  eapply performs_bind; [exact Hm|auto].
Qed.

Lemma performs_list_one e buf m k c :
  performs (mem_is buf e) m (stage_post buf e) c [(k, Z.of_nat (length c))] ->
  performs_list e buf m [(k, c)].
Proof.
  intros Hm. unfold performs_list. simpl. rewrite app_nil_r.
  eapply performs_conseq; [exact Hm|done|]. by intros a s [].
Qed.

Lemma performs_list_cons e buf m k c l (m' : M W unit) :
  performs (mem_is buf e) m (stage_post buf e) c [(k, Z.of_nat (length c))] ->
  performs_list e buf m' l -> performs_list e buf (m;; m') ((k, c) :: l).
Proof. intros Hm Hl. apply (performs_list_app e buf m m' [(k, c)] l); [by apply performs_list_one|done]. Qed.

(** The stages after "bitflip 8/8". *)
Definition later (len : Z) (no_arith : bool) : M W unit :=
  (if len <? 2 then mret tt
   else stage_flip16 len;; if len <? 4 then mret tt else stage_flip32 len);;
  (if no_arith then mret tt
   else
     stage_arith8 len;;
     if len <? 2 then mret tt
     else stage_arith16 len;; if len <? 4 then mret tt else stage_arith32 len);;
  stage_interest8 len;;
  (if no_arith || (len <? 2) then mret tt
   else stage_interest16 len;; if len <? 4 then mret tt else stage_interest32 len).

Lemma performs_later len no_arith e buf :
  buf_ok len buf -> eff_ok len e -> 1 <= len ->
  performs_list e buf (later len no_arith) (later_stages len no_arith e buf).
Proof.
  intros Hb He Hl. unfold later, later_stages.
  apply performs_list_app; [|apply performs_list_app; [|apply performs_list_app]].
  - destruct (Z.ltb_spec len 2); [apply performs_list_nil|].
    apply performs_list_cons; [by apply performs_flip16|].
    destruct (Z.ltb_spec len 4); [apply performs_list_nil|].
    apply performs_list_one. by apply performs_flip32.
  - destruct no_arith; [apply performs_list_nil|].
    apply performs_list_cons; [by apply performs_arith8|].
    destruct (Z.ltb_spec len 2); [apply performs_list_nil|].
    apply performs_list_cons; [by apply performs_arith16|].
    destruct (Z.ltb_spec len 4); [apply performs_list_nil|].
    apply performs_list_one. by apply performs_arith32.
  - apply performs_list_one. by apply performs_interest8.
  - destruct no_arith; [apply performs_list_nil|]. cbn [orb].
    destruct (Z.ltb_spec len 2); [apply performs_list_nil|].
    apply performs_list_cons; [by apply performs_interest16|].
    destruct (Z.ltb_spec len 4); [apply performs_list_nil|].
    apply performs_list_one. by apply performs_interest32.
Qed.

(** The stages up to "bitflip 8/8". *)
Definition first (len : Z) (nim : bool) : M W unit :=
  prev_cksum ← stage_flip1 len nim;
  stage_flip2 len;;
  stage_flip4 len;;
  stage_flip8 len nim prev_cksum.

Lemma performs_first len nim e buf :
  buf_ok len buf -> eff_ok len e -> 1 <= len ->
  performs (mem_is buf e) (first len nim)
    (fun _ s => exists e', eff_ok len e' /\ mem_is buf e' s) (first_cands len buf) (first_tally len).
Proof.
  intros Hb He Hl. unfold first, first_cands, first_tally.
  eapply (performs_bind _ _ _ _ _ _ _ [_]); [by apply performs_flip1|]. intros prev.
  eapply (performs_bind _ _ _ _ _ _ _ [_]).
  { eapply performs_conseq; [by apply performs_flip2| |intros a s H; exact H]. by intros s []. }
  intros []. eapply (performs_bind _ _ _ _ _ _ _ [_]).
  { eapply performs_conseq; [by apply performs_flip4| |intros a s H; exact H]. by intros s []. }
  intros [] s [Hs _].
  pose proof (performs_flip8 len nim prev buf e (runs s) Hb Hl He s (conj Hs eq_refl)) as H.
  destruct (stage_flip8 len nim prev s); [|done..].
  destruct H as (((cks & ck & Hk & ([Ho Hm] & _)) & _) & H). split; [|done].
  exists (effector len nim prev e cks). split; [|done]. unfold eff_ok.
  by rewrite length_effector.
Qed.

Lemma det_stages_split len nim no_arith s :
  det_stages len nim no_arith s = (first len nim;; later len no_arith) s.
Proof.
  unfold det_stages, first, later, mbind, M_bind.
  destruct (stage_flip1 len nim s) as [prev s1|s1|]; [|done..].
  destruct (stage_flip2 len s1) as [[] s2|s2|]; [|done..].
  destruct (stage_flip4 len s2) as [[] s3|s3|]; [|done..].
  by destruct (stage_flip8 len nim prev s3).
Qed.
End whole.

(** What a finished or abandoned walk through the stages leaves behind. *)
Definition det_post {W} len no_arith buf (s : det W) (o : outcome W unit) : Prop :=
  match o with
  | Ret _ s' => exists e',
      mem_is buf e' s'
      /\ inputs s' = inputs s ++ first_cands len buf ++ later_cands len no_arith e' buf
      /\ stage_cycles s' = tallied (tallied (stage_cycles s) (first_tally len))
           (later_tally len no_arith e' buf)
  | Abandon s' => exists e' k,
      (0 < k)%nat
      /\ inputs s' = inputs s ++ take k (first_cands len buf ++ later_cands len no_arith e' buf)
  | UB => False
  end.

Lemma det_stages_exact {W} `{!Fuzzer W} len nim no_arith buf e (s : det W) :
  buf_ok len buf -> eff_ok len e -> 1 <= len -> mem_is buf e s ->
  det_post len no_arith buf s (det_stages len nim no_arith s).
Proof.
  intros Hb He Hl Hs. rewrite det_stages_split. unfold det_post, mbind, M_bind.
  pose proof (performs_first len nim e buf Hb He Hl s Hs) as H1.
  destruct (first len nim s) as [[] s1|s1|]; [| |done].
  - destruct H1 as ((e' & He' & Hs1) & Hi1 & Hc1).
    pose proof (performs_later len no_arith e' buf Hb He' Hl s1 Hs1) as H2.
    destruct (later len no_arith s1) as [[] s2|s2|]; [| |done].
    + destruct H2 as (Hm & Hi2 & Hc2). exists e'. split; [done|].
      rewrite Hi2, Hi1, Hc2, Hc1, app_assoc. done.
    + destruct H2 as (k & Hk & Hi2). exists e', (length (first_cands len buf) + k)%nat.
      split; [lia|]. rewrite Hi2, Hi1, <- app_assoc. f_equal.
      rewrite take_app_ge by lia. do 2 f_equal. lia.
  - destruct H1 as (k & Hk & Hi). exists e, k. split; [lia|].
    rewrite Hi. f_equal. by rewrite take_app_le by lia.
Qed.

(** C1: the deterministic stages are memory safe and exact.  On a non-empty test case
    they never touch a byte outside the buffer, the effector map or the token buffer;
    when they finish, the test case is unchanged and the target has been run on
    exactly the enumerated inputs, each stage adding its own executions to
    [stage_cycles]; when a run asks to abandon the entry, the inputs run so far are a
    non-empty prefix of that enumeration. *)
Theorem det_stages_correct {W} `{!Fuzzer W} len nim no_arith buf e (s : det W) :
  buf_ok len buf -> eff_ok len e -> 1 <= len -> mem_is buf e s ->
  det_post len no_arith buf s (det_stages len nim no_arith s).
Proof. apply det_stages_exact. Qed.

Lemma det_stages_correct_witness :
  det_stages 2 false false (sample_det [0x41; 0x42] [0]) <> UB.
Proof.
  intros H. pose proof (det_stages_correct 2 false false [0x41; 0x42] [0]
    (sample_det [0x41; 0x42] [0])) as Hc. rewrite H in Hc. apply Hc.
  - split; [byte_list|reflexivity].
  - vm_compute. discriminate.
  - lia.
  - split; reflexivity.
Defined.

(** ** Nothing is lost on single bytes *)

Lemma bitflip8_cases x :
  byte_ok x -> could_be_bitflip x = true ->
  x = 0 \/ x = 255 \/ exists w r,
    w ∈ [1; 2; 4] /\ 0 <= r <= 8 - w /\ x = (2 ^ w - 1) ≪ (8 - w - r).
Proof.
  intros Hx Hc.
  assert (H : (x =? 0) || (x =? 255) || existsb (fun w => existsb (fun r =>
    x =? (2 ^ w - 1) ≪ (8 - w - r)) (seqZ 0 (9 - w))) [1; 2; 4] = true).
  { pose proof (all_bytes_spec (fun x => implb (could_be_bitflip x)
      ((x =? 0) || (x =? 255) || existsb (fun w => existsb (fun r =>
       x =? (2 ^ w - 1) ≪ (8 - w - r)) (seqZ 0 (9 - w))) [1; 2; 4])) x) as H.
    cbv beta in H. rewrite Hc in H. apply H; [by vm_compute|done]. }
  rewrite !orb_true_iff, !Z.eqb_eq in H. destruct H as [[?|?]|H]; [tauto..|]. right. right.
  apply existsb_exists in H as (w & Hw & H). apply existsb_exists in H as (r & Hr & H).
  apply list_elem_of_In, elem_of_seqZ in Hr. apply Z.eqb_eq in H.
  exists w, r. split; [by apply list_elem_of_In|]. split; [lia|done].
Qed.

Lemma could_be_arith8_within o v :
  byte_ok o -> byte_ok v -> could_be_arith o v 1 = true -> o = v \/ within 8 o v = true.
Proof.
  intros Ho Hv Hc. unfold could_be_arith in Hc. destruct (Z.eqb_spec o v) as [|Hne]; [tauto|].
  right. change (Z.to_nat 1) with 1%nat in Hc. cbn [diff_scan] in Hc.
  rewrite Z.mul_0_r, !Z.shiftr_0_r in Hc. fold (u8 o) (u8 v) in Hc. rewrite !u8_id in Hc by done.
  rewrite (proj2 (Z.eqb_neq o v) Hne) in Hc. simpl in Hc. by destruct (within 8 o v).
Qed.

(** The mask of [w] adjacent bits from bit [r] of a byte on. *)
Definition bits_mask (w : nat) (r : Z) : Z :=
  foldr (fun k m => Z.lxor (128 ≫ k) m) 0 (seqZ r (Z.of_nat w)).

Lemma bits_mask_run w r :
  w ∈ [1; 2; 4] -> 0 <= r <= 8 - w -> bits_mask (Z.to_nat w) r = (2 ^ w - 1) ≪ (8 - w - r).
Proof.
  intros Hw Hr.
  assert (H : forallb (fun w => forallb (fun r =>
    bits_mask (Z.to_nat w) r =? (2 ^ w - 1) ≪ (8 - w - r)) (seqZ 0 (9 - w))) [1; 2; 4] = true)
    by reflexivity.
  rewrite forallb_forall in H. specialize (H w (proj1 (list_elem_of_In _ _) Hw)).
  rewrite forallb_forall in H. apply Z.eqb_eq, H, list_elem_of_In, elem_of_seqZ. lia.
Qed.

(** A single bit of byte [i]. *)
Lemma flip_bit_at i r b :
  0 <= i -> 0 <= r < 8 ->
  flip_bit (8 * i + r) b = alter (fun x => Z.lxor x (128 ≫ r)) (Z.to_nat i) b.
Proof.
  intros Hi Hr. unfold flip_bit. destruct (bit_index (8 * i + r)) as [-> ->].
  replace ((8 * i + r) `mod` 8) with r by dlia. by replace ((8 * i + r) `div` 8) with i by dlia.
Qed.

(** A run of [w] bits inside byte [i]. *)
Lemma flip_bits_in_byte w i r b :
  0 <= i -> 0 <= r -> r + Z.of_nat w <= 8 ->
  flip_bits w (8 * i + r) b = alter (fun x => Z.lxor x (bits_mask w r)) (Z.to_nat i) b.
Proof.
  intros Hi. revert r b. induction w as [|w IH]; intros r b Hr Hw.
  - symmetry. apply list_alter_id. intros x. apply Z.lxor_0_r.
  - rewrite flip_bits_S, <- Z.add_assoc, IH, flip_bit_at by lia.
    rewrite list_alter_alter_eq. apply list_alter_ext; [|done]. intros x _. simpl.
    rewrite Z.lxor_assoc. f_equal. unfold bits_mask. rewrite (seqZ_cons r) by lia.
    cbn [foldr]. do 3 f_equal; lia.
Qed.

Lemma flip_bits_at w i r b :
  w ∈ [1; 2; 4] -> 0 <= i -> 0 <= r <= 8 - w ->
  flip_bits (Z.to_nat w) (8 * i + r) b
  = alter (fun x => Z.lxor x ((2 ^ w - 1) ≪ (8 - w - r))) (Z.to_nat i) b.
Proof.
  intros Hw Hi Hr. assert (0 <= w) by (rewrite !elem_of_cons in Hw; destruct Hw as [->|[->|[->|[]%not_elem_of_nil]]]; lia).
  rewrite flip_bits_in_byte by lia. by rewrite bits_mask_run.
Qed.

Lemma st_1_alter b i x m :
  Forall byte_ok b -> 0 <= i -> b !! Z.to_nat i = Some x -> byte_ok m ->
  st 1 b i (Z.lxor x m) = alter (fun y => Z.lxor y m) (Z.to_nat i) b.
Proof.
  intros Hok Hi Hx Hm. assert (Hr : in_range 1 b i)
    by (apply lookup_lt_Some in Hx; unfold in_range; lia).
  rewrite st_1 by done. apply list_eq. intros j. destruct (decide (j = Z.to_nat i)) as [->|].
  - rewrite list_lookup_insert_eq, list_lookup_alter_eq, Hx by (by eapply lookup_lt_Some).
    simpl. f_equal. apply u8_id, byte_ok_lxor; [by eapply Forall_lookup_1|done].
  - by rewrite list_lookup_insert_ne, list_lookup_alter_ne by done.
Qed.

(** A one-byte change [could_be_bitflip] recognises has been tried by the flips. *)
Lemma bitflip8_tried len buf i x v :
  buf_ok len buf -> 0 <= i -> buf !! Z.to_nat i = Some x -> byte_ok v ->
  could_be_bitflip (Z.lxor x v) = true -> st 1 buf i v ∈ first_cands len buf.
Proof.
  intros Hb Hi Hx Hv Hc.
  assert (Hbx : byte_ok x) by (eapply Forall_lookup_1; [by eapply buf_ok_bytes|done]).
  assert (Hil : i < len) by (destruct Hb as [_ <-]; apply lookup_lt_Some in Hx; lia).
  assert (Hm : byte_ok (Z.lxor x v)) by by apply byte_ok_lxor.
  replace v with (Z.lxor x (Z.lxor x v)) by by rewrite <- Z.lxor_assoc, Z.lxor_nilpotent.
  rewrite st_1_alter by eauto with afl.
  unfold first_cands. rewrite !elem_of_app, elem_of_cons.
  destruct (bitflip8_cases _ Hm Hc) as [->|[->|(w & r & Hw & Hr & ->)]].
  - left. left. apply list_alter_id. intros y. apply Z.lxor_0_r.
  - right. right. right. unfold byte_flips. apply list_elem_of_fmap.
    exists i. split; [|apply elem_of_seqZ; lia]. unfold flip_word.
    rewrite (ld_1 buf i x), <- st_1_alter with (x := x); eauto with afl. unfold byte_ok; lia.
  - rewrite <- flip_bits_at by done.
    assert (Hin : flip_bits (Z.to_nat w) (8 * i + r) buf ∈ flips (Z.to_nat w) len buf).
    { unfold flips. apply list_elem_of_fmap. exists (8 * i + r). split; [done|].
      apply elem_of_seqZ. rewrite !list_elem_of_In in Hw. destruct Hw as [<-|[<-|[<-|[]]]]; lia. }
    rewrite !list_elem_of_In in Hw. destruct Hw as [<-|[<-|[<-|[]]]]; tauto.
Qed.

Lemma some_eff_1 e i : some_eff e 1 i = eff_at e i.
Proof. unfold some_eff. rewrite seqZ_cons by lia. apply orb_false_r. Qed.

Lemma elem_of_tries n buf i l skip v :
  (skip, v) ∈ l -> skip = false -> st n buf i v ∈ tries n buf i l.
Proof.
  intros Hin ->. unfold tries. apply list_elem_of_In, in_flat_map. exists (false, v).
  split; [by apply list_elem_of_In|]. by left.
Qed.

Lemma elem_of_value_cands n len e buf (trials : Z -> list trial) i skip v :
  some_eff e n i = true -> 0 <= i -> i + Z.of_nat n <= len ->
  (skip, v) ∈ trials (ld n buf i) -> skip = false ->
  st n buf i v ∈ value_cands n len e buf trials.
Proof.
  intros He Hi Hn Hin Hs. unfold value_cands. apply list_elem_of_In, in_flat_map. exists i.
  split; [apply list_elem_of_In, elem_of_seqZ; lia|]. rewrite He.
  apply list_elem_of_In. by eapply elem_of_tries.
Qed.

Lemma later_cands_8 len e buf c :
  c ∈ value_cands 1 len e buf (ariths arith8_at)
  \/ c ∈ value_cands 1 len e buf (fun orig => flat_map (interest8_at orig) interesting_8) ->
  c ∈ later_cands len false e buf.
Proof.
  intros Hc. unfold later_cands, later_stages. rewrite !flat_map_app, !elem_of_app.
  cbn [flat_map snd]. rewrite !elem_of_app, ?app_nil_r. tauto.
Qed.

(** The 8-bit arithmetic steps are tried, by "arith 8/8" or by an earlier flip. *)
Lemma arith8_tried len e buf i x v :
  buf_ok len buf -> 0 <= i -> buf !! Z.to_nat i = Some x -> eff_at e i = true ->
  arith_step 8 x v -> st 1 buf i v ∈ first_cands len buf ++ later_cands len false e buf.
Proof.
  intros Hb Hi Hx He (j & Hj & Hv).
  assert (Hil : i < len) by (destruct Hb as [_ <-]; apply lookup_lt_Some in Hx; lia).
  assert (Hbv : byte_ok v) by (destruct Hv as [->| ->]; apply byte_ok_u8).
  rewrite elem_of_app. destruct (could_be_bitflip (Z.lxor x v)) eqn:Hc;
    [left; by eapply bitflip8_tried|].
  destruct (decide (j = 0)) as [->|Hj0].
  { exfalso. assert (Hbx : byte_ok x) by (eapply Forall_lookup_1; [by eapply buf_ok_bytes|done]).
    rewrite Z.add_0_r, Z.sub_0_r, Z.mod_small in Hv by done.
    assert (v = x) as -> by tauto. by rewrite Z.lxor_nilpotent in Hc. }
  right. apply later_cands_8. left.
  assert (Hl : ld 1 buf i = x) by (apply ld_1; eauto with afl).
  assert (Hs : some_eff e 1 i = true) by (by rewrite some_eff_1).
  assert (Hin : forall t, t ∈ arith8_at x j -> t ∈ ariths arith8_at (ld 1 buf i)).
  { intros t Ht. unfold ariths. rewrite Hl. apply list_elem_of_In, in_flat_map. exists j.
    split; [apply list_elem_of_In, elem_of_seqZ; lia|by apply list_elem_of_In]. }
  destruct Hv as [->| ->]; rewrite (st_mod 1).
  - eapply elem_of_value_cands; [done..|lia| |exact Hc]. apply Hin. unfold arith8_at, u8. set_solver.
  - eapply elem_of_value_cands; [done..|lia| |exact Hc]. apply Hin. unfold arith8_at, u8. set_solver.
Qed.

(** Skipping loses nothing on single bytes.  In a flagged block, every value within
    ARITH_MAX of the original byte and every interesting 8-bit value is run by some
    stage: what "arith 8/8" and "interest 8/8" skip was an input of an earlier one. *)
Theorem byte_values_tried len e buf i x v :
  buf_ok len buf -> 0 <= i -> buf !! Z.to_nat i = Some x -> eff_at e i = true ->
  arith_step 8 x v \/ (exists c, c ∈ interesting_8 /\ v = u8 c) ->
  st 1 buf i v ∈ first_cands len buf ++ later_cands len false e buf.
Proof.
  intros Hb Hi Hx He [Hv|(c & Hc & ->)]; [by eapply arith8_tried|].
  assert (Hbx : byte_ok x) by (eapply Forall_lookup_1; [by eapply buf_ok_bytes|done]).
  destruct (could_be_bitflip (Z.lxor x (u8 c))) eqn:Hf.
  { rewrite elem_of_app. left. eapply bitflip8_tried; eauto. apply byte_ok_u8. }
  destruct (could_be_arith x (u8 c) 1) eqn:Ha.
  { apply could_be_arith8_within in Ha; [|done|apply byte_ok_u8].
    destruct Ha as [Ha|Ha]; [by rewrite <- Ha, Z.lxor_nilpotent in Hf|].
    eapply arith8_tried; eauto. apply within_spec; [lia|done|apply byte_ok_u8|done]. }
  assert (Hil : i < len) by (destruct Hb as [_ <-]; apply lookup_lt_Some in Hx; lia).
  rewrite elem_of_app. right. apply later_cands_8. right. unfold u8. rewrite (st_mod 1).
  eapply elem_of_value_cands with (skip := could_be_bitflip (Z.lxor x (u8 c)) || could_be_arith x (u8 c) 1);
    [by rewrite some_eff_1|done|lia| |by rewrite Hf, Ha].
  rewrite (ld_1 buf i x) by eauto with afl.
  apply list_elem_of_In, in_flat_map. exists c. split; [by apply list_elem_of_In|]. by left.
Qed.

Lemma byte_values_tried_witness :
  st 1 [0x41; 0x42] 1 0x50 ∈ first_cands 2 [0x41; 0x42] ++ later_cands 2 false [1] [0x41; 0x42].
Proof.
  apply (byte_values_tried 2 [1] [0x41; 0x42] 1 0x42 0x50); [|lia|reflexivity|reflexivity|].
  - split; [byte_list|reflexivity].
  - left. exists 14. split; [unfold ARITH_MAX; lia|]. left. reflexivity.
Defined.

(** The skipping rules are not exact on 16-bit words.  [could_be_bitflip] reads the
    difference of two little-endian words, where four adjacent bits can straddle the
    two bytes in an order "bitflip 4/1" never produces: on the test case E0 00, the
    word 0x0100 is one arithmetic step away and an interesting value, and no
    deterministic stage runs it. *)
Theorem word_value_missed :
  let buf := [0xE0; 0x00] in
  arith_step 16 (ld 2 buf 0) 0x100 /\ 0x100 ∈ interesting_16 /\ some_eff [1] 2 0 = true
  /\ st 2 buf 0 0x100 ∉ first_cands 2 buf ++ later_cands 2 false [1] buf.
Proof.
  intros buf. split; [|split; [|split]].
  - exists 32. split; [unfold ARITH_MAX; lia|]. left. reflexivity.
  - apply list_elem_of_In. unfold interesting_16, INTERESTING_8, INTERESTING_16.
    repeat (first [left; reflexivity | right]).
  - reflexivity.
  - assert (H : bool_decide (st 2 buf 0 0x100
      ∈ first_cands 2 buf ++ later_cands 2 false [1] buf) = false) by (vm_compute; reflexivity).
    by apply bool_decide_eq_false in H.
Qed.

(** ** The counters fit *)

Lemma length_flat_map_le {A B} (f : A -> list B) l T :
  (forall x, (length (f x) <= T)%nat) -> (length (flat_map f l) <= length l * T)%nat.
Proof.
  intros Hf. induction l as [|x l IH]; simpl; [lia|]. rewrite length_app. specialize (Hf x). lia.
Qed.

Lemma length_tries n buf i l : (length (tries n buf i l) <= length l)%nat.
Proof.
  unfold tries. etrans; [apply (length_flat_map_le _ _ 1)|lia]. intros [[] v]; simpl; lia.
Qed.

Lemma length_value_cands n len e buf trials T :
  0 <= len - (Z.of_nat n - 1) -> (forall o, Z.of_nat (length (trials o)) <= T) ->
  Z.of_nat (length (value_cands n len e buf trials)) <= (len - (Z.of_nat n - 1)) * T.
Proof.
  intros Hn HT. unfold value_cands. pose proof (HT 0) as H0.
  assert (H : (length (flat_map (fun i => if some_eff e n i
      then tries n buf i (trials (ld n buf i)) else []) (seqZ 0 (len - (Z.of_nat n - 1))))
    <= length (seqZ 0 (len - (Z.of_nat n - 1))) * Z.to_nat T)%nat).
  { apply length_flat_map_le. intros i. case_match; simpl; [|lia].
    etrans; [apply length_tries|]. specialize (HT (ld n buf i)). lia. }
  rewrite length_seqZ in H. nia.
Qed.

Lemma length_flat_map_const {A B} (f : A -> list B) l T :
  (forall x, length (f x) = T) -> length (flat_map f l) = (length l * T)%nat.
Proof.
  intros Hf. induction l as [|x l IH]; simpl; [done|]. rewrite length_app, Hf, IH. lia.
Qed.

Lemma length_ariths at_ o T : (forall j, length (at_ o j) = T) -> length (ariths at_ o) = (35 * T)%nat.
Proof. intros H. unfold ariths. by rewrite (length_flat_map_const _ _ T) by done. Qed.

(** No stage counter wraps.  For a test case of at most MAX_FILE bytes the number of
    executions of every deterministic stage fits the 32-bit [stage_max] and
    [stage_cur]. *)
Theorem stage_counters_fit len no_arith e buf :
  1 <= len <= MAX_FILE ->
  Forall (fun kd => 0 <= kd.2 < 2 ^ 32) (first_tally len ++ later_tally len no_arith e buf).
Proof.
  unfold MAX_FILE. intros Hl. rewrite Forall_app. split.
  { repeat constructor; simpl; lia. }
  unfold later_tally. apply Forall_fmap, Forall_forall. intros [k c] Hin. simpl. split; [lia|].
  assert (Hw : forall n, (1 <= n)%nat -> Z.of_nat (length (word_flips n len e buf)) < 2 ^ 32).
  { intros n Hn. unfold word_flips.
    assert (H : (length (flat_map (fun i => if some_eff e n i then [flip_word n i buf] else [])
      (seqZ 0 (len - (Z.of_nat n - 1)))) <= length (seqZ 0 (len - (Z.of_nat n - 1))) * 1)%nat).
    { apply length_flat_map_le. intros x. destruct (some_eff e n x); simpl; lia. }
    rewrite length_seqZ in H. lia. }
  assert (Hv : forall n trials T, 0 <= len - (Z.of_nat n - 1) -> (1 <= n)%nat -> 0 <= T <= 140 ->
    (forall o, Z.of_nat (length (trials o)) <= T) ->
    Z.of_nat (length (value_cands n len e buf trials)) < 2 ^ 32).
  { intros n trials T Hn H1 HT Ho. pose proof (length_value_cands n len e buf trials T Hn Ho). nia. }
  unfold later_stages in Hin.
  destruct (Z.ltb_spec len 2), (Z.ltb_spec len 4), no_arith; try lia;
    cbn [app orb] in Hin; rewrite ?elem_of_cons, ?elem_of_nil in Hin;
    destruct_or?; try done; simplify_eq; try (apply Hw; lia);
    (eapply Hv with (T := 140); [lia..|]); intros o;
    (first [ rewrite (length_ariths _ _ 2) by done | rewrite (length_ariths _ _ 4) by done
           | rewrite (length_flat_map_const _ _ 1) by done
           | rewrite (length_flat_map_const _ _ 2) by done ]); cbn; lia.
Qed.

Lemma stage_counters_fit_witness :
  Forall (fun kd : stage_id * Z => 0 <= kd.2 < 2 ^ 32)
    (first_tally 2 ++ later_tally 2 false [1] [0x41; 0x42]).
Proof. apply stage_counters_fit. unfold MAX_FILE. lia. Defined.
