(* ===== verification/ExtrasStages.v ===== *)
(** * The dictionary stages of fuzz_one (src/aflplusplus/src/afl-fuzz-one.c)

    "user extras (over)", "user extras (insert)" and the same for the automatic
    dictionary: every token is written over, or inserted at, every offset of the test
    case.  The overwriting stages restore the buffer once per offset and rely on the
    tokens being sorted by size. *)
From stdpp Require Import sorting.
From S2P Require Import Prelude OneHelpers Rng DetStages DetTriples DetFlips ExtrasTheorems.

Definition MAX_DICT_FILE : Z := 128.
Definition USE_AUTO_EXTRAS : Z := 4096.

(** [EFF_SPAN_ALEN(p, l)]: map span for a sequence of bytes *)
Definition EFF_SPAN_ALEN (p l : Z) : Z := EFF_APOS (p + l - 1) - EFF_APOS p + 1.

(** [memcpy(b + i, l, length l)] *)
Definition write_at (b : list Z) (i : Z) (l : list Z) : list Z :=
  take (Z.to_nat i) b ++ l ++ drop (Z.to_nat i + length l) b.

Section extras_stages.
Context {W : Type} `{!Fuzzer W} `{!Random W}.

(** [common_fuzz_stuff] on another buffer than [out_buf] *)
Definition run_on (b : list Z) : M W unit := fun s =>
  let '(w, abandon) := common_fuzz_stuff (world s) b in
  let s' := Det (out_buf s) w (eff_map s) (stage_cur s) (stage_max s) (stage_cur_byte s)
    (stage_cur_val s) (stage_val_type s) (orig_hit_cnt s) (stage_finds s) (stage_cycles s)
    (blocks_eff_select s) (blocks_eff_total s) (runs s ++ [(b, trace_cksum w)]) in
  if abandon then Abandon s' else Ret tt s'.

Definition memcpy_out (i : Z) (l : list Z) : M W unit := fun s =>
  if decide (in_range (length l) (out_buf s) i)
  then Ret tt (set_buf (write_at (out_buf s) i l) s) else UB.

(** [!memcmp(d, out_buf + i, length d)] *)
Definition memeq_out (i : Z) (d : list Z) : M W bool := fun s =>
  if decide (in_range (length d) (out_buf s) i)
  then Ret (bool_decide (take (length d) (drop (Z.to_nat i) (out_buf s)) = d)) s else UB.

(** [memchr(eff_map + EFF_APOS(i), 1, EFF_SPAN_ALEN(i, l))] *)
Definition span_flagged (e : list Z) (i l : Z) : bool :=
  existsb (fun c => c =? 1) (take (Z.to_nat (EFF_SPAN_ALEN i l)) (drop (Z.to_nat (EFF_APOS i)) e)).

Definition memchr_eff (i l : Z) : M W bool := fun s =>
  if decide (0 <= EFF_APOS i /\ EFF_APOS i + EFF_SPAN_ALEN i l <= Z.of_nat (length (eff_map s)))
  then Ret (span_flagged (eff_map s) i l) s else UB.

(** [extras_cnt > max_det_extras && rand_below(afl, extras_cnt) >= max_det_extras] *)
Definition rand_skip (extras_cnt max_det_extras : Z) : M W bool :=
  if max_det_extras <? extras_cnt
  then fun s => let '(r, w) := below (world s) extras_cnt in
                Ret (max_det_extras <=? r) (set_world w s)
  else mret false.

(** The condition that skips a token at an offset, with its short circuits. *)
Definition over_skip (rnd : M W bool) (len i : Z) (d : list Z) : M W bool :=
  r ← rnd;
  if (r : bool) then mret true
  else if len - i <? Z.of_nat (length d) then mret true
  else
    same ← memeq_out i d;
    if (same : bool) then mret true
    else f ← memchr_eff i (Z.of_nat (length d)); mret (negb f).

(** The tokens at offset [i]; returns [last_len]. *)
Fixpoint over_loop (rnd : M W bool) (len i : Z) (l : list (list Z)) (last_len : nat) : M W nat :=
  match l with
  | [] => mret last_len
  | d :: l =>
      skip ← over_skip rnd len i d;
      if (skip : bool) then sub_max 1;; over_loop rnd len i l last_len
      else
        memcpy_out i d;;
        run;;
        inc_cur;;
        over_loop rnd len i l (length d)
  end.

(** [memcpy(out_buf + i, in_buf + i, last_len)] *)
Definition restore_from (in_buf : list Z) (i : Z) (last_len : nat) : M W unit :=
  if decide (in_range last_len in_buf i)
  then memcpy_out i (take last_len (drop (Z.to_nat i) in_buf))
  else fun _ => UB.

(** One round of the outer loop. *)
Definition over_at (rnd : M W bool) (len : Z) (in_buf : list Z) (l : list (list Z)) (i : Z)
  : M W unit :=
  modify (set_byte i);;
  last_len ← over_loop rnd len i l 0;
  restore_from in_buf i last_len.

Definition extras_over (rnd : M W bool) (len : Z) (in_buf : list Z) (l : list (list Z)) : M W unit :=
  for_range (Z.to_nat len) 0 (over_at rnd len in_buf l).

(** [memcpy(ex_tmp + i, l, length l)] on the scratch buffer *)
Definition memcpy_ex (ex_tmp : list Z) (i : Z) (l : list Z) : M W (list Z) := fun s =>
  if decide (in_range (length l) ex_tmp i) then Ret (write_at ex_tmp i l) s else UB.

(** The insertions at offset [i]; the scratch buffer is returned. *)
Fixpoint insert_loop (len i : Z) (l : list (list Z)) (ex_tmp : list Z) : M W (list Z) :=
  match l with
  | [] => mret ex_tmp
  | d :: l =>
      let dlen := Z.of_nat (length d) in
      if MAX_FILE <? len + dlen then sub_max 1;; insert_loop len i l ex_tmp
      else
        ex_tmp ← memcpy_ex ex_tmp i d;
        out ← gets out_buf;
        ex_tmp ← memcpy_ex ex_tmp (i + dlen) (drop (Z.to_nat i) out);
        run_on (take (Z.to_nat (len + dlen)) ex_tmp);;
        inc_cur;;
        insert_loop len i l ex_tmp
  end.

(** [out_buf[i]], where [slack] is the byte of the allocation behind the test case, if
    it has one *)
Definition read_out (slack : option Z) (i : Z) : M W Z := fun s =>
  match (out_buf s ++ option_list slack) !! Z.to_nat i with Some b => Ret b s | None => UB end.

(** [for (i = 0; i <= len; ++i) { ...; ex_tmp[i] = out_buf[i]; }], from offset [i] on *)
Fixpoint extras_insert (n : nat) (i len : Z) (slack : option Z) (l : list (list Z))
    (ex_tmp : list Z) : M W unit :=
  match n with
  | O => mret tt
  | S n =>
      modify (set_byte i);;
      ex_tmp ← insert_loop len i l ex_tmp;
      b ← read_out slack i;
      ex_tmp ← memcpy_ex ex_tmp i [b];
      extras_insert n (i + 1) len slack l ex_tmp
  end.

(** "user extras (over)" *)
Definition stage_extras_UO (len : Z) (in_buf : list Z) (max_det_extras : Z) (extras : list (list Z))
  : M W unit :=
  let extras_cnt := Z.of_nat (length extras) in
  modify (fun s => set_stage 0 (extras_cnt * len) s);;
  modify (set_val_type STAGE_VAL_NONE);;
  extras_over (rand_skip extras_cnt max_det_extras) len in_buf extras;;
  end_stage STAGE_EXTRAS_UO.

(** "user extras (insert)"; [ex_tmp] has [len + MAX_DICT_FILE] bytes *)
Definition stage_extras_UI (len : Z) (slack : option Z) (ex_tmp : list Z) (extras : list (list Z))
  : M W unit :=
  let extras_cnt := Z.of_nat (length extras) in
  modify (fun s => set_stage 0 (extras_cnt * (len + 1)) s);;
  extras_insert (Z.to_nat (len + 1)) 0 len slack extras ex_tmp;;
  end_stage STAGE_EXTRAS_UI.

(** "auto extras (over)": the first [USE_AUTO_EXTRAS] tokens *)
Definition stage_extras_AO (len : Z) (in_buf : list Z) (a_extras : list (list Z)) : M W unit :=
  let min_extra_len := Z.min (Z.of_nat (length a_extras)) USE_AUTO_EXTRAS in
  modify (fun s => set_stage 0 (min_extra_len * len) s);;
  modify (set_val_type STAGE_VAL_NONE);;
  extras_over (mret false) len in_buf (take (Z.to_nat min_extra_len) a_extras);;
  end_stage STAGE_EXTRAS_AO.

(** "auto extras (insert)": all of them *)
Definition stage_extras_AI (len : Z) (slack : option Z) (ex_tmp : list Z) (a_extras : list (list Z))
  : M W unit :=
  let a_extras_cnt := Z.of_nat (length a_extras) in
  modify (fun s => set_stage 0 (a_extras_cnt * (len + 1)) s);;
  extras_insert (Z.to_nat (len + 1)) 0 len slack a_extras ex_tmp;;
  end_stage STAGE_EXTRAS_AI.

(** Each insertion stage asks for the scratch buffer anew ([ex_ui], [ex_ai]) and finds
    whatever it held. *)
Definition dictionary_stages (len : Z) (in_buf : list Z) (slack : option Z) (ex_ui ex_ai : list Z)
    (max_det_extras : Z) (extras a_extras : list (list Z)) : M W unit :=
  (match extras with
   | [] => mret tt
   | _ => stage_extras_UO len in_buf max_det_extras extras;;
          stage_extras_UI len slack ex_ui extras
   end);;
  match a_extras with
  | [] => mret tt
  | _ => stage_extras_AO len in_buf a_extras;; stage_extras_AI len slack ex_ai a_extras
  end.
End extras_stages.

(** ** Writing tokens into a buffer *)

Lemma length_write_at b i l :
  in_range (length l) b i -> length (write_at b i l) = length b.
Proof.
  intros [Hi Hl]. unfold write_at. rewrite !length_app, length_take, length_drop. lia.
Qed.

Lemma write_at_nil b i : 0 <= i -> write_at b i [] = b.
Proof. intros. unfold write_at. simpl. by rewrite Nat.add_0_r, take_drop. Qed.

(** A longer write at the same offset hides a shorter one. *)
Lemma write_at_over b i p d :
  in_range (length d) b i -> (length p <= length d)%nat ->
  write_at (write_at b i p) i d = write_at b i d.
Proof.
  intros [Hi Hd] Hp. unfold write_at.
  assert (Hl : length (take (Z.to_nat i) b) = Z.to_nat i) by (rewrite length_take; lia).
  rewrite take_app_length' by done. do 2 f_equal.
  rewrite drop_app_ge by lia. rewrite Hl, drop_app_ge by lia. rewrite drop_drop. f_equal. lia.
Qed.

(** Writing the original bytes back. *)
Lemma write_at_restore b i p :
  in_range (length p) b i ->
  write_at (write_at b i p) i (take (length p) (drop (Z.to_nat i) b)) = b.
Proof.
  intros Hr. assert (Hl : length (take (length p) (drop (Z.to_nat i) b)) = length p).
  { destruct Hr. rewrite length_take, length_drop. lia. }
  rewrite write_at_over by (rewrite ?Hl; done).
  unfold write_at. rewrite Hl, <- drop_drop, take_drop. apply take_drop.
Qed.

(** Reading back what was written is reading the token. *)
Lemma write_at_same b i d :
  in_range (length d) b i -> take (length d) (drop (Z.to_nat i) b) = d -> write_at b i d = b.
Proof.
  intros [Hi Hd] Hs. unfold write_at. rewrite <- Hs at 1. rewrite <- drop_drop, take_drop.
  apply take_drop.
Qed.

(** ** Overwriting: what is run and what is restored *)

(** All overwrites at one offset, and at all of them. *)
Definition over_cands_at (len : Z) (buf : list Z) (l : list (list Z)) (i : Z) : list (list Z) :=
  flat_map (fun d => if len - i <? Z.of_nat (length d) then [] else [write_at buf i d]) l.

Section over.
Context {W : Type} `{!Fuzzer W} `{!Random W}.
Implicit Types (s : det W) (buf e : list Z).

(** A decision that only draws random numbers. *)
Definition rnd_ok (rnd : M W bool) : Prop := forall s, exists r w, rnd s = Ret r (set_world w s).
Definition rnd_never (rnd : M W bool) : Prop := forall s, rnd s = Ret false s.

Lemma rand_skip_ok cnt mx : rnd_ok (rand_skip cnt mx).
Proof.
  intros s. unfold rand_skip. case_match; [destruct (below _ _) as [r w]; by do 2 eexists|].
  exists false, (world s). by destruct s.
Qed.

Lemma rand_skip_never cnt mx : cnt <= mx -> rnd_never (rand_skip cnt mx).
Proof. intros H s. unfold rand_skip. by rewrite (proj2 (Z.ltb_ge mx cnt) H). Qed.

Lemma mret_false_ok : rnd_ok (mret false).
Proof. intros s. exists false, (world s). by destruct s. Qed.

(** The skip test never reads outside the buffers; it skips only what does not fit, is
    there already, has no flagged block, or was drawn to be skipped. *)
Lemma over_skip_eval rnd len buf e i d s :
  rnd_ok rnd -> Z.of_nat (length (out_buf s)) = len -> eff_map s = e -> eff_ok len e ->
  0 <= i < len ->
  exists skip w, over_skip rnd len i d s = Ret skip (set_world w s)
    /\ (skip = false -> in_range (length d) (out_buf s) i)
    /\ (skip = true -> rnd_never rnd ->
        len - i < Z.of_nat (length d)
        \/ take (length d) (drop (Z.to_nat i) (out_buf s)) = d
        \/ span_flagged e i (Z.of_nat (length d)) = false).
Proof.
  intros Hr Hb He Hok Hi. unfold over_skip, mbind, M_bind.
  destruct (Hr s) as (r & w & Hrs). rewrite Hrs. destruct r.
  { exists true, w. split; [done|]. split; [done|]. intros _ Hn. rewrite Hn in Hrs. done. }
  destruct (Z.ltb_spec (len - i) (Z.of_nat (length d))) as [Hl|Hl].
  { exists true, w. split; [done|]. split; [done|]. tauto. }
  assert (Hin : in_range (length d) (out_buf s) i) by (unfold in_range; lia).
  unfold memeq_out. cbn [out_buf set_world]. rewrite decide_True by done.
  case_bool_decide as Hsame.
  { exists true, w. split; [done|]. split; [done|]. tauto. }
  unfold memchr_eff. cbn [eff_map set_world]. rewrite decide_True.
  - exists (negb (span_flagged e i (Z.of_nat (length d)))), w. rewrite He. split; [done|].
    split; [done|]. rewrite negb_true_iff. tauto.
  - assert (Hd : (1 <= length d)%nat) by (destruct d; [by destruct Hsame|simpl; lia]).
    revert Hok. unfold eff_ok, EFF_SPAN_ALEN. rewrite EFF_ALEN_div, !EFF_APOS_div, He.
    intros Hok. dlia.
Qed.

(** From [s] to [s'] the target was run on some of [cands], in their order; [tot]
    candidates were accounted for. *)
Definition picked s s' (cands : list (list Z)) (tot : Z) : Prop :=
  same_stats s s' /\ exists c, c `sublist_of` cands /\ inputs s' = inputs s ++ c
    /\ stage_cur s' = stage_cur s + Z.of_nat (length c)
    /\ stage_max s' = stage_max s - (tot - Z.of_nat (length c)).

Definition stopped s s' (cands : list (list Z)) : Prop :=
  stage_cycles s' = stage_cycles s
  /\ exists c, c `sublist_of` cands /\ inputs s' = inputs s ++ c.

Lemma picked_trans s1 s2 s3 c1 c2 t1 t2 :
  picked s1 s2 c1 t1 -> picked s2 s3 c2 t2 -> picked s1 s3 (c1 ++ c2) (t1 + t2).
Proof.
  intros ((Hf1 & Hc1 & Ho1) & l1 & Hs1 & Hi1 & Hcur1 & Hm1)
         ((Hf2 & Hc2 & Ho2) & l2 & Hs2 & Hi2 & Hcur2 & Hm2).
  split; [unfold same_stats; rewrite Hf2, Hc2, Ho2; done|].
  exists (l1 ++ l2). split; [by apply sublist_app|].
  rewrite Hi2, Hi1, Hcur2, Hcur1, Hm2, Hm1, app_assoc, length_app. split; [done|]. lia.
Qed.

Lemma picked_stopped s1 s2 s3 c1 c2 t1 :
  picked s1 s2 c1 t1 -> stopped s2 s3 c2 -> stopped s1 s3 (c1 ++ c2).
Proof.
  intros ((_ & Hc1 & _) & l1 & Hs1 & Hi1 & _) (Hc2 & l2 & Hs2 & Hi2).
  split; [congruence|]. exists (l1 ++ l2). split; [by apply sublist_app|].
  by rewrite Hi2, Hi1, app_assoc.
Qed.

Lemma stopped_weaken s s' c1 c2 : stopped s s' c1 -> stopped s s' (c1 ++ c2).
Proof.
  intros (Hc & l & Hs & Hi). split; [done|]. exists l. split; [|done].
  etrans; [exact Hs|]. apply sublist_inserts_r. done.
Qed.

Lemma picked_refl s s' tot cands :
  same_stats s s' -> inputs s' = inputs s -> stage_cur s' = stage_cur s ->
  stage_max s' = stage_max s - tot -> picked s s' cands tot.
Proof.
  intros H1 H2 H3 H4. split; [done|]. exists []. rewrite app_nil_r, H2, H3, H4. simpl.
  split; [apply sublist_nil_l|]. split; [done|]. lia.
Qed.

Definition seen buf s (x : list Z) : Prop := x = buf \/ x ∈ inputs s.

Lemma seen_mono buf s s' c t x : picked s s' c t -> seen buf s x -> seen buf s' x.
Proof.
  intros (_ & l & _ & Hi & _) [->|Hx]; [by left|]. right. rewrite Hi. set_solver.
Qed.

(** One run in the buffer as it is. *)
Lemma run_picked s :
  match run s with
  | Ret _ s' => (out_buf s' = out_buf s /\ eff_map s' = eff_map s)
      /\ inputs s' = inputs s ++ [out_buf s] /\ stage_cur s' = stage_cur s
      /\ stage_max s' = stage_max s /\ same_stats s s'
  | Abandon s' => stopped s s' [out_buf s]
  | UB => False
  end.
Proof.
  unfold run. destruct (common_fuzz_stuff _ _) as [w []].
  - split; [done|]. exists [out_buf s]. split; [done|]. unfold inputs; simpl. by rewrite fmap_app.
  - unfold inputs; simpl. rewrite fmap_app. done.
Qed.

(** The buffer holds [p] over the original at [i], and was run or is the original. *)
Definition over_state buf e i p s : Prop :=
  out_buf s = write_at buf i p /\ eff_map s = e /\ seen buf s (write_at buf i p)
  /\ in_range (length p) buf i.

(** Writing a token, running it and counting. *)
Lemma over_write buf e i p d s :
  over_state buf e i p s -> (length p <= length d)%nat -> in_range (length d) buf i ->
  match (memcpy_out i d;; run;; inc_cur) s with
  | Ret _ s' => over_state buf e i d s' /\ picked s s' [write_at buf i d] 1
  | Abandon s' => stopped s s' [write_at buf i d]
  | UB => False
  end.
Proof.
  intros (Hb & He & Hseen & Hp) Hpd Hd. unfold memcpy_out, mbind, M_bind. rewrite Hb.
  rewrite decide_True by (unfold in_range in *; by rewrite length_write_at).
  rewrite write_at_over by done. set (s1 := set_buf (write_at buf i d) s).
  pose proof (run_picked s1) as Hr. destruct (run s1) as [[] s2|s2|]; [|exact Hr|done].
  destruct Hr as ((Ho & Hef) & Hi & Hc & Hm & Hst). simpl.
  split.
  - split; [done|]. split; [simpl; rewrite Hef; exact He|]. split; [|done]. right.
    change (write_at buf i d ∈ inputs s2). rewrite Hi. set_solver.
  - split; [exact Hst|]. exists [write_at buf i d]. split; [done|]. split; [exact Hi|].
    simpl. rewrite Hc, Hm. simpl. lia.
Qed.

(** The tokens that must have been tried at an offset. *)
Definition over_due len e (i : Z) (d : list Z) : Prop :=
  Z.of_nat (length d) <= len - i /\ span_flagged e i (Z.of_nat (length d)) = true.

(** What the walk over the tokens [l] at offset [i] leaves behind. *)
Definition over_post rnd len buf e i (l : list (list Z)) s (o : outcome W nat) : Prop :=
  match o with
  | Ret n s' =>
      (exists p', n = length p' /\ over_state buf e i p' s')
      /\ picked s s' (over_cands_at len buf l i) (Z.of_nat (length l))
      /\ (rnd_never rnd -> forall d, d ∈ l -> over_due len e i d -> seen buf s' (write_at buf i d))
  | Abandon s' => stopped s s' (over_cands_at len buf l i)
  | UB => False
  end.

Lemma over_cands_cons len buf d l i :
  over_cands_at len buf (d :: l) i = over_cands_at len buf [d] i ++ over_cands_at len buf l i.
Proof. unfold over_cands_at. cbn [flat_map]. by rewrite app_nil_r. Qed.

(** Extending the walk in front by one token that was dealt with between [s] and [s1]. *)
Lemma over_post_cons rnd len buf e i d l s s1 o :
  picked s s1 (over_cands_at len buf [d] i) 1 ->
  (rnd_never rnd -> over_due len e i d -> seen buf s1 (write_at buf i d)) ->
  over_post rnd len buf e i l s1 o -> over_post rnd len buf e i (d :: l) s o.
Proof.
  intros H1 Hd Ho. unfold over_post in *.
  rewrite over_cands_cons. destruct o as [n s2|s2|]; [|by eapply picked_stopped|done].
  destruct Ho as (Hpost & Hpk & Hdue). split; [done|].
  split; [replace (Z.of_nat (length (d :: l))) with (1 + Z.of_nat (length l)) by (simpl; lia);
          by eapply picked_trans|].
  intros Hn d' Hd' Hdue'. apply elem_of_cons in Hd' as [->|Hd']; [|by apply Hdue].
  eapply seen_mono; [exact Hpk|]. auto.
Qed.

(** A token found in the buffer already has been seen. *)
Lemma over_same buf e i p d s :
  over_state buf e i p s -> (length p <= length d)%nat -> in_range (length d) buf i ->
  take (length d) (drop (Z.to_nat i) (out_buf s)) = d -> seen buf s (write_at buf i d).
Proof.
  intros (Hob & _ & Hseen & Hin) Hpd Hind Hsame. rewrite Hob in Hsame.
  rewrite <- (write_at_over buf i p d) by done.
  rewrite write_at_same; [exact Hseen| |done]. unfold in_range in *. by rewrite length_write_at.
Qed.

Lemma over_loop_picks rnd len buf e i l p s :
  rnd_ok rnd -> Z.of_nat (length buf) = len -> eff_ok len e -> 0 <= i < len ->
  by_len l -> Forall (fun d => length p <= length d)%nat l -> over_state buf e i p s ->
  over_post rnd len buf e i l s (over_loop rnd len i l (length p) s).
Proof.
  intros Hr Hb He Hi. revert p s. induction l as [|d l IH]; intros p s Hs Hp Hst.
  { simpl. split; [by exists p|]. split; [|intros _ d Hd; by apply not_elem_of_nil in Hd].
    apply picked_refl; [done..|simpl; lia]. }
  apply StronglySorted_inv in Hs as [Hs Hd]. apply Forall_cons in Hp as [Hpd Hp].
  assert (Hlen : Z.of_nat (length (out_buf s)) = len).
  { destruct Hst as (-> & _ & _ & Hin). by rewrite length_write_at. }
  destruct (over_skip_eval rnd len buf e i d s Hr Hlen (proj1 (proj2 Hst)) He Hi)
    as (skip & w & Heq & Hno & Hyes).
  cbn [over_loop]. unfold mbind at 1, M_bind at 1. rewrite Heq. destruct skip.
  - set (s1 := set_stage (stage_cur s) (stage_max s - 1) (set_world w s)).
    change ((sub_max 1;; over_loop rnd len i l (length p)) (set_world w s))
      with (over_loop rnd len i l (length p) s1).
    apply over_post_cons with s1; [by apply picked_refl| |by apply IH].
    intros Hn [Hfit Hspan]. destruct (Hyes eq_refl Hn) as [?|[Hsame|?]]; [lia| |congruence].
    apply (over_same buf e i p d s); [done..| |done]. unfold in_range. lia.
  - set (s1 := set_world w s).
    assert (Hind : in_range (length d) buf i).
    { specialize (Hno eq_refl). unfold in_range in *. lia. }
    assert (Hcand : over_cands_at len buf [d] i = [write_at buf i d]).
    { unfold over_cands_at. simpl. destruct (Z.ltb_spec (len - i) (Z.of_nat (length d)));
        [destruct Hind; lia|done]. }
    pose proof (over_write buf e i p d s1 Hst ltac:(done) Hind) as Hw.
    assert (Hassoc : (memcpy_out i d;; run;; inc_cur;; over_loop rnd len i l (length d)) s1
      = ((memcpy_out i d;; run;; inc_cur);; over_loop rnd len i l (length d)) s1).
    { unfold mbind, M_bind. destruct (memcpy_out i d s1) as [? s2|?|]; [|done..].
      by destruct (run s2). }
    rewrite Hassoc. unfold mbind at 1, M_bind at 1.
    destruct ((memcpy_out i d;; run;; inc_cur) s1) as [[] s2|s2|]; [| |done].
    + destruct Hw as [Hst2 Hpk]. apply over_post_cons with s2; [by rewrite Hcand| |by apply IH].
      intros _ _. apply Hst2.
    + unfold over_post. rewrite over_cands_cons, Hcand. by apply stopped_weaken.
Qed.

(** One offset: walk the tokens, then put the original bytes back. *)
Lemma over_offset rnd len buf e i l s :
  rnd_ok rnd -> buf_ok len buf -> eff_ok len e -> 0 <= i < len -> by_len l -> mem_is buf e s ->
  match over_at rnd len buf l i s with
  | Ret _ s' =>
      mem_is buf e s' /\ picked s s' (over_cands_at len buf l i) (Z.of_nat (length l))
      /\ (rnd_never rnd -> forall d, d ∈ l -> over_due len e i d -> seen buf s' (write_at buf i d))
  | Abandon s' => stopped s s' (over_cands_at len buf l i)
  | UB => False
  end.
Proof.
  intros Hr [_ Hb] He Hi Hs [Hbuf Hef].
  set (s1 := set_byte i s).
  pose proof (over_loop_picks rnd len buf e i l [] s1 Hr Hb He Hi Hs) as H.
  unfold over_at, mbind at 1, M_bind at 1. cbn [modify]. fold s1.
  unfold mbind, M_bind. specialize (H ltac:(apply Forall_forall; intros; simpl; lia)).
  specialize (H ltac:(split; [rewrite write_at_nil by lia; exact Hbuf|]; split; [exact Hef|];
    split; [left; apply write_at_nil; lia|unfold in_range; simpl; lia])). cbn [length] in H.
  destruct (over_loop rnd len i l 0 s1) as [n s2|s2|]; [|exact H|done].
  destruct H as ((p & -> & Hob & Hef2 & _ & Hin) & Hpk & Hdue).
  unfold restore_from. rewrite decide_True by done. unfold memcpy_out. rewrite Hob.
  assert (Hl : length (take (length p) (drop (Z.to_nat i) buf)) = length p).
  { destruct Hin. rewrite length_take, length_drop. lia. }
  rewrite decide_True by (unfold in_range in *; rewrite Hl, length_write_at; done).
  rewrite write_at_restore by done. split; [by split|]. split; [exact Hpk|]. exact Hdue.
Qed.

Definition over_cands len buf (l : list (list Z)) (n : nat) (i : Z) : list (list Z) :=
  flat_map (over_cands_at len buf l) (seqZ i (Z.of_nat n)).

Lemma extras_over_from rnd len buf e l n i s :
  rnd_ok rnd -> buf_ok len buf -> eff_ok len e -> by_len l -> mem_is buf e s ->
  0 <= i -> i + Z.of_nat n <= len ->
  match for_range n i (over_at rnd len buf l) s with
  | Ret _ s' =>
      mem_is buf e s' /\ picked s s' (over_cands len buf l n i) (Z.of_nat n * Z.of_nat (length l))
      /\ (rnd_never rnd -> forall j d, i <= j < i + Z.of_nat n -> d ∈ l -> over_due len e j d ->
          seen buf s' (write_at buf j d))
  | Abandon s' => stopped s s' (over_cands len buf l n i)
  | UB => False
  end.
Proof.
  intros Hr Hb He Hs. revert i s. induction n as [|n IH]; intros i s Hm Hi Hn.
  { simpl. split; [done|]. split; [by apply picked_refl; [..|lia]|]. intros; lia. }
  pose proof (over_offset rnd len buf e i l s Hr Hb He ltac:(lia) Hs Hm) as H.
  cbn [for_range]. unfold mbind at 1, M_bind at 1. unfold over_cands.
  rewrite seqZ_cons by lia. replace (Z.pred (Z.of_nat (S n))) with (Z.of_nat n) by lia.
  rewrite <- Z.add_1_r. cbn [flat_map]. fold (over_cands len buf l n (i + 1)).
  destruct (over_at rnd len buf l i s) as [[] s1|s1|]; [|by apply stopped_weaken|done].
  destruct H as (Hm1 & Hp1 & Hd1). specialize (IH (i + 1) s1 Hm1 ltac:(lia) ltac:(lia)).
  destruct (for_range n (i + 1) (over_at rnd len buf l) s1) as [[] s2|s2|]; [|by eapply picked_stopped|done].
  destruct IH as (Hm2 & Hp2 & Hd2). split; [done|]. split.
  - replace (Z.of_nat (S n) * Z.of_nat (length l))
      with (Z.of_nat (length l) + Z.of_nat n * Z.of_nat (length l)) by lia.
    by eapply picked_trans.
  - intros Hnv j d Hj Hd Hdue. destruct (decide (j = i)) as [->|]; [|apply Hd2; auto with lia].
    eapply seen_mono; [exact Hp2|]. auto.
Qed.
End over.

(** ** Insertion *)

Definition insert_cands_at (len : Z) (buf : list Z) (l : list (list Z)) (i : Z) : list (list Z) :=
  flat_map (fun d => if MAX_FILE <? len + Z.of_nat (length d) then []
                     else [take (Z.to_nat i) buf ++ d ++ drop (Z.to_nat i) buf]) l.

Lemma write_at_take b i l : in_range (length l) b i -> take (Z.to_nat i) (write_at b i l) = take (Z.to_nat i) b.
Proof.
  intros [Hi Hl]. unfold write_at. rewrite take_app_length' by (rewrite length_take; lia). done.
Qed.

(** A token, then the tail of the test case, behind an intact head. *)
Lemma insertion_content b ex i d :
  0 <= i <= Z.of_nat (length b) -> take (Z.to_nat i) ex = take (Z.to_nat i) b ->
  Z.of_nat (length b) + Z.of_nat (length d) <= Z.of_nat (length ex) ->
  take (Z.to_nat (Z.of_nat (length b) + Z.of_nat (length d)))
    (write_at (write_at ex i d) (i + Z.of_nat (length d)) (drop (Z.to_nat i) b))
  = take (Z.to_nat i) b ++ d ++ drop (Z.to_nat i) b.
Proof.
  intros Hi Hex Hl.
  assert (Hl1 : length (write_at ex i d) = length ex) by (apply length_write_at; unfold in_range; lia).
  assert (Hh : take (Z.to_nat (i + Z.of_nat (length d))) (write_at ex i d) = take (Z.to_nat i) b ++ d).
  { unfold write_at. rewrite app_assoc, take_app_length'.
    - by rewrite Hex.
    - rewrite length_app, length_take. lia. }
  unfold write_at at 1. rewrite Hh, app_assoc, take_app_length'; [by rewrite <- app_assoc|].
  rewrite !length_app, length_take, length_drop. lia.
Qed.

Section insertion.
Context {W : Type} `{!Fuzzer W}.
Implicit Types (buf e : list Z).

Lemma does_run_on_then {A} (P : det W -> Prop) b (k : M W A) Q c dc tot :
  mem_only P -> does P k Q c dc tot -> does P (run_on b;; k) Q (b :: c) dc tot.
Proof.
  intros HP. apply (does_seq _ _ k P _ [b] c 0 dc 0 tot).
  intros s Hs. unfold run_on. destruct (common_fuzz_stuff _ _) as [w []].
  - split; [|done]. exists 1%nat. split; [simpl; lia|]. unfold inputs; simpl. by rewrite fmap_app.
  - unfold inputs; simpl. rewrite fmap_app. repeat split; try lia. by apply (HP s).
Qed.

Lemma does_memcpy_ex {A} P ex i l (k : list Z -> M W A) Q c dc tot :
  in_range (length l) ex i -> does P (k (write_at ex i l)) Q c dc tot ->
  does P (memcpy_ex ex i l ≫= k) Q c dc tot.
Proof.
  intros Hr Hk s Hs. unfold memcpy_ex, mbind, M_bind. rewrite decide_True by done. by apply Hk.
Qed.

(** The scratch buffer is large enough and holds the head of the test case. *)
Definition ex_ok (len : Z) buf (i : Z) (ex : list Z) : Prop :=
  len + MAX_DICT_FILE <= Z.of_nat (length ex) /\ take (Z.to_nat i) ex = take (Z.to_nat i) buf.

Lemma counts_insert_loop len buf e i l ex :
  Z.of_nat (length buf) = len -> 0 <= i <= len ->
  Forall (fun d => Z.of_nat (length d) <= MAX_DICT_FILE) l -> ex_ok len buf i ex ->
  counts (mem_is (W:=W) buf e) (insert_loop len i l ex)
    (fun ex' s => ex_ok len buf i ex' /\ mem_is buf e s)
    (insert_cands_at len buf l i) (Z.of_nat (length l)).
Proof.
  intros Hb Hi Hl. revert ex. induction Hl as [|d l Hd Hl IH]; intros ex Hex; cbn [insert_loop].
  { by apply does_ret. }
  unfold insert_cands_at. cbn [flat_map].
  destruct (Z.ltb_spec MAX_FILE (len + Z.of_nat (length d))).
  - eapply does_conseq; [eapply (does_seq (mem_is buf e) _ _ (mem_is buf e));
      [apply does_sub_max; auto with afl|by apply IH]|done|done|done|done|simpl; lia].
  - destruct Hex as [Hcap Hhead].
    assert (Hr1 : in_range (length d) ex i) by (unfold in_range; lia).
    assert (Hr2 : in_range (length (drop (Z.to_nat i) buf)) (write_at ex i d) (i + Z.of_nat (length d))).
    { unfold in_range. rewrite length_write_at, length_drop by done. lia. }
    assert (Hex2 : ex_ok len buf i
      (write_at (write_at ex i d) (i + Z.of_nat (length d)) (drop (Z.to_nat i) buf))).
    { split; [by rewrite !length_write_at|].
      transitivity (take (Z.to_nat i) (take (Z.to_nat (i + Z.of_nat (length d)))
        (write_at (write_at ex i d) (i + Z.of_nat (length d)) (drop (Z.to_nat i) buf)))).
      { rewrite take_take. f_equal. lia. }
      rewrite write_at_take, take_take, Nat.min_l, write_at_take by (done || lia). done. }
    apply does_memcpy_ex; [done|].
    eapply does_then with (R := fun b s => b = buf /\ mem_is buf e s).
    { intros s Hs. simpl. rewrite app_nil_r. destruct (Hs). repeat split; try done; lia. }
    intros out. apply does_pure. intros ->. apply does_memcpy_ex; [done|].
    rewrite <- Hb at 1. rewrite insertion_content by (done || lia).
    eapply does_conseq; [apply (does_run_on_then (mem_is buf e)); [auto with afl|];
      apply (does_inc_then (mem_is buf e)); [auto with afl|]; by apply IH|done|done|done
      |unfold insert_cands_at; cbn [length app]; lia|cbn [length]; lia].
Qed.

Definition insert_cands len buf (l : list (list Z)) (n : nat) (i : Z) : list (list Z) :=
  flat_map (insert_cands_at len buf l) (seqZ i (Z.of_nat n)).

(** Copying byte [i] extends the head. *)
Lemma ex_ok_head len buf i ex b :
  Z.of_nat (length buf) = len -> 0 <= i < len -> buf !! Z.to_nat i = Some b ->
  ex_ok len buf i ex -> ex_ok len buf (i + 1) (write_at ex i [b]).
Proof.
  unfold ex_ok, MAX_DICT_FILE. intros Hb Hi Hlk [Hcap Hh].
  assert (Hr : in_range (length [b]) ex i) by (unfold in_range; simpl; lia).
  split; [by rewrite length_write_at|].
  replace (Z.to_nat (i + 1)) with (S (Z.to_nat i)) by lia.
  rewrite (take_S_r buf _ b) by done. rewrite <- Hh.
  unfold write_at. rewrite app_assoc, take_app_length'; [done|].
  rewrite length_app, length_take. simpl. lia.
Qed.

Lemma counts_extras_insert len buf e slack l n i ex :
  Z.of_nat (length buf) = len -> is_Some slack -> 0 <= i -> i + Z.of_nat n = len + 1 ->
  Forall (fun d => Z.of_nat (length d) <= MAX_DICT_FILE) l -> ex_ok len buf i ex ->
  counts (mem_is (W:=W) buf e) (extras_insert n i len slack l ex) (fun _ => mem_is buf e)
    (insert_cands len buf l n i) (Z.of_nat n * Z.of_nat (length l)).
Proof.
  intros Hb [sl ->] . revert i ex. induction n as [|n IH]; intros i ex Hi Hn Hl Hex.
  { by apply does_ret. }
  cbn [extras_insert]. unfold insert_cands. rewrite seqZ_cons by lia.
  replace (Z.pred (Z.of_nat (S n))) with (Z.of_nat n) by lia.
  rewrite <- Z.add_1_r. cbn [flat_map]. fold (insert_cands len buf l n (i + 1)).
  replace (Z.of_nat (S n) * Z.of_nat (length l))
    with (Z.of_nat (length l) + Z.of_nat n * Z.of_nat (length l)) by lia.
  silent. unfold counts. rewrite length_app, Nat2Z.inj_add.
  eapply does_bind; [apply counts_insert_loop; [done|lia|done|done]|].
  intros ex'. apply does_pure. intros Hex'.
  destruct (lookup_lt_is_Some_2 (buf ++ [sl]) (Z.to_nat i)) as [b Hlk];
    [rewrite length_app; simpl; lia|].
  eapply does_then with (R := fun b' s => b' = b /\ mem_is buf e s).
  { intros s Hs. unfold read_out. destruct (Hs) as [-> _]. simpl. rewrite Hlk, app_nil_r.
    repeat split; try apply Hs; lia. }
  intros b'. apply does_pure. intros ->.
  apply does_memcpy_ex; [destruct Hex'; unfold in_range, MAX_DICT_FILE in *; simpl; lia|].
  destruct (decide (i = len)) as [->|Hne].
  - replace n with 0%nat by lia. by apply does_ret.
  - apply IH; [lia|lia|done|]. apply ex_ok_head; [done|lia| |done].
    rewrite lookup_app_l in Hlk by lia. done.
Qed.
End insertion.

(** ** The stages *)

(** What an overwriting stage [k] leaves behind: the test case is back, the inputs run are
    overwrites of the intact test case by one fitting token, in order, each counted once;
    and if no token was skipped at random, every fitting token over a span with a flagged
    block was run (or its bytes were already there). *)
Definition over_stage_post {W} (k : stage_id) (complete : Prop) len buf e (l : list (list Z))
    (s : det W) (o : outcome W unit) : Prop :=
  match o with
  | Ret _ s' =>
      mem_is buf e s'
      /\ (exists c, c `sublist_of` flat_map (over_cands_at len buf l) (seqZ 0 len)
          /\ inputs s' = inputs s ++ c
          /\ stage_cur s' = Z.of_nat (length c) /\ stage_max s' = Z.of_nat (length c)
          /\ stage_cycles s' = bump (stage_cycles s) k (Z.of_nat (length c)))
      /\ (complete -> forall j d, 0 <= j < len -> d ∈ l -> over_due len e j d ->
          seen buf s' (write_at buf j d))
  | Abandon s' => exists c, c `sublist_of` flat_map (over_cands_at len buf l) (seqZ 0 len)
      /\ inputs s' = inputs s ++ c
  | UB => False
  end.

Section stages.
Context {W : Type} `{!Fuzzer W} `{!Random W}.
Implicit Types (s : det W).

Lemma over_stage k rnd len buf e l cnt vt s :
  rnd_ok rnd -> buf_ok len buf -> eff_ok len e -> by_len l -> mem_is buf e s -> 0 <= len ->
  cnt = Z.of_nat (length l) ->
  over_stage_post k (rnd_never rnd) len buf e l s
    ((modify (fun s => set_stage 0 (cnt * len) s);; modify (set_val_type vt);;
      extras_over rnd len buf l;; end_stage k) s).
Proof.
  intros Hr Hb He Hs Hm Hl ->.
  set (s1 := set_val_type vt (set_stage 0 (Z.of_nat (length l) * len) s)).
  change ((modify (fun s => set_stage 0 (Z.of_nat (length l) * len) s);;
    modify (set_val_type vt);; extras_over rnd len buf l;; end_stage k) s)
    with ((extras_over rnd len buf l;; end_stage k) s1).
  pose proof (extras_over_from rnd len buf e l (Z.to_nat len) 0 s1 Hr Hb He Hs Hm
    ltac:(lia) ltac:(lia)) as H.
  unfold over_cands in H. rewrite Z2Nat.id in H by lia.
  unfold extras_over, mbind, M_bind.
  destruct (for_range (Z.to_nat len) 0 (over_at rnd len buf l) s1) as [[] s2|s2|]; [| |done].
  - destruct H as (Hm2 & ((_ & Hcy & _) & c & Hsub & Hi & Hc & Hx) & Hdue).
    split; [exact Hm2|]. split; [|exact Hdue].
    exists c. split; [done|]. split; [exact Hi|]. simpl in *.
    rewrite Hc, Hx, Hcy. split; [lia|]. split; [lia|]. f_equal. lia.
  - destruct H as (_ & c & Hsub & Hi). by exists c.
Qed.
End stages.

Lemma extras_over_exact {W} `{!Fuzzer W} `{!Random W} len max_det buf e extras a_extras
    (s : det W) :
  buf_ok len buf -> eff_ok len e -> mem_is buf e s ->
  by_len extras -> by_len (take (Z.to_nat USE_AUTO_EXTRAS) a_extras) ->
  over_stage_post STAGE_EXTRAS_UO (Z.of_nat (length extras) <= max_det) len buf e extras s
    (stage_extras_UO len buf max_det extras s)
  /\ over_stage_post STAGE_EXTRAS_AO True len buf e (take (Z.to_nat USE_AUTO_EXTRAS) a_extras) s
    (stage_extras_AO len buf a_extras s).
Proof.
  intros Hb He Hm Hs Ha. assert (Hl : 0 <= len) by (destruct Hb; lia).
  assert (Hweak : forall k (P P' : Prop) l o, (P' -> P) ->
    over_stage_post k P len buf e l s o -> over_stage_post k P' len buf e l s o).
  { intros k P P' l o HP Ho. unfold over_stage_post in *. destruct o; [|done..].
    destruct Ho as (? & ? & Hd). split; [done|]. split; [done|]. auto. }
  split.
  - eapply Hweak; [|apply over_stage; [apply rand_skip_ok|done..]].
    intros Hc. by apply rand_skip_never.
  - unfold stage_extras_AO.
    assert (Ht : take (Z.to_nat (Z.min (Z.of_nat (length a_extras)) USE_AUTO_EXTRAS)) a_extras
      = take (Z.to_nat USE_AUTO_EXTRAS) a_extras).
    { destruct (decide (Z.of_nat (length a_extras) <= USE_AUTO_EXTRAS)).
      - rewrite !take_ge by lia. done.
      - by rewrite Z.min_r by lia. }
    rewrite Ht. eapply Hweak; [|apply over_stage; [apply mret_false_ok|done..|]].
    + by intros _ s'.
    + rewrite length_take. unfold USE_AUTO_EXTRAS. lia.
Qed.

(** The overwriting dictionary stages are memory safe, restore the test case although
    they write it back only once per offset, run nothing but the test case with one
    fitting token over it, and miss no token over a flagged span unless there are more
    than [max_det_extras] of them.  They rely on the order by size of the dictionary. *)
Theorem extras_over_correct {W} `{!Fuzzer W} `{!Random W} len max_det buf e extras a_extras
    (s : det W) :
  buf_ok len buf -> eff_ok len e -> mem_is buf e s ->
  by_len extras -> by_len (take (Z.to_nat USE_AUTO_EXTRAS) a_extras) ->
  over_stage_post STAGE_EXTRAS_UO (Z.of_nat (length extras) <= max_det) len buf e extras s
    (stage_extras_UO len buf max_det extras s)
  /\ over_stage_post STAGE_EXTRAS_AO True len buf e (take (Z.to_nat USE_AUTO_EXTRAS) a_extras) s
    (stage_extras_AO len buf a_extras s).
Proof. apply extras_over_exact. Qed.

(** A source of randomness for evaluating the stages. *)
#[global] Instance sample_random : Random (list Z * Z) := {|
  below w l := (0, w);
  below_small w l _ := eq_refl;
  below_range w l H := conj (Z.le_refl 0) (Z.lt_trans 0 1 l Z.lt_0_1 H);
|}.

Lemma extras_over_correct_witness :
  stage_extras_UO 3 [1; 2; 3] 256 [[9]; [8; 8]] (sample_det [1; 2; 3] [1]) <> UB.
Proof.
  intros H.
  destruct (extras_over_correct 3 256 [1; 2; 3] [1] [[9]; [8; 8]] [] (sample_det [1; 2; 3] [1]))
    as [Hc _].
  - split; [byte_list|reflexivity].
  - vm_compute. discriminate.
  - split; reflexivity.
  - repeat constructor.
  - constructor.
  - rewrite H in Hc. exact Hc.
Defined.

Lemma extras_insert_exact {W} `{!Fuzzer W} len buf e slack ex extras (s : det W) :
  buf_ok len buf -> mem_is buf e s -> is_Some slack ->
  Forall (fun d => Z.of_nat (length d) <= MAX_DICT_FILE) extras ->
  len + MAX_DICT_FILE <= Z.of_nat (length ex) ->
  let c := flat_map (insert_cands_at len buf extras) (seqZ 0 (len + 1)) in
  performs (mem_is buf e) (stage_extras_UI len slack ex extras) (stage_post buf e) c
    [(STAGE_EXTRAS_UI, Z.of_nat (length c))]
  /\ performs (mem_is buf e) (stage_extras_AI len slack ex extras) (stage_post buf e) c
    [(STAGE_EXTRAS_AI, Z.of_nat (length c))].
Proof.
  intros [_ Hb] Hm Hsl Hl Hex c.
  pose proof (counts_extras_insert (W:=W) len buf e slack extras (Z.to_nat (len + 1)) 0 ex Hb Hsl
    ltac:(lia) ltac:(lia) Hl (conj Hex eq_refl)) as H.
  unfold insert_cands in H. rewrite Z2Nat.id in H by lia. fold c in H.
  assert (Hstage : forall k, performs (mem_is (W:=W) buf e)
    (modify (fun s => set_stage 0 (Z.of_nat (length extras) * (len + 1)) s);;
     extras_insert (Z.to_nat (len + 1)) 0 len slack extras ex;; end_stage k) (stage_post buf e) c
    [(k, Z.of_nat (length c))]).
  { intros k. eapply performs_modify; [|done..|apply (performs_stage (mem_is buf e)); [auto with afl|exact H]].
    intros s' Hs'. split; [exact Hs'|]. split; [done|simpl; lia]. }
  split; apply Hstage.
Qed.

(** The insertion stages run exactly the test case with one token inserted, for every
    offset up to its end and every token that keeps it within MAX_FILE, in order, and
    never write outside the scratch buffer, provided the byte behind the test case can
    be read. *)
Theorem extras_insert_correct {W} `{!Fuzzer W} len buf e slack ex extras (s : det W) :
  buf_ok len buf -> mem_is buf e s -> is_Some slack ->
  Forall (fun d => Z.of_nat (length d) <= MAX_DICT_FILE) extras ->
  len + MAX_DICT_FILE <= Z.of_nat (length ex) ->
  let c := flat_map (insert_cands_at len buf extras) (seqZ 0 (len + 1)) in
  performs (mem_is buf e) (stage_extras_UI len slack ex extras) (stage_post buf e) c
    [(STAGE_EXTRAS_UI, Z.of_nat (length c))]
  /\ performs (mem_is buf e) (stage_extras_AI len slack ex extras) (stage_post buf e) c
    [(STAGE_EXTRAS_AI, Z.of_nat (length c))].
Proof. apply extras_insert_exact. Qed.

Lemma extras_insert_correct_witness :
  performs (mem_is [1; 2] [1]) (stage_extras_UI (W := list Z * Z) 2 (Some 0) (replicate 130 0) [[9]])
    (stage_post [1; 2] [1]) [[9; 1; 2]; [1; 9; 2]; [1; 2; 9]] [(STAGE_EXTRAS_UI, 3)].
Proof.
  apply (extras_insert_correct 2 [1; 2] [1] (Some 0) (replicate 130 0) [[9]]
    (sample_det [1; 2] [1])).
  - split; [byte_list|reflexivity].
  - split; reflexivity.
  - by eexists.
  - repeat constructor. unfold MAX_DICT_FILE. simpl. lia.
  - vm_compute. discriminate.
Defined.

(** Copying the head goes one byte too far: after the last offset the insertion stages
    read [out_buf[len]], which is outside the allocation when it ends with the test
    case. *)
Theorem extras_insert_reads_past_end :
  stage_extras_UI 2 None (replicate 130 0) [[9]] (sample_det [1; 2] [1]) = UB.
Proof. vm_compute. reflexivity. Qed.
