(* ===== verification/Mopt.v ===== *)
(** * The deterministic and dictionary stages of MOpt (src/aflplusplus/src/afl-fuzz-one.c)

    [mopt_common_fuzzing] repeats the deterministic and dictionary stages of
    [fuzz_one_original] statement for statement (lines 3287 to 4497; the two texts
    differ in casts of non-negative operands and in [i++] / [++i] only), so each of its
    stages is the definition of the other copy, and the guarantees carry over. *)
From S2P Require Import Prelude OneHelpers Rng DetStages DetTriples DetFlips DetEffector.
From S2P Require Import DetArith DetTheorems ExtrasTheorems ExtrasStages.

Section mopt.
Context {W : Type} `{!Fuzzer W} `{!Random W}.

Definition mopt_flip1 : Z -> bool -> M W Z := stage_flip1.
Definition mopt_flip2 : Z -> M W unit := stage_flip2.
Definition mopt_flip4 : Z -> M W unit := stage_flip4.
Definition mopt_flip8 : Z -> bool -> Z -> M W unit := stage_flip8.
Definition mopt_flip16 : Z -> M W unit := stage_flip16.
Definition mopt_flip32 : Z -> M W unit := stage_flip32.
Definition mopt_arith8 : Z -> M W unit := stage_arith8.
Definition mopt_arith16 : Z -> M W unit := stage_arith16.
Definition mopt_arith32 : Z -> M W unit := stage_arith32.
Definition mopt_interest8 : Z -> M W unit := stage_interest8.
Definition mopt_interest16 : Z -> M W unit := stage_interest16.
Definition mopt_interest32 : Z -> M W unit := stage_interest32.
Definition mopt_extras_UO : Z -> list Z -> Z -> list (list Z) -> M W unit := stage_extras_UO.
Definition mopt_extras_UI : Z -> option Z -> list Z -> list (list Z) -> M W unit := stage_extras_UI.
Definition mopt_extras_AO : Z -> list Z -> list (list Z) -> M W unit := stage_extras_AO.
Definition mopt_extras_AI : Z -> option Z -> list Z -> list (list Z) -> M W unit := stage_extras_AI.

Definition mopt_det_stages (len : Z) (non_instrumented_mode no_arith : bool) : M W unit :=
  prev_cksum ← mopt_flip1 len non_instrumented_mode;
  mopt_flip2 len;;
  mopt_flip4 len;;
  mopt_flip8 len non_instrumented_mode prev_cksum;;
  (if len <? 2 then mret tt
   else mopt_flip16 len;; if len <? 4 then mret tt else mopt_flip32 len);;
  (if no_arith then mret tt
   else
     mopt_arith8 len;;
     if len <? 2 then mret tt
     else mopt_arith16 len;; if len <? 4 then mret tt else mopt_arith32 len);;
  mopt_interest8 len;;
  (if no_arith || (len <? 2) then mret tt
   else mopt_interest16 len;; if len <? 4 then mret tt else mopt_interest32 len).

Definition mopt_dictionary_stages (len : Z) (in_buf : list Z) (slack : option Z)
    (ex_ui ex_ai : list Z) (max_det_extras : Z) (extras a_extras : list (list Z)) : M W unit :=
  (match extras with
   | [] => mret tt
   | _ => mopt_extras_UO len in_buf max_det_extras extras;;
          mopt_extras_UI len slack ex_ui extras
   end);;
  match a_extras with
  | [] => mret tt
  | _ => mopt_extras_AO len in_buf a_extras;; mopt_extras_AI len slack ex_ai a_extras
  end.
End mopt.

(** MOpt's copy of the stages gives the guarantees of the original: the deterministic
    stages are memory safe, run the enumerated inputs and restore the test case; the
    overwriting dictionary stages restore it too; the insertion stages run exactly the
    insertions. *)
Theorem mopt_stages_correct {W} `{!Fuzzer W} `{!Random W} len nim no_arith buf e sl ex max_det
    extras a_extras (s : det W) :
  buf_ok len buf -> eff_ok len e -> 1 <= len -> mem_is buf e s ->
  by_len extras -> by_len (take (Z.to_nat USE_AUTO_EXTRAS) a_extras) ->
  Forall (fun d => Z.of_nat (length d) <= MAX_DICT_FILE) extras ->
  len + MAX_DICT_FILE <= Z.of_nat (length ex) ->
  det_post len no_arith buf s (mopt_det_stages len nim no_arith s)
  /\ over_stage_post STAGE_EXTRAS_UO (Z.of_nat (length extras) <= max_det) len buf e extras s
       (mopt_extras_UO len buf max_det extras s)
  /\ over_stage_post STAGE_EXTRAS_AO True len buf e (take (Z.to_nat USE_AUTO_EXTRAS) a_extras) s
       (mopt_extras_AO len buf a_extras s)
  /\ let c := flat_map (insert_cands_at len buf extras) (seqZ 0 (len + 1)) in
     performs (mem_is buf e) (mopt_extras_UI len (Some sl) ex extras) (stage_post buf e) c
       [(STAGE_EXTRAS_UI, Z.of_nat (length c))].
Proof.
  intros Hb He Hl Hm Hs Ha Hd Hex. split; [by apply (det_stages_exact len nim no_arith buf e s)|].
  destruct (extras_over_exact len max_det buf e extras a_extras s) as [H1 H2]; [done..|].
  split; [exact H1|]. split; [exact H2|].
  by apply (extras_insert_exact len buf e (Some sl) ex extras s).
Qed.

Lemma mopt_stages_correct_witness :
  mopt_det_stages 2 true true (sample_det [0x41; 0x42] [0]) <> UB.
Proof.
  intros H. destruct (mopt_stages_correct 2 true true [0x41; 0x42] [0] 0 (replicate 130 0) 256 [[9]] []
    (sample_det [0x41; 0x42] [0])) as [Hc _].
  - split; [byte_list|reflexivity].
  - vm_compute. discriminate.
  - lia.
  - split; reflexivity.
  - repeat constructor.
  - constructor.
  - repeat constructor. unfold MAX_DICT_FILE. simpl. lia.
  - vm_compute. discriminate.
  - rewrite H in Hc. exact Hc.
Defined.
