(* ===== verification/Havoc.v ===== *)
(** * The random stages of fuzz_one (src/aflplusplus/src/afl-fuzz-one.c)

    "havoc" stacks random edits on the test case, runs the target, and puts the test case
    back; "splice" glues the test case to another one and starts over with the result.
    The edits are the cases of one large switch.  Each is a program of the small monad
    [H], over the buffer [out_buf] (its length is [temp_len]) and the rest of the fuzzer,
    from which the random numbers come.  An access outside a buffer, or a [memcpy] between
    overlapping blocks, is [Oob]; a [do ... while] that draws again until the draw is
    usable carries fuel and ends in [Starved] without it.

    Custom mutators are not loaded ([custom_mutators_count == 0]).  Where the C code leaves
    the order of two draws open, the model draws the position first. *)
From S2P Require Import Prelude OneHelpers Rng DetStages ExtrasStages.

(** ** What the stages see of the queue *)

Class Corpus (W : Type) `{!Fuzzer W} `{!Random W} := {
  (** the test cases of [afl->queue_buf], as [queue_testcase_get] returns them *)
  queue_buf : W -> list (list Z);
  queue_cycle : W -> Z;
  run_over10m : W -> bool;
  expand_havoc : W -> bool;
  (** [get_cur_time() - afl->last_find_time > 5000] *)
  no_recent_find : W -> bool;
  havoc_div : W -> Z;
  havoc_div_pos : forall w, 0 < havoc_div w;
  (** [queued_items] is a u32, and test cases are files of at most MAX_FILE bytes *)
  queue_small : forall w, Z.of_nat (length (queue_buf w)) < 2 ^ 32;
  queue_entries : forall w, Forall (fun e => Forall byte_ok e /\ Z.of_nat (length e) <= MAX_FILE) (queue_buf w);
  (** drawing a random number leaves the queue alone *)
  queue_below : forall w limit, queue_buf (below w limit).2 = queue_buf w;
  (** a run can only add entries *)
  queue_run : forall w b, queue_buf w `prefix_of` queue_buf (common_fuzz_stuff w b).1;
}.

(** ** The monad *)

Inductive hout (W A : Type) := Done (a : A) (buf : list Z) (w : W) | Oob | Starved.
Arguments Done {W A}. Arguments Oob {W A}. Arguments Starved {W A}.

Definition H (W A : Type) : Type := list Z -> W -> hout W A.

#[export] Instance H_ret W : MRet (H W) := fun A a b w => Done a b w.
#[export] Instance H_bind W : MBind (H W) := fun A B k m b w =>
  match m b w with
  | Done a b w => k a b w
  | Oob => Oob
  | Starved => Starved
  end.

(** The settings of the fuzzer a stage reads; they do not change while it runs. *)
Record havoc_cfg := HavocCfg {
  extras : list (list Z);
  a_extras : list (list Z);
  cmplog_ascii : bool;      (* cmplog_binary && queue_cur->is_ascii *)
  current_entry : Z;
  havoc_stack_pow2 : Z;
  havoc_max_mult : Z;
  use_splicing : bool;
}.

Definition MAX_HAVOC_ENTRY : Z := 64.
Definition MUTATE_ASCII_DICT : Z := 64.
Definition HAVOC_CYCLES : Z := 256.
Definition HAVOC_CYCLES_INIT : Z := 1024.
Definition HAVOC_MIN : Z := 12.
Definition HAVOC_MAX_MULT : Z := 64.
Definition SPLICE_CYCLES : Z := 15.
Definition SPLICE_HAVOC : Z := 32.

Section havoc.
Context {W : Type} `{!Fuzzer W} `{!Random W} `{!Corpus W}.
(** What fresh memory holds, and the fuel of the loops that draw again. *)
Context (junk : Z) (patience : nat).
Context (c : havoc_cfg).

(** ** Primitives *)

Definition temp_len : H W Z := fun b w => Done (Z.of_nat (length b)) b w.
Definition set_out (b : list Z) : H W unit := fun _ w => Done tt b w.
Definition queue : H W (list (list Z)) := fun b w => Done (queue_buf w) b w.

(** [rand_below(afl, limit)] *)
Definition roll (limit : Z) : H W Z := fun b w => let '(x, w) := below w limit in Done x b w.
Definition block_len (limit : Z) : H W Z := fun b w =>
  let '(x, w) := choose_block_len (queue_cycle w) (run_over10m w) w limit in Done x b w.

(** [do { x = rand_below(afl, limit); } while (bad x);] *)
Fixpoint reroll (fuel : nat) (limit : Z) (bad : Z -> bool) : H W Z :=
  match fuel with
  | O => fun _ _ => Starved
  | S fuel => x ← roll limit; if bad x then reroll fuel limit bad else mret x
  end.

(** The bytes [src + from], [n] of them. *)
Definition read_from (src : list Z) (from n : Z) : H W (list Z) := fun b w =>
  if decide (0 <= n /\ in_range (Z.to_nat n) src from)
  then Done (take (Z.to_nat n) (drop (Z.to_nat from) src)) b w else Oob.
Definition read_out (from n : Z) : H W (list Z) := fun b w => read_from b from n b w.

(** [memcpy(dst + i, l, length l)] on a buffer of the stage's own *)
Definition copy_to (dst : list Z) (i : Z) (l : list Z) : H W (list Z) := fun b w =>
  if decide (in_range (length l) dst i) then Done (write_at dst i l) b w else Oob.

(** [memcpy(out_buf + i, l, length l)], [memset] and [memmove] *)
Definition write_out (i : Z) (l : list Z) : H W unit := fun b w =>
  if decide (in_range (length l) b i) then Done tt (write_at b i l) w else Oob.
Definition memset_out (i x n : Z) : H W unit := write_out i (replicate (Z.to_nat n) (u8 x)).
Definition memmove_out (to from n : Z) : H W unit := l ← read_out from n; write_out to l.

(** [memcpy(out_buf + to, out_buf + from, n)]: the blocks must not overlap *)
Definition memcpy_out_out (to from n : Z) : H W unit :=
  if decide (from + n <= to \/ to + n <= from) then memmove_out to from n else fun _ _ => Oob.

Definition peek (n : nat) (i : Z) : H W Z := fun b w =>
  if decide (in_range n b i) then Done (ld n b i) b w else Oob.
Definition poke (n : nat) (i v : Z) : H W unit := fun b w =>
  if decide (in_range n b i) then Done tt (st n b i v) w else Oob.

Definition pick {A} (l : list A) (i : Z) : H W A := fun b w =>
  match l !! Z.to_nat i with Some x => Done x b w | None => Oob end.

(** [out_buf = afl_realloc(AFL_BUF_PARAM(out), n)] *)
Definition realloc_out (n : Z) : H W unit := fun b w =>
  Done tt (take (Z.to_nat n) (b ++ replicate (Z.to_nat n - length b) junk)) w.

(** [if (temp_len < k) { break; }] *)
Definition at_least (k : Z) (m : H W unit) : H W unit :=
  l ← temp_len; if l <? k then mret tt else m.

(** ** Edits of bytes and words *)

Definition swap_n (n : nat) (v : Z) : Z :=
  if Nat.eqb n 2 then SWAP16 v else if Nat.eqb n 4 then SWAP32 v else v.

(** A position for an [n]-byte value: [rand_below(afl, temp_len - (n - 1))]. *)
Definition position (n : nat) : H W Z :=
  l ← temp_len; roll (u32 (l - (Z.of_nat n - 1))).

Definition flip_at (b : Z) : H W unit :=
  x ← peek 1 (b ≫ 3); poke 1 (b ≫ 3) (Z.lxor x (128 ≫ Z.land b 7)).

Definition op_flip_bit : H W unit :=
  l ← temp_len; b ← roll (u32 (l ≪ 3)); flip_at b.

Definition op_interesting (n : nat) (big_endian : bool) (table : list Z) : H W unit :=
  pos ← position n;
  k ← roll (Z.of_nat (length table));
  v ← pick table k;
  poke n pos (if big_endian then swap_n n v else v).

(** [*(uN * )(out_buf + pos) -= 1 + rand_below(afl, ARITH_MAX)] and its variants; [sg] is
    1 or -1 *)
Definition op_arith (n : nat) (big_endian : bool) (sg : Z) : H W unit :=
  pos ← position n;
  d ← roll ARITH_MAX;
  let num := 1 + d in
  x ← peek n pos;
  poke n pos (if big_endian then swap_n n (swap_n n x + sg * num) else x + sg * num).

Definition op_xor (n : nat) (mask : Z) : H W unit :=
  pos ← position n; x ← peek n pos; poke n pos (Z.lxor x mask).

Definition op_random_byte : H W unit :=
  pos ← position 1; d ← roll 255; x ← peek 1 pos; poke 1 pos (Z.lxor x (1 + d)).

Definition op_add_byte (d : Z) : H W unit :=
  pos ← position 1; x ← peek 1 pos; poke 1 pos (x + d).

(** ** Edits of blocks *)

(** The new buffer: head, inserted block, tail. *)
Definition insert_block (alloc clone_to clone_len : Z) (block : H W (list Z)) : H W unit :=
  l ← temp_len;
  let new_buf := replicate (Z.to_nat alloc) junk in
  head ← read_out 0 clone_to;
  new_buf ← copy_to new_buf 0 head;
  mid ← block;
  new_buf ← copy_to new_buf clone_to mid;
  tail ← read_out clone_to (u32 (l - clone_to));
  new_buf ← copy_to new_buf (clone_to + clone_len) tail;
  set_out (take (Z.to_nat (u32 (l + clone_len))) new_buf).

(** [rand_below(afl, 2) ? rand_below(afl, 256) : out_buf[rand_below(afl, temp_len)]] *)
Definition fill_byte : H W Z :=
  k ← roll 2;
  if negb (k =? 0) then roll 256
  else l ← temp_len; i ← roll l; peek 1 i.

(** [if (temp_len + HAVOC_BLK_XL < MAX_FILE)] *)
Definition room_to_grow (m : H W unit) : H W unit :=
  l ← temp_len; if u32 (l + HAVOC_BLK_XL) <? MAX_FILE then m else mret tt.

Definition op_clone : H W unit := room_to_grow (
  l ← temp_len;
  clone_len ← block_len l;
  clone_from ← roll (u32 (l - clone_len + 1));
  clone_to ← roll l;
  insert_block (u32 (l + clone_len)) clone_to clone_len (read_out clone_from clone_len)).

Definition op_insert_const : H W unit := room_to_grow (
  l ← temp_len;
  clone_len ← block_len HAVOC_BLK_XL;
  clone_to ← roll l;
  insert_block (u32 (l + clone_len)) clone_to clone_len
    (x ← fill_byte; mret (replicate (Z.to_nat clone_len) (u8 x)))).

Definition op_overwrite_copy : H W unit := at_least 2 (
  l ← temp_len;
  copy_len ← block_len (u32 (l - 1));
  copy_from ← roll (u32 (l - copy_len + 1));
  copy_to ← roll (u32 (l - copy_len + 1));
  if copy_from =? copy_to then mret tt else memmove_out copy_to copy_from copy_len).

Definition op_overwrite_fixed : H W unit := at_least 2 (
  l ← temp_len;
  copy_len ← block_len (u32 (l - 1));
  copy_to ← roll (u32 (l - copy_len + 1));
  x ← fill_byte;
  memset_out copy_to x copy_len).

Definition op_switch : H W unit := at_least 4 (
  l ← temp_len;
  switch_from ← roll l;
  switch_to ← reroll patience l (fun x => switch_from =? x);
  let '(switch_len, to_end) :=
    if switch_from <? switch_to
    then (u32 (switch_to - switch_from), u32 (l - switch_to))
    else (u32 (switch_from - switch_to), u32 (l - switch_from)) in
  switch_len ← block_len (Z.min switch_len to_end);
  new_buf ← read_out switch_from switch_len;
  memcpy_out_out switch_from switch_to switch_len;;
  write_out switch_to new_buf).

Definition op_delete : H W unit := at_least 2 (
  l ← temp_len;
  del_len ← block_len (u32 (l - 1));
  del_from ← roll (u32 (l - del_len + 1));
  memmove_out del_from (del_from + del_len) (u32 (l - del_from - del_len));;
  b ← read_out 0 (u32 (l - del_len));
  set_out b).

(** ** Dictionary tokens *)

Definition op_extra_over (tokens : list (list Z)) : H W unit :=
  use_extra ← roll (Z.of_nat (length tokens));
  token ← pick tokens use_extra;
  let extra_len := Z.of_nat (length token) in
  l ← temp_len;
  if l <? extra_len then mret tt
  else
    insert_at ← roll (u32 (l - extra_len + 1));
    write_out insert_at token.

(** The tail moves up inside the grown buffer, then the token is copied in. *)
Definition insert_token (insert_at : Z) (token : list Z) : H W unit :=
  let extra_len := Z.of_nat (length token) in
  l ← temp_len;
  realloc_out (l + extra_len);;
  memmove_out (insert_at + extra_len) insert_at (u32 (l - insert_at));;
  write_out insert_at token.

Definition op_extra_insert (tokens : list (list Z)) : H W unit :=
  use_extra ← roll (Z.of_nat (length tokens));
  token ← pick tokens use_extra;
  l ← temp_len;
  if MAX_FILE <=? u32 (l + Z.of_nat (length token)) then mret tt
  else
    insert_at ← roll (u32 (l + 1));
    insert_token insert_at token.

(** ** Blocks of another test case *)

Definition unfit (q : list (list Z)) (tid : Z) : bool :=
  match q !! Z.to_nat tid with
  | Some e => (tid =? current_entry c) || (Z.of_nat (length e) <? 4)
  | None => false
  end.

(** [do { tid = rand_below(afl, queued_items); } while (tid == current_entry || ...)] *)
Definition pick_other : H W (list Z) :=
  q ← queue;
  tid ← reroll patience (Z.of_nat (length q)) (unfit q);
  pick q tid.

Definition splice_over (new_buf : list Z) : H W unit :=
  let new_len := Z.of_nat (length new_buf) in
  l ← temp_len;
  copy_len ← block_len (u32 (new_len - 1));
  let copy_len := if l <? copy_len then l else copy_len in
  copy_from ← roll (u32 (new_len - copy_len + 1));
  copy_to ← roll (u32 (l - copy_len + 1));
  block ← read_from new_buf copy_from copy_len;
  write_out copy_to block.

Definition splice_insert (new_buf : list Z) : H W unit :=
  let new_len := Z.of_nat (length new_buf) in
  l ← temp_len;
  clone_len ← block_len new_len;
  clone_from ← roll (u32 (new_len - clone_len + 1));
  clone_to ← roll (u32 (l + 1));
  insert_block (u32 (l + clone_len + 1)) clone_to clone_len (read_from new_buf clone_from clone_len).

(** [odd] is [r % 2], or another draw *)
Definition op_splice (odd : H W bool) : H W unit :=
  new_buf ← pick_other;
  l ← temp_len;
  over ← (if 2 <=? l then odd else mret false);
  if (over : bool) || (MAX_FILE <=? u32 (l + HAVOC_BLK_XL)) then splice_over new_buf
  else splice_insert new_buf.

(** ** The switch *)

Definition r_cmp : Z := if cmplog_ascii c then MUTATE_ASCII_DICT ≫ 1 else 2.

(** [add_to_queue] counts the test cases longer than 4 bytes, trimming takes them off. *)
Definition ready_for_splicing_count (w : W) : Z :=
  Z.of_nat (length (filter (fun e => (4 < length e)%nat) (queue_buf w))).

Definition r_max (w : W) : Z :=
  (MAX_HAVOC_ENTRY + 1) + (match extras c with [] => 0 | _ => 4 end)
  + (match a_extras c with [] => 0 | _ => if cmplog_ascii c then MUTATE_ASCII_DICT else 4 end)
  + (if expand_havoc w && (1 <? ready_for_splicing_count w) then 4 else 0)
  + (if no_recent_find w && (1 <? ready_for_splicing_count w) then 4 else 0).

(** Automatic tokens, then splicing; [r] counts from the first automatic token. *)
Definition havoc_auto (r : Z) : H W unit :=
  match a_extras c with
  | [] => op_splice (mret (Z.odd r))
  | tokens =>
      if r <? r_cmp then op_extra_over tokens
      else if r <? r_cmp ≪ 1 then op_extra_insert tokens
      else op_splice (mret (Z.odd (r - (r_cmp ≪ 1))))
  end.

(** [default:] *)
Definition havoc_default (r : Z) : H W unit :=
  match extras c with
  | [] => havoc_auto r
  | tokens =>
      if r <? 2 then op_extra_over tokens
      else if r <? 4 then op_extra_insert tokens
      else havoc_auto (r - 4)
  end.

Definition havoc_op (r : Z) : H W unit :=
  if r <=? 3 then op_flip_bit
  else if r <=? 7 then op_interesting 1 false interesting_8
  else if r <=? 9 then at_least 2 (op_interesting 2 false interesting_16)
  else if r <=? 11 then at_least 2 (op_interesting 2 true interesting_16)
  else if r <=? 13 then at_least 4 (op_interesting 4 false interesting_32)
  else if r <=? 15 then at_least 4 (op_interesting 4 true interesting_32)
  else if r <=? 19 then op_arith 1 false (-1)
  else if r <=? 23 then op_arith 1 false 1
  else if r <=? 25 then at_least 2 (op_arith 2 false (-1))
  else if r <=? 27 then at_least 2 (op_arith 2 true (-1))
  else if r <=? 29 then at_least 2 (op_arith 2 false 1)
  else if r <=? 31 then at_least 2 (op_arith 2 true 1)
  else if r <=? 33 then at_least 4 (op_arith 4 false (-1))
  else if r <=? 35 then at_least 4 (op_arith 4 true (-1))
  else if r <=? 37 then at_least 4 (op_arith 4 false 1)
  else if r <=? 39 then at_least 4 (op_arith 4 true 1)
  else if r <=? 43 then op_random_byte
  else if r <=? 46 then op_clone
  else if r <=? 47 then op_insert_const
  else if r <=? 50 then op_overwrite_copy
  else if r <=? 51 then op_overwrite_fixed
  else if r <=? 52 then op_add_byte 1
  else if r <=? 53 then op_add_byte (-1)
  else if r <=? 54 then op_xor 1 0xff
  else if r <=? 56 then op_switch
  else if r <=? MAX_HAVOC_ENTRY then op_delete
  else havoc_default (r - (MAX_HAVOC_ENTRY + 1)).

(** The inner loop: [use_stacking] edits on top of each other. *)
Fixpoint stacked (rmax : Z) (n : nat) : H W unit :=
  match n with
  | O => mret tt
  | S n => r ← roll rmax; havoc_op r;; stacked rmax n
  end.

(** ** The stage *)

(** [out_buf], the fuzzer, [stage_max], [perf_score], [havoc_queued], the inputs run, and
    what a variant of the stage counts besides. *)
Context {X : Type}.
Record stage := Stage {
  s_out : list Z;
  s_world : W;
  s_max : Z;
  s_perf : Z;
  s_queued : Z;
  s_runs : list (list Z);
  s_counts : X;
}.

Inductive sout := Finished (s : stage) | Abandoned (s : stage) | Wild | Endless.

(** [out_buf = afl_realloc(AFL_BUF_PARAM(out), len); memcpy(out_buf, in_buf, len);] *)
Definition restore (in_buf : list Z) : H W unit :=
  realloc_out (Z.of_nat (length in_buf));; write_out 0 in_buf.

(** After a run on [out]: the test case put back, and more rounds when the run found
    something. *)
Definition settle (in_buf out : list Z) (w : W) (x : X) (s : stage) : sout :=
  let runs := s_runs s ++ [out] in
  match restore in_buf out w with
  | Oob => Wild
  | Starved => Endless
  | Done _ out w =>
      let queued_items := Z.of_nat (length (queue_buf w)) in
      if queued_items =? s_queued s
      then Finished (Stage out w (s_max s) (s_perf s) (s_queued s) runs x)
      else if s_perf s <=? havoc_max_mult c * 100
      then Finished (Stage out w (u32 (s_max s * 2)) (u32 (s_perf s * 2)) queued_items runs x)
      else Finished (Stage out w (s_max s) (s_perf s) queued_items runs x)
  end.

(** One round: [2^(1 + rand_below(havoc_stack_pow2))] edits and a run. *)
Definition havoc_round (rmax : Z) (in_buf : list Z) (s : stage) : sout :=
  let '(k, w) := below (s_world s) (havoc_stack_pow2 c) in
  let use_stacking := u32 (1 ≪ (1 + k)) in
  match stacked rmax (Z.to_nat use_stacking) (s_out s) w with
  | Oob => Wild
  | Starved => Endless
  | Done _ out w =>
      let '(w, abandon) := common_fuzz_stuff w out in
      if abandon
      then Abandoned (Stage out w (s_max s) (s_perf s) (s_queued s) (s_runs s ++ [out]) (s_counts s))
      else settle in_buf out w (s_counts s) s
  end.

(** [for (stage_cur = 0; stage_cur < stage_max; ++stage_cur)] *)
Fixpoint stage_loop (round : stage -> sout) (fuel : nat) (cur : Z) (s : stage) : sout :=
  if cur <? s_max s then
    match fuel with
    | O => Endless
    | S fuel =>
        match round s with
        | Finished s => stage_loop round fuel (u32 (cur + 1)) s
        | o => o
        end
    end
  else Finished s.

(** From the label [havoc_stage]; [splice_cycle] is 0 in the first pass. *)
Definition run_stage (round : Z -> list Z -> stage -> sout) (rmax : W -> Z) (fuel : nat)
    (doing_det : bool) (orig_perf splice_cycle : Z) (in_buf : list Z) (s : stage) : sout :=
  let perf_score := if splice_cycle =? 0 then s_perf s else orig_perf in
  let cycles :=
    if splice_cycle =? 0 then (if doing_det then HAVOC_CYCLES_INIT else HAVOC_CYCLES) else SPLICE_HAVOC in
  let stage_max := u32 (cycles * perf_score) `div` havoc_div (s_world s) `div` 100 in
  let stage_max := if stage_max <? HAVOC_MIN then HAVOC_MIN else stage_max in
  stage_loop (round (rmax (s_world s)) in_buf) fuel 0
    (Stage (s_out s) (s_world s) stage_max perf_score (Z.of_nat (length (queue_buf (s_world s))))
       (s_runs s) (s_counts s)).

Definition havoc_stage : nat -> bool -> Z -> Z -> list Z -> stage -> sout := run_stage havoc_round r_max.

(** ** Splicing *)

(** Glue the test case to another one; [None] when the two hardly differ. *)
Definition splice_with (in_buf new_buf : list Z) : H W (option (list Z)) :=
  let '(f_diff, l_diff) :=
    locate_diffs in_buf new_buf
      (Z.min (Z.of_nat (length in_buf)) (Z.of_nat (length new_buf))) in
  if (f_diff <? 0) || (l_diff <? 2) || (f_diff =? l_diff) then mret None
  else
    d ← roll (u32 (l_diff - f_diff));
    let split_at := f_diff + d in
    let len := Z.of_nat (length new_buf) in
    let scratch := replicate (Z.to_nat len) junk in
    head ← read_from in_buf 0 split_at;
    scratch ← copy_to scratch 0 head;
    tail ← read_from new_buf 0 (u32 (len - split_at));
    scratch ← copy_to scratch split_at tail;
    mret (Some scratch).

(** From the label [retry_splicing] to the end, [orig_in] being the test case of the queue
    entry and [havoc] the stage each splice goes through.  [splice_cycle] counts the rounds
    up to [limit]. *)
Fixpoint splicing (limit : Z) (havoc : Z -> list Z -> stage -> sout) (cycles : nat) (splice_cycle : Z)
    (orig_in : list Z) (s : stage) : sout :=
  match cycles with
  | O => Endless
  | S cycles =>
      if use_splicing c && (splice_cycle <? limit) && (1 <? ready_for_splicing_count (s_world s))
         && (4 <=? Z.of_nat (length orig_in)) then
        match (new_buf ← pick_other; splice_with orig_in new_buf) (s_out s) (s_world s) with
        | Oob => Wild
        | Starved => Endless
        | Done None out w =>
            splicing limit havoc cycles (splice_cycle + 1) orig_in
              (Stage out w (s_max s) (s_perf s) (s_queued s) (s_runs s) (s_counts s))
        | Done (Some in_buf) out w =>
            match restore in_buf out w with
            | Oob => Wild
            | Starved => Endless
            | Done _ out w =>
                match havoc (splice_cycle + 1) in_buf
                        (Stage out w (s_max s) (s_perf s) (s_queued s) (s_runs s) (s_counts s)) with
                | Finished s => splicing limit havoc cycles (splice_cycle + 1) orig_in s
                | o => o
                end
            end
        end
      else Finished s
  end.

(** The random part of [fuzz_one_original]. *)
Definition random_stages (cycles fuel : nat) (doing_det : bool) (perf_score : Z) (in_buf : list Z)
    (w : W) (x : X) : sout :=
  let havoc := havoc_stage fuel doing_det perf_score in
  match havoc 0 in_buf (Stage in_buf w 0 perf_score 0 [] x) with
  | Finished s => splicing SPLICE_CYCLES havoc cycles 0 in_buf s
  | o => o
  end.
End havoc.

Arguments stage : clear implicits.
Arguments sout : clear implicits.
Arguments Stage {W X}.
Arguments s_out {W X}. Arguments s_world {W X}. Arguments s_max {W X}. Arguments s_perf {W X}.
Arguments s_queued {W X}. Arguments s_runs {W X}. Arguments s_counts {W X}.
Arguments Finished {W X}. Arguments Abandoned {W X}. Arguments Wild {W X}. Arguments Endless {W X}.
