(* ===== verification/HavocSpec.v ===== *)
(** * What the edits of the havoc stage do

    Each case of the switch of Havoc.v implements one of five abstract edits: a value
    written over a few bytes, a block written over or inserted, a block removed, two
    disjoint blocks exchanged.  The proofs are weakest-precondition steps over [H]: they
    show at once that no case reads or writes outside its buffers and that the length stays
    between 1 and MAX_FILE. *)
From S2P Require Import Prelude OneHelpers Rng DetStages ExtrasStages Havoc.

(** ** The abstract edits *)

Section edits.
Context (tokens others : list (list Z)).

(** Where written bytes come from. *)
Inductive material (b : list Z) : list Z -> Prop :=
| own_block i n : material b (take n (drop i b))
| constant_block x n : material b (replicate n (u8 x))
| token d : d ∈ tokens -> material b d
| other_block e i n : e ∈ others -> material b (take n (drop i e)).

Inductive edit : list Z -> list Z -> Prop :=
| edit_none b : edit b b
| edit_value b n i v : (n <= 4)%nat -> in_range n b i -> edit b (st n b i v)
| edit_over b i l : material b l -> in_range (length l) b i -> edit b (write_at b i l)
| edit_insert b i l : material b l -> (i <= length b)%nat -> edit b (take i b ++ l ++ drop i b)
| edit_delete p x s : x <> [] -> p ++ s <> [] -> edit (p ++ x ++ s) (p ++ s)
| edit_switch p x m y s : x <> [] -> length x = length y ->
    edit (p ++ x ++ m ++ y ++ s) (p ++ y ++ m ++ x ++ s).
End edits.

(** A test case. *)
Definition good (b : list Z) : Prop := Forall byte_ok b /\ 1 <= Z.of_nat (length b) <= MAX_FILE.

Lemma good_bounds b : good b -> 1 <= Z.of_nat (length b) <= 26214400.
Proof. by intros [_ ?]. Qed.

(** ** Writing into buffers made of parts *)

Lemma write_at_parts p x y s i :
  i = Z.of_nat (length p) -> length x = length y -> write_at (p ++ x ++ s) i y = p ++ y ++ s.
Proof.
  intros -> Hl. unfold write_at. rewrite Nat2Z.id, take_app_length, <- drop_drop, drop_app_length, <- Hl.
  by rewrite drop_app_length.
Qed.

Lemma write_at_front p r y i :
  i = Z.of_nat (length p) -> (length y <= length r)%nat ->
  write_at (p ++ r) i y = p ++ y ++ drop (length y) r.
Proof.
  intros Hi Hl. rewrite <- (take_drop (length y) r) at 1.
  apply write_at_parts; [done|]. rewrite length_take. lia.
Qed.

Lemma write_at_end b i l :
  0 <= i -> i + Z.of_nat (length l) = Z.of_nat (length b) -> write_at b i l = take (Z.to_nat i) b ++ l.
Proof. intros Hi Hl. unfold write_at. rewrite (drop_ge b) by lia. by rewrite app_nil_r. Qed.

Lemma write_at_material_ok b i l :
  Forall byte_ok b -> Forall byte_ok l -> Forall byte_ok (write_at b i l).
Proof. intros. unfold write_at. rewrite !Forall_app. auto with bytes. Qed.

(** Two disjoint blocks of a list. *)
Lemma two_blocks (b : list Z) (i j n : nat) :
  (i + n <= j)%nat -> (j + n <= length b)%nat ->
  exists p x m y s, b = p ++ x ++ m ++ y ++ s
    /\ take n (drop i b) = x /\ take n (drop j b) = y
    /\ length p = i /\ length x = n /\ length m = (j - i - n)%nat /\ length y = n.
Proof.
  intros Hij Hj. exists (take i b), (take n (drop i b)), (take (j - i - n) (drop (i + n) b)),
    (take n (drop j b)), (drop (j + n) b).
  rewrite !length_take, !length_drop. split; [|split; [done|split; [done|lia]]].
  rewrite <- (take_drop i b) at 1. f_equal.
  rewrite <- (take_drop n (drop i b)) at 1. f_equal. rewrite drop_drop.
  rewrite <- (take_drop (j - i - n) (drop (i + n) b)) at 1. f_equal. rewrite drop_drop.
  replace (i + n + (j - i - n))%nat with j by lia.
  by rewrite <- (take_drop n (drop j b)) at 1; rewrite drop_drop.
Qed.

Lemma one_block (b : list Z) (i n : nat) :
  (i + n <= length b)%nat ->
  exists p x s, b = p ++ x ++ s /\ length p = i /\ length x = n.
Proof.
  intros Hi. exists (take i b), (take n (drop i b)), (drop (i + n) b).
  rewrite !length_take, length_drop. split; [|lia].
  by rewrite <- drop_drop, take_drop, take_drop.
Qed.

(** ** Weakest preconditions *)

Section wp.
Context {W : Type} `{!Fuzzer W} `{!Random W} `{!Corpus W}.
Context (junk : Z).
Implicit Types (b : list Z) (w : W).

Definition wp {A} (m : H W A) (Q : A -> list Z -> W -> Prop) b w : Prop :=
  match m b w with Done a b w => Q a b w | _ => False end.

Lemma wp_ret {A} (a : A) Q b w : Q a b w -> wp (mret a) Q b w.
Proof. done. Qed.

Lemma wp_bind {A B} (m : H W A) (k : A -> H W B) Q b w :
  wp m (fun a => wp (k a) Q) b w -> wp (m ≫= k) Q b w.
Proof. unfold wp, mbind, H_bind. by destruct (m b w). Qed.

Lemma wp_mono {A} (m : H W A) (Q Q' : A -> list Z -> W -> Prop) b w :
  wp m Q b w -> (forall a b w, Q a b w -> Q' a b w) -> wp m Q' b w.
Proof. unfold wp. destruct (m b w); auto. Qed.

Lemma wp_temp_len (Q : Z -> list Z -> W -> Prop) b w : Q (Z.of_nat (length b)) b w -> wp temp_len Q b w.
Proof. done. Qed.

Lemma wp_set_out (b' : list Z) (Q : unit -> list Z -> W -> Prop) b w : Q tt b' w -> wp (set_out b') Q b w.
Proof. done. Qed.

Lemma wp_queue (Q : list (list Z) -> list Z -> W -> Prop) b w : Q (queue_buf w) b w -> wp queue Q b w.
Proof. done. Qed.

Lemma wp_roll limit (Q : Z -> list Z -> W -> Prop) b w :
  0 < limit ->
  (forall x w', 0 <= x < limit -> queue_buf w' = queue_buf w -> Q x b w') -> wp (roll limit) Q b w.
Proof.
  intros Hl HQ. unfold wp, roll. pose proof (below_bound w limit Hl) as Hx.
  pose proof (queue_below w limit) as Hq. destruct (below w limit) as [x w']. by apply HQ.
Qed.

Lemma choose_block_len_queue w0 limit :
  let r := choose_block_len (queue_cycle w0) (run_over10m w0) w0 limit in
  queue_buf r.2 = queue_buf w0 /\ (0 < limit < 2 ^ 32 -> 1 <= r.1 <= limit /\ r.1 <= HAVOC_BLK_XL).
Proof.
  simpl. pose proof (choose_block_len_range (queue_cycle w0) (run_over10m w0) w0 limit) as Hr.
  unfold choose_block_len in *. set (rl := if negb _ then _ else _) in *.
  pose proof (queue_below w0 rl) as Q1. destruct (below w0 rl) as [k w1]. simpl in Q1.
  set (p := if k =? 0 then _ else _) in *.
  assert (Hp : exists mn mx w2, p = (mn, mx, w2) /\ queue_buf w2 = queue_buf w0 /\ 1 <= mn <= mx /\ mx <= 32768).
  { subst p. destruct (k =? 0); [|destruct (k =? 1)];
      [by do 3 eexists; split_and!; [reflexivity|..]..|].
    pose proof (queue_below w1 10) as Q2. destruct (below w1 10) as [t w2]. simpl in Q2.
    destruct (t =? 0); simpl; do 3 eexists; split_and!;
      first [reflexivity|congruence|unfold HAVOC_BLK_MEDIUM, HAVOC_BLK_LARGE, HAVOC_BLK_XL; lia]. }
  destruct Hp as (mn & mx & w2 & -> & Q2 & Hmn & Hmx).
  set (mn' := if limit <=? mn then 1 else mn) in *.
  pose proof (queue_below w2 (u32 (Z.min mx limit - mn' + 1))) as Q3.
  pose proof (below_bound w2 (u32 (Z.min mx limit - mn' + 1))) as Hb.
  destruct (below w2 _) as [r w3]. simpl in *. split; [congruence|]. intros Hl. split; [by apply Hr|].
  unfold HAVOC_BLK_XL.
  assert (Hmn' : 1 <= mn' <= limit /\ mn' <= mx) by (subst mn'; destruct (Z.leb_spec limit mn); lia).
  assert (Hu : u32 (Z.min mx limit - mn' + 1) = Z.min mx limit - mn' + 1) by (apply Z.mod_small; lia). lia.
Qed.

Lemma wp_block_len limit (Q : Z -> list Z -> W -> Prop) b w :
  0 < limit < 2 ^ 32 ->
  (forall x w', 1 <= x <= limit -> x <= 32768 -> queue_buf w' = queue_buf w -> Q x b w') ->
  wp (block_len limit) Q b w.
Proof.
  intros Hl HQ. unfold wp, block_len. pose proof (choose_block_len_queue w limit) as [Hq Hx].
  destruct (choose_block_len _ _ w limit) as [x w']. destruct (Hx Hl). by apply HQ.
Qed.

Lemma wp_read_from src from n (Q : list Z -> list Z -> W -> Prop) b w :
  0 <= from -> 0 <= n -> from + n <= Z.of_nat (length src) ->
  Q (take (Z.to_nat n) (drop (Z.to_nat from) src)) b w -> wp (read_from src from n) Q b w.
Proof. intros. unfold wp, read_from. rewrite decide_True; [done|]. unfold in_range. lia. Qed.

Lemma wp_read_out from n (Q : list Z -> list Z -> W -> Prop) b w :
  0 <= from -> 0 <= n -> from + n <= Z.of_nat (length b) ->
  Q (take (Z.to_nat n) (drop (Z.to_nat from) b)) b w -> wp (read_out from n) Q b w.
Proof. intros. unfold wp, read_out. by apply wp_read_from. Qed.

Lemma wp_copy_to dst i l (Q : list Z -> list Z -> W -> Prop) b w :
  in_range (length l) dst i -> Q (write_at dst i l) b w -> wp (copy_to dst i l) Q b w.
Proof. intros. unfold wp, copy_to. by rewrite decide_True. Qed.

Lemma wp_write_out i l (Q : unit -> list Z -> W -> Prop) b w :
  in_range (length l) b i -> Q tt (write_at b i l) w -> wp (write_out i l) Q b w.
Proof. intros. unfold wp, write_out. by rewrite decide_True. Qed.

Lemma wp_peek n i (Q : Z -> list Z -> W -> Prop) b w :
  in_range n b i -> Q (ld n b i) b w -> wp (peek n i) Q b w.
Proof. intros. unfold wp, peek. by rewrite decide_True. Qed.

Lemma wp_poke n i v (Q : unit -> list Z -> W -> Prop) b w :
  in_range n b i -> Q tt (st n b i v) w -> wp (poke n i v) Q b w.
Proof. intros. unfold wp, poke. by rewrite decide_True. Qed.

Lemma wp_pick {A} (l : list A) i (Q : A -> list Z -> W -> Prop) b w :
  0 <= i < Z.of_nat (length l) -> (forall x, x ∈ l -> l !! Z.to_nat i = Some x -> Q x b w) ->
  wp (pick l i) Q b w.
Proof.
  intros Hi HQ. unfold wp, pick. destruct (lookup_lt_is_Some_2 l (Z.to_nat i)) as [x Hx]; [lia|].
  rewrite Hx. apply HQ; [by eapply list_elem_of_lookup_2|done].
Qed.

Lemma wp_memmove_out to from n (Q : unit -> list Z -> W -> Prop) b w :
  0 <= from -> 0 <= n -> from + n <= Z.of_nat (length b) -> 0 <= to -> to + n <= Z.of_nat (length b) ->
  Q tt (write_at b to (take (Z.to_nat n) (drop (Z.to_nat from) b))) w -> wp (memmove_out to from n) Q b w.
Proof.
  intros. unfold memmove_out. apply wp_bind, wp_read_out; [done..|]. apply wp_write_out; [|done].
  unfold in_range. rewrite length_take, length_drop. lia.
Qed.
End wp.

(** Step through a program of [H]. *)
Ltac u32s := repeat (rewrite u32_id by lia).
Ltac hstep :=
  lazymatch goal with
  | |- wp (_ ≫= _) _ _ _ => apply wp_bind
  | |- wp (mret _) _ _ _ => apply wp_ret
  | |- wp temp_len _ _ _ => apply wp_temp_len
  | |- wp (set_out _) _ _ _ => apply wp_set_out
  | |- wp queue _ _ _ => apply wp_queue
  | |- wp (roll _) _ _ _ => apply wp_roll; [u32s; lia|intros ? ? ? ?]
  | |- wp (block_len _) _ _ _ => apply wp_block_len; [u32s; lia|intros ? ? ? ? ?]
  | |- wp (peek _ _) _ _ _ => apply wp_peek
  | |- wp (poke _ _ _) _ _ _ => apply wp_poke
  end.
Ltac hsteps := u32s; repeat (hstep; u32s; cbv beta).

(** ** Drawing until the draw is usable *)

Section fair.
Context {W : Type} `{!Random W}.

Fixpoint after (n : nat) (limit : Z) (w : W) : W :=
  match n with O => w | S n => after n limit (below w limit).2 end.

(** What the [do ... while] loops rely on: each value of the range is drawn within
    [patience] draws. *)
Definition fair (patience : nat) : Prop := forall w limit v,
  0 <= v < limit -> limit < 2 ^ 32 ->
  exists k, (k < patience)%nat /\ (below (after k limit w) limit).1 = v.
End fair.

Section ops.
Context {W : Type} `{!Fuzzer W} `{!Random W} `{!Corpus W}.
Context (junk : Z) (patience : nat) (c : havoc_cfg).
Implicit Types (b : list Z) (w : W).

Lemma wp_reroll fuel limit bad (Q : Z -> list Z -> W -> Prop) b w k :
  0 < limit -> (k < fuel)%nat -> bad (below (after k limit w) limit).1 = false ->
  (forall x w', 0 <= x < limit -> bad x = false -> queue_buf w' = queue_buf w -> Q x b w') ->
  wp (reroll fuel limit bad) Q b w.
Proof.
  intros Hl Hk Hbad HQ. revert w k Hk Hbad HQ. induction fuel as [|fuel IH]; intros w k Hk Hbad HQ; [lia|].
  cbn [reroll]. apply wp_bind. unfold wp at 1, roll.
  pose proof (below_bound w limit Hl) as Hx. pose proof (queue_below w limit) as Hq.
  destruct k as [|k]; simpl in Hbad.
  - destruct (below w limit) as [x w1]. simpl in *. rewrite Hbad. apply wp_ret. by apply HQ.
  - destruct (below w limit) as [x w1]. simpl in *. destruct (bad x) eqn:Eb.
    + apply (IH w1 k); [lia|done|]. intros y w' Hy Hb Hw. apply HQ; [done|done|congruence].
    + apply wp_ret. by apply HQ.
Qed.

Lemma wp_reroll_fair limit bad v (Q : Z -> list Z -> W -> Prop) b w :
  fair (W:=W) patience -> 0 <= v < limit -> limit < 2 ^ 32 -> bad v = false ->
  (forall x w', 0 <= x < limit -> bad x = false -> queue_buf w' = queue_buf w -> Q x b w') ->
  wp (reroll patience limit bad) Q b w.
Proof.
  intros Hf Hv Hl Hb HQ. destruct (Hf w limit v Hv Hl) as (k & Hk & Hd).
  apply (wp_reroll patience limit bad Q b w k); [lia|done|by rewrite Hd|done].
Qed.

(** ** The edits implement their specification *)

Definition tokens_of : list (list Z) := extras c ++ a_extras c.

Definition edited (w : W) b (_ : unit) b' (w' : W) : Prop :=
  good b' /\ edit tokens_of (queue_buf w) b b' /\ queue_buf w' = queue_buf w.

Definition edits (m : H W unit) : Prop := forall b w, good b -> wp m (edited w b) b w.

Lemma edits_none : edits (mret tt).
Proof. intros b w Hb. apply wp_ret. split; [done|]. split; [constructor|done]. Qed.

Lemma edits_at_least k m :
  (forall b w, good b -> k <= Z.of_nat (length b) ->wp m (edited w b) b w) ->
  edits (at_least k m).
Proof.
  intros Hm b w Hb. unfold at_least. hsteps. destruct (Z.ltb_spec (Z.of_nat (length b)) k).
  - by apply edits_none.
  - by apply Hm.
Qed.

(** Writing a value of at most four bytes. *)
Lemma poke_edits n i v b w w0 :
  good b -> (n <= 4)%nat -> in_range n b i -> queue_buf w = queue_buf w0 ->
  wp (poke n i v) (edited w0 b) b w.
Proof.
  intros [Hb Hl] Hn Hi Hw. apply wp_poke; [done|]. split; [|split; [by constructor|done]].
  split; [by apply st_ok|]. by rewrite length_st.
Qed.

(** Positions of [n]-byte values. *)
Lemma wp_position n (Q : Z -> list Z -> W -> Prop) b w :
  good b -> (1 <= n <= length b)%nat ->
  (forall i w', in_range n b i -> queue_buf w' = queue_buf w -> Q i b w') -> wp (position n) Q b w.
Proof.
  intros Hb Hn HQ. pose proof (good_bounds b Hb). unfold position. hsteps.
  apply HQ; [unfold in_range; lia|done].
Qed.

Ltac poke_done := apply poke_edits; [done|lia|done|congruence].

Lemma flip_at_edits x b w w0 :
  good b -> 0 <= x < 8 * Z.of_nat (length b) -> queue_buf w = queue_buf w0 ->
  wp (flip_at x) (edited w0 b) b w.
Proof.
  intros Hb Hx Hw. unfold flip_at.
  assert (Hi : in_range 1 b (x ≫ 3)) by (unfold in_range; rewrite Z.shiftr_div_pow2 by lia; dlia).
  apply wp_bind, wp_peek; [done|]. poke_done.
Qed.

Lemma op_flip_bit_edits : edits op_flip_bit.
Proof.
  intros b w Hb. pose proof (good_bounds b Hb). unfold op_flip_bit. apply wp_bind, wp_temp_len, wp_bind.
  rewrite Z.shiftl_mul_pow2 by lia. hsteps. by apply flip_at_edits; [|lia|].
Qed.

Lemma op_interesting_edits n be table b w :
  good b -> (1 <= n <= 4)%nat -> (n <= length b)%nat -> (0 < length table)%nat ->
  wp (op_interesting n be table)
    (edited w b) b w.
Proof.
  intros Hb Hn Hl Ht. unfold op_interesting. apply wp_bind, wp_position; [done|lia|]. intros i w1 Hi H1.
  hsteps. apply wp_pick; [lia|]. intros v _ _. poke_done.
Qed.

Lemma op_arith_edits n be sg b w :
  good b -> (1 <= n <= 4)%nat -> (n <= length b)%nat ->
  wp (op_arith n be sg)
    (edited w b) b w.
Proof.
  intros Hb Hn Hl. unfold op_arith. apply wp_bind, wp_position; [done|lia|]. intros i w1 Hi H1.
  apply wp_bind, wp_roll; [done|]. intros d w2 Hd H2. apply wp_bind, wp_peek; [done|]. poke_done.
Qed.

Lemma op_xor_edits n mask b w :
  good b -> (1 <= n <= 4)%nat -> (n <= length b)%nat ->
  wp (op_xor n mask)
    (edited w b) b w.
Proof.
  intros Hb Hn Hl. unfold op_xor. apply wp_bind, wp_position; [done|lia|]. intros i w1 Hi H1.
  apply wp_bind, wp_peek; [done|]. poke_done.
Qed.

Lemma good_byte b : good b -> (1 <= length b)%nat.
Proof. intros H. pose proof (good_bounds b H). lia. Qed.

Lemma op_random_byte_edits : edits op_random_byte.
Proof.
  intros b w Hb. unfold op_random_byte. apply wp_bind, wp_position; [done|pose proof (good_byte b Hb); lia|].
  intros i w1 Hi H1. apply wp_bind, wp_roll; [done|]. intros d w2 Hd H2.
  apply wp_bind, wp_peek; [done|]. poke_done.
Qed.

Lemma op_add_byte_edits d : edits (op_add_byte d).
Proof.
  intros b w Hb. unfold op_add_byte. apply wp_bind, wp_position; [done|pose proof (good_byte b Hb); lia|].
  intros i w1 Hi H1. apply wp_bind, wp_peek; [done|]. poke_done.
Qed.

(** ** Edits of blocks *)

Lemma edited_over i l b w w0 :
  good b -> Forall byte_ok l -> material tokens_of (queue_buf w0) b l -> in_range (length l) b i ->
  queue_buf w = queue_buf w0 -> edited w0 b tt (write_at b i l) w.
Proof.
  intros [Hb Hl] Hok Hm Hi Hw. split; [|split; [by constructor|done]].
  split; [by apply write_at_material_ok|]. by rewrite length_write_at.
Qed.

Lemma edited_insert (i : nat) l b w w0 :
  good b -> Forall byte_ok l -> material tokens_of (queue_buf w0) b l -> (i <= length b)%nat ->
  Z.of_nat (length b + length l) <= MAX_FILE ->
  queue_buf w = queue_buf w0 -> edited w0 b tt (take i b ++ l ++ drop i b) w.
Proof.
  intros [Hb Hl] Hok Hm Hi Hlen Hw. split; [|split; [by constructor|done]].
  split; [rewrite !Forall_app; auto with bytes|]. rewrite !length_app, length_take, length_drop. lia.
Qed.

(** The three copies of [insert_block] put the block in. *)
Lemma wp_insert_block alloc clone_to clone_len (block : H W (list Z)) (Q : unit -> list Z -> W -> Prop) b w :
  good b -> 0 <= clone_to <= Z.of_nat (length b) -> 0 <= clone_len <= 2 ^ 30 ->
  Z.of_nat (length b) + clone_len <= alloc ->
  wp block (fun l b' w' => b' = b /\ Z.of_nat (length l) = clone_len
    /\ Q tt (take (Z.to_nat clone_to) b ++ l ++ drop (Z.to_nat clone_to) b) w') b w ->
  wp (insert_block junk alloc clone_to clone_len block) Q b w.
Proof.
  intros Hb Ht Hc Ha Hblock. pose proof (good_bounds b Hb). unfold insert_block.
  apply wp_bind, wp_temp_len, wp_bind, wp_read_out; [lia..|]. apply wp_bind.
  set (t := Z.to_nat clone_to). change (Z.to_nat 0) with 0%nat. rewrite drop_0.
  assert (Hlt : length (take t b) = t) by (rewrite length_take; lia).
  set (new := replicate (Z.to_nat alloc) junk). assert (Hn : length new = Z.to_nat alloc) by apply length_replicate.
  apply wp_copy_to; [unfold in_range; lia|].
  rewrite (write_at_front [] new) by (simpl; lia). cbn [app]. rewrite Hlt.
  apply wp_bind. eapply wp_mono; [exact Hblock|]. intros l b' w' (-> & Hl & HQ).
  apply wp_bind, wp_copy_to.
  { unfold in_range. rewrite length_app, length_drop, Hlt. lia. }
  rewrite (write_at_front (take t b)) by (rewrite ?length_drop, ?Hlt; lia).
  rewrite drop_drop. apply wp_bind. u32s.
  apply wp_read_out; [lia..|]. apply wp_bind. fold t.
  rewrite (take_ge (drop t b)) by (rewrite length_drop; lia).
  apply wp_copy_to.
  { unfold in_range. rewrite !length_app, !length_drop, Hlt. lia. }
  rewrite app_assoc, write_at_front by (rewrite ?length_app, ?length_drop, ?Hlt; lia).
  apply wp_set_out. rewrite app_assoc, take_app_length' by (rewrite !length_app, length_drop, Hlt; lia).
  by rewrite <- app_assoc.
Qed.

Lemma edits_room m :
  (forall b w, good b -> Z.of_nat (length b) + 32768 < 26214400 -> wp m (edited w b) b w) ->
  edits (room_to_grow m).
Proof.
  intros Hm b w Hb. pose proof (good_bounds b Hb). unfold room_to_grow, HAVOC_BLK_XL, MAX_FILE. hsteps.
  destruct (Z.ltb_spec (Z.of_nat (length b) + 32768) (25 * 1024 * 1024)); [apply Hm; [done|lia]|by apply edits_none].
Qed.

Lemma op_clone_edits : edits (op_clone junk).
Proof.
  apply edits_room. intros b w Hb Hr. pose proof (good_bounds b Hb). hsteps.
  apply wp_insert_block; [done|lia|lia|lia|]. apply wp_read_out; [lia..|]. split; [done|].
  split; [rewrite length_take, length_drop; lia|].
  apply edited_insert; [done|destruct Hb; auto with bytes|apply own_block|lia| |congruence].
  rewrite length_take, length_drop. unfold MAX_FILE. lia.
Qed.

Lemma wp_fill_byte (Q : Z -> list Z -> W -> Prop) b w :
  good b -> (forall x w', queue_buf w' = queue_buf w -> Q x b w') -> wp fill_byte Q b w.
Proof.
  intros Hb HQ. pose proof (good_bounds b Hb). unfold fill_byte. hsteps. destruct (negb _).
  - hsteps. apply HQ. congruence.
  - hsteps; [unfold in_range; lia|]. apply HQ. congruence.
Qed.

Lemma u8s_ok n x : Forall byte_ok (replicate n (u8 x)).
Proof. apply Forall_replicate, byte_ok_u8. Qed.

Lemma op_insert_const_edits : edits (op_insert_const junk).
Proof.
  apply edits_room. intros b w Hb Hr. pose proof (good_bounds b Hb). unfold HAVOC_BLK_XL. hsteps.
  apply wp_insert_block; [done|lia|lia|lia|]. apply wp_bind, wp_fill_byte; [done|]. intros y w9 Hw9.
  apply wp_ret. split; [done|]. rewrite length_replicate. split; [lia|].
  apply edited_insert; [done|apply u8s_ok|apply constant_block|lia| |congruence].
  rewrite length_replicate. unfold MAX_FILE. lia.
Qed.

Lemma op_overwrite_copy_edits : edits op_overwrite_copy.
Proof.
  apply edits_at_least. intros b w Hb Hr. pose proof (good_bounds b Hb). hsteps.
  destruct (_ =? _); [apply wp_ret; split; [done|]; split; [constructor|congruence]|].
  apply wp_memmove_out; [lia..|].
  apply edited_over; [done|destruct Hb; auto with bytes|apply own_block| |congruence].
  unfold in_range. rewrite length_take, length_drop. lia.
Qed.

Lemma op_overwrite_fixed_edits : edits op_overwrite_fixed.
Proof.
  apply edits_at_least. intros b w Hb Hr. pose proof (good_bounds b Hb). hsteps.
  apply wp_fill_byte; [done|]. intros y w9 Hw9. unfold memset_out.
  apply wp_write_out; [unfold in_range; rewrite length_replicate; lia|].
  apply edited_over; [done|apply u8s_ok|apply constant_block| |congruence].
  unfold in_range. rewrite length_replicate. lia.
Qed.

Lemma op_delete_edits : edits op_delete.
Proof.
  apply edits_at_least. intros b w Hb Hr. pose proof (good_bounds b Hb). unfold op_delete.
  hstep. hstep. hstep. u32s. apply wp_block_len; [lia|]. intros dl w1 Hdl _ Hw1.
  hstep. u32s. apply wp_roll; [lia|]. intros df w2 Hdf Hw2.
  apply wp_bind, wp_memmove_out; [u32s; lia..|].
  destruct (one_block b (Z.to_nat df) (Z.to_nat dl)) as (p & x & s & -> & Hp & Hx); [lia|].
  rewrite !length_app in *. u32s.
  rewrite app_assoc, drop_app_length', (take_ge s), <- app_assoc by (rewrite ?length_app; lia).
  rewrite write_at_front by (rewrite ?length_app; lia).
  apply wp_bind, wp_read_out; [lia|lia|rewrite !length_app, length_drop, length_app; lia|].
  apply wp_set_out. change (Z.to_nat 0) with 0%nat. rewrite drop_0, (app_assoc p s), take_app_length' by (rewrite ?length_app; lia).
  split; [|split; [|congruence]].
  - destruct Hb as [Hb _]. rewrite !Forall_app in Hb. split; [rewrite Forall_app; tauto|]. rewrite length_app. unfold MAX_FILE. lia.
  - constructor.
    + intros ->. simpl in Hx. lia.
    + intros E%(f_equal length). rewrite length_app in E. simpl in E. lia.
Qed.

(** Exchanging two blocks: [x] before [y] in the buffer. *)
Lemma edited_switch p x m y s w w0 :
  good (p ++ x ++ m ++ y ++ s) -> x <> [] -> length x = length y -> queue_buf w = queue_buf w0 ->
  edited w0 (p ++ x ++ m ++ y ++ s) tt (p ++ y ++ m ++ x ++ s) w.
Proof.
  intros [Hb Hl] Hx Hxy Hw. split; [|split; [by constructor|done]].
  rewrite !Forall_app in Hb. rewrite !length_app in Hl.
  split; [rewrite !Forall_app; tauto|rewrite !length_app; lia].
Qed.

(** Backup of the first block, copy, write the backup back: an exchange, in either order
    of the blocks. *)
Lemma switch_blocks i j n b w w0 :
  good b -> 0 <= i -> 0 <= j -> 1 <= n -> i + n <= Z.of_nat (length b) -> j + n <= Z.of_nat (length b) ->
  (i + n <= j \/ j + n <= i) -> queue_buf w = queue_buf w0 ->
  wp (new_buf ← read_out i n; memcpy_out_out i j n;; write_out j new_buf) (edited w0 b) b w.
Proof.
  intros Hb Hi Hj Hn Hin Hjn Hd Hw. apply wp_bind, wp_read_out; [lia..|].
  apply wp_bind. unfold memcpy_out_out. rewrite decide_True by lia.
  apply wp_memmove_out; [lia..|]. destruct Hd as [Hd|Hd].
  - destruct (two_blocks b (Z.to_nat i) (Z.to_nat j) (Z.to_nat n)) as (p & x & m & y & s & Eb & S1 & S2 & Hp & Hx & Hm & Hy);
      [lia..|].
    rewrite S1, S2, Eb, (write_at_parts p x y) by lia.
    apply wp_write_out; [unfold in_range; rewrite !length_app; lia|].
    assert (E : p ++ y ++ m ++ y ++ s = (p ++ y ++ m) ++ y ++ s) by (by rewrite <- !app_assoc).
    rewrite E, (write_at_parts (p ++ y ++ m) y x) by (rewrite ?length_app; lia).
    rewrite <- !app_assoc. apply edited_switch; [by rewrite <- Eb| |lia|done]. intros ->. simpl in Hx. lia.
  - destruct (two_blocks b (Z.to_nat j) (Z.to_nat i) (Z.to_nat n)) as (p & x & m & y & s & Eb & S1 & S2 & Hp & Hx & Hm & Hy);
      [lia..|].
    rewrite S1, S2, Eb.
    assert (E : p ++ x ++ m ++ y ++ s = (p ++ x ++ m) ++ y ++ s) by (by rewrite <- !app_assoc).
    rewrite E, (write_at_parts (p ++ x ++ m) y x) by (rewrite ?length_app; lia). rewrite <- E, <- !app_assoc.
    apply wp_write_out; [unfold in_range; rewrite !length_app; lia|].
    rewrite (write_at_parts p x y) by lia.
    apply edited_switch; [by rewrite <- Eb| |lia|done]. intros ->. simpl in Hx. lia.
Qed.

Lemma op_switch_edits : fair (W:=W) patience -> edits (op_switch patience).
Proof.
  intros Hf. apply edits_at_least. intros b w Hb Hr. pose proof (good_bounds b Hb). unfold op_switch.
  hstep. hstep. hstep. apply wp_roll; [lia|]. intros i w1 Hi Hw1. apply wp_bind.
  apply (wp_reroll_fair _ _ (if i =? 0 then 1 else 0)); [done|destruct (i =? 0); lia|lia| |].
  { destruct (Z.eqb_spec i 0); apply Z.eqb_neq; lia. }
  intros j w2 Hj Hij%Z.eqb_neq Hw2.
  destruct (Z.ltb_spec i j); u32s; (hstep; apply wp_block_len; [lia|]; intros n w3 Hn _ Hw3;
    apply switch_blocks; [done|lia..|congruence]).
Qed.
End ops.

(** A generator that counts draws every value in turn. *)
Lemma counting_fair : fair (W:=Z) (Z.to_nat (2 ^ 32)).
Proof.
  intros w limit v Hv Hl. destruct (decide (limit <= 1)).
  { exists 0%nat. simpl. rewrite (proj2 (Z.leb_le limit 1)) by lia. simpl. lia. }
  assert (Ha : forall k w, after k limit w = w + Z.of_nat k).
  { induction k as [|k IH]; intros w'; simpl; [lia|].
    rewrite (proj2 (Z.leb_gt limit 1)) by lia. simpl. rewrite IH. lia. }
  exists (Z.to_nat ((v - w) `mod` limit)). pose proof (Z.mod_pos_bound (v - w) limit ltac:(lia)).
  split; [lia|]. rewrite Ha. simpl. rewrite (proj2 (Z.leb_gt limit 1)) by lia. simpl.
  rewrite Z2Nat.id by lia. rewrite Zplus_mod_idemp_r. replace (w + (v - w)) with v by lia. by apply Z.mod_small.
Qed.
