(* ===== verification/HavocTheorems.v ===== *)
(** * The random stages: the theorems

    The dictionary and splicing edits, the whole switch, the stage with its restored test
    case and its bounded number of rounds, and the splicing loop. *)
From S2P Require Import Prelude OneHelpers Rng DetStages ExtrasStages Havoc HavocSpec.

(** ** Entries to splice with *)

(** Two long entries: one of them is not the current one. *)
Lemma long_entry (q : list (list Z)) (k : nat) :
  (2 <= length (filter (fun e => (4 < length e)%nat) q))%nat ->
  exists i e, q !! i = Some e /\ (4 < length e)%nat /\ i <> k.
Proof.
  revert k. induction q as [|x q IH]; intros k Hl; [simpl in Hl; lia|].
  rewrite filter_cons in Hl. destruct k as [|k].
  - assert (Hq : (1 <= length (filter (fun e => (4 < length e)%nat) q))%nat) by (case_decide; simpl in Hl; lia).
    destruct (filter (fun e => (4 < length e)%nat) q) as [|e l] eqn:E; [simpl in Hq; lia|].
    assert (He : e ∈ filter (fun e => (4 < length e)%nat) q) by (rewrite E; left).
    apply list_elem_of_filter in He as [He Hin]. apply list_elem_of_lookup_1 in Hin as [i Hi].
    exists (S i), e. done.
  - case_decide as Hx.
    + exists 0%nat, x. done.
    + destruct (IH k Hl) as (i & e & Hi & He & Hne). exists (S i), e. split; [done|]. split; [done|]. congruence.
Qed.

Lemma long_entries_prefix (q q' : list (list Z)) :
  q `prefix_of` q' ->
  (length (filter (fun e => (4 < length e)%nat) q) <= length (filter (fun e => (4 < length e)%nat) q'))%nat.
Proof. intros [k ->]. rewrite filter_app, length_app. lia. Qed.

Lemma prefix_sub (q q' : list (list Z)) : q `prefix_of` q' -> q ⊆ q'.
Proof. intros [k ->]. set_solver. Qed.

Section theorems.
Context {W : Type} `{!Fuzzer W} `{!Random W} `{!Corpus W}.
Context (junk : Z) (patience : nat) (c : havoc_cfg).
Hypothesis Hfair : fair (W:=W) patience.
(** Tokens are at most MAX_DICT_FILE bytes long. *)
Hypothesis Htokens : Forall (fun d => Forall byte_ok d /\ Z.of_nat (length d) <= MAX_DICT_FILE) (tokens_of c).
Implicit Types (b : list Z) (w : W).

Definition fits_splice w : Prop :=
  exists i e, queue_buf w !! i = Some e /\ (4 <= length e)%nat /\ Z.of_nat i <> current_entry c.

Lemma fits_of_count w : 1 < ready_for_splicing_count w -> 0 <= current_entry c -> fits_splice w.
Proof.
  intros Hr Hc. unfold ready_for_splicing_count in Hr.
  destruct (long_entry (queue_buf w) (Z.to_nat (current_entry c))) as (i & e & Hi & He & Hne); [lia|].
  exists i, e. split; [done|]. split; [lia|]. lia.
Qed.

(** ** Tokens *)

Lemma token_ok d : d ∈ tokens_of c -> Forall byte_ok d /\ Z.of_nat (length d) <= 128.
Proof using Htokens. intros H. rewrite Forall_forall in Htokens. exact (Htokens d H). Qed.

Lemma op_extra_over_edits tokens :
  tokens <> [] -> tokens ⊆ tokens_of c -> edits c (op_extra_over (W:=W) tokens).
Proof using Htokens.
  intros Hne Hsub b w Hb. pose proof (good_bounds b Hb). unfold op_extra_over.
  assert (0 < length tokens)%nat by (destruct tokens; [done|simpl; lia]).
  hstep. hstep. hstep. apply wp_pick; [done|]. intros d Hd _. destruct (token_ok d (Hsub d Hd)) as [Hok Hlen].
  hsteps. destruct (Z.ltb_spec (Z.of_nat (length b)) (Z.of_nat (length d))).
  { apply wp_ret. split; [done|]. split; [constructor|congruence]. }
  hsteps. assert (Hi : in_range (length d) b x0) by (unfold in_range; lia). apply wp_write_out; [done|].
  apply edited_over; [done..|by apply token, Hsub|done|congruence].
Qed.

(** Growing the buffer, moving the tail up and copying the token in. *)
Lemma wp_insert_token i d (Q : unit -> list Z -> W -> Prop) b w :
  good b -> 0 <= i <= Z.of_nat (length b) -> Z.of_nat (length d) <= 2 ^ 30 ->
  Q tt (take (Z.to_nat i) b ++ d ++ drop (Z.to_nat i) b) w -> wp (insert_token junk i d) Q b w.
Proof using Type.
  intros Hb Hi Hd HQ. pose proof (good_bounds b Hb). unfold insert_token. apply wp_bind, wp_temp_len, wp_bind.
  unfold wp at 1, realloc_out. u32s.
  set (g := replicate _ junk). assert (Hg : length g = length d) by (unfold g; rewrite length_replicate; lia).
  rewrite take_ge by (rewrite length_app; lia).
  apply wp_bind, wp_memmove_out; [rewrite ?length_app; lia..|].
  set (p := take (Z.to_nat i) b) in *. set (s := drop (Z.to_nat i) b) in *.
  assert (Hp : length p = Z.to_nat i) by (unfold p; rewrite length_take; lia).
  assert (Hs : length s = (length b - Z.to_nat i)%nat) by (unfold s; by rewrite length_drop).
  assert (Eb : b ++ g = p ++ s ++ g) by (unfold p, s; by rewrite app_assoc, take_drop). rewrite Eb.
  rewrite drop_app_length', take_app_length' by lia.
  rewrite write_at_end by (rewrite ?length_app; lia).
  set (h := take _ _). assert (Hh : h = p ++ take (length d) (s ++ g)).
  { unfold h. rewrite take_app_ge by lia. f_equal. f_equal. lia. }
  rewrite Hh, <- app_assoc. apply wp_write_out.
  { unfold in_range. rewrite !length_app, length_take, length_app. lia. }
  rewrite write_at_parts; [done|lia|rewrite length_take, length_app; lia].
Qed.

Lemma op_extra_insert_edits tokens :
  tokens <> [] -> tokens ⊆ tokens_of c -> edits c (op_extra_insert (W:=W) junk tokens).
Proof using Htokens.
  intros Hne Hsub b w Hb. pose proof (good_bounds b Hb). unfold op_extra_insert.
  assert (0 < length tokens)%nat by (destruct tokens; [done|simpl; lia]).
  hstep. hstep. hstep. apply wp_pick; [done|]. intros d Hd _. destruct (token_ok d (Hsub d Hd)) as [Hok Hlen].
  hsteps. destruct (Z.leb_spec MAX_FILE (Z.of_nat (length b) + Z.of_nat (length d))).
  { apply wp_ret. split; [done|]. split; [constructor|congruence]. }
  hsteps. apply wp_insert_token; [done|lia|lia|].
  apply edited_insert; [done..|by apply token, Hsub|lia|lia|congruence].
Qed.

(** ** Splicing inside havoc *)

Lemma wp_pick_other (Q : list Z -> list Z -> W -> Prop) b w :
  fits_splice w -> 0 <= current_entry c ->
  (forall e w', e ∈ queue_buf w -> Forall byte_ok e -> 4 <= Z.of_nat (length e) <= 26214400 ->
     queue_buf w' = queue_buf w -> Q e b w') ->
  wp (pick_other patience c) Q b w.
Proof using Hfair.
  intros (i & e & Hi & He & Hne) Hc HQ. unfold pick_other. apply wp_bind, wp_queue, wp_bind.
  pose proof (lookup_lt_Some _ _ _ Hi). pose proof (queue_small w).
  apply (wp_reroll_fair _ _ _ (Z.of_nat i)); [done|lia|done| |].
  { unfold unfit. rewrite Nat2Z.id, Hi. apply orb_false_iff. split; [by apply Z.eqb_neq|apply Z.ltb_ge; lia]. }
  intros x w1 Hx Hbad Hw1. apply wp_pick; [lia|]. intros e' Hin Hlook.
  unfold unfit in Hbad. rewrite Hlook in Hbad. apply orb_false_iff in Hbad as [_ Hlen%Z.ltb_ge].
  pose proof (queue_entries w) as Hall. rewrite Forall_forall in Hall. destruct (Hall e' Hin) as [Hok Hmax].
  by apply HQ.
Qed.

Lemma splice_over_edits e b w w0 :
  good b -> e ∈ queue_buf w0 -> Forall byte_ok e -> 4 <= Z.of_nat (length e) <= 26214400 ->
  queue_buf w = queue_buf w0 -> wp (splice_over e) (edited c w0 b) b w.
Proof using Type.
  intros Hb Hin Hok Hlen Hw. pose proof (good_bounds b Hb). unfold splice_over. hsteps.
  set (n := if _ <? x then _ else x). assert (Hn : 1 <= n <= Z.of_nat (length b) /\ n <= Z.of_nat (length e)).
  { unfold n. destruct (Z.ltb_spec (Z.of_nat (length b)) x); lia. }
  hsteps. apply wp_read_from; [lia..|].
  assert (Hi : in_range (length (take (Z.to_nat n) (drop (Z.to_nat x0) e))) b x1).
  { unfold in_range. rewrite length_take, length_drop. lia. }
  apply wp_write_out; [done|]. apply edited_over; [done|auto with bytes|by apply other_block|done|congruence].
Qed.

Lemma splice_insert_edits e b w w0 :
  good b -> Z.of_nat (length b) + 32768 < 26214400 ->
  e ∈ queue_buf w0 -> Forall byte_ok e -> 4 <= Z.of_nat (length e) <= 26214400 ->
  queue_buf w = queue_buf w0 -> wp (splice_insert junk e) (edited c w0 b) b w.
Proof using Type.
  intros Hb Hr Hin Hok Hlen Hw. pose proof (good_bounds b Hb). unfold splice_insert. hsteps.
  apply wp_insert_block; [done|lia|lia|lia|]. apply wp_read_from; [lia..|]. split; [done|].
  split; [rewrite length_take, length_drop; lia|].
  apply edited_insert; [done|auto with bytes|by apply other_block|lia| |congruence].
  rewrite length_take, length_drop. unfold MAX_FILE. lia.
Qed.

Lemma op_splice_edits (odd : H W bool) b w :
  (forall (Q : bool -> list Z -> W -> Prop) b w,
     (forall x w', queue_buf w' = queue_buf w -> Q x b w') -> wp odd Q b w) ->
  good b -> fits_splice w -> 0 <= current_entry c -> wp (op_splice junk patience c odd) (edited c w b) b w.
Proof using Hfair.
  intros Hodd Hb Hf Hc. pose proof (good_bounds b Hb). unfold op_splice, HAVOC_BLK_XL.
  apply wp_bind, wp_pick_other; [done..|]. intros e w1 Hin Hok Hlen Hw1. hsteps.
  assert (Hrest : forall x w2, queue_buf w2 = queue_buf w ->
    wp (if (x : bool) || (MAX_FILE <=? Z.of_nat (length b) + 32768) then splice_over e
        else splice_insert junk e) (edited c w b) b w2).
  { intros x w2 Hw2. destruct (x || _) eqn:E; [by apply splice_over_edits|].
    apply orb_false_iff in E as [_ E%Z.leb_gt]. apply splice_insert_edits; [done|by unfold MAX_FILE in E|done..]. }
  destruct (2 <=? _); [apply Hodd|apply wp_ret]; intros; apply Hrest; congruence.
Qed.

(** ** The switch *)

Hypothesis Hcur : 0 <= current_entry c.

Lemma r_max_splices w0 r :
  0 <= r < r_max c w0 ->
  MAX_HAVOC_ENTRY + 1 + (match extras c with [] => 0 | _ => 4 end)
    + (match a_extras c with [] => 0 | _ => r_cmp c ≪ 1 end) <= r ->
  1 < ready_for_splicing_count w0.
Proof using Type.
  intros Hr Hge. assert (Hc : r_cmp c ≪ 1 = if cmplog_ascii c then 64 else 4) by (unfold r_cmp; by destruct (cmplog_ascii c)).
  rewrite Hc in Hge. unfold r_max, MUTATE_ASCII_DICT, MAX_HAVOC_ENTRY in *.
  destruct (Z.ltb_spec 1 (ready_for_splicing_count w0)); [done|]. rewrite !andb_false_r in Hr.
  destruct (extras c), (a_extras c), (cmplog_ascii c); lia.
Qed.

Lemma mret_odd x (Q : bool -> list Z -> W -> Prop) b w :
  (forall x w', queue_buf w' = queue_buf w -> Q x b w') -> wp (mret x) Q b w.
Proof using Type. intros HQ. apply wp_ret. by apply HQ. Qed.

Lemma havoc_default_edits r b w :
  good b -> 0 <= r ->
  ((match extras c with [] => 0 | _ => 4 end) + (match a_extras c with [] => 0 | _ => r_cmp c ≪ 1 end) <= r ->
   fits_splice w) ->
  wp (havoc_default junk patience c r) (edited c w b) b w.
Proof using Hfair Htokens Hcur.
  intros Hb Hr Hf.
  assert (Hsplice : fits_splice w -> forall x, wp (op_splice junk patience c (mret x)) (edited c w b) b w).
  { intros Hfs x. apply op_splice_edits; [|done..]. intros. by apply mret_odd. }
  assert (Hauto : forall r, (match a_extras c with [] => 0 | _ => r_cmp c ≪ 1 end <= r -> fits_splice w) ->
    0 <= r -> wp (havoc_auto junk patience c r) (edited c w b) b w).
  { clear r Hr Hf. intros r Hf Hr. unfold havoc_auto. destruct (a_extras c) as [|d l] eqn:Ea; [by apply Hsplice, Hf|].
    assert (Hsub : d :: l ⊆ tokens_of c) by (unfold tokens_of; rewrite Ea; set_solver).
    destruct (r <? r_cmp c); [by apply op_extra_over_edits|].
    destruct (Z.ltb_spec r (r_cmp c ≪ 1)); [by apply op_extra_insert_edits|]. by apply Hsplice, Hf. }
  unfold havoc_default. destruct (extras c) as [|d l] eqn:Ee; [by apply Hauto|].
  assert (Hsub : d :: l ⊆ tokens_of c) by (unfold tokens_of; rewrite Ee; set_solver).
  destruct (Z.ltb_spec r 2); [by apply op_extra_over_edits|].
  destruct (Z.ltb_spec r 4); [by apply op_extra_insert_edits|]. apply Hauto; [|lia]. intros Hge. apply Hf. lia.
Qed.

Ltac value_case :=
  lazymatch goal with
  | |- wp (op_interesting _ _ _) _ _ _ => apply op_interesting_edits; [done|lia|lia|simpl; lia]
  | |- wp (op_arith _ _ _) _ _ _ => apply op_arith_edits; [done|lia|lia]
  | |- wp (op_xor _ _) _ _ _ => apply op_xor_edits; [done|lia|lia]
  end.
Ltac next :=
  lazymatch goal with
  | |- wp (if ?x <=? ?y then _ else _) _ _ _ => destruct (Z.leb_spec x y)
  end.

Lemma havoc_op_edits w0 r b w :
  good b -> 0 <= r < r_max c w0 -> queue_buf w0 `prefix_of` queue_buf w ->
  wp (havoc_op junk patience c r) (edited c w b) b w.
Proof using Hfair Htokens Hcur.
  intros Hb Hr Hpre. pose proof (good_byte b Hb) as Hl. unfold havoc_op.
  assert (Hge : forall k m, (k <= length b -> wp m (edited c w b) b w)%nat ->
    wp (at_least (Z.of_nat k) m) (edited c w b) b w).
  { intros k m Hm. unfold at_least. hsteps. destruct (Z.ltb_spec (Z.of_nat (length b)) (Z.of_nat k));
      [by apply edits_none|apply Hm; lia]. }
  next; [by apply op_flip_bit_edits|]. next; [value_case|].
  do 2 (next; [apply (Hge 2%nat); intros; value_case|]).
  do 2 (next; [apply (Hge 4%nat); intros; value_case|]).
  do 2 (next; [value_case|]).
  do 4 (next; [apply (Hge 2%nat); intros; value_case|]).
  do 4 (next; [apply (Hge 4%nat); intros; value_case|]).
  next; [by apply op_random_byte_edits|]. next; [by apply op_clone_edits|].
  next; [by apply op_insert_const_edits|]. next; [by apply op_overwrite_copy_edits|].
  next; [by apply op_overwrite_fixed_edits|]. do 2 (next; [by apply op_add_byte_edits|]).
  next; [value_case|]. next; [by apply op_switch_edits|]. next; [by apply op_delete_edits|].
  apply havoc_default_edits; [done|lia|]. intros Hd. apply fits_of_count; [|done].
  assert (1 < ready_for_splicing_count w0) by (apply (r_max_splices w0 r Hr); lia).
  pose proof (long_entries_prefix _ _ Hpre). unfold ready_for_splicing_count in *. lia.
Qed.

(** Edits on top of each other. *)
Lemma stacked_edits w0 n b w :
  good b -> queue_buf w0 `prefix_of` queue_buf w ->
  wp (stacked junk patience c (r_max c w0) n) (fun _ b' w' => good b'
    /\ nsteps (edit (tokens_of c) (queue_buf w)) n b b' /\ queue_buf w' = queue_buf w) b w.
Proof using Hfair Htokens Hcur.
  revert b w. induction n as [|n IH]; intros b w Hb Hpre; cbn [stacked].
  { apply wp_ret. split; [done|]. split; [constructor|done]. }
  apply wp_bind, wp_roll.
  { unfold r_max, MAX_HAVOC_ENTRY, MUTATE_ASCII_DICT. repeat case_match; lia. }
  intros r w1 Hr Hw1. apply wp_bind. eapply wp_mono; [apply (havoc_op_edits w0); [done..|by rewrite Hw1]|].
  intros _ b2 w2 (Hb2 & He & Hw2). eapply wp_mono; [apply IH; [done|by rewrite Hw2, Hw1]|].
  intros _ b3 w3 (Hb3 & Hn & Hw3). split; [done|]. split; [|congruence].
  rewrite Hw1 in He. rewrite Hw2, Hw1 in Hn. by eapply nsteps_l.
Qed.

(** ** The stage *)

Lemma material_mono others others' b l :
  others ⊆ others' -> material (tokens_of c) others b l -> material (tokens_of c) others' b l.
Proof using Type.
  intros Hs [i n|x n|d Hd|e i n He]; [apply own_block|apply constant_block|by apply token|].
  by apply other_block, Hs.
Qed.

Lemma edit_mono others others' b b' :
  others ⊆ others' -> edit (tokens_of c) others b b' -> edit (tokens_of c) others' b b'.
Proof using Type. intros Hs He. destruct He; try by constructor; eauto using material_mono. all: econstructor; eauto using material_mono. Qed.

Lemma nsteps_edit_mono others others' n b b' :
  others ⊆ others' -> nsteps (edit (tokens_of c) others) n b b' -> nsteps (edit (tokens_of c) others') n b b'.
Proof using Type. intros Hs. induction 1; [constructor|]. econstructor; [by eapply edit_mono|done]. Qed.

(** An input of the target: at least two edits away from a test case. *)
Definition derived (others : list (list Z)) (in_buf out : list Z) : Prop :=
  good out /\ exists n, (2 <= n)%nat /\ nsteps (edit (tokens_of c) others) n in_buf out.

Lemma derived_mono others others' in_buf out :
  others ⊆ others' -> derived others in_buf out -> derived others' in_buf out.
Proof using Type. intros Hs (Hg & n & Hn & Hd). split; [done|]. eauto using nsteps_edit_mono. Qed.

Lemma wp_restore in_buf (Q : unit -> list Z -> W -> Prop) b w : Q tt in_buf w -> wp (restore junk in_buf) Q b w.
Proof using Type.
  intros HQ. unfold restore. apply wp_bind. unfold wp at 1, realloc_out. rewrite Nat2Z.id.
  set (b1 := take _ _). assert (Hl : length b1 = length in_buf).
  { unfold b1. rewrite length_take, length_app, length_replicate. lia. }
  apply wp_write_out; [unfold in_range; lia|]. rewrite write_at_end by lia. done.
Qed.

(** More of the same run: the queue grew, the inputs run are appended, and at most [n] of
    them, each with property [P] for the queue reached. *)
Definition advanced {X} (n : Z) (P : list (list Z) -> list Z -> Prop) (s s' : stage W X) : Prop :=
  queue_buf (s_world s) `prefix_of` queue_buf (s_world s')
  /\ exists outs, s_runs s' = s_runs s ++ outs /\ Z.of_nat (length outs) <= n
     /\ Forall (P (queue_buf (s_world s'))) outs.

Definition monotone (P : list (list Z) -> list Z -> Prop) : Prop :=
  forall q q' out, q ⊆ q' -> P q out -> P q' out.

Lemma advanced_refl {X} P (s : stage W X) : advanced 0 P s s.
Proof using Type. split; [done|]. exists []. by rewrite app_nil_r. Qed.

Lemma advanced_trans {X} n n' P (s s1 s2 : stage W X) :
  monotone P -> advanced n P s s1 -> advanced n' P s1 s2 -> advanced (n + n') P s s2.
Proof using Type.
  intros Hm (Q1 & o1 & E1 & L1 & F1) (Q2 & o2 & E2 & L2 & F2). split; [by etrans|].
  exists (o1 ++ o2). rewrite E2, E1, <- app_assoc, length_app. split; [done|]. split; [lia|].
  apply Forall_app. split; [|done]. eapply Forall_impl; [exact F1|]. intros o Ho.
  eapply Hm; [|exact Ho]. by apply prefix_sub.
Qed.

Lemma advanced_weaken {X} n n' (P P' : list (list Z) -> list Z -> Prop) (s s' : stage W X) :
  n <= n' -> (forall q o, P q o -> P' q o) -> advanced n P s s' -> advanced n' P' s s'.
Proof using Type.
  intros Hn HP (Q & o & E & L & F). split; [done|]. exists o. split; [done|]. split; [lia|].
  eapply Forall_impl; [exact F|]. intros x. apply HP.
Qed.

Lemma advanced_more {X} n n' P (s s' : stage W X) : n <= n' -> advanced n P s s' -> advanced n' P s s'.
Proof using Type. intros Hn. by apply advanced_weaken. Qed.

Lemma derived_monotone in_buf : monotone (fun q => derived q in_buf).
Proof using Type. intros q q' out. apply derived_mono. Qed.

(** The outcome of some rounds: the test case restored, or the entry abandoned. *)
Definition rounds {X} (n : Z) (P : list (list Z) -> list Z -> Prop) (R : stage W X -> Prop)
    (s : stage W X) (o : sout W X) : Prop :=
  match o with
  | Finished s' => advanced n P s s' /\ R s'
  | Abandoned s' => advanced n P s s'
  | Wild | Endless => False
  end.

Lemma rounds_trans {X} n n' N P R (s s1 : stage W X) o :
  monotone P -> advanced n P s s1 -> rounds n' P R s1 o -> n + n' <= N -> rounds N P R s o.
Proof using Type.
  intros Hm Ha Hr HN. destruct o as [s2|s2| |]; simpl in *; [|..|done|done].
  - destruct Hr as [Hr HR]. split; [|done]. eapply advanced_more; [exact HN|by eapply advanced_trans].
  - eapply advanced_more; [exact HN|by eapply advanced_trans].
Qed.

(** How a round may lengthen the stage. *)
Definition stretched {X} (s s' : stage W X) : Prop :=
  (s_max s' = s_max s /\ s_perf s' = s_perf s)
  \/ (s_max s' = u32 (s_max s * 2) /\ s_perf s' = u32 (s_perf s * 2) /\ s_perf s <= havoc_max_mult c * 100).

(** A round of a stage on [in_buf]. *)
Definition round_ok {X} (P : list (list Z) -> list Z -> Prop) (in_buf : list Z) (round : stage W X -> sout W X)
    (s : stage W X) : Prop :=
  rounds 1 P (fun s' => s_out s' = in_buf /\ stretched s s') s (round s).

Lemma settle_ok {X} P in_buf out w x (s : stage W X) :
  (forall o m p qd, advanced 1 P s (Stage o w m p qd (s_runs s ++ [out]) x)) ->
  rounds 1 P (fun s' => s_out s' = in_buf /\ stretched s s') s (settle junk c in_buf out w x s).
Proof using Type.
  intros Hadv. unfold settle.
  pose proof (wp_restore in_buf (fun _ b w' => b = in_buf /\ w' = w) out w (conj eq_refl eq_refl)) as Hres.
  unfold wp in Hres. destruct (restore junk in_buf out w) as [[] b3 w3| |]; [|done..].
  destruct Hres as [-> ->].
  destruct (_ =? s_queued s); [|destruct (Z.leb_spec (s_perf s) (havoc_max_mult c * 100))];
    (split; [apply Hadv|]; split; [done|]); [by left|by right|by left].
Qed.

Hypothesis Hstack : 1 <= havoc_stack_pow2 c <= 30.

Lemma stacking_ok k : 0 <= k < havoc_stack_pow2 c -> 2 <= u32 (1 ≪ (1 + k)).
Proof using Hstack.
  intros Hk. rewrite Z.shiftl_1_l. assert (2 ^ 1 <= 2 ^ (1 + k)) by (apply Z.pow_le_mono_r; lia).
  assert (2 ^ (1 + k) <= 2 ^ 30) by (apply Z.pow_le_mono_r; lia). rewrite u32_id by lia. lia.
Qed.

(** The run of a round on an input derived by then. *)
Lemma advanced_run {X} (P : list (list Z) -> list Z -> Prop) (s : stage W X) w out :
  monotone P -> queue_buf w = queue_buf (s_world s) -> P (queue_buf w) out ->
  forall o m p qd x, advanced 1 P s (Stage o (common_fuzz_stuff w out).1 m p qd (s_runs s ++ [out]) x).
Proof using Type.
  intros Hm Hq Hout o m p qd x. pose proof (queue_run w out) as Hrun. split; simpl; [by rewrite <- Hq|].
  exists [out]. split; [done|]. split; [simpl; lia|]. apply Forall_singleton. eapply Hm; [|exact Hout].
  by apply prefix_sub.
Qed.

Lemma havoc_round_ok {X} w0 in_buf (s : stage W X) :
  good in_buf -> s_out s = in_buf -> queue_buf w0 `prefix_of` queue_buf (s_world s) ->
  round_ok (fun q => derived q in_buf) in_buf (havoc_round junk patience c (r_max c w0) in_buf) s.
Proof using Hfair Htokens Hcur Hstack.
  intros Hg Hout Hpre. unfold round_ok, havoc_round.
  pose proof (below_bound (s_world s) (havoc_stack_pow2 c) ltac:(lia)) as Hk.
  pose proof (queue_below (s_world s) (havoc_stack_pow2 c)) as Hq.
  destruct (below (s_world s) (havoc_stack_pow2 c)) as [k w]. simpl in Hk, Hq.
  pose proof (stacking_ok k Hk) as Hn. set (n := Z.to_nat (u32 (1 ≪ (1 + k)))) in *.
  pose proof (stacked_edits w0 n (s_out s) w ltac:(by rewrite Hout) ltac:(by rewrite Hq)) as Hst.
  unfold wp in Hst. destruct (stacked _ _ _ _ n (s_out s) w) as [[] out w1| |]; [|done..].
  destruct Hst as (Hgood & Hsteps & Hq1).
  pose proof (advanced_run (fun q => derived q in_buf) s w1 out (derived_monotone in_buf) ltac:(congruence)) as Hadv.
  destruct (common_fuzz_stuff w1 out) as [w2 abandon]. simpl in Hadv.
  assert (Hd : derived (queue_buf w1) in_buf out).
  { split; [done|]. exists n. split; [lia|]. by rewrite Hq1, <- Hout. }
  destruct abandon; [exact (Hadv Hd _ _ _ _ _)|]. apply settle_ok. intros. by apply Hadv.
Qed.

(** The number of rounds stays below [round_limit]: [stage_max] is at most twelve times
    [perf_score], which stops doubling beyond [havoc_max_mult * 100]. *)
Definition round_limit : Z := 24 * (havoc_max_mult c * 100).

Hypothesis Hmult : 1 <= havoc_max_mult c <= 255.

Definition paced {X} (s : stage W X) : Prop :=
  0 <= s_max s <= 12 * s_perf s /\ 1 <= s_perf s <= 2 * (havoc_max_mult c * 100).

Lemma stretched_paced {X} (s s' : stage W X) : paced s -> stretched s s' -> paced s'.
Proof using Hmult.
  unfold paced. intros [H1 H2] [[-> ->]|(-> & -> & Hle)]; [done|]. rewrite !u32_id by lia. lia.
Qed.

Section stage.
Context {X : Type} (P : list (list Z) -> list Z -> list Z -> Prop).
Hypothesis HP : forall in_buf, monotone (fun q => P q in_buf).

Lemma stage_loop_ok round w0 in_buf fuel : forall cur (s : stage W X),
  (forall s, s_out s = in_buf -> queue_buf w0 `prefix_of` queue_buf (s_world s) ->
     round_ok (fun q => P q in_buf) in_buf round s) ->
  s_out s = in_buf -> queue_buf w0 `prefix_of` queue_buf (s_world s) ->
  paced s -> 0 <= cur <= round_limit -> round_limit <= Z.of_nat fuel + cur ->
  rounds (round_limit - cur) (fun q => P q in_buf) (fun s' => s_out s' = in_buf) s
    (stage_loop round fuel cur s).
Proof using HP Hmult.
  induction fuel as [|fuel IH]; intros cur s Hround Hout Hpre Hp Hc Hf; cbn [stage_loop].
  - destruct (Z.ltb_spec cur (s_max s)); [unfold paced, round_limit in *; lia|].
    split; [|done]. eapply advanced_more; [|apply advanced_refl]. lia.
  - destruct (Z.ltb_spec cur (s_max s)) as [Hlt|].
    2: { split; [|done]. eapply advanced_more; [|apply advanced_refl]. lia. }
    assert (Hcl : cur < round_limit) by (unfold paced, round_limit in *; lia).
    pose proof (Hround s Hout Hpre) as Hr. unfold round_ok in Hr.
    destruct (round s) as [s1|s1| |]; simpl in Hr; [|..|done|done].
    + destruct Hr as (Ha & Ho1 & Hst). assert (Hu : u32 (cur + 1) = cur + 1) by (apply u32_id; unfold round_limit in *; lia).
      rewrite Hu. assert (Hpre1 : queue_buf w0 `prefix_of` queue_buf (s_world s1)) by (etrans; [exact Hpre|apply Ha]).
      specialize (IH (cur + 1) s1 Hround Ho1 Hpre1 (stretched_paced s s1 Hp Hst) ltac:(lia) ltac:(lia)).
      eapply rounds_trans; [apply HP|exact Ha|exact IH|lia].
    + simpl. eapply advanced_more; [|exact Hr]. lia.
Qed.

Lemma run_stage_ok round rmax fuel doing_det orig_perf splice_cycle in_buf (s : stage W X) :
  (forall w0 s, s_out s = in_buf -> queue_buf w0 `prefix_of` queue_buf (s_world s) ->
     round_ok (fun q => P q in_buf) in_buf (round (rmax w0) in_buf) s) ->
  s_out s = in_buf ->
  1 <= (if splice_cycle =? 0 then s_perf s else orig_perf) <= havoc_max_mult c * 100 ->
  round_limit <= Z.of_nat fuel ->
  rounds round_limit (fun q => P q in_buf) (fun s' => s_out s' = in_buf) s
    (run_stage round rmax fuel doing_det orig_perf splice_cycle in_buf s).
Proof using HP Hmult.
  intros Hround Hout Hp Hf. unfold run_stage. set (p := if _ =? 0 then s_perf s else orig_perf) in *.
  set (cy := if splice_cycle =? 0 then _ else _).
  assert (Hcy : 0 <= cy <= 1024)
    by (unfold cy, HAVOC_CYCLES_INIT, HAVOC_CYCLES, SPLICE_HAVOC; destruct (_ =? 0), doing_det; lia).
  rewrite (u32_id (cy * p)) by nia. set (m := _ `div` 100).
  assert (Hm : 0 <= m <= 11 * p).
  { pose proof (havoc_div_pos (s_world s)) as Hd. unfold m.
    assert (0 <= cy * p / havoc_div (s_world s) <= 1024 * p).
    { split; [apply Z.div_pos; nia|]. apply Z.div_le_upper_bound; nia. }
    split; [apply Z.div_pos; lia|]. apply Z.div_le_upper_bound; lia. }
  set (s1 := Stage _ _ _ _ _ _ _).
  assert (Hp1 : paced s1).
  { unfold paced, s1, HAVOC_MIN. simpl. destruct (Z.ltb_spec m 12); lia. }
  pose proof (stage_loop_ok (round (rmax (s_world s)) in_buf) (s_world s) in_buf fuel 0 s1 (Hround (s_world s))
    Hout (reflexivity _) Hp1) as Hl.
  rewrite Z.sub_0_r in Hl. apply Hl; [unfold round_limit in *; lia|lia].
Qed.

(** ** Splicing *)

(** What splicing makes of two test cases: [k] bytes of the first, and the beginning of the
    second, cut to its length. *)
Definition spliced (in_buf e sp : list Z) : Prop :=
  exists k l : nat, (k < l)%nat /\ (l < length in_buf)%nat /\ (l < length e)%nat
    /\ in_buf !! l <> e !! l /\ sp = take k in_buf ++ take (length e - k) e.

Lemma splice_with_ok in_buf e b w :
  good in_buf -> Forall byte_ok e -> 4 <= Z.of_nat (length e) <= 26214400 ->
  wp (splice_with junk in_buf e) (fun r b' w' => b' = b /\ queue_buf w' = queue_buf w
    /\ match r with None => True | Some sp => spliced in_buf e sp /\ good sp end) b w.
Proof using Type.
  intros Hg He Hl. pose proof (good_bounds in_buf Hg). unfold splice_with.
  set (n := Z.min _ _). pose proof (locate_diffs_correct in_buf e n ltac:(lia) ltac:(lia)) as Hd. cbv zeta in Hd.
  destruct (locate_diffs in_buf e n) as [f l].
  destruct ((f <? 0) || (l <? 2) || (f =? l)) eqn:E; [by apply wp_ret|].
  apply orb_false_iff in E as [[Hf%Z.ltb_ge Hl2%Z.ltb_ge]%orb_false_iff Hfl%Z.eqb_neq].
  destruct Hd as [(_ & -> & _)|(Df & Dl & Hall)]; [lia|]. destruct (Hall f Df) as [_ Hle].
  assert (Hlt : l < n /\ in_buf !! Z.to_nat l <> e !! Z.to_nat l).
  { destruct Dl as [_ Dl].
    assert (Hn : (Z.to_nat l < Z.to_nat n)%nat).
    { destruct (decide (Z.to_nat l < Z.to_nat n)%nat); [done|]. exfalso. apply Dl.
      rewrite !lookup_take_ge by lia. done. }
    split; [lia|]. by rewrite !lookup_take_lt in Dl by lia. }
  destruct Hlt as [Hln Hne].
  apply wp_bind. u32s. apply wp_roll; [lia|]. intros d w1 Hd Hw1. cbv zeta.
  set (k := f + d). assert (Hk : 0 <= k < l) by lia.
  apply wp_bind, wp_read_from; [lia..|]. change (Z.to_nat 0) with 0%nat. rewrite !drop_0.
  assert (Hlk : length (take (Z.to_nat k) in_buf) = Z.to_nat k) by (rewrite length_take; lia).
  set (scratch := replicate _ junk). assert (Hsl : length scratch = length e) by (unfold scratch; rewrite length_replicate; lia).
  apply wp_bind, wp_copy_to; [unfold in_range; lia|].
  rewrite (write_at_front [] scratch) by (simpl; lia). cbn [app]. rewrite Hlk. u32s.
  apply wp_bind, wp_read_from; [lia..|]. change (Z.to_nat 0) with 0%nat. rewrite !drop_0.
  replace (Z.to_nat (Z.of_nat (length e) - k)) with (length e - Z.to_nat k)%nat by lia.
  assert (Hlt : length (take (length e - Z.to_nat k) e) = (length e - Z.to_nat k)%nat) by (rewrite length_take; lia).
  apply wp_bind, wp_copy_to; [unfold in_range; rewrite length_app, length_drop; lia|].
  rewrite write_at_front by (rewrite ?length_drop; lia). rewrite drop_ge, app_nil_r by (rewrite length_drop; lia).
  apply wp_ret. split; [done|]. split; [done|]. split.
  - exists (Z.to_nat k), (Z.to_nat l). repeat split; try lia. done.
  - split; [apply Forall_app; split; [|auto with bytes]; destruct Hg; auto with bytes|].
    rewrite length_app, Hlk, Hlt. unfold MAX_FILE. lia.
Qed.

(** An input of the random stages. *)
Definition random_input (in_buf : list Z) (q : list (list Z)) (out : list Z) : Prop :=
  P q in_buf out \/ exists e sp, e ∈ q /\ spliced in_buf e sp /\ good sp /\ P q sp out.

Lemma random_input_monotone in_buf : monotone (random_input in_buf).
Proof using HP.
  intros q q' out Hs [H|(e & sp & He & Hsp & Hg & H)]; [left; by eapply HP|].
  right. exists e, sp. split; [by apply Hs|]. split; [done|]. split; [done|]. by eapply HP.
Qed.

Lemma splicing_ok limit havoc cycles in_buf : forall splice_cycle (s : stage W X),
  (forall sc sp s, good sp -> 0 < sc -> s_out s = sp ->
     rounds round_limit (fun q => P q sp) (fun s' => s_out s' = sp) s (havoc sc sp s)) ->
  good in_buf -> 0 <= splice_cycle <= limit -> limit < Z.of_nat cycles + splice_cycle ->
  rounds ((limit - splice_cycle) * round_limit) (random_input in_buf) (fun _ => True) s
    (splicing junk patience c limit havoc cycles splice_cycle in_buf s).
Proof using Hfair Hcur HP Hmult.
  induction cycles as [|cycles IH]; intros sc s Hhavoc Hg Hsc Hcy; [lia|]. cbn [splicing].
  assert (Hrl : 0 <= round_limit) by (unfold round_limit; lia).
  destruct (_ && (4 <=? _)) eqn:E.
  2: { split; [|done]. eapply advanced_more; [|apply advanced_refl]. nia. }
  apply andb_true_iff in E as [[[_ E1%Z.ltb_lt]%andb_true_iff E2%Z.ltb_lt]%andb_true_iff E3%Z.leb_le].
  assert (Hwp : wp (new_buf ← pick_other patience c; splice_with junk in_buf new_buf)
    (fun r b' w' => queue_buf w' = queue_buf (s_world s)
       /\ match r with None => True | Some sp => exists e, e ∈ queue_buf (s_world s) /\ spliced in_buf e sp /\ good sp end)
    (s_out s) (s_world s)).
  { apply wp_bind, wp_pick_other; [by apply fits_of_count|done|]. intros e w1 Hin Hok Hlen Hw1.
    eapply wp_mono; [by apply splice_with_ok|]. intros r b' w' (_ & Hw' & Hr). split; [congruence|].
    destruct r; [|done]. destruct Hr. eauto. }
  unfold wp in Hwp. lazymatch type of Hwp with match ?m with _ => _ end => destruct m as [r out w| |] end; [|done..].
  destruct Hwp as [Hw Hr]. destruct r as [sp|].
  2: { set (s1 := Stage out w _ _ _ _ _). pose proof (IH (sc + 1) s1 Hhavoc Hg ltac:(lia) ltac:(lia)) as H1.
       assert (Ha : advanced 0 (random_input in_buf) s s1).
       { split; simpl; [by rewrite Hw|]. exists []. by rewrite app_nil_r. }
       eapply rounds_trans; [exact (random_input_monotone in_buf)|exact Ha|exact H1|nia]. }
  destruct Hr as (e & Hin & Hsp & Hgsp).
  pose proof (wp_restore sp (fun _ b w' => b = sp /\ w' = w) out w (conj eq_refl eq_refl)) as Hres.
  unfold wp in Hres. destruct (restore junk sp out w) as [[] b3 w3| |]; [|done..]. destruct Hres as [-> ->].
  set (s1 := Stage sp w _ _ _ _ _).
  pose proof (Hhavoc (sc + 1) sp s1 Hgsp ltac:(lia) eq_refl) as Hst.
  assert (Hinput : forall s', advanced round_limit (fun q => P q sp) s1 s' ->
    advanced round_limit (random_input in_buf) s s').
  { intros s' (Q & o & Er & L & F). simpl in Q. split; [by rewrite <- Hw|]. exists o. split; [done|]. split; [done|].
    eapply Forall_impl; [exact F|]. intros x Hx. right. exists e, sp. split; [|done].
    eapply prefix_sub; [exact Q|]. by rewrite Hw. }
  destruct (havoc (sc + 1) sp s1) as [s2|s2| |]; simpl in Hst; [|..|done|done].
  - destruct Hst as [Ha _]. pose proof (IH (sc + 1) s2 Hhavoc Hg ltac:(lia) ltac:(lia)) as H2.
    eapply rounds_trans; [exact (random_input_monotone in_buf)|exact (Hinput _ Ha)|exact H2|nia].
  - simpl. eapply advanced_more; [|exact (Hinput _ Hst)]. nia.
Qed.

(** The stage on the test case, then the splices. *)
Lemma random_ok limit havoc cycles in_buf (s0 : stage W X) :
  (forall sc sp s, good sp -> s_out s = sp -> (sc = 0 -> s_perf s = s_perf s0) ->
     rounds round_limit (fun q => P q sp) (fun s' => s_out s' = sp) s (havoc sc sp s)) ->
  good in_buf -> s_out s0 = in_buf -> s_runs s0 = [] -> 0 <= limit < Z.of_nat cycles ->
  let o := match havoc 0 in_buf s0 with
           | Finished s => splicing junk patience c limit havoc cycles 0 in_buf s
           | o => o
           end in
  exists s, (o = Finished s \/ o = Abandoned s)
    /\ Z.of_nat (length (s_runs s)) <= (limit + 1) * (2400 * havoc_max_mult c)
    /\ Forall (random_input in_buf (queue_buf (s_world s))) (s_runs s).
Proof using Hfair Hcur HP Hmult.
  intros Hhavoc Hg Hout Hruns Hcy o.
  assert (Hrl : round_limit = 2400 * havoc_max_mult c) by (unfold round_limit; lia).
  assert (Ho : rounds ((limit + 1) * round_limit) (random_input in_buf) (fun _ => True) s0 o).
  { unfold o. pose proof (Hhavoc 0 in_buf s0 Hg Hout (fun _ => eq_refl)) as H1.
    assert (Hinput : forall s', advanced round_limit (fun q => P q in_buf) s0 s' ->
      advanced round_limit (random_input in_buf) s0 s')
      by (intros s'; apply advanced_weaken; [lia|]; intros q x Hx; by left).
    destruct (havoc 0 in_buf s0) as [s1|s1| |]; simpl in H1; [|..|done|done].
    - destruct H1 as [Ha _]. eapply rounds_trans; [exact (random_input_monotone in_buf)|exact (Hinput s1 Ha)| |].
      + apply splicing_ok; [|done|lia|lia]. intros sc sp s Hsp Hsc Hs. apply Hhavoc; [done|done|lia].
      + lia.
    - simpl. eapply advanced_more; [|exact (Hinput s1 H1)]. nia. }
  destruct o as [s|s| |]; simpl in Ho; [|..|done|done]; exists s;
    [destruct Ho as [Ho _]|]; destruct Ho as (_ & outs & E & L & F); rewrite E, Hruns; (split; [auto|]);
    (split; [simpl; lia|done]).
Qed.
End stage.
End theorems.

(** ** The properties *)

(** C6: every case of the havoc switch implements one of five abstract edits.  On a test
    case of 1 to MAX_FILE bytes, whatever is drawn, the case reads and writes only inside
    its buffers, copies only between blocks that do not overlap where it uses [memcpy],
    always finds a test case to splice with when it needs one, and leaves a test case of 1
    to MAX_FILE bytes that differs from the old one by a value of at most four bytes, a
    block written over or inserted, a block removed, or two disjoint blocks exchanged; the
    blocks come from the test case itself, a constant, a dictionary token or another entry
    of the queue. *)
Theorem havoc_op_correct {W} `{!Fuzzer W} `{!Random W} `{!Corpus W} junk patience c (w0 : W) r b w :
  fair (W:=W) patience ->
  Forall (fun d => Forall byte_ok d /\ Z.of_nat (length d) <= MAX_DICT_FILE) (tokens_of c) ->
  0 <= current_entry c -> good b -> 0 <= r < r_max c w0 -> queue_buf w0 `prefix_of` queue_buf w ->
  exists b' w', havoc_op junk patience c r b w = Done tt b' w'
    /\ good b' /\ edit (tokens_of c) (queue_buf w) b b' /\ queue_buf w' = queue_buf w.
Proof.
  intros Hf Ht Hc Hb Hr Hp. pose proof (havoc_op_edits junk patience c Hf Ht Hc w0 r b w Hb Hr Hp) as H.
  unfold wp in H. destruct (havoc_op junk patience c r b w) as [[] b' w'| |]; [|done..]. exists b', w'. by split.
Qed.

(** C22: the random stages end, and run the target only on what they should.  From a test
    case of 1 to MAX_FILE bytes and a score of at most [havoc_max_mult * 100], the havoc
    stage and its up to 15 splicing rounds finish or abandon the entry after at most
    [16 * 2400 * havoc_max_mult] runs, although finds double the length of a stage, without
    touching memory outside their buffers; each input run has 1 to MAX_FILE bytes and is two
    or more edits away from the test case, which is restored before each round, or from a
    splice of it with another entry. *)
Theorem random_stages_correct {W X} `{!Fuzzer W} `{!Random W} `{!Corpus W} junk patience c cycles fuel
    doing_det perf_score in_buf (w : W) (x : X) :
  fair (W:=W) patience ->
  Forall (fun d => Forall byte_ok d /\ Z.of_nat (length d) <= MAX_DICT_FILE) (tokens_of c) ->
  0 <= current_entry c -> 1 <= havoc_stack_pow2 c <= 30 -> 1 <= havoc_max_mult c <= 255 ->
  good in_buf -> 1 <= perf_score <= havoc_max_mult c * 100 ->
  (16 <= cycles)%nat -> 2400 * havoc_max_mult c <= Z.of_nat fuel ->
  exists s, (random_stages junk patience c cycles fuel doing_det perf_score in_buf w x = Finished s
          \/ random_stages junk patience c cycles fuel doing_det perf_score in_buf w x = Abandoned s)
    /\ Z.of_nat (length (s_runs s)) <= 16 * (2400 * havoc_max_mult c)
    /\ Forall (random_input (derived c) in_buf (queue_buf (s_world s))) (s_runs s).
Proof.
  intros Hf Ht Hc Hst Hm Hg Hp Hcy Hfu. unfold random_stages.
  apply (random_ok junk patience c Hf Hc Hm (derived c) (derived_monotone c) 15); [|done..|lia].
  intros sc sp s Hsp Hout Hperf.
  apply (run_stage_ok c Hm (derived c) (derived_monotone c)); [|done| |unfold round_limit; lia].
  - intros w0 s'. by apply havoc_round_ok.
  - destruct (Z.eqb_spec sc 0); [rewrite Hperf by done|]; done.
Qed.

(** A splice keeps the wrong part of the other test case.  The bytes behind the split
    are copied from the beginning of the other test case, not from the split on: the result
    is [take k in_buf ++ take (len - k) new_buf]. *)
Theorem splice_copies_beginning {W} `{!Fuzzer W} `{!Random W} `{!Corpus W} junk in_buf new_buf b (w : W) sp b' w' :
  good in_buf -> Forall byte_ok new_buf -> 4 <= Z.of_nat (length new_buf) <= MAX_FILE ->
  splice_with junk in_buf new_buf b w = Done (Some sp) b' w' ->
  exists k, (k < length in_buf)%nat /\ (k < length new_buf)%nat
    /\ sp = take k in_buf ++ take (length new_buf - k) new_buf.
Proof.
  intros Hg He Hl Hs. pose proof (splice_with_ok junk in_buf new_buf b w Hg He Hl) as H.
  unfold wp in H. rewrite Hs in H. destruct H as (_ & _ & (k & l & H1 & H2 & H3 & _ & ->) & _).
  exists k. split; [lia|]. split; [lia|done].
Qed.

(** ** A fuzzer to evaluate the stages with: it counts, and never finds anything *)

#[global] Instance counting_fuzzer : Fuzzer Z := {|
  common_fuzz_stuff w b := (w + 1, false);
  trace_cksum w := w;
  maybe_add_auto w d := w;
  hit_cnt w := 0;
|}.

Definition sample_queue : list (list Z) := [[10; 11; 12; 13; 14; 15]; [10; 21; 22; 23; 24; 25]; [30; 31; 32; 33; 34; 35]].

#[global] Instance counting_corpus : Corpus Z.
Proof.
  refine {| queue_buf w := sample_queue; queue_cycle w := 3; run_over10m w := true; expand_havoc w := true;
    no_recent_find w := false; havoc_div w := 1; |}.
  - done.
  - done.
  - intros _. unfold sample_queue. repeat constructor; try (unfold byte_ok, MAX_FILE; simpl; lia).
  - done.
  - done.
Defined.

Definition sample_cfg : havoc_cfg := HavocCfg [[1; 2; 3]] [[7; 8; 9]] false 0 4 64 true.

Lemma sample_tokens :
  Forall (fun d => Forall byte_ok d /\ Z.of_nat (length d) <= MAX_DICT_FILE) (tokens_of sample_cfg).
Proof. repeat constructor; unfold byte_ok, MAX_DICT_FILE; simpl; lia. Qed.

Lemma sample_good : good [10; 11; 12; 13; 14; 15].
Proof. split; [byte_list|unfold MAX_FILE; simpl; lia]. Qed.

Lemma havoc_op_correct_witness :
  r_max sample_cfg 5 = 77 /\ exists b' w',
    havoc_op 0 (Z.to_nat (2 ^ 32)) sample_cfg 74 [10; 11; 12; 13; 14; 15] 8 = Done tt b' w' /\ good b'.
Proof.
  split; [reflexivity|].
  destruct (havoc_op_correct 0 (Z.to_nat (2 ^ 32)) sample_cfg 5 74 [10; 11; 12; 13; 14; 15] 8 counting_fair
    sample_tokens ltac:(simpl; lia) sample_good ltac:(vm_compute; split; [discriminate|reflexivity]) ltac:(reflexivity))
    as (b' & w' & H1 & H2 & _).
  exists b', w'. split; [exact H1|exact H2].
Defined.

Lemma random_stages_correct_witness :
  exists s, (random_stages 0 (Z.to_nat (2 ^ 32)) sample_cfg 16 (Z.to_nat 153600) true 100 [10; 11; 12; 13; 14; 15] 8 tt = Finished s
          \/ random_stages 0 (Z.to_nat (2 ^ 32)) sample_cfg 16 (Z.to_nat 153600) true 100 [10; 11; 12; 13; 14; 15] 8 tt = Abandoned s)
    /\ Z.of_nat (length (s_runs s)) <= 16 * (2400 * 64).
Proof.
  destruct (random_stages_correct 0 (Z.to_nat (2 ^ 32)) sample_cfg 16 (Z.to_nat 153600) true 100
    [10; 11; 12; 13; 14; 15] 8 tt counting_fair sample_tokens ltac:(simpl; lia) ltac:(simpl; lia) ltac:(simpl; lia)
    sample_good ltac:(simpl; lia) ltac:(lia) ltac:(simpl havoc_max_mult; lia)) as (s & H1 & H2 & _).
  exists s. split; [exact H1|exact H2].
Defined.

Lemma splice_copies_beginning_witness :
  splice_with 0 [10; 11; 12; 13; 14; 15] [10; 21; 22; 23; 24; 25] [] 6
    = Done (Some [10; 11; 12; 10; 21; 22]) [] 7
  /\ exists k, (k < 6)%nat /\ (k < 6)%nat
    /\ [10; 11; 12; 10; 21; 22] = take k [10; 11; 12; 13; 14; 15] ++ take (6 - k) [10; 21; 22; 23; 24; 25].
Proof.
  split; [reflexivity|].
  exact (splice_copies_beginning 0 [10; 11; 12; 13; 14; 15] [10; 21; 22; 23; 24; 25] [] 6 _ [] 7 sample_good
    ltac:(byte_list) ltac:(unfold MAX_FILE; simpl; lia) ltac:(reflexivity)).
Defined.
