(* ===== verification/MoptHavoc.v ===== *)
(** * The havoc stage of MOpt (src/aflplusplus/src/afl-fuzz-one.c, mopt_common_fuzzing)

    MOpt draws the edits of its havoc stage from a distribution it adapts, and counts how
    often each operator was used and how many finds followed.  [select_algorithm] draws the
    operator from the table of cumulative probabilities (doubles, compared only); the edits
    are the ones of Havoc.v in other combinations. *)
From S2P Require Import Prelude OneHelpers Rng DetStages ExtrasStages Havoc HavocSpec HavocTheorems.

Definition operator_num : nat := 19.

(** ** Drawing an operator *)

Section select.
(** The probabilities and their comparison. *)
Context {T : Type} (lt : T -> T -> bool).

(** [for (i = 0; i < operator_num; ++i) if (sele < probability_now[i]) break;] *)
Fixpoint select_loop (sele : T) (probability : list T) (i : nat) : nat :=
  match probability with
  | [] => i
  | p :: probability => if lt sele p then i else select_loop sele probability (S i)
  end.

(** The operator, or [None] for the FATAL of an inconsistent table. *)
Definition select_algorithm (probability_now : list T) (sele : T) : option nat :=
  let i := select_loop sele probability_now 0 in
  let j_puppet := bool_decide (i < length probability_now)%nat && negb (Nat.eqb i 0) in
  let before := match probability_now !! (i - 1)%nat with Some p => lt sele p | None => false end in
  let after_ := match probability_now !! (i + 1)%nat with Some p => lt p sele | None => false end in
  if (j_puppet && before) || after_ then None else Some i.

(** The table is cumulative: it does not decrease. *)
Definition cumulative (l : list T) : Prop :=
  forall i j p q, (i < j)%nat -> l !! i = Some p -> l !! j = Some q -> lt q p = false.

Lemma select_loop_spec sele l i0 :
  let i := select_loop sele l i0 in
  (i0 <= i <= i0 + length l)%nat
  /\ (forall k p, (k < i - i0)%nat -> l !! k = Some p -> lt sele p = false)
  /\ (forall p, l !! (i - i0)%nat = Some p -> lt sele p = true).
Proof.
  revert i0. induction l as [|x l IH]; intros i0; simpl.
  { split; [lia|]. split; [|done]. intros k p Hk. lia. }
  destruct (lt sele x) eqn:E.
  - split; [lia|]. split; [lia|]. rewrite Nat.sub_diag. intros p [= <-]. done.
  - destruct (IH (S i0)) as (H1 & H2 & H3). set (i := select_loop sele l (S i0)) in *. split; [lia|].
    split.
    + intros [|k] p Hk Hp; [simpl in Hp; congruence|]. apply (H2 k p); [lia|done].
    + intros p Hp. apply H3. replace (i - i0)%nat with (S (i - S i0)) in Hp by lia. done.
Qed.
End select.

(** ** The fuzzer under MOpt *)

Class Selector (W : Type) `{!Fuzzer W} `{!Random W} `{!Corpus W} := {
  (** [select_algorithm(afl, r_max)] *)
  select_op : W -> Z -> Z * W;
  select_nonneg : forall w n, 0 <= (select_op w n).1;
  select_queue : forall w n, queue_buf (select_op w n).2 = queue_buf w;
}.

Section mopt.
Context {W : Type} `{!Fuzzer W} `{!Random W} `{!Corpus W} `{!Selector W}.
Context (junk : Z) (patience : nat) (c : havoc_cfg).

(** An edit, and the index of the counter [cycles_v2] it increments; [None] for a [break]
    before that. *)
Definition counted (k : nat) (m : H W unit) : H W (option nat) := m;; mret (Some k).
Definition needs (n : Z) (m : H W (option nat)) : H W (option nat) :=
  l ← temp_len; if l <? n then mret None else m.

(** [temp_len_puppet = rand_below(afl, (temp_len << 3) - (n - 1))], [n] bits flipped *)
Fixpoint flip_bits (n : nat) (b : Z) : H W unit :=
  match n with O => mret tt | S n => flip_at b;; flip_bits n (b + 1) end.
Definition mopt_flip (n : nat) : H W unit :=
  l ← temp_len; b ← roll (u32 (u32 (l ≪ 3) - (Z.of_nat n - 1))); flip_bits n b.

(** [if (rand_below(afl, 2)) { little endian } else { big endian }] *)
Definition either_endian (m : bool -> H W unit) : H W unit :=
  k ← roll 2; if negb (k =? 0) then m false else m true.

Definition mopt_clone : H W (option nat) :=
  l ← temp_len;
  if u32 (l + HAVOC_BLK_XL) <? MAX_FILE then
    actually_clone ← roll 4;
    '(clone_len, clone_from) ←
      (if negb (actually_clone =? 0) then
         clone_len ← block_len l; clone_from ← roll (u32 (l - clone_len + 1)); mret (clone_len, clone_from)
       else clone_len ← block_len HAVOC_BLK_XL; mret (clone_len, 0));
    clone_to ← roll l;
    insert_block junk (u32 (l + clone_len)) clone_to clone_len
      (if negb (actually_clone =? 0) then read_out clone_from clone_len
       else x ← fill_byte; mret (replicate (Z.to_nat clone_len) (u8 x)));;
    mret (Some 14%nat)
  else mret None.

Definition mopt_overwrite : H W (option nat) := needs 2 (
  l ← temp_len;
  copy_len ← block_len (u32 (l - 1));
  copy_from ← roll (u32 (l - copy_len + 1));
  copy_to ← roll (u32 (l - copy_len + 1));
  k ← roll 4;
  (if negb (k =? 0)
   then if copy_from =? copy_to then mret tt else memmove_out copy_to copy_from copy_len
   else x ← fill_byte; memset_out copy_to x copy_len);;
  mret (Some 15%nat)).

(** The dictionary to use: the automatic one if there is no other, or by a coin. *)
Definition choose_tokens : H W (list (list Z)) :=
  match extras c, a_extras c with
  | [], _ => mret (a_extras c)
  | _, [] => mret (extras c)
  | _, _ => k ← roll 2; mret (if negb (k =? 0) then a_extras c else extras c)
  end.

Definition mopt_extra_over : H W (option nat) :=
  tokens ← choose_tokens;
  use_extra ← roll (Z.of_nat (length tokens));
  token ← pick tokens use_extra;
  let extra_len := Z.of_nat (length token) in
  l ← temp_len;
  if l <? extra_len then mret None
  else
    insert_at ← roll (u32 (l - extra_len + 1));
    write_out insert_at token;;
    mret (Some 16%nat).

Definition mopt_extra_insert : H W (option nat) :=
  l ← temp_len;
  insert_at ← roll (u32 (l + 1));
  tokens ← choose_tokens;
  use_extra ← roll (Z.of_nat (length tokens));
  token ← pick tokens use_extra;
  if MAX_FILE <=? u32 (l + Z.of_nat (length token)) then mret None
  else insert_token junk insert_at token;; mret (Some 17%nat).

Definition ready : H W Z := fun b w => Done (ready_for_splicing_count w) b w.

Definition mopt_splice : H W (option nat) :=
  n ← ready;
  if n <? 2 then mret None
  else counted 18 (op_splice junk patience c (k ← roll 2; mret (negb (k =? 0)))).

(** [default:], [r] counted from 16 *)
Definition mopt_default (r : Z) : H W (option nat) :=
  let tokens := negb (bool_decide (extras c = [])) || negb (bool_decide (a_extras c = [])) in
  if (r =? 0) && tokens then mopt_extra_over
  else if (r =? 1) && tokens then mopt_extra_insert
  else mopt_splice.

Definition mopt_op (r : Z) : H W (option nat) :=
  if r =? 0 then counted 0 op_flip_bit
  else if r =? 1 then needs 2 (counted 1 (mopt_flip 2))
  else if r =? 2 then needs 2 (counted 2 (mopt_flip 4))
  else if r =? 3 then needs 4 (counted 3 (op_xor 1 0xff))
  else if r =? 4 then needs 8 (counted 4 (op_xor 2 0xffff))
  else if r =? 5 then needs 8 (counted 5 (op_xor 4 0xffffffff))
  else if r =? 6 then counted 6 (op_arith 1 false (-1);; op_arith 1 false 1)
  else if r =? 7 then
    needs 8 (counted 7 (either_endian (fun be => op_arith 2 be (-1));; either_endian (fun be => op_arith 2 be 1)))
  else if r =? 8 then
    needs 8 (counted 8 (either_endian (fun be => op_arith 4 be (-1));; either_endian (fun be => op_arith 4 be 1)))
  else if r =? 9 then needs 4 (counted 9 (op_interesting 1 false interesting_8))
  else if r =? 10 then needs 8 (counted 10 (either_endian (fun be => op_interesting 2 be interesting_16)))
  else if r =? 11 then needs 8 (counted 11 (either_endian (fun be => op_interesting 4 be interesting_32)))
  else if r =? 12 then counted 12 op_random_byte
  else if r =? 13 then needs 2 (counted 13 op_delete)
  else if r =? 14 then mopt_clone
  else if r =? 15 then mopt_overwrite
  else mopt_default (r - 16).

Definition mopt_r_max (w : W) : Z :=
  16 + (if negb (bool_decide (extras c = [])) || negb (bool_decide (a_extras c = [])) then 2 else 0)
  + (if expand_havoc w && (1 <? ready_for_splicing_count w) then 1 else 0).

(** [use_stacking] edits; the counters are updated on the way. *)
Definition bump_cycle (k : option nat) (v2 : list Z) : list Z :=
  match k with Some k => alter (fun n => u64 (n + 1)) k v2 | None => v2 end.

Fixpoint mopt_stacked (rmax : Z) (n : nat) (v2 : list Z) : H W (list Z) :=
  match n with
  | O => mret v2
  | S n =>
      r ← (fun b w => let '(r, w) := select_op w rmax in Done r b w);
      k ← mopt_op r;
      mopt_stacked rmax n (bump_cycle k v2)
  end.

(** ** Credit for finds *)

(** [MOpt_globals]: uses and finds per operator, and the totals. *)
Record mopt_counts := MoptCounts {
  cycles_v2 : list Z;
  cycles_v3 : list Z;
  finds_v2 : list Z;
  total_puppet_find : Z;
  pTime : Z;
}.

(** After a run that raised the number of finds from [before] to [now]: the operators used
    since the snapshot [cycles_v3] get the credit. *)
Definition credit (before now : Z) (m : mopt_counts) : mopt_counts :=
  if before <? now then
    let d := now - before in
    MoptCounts (cycles_v2 m) (cycles_v3 m)
      (zip_with (fun '(v2, v3) f => if v3 <? v2 then u64 (f + d) else f) (zip (cycles_v2 m) (cycles_v3 m)) (finds_v2 m))
      (u64 (total_puppet_find m + d)) (pTime m)
  else m.

(** One round: the snapshot of the counters, the edits, the run, the credit. *)
Definition mopt_round (rmax : Z) (in_buf : list Z) (s : stage W mopt_counts) : sout W mopt_counts :=
  let m := s_counts s in
  let '(k, w) := below (s_world s) (havoc_stack_pow2 c) in
  let use_stacking := u32 (1 ≪ (1 + k)) in
  match mopt_stacked rmax (Z.to_nat use_stacking) (cycles_v2 m) (s_out s) w with
  | Oob => Wild
  | Starved => Endless
  | Done v2 out w =>
      let m := MoptCounts v2 (cycles_v2 m) (finds_v2 m) (total_puppet_find m) (u64 (pTime m + 1)) in
      let before := hit_cnt w in
      let '(w, abandon) := common_fuzz_stuff w out in
      if abandon
      then Abandoned (Stage out w (s_max s) (s_perf s) (s_queued s) (s_runs s ++ [out]) m)
      else settle junk c in_buf out w (credit before (hit_cnt w) m) s
  end.

(** The random part of [mopt_common_fuzzing]; [limit] is SPLICE_CYCLES_puppet. *)
Definition mopt_random_stages (limit : Z) (cycles fuel : nat) (doing_det : bool) (perf_score : Z)
    (in_buf : list Z) (w : W) (m : mopt_counts) : sout W mopt_counts :=
  let havoc := run_stage mopt_round mopt_r_max fuel doing_det perf_score in
  match havoc 0 in_buf (Stage in_buf w 0 perf_score 0 [] m) with
  | Finished s => splicing junk patience c limit havoc cycles 0 in_buf s
  | o => o
  end.
End mopt.

(** ** The operator is in range, and consistent tables never stop the fuzzer *)

(** [select_algorithm] on a cumulative table: the first operator whose cumulated
    probability exceeds the draw, or [operator_num] if there is none, and never the FATAL. *)
Lemma select_algorithm_total {T} (lt : T -> T -> bool) l sele :
  (forall p q r, lt p q = true -> lt r q = false -> lt r p = false) ->
  cumulative lt l ->
  exists i, select_algorithm lt l sele = Some i /\ (i <= length l)%nat
    /\ (forall k p, (k < i)%nat -> l !! k = Some p -> lt sele p = false)
    /\ (forall p, l !! i = Some p -> lt sele p = true).
Proof.
  intros Htr Hcum. destruct (select_loop_spec lt sele l 0) as (H1 & H2 & H3). unfold select_algorithm.
  set (i := select_loop lt sele l 0) in *. rewrite Nat.sub_0_r in H2, H3. exists i.
  split; [|split; [lia|done]].
  assert (Hb : (bool_decide (i < length l)%nat && negb (Nat.eqb i 0)
    && match l !! (i - 1)%nat with Some p => lt sele p | None => false end) = false).
  { destruct (Nat.eqb_spec i 0); [by rewrite andb_false_r|]. destruct (l !! (i - 1)%nat) as [p|] eqn:Ep.
    - rewrite (H2 (i - 1)%nat p) by (done || lia). by rewrite andb_false_r.
    - by rewrite andb_false_r. }
  rewrite Hb. destruct (l !! (i + 1)%nat) as [q|] eqn:Eq; [|done]. simpl.
  assert (Hi : is_Some (l !! i)) by (apply lookup_lt_is_Some; apply lookup_lt_Some in Eq; lia).
  destruct Hi as [p Hp]. rewrite (Htr sele p q (H3 p Hp)); [done|].
  eapply Hcum; [|exact Hp|exact Eq]. lia.
Qed.

(** ** The edits of MOpt *)

Section proofs.
Context {W : Type} `{!Fuzzer W} `{!Random W} `{!Corpus W} `{!Selector W}.
Context (junk : Z) (patience : nat) (c : havoc_cfg).
Implicit Types (b : list Z) (w : W).

(** Some edits, one after the other. *)
Definition reworked {A} w b (_ : A) b' w' : Prop :=
  good b' /\ rtc (edit (tokens_of c) (queue_buf w)) b b' /\ queue_buf w' = queue_buf w.

(** An operator that reports no use has left the test case alone. *)
Definition operated w b (k : option nat) b' w' : Prop :=
  reworked w b k b' w' /\ match k with Some k => (k < operator_num)%nat | None => b' = b end.

Lemma reworked_refl {A} (a : A) b w w' : good b -> queue_buf w' = queue_buf w -> reworked w b a b w'.
Proof. intros. by split_and!; [|apply rtc_refl|]. Qed.

Lemma edited_reworked u b b' w w' : edited c w b u b' w' -> reworked w b u b' w'.
Proof. intros (H1 & H2 & H3). split_and!; [done|by apply rtc_once|done]. Qed.

Lemma reworked_bind {A B} (m : H W A) (k : A -> H W B) b w w0 :
  wp m (reworked w0 b) b w ->
  (forall a b1 w1, good b1 -> queue_buf w1 = queue_buf w0 -> wp (k a) (reworked w1 b1) b1 w1) ->
  wp (m ≫= k) (reworked w0 b) b w.
Proof.
  intros Hm Hk. apply wp_bind. eapply wp_mono; [exact Hm|]. intros a b1 w1 (G1 & R1 & Q1).
  eapply wp_mono; [by apply Hk|]. intros d b2 w2 (G2 & R2 & Q2). split_and!; [done| |congruence].
  etrans; [exact R1|]. by rewrite <- Q1.
Qed.

Lemma counted_ok k m b w w0 :
  (k < operator_num)%nat -> wp m (reworked w0 b) b w -> wp (counted k m) (operated w0 b) b w.
Proof.
  intros Hk Hm. unfold counted. apply wp_bind. eapply wp_mono; [exact Hm|]. intros u b1 w1 H1.
  apply wp_ret. split; [exact H1|done].
Qed.

Lemma broke b w w0 : good b -> queue_buf w = queue_buf w0 -> operated w0 b None b w.
Proof. intros. split; [by apply reworked_refl|done]. Qed.

Lemma needs_ok n m b w w0 :
  good b -> queue_buf w = queue_buf w0 ->
  (n <= Z.of_nat (length b) -> wp m (operated w0 b) b w) -> wp (needs n m) (operated w0 b) b w.
Proof.
  intros Hb Hq Hm. unfold needs. hsteps. destruct (Z.ltb_spec (Z.of_nat (length b)) n);
    [apply wp_ret; by apply broke|by apply Hm].
Qed.

(** The length of the test case is not changed by edits of values, so a second one of the
    same width still fits. *)
Definition patched w b (_ : unit) b' w' : Prop := reworked w b tt b' w' /\ length b' = length b.

Lemma patched_bind (m k : H W unit) b w w0 :
  wp m (patched w0 b) b w ->
  (forall b1 w1, good b1 -> length b1 = length b -> queue_buf w1 = queue_buf w0 -> wp k (patched w1 b1) b1 w1) ->
  wp (m ≫= fun _ => k) (patched w0 b) b w.
Proof.
  intros Hm Hk. apply wp_bind. eapply wp_mono; [exact Hm|]. intros u b1 w1 ((G1 & R1 & Q1) & L1).
  eapply wp_mono; [by apply Hk|]. intros d b2 w2 ((G2 & R2 & Q2) & L2). split; [|congruence]. split_and!; [done| |congruence].
  etrans; [exact R1|]. by rewrite <- Q1.
Qed.

Lemma patched_ret b w w0 : good b -> queue_buf w = queue_buf w0 -> wp (mret tt) (patched w0 b) b w.
Proof. intros. apply wp_ret. split; [by apply reworked_refl|done]. Qed.

(** Programs that keep the length. *)
Definition keeps {A} (m : H W A) : Prop := forall b w a b' w', m b w = Done a b' w' -> length b' = length b.

Lemma keeps_bind {A B} (m : H W A) (k : A -> H W B) : keeps m -> (forall a, keeps (k a)) -> keeps (m ≫= k).
Proof.
  intros Hm Hk b w a b' w' E. unfold mbind, H_bind in E. destruct (m b w) as [a1 b1 w1| |] eqn:E1; [|done..].
  rewrite (Hk _ _ _ _ _ _ E). by eapply Hm.
Qed.

Lemma keeps_temp_len : keeps temp_len.
Proof. intros b w a b' w' [= <- <- <-]. done. Qed.
Lemma keeps_roll n : keeps (roll n).
Proof. intros b w a b' w'. unfold roll. destruct (below w n). by intros [= <- <- <-]. Qed.
Lemma keeps_peek n i : keeps (peek n i).
Proof. intros b w a b' w'. unfold peek. case_decide; [|done]. by intros [= <- <- <-]. Qed.
Lemma keeps_poke n i v : keeps (poke n i v).
Proof. intros b w a b' w'. unfold poke. case_decide; [|done]. intros [= <- <- <-]. by apply length_st. Qed.
Lemma keeps_pick {A} (l : list A) i : keeps (pick l i).
Proof. intros b w a b' w'. unfold pick. destruct (l !! _); [|done]. by intros [= <- <- <-]. Qed.

Ltac keeps :=
  repeat (apply keeps_bind; [|intros ?]);
  first [apply keeps_temp_len|apply keeps_roll|apply keeps_peek|apply keeps_poke|apply keeps_pick].

Lemma patched_of (m : H W unit) b w : keeps m -> wp m (edited c w b) b w -> wp m (patched w b) b w.
Proof.
  intros Hk Hw. unfold wp in *. destruct (m b w) as [[] b' w'| |] eqn:E; [|done..].
  split; [by apply edited_reworked|by eapply Hk].
Qed.

Lemma patched_reworked (m : H W unit) b w w0 : wp m (patched w0 b) b w -> wp m (reworked w0 b) b w.
Proof. intros Hm. eapply wp_mono; [exact Hm|]. intros [] b' w' [H _]. exact H. Qed.

Lemma arith_patched n be sg b w :
  good b -> (1 <= n <= 4)%nat -> (n <= length b)%nat -> wp (op_arith n be sg) (patched w b) b w.
Proof. intros. apply patched_of; [unfold op_arith, position; keeps|by apply op_arith_edits]. Qed.

Lemma xor_patched n mask b w :
  good b -> (1 <= n <= 4)%nat -> (n <= length b)%nat -> wp (op_xor n mask) (patched w b) b w.
Proof. intros. apply patched_of; [unfold op_xor, position; keeps|by apply op_xor_edits]. Qed.

Lemma interesting_patched n be table b w :
  good b -> (1 <= n <= 4)%nat -> (n <= length b)%nat -> (0 < length table)%nat ->
  wp (op_interesting n be table) (patched w b) b w.
Proof. intros. apply patched_of; [unfold op_interesting, position; keeps|by apply op_interesting_edits]. Qed.

Lemma endian_patched m b w :
  good b -> (forall be b1 w1, b1 = b -> wp (m be) (patched w1 b1) b1 w1) -> wp (either_endian m) (patched w b) b w.
Proof.
  intros Hb Hm. unfold either_endian. apply wp_bind, wp_roll; [lia|]. intros k w1 _ Hw1.
  assert (Hm' : forall be, wp (m be) (patched w b) b w1).
  { intros be. eapply wp_mono; [by apply Hm|]. intros [] b2 w2 [(G & R & Q) L]. rewrite Hw1 in R. split; [|done].
    split_and!; [done|done|congruence]. }
  destruct (negb _); apply Hm'.
Qed.

Lemma flip_bits_patched n x b w :
  good b -> 0 <= x -> x + Z.of_nat n <= 8 * Z.of_nat (length b) -> wp (flip_bits n x) (patched w b) b w.
Proof.
  revert x b w. induction n as [|n IH]; intros x b w Hb H0 Hx; cbn [flip_bits]; [by apply patched_ret|].
  apply patched_bind; [apply patched_of; [unfold flip_at; keeps|apply flip_at_edits; [done|lia|done]]|].
  intros b1 w1 G1 L1 Q1. apply IH; [done|lia|lia].
Qed.

Lemma mopt_flip_patched n b w :
  good b -> (1 <= n <= 8)%nat -> wp (mopt_flip n) (patched w b) b w.
Proof.
  intros Hb Hn. pose proof (good_bounds b Hb). unfold mopt_flip. apply wp_bind, wp_temp_len.
  rewrite Z.shiftl_mul_pow2, (u32_id (_ * 2 ^ 3)), u32_id by lia.
  apply wp_bind, wp_roll; [lia|]. intros x w1 Hx Hw1.
  eapply wp_mono; [apply flip_bits_patched; [done|lia|lia]|]. intros [] b2 w2 [(G & R & Q) L]. rewrite Hw1 in R.
  split; [|done]. split_and!; [done|done|congruence].
Qed.

(** ** The switch *)

Hypothesis Hfair : fair (W:=W) patience.
Hypothesis Htokens : Forall (fun d => Forall byte_ok d /\ Z.of_nat (length d) <= MAX_DICT_FILE) (tokens_of c).
Hypothesis Hcur : 0 <= current_entry c.

Lemma edited_operated k b b' w w0 : (k < operator_num)%nat -> edited c w0 b tt b' w -> operated w0 b (Some k) b' w.
Proof using Type. intros Hk He. split; [|done]. by apply (edited_reworked tt). Qed.

Lemma mopt_clone_ok b w : good b -> wp (mopt_clone junk) (operated w b) b w.
Proof using Type.
  intros Hb. pose proof (good_bounds b Hb). unfold mopt_clone, HAVOC_BLK_XL, MAX_FILE. apply wp_bind, wp_temp_len.
  u32s. destruct (Z.ltb_spec (Z.of_nat (length b) + 32768) (25 * 1024 * 1024)); [|apply wp_ret; by apply broke].
  apply wp_bind, wp_roll; [lia|]. intros ac w1 _ Hw1. apply wp_bind.
  assert (Hrest : forall cl cf w2, queue_buf w2 = queue_buf w -> 1 <= cl <= 32768 ->
    (ac =? 0 = false -> 0 <= cf /\ cf + cl <= Z.of_nat (length b)) ->
    wp (clone_to ← roll (Z.of_nat (length b));
        insert_block junk (u32 (Z.of_nat (length b) + cl)) clone_to cl
          (if negb (ac =? 0) then read_out cf cl else x ← fill_byte; mret (replicate (Z.to_nat cl) (u8 x)));;
        mret (Some 14%nat)) (operated w b) b w2).
  { intros cl cf w2 Hw2 Hcl Hcf. apply wp_bind, wp_roll; [lia|]. intros ct w3 Hct Hw3. u32s. apply wp_bind.
    apply wp_insert_block; [done|lia|lia|lia|]. destruct (ac =? 0); simpl.
    - apply wp_bind, wp_fill_byte; [done|]. intros x w4 Hw4. apply wp_ret. rewrite length_replicate.
      split; [done|]. split; [lia|]. apply wp_ret, edited_operated; [unfold operator_num; lia|].
      apply edited_insert; [done|apply u8s_ok|apply constant_block|lia| |congruence].
      rewrite length_replicate. unfold MAX_FILE. lia.
    - destruct (Hcf eq_refl) as [Hc0 Hc1]. apply wp_read_out; [lia..|]. split; [done|].
      split; [rewrite length_take, length_drop; lia|]. apply wp_ret, edited_operated; [unfold operator_num; lia|].
      apply edited_insert; [done|destruct Hb; auto with bytes|apply own_block|lia| |congruence].
      rewrite length_take, length_drop. unfold MAX_FILE. lia. }
  destruct (ac =? 0); simpl.
  - apply wp_bind, wp_block_len; [lia|]. intros cl w2 Hcl _ Hw2. apply wp_ret. apply (Hrest cl 0); [congruence|lia|done].
  - apply wp_bind, wp_block_len; [lia|]. intros cl w2 Hcl Hcl' Hw2. u32s.
    apply wp_bind, wp_roll; [lia|]. intros cf w3 Hcf Hw3. apply wp_ret. apply (Hrest cl cf); [congruence|lia|lia].
Qed.

Lemma mopt_overwrite_ok b w : good b -> wp mopt_overwrite (operated w b) b w.
Proof using Type.
  intros Hb. pose proof (good_bounds b Hb). apply needs_ok; [done..|]. intros Hl.
  apply wp_bind, wp_temp_len. u32s. apply wp_bind, wp_block_len; [lia|]. intros n w1 Hn _ Hw1. u32s.
  apply wp_bind, wp_roll; [lia|]. intros cf w2 Hcf Hw2. apply wp_bind, wp_roll; [lia|]. intros ct w3 Hct Hw3.
  apply wp_bind, wp_roll; [lia|]. intros k w4 _ Hw4. apply wp_bind.
  assert (Hedit : forall u b' w', edited c w b u b' w' -> wp (mret (Some 15%nat)) (operated w b) b' w').
  { intros [] b' w' He. apply wp_ret, edited_operated; [unfold operator_num; lia|done]. }
  destruct (negb _).
  - destruct (cf =? ct).
    + apply wp_ret, wp_ret. split; [apply reworked_refl; [done|congruence]|]. unfold operator_num. lia.
    + apply wp_memmove_out; [lia..|]. apply (Hedit tt).
      apply edited_over; [done|destruct Hb; auto with bytes|apply own_block| |congruence].
      unfold in_range. rewrite length_take, length_drop. lia.
  - apply wp_bind, wp_fill_byte; [done|]. intros x w5 Hw5. unfold memset_out.
    apply wp_write_out; [unfold in_range; rewrite length_replicate; lia|]. apply (Hedit tt).
    apply edited_over; [done|apply u8s_ok|apply constant_block| |congruence].
    unfold in_range. rewrite length_replicate. lia.
Qed.

(** Either dictionary, if one of them has tokens. *)
Lemma wp_choose_tokens (Q : list (list Z) -> list Z -> W -> Prop) b w :
  extras c <> [] \/ a_extras c <> [] ->
  (forall l w', l <> [] -> l ⊆ tokens_of c -> queue_buf w' = queue_buf w -> Q l b w') ->
  wp (choose_tokens c) Q b w.
Proof using Type.
  clear Hfair Htokens Hcur. intros Hne HQ. unfold choose_tokens, tokens_of in *. destruct (extras c) as [|d l], (a_extras c) as [|d' l'].
  - by destruct Hne.
  - apply wp_ret, HQ; [done|set_solver|done].
  - apply wp_ret, HQ; [done|set_solver|done].
  - apply wp_bind, wp_roll; [lia|]. intros k w1 _ Hw1. apply wp_ret. destruct (negb _); apply HQ; (done || set_solver).
Qed.

Lemma mopt_extra_over_ok b w :
  good b -> extras c <> [] \/ a_extras c <> [] -> wp (mopt_extra_over c) (operated w b) b w.
Proof using Htokens.
  intros Hb Hne. pose proof (good_bounds b Hb). unfold mopt_extra_over. apply wp_bind, wp_choose_tokens; [done|].
  intros l w1 Hl Hsub Hw1. assert (0 < length l)%nat by (destruct l; [done|simpl; lia]).
  apply wp_bind, wp_roll; [lia|]. intros i w2 Hi Hw2. apply wp_bind, wp_pick; [done|]. intros d Hd _.
  destruct (token_ok c Htokens d (Hsub d Hd)) as [Hok Hlen]. apply wp_bind, wp_temp_len.
  destruct (Z.ltb_spec (Z.of_nat (length b)) (Z.of_nat (length d))); [apply wp_ret, broke; [done|congruence]|].
  u32s. apply wp_bind, wp_roll; [lia|]. intros at_ w3 Hat Hw3.
  assert (Hin : in_range (length d) b at_) by (unfold in_range; lia).
  apply wp_bind, wp_write_out; [done|]. apply wp_ret, edited_operated; [unfold operator_num; lia|].
  apply edited_over; [done..|by apply token, Hsub|done|congruence].
Qed.

Lemma mopt_extra_insert_ok b w :
  good b -> extras c <> [] \/ a_extras c <> [] -> wp (mopt_extra_insert junk c) (operated w b) b w.
Proof using Htokens.
  intros Hb Hne. pose proof (good_bounds b Hb). unfold mopt_extra_insert. apply wp_bind, wp_temp_len. u32s.
  apply wp_bind, wp_roll; [lia|]. intros at_ w3 Hat Hw3. apply wp_bind, wp_choose_tokens; [done|].
  intros l w1 Hl Hsub Hw1. assert (0 < length l)%nat by (destruct l; [done|simpl; lia]).
  apply wp_bind, wp_roll; [lia|]. intros i w2 Hi Hw2. apply wp_bind, wp_pick; [done|]. intros d Hd _.
  destruct (token_ok c Htokens d (Hsub d Hd)) as [Hok Hlen]. u32s.
  destruct (Z.leb_spec MAX_FILE (Z.of_nat (length b) + Z.of_nat (length d))); [apply wp_ret, broke; [done|congruence]|].
  apply wp_bind, wp_insert_token; [done|lia|lia|]. apply wp_ret, edited_operated; [unfold operator_num; lia|].
  apply edited_insert; [done..|by apply token, Hsub|lia|lia|congruence].
Qed.

Lemma mopt_splice_ok b w : good b -> wp (mopt_splice junk patience c) (operated w b) b w.
Proof using Hfair Hcur.
  intros Hb. unfold mopt_splice. apply wp_bind. unfold wp at 1, ready.
  destruct (Z.ltb_spec (ready_for_splicing_count w) 2); [apply wp_ret; by apply broke|].
  apply counted_ok; [unfold operator_num; lia|]. eapply wp_mono.
  - apply (op_splice_edits junk patience c Hfair); [|done|by apply fits_of_count; [lia|]|done].
    intros Q b1 w1 HQ. apply wp_bind, wp_roll; [lia|]. intros k w2 _ Hw2. apply wp_ret. by apply HQ.
  - intros [] b1 w1 He. by apply edited_reworked.
Qed.

Lemma mopt_default_ok r b w : good b -> wp (mopt_default junk patience c r) (operated w b) b w.
Proof using Hfair Htokens Hcur.
  intros Hb. unfold mopt_default. set (t := _ || _).
  assert (Ht : t = true -> extras c <> [] \/ a_extras c <> []).
  { unfold t. rewrite orb_true_iff, !negb_true_iff, !bool_decide_eq_false. done. }
  destruct t; [|rewrite !andb_false_r; by apply mopt_splice_ok]. rewrite !andb_true_r.
  destruct (r =? 0); [by apply mopt_extra_over_ok; [|apply Ht]|].
  destruct (r =? 1); [by apply mopt_extra_insert_ok; [|apply Ht]|by apply mopt_splice_ok].
Qed.

Lemma counted_edits k m b w : (k < operator_num)%nat -> edits c m -> good b -> wp (counted k m) (operated w b) b w.
Proof using Type.
  intros Hk Hm Hb. apply counted_ok; [done|]. eapply wp_mono; [by apply Hm|]. intros [] b' w'. apply edited_reworked.
Qed.

Lemma counted_patched k m b w : (k < operator_num)%nat -> wp m (patched w b) b w -> wp (counted k m) (operated w b) b w.
Proof using Type. intros Hk Hm. apply counted_ok; [done|]. by apply patched_reworked. Qed.

(** Subtract, then add. *)
Lemma two_ariths m n b w :
  good b -> (forall b1 w1, good b1 -> length b1 = length b -> wp m (patched w1 b1) b1 w1) ->
  (forall b1 w1, good b1 -> length b1 = length b -> wp n (patched w1 b1) b1 w1) ->
  wp (m ≫= fun _ => n) (patched w b) b w.
Proof using Type. intros Hb Hm Hn. apply patched_bind; [by apply Hm|]. intros b1 w1 G L Q. by apply Hn. Qed.

Ltac next_op :=
  lazymatch goal with |- wp (if ?x =? ?y then _ else _) _ _ _ => destruct (Z.eqb_spec x y) end.
Ltac op_index := unfold operator_num; lia.

Lemma mopt_op_ok r b w : good b -> wp (mopt_op junk patience c r) (operated w b) b w.
Proof using Hfair Htokens Hcur.
  intros Hb. pose proof (good_bounds b Hb) as Hl. unfold mopt_op.
  assert (Harith : forall n sg b1 w1, (1 <= n <= 4)%nat -> (n <= length b)%nat -> good b1 -> length b1 = length b ->
    wp (either_endian (fun be => op_arith n be sg)) (patched w1 b1) b1 w1).
  { intros n sg b1 w1 Hn Hnb G1 L1. apply endian_patched; [done|]. intros be b2 w2 ->. by apply arith_patched; [| |lia]. }
  next_op; [apply counted_edits; [op_index|apply op_flip_bit_edits|done]|].
  do 2 (next_op; [apply needs_ok; [done..|]; intros; apply counted_patched; [op_index|apply mopt_flip_patched; [done|lia]]|]).
  do 3 (next_op; [apply needs_ok; [done..|]; intros; apply counted_patched; [op_index|apply xor_patched; [done|lia|lia]]|]).
  next_op; [apply counted_patched; [op_index|]; apply two_ariths; [done|intros; apply arith_patched; [done|lia|lia]..]|].
  do 2 (next_op; [apply needs_ok; [done..|]; intros; apply counted_patched; [op_index|];
    apply two_ariths; [done|intros; apply Harith; [lia|lia|done|done]..]|]).
  next_op; [apply needs_ok; [done..|]; intros; apply counted_patched; [op_index|];
    apply interesting_patched; [done|lia|lia|simpl; lia]|].
  do 2 (next_op; [apply needs_ok; [done..|]; intros; apply counted_patched; [op_index|];
    apply endian_patched; [done|]; intros be b2 w2 ->; apply interesting_patched; [done|lia|lia|simpl; lia]|]).
  next_op; [apply counted_edits; [op_index|apply op_random_byte_edits|done]|].
  next_op; [apply needs_ok; [done..|]; intros; apply counted_edits; [op_index|apply op_delete_edits|done]|].
  next_op; [by apply mopt_clone_ok|]. next_op; [by apply mopt_overwrite_ok|]. by apply mopt_default_ok.
Qed.

(** The counters after a sequence of operators. *)
Definition bumped (ks : list (option nat)) (v2 : list Z) : list Z := foldl (fun v k => bump_cycle k v) v2 ks.

Lemma mopt_stacked_ok rmax n v2 b w :
  good b ->
  wp (mopt_stacked junk patience c rmax n v2)
    (fun v2' b' w' => reworked w b v2' b' w' /\ exists ks, length ks = n /\ v2' = bumped ks v2) b w.
Proof using Hfair Htokens Hcur.
  revert v2 b w. induction n as [|n IH]; intros v2 b w Hb; cbn [mopt_stacked].
  { apply wp_ret. split; [by apply reworked_refl|]. by exists []. }
  apply wp_bind. unfold wp at 1. pose proof (select_queue w rmax) as Hq. destruct (select_op w rmax) as [r w1]. simpl in Hq.
  apply wp_bind. eapply wp_mono; [by apply mopt_op_ok|]. intros k b2 w2 [(G2 & R2 & Q2) _].
  eapply wp_mono; [by apply IH|]. intros v3 b3 w3 [(G3 & R3 & Q3) (ks & Hn & ->)]. split.
  - split_and!; [done| |congruence]. rewrite Hq in R2. rewrite Q2, Hq in R3. by etrans.
  - exists (k :: ks). split; [simpl; lia|done].
Qed.

(** An input of MOpt's havoc stage. *)
Definition mopt_derived (q : list (list Z)) (in_buf out : list Z) : Prop :=
  good out /\ rtc (edit (tokens_of c) q) in_buf out.

Lemma mopt_derived_monotone in_buf : monotone (fun q => mopt_derived q in_buf).
Proof using Type.
  intros q q' out Hs [Hg Hr]. split; [done|]. eapply rtc_subrel; [|exact Hr]. intros x y. by apply edit_mono.
Qed.

Hypothesis Hstack : 1 <= havoc_stack_pow2 c <= 30.
Hypothesis Hmult : 1 <= havoc_max_mult c <= 255.

Lemma mopt_round_ok rmax in_buf (s : stage W mopt_counts) :
  good in_buf -> s_out s = in_buf ->
  round_ok c (fun q => mopt_derived q in_buf) in_buf (mopt_round junk patience c rmax in_buf) s.
Proof using Hfair Htokens Hcur.
  intros Hg Hout. unfold round_ok, mopt_round.
  pose proof (queue_below (s_world s) (havoc_stack_pow2 c)) as Hq.
  destruct (below (s_world s) (havoc_stack_pow2 c)) as [k w]. simpl in Hq. set (n := Z.to_nat _).
  pose proof (mopt_stacked_ok rmax n (cycles_v2 (s_counts s)) (s_out s) w ltac:(by rewrite Hout)) as Hst.
  unfold wp in Hst. destruct (mopt_stacked _ _ _ _ n _ (s_out s) w) as [v2 out w1| |]; [|done..].
  destruct Hst as [(G & R & Q) _].
  pose proof (advanced_run (fun q => mopt_derived q in_buf) s w1 out (mopt_derived_monotone in_buf)
    (eq_trans Q Hq)) as Hadv.
  destruct (common_fuzz_stuff w1 out) as [w2 abandon]. simpl in Hadv.
  assert (Hd : mopt_derived (queue_buf w1) in_buf out) by (split; [done|by rewrite Q, <- Hout]).
  destruct abandon; [exact (Hadv Hd _ _ _ _ _)|]. apply settle_ok. intros. by apply Hadv.
Qed.
End proofs.

Lemma mopt_stage_ok {W} `{!Fuzzer W} `{!Random W} `{!Corpus W} `{!Selector W} junk patience c fuel doing_det perf_score
    sc sp (s : stage W mopt_counts) :
  fair (W:=W) patience ->
  Forall (fun d => Forall byte_ok d /\ Z.of_nat (length d) <= MAX_DICT_FILE) (tokens_of c) ->
  0 <= current_entry c -> 1 <= havoc_max_mult c <= 255 -> 1 <= perf_score <= havoc_max_mult c * 100 ->
  2400 * havoc_max_mult c <= Z.of_nat fuel -> good sp -> s_out s = sp -> (sc = 0 -> s_perf s = perf_score) ->
  rounds (round_limit c) (fun q => mopt_derived c q sp) (fun s' => s_out s' = sp) s
    (run_stage (mopt_round junk patience c) (mopt_r_max c) fuel doing_det perf_score sc sp s).
Proof.
  intros Hf Ht Hc Hm Hp Hfu Hsp Hout Hperf.
  apply (run_stage_ok c Hm (mopt_derived c) (mopt_derived_monotone c)); [|done| |unfold round_limit; lia].
  - intros w0 s' Hs' _. by apply mopt_round_ok.
  - destruct (Z.eqb_spec sc 0); [rewrite Hperf by done|]; done.
Qed.

(** ** The properties *)

(** MOpt's random stages keep the guarantees of the original ones.  Whatever operators
    are selected, the stage and its splices (at most [limit] = SPLICE_CYCLES_puppet) end
    after at most [(limit + 1) * 2400 * havoc_max_mult] runs without an access outside a
    buffer, and every input run has 1 to MAX_FILE bytes and comes from the test case, or a
    splice of it, by edits of the five kinds. *)
Theorem mopt_random_stages_correct {W} `{!Fuzzer W} `{!Random W} `{!Corpus W} `{!Selector W} junk patience c limit
    cycles fuel doing_det perf_score in_buf (w : W) (m : mopt_counts) :
  fair (W:=W) patience ->
  Forall (fun d => Forall byte_ok d /\ Z.of_nat (length d) <= MAX_DICT_FILE) (tokens_of c) ->
  0 <= current_entry c -> 1 <= havoc_max_mult c <= 255 ->
  good in_buf -> 1 <= perf_score <= havoc_max_mult c * 100 ->
  0 <= limit < Z.of_nat cycles -> 2400 * havoc_max_mult c <= Z.of_nat fuel ->
  exists s, (mopt_random_stages junk patience c limit cycles fuel doing_det perf_score in_buf w m = Finished s
          \/ mopt_random_stages junk patience c limit cycles fuel doing_det perf_score in_buf w m = Abandoned s)
    /\ Z.of_nat (length (s_runs s)) <= (limit + 1) * (2400 * havoc_max_mult c)
    /\ Forall (random_input (mopt_derived c) in_buf (queue_buf (s_world s))) (s_runs s).
Proof.
  intros Hf Ht Hc Hm Hg Hp Hcy Hfu. unfold mopt_random_stages.
  apply (random_ok junk patience c Hf Hc Hm (mopt_derived c) (mopt_derived_monotone c) limit); [|done..].
  intros sc sp s Hsp Hout Hperf. by apply mopt_stage_ok.
Qed.

(** ** Who gets the credit *)

Lemma length_bumped ks v2 : length (bumped ks v2) = length v2.
Proof.
  unfold bumped. revert v2. induction ks as [|[k|] ks IH]; intros v2; simpl; rewrite ?IH; [done| |done].
  apply length_alter.
Qed.

(** Each counter goes up by the uses of its operator. *)
Definition uses (i : nat) (ks : list (option nat)) : Z := Z.of_nat (length (filter (fun k => k = Some i) ks)).

Lemma uses_cons i k ks : uses i (k :: ks) = (if decide (k = Some i) then 1 else 0) + uses i ks.
Proof. unfold uses. rewrite filter_cons. case_decide; simpl; lia. Qed.

Lemma uses_pos i ks : Some i ∈ ks <-> 0 < uses i ks.
Proof.
  unfold uses. split.
  - intros Hin. destruct (filter (fun k => k = Some i) ks) as [|y l] eqn:E; [|simpl; lia].
    assert (Hi : Some i ∈ filter (fun k => k = Some i) ks) by (by apply list_elem_of_filter). rewrite E in Hi.
    by apply not_elem_of_nil in Hi.
  - intros Hpos. destruct (filter (fun k => k = Some i) ks) as [|y l] eqn:E; [simpl in Hpos; lia|].
    assert (Hi : y ∈ filter (fun k => k = Some i) ks) by (rewrite E; left).
    apply list_elem_of_filter in Hi as [-> Hin]. done.
Qed.

Lemma bumped_lookup ks v2 i x :
  v2 !! i = Some x -> 0 <= x -> x + Z.of_nat (length ks) < 2 ^ 64 ->
  bumped ks v2 !! i = Some (x + uses i ks).
Proof.
  unfold bumped. revert v2 x. induction ks as [|k ks IH]; intros v2 x Hi H0 Hx.
  { simpl. rewrite Hi. f_equal. unfold uses. simpl. lia. }
  cbn [foldl]. rewrite uses_cons. simpl length in Hx.
  assert (Hb : bump_cycle k v2 !! i = Some (x + if decide (k = Some i) then 1 else 0)).
  { destruct k as [k|]; simpl.
    - destruct (decide (k = i)) as [->|Hne].
      + rewrite list_lookup_alter, Hi. repeat case_decide; try done. simpl. f_equal. apply Z.mod_small. lia.
      + rewrite list_lookup_alter, Hi. repeat case_decide; try congruence. f_equal. lia.
    - rewrite Hi. f_equal. lia. }
  rewrite (IH _ _ Hb); [f_equal; lia|case_decide; lia|case_decide; lia].
Qed.

(** The operators a stack of edits uses. *)
Fixpoint mopt_trace {W} `{!Fuzzer W} `{!Random W} `{!Corpus W} `{!Selector W} (junk : Z) (patience : nat)
    (c : havoc_cfg) (rmax : Z) (n : nat) (b : list Z) (w : W) : list (option nat) :=
  match n with
  | O => []
  | S n =>
      let '(r, w) := select_op w rmax in
      match mopt_op junk patience c r b w with
      | Done k b w => k :: mopt_trace junk patience c rmax n b w
      | _ => []
      end
  end.

Lemma mopt_stacked_trace {W} `{!Fuzzer W} `{!Random W} `{!Corpus W} `{!Selector W} junk patience c rmax n :
  forall v2 b (w : W) v2' b' w', mopt_stacked junk patience c rmax n v2 b w = Done v2' b' w' ->
  let ks := mopt_trace junk patience c rmax n b w in length ks = n /\ v2' = bumped ks v2.
Proof.
  induction n as [|n IH]; intros v2 b w v2' b' w' E; simpl in *; [by injection E as <- <- <-|].
  unfold mbind, H_bind in E. destruct (select_op w rmax) as [r w1].
  destruct (mopt_op junk patience c r b w1) as [k b2 w2| |]; [|done..].
  destruct (IH _ _ _ _ _ _ E) as [H1 H2]. simpl. split; [by rewrite H1|exact H2].
Qed.

(** The operators that were used get the credit for a find, and no others.  When the run
    on a stack of MOpt's edits raises the number of finds by [d], [finds_v2] goes up by [d]
    at exactly the operators the stack applied, and [cycles_v2] of each operator by the
    number of its uses. *)
Theorem credit_goes_to_used {W} `{!Fuzzer W} `{!Random W} `{!Corpus W} `{!Selector W} junk patience c rmax n
    b (w : W) v2 v2' b' w' finds total time before now i x f :
  mopt_stacked junk patience c rmax n v2 b w = Done v2' b' w' ->
  v2 !! i = Some x -> finds !! i = Some f ->
  0 <= x -> x + Z.of_nat n < 2 ^ 64 -> before < now -> 0 <= f -> f + (now - before) < 2 ^ 64 ->
  let ks := mopt_trace junk patience c rmax n b w in
  let m := credit before now (MoptCounts v2' v2 finds total time) in
  cycles_v2 m !! i = Some (x + uses i ks)
  /\ finds_v2 m !! i = Some (if decide (Some i ∈ ks) then f + (now - before) else f).
Proof.
  intros Hst Hx Hf Hx0 Hxb Hbn Hf0 Hfb ks m. destruct (mopt_stacked_trace _ _ _ _ _ _ _ _ _ _ _ Hst) as [Hn ->].
  fold ks in Hn. unfold m, credit. rewrite (proj2 (Z.ltb_lt before now) Hbn). simpl. fold ks.
  pose proof (bumped_lookup ks v2 i x Hx Hx0 ltac:(lia)) as Hb. split; [done|].
  rewrite lookup_zip_with, lookup_zip_with, Hb. simpl. rewrite Hx. simpl. rewrite Hf. simpl. f_equal.
  pose proof (uses_pos i ks) as Hu.
  destruct (Z.ltb_spec x (x + uses i ks)); case_decide as Hd; try (apply Hu in Hd); try lia.
  - apply Z.mod_small. lia.
  - exfalso. apply Hd, Hu. lia.
Qed.

(** A selector that goes through the operators in turn. *)
#[global] Instance counting_selector : Selector Z.
Proof.
  refine {| select_op w n := (w `mod` 19, w + 1) |}.
  - intros w n. simpl. apply Z.mod_pos_bound. lia.
  - done.
Defined.

Definition sample_counts : mopt_counts :=
  MoptCounts (replicate operator_num 0) (replicate operator_num 0) (replicate operator_num 0) 0 0.

Lemma mopt_random_stages_correct_witness :
  exists s, (mopt_random_stages 0 (Z.to_nat (2 ^ 32)) sample_cfg 5 6 (Z.to_nat 153600) true 100
               [10; 11; 12; 13; 14; 15] 8 sample_counts = Finished s
          \/ mopt_random_stages 0 (Z.to_nat (2 ^ 32)) sample_cfg 5 6 (Z.to_nat 153600) true 100
               [10; 11; 12; 13; 14; 15] 8 sample_counts = Abandoned s)
    /\ Z.of_nat (length (s_runs s)) <= (5 + 1) * (2400 * 64).
Proof.
  destruct (mopt_random_stages_correct 0 (Z.to_nat (2 ^ 32)) sample_cfg 5 6 (Z.to_nat 153600) true 100
    [10; 11; 12; 13; 14; 15] 8 sample_counts counting_fair sample_tokens ltac:(simpl; lia) ltac:(simpl; lia)
    sample_good ltac:(simpl; lia) ltac:(simpl; lia) ltac:(simpl havoc_max_mult; lia)) as (s & H1 & H2 & _).
  exists s. split; [exact H1|exact H2].
Defined.

Lemma credit_goes_to_used_witness :
  mopt_stacked 0 8 sample_cfg 19 3 [9; 4; 0] [10; 11; 12; 13; 14; 15] 0
    = Done [10; 4; 1] [84; 11; 12; 13; 14; 15] 5
  /\ finds_v2 (credit 5 7 (MoptCounts [10; 4; 1] [9; 4; 0] [1; 1; 1] 0 0)) !! 0%nat = Some 3.
Proof.
  assert (Hst : mopt_stacked 0 8 sample_cfg 19 3 [9; 4; 0] [10; 11; 12; 13; 14; 15] 0
    = Done [10; 4; 1] [84; 11; 12; 13; 14; 15] 5) by (vm_compute; reflexivity).
  split; [exact Hst|].
  pose proof (credit_goes_to_used 0 8 sample_cfg 19 3 [10; 11; 12; 13; 14; 15] 0 [9; 4; 0] _ _ _ [1; 1; 1] 0 0 5 7 0 9 1
    Hst eq_refl eq_refl ltac:(lia) ltac:(lia) ltac:(lia) ltac:(lia) ltac:(lia)) as [_ H].
  etransitivity; [exact H|]. vm_compute. reflexivity.
Defined.
