(* ===== verification/Colorize.v ===== *)
(** * Colorization (src/aflplusplus/src/afl-fuzz-redqueen.c)

    Before the comparisons of a target are matched with its input, [colorization] replaces
    as much of the test case as possible by other bytes of the same kind while the target
    takes the same path: ranges are tried from the largest to the smallest, and split when
    the path changes.  What could be replaced becomes the list of tainted regions.

    A chain of [struct range] is the list of its elements; unlinking is deletion from the
    list.  A copy outside a buffer is [COob], a [do ... while] that draws another byte
    carries fuel and ends in [CStarved] without it. *)
From S2P Require Import Prelude OneHelpers Rng DetStages ExtrasStages.

Definition CMPLOG_POSITIONS_MAX : Z := 12 * 1024.
Definition CMPLOG_CORPUS_PERCENT : Z := 5.

(** What colorization sees of the rest of the fuzzer, besides [Fuzzer] and [Random]. *)
Class Coloring (W : Type) := {
  get_cur_time_us : W -> Z;
  (** [afl->queue_cur->exec_us] *)
  cur_exec_us : W -> Z;
  fixed_seed : W -> bool;
  cmplog_lvl : W -> Z;
  active_items : W -> Z;
  colorize_success : W -> Z;
  set_colorize_success : Z -> W -> W;
}.

(** ** Ranges *)

Record range := Range { rg_start : Z; rg_end : Z; rg_ok : Z }.

(** [1 + r->end - r->start] *)
Definition rg_size (r : range) : Z := u32 (1 + rg_end r - rg_start r).
Definition set_ok (k : Z) (r : range) : range := Range (rg_start r) (rg_end r) k.

Definition add_range (ranges : list range) (start last : Z) : list range := Range start last 0 :: ranges.

(** The scan of [pop_biggest_range]; ranges are named by their position. *)
Fixpoint biggest_from (i : nat) (l : list range) (max_size : Z) (rmax : option nat) : option nat :=
  match l with
  | [] => rmax
  | r :: l =>
      if (rg_ok r =? 0) && (max_size <=? rg_size r) then biggest_from (S i) l (rg_size r) (Some i)
      else biggest_from (S i) l max_size rmax
  end.

Definition pop_biggest_range (ranges : list range) : option nat := biggest_from 0 ranges 0 None.

(** ** Another byte of the same kind *)

Section colorize.
Context {W : Type} `{!Fuzzer W} `{!Random W} `{!Coloring W}.
Implicit Types (w : W) (b : list Z).

Definition draw_between w (lo hi : Z) : Z * W := let '(r, w) := below w (1 + hi - lo) in (lo + r, w).

Definition within_chars (c lo hi : Z) : bool := (lo <=? c) && (c <=? hi).

(** The [switch] of [type_replace] *)
Definition replacement (c : Z) w : Z * W :=
  if within_chars c 65 70 then draw_between w 65 70            (* 'A' ... 'F' *)
  else if within_chars c 97 102 then draw_between w 97 102     (* 'a' ... 'f' *)
  else if c =? 48 then (49, w)                                 (* '0' *)
  else if c =? 49 then (48, w)                                 (* '1' *)
  else if within_chars c 50 57 then draw_between w 50 57       (* '2' ... '9' *)
  else if within_chars c 71 90 then draw_between w 71 90       (* 'G' ... 'Z' *)
  else if within_chars c 103 122 then draw_between w 103 122   (* 'g' ... 'z' *)
  else if within_chars c 33 42 then draw_between w 33 42       (* '!' ... '*' *)
  else if within_chars c 44 46 then draw_between w 44 46       (* ',' ... '.' *)
  else if within_chars c 58 64 then draw_between w 58 64       (* ':' ... '@' *)
  else if within_chars c 91 96 then draw_between w 91 96       (* '[' ... '`' *)
  else if within_chars c 123 126 then draw_between w 123 126   (* '{' ... '~' *)
  else if c =? 43 then (47, w)                                 (* '+' *)
  else if c =? 47 then (43, w)                                 (* '/' *)
  else if c =? 32 then (9, w)                                  (* ' ' *)
  else if c =? 9 then (32, w)                                  (* '\t' *)
  else if c =? 13 then (10, w)                                 (* '\r' *)
  else if c =? 10 then (13, w)                                 (* '\n' *)
  else if c =? 0 then (1, w)
  else if c =? 1 then (0, w)
  else if c =? 255 then (0, w)
  else if c <? 32 then (Z.lxor c 0x1f, w)
  else (Z.lxor c 0x7f, w).

(** [do { switch ... } while (c == buf[i]);] *)
Fixpoint replace_byte (patience : nat) (c : Z) w : option (Z * W) :=
  match patience with
  | O => None
  | S patience =>
      let '(c', w) := replacement c w in
      if c' =? c then replace_byte patience c w else Some (c', w)
  end.

Fixpoint type_replace (patience : nat) b w : option (list Z * W) :=
  match b with
  | [] => Some ([], w)
  | c :: b =>
      '(c', w) ← replace_byte patience c w;
      '(b', w) ← type_replace patience b w;
      Some (c' :: b', w)
  end.

(** ** The search *)

(** [buf], [ranges], [stage_cur], the rest of the fuzzer, and the inputs run with the
    checksums of their traces. *)
Record coloring := Coloring_ {
  co_buf : list Z;
  co_ranges : list range;
  co_cur : Z;
  co_world : W;
  co_runs : list (list Z * Z);
}.

Inductive colored :=
| CGo (c : coloring)
| CFail (c : coloring)     (* checksum_fail *)
| COob
| CStarved.

(** [get_exec_checksum(afl, buf, len, &cksum)]: [None] if the run asks to stop *)
Definition get_exec_checksum (c : coloring) : option Z * coloring :=
  let '(w, abandon) := common_fuzz_stuff (co_world c) (co_buf c) in
  let c := Coloring_ (co_buf c) (co_ranges c) (co_cur c) w (co_runs c ++ [(co_buf c, trace_cksum w)]) in
  (if abandon then None else Some (trace_cksum w), c).

(** [memcpy(buf + start, from + start, s)] *)
Definition copy_range (b from : list Z) (start s : Z) : option (list Z) :=
  let l := take (Z.to_nat s) (drop (Z.to_nat start) from) in
  if decide (in_range (Z.to_nat s) from start /\ in_range (Z.to_nat s) b start) then Some (write_at b start l) else None.

(** The ranges after a failed attempt at the one in position [i]: its halves in front, if
    it has two bytes or more, and the range itself gone. *)
Definition split_range (ranges : list range) (i : nat) (r : range) : list range :=
  let s := rg_size r in
  if 1 <? s then
    add_range (add_range (delete i ranges) (rg_start r) (u32 (rg_start r - 1 + s / 2))) (u32 (rg_start r + s / 2)) (rg_end r)
  else delete i ranges.

(** One round of the loop with the range in position [i]. *)
Definition color_range (exec_cksum : Z) (backup changed : list Z) (i : nat) (c : coloring) : colored :=
  match co_ranges c !! i with
  | None => COob
  | Some r =>
      let s := rg_size r in
      match copy_range (co_buf c) changed (rg_start r) s with
      | None => COob
      | Some b =>
          let start_us := get_cur_time_us (co_world c) in
          match get_exec_checksum (Coloring_ b (co_ranges c) (co_cur c) (co_world c) (co_runs c)) with
          | (None, c) => CFail c
          | (Some cksum, c) =>
              let w := co_world c in
              let stop_us := get_cur_time_us w in
              if negb (cksum =? exec_cksum)
                 || ((u64 (3 * cur_exec_us w) <? u64 (stop_us - start_us)) && negb (fixed_seed w))
              then
                match copy_range b backup (rg_start r) s with
                | None => COob
                | Some b => CGo (Coloring_ b (split_range (co_ranges c) i r) (u32 (co_cur c + 1)) w (co_runs c))
                end
              else CGo (Coloring_ b (alter (set_ok 1) i (co_ranges c)) (u32 (co_cur c + 1)) w (co_runs c))
          end
      end
  end.

(** [while ((rng = pop_biggest_range(&ranges)) != NULL && stage_cur < stage_max)] *)
Fixpoint color_loop (fuel : nat) (stage_max exec_cksum : Z) (backup changed : list Z) (c : coloring) : colored :=
  match pop_biggest_range (co_ranges c) with
  | None => CGo c
  | Some i =>
      if co_cur c <? stage_max then
        match fuel with
        | O => CStarved
        | S fuel =>
            match color_range exec_cksum backup changed i c with
            | CGo c => color_loop fuel stage_max exec_cksum backup changed c
            | o => o
            end
        end
      else CGo c
  end.

(** ** The tainted regions *)

Record tainted := Tainted { t_pos : Z; t_len : Z }.

(** One pass over the ranges: an adjacent range to merge, or the first range, if any. *)
Inductive scanned_ranges := Merge (i : nat) (r : range) | Pick (i : nat) (r : range) | Nothing.

Fixpoint scan_ranges (i : nat) (l : list range) (taint : list tainted) (best : scanned_ranges) (pos : Z) : scanned_ranges :=
  match l with
  | [] => best
  | r :: l =>
      if (rg_ok r =? 1) && (rg_start r <? pos) then
        if match taint with t :: _ => u32 (t_pos t + t_len t) =? rg_start r | [] => false end
        then Merge i r
        else scan_ranges (S i) l taint (Pick i r) (rg_start r)
      else scan_ranges (S i) l taint best pos
  end.

(** [while (i) { restart: ... }]: the taints, the last one first, and [positions]. *)
Fixpoint collect_taints (fuel : nat) (ranges : list range) (taint : list tainted) (positions : Z) : option (list tainted * Z) :=
  match scan_ranges 0 ranges taint Nothing (u32 (-1)) with
  | Nothing => Some (taint, positions)
  | Merge i r =>
      match fuel, taint with
      | S fuel, t :: taint =>
          collect_taints fuel (alter (set_ok 2) i ranges) (Tainted (t_pos t) (u32 (t_len t + rg_size r)) :: taint)
            (u32 (positions + rg_size r))
      | _, _ => None
      end
  | Pick i r =>
      match fuel with
      | S fuel =>
          collect_taints fuel (alter (set_ok 2) i ranges) (Tainted (rg_start r) (rg_size r) :: taint)
            (u32 (positions + rg_size r))
      | O => None
      end
  end.

(** [if (taint) { ... }]: too many positions in a poor corpus are not worth the effort. *)
Definition keep_taints (len positions : Z) (taint : list tainted) w : list tainted * W :=
  match taint with
  | [] => ([], w)
  | _ =>
      let succ := colorize_success w in
      if negb (succ =? 0) && (cmplog_lvl w <? 3) && (CMPLOG_POSITIONS_MAX <? positions) && (len / positions =? 1)
         && (CMPLOG_CORPUS_PERCENT <? active_items w / succ)
      then ([], w)
      else (taint, set_colorize_success (u32 (succ + 1)) w)
  end.

Inductive color_result :=
| Colored (c : coloring) (taints : list tainted) (positions : Z)
| ColorFailed (c : coloring)
| ColorOob
| ColorStarved.

(** [colorization(afl, buf, len, taints)] *)
Definition colorization (patience fuel : nat) (buf : list Z) w : color_result :=
  let len := Z.of_nat (length buf) in
  let ranges := add_range [] 0 (u32 (len - 1)) in
  let stage_max := u32 (len ≪ 1) in
  match get_exec_checksum (Coloring_ buf ranges 0 w []) with
  | (None, c) => ColorFailed c
  | (Some exec_cksum, c) =>
      match type_replace patience buf (co_world c) with
      | None => ColorStarved
      | Some (changed, w) =>
          match color_loop fuel stage_max exec_cksum buf changed (Coloring_ (co_buf c) (co_ranges c) (co_cur c) w (co_runs c)) with
          | CFail c => ColorFailed c
          | COob => ColorOob
          | CStarved => ColorStarved
          | CGo c =>
              match collect_taints (S (length (co_ranges c))) (co_ranges c) [] 0 with
              | None => ColorStarved
              | Some (taint, positions) =>
                  let '(taints, w) := keep_taints len positions taint (co_world c) in
                  Colored (Coloring_ (co_buf c) (co_ranges c) (co_cur c) w (co_runs c)) taints positions
              end
          end
      end
  end.
End colorize.
