(* ===== verification/ColorizeTheorems.v ===== *)
(** * Colorization: the theorems

    The ranges cover disjoint parts of the test case; the bytes of the accepted ones are
    replaced and all others are as they were; so the tainted regions are exactly the
    positions at which the colorized test case differs from the original. *)
From S2P Require Import Prelude OneHelpers Rng DetStages ExtrasStages Havoc HavocSpec Colorize.

(** ** Replacing bytes *)

Section replace.
Context {W : Type} `{!Random W}.
Implicit Types w : W.

Definition replaced (c c' : Z) : Prop := byte_ok c' /\ c' <> c.

(** One draw of a byte between [lo] and [hi] is another one after some tries. *)
Lemma draw_between_range w lo hi : lo <= hi -> lo <= (draw_between w lo hi).1 <= hi.
Proof.
  intros H. unfold draw_between. pose proof (below_bound w (1 + hi - lo) ltac:(lia)) as Hb.
  destruct (below w _) as [r w']. simpl in *. lia.
Qed.

Lemma between_chars c lo hi (f g : W -> Z * W) :
  within_chars c lo hi = true -> lo < hi -> 0 <= lo -> hi < 128 -> f = g ->
  lo <= c <= hi /\ lo < hi /\ 0 <= lo /\ hi < 128 /\ forall w, f w = g w.
Proof. unfold within_chars. intros [H1%Z.leb_le H2%Z.leb_le]%andb_true_iff ? ? ? ->. done. Qed.

Lemma lxor_replaced c k : byte_ok c -> byte_ok k -> k <> 0 -> replaced c (Z.lxor c k).
Proof.
  intros Hc Hk Hne. split; [by apply byte_ok_lxor|]. intros E. apply Hne.
  rewrite <- (Z.lxor_0_l k), <- (Z.lxor_nilpotent c), Z.lxor_assoc, E. done.
Qed.

(** Either the replacement is drawn from an interval with two values or more around the
    byte, or it is fixed. *)
Lemma replacement_cases c :
  byte_ok c ->
  (exists lo hi, lo <= c <= hi /\ lo < hi /\ 0 <= lo /\ hi < 128 /\ forall w, replacement c w = draw_between w lo hi)
  \/ (exists c', replaced c c' /\ forall w, replacement c w = (c', w)).
Proof.
  intros Hc. unfold replacement.
  repeat match goal with
  | |- context [if within_chars c ?lo ?hi then _ else _] =>
      destruct (within_chars c lo hi) eqn:?; [left; exists lo, hi; by apply between_chars|]
  | |- context [if c =? ?k then _ else _] =>
      destruct (Z.eqb_spec c k); [right; eexists; split; [|intros w; reflexivity]; split; [unfold byte_ok|]; lia|]
  end.
  right. destruct (Z.ltb_spec c 32); (eexists; split; [|intros w; reflexivity]; by apply lxor_replaced).
Qed.

Lemma replace_byte_within k fuel c lo hi w :
  byte_ok c -> lo < hi -> 0 <= lo -> hi < 128 -> (forall w, replacement c w = draw_between w lo hi) ->
  (k < fuel)%nat -> lo + (below (after k (1 + hi - lo) w) (1 + hi - lo)).1 <> c ->
  exists c' w', replace_byte fuel c w = Some (c', w') /\ replaced c c'.
Proof.
  intros Hc H1 H2 H3 Hr. revert fuel w. induction k as [|k IH]; intros [|fuel] w Hk Hne; try lia;
    cbn [replace_byte]; rewrite Hr; pose proof (draw_between_range w lo hi ltac:(lia)) as Hd;
    unfold draw_between in *; cbn [after] in Hne; destruct (below w _) as [r w']; cbn [fst snd] in *;
    destruct (Z.eqb_spec (lo + r) c); [done|by exists (lo + r), w'; repeat split; unfold byte_ok; lia|
      by apply IH; [lia|]|by exists (lo + r), w'; repeat split; unfold byte_ok; lia].
Qed.

Lemma replace_byte_ok patience c w :
  fair (W:=W) patience -> byte_ok c -> exists c' w', replace_byte patience c w = Some (c', w') /\ replaced c c'.
Proof.
  intros Hf Hc. destruct (replacement_cases c Hc) as [(lo & hi & Hlh & H1 & H2 & H3 & Hr)|(c' & Hc' & Hr)].
  - destruct (Hf w (1 + hi - lo) (if c =? lo then 1 else 0)) as (k & Hk & Hv); [destruct (c =? lo); lia|lia|].
    apply (replace_byte_within k patience c lo hi); try done. rewrite Hv. destruct (Z.eqb_spec c lo); lia.
  - destruct (Hf w 1 0) as (k & Hk & _); [lia..|]. destruct patience as [|patience]; [lia|]. cbn [replace_byte].
    rewrite Hr. destruct (Z.eqb_spec c' c); [by destruct Hc'|]. by exists c', w.
Qed.

Lemma type_replace_ok patience b w :
  fair (W:=W) patience -> Forall byte_ok b ->
  exists b' w', type_replace patience b w = Some (b', w') /\ Forall2 replaced b b'.
Proof.
  intros Hf Hb. revert w. induction Hb as [|c b Hc _ IH]; intros w; [by exists [], w|].
  cbn [type_replace]. destruct (replace_byte_ok patience c w Hf Hc) as (c' & w1 & -> & Hc'). cbn.
  destruct (IH w1) as (b' & w2 & -> & Hb'). cbn. exists (c' :: b'), w2. by split; [|constructor].
Qed.
End replace.

(** ** The cells of the ranges *)

Section cells.
Context (len : Z) (Hlen : 0 < len < 2 ^ 31).
Implicit Types (r : range) (l : list range).

Definition rg_in r : Prop := 0 <= rg_start r <= rg_end r /\ rg_end r < len.

Definition cells_of r : list Z := seqZ (rg_start r) (1 + rg_end r - rg_start r).
Definition cells l : list Z := flat_map cells_of l.
Definition marked (k : Z) l : list range := filter (fun r => rg_ok r = k) l.

Lemma rg_size_in r : rg_in r -> rg_size r = 1 + rg_end r - rg_start r.
Proof using Hlen. intros [? ?]. unfold rg_size. apply u32_id. lia. Qed.

Lemma elem_of_cells_of r x : x ∈ cells_of r <-> rg_start r <= x <= rg_end r.
Proof. unfold cells_of. rewrite elem_of_seqZ. lia. Qed.

Lemma elem_of_cells l x : x ∈ cells l <-> exists r, r ∈ l /\ rg_start r <= x <= rg_end r.
Proof.
  unfold cells. rewrite list_elem_of_In, in_flat_map. setoid_rewrite <- elem_of_cells_of.
  by setoid_rewrite list_elem_of_In.
Qed.

#[export] Instance cells_perm : Proper ((≡ₚ) ==> (≡ₚ)) cells.
Proof. intros l l' H. unfold cells. by apply Permutation_flat_map. Qed.

(** The ranges are parts of the test case and do not overlap. *)
Record ranges_ok l : Prop := {
  ro_in : Forall rg_in l;
  ro_disjoint : NoDup (cells l);
}.

#[export] Instance ranges_ok_perm : Proper ((≡ₚ) ==> iff) ranges_ok.
Proof.
  intros l l' H. split; intros [H1 H2]; split; try (by rewrite <- H); by rewrite H.
Qed.

Lemma lookup_perm (l : list range) i r : l !! i = Some r -> l ≡ₚ r :: delete i l.
Proof. apply delete_Permutation. Qed.

Lemma alter_ok_perm k l i r : l !! i = Some r -> alter (set_ok k) i l ≡ₚ set_ok k r :: delete i l.
Proof.
  intros H. rewrite (delete_Permutation (alter (set_ok k) i l) i (set_ok k r)); [|by rewrite list_lookup_alter_eq, H].
  by rewrite !delete_take_drop, take_alter_ge, drop_alter_lt by lia.
Qed.

(** The halves have the cells of the whole. *)
Lemma split_range_perm l i r :
  l !! i = Some r -> rg_in r ->
  (rg_start r = rg_end r /\ split_range l i r = delete i l)
  \/ exists r1 r2, split_range l i r = r2 :: r1 :: delete i l /\ rg_in r1 /\ rg_in r2
     /\ rg_ok r1 = 0 /\ rg_ok r2 = 0 /\ cells_of r = cells_of r1 ++ cells_of r2.
Proof using Hlen.
  intros Hi Hr. unfold split_range, add_range. rewrite (rg_size_in r Hr). destruct Hr as [H1 H2].
  set (s := 1 + rg_end r - rg_start r). destruct (Z.ltb_spec 1 s) as [Hs|Hs]; [|left; split; [lia|done]].
  right. assert (1 <= s / 2 < s) by (split; [apply Z.div_le_lower_bound; lia|apply Z.div_lt; lia]).
  rewrite !u32_id by lia. eexists _, _. split; [reflexivity|]. unfold rg_in, cells_of. cbn [rg_start rg_end rg_ok].
  split; [lia|]. split; [lia|]. split; [done|]. split; [done|].
  replace (1 + rg_end r - rg_start r) with (s / 2 + (s - s / 2)) by lia. rewrite seqZ_app by lia. f_equal; f_equal; lia.
Qed.

Lemma set_ok_range k l i r : ranges_ok l -> l !! i = Some r -> ranges_ok (alter (set_ok k) i l).
Proof.
  intros Hl Hi. rewrite (alter_ok_perm k l i r Hi). rewrite (lookup_perm l i r Hi) in Hl. destruct Hl as [H1 H2].
  split; [|exact H2]. apply Forall_cons in H1 as [H1 H1']. by constructor.
Qed.

Lemma split_range_ok l i r : ranges_ok l -> l !! i = Some r -> ranges_ok (split_range l i r).
Proof using Hlen.
  intros Hl Hi. rewrite (lookup_perm l i r Hi) in Hl. destruct Hl as [H1 H2]. apply Forall_cons in H1 as [H1 H1'].
  simpl in H2. apply NoDup_app in H2 as (N1 & N2 & N3).
  destruct (split_range_perm l i r Hi H1) as [[_ ->]|(r1 & r2 & -> & Hr1 & Hr2 & _ & _ & Hc)]; [done|].
  split; [constructor; [done|by constructor]|]. simpl. rewrite Hc in N1, N2. rewrite app_assoc.
  apply NoDup_app. split; [by rewrite (Permutation_app_comm (cells_of r2))|]. split; [|done].
  intros x Hx. apply N2. set_solver.
Qed.

Lemma marked_cells_set k l i r x :
  l !! i = Some r -> rg_ok r <> k ->
  x ∈ cells (marked k (alter (set_ok k) i l)) <-> rg_start r <= x <= rg_end r \/ x ∈ cells (marked k l).
Proof.
  intros Hi Hk. rewrite !elem_of_cells. unfold marked. setoid_rewrite list_elem_of_filter.
  setoid_rewrite (alter_ok_perm k l i r Hi). setoid_rewrite (lookup_perm l i r Hi) at 2. split.
  - intros (r' & [Hm [->|Hr']%elem_of_cons] & Hx); [by left|right]. exists r'. split; [|done]. split; [done|by right].
  - intros [Hx|(r' & [Hm [->|Hr']%elem_of_cons] & Hx)]; [|done|].
    + exists (set_ok k r). split; [|done]. split; [done|by left].
    + exists r'. split; [|done]. split; [done|by right].
Qed.

Lemma marked_cells_split k l i r x :
  l !! i = Some r -> rg_in r -> rg_ok r <> k -> k <> 0 ->
  x ∈ cells (marked k (split_range l i r)) <-> x ∈ cells (marked k l).
Proof using Hlen.
  intros Hi Hr Hk Hk0. rewrite !elem_of_cells. unfold marked. setoid_rewrite list_elem_of_filter.
  setoid_rewrite (lookup_perm l i r Hi) at 2.
  assert (Hd : forall r', rg_ok r' = k -> r' ∈ split_range l i r <-> r' ∈ r :: delete i l).
  { intros r' Hr'. destruct (split_range_perm l i r Hi Hr) as [[_ ->]|(r1 & r2 & -> & _ & _ & O1 & O2 & _)];
      rewrite !elem_of_cons; split; intros H'; repeat (destruct H' as [H'|H']; [subst; lia|]); auto. }
  split; intros (r' & [Hm Hr'] & Hx); exists r'; (split; [|done]); (split; [done|]); by apply (Hd r' Hm).
Qed.
End cells.

(** ** The search *)

Lemma biggest_from_spec i l m rmax k :
  biggest_from i l m rmax = Some k ->
  rmax = Some k \/ exists r, (i <= k)%nat /\ l !! (k - i)%nat = Some r /\ rg_ok r = 0.
Proof.
  revert i m rmax. induction l as [|r l IH]; intros i m rmax H; simpl in H; [by left|].
  assert (Hrest : (exists r', (S i <= k)%nat /\ l !! (k - S i)%nat = Some r' /\ rg_ok r' = 0) ->
    exists r', (i <= k)%nat /\ (r :: l) !! (k - i)%nat = Some r' /\ rg_ok r' = 0).
  { intros (r' & Hk & Hl & Ho). exists r'. split; [lia|]. split; [|done]. by replace (k - i)%nat with (S (k - S i)) by lia. }
  destruct ((rg_ok r =? 0) && (m <=? rg_size r)) eqn:E; apply IH in H as [H|H]; auto.
  apply andb_true_iff in E as [E%Z.eqb_eq _]. injection H as <-. right. exists r. split; [done|].
  split; [by rewrite Nat.sub_diag|done].
Qed.

Lemma pop_biggest_spec l k : pop_biggest_range l = Some k -> exists r, l !! k = Some r /\ rg_ok r = 0.
Proof.
  intros H. apply biggest_from_spec in H as [H|(r & _ & H)]; [done|]. rewrite Nat.sub_0_r in H. by exists r.
Qed.

Lemma copy_range_spec b from start s :
  length from = length b -> 0 <= start -> 0 <= s -> start + s <= Z.of_nat (length b) ->
  exists b', copy_range b from start s = Some b' /\ length b' = length b
    /\ forall i, b' !! i = if decide (start <= Z.of_nat i < start + s) then from !! i else b !! i.
Proof.
  intros Hl H1 H2 H3. unfold copy_range. assert (Hr : in_range (Z.to_nat s) from start /\ in_range (Z.to_nat s) b start).
  { unfold in_range. lia. }
  rewrite decide_True by done. set (l := take _ _).
  assert (Hll : length l = Z.to_nat s) by (unfold l; rewrite length_take, length_drop; lia).
  eexists. split; [done|]. split; [apply length_write_at; rewrite Hll; apply Hr|].
  intros i. unfold write_at. rewrite Hll. assert (Hlt : length (take (Z.to_nat start) b) = Z.to_nat start) by (rewrite length_take; lia).
  case_decide as Hi.
  - rewrite lookup_app_r, Hlt by lia. rewrite lookup_app_l by lia. unfold l. rewrite lookup_take_lt, lookup_drop by lia. f_equal. lia.
  - destruct (decide (Z.of_nat i < start)).
    + rewrite lookup_app_l by lia. by rewrite lookup_take_lt by lia.
    + rewrite lookup_app_r, Hlt by lia. rewrite lookup_app_r, Hll by lia. rewrite lookup_drop. f_equal. lia.
Qed.

Section search.
Context {W : Type} `{!Fuzzer W} `{!Random W} `{!Coloring W}.
Context (backup changed : list Z) (exec_cksum : Z).
Notation len := (Z.of_nat (length backup)).
Hypothesis Hlen : 0 < len < 2 ^ 31.
Hypothesis Hchanged : Forall2 replaced backup changed.
Implicit Types c : coloring (W:=W).

Record color_inv c : Prop := {
  ci_ranges : ranges_ok len (co_ranges c);
  ci_marks : Forall (fun r => rg_ok r = 0 \/ rg_ok r = 1) (co_ranges c);
  ci_len : length (co_buf c) = length backup;
  ci_content : forall i, co_buf c !! i =
    (if decide (Z.of_nat i ∈ cells (marked 1 (co_ranges c))) then changed else backup) !! i;
  ci_ran : (co_buf c, exec_cksum) ∈ co_runs c;
  ci_count : Z.of_nat (length (co_runs c)) = 1 + co_cur c;
  ci_first : head (co_runs c) = Some (backup, exec_cksum);
}.

Lemma length_changed : length changed = length backup.
Proof using Hchanged. symmetry. by eapply Forall2_length. Qed.

Lemma unmarked_cell c i r x :
  color_inv c -> co_ranges c !! i = Some r -> rg_ok r = 0 -> rg_start r <= x <= rg_end r ->
  x ∉ cells (marked 1 (co_ranges c)).
Proof.
  intros Hc Hi Ho Hx Hm. destruct (ci_ranges c Hc) as [_ Hn]. rewrite (lookup_perm _ _ _ Hi) in Hn. simpl in Hn.
  apply NoDup_app in Hn as (_ & Hn & _). apply (Hn x); [by apply elem_of_cells_of|].
  apply elem_of_cells in Hm as (r' & [Hr'1 Hr'2]%list_elem_of_filter & Hx'). apply elem_of_cells. exists r'. split; [|done].
  rewrite (lookup_perm _ _ _ Hi) in Hr'2. apply elem_of_cons in Hr'2 as [->|?]; [lia|done].
Qed.

(** One round: the invariant, one run more, one step further. *)
Lemma color_range_inv c i r :
  color_inv c -> co_ranges c !! i = Some r -> rg_ok r = 0 -> co_cur c < 2 * len -> 0 <= co_cur c ->
  match color_range exec_cksum backup changed i c with
  | CGo c' => color_inv c' /\ co_cur c' = co_cur c + 1
  | CFail _ => exists w b, (common_fuzz_stuff (W:=W) w b).2 = true
  | _ => False
  end.
Proof using Hlen Hchanged.
  intros Hc Hi Ho Hcur Hcur0. unfold color_range. rewrite Hi. pose proof (ci_ranges c Hc) as [Hin _].
  pose proof (proj1 (Forall_lookup _ _) Hin i r Hi) as Hr. cbv zeta. rewrite (rg_size_in len Hlen r Hr).
  destruct Hr as [Hr1 Hr2]. set (s := 1 + rg_end r - rg_start r) in *.
  destruct (copy_range_spec (co_buf c) changed (rg_start r) s) as (b1 & -> & Hl1 & Hb1);
    [by rewrite length_changed, (ci_len c Hc)|lia|lia|rewrite (ci_len c Hc); lia|].
  unfold get_exec_checksum. cbn [co_world co_buf co_ranges co_cur co_runs].
  destruct (common_fuzz_stuff (co_world c) b1) as [w abandon] eqn:Ew.
  destruct abandon; [by exists (co_world c), b1; rewrite Ew|].
  cbn [co_world co_buf co_ranges co_cur co_runs]. destruct (_ || _) eqn:Erej.
  - destruct (copy_range_spec b1 backup (rg_start r) s) as (b2 & -> & Hl2 & Hb2);
      [by rewrite Hl1, (ci_len c Hc)|lia|lia|rewrite Hl1, (ci_len c Hc); lia|].
    assert (Hb : b2 = co_buf c).
    { apply list_eq. intros j. rewrite Hb2. case_decide as Hj.
      - rewrite (ci_content c Hc). rewrite decide_False; [done|]. apply (unmarked_cell c i r); [done..|lia].
      - rewrite Hb1. by rewrite decide_False. }
    subst b2. split; [|cbn; apply u32_id; lia].
    split; cbn [co_buf co_ranges co_runs co_cur]; try apply Hc.
    + by apply split_range_ok; [|apply Hc|].
    + destruct (split_range_perm len Hlen _ _ _ Hi (conj Hr1 Hr2)) as [[_ ->]|(r1 & r2 & -> & _ & _ & O1 & O2 & _)];
        [by apply Forall_delete, Hc|]. repeat constructor; [lia|lia|by apply Forall_delete, Hc].
    + intros j. rewrite (ci_content c Hc). by erewrite decide_ext; [|symmetry; apply (marked_cells_split len Hlen); [done|done|lia|done]].
    + apply elem_of_app. left. apply Hc.
    + rewrite length_app, u32_id by lia. simpl. pose proof (ci_count c Hc). lia.
    + pose proof (ci_first c Hc) as Hf. by destruct (co_runs c).
  - apply orb_false_iff in Erej as [Erej%negb_false_iff%Z.eqb_eq _].
    split; [|cbn; apply u32_id; lia].
    split; cbn [co_buf co_ranges co_runs co_cur]; try apply Hc.
    + by apply (set_ok_range len _ _ _ r); [apply Hc|].
    + rewrite (alter_ok_perm 1 _ i r Hi). constructor; [by right|by apply Forall_delete, Hc].
    + by rewrite Hl1, (ci_len c Hc).
    + intros j. rewrite Hb1, (ci_content c Hc).
      pose proof (marked_cells_set 1 _ i r (Z.of_nat j) Hi ltac:(lia)) as Hm.
      destruct (decide (Z.of_nat j ∈ cells (marked 1 (alter _ i _)))) as [C|C].
      * apply Hm in C as [C|C]; [by rewrite decide_True by lia|]. case_decide; [done|]. by rewrite decide_True.
      * rewrite !decide_False; [done|intros D; apply C, Hm; by right|intros D; apply C, Hm; left; lia].
    + rewrite Erej. apply elem_of_app. right. by left.
    + rewrite length_app, u32_id by lia. simpl. pose proof (ci_count c Hc). lia.
    + pose proof (ci_first c Hc) as Hf. by destruct (co_runs c).
Qed.

(** [2 * len] rounds are enough, because [stage_max] allows no more. *)
Lemma color_loop_inv fuel c :
  color_inv c -> 0 <= co_cur c <= 2 * len -> 2 * len - co_cur c <= Z.of_nat fuel ->
  match color_loop fuel (2 * len) exec_cksum backup changed c with
  | CGo c' => color_inv c' /\ 0 <= co_cur c' <= 2 * len
  | CFail _ => exists w b, (common_fuzz_stuff (W:=W) w b).2 = true
  | _ => False
  end.
Proof using Hlen Hchanged.
  revert c. induction fuel as [|fuel IH]; intros c Hc Hcur Hfuel; cbn [color_loop];
    (destruct (pop_biggest_range _) as [i|] eqn:Ei; [|done]); destruct (Z.ltb_spec (co_cur c) (2 * len)); try done; [lia|].
  apply pop_biggest_spec in Ei as (r & Hi & Ho).
  pose proof (color_range_inv c i r Hc Hi Ho ltac:(lia) ltac:(lia)) as Hr.
  destruct (color_range _ _ _ _ _) as [c'| | |]; try done. destruct Hr as [Hc' Hcur']. apply IH; [done|lia|lia].
Qed.
End search.

(** ** The tainted regions *)

Definition taint_end (taint : list tainted) : option Z :=
  match taint with t :: _ => Some (t_pos t + t_len t) | [] => None end.

(** The regions from the last to the first, with gaps between them. *)
Fixpoint gaps (taint : list tainted) : Prop :=
  match taint with
  | t1 :: ((t2 :: _) as rest) => t_pos t2 + t_len t2 < t_pos t1 /\ gaps rest
  | _ => True
  end.

Definition taint_cell (taint : list tainted) (x : Z) : Prop :=
  exists t, t ∈ taint /\ t_pos t <= x < t_pos t + t_len t.

Section taints.
Context (len : Z) (Hlen : 0 < len < 2 ^ 31).
Implicit Types (l : list range) (taint : list tainted).

Definition taint_in (t : tainted) : Prop := 0 <= t_pos t /\ 0 < t_len t /\ t_pos t + t_len t <= len.

Lemma scan_ranges_spec i l taint best pos :
  Forall taint_in taint ->
  match best with Pick _ r => pos = rg_start r | Nothing => True | Merge _ _ => False end ->
  match scan_ranges i l taint best pos with
  | Merge k r => (i <= k)%nat /\ l !! (k - i)%nat = Some r /\ rg_ok r = 1 /\ taint_end taint = Some (rg_start r)
  | Pick k r =>
      (best = Pick k r
       \/ (i <= k)%nat /\ l !! (k - i)%nat = Some r /\ rg_ok r = 1 /\ taint_end taint <> Some (rg_start r) /\ rg_start r < pos)
      /\ forall r', r' ∈ l -> rg_ok r' = 1 -> rg_start r <= rg_start r'
  | Nothing => best = Nothing /\ forall r', r' ∈ l -> rg_ok r' = 1 -> pos <= rg_start r'
  end.
Proof using Hlen.
  intros Ht. revert i best pos. induction l as [|r l IH]; intros i best pos Hbest; cbn [scan_ranges].
  { destruct best; [done|..]; (split; [auto|]; by intros r' Hr'%elem_of_nil). }
  assert (Hshift : forall k r', (S i <= k)%nat /\ l !! (k - S i)%nat = Some r' -> (i <= k)%nat /\ (r :: l) !! (k - i)%nat = Some r').
  { intros k r' [Hk Hl]. split; [lia|]. by replace (k - i)%nat with (S (k - S i)) by lia. }
  destruct ((rg_ok r =? 1) && (rg_start r <? pos)) eqn:E.
  - apply andb_true_iff in E as [E1%Z.eqb_eq E2%Z.ltb_lt].
    assert (Hm : match taint with t :: _ => u32 (t_pos t + t_len t) =? rg_start r | [] => false end
      = bool_decide (taint_end taint = Some (rg_start r))).
    { destruct taint as [|t taint]; [done|]. apply Forall_cons in Ht as [(? & ? & ?) _]. rewrite u32_id by lia. simpl.
      apply Bool.eq_iff_eq_true. rewrite Z.eqb_eq, bool_decide_eq_true. split; congruence. }
    rewrite Hm. case_bool_decide as Hte; [rewrite Nat.sub_diag; done|].
    specialize (IH (S i) (Pick i r) (rg_start r) eq_refl). destruct (scan_ranges _ _ _ _ _) as [k r'|k r'|].
    + destruct IH as (? & ? & ? & ?). destruct (Hshift k r'); auto.
    + destruct IH as [[[= <- <-]|(H1 & H2 & H3 & H4 & H5)] Hmin].
      * split; [right; rewrite Nat.sub_diag; done|]. intros r'' [->|H]%elem_of_cons; [done|by apply Hmin].
      * destruct (Hshift k r'); [done|]. split; [right; repeat split; try done; lia|].
        intros r'' [->|H']%elem_of_cons Ho; [lia|by apply Hmin].
    + by destruct IH.
  - assert (Hno : rg_ok r = 1 -> pos <= rg_start r).
    { intros Ho. apply andb_false_iff in E as [E%Z.eqb_neq|E%Z.ltb_ge]; [lia|done]. }
    specialize (IH (S i) best pos Hbest). destruct (scan_ranges _ _ _ _ _) as [k r'|k r'|].
    + destruct IH as (? & ? & ? & ?). destruct (Hshift k r'); auto.
    + destruct IH as [[->|(H1 & H2 & H3 & H4 & H5)] Hmin].
      * split; [by left|]. intros r'' [->|H']%elem_of_cons Ho; [rewrite <- Hbest; by apply Hno|by apply Hmin].
      * destruct (Hshift k r'); [done|]. split; [right; repeat split; done|].
        intros r'' [->|H']%elem_of_cons Ho; [specialize (Hno Ho); lia|by apply Hmin].
    + destruct IH as [-> Hmin]. split; [done|]. intros r'' [->|H']%elem_of_cons Ho; [by apply Hno|by apply Hmin].
Qed.

Record taint_inv l taint : Prop := {
  ti_ranges : ranges_ok len l;
  ti_cells : forall x, x ∈ cells (marked 2 l) <-> taint_cell taint x;
  ti_gaps : gaps taint;
  ti_in : Forall taint_in taint;
  ti_next : forall r e, r ∈ l -> rg_ok r = 1 -> taint_end taint = Some e -> e <= rg_start r;
}.

(** A range that starts no earlier than a disjoint one starts behind it. *)
Lemma starts_behind l i r r' :
  ranges_ok len l -> l !! i = Some r -> r' ∈ delete i l -> rg_start r <= rg_start r' -> rg_end r < rg_start r'.
Proof.
  intros [H1 H2] Hi Hr' Hs. rewrite (lookup_perm l i r Hi) in H1, H2. apply Forall_cons in H1 as [Hr Hrest].
  pose proof (proj1 (Forall_forall _ _) Hrest r' Hr') as [Hr'1 Hr'2]. simpl in H2. apply NoDup_app in H2 as (_ & H2 & _).
  destruct (decide (rg_end r < rg_start r')); [done|]. exfalso. apply (H2 (rg_start r')).
  - apply elem_of_cells_of. lia.
  - apply elem_of_cells. exists r'. split; [done|lia].
Qed.

Lemma remaining_next l i r e :
  ranges_ok len l -> l !! i = Some r -> rg_ok r = 1 -> e = rg_end r + 1 ->
  (forall r', r' ∈ l -> rg_ok r' = 1 -> rg_start r <= rg_start r') ->
  forall r', r' ∈ alter (set_ok 2) i l -> rg_ok r' = 1 -> e <= rg_start r'.
Proof.
  intros Hl Hi Ho -> Hmin r' Hr' Ho'. rewrite (alter_ok_perm 2 l i r Hi) in Hr'.
  apply elem_of_cons in Hr' as [->|Hr']; [done|].
  pose proof (starts_behind l i r r' Hl Hi Hr'). assert (Hin : r' ∈ l) by (rewrite (lookup_perm l i r Hi); by right).
  specialize (Hmin r' Hin Ho'). lia.
Qed.

Lemma marked_less l i r : l !! i = Some r -> rg_ok r = 1 -> length (marked 1 l) = S (length (marked 1 (alter (set_ok 2) i l))).
Proof.
  intros Hi Ho. unfold marked. rewrite (alter_ok_perm 2 l i r Hi). rewrite (lookup_perm l i r Hi) at 1.
  rewrite filter_cons_True by done. by rewrite filter_cons_False by done.
Qed.

(** Marking a range moves its cells from the pending ones to the collected ones. *)
Lemma taken_cells l k r x :
  l !! k = Some r -> rg_ok r = 1 ->
  x ∈ cells (marked 1 (alter (set_ok 2) k l)) \/ x ∈ cells (marked 2 (alter (set_ok 2) k l))
  <-> x ∈ cells (marked 1 l) \/ x ∈ cells (marked 2 l).
Proof.
  clear len Hlen. intros Hk Ho. rewrite (marked_cells_set 2 l k r x Hk ltac:(lia)).
  assert (H1 : x ∈ cells (marked 1 l) <-> rg_start r <= x <= rg_end r \/ x ∈ cells (marked 1 (alter (set_ok 2) k l))).
  { rewrite !elem_of_cells. unfold marked. setoid_rewrite list_elem_of_filter.
    setoid_rewrite (alter_ok_perm 2 l k r Hk). setoid_rewrite (lookup_perm l k r Hk) at 1. setoid_rewrite elem_of_cons. split.
    - intros (r' & [Hm [->|Hr']] & Hx); [by left|right; exists r'; tauto].
    - intros [Hx|(r' & [Hm [->|Hr']] & Hx)]; [exists r; tauto|done|exists r'; tauto]. }
  tauto.
Qed.

(** A collected range that touches the last region makes it longer. *)
Lemma taint_inv_extend l k r t taint :
  taint_inv l (t :: taint) -> l !! k = Some r -> rg_ok r = 1 -> t_pos t + t_len t = rg_start r ->
  taint_inv (alter (set_ok 2) k l) (Tainted (t_pos t) (t_len t + (1 + rg_end r - rg_start r)) :: taint).
Proof using Hlen.
  intros Hinv Hk Ho He. pose proof (ti_ranges _ _ Hinv) as Hl.
  assert (Hr : rg_in len r) by (apply (proj1 (Forall_lookup _ _) (ro_in _ _ Hl) k r Hk)). destruct Hr as [R1 R2].
  pose proof (ti_in _ _ Hinv) as [(T1 & T2 & T3) Tin]%Forall_cons.
  split; [by apply (set_ok_range len 2 l k r)| | | |].
  - intros x. rewrite (marked_cells_set 2 l k r x Hk ltac:(lia)), (ti_cells _ _ Hinv). unfold taint_cell.
    setoid_rewrite elem_of_cons. split.
    + intros [Hx|(t0 & [->|Ht0] & Hx)]; [eexists; split; [by left|simpl; lia]..|exists t0; tauto].
    + intros (t0 & [->|Ht0] & Hx); [|right; exists t0; tauto]. simpl in Hx.
      destruct (decide (x < rg_start r)); [right; exists t; split; [tauto|lia]|left; lia].
  - pose proof (ti_gaps _ _ Hinv) as Hg. destruct taint; [done|]. exact Hg.
  - constructor; [unfold taint_in; simpl; lia|done].
  - intros r' e Hr' Ho' [= <-]. simpl.
    pose proof (remaining_next l k r (rg_end r + 1) Hl Hk Ho eq_refl) as Hn.
    specialize (Hn ltac:(intros r'' H1 H2; pose proof (ti_next _ _ Hinv r'' _ H1 H2 eq_refl); simpl in *; lia) r' Hr' Ho'). lia.
Qed.

(** The first of the ranges that are left starts a new region. *)
Lemma taint_inv_push l k r taint :
  taint_inv l taint -> l !! k = Some r -> rg_ok r = 1 -> taint_end taint <> Some (rg_start r) ->
  (forall r', r' ∈ l -> rg_ok r' = 1 -> rg_start r <= rg_start r') ->
  taint_inv (alter (set_ok 2) k l) (Tainted (rg_start r) (1 + rg_end r - rg_start r) :: taint).
Proof using Hlen.
  intros Hinv Hk Ho He Hmin. pose proof (ti_ranges _ _ Hinv) as Hl.
  assert (Hr : rg_in len r) by (apply (proj1 (Forall_lookup _ _) (ro_in _ _ Hl) k r Hk)). destruct Hr as [R1 R2].
  split; [by apply (set_ok_range len 2 l k r)| | | |].
  - intros x. rewrite (marked_cells_set 2 l k r x Hk ltac:(lia)), (ti_cells _ _ Hinv). unfold taint_cell.
    setoid_rewrite elem_of_cons. split.
    + intros [Hx|(t0 & Ht0 & Hx)]; [eexists; split; [by left|simpl; lia]|exists t0; tauto].
    + intros (t0 & [->|Ht0] & Hx); [left; simpl in Hx; lia|right; exists t0; tauto].
  - pose proof (ti_gaps _ _ Hinv) as Hg. destruct taint as [|t taint]; [done|]. split; [|exact Hg].
    simpl. assert (Hin : r ∈ l) by (by eapply list_elem_of_lookup_2).
    pose proof (ti_next _ _ Hinv r _ Hin Ho eq_refl) as Hle. simpl in *. assert (t_pos t + t_len t <> rg_start r) by congruence. lia.
  - constructor; [unfold taint_in; simpl; lia|apply (ti_in _ _ Hinv)].
  - intros r' e Hr' Ho' [= <-]. simpl.
    pose proof (remaining_next l k r (rg_end r + 1) Hl Hk Ho eq_refl Hmin r' Hr' Ho'). lia.
Qed.

Lemma collect_taints_spec fuel l taint positions :
  taint_inv l taint -> (length (marked 1 l) < fuel)%nat ->
  exists taints positions', collect_taints fuel l taint positions = Some (taints, positions')
    /\ gaps taints /\ Forall taint_in taints
    /\ forall x, taint_cell taints x <-> x ∈ cells (marked 1 l) \/ x ∈ cells (marked 2 l).
Proof using Hlen.
  revert l taint positions. induction fuel as [|fuel IH]; intros l taint positions Hinv Hf; [lia|].
  cbn [collect_taints]. pose proof (scan_ranges_spec 0 l taint Nothing (u32 (-1)) (ti_in _ _ Hinv) I) as Hs.
  pose proof (ti_ranges _ _ Hinv) as Hl.
  assert (Hnext : forall k r t' p, l !! k = Some r -> rg_ok r = 1 -> taint_inv (alter (set_ok 2) k l) t' ->
    exists taints positions', collect_taints fuel (alter (set_ok 2) k l) t' p = Some (taints, positions')
      /\ gaps taints /\ Forall taint_in taints
      /\ forall x, taint_cell taints x <-> x ∈ cells (marked 1 l) \/ x ∈ cells (marked 2 l)).
  { intros k r t' p Hk Ho Ht'. destruct (IH _ t' p Ht') as (ts & p' & E & G & I' & C); [pose proof (marked_less l k r Hk Ho); lia|].
    exists ts, p'. split_and!; [done..|]. intros x. rewrite C. by apply (taken_cells l k r). }
  assert (Hrg : forall k r, l !! k = Some r -> rg_in len r)
    by (intros k r Hk; apply (proj1 (Forall_lookup _ _) (ro_in _ _ Hl) k r Hk)).
  destruct (scan_ranges _ _ _ _ _) as [k r|k r|].
  - destruct Hs as (_ & Hk & Ho & He). rewrite Nat.sub_0_r in Hk. destruct taint as [|t taint]; [done|].
    pose proof (Hrg k r Hk) as Hr. rewrite (rg_size_in len Hlen r Hr). destruct Hr as [R1 R2].
    pose proof (ti_in _ _ Hinv) as [(T1 & T2 & T3) Tin]%Forall_cons. simpl in He. injection He as He.
    rewrite (u32_id (t_len t + _)) by lia. apply (Hnext k r); [done..|]. by apply taint_inv_extend.
  - destruct Hs as [[[=]|(_ & Hk & Ho & He & _)] Hmin]. rewrite Nat.sub_0_r in Hk.
    rewrite (rg_size_in len Hlen r (Hrg k r Hk)). apply (Hnext k r); [done..|]. by apply taint_inv_push.
  - destruct Hs as [_ Hno]. exists taint, positions. split; [done|]. split; [apply Hinv|]. split; [apply Hinv|].
    intros x. rewrite <- (ti_cells _ _ Hinv). split; [by right|]. intros [Hx|Hx]; [|done]. exfalso.
    apply elem_of_cells in Hx as (r & [Ho Hr]%list_elem_of_filter & _). specialize (Hno r Hr Ho).
    pose proof (proj1 (Forall_forall _ _) (ro_in _ _ Hl) r Hr) as [? ?]. change (u32 (-1)) with (2 ^ 32 - 1) in Hno. lia.
Qed.
End taints.

(** ** The whole *)

(** What a colorization leads to. *)
Definition colored_as {W} (buf : list Z) (exec_cksum : Z) (c : coloring (W:=W)) (taints : list tainted) : Prop :=
  let buf' := co_buf c in
  length buf' = length buf
  /\ head (co_runs c) = Some (buf, exec_cksum) /\ (buf', exec_cksum) ∈ co_runs c
  /\ Z.of_nat (length (co_runs c)) <= 2 * Z.of_nat (length buf) + 1
  /\ gaps taints /\ Forall (taint_in (Z.of_nat (length buf))) taints /\ Forall byte_ok buf'
  /\ (taints <> [] -> forall x, taint_cell taints x <-> exists b b', buf !! Z.to_nat x = Some b /\ buf' !! Z.to_nat x = Some b' /\ b <> b' /\ 0 <= x).

Section theorem.
Context {W : Type} `{!Fuzzer W} `{!Random W} `{!Coloring W}.

(** Cells of the marked ranges are the places that differ. *)
Lemma marked_differ buf changed exec_cksum (c : coloring (W:=W)) x :
  Forall2 replaced buf changed -> color_inv buf changed exec_cksum c ->
  x ∈ cells (marked 1 (co_ranges c))
  <-> exists b b', buf !! Z.to_nat x = Some b /\ co_buf c !! Z.to_nat x = Some b' /\ b <> b' /\ 0 <= x.
Proof.
  intros Hch Hc. split.
  - intros Hx. pose proof (proj1 (elem_of_cells _ _) Hx) as (r & [_ Hr]%list_elem_of_filter & Hin).
    pose proof (proj1 (Forall_forall _ _) (ro_in _ _ (ci_ranges _ _ _ _ Hc)) r Hr) as [? ?].
    destruct (lookup_lt_is_Some_2 buf (Z.to_nat x)) as [b Hb]; [lia|].
    destruct (Forall2_lookup_l _ _ _ _ _ Hch Hb) as (b' & Hb' & [_ Hne]). exists b, b'. split; [done|]. split; [|split; [done|lia]].
    rewrite (ci_content _ _ _ _ Hc). rewrite Z2Nat.id by lia. by rewrite decide_True.
  - intros (b & b' & Hb & Hb' & Hne & Hx). rewrite (ci_content _ _ _ _ Hc), Z2Nat.id in Hb' by lia.
    case_decide as Hd; [done|congruence].
Qed.

(** Every byte of the result is that of the input or its replacement. *)
Lemma colored_bytes buf changed exec_cksum (c : coloring (W:=W)) :
  Forall byte_ok buf -> Forall2 replaced buf changed -> color_inv buf changed exec_cksum c -> Forall byte_ok (co_buf c).
Proof.
  intros Hb Hch Hc. apply Forall_lookup. intros i x Hx. rewrite (ci_content _ _ _ _ Hc) in Hx.
  case_decide; [|by eapply Forall_lookup_1].
  destruct (Forall2_lookup_r _ _ _ _ _ Hch Hx) as (y & _ & Hr & _). exact Hr.
Qed.

Lemma colorization_exact patience fuel buf (w : W) :
  fair (W:=W) patience -> Forall byte_ok buf -> 0 < Z.of_nat (length buf) < 2 ^ 31 ->
  (2 * length buf <= fuel)%nat ->
  match colorization patience fuel buf w with
  | Colored c taints positions => exists exec_cksum, colored_as buf exec_cksum c taints
  | ColorFailed _ => exists w b, (common_fuzz_stuff (W:=W) w b).2 = true
  | ColorOob | ColorStarved => False
  end.
Proof.
  intros Hf Hb Hlen Hfuel. unfold colorization, get_exec_checksum. cbn [co_world co_buf co_ranges co_cur co_runs].
  destruct (common_fuzz_stuff w buf) as [w1 abandon] eqn:Ew. destruct abandon; [by exists w, buf; rewrite Ew|].
  cbn [co_world co_buf co_ranges co_cur co_runs]. set (ck := trace_cksum w1).
  destruct (type_replace_ok patience buf w1 Hf Hb) as (changed & w2 & -> & Hch).
  rewrite Z.shiftl_mul_pow2 by lia. rewrite !u32_id by lia.
  replace (Z.of_nat (length buf) * 2 ^ 1) with (2 * Z.of_nat (length buf)) by lia.
  set (c0 := Coloring_ buf _ 0 w2 _).
  assert (H0 : color_inv buf changed ck c0).
  { split; cbn; [|by constructor; [left|]|done| |by left|done|done].
    - split; [repeat constructor; simpl; lia|]. unfold cells. simpl. rewrite app_nil_r. apply NoDup_seqZ.
    - intros i. by rewrite decide_False by apply not_elem_of_nil. }
  pose proof (color_loop_inv buf changed ck Hlen Hch fuel c0 H0 ltac:(cbn; lia) ltac:(cbn; lia)) as Hl.
  destruct (color_loop _ _ _ _ _ _) as [c| | |]; [|done..]. destruct Hl as [Hc Hcur].
  destruct (collect_taints_spec (Z.of_nat (length buf)) Hlen (S (length (co_ranges c))) (co_ranges c) [] 0) as (ts & ps & E & G & Hin & C).
  { split; [apply Hc| |done|done|done].
    intros x. split; [|by intros (t & Ht%elem_of_nil & _)]. intros (r & [Ho Hr]%list_elem_of_filter & _)%elem_of_cells.
    pose proof (proj1 (Forall_forall _ _) (ci_marks _ _ _ _ Hc) r Hr) as Hm. cbv beta in Hm. lia. }
  { apply Nat.lt_succ_r. apply length_filter. }
  rewrite E. destruct (keep_taints _ _ _ _) as [taints w3] eqn:Ek. exists ck.
  assert (Hts : taints = [] \/ taints = ts).
  { unfold keep_taints in Ek. destruct ts; [left; by simplify_eq|]. destruct (_ && _); simplify_eq; auto. }
  split; [apply Hc|]. split; [apply Hc|]. split; [apply Hc|]. split; [cbn; pose proof (ci_count _ _ _ _ Hc); lia|].
  split; [by destruct Hts as [->| ->]|]. split; [by destruct Hts as [->| ->]|].
  split; [exact (colored_bytes buf changed ck c Hb Hch Hc)|]. intros Hne x. destruct Hts as [->| ->]; [done|].
  rewrite C, <- (marked_differ buf changed ck c x Hch Hc). split; [|by left]. intros [Hx|Hx]; [done|].
  exfalso. apply elem_of_cells in Hx as (r & [Ho Hr]%list_elem_of_filter & _).
  pose proof (proj1 (Forall_forall _ _) (ci_marks _ _ _ _ Hc) r Hr) as Hm. cbv beta in Hm. lia.
Qed.
End theorem.

(** ** The theorem *)

(** C13: colorization ends after at most [2 * len + 1] runs without touching a byte outside its
    buffers.  If no run asks to stop, the test case it leaves was run and had the checksum
    of the original; its tainted regions, from the last to the first and with gaps between
    them, are exactly the positions whose byte was replaced (unless the list was dropped as
    not worth the effort). *)
Theorem colorization_correct {W} `{!Fuzzer W} `{!Random W} `{!Coloring W} patience fuel buf (w : W) :
  fair (W:=W) patience -> Forall byte_ok buf -> 0 < Z.of_nat (length buf) < 2 ^ 31 ->
  (2 * length buf <= fuel)%nat ->
  match colorization patience fuel buf w with
  | Colored c taints positions => exists exec_cksum, colored_as buf exec_cksum c taints
  | ColorFailed _ => exists w b, (common_fuzz_stuff (W:=W) w b).2 = true
  | ColorOob | ColorStarved => False
  end.
Proof. apply colorization_exact. Qed.

(** A target that looks at the first byte only. *)
#[export] Instance picky_fuzzer : Fuzzer (Z * Z) := {|
  common_fuzz_stuff w b := ((w.1, default 0 (head b)), false);
  trace_cksum w := w.2;
  maybe_add_auto w _ := w;
  hit_cnt w := 0;
|}.
#[export] Instance picky_random : Random (Z * Z).
Proof.
  refine {| below w limit := let '(r, g) := below w.1 limit in (r, (g, w.2)) |}.
  - intros [g k] limit H. simpl. by rewrite (proj2 (Z.leb_le limit 1) H).
  - intros [g k] limit H. pose proof (below_range g limit H) as Hr. simpl in *. by destruct (limit <=? 1).
Defined.
#[export] Instance picky_coloring : Coloring (Z * Z) := {|
  get_cur_time_us w := 0; cur_exec_us w := 100; fixed_seed w := false; cmplog_lvl w := 2; active_items w := 1;
  colorize_success w := 0; set_colorize_success k w := w;
|}.

Lemma picky_after k limit w x : after k limit (w, x) = (after k limit w, x).
Proof. revert w. induction k as [|k IH]; intros w; [done|]. cbn [after]. rewrite <- IH. simpl. by destruct (limit <=? 1). Qed.

Lemma picky_fair : fair (W:=Z * Z) (Z.to_nat (2 ^ 32)).
Proof.
  intros [w x] limit v Hv Hl. destruct (counting_fair w limit v Hv Hl) as (k & Hk & Hd). exists k. split; [done|].
  rewrite picky_after, <- Hd. simpl. by destruct (limit <=? 1).
Qed.

Lemma colorization_correct_witness :
  colorization (Z.to_nat (2 ^ 32)) 6 [65; 66; 67] (0, 0) <> ColorOob
  /\ colorization (Z.to_nat (2 ^ 32)) 6 [65; 66; 67] (0, 0) <> ColorStarved.
Proof.
  pose proof (colorization_correct (Z.to_nat (2 ^ 32)) 6 [65; 66; 67] (0, 0) picky_fair) as H.
  specialize (H ltac:(byte_list) ltac:(simpl; lia) ltac:(simpl; lia)).
  split; intros E; by rewrite E in H.
Defined.

(** The first byte cannot be replaced; the other two become one region. *)
Lemma picky_colored :
  match colorization 10 6 [65; 66; 67] (0, 0) with
  | Colored c taints positions => (take 1 (co_buf c), taints, positions) = ([65], [Tainted 1 2], 2)
  | _ => False
  end.
Proof. vm_compute. reflexivity. Qed.
