(* ===== verification/NumText.v ===== *)
(** * Numbers as text (src/aflplusplus/src/afl-fuzz-redqueen.c)

    [strntoll] and [strntoull] read a number from a part of the test case that need not end
    in a NUL; the solver prints numbers with "%lld" and "%llu".  What they use of the C
    library is modelled here: [strtoll] and [strtoull] in base 0 (decimal, octal with a
    leading 0, hexadecimal with 0x) and the decimal conversions of [snprintf]. *)
From S2P Require Import Prelude.

(** ** Reading *)

Definition is_space (c : Z) : bool := (c =? 32) || ((9 <=? c) && (c <=? 13)).

Fixpoint count_while (p : Z -> bool) (l : list Z) : nat :=
  match l with c :: l => if p c then S (count_while p l) else O | [] => O end.

(** The value of a digit or letter, 36 for anything else. *)
Definition digit_val (c : Z) : Z :=
  if (48 <=? c) && (c <=? 57) then c - 48
  else if (97 <=? c) && (c <=? 122) then c - 87
  else if (65 <=? c) && (c <=? 90) then c - 55
  else 36.

Definition digit_of (base c : Z) : bool := digit_val c <? base.

Fixpoint read_digits (base : Z) (l : list Z) (acc : Z) : Z :=
  match l with
  | c :: l => if digit_of base c then read_digits base l (acc * base + digit_val c) else acc
  | [] => acc
  end.

(** The magnitude and the number of characters used, none if there is no digit. *)
Definition scan_magnitude (s : list Z) : Z * nat :=
  let '(base, prefix, s') :=
    match s with
    | 48 :: x :: ((d :: _) as s') =>
        if ((x =? 120) || (x =? 88)) && digit_of 16 d then (16, 2%nat, s') else (8, 0%nat, s)
    | 48 :: _ => (8, 0%nat, s)
    | _ => (10, 0%nat, s)
    end in
  let n := count_while (digit_of base) s' in
  if (n =? 0)%nat then (0, 0%nat) else (read_digits base s' 0, (prefix + n)%nat).

Definition split_sign (s : list Z) : bool * nat * list Z :=
  match s with
  | 45 :: s' => (true, 1%nat, s')
  | 43 :: s' => (false, 1%nat, s')
  | _ => (false, 0%nat, s)
  end.

(** Sign, magnitude and the number of characters used. *)
Definition scan_number (s : list Z) : bool * Z * nat :=
  let ws := count_while is_space s in
  let '(neg, sign, s2) := split_sign (drop ws s) in
  let '(mag, n) := scan_magnitude s2 in
  if (n =? 0)%nat then (false, 0, 0%nat) else (neg, mag, (ws + sign + n)%nat).

(** The value, the number of characters used, and whether [errno] becomes [ERANGE]. *)
Definition strtoll (s : list Z) : Z * nat * bool :=
  let '(neg, mag, n) := scan_number s in
  let v := if neg then - mag else mag in
  if v <? - 2 ^ 63 then (- 2 ^ 63, n, true)
  else if 2 ^ 63 - 1 <? v then (2 ^ 63 - 1, n, true)
  else (v, n, false).

Definition strtoull (s : list Z) : Z * nat * bool :=
  let '(neg, mag, n) := scan_number s in
  if 2 ^ 64 - 1 <? mag then (2 ^ 64 - 1, n, true)
  else (u64 (if neg then - mag else mag), n, false).

Section reading.
(** [errno] is not reset before the call: does it hold [ERANGE] already? *)
Context (erange : bool).

(** [strntoll(str, sz, &end, 0, &out)]: the number and the offset of [end] in [str];
    [None] when it returns 1 *)
Definition strntoll (str : list Z) : option (Z * nat) :=
  let sp := count_while (fun c => c =? 32) str in
  match drop sp str with
  | [] => None
  | beg =>
      let '(ret, n, err) := strtoll (take 63 beg) in
      if ((ret =? - 2 ^ 63) || (ret =? 2 ^ 63 - 1)) && (err || erange) then None else Some (ret, (sp + n)%nat)
  end.

Definition strntoull (str : list Z) : option (Z * nat) :=
  let sp := count_while (fun c => c =? 32) str in
  match drop sp str with
  | [] => None
  | beg =>
      let '(ret, n, err) := strtoull (take 63 beg) in
      if (ret =? 2 ^ 64 - 1) && (err || erange) then None else Some (ret, (sp + n)%nat)
  end.
End reading.

(** A number ends inside the string. *)
Lemma count_while_le p l : (count_while p l <= length l)%nat.
Proof. induction l as [|c l IH]; [done|]. simpl. destruct (p c); lia. Qed.

Lemma scan_magnitude_le s : ((scan_magnitude s).2 <= length s)%nat.
Proof.
  unfold scan_magnitude.
  set (p := match s with 48 :: _ => _ | _ => _ end).
  assert (Hp : exists base prefix s', p = (base, prefix, s') /\ (prefix + length s' <= length s)%nat).
  { subst p. repeat match goal with |- context [match ?x with _ => _ end] => is_var x; destruct x end;
      try by do 3 eexists.
    match goal with |- context [if ?c then _ else _] => destruct c end; do 3 eexists; (split; [reflexivity|]); simpl; lia. }
  destruct Hp as (base & prefix & s' & -> & Hl). pose proof (count_while_le (digit_of base) s').
  cbv zeta. set (k := count_while (digit_of base) s') in *. clearbody k. destruct (k =? 0)%nat; cbn [snd]; lia.
Qed.

Lemma scan_number_le s : ((scan_number s).2 <= length s)%nat.
Proof.
  unfold scan_number. pose proof (count_while_le is_space s) as Hw. set (ws := count_while is_space s) in *.
  assert (Hs : exists neg sign s2, split_sign (drop ws s) = (neg, sign, s2) /\ (sign + length s2 <= length s - ws)%nat).
  { rewrite <- length_drop. generalize (drop ws s). intros l. unfold split_sign.
    repeat match goal with |- context [match ?x with _ => _ end] => is_var x; destruct x end;
      do 3 eexists; (split; [reflexivity|]); simpl; lia. }
  destruct Hs as (neg & sign & s2 & -> & Hl). pose proof (scan_magnitude_le s2) as Hm.
  destruct (scan_magnitude s2) as [mag n]. simpl in *. destruct (n =? 0)%nat; simpl; lia.
Qed.

Lemma skipped_le sp (beg str : list Z) n :
  drop sp str = beg -> beg <> [] -> (n <= length (take 63 beg))%nat -> (sp + n <= length str)%nat.
Proof.
  intros E Hne Hn. rewrite length_take in Hn. assert (Hl : length beg = (length str - sp)%nat) by (rewrite <- E; apply length_drop).
  assert (length beg <> 0%nat) by (by destruct beg). lia.
Qed.

Lemma strntoll_end erange str v n : strntoll erange str = Some (v, n) -> (n <= length str)%nat.
Proof.
  unfold strntoll, strtoll. destruct (drop _ str) as [|c l] eqn:E; [done|].
  pose proof (scan_number_le (take 63 (c :: l))) as H. destruct (scan_number _) as [[neg mag] k]. simpl in H.
  intros Hs. assert (Hn : n = (count_while (fun c => (c =? 32)%Z) str + k)%nat).
  { repeat match type of Hs with context [if ?b then _ else _] => destruct b end; by simplify_eq. }
  subst n. by eapply skipped_le.
Qed.

Lemma strntoull_end erange str v n : strntoull erange str = Some (v, n) -> (n <= length str)%nat.
Proof.
  unfold strntoull, strtoull. destruct (drop _ str) as [|c l] eqn:E; [done|].
  pose proof (scan_number_le (take 63 (c :: l))) as H. destruct (scan_number _) as [[neg mag] k]. simpl in H.
  intros Hs. assert (Hn : n = (count_while (fun c => (c =? 32)%Z) str + k)%nat).
  { repeat match type of Hs with context [if ?b then _ else _] => destruct b end; by simplify_eq. }
  subst n. by eapply skipped_le.
Qed.

(** ** Printing *)

Fixpoint digits (fuel : nat) (n : Z) : list Z :=
  match fuel with
  | O => []
  | S fuel => if n <? 10 then [48 + n] else digits fuel (n / 10) ++ [48 + n `mod` 10]
  end.

(** "%llu" and "%lld" *)
Definition text_u (n : Z) : list Z := digits 20 n.
Definition text_s (n : Z) : list Z := if n <? 0 then 45 :: digits 20 (- n) else digits 20 n.

(** ** Reading back what was printed *)

Lemma digit_of_digit base d : 0 <= d < 10 -> 10 <= base -> digit_of base (48 + d) = true /\ digit_val (48 + d) = d.
Proof.
  intros Hd Hb. unfold digit_of, digit_val.
  replace ((48 <=? 48 + d) && (48 + d <=? 57)) with true by (symmetry; apply andb_true_iff; split; apply Z.leb_le; lia).
  split; [apply Z.ltb_lt|]; lia.
Qed.

Definition all_digits (l : list Z) : Prop := Forall (fun c => exists d, c = 48 + d /\ 0 <= d < 10) l.

Lemma read_digits_app l l' acc :
  all_digits l -> read_digits 10 (l ++ l') acc = read_digits 10 l' (read_digits 10 l acc).
Proof.
  intros H. revert acc. induction H as [|c l (d & -> & Hd) _ IH]; intros acc; [done|]. simpl.
  destruct (digit_of_digit 10 d Hd ltac:(lia)) as [-> _]. apply IH.
Qed.

Lemma read_digits_stop base l acc : hd 0 l = 0 \/ digit_of base (hd 0 l) = false -> 0 < base <= 36 -> read_digits base l acc = acc.
Proof.
  intros H Hb. destruct l as [|c l]; [done|]. simpl in *. destruct H as [->|H]; [|by rewrite H].
  unfold digit_of, digit_val. simpl. rewrite (proj2 (Z.ltb_ge 36 base)); [done|lia].
Qed.

Lemma count_while_app p l l' :
  Forall (fun c => p c = true) l -> count_while p (l ++ l') = (length l + count_while p l')%nat.
Proof. induction 1 as [|c l Hc _ IH]; [done|]. simpl. rewrite Hc. by rewrite IH. Qed.

Lemma digits_ok fuel n : 0 <= n < 10 ^ Z.of_nat fuel -> all_digits (digits fuel n) /\ read_digits 10 (digits fuel n) 0 = n
  /\ (fuel <> 0%nat -> exists d l, digits fuel n = (48 + d) :: l /\ 0 <= d < 10 /\ (d = 0 -> n = 0)).
Proof.
  revert n. induction fuel as [|fuel IH]; intros n Hn; [split; [constructor|split; [simpl; lia|done]]|].
  cbn [digits]. destruct (Z.ltb_spec n 10) as [H|H].
  - assert (Hd : 0 <= n < 10) by lia. split; [by repeat constructor; exists n|]. simpl.
    destruct (digit_of_digit 10 n Hd ltac:(lia)) as [-> ->]. split; [lia|]. intros _. exists n, []. done.
  - assert (Hq : 1 <= n / 10 < 10 ^ Z.of_nat fuel).
    { split; [apply Z.div_le_lower_bound; lia|]. apply Z.div_lt_upper_bound; [lia|].
      replace (10 * 10 ^ Z.of_nat fuel) with (10 ^ Z.of_nat (S fuel)); [lia|]. rewrite Nat2Z.inj_succ, Z.pow_succ_r by lia. done. }
    destruct (IH (n / 10) ltac:(lia)) as (I1 & I2 & I3). pose proof (Z.mod_pos_bound n 10 ltac:(lia)) as Hm.
    split; [apply Forall_app; split; [done|repeat constructor; by exists (n `mod` 10)]|]. split.
    + rewrite read_digits_app by done. rewrite I2. simpl. destruct (digit_of_digit 10 _ Hm ltac:(lia)) as [-> ->].
      pose proof (Z.div_mod n 10). lia.
    + intros _. destruct I3 as (d & l & -> & Hd & Hd0). { intros ->. simpl in Hq. lia. }
      exists d, (l ++ [48 + n `mod` 10]). split; [done|]. split; [done|]. intros H0. specialize (Hd0 H0). lia.
Qed.

(** What may follow a number: no digit, and no [x] after a zero. *)
Definition ends_number (n : Z) (rest : list Z) : Prop :=
  match rest with c :: _ => digit_of 10 c = false /\ (n = 0 -> c <> 120 /\ c <> 88) | [] => True end.

Lemma digit_of_8 c : digit_of 10 c = false -> digit_of 8 c = false.
Proof. unfold digit_of. rewrite !Z.ltb_ge. lia. Qed.

Lemma count_while_stop p (rest : list Z) : match rest with c :: _ => p c = false | [] => True end -> count_while p rest = 0%nat.
Proof. destruct rest as [|c rest]; [done|]. simpl. by intros ->. Qed.

Lemma all_digits_of base l : 10 <= base -> all_digits l -> Forall (fun c => digit_of base c = true) l.
Proof. intros Hb H. refine (Forall_impl _ _ _ H _). intros c (d & -> & Hd). by apply digit_of_digit. Qed.

Lemma scan_magnitude_digits n rest :
  0 <= n < 2 ^ 64 -> ends_number n rest ->
  scan_magnitude (digits 20 n ++ rest) = (n, length (digits 20 n)).
Proof.
  intros Hn Hr. destruct (digits_ok 20 n) as (H1 & H2 & H3); [change (10 ^ Z.of_nat 20) with (10 ^ 20); lia|].
  destruct (H3 ltac:(lia)) as (d & l & E & Hd & H0).
  assert (Hs : match rest with c :: _ => digit_of 10 c = false | [] => True end) by (destruct rest; [done|apply Hr]).
  assert (Hrd : forall acc, read_digits 10 rest acc = acc) by (intros acc; destruct rest; [done|]; simpl; by rewrite Hs).
  destruct (decide (d = 0)) as [->|Hne].
  - specialize (H0 eq_refl). subst n. change (digits 20 0) with [48]. simpl.
    assert (Hx : scan_magnitude (48 :: rest) =
      let n := count_while (digit_of 8) (48 :: rest) in
      if (n =? 0)%nat then (0, 0%nat) else (read_digits 8 (48 :: rest) 0, (0 + n)%nat)).
    { unfold scan_magnitude. destruct rest as [|x [|d rest]]; [done..|]. destruct Hr as [_ Hr]. specialize (Hr eq_refl).
      by rewrite (proj2 (Z.eqb_neq x 120)), (proj2 (Z.eqb_neq x 88)) by tauto. }
    rewrite Hx. simpl. destruct rest as [|c rest]; [done|]. simpl. by rewrite (digit_of_8 c Hs).
  - assert (Hx : scan_magnitude (digits 20 n ++ rest) =
      let k := count_while (digit_of 10) (digits 20 n ++ rest) in
      if (k =? 0)%nat then (0, 0%nat) else (read_digits 10 (digits 20 n ++ rest) 0, (0 + k)%nat)).
    { rewrite E. unfold scan_magnitude. simpl.
      assert (Hc : d = 1 \/ d = 2 \/ d = 3 \/ d = 4 \/ d = 5 \/ d = 6 \/ d = 7 \/ d = 8 \/ d = 9) by lia.
      by repeat (destruct Hc as [->|Hc]; [done|]); subst. }
    rewrite Hx. cbv zeta. rewrite count_while_app by (by apply all_digits_of). rewrite (count_while_stop _ rest) by done.
    rewrite read_digits_app by done. rewrite H2, Hrd, Nat.add_0_r. rewrite E. done.
Qed.

Lemma split_sign_digit d l : 0 <= d < 10 -> split_sign ((48 + d) :: l) = (false, 0%nat, (48 + d) :: l).
Proof.
  intros Hd. assert (Hk : d = 0 \/ d = 1 \/ d = 2 \/ d = 3 \/ d = 4 \/ d = 5 \/ d = 6 \/ d = 7 \/ d = 8 \/ d = 9) by lia.
  by repeat (destruct Hk as [->|Hk]; [done|]); subst.
Qed.

(** No sign and no space in front of a digit. *)
Lemma scan_number_digits n rest :
  0 <= n < 2 ^ 64 -> ends_number n rest ->
  scan_number (digits 20 n ++ rest) = (false, n, length (digits 20 n))
  /\ scan_number (45 :: digits 20 n ++ rest) = (true, n, S (length (digits 20 n))).
Proof.
  intros Hn Hr. pose proof (scan_magnitude_digits n rest Hn Hr) as Hm.
  destruct (digits_ok 20 n) as (_ & _ & H3); [change (10 ^ Z.of_nat 20) with (10 ^ 20); lia|].
  destruct (H3 ltac:(lia)) as (d & l & E & Hd & _). split.
  - unfold scan_number. rewrite E in *. simpl app in *. set (L := length ((48 + d) :: l)) in *.
    assert (Hc : count_while is_space ((48 + d) :: l ++ rest) = 0%nat).
    { simpl. unfold is_space. rewrite (proj2 (Z.eqb_neq (48 + d) 32)), (proj2 (Z.leb_gt (48 + d) 13)) by lia. by rewrite andb_false_r. }
    rewrite Hc. cbn [drop]. rewrite (split_sign_digit d) by done. by rewrite Hm.
  - clear H3. set (D := digits 20 n) in *. clearbody D. unfold scan_number.
    change (count_while is_space (45 :: D ++ rest)) with 0%nat. cbn [drop].
    change (split_sign (45 :: D ++ rest)) with (true, 1%nat, D ++ rest). cbv beta iota zeta. rewrite Hm. by rewrite E.
Qed.

Lemma strtoll_text n rest :
  - 2 ^ 63 <= n < 2 ^ 63 -> ends_number n rest ->
  strtoll (text_s n ++ rest) = (n, length (text_s n), false).
Proof.
  intros Hn Hr. unfold strtoll, text_s. destruct (Z.ltb_spec n 0) as [H|H].
  - destruct (scan_number_digits (- n) rest ltac:(lia)) as [_ E]; [destruct rest; [done|]; split; [apply Hr|lia]|].
    generalize dependent (digits 20 (- n)). intros D E. cbn [app length]. rewrite E, Z.opp_involutive.
    rewrite (proj2 (Z.ltb_ge n (- 2 ^ 63))), (proj2 (Z.ltb_ge (2 ^ 63 - 1) n)) by lia. done.
  - destruct (scan_number_digits n rest ltac:(lia) Hr) as [E _]. rewrite E.
    rewrite (proj2 (Z.ltb_ge n (- 2 ^ 63))), (proj2 (Z.ltb_ge (2 ^ 63 - 1) n)) by lia. done.
Qed.

Lemma strtoull_text n rest :
  0 <= n < 2 ^ 64 -> ends_number n rest -> strtoull (text_u n ++ rest) = (n, length (text_u n), false).
Proof.
  intros Hn Hr. unfold strtoull, text_u. destruct (scan_number_digits n rest Hn Hr) as [-> _].
  rewrite (proj2 (Z.ltb_ge (2 ^ 64 - 1) n)) by lia. unfold u64. by rewrite Z.mod_small.
Qed.

Lemma length_digits fuel n : (length (digits fuel n) <= fuel)%nat.
Proof.
  revert n. induction fuel as [|fuel IH]; intros n; simpl; [lia|]. destruct (n <? 10); [simpl; lia|].
  rewrite length_app. specialize (IH (n / 10)). simpl. lia.
Qed.

Lemma length_text_s n : (length (text_s n) <= 21)%nat.
Proof.
  unfold text_s. pose proof (length_digits 20 (- n)) as H1. pose proof (length_digits 20 n) as H2.
  generalize dependent (digits 20 (- n)). generalize dependent (digits 20 n). intros D1 ? D2 ?.
  destruct (n <? 0); [cbn [length]|]; lia.
Qed.

Lemma ends_number_take n k rest : ends_number n rest -> ends_number n (take k rest).
Proof. destruct k, rest; done. Qed.

(** A text that starts with neither a blank nor the end of the string, after some blanks. *)
Lemma skip_blanks sp c l :
  c <> 32 -> count_while (fun c => c =? 32) (replicate sp 32 ++ c :: l) = sp /\ drop sp (replicate sp 32 ++ c :: l) = c :: l.
Proof.
  intros Hc. split; [|by rewrite drop_app_length' by (by rewrite length_replicate)].
  rewrite count_while_app by (by apply Forall_replicate). rewrite length_replicate. simpl.
  rewrite (proj2 (Z.eqb_neq c 32)) by done. lia.
Qed.

Lemma text_head n : - 2 ^ 63 <= n < 2 ^ 64 -> exists c l, text_s n = c :: l /\ c <> 32.
Proof.
  intros Hn. unfold text_s. destruct (Z.ltb_spec n 0); [by exists 45, (digits 20 (- n))|].
  destruct (digits_ok 20 n) as (_ & _ & H3); [change (10 ^ Z.of_nat 20) with (10 ^ 20); lia|].
  destruct (H3 ltac:(lia)) as (d & l & -> & Hd & _). exists (48 + d), l. split; [done|lia].
Qed.

Lemma text_u_s n : 0 <= n -> text_u n = text_s n.
Proof. intros H. unfold text_u, text_s. destruct (Z.ltb_spec n 0); [lia|done]. Qed.

Lemma take_text n rest : take 63 (text_s n ++ rest) = text_s n ++ take (63 - length (text_s n)) rest.
Proof. rewrite take_app, take_ge; [done|]. pose proof (length_text_s n). lia. Qed.

(** What the solver prints it reads back: after any number of blanks, [strntoll] finds the
    number "%lld" wrote and the place where it ends, whatever follows, as long as that cannot
    be taken for another digit; [strntoull] does the same for "%llu".  The extreme values
    are the exception: they are refused when an earlier call has left [ERANGE] in [errno]. *)
Theorem number_roundtrip erange n sp rest :
  - 2 ^ 63 <= n < 2 ^ 64 -> ends_number n rest ->
  (n < 2 ^ 63 -> erange = false \/ n <> - 2 ^ 63 /\ n <> 2 ^ 63 - 1 ->
   strntoll erange (replicate sp 32 ++ text_s n ++ rest) = Some (n, (sp + length (text_s n))%nat))
  /\ (0 <= n -> erange = false \/ n <> 2 ^ 64 - 1 ->
      strntoull erange (replicate sp 32 ++ text_u n ++ rest) = Some (n, (sp + length (text_u n))%nat)).
Proof.
  intros Hn Hr. destruct (text_head n Hn) as (c & l & E & Hc). destruct (skip_blanks sp c (l ++ rest) Hc) as [Es Ed].
  pose proof (take_text n rest) as Ht. pose proof (ends_number_take n (63 - length (text_s n)) rest Hr) as Hr'. split.
  - intros H Hx. pose proof (strtoll_text n _ ltac:(lia) Hr') as Hv. rewrite <- Ht in Hv. rewrite E in *.
    unfold strntoll. cbn [app] in *. rewrite Es, Ed, Hv. cbn [orb].
    destruct Hx as [->|[H1 H2]]; [by rewrite andb_false_r|].
    by rewrite (proj2 (Z.eqb_neq _ _) H1), (proj2 (Z.eqb_neq _ _) H2).
  - intros H Hx. rewrite text_u_s by done. pose proof (strtoull_text n _ ltac:(lia) Hr') as Hv.
    rewrite text_u_s in Hv by done. rewrite <- Ht in Hv. rewrite E in *.
    unfold strntoull. cbn [app] in *. rewrite Es, Ed, Hv. cbn [orb].
    destruct Hx as [->|H1]; [by rewrite andb_false_r|]. by rewrite (proj2 (Z.eqb_neq _ _) H1).
Qed.

Lemma number_roundtrip_witness :
  ends_number (-42) [44; 55] /\ strntoll true (replicate 2 32 ++ text_s (-42) ++ [44; 55]) = Some (-42, 5%nat).
Proof.
  assert (H : ends_number (-42) [44; 55]) by (split; [done|lia]). split; [exact H|].
  exact (proj1 (number_roundtrip true (-42) 2 [44; 55] ltac:(lia) H) ltac:(lia) ltac:(lia)).
Defined.
