(* ===== verification/FloatBits.v ===== *)
(** * The floats of the solver (src/aflplusplus/src/afl-fuzz-redqueen.c)

    For comparisons of floats [cmp_extend_encoding] reads the operand as a float or a double,
    adds or subtracts 1.0 or narrows it, and uses the bits of the result.  These are the C
    operations on IEEE 754 formats, with the arithmetic of [SpecFloat] and round to nearest;
    a NaN becomes quiet and keeps its payload, as the instructions of x86-64 and AArch64
    have it. *)
From Stdlib Require Import Floats.SpecFloat.
From S2P Require Import Prelude.

Section format.
(** Bits of the significand, the hidden one included, and the exponent of the infinities. *)
Context (prec emax : Z).

(** The bits of a number are a sign, an exponent field and [prec - 1] bits of significand. *)
Definition exp_field (x : Z) : Z := (x ≫ (prec - 1)) `mod` (2 * emax).
Definition sig_field (x : Z) : Z := x `mod` 2 ^ (prec - 1).
Definition sign_field (x : Z) : bool := Z.testbit (x ≫ (prec - 1)) (1 + Z.log2 emax).

Definition is_nan (x : Z) : bool := (exp_field x =? 2 * emax - 1) && negb (sig_field x =? 0).

Definition of_bits (x : Z) : spec_float :=
  let s := sign_field x in
  let e := exp_field x in
  let m := sig_field x in
  if e =? 2 * emax - 1 then if m =? 0 then S754_infinity s else S754_nan
  else if e =? 0 then
    match m with Zpos p => S754_finite s p (emin prec emax) | _ => S754_zero s end
  else
    match m + 2 ^ (prec - 1) with Zpos p => S754_finite s p (e - 1 + emin prec emax) | _ => S754_nan end.

Definition join_bits (s : bool) (e m : Z) : Z :=
  m + (e + (if s then 2 * emax else 0)) * 2 ^ (prec - 1).

Definition to_bits (f : spec_float) : Z :=
  match f with
  | S754_zero s => join_bits s 0 0
  | S754_infinity s => join_bits s (2 * emax - 1) 0
  | S754_nan => join_bits false (2 * emax - 1) (2 ^ (prec - 2))
  | S754_finite s p e =>
      if Zpos p <? 2 ^ (prec - 1) then join_bits s 0 (Zpos p)
      else join_bits s (e - emin prec emax + 1) (Zpos p - 2 ^ (prec - 1))
  end.
End format.

Definition double_of_bits := of_bits 53 1024.
Definition double_to_bits := to_bits 53 1024.
Definition float_of_bits := of_bits 24 128.
Definition float_to_bits := to_bits 24 128.

(** Conversion to the format [prec], [emax] *)
Definition round_to (prec emax : Z) (f : spec_float) : spec_float :=
  match f with S754_finite s m e => binary_normalize prec emax (cond_Zopp s (Zpos m)) e s | f => f end.

(** [double g = *f; g += d;] *)
Definition double_add (d : spec_float) (x : Z) : Z :=
  if is_nan 53 1024 x then Z.lor x (2 ^ 51) else double_to_bits (SFadd 53 1024 (double_of_bits x) d).

(** [float g = *f; g += d;]: the sum is a double, rounded to a float by the assignment *)
Definition float_add (d : spec_float) (x : Z) : Z :=
  if is_nan 24 128 x then Z.lor x (2 ^ 22)
  else float_to_bits (round_to 24 128 (SFadd 53 1024 (round_to 53 1024 (float_of_bits x)) d)).

(** [float g = ( float )*f;] *)
Definition double_to_float (x : Z) : Z :=
  if is_nan 53 1024 x then
    join_bits 24 128 (sign_field 53 1024 x) 255 (Z.lor (2 ^ 22) (sig_field 53 x ≫ 29))
  else float_to_bits (round_to 24 128 (double_of_bits x)).

(** 1.0 and -1.0 *)
Definition one : spec_float := SFone 53 1024.
Definition minus_one : spec_float := SFopp one.

(** ** Nothing is lost by reading the bits of a number *)

Section roundtrip.
Context (p k : Z).
Hypothesis (Hp : 2 <= p) (Hk : 1 <= k).
Let prec := p.
Let emax := 2 ^ k.

Lemma fields x :
  0 <= x < 2 ^ (p + k + 1) ->
  join_bits prec emax (sign_field prec emax x) (exp_field prec emax x) (sig_field prec x) = x.
Proof using Hp Hk.
  intros Hx. unfold join_bits, sign_field, exp_field, sig_field, prec, emax.
  rewrite Z.log2_pow2 by lia. rewrite Z.shiftr_div_pow2 by lia. set (q := x / 2 ^ (p - 1)).
  assert (Hq : 0 <= q < 2 * (2 * 2 ^ k)).
  { split; [apply Z.div_pos; lia|]. apply Z.div_lt_upper_bound; [lia|].
    replace (2 ^ (p - 1) * (2 * (2 * 2 ^ k))) with (2 ^ (p + k + 1)); [lia|].
    replace (p + k + 1) with ((p - 1) + (2 + k)) by lia. rewrite !Z.pow_add_r by lia. lia. }
  assert (Hs : (if Z.testbit q (1 + k) then 2 * 2 ^ k else 0) = q - q `mod` (2 * 2 ^ k)).
  { rewrite Z.testbit_eqb by lia. replace (2 ^ (1 + k)) with (2 * 2 ^ k) by (rewrite Z.pow_add_r; lia).
    set (d := 2 * 2 ^ k) in *. pose proof (Z.div_mod q d ltac:(lia)) as E.
    pose proof (Z.mod_pos_bound q d ltac:(lia)) as Hm.
    assert (Hqd : q / d = 0 \/ q / d = 1) by (clear Hp; nia).
    destruct Hqd as [Hqd|Hqd]; rewrite Hqd in *; simpl; lia. }
  rewrite Hs. replace (q `mod` (2 * 2 ^ k) + (q - q `mod` (2 * 2 ^ k))) with q by lia.
  pose proof (Z.div_mod x (2 ^ (p - 1))). unfold q. lia.
Qed.

Lemma to_of_bits x :
  0 <= x < 2 ^ (p + k + 1) -> is_nan prec emax x = false -> to_bits prec emax (of_bits prec emax x) = x.
Proof using Hp Hk.
  intros Hx Hn. pose proof (fields x Hx) as Hf. unfold is_nan in Hn. unfold of_bits.
  assert (Hm : 0 <= sig_field prec x < 2 ^ (prec - 1)) by (apply Z.mod_pos_bound; unfold prec; lia).
  assert (He : 0 <= exp_field prec emax x).
  { apply Z.mod_pos_bound. unfold emax. lia. }
  set (m := sig_field prec x) in *. set (e := exp_field prec emax x) in *. set (s := sign_field prec emax x) in *.
  destruct (Z.eqb_spec e (2 * emax - 1)) as [E|_].
  - simpl in Hn. apply negb_false_iff in Hn. rewrite Hn. apply Z.eqb_eq in Hn. simpl. congruence.
  - destruct (Z.eqb_spec e 0) as [E|E].
    + destruct m as [|q|q] eqn:Eq; [simpl; congruence| |lia]. simpl.
      rewrite (proj2 (Z.ltb_lt _ _)) by lia. congruence.
    + destruct (m + 2 ^ (prec - 1)) as [|q|q] eqn:Eq; [lia| |lia]. simpl.
      rewrite (proj2 (Z.ltb_ge _ _)) by lia.
      replace (Zpos q - 2 ^ (prec - 1)) with m by lia.
      by replace (e - 1 + emin prec emax - emin prec emax + 1) with e by lia.
Qed.
End roundtrip.

Example float_increment : float_add one 0x3fc00000 = 0x40200000.   (* 1.5f + 1.0 = 2.5f *)
Proof. reflexivity. Qed.
Example double_decrement : double_add minus_one 0x3ff8000000000000 = 0x3fe0000000000000.   (* 1.5 - 1.0 = 0.5 *)
Proof. reflexivity. Qed.
Example narrow_tenth : double_to_float 0x3fb999999999999a = 0x3dcccccd.   (* ( float )0.1 *)
Proof. reflexivity. Qed.
