(* ===== verification/Its.v ===== *)
(** * The input-to-state solver: state and effects (src/aflplusplus/src/afl-fuzz-redqueen.c)

    [cmp_fuzz] and [rtn_fuzz] overwrite parts of the colored input [buf] with the operands
    of the comparisons the target made, run the target ([its_fuzz]) and put the old bytes
    back.  Their programs are written in the monad [I]: a step returns, stops the whole
    stage ([return 1]), or reads or writes outside a buffer ([IOob]); a recursion that runs
    out of fuel is [IFuel].  The theorems show that neither of the last two happens. *)
From S2P Require Import Prelude OneHelpers Rng DetStages ExtrasStages.

(** ** Constants *)

Definition IS_EQUAL : Z := 1.
Definition IS_GREATER : Z := 2.
Definition IS_LESSER : Z := 4.
Definition IS_FP : Z := 8.
Definition IS_FP_MOD : Z := 16.
Definition IS_INT_MOD : Z := 32.
Definition IS_TRANSFORM : Z := 64.

Definition LVL1 : Z := 1.
Definition LVL2 : Z := 2.
Definition LVL3 : Z := 4.

(** What C and the environment leave open: the theorems hold whatever it is. *)
Class Unspecified (W : Type) := {
  (** does [errno] hold [ERANGE] after a run of the target? *)
  errno_after : W -> bool;
  (** the bytes of fresh memory *)
  fresh : nat -> Z;
  (** [(u128)x >> n] when [n] is 128 or more *)
  shr_over : Z -> Z -> Z;
}.

(** ** State *)

(** [buf] and [cbuf]; [*status]; whether [errno] is [ERANGE]; [afl->out_scratch_buf];
    [afl->stage_cur]; the rest of the fuzzer; the inputs run so far. *)
Record its (W : Type) := Its {
  i_buf : list Z;
  i_cbuf : list Z;
  i_status : Z;
  i_erange : bool;
  i_scratch : list Z;
  i_cur : Z;
  i_world : W;
  i_runs : list (list Z);
}.
Arguments Its {W}.
Arguments i_buf {W}. Arguments i_cbuf {W}. Arguments i_status {W}. Arguments i_erange {W}.
Arguments i_scratch {W}. Arguments i_cur {W}. Arguments i_world {W}. Arguments i_runs {W}.

Inductive its_out (W A : Type) :=
| IRet (a : A) (s : its W)
| IStop (s : its W)
| IOob
| IFuel.
Arguments IRet {W A}. Arguments IStop {W A}. Arguments IOob {W A}. Arguments IFuel {W A}.

Definition I (W A : Type) : Type := its W -> its_out W A.

#[export] Instance I_ret W : MRet (I W) := fun A a s => IRet a s.
#[export] Instance I_bind W : MBind (I W) := fun A B k m s =>
  match m s with
  | IRet a s => k a s
  | IStop s => IStop s
  | IOob => IOob
  | IFuel => IFuel
  end.

Section effects.
Context {W : Type} `{!Fuzzer W} `{!Unspecified W}.
Implicit Types (s : its W) (i : Z).

Definition ask {A} (f : its W -> A) : I W A := fun s => IRet (f s) s.
Definition change (f : its W -> its W) : I W unit := fun s => IRet tt (f s).
Definition oob {A} : I W A := fun _ => IOob.

Definition put_buf (b : list Z) s : its W :=
  Its b (i_cbuf s) (i_status s) (i_erange s) (i_scratch s) (i_cur s) (i_world s) (i_runs s).
Definition put_cbuf (b : list Z) s : its W :=
  Its (i_buf s) b (i_status s) (i_erange s) (i_scratch s) (i_cur s) (i_world s) (i_runs s).
Definition put_status (k : Z) s : its W :=
  Its (i_buf s) (i_cbuf s) k (i_erange s) (i_scratch s) (i_cur s) (i_world s) (i_runs s).
Definition put_erange (e : bool) s : its W :=
  Its (i_buf s) (i_cbuf s) (i_status s) e (i_scratch s) (i_cur s) (i_world s) (i_runs s).
Definition put_scratch (b : list Z) s : its W :=
  Its (i_buf s) (i_cbuf s) (i_status s) (i_erange s) b (i_cur s) (i_world s) (i_runs s).
Definition put_cur (k : Z) s : its W :=
  Its (i_buf s) (i_cbuf s) (i_status s) (i_erange s) (i_scratch s) k (i_world s) (i_runs s).
Definition put_world (w : W) s : its W :=
  Its (i_buf s) (i_cbuf s) (i_status s) (i_erange s) (i_scratch s) (i_cur s) w (i_runs s).

(** [its_fuzz(afl, b, len, status)], with [b] the [len] bytes that are run *)
Definition its_fuzz (b : list Z) : I W unit := fun s =>
  let orig_hit_cnt := hit_cnt (i_world s) in
  let '(w, abandon) := common_fuzz_stuff (i_world s) b in
  let s := Its (i_buf s) (i_cbuf s) (i_status s) (errno_after w) (i_scratch s) (i_cur s) w (i_runs s ++ [b]) in
  if (abandon : bool) then IStop s
  else IRet tt (put_status (if hit_cnt w =? orig_hit_cnt then 2 else 1) s).

(** [its_fuzz(afl, buf, len, status)] *)
Definition its_fuzz_buf : I W unit := b ← ask i_buf; its_fuzz b.

(** Is [*status] 1, a new find? *)
Definition found : I W bool := ask (fun s => i_status s =? 1).

(** Loads and stores of an [n]-byte value at [buf + i]; [peek] reads another buffer. *)
Definition peek (n : nat) (b : list Z) i : I W Z :=
  if decide (in_range n b i) then mret (ld n b i) else oob.
Definition load (n : nat) i : I W Z := b ← ask i_buf; peek n b i.
Definition store (n : nat) i (v : Z) : I W unit :=
  b ← ask i_buf;
  if decide (in_range n b i) then change (put_buf (st n b i v)) else oob.

(** [memcpy(dst, b + i, n)]: the bytes read *)
Definition slice (b : list Z) i (n : nat) : I W (list Z) :=
  if decide (in_range n b i) then mret (take n (drop (Z.to_nat i) b)) else oob.

(** [memcpy(buf + i, l, |l|)] and [memcpy(cbuf + i, l, |l|)] *)
Definition write_buf i (l : list Z) : I W unit :=
  b ← ask i_buf;
  if decide (in_range (length l) b i) then change (put_buf (write_at b i l)) else oob.
Definition write_cbuf i (l : list Z) : I W unit :=
  b ← ask i_cbuf;
  if decide (in_range (length l) b i) then change (put_cbuf (write_at b i l)) else oob.

(** [#ifdef CMPLOG_COMBINE if ( *status == 1) { memcpy(cbuf + i, buf + i, n); } #endif] *)
Definition combine i (n : nat) : I W unit :=
  f ← found;
  if (f : bool) then b ← ask i_buf; l ← slice b i n; write_cbuf i l else mret tt.

Definition when (c : bool) (m : I W unit) : I W unit := if c then m else mret tt.
(** [if ( *status != 1) m] *)
Definition unless_found (m : I W unit) : I W unit := f ← found; when (negb f) m.
End effects.

(** ** Programs that put the input back *)

Section logic.
Context {W : Type} `{!Fuzzer W} `{!Unspecified W}.
Implicit Types (s : its W).

(** From [s] to [s'] only inputs [good] were run. *)
Definition ran (good : list Z -> Prop) s s' : Prop :=
  exists new, i_runs s' = i_runs s ++ new /\ Forall good new.

#[export] Instance ran_preorder good : PreOrder (ran good).
Proof.
  split; [intros s; exists []; by rewrite app_nil_r|].
  intros s1 s2 s3 (n1 & E1 & H1) (n2 & E2 & H2). exists (n1 ++ n2).
  split; [by rewrite E2, E1, app_assoc|by apply Forall_app].
Qed.

Lemma ran_weaken (good good' : list Z -> Prop) s s' : (forall b, good b -> good' b) -> ran good s s' -> ran good' s s'.
Proof. intros H (n & E & Hn). exists n. split; [done|]. refine (Forall_impl _ _ _ Hn H). Qed.

(** Some run asks to stop. *)
Definition may_stop : Prop := exists (w : W) b, (common_fuzz_stuff w b).2 = true.

(** Run from a state with the input [b] and a large enough [cbuf], [m] stays inside the
    buffers, runs only [good] inputs, and ends with the input [b] unless a run asks to stop. *)
Definition restores (b : list Z) (cap : nat) (good : list Z -> Prop) {A} (m : I W A) : Prop :=
  forall s, i_buf s = b -> length (i_cbuf s) = cap ->
  match m s with
  | IRet _ s' => i_buf s' = b /\ length (i_cbuf s') = cap /\ ran good s s'
  | IStop s' => ran good s s' /\ may_stop
  | IOob | IFuel => False
  end.

Context (b : list Z) (cap : nat) (good : list Z -> Prop).

Lemma restores_ret {A} (a : A) : restores b cap good (mret a).
Proof. intros s Hb Hc. done. Qed.

Lemma restores_bind {A B} (m : I W A) (k : A -> I W B) :
  restores b cap good m -> (forall a, restores b cap good (k a)) -> restores b cap good (m ≫= k).
Proof.
  intros Hm Hk s Hb Hc. specialize (Hm s Hb Hc). unfold mbind, I_bind.
  destruct (m s) as [a s'|s'| |]; [|done..]. destruct Hm as (Hb' & Hc' & Hr). specialize (Hk a s' Hb' Hc').
  destruct (k a s') as [a' s''|s''| |]; [|destruct Hk as [? ?]; split; [by etrans|done]|done..]. destruct Hk as (? & ? & ?). split_and!; [done..|by etrans].
Qed.

(** With what is known of the value returned *)
Lemma restores_bind_val {A B} (V : A -> Prop) (m : I W A) (k : A -> I W B) :
  restores b cap good m -> (forall s a s', m s = IRet a s' -> V a) -> (forall a, V a -> restores b cap good (k a)) ->
  restores b cap good (m ≫= k).
Proof.
  intros Hm HV Hk s Hb Hc. specialize (Hm s Hb Hc). unfold mbind, I_bind.
  destruct (m s) as [a s'|s'| |] eqn:E; [|done..]. destruct Hm as (Hb' & Hc' & Hr). specialize (Hk a (HV _ _ _ E) s' Hb' Hc').
  destruct (k a s') as [a' s''|s''| |]; [|destruct Hk as [? ?]; split; [by etrans|done]|done..].
  destruct Hk as (? & ? & ?). split_and!; [done..|by etrans].
Qed.

(** Another account of the same runs. *)
Lemma restores_weaken (good' : list Z -> Prop) {A} (m : I W A) :
  (forall x, good' x -> good x) -> restores b cap good' m -> restores b cap good m.
Proof.
  intros Hg H s Hb Hc. specialize (H s Hb Hc). destruct (m s) as [a s'|s'| |]; [|destruct H as [H ?]; split; [|done]|done..].
  - destruct H as (? & ? & ?). split_and!; [done..|by apply (ran_weaken good')].
  - by apply (ran_weaken good').
Qed.

Lemma restores_ask {A} (f : its W -> A) : restores b cap good (ask f).
Proof. intros s Hb Hc. done. Qed.

(** The value asked for is that of a state with the input [b]. *)
Lemma restores_ask_bind {A B} (f : its W -> A) (k : A -> I W B) :
  (forall s, i_buf s = b -> length (i_cbuf s) = cap -> restores b cap good (k (f s))) ->
  restores b cap good (ask f ≫= k).
Proof. intros H s Hb Hc. apply (H s Hb Hc s Hb Hc). Qed.

Lemma restores_change f :
  (forall s, i_buf (f s) = i_buf s /\ i_cbuf (f s) = i_cbuf s /\ i_runs (f s) = i_runs s) ->
  restores b cap good (change f).
Proof.
  intros H s Hb Hc. simpl. destruct (H s) as (-> & -> & E). split_and!; [done..|]. exists []. by rewrite E, app_nil_r.
Qed.

Lemma restores_if (c : bool) {A} (m1 m2 : I W A) :
  (c = true -> restores b cap good m1) -> (c = false -> restores b cap good m2) ->
  restores b cap good (if c then m1 else m2).
Proof. destruct c; auto. Qed.

Lemma restores_when (c : bool) (m : I W unit) :
  (c = true -> restores b cap good m) -> restores b cap good (when c m).
Proof. intros H. apply restores_if; [done|]. intros _. apply restores_ret. Qed.

Lemma restores_unless (m : I W unit) : restores b cap good m -> restores b cap good (unless_found m).
Proof. intros H. apply restores_bind; [apply restores_ask|]. intros f. by apply restores_when. Qed.

Lemma restores_peek n b' i : in_range n b' i -> restores b cap good (peek n b' i).
Proof. intros H. unfold peek. rewrite decide_True by done. apply restores_ret. Qed.

Lemma restores_load n i : in_range n b i -> restores b cap good (load n i).
Proof. intros H. apply restores_ask_bind. intros s -> _. by apply restores_peek. Qed.

Lemma restores_fuzz b' : good b' -> restores b cap good (its_fuzz b').
Proof.
  intros H s Hb Hc. unfold its_fuzz. destruct (common_fuzz_stuff (i_world s) b') as [w [|]] eqn:E; simpl.
  - split; [exists [b']; split; [done|by repeat constructor]|]. exists (i_world s), b'. by rewrite E.
  - split_and!; [done..|]. exists [b']. split; [done|by repeat constructor].
Qed.

(** A step that leaves the input and the runs alone. *)
Definition quiet (b' : list Z) (m : I W unit) : Prop :=
  forall s, i_buf s = b' -> length (i_cbuf s) = cap ->
  exists s', m s = IRet tt s' /\ i_buf s' = b' /\ length (i_cbuf s') = cap /\ i_runs s' = i_runs s.

Lemma quiet_write_cbuf b' i l : (length b' <= cap)%nat -> in_range (length l) b' i -> quiet b' (write_cbuf i l).
Proof.
  intros Hcap Hi s Hb Hc. unfold in_range in Hi. unfold write_cbuf, ask, mbind, I_bind.
  rewrite decide_True by (unfold in_range; lia). eexists. split; [done|]. simpl. split_and!; [done| |done].
  rewrite length_write_at; [done|]. unfold in_range. lia.
Qed.

Lemma quiet_when b' (c : bool) m : quiet b' m -> quiet b' (when c m).
Proof. intros H s Hb Hc. destruct c; [by apply H|by eexists]. Qed.

Lemma quiet_found b' (k : bool -> I W unit) : (forall f, quiet b' (k f)) -> quiet b' (found ≫= k).
Proof. intros H s Hb Hc. by apply H. Qed.

Lemma quiet_combine b' i n : (length b' <= cap)%nat -> in_range n b' i -> quiet b' (combine i n).
Proof.
  intros Hcap Hi. apply quiet_found. intros [|]; [|by eexists].
  intros s Hb Hc. unfold mbind at 1, I_bind at 1, ask. rewrite Hb. unfold slice. rewrite decide_True by done.
  apply quiet_write_cbuf; [done| |done|done]. unfold in_range in *. rewrite length_take, length_drop. lia.
Qed.

(** Overwrite a part of the input ([m]), run, keep what was found in [cbuf] ([k]), put the
    old bytes back ([m']): the pattern of every attempt. *)
Lemma restores_attempt b' (m k m' : I W unit) :
  good b' -> length b' = length b -> quiet b' k ->
  (forall s, i_buf s = b -> m s = IRet tt (put_buf b' s)) ->
  (forall s, i_buf s = b' -> m' s = IRet tt (put_buf b s)) ->
  restores b cap good (m ;; its_fuzz_buf ;; k ;; m').
Proof.
  intros Hg Hl Hk Hm Hm' s Hb Hc. unfold its_fuzz_buf, ask, its_fuzz, mbind, I_bind. rewrite (Hm s Hb). simpl.
  destruct (common_fuzz_stuff (i_world s) b') as [w [|]] eqn:E; simpl.
  { split; [exists [b']; split; [done|by repeat constructor]|]. exists (i_world s), b'. by rewrite E. }
  match goal with |- context [k ?x] => destruct (Hk x eq_refl Hc) as (s2 & -> & B2 & C2 & R2) end.
  rewrite (Hm' s2 B2). simpl. split_and!; [done..|]. exists [b']. simpl in *. split; [done|by repeat constructor].
Qed.

Lemma load_bind {B} n i (k : Z -> I W B) s : in_range n (i_buf s) i -> (load n i ≫= k) s = k (ld n (i_buf s) i) s.
Proof. intros H. unfold load, peek, ask, mbind, I_bind. by rewrite decide_True by done. Qed.

Lemma peek_bind {B} n b' i (k : Z -> I W B) s : in_range n b' i -> (peek n b' i ≫= k) s = k (ld n b' i) s.
Proof. intros H. unfold peek, mbind, I_bind. by rewrite decide_True by done. Qed.

Lemma store_run n i v s : in_range n (i_buf s) i -> store n i v s = IRet tt (put_buf (st n (i_buf s) i v) s).
Proof. intros H. unfold store, mbind, I_bind, ask. by rewrite decide_True by done. Qed.

Lemma write_buf_run i l s : in_range (length l) (i_buf s) i -> write_buf i l s = IRet tt (put_buf (write_at (i_buf s) i l) s).
Proof. intros H. unfold write_buf, mbind, I_bind, ask. by rewrite decide_True by done. Qed.

(** With an [n]-byte value *)
Lemma restores_try n i v :
  Forall byte_ok b -> in_range n b i -> (length b <= cap)%nat -> good (st n b i v) ->
  restores b cap good (store n i v ;; its_fuzz_buf ;; combine i n ;; store n i (ld n b i)).
Proof.
  intros Hok Hi Hcap Hg. pose proof (length_st n b i v Hi) as Hl.
  assert (Hi' : in_range n (st n b i v) i) by (unfold in_range in *; lia).
  apply (restores_attempt (st n b i v)); [done|done|apply quiet_combine; [lia|done]|..]; intros s Hb.
  - by rewrite store_run, Hb by (by rewrite Hb).
  - by rewrite store_run, Hb, st_st, st_ld by (by rewrite ?Hb).
Qed.

(** The attempt has run its input, when it ends. *)
Lemma attempt_runs n i v v' s s' :
  in_range n b i -> i_buf s = b -> length (i_cbuf s) = cap -> (length b <= cap)%nat ->
  (store n i v ;; its_fuzz_buf ;; combine i n ;; store n i v') s = IRet tt s' -> st n b i v ∈ i_runs s'.
Proof.
  intros Hi Hb Hc Hcap. pose proof (length_st n b i v Hi) as Hl.
  assert (Hi' : in_range n (st n b i v) i) by (unfold in_range in *; lia).
  unfold its_fuzz_buf, ask, its_fuzz, mbind, I_bind. rewrite store_run, Hb by (by rewrite Hb). simpl.
  destruct (common_fuzz_stuff (i_world s) (st n b i v)) as [w [|]]; [done|]. simpl.
  match goal with |- context [combine i n ?x] => destruct (quiet_combine (st n b i v) i n ltac:(lia) Hi' x eq_refl Hc) as (s2 & -> & B2 & C2 & R2) end.
  rewrite store_run, B2 by (by rewrite B2). intros [= <-]. simpl in *. rewrite R2.
  apply elem_of_app. right. by apply list_elem_of_singleton.
Qed.

(** With a string *)
Lemma restores_try_bytes i l k :
  in_range (length l) b i -> good (write_at b i l) -> quiet (write_at b i l) k ->
  restores b cap good (write_buf i l ;; its_fuzz_buf ;; k ;; write_buf i (take (length l) (drop (Z.to_nat i) b))).
Proof.
  intros Hi Hg Hk. pose proof (length_write_at b i l Hi) as Hl. unfold in_range in Hi.
  assert (Hlt : length (take (length l) (drop (Z.to_nat i) b)) = length l) by (rewrite length_take, length_drop; lia).
  apply (restores_attempt (write_at b i l)); [done..| |]; intros s Hb.
  - by rewrite write_buf_run, Hb by (rewrite Hb; unfold in_range; lia).
  - rewrite write_buf_run, Hb by (rewrite Hb; unfold in_range; lia). do 2 f_equal.
    unfold write_at. rewrite Hlt. rewrite take_app_length' by (rewrite length_take; lia).
    rewrite drop_app_ge by (rewrite length_take; lia). rewrite length_take.
    replace (Z.to_nat i + length l - Z.to_nat i `min` length b)%nat with (length l) by lia.
    rewrite drop_app_length. by rewrite <- drop_drop, take_drop, take_drop.
Qed.

Lemma slice_run (b' : list Z) i n s : in_range n b' i -> slice b' i n s = IRet (take n (drop (Z.to_nat i) b')) s.
Proof. intros Hi. unfold slice. by rewrite decide_True by done. Qed.

Lemma slice_bind {B} (b' : list Z) i n (k : list Z -> I W B) :
  in_range n b' i -> restores b cap good (k (take n (drop (Z.to_nat i) b'))) -> restores b cap good (slice b' i n ≫= k).
Proof. intros Hi H. unfold slice. by rewrite decide_True by done. Qed.
End logic.

Create HintDb its discriminated.
#[export] Hint Resolve @restores_ret @restores_ask : its.
