(* ===== verification/CmpLog.v ===== *)
(** * Solving comparisons (src/aflplusplus/src/afl-fuzz-redqueen.c, cmp_fuzz)

    [cmp_fuzz] takes the operands of one compare instruction, as the target logged them on
    the original and on the colored input, looks for the bytes of one operand in the tainted
    parts of the input, and tries the other operand in their place: as it is and with the
    bytes reversed ([cmp_extend_encoding], [cmp_extend_encodingN]), as decimal text, undone
    through a guessed transformation (addition, xor, case), and off by one for inequalities.
    Operands it could not find go to the dictionary ([try_to_add_to_dict]). *)
From S2P Require Import Prelude OneHelpers Rng DetStages ExtrasStages Colorize NumText FloatBits Its.

Definition s64 (z : Z) : Z := (z + 2 ^ 63) `mod` 2 ^ 64 - 2 ^ 63.

Definition SWAP64 (x : Z) : Z :=
  let ret := u64 x in
  let ret := Z.lor (u64 (Z.land ret 0x00000000FFFFFFFF ≪ 32)) (Z.land ret 0xFFFFFFFF00000000 ≫ 32) in
  let ret := Z.lor (u64 (Z.land ret 0x0000FFFF0000FFFF ≪ 16)) (Z.land ret 0xFFFF0000FFFF0000 ≫ 16) in
  Z.lor (u64 (Z.land ret 0x00FF00FF00FF00FF ≪ 8)) (Z.land ret 0xFF00FF00FF00FF00 ≫ 8).

Section swapn.
Context {W : Type} `{!Unspecified W}.

(** [ret >> n] on 128 bits *)
Definition shr128 (ret n : Z) : Z := if n <? 128 then ret ≫ n else shr_over (W:=W) ret n.

(** [128U - ((l) << 3U)] *)
Definition SWAPN_shift (l : Z) : Z := u32 (128 - u32 (l ≪ 3)).

Definition SWAPN (x l : Z) : Z := shr128 (le_word (reverse (word_le 16 x))) (SWAPN_shift l).
End swapn.

(** ** One operand at one place *)

Section encoding.
Context {W : Type} `{!Fuzzer W} `{!Unspecified W}.
(** [afl->cmplog_enable_transform], [afl->cmplog_enable_arith], [afl->queue_cur->is_ascii] *)
Context (transform arith is_ascii : bool).
Context (orig_buf : list Z) (lvl idx taint_len len : Z).

Definition its_len : Z := Z.min (u32 (len - idx)) taint_len.

(** The low [n] bytes of a value *)
Definition low (n : nat) (x : Z) : Z := x `mod` 2 ^ (8 * Z.of_nat n).

(** [if (its_len >= n && (( *buf_n == pattern && *o_buf_n == o_pattern) || attr >= IS_FP_MOD)) ...] *)
Definition try_word (n : nat) (pattern repl o_pattern attr : Z) : I W unit :=
  if its_len <? Z.of_nat n then mret tt
  else
    x ← load n idx;
    o ← peek n orig_buf idx;
    when (((x =? low n pattern) && (o =? low n o_pattern)) || (IS_FP_MOD <=? attr))
      (tmp ← load n idx;
       store n idx (low n repl);;
       its_fuzz_buf;;
       combine idx n;;
       store n idx tmp).

(** The input with the decimal text [num] in place of the [old_len] characters at [idx],
    put together in the scratch buffer, and run with the old length. *)
Definition try_number (num : list Z) (old_len : nat) : I W unit :=
  b ← ask i_buf;
  scratch ← ask i_scratch;
  if len - idx <? Z.of_nat old_len then oob
  else
  let at_ := Z.to_nat idx in
  let size := (Z.to_nat len + length num)%nat in
  let new_buf := scratch ++ map fresh (seq (length scratch) (size - length scratch)) in
  let text := take at_ b ++ num ++ drop (at_ + old_len) b in
  let new_buf := text ++ drop (length text) new_buf in
  let next := (at_ + length num)%nat in
  let c := nth next new_buf 0 in
  let new_buf := if (48 <=? c) && (c <=? 57) then <[next := 32]> new_buf else new_buf in
  change (put_scratch new_buf);;
  its_fuzz (take (Z.to_nat len) new_buf).

(** Reverse [atoi()] and [strtoull()] *)
Definition solve_number (pattern repl : Z) : I W unit :=
  when is_ascii
    (b ← ask i_buf;
     e ← ask i_erange;
     let text := take (Z.to_nat (len - idx)) (drop (Z.to_nat idx) b) in
     match strntoll e text with
     | Some (num, old_len) =>
         when ((u64 num =? pattern) || (num =? 0)) (try_number (text_s (s64 repl)) old_len)
     | None =>
         (* the failed call has left [ERANGE] in [errno], unless the text was all blanks *)
         match strntoull true text with
         | Some (unum, old_len) =>
             change (put_erange true);;
             when ((unum =? pattern) || (unum =? 0)) (try_number (text_u repl) old_len)
         | None => when (negb (forallb (fun c => c =? 32) text)) (change (put_erange true))
         end
     end).

(** How many bytes the transformations are guessed on *)
Definition transform_bytes (hshape : Z) : Z :=
  let bytes :=
    if (hshape =? 0) || (hshape =? 1) then 1
    else if hshape =? 2 then 2
    else if (hshape =? 3) || (hshape =? 4) then 4
    else 8 in
  Z.min bytes (u32 (len - idx)).

Definition load_size (bytes : Z) : nat :=
  if bytes =? 0 then 0 else if bytes =? 1 then 1 else if bytes <? 4 then 2 else if bytes <? 8 then 4 else 8.

Definition TOLOWER : Z := 0x2020202020202020.
Definition TOUPPER : Z := 0x5f5f5f5f5f5f5f5f.

(** The value to try for [repl], if the input went through an addition, an xor, a change to
    lower or to upper case before it was compared; [m] is the mask of the loaded bytes. *)
Definition undo_arith (pattern repl o_pattern b_val o_b_val : Z) : option Z :=
  let diff := s64 (pattern - b_val) in
  let o_diff := s64 (o_pattern - o_b_val) in
  if (diff =? o_diff) && negb (diff =? 0) then Some (u64 (repl - diff)) else None.
Definition undo_xor (pattern repl o_pattern b_val o_b_val : Z) : option Z :=
  let diff := s64 (Z.lxor pattern b_val) in
  let o_diff := s64 (Z.lxor o_pattern o_b_val) in
  if (diff =? o_diff) && negb (diff =? 0) then Some (u64 (Z.lxor (s64 repl) diff)) else None.
Definition undo_lower (m pattern repl o_pattern b_val o_b_val : Z) : option Z :=
  if (Z.lor b_val (Z.land TOLOWER m) =? Z.land pattern m) && (Z.lor o_b_val (Z.land TOLOWER m) =? Z.land o_pattern m)
  then Some (Z.land repl (Z.land TOUPPER m)) else None.
Definition undo_upper (m pattern repl o_pattern b_val o_b_val : Z) : option Z :=
  if (Z.land b_val (Z.land TOUPPER m) =? Z.land pattern m) && (Z.land o_b_val (Z.land TOUPPER m) =? Z.land o_pattern m)
  then Some (Z.lor repl (Z.land TOLOWER m)) else None.

(** Transform [>=] to [<] and [<=] to [>] *)
Definition flip_equal (attr : Z) : Z :=
  if negb (Z.land attr IS_EQUAL =? 0) && negb (Z.land attr (Z.lor IS_GREATER IS_LESSER) =? 0)
  then if negb (Z.land attr 2 =? 0) then attr + 2 else attr - 2
  else attr.

(** The operand one up or down, for a float comparison *)
Definition next_float (hshape attr repl : Z) : option Z :=
  if negb (Z.land attr IS_GREATER =? 0) then
    if (hshape =? 4) && (4 <=? its_len) then Some (float_add one (low 4 repl))
    else if (hshape =? 8) && (8 <=? its_len) then Some (double_add one repl)
    else None
  else if hshape =? 4 then Some (float_add minus_one (low 4 repl))
  else if hshape =? 8 then Some (double_add minus_one repl)
  else None.

Definition maybe (o : option Z) (m : Z -> I W unit) : I W unit :=
  match o with Some x => m x | None => mret tt end.

(** The operand as it is and, with [reverse], reversed, in 8, 4, 2 bytes and 1 byte *)
Definition try_words (hshape pattern repl o_pattern attr : Z) (reverse : (Z -> Z) -> I W unit) : I W unit :=
  when (8 <=? hshape) (unless_found (try_word 8 pattern repl o_pattern attr;; reverse SWAP64));;
  when (4 <=? hshape) (unless_found (try_word 4 pattern repl o_pattern attr;; reverse SWAP32));;
  when (2 <=? hshape) (unless_found (try_word 2 pattern repl o_pattern attr;; reverse SWAP16));;
  unless_found (try_word 1 pattern repl o_pattern attr).

(** Try to identify transform magic; [again] tries a new value for [repl]. *)
Definition try_transforms (hshape pattern repl o_pattern : Z) (again : Z -> I W unit) : I W unit :=
  let n := load_size (transform_bytes hshape) in
  let m := 2 ^ (8 * Z.of_nat n) - 1 in
  b_val ← load n idx;
  o_b_val ← peek n orig_buf idx;
  maybe (undo_arith pattern repl o_pattern b_val o_b_val) again;;
  unless_found (maybe (undo_xor pattern repl o_pattern b_val o_b_val) again);;
  unless_found (maybe (undo_lower m pattern repl o_pattern b_val o_b_val) again);;
  unless_found (maybe (undo_upper m pattern repl o_pattern b_val o_b_val) again);;
  change (put_status 0).

(** One more and one less, for inequalities; [again] tries a value with a shape and an attribute. *)
Definition try_neighbours (hshape repl attr : Z) (again : Z -> Z -> Z -> I W unit) : I W unit :=
  if negb arith || (lvl <? LVL3) || (attr =? IS_TRANSFORM) then mret tt
  else if (Z.land attr (Z.lor IS_GREATER IS_LESSER) =? 0) || (hshape <? 4) then mret tt
  else
    let attr := flip_equal attr in
    if (IS_FP <=? attr) && (attr <? IS_FP_MOD) then
      maybe (next_float hshape attr repl) (fun repl_new =>
        again hshape repl_new 16;;
        when ((hshape =? 8) && (4 <=? its_len)) (again 4 (double_to_float repl) 16))
    else when (attr <? IS_FP)
      (again hshape (if negb (Z.land attr IS_GREATER =? 0) then u64 (repl + 1) else u64 (repl - 1)) 32).

Fixpoint cmp_extend_encoding (fuel : nat) (hshape pattern repl o_pattern changed_val attr : Z) (do_reverse : bool) : I W unit :=
  match fuel with
  | O => fun _ => IFuel
  | S fuel =>
      when (transform && negb (Z.land lvl LVL3 =? 0))
        (solve_number pattern repl;;
         when (negb (pattern =? o_pattern) && (repl =? changed_val) && (attr <=? IS_EQUAL))
           (try_transforms hshape pattern repl o_pattern (fun new_repl =>
              cmp_extend_encoding fuel hshape pattern new_repl o_pattern repl IS_TRANSFORM true)));;
      if pattern =? o_pattern then mret tt
      else
        when (negb (Z.land lvl LVL1 =? 0) || (IS_FP_MOD <=? attr))
          (try_words hshape pattern repl o_pattern attr (fun SWAP =>
             when do_reverse
               (unless_found (cmp_extend_encoding fuel hshape (SWAP pattern) (SWAP repl) (SWAP o_pattern) (SWAP changed_val) attr false))));;
        try_neighbours hshape repl attr (fun shape repl_new attr =>
          cmp_extend_encoding fuel shape pattern repl_new o_pattern repl_new attr true)
  end.

(** [memcmp(a, b, n) == 0] *)
Definition same_bytes (a b : list Z) : bool := bool_decide (a = b).

(** The operands of more than 8 bytes, or of an odd number: [u128] and [_ExtInt] *)
Fixpoint cmp_extend_encodingN (fuel : nat) (hshape pattern repl o_pattern changed_val attr : Z) (do_reverse : bool) : I W unit :=
  match fuel with
  | O => fun _ => IFuel
  | S fuel =>
      let n := Z.to_nat hshape in
      when (hshape <=? its_len)
        (b ← ask i_buf;
         x ← slice b idx n;
         p ← slice (word_le 16 pattern) 0 n;
         o_x ← slice orig_buf idx n;
         o_p ← slice (word_le 16 o_pattern) 0 n;
         when (same_bytes x p && same_bytes o_x o_p)
           (backup ← slice b idx n;
            r ← slice (word_le 16 repl) 0 n;
            write_buf idx r;;
            its_fuzz_buf;;
            f ← found;
            when f (write_cbuf idx r);;
            write_buf idx backup);;
         let SWAP x := SWAPN (W:=W) x (u32 (hshape ≪ 3)) in
         when do_reverse
           (unless_found (cmp_extend_encodingN fuel hshape (SWAP pattern) (SWAP repl) (SWAP o_pattern) (SWAP changed_val) attr false)))
  end.
End encoding.

(** ** The dictionary *)

(** check if pointer is ascii or UTF-8 *)
Definition between (lo hi c : Z) : bool := (lo <=? c) && (c <=? hi).

(** The length of the multi-byte UTF-8 sequence at the front, if there is one *)
Definition utf8_sequence (l : list Z) : option nat :=
  let tail := between 0x80 0xBF in
  match l with
  | a :: b :: l =>
      if between 0xC2 0xDF a && tail b then Some 2%nat
      else
        match l with
        | c :: l =>
            if (a =? 0xE0) && between 0xA0 0xBF b && tail c
               || (between 0xE1 0xEC a || (a =? 0xEE) || (a =? 0xEF)) && tail b && tail c
               || (a =? 0xED) && between 0x80 0x9F b && tail c
            then Some 3%nat
            else
              match l with
              | d :: _ =>
                  if (a =? 0xF0) && between 0x90 0xBF b && tail c && tail d
                     || between 0xF1 0xF3 a && tail b && tail c && tail d
                     || (a =? 0xF4) && between 0x80 0x8F b && tail c && tail d
                  then Some 4%nat else None
              | [] => None
              end
        | [] => None
        end
  | _ => None
  end.

(** The counters [ascii] and [utf8] after the loop *)
Fixpoint count_text (fuel : nat) (l : list Z) (ascii utf8 : Z) : Z * Z :=
  match fuel, l with
  | S fuel, c :: l' =>
      if (c =? 9) || (c =? 10) || (c =? 13) || between 0x20 0x7E c then count_text fuel l' (ascii + 1) (utf8 + 1)
      else
        let ascii := if (c <=? 127) then ascii + 1 else ascii in
        match utf8_sequence l with
        | Some n => count_text fuel (drop n l) ascii (utf8 + 1)
        | None => count_text fuel l' ascii utf8
        end
  | _, _ => (ascii, utf8)
  end.

Definition check_if_text_buf (buf : list Z) : Z :=
  let '(ascii, utf8) := count_text (length buf) buf 0 0 in
  u8 (if ascii <? utf8 then utf8 else ascii).

(** Two zero or two 0xff bytes, with no byte of another kind between them *)
Fixpoint dull (l : list Z) (cons_0 cons_ff : Z) : bool :=
  match l with
  | [] => false
  | b :: l =>
      let '(cons_0, cons_ff) :=
        if b =? 0 then (cons_0 + 1, cons_ff) else if b =? 0xff then (cons_0, cons_ff + 1) else (0, 0) in
      if (1 <? cons_0) || (1 <? cons_ff) then true else dull l cons_0 cons_ff
  end.

Section learning.
Context {W : Type} `{!Fuzzer W} `{!Unspecified W}.

Definition learn (l : list Z) : I W unit := fun s => IRet tt (put_world (maybe_add_auto (i_world s) l) s).

Definition try_to_add_to_dict (v shape : Z) : I W unit :=
  let bytes x := take (Z.to_nat shape) (word_le 8 x) in
  if dull (bytes v) 0 0 then mret tt
  else
    learn (bytes v);;
    if shape =? 2 then learn (bytes (SWAP16 v))
    else if shape =? 4 then learn (bytes (SWAP32 v))
    else if shape =? 8 then learn (bytes (SWAP64 v))
    else mret tt.

Definition try_to_add_to_dictN (v size : Z) : I W unit :=
  let bytes x := take (Z.to_nat size) (word_le 16 x) in
  learn (bytes v);;
  learn (bytes (SWAPN (W:=W) v size)).
End learning.

(** ** One comparison *)

(** The fields of the log that are read here; [shape] is the size minus one. *)
Record cmp_header := CmpHeader { hits : Z; shape : Z; type : Z; attribute : Z }.
Record cmp_operands := CmpOperands { v0 : Z; v1 : Z; v0_128 : Z; v1_128 : Z }.
Record afl_pass_stat := PassStat { total : Z; faileds : Z }.

Definition CMP_MAP_H : Z := 32.
Definition CMP_MAP_RTN_H : Z := CMP_MAP_H / 4.
Definition SHAPE_BYTES (x : Z) : Z := x + 1.
Definition SWAPA (x : Z) : Z := Z.land x 0xf8 + Z.lxor (Z.land x 7) 0x07.

Definition logged (h : cmp_header) (max : Z) : Z := if max <? hits h then max else hits h.

(** Is the comparison that of a loop counter? *)
Record detect := Detect {
  s_v0 : Z; s_v1 : Z;
  s_v0_fixed : bool; s_v1_fixed : bool;
  s_v0_inc : bool; s_v1_inc : bool;
  s_v0_dec : bool; s_v1_dec : bool;
}.

Definition detect_step (d : option detect) (o : cmp_operands) : option detect :=
  match d with
  | None => Some (Detect (v0 o) (v1 o) true true true true true true)
  | Some d =>
      Some (Detect (v0 o) (v1 o)
        (s_v0_fixed d && (s_v0 d =? v0 o)) (s_v1_fixed d && (s_v1 d =? v1 o))
        (s_v0_inc d && (u64 (s_v0 d + 1) =? v0 o)) (s_v1_inc d && (u64 (s_v1 d + 1) =? v1 o))
        (s_v0_dec d && (u64 (s_v0 d - 1) =? v0 o)) (s_v1_dec d && (u64 (s_v1 d - 1) =? v1 o)))
  end.

Definition is_loop (d : option detect) : bool :=
  match d with
  | None => false
  | Some d =>
      s_v0_fixed d && s_v1_inc d || s_v1_fixed d && s_v0_inc d
      || s_v0_fixed d && s_v1_dec d || s_v1_fixed d && s_v0_dec d
  end.

Section positions.
Context {W : Type} `{!Fuzzer W}.
Context (attempt : Z -> Z -> I W bool).

(** [for (idx = 0; idx < len; ++idx)] from [idx], [n] positions to go, with the tainted
    regions from [t] on in increasing order; [true] if the loop is left by [break]. *)
Fixpoint positions (n : nat) (idx : Z) (t : list tainted) : I W bool :=
  match n with
  | O => mret false
  | S n =>
      match t with
      | [] => positions n (idx + 1) t
      | r :: t' =>
          if idx <? t_pos r then positions n (idx + 1) t
          else
            let taint_len := u32 (t_pos r + t_len r - idx) in
            f ← attempt idx taint_len;
            if (f : bool) then mret true
            else positions n (idx + 1) (if idx =? u32 (t_pos r + t_len r - 1) then t' else t)
      end
  end.
End positions.

Section cmp_fuzz.
Context {W : Type} `{!Fuzzer W} `{!Unspecified W}.
Context (transform arith is_ascii : bool).
Context (orig_buf : list Z) (lvl len : Z) (h : cmp_header) (log orig_log : list cmp_operands) (taints : list tainted).

Definition hshape : Z := SHAPE_BYTES (shape h).
Definition is_n : bool := negb ((hshape =? 1) || (hshape =? 2) || (hshape =? 4) || (hshape =? 8)).

(** [((u128)v) + (((u128)v_128) << 64)] *)
Definition join128 (lo hi : Z) : Z := lo + hi * 2 ^ 64.

(** The body of the loop over the positions: both operands are looked for at [idx]. *)
Definition try_operands (o orig_o : cmp_operands) (idx taint_len : Z) : I W bool :=
  let encode := cmp_extend_encoding transform arith is_ascii orig_buf (u8 lvl) idx taint_len len 4 hshape in
  let encodeN := cmp_extend_encodingN orig_buf idx taint_len len 2 hshape in
  let s0 := join128 (v0 o) (v0_128 o) in
  let s1 := join128 (v1 o) (v1_128 o) in
  let orig_s0 := join128 (v0 orig_o) (v0_128 orig_o) in
  let orig_s1 := join128 (v1 orig_o) (v1_128 orig_o) in
  change (put_status 0);;
  when (is_n && negb (s0 =? orig_s0) && negb (orig_s0 =? orig_s1))
    (encodeN s0 s1 orig_s0 orig_s1 (attribute h) true);;
  f ← found;
  if is_n && f then mret true
  else
    when (is_n && negb (s1 =? orig_s1) && negb (orig_s1 =? orig_s0))
      (encodeN s1 s0 orig_s1 orig_s0 (SWAPA (attribute h)) true);;
    f ← found;
    if is_n && f then mret true
    else
      when ((negb (v0 o =? v0 orig_o) || (LVL3 <=? lvl)) && negb (v0 orig_o =? v1 orig_o))
        (encode (v0 o) (v1 o) (v0 orig_o) (v1 orig_o) (attribute h) true);;
      f ← found;
      if (f : bool) then mret true
      else
        change (put_status 0);;
        when ((negb (v1 o =? v1 orig_o) || (LVL3 <=? lvl)) && negb (v0 orig_o =? v1 orig_o))
          (encode (v1 o) (v0 o) (v1 orig_o) (v0 orig_o) (SWAPA (attribute h)) true);;
        found.

(** [check_if_text_buf((u8 * )&v, shape) == shape] *)
Definition all_text (bytes : list Z) : bool := check_if_text_buf bytes =? hshape.

(** We only learn 16 bit + *)
Definition learn_operands (o orig_o : cmp_operands) (found_one : bool) : I W unit :=
  when ((1 <? hshape) && (negb found_one || is_ascii))
    (if is_n then
       let n := Z.to_nat hshape in
       let s0 := join128 (v0 o) (v0_128 o) in
       let s1 := join128 (v1 o) (v1_128 o) in
       when (negb found_one || all_text (take n (word_le 16 s0))) (try_to_add_to_dictN s0 hshape);;
       when (negb found_one || all_text (take n (word_le 16 s1))) (try_to_add_to_dictN s1 hshape)
     else
       let bytes x := take (Z.to_nat hshape) (word_le 8 x) in
       when (same_bytes (bytes (v0 o)) (bytes (v0 orig_o)) && (negb found_one || all_text (bytes (v0 o))))
         (try_to_add_to_dict (v0 o) hshape);;
       when (same_bytes (bytes (v1 o)) (bytes (v1 orig_o)) && (negb found_one || all_text (bytes (v1 o))))
         (try_to_add_to_dict (v1 o) hshape)).

Definition same_operands (o o' : cmp_operands) : bool := (v0 o =? v0 o') && (v1 o =? v1 o').

(** One round of [for (i = 0; i < loggeds; ++i)], from [found_one] to [found_one]. *)
Definition cmp_entry (i : nat) (found_one : bool) : I W bool :=
  match log !! i, orig_log !! i with
  | Some o, Some orig_o =>
      found_one ←
        (if existsb (same_operands o) (take i log) then mret found_one
         else
           (* [t = taint; while (t->next) { t = t->next; }] needs a region *)
           f ← (if taints is [] then oob else positions (try_operands o orig_o) (Z.to_nat len) 0 (reverse taints));
           let found_one := found_one || f in
           learn_operands o orig_o found_one;;
           mret found_one);
      change (fun s => put_cur (u32 (i_cur s + 1)) s);;
      mret found_one
  | _, _ => oob
  end.

Fixpoint cmp_entries (todo : list nat) (found_one : bool) : I W bool :=
  match todo with
  | [] => mret found_one
  | i :: todo => f ← cmp_entry i found_one; cmp_entries todo f
  end.

(** The counters of the comparison after the loop *)
Definition update_pass (loop found_one : bool) (p : afl_pass_stat) : afl_pass_stat :=
  let p := if loop then PassStat 0xff 0xff else p in
  let p := if negb found_one && (faileds p <? 0xff) then PassStat (total p) (faileds p + 1) else p in
  if total p <? 0xff then PassStat (total p + 1) (faileds p) else p.

Definition cmp_fuzz (p : afl_pass_stat) : I W afl_pass_stat :=
  let loggeds := logged h CMP_MAP_H in
  found_one ← cmp_entries (seq 0 (Z.to_nat loggeds)) false;
  let d := fold_left detect_step (take (Z.to_nat loggeds) log) None in
  mret (update_pass ((3 <? loggeds) && is_loop d) found_one p).
End cmp_fuzz.
