(* ===== verification/CmpLogTheorems.v ===== *)
(** * What the comparison solver guarantees

    Whatever the target logged, the solver stays inside its buffers, its recursion is at
    most four deep, each input it runs is the colored input with one operand-sized window
    rewritten (or with a number in text rewritten), and the input is put back after every
    attempt; an operand found in the input is tried, unless something else was found first. *)
From S2P Require Import Prelude OneHelpers Rng DetStages ExtrasStages Colorize ColorizeTheorems NumText FloatBits Its CmpLog.

Section encoding_ok.
Context {W : Type} `{!Fuzzer W} `{!Unspecified W}.
Context (transform arith is_ascii : bool) (orig_buf b : list Z) (lvl idx taint_len len : Z) (cap : nat).

(** The inputs tried at [idx]: a window of at most 16 bytes that ends before the taint does
    is rewritten, or a number in decimal takes the place of what follows. *)
Definition solved (b' : list Z) : Prop :=
  (exists l, (0 < length l <= 16)%nat /\ Z.of_nat (length l) <= its_len idx taint_len len /\ b' = write_at b idx l)
  \/ (exists num v tail, (num = text_s (s64 v) \/ num = text_u v) /\ length b' = length b
      /\ b' = take (length b) (take (Z.to_nat idx) b ++ num ++ tail)).

Record at_position : Prop := {
  ap_bytes : Forall byte_ok b;
  ap_len : Z.of_nat (length b) = len;
  ap_orig : length orig_buf = length b;
  ap_cap : (length b <= cap)%nat;
  ap_idx : 0 <= idx < len;
  ap_u32 : len < 2 ^ 32;
  ap_taint : 0 <= taint_len;
}.

Hypothesis Hat : at_position.

Lemma its_len_bound : 0 <= its_len idx taint_len len <= len - idx.
Proof using Hat.
  destruct Hat. unfold its_len, u32. rewrite Z.mod_small by lia. lia.
Qed.

Lemma window n : Z.of_nat n <= its_len idx taint_len len -> in_range n b idx /\ in_range n orig_buf idx.
Proof using Hat. pose proof its_len_bound. destruct Hat. unfold in_range. lia. Qed.

Notation restoring := (restores b cap solved).

Lemma restores_word n pattern repl o_pattern attr :
  (0 < n <= 8)%nat -> restoring (try_word orig_buf idx taint_len len n pattern repl o_pattern attr).
Proof using Hat.
  intros Hn. unfold try_word. apply restores_if; [intros _; apply restores_ret|]. intros H. apply Z.ltb_ge in H.
  destruct (window n H) as [H1 H2]. apply restores_bind; [by apply restores_load|]. intros x.
  apply restores_bind; [by apply restores_peek|]. intros o. apply restores_when. intros _.
  intros s Hb Hc. unfold load. unfold mbind at 1. unfold I_bind at 1. unfold ask, mbind at 1, I_bind at 1.
  unfold peek. rewrite Hb, decide_True by done. simpl.
  apply (restores_try b cap solved n idx (low n repl)); [apply Hat|done|apply Hat| |done|done].
  left. exists (word_le (Z.of_nat n) (low n repl)). rewrite length_word_le by lia. split; [lia|]. split; [lia|].
  unfold st, write_at. rewrite length_word_le by lia. by rewrite Nat2Z.id.
Qed.

Lemma restores_words hshape pattern repl o_pattern attr reverse :
  (forall SWAP, restoring (reverse SWAP)) ->
  restoring (try_words orig_buf idx taint_len len hshape pattern repl o_pattern attr reverse).
Proof using Hat.
  intros Hrev. unfold try_words.
  repeat (apply restores_bind;
    [apply restores_when; intros _; apply restores_unless, restores_bind; [apply restores_word; lia|intros _; apply Hrev]|intros _]).
  apply restores_unless, restores_word. lia.
Qed.

Lemma restores_number num v old_len :
  (num = text_s (s64 v) \/ num = text_u v) -> Z.of_nat old_len <= len - idx ->
  restoring (try_number idx len num old_len).
Proof using Hat.
  intros Hnum Hold. unfold try_number. apply restores_ask_bind. intros s Hb _. rewrite Hb.
  apply restores_ask_bind. intros s' _ _. rewrite (proj2 (Z.ltb_ge _ _)) by lia. destruct Hat as [_ Hlen _ _ Hidx _ _].
  set (at_ := Z.to_nat idx). set (text := take at_ b ++ num ++ drop (at_ + old_len) b).
  set (big := i_scratch s' ++ map fresh _).
  assert (Hbig : (length b + length num <= length big)%nat).
  { subst big. rewrite length_app, length_map, length_seq. lia. }
  assert (Htext : (length text <= length b + length num)%nat /\ (at_ + length num <= length text)%nat).
  { subst text. rewrite !length_app, length_take, length_drop. lia. }
  apply restores_bind; [by apply restores_change|]. intros _. apply restores_fuzz. right.
  assert (Hpre : forall big', length big' = length big -> take (at_ + length num) big' = take at_ b ++ num ->
     exists num v tail, (num = text_s (s64 v) \/ num = text_u v) /\ length (take (Z.to_nat len) big') = length b
       /\ take (Z.to_nat len) big' = take (length b) (take at_ b ++ num ++ tail)).
  { intros big' Hl Ht. exists num, v, (drop (at_ + length num) big'). split; [done|].
    split; [rewrite length_take; lia|]. rewrite app_assoc, <- Ht, take_drop. f_equal. lia. }
  apply Hpre.
  - destruct (_ && _); rewrite ?length_insert, length_app, length_drop; lia.
  - assert (E : take (at_ + length num) (text ++ drop (length text) big) = take at_ b ++ num).
    { rewrite take_app_le by lia. subst text. rewrite app_assoc, take_app_length'; [done|].
      rewrite length_app, length_take. lia. }
    destruct (_ && _); [|done]. rewrite take_insert_ge by lia. done.
Qed.

Lemma restores_solve_number pattern repl : restoring (solve_number is_ascii idx len pattern repl).
Proof using Hat.
  apply restores_when. intros _. apply restores_ask_bind. intros s Hb _. rewrite Hb.
  apply restores_ask_bind. intros s' _ _. cbv zeta. set (text := take _ _).
  assert (Ht : Z.of_nat (length text) <= len - idx) by (subst text; rewrite length_take; destruct Hat; lia).
  destruct (strntoll (i_erange s') text) as [[num old_len]|] eqn:E1.
  - apply strntoll_end in E1. apply restores_when. intros _. apply (restores_number _ repl); [by left|lia].
  - destruct (strntoull true text) as [[unum old_len]|] eqn:E2.
    + apply strntoull_end in E2. apply restores_bind; [by apply restores_change|]. intros _.
      apply restores_when. intros _. apply (restores_number _ repl); [by right|lia].
    + apply restores_when. intros _. by apply restores_change.
Qed.

(** Attributes of the log, and those the solver adds *)
Definition attr_ok (attr : Z) : Prop := 0 <= attr < 16 \/ attr = 16 \/ attr = 32 \/ attr = 64.
Definition depth (attr : Z) (do_reverse : bool) : nat :=
  (if (attr <? 16)%Z then 2 else 0) + (if do_reverse then 2 else 1).

Lemma load_size_range hshape :
  in_range (load_size (transform_bytes idx len hshape)) b idx /\ in_range (load_size (transform_bytes idx len hshape)) orig_buf idx.
Proof using Hat.
  destruct Hat as [_ Hlen Ho _ Hidx Hu _]. set (k := transform_bytes idx len hshape).
  assert (Hk : k <= len - idx) by (subst k; unfold transform_bytes, u32; rewrite (Z.mod_small (len - idx)) by lia; lia).
  assert (Hl : 0 <= k -> Z.of_nat (load_size k) <= k).
  { intros H0. unfold load_size. destruct (Z.eqb_spec k 0); [lia|]. destruct (Z.eqb_spec k 1); [lia|].
    destruct (Z.ltb_spec k 4); [lia|]. destruct (Z.ltb_spec k 8); lia. }
  assert (H0 : 0 <= k).
  { subst k. unfold transform_bytes, u32. rewrite (Z.mod_small (len - idx)) by lia. apply Z.min_glb; [|lia].
    repeat match goal with |- context [if ?c then _ else _] => destruct c end; lia. }
  unfold in_range. lia.
Qed.

Lemma flip_equal_small attr : flip_equal attr < IS_FP_MOD -> attr_ok attr -> Z.land attr (Z.lor IS_GREATER IS_LESSER) <> 0 -> attr < 16.
Proof. intros _ [H|[-> |[-> | ->]]] Hl; [lia|exfalso; by apply Hl..]. Qed.

Lemma restores_maybe o (m : Z -> I W unit) : (forall x, restoring (m x)) -> restoring (maybe o m).
Proof using. intros H. destruct o; [apply H|apply restores_ret]. Qed.

Lemma restores_transforms hshape pattern repl o_pattern again :
  (forall x, restoring (again x)) -> restoring (try_transforms orig_buf idx len hshape pattern repl o_pattern again).
Proof using Hat.
  intros H. destruct (load_size_range hshape) as [L1 L2]. unfold try_transforms.
  apply restores_bind; [by apply restores_load|intros b_val]. apply restores_bind; [by apply restores_peek|intros o_b_val].
  repeat (apply restores_bind; [try apply restores_unless; by apply restores_maybe|intros _]). by apply restores_change.
Qed.

Lemma restores_neighbours hshape repl attr again :
  attr_ok attr -> (attr < 16 -> forall hs x a, a = 16 \/ a = 32 -> restoring (again hs x a)) ->
  restoring (try_neighbours arith lvl idx taint_len len hshape repl attr again).
Proof using.
  intros Hattr H. unfold try_neighbours. apply restores_if; [intros _; apply restores_ret|intros _].
  apply restores_if; [intros _; apply restores_ret|]. intros Hg.
  apply orb_false_iff in Hg as [Hg _]. apply Z.eqb_neq in Hg. cbv zeta. apply restores_if.
  - intros Hf. apply andb_true_iff in Hf as [_ Hf]. apply Z.ltb_lt in Hf. pose proof (flip_equal_small attr Hf Hattr Hg) as Hlt.
    apply restores_maybe. intros x. apply restores_bind; [by apply H; auto|intros _]. apply restores_when. intros _. by apply H; auto.
  - intros _. apply restores_when. intros Hf. apply Z.ltb_lt in Hf. apply H; [|by auto].
    apply flip_equal_small; [unfold IS_FP, IS_FP_MOD in *; lia|done..].
Qed.

Lemma depth_small attr rev fuel :
  (depth attr rev <= S fuel)%nat ->
  (attr < 16 -> (2 <= fuel)%nat) /\ (rev = true -> (depth attr false <= fuel)%nat).
Proof using.
  unfold depth. destruct (Z.ltb_spec attr 16), rev; simpl; intros; split_and!; try done; intros; lia.
Qed.

Lemma cmp_extend_encoding_restores fuel hshape pattern repl o_pattern changed_val attr rev :
  attr_ok attr -> (depth attr rev <= fuel)%nat ->
  restoring (cmp_extend_encoding transform arith is_ascii orig_buf lvl idx taint_len len fuel hshape pattern repl o_pattern changed_val attr rev).
Proof using Hat.
  revert hshape pattern repl o_pattern changed_val attr rev.
  induction fuel as [|fuel IH]; intros hshape pattern repl o_pattern changed_val attr rev Hattr Hd.
  { exfalso. unfold depth in Hd. destruct rev; lia. }
  destruct (depth_small attr rev fuel Hd) as [D1 D2]. cbn [cmp_extend_encoding]. apply restores_bind.
  { apply restores_when. intros _. apply restores_bind; [apply restores_solve_number|intros _].
    apply restores_when. intros Hc. apply andb_true_iff in Hc as [_ Hc]. apply Z.leb_le in Hc. unfold IS_EQUAL in Hc.
    apply restores_transforms. intros x. apply IH; [unfold attr_ok, IS_TRANSFORM; lia|]. apply D1. lia. }
  intros _. apply restores_if; [intros _; apply restores_ret|intros _]. apply restores_bind.
  { apply restores_when. intros _. apply restores_words. intros SWAP. apply restores_when. intros ->.
    apply restores_unless. apply IH; [done|by apply D2]. }
  intros _. apply restores_neighbours; [done|]. intros Hlt hs x a Ha. apply IH; [unfold attr_ok; lia|].
  specialize (D1 Hlt). unfold depth. rewrite (proj2 (Z.ltb_ge a 16)) by lia. lia.
Qed.

Lemma cmp_extend_encodingN_restores fuel hshape pattern repl o_pattern changed_val attr (rev : bool) :
  0 < hshape <= 16 -> ((if rev then 1 else 0) < fuel)%nat ->
  restoring (cmp_extend_encodingN orig_buf idx taint_len len fuel hshape pattern repl o_pattern changed_val attr rev).
Proof using Hat.
  intros Hh. revert pattern repl o_pattern changed_val rev.
  induction fuel as [|fuel IH]; intros pattern repl o_pattern changed_val rev Hf; [lia|].
  cbn [cmp_extend_encodingN]. set (n := Z.to_nat hshape). apply restores_when. intros Hl. apply Z.leb_le in Hl.
  assert (Hn : (0 < n <= 16)%nat /\ Z.of_nat n = hshape) by lia. destruct (window n ltac:(lia)) as [H1 H2].
  assert (Hw : forall x, in_range n (word_le 16 x) 0) by (intros x; unfold in_range; rewrite length_word_le; lia).
  apply restores_ask_bind. intros s Hb _. rewrite Hb.
  do 4 (apply slice_bind; [done|]). apply restores_bind.
  - apply restores_when. intros _. do 2 (apply slice_bind; [done|]). cbn [drop]. change (Z.to_nat 0) with 0%nat. rewrite drop_0.
    set (r := take n (word_le 16 repl)). assert (Hr : length r = n) by (subst r; rewrite length_take, length_word_le; lia).
    replace (take n (drop (Z.to_nat idx) b)) with (take (length r) (drop (Z.to_nat idx) b)) by (by rewrite Hr).
    pose proof (restores_try_bytes b cap solved idx r (f ← found; when f (write_cbuf idx r))) as Ht.
    intros s' Hb' Hc'. rewrite <- Hr in H1. specialize (Ht H1).
    refine (_ (Ht _ _ s' Hb' Hc')).
    + clear. unfold mbind, I_bind. intros H. destruct (write_buf idx r s') as [[] s1|s1| |]; [|done..].
      destruct (its_fuzz_buf s1) as [[] s2|s2| |]; [|done..]. exact H.
    + left. exists r. split; [lia|]. split; [lia|done].
    + apply quiet_found. intros f. apply quiet_when. apply quiet_write_cbuf; [rewrite length_write_at by done; apply Hat|].
      unfold in_range in *. rewrite length_write_at; [done|exact H1].
  - intros _. apply restores_when. intros ->. apply restores_unless. apply IH. lia.
Qed.
End encoding_ok.

(** ** The loop over the positions *)

(** The regions are in increasing order and end after [idx]. *)
Fixpoint ahead (idx : Z) (t : list tainted) : Prop :=
  match t with
  | [] => True
  | r :: t => idx < t_pos r + t_len r /\ Forall (fun x => t_pos r + t_len r <= t_pos x) t /\ ahead (t_pos r + t_len r) t
  end.

Lemma ahead_app idx t r :
  ahead idx t -> (forall x, x ∈ t -> t_pos x + t_len x <= t_pos r) -> idx <= t_pos r -> 0 < t_len r -> ahead idx (t ++ [r]).
Proof.
  revert idx. induction t as [|x t IH]; intros idx Ht Hx Hi Hr; [by split; [lia|]|]. destruct Ht as (H1 & H3 & H2). split; [done|].
  split; [apply Forall_app; split; [done|]; apply Forall_singleton, Hx; by left|].
  apply IH; [done|intros y Hy; apply Hx; by right|apply Hx; by left|done].
Qed.

Lemma ahead_weaken idx idx' t : idx' <= idx -> ahead idx t -> ahead idx' t.
Proof. destruct t; simpl; [done|]. intros ? (? & ? & ?). split; [lia|done]. Qed.

Lemma gaps_below len t taints x : gaps (t :: taints) -> Forall (taint_in len) taints -> x ∈ taints -> t_pos x + t_len x <= t_pos t.
Proof.
  revert t. induction taints as [|t' taints IH]; intros t Hg Hin Hx; [by apply elem_of_nil in Hx|].
  destruct Hg as [H1 H2]. inv_Forall. apply elem_of_cons in Hx as [->|Hx]; [lia|].
  match goal with H : taint_in _ t' |- _ => destruct H as (_ & ? & _) end. specialize (IH t' H2 ltac:(done) Hx). lia.
Qed.

Lemma ahead_reverse len taints : gaps taints -> Forall (taint_in len) taints -> ahead 0 (reverse taints).
Proof.
  induction taints as [|t taints IH]; intros Hg Hin; [done|]. rewrite reverse_cons. inv_Forall.
  match goal with H : taint_in _ t |- _ => destruct H as (? & ? & ?) end.
  apply ahead_app; [apply IH; [by destruct taints; [|apply Hg]|done]| |done|done].
  intros x Hx. rewrite elem_of_reverse in Hx. by apply (gaps_below len t taints x Hg).
Qed.

Section fuzz_ok.
Context {W : Type} `{!Fuzzer W} `{!Unspecified W}.
Context (transform arith is_ascii : bool) (orig_buf b : list Z) (lvl len : Z) (cap : nat).
Context (h : cmp_header) (log orig_log : list cmp_operands) (taints : list tainted).

(** [b'] rewrites a window of [b] that lies in a tainted region. *)
Definition in_taint (P : Z -> Z -> list Z -> Prop) (b' : list Z) : Prop :=
  exists t idx, t ∈ taints /\ t_pos t <= idx < t_pos t + t_len t /\ P idx (t_pos t + t_len t - idx) b'.

(** What the stage hands to the solver *)
Record solver_input : Prop := {
  si_bytes : Forall byte_ok b;
  si_len : Z.of_nat (length b) = len;
  si_orig : length orig_buf = length b;
  si_cap : (length b <= cap)%nat;
  si_u32 : len < 2 ^ 32;
  si_some : taints <> [];
  si_gaps : gaps taints;
  si_in : Forall (taint_in len) taints;
}.

Hypothesis Hin : solver_input.

Lemma positions_restores (P : Z -> Z -> list Z -> Prop) (attempt : Z -> Z -> I W bool) :
  (forall idx taint_len, 0 <= idx < len -> 0 < taint_len <= len - idx -> restores b cap (P idx taint_len) (attempt idx taint_len)) ->
  forall n idx t, 0 <= idx -> idx + Z.of_nat n = len -> ahead idx t -> (forall x, x ∈ t -> x ∈ taints) ->
  restores b cap (in_taint P) (positions attempt n idx t).
Proof using Hin.
  intros Ha n. induction n as [|n IH]; intros idx t Hi Hn Ht Hs; [apply restores_ret|]. cbn [positions].
  assert (Hskip : restores b cap (in_taint P) (positions attempt n (idx + 1) t) \/ exists r t', t = r :: t' /\ t_pos r <= idx).
  { destruct t as [|r t]; [left; apply IH; [lia..|done|done]|]. destruct (Z.ltb_spec idx (t_pos r)); [|right; by exists r, t].
    left. apply IH; [lia..| |done]. split; [|apply Ht]. destruct (proj1 (Forall_forall _ _) (si_in Hin) r) as (? & ? & ?); [apply Hs; left|lia]. }
  destruct t as [|r t]; [destruct Hskip as [H|(? & ? & [=] & _)]; exact H|].
  destruct (proj1 (Forall_forall _ _) (si_in Hin) r) as (P1 & P2 & P3); [apply Hs; left|].
  apply restores_if; [intros H; apply Z.ltb_lt in H; destruct Hskip as [Hk|(? & ? & [= -> ->] & ?)]; [exact Hk|lia]|].
  intros H. apply Z.ltb_ge in H. destruct Ht as (Ht1 & Ht3 & Ht2). pose proof (si_u32 Hin) as Hu.
  cbv zeta. unfold u32. rewrite !Z.mod_small by lia. apply restores_bind.
  - eapply restores_weaken; [|apply Ha; lia]. intros b' Hb'. exists r, idx. split; [apply Hs; left|]. split; [lia|done].
  - intros f. apply restores_if; [intros _; apply restores_ret|]. intros _.
    destruct (Z.eqb_spec idx (t_pos r + t_len r - 1)) as [->|Hne].
    + apply IH; [lia..| |intros x Hx; apply Hs; by right]. by replace (t_pos r + t_len r - 1 + 1) with (t_pos r + t_len r) by lia.
    + apply IH; [lia..| |done]. split; [lia|done].
Qed.

Lemma at_position_of idx taint_len : 0 <= idx < len -> 0 <= taint_len -> at_position orig_buf b idx taint_len len cap.
Proof using Hin. intros ? ?. destruct Hin. by split. Qed.

Hypothesis Hshape : 0 <= shape h < 16.
Hypothesis Hattr : 0 <= attribute h < 16.

Lemma SWAPA_ok x : 0 <= x < 16 -> 0 <= SWAPA x < 16.
Proof using.
  clear. intros Hx.
  assert (H : Forall (fun x => 0 <= SWAPA x < 16) (seqZ 0 16)) by (by vm_compute; repeat constructor).
  rewrite Forall_forall in H. apply H. apply elem_of_seqZ. lia.
Qed.

Notation solving := (restores b cap).

Lemma try_operands_restores o orig_o idx taint_len :
  0 <= idx < len -> 0 < taint_len <= len - idx ->
  solving (solved b idx taint_len len) (try_operands transform arith is_ascii orig_buf lvl len h o orig_o idx taint_len).
Proof using Hin Hshape Hattr.
  intros Hi Ht. pose proof (at_position_of idx taint_len Hi ltac:(lia)) as Hat. pose proof (SWAPA_ok _ Hattr) as Hsw.
  assert (He : forall p r op c a, 0 <= a < 16 -> solving (solved b idx taint_len len)
     (cmp_extend_encoding transform arith is_ascii orig_buf (u8 lvl) idx taint_len len 4 (hshape h) p r op c a true)).
  { intros p r op c a Ha. apply cmp_extend_encoding_restores; [done|by left|]. unfold depth. destruct (a <? 16); lia. }
  assert (Hn : forall p r op c a, solving (solved b idx taint_len len)
     (cmp_extend_encodingN orig_buf idx taint_len len 2 (hshape h) p r op c a true)).
  { intros. apply cmp_extend_encodingN_restores; [done|unfold hshape, SHAPE_BYTES; lia|lia]. }
  unfold try_operands. apply restores_bind; [by apply restores_change|intros _].
  apply restores_bind; [apply restores_when; intros _; apply Hn|intros _]. apply restores_bind; [apply restores_ask|intros f].
  apply restores_if; [intros _; apply restores_ret|intros _].
  apply restores_bind; [apply restores_when; intros _; apply Hn|intros _]. apply restores_bind; [apply restores_ask|intros f'].
  apply restores_if; [intros _; apply restores_ret|intros _].
  apply restores_bind; [apply restores_when; intros _; by apply He|intros _]. apply restores_bind; [apply restores_ask|intros f''].
  apply restores_if; [intros _; apply restores_ret|intros _].
  apply restores_bind; [by apply restores_change|intros _].
  apply restores_bind; [apply restores_when; intros _; by apply He|intros _]. apply restores_ask.
Qed.

Lemma learn_restores good l : solving good (learn l).
Proof using. intros s Hb Hc. split_and!; [done..|]. exists []. by rewrite app_nil_r. Qed.

Lemma learn_operands_restores good o orig_o f : solving good (learn_operands is_ascii h o orig_o f).
Proof using.
  clear Hin Hshape Hattr. apply restores_when. intros _.
  assert (Hd : forall v k, solving good (try_to_add_to_dict v k)).
  { intros v k. unfold try_to_add_to_dict. apply restores_if; [intros _; apply restores_ret|intros _].
    apply restores_bind; [apply learn_restores|intros _].
    repeat (apply restores_if; [intros _; apply learn_restores|intros _]). apply restores_ret. }
  assert (Hd' : forall v k, solving good (try_to_add_to_dictN v k)).
  { intros v k. unfold try_to_add_to_dictN. apply restores_bind; [apply learn_restores|intros _]. apply learn_restores. }
  apply restores_if; intros _; (apply restores_bind; [apply restores_when; intros _; auto|intros _; apply restores_when; intros _; auto]).
Qed.

(** One comparison *)
Definition solved_cmp : list Z -> Prop := in_taint (fun idx taint_len => solved b idx taint_len len).

Lemma cmp_entry_restores i f :
  (i < length log)%nat -> (i < length orig_log)%nat ->
  solving solved_cmp (cmp_entry transform arith is_ascii orig_buf lvl len h log orig_log taints i f).
Proof using Hin Hshape Hattr.
  intros Hl Ho. unfold cmp_entry.
  destruct (lookup_lt_is_Some_2 log i) as [o ->]; [lia|]. destruct (lookup_lt_is_Some_2 orig_log i) as [orig_o ->]; [lia|].
  apply restores_bind; [|intros f'; apply restores_bind; [by apply restores_change|intros _; apply restores_ret]].
  apply restores_if; [intros _; apply restores_ret|intros _]. apply restores_bind.
  - pose proof (si_some Hin) as Hs. replace (if taints is [] then oob else _) with
      (positions (try_operands transform arith is_ascii orig_buf lvl len h o orig_o) (Z.to_nat len) 0 (reverse taints)) by (by destruct taints).
    pose proof (si_len Hin). apply positions_restores; [apply try_operands_restores|lia|lia| |].
    + eapply ahead_reverse; [apply Hin|apply (si_in Hin)].
    + intros x. by rewrite elem_of_reverse.
  - intros f'. apply restores_bind; [apply learn_operands_restores|intros _; apply restores_ret].
Qed.

Lemma cmp_entries_restores todo f :
  Forall (fun i => i < length log /\ i < length orig_log)%nat todo ->
  solving solved_cmp (cmp_entries transform arith is_ascii orig_buf lvl len h log orig_log taints todo f).
Proof using Hin Hshape Hattr.
  intros Ht. revert f. induction Ht as [|i todo [? ?] _ IH]; intros f; [apply restores_ret|]. cbn [cmp_entries].
  apply restores_bind; [by apply cmp_entry_restores|intros f'; apply IH].
Qed.

(** The log has room for what the header announces. *)
Hypothesis Hsize : (Z.to_nat (logged h CMP_MAP_H) <= length log)%nat /\ (Z.to_nat (logged h CMP_MAP_H) <= length orig_log)%nat.

Lemma logged_entries : Forall (fun i => i < length log /\ i < length orig_log)%nat (seq 0 (Z.to_nat (logged h CMP_MAP_H))).
Proof using Hsize. clear - Hsize. apply Forall_seq. intros j Hj. lia. Qed.

Lemma cmp_fuzz_restores p :
  solving solved_cmp (cmp_fuzz transform arith is_ascii orig_buf lvl len h log orig_log taints p).
Proof using Hin Hshape Hattr Hsize.
  unfold cmp_fuzz. cbv zeta. apply restores_bind; [|intros f; apply restores_ret].
  apply cmp_entries_restores. exact logged_entries.
Qed.
End fuzz_ok.

(** ** Every match is tried *)

Definition SWAP_of (n : nat) : Z -> Z :=
  match n with 8%nat => SWAP64 | 4%nat => SWAP32 | 2%nat => SWAP16 | _ => fun x => x end.

Section tries.
Context {W : Type} `{!Fuzzer W} `{!Unspecified W}.
Context (b : list Z) (cap : nat).

(** If [m] ends from a state with the input [b] and [P], in a state with [Q], it has run [x]. *)
Definition tries (x : list Z) {A} (P : its W -> Prop) (m : I W A) (Q : A -> its W -> Prop) : Prop :=
  forall s, i_buf s = b -> length (i_cbuf s) = cap -> P s ->
  match m s with IRet a s' => Q a s' -> x ∈ i_runs s' | _ => True end.

Lemma ran_elem good x (s s' : its W) : ran good s s' -> x ∈ i_runs s -> x ∈ i_runs s'.
Proof. intros (n & -> & _) H. apply elem_of_app. by left. Qed.

(** It is enough that the first or the second part tries it. *)
Lemma tries_first x good {A B} P (m : I W A) (k : A -> I W B) Q :
  restores b cap good m -> (forall a, restores b cap good (k a)) ->
  tries x P m (fun _ _ => True) -> tries x P (m ≫= k) Q.
Proof.
  intros Hm Hk Ht s Hb Hc Hp. specialize (Hm s Hb Hc). specialize (Ht s Hb Hc Hp). unfold mbind, I_bind.
  destruct (m s) as [a s'|s'| |]; [|done..]. destruct Hm as (Hb' & Hc' & _). specialize (Hk a s' Hb' Hc').
  destruct (k a s') as [a' s''|s''| |]; [|done..]. intros _. eapply ran_elem; [apply Hk|]. by apply Ht.
Qed.

Lemma tries_then x good {A B} P P' (m : I W A) (k : A -> I W B) Q :
  restores b cap good m -> (forall s, P s -> match m s with IRet a s' => P' a s' | _ => True end) ->
  (forall a, tries x (P' a) (k a) Q) -> tries x P (m ≫= k) Q.
Proof.
  intros Hm Hp Ht s Hb Hc HP. specialize (Hm s Hb Hc). specialize (Hp s HP). unfold mbind, I_bind.
  destruct (m s) as [a s'|s'| |]; [|done..]. destruct Hm as (Hb' & Hc' & _). by apply Ht.
Qed.

(** A part that only computes, or reads the state *)
Lemma tries_pure x {A B} P (m : I W A) a (k : A -> I W B) Q :
  (forall s, m s = IRet a s) -> tries x P (k a) Q -> tries x P (m ≫= k) Q.
Proof. intros Hm Hk s Hb Hc Hp. unfold mbind, I_bind. rewrite Hm. by apply Hk. Qed.

Lemma tries_ask x {A B} P (f : its W -> A) (k : A -> I W B) Q :
  (forall s, i_buf s = b -> tries x P (k (f s)) Q) -> tries x P (ask f ≫= k) Q.
Proof. intros Hk s Hb Hc Hp. by apply Hk. Qed.

(** A part that leaves a found state as it is *)
Definition sticky (m : I W unit) : Prop := forall s, i_status s = 1 -> m s = IRet tt s \/ m s = IFuel.

Lemma sticky_bind (m : I W unit) (k : unit -> I W unit) : sticky m -> (forall a, sticky (k a)) -> sticky (m ≫= k).
Proof.
  intros Hm Hk s Hs. unfold mbind, I_bind. destruct (Hm s Hs) as [-> | ->]; [by apply Hk|by right].
Qed.

Lemma sticky_when (c : bool) m : sticky m -> sticky (when c m).
Proof. intros H s Hs. destruct c; [by apply H|by left]. Qed.

Lemma sticky_unless m : sticky (unless_found m).
Proof. intros s Hs. unfold unless_found, found, ask, mbind, I_bind. rewrite Hs. by left. Qed.

Lemma sticky_ret : sticky (mret tt).
Proof. intros s Hs. by left. Qed.

Lemma sticky_if (c : bool) m1 m2 : sticky m1 -> sticky m2 -> sticky (if c then m1 else m2).
Proof. destruct c; done. Qed.

(** Not found: [P] for what comes first, or found and left so by the rest *)
Definition unfound (s : its W) : Prop := i_status s <> 1.

Lemma tries_unless x (m : I W unit) Q : tries x unfound m Q -> tries x unfound (unless_found m) Q.
Proof.
  intros H s Hb Hc Hu. unfold unless_found, found, ask, mbind, I_bind. rewrite (proj2 (Z.eqb_neq _ _) Hu). by apply H.
Qed.

(** [m] comes first; if it finds nothing [k] tries [x]; if it does the rest keeps the find. *)
Lemma tries_unfound x good P (m : I W unit) (k : unit -> I W unit) :
  restores b cap good m -> sticky (k tt) -> tries x unfound (k tt) (fun _ => unfound) ->
  tries x P (m ≫= k) (fun _ => unfound).
Proof.
  intros Hm Hk Ht s Hb Hc Hp. specialize (Hm s Hb Hc). unfold mbind, I_bind.
  destruct (m s) as [[] s'|s'| |]; [|done..]. destruct Hm as (Hb' & Hc' & _).
  destruct (decide (i_status s' = 1)) as [E|E]; [|by apply Ht].
  destruct (Hk s' E) as [-> | ->]; [|done]. intros Hu. by destruct Hu.
Qed.

(** [m] tries [x] if it finds nothing. *)
Lemma tries_sticky x good (P : its W -> Prop) (m : I W unit) (k : unit -> I W unit) :
  restores b cap good m -> (forall a, restores b cap good (k a)) -> sticky (k tt) ->
  tries x P m (fun _ => unfound) -> tries x P (m ≫= k) (fun _ => unfound).
Proof.
  intros Hm Hr Hk Ht s Hb Hc Hp. specialize (Hm s Hb Hc). specialize (Ht s Hb Hc Hp). unfold mbind, I_bind.
  destruct (m s) as [[] s'|s'| |]; [|done..]. destruct Hm as (Hb' & Hc' & _). specialize (Hr tt s' Hb' Hc').
  destruct (decide (i_status s' = 1)) as [E|E].
  - destruct (Hk s' E) as [-> | ->]; [|done]. intros Hu. by destruct Hu.
  - destruct (k tt s') as [[] s''|s''| |]; [|done..]. intros _. eapply ran_elem; [apply Hr|]. by apply Ht.
Qed.
End tries.

Section encoding_tries.
Context {W : Type} `{!Fuzzer W} `{!Unspecified W}.
Context (transform arith is_ascii : bool) (orig_buf b : list Z) (lvl idx taint_len len : Z) (cap : nat).
Hypothesis Hat : at_position orig_buf b idx taint_len len cap.
Hypothesis Hplain : transform && negb (Z.land lvl LVL3 =? 0) = false.
Hypothesis Hlvl : Z.land lvl LVL1 <> 0.

Notation encode := (cmp_extend_encoding transform arith is_ascii orig_buf lvl idx taint_len len).

Lemma words_sticky hshape pattern repl o_pattern attr reverse :
  sticky (W:=W) (try_words orig_buf idx taint_len len hshape pattern repl o_pattern attr reverse).
Proof using.
  unfold try_words. repeat (apply sticky_bind; [apply sticky_when, sticky_unless|intros _]). apply sticky_unless.
Qed.

Lemma sticky_neighbours hshape repl attr again :
  (forall hs x a, sticky (again hs x a)) -> sticky (W:=W) (try_neighbours arith lvl idx taint_len len hshape repl attr again).
Proof using.
  intros H. unfold try_neighbours. apply sticky_if; [apply sticky_ret|]. apply sticky_if; [apply sticky_ret|]. cbv zeta.
  apply sticky_if; [|apply sticky_when, H]. destruct (next_float _ _ _ _ _ _); [|apply sticky_ret].
  apply sticky_bind; [apply H|intros _; apply sticky_when, H].
Qed.

Lemma encode_sticky fuel hshape pattern repl o_pattern changed_val attr rev :
  sticky (W:=W) (encode fuel hshape pattern repl o_pattern changed_val attr rev).
Proof using Hplain.
  revert hshape pattern repl o_pattern changed_val attr rev.
  induction fuel as [|fuel IH]; intros hshape pattern repl o_pattern changed_val attr rev; [by right|].
  cbn [cmp_extend_encoding]. rewrite Hplain. apply sticky_bind; [apply sticky_ret|intros _].
  apply sticky_if; [apply sticky_ret|]. apply sticky_bind.
  { apply sticky_when, words_sticky. }
  intros _. apply sticky_neighbours. intros. apply IH.
Qed.

(** A word that matches is tried at once. *)
Lemma word_tries n pattern repl o_pattern attr P :
  Z.of_nat n <= its_len idx taint_len len -> ld n b idx = low n pattern -> ld n orig_buf idx = low n o_pattern ->
  tries (W:=W) b cap (st n b idx repl) P (try_word orig_buf idx taint_len len n pattern repl o_pattern attr) (fun _ _ => True).
Proof using Hat.
  intros Hn H1 H2 s Hb Hc _. destruct (window orig_buf b idx taint_len len cap Hat n Hn) as [R1 R2].
  unfold try_word. rewrite (proj2 (Z.ltb_ge _ _)) by lia.
  rewrite load_bind by (by rewrite Hb). rewrite peek_bind by done. rewrite Hb, H1, H2, !Z.eqb_refl. cbn [andb orb when].
  rewrite load_bind, Hb by (by rewrite Hb). rewrite <- (st_mod n b idx repl).
  match goal with |- match ?m with _ => _ end => destruct m as [[] s'|s'| |] eqn:E; [|done..] end. intros _.
  by eapply (attempt_runs b cap); [| | |apply Hat|].
Qed.

Notation solving := (restores b cap (solved b idx taint_len len)).

(** The size of the operand comes first. *)
Lemma words_try x n hshape pattern repl o_pattern attr (reverse : (Z -> Z) -> I W unit) :
  (n = 1 \/ n = 2 \/ n = 4 \/ n = 8)%nat -> hshape = Z.of_nat n -> (forall SWAP, solving (reverse SWAP)) ->
  tries b cap x unfound (try_word orig_buf idx taint_len len n pattern repl o_pattern attr) (fun _ _ => True)
  \/ (n <> 1%nat /\ tries b cap x unfound (reverse (SWAP_of n)) (fun _ => unfound) /\ forall SWAP, sticky (reverse SWAP)) ->
  tries b cap x unfound (try_words orig_buf idx taint_len len hshape pattern repl o_pattern attr reverse) (fun _ => unfound).
Proof using Hat.
  intros Hn -> Hrev Hx.
  assert (Hword : forall k SWAP, (0 < k <= 8)%nat -> solving (try_word orig_buf idx taint_len len k pattern repl o_pattern attr;; reverse SWAP)).
  { intros k SWAP Hk. apply restores_bind; [by apply restores_word|intros _; apply Hrev]. }
  assert (Hboth : (n <> 1)%nat -> tries b cap x unfound (unless_found
     (try_word orig_buf idx taint_len len n pattern repl o_pattern attr;; reverse (SWAP_of n))) (fun _ => unfound)).
  { intros Hne. apply tries_unless. destruct Hx as [Hx|(_ & Hx & Hs)].
    - eapply tries_first; [apply restores_word; [done|lia]|intros _; apply Hrev|done].
    - eapply tries_unfound; [apply restores_word; [done|lia]|apply Hs|done]. }
  assert (Hlast : solving (unless_found (try_word orig_buf idx taint_len len 1 pattern repl o_pattern attr))).
  { apply restores_unless. apply restores_word; [done|lia]. }
  assert (Hskip : forall (m : I W unit) (k : unit -> I W unit), tries b cap x unfound (k tt) (fun _ => unfound) -> tries b cap x unfound (when false m ≫= k) (fun _ => unfound)).
  { intros m k Hk. exact Hk. }
  assert (Hdone : forall k SWAP, (0 < k <= 8)%nat -> solving (when (Z.of_nat k <=? Z.of_nat n)
     (unless_found (try_word orig_buf idx taint_len len k pattern repl o_pattern attr;; reverse SWAP)))).
  { intros k SWAP Hk. apply restores_when. intros _. by apply restores_unless, Hword. }
  unfold try_words. destruct Hn as [-> |[-> |[-> | ->]]]; cbn [Z.of_nat Z.leb].
  - apply Hskip, Hskip, Hskip. apply tries_unless. destruct Hx as [Hx|[Hx _]]; [|done].
    intros s Hb Hc Hu. specialize (Hx s Hb Hc Hu). destruct (try_word _ _ _ _ _ _ _ _ _ _); [intros _; by apply Hx|done..].
  - apply Hskip, Hskip. eapply tries_sticky; [apply (Hdone 2%nat SWAP16); lia|intros _; apply Hlast|apply sticky_unless|by apply Hboth].
  - apply Hskip. eapply tries_sticky; [apply (Hdone 4%nat SWAP32); lia| | |by apply Hboth].
    + intros _. apply restores_bind; [apply (Hdone 2%nat SWAP16); lia|intros _; apply Hlast].
    + apply sticky_bind; [apply sticky_when, sticky_unless|intros _; apply sticky_unless].
  - eapply tries_sticky; [apply (Hdone 8%nat SWAP64); lia| | |by apply Hboth].
    + intros _. apply restores_bind; [apply (Hdone 4%nat SWAP32); lia|intros _].
      apply restores_bind; [apply (Hdone 2%nat SWAP16); lia|intros _; apply Hlast].
    + repeat (apply sticky_bind; [apply sticky_when, sticky_unless|intros _]). apply sticky_unless.
Qed.

(** Direct match, or match of the reversed operand *)
Definition matches (n : nat) (pattern o_pattern : Z) : Prop :=
  pattern <> o_pattern /\ ld n b idx = low n pattern /\ ld n orig_buf idx = low n o_pattern.

Lemma encode_tries x fuel n hshape pattern repl o_pattern changed_val attr (rev : bool) :
  (n = 1 \/ n = 2 \/ n = 4 \/ n = 8)%nat -> hshape = Z.of_nat n -> Z.of_nat n <= its_len idx taint_len len ->
  attr_ok attr -> (depth attr rev <= fuel)%nat -> pattern <> o_pattern ->
  (matches n pattern o_pattern /\ x = st n b idx repl
   \/ rev = true /\ n <> 1%nat /\ matches n (SWAP_of n pattern) (SWAP_of n o_pattern) /\ x = st n b idx (SWAP_of n repl)) ->
  tries (W:=W) b cap x unfound (encode fuel hshape pattern repl o_pattern changed_val attr rev) (fun _ => unfound).
Proof using Hat Hplain Hlvl.
  intros Hn Hh Hl. revert pattern repl o_pattern changed_val attr rev.
  induction fuel as [|fuel IH]; intros pattern repl o_pattern changed_val attr rev Ha Hd Hne Hx; [done|].
  cbn [cmp_extend_encoding]. destruct (depth_small attr rev fuel Hd) as [D1 D2].
  rewrite Hplain, (proj2 (Z.eqb_neq _ _) Hne), (proj2 (Z.eqb_neq _ _) Hlvl). cbn [negb orb when].
  change (mret tt ≫= λ _ : (), ?m) with m.
  assert (Hrev : forall SWAP : Z -> Z, solving (when rev (unless_found
     (encode fuel hshape (SWAP pattern) (SWAP repl) (SWAP o_pattern) (SWAP changed_val) attr false)))).
  { intros SWAP. apply restores_when. intros ->. apply restores_unless. apply cmp_extend_encoding_restores; [done|done|by apply D2]. }
  eapply tries_sticky.
  - by apply restores_words.
  - intros _. apply restores_neighbours; [done|]. intros Hlt hs y a Hy. apply cmp_extend_encoding_restores; [done|unfold attr_ok; lia|].
    specialize (D1 Hlt). unfold depth. rewrite (proj2 (Z.ltb_ge a 16)) by lia. lia.
  - apply sticky_neighbours. intros. apply encode_sticky.
  - apply (words_try x n); [done|done|done|]. destruct Hx as [[(_ & M1 & M2) ->]|(-> & Hn1 & Hm & ->)]; [left; by apply word_tries|].
    right. split; [done|]. split; [|intros SWAP; apply sticky_when, sticky_unless]. cbn [when]. apply tries_unless.
    apply IH; [done|by apply D2|apply Hm|by left].
Qed.
End encoding_tries.

Section fuzz_tries.
Context {W : Type} `{!Fuzzer W} `{!Unspecified W}.
Context (transform arith is_ascii : bool) (orig_buf b : list Z) (lvl len : Z) (cap : nat).
Context (h : cmp_header) (log orig_log : list cmp_operands) (taints : list tainted).
Hypothesis Hin : solver_input orig_buf b len cap taints.
Hypothesis Hattr : 0 <= attribute h < 16.
Hypothesis Hplain : transform && negb (Z.land (u8 lvl) LVL3 =? 0) = false.
Hypothesis Hlvl : Z.land (u8 lvl) LVL1 <> 0.
Context (n : nat).
Hypothesis Hn : (n = 1 \/ n = 2 \/ n = 4 \/ n = 8)%nat.
Hypothesis Hshape : hshape h = Z.of_nat n.

(** The operand [pattern] is at [idx], in one of the byte orders, and [x] has [repl] there. *)
Definition occurs (idx : Z) (pattern repl o_pattern : Z) (x : list Z) : Prop :=
  pattern <> o_pattern
  /\ (matches orig_buf b idx n pattern o_pattern /\ x = st n b idx repl
      \/ n <> 1%nat /\ matches orig_buf b idx n (SWAP_of n pattern) (SWAP_of n o_pattern) /\ x = st n b idx (SWAP_of n repl)).

(** One of the operands is there. *)
Definition occurs_either (o orig_o : cmp_operands) (idx : Z) (x : list Z) : Prop :=
  v0 orig_o <> v1 orig_o
  /\ (occurs idx (v0 o) (v1 o) (v0 orig_o) x \/ occurs idx (v1 o) (v0 o) (v1 orig_o) x).

Lemma tries_found x good P (m : I W unit) (k : I W bool) :
  restores b cap good m -> restores b cap good k -> tries b cap x P m (fun _ => unfound) ->
  tries b cap x P (m;; f ← found; if (f : bool) then mret true else k) (fun f _ => f = false).
Proof using.
  clear. intros Hm Hk Ht s Hb Hc HP. specialize (Hm s Hb Hc). specialize (Ht s Hb Hc HP). unfold found, ask, mbind, I_bind.
  destruct (m s) as [[] s'|s'| |]; [|done..]. destruct Hm as (Hb' & Hc' & _). specialize (Hk s' Hb' Hc').
  destruct (Z.eqb_spec (i_status s') 1) as [E|E]; [done|]. destruct (k s') as [f s''|s''| |]; [|done..].
  intros _. eapply ran_elem; [apply Hk|]. by apply Ht.
Qed.

Lemma tries_last x (m : I W unit) :
  tries b cap x unfound m (fun _ => unfound) -> tries b cap x unfound (m;; found) (fun f _ => f = false).
Proof using.
  clear. intros Ht s Hb Hc HP. specialize (Ht s Hb Hc HP). unfold found, ask, mbind, I_bind.
  destruct (m s) as [[] s'|s'| |]; [|done..]. intros E. apply Z.eqb_neq in E. by apply Ht.
Qed.

Lemma try_operands_tries x o orig_o idx taint_len :
  0 <= idx < len -> Z.of_nat n <= taint_len <= len - idx -> occurs_either o orig_o idx x ->
  tries b cap x (fun _ => True) (try_operands transform arith is_ascii orig_buf lvl len h o orig_o idx taint_len) (fun f _ => f = false).
Proof using Hin Hattr Hplain Hlvl Hn Hshape.
  intros Hi Ht [Hne Hx]. pose proof (at_position_of orig_buf b len cap taints Hin idx taint_len Hi ltac:(lia)) as Hat.
  pose proof (SWAPA_ok _ Hattr) as Hsw. pose proof (si_u32 _ _ _ _ _ Hin) as Hu.
  assert (Hl : Z.of_nat n <= its_len idx taint_len len) by (unfold its_len, u32; rewrite Z.mod_small by lia; lia).
  set (encode := cmp_extend_encoding transform arith is_ascii orig_buf (u8 lvl) idx taint_len len 4 (hshape h)).
  assert (He : forall p r op c a, 0 <= a < 16 -> restores b cap (solved b idx taint_len len) (encode p r op c a true)).
  { intros p r op c a Ha. apply cmp_extend_encoding_restores; [done|by left|]. unfold depth. destruct (a <? 16); lia. }
  assert (Hc : forall p r op c a y, 0 <= a < 16 -> occurs idx p r op y ->
     tries b cap y unfound (encode p r op c a true) (fun _ => unfound)).
  { intros p r op c a y Ha [Hpo Hy]. apply (encode_tries transform arith is_ascii orig_buf b (u8 lvl) idx taint_len len cap Hat Hplain Hlvl y 4 n);
      [done|done|done|by left| |done|tauto]. unfold depth. destruct (a <? 16); lia. }
  unfold try_operands. assert (Hisn : is_n h = false) by (unfold is_n; rewrite Hshape; by destruct Hn as [-> |[-> |[-> | ->]]]).
  rewrite Hisn. cbn [andb when]. fold encode. rewrite (proj2 (Z.eqb_neq _ _) Hne). cbn [negb]. rewrite !andb_true_r.
  do 2 (change (mret tt ≫= λ _ : (), ?m) with m; change (found ≫= λ _ : bool, ?m) with m).
  set (tail := _ ≫= λ _ : (), found).
  assert (Hrest : restores b cap (solved b idx taint_len len) (change (put_status 0);; tail)).
  { apply restores_bind; [by apply restores_change|intros _]. subst tail.
    apply restores_bind; [apply restores_when; intros _; by apply He|intros _; apply restores_ask]. }
  eapply (tries_then b cap x (solved b idx taint_len len) _ (fun _ => unfound)); [by apply restores_change|by intros s _|intros _].
  destruct Hx as [Hx|Hx].
  - eapply tries_found; [apply restores_when; intros _; by apply He|exact Hrest|].
    rewrite (proj2 (Z.eqb_neq (v0 o) (v0 orig_o))) by apply Hx. cbn [negb orb when]. by apply Hc.
  - eapply (tries_then (A:=unit) b cap x (solved b idx taint_len len) _ (fun _ _ => True));
      [apply restores_when; intros _; by apply He|by intros s _; destruct (when _ _ s)|intros _].
    eapply (tries_then (A:=bool) b cap x (solved b idx taint_len len) _ (fun _ _ => True)); [apply restores_ask|done|intros [|]]; [by intros s|].
    eapply (tries_then b cap x (solved b idx taint_len len) _ (fun _ => unfound)); [by apply restores_change|by intros s _|intros _].
    subst tail. apply tries_last.
    rewrite (proj2 (Z.eqb_neq (v1 o) (v1 orig_o))) by apply Hx. cbn [negb orb when]. by apply Hc.
Qed.

(** Every tainted position is visited, unless the loop is left with a find. *)
Lemma positions_tries x good (attempt : Z -> Z -> I W bool) t idx :
  (forall i taint_len, 0 <= i < len -> 0 < taint_len <= len - i -> restores b cap good (attempt i taint_len)) ->
  tries b cap x (fun _ => True) (attempt idx (t_pos t + t_len t - idx)) (fun f _ => f = false) ->
  t_pos t <= idx < t_pos t + t_len t ->
  forall k i ts, 0 <= i <= idx -> i + Z.of_nat k = len -> ahead i ts -> t ∈ ts -> (forall r, r ∈ ts -> r ∈ taints) ->
  tries b cap x (fun _ => True) (positions attempt k i ts) (fun f _ => f = false).
Proof using Hin.
  clear Hn Hshape Hlvl Hplain Hattr. intros Ha Hx Ht k. induction k as [|k IH]; intros i ts Hi Hk Hts Hin_t Hsub.
  { destruct (proj1 (Forall_forall _ _) (si_in _ _ _ _ _ Hin) t) as (_ & _ & ?); [by apply Hsub|lia]. }
  cbn [positions]. destruct ts as [|r ts]; [by apply elem_of_nil in Hin_t|].
  destruct (proj1 (Forall_forall _ _) (si_in _ _ _ _ _ Hin) r) as (P1 & P2 & P3); [apply Hsub; left|].
  pose proof (si_u32 _ _ _ _ _ Hin) as Hu. destruct Hts as (A1 & A2 & A3).
  assert (Hcase : t = r \/ t ∈ ts /\ t_pos r + t_len r <= t_pos t).
  { apply elem_of_cons in Hin_t as [?|H]; [by left|right; split; [done|]]. by apply (proj1 (Forall_forall _ _) A2 t H). }
  destruct (Z.ltb_spec i (t_pos r)).
  { apply IH; [|lia| |done|done]; [destruct Hcase as [-> |[_ ?]]; lia|split; [lia|done]]. }
  cbv zeta. unfold u32. rewrite !Z.mod_small by lia.
  set (ts' := if i =? t_pos r + t_len r - 1 then ts else r :: ts).
  assert (Hts' : ahead (i + 1) ts' /\ forall y, y ∈ ts' -> y ∈ taints).
  { subst ts'. destruct (Z.eqb_spec i (t_pos r + t_len r - 1)) as [-> |?].
    - split; [by replace (t_pos r + t_len r - 1 + 1) with (t_pos r + t_len r) by lia|intros y Hy; apply Hsub; by right].
    - split; [split; [lia|done]|done]. }
  destruct (decide (i = idx)) as [-> |Hne].
  - assert (t = r) as -> by (destruct Hcase as [?|[_ ?]]; [done|lia]).
    intros s Hb Hc _. specialize (Hx s Hb Hc Logic.I). pose proof (Ha idx (t_pos r + t_len r - idx) ltac:(lia) ltac:(lia) s Hb Hc) as Hr.
    unfold mbind, I_bind. destruct (attempt _ _ s) as [[|] s'|s'| |]; [done| |done..]. destruct Hr as (Hb' & Hc' & _).
    pose proof (positions_restores orig_buf b len cap taints Hin (fun _ _ => good) attempt Ha k (idx + 1) ts'
      ltac:(lia) ltac:(lia) (proj1 Hts') (proj2 Hts') s' Hb' Hc') as Hp.
    destruct (positions _ _ _ _ s') as [f s''|s''| |]; [|done..]. intros _. eapply ran_elem; [apply Hp|]. by apply Hx.
  - eapply (tries_then (A:=bool) b cap x good _ (fun _ _ => True)); [apply Ha; lia|by intros s _; destruct (attempt _ _ s)|].
    intros [|]; [by intros s|]. apply IH; [lia|lia|apply Hts'| |apply Hts'].
    subst ts'. destruct (Z.eqb_spec i (t_pos r + t_len r - 1)) as [-> |?]; [|done].
    destruct Hcase as [-> |[? _]]; [lia|done].
Qed.

Lemma cmp_entry_tries x i o orig_o t idx (f0 : bool) :
  log !! i = Some o -> orig_log !! i = Some orig_o -> existsb (same_operands o) (take i log) = false ->
  t ∈ taints -> t_pos t <= idx -> idx + Z.of_nat n <= t_pos t + t_len t -> occurs_either o orig_o idx x ->
  tries b cap x (fun _ => True) (cmp_entry transform arith is_ascii orig_buf lvl len h log orig_log taints i f0) (fun f _ => f = false).
Proof using Hin Hattr Hplain Hlvl Hn Hshape.
  intros Ho Horig Hdup Ht H1 H2 Hx. pose proof (proj1 (Forall_forall _ _) (si_in _ _ _ _ _ Hin) t Ht) as (T1 & T2 & T3).
  assert (Hsh : 0 <= shape h < 16) by (unfold hshape, SHAPE_BYTES in Hshape; lia).
  assert (Hpos : 0 < Z.of_nat n) by lia. pose proof (si_len _ _ _ _ _ Hin) as Hlen.
  unfold cmp_entry. rewrite Ho, Horig, Hdup.
  set (loop := positions _ _ _ _).
  replace (if taints is [] then oob else loop) with loop by (by destruct taints; [apply elem_of_nil in Ht|]).
  assert (Hall : forall i tl, 0 <= i < len -> 0 < tl <= len - i -> restores b cap (fun _ => True)
     (try_operands transform arith is_ascii orig_buf lvl len h o orig_o i tl)).
  { intros j tl Hj Htl. eapply restores_weaken; [|by apply (try_operands_restores transform arith is_ascii orig_buf b lvl len cap h taints)]. done. }
  assert (Hahead : ahead 0 (reverse taints)) by (eapply ahead_reverse; [apply Hin|apply (si_in _ _ _ _ _ Hin)]).
  assert (Hloop : restores b cap (in_taint taints (fun _ _ _ => True)) loop).
  { apply (positions_restores orig_buf b len cap taints Hin (fun _ _ _ => True)); [done|lia|lia|done|].
    intros y. by rewrite elem_of_reverse. }
  assert (Htry : tries b cap x (fun _ => True) loop (fun f _ => f = false)).
  { apply (positions_tries x (fun _ => True) _ t idx); [done| |lia|lia|lia|done|by rewrite elem_of_reverse|intros y; by rewrite elem_of_reverse].
    apply try_operands_tries; [lia|lia|done]. }
  intros s Hb Hc _. specialize (Hloop s Hb Hc). specialize (Htry s Hb Hc Logic.I).
  unfold mbind, I_bind, mret, I_ret, change. destruct (loop s) as [f s'|s'| |]; [|done..]. destruct Hloop as (Hb' & Hc' & _).
  pose proof (learn_operands_restores is_ascii b cap h (fun _ => True) o orig_o (f0 || f) s' Hb' Hc') as Hlearn.
  destruct (learn_operands _ _ _ _ _ s') as [[] s''|s''| |]; [|done..]. simpl. intros Hf.
  apply orb_false_iff in Hf as [_ ->]. eapply ran_elem; [apply Hlearn|]. by apply Htry.
Qed.

(** A find is not forgotten. *)
Lemma cmp_entry_found i s f s' :
  cmp_entry transform arith is_ascii orig_buf lvl len h log orig_log taints i true s = IRet f s' -> f = true.
Proof using.
  clear. unfold cmp_entry. destruct (log !! i) as [o|], (orig_log !! i) as [orig_o|]; [|done..].
  unfold mbind, I_bind, mret, I_ret, change. destruct (existsb _ _); [by intros [= <- _]|].
  match goal with |- context [match ?m s with _ => _ end] => destruct (m s) as [f1 s1|s1| |]; [|done..] end.
  destruct (learn_operands _ _ _ _ _ s1) as [[] s2|s2| |]; [|done..]. by intros [= <- _].
Qed.

Lemma cmp_entries_found todo s f s' :
  cmp_entries transform arith is_ascii orig_buf lvl len h log orig_log taints todo true s = IRet f s' -> f = true.
Proof using.
  revert s. induction todo as [|i todo IH]; intros s; cbn [cmp_entries]; [by intros [= <- _]|].
  unfold mbind, I_bind. destruct (cmp_entry _ _ _ _ _ _ _ _ _ _ i true s) as [f1 s1|s1| |] eqn:E; [|done..].
  apply cmp_entry_found in E as ->. apply IH.
Qed.

Lemma cmp_entries_tries x i o orig_o t idx todo f0 :
  i ∈ todo -> Forall (fun i => i < length log /\ i < length orig_log)%nat todo ->
  log !! i = Some o -> orig_log !! i = Some orig_o -> existsb (same_operands o) (take i log) = false ->
  t ∈ taints -> t_pos t <= idx -> idx + Z.of_nat n <= t_pos t + t_len t -> occurs_either o orig_o idx x ->
  tries b cap x (fun _ => True) (cmp_entries transform arith is_ascii orig_buf lvl len h log orig_log taints todo f0) (fun f _ => f = false).
Proof using Hin Hattr Hplain Hlvl Hn Hshape.
  intros Hi Htodo Ho Horig Hdup Ht H1 H2 Hx. revert f0.
  assert (Hsh : 0 <= shape h < 16) by (unfold hshape, SHAPE_BYTES in Hshape; lia).
  induction Htodo as [|j todo [J1 J2] Hall IH]; [by apply elem_of_nil in Hi|]. intros f0. cbn [cmp_entries].
  pose proof (cmp_entry_restores transform arith is_ascii orig_buf b lvl len cap h log orig_log taints Hin Hsh Hattr j f0 J1 J2) as Hj.
  apply elem_of_cons in Hi as [->|Hi].
  - pose proof (cmp_entry_tries x j o orig_o t idx f0 Ho Horig Hdup Ht H1 H2 Hx) as Htry.
    intros s Hb Hc _. specialize (Hj s Hb Hc). specialize (Htry s Hb Hc Logic.I). unfold mbind, I_bind.
    destruct (cmp_entry _ _ _ _ _ _ _ _ _ _ _ _ s) as [f1 s1|s1| |]; [|done..]. destruct Hj as (Hb1 & Hc1 & _).
    pose proof (cmp_entries_restores transform arith is_ascii orig_buf b lvl len cap h log orig_log taints Hin Hsh Hattr todo f1 Hall s1 Hb1 Hc1) as Hr.
    destruct (cmp_entries _ _ _ _ _ _ _ _ _ _ _ _ s1) as [f s'|s'| |] eqn:E; [|done..]. intros ->.
    eapply ran_elem; [apply Hr|]. apply Htry. destruct f1; [|done]. by apply cmp_entries_found in E.
  - eapply (tries_then (A:=bool) b cap x _ _ (fun _ _ => True)); [exact Hj|by intros s _; destruct (cmp_entry _ _ _ _ _ _ _ _ _ _ _ _ s)|].
    intros f. by apply IH.
Qed.
End fuzz_tries.

(** ** The theorems *)

Definition counters_ok (p : afl_pass_stat) : Prop := 0 <= total p <= 0xff /\ 0 <= faileds p <= 0xff.

Lemma update_pass_ok loop found_one p :
  counters_ok p -> counters_ok (update_pass loop found_one p)
  /\ total p <= total (update_pass loop found_one p) /\ faileds p <= faileds (update_pass loop found_one p)
  /\ (found_one = false -> faileds p < 0xff -> faileds p < faileds (update_pass loop found_one p)).
Proof.
  intros [[? ?] [? ?]]. unfold update_pass. destruct loop; [destruct found_one; vm_compute; split_and!; try done; lia|]; cbn [total faileds].
  destruct found_one; cbn [negb andb]; [|destruct (Z.ltb_spec (faileds p) 0xff)]; cbn [total faileds];
    (destruct (Z.ltb_spec (total p) 0xff); unfold counters_ok; cbn [total faileds]; split_and!; try lia; try done; intros; lia).
Qed.

(** C12: solving one comparison is safe whatever the target logged: no access leaves a buffer and
    the recursion ends; each input that is run is the colored input with a window of a
    tainted region, or a number in text, rewritten; the colored input is as it was at the
    end, unless a run asks to stop; and the counters of the comparison only grow, up to 255. *)
Theorem cmp_fuzz_correct {W} `{!Fuzzer W} `{!Unspecified W} transform arith is_ascii orig_buf b lvl len cap h log orig_log taints p (s : its W) :
  solver_input orig_buf b len cap taints -> 0 <= shape h < 16 -> 0 <= attribute h < 16 ->
  (Z.to_nat (logged h CMP_MAP_H) <= length log)%nat /\ (Z.to_nat (logged h CMP_MAP_H) <= length orig_log)%nat ->
  counters_ok p -> i_buf s = b -> length (i_cbuf s) = cap ->
  match cmp_fuzz transform arith is_ascii orig_buf lvl len h log orig_log taints p s with
  | IRet p' s' =>
      i_buf s' = b /\ length (i_cbuf s') = cap /\ ran (solved_cmp b len taints) s s'
      /\ counters_ok p' /\ total p <= total p' /\ faileds p <= faileds p'
  | IStop s' => ran (solved_cmp b len taints) s s' /\ may_stop (W:=W)
  | IOob | IFuel => False
  end.
Proof.
  intros Hin Hsh Hat Hsz Hp Hb Hc.
  pose proof (cmp_fuzz_restores transform arith is_ascii orig_buf b lvl len cap h log orig_log taints Hin Hsh Hat Hsz p s Hb Hc) as H.
  unfold cmp_fuzz in *. cbv zeta in *. unfold mbind, I_bind, mret, I_ret in *.
  destruct (cmp_entries _ _ _ _ _ _ _ _ _ _ _ _ s) as [f s'|s'| |]; [|done..]. destruct H as (? & ? & ?).
  match goal with |- context [update_pass ?l f p] => pose proof (update_pass_ok l f p Hp) end. tauto.
Qed.

(** C11: input-to-state replacement is exhaustive, at a level that includes LVL1 and without the
    transformations of level 3 (which may report a find of their own as none): if solving a
    comparison of 1, 2, 4 or 8 bytes ends without a find, then for every logged pair that is
    not a repetition of an earlier one and whose operands differ in the original run, wherever
    an operand that is not the same in both runs occurs in a tainted region of the colored
    input, in either byte order, and its counterpart at the same place of the original, the
    input with the other operand in that place has been run. *)
Theorem cmp_fuzz_exhaustive {W} `{!Fuzzer W} `{!Unspecified W} transform arith is_ascii orig_buf b lvl len cap h log orig_log taints (s s' : its W) n i o orig_o t idx x :
  solver_input orig_buf b len cap taints -> 0 <= attribute h < 16 ->
  (Z.to_nat (logged h CMP_MAP_H) <= length log)%nat /\ (Z.to_nat (logged h CMP_MAP_H) <= length orig_log)%nat ->
  transform && negb (Z.land (u8 lvl) LVL3 =? 0) = false -> Z.land (u8 lvl) LVL1 <> 0 ->
  (n = 1 \/ n = 2 \/ n = 4 \/ n = 8)%nat -> hshape h = Z.of_nat n ->
  i_buf s = b -> length (i_cbuf s) = cap ->
  cmp_entries transform arith is_ascii orig_buf lvl len h log orig_log taints (seq 0 (Z.to_nat (logged h CMP_MAP_H))) false s = IRet false s' ->
  (i < Z.to_nat (logged h CMP_MAP_H))%nat -> log !! i = Some o -> orig_log !! i = Some orig_o ->
  existsb (same_operands o) (take i log) = false ->
  t ∈ taints -> t_pos t <= idx -> idx + Z.of_nat n <= t_pos t + t_len t ->
  occurs_either orig_buf b n o orig_o idx x -> x ∈ i_runs s'.
Proof.
  intros Hin Hat Hsz Hpl Hlv Hn Hsh Hb Hc E Hi Ho Horig Hd Ht H1 H2 Hx.
  pose proof (cmp_entries_tries transform arith is_ascii orig_buf b lvl len cap h log orig_log taints Hin Hat Hpl Hlv n Hn Hsh x i o orig_o t idx
    (seq 0 (Z.to_nat (logged h CMP_MAP_H))) false) as H.
  specialize (H ltac:(apply elem_of_seq; lia) (logged_entries h log orig_log Hsz) Ho Horig Hd Ht H1 H2 Hx s Hb Hc Logic.I).
  rewrite E in H. by apply H.
Qed.

(** A target that finds nothing, for the witnesses. *)
#[export] Instance still_fuzzer : Fuzzer unit := {|
  common_fuzz_stuff w _ := (w, false); trace_cksum _ := 0; maybe_add_auto w _ := w; hit_cnt _ := 0;
|}.
#[export] Instance still_unspecified : Unspecified unit := {| errno_after _ := false; fresh _ := 0; shr_over x n := x |}.

Definition its_start (b cbuf : list Z) : its unit := Its b cbuf 0 false [] 0 tt [].

Definition deadbeef_header : cmp_header := CmpHeader 1 3 1 1.
Definition deadbeef_log : list cmp_operands := [CmpOperands 0x04030201 0xdeadbeef 0 0].
Definition deadbeef_orig : list cmp_operands := [CmpOperands 0x08070605 0xdeadbeef 0 0].

Lemma deadbeef_input : solver_input [5; 6; 7; 8] [1; 2; 3; 4] 4 132 [Tainted 0 4].
Proof. split; [byte_list|done|done|simpl; lia|lia|done|done|]. repeat constructor; simpl; lia. Qed.

Lemma cmp_fuzz_correct_witness :
  match cmp_fuzz true true true [5; 6; 7; 8] 5 4 deadbeef_header deadbeef_log deadbeef_orig [Tainted 0 4] (PassStat 0 0)
          (its_start [1; 2; 3; 4] (replicate 132 0)) with
  | IRet _ s' => i_buf s' = [1; 2; 3; 4]
  | _ => True
  end.
Proof.
  pose proof (cmp_fuzz_correct true true true [5; 6; 7; 8] [1; 2; 3; 4] 5 4 132 deadbeef_header deadbeef_log deadbeef_orig [Tainted 0 4] (PassStat 0 0)
    (its_start [1; 2; 3; 4] (replicate 132 0)) deadbeef_input ltac:(simpl; lia) ltac:(simpl; lia) ltac:(vm_compute; lia)
    ltac:(unfold counters_ok; simpl; lia) eq_refl eq_refl) as H.
  destruct (cmp_fuzz _ _ _ _ _ _ _ _ _ _ _ _); [apply H|exact Logic.I..].
Defined.

Lemma cmp_fuzz_exhaustive_witness :
  exists s', cmp_entries false false false [5; 6; 7; 8] 1 4 deadbeef_header deadbeef_log deadbeef_orig [Tainted 0 4] [0%nat] false
    (its_start [1; 2; 3; 4] (replicate 132 0)) = IRet false s' /\ [0xef; 0xbe; 0xad; 0xde] ∈ i_runs s'.
Proof.
  eexists. split; [vm_compute; reflexivity|].
  eapply (cmp_fuzz_exhaustive false false false [5; 6; 7; 8] [1; 2; 3; 4] 1 4 132 deadbeef_header deadbeef_log deadbeef_orig [Tainted 0 4]
    (its_start [1; 2; 3; 4] (replicate 132 0)) _ 4 0 (CmpOperands 0x04030201 0xdeadbeef 0 0) (CmpOperands 0x08070605 0xdeadbeef 0 0) (Tainted 0 4) 0).
  - exact deadbeef_input.
  - simpl; lia.
  - vm_compute; lia.
  - reflexivity.
  - vm_compute; discriminate.
  - lia.
  - reflexivity.
  - reflexivity.
  - reflexivity.
  - vm_compute; reflexivity.
  - vm_compute; lia.
  - reflexivity.
  - reflexivity.
  - reflexivity.
  - left.
  - simpl; lia.
  - simpl; lia.
  - split; [discriminate|]. left. split; [discriminate|]. left. split; [split; [discriminate|split; reflexivity]|reflexivity].
Defined.

(** ** What the reversal of wide operands does *)

(** [cmp_extend_encodingN] passes the number of bits to [SWAPN], which takes the number of
    bytes: for every operand of more than 8 bytes, or of 3, 5, 6 or 7, the shift count is
    beyond the 128 bits that are shifted, where C leaves the result open. *)
Theorem wide_reversal_overshifts hshape :
  0 < hshape <= 16 -> is_n (CmpHeader 1 (hshape - 1) 1 0) = true -> 128 <= SWAPN_shift (u32 (hshape ≪ 3)).
Proof.
  intros Hh Hn. assert (H3 : 3 <= hshape).
  { assert (hshape <> 1 /\ hshape <> 2) as [? ?]; [|lia]. split; intros ->; done. }
  unfold SWAPN_shift, u32. rewrite !Z.shiftl_mul_pow2 by lia. rewrite (Z.mod_small (hshape * 2 ^ 3)) by lia.
  rewrite (Z.mod_small (hshape * 2 ^ 3 * 2 ^ 3)) by lia. dlia.
Qed.

(** With the number of bytes it reverses them, as [try_to_add_to_dictN] uses it. *)
Example wide_reversal_of_bytes : SWAPN (W:=unit) 0x0102030405060708090a 10 = 0x0a090807060504030201.
Proof. reflexivity. Qed.

(** ** What the rewriting of numbers does *)

(** The rewritten input is run with the length of the old one: a longer number cuts off
    the end of the input, a shorter one lets bytes of the scratch buffer in. *)
Example longer_number_cuts :
  match try_number 0 6 (text_u 1000) 1 (its_start [55; 59; 97; 98; 99; 10] (replicate 134 0)) with
  | IRet _ s' => i_runs s' = [[49; 48; 48; 48; 59; 97]]
  | _ => False
  end.
Proof. reflexivity. Qed.

Example shorter_number_pads :
  match try_number 0 6 (text_u 7) 4 (put_scratch [88; 88; 88; 88; 88; 88; 88] (its_start [49; 48; 48; 48; 59; 10] (replicate 134 0))) with
  | IRet _ s' => i_runs s' = [[55; 59; 10; 88; 88; 88]]
  | _ => False
  end.
Proof. reflexivity. Qed.
