(* ===== verification/Rtn.v ===== *)
(** * Solving compared strings (src/aflplusplus/src/afl-fuzz-redqueen.c, rtn_fuzz)

    [rtn_fuzz] takes the arguments of a routine such as [memcmp], logged on the original and
    on the colored input, and writes one argument over the other where it occurs in the
    input, byte by byte, running the target after each byte; at level 3 also up to four
    bytes earlier and, with the transformations enabled, through guessed hexadecimal, xor,
    addition and case conversions ([rtn_extend_encoding]).

    A [struct cmpfn_operands] is 64 bytes of the log: [v0[31]], [v0_len], [v1[31]],
    [v1_len].  The code reads past the end of [v0] and [v1] into what follows them, so an
    operand is a place in the bytes of the log from [log[key]] on. *)
From S2P Require Import Prelude OneHelpers Rng DetStages ExtrasStages Colorize NumText Its CmpLog.

Definition OPERANDS : Z := 64.

Definition hex_table_up (v : Z) : Z := if v <? 10 then 48 + v else 55 + v.
Definition hex_table_low (v : Z) : Z := if v <? 10 then 48 + v else 87 + v.

Definition hex_table : list Z :=
  [0; 1; 2; 3; 4; 5; 6; 7; 8; 9; 0; 0; 0; 0;
   0; 0; 0; 10; 11; 12; 13; 14; 15; 0; 0; 0; 0; 0;
   0; 0; 0; 0; 0; 0; 0; 0; 0; 0; 0; 0; 0; 0;
   0; 0; 0; 0; 0; 0; 0; 10; 11; 12; 13; 14; 15].

Definition hex_digit (c : Z) : bool := between 48 57 c || between 65 70 c || between 97 102 c.

Section effects.
Context {W : Type} `{!Fuzzer W} `{!Unspecified W}.

(** [l[i]] *)
Definition rd (l : list Z) (i : Z) : I W Z :=
  match (if 0 <=? i then l !! Z.to_nat i else None) with Some x => mret x | None => oob end.
Definition rd_buf (i : Z) : I W Z := b ← ask i_buf; rd b i.

(** [is_hex(l + i)]: the second byte is only read if the first is a digit *)
Definition is_hex (l : list Z) (i : Z) : I W bool :=
  c ← rd l i;
  if hex_digit c then d ← rd l (i + 1); mret (hex_digit d) else mret false.

(** [l[off], ..., l[off + n - 1]], each byte through [f] *)
Fixpoint gather (f : Z -> I W Z) (js : list Z) : I W (list Z) :=
  match js with
  | [] => mret []
  | j :: js => x ← f j; l ← gather f js; mret (x :: l)
  end.
End effects.

(** ** One argument at one place *)

Section rtn.
Context {W : Type} `{!Fuzzer W} `{!Unspecified W}.
Context (transform : bool) (orig_buf : list Z) (lvl hshape len : Z) (mem orig_mem : list Z).

(** Where the arguments are: [o->v0] or [o->v1] in [mem] and in [orig_mem] *)
Definition arg (o : Z) (second : bool) : Z := o + (if second then 32 else 0).

(** [l0] and [ol0] *)
Definition operand_len (o : Z) (entry : bool) : I W (Z * Z) :=
  l0 ← rd mem (arg o entry + 31);
  ol0 ← rd orig_mem (arg o entry + 31);
  l1 ← rd mem (arg o (negb entry) + 31);
  ol1 ← rd orig_mem (arg o (negb entry) + 31);
  let '(l0, l1, ol0, ol1) :=
    if (0x80 <=? l0) || (0x80 <=? ol0) then (u8 (l0 - 0x80), u8 (l1 - 0x80), u8 (ol0 - 0x80), u8 (ol1 - 0x80))
    else (l0, l1, ol0, ol1) in
  if (l0 =? 0) || (l1 =? 0) || (ol0 =? 0) || (ol1 =? 0) || (31 <? l0) || (31 <? l1) || (31 <? ol0) || (31 <? ol1)
  then mret (u8 hshape, u8 hshape) else mret (l0, ol0).

(** The inner loop of the direct attempts, [n] bytes to go: the number of bytes written *)
Fixpoint match_bytes (n : nat) (i idx pattern repl : Z) : I W Z :=
  match n with
  | O => mret i
  | S n =>
      p ← rd mem (pattern + i);
      x ← rd_buf (idx + i);
      op ← rd orig_mem (pattern + i);
      ox ← rd orig_buf (idx + i);
      f ← found;
      if (negb (p =? x) && negb (op =? ox)) || f then mret i
      else
        r ← rd mem (repl + i);
        write_buf (idx + i) [r];;
        its_fuzz_buf;;
        combine idx (Z.to_nat i);;
        match_bytes n (i + 1) idx pattern repl
  end.

(** [memcpy(save + i, l, |l|)] and [memcpy(buf + idx, save + i, n)] with [u8 save[40]] *)
Definition write_save (save l : list Z) : I W (list Z) :=
  if (40 <? Z.of_nat (length l)) then oob else mret (write_at save 0 l).
Definition restore (save : list Z) (i idx n : Z) : I W unit := l ← slice save i (Z.to_nat n); write_buf idx l.

(** One round of [for (pre = from; pre <= to; pre++)] *)
Definition match_before (saved_idx saved_its_len to : Z) (save : list Z) (pattern repl pre : Z) : I W unit :=
  unless_found
    (b ← ask i_buf;
     x ← slice b (saved_idx - pre) (Z.to_nat pre);
     r ← slice mem repl (Z.to_nat pre);
     when ((pre =? 0) || same_bytes x r)
       (i ← match_bytes (Z.to_nat (saved_its_len + pre)) 0 (saved_idx - pre) pattern repl;
        restore save (to - pre) (saved_idx - pre) i)).

Fixpoint for_each (f : Z -> I W unit) (l : list Z) : I W unit :=
  match l with [] => mret tt | x :: l => f x;; for_each f l end.

(** The flags and counters of the transformations *)
Record guess := Guess {
  toupper : Z; tolower : Z; xor : Z; arith : Z; tohex : Z; fromhex : Z;
  from_0 : Z; from_x : Z; from_X : Z; from_slash : Z; from_up : Z;
  to_0 : Z; to_x : Z; to_slash : Z; to_up : Z;
  xor_val : list Z; arith_val : list Z;
}.
Definition no_guess : guess := Guess 0 0 0 0 0 0 0 0 0 0 0 0 0 0 0 [] [].

Definition letter_case (a b up : Z) : Z :=
  if negb (up =? 0) then up
  else
    let up := if between 65 70 a then 1 else if between 97 102 a then 2 else up in
    if between 65 70 b then 1 else if between 97 102 b then 2 else up.

(** The prefixes [0x], [\x] in the input and in the replacement *)
Definition guess_prefix (i ox r : Z) (g : guess) : guess :=
  let '(f0, fx, fX, fs) :=
    if i =? 0 then
      if ox =? 48 then (1, from_x g, from_X g, from_slash g)
      else if ox =? 92 then (from_0 g, from_x g, from_X g, 1)
      else (from_0 g, from_x g, from_X g, from_slash g)
    else if i =? 1 then
      if ox =? 120 then (from_0 g, 1, from_X g, from_slash g)
      else if ox =? 88 then (from_0 g, 1, 1, from_slash g)
      else (from_0 g, from_x g, from_X g, from_slash g)
    else (from_0 g, from_x g, from_X g, from_slash g) in
  let '(t0, tx, ts) :=
    if i =? 0 then if r =? 48 then (1, to_x g, to_slash g) else if r =? 92 then (to_0 g, to_x g, 1) else (to_0 g, to_x g, to_slash g)
    else if i =? 1 then if (r =? 120) || (r =? 88) then (to_0 g, 1, to_slash g) else (to_0 g, to_x g, to_slash g)
    else (to_0 g, to_x g, to_slash g) in
  Guess (toupper g) (tolower g) (xor g) (arith g) (tohex g) (fromhex g) f0 fx fX fs (from_up g) t0 tx ts (to_up g)
    (xor_val g) (arith_val g).

Definition set_tohex (n up : Z) (g : guess) : guess :=
  Guess (toupper g) (tolower g) (xor g) (arith g) n (fromhex g) (from_0 g) (from_x g) (from_X g) (from_slash g) (from_up g)
    (to_0 g) (to_x g) (to_slash g) up (xor_val g) (arith_val g).
Definition set_fromhex (n up : Z) (g : guess) : guess :=
  Guess (toupper g) (tolower g) (xor g) (arith g) (tohex g) n (from_0 g) (from_x g) (from_X g) (from_slash g) up
    (to_0 g) (to_x g) (to_slash g) (to_up g) (xor_val g) (arith_val g).

(** The counters for the bytes [x] of the input and [p] of the argument, [ox] and [op]
    those of the original.  (The difference of two bytes is an [int] in C.) *)
Definition guess_bytes (x p ox op : Z) (g : guess) : guess :=
  let xv := Z.lxor p x in
  let av := u8 (p - x) in
  Guess
    (if (Z.land x 0x5a =? p) && (Z.land ox 0x5a =? op) then toupper g + 1 else toupper g)
    (if (Z.lor x 0x20 =? p) && (Z.lor ox 0x20 =? op) then tolower g + 1 else tolower g)
    (if (Z.lxor op ox =? xv) && negb (xv =? 0) then xor g + 1 else xor g)
    (if (op - ox =? av) && negb (av =? 0) then arith g + 1 else arith g)
    (tohex g) (fromhex g) (from_0 g) (from_x g) (from_X g) (from_slash g) (from_up g)
    (to_0 g) (to_x g) (to_slash g) (to_up g) (xor_val g ++ [xv]) (arith_val g ++ [av]).

(** The first half of the body of the transformation loop *)
Definition guess_step (idx pattern repl i : Z) (g : guess) : I W guess :=
  p ← rd mem (pattern + i);
  x ← rd_buf (idx + i);
  ox ← rd orig_buf (idx + i);
  r ← rd mem (repl + i);
  let g := guess_prefix i ox r g in
  h ← (if i <? 16 then is_hex mem (repl + (i ≪ 1)) else mret false);
  g ← (if (h : bool) then
         a ← rd mem (repl + (i ≪ 1));
         b ← rd mem (repl + (i ≪ 1) + 1);
         mret (set_tohex (tohex g + 1) (letter_case a b (to_up g)) g)
       else mret g);
  h ← (if negb (i `mod` 2 =? 0) && (idx + i + 1 <? len) then is_hex orig_buf (idx + i) else mret false);
  g ← (if (h : bool) then
         a ← rd orig_buf (idx + i);
         b ← rd orig_buf (idx + i - 1);
         mret (set_fromhex (fromhex g + 2) (letter_case a b (from_up g)) g)
       else mret g);
  op ← rd orig_mem (pattern + i);
  mret (guess_bytes x p ox op g).

(** Input is converted to hex? convert repl to binary! *)
Definition try_tohex (idx repl i : Z) (g : guess) : I W unit :=
  when ((i <? 16) && (i <? tohex g))
    (let off := if to_slash g + to_x g + to_0 g =? 2 then 2 else 0 in
     tmp ← gather (fun j =>
       a ← rd mem (repl + off + (j ≪ 1));
       b ← rd mem (repl + off + (j ≪ 1) + 1);
       hi ← rd hex_table (a - 48);
       lo ← rd hex_table (b - 48);
       mret (u8 ((hi ≪ 4) + lo))) (seqZ 0 (i + 1));
     write_buf idx tmp;;
     its_fuzz_buf).

(** Input is hex and converted to binary? convert repl to hex! *)
Definition try_fromhex (idx repl i : Z) (save : list Z) (g : guess) : I W unit :=
  when (negb (i =? 0) && negb (i `mod` 2 =? 0) && (i <? 16) && negb (fromhex g =? 0)
        && (i <? fromhex g + from_slash g + from_x g + from_0 g))
    (let prefix :=
       if negb (from_slash g =? 0) && negb (from_x g =? 0) then [92; if negb (from_X g =? 0) then 88 else 120]
       else if negb (from_0 g =? 0) && negb (from_x g =? 0) then [48; if negb (from_X g =? 0) then 88 else 120]
       else [] in
     let digit := if to_up g =? 1 then hex_table_up else hex_table_low in
     bytes ← gather (fun j => rd mem (repl + j)) (seqZ 0 ((i ≫ 1) + 1));
     let tmp := prefix ++ concat (map (fun x => [digit (x ≫ 4); digit (x `mod` 16)]) bytes) in
     write_buf idx tmp;;
     its_fuzz_buf;;
     restore save 0 idx (i + 1 + Z.of_nat (length prefix))).

(** [for (j = 0; j <= i; j++) buf[idx + j] = f(repl[j], vals[j]); its_fuzz(...)] *)
Definition try_map (f : Z -> Z -> Z) (vals : list Z) (idx repl i : Z) : I W unit :=
  bytes ← gather (fun j => rd mem (repl + j)) (seqZ 0 (i + 1));
  write_buf idx (zip_with f bytes vals);;
  its_fuzz_buf.

Definition must_break (i r c : Z) (found : bool) (g : guess) : bool :=
  (7 <=? i) && (xor g <=? i) && (arith g <=? i) && (tolower g <=? i) && (toupper g <=? i)
    && (tohex g <? i) && (fromhex g + from_0 g + from_x g + from_slash g + 1 <? i)
  || negb (r =? c) || found.

(** The body of the loop; [true] for [break] *)
Definition transform_step (idx pattern repl changed_val i : Z) (save : list Z) (g : guess) : I W (guess * bool) :=
  g ← guess_step idx pattern repl i g;
  let none := replicate (Z.to_nat (i + 1)) 0 in
  try_tohex idx repl i g;;
  try_fromhex idx repl i save g;;
  when (i <? xor g) (try_map Z.lxor (xor_val g) idx repl i);;
  when (i <? arith g) (unless_found (try_map (fun r a => u8 (r - a)) (arith_val g) idx repl i));;
  when (i <? toupper g) (unless_found (try_map (fun r _ => Z.lor r 0x20) none idx repl i));;
  when (i <? tolower g) (unless_found (try_map (fun r _ => Z.land r 0x5f) none idx repl i));;
  combine idx (Z.to_nat (i + 1));;
  r ← rd mem (repl + i);
  c ← rd orig_mem (changed_val + i);
  f ← found;
  mret (g, must_break i r c f g).

(** [for (i = 0; i < its_len; ++i)]: the value of [i] at the end *)
Fixpoint transform_loop (n : nat) (i idx pattern repl changed_val : Z) (save : list Z) (g : guess) : I W Z :=
  match n with
  | O => mret i
  | S n =>
      '(g, stop) ← transform_step idx pattern repl changed_val i save g;
      if (stop : bool) then mret i else transform_loop n (i + 1) idx pattern repl changed_val save g
  end.

Definition rtn_extend_encoding (entry : bool) (o idx taint_len : Z) : I W unit :=
  '(l0, ol0) ← operand_len o entry;
  let pattern := arg o entry in
  let repl := arg o (negb entry) in
  let its_len := Z.min (Z.min (Z.min (Z.max l0 ol0) hshape) (u32 (len - idx))) taint_len in
  let max_to := Z.min 4 idx in
  let from := if negb (Z.land lvl LVL3 =? 0) && (Z.land lvl LVL1 =? 0) && negb (max_to =? 0) then 1 else 0 in
  let to := if negb (Z.land lvl LVL3 =? 0) then max_to else 0 in
  b ← ask i_buf;
  l ← slice b (idx - to) (Z.to_nat (its_len + to));
  save ← write_save (map fresh (seq 0 40)) l;
  for_each (match_before idx its_len to save pattern repl) (seqZ from (to + 1 - from));;
  unless_found
    (when (transform && negb (Z.land lvl LVL3 =? 0))
       (b ← ask i_buf;
        l ← slice b idx (Z.to_nat its_len);
        save ← write_save save l;
        i ← transform_loop (Z.to_nat its_len) 0 idx pattern repl repl save no_guess;
        restore save 0 idx i)).

(** ** One routine *)

Definition try_arguments (o idx taint_len : Z) : I W bool :=
  change (put_status 0);;
  rtn_extend_encoding false o idx taint_len;;
  f ← found;
  if (f : bool) then mret true
  else
    change (put_status 0);;
    rtn_extend_encoding true o idx taint_len;;
    found.

(** [strlen(mem + at_)] *)
Definition strlen (at_ : Z) : I W Z :=
  let tail := drop (Z.to_nat at_) mem in
  let n := count_while (fun c => negb (c =? 0)) tail in
  if (n <? length tail)%nat then mret (Z.of_nat n) else oob.

(** The length of the argument at [at_] for the dictionary *)
Definition word_len (is_ascii : bool) (at_ : Z) : I W Z :=
  bytes ← slice mem at_ (Z.to_nat hshape);
  if is_ascii || (check_if_text_buf bytes =? hshape)
  then n ← strlen at_; mret (if n =? 0 then hshape else n)
  else mret hshape.

Definition learn_argument (found_one : bool) (at_ v_len : Z) : I W unit :=
  x ← slice mem at_ (Z.to_nat v_len);
  ox ← slice orig_mem at_ (Z.to_nat v_len);
  when (same_bytes x ox || negb found_one || (check_if_text_buf x =? v_len)) (learn x).

Definition learn_arguments (is_ascii : bool) (o : Z) (found_one : bool) : I W unit :=
  when ((negb found_one && negb (Z.land lvl LVL1 =? 0)) || is_ascii)
    (v0_len ← word_len is_ascii (arg o false);
     v1_len ← word_len is_ascii (arg o true);
     learn_argument found_one (arg o false) v0_len;;
     learn_argument found_one (arg o true) v1_len).

Context (taints : list tainted) (is_ascii : bool).

(** [memcmp(&log[j], &log[i], sizeof(struct cmpfn_operands)) == 0] *)
Definition same_call (i j : nat) : I W bool :=
  x ← slice mem (OPERANDS * Z.of_nat j) (Z.to_nat OPERANDS);
  y ← slice mem (OPERANDS * Z.of_nat i) (Z.to_nat OPERANDS);
  mret (same_bytes x y).

Fixpoint any_same (i : nat) (js : list nat) : I W bool :=
  match js with
  | [] => mret false
  | j :: js => f ← same_call i j; if (f : bool) then mret true else any_same i js
  end.

(** One round of [for (i = 0; i < loggeds; ++i)] *)
Definition rtn_entry (i : nat) (found_one : bool) : I W bool :=
  let o := OPERANDS * Z.of_nat i in
  dup ← any_same i (seq 0 i);
  found_one ←
    (if (dup : bool) then mret found_one
     else
       f ← (if taints is [] then oob else positions (try_arguments o) (Z.to_nat len) 0 (reverse taints));
       let found_one := found_one || f in
       learn_arguments is_ascii o found_one;;
       mret found_one);
  change (fun s => put_cur (u32 (i_cur s + 1)) s);;
  mret found_one.

Fixpoint rtn_entries (todo : list nat) (found_one : bool) : I W bool :=
  match todo with
  | [] => mret found_one
  | i :: todo => f ← rtn_entry i found_one; rtn_entries todo f
  end.

Definition rtn_fuzz (h : cmp_header) (p : afl_pass_stat) : I W afl_pass_stat :=
  found_one ← rtn_entries (seq 0 (Z.to_nat (logged h CMP_MAP_RTN_H))) false;
  mret (update_pass false found_one p).
End rtn.
