(* ===== verification/RtnTheorems.v ===== *)
(** * What the string solver guarantees

    Without the transformations the solver of compared strings stays inside its buffers,
    runs only inputs in which a prefix of the other argument is written at or up to four
    bytes before a tainted position, and puts the input back.  With them it does not: a
    theorem below shows inputs on which it leaves the input changed, and on which it writes
    behind its end. *)
From S2P Require Import Prelude OneHelpers Rng DetStages ExtrasStages Colorize ColorizeTheorems NumText Its CmpLog CmpLogTheorems Rtn.

Lemma write_at_snoc (b : list Z) i l x :
  0 <= i -> i + Z.of_nat (length l) < Z.of_nat (length b) ->
  write_at (write_at b i l) (i + Z.of_nat (length l)) [x] = write_at b i (l ++ [x]).
Proof.
  intros Hi Hl. unfold write_at. rewrite length_app. cbn [length].
  replace (Z.to_nat (i + Z.of_nat (length l))) with (Z.to_nat i + length l)%nat by lia.
  set (p := take (Z.to_nat i) b). assert (Hp : length p = Z.to_nat i) by (subst p; rewrite length_take; lia).
  rewrite (app_assoc p l (drop _ b)). rewrite take_app_length' by (rewrite length_app; lia).
  rewrite drop_app_ge by (rewrite length_app; lia). rewrite drop_drop, <- !app_assoc. do 4 f_equal.
  rewrite length_app. lia.
Qed.

Lemma write_at_back (b : list Z) i l :
  in_range (length l) b i -> write_at (write_at b i l) i (take (length l) (drop (Z.to_nat i) b)) = b.
Proof.
  intros [Hi Hl]. unfold write_at. rewrite length_take, length_drop.
  replace (length l `min` (length b - Z.to_nat i))%nat with (length l) by lia.
  rewrite take_app_length' by (rewrite length_take; lia).
  rewrite drop_app_ge by (rewrite length_take; lia). rewrite length_take.
  replace (Z.to_nat i + length l - Z.to_nat i `min` length b)%nat with (length l) by lia.
  rewrite drop_app_length. by rewrite <- drop_drop, take_drop, take_drop.
Qed.

Section direct.
Context {W : Type} `{!Fuzzer W} `{!Unspecified W}.
Context (orig_buf b : list Z) (lvl hshape len : Z) (cap : nat) (mem orig_mem : list Z).

(** A prefix of the bytes at [repl] is written at [idx]. *)
Definition spliced (idx repl : Z) (b' : list Z) : Prop :=
  exists k, (0 < k <= 36)%nat /\ in_range k b idx /\ b' = write_at b idx (take k (drop (Z.to_nat repl) mem)).

Lemma rd_bind {B} (l : list Z) i x (k : Z -> I W B) s : 0 <= i -> l !! Z.to_nat i = Some x -> (rd l i ≫= k) s = k x s.
Proof. intros Hi Hx. unfold rd, mbind, I_bind. by rewrite (proj2 (Z.leb_le _ _) Hi), Hx. Qed.

Lemma rd_inside (l : list Z) i : 0 <= i < Z.of_nat (length l) -> exists x, l !! Z.to_nat i = Some x.
Proof. intros Hi. apply lookup_lt_is_Some_2. lia. Qed.

(** The input with the first [m] bytes of the argument at [repl] written at [idx] *)
Definition splice (idx repl : Z) (m : nat) : list Z := write_at b idx (take m (drop (Z.to_nat repl) mem)).

Lemma write_at_after i l j : (Z.to_nat i + length l <= j)%nat -> (Z.to_nat i + length l <= length b)%nat -> write_at b i l !! j = b !! j.
Proof using.
  intros Hj Hl. unfold write_at. rewrite app_assoc, lookup_app_r by (rewrite length_app, length_take; lia).
  rewrite lookup_drop, length_app, length_take. f_equal. lia.
Qed.

(** What writing up to the byte [m] at [idx] needs *)
Record splice_position (m idx pattern repl : Z) : Prop := {
  sp_m : m <= 36;
  sp_idx : 0 <= idx /\ idx + m <= Z.of_nat (length b);
  sp_orig : length orig_buf = length b;
  sp_cap : (length b <= cap)%nat;
  sp_pattern : 0 <= pattern /\ pattern + 36 <= Z.of_nat (length mem) /\ pattern + 36 <= Z.of_nat (length orig_mem);
  sp_repl : 0 <= repl /\ repl + 36 <= Z.of_nat (length mem);
}.

(** The byte at [i] matches, in the colored input or in the original. *)
Definition byte_matches (idx pattern i : Z) : Prop :=
  mem !! Z.to_nat (pattern + i) = b !! Z.to_nat (idx + i) \/ orig_mem !! Z.to_nat (pattern + i) = orig_buf !! Z.to_nat (idx + i).

(** One round of the inner loop: it is left, the stage is stopped, or it goes on with one
    more byte written and run. *)
Lemma match_bytes_step n i idx pattern repl (s : its W) :
  0 <= i -> splice_position (i + 1) idx pattern repl ->
  i_buf s = splice idx repl (Z.to_nat i) -> length (i_cbuf s) = cap ->
  let b' := splice idx repl (Z.to_nat (i + 1)) in
  let next := match_bytes orig_buf mem orig_mem (S n) i idx pattern repl s in
  next = IRet i s /\ (i_status s = 1 \/ ~ byte_matches idx pattern i)
  \/ i_status s <> 1 /\ (exists s1, next = IStop s1 /\ i_runs s1 = i_runs s ++ [b']) /\ may_stop (W:=W)
  \/ i_status s <> 1 /\ exists s2, next = match_bytes orig_buf mem orig_mem n (i + 1) idx pattern repl s2
      /\ i_buf s2 = b' /\ length (i_cbuf s2) = cap /\ i_runs s2 = i_runs s ++ [b'].
Proof using.
  intros Hi [Hm Hidx Ho Hcap Hp Hr] Hb Hc b' next. subst next. set (R := drop (Z.to_nat repl) mem) in *.
  assert (HR : Z.of_nat (length R) = Z.of_nat (length mem) - repl) by (unfold R; rewrite length_drop; lia).
  assert (HL : length (take (Z.to_nat i) R) = Z.to_nat i) by (rewrite length_take; lia).
  assert (Hlb : length (splice idx repl (Z.to_nat i)) = length b) by (apply length_write_at; unfold in_range; fold R; lia).
  remember (match_bytes orig_buf mem orig_mem (S n) i idx pattern repl s) as o eqn:Eo. cbn [match_bytes] in Eo.
  destruct (rd_inside mem (pattern + i)) as [p Ep]; [lia|]. rewrite (rd_bind _ _ p) in Eo by (done || lia).
  unfold rd_buf in Eo. unfold mbind at 1, I_bind at 1, mbind at 1, I_bind at 1, ask at 1 in Eo.
  destruct (rd_inside (i_buf s) (idx + i)) as [x Ex]; [rewrite Hb, Hlb; lia|].
  unfold rd at 1 in Eo. rewrite (proj2 (Z.leb_le 0 (idx + i))) in Eo by lia. rewrite Ex in Eo. unfold mret at 1, I_ret at 1 in Eo.
  destruct (rd_inside orig_mem (pattern + i)) as [op Eop]; [lia|]. rewrite (rd_bind _ _ op) in Eo by (done || lia).
  destruct (rd_inside orig_buf (idx + i)) as [ox Eox]; [lia|]. rewrite (rd_bind _ _ ox) in Eo by (done || lia).
  unfold mbind at 1, I_bind at 1, found at 1, ask at 1 in Eo.
  assert (Hx : b !! Z.to_nat (idx + i) = Some x) by (rewrite Hb in Ex; unfold splice in Ex; rewrite write_at_after in Ex by (fold R; lia); done).
  destruct (Z.eqb_spec (i_status s) 1) as [E1|E1]; [left; rewrite orb_true_r in Eo; by auto|]. rewrite orb_false_r in Eo.
  destruct (negb (p =? x) && negb (op =? ox)) eqn:Em.
  { left. split; [done|right]. apply andb_true_iff in Em as [N1%negb_true_iff%Z.eqb_neq N2%negb_true_iff%Z.eqb_neq].
    unfold byte_matches. rewrite Ep, Hx, Eop, Eox. intros [[= ?]|[= ?]]; done. }
  right. destruct (rd_inside mem (repl + i)) as [r Er]; [lia|]. rewrite (rd_bind _ _ r) in Eo by (done || lia).
  assert (HLS : take (Z.to_nat (i + 1)) R = take (Z.to_nat i) R ++ [r]).
  { replace (Z.to_nat (i + 1)) with (S (Z.to_nat i)) by lia. apply take_S_r. unfold R. rewrite lookup_drop.
    by replace (Z.to_nat repl + Z.to_nat i)%nat with (Z.to_nat (repl + i)) by lia. }
  assert (Hw : write_at (i_buf s) (idx + i) [r] = b').
  { rewrite Hb. unfold b', splice. fold R. rewrite HLS, <- write_at_snoc by lia. by replace (Z.of_nat (length (take (Z.to_nat i) R))) with i by lia. }
  unfold mbind at 1, I_bind at 1 in Eo. rewrite write_buf_run in Eo by (rewrite Hb; unfold in_range; simpl; lia). rewrite Hw in Eo.
  assert (Hb' : length b' = length b) by (apply length_write_at; unfold in_range; fold R; rewrite HLS, length_app; simpl; lia).
  unfold its_fuzz_buf, ask, its_fuzz, mbind, I_bind in Eo. cbn [i_buf put_buf i_world] in Eo.
  destruct (common_fuzz_stuff (i_world s) b') as [w [|]] eqn:E; cbn in Eo.
  - left. split; [done|]. split; [by eexists|]. exists (i_world s), b'. by rewrite E.
  - right. split; [done|]. match type of Eo with context [combine idx _ ?x] =>
      destruct (quiet_combine cap b' idx (Z.to_nat i) ltac:(lia) ltac:(unfold in_range; lia) x eq_refl Hc) as (s2 & E2 & B2 & C2 & R2) end. rewrite E2 in Eo.
    by exists s2.
Qed.

Lemma splice_position_less m m' idx pattern repl : m' <= m -> splice_position m idx pattern repl -> splice_position m' idx pattern repl.
Proof using. intros ? []. split; try done; lia. Qed.

Lemma match_bytes_spec n i idx pattern repl (s : its W) :
  0 <= i -> splice_position (i + Z.of_nat n) idx pattern repl ->
  i_buf s = splice idx repl (Z.to_nat i) -> length (i_cbuf s) = cap ->
  match match_bytes orig_buf mem orig_mem n i idx pattern repl s with
  | IRet j s' => i <= j <= i + Z.of_nat n /\ i_buf s' = splice idx repl (Z.to_nat j) /\ length (i_cbuf s') = cap
      /\ ran (spliced idx repl) s s'
  | IStop s' => ran (spliced idx repl) s s' /\ may_stop (W:=W)
  | IOob | IFuel => False
  end.
Proof using.
  revert i s. induction n as [|n IH]; intros i s Hi Hs Hb Hc; [split; [lia|done]|].
  assert (Hgood : forall s', i_runs s' = i_runs s ++ [splice idx repl (Z.to_nat (i + 1))] -> ran (spliced idx repl) s s').
  { intros s' E. eexists. split; [exact E|]. apply Forall_singleton. exists (Z.to_nat (i + 1)). destruct Hs.
    split; [lia|]. split; [unfold in_range; lia|done]. }
  destruct (match_bytes_step n i idx pattern repl s Hi ltac:(eapply splice_position_less; [|exact Hs]; lia) Hb Hc)
    as [[-> _]|[(_ & (s1 & -> & R1) & Hst)|(_ & s2 & -> & B2 & C2 & R2)]].
  - split; [lia|done].
  - split; [by apply Hgood|done].
  - specialize (IH (i + 1) s2 ltac:(lia) ltac:(by replace (i + 1 + Z.of_nat n) with (i + Z.of_nat (S n)) by lia) B2 C2).
    destruct (match_bytes _ _ _ n _ _ _ _ s2) as [j s'|s'| |]; [|destruct IH; split; [etrans; [by apply Hgood|done]|done]|done..].
    destruct IH as (Hj & Hbj & Hcj & Hrj). split; [lia|]. split; [done|]. split; [done|]. etrans; [by apply Hgood|done].
Qed.

(** If nothing is found, the loop goes on as long as the bytes match. *)
Lemma match_bytes_tries k n i idx pattern repl (s : its W) :
  0 <= i -> splice_position (i + Z.of_nat n) idx pattern repl ->
  i_buf s = splice idx repl (Z.to_nat i) -> length (i_cbuf s) = cap ->
  (forall j, i <= j < k -> byte_matches idx pattern j) -> i_status s <> 1 ->
  match match_bytes orig_buf mem orig_mem n i idx pattern repl s with
  | IRet _ s' => i_status s' <> 1 -> forall m, i < m <= k -> m <= i + Z.of_nat n -> splice idx repl (Z.to_nat m) ∈ i_runs s'
  | _ => True
  end.
Proof using.
  revert i s. induction n as [|n IH]; intros i s Hi Hs Hb Hc Hk Hu; [intros _ m ? ?; lia|].
  destruct (match_bytes_step n i idx pattern repl s Hi ltac:(eapply splice_position_less; [|exact Hs]; lia) Hb Hc)
    as [[-> Hstop]|[(_ & (s1 & -> & R1) & Hst)|(_ & s2 & -> & B2 & C2 & R2)]]; [|done|].
  - intros _ m Hm _. destruct Hstop as [?|Hno]; [done|]. destruct Hno. apply Hk. lia.
  - assert (Hs' : splice_position (i + 1 + Z.of_nat n) idx pattern repl) by (by replace (i + 1 + Z.of_nat n) with (i + Z.of_nat (S n)) by lia).
    pose proof (match_bytes_spec n (i + 1) idx pattern repl s2 ltac:(lia) Hs' B2 C2) as Hspec.
    destruct (decide (i_status s2 = 1)) as [E2|E2].
    + assert (Hleft : match_bytes orig_buf mem orig_mem n (i + 1) idx pattern repl s2 = IRet (i + 1) s2).
      { destruct n as [|n]; [done|].
        destruct (match_bytes_step n (i + 1) idx pattern repl s2 ltac:(lia) ltac:(eapply splice_position_less; [|exact Hs']; lia) B2 C2)
          as [[-> _]|[[? _]|[? _]]]; done. }
      rewrite Hleft. done.
    + specialize (IH (i + 1) s2 ltac:(lia) Hs' B2 C2 ltac:(intros j Hj; apply Hk; lia) E2).
      destruct (match_bytes _ _ _ n _ _ _ _ s2) as [j s'|s'| |]; [|done..]. intros Hu' m Hm Hmn.
      destruct (decide (m = i + 1)) as [-> |Hne]; [|apply IH; [done|lia|lia]].
      destruct Hspec as (_ & _ & _ & (new & -> & _)). rewrite R2. rewrite !elem_of_app. left. right. by apply list_elem_of_singleton.
Qed.

(** The bytes of [b] around [idx] are in [save]. *)
Lemma slice_save (rest : list Z) idx to its_len pre j :
  0 <= pre <= to -> to <= idx -> 0 <= j <= its_len + pre -> idx + its_len <= Z.of_nat (length b) ->
  let l := take (Z.to_nat (its_len + to)) (drop (Z.to_nat (idx - to)) b) in
  in_range (Z.to_nat j) (l ++ rest) (to - pre)
  /\ take (Z.to_nat j) (drop (Z.to_nat (to - pre)) (l ++ rest)) = take (Z.to_nat j) (drop (Z.to_nat (idx - pre)) b).
Proof using.
  intros Hp Ht Hj Hl l. assert (Hll : Z.of_nat (length l) = its_len + to) by (unfold l; rewrite length_take, length_drop; lia).
  split; [unfold in_range; rewrite length_app; lia|]. rewrite drop_app_le by lia. rewrite take_app_le by (rewrite length_drop; lia).
  unfold l. rewrite skipn_firstn_comm, take_take, drop_drop. f_equal; [lia|]. f_equal. lia.
Qed.

(** What an attempt at one place needs *)
Record arg_position (idx its_len to pattern repl : Z) : Prop := {
  rp_idx : 0 <= idx;
  rp_to : 0 <= to <= 4 /\ to <= idx;
  rp_len : 0 <= its_len <= 32 /\ idx + its_len <= Z.of_nat (length b);
  rp_orig : length orig_buf = length b;
  rp_cap : (length b <= cap)%nat;
  rp_pattern : 0 <= pattern /\ pattern + 36 <= Z.of_nat (length mem) /\ pattern + 36 <= Z.of_nat (length orig_mem);
  rp_repl : 0 <= repl /\ repl + 36 <= Z.of_nat (length mem);
}.

(** The inputs tried at [idx] *)
Definition spliced_before (idx repl : Z) (b' : list Z) : Prop := exists pre, 0 <= pre <= 4 /\ spliced (idx - pre) repl b'.

Lemma match_before_restores idx its_len to rest pattern repl pre :
  arg_position idx its_len to pattern repl -> 0 <= pre <= to ->
  restores b cap (spliced_before idx repl)
    (match_before orig_buf mem orig_mem idx its_len to (take (Z.to_nat (its_len + to)) (drop (Z.to_nat (idx - to)) b) ++ rest) pattern repl pre).
Proof using.
  intros [Hidx Hto Hlen Ho Hcap Hpat Hrep] Hpre. unfold match_before. apply restores_unless. apply restores_ask_bind. intros s0 Hb0 _. rewrite Hb0.
  do 2 (apply slice_bind; [unfold in_range; lia|]). apply restores_when. intros _. intros s Hb Hc.
  set (save := take _ _ ++ rest). unfold mbind, I_bind.
  pose proof (match_bytes_spec (Z.to_nat (its_len + pre)) 0 (idx - pre) pattern repl s ltac:(lia) ltac:(split; (done || lia))
    ltac:(rewrite Hb; symmetry; apply write_at_nil; lia) Hc) as H.
  assert (Hg : forall b', spliced (idx - pre) repl b' -> spliced_before idx repl b') by (intros b' Hb'; exists pre; split; [lia|done]).
  destruct (match_bytes _ _ _ _ _ _ _ _ s) as [j s'|s'| |]; [|split; [by eapply ran_weaken; [|apply H]|apply H]|done..].
  unfold splice in H. destruct H as (Hj & Hbj & Hcj & Hrj). unfold restore, mbind, I_bind, slice.
  destruct (slice_save rest idx to its_len pre j) as [S1 S2]; [lia..|]. fold save in S1, S2. rewrite decide_True by done. cbn.
  rewrite S2. set (R := take (Z.to_nat j) (drop (Z.to_nat repl) mem)) in *.
  assert (HR : length R = Z.to_nat j) by (unfold R; rewrite length_take, length_drop; lia).
  rewrite <- HR. rewrite write_buf_run; rewrite Hbj.
  - cbn. rewrite write_at_back by (unfold in_range; lia). split_and!; [done..|]. by eapply ran_weaken.
  - unfold in_range. rewrite length_write_at by (unfold in_range; lia). rewrite length_take, length_drop. lia.
Qed.

Lemma for_each_restores (f : Z -> I W unit) good l : (forall x, x ∈ l -> restores b cap good (f x)) -> restores b cap good (for_each f l).
Proof using.
  induction l as [|x l IH]; intros H; [apply restores_ret|]. cbn [for_each].
  apply restores_bind; [apply H; left|intros _; apply IH; intros y Hy; apply H; by right].
Qed.

Lemma rd_restores good l i : 0 <= i < Z.of_nat (length l) -> restores b cap good (rd (W:=W) l i).
Proof using.
  intros Hi. destruct (rd_inside l i Hi) as [x Hx]. unfold rd. rewrite (proj2 (Z.leb_le 0 i)), Hx by lia. apply restores_ret.
Qed.

(** The logged arguments: room for four of them after [o], and bytes *)
Definition args_ok (o : Z) : Prop :=
  0 <= o /\ o + 128 <= Z.of_nat (length mem) /\ o + 128 <= Z.of_nat (length orig_mem)
  /\ Forall byte_ok mem /\ Forall byte_ok orig_mem.

Lemma operand_len_restores good o entry : args_ok o -> restores b cap good (operand_len (W:=W) hshape mem orig_mem o entry).
Proof using.
  intros (Ho & M1 & M2 & _ & _). assert (Harg : forall e, o <= arg o e <= o + 32) by (intros []; unfold arg; lia).
  pose proof (Harg entry). pose proof (Harg (negb entry)). unfold operand_len.
  do 4 (apply restores_bind; [apply rd_restores; lia|intros ?]). destruct (_ || _); apply restores_if; intros _; apply restores_ret.
Qed.

Lemma rd_ret (l : list Z) i (s s' : its W) x : rd l i s = IRet x s' -> l !! Z.to_nat i = Some x /\ s' = s.
Proof using. unfold rd. destruct (0 <=? i); [|done]. destruct (l !! _); [by intros [= -> ->]|done]. Qed.

Lemma operand_len_value o entry (s s' : its W) l : args_ok o ->
  operand_len hshape mem orig_mem o entry s = IRet l s' -> 0 <= l.1 /\ 0 <= l.2.
Proof using.
  intros (_ & _ & _ & F1 & F2). unfold operand_len, mbind, I_bind, mret, I_ret.
  destruct (rd mem _ s) as [l0 s1|s1| |] eqn:E0; [|done..]. destruct (rd orig_mem _ s1) as [ol0 s2|s2| |] eqn:E1; [|done..].
  destruct (rd mem _ s2) as [l1 s3|s3| |]; [|done..]. destruct (rd orig_mem _ s3) as [ol1 s4|s4| |]; [|done..].
  apply rd_ret in E0 as [E0 _], E1 as [E1 _]. pose proof (Forall_lookup_1 _ _ _ _ F1 E0) as B0. pose proof (Forall_lookup_1 _ _ _ _ F2 E1) as B1.
  unfold byte_ok in B0, B1. pose proof (Z.mod_pos_bound hshape (2 ^ 8) ltac:(lia)) as Bh.
  pose proof (Z.mod_pos_bound (l0 - 0x80) (2 ^ 8) ltac:(lia)). pose proof (Z.mod_pos_bound (ol0 - 0x80) (2 ^ 8) ltac:(lia)).
  destruct ((0x80 <=? l0) || (0x80 <=? ol0)).
  - destruct (_ || (31 <? u8 (ol1 - 0x80))); intros [= <- <-]; simpl; unfold u8; lia.
  - destruct (_ || (31 <? ol1)); intros [= <- <-]; simpl; unfold u8; lia.
Qed.

Lemma rtn_extend_encoding_restores transform entry o idx taint_len :
  transform && negb (Z.land lvl LVL3 =? 0) = false -> 0 < hshape <= 32 -> args_ok o ->
  Z.of_nat (length b) = len -> len < 2 ^ 32 -> length orig_buf = length b -> (length b <= cap)%nat ->
  0 <= idx < len -> 0 <= taint_len ->
  restores b cap (spliced_before idx (arg o (negb entry)))
    (rtn_extend_encoding transform orig_buf lvl hshape len mem orig_mem entry o idx taint_len).
Proof using.
  intros Hplain Hh Hok Hlen Hu Horig Hcap Hidx Ht. unfold rtn_extend_encoding.
  apply (restores_bind_val _ _ _ (fun l => 0 <= l.1 /\ 0 <= l.2)); [by apply operand_len_restores|intros s l s'; by apply operand_len_value|].
  intros [l0 ol0] [H0 H0']. cbn [fst snd] in H0, H0'. destruct Hok as (Ho & M1 & M2 & _ & _).
  assert (Harg : forall e, o <= arg o e <= o + 32) by (intros []; unfold arg; lia).
  pose proof (Harg entry) as A1. pose proof (Harg (negb entry)) as A2. cbv zeta.
  set (its_len := Z.min _ taint_len). set (to := if negb (Z.land lvl LVL3 =? 0) then Z.min 4 idx else 0). set (from := if (_ : bool) then 1 else 0).
  assert (Hits : 0 <= its_len <= 32 /\ idx + its_len <= Z.of_nat (length b)).
  { unfold its_len, u32. rewrite Z.mod_small by lia. lia. }
  assert (Hto : 0 <= to <= 4 /\ to <= idx) by (unfold to; destruct (negb _); lia).
  assert (Hfrom : 0 <= from) by (unfold from; case_match; lia).
  apply restores_ask_bind. intros s0 Hb0 _. rewrite Hb0. apply slice_bind; [unfold in_range; lia|]. cbv beta.
  set (l := take _ _). assert (Hl : Z.of_nat (length l) = its_len + to) by (unfold l; rewrite length_take, length_drop; lia).
  unfold write_save. rewrite (proj2 (Z.ltb_ge 40 (Z.of_nat (length l)))) by lia.
  apply (restores_bind_val _ _ _ (fun save => save = write_at (map fresh (seq 0 40)) 0 l)); [apply restores_ret|by intros s v s' [= <- _]|intros ? ->].
  apply restores_bind.
  - apply for_each_restores. intros pre Hpre. apply elem_of_seqZ in Hpre. unfold write_at. cbn [take app].
    apply match_before_restores; [|lia]. split; [lia..|done|done|lia|lia].
  - intros _. apply restores_unless. rewrite Hplain. apply restores_ret.
Qed.
End direct.

(** ** The whole routine *)

Section fuzz.
Context {W : Type} `{!Fuzzer W} `{!Unspecified W}.
Context (transform is_ascii : bool) (orig_buf b : list Z) (lvl hshape len : Z) (cap : nat) (mem orig_mem : list Z) (taints : list tainted).
Hypothesis Hin : solver_input orig_buf b len cap taints.
Hypothesis Hplain : transform && negb (Z.land lvl LVL3 =? 0) = false.
Hypothesis Hshape : 0 < hshape <= 32.

(** The logs of the routine: bytes, with room for [n] calls and more, and a zero somewhere
    behind them *)
Record calls_ok (n : nat) : Prop := {
  co_len : length orig_mem = length mem;
  co_room : OPERANDS * Z.of_nat n + 64 <= Z.of_nat (length mem);
  co_bytes : Forall byte_ok mem /\ Forall byte_ok orig_mem;
  co_zero : last mem = Some 0;
}.

(** The inputs tried: a prefix of an argument at a tainted position, or just before it *)
Definition solved_rtn (n : nat) : list Z -> Prop :=
  in_taint taints (fun idx _ b' => exists i e, (i < n)%nat /\ spliced_before b mem idx (arg (OPERANDS * Z.of_nat i) e) b').

Context (n : nat).
Hypothesis Hcalls : calls_ok n.

Lemma args_of i : (i < n)%nat -> args_ok mem orig_mem (OPERANDS * Z.of_nat i).
Proof using Hcalls. intros Hi. destruct Hcalls as [? ? [? ?] ?]. unfold args_ok, OPERANDS in *. split_and!; try done; lia. Qed.

Lemma try_arguments_restores i idx taint_len :
  (i < n)%nat -> 0 <= idx < len -> 0 < taint_len <= len - idx ->
  restores b cap (fun b' => exists i e, (i < n)%nat /\ spliced_before b mem idx (arg (OPERANDS * Z.of_nat i) e) b')
    (try_arguments transform orig_buf lvl hshape len mem orig_mem (OPERANDS * Z.of_nat i) idx taint_len).
Proof using Hin Hplain Hshape Hcalls.
  intros Hi Hidx Ht. pose proof (args_of i Hi) as Ha. destruct Hin as [_ Hlen Ho Hcap Hu _ _ _].
  assert (He : forall e, restores b cap (fun b' => exists i e, (i < n)%nat /\ spliced_before b mem idx (arg (OPERANDS * Z.of_nat i) e) b')
    (rtn_extend_encoding transform orig_buf lvl hshape len mem orig_mem e (OPERANDS * Z.of_nat i) idx taint_len)).
  { intros e. eapply restores_weaken; [|apply (rtn_extend_encoding_restores orig_buf b lvl hshape len cap); (done || lia)].
    intros b' Hb'. by exists i, (negb e). }
  unfold try_arguments. apply restores_bind; [by apply restores_change|intros _]. apply restores_bind; [apply He|intros _].
  apply restores_bind; [apply restores_ask|intros f]. apply restores_if; [intros _; apply restores_ret|intros _].
  apply restores_bind; [by apply restores_change|intros _]. apply restores_bind; [apply He|intros _]. apply restores_ask.
Qed.

(** There is a zero to end every string. *)
Lemma strlen_restores good at_ :
  0 <= at_ < Z.of_nat (length mem) -> restores b cap good (strlen mem at_).
Proof using Hcalls.
  intros Ha. unfold strlen. rewrite (proj2 (Nat.ltb_lt _ _)); [apply restores_ret|].
  destruct Hcalls as [_ _ _ Hz]. clear - Ha Hz. rewrite last_lookup in Hz. set (tail := drop (Z.to_nat at_) mem).
  assert (Ht : tail !! pred (length tail) = Some 0).
  { unfold tail. rewrite lookup_drop, length_drop. rewrite <- Hz. f_equal. lia. }
  clearbody tail. clear - Ht. induction tail as [|c tail IH]; [done|]. simpl. destruct (Z.eqb_spec c 0); simpl; [lia|].
  apply -> Nat.succ_lt_mono. apply IH. destruct tail as [|d tail]; [by simplify_eq/=|exact Ht].
Qed.

Lemma strlen_value at_ (s s' : its W) v :
  0 <= at_ -> strlen mem at_ s = IRet v s' -> 0 <= v /\ at_ + v <= Z.of_nat (length mem).
Proof using.
  clear Hin Hplain Hshape Hcalls. intros Ha. unfold strlen. set (k := count_while _ _).
  destruct (Nat.ltb_spec k (length (drop (Z.to_nat at_) mem))) as [H|H]; [|done]. intros [= <- _]. rewrite length_drop in H. lia.
Qed.

Lemma learn_arguments_restores good i f :
  (i < n)%nat -> restores b cap good (learn_arguments lvl hshape mem orig_mem is_ascii (OPERANDS * Z.of_nat i) f).
Proof using Hshape Hcalls.
  intros Hi. destruct (args_of i Hi) as (Ho & M1 & M2 & _ & _). pose proof (co_len _ Hcalls) as Hl. unfold learn_arguments.
  set (o := OPERANDS * Z.of_nat i) in *.
  assert (Harg : forall e, o <= arg o e <= o + 32) by (intros []; unfold arg; lia).
  assert (Hlen : forall e, restores b cap good (word_len hshape mem is_ascii (arg o e))).
  { intros e. specialize (Harg e). unfold word_len. apply slice_bind; [unfold in_range; lia|].
    apply restores_if; [intros _|intros _; apply restores_ret].
    apply restores_bind; [apply strlen_restores; lia|intros v; apply restores_ret]. }
  assert (Hval : forall e (s s' : its W) v, word_len hshape mem is_ascii (arg o e) s = IRet v s' -> 0 <= v /\ arg o e + v <= Z.of_nat (length mem)).
  { intros e s s' v. specialize (Harg e). unfold word_len, slice. rewrite decide_True by (unfold in_range; lia).
    unfold mbind, I_bind, mret, I_ret. destruct (_ || _); [|intros [= <- _]; lia].
    destruct (strlen mem (arg o e) s) as [u s1|s1| |] eqn:E; [|done..]. apply strlen_value in E; [|lia].
    intros [= <- _]. destruct (u =? 0); lia. }
  assert (Hlearn : forall e v, 0 <= v /\ arg o e + v <= Z.of_nat (length mem) -> restores b cap good (learn_argument mem orig_mem f (arg o e) v)).
  { intros e v Hv. specialize (Harg e). unfold learn_argument. do 2 (apply slice_bind; [unfold in_range; lia|]).
    apply restores_when. intros _. intros s Hb Hc. split_and!; [done..|]. exists []. by rewrite app_nil_r. }
  apply restores_when. intros _.
  eapply restores_bind_val; [apply Hlen|intros s v s'; apply (Hval false)|intros v Hv].
  eapply restores_bind_val; [apply Hlen|intros s u s'; apply (Hval true)|intros u Hu].
  apply restores_bind; [by apply Hlearn|intros _; by apply Hlearn].
Qed.

Lemma rtn_entry_restores i f :
  (i < n)%nat -> restores b cap (solved_rtn n) (rtn_entry transform orig_buf lvl hshape len mem orig_mem taints is_ascii i f).
Proof using Hin Hplain Hshape Hcalls.
  intros Hi. unfold rtn_entry. apply restores_bind.
  { destruct (args_of i Hi) as (Ho & M1 & M2 & _ & _).
    assert (Hjs : Forall (fun j => j < i)%nat (seq 0 i)) by (apply Forall_seq; intros; lia).
    induction Hjs as [|j js Hj _ IH]; [apply restores_ret|]. cbn [any_same].
    apply restores_bind; [|intros f'; apply restores_if; [intros _; apply restores_ret|intros _; exact IH]].
    unfold same_call. do 2 (apply slice_bind; [unfold in_range, OPERANDS in *; lia|]). apply restores_ret. }
  intros dup. apply restores_bind; [|intros f'; apply restores_bind; [by apply restores_change|intros _; apply restores_ret]].
  apply restores_if; [intros _; apply restores_ret|intros _]. apply restores_bind.
  - pose proof (si_some _ _ _ _ _ Hin) as Hs. set (loop := positions _ _ _ _).
    replace (if taints is [] then oob else loop) with loop by (by destruct taints). subst loop.
    pose proof (si_len _ _ _ _ _ Hin). apply (positions_restores orig_buf b len cap taints Hin); [intros; by apply try_arguments_restores|lia|lia| |].
    + eapply ahead_reverse; [apply Hin|apply (si_in _ _ _ _ _ Hin)].
    + intros x. by rewrite elem_of_reverse.
  - intros f'. apply restores_bind; [by apply learn_arguments_restores|intros _; apply restores_ret].
Qed.

Lemma rtn_entries_restores todo f :
  Forall (fun i => i < n)%nat todo ->
  restores b cap (solved_rtn n) (rtn_entries transform orig_buf lvl hshape len mem orig_mem taints is_ascii todo f).
Proof using Hin Hplain Hshape Hcalls.
  intros Ht. revert f. induction Ht as [|i todo Hi _ IH]; intros f; [apply restores_ret|]. cbn [rtn_entries].
  apply restores_bind; [by apply rtn_entry_restores|intros f'; apply IH].
Qed.
End fuzz.

(** ** Every match is tried *)

Section tries_direct.
Context {W : Type} `{!Fuzzer W} `{!Unspecified W}.
Context (transform is_ascii : bool) (orig_buf b : list Z) (lvl hshape len : Z) (cap : nat) (mem orig_mem : list Z) (taints : list tainted).
Hypothesis Hin : solver_input orig_buf b len cap taints.
Hypothesis Hplain : transform && negb (Z.land lvl LVL3 =? 0) = false.
Hypothesis Hlvl : Z.land lvl LVL1 <> 0.
Hypothesis Hshape : 0 < hshape <= 32.

Lemma match_before_tries idx its_len to rest pattern repl m :
  arg_position orig_buf b cap mem orig_mem idx its_len to pattern repl -> 0 < m <= its_len ->
  (forall j, 0 <= j < m -> byte_matches orig_buf b mem orig_mem idx pattern j) ->
  tries (W:=W) b cap (splice b mem idx repl (Z.to_nat m)) unfound
    (match_before orig_buf mem orig_mem idx its_len to (take (Z.to_nat (its_len + to)) (drop (Z.to_nat (idx - to)) b) ++ rest) pattern repl 0)
    (fun _ => unfound).
Proof using.
  intros Hpos Hm Hmatch. pose proof (match_before_restores orig_buf b cap mem orig_mem idx its_len to rest pattern repl 0 Hpos) as Hr.
  destruct Hpos as [Hidx Hto Hlen Ho Hcap Hpat Hrep]. specialize (Hr ltac:(lia)).
  intros s Hb Hc Hu. specialize (Hr s Hb Hc). revert Hr. unfold match_before, unless_found, found, ask. unfold mbind, I_bind.
  rewrite (proj2 (Z.eqb_neq _ _) Hu). cbn [negb when]. rewrite Hb, !slice_run by (unfold in_range; simpl; lia).
  unfold mret, I_ret. cbn [when orb Z.eqb]. rewrite !Z.sub_0_r.
  pose proof (match_bytes_tries orig_buf b cap mem orig_mem m (Z.to_nat (its_len + 0)) 0 idx pattern repl s ltac:(lia) ltac:(split; (done || lia))
    ltac:(rewrite Hb; symmetry; apply write_at_nil; lia) Hc ltac:(intros j Hj; apply Hmatch; lia) Hu) as Ht.
  destruct (match_bytes _ _ _ _ _ _ _ _ s) as [j s'|s'| |]; [|done..]. unfold restore, mbind, I_bind.
  destruct (slice _ _ _ s') as [l s1|s1| |] eqn:E1; [|done..].
  assert (s1 = s') as -> by (unfold slice in E1; case_decide; [by injection E1|done]).
  unfold write_buf, mbind, I_bind, ask. case_decide; [|done]. cbn. intros _ Hu'. apply Ht; [done|lia|lia].
Qed.

Lemma for_each_sticky (f : Z -> I W unit) l : (forall x, sticky (f x)) -> sticky (for_each f l).
Proof using. clear. intros H. induction l as [|x l IH]; [apply sticky_ret|]. cbn [for_each]. by apply sticky_bind. Qed.

(** The first [m] bytes of an argument of the call at [o] are at [idx], and [x] has the
    first [m] bytes of the other one there. *)
Definition occurs_arg (entry : bool) (o idx m : Z) (x : list Z) : Prop :=
  (exists l0 ol0, (forall s : its W, operand_len hshape mem orig_mem o entry s = IRet (l0, ol0) s) /\ 0 < m <= Z.max l0 ol0 /\ m <= hshape)
  /\ (forall j, 0 <= j < m -> byte_matches orig_buf b mem orig_mem idx (arg o entry) j)
  /\ x = splice b mem idx (arg o (negb entry)) (Z.to_nat m).

Lemma rtn_extend_encoding_tries entry o idx taint_len m x :
  args_ok mem orig_mem o -> 0 <= idx < len -> m <= taint_len <= len - idx -> occurs_arg entry o idx m x ->
  tries (W:=W) b cap x unfound (rtn_extend_encoding transform orig_buf lvl hshape len mem orig_mem entry o idx taint_len) (fun _ => unfound).
Proof using Hin Hplain Hlvl Hshape.
  intros Hok Hidx Ht ((l0 & ol0 & Hlen & Hm & Hmh) & Hmatch & ->). destruct Hin as [_ Hl Ho Hcap Hu _ _ _].
  pose proof Hok as (Ho' & M1 & M2 & _ & _).
  assert (Harg : forall e, o <= arg o e <= o + 32) by (intros []; unfold arg; lia).
  pose proof (Harg entry) as A1. pose proof (Harg (negb entry)) as A2.
  unfold rtn_extend_encoding. eapply tries_pure; [exact Hlen|]. cbv beta iota zeta.
  set (its_len := Z.min _ taint_len). set (to := if negb (Z.land lvl LVL3 =? 0) then Z.min 4 idx else 0).
  rewrite (proj2 (Z.eqb_neq _ _) Hlvl), andb_false_r. cbn [andb].
  assert (Hits : m <= its_len <= 32 /\ idx + its_len <= Z.of_nat (length b)).
  { unfold its_len, u32. rewrite Z.mod_small by lia. lia. }
  assert (Hto : 0 <= to <= 4 /\ to <= idx) by (unfold to; destruct (negb _); lia).
  assert (Hpos : arg_position orig_buf b cap mem orig_mem idx its_len to (arg o entry) (arg o (negb entry))) by (split; (done || lia)).
  apply tries_ask. intros s0 Hb0. rewrite Hb0. eapply tries_pure; [intros s; apply slice_run; unfold in_range; lia|]. cbv beta.
  set (l := take _ _). assert (Hll : Z.of_nat (length l) = its_len + to) by (unfold l; rewrite length_take, length_drop; lia).
  eapply (tries_pure b cap _ _ _ (write_at (map fresh (seq 0 40)) 0 l)).
  { intros s. unfold write_save. by rewrite (proj2 (Z.ltb_ge 40 (Z.of_nat (length l)))) by lia. }
  cbv beta. unfold write_at at 1. cbn [take app]. rewrite (seqZ_cons 0 (to + 1 - 0)) by lia. cbn [for_each]. rewrite Hplain.
  eapply (tries_sticky b cap _ (fun b' => spliced_before b mem idx (arg o (negb entry)) b')).
  - apply restores_bind; [apply match_before_restores; [done|lia]|intros _].
    apply for_each_restores. intros pre Hpre. apply elem_of_seqZ in Hpre. apply match_before_restores; [done|lia].
  - intros _. apply restores_unless, restores_ret.
  - apply sticky_unless.
  - eapply (tries_sticky b cap _ (fun b' => spliced_before b mem idx (arg o (negb entry)) b')).
    + apply match_before_restores; [done|lia].
    + intros _. apply for_each_restores. intros pre Hpre. apply elem_of_seqZ in Hpre. apply match_before_restores; [done|lia].
    + apply for_each_sticky. intros pre. apply sticky_unless.
    + apply match_before_tries; [done|lia|done].
Qed.

Context (n : nat).
Hypothesis Hcalls : calls_ok mem orig_mem n.

Lemma try_arguments_tries i entry idx taint_len m x :
  (i < n)%nat -> 0 <= idx < len -> m <= taint_len <= len - idx -> occurs_arg entry (OPERANDS * Z.of_nat i) idx m x ->
  tries b cap x (fun _ => True) (try_arguments transform orig_buf lvl hshape len mem orig_mem (OPERANDS * Z.of_nat i) idx taint_len) (fun f _ => f = false).
Proof using Hin Hplain Hlvl Hshape Hcalls.
  intros Hi Hidx Ht Hx. pose proof (args_of mem orig_mem n Hcalls i Hi) as Ha. pose proof Hin as [_ Hl Ho Hcap Hu _ _ _].
  set (o := OPERANDS * Z.of_nat i) in *.
  assert (Hm : 0 < m) by (destruct Hx as ((? & ? & _ & ? & _) & _); lia).
  set (good := fun _ : list Z => True).
  assert (He : forall e, restores b cap good (rtn_extend_encoding transform orig_buf lvl hshape len mem orig_mem e o idx taint_len)).
  { intros e. eapply restores_weaken; [|apply (rtn_extend_encoding_restores orig_buf b lvl hshape len cap); (done || lia)]. done. }
  assert (Hrest : restores b cap good (change (put_status 0);; rtn_extend_encoding transform orig_buf lvl hshape len mem orig_mem true o idx taint_len;; found)).
  { apply restores_bind; [by apply restores_change|intros _]. apply restores_bind; [apply He|intros _; apply restores_ask]. }
  unfold try_arguments.
  eapply (tries_then b cap x good _ (fun _ => unfound)); [by apply restores_change|by intros s _|intros _]. destruct entry.
  - eapply (tries_then (A:=unit) b cap x good _ (fun _ _ => True)); [apply He|by intros s _; destruct (rtn_extend_encoding _ _ _ _ _ _ _ _ _ _ _ s)|intros _].
    eapply (tries_then (A:=bool) b cap x good _ (fun _ _ => True)); [apply restores_ask|done|intros [|]]; [by intros s|].
    eapply (tries_then b cap x good _ (fun _ => unfound)); [by apply restores_change|by intros s _|intros _].
    apply tries_last. by apply (rtn_extend_encoding_tries true o idx taint_len m).
  - eapply tries_found; [apply He|exact Hrest|]. by apply (rtn_extend_encoding_tries false o idx taint_len m).
Qed.

(** A call that was not made before is looked for at every tainted position. *)
Lemma rtn_entry_tries x i entry t idx m (f0 : bool) :
  (i < n)%nat -> (forall s : its W, any_same mem i (seq 0 i) s = IRet false s) ->
  t ∈ taints -> t_pos t <= idx -> idx + m <= t_pos t + t_len t -> occurs_arg entry (OPERANDS * Z.of_nat i) idx m x ->
  tries b cap x (fun _ => True) (rtn_entry transform orig_buf lvl hshape len mem orig_mem taints is_ascii i f0) (fun f _ => f = false).
Proof using Hin Hplain Hlvl Hshape Hcalls.
  intros Hi Hdup Ht H1 H2 Hx. pose proof (proj1 (Forall_forall _ _) (si_in _ _ _ _ _ Hin) t Ht) as (T1 & T2 & T3).
  pose proof (si_len _ _ _ _ _ Hin) as Hlen. assert (Hm : 0 < m) by (destruct Hx as ((? & ? & _ & ? & _) & _); lia).
  unfold rtn_entry. eapply tries_pure; [exact Hdup|]. cbv beta iota.
  set (loop := positions _ _ _ _).
  replace (if taints is [] then oob else loop) with loop by (by destruct taints; [apply elem_of_nil in Ht|]).
  assert (Hall : forall j tl, 0 <= j < len -> 0 < tl <= len - j -> restores b cap (fun _ => True)
     (try_arguments transform orig_buf lvl hshape len mem orig_mem (OPERANDS * Z.of_nat i) j tl)).
  { intros j tl Hj Htl. eapply restores_weaken; [|by apply (try_arguments_restores transform orig_buf b lvl hshape len cap mem orig_mem taints Hin Hplain Hshape n Hcalls)].
    done. }
  assert (Hahead : ahead 0 (reverse taints)) by (eapply ahead_reverse; [apply Hin|apply (si_in _ _ _ _ _ Hin)]).
  assert (Hloop : restores b cap (in_taint taints (fun _ _ _ => True)) loop).
  { apply (positions_restores orig_buf b len cap taints Hin (fun _ _ _ => True)); [done|lia|lia|done|]. intros y. by rewrite elem_of_reverse. }
  assert (Htry : tries b cap x (fun _ => True) loop (fun f _ => f = false)).
  { apply (positions_tries orig_buf b len cap taints Hin x (fun _ => True) _ t idx);
      [done| |lia|lia|lia|done|by rewrite elem_of_reverse|intros y; by rewrite elem_of_reverse].
    apply (try_arguments_tries i entry idx _ m); [done|lia|lia|done]. }
  intros s Hb Hc _. specialize (Hloop s Hb Hc). specialize (Htry s Hb Hc Logic.I).
  unfold mbind, I_bind, mret, I_ret, change. destruct (loop s) as [f s'|s'| |]; [|done..]. destruct Hloop as (Hb' & Hc' & _).
  pose proof (learn_arguments_restores is_ascii b lvl hshape cap mem orig_mem Hshape n Hcalls (fun _ => True) i (f0 || f) Hi s' Hb' Hc') as Hlearn.
  destruct (learn_arguments _ _ _ _ _ _ _ s') as [[] s''|s''| |]; [|done..]. simpl. intros Hf.
  apply orb_false_iff in Hf as [_ ->]. eapply ran_elem; [apply Hlearn|]. by apply Htry.
Qed.

(** A find is not forgotten. *)
Lemma rtn_entry_found i s f s' :
  rtn_entry transform orig_buf lvl hshape len mem orig_mem taints is_ascii i true s = IRet f s' -> f = true.
Proof using.
  clear. unfold rtn_entry. unfold mbind, I_bind, mret, I_ret, change.
  destruct (any_same _ _ _ s) as [[|] s1|s1| |]; [by intros [= <- _]| |done..].
  match goal with |- context [match ?m s1 with _ => _ end] => destruct (m s1) as [f2 s2|s2| |]; [|done..] end.
  destruct (learn_arguments _ _ _ _ _ _ _ s2) as [[] s3|s3| |]; [|done..]. by intros [= <- _].
Qed.

Lemma rtn_entries_found todo s f s' :
  rtn_entries transform orig_buf lvl hshape len mem orig_mem taints is_ascii todo true s = IRet f s' -> f = true.
Proof using.
  revert s. induction todo as [|i todo IH]; intros s; cbn [rtn_entries]; [by intros [= <- _]|].
  unfold mbind, I_bind. destruct (rtn_entry _ _ _ _ _ _ _ _ _ i true s) as [f1 s1|s1| |] eqn:E; [|done..].
  apply rtn_entry_found in E as ->. apply IH.
Qed.

Lemma rtn_entries_tries x i entry t idx m todo f0 :
  i ∈ todo -> Forall (fun i => i < n)%nat todo -> (forall s : its W, any_same mem i (seq 0 i) s = IRet false s) ->
  t ∈ taints -> t_pos t <= idx -> idx + m <= t_pos t + t_len t -> occurs_arg entry (OPERANDS * Z.of_nat i) idx m x ->
  tries b cap x (fun _ => True) (rtn_entries transform orig_buf lvl hshape len mem orig_mem taints is_ascii todo f0) (fun f _ => f = false).
Proof using Hin Hplain Hlvl Hshape Hcalls.
  intros Hi Htodo Hdup Ht H1 H2 Hx. revert f0.
  induction Htodo as [|j todo Hj Hall IH]; [by apply elem_of_nil in Hi|]. intros f0. cbn [rtn_entries].
  pose proof (rtn_entry_restores transform is_ascii orig_buf b lvl hshape len cap mem orig_mem taints Hin Hplain Hshape n Hcalls j f0 Hj) as Hr.
  apply elem_of_cons in Hi as [->|Hi].
  - pose proof (rtn_entry_tries x j entry t idx m f0 Hj Hdup Ht H1 H2 Hx) as Htry.
    intros s Hb Hc _. specialize (Hr s Hb Hc). specialize (Htry s Hb Hc Logic.I). unfold mbind, I_bind.
    destruct (rtn_entry _ _ _ _ _ _ _ _ _ _ _ s) as [f1 s1|s1| |]; [|done..]. destruct Hr as (Hb1 & Hc1 & _).
    pose proof (rtn_entries_restores transform is_ascii orig_buf b lvl hshape len cap mem orig_mem taints Hin Hplain Hshape n Hcalls todo f1 Hall s1 Hb1 Hc1) as Hr1.
    destruct (rtn_entries _ _ _ _ _ _ _ _ _ _ _ s1) as [f s'|s'| |] eqn:E; [|done..]. intros ->.
    eapply ran_elem; [apply Hr1|]. apply Htry. destruct f1; [|done]. by apply rtn_entries_found in E.
  - eapply (tries_then (A:=bool) b cap x _ _ (fun _ _ => True)); [exact Hr|by intros s _; destruct (rtn_entry _ _ _ _ _ _ _ _ _ _ _ s)|].
    intros f. by apply IH.
Qed.
End tries_direct.

(** ** The theorems *)

(** C31: without the transformations of level 3, solving the logged calls of a routine is safe
    whatever the target logged: no access leaves a buffer; each input that is run is the
    colored input with a prefix of one argument written at a tainted position, or up to
    four bytes before; the colored input is as it was at the end, unless a run asks to
    stop; and the counters of the routine only grow, up to 255. *)
Theorem rtn_fuzz_correct {W} `{!Fuzzer W} `{!Unspecified W} transform is_ascii orig_buf b lvl len cap h mem orig_mem taints p (s : its W) :
  let n := Z.to_nat (logged h CMP_MAP_RTN_H) in
  solver_input orig_buf b len cap taints -> transform && negb (Z.land lvl LVL3 =? 0) = false ->
  0 <= shape h < 32 -> calls_ok mem orig_mem n -> counters_ok p -> i_buf s = b -> length (i_cbuf s) = cap ->
  match rtn_fuzz transform orig_buf lvl (SHAPE_BYTES (shape h)) len mem orig_mem taints is_ascii h p s with
  | IRet p' s' =>
      i_buf s' = b /\ length (i_cbuf s') = cap /\ ran (solved_rtn b mem taints n) s s'
      /\ counters_ok p' /\ total p <= total p' /\ faileds p <= faileds p'
  | IStop s' => ran (solved_rtn b mem taints n) s s' /\ may_stop (W:=W)
  | IOob | IFuel => False
  end.
Proof.
  intros n Hin Hpl Hsh Hcalls Hp Hb Hc. unfold rtn_fuzz, mbind, I_bind, mret, I_ret. fold n.
  pose proof (rtn_entries_restores transform is_ascii orig_buf b lvl (SHAPE_BYTES (shape h)) len cap mem orig_mem taints Hin Hpl
    ltac:(unfold SHAPE_BYTES; lia) n Hcalls (seq 0 n) false ltac:(apply Forall_seq; intros; lia) s Hb Hc) as H.
  destruct (rtn_entries _ _ _ _ _ _ _ _ _ _ _ s) as [f s'|s'| |]; [|done..]. destruct H as (? & ? & ?).
  match goal with |- context [update_pass ?l f p] => pose proof (update_pass_ok l f p Hp) end. tauto.
Qed.

(** Direct replacement of compared strings is exhaustive: if solving the logged calls ends
    without a find, then wherever the first [m] bytes of an argument are in a tainted
    region (of the colored input or, byte by byte, of the original), the input with the
    first [m] bytes of the other argument in that place has been run. *)
Theorem rtn_fuzz_exhaustive {W} `{!Fuzzer W} `{!Unspecified W} transform is_ascii orig_buf b lvl len cap h mem orig_mem taints (s s' : its W) i entry t idx m x :
  let n := Z.to_nat (logged h CMP_MAP_RTN_H) in
  let hshape := SHAPE_BYTES (shape h) in
  solver_input orig_buf b len cap taints -> transform && negb (Z.land lvl LVL3 =? 0) = false -> Z.land lvl LVL1 <> 0 ->
  0 <= shape h < 32 -> calls_ok mem orig_mem n -> i_buf s = b -> length (i_cbuf s) = cap ->
  rtn_entries transform orig_buf lvl hshape len mem orig_mem taints is_ascii (seq 0 n) false s = IRet false s' ->
  (i < n)%nat -> (forall s : its W, any_same mem i (seq 0 i) s = IRet false s) ->
  t ∈ taints -> t_pos t <= idx -> idx + m <= t_pos t + t_len t ->
  occurs_arg (W:=W) orig_buf b hshape mem orig_mem entry (OPERANDS * Z.of_nat i) idx m x -> x ∈ i_runs s'.
Proof.
  intros n hshape Hin Hpl Hlv Hsh Hcalls Hb Hc E Hi Hdup Ht H1 H2 Hx.
  pose proof (rtn_entries_tries transform is_ascii orig_buf b lvl hshape len cap mem orig_mem taints Hin Hpl Hlv
    ltac:(unfold hshape, SHAPE_BYTES; lia) n Hcalls x i entry t idx m (seq 0 n) false) as H.
  specialize (H ltac:(apply elem_of_seq; lia) ltac:(apply Forall_seq; intros; lia) Hdup Ht H1 H2 Hx s Hb Hc Logic.I).
  rewrite E in H. by apply H.
Qed.

(** ** A logged call, for the witnesses *)

Definition field (l : list Z) (n : Z) : list Z := l ++ replicate (31 - length l) 0 ++ [n].
Definition one_call (x y : list Z) (n : Z) : list Z := field x n ++ field y n ++ replicate 128 0.

Definition abcd_mem : list Z := one_call [65; 66; 67; 68] [87; 88; 89; 90] 4.
Definition abcd_orig : list Z := one_call [97; 98; 99; 100] [87; 88; 89; 90] 4.
Definition abcd_header : cmp_header := CmpHeader 1 3 2 0.

Lemma abcd_input : solver_input [97; 98; 99; 100] [65; 66; 67; 68] 4 132 [Tainted 0 4].
Proof. split; [byte_list|done|done|simpl; lia|lia|done|done|]. repeat constructor; simpl; lia. Qed.

Lemma abcd_calls : calls_ok abcd_mem abcd_orig 1.
Proof.
  split; [reflexivity|vm_compute; discriminate| |reflexivity].
  split; apply (bool_decide_unpack (Forall byte_ok _)); vm_compute; exact Logic.I.
Qed.

Lemma rtn_fuzz_correct_witness :
  match rtn_fuzz true [97; 98; 99; 100] 1 4 4 abcd_mem abcd_orig [Tainted 0 4] true abcd_header (PassStat 0 0)
          (its_start [65; 66; 67; 68] (replicate 132 0)) with
  | IRet _ s' => i_buf s' = [65; 66; 67; 68]
  | _ => True
  end.
Proof.
  pose proof (rtn_fuzz_correct true true [97; 98; 99; 100] [65; 66; 67; 68] 1 4 132 abcd_header abcd_mem abcd_orig [Tainted 0 4] (PassStat 0 0)
    (its_start [65; 66; 67; 68] (replicate 132 0)) abcd_input eq_refl ltac:(simpl; lia) abcd_calls
    ltac:(unfold counters_ok; simpl; lia) eq_refl eq_refl) as H.
  change (SHAPE_BYTES (shape abcd_header)) with 4 in H.
  destruct (rtn_fuzz _ _ _ _ _ _ _ _ _ _ _ _); [apply H|exact Logic.I..].
Defined.

Lemma rtn_fuzz_exhaustive_witness :
  exists s', rtn_entries false [97; 98; 99; 100] 1 4 4 abcd_mem abcd_orig [Tainted 0 4] false [0%nat] false
    (its_start [65; 66; 67; 68] (replicate 132 0)) = IRet false s' /\ [87; 88; 89; 90] ∈ i_runs s'.
Proof.
  eexists. split; [vm_compute; reflexivity|].
  eapply (rtn_fuzz_exhaustive false false [97; 98; 99; 100] [65; 66; 67; 68] 1 4 132 abcd_header abcd_mem abcd_orig [Tainted 0 4]
    (its_start [65; 66; 67; 68] (replicate 132 0)) _ 0 false (Tainted 0 4) 0 4).
  - exact abcd_input.
  - reflexivity.
  - vm_compute; discriminate.
  - simpl; lia.
  - exact abcd_calls.
  - reflexivity.
  - reflexivity.
  - vm_compute; reflexivity.
  - vm_compute; lia.
  - reflexivity.
  - left.
  - simpl; lia.
  - simpl; lia.
  - split; [exists 4, 4; split; [reflexivity|vm_compute; split; [split; [reflexivity|discriminate]|discriminate]]|].
    split; [|reflexivity]. intros j Hj. left.
    assert (Hj' : j = 0 \/ j = 1 \/ j = 2 \/ j = 3) by lia. destruct Hj' as [-> |[-> |[-> | ->]]]; reflexivity.
Defined.

(** ** What the transformations do *)

(** The xor attempt has overwritten the first byte when the loop is left at [i = 0]; the
    restoring copy has length [i], so the byte stays overwritten. *)
Example transform_leaves_input_changed :
  match rtn_extend_encoding true [98; 98; 99; 100] LVL3 4 4
          (one_call [0x52; 0x51; 0x50; 0x57] [90; 90; 90; 90] 4) (one_call [0x71; 0x71; 0x70; 0x77] [89; 90; 90; 90] 4)
          false 0 0 4 (its_start [65; 66; 67; 68] (replicate 132 0)) with
  | IRet _ s' => (i_buf s', i_runs s') = ([73; 66; 67; 68], [[73; 66; 67; 68]])
  | _ => False
  end.
Proof. vm_compute. reflexivity. Qed.

(** The input [0x123] is taken for hexadecimal text; its replacement with the prefix is
    written at the same place and ends one byte behind the input. *)
Example fromhex_writes_behind_the_input :
  rtn_extend_encoding true [48; 120; 49; 50; 51] LVL3 4 5
    (one_call [1; 2; 3; 4] [5; 6; 7; 8] 4) (one_call [0x12; 0x30; 9; 9] [5; 6; 7; 8] 4)
    false 0 0 5 (its_start [48; 121; 50; 51; 52] (replicate 133 0)) = IOob.
Proof. vm_compute. reflexivity. Qed.

(** An argument found by writing [m] bytes reaches [cbuf] without the last of them. *)
Definition picky_find : Fuzzer Z := {|
  common_fuzz_stuff w b := (w + (if bool_decide (b = [87; 66]) then 1 else 0), false);
  trace_cksum _ := 0; maybe_add_auto w _ := w; hit_cnt w := w;
|}.
Definition any_unspecified : Unspecified Z := {| errno_after _ := false; fresh _ := 0; shr_over x n := x |}.

Example combine_misses_the_last_byte :
  match rtn_extend_encoding (Fuzzer0:=picky_find) (Unspecified0:=any_unspecified) false [97; 98] LVL1 2 2
          (one_call [65; 66] [87; 88] 2) (one_call [97; 98] [87; 88] 2) false 0 0 2
          (Its [65; 66] [97; 98] 0 false [] 0 0 []) with
  | IRet _ s' => (i_status s', i_runs s', i_cbuf s') = (1, [[87; 66]], [97; 98])
  | _ => False
  end.
Proof. vm_compute. reflexivity. Qed.

(** Upper case is tested with the mask 0x5a, not 0x5f as in [cmp_extend_encoding]: a lower
    case letter passes the test for 7 of the 26 letters only. *)
Example toupper_recognises_seven_letters :
  filter (fun c => Z.land c 0x5a = c - 32) (seqZ 97 26) = [98; 104; 106; 112; 114; 120; 122].
Proof. vm_compute. reflexivity. Qed.

Lemma toupper_misses g c oc :
  97 <= c <= 122 -> Z.land c 0x5a <> c - 32 -> toupper (guess_bytes c (c - 32) oc (oc - 32) g) = toupper g.
Proof. intros _ H. simpl. by rewrite (proj2 (Z.eqb_neq _ _) H). Qed.

(** The difference in the original is compared as an [int], the one in the colored input as
    a byte: a transformation that makes a byte of the original smaller is not recognised. *)
Lemma arith_misses_decrease g x p ox op : op < ox -> arith (guess_bytes x p ox op g) = arith g.
Proof.
  intros H. simpl. pose proof (Z.mod_pos_bound (p - x) (2 ^ 8) ltac:(lia)).
  rewrite (proj2 (Z.eqb_neq _ _)); [done|]. unfold u8. lia.
Qed.
