(* ===== verification/TestCache.v ===== *)
(** * The cache of test cases (src/aflplusplus/src/afl-fuzz-queue.c)

    [queue_testcase_get] returns the contents of a queue entry, from memory if it is
    cached and else from its file; it evicts random entries other than the current one
    when the cache is full.  The cache is an array of slots ([q_testcase_cache]) with its
    counters; an entry knows whether its contents are in memory ([testcase_buf]). *)
From S2P Require Import Prelude OneHelpers Rng DetStages ExtrasStages Havoc HavocSpec.

Definition TESTCASE_CACHE_SIZE : Z := 50.

(** A queue entry as the cache sees it: its file, [len], and [testcase_buf]. *)
Record tc_entry := TcEntry { tc_file : list Z; tc_len : Z; testcase_buf : option (list Z) }.

Record tcache := TCache {
  tc_queue : list tc_entry;
  queue_cur : nat;
  q_testcase_cache : list (option nat);
  q_testcase_max_cache_size : Z;
  q_testcase_max_cache_entries : Z;
  q_testcase_cache_size : Z;
  q_testcase_max_cache_count : Z;
  q_testcase_cache_count : Z;
  q_testcase_smallest_free : Z;
  q_testcase_evictions : Z;
  do_once : bool;
}.

Inductive tout (W A : Type) := TDone (a : A) (s : tcache) (w : W) | TOob | TStarved.
Arguments TDone {W A}. Arguments TOob {W A}. Arguments TStarved {W A}.

Section cache.
Context {W : Type} `{!Random W}.

(** [cache_size + len >= max_cache_size || cache_count >= max_cache_entries - 1] *)
Definition cache_full (len : Z) (s : tcache) : bool :=
  (q_testcase_max_cache_size s <=? u64 (q_testcase_cache_size s + len))
  || (u32 (q_testcase_max_cache_entries s - 1) <=? q_testcase_cache_count s).

(** [while (cache[tid] != NULL) ++tid;] *)
Fixpoint find_free (slots : list (option nat)) (tid : nat) : option nat :=
  match slots with
  | [] => None
  | Some _ :: slots => find_free slots (S tid)
  | None :: _ => Some tid
  end.
Definition search_free (s : tcache) (tid : Z) : option nat :=
  find_free (drop (Z.to_nat tid) (q_testcase_cache s)) (Z.to_nat tid).

(** Put the contents of an entry into memory and into a slot. *)
Definition register (q : nat) (buf : list Z) (tid : nat) (s : tcache) : tcache :=
  let len := match tc_queue s !! q with Some e => tc_len e | None => 0 end in
  let t := Z.of_nat tid in
  TCache (alter (fun e => TcEntry (tc_file e) (tc_len e) (Some buf)) q (tc_queue s)) (queue_cur s)
    (<[tid := Some q]> (q_testcase_cache s)) (q_testcase_max_cache_size s) (q_testcase_max_cache_entries s)
    (u64 (q_testcase_cache_size s + len))
    (if q_testcase_max_cache_count s <=? t then u32 (t + 1) else q_testcase_max_cache_count s)
    (u32 (q_testcase_cache_count s + 1))
    (if q_testcase_max_cache_count s <=? t then q_testcase_smallest_free s
     else if t =? q_testcase_smallest_free s then u32 (t + 1) else q_testcase_smallest_free s)
    (q_testcase_evictions s) (do_once s).

(** The learned maximum of entries. *)
Definition learn_entries (len : Z) (s : tcache) : tcache :=
  if (q_testcase_max_cache_size s <=? u64 (q_testcase_cache_size s + len))
     && (q_testcase_cache_count s <? q_testcase_max_cache_entries s)
     && (q_testcase_max_cache_count s <? q_testcase_max_cache_entries s) && negb (do_once s)
  then
    let entries :=
      if q_testcase_cache_count s <? q_testcase_max_cache_count s
      then u32 (q_testcase_max_cache_count s + 1) else u32 (q_testcase_cache_count s + 1) in
    let slots := Z.to_nat (entries + 1) in
    TCache (tc_queue s) (queue_cur s)
      (take slots (q_testcase_cache s ++ replicate (slots - length (q_testcase_cache s)) None))
      (q_testcase_max_cache_size s) entries (q_testcase_cache_size s) (q_testcase_max_cache_count s)
      (q_testcase_cache_count s) (q_testcase_smallest_free s) (q_testcase_evictions s) true
  else s.

(** [cache[tid] == NULL || cache[tid] == queue_cur] *)
Definition keep_slot (s : tcache) (tid : Z) : bool :=
  match q_testcase_cache s !! Z.to_nat tid with
  | Some (Some k) => bool_decide (k = queue_cur s)
  | Some None => true
  | None => false
  end.

(** The draws for a slot to evict. *)
Fixpoint draw_slot (fuel : nat) (s : tcache) (w : W) : option (Z * W) :=
  match fuel with
  | O => None
  | S fuel =>
      let '(tid, w) := below w (q_testcase_max_cache_count s) in
      if keep_slot s tid then draw_slot fuel s w else Some (tid, w)
  end.

Definition evict (tid : Z) (s : tcache) : option tcache :=
  match q_testcase_cache s !! Z.to_nat tid with
  | Some (Some k) =>
      let len := match tc_queue s !! k with Some e => tc_len e | None => 0 end in
      Some (TCache (alter (fun e => TcEntry (tc_file e) (tc_len e) None) k (tc_queue s)) (queue_cur s)
        (<[Z.to_nat tid := None]> (q_testcase_cache s)) (q_testcase_max_cache_size s)
        (q_testcase_max_cache_entries s) (u64 (q_testcase_cache_size s - len))
        (q_testcase_max_cache_count s) (u32 (q_testcase_cache_count s - 1))
        (if tid <? q_testcase_smallest_free s then tid else q_testcase_smallest_free s)
        (u32 (q_testcase_evictions s + 1)) (do_once s))
  | _ => None
  end.

(** [while (cache is full) { ... evict ... }]: the last slot evicted is where the entry
    goes. *)
Fixpoint make_room (patience fuel : nat) (len tid : Z) (s : tcache) (w : W) : tout W Z :=
  if cache_full len s then
    match fuel with
    | O => TStarved
    | S fuel =>
        let s := learn_entries len s in
        match draw_slot patience s w with
        | None => TStarved
        | Some (tid, w) =>
            match evict tid s with
            | None => TOob
            | Some s => make_room patience fuel len tid s w
            end
        end
    end
  else TDone tid s w.

Definition queue_testcase_get (patience fuel : nat) (q : nat) (s : tcache) (w : W) : tout W (list Z) :=
  match tc_queue s !! q with
  | None => TOob
  | Some e =>
      let contents := take (Z.to_nat (tc_len e)) (tc_file e) in
      if q_testcase_max_cache_size s =? 0 then TDone contents s w
      else
        match testcase_buf e with
        | Some buf => TDone buf s w
        | None =>
            match make_room patience fuel (tc_len e) (q_testcase_max_cache_count s) s w with
            | TDone tid s w =>
                let tid := if q_testcase_max_cache_entries s <=? tid then q_testcase_smallest_free s else tid in
                match search_free s tid with
                | None => TOob
                | Some tid => TDone contents (register q contents tid s) w
                end
            | TOob => TOob
            | TStarved => TStarved
            end
        end
  end.

(** A new entry, its contents at hand ([mem] has its [len] bytes). *)
Definition queue_testcase_store_mem (q : nat) (mem : list Z) (s : tcache) : option tcache :=
  match tc_queue s !! q with
  | None => None
  | Some e =>
      if cache_full (tc_len e) s then Some s
      else
        let tid :=
          if q_testcase_max_cache_entries s <=? q_testcase_max_cache_count s
          then q_testcase_smallest_free s else q_testcase_max_cache_count s in
        tid ← search_free s tid; Some (register q mem tid s)
  end.

(** After trimming to [mem], which is on disk already ([ptr] from [realloc] is not NULL). *)
Definition queue_testcase_retake_mem (q : nat) (mem : list Z) (old_len : Z) (s : tcache) : option tcache :=
  match tc_queue s !! q with
  | None => None
  | Some e =>
      let len := Z.of_nat (length mem) in
      match testcase_buf e with
      | None => Some s
      | Some _ =>
          Some (TCache (alter (fun e => TcEntry (tc_file e) (tc_len e) (Some mem)) q (tc_queue s)) (queue_cur s)
            (q_testcase_cache s) (q_testcase_max_cache_size s) (q_testcase_max_cache_entries s)
            (if len =? old_len then q_testcase_cache_size s else u64 (q_testcase_cache_size s + len - old_len))
            (q_testcase_max_cache_count s) (q_testcase_cache_count s) (q_testcase_smallest_free s)
            (q_testcase_evictions s) (do_once s))
      end
  end.

(** After a custom trim: the contents are read again from the file ([realloc] and the read
    end the program if they fail). *)
Definition queue_testcase_retake (q : nat) (old_len : Z) (s : tcache) : option tcache :=
  match tc_queue s !! q with
  | None => None
  | Some e =>
      match testcase_buf e with
      | None => Some s
      | Some _ =>
          let len := tc_len e in
          Some (TCache
            (alter (fun e => TcEntry (tc_file e) (tc_len e) (Some (take (Z.to_nat len) (tc_file e)))) q (tc_queue s))
            (queue_cur s) (q_testcase_cache s) (q_testcase_max_cache_size s) (q_testcase_max_cache_entries s)
            (if len =? old_len then q_testcase_cache_size s else u64 (q_testcase_cache_size s + len - old_len))
            (q_testcase_max_cache_count s) (q_testcase_cache_count s) (q_testcase_smallest_free s)
            (q_testcase_evictions s) (do_once s))
      end
  end.

(** ** The operations the fuzzer does on the cache *)

(** The cache as [main] allocates it, before anything is in the queue. *)
Definition cache_init (size entries : Z) : tcache :=
  TCache [] 0 (replicate (Z.to_nat entries) None) size entries 0 0 0 0 0 false.

Definition with_queue (f : list tc_entry -> list tc_entry) (cur : nat) (s : tcache) : tcache :=
  TCache (f (tc_queue s)) cur (q_testcase_cache s) (q_testcase_max_cache_size s) (q_testcase_max_cache_entries s)
    (q_testcase_cache_size s) (q_testcase_max_cache_count s) (q_testcase_cache_count s)
    (q_testcase_smallest_free s) (q_testcase_evictions s) (do_once s).

(** [save_if_interesting] adds an entry for [mem], whose file it has written. *)
Definition save_entry (mem : list Z) (s : tcache) : option tcache :=
  let s1 := with_queue (fun l => l ++ [TcEntry mem (Z.of_nat (length mem)) None]) (queue_cur s) s in
  if q_testcase_max_cache_size s =? 0 then Some s1
  else queue_testcase_store_mem (length (tc_queue s)) mem s1.

(** The end of [trim_case], when it has changed the entry: the file is rewritten.  A custom
    trimmer leaves the new contents in the file only. *)
Definition trim_entry (custom : bool) (q : nat) (mem : list Z) (s : tcache) : option tcache :=
  old ← tc_queue s !! q;
  let s1 := with_queue (alter (fun e => TcEntry mem (Z.of_nat (length mem)) (testcase_buf e)) q) (queue_cur s) s in
  if custom then queue_testcase_retake q (tc_len old) s1 else queue_testcase_retake_mem q mem (tc_len old) s1.

Inductive cache_op :=
  | NewEntry (mem : list Z)
  | Select (q : nat)
  | Get (q : nat)
  | Trim (custom : bool) (q : nat) (mem : list Z).

Definition no_output (s : option tcache) (w : W) : tout W (option (list Z)) :=
  match s with Some s => TDone None s w | None => TOob end.

Definition cache_step (patience fuel : nat) (op : cache_op) (s : tcache) (w : W) : tout W (option (list Z)) :=
  match op with
  | NewEntry mem => no_output (save_entry mem s) w
  | Select q => TDone None (with_queue id q s) w
  | Get q =>
      match queue_testcase_get patience fuel q s w with
      | TDone l s w => TDone (Some l) s w
      | TOob => TOob
      | TStarved => TStarved
      end
  | Trim custom q mem => no_output (trim_entry custom q mem s) w
  end.

Fixpoint cache_run (patience fuel : nat) (ops : list cache_op) (s : tcache) (w : W) : tout W (list (option (list Z))) :=
  match ops with
  | [] => TDone [] s w
  | op :: ops =>
      match cache_step patience fuel op s w with
      | TDone o s w =>
          match cache_run patience fuel ops s w with
          | TDone os s w => TDone (o :: os) s w
          | r => r
          end
      | TOob => TOob
      | TStarved => TStarved
      end
  end.
End cache.

(** ** What the cache is meant to be: the files *)

Definition files_step (op : cache_op) (files : list (list Z)) : option (option (list Z) * list (list Z)) :=
  match op with
  | NewEntry mem =>
      if decide (Z.of_nat (length mem) < MAX_FILE) then Some (None, files ++ [mem]) else None
  | Select q => _ ← files !! q; Some (None, files)
  | Get q => l ← files !! q; Some (Some l, files)
  | Trim _ q mem =>
      l ← files !! q; if decide (length mem <= length l)%nat then Some (None, <[q := mem]> files) else None
  end.

Fixpoint files_run (ops : list cache_op) (files : list (list Z)) : option (list (option (list Z)) * list (list Z)) :=
  match ops with
  | [] => Some ([], files)
  | op :: ops =>
      '(o, files) ← files_step op files;
      '(os, files) ← files_run ops files;
      Some (o :: os, files)
  end.
