(* ===== verification/TestCacheTheorems.v ===== *)
(** * The cache of test cases: the theorems

    The counters always describe the slots, what is in memory is what is on disk, so
    [queue_testcase_get] is the file's contents whatever was cached and evicted before; the
    eviction loop ends when the current entry and the wanted one fit together, and does not
    when they do not. *)
From S2P Require Import Prelude OneHelpers Rng DetStages ExtrasStages Havoc HavocSpec TestCache.

(** ** Sums over the occupied slots *)

Fixpoint slots_sum (f : nat -> Z) (l : list (option nat)) : Z :=
  match l with
  | [] => 0
  | Some k :: l => f k + slots_sum f l
  | None :: l => slots_sum f l
  end.

Lemma slots_sum_fill f l i k :
  l !! i = Some None -> slots_sum f (<[i := Some k]> l) = slots_sum f l + f k.
Proof.
  revert i. induction l as [|[j|] l IH]; intros [|i] Hi; try done; simpl in *.
  - rewrite IH by done. lia.
  - lia.
  - by apply IH.
Qed.

Lemma slots_sum_clear f l i k :
  l !! i = Some (Some k) -> slots_sum f (<[i := None]> l) = slots_sum f l - f k.
Proof.
  revert i. induction l as [|[j|] l IH]; intros [|i] Hi; try done; simpl in *.
  - injection Hi as ->. lia.
  - rewrite IH by done. lia.
  - by apply IH.
Qed.

Lemma slots_sum_app f l l' : slots_sum f (l ++ l') = slots_sum f l + slots_sum f l'.
Proof. induction l as [|[k|] l IH]; simpl; lia. Qed.

Lemma slots_sum_none f l : (forall i k, l !! i <> Some (Some k)) -> slots_sum f l = 0.
Proof.
  induction l as [|[k|] l IH]; intros H; simpl; [done| |].
  - by destruct (H 0%nat k).
  - apply IH. intros i k. apply (H (S i)).
Qed.

Lemma slots_sum_nonneg f l : (forall k, 0 <= f k) -> 0 <= slots_sum f l.
Proof. intros Hf. induction l as [|[k|] l IH]; simpl; [lia|specialize (Hf k); lia|done]. Qed.

(** Changing the weight of an occupant that has one slot. *)
Lemma slots_sum_change f g l i k :
  l !! i = Some (Some k) -> (forall j, l !! j = Some (Some k) -> j = i) ->
  (forall j, j <> k -> g j = f j) -> slots_sum g l = slots_sum f l + (g k - f k).
Proof.
  revert i. induction l as [|o l IH]; intros i Hi Hu Hg; [done|].
  assert (Hrest : forall l, (forall j, l !! j <> Some (Some k)) -> slots_sum g l = slots_sum f l).
  { clear -Hg. induction l as [|[j|] l IH]; intros Hn; simpl; [done| |].
    - rewrite IH by (intros i; apply (Hn (S i))). rewrite Hg; [done|]. intros ->. by apply (Hn 0%nat).
    - apply IH. intros i. apply (Hn (S i)). }
  destruct i as [|i]; simpl in Hi.
  - injection Hi as ->. simpl. rewrite Hrest; [lia|]. intros j Hj. by specialize (Hu (S j) Hj).
  - assert (Hu' : forall j, l !! j = Some (Some k) -> j = i) by (intros j Hj; specialize (Hu (S j) Hj); lia).
    specialize (IH i Hi Hu' Hg). destruct o as [j|]; simpl; [|exact IH].
    rewrite IH, Hg; [lia|]. intros ->. by specialize (Hu 0%nat eq_refl).
Qed.

Lemma slots_sum_ext f g l :
  (forall i k, l !! i = Some (Some k) -> g k = f k) -> slots_sum g l = slots_sum f l.
Proof.
  induction l as [|[k|] l IH]; intros H; simpl; [done| |].
  - rewrite (H 0%nat k eq_refl), IH; [done|]. intros i j. apply (H (S i)).
  - apply IH. intros i j. apply (H (S i)).
Qed.

Notation one := (fun _ : nat => 1).

(** Fewer occupants than slots: one is free. *)
Lemma free_slot l n :
  (n <= length l)%nat -> slots_sum one l < Z.of_nat n ->
  exists i, (i < n)%nat /\ l !! i = Some None.
Proof.
  revert n. induction l as [|[k|] l IH]; intros [|n] Hn Hs; simpl in *; try lia.
  - pose proof (slots_sum_nonneg one l (fun _ => ltac:(lia))). lia.
  - destruct (IH n) as (i & Hi & Hl); [lia|lia|]. exists (S i). split; [lia|done].
  - pose proof (slots_sum_nonneg one l (fun _ => ltac:(lia))). lia.
  - exists 0%nat. split; [lia|done].
Qed.

Lemma count_bound l n :
  (forall i k, l !! i = Some (Some k) -> (i < n)%nat) -> slots_sum one l <= Z.of_nat n.
Proof.
  revert n. induction l as [|[k|] l IH]; intros n H; simpl; [lia| |].
  - specialize (H 0%nat k eq_refl) as H0. destruct n as [|n]; [lia|].
    assert (slots_sum one l <= Z.of_nat n); [|lia]. apply IH. intros i j Hj. specialize (H (S i) j Hj). lia.
  - apply IH. intros i j Hj. specialize (H (S i) j Hj). lia.
Qed.

Lemma find_free_some slots t i :
  find_free slots t = Some i -> (t <= i)%nat /\ slots !! (i - t)%nat = Some None.
Proof.
  revert t. induction slots as [|[k|] slots IH]; intros t E; simpl in *; [done| |].
  - apply IH in E as [H1 H2]. split; [lia|]. replace (i - t)%nat with (S (i - S t)) by lia. done.
  - injection E as <-. rewrite Nat.sub_diag. split; [lia|done].
Qed.

Lemma find_free_ex slots t j :
  slots !! j = Some None -> exists i, find_free slots t = Some i /\ (i <= t + j)%nat.
Proof.
  revert t j. induction slots as [|[k|] slots IH]; intros t [|j] Hj; simpl in *; try done.
  - destruct (IH (S t) j Hj) as (i & E & Hi). exists i. split; [done|lia].
  - exists t. split; [done|lia].
  - exists t. split; [done|lia].
Qed.

(** The search for a free slot, from a start that is not above one. *)
Lemma search_free_ok s t j :
  0 <= t <= Z.of_nat j -> q_testcase_cache s !! j = Some None ->
  exists i, search_free s t = Some i /\ (i <= j)%nat /\ q_testcase_cache s !! i = Some None.
Proof.
  intros Ht Hj. unfold search_free.
  destruct (find_free_ex (drop (Z.to_nat t) (q_testcase_cache s)) (Z.to_nat t) (j - Z.to_nat t)) as (i & E & Hi).
  { rewrite lookup_drop. by replace (Z.to_nat t + (j - Z.to_nat t))%nat with j by lia. }
  exists i. split; [done|]. apply find_free_some in E as [H1 H2]. split; [lia|].
  rewrite lookup_drop in H2. by replace (Z.to_nat t + (i - Z.to_nat t))%nat with i in H2 by lia.
Qed.

(** ** The invariant *)

Definition len_of (s : tcache) (k : nat) : Z :=
  match tc_queue s !! k with Some e => tc_len e | None => 0 end.

(** An entry's file has its length, and memory, if any, holds the file. *)
Definition entry_ok (e : tc_entry) : Prop :=
  tc_len e = Z.of_nat (length (tc_file e)) /\ tc_len e <= MAX_FILE
  /\ forall buf, testcase_buf e = Some buf -> buf = tc_file e.

Record cache_ok (s : tcache) : Prop := {
  co_entries : Forall entry_ok (tc_queue s);
  co_slots : q_testcase_max_cache_entries s <= Z.of_nat (length (q_testcase_cache s));
  co_max : 0 <= q_testcase_max_cache_count s <= q_testcase_max_cache_entries s;
  co_u32 : 1 <= q_testcase_max_cache_entries s < 2 ^ 32 - 1;
  co_high : forall i k, q_testcase_cache s !! i = Some (Some k) -> Z.of_nat i < q_testcase_max_cache_count s;
  co_cached : forall i k, q_testcase_cache s !! i = Some (Some k) ->
    exists e, tc_queue s !! k = Some e /\ is_Some (testcase_buf e);
  co_back : forall k e, tc_queue s !! k = Some e -> is_Some (testcase_buf e) ->
    exists i, q_testcase_cache s !! i = Some (Some k);
  co_inj : forall i j k, q_testcase_cache s !! i = Some (Some k) -> q_testcase_cache s !! j = Some (Some k) -> i = j;
  co_count : q_testcase_cache_count s = slots_sum one (q_testcase_cache s);
  co_size : q_testcase_cache_size s = slots_sum (len_of s) (q_testcase_cache s);
  co_room : q_testcase_cache_count s < q_testcase_max_cache_entries s;
  co_fits : q_testcase_cache_size s < q_testcase_max_cache_size s < 2 ^ 62;
  co_free : forall i, q_testcase_cache s !! i = Some None -> q_testcase_smallest_free s <= Z.of_nat i;
  co_low : 0 <= q_testcase_smallest_free s;
}.

Lemma len_nonneg s k : cache_ok s -> 0 <= len_of s k <= 26214400.
Proof.
  intros Hs. unfold len_of. destruct (tc_queue s !! k) as [e|] eqn:E; [|lia].
  pose proof (co_entries s Hs) as H. rewrite Forall_forall in H.
  destruct (H e) as (H1 & H2 & _); [by eapply list_elem_of_lookup_2|]. unfold MAX_FILE in H2. lia.
Qed.

Lemma size_nonneg s : cache_ok s -> 0 <= q_testcase_cache_size s.
Proof. intros Hs. rewrite (co_size s Hs). apply slots_sum_nonneg. intros k. by apply len_nonneg. Qed.

Lemma count_nonneg s : cache_ok s -> 0 <= q_testcase_cache_count s.
Proof. intros Hs. rewrite (co_count s Hs). apply slots_sum_nonneg. lia. Qed.

Lemma cache_full_spec len s :
  cache_ok s -> 0 <= len <= 26214400 ->
  cache_full len s = true <->
  q_testcase_max_cache_size s <= q_testcase_cache_size s + len
  \/ q_testcase_max_cache_entries s - 1 <= q_testcase_cache_count s.
Proof.
  intros Hs Hl. pose proof (size_nonneg s Hs). pose proof (co_fits s Hs). pose proof (co_u32 s Hs).
  unfold cache_full. rewrite u64_id, u32_id by lia. rewrite orb_true_iff, !Z.leb_le. done.
Qed.

(** ** Changes of one entry keep the rest *)

Section alter.
Context (s : tcache) (k : nat) (f : tc_entry -> tc_entry).
Hypothesis Hf : forall e, tc_len (f e) = tc_len e.

Lemma alter_len j :
  match alter f k (tc_queue s) !! j with Some e => tc_len e | None => 0 end = len_of s j.
Proof using Hf.
  unfold len_of. rewrite list_lookup_alter. case_decide as Hd; [subst j|done].
  destruct (tc_queue s !! k); simpl; [apply Hf|done].
Qed.
End alter.

Lemma lookup_alter_inv (l : list tc_entry) k j f e :
  alter f k l !! j = Some e ->
  (j <> k /\ l !! j = Some e) \/ (j = k /\ exists e0, l !! k = Some e0 /\ e = f e0).
Proof.
  rewrite list_lookup_alter. case_decide as Hd; [subst j|by left]. right. split; [done|].
  destruct (l !! k) as [e0|]; [|done]. simpl in *. exists e0. split; congruence.
Qed.

Lemma entries_alter (l : list tc_entry) k f :
  Forall entry_ok l -> (forall e, l !! k = Some e -> entry_ok e -> entry_ok (f e)) -> Forall entry_ok (alter f k l).
Proof.
  intros Hl Hf. rewrite Forall_lookup in *. intros j e Hj.
  apply lookup_alter_inv in Hj as [[_ Hj]|(-> & e0 & H0 & ->)]; eauto.
Qed.

(** ** Registering, evicting, learning *)

Lemma register_ok q e tid s :
  cache_ok s -> tc_queue s !! q = Some e -> testcase_buf e = None ->
  q_testcase_cache s !! tid = Some None -> Z.of_nat tid < q_testcase_max_cache_entries s ->
  cache_full (tc_len e) s = false ->
  cache_ok (register q (tc_file e) tid s).
Proof.
  intros Hs Hq Hnone Hfree Htid Hfull. pose proof (len_nonneg s q Hs) as Hlen. unfold len_of in Hlen. rewrite Hq in Hlen.
  assert (Hroom : q_testcase_cache_size s + tc_len e < q_testcase_max_cache_size s
    /\ q_testcase_cache_count s < q_testcase_max_cache_entries s - 1).
  { apply not_true_iff_false in Hfull. rewrite cache_full_spec in Hfull by done. lia. }
  pose proof (size_nonneg s Hs). pose proof (count_nonneg s Hs). pose proof (co_fits s Hs). pose proof (co_u32 s Hs).
  pose proof (co_max s Hs). pose proof (co_low s Hs).
  assert (Hslot : (tid < length (q_testcase_cache s))%nat) by (by eapply lookup_lt_Some).
  assert (Hnew : forall i k, <[tid := Some q]> (q_testcase_cache s) !! i = Some (Some k) ->
    (i = tid /\ k = q) \/ (i <> tid /\ q_testcase_cache s !! i = Some (Some k))).
  { intros i k Hi. destruct (decide (i = tid)) as [->|]; [left|right].
    - rewrite list_lookup_insert_eq in Hi by done. split; congruence.
    - by rewrite list_lookup_insert_ne in Hi. }
  assert (Huncached : forall i, q_testcase_cache s !! i <> Some (Some q)).
  { intros i Hi. destruct (co_cached s Hs i q Hi) as (e' & He' & [x Hx]). congruence. }
  assert (Hmx : (if q_testcase_max_cache_count s <=? Z.of_nat tid then u32 (Z.of_nat tid + 1)
                 else q_testcase_max_cache_count s) = Z.max (q_testcase_max_cache_count s) (Z.of_nat tid + 1)).
  { destruct (Z.leb_spec (q_testcase_max_cache_count s) (Z.of_nat tid)); [rewrite u32_id by lia|]; lia. }
  split; unfold register; simpl.
  - apply entries_alter; [apply Hs|]. intros e0 He0 (A & B & C). split; [done|]. split; [done|].
    simpl. intros buf [= <-]. congruence.
  - rewrite length_insert. apply Hs.
  - rewrite Hmx. lia.
  - done.
  - intros i k Hi. rewrite Hmx. apply Hnew in Hi as [[-> ->]|[_ Hi]]; [lia|]. apply (co_high s Hs) in Hi. lia.
  - intros i k Hi. rewrite list_lookup_alter. case_decide as Hd.
    + subst k. rewrite Hq. simpl. eexists. split; [done|]. by eexists.
    + apply Hnew in Hi as [[_ ->]|[_ Hi]]; [done|]. by apply (co_cached s Hs) in Hi.
  - intros k e' Hk Hb. apply lookup_alter_inv in Hk as [[Hne Hk]|(-> & _)].
    + destruct (co_back s Hs k e' Hk Hb) as [i Hi]. exists i. rewrite list_lookup_insert_ne; [done|]. intros ->. congruence.
    + exists tid. by rewrite list_lookup_insert_eq.
  - intros i j k Hi Hj. apply Hnew in Hi, Hj. destruct Hi as [[-> ->]|[Hi' Hi]], Hj as [[-> Hk]|[Hj' Hj]]; [done| | |].
    + by apply Huncached in Hj.
    + subst k. by apply Huncached in Hi.
    + by apply (co_inj s Hs i j k).
  - rewrite slots_sum_fill by done. rewrite u32_id by lia. rewrite (co_count s Hs). done.
  - rewrite (slots_sum_ext (len_of s)); [|intros i k _; by apply alter_len].
    rewrite slots_sum_fill by done. rewrite Hq, u64_id by lia. unfold len_of at 2. rewrite Hq, (co_size s Hs). done.
  - rewrite u32_id by lia. lia.
  - rewrite Hq, u64_id by lia. lia.
  - intros i Hi. destruct (decide (i = tid)) as [->|Hne]; [by rewrite list_lookup_insert_eq in Hi|].
    rewrite list_lookup_insert_ne in Hi by done. pose proof (co_free s Hs i Hi) as Hfr.
    destruct (_ <=? Z.of_nat tid); [done|]. destruct (Z.eqb_spec (Z.of_nat tid) (q_testcase_smallest_free s)); [|done].
    rewrite u32_id by lia. lia.
  - destruct (_ <=? Z.of_nat tid); [done|]. destruct (Z.of_nat tid =? _); [rewrite u32_id by lia; lia|done].
Qed.

Lemma evict_ok tid k s :
  cache_ok s -> q_testcase_cache s !! tid = Some (Some k) ->
  exists s', evict (Z.of_nat tid) s = Some s' /\ cache_ok s'
    /\ q_testcase_cache_count s' = q_testcase_cache_count s - 1
    /\ q_testcase_max_cache_entries s' = q_testcase_max_cache_entries s
    /\ q_testcase_cache s' = <[tid := None]> (q_testcase_cache s)
    /\ queue_cur s' = queue_cur s /\ q_testcase_max_cache_size s' = q_testcase_max_cache_size s
    /\ (forall j, len_of s' j = len_of s j)
    /\ (forall j, tc_file <$> tc_queue s' !! j = tc_file <$> tc_queue s !! j)
    /\ (forall j e, tc_queue s !! j = Some e -> testcase_buf e = None -> tc_queue s' !! j = Some e)
    /\ q_testcase_max_cache_count s' = q_testcase_max_cache_count s.
Proof.
  intros Hs Hk. pose proof (len_nonneg s k Hs) as Hlen. pose proof (size_nonneg s Hs). pose proof (count_nonneg s Hs).
  pose proof (co_fits s Hs). pose proof (co_u32 s Hs). pose proof (co_max s Hs). pose proof (co_low s Hs).
  destruct (co_cached s Hs tid k Hk) as (e & He & Hbuf).
  assert (Hslot : (tid < length (q_testcase_cache s))%nat) by (by eapply lookup_lt_Some).
  assert (Hold : forall i j, <[tid := None]> (q_testcase_cache s) !! i = Some (Some j) ->
    i <> tid /\ q_testcase_cache s !! i = Some (Some j)).
  { intros i j Hi. destruct (decide (i = tid)) as [->|]; [by rewrite list_lookup_insert_eq in Hi|].
    by rewrite list_lookup_insert_ne in Hi. }
  pose proof (slots_sum_clear one _ _ _ Hk) as Hc1. pose proof (slots_sum_clear (len_of s) _ _ _ Hk) as Hc2.
  pose proof (slots_sum_nonneg one (<[tid:=None]> (q_testcase_cache s)) ltac:(lia)) as Hp1.
  pose proof (slots_sum_nonneg (len_of s) (<[tid:=None]> (q_testcase_cache s)) (fun j => proj1 (len_nonneg s j Hs))) as Hp2.
  rewrite <- (co_count s Hs) in Hc1. rewrite <- (co_size s Hs) in Hc2.
  unfold evict. rewrite Nat2Z.id, Hk. fold (len_of s k). eexists. split; [done|]. simpl.
  assert (Hu1 : u64 (q_testcase_cache_size s - len_of s k) = q_testcase_cache_size s - len_of s k) by (apply u64_id; lia).
  assert (Hu2 : u32 (q_testcase_cache_count s - 1) = q_testcase_cache_count s - 1)
    by (apply u32_id; pose proof (co_room s Hs); lia).
  rewrite Hu1, Hu2. split; [|split_and!; try done].
  - split; simpl.
    + apply entries_alter; [apply Hs|]. intros e0 _ (A & B & C). split; [done|]. by split.
    + rewrite length_insert. apply Hs.
    + lia.
    + lia.
    + intros i j Hi. apply Hold in Hi as [_ Hi]. by apply (co_high s Hs i j).
    + intros i j Hi. apply Hold in Hi as [Hi' Hi]. destruct (co_cached s Hs i j Hi) as (e' & He' & Hb').
      exists e'. split; [|done]. rewrite list_lookup_alter_ne; [done|]. intros ->. apply Hi'. by apply (co_inj s Hs _ _ _ Hi Hk).
    + intros j e' Hj Hb. apply lookup_alter_inv in Hj as [[Hne Hj]|(-> & e0 & _ & ->)]; [|by destruct Hb].
      destruct (co_back s Hs j e' Hj Hb) as [i Hi]. exists i. rewrite list_lookup_insert_ne; [done|]. intros ->. congruence.
    + intros i j m Hi Hj. apply Hold in Hi as [_ Hi]. apply Hold in Hj as [_ Hj]. by apply (co_inj s Hs i j m).
    + lia.
    + rewrite (slots_sum_ext (len_of s)); [lia|]. intros i j _. by apply alter_len.
    + pose proof (co_room s Hs). lia.
    + lia.
    + intros i Hi. destruct (decide (i = tid)) as [->|Hne].
      * destruct (Z.ltb_spec (Z.of_nat tid) (q_testcase_smallest_free s)); lia.
      * rewrite list_lookup_insert_ne in Hi by done. pose proof (co_free s Hs i Hi).
        destruct (Z.ltb_spec (Z.of_nat tid) (q_testcase_smallest_free s)); lia.
    + destruct (Z.of_nat tid <? q_testcase_smallest_free s); lia.
  - intros j. by apply alter_len.
  - intros j. rewrite list_lookup_alter. case_decide; [subst j|done]. by destruct (tc_queue s !! k).
  - intros j e' Hj Hb. rewrite list_lookup_alter_ne; [done|]. intros ->. rewrite He in Hj. injection Hj as ->.
    rewrite Hb in Hbuf. by destruct Hbuf.
Qed.

(** What an operation leaves alone: files and lengths, the current entry, the size of the
    cache, and entries that are not in memory. *)
Record same_files (s s' : tcache) : Prop := {
  sf_cur : queue_cur s' = queue_cur s;
  sf_max : q_testcase_max_cache_size s' = q_testcase_max_cache_size s;
  sf_len : forall j, len_of s' j = len_of s j;
  sf_file : forall j, tc_file <$> tc_queue s' !! j = tc_file <$> tc_queue s !! j;
}.

#[export] Instance same_files_preorder : PreOrder same_files.
Proof.
  split; [by split|]. intros s1 s2 s3 [A B C D] [A' B' C' D'].
  split; [congruence|congruence|intros j; by rewrite C'|intros j; by rewrite D'].
Qed.

Lemma learn_ok len s :
  cache_ok s ->
  let s' := learn_entries len s in
  cache_ok s' /\ same_files s s' /\ tc_queue s' = tc_queue s
  /\ (forall i k, q_testcase_cache s' !! i = Some (Some k) <-> q_testcase_cache s !! i = Some (Some k))
  /\ q_testcase_cache_count s' = q_testcase_cache_count s /\ q_testcase_cache_size s' = q_testcase_cache_size s
  /\ q_testcase_max_cache_count s' = q_testcase_max_cache_count s
  /\ (q_testcase_max_cache_entries s' = q_testcase_max_cache_entries s
      \/ q_testcase_max_cache_size s <= u64 (q_testcase_cache_size s + len)
         /\ q_testcase_cache_count s + 1 <= q_testcase_max_cache_entries s')
  /\ q_testcase_max_cache_entries s' <= q_testcase_max_cache_entries s.
Proof.
  intros Hs. unfold learn_entries. destruct (_ && negb (do_once s)) eqn:E; [|split; [done|]; split; [reflexivity|]; split_and!; try done; by left].
  apply andb_true_iff in E as [[[E1%Z.leb_le E2%Z.ltb_lt]%andb_true_iff E3%Z.ltb_lt]%andb_true_iff _].
  pose proof (co_u32 s Hs). pose proof (co_max s Hs). pose proof (count_nonneg s Hs). set (ent := if _ <? _ then _ else _).
  assert (Hent : ent = Z.max (q_testcase_max_cache_count s) (q_testcase_cache_count s) + 1).
  { unfold ent. destruct (Z.ltb_spec (q_testcase_cache_count s) (q_testcase_max_cache_count s)); rewrite u32_id by lia; lia. }
  assert (Hslots : forall i k, take (Z.to_nat (ent + 1)) (q_testcase_cache s
      ++ replicate (Z.to_nat (ent + 1) - length (q_testcase_cache s)) None) !! i = Some (Some k)
    <-> q_testcase_cache s !! i = Some (Some k)).
  { intros i k. split.
    - intros Hi. apply lookup_take_Some in Hi as [Hi _]. apply lookup_app_Some in Hi as [Hi|[_ Hi]]; [done|].
      apply lookup_replicate in Hi as [Hi _]. done.
    - intros Hi. apply lookup_take_Some. split; [by apply lookup_app_l_Some|]. apply (co_high s Hs) in Hi. lia. }
  assert (Hsum : forall f, slots_sum f (take (Z.to_nat (ent + 1)) (q_testcase_cache s
      ++ replicate (Z.to_nat (ent + 1) - length (q_testcase_cache s)) None)) = slots_sum f (q_testcase_cache s)).
  { intros f. set (l := q_testcase_cache s ++ _).
    assert (Hl : slots_sum f l = slots_sum f (q_testcase_cache s)).
    { unfold l. rewrite slots_sum_app, (slots_sum_none f (replicate _ _)); [lia|].
      intros i k Hi. apply lookup_replicate in Hi as [Hi _]. done. }
    rewrite <- Hl. rewrite <- (take_drop (Z.to_nat (ent + 1)) l) at 2. rewrite slots_sum_app, (slots_sum_none f (drop _ _)); [lia|].
    intros i k Hi. rewrite lookup_drop in Hi. unfold l in Hi. apply lookup_app_Some in Hi as [Hi|[_ Hi]].
    - apply (co_high s Hs) in Hi. lia.
    - apply lookup_replicate in Hi as [Hi _]. done. }
  split; [|split; [by split|split_and!; try done; [right; split; [done|simpl; lia]|simpl; lia]]].
  split; simpl; try (by apply Hs).
  - rewrite length_take, length_app, length_replicate. lia.
  - lia.
  - lia.
  - intros i k Hi. apply Hslots in Hi. by apply (co_high s Hs i k).
  - intros i k Hi. apply Hslots in Hi. by apply (co_cached s Hs i k).
  - intros k e Hk Hb. destruct (co_back s Hs k e Hk Hb) as [i Hi]. exists i. by apply Hslots.
  - intros i j k Hi Hj. apply Hslots in Hi. apply Hslots in Hj. by apply (co_inj s Hs i j k).
  - by rewrite Hsum, (co_count s Hs).
  - rewrite Hsum. apply (co_size s Hs).
  - lia.
  - intros i Hi. apply lookup_take_Some in Hi as [Hi _]. apply lookup_app_Some in Hi as [Hi|[Hge Hi]].
    + by apply (co_free s Hs).
    + (* slots beyond the old array: all of those below are taken or free at [smallest_free] or above *)
      destruct (free_slot (q_testcase_cache s) (Z.to_nat (q_testcase_max_cache_entries s))) as (j & Hj & Hfree).
      { pose proof (co_slots s Hs). lia. }
      { rewrite <- (co_count s Hs). pose proof (co_room s Hs). lia. }
      pose proof (co_free s Hs j Hfree). pose proof (co_slots s Hs). lia.
Qed.

(** ** Making room *)

(** At least three slots, and two test cases always fit together. *)
Definition wide (s : tcache) : Prop :=
  3 <= q_testcase_max_cache_entries s /\ forall j, 2 * len_of s j < q_testcase_max_cache_size s.

Lemma slots_sum_single f l c :
  (forall k, 0 <= f k) -> (forall i k, l !! i = Some (Some k) -> k = c) ->
  (forall i j k, l !! i = Some (Some k) -> l !! j = Some (Some k) -> i = j) -> slots_sum f l <= f c.
Proof.
  intros Hf. induction l as [|[k|] l IH]; intros Hc Hi; simpl; [apply Hf| |].
  - pose proof (Hc 0%nat k eq_refl) as Hk. subst k. rewrite slots_sum_none; [lia|].
    intros i k Hk. pose proof (Hc (S i) k Hk) as Hkc. subst k. by specialize (Hi 0%nat (S i) c eq_refl Hk).
  - apply IH; [intros i k; apply (Hc (S i))|]. intros i j k H1 H2. specialize (Hi (S i) (S j) k H1 H2). lia.
Qed.

Lemma slots_sum_le f l c d :
  (forall k, d * f k <= c) -> d * slots_sum f l <= c * slots_sum one l.
Proof. intros Hf. induction l as [|[k|] l IH]; simpl; [lia|specialize (Hf k); lia|done]. Qed.

(** A full cache has an entry to evict. *)
Lemma victim len s :
  cache_ok s -> wide s -> 0 <= len <= 26214400 -> 2 * len < q_testcase_max_cache_size s ->
  cache_full len s = true -> exists i k, q_testcase_cache s !! i = Some (Some k) /\ k <> queue_cur s.
Proof.
  intros Hs [Hw1 Hw2] Hl H2l Hfull. apply cache_full_spec in Hfull; [|done|done].
  destruct (decide (Exists (fun o => is_Some o /\ o <> Some (queue_cur s)) (q_testcase_cache s))) as [Hex|Hno].
  { apply Exists_exists in Hex as (o & Ho & [k ->] & Hk). apply list_elem_of_lookup_1 in Ho as [i Hi].
    exists i, k. split; [done|congruence]. }
  assert (Hall : forall i k, q_testcase_cache s !! i = Some (Some k) -> k = queue_cur s).
  { intros i k Hi. destruct (decide (k = queue_cur s)); [done|]. exfalso. apply Hno, Exists_exists. exists (Some k).
    split; [by eapply list_elem_of_lookup_2|]. split; [by eexists|congruence]. }
  pose proof (slots_sum_single one _ _ ltac:(lia) Hall (co_inj s Hs)) as H1.
  pose proof (slots_sum_single (len_of s) _ _ (fun k => proj1 (len_nonneg s k Hs)) Hall (co_inj s Hs)) as H2.
  rewrite <- (co_count s Hs) in H1. rewrite <- (co_size s Hs) in H2. specialize (Hw2 (queue_cur s)). lia.
Qed.

Lemma learn_wide len s :
  cache_ok s -> wide s -> 0 <= len <= 26214400 -> 2 * len < q_testcase_max_cache_size s -> wide (learn_entries len s).
Proof.
  intros Hs [Hw1 Hw2] Hl H2l. destruct (learn_ok len s Hs) as (_ & Hsame & _ & _ & _ & _ & _ & He & _).
  split; [|intros j; rewrite (sf_len _ _ Hsame), (sf_max _ _ Hsame); apply Hw2].
  destruct He as [->|[Hfull Hent]]; [done|]. pose proof (size_nonneg s Hs). pose proof (co_fits s Hs).
  rewrite u64_id in Hfull by lia.
  assert (Hsum : 2 * q_testcase_cache_size s <= (q_testcase_max_cache_size s - 1) * q_testcase_cache_count s).
  { rewrite (co_size s Hs), (co_count s Hs). apply slots_sum_le. intros k. specialize (Hw2 k). lia. }
  pose proof (count_nonneg s Hs). nia.
Qed.

Section drawing.
Context {W : Type} `{!Random W} (patience : nat).
Hypothesis Hfair : fair (W:=W) patience.

Lemma draw_slot_within fuel s w k :
  0 < q_testcase_max_cache_count s -> (k < fuel)%nat ->
  keep_slot s (below (after k (q_testcase_max_cache_count s) w) (q_testcase_max_cache_count s)).1 = false ->
  exists tid w', draw_slot fuel s w = Some (tid, w') /\ 0 <= tid < q_testcase_max_cache_count s /\ keep_slot s tid = false.
Proof using Type.
  intros Hpos. revert w k. induction fuel as [|fuel IH]; intros w k Hk Hok; [lia|]. simpl.
  pose proof (below_bound w _ Hpos) as Hb. destruct k as [|k]; simpl in Hok.
  - destruct (below w _) as [tid w1]. simpl in *. rewrite Hok. eauto.
  - destruct (below w _) as [tid w1]. simpl in *. destruct (keep_slot s tid) eqn:E; [|eauto].
    apply (IH w1 k); [lia|done].
Qed.

(** With a slot that may be evicted, one is drawn. *)
Lemma draw_slot_ok s w i k :
  cache_ok s -> q_testcase_cache s !! i = Some (Some k) -> k <> queue_cur s ->
  exists j m w', draw_slot patience s w = Some (Z.of_nat j, w') /\ q_testcase_cache s !! j = Some (Some m)
    /\ m <> queue_cur s.
Proof using Hfair.
  intros Hs Hi Hk. pose proof (co_high s Hs i k Hi) as Hh. pose proof (co_max s Hs). pose proof (co_u32 s Hs).
  destruct (Hfair w (q_testcase_max_cache_count s) (Z.of_nat i)) as (n & Hn & Hd); [lia|lia|].
  destruct (draw_slot_within patience s w n) as (tid & w' & E & Ht & Hkeep); [lia|done| |].
  { rewrite Hd. unfold keep_slot. rewrite Nat2Z.id, Hi. by apply bool_decide_eq_false. }
  unfold keep_slot in Hkeep. exists (Z.to_nat tid). rewrite Z2Nat.id by lia.
  destruct (q_testcase_cache s !! Z.to_nat tid) as [[m|]|] eqn:Em.
  - exists m, w'. split; [done|]. split; [done|]. by apply bool_decide_eq_false in Hkeep.
  - done.
  - apply lookup_ge_None_1 in Em. pose proof (co_slots s Hs). lia.
Qed.

(** The loop ends, and with room for the entry: the slot is the one it started with or
    one that was just freed. *)
Lemma make_room_ok fuel q e tid s w :
  cache_ok s -> wide s -> tc_queue s !! q = Some e -> testcase_buf e = None ->
  q_testcase_cache_count s < Z.of_nat fuel ->
  exists tid' s' w', make_room patience fuel (tc_len e) tid s w = TDone tid' s' w'
    /\ cache_ok s' /\ wide s' /\ same_files s s' /\ tc_queue s' !! q = Some e /\ cache_full (tc_len e) s' = false
    /\ q_testcase_max_cache_entries s' <= q_testcase_max_cache_entries s
    /\ (s' = s /\ tid' = tid \/ exists j, tid' = Z.of_nat j /\ q_testcase_cache s' !! j = Some None
          /\ tid' < q_testcase_max_cache_count s').
Proof using Hfair.
  revert tid s w. induction fuel as [|fuel IH]; intros tid s w Hs Hw Hq Hbuf Hfuel.
  { pose proof (count_nonneg s Hs). lia. }
  pose proof (len_nonneg s q Hs) as Hlen. pose proof (proj2 Hw q) as H2. unfold len_of in Hlen, H2. rewrite Hq in Hlen, H2.
  cbn [make_room]. destruct (cache_full (tc_len e) s) eqn:Efull; [|by exists tid, s, w; do 7 (split; [done || reflexivity|]); left].
  destruct (victim _ _ Hs Hw Hlen H2 Efull) as (i & k & Hi & Hk).
  pose proof (learn_wide _ _ Hs Hw Hlen H2) as Hw1.
  destruct (learn_ok (tc_len e) s Hs) as (Hs1 & Hsame & Hqueue & Hslots & Hcount & _ & Hmax & _ & Hent).
  set (s1 := learn_entries (tc_len e) s) in *.
  destruct (draw_slot_ok s1 w i k) as (j & m & w1 & -> & Hj & Hm); [done|by apply Hslots|by rewrite (sf_cur _ _ Hsame)|].
  pose proof (co_high s1 Hs1 j m Hj) as Hhigh.
  destruct (evict_ok j m s1 Hs1 Hj) as (s2 & -> & Hs2 & Hc2 & He2 & Hsl2 & Hcur2 & Hsz2 & Hlen2 & Hfile2 & Hkeep2 & Hmx2).
  assert (Hsame2 : same_files s s2) by (transitivity s1; [done|by split]).
  destruct (IH (Z.of_nat j) s2 w1) as (tid' & s' & w' & E & A & B & C & D & F & N & G).
  - done.
  - split; [rewrite He2; apply Hw1|]. intros x. rewrite Hlen2, Hsz2. apply Hw1.
  - apply Hkeep2; [by rewrite Hqueue|done].
  - done.
  - rewrite Hc2, Hcount. lia.
  - exists tid', s', w'. split; [done|]. split; [done|]. split; [done|]. split; [by transitivity s2|].
    split; [done|]. split; [done|]. split; [lia|]. right. destruct G as [[-> ->]|G]; [|done].
    exists j. split; [done|]. rewrite Hsl2, Hmx2. split; [|done]. apply list_lookup_insert_eq. by eapply lookup_lt_Some.
Qed.
End drawing.

(** ** Each operation implements the one on the files *)

Record implements (entries : Z) (files : list (list Z)) (s : tcache) : Prop := {
  im_ok : cache_ok s;
  im_wide : wide s;
  im_entries : q_testcase_max_cache_entries s <= entries;
  im_size : 2 * MAX_FILE <= q_testcase_max_cache_size s;
  im_files : tc_file <$> tc_queue s = files;
}.

Lemma same_files_fmap s s' : same_files s s' -> tc_file <$> tc_queue s' = tc_file <$> tc_queue s.
Proof. intros H. apply list_eq. intros j. rewrite !list_lookup_fmap. apply H. Qed.

Lemma entry_of n files s q l :
  implements n files s -> files !! q = Some l ->
  exists e, tc_queue s !! q = Some e /\ tc_file e = l /\ entry_ok e.
Proof.
  intros Hi Hq. rewrite <- (im_files _ _ _ Hi), list_lookup_fmap in Hq.
  destruct (tc_queue s !! q) as [e|] eqn:E; [|done]. injection Hq as <-. exists e. split; [done|]. split; [done|].
  pose proof (co_entries s (im_ok _ _ _ Hi)) as H. rewrite Forall_lookup in H. by eapply H.
Qed.

Lemma register_wide q buf tid s : wide s -> wide (register q buf tid s).
Proof.
  intros [H1 H2]. split; [done|]. intros j. specialize (H2 j). unfold len_of in *. simpl.
  rewrite list_lookup_alter. case_decide; [subst j|done]. by destruct (tc_queue s !! q).
Qed.

Lemma register_files q buf tid s : tc_file <$> tc_queue (register q buf tid s) = tc_file <$> tc_queue s.
Proof.
  apply list_eq. intros j. simpl. rewrite !list_lookup_fmap, list_lookup_alter. case_decide; [subst j|done]. by destruct (tc_queue s !! q).
Qed.

(** A free slot is found, at an index below [max_cache_entries]. *)
Lemma start_slot tid s :
  cache_ok s ->
  (tid = q_testcase_max_cache_count s \/ exists j, tid = Z.of_nat j /\ q_testcase_cache s !! j = Some None
     /\ tid < q_testcase_max_cache_count s) ->
  exists i, search_free s (if q_testcase_max_cache_entries s <=? tid then q_testcase_smallest_free s else tid) = Some i
    /\ q_testcase_cache s !! i = Some None /\ Z.of_nat i < q_testcase_max_cache_entries s.
Proof.
  intros Hs Ht. pose proof (co_max s Hs). pose proof (co_slots s Hs).
  destruct (Z.leb_spec (q_testcase_max_cache_entries s) tid) as [Hge|Hlt].
  - destruct (free_slot (q_testcase_cache s) (Z.to_nat (q_testcase_max_cache_entries s))) as (j & Hj & Hfree).
    { lia. } { rewrite <- (co_count s Hs). pose proof (co_room s Hs). lia. }
    destruct (search_free_ok s (q_testcase_smallest_free s) j) as (i & E & Hi & Hf); [|done|].
    { pose proof (co_low s Hs). pose proof (co_free s Hs j Hfree). lia. }
    exists i. split; [done|]. split; [done|lia].
  - assert (Hj : exists j, tid = Z.of_nat j /\ q_testcase_cache s !! j = Some None).
    { destruct Ht as [->|(j & ? & ? & _)]; [|eauto]. exists (Z.to_nat (q_testcase_max_cache_count s)). split; [lia|].
      destruct (q_testcase_cache s !! _) as [[k|]|] eqn:E; [|done|].
      - apply (co_high s Hs) in E. lia.
      - apply lookup_ge_None_1 in E. lia. }
    destruct Hj as (j & -> & Hj). destruct (search_free_ok s (Z.of_nat j) j) as (i & E & Hi & Hf); [lia|done|].
    exists i. split; [done|]. split; [done|lia].
Qed.

Section implement.
Context {W : Type} `{!Random W} (patience fuel : nat) (n : Z).
Hypothesis Hfair : fair (W:=W) patience.
Hypothesis Hfuel : n <= Z.of_nat fuel.

Lemma get_implements files s w q l :
  implements n files s -> files !! q = Some l ->
  exists s' w', queue_testcase_get patience fuel q s w = TDone l s' w' /\ implements n files s'.
Proof using Hfair Hfuel.
  intros Hi Hq. destruct (entry_of _ _ _ _ _ Hi Hq) as (e & He & Hl & Hlen & Hmax & Hbuf). destruct Hi as [Hs Hw Hn Hz Hf].
  assert (Hcont : take (Z.to_nat (tc_len e)) (tc_file e) = l).
  { rewrite Hlen, Nat2Z.id, firstn_all. done. }
  unfold queue_testcase_get. rewrite He, Hcont. unfold MAX_FILE in Hz. rewrite (proj2 (Z.eqb_neq _ _)) by lia.
  destruct (testcase_buf e) as [buf|] eqn:Eb.
  { rewrite (Hbuf buf eq_refl), Hl. exists s, w. done. }
  destruct (make_room_ok patience Hfair fuel q e (q_testcase_max_cache_count s) s w)
    as (tid & s1 & w1 & -> & Hs1 & Hw1 & Hsame & He1 & Hfull & Hent & Hslot); [done|done|done|done| |].
  { pose proof (co_room s Hs). lia. }
  destruct (start_slot tid s1 Hs1) as (i & -> & Hfree & Hlt).
  { destruct Hslot as [[-> ->]|?]; [by left|by right]. }
  exists (register q l i s1), w1. split; [done|]. rewrite <- Hl. split.
  - by apply register_ok.
  - by apply register_wide.
  - simpl. lia.
  - simpl. rewrite (sf_max _ _ Hsame). done.
  - rewrite register_files. rewrite (same_files_fmap _ _ Hsame). done.
Qed.
End implement.

Lemma select_implements n files s q : implements n files s -> implements n files (with_queue id q s).
Proof. intros [[] [] ? ? ?]. by split; [split|split| | |]. Qed.

(** A new entry at the end of the queue, not in memory. *)
Lemma append_ok mem s :
  cache_ok s -> Z.of_nat (length mem) <= MAX_FILE ->
  cache_ok (with_queue (fun l => l ++ [TcEntry mem (Z.of_nat (length mem)) None]) (queue_cur s) s).
Proof.
  intros Hs Hm. assert (Hold : forall k e, tc_queue s !! k = Some e ->
    (tc_queue s ++ [TcEntry mem (Z.of_nat (length mem)) None]) !! k = Some e).
  { intros k e Hk. by apply lookup_app_l_Some. }
  split; simpl; try apply Hs.
  - apply Forall_app. split; [apply Hs|]. by repeat constructor.
  - intros i k Hi. destruct (co_cached s Hs i k Hi) as (e & He & Hb). eauto.
  - intros k e Hk Hb. apply lookup_app_Some in Hk as [Hk|[_ Hk]]; [by eapply (co_back s Hs)|].
    apply list_lookup_singleton_Some in Hk as [_ <-]. by destruct Hb.
  - rewrite (co_size s Hs). symmetry. apply slots_sum_ext. intros i k Hi.
    destruct (co_cached s Hs i k Hi) as (e & He & _). unfold len_of. simpl. by rewrite He, (Hold _ _ He).
Qed.

Lemma save_implements n files s mem :
  implements n files s -> Z.of_nat (length mem) < MAX_FILE ->
  exists s', save_entry mem s = Some s' /\ implements n (files ++ [mem]) s'.
Proof.
  intros [Hs Hw Hn Hz Hf] Hm. pose proof (append_ok mem s Hs ltac:(lia)) as Hs1. unfold save_entry.
  assert (Hz' := Hz). unfold MAX_FILE in Hz'. rewrite (proj2 (Z.eqb_neq _ _)) by lia.
  set (s1 := with_queue _ _ s) in *.
  assert (He : tc_queue s1 !! length (tc_queue s) = Some (TcEntry mem (Z.of_nat (length mem)) None))
    by (simpl; by rewrite lookup_app_r, Nat.sub_diag).
  assert (Hi1 : implements n (files ++ [mem]) s1).
  { split; [done| |done|done|simpl; by rewrite fmap_app, Hf]. split; [apply Hw|]. intros j. unfold len_of. simpl.
    destruct (_ !! j) as [e|] eqn:E; [|lia]. apply lookup_app_Some in E as [E|[_ E]].
    - pose proof (proj2 Hw j) as Hj. unfold len_of in Hj. by rewrite E in Hj.
    - apply list_lookup_singleton_Some in E as [_ <-]. simpl. lia. }
  unfold queue_testcase_store_mem. rewrite He. simpl tc_len.
  destruct (cache_full _ s1) eqn:Efull; [by exists s1|].
  pose proof (start_slot (q_testcase_max_cache_count s1) s1 Hs1 (or_introl eq_refl)) as (i & -> & Hfree & Hlt).
  eexists. split; [done|]. split.
  - by apply (register_ok _ (TcEntry mem (Z.of_nat (length mem)) None)).
  - apply register_wide, Hi1.
  - done.
  - done.
  - rewrite register_files. apply Hi1.
Qed.

(** Shrinking an entry, with the counter of bytes following if it is in memory. *)
Lemma shrink_ok q e mem s (f := fun e => TcEntry mem (Z.of_nat (length mem)) ((fun _ => mem) <$> testcase_buf e)) size :
  cache_ok s -> tc_queue s !! q = Some e -> (length mem <= length (tc_file e))%nat ->
  size = q_testcase_cache_size s + (if testcase_buf e is Some _ then Z.of_nat (length mem) - tc_len e else 0) ->
  cache_ok (TCache (alter f q (tc_queue s)) (queue_cur s) (q_testcase_cache s) (q_testcase_max_cache_size s)
    (q_testcase_max_cache_entries s) size (q_testcase_max_cache_count s) (q_testcase_cache_count s)
    (q_testcase_smallest_free s) (q_testcase_evictions s) (do_once s)).
Proof.
  intros Hs Hq Hm Hsize. pose proof (co_entries s Hs) as Hall. rewrite Forall_lookup in Hall.
  destruct (Hall q e Hq) as (Hlen & Hmax & Hbuf). split; simpl; try apply Hs.
  - apply entries_alter; [apply Hs|]. intros e0 He0 (A & B & _). split; [done|]. split; [simpl; unfold MAX_FILE in *; lia|].
    simpl. intros buf. destruct (testcase_buf e0); simpl; congruence.
  - intros i k Hi. destruct (co_cached s Hs i k Hi) as (e0 & He0 & Hb). rewrite list_lookup_alter.
    case_decide; [subst k|by eauto]. rewrite Hq in *. injection He0 as ->. simpl. eexists. split; [done|].
    simpl. destruct Hb as [b ->]. by eexists.
  - intros k e0 Hk Hb. apply lookup_alter_inv in Hk as [[_ Hk]|(-> & e1 & He1 & ->)]; [by eapply (co_back s Hs)|].
    apply (co_back s Hs q e1 He1). simpl in Hb. destruct (testcase_buf e1); [by eexists|by destruct Hb].
  - set (g := len_of _).
    assert (Hg : forall j, g j = if decide (j = q) then Z.of_nat (length mem) else len_of s j).
    { intros j. unfold g, len_of. simpl. rewrite list_lookup_alter. destruct (decide (j = q)) as [->|Hne].
      - rewrite decide_True by done. by rewrite Hq.
      - by rewrite decide_False by congruence. }
    rewrite Hsize, (co_size s Hs). destruct (testcase_buf e) as [b|] eqn:Eb.
    + destruct (co_back s Hs q e Hq ltac:(by eexists)) as [i Hi].
      rewrite (slots_sum_change (len_of s) g _ i q); [|done|intros j Hj; by apply (co_inj s Hs j i q)|].
      * rewrite Hg, decide_True by done. unfold len_of. by rewrite Hq.
      * intros j Hj. by rewrite Hg, decide_False.
    + rewrite (slots_sum_ext (len_of s) g); [lia|]. intros i k Hi. rewrite Hg, decide_False; [done|]. intros ->.
      destruct (co_cached s Hs i q Hi) as (e0 & He0 & Hb). rewrite Hq in He0. injection He0 as <-. rewrite Eb in Hb. by destruct Hb.
  - pose proof (co_fits s Hs). destruct (testcase_buf e); lia.
Qed.

Lemma alter_twice (l : list tc_entry) q f g h :
  (forall e, l !! q = Some e -> g (f e) = h e) -> alter g q (alter f q l) = alter h q l.
Proof.
  intros H. apply list_eq. intros j. rewrite !list_lookup_alter. destruct (decide (q = j)) as [<-|]; [|done].
  rewrite decide_True by done. destruct (l !! q) as [e|] eqn:E; simpl; [by rewrite (H e)|done].
Qed.

Lemma trim_implements custom n files s q l mem :
  implements n files s -> files !! q = Some l -> (length mem <= length l)%nat ->
  exists s', trim_entry custom q mem s = Some s' /\ implements n (<[q := mem]> files) s'.
Proof.
  intros Hi Hq Hm. destruct (entry_of _ _ _ _ _ Hi Hq) as (e & He & <- & Hlen & Hmax & Hbuf). destruct Hi as [Hs Hw Hn Hz Hf].
  set (f := fun e => TcEntry mem (Z.of_nat (length mem)) ((fun _ => mem) <$> testcase_buf e)).
  set (size := q_testcase_cache_size s + (if testcase_buf e is Some _ then Z.of_nat (length mem) - tc_len e else 0)).
  pose proof (shrink_ok q e mem s size Hs He Hm eq_refl) as Hs'. simpl in Hs'.
  assert (E : trim_entry custom q mem s = Some (TCache (alter f q (tc_queue s)) (queue_cur s) (q_testcase_cache s)
    (q_testcase_max_cache_size s) (q_testcase_max_cache_entries s) size (q_testcase_max_cache_count s)
    (q_testcase_cache_count s) (q_testcase_smallest_free s) (q_testcase_evictions s) (do_once s))).
  { pose proof (size_nonneg _ Hs') as Hp. pose proof (co_fits _ Hs') as Hb. simpl in Hp, Hb.
    unfold trim_entry. rewrite He. simpl.
    assert (Hs1 : alter (fun e0 => TcEntry mem (Z.of_nat (length mem)) (testcase_buf e0)) q (tc_queue s) !! q
      = Some (TcEntry mem (Z.of_nat (length mem)) (testcase_buf e))).
    { by rewrite list_lookup_alter, decide_True, He by done. }
    unfold queue_testcase_retake, queue_testcase_retake_mem. simpl. rewrite Hs1. simpl.
    unfold size in *. destruct (testcase_buf e) as [b|] eqn:Eb.
    - destruct custom; unfold with_queue; f_equal; f_equal; try (apply alter_twice; intros e0 He0; rewrite He in He0;
        injection He0 as <-; unfold f; simpl; rewrite ?Nat2Z.id, ?firstn_all, Eb; done);
        (destruct (Z.eqb_spec (Z.of_nat (length mem)) (tc_len e)); [lia|rewrite u64_id; lia]).
    - assert (Hsame : alter (fun e0 => TcEntry mem (Z.of_nat (length mem)) (testcase_buf e0)) q (tc_queue s)
        = alter f q (tc_queue s)).
      { apply list_alter_ext; [|done]. intros e0 He0. rewrite He in He0. injection He0 as <-. unfold f. by rewrite Eb. }
      destruct custom; unfold with_queue; rewrite Hsame, Z.add_0_r; done. }
  eexists. split; [exact E|]. split; [done| |done|done|].
  - split; [apply Hw|]. intros j. pose proof (proj2 Hw j) as Hj. unfold len_of in *. simpl. rewrite list_lookup_alter.
    case_decide; [subst j|done]. rewrite He in *. simpl. lia.
  - simpl. apply list_eq. intros j. rewrite list_lookup_fmap, list_lookup_alter. rewrite <- Hf.
    destruct (decide (q = j)) as [<-|Hne].
    + rewrite He. simpl. rewrite list_lookup_insert_eq; [done|]. rewrite length_fmap. by eapply lookup_lt_Some.
    + rewrite list_lookup_insert_ne by done. by rewrite list_lookup_fmap.
Qed.

Section refinement.
Context {W : Type} `{!Random W} (patience fuel : nat) (n : Z).
Hypothesis Hfair : fair (W:=W) patience.
Hypothesis Hfuel : n <= Z.of_nat fuel.

Lemma step_implements op files o files' s w :
  implements n files s -> files_step op files = Some (o, files') ->
  exists s' w', cache_step patience fuel op s w = TDone o s' w' /\ implements n files' s'.
Proof using Hfair Hfuel.
  intros Hi Hop. destruct op as [mem|q|q|custom q mem]; simpl in Hop.
  - case_decide as Hm; [|done]. injection Hop as <- <-.
    destruct (save_implements n files s mem Hi Hm) as (s' & E & Hi'). exists s', w. simpl. by rewrite E.
  - destruct (files !! q) as [l|]; [|done]. injection Hop as <- <-. exists (with_queue id q s), w.
    split; [done|by apply select_implements].
  - destruct (files !! q) as [l|] eqn:Eq; [|done]. injection Hop as <- <-.
    destruct (get_implements patience fuel n Hfair Hfuel files s w q l Hi Eq) as (s' & w' & E & Hi').
    exists s', w'. simpl. by rewrite E.
  - destruct (files !! q) as [l|] eqn:Eq; [|done]. simpl in Hop. case_decide as Hm; [|done]. injection Hop as <- <-.
    destruct (trim_implements custom n files s q l mem Hi Eq Hm) as (s' & E & Hi'). exists s', w. simpl. by rewrite E.
Qed.

Lemma run_implements ops files os files' s w :
  implements n files s -> files_run ops files = Some (os, files') ->
  exists s' w', cache_run patience fuel ops s w = TDone os s' w' /\ implements n files' s'.
Proof using Hfair Hfuel.
  revert files os s w. induction ops as [|op ops IH]; intros files os s w Hi Hrun; simpl in Hrun.
  { injection Hrun as <- <-. by exists s, w. }
  destruct (files_step op files) as [[o files1]|] eqn:E1; [|done]. simpl in Hrun.
  destruct (files_run ops files1) as [[os1 files2]|] eqn:E2; [|done]. simpl in Hrun. injection Hrun as <- <-.
  destruct (step_implements op files o files1 s w Hi E1) as (s1 & w1 & Es & Hi1).
  destruct (IH files1 os1 s1 w1 Hi1 E2) as (s2 & w2 & Er & Hi2).
  exists s2, w2. simpl. by rewrite Es, Er.
Qed.
End refinement.

Lemma init_ok size entries :
  3 <= entries < 2 ^ 32 - 1 -> 2 * MAX_FILE <= size < 2 ^ 62 -> cache_ok (cache_init size entries).
Proof.
  intros He Hz. assert (Hz' := Hz). unfold MAX_FILE in Hz'.
  assert (Hnone : forall i k, replicate (Z.to_nat entries) (@None nat) !! i <> Some (Some k)).
  { intros i k Hi. apply lookup_replicate in Hi as [Hi _]. done. }
  split; simpl; try lia; try done.
  - rewrite length_replicate. lia.
  - intros i k Hi. by apply Hnone in Hi.
  - intros i k Hi. by apply Hnone in Hi.
  - intros i j k Hi. by apply Hnone in Hi.
  - by rewrite slots_sum_none.
  - by rewrite slots_sum_none.
Qed.

(** ** The loop that cannot end *)

Section starving.
Context {W : Type} `{!Random W}.

Lemma draw_slot_starves fuel s w :
  cache_ok s -> (forall i k, q_testcase_cache s !! i = Some (Some k) -> k = queue_cur s) ->
  draw_slot fuel s w = None.
Proof.
  intros Hs Hall. revert w. induction fuel as [|fuel IH]; intros w; [done|]. simpl.
  assert (Hb : 0 <= (below w (q_testcase_max_cache_count s)).1 < Z.of_nat (length (q_testcase_cache s))).
  { pose proof (co_max s Hs). pose proof (co_u32 s Hs). pose proof (co_slots s Hs).
    destruct (decide (0 < q_testcase_max_cache_count s)); [pose proof (below_bound w (q_testcase_max_cache_count s)); lia|].
    rewrite below_small by lia. simpl. lia. }
  destruct (below w _) as [tid w']. simpl in Hb.
  assert (Hkeep : keep_slot s tid = true).
  { unfold keep_slot. destruct (lookup_lt_is_Some_2 (q_testcase_cache s) (Z.to_nat tid)) as [[k|] Ek]; [lia| |]; rewrite Ek.
    - apply bool_decide_eq_true. by apply (Hall _ _ Ek).
    - done. }
  by rewrite Hkeep.
Qed.

(** If only the current entry is in memory and the wanted one does not fit beside it, no
    number of draws ends the search for a victim. *)
Lemma get_starves patience fuel q e s w :
  cache_ok s -> 0 < q_testcase_max_cache_size s ->
  (forall i k, q_testcase_cache s !! i = Some (Some k) -> k = queue_cur s) ->
  tc_queue s !! q = Some e -> testcase_buf e = None -> cache_full (tc_len e) s = true ->
  queue_testcase_get patience fuel q s w = TStarved.
Proof.
  intros Hs Hpos Hall Hq Hbuf Hfull. unfold queue_testcase_get. rewrite Hq, (proj2 (Z.eqb_neq _ _)) by lia. rewrite Hbuf.
  destruct fuel as [|fuel]; simpl; rewrite Hfull; [done|].
  destruct (learn_ok (tc_len e) s Hs) as (Hs1 & Hsame & _ & Hslots & _).
  rewrite draw_slot_starves; [done|done|]. intros i k Hi. rewrite (sf_cur _ _ Hsame). by apply (Hall i), Hslots.
Qed.
End starving.

(** ** Properties *)

(** C19: for every sequence of saving, selecting, trimming and reading entries, with every
    test case shorter than [MAX_FILE], a cache of at least [2 * MAX_FILE] bytes and three
    slots, and draws that reach every slot: each [queue_testcase_get] returns, and returns
    what the file of the entry holds at that time, whatever was cached and evicted before.
    The counters describe the slots at the end, and the cached bytes stay below the limit. *)
Theorem cache_refines_files {W : Type} `{!Random W} patience size entries ops outs files (w : W) :
  fair (W:=W) patience -> 3 <= entries < 2 ^ 32 - 1 -> 2 * MAX_FILE <= size < 2 ^ 62 ->
  files_run ops [] = Some (outs, files) ->
  exists s w', cache_run patience (Z.to_nat entries) ops (cache_init size entries) w = TDone outs s w'
    /\ tc_file <$> tc_queue s = files /\ cache_ok s.
Proof.
  intros Hf He Hz Hrun.
  destruct (run_implements patience (Z.to_nat entries) entries Hf ltac:(lia) ops [] outs files
    (cache_init size entries) w) as (s & w' & E & Hi); [|done|].
  - split; [by apply init_ok|split; [simpl; lia|]|simpl; lia|simpl; lia|done].
    intros j. unfold len_of. simpl. unfold MAX_FILE in Hz. lia.
  - exists s, w'. split; [done|]. split; apply Hi.
Qed.

Lemma cache_refines_files_witness :
  exists s w', cache_run (Z.to_nat (2 ^ 32)) (Z.to_nat 3)
      [NewEntry [1; 2; 3]; NewEntry [4; 5]; NewEntry [6]; Select 0; Get 1; Get 2; Trim false 1 [4]; Trim true 0 [1; 3]; Get 0; Get 1]
      (cache_init (2 * MAX_FILE) 3) 7
    = TDone [None; None; None; None; Some [4; 5]; Some [6]; None; None; Some [1; 3]; Some [4]] s w'
    /\ tc_file <$> tc_queue s = [[1; 3]; [4]; [6]] /\ cache_ok s.
Proof.
  apply (cache_refines_files (W:=Z)); [exact counting_fair|lia|unfold MAX_FILE; lia|reflexivity].
Defined.

(** Two test cases of [MAX_FILE] bytes, the first one current. *)
Lemma pair_starves {W : Type} `{!Random W} patience fuel entries a b (w : W) :
  3 <= entries < 2 ^ 32 - 1 -> Z.of_nat (length a) = MAX_FILE -> Z.of_nat (length b) = MAX_FILE ->
  cache_run patience fuel [NewEntry a; NewEntry b; Select 0; Get 1] (cache_init (2 * MAX_FILE) entries) w = TStarved.
Proof.
  intros He Ha Hb. set (s0 := cache_init _ _).
  assert (H0 : cache_ok s0) by (apply init_ok; unfold MAX_FILE; lia).
  pose proof (append_ok a s0 H0 ltac:(lia)) as H1.
  set (s1 := with_queue _ _ s0) in H1. set (ea := TcEntry a (Z.of_nat (length a)) None) in *.
  assert (Hroom : cache_full (tc_len ea) s1 = false).
  { apply not_true_iff_false. rewrite cache_full_spec; [simpl; unfold MAX_FILE in *; lia|done|].
    simpl. unfold MAX_FILE in *. lia. }
  set (s2 := register 0 a 0 s1).
  assert (Hrep : replicate (Z.to_nat entries) (@None nat) = None :: replicate (Z.to_nat entries - 1) None).
  { replace (Z.to_nat entries) with (S (Z.to_nat entries - 1)) at 1 by lia. done. }
  assert (Ea : save_entry a s0 = Some s2).
  { unfold save_entry. cbn [q_testcase_max_cache_size s0 cache_init]. rewrite (proj2 (Z.eqb_neq _ _)) by (unfold MAX_FILE; lia).
    unfold queue_testcase_store_mem. cbn [tc_queue s0 cache_init with_queue app length lookup list_lookup]. fold s0. fold ea. fold s1.
    rewrite Hroom. cbn [q_testcase_max_cache_entries q_testcase_max_cache_count s1 with_queue s0 cache_init].
    rewrite (proj2 (Z.leb_gt _ _)) by lia. unfold search_free. cbn [q_testcase_cache s1 with_queue s0 cache_init].
    by rewrite Hrep. }
  assert (H2 : cache_ok s2).
  { apply (register_ok 0 ea 0 s1); [done|done|done| |simpl; lia|done]. cbn [q_testcase_cache s1 with_queue s0 cache_init].
    by rewrite Hrep. }
  set (eb := TcEntry b (Z.of_nat (length b)) None).
  pose proof (append_ok b s2 H2 ltac:(lia)) as H3. set (s3 := with_queue _ _ s2) in H3.
  assert (Hfull : cache_full (tc_len eb) s3 = true).
  { rewrite cache_full_spec; [|done|simpl; unfold MAX_FILE in *; lia]. left. simpl. rewrite u64_id; unfold MAX_FILE in *; lia. }
  assert (Eb : save_entry b s2 = Some s3).
  { unfold save_entry. cbn [q_testcase_max_cache_size s2 register s1 with_queue s0 cache_init].
    rewrite (proj2 (Z.eqb_neq _ _)) by (unfold MAX_FILE; lia). fold s2. fold s3.
    unfold queue_testcase_store_mem. change (tc_queue s3 !! length (tc_queue s2)) with (Some eb). cbv beta iota. by rewrite Hfull. }
  cbn [cache_run cache_step]. rewrite Ea. cbn [no_output]. rewrite Eb. cbn [no_output].
  rewrite (get_starves patience fuel 1 eb (with_queue id 0 s3) w); [done| |by vm_compute| |done|done|done].
  - by destruct H3; split.
  - intros i k Hi. change (<[0%nat := Some 0%nat]> (replicate (Z.to_nat entries) (@None nat)) !! i = Some (Some k)) in Hi.
    rewrite Hrep in Hi. destruct i as [|i]; simpl in Hi; [by injection Hi as <-|].
    apply lookup_replicate in Hi as [Hi _]. done.
Qed.

(** With the default size of the cache, which is exactly [2 * MAX_FILE] and which [main]
    accepts, two test cases of [MAX_FILE] bytes do not fit together: reading the second
    one while the first is current never returns, whatever the generator draws. *)
Theorem largest_pair_starves {W : Type} `{!Random W} patience fuel a b (w : W) :
  Z.of_nat (length a) = MAX_FILE -> Z.of_nat (length b) = MAX_FILE ->
  cache_run patience fuel [NewEntry a; NewEntry b; Select 0; Get 1]
    (cache_init (TESTCASE_CACHE_SIZE * 1048576) (64 * 1024)) w = TStarved.
Proof. intros Ha Hb. apply (pair_starves patience fuel (64 * 1024) a b w); [lia|done|done]. Qed.

Lemma largest_pair_starves_witness :
  cache_run (Z.to_nat (2 ^ 32)) (Z.to_nat (2 ^ 32))
    [NewEntry (replicate (Z.to_nat MAX_FILE) 0); NewEntry (replicate (Z.to_nat MAX_FILE) 1); Select 0; Get 1]
    (cache_init (TESTCASE_CACHE_SIZE * 1048576) (64 * 1024)) (7 : Z) = TStarved.
Proof.
  apply largest_pair_starves; rewrite length_replicate, Z2Nat.id; (reflexivity || (unfold MAX_FILE; lia)).
Defined.
