(* ===== verification/Trim.v ===== *)
(** * Trimming (src/aflplusplus/src/afl-fuzz-run.c)

    [trim_case] removes blocks from a test case as long as the target's trace keeps its
    checksum, with ever smaller blocks.  The target is the interface [Executor]: a run on
    some bytes gives a result and a trace.  The two loops carry fuel; the theorem at the
    end gives the amount that is enough.  Custom trimmers are in [CustomTrim]. *)
From S2P Require Import Prelude Alloc DetStages.

(** [fsrv_run_result_t] *)
Inductive fsrv_run_result := FSRV_RUN_OK | FSRV_RUN_TMOUT | FSRV_RUN_CRASH | FSRV_RUN_ERROR
  | FSRV_RUN_NOINST | FSRV_RUN_NOBITS.
#[export] Instance fsrv_run_result_dec : EqDecision fsrv_run_result.
Proof. solve_decision. Defined.

Class Executor (W : Type) := {
  (** [fuzz_run_target(afl, &afl->fsrv, timeout)] on the bytes written before: the result
      and what the target left in [trace_bits] *)
  fuzz_run_target : W -> Z -> list Z -> fsrv_run_result * list Z * W;
  stop_soon : W -> bool;
}.

Definition TRIM_MIN_BYTES : Z := 4.
Definition TRIM_START_STEPS : Z := 16.
Definition TRIM_END_STEPS : Z := 1024.

(** [write_with_gap]: the [len] bytes of [mem] without [skip_len] of them *)
Definition write_with_gap (mem : list Z) (skip_at skip_len : Z) : list Z :=
  let len := Z.of_nat (length mem) in
  let tail_len := u32 (len - skip_at - skip_len) in
  take (Z.to_nat skip_at) mem
  ++ take (Z.to_nat tail_len) (drop (Z.to_nat (skip_at + skip_len)) mem).

Section trim.
Context {W : Type} `{!Executor W}.
(** [classify_counts] and [hash64] on a trace, and the time limit *)
Context (classify : list Z -> list Z) (hash64 : list Z -> Z) (exec_tmout exec_cksum : Z).

(** [in_buf] up to [q->len], [len_p2], [clean_trace] once [needs_write] is set, the
    number of runs, the rest of the fuzzer, and the inputs run with their checksums. *)
Record trimming := Trimming {
  t_buf : list Z;
  t_len_p2 : Z;
  t_clean : option (list Z);
  trim_execs : Z;
  t_world : W;
  t_runs : list (list Z * Z);
}.

Inductive trim_out := TrimDone (fault : fsrv_run_result) (t : trimming)
  | TrimAborted (fault : fsrv_run_result) (t : trimming) | TrimNoFuel.

Definition t_len (t : trimming) : Z := Z.of_nat (length (t_buf t)).

(** The deletion made permanent: [memmove] of the tail. *)
Definition remove_block (pos n : Z) (trace : list Z) (t : trimming) : trimming :=
  let move_tail := u32 (t_len t - pos - n) in
  let len := u32 (t_len t - n) in
  let moved := take (Z.to_nat pos) (t_buf t) ++ take (Z.to_nat move_tail) (drop (Z.to_nat (pos + n)) (t_buf t))
               ++ drop (Z.to_nat (pos + move_tail)) (t_buf t) in
  Trimming (take (Z.to_nat len) moved) (u32 (next_pow2 len))
    (match t_clean t with None => Some trace | c => c end) (trim_execs t) (t_world t) (t_runs t).

(** [while (remove_pos < q->len)] *)
Fixpoint trim_pass (fuel : nat) (remove_len remove_pos : Z) (fault : fsrv_run_result) (t : trimming) : trim_out :=
  if remove_pos <? t_len t then
    match fuel with
    | O => TrimNoFuel
    | S fuel =>
        let trim_avail := Z.min remove_len (u32 (t_len t - remove_pos)) in
        let input := write_with_gap (t_buf t) remove_pos trim_avail in
        let '(fault, trace, w) := fuzz_run_target (t_world t) exec_tmout input in
        if stop_soon w || bool_decide (fault = FSRV_RUN_ERROR)
        then TrimAborted fault (Trimming (t_buf t) (t_len_p2 t) (t_clean t) (trim_execs t) w (t_runs t))
        else
          let trace := classify trace in
          let cksum := hash64 trace in
          let t := Trimming (t_buf t) (t_len_p2 t) (t_clean t) (u64 (trim_execs t + 1)) w
                     (t_runs t ++ [(input, cksum)]) in
          if cksum =? exec_cksum
          then trim_pass fuel remove_len remove_pos fault (remove_block remove_pos trim_avail trace t)
          else trim_pass fuel remove_len (u32 (remove_pos + remove_len)) fault t
    end
  else TrimDone fault t.

(** [while (remove_len >= MAX(len_p2 / TRIM_END_STEPS, TRIM_MIN_BYTES))] *)
Fixpoint trim_passes (passes fuel : nat) (remove_len : Z) (fault : fsrv_run_result) (t : trimming) : trim_out :=
  if Z.max (t_len_p2 t / TRIM_END_STEPS) TRIM_MIN_BYTES <=? remove_len then
    match passes with
    | O => TrimNoFuel
    | S passes =>
        match trim_pass fuel remove_len remove_len fault t with
        | TrimDone fault t => trim_passes passes fuel (remove_len ≫ 1) fault t
        | o => o
        end
    end
  else TrimDone fault t.

(** ** Writing the result back *)

(** What [write(fd, in_buf, n)] accepted, call after call, with AFL_NO_UNLINK:
    [while (written < q->len) { result = write(fd, in_buf, q->len - written); ... }] *)
Fixpoint write_in_place (results : list Z) (buf : list Z) (written : Z) (file : list Z) : option (list Z) :=
  if written <? Z.of_nat (length buf) then
    match results with
    | [] => None
    | r :: results =>
        let n := u32 (Z.of_nat (length buf) - written) in
        let r := Z.min r n in
        if 0 <? r then write_in_place results buf (u32 (written + r)) (file ++ take (Z.to_nat r) buf)
        else write_in_place results buf written file
    end
  else Some file.

Record trimmed := Trimmed {
  r_fault : fsrv_run_result;
  (** [in_buf] up to [q->len] *)
  r_buf : list Z;
  (** the entry's file *)
  r_file : list Z;
  (** the trace [update_bitmap_score] works on, if it is called *)
  r_score : option (list Z);
  r_trim_execs : Z;
  r_world : W;
  r_runs : list (list Z * Z);
}.

(** [trim_case]; [file] is what the entry's file holds.  [None] stands for missing fuel, or
    for writes that never finish. *)
Definition trim_case (passes fuel : nat) (no_unlink : option (list Z)) (in_buf file : list Z) (execs : Z) (w : W)
    : option trimmed :=
  let len := Z.of_nat (length in_buf) in
  if len <? 5 then Some (Trimmed FSRV_RUN_OK in_buf file None execs w [])
  else
    let len_p2 := u32 (next_pow2 len) in
    let remove_len := Z.max (len_p2 / TRIM_START_STEPS) TRIM_MIN_BYTES in
    match trim_passes passes fuel remove_len FSRV_RUN_OK (Trimming in_buf len_p2 None execs w []) with
    | TrimNoFuel => None
    | TrimAborted fault t => Some (Trimmed fault (t_buf t) file None (trim_execs t) (t_world t) (t_runs t))
    | TrimDone fault t =>
        match t_clean t with
        | None => Some (Trimmed fault (t_buf t) file None (trim_execs t) (t_world t) (t_runs t))
        | Some trace =>
            file ← match no_unlink with
                   | None => Some (t_buf t)
                   | Some results => write_in_place results (t_buf t) 0 []
                   end;
            Some (Trimmed fault (t_buf t) file (Some trace) (trim_execs t) (t_world t) (t_runs t))
        end
    end.
End trim.

Arguments trimming : clear implicits.
Arguments trim_out : clear implicits.
Arguments trimmed : clear implicits.

(** ** The blocks that are left *)

Definition without (l : list Z) (pos n : Z) : list Z :=
  take (Z.to_nat pos) l ++ drop (Z.to_nat (pos + n)) l.

Section without.
Context (l : list Z) (pos n : Z).
Hypothesis Hpos : 0 <= pos.
Hypothesis Hn : 0 <= n.
Hypothesis Hend : pos + n <= Z.of_nat (length l).
Hypothesis Hlen : Z.of_nat (length l) < 2 ^ 32.

Lemma tail_all : take (Z.to_nat (u32 (Z.of_nat (length l) - pos - n))) (drop (Z.to_nat (pos + n)) l)
  = drop (Z.to_nat (pos + n)) l.
Proof using Type*. rewrite u32_id by lia. apply take_ge. rewrite length_drop. lia. Qed.

Lemma write_with_gap_eq : write_with_gap l pos n = without l pos n.
Proof using Type*. unfold write_with_gap, without. by rewrite tail_all. Qed.

Lemma length_without : Z.of_nat (length (without l pos n)) = Z.of_nat (length l) - n.
Proof using Hpos Hn Hend. unfold without. rewrite length_app, length_take, length_drop. lia. Qed.

Lemma without_sublist : without l pos n `sublist_of` l.
Proof using Hpos Hn.
  unfold without. rewrite <- (take_drop (Z.to_nat pos) l) at 3. apply sublist_app; [done|].
  replace (Z.to_nat (pos + n)) with (Z.to_nat pos + Z.to_nat n)%nat by lia. rewrite <- drop_drop. apply sublist_drop.
Qed.

Lemma without_head k : (k <= Z.to_nat pos)%nat -> take k (without l pos n) = take k l.
Proof using Hpos Hn Hend.
  intros Hk. unfold without. rewrite take_app_le by (rewrite length_take; lia). rewrite take_take. f_equal. lia.
Qed.
End without.

(** ** The loops *)

Section proofs.
Context {W : Type} `{!Executor W}.
Context (classify : list Z -> list Z) (hash64 : list Z -> Z) (exec_tmout exec_cksum : Z).
Context (b0 : list Z).

Definition shorter (l : list Z) : Prop := l `sublist_of` b0 /\ take 4 l = take 4 b0 /\ (4 <= length l)%nat.

Record trim_inv (t : trimming W) : Prop := {
  ti_buf : shorter (t_buf t);
  ti_p2 : t_len_p2 t = u32 (next_pow2 (t_len t));
  ti_clean : match t_clean t with None => t_buf t = b0 | Some trace => hash64 trace = exec_cksum end;
  ti_last : t_buf t = b0 \/ (t_buf t, exec_cksum) ∈ t_runs t;
  ti_runs : Forall (fun i => shorter i.1) (t_runs t);
}.

Hypothesis Hsmall : Z.of_nat (length b0) <= MAX_FILE.

Lemma t_len_small t : trim_inv t -> 4 <= t_len t <= 26214400.
Proof using Hsmall.
  intros [(Hs & _ & H4) _ _ _ _]. apply sublist_length in Hs. unfold t_len, MAX_FILE in *. lia.
Qed.

Lemma t_len_p2_bounds t : trim_inv t -> exists k, 0 <= k <= 25 /\ t_len_p2 t = 2 ^ k /\ t_len t <= 2 ^ k.
Proof using Hsmall.
  intros Hi. pose proof (t_len_small t Hi) as Hl. destruct (next_pow2_least (t_len t)) as (k & Hk & E & Hle & Hmin); [lia|].
  assert (Hk25 : k <= 25) by (apply Hmin; lia).
  exists k. split; [lia|]. split; [|done]. rewrite (ti_p2 t Hi), E. apply u32_id.
  pose proof (Z.pow_le_mono_r 2 k 25). pose proof (Z.pow_nonneg 2 k). lia.
Qed.

Section block.
Context (t : trimming W) (pos n : Z).
Hypothesis Hinv : trim_inv t.
Hypothesis Hpos : 4 <= pos < t_len t.
Hypothesis Hn : 0 < n <= t_len t - pos.

Lemma shorter_without : shorter (without (t_buf t) pos n).
Proof using Hinv Hpos Hn.
  destruct Hinv as [(Hs & Hh & H4) _ _ _ _]. unfold t_len in *. split; [|split].
  - etrans; [|exact Hs]. by apply without_sublist; lia.
  - rewrite without_head by lia. done.
  - apply Nat2Z.inj_le. rewrite length_without by lia. lia.
Qed.

Lemma remove_block_buf trace : t_buf (remove_block pos n trace t) = without (t_buf t) pos n.
Proof using Hinv Hpos Hn Hsmall.
  pose proof (t_len_small t Hinv). unfold t_len in *. unfold remove_block. cbn [t_buf]. unfold t_len. rewrite tail_all by lia.
  rewrite app_assoc. fold (without (t_buf t) pos n). rewrite u32_id by lia.
  apply take_app_length'. apply Nat2Z.inj. rewrite length_without by lia. lia.
Qed.

Lemma remove_block_inv trace execs w :
  hash64 trace = exec_cksum ->
  trim_inv (remove_block pos n trace (Trimming (t_buf t) (t_len_p2 t) (t_clean t) execs w
    (t_runs t ++ [(without (t_buf t) pos n, exec_cksum)]))).
Proof using Hinv Hpos Hn Hsmall.
  intros Ht. pose proof shorter_without as Hsh. pose proof (remove_block_buf trace) as Hbuf.
  set (t' := remove_block pos n trace _).
  assert (Hb' : t_buf t' = without (t_buf t) pos n) by exact Hbuf.
  pose proof (t_len_small t Hinv) as Hl. split.
  - by rewrite Hb'.
  - unfold t_len at 1. rewrite Hb', length_without by (unfold t_len in *; lia).
    simpl. unfold t_len. simpl. f_equal. f_equal. apply u32_id. unfold t_len in *. lia.
  - simpl. pose proof (ti_clean t Hinv) as Hc. destruct (t_clean t); [exact Hc|exact Ht].
  - right. rewrite Hb'. simpl. apply elem_of_app. right. by apply list_elem_of_singleton.
  - simpl. apply Forall_app. split; [apply Hinv|by apply Forall_singleton].
Qed.

Lemma skip_inv execs w cksum :
  trim_inv (Trimming (t_buf t) (t_len_p2 t) (t_clean t) execs w (t_runs t ++ [(without (t_buf t) pos n, cksum)])).
Proof using Hinv Hpos Hn.
  pose proof shorter_without as Hsh. destruct Hinv as [H1 H2 H3 H4 H5]. split; simpl; try done.
  - destruct H4; [by left|right]. apply elem_of_app. by left.
  - apply Forall_app. split; [done|by apply Forall_singleton].
Qed.
End block.

(** An outcome: the invariant, and at most [n] more runs. *)
Definition trim_ok (t : trimming W) (n : Z) (o : trim_out W) : Prop :=
  match o with
  | TrimNoFuel => False
  | TrimDone fault t' => trim_inv t' /\ Z.of_nat (length (t_runs t')) <= Z.of_nat (length (t_runs t)) + n
  | TrimAborted fault t' =>
      trim_inv t' /\ Z.of_nat (length (t_runs t')) <= Z.of_nat (length (t_runs t)) + n
      /\ (stop_soon (t_world t') = true \/ fault = FSRV_RUN_ERROR)
  end.

Lemma trim_ok_more t t1 n n1 o :
  Z.of_nat (length (t_runs t1)) + n1 <= Z.of_nat (length (t_runs t)) + n -> trim_ok t1 n1 o -> trim_ok t n o.
Proof using Type.
  intros H. destruct o; simpl; [intros [? ?]; split; [done|lia]| |done].
  intros (? & ? & ?). split; [done|]. split; [lia|done].
Qed.

(** A pass over what is behind [remove_pos], in blocks of [remove_len]. *)
Lemma trim_pass_ok fuel remove_len remove_pos fault t :
  trim_inv t -> 4 <= remove_len <= remove_pos -> remove_pos <= 2 ^ 30 -> remove_len <= 2 ^ 30 ->
  t_len t - remove_pos <= Z.of_nat fuel * remove_len ->
  trim_ok t (Z.of_nat fuel) (trim_pass classify hash64 exec_tmout exec_cksum fuel remove_len remove_pos fault t).
Proof using Hsmall.
  revert remove_pos fault t. induction fuel as [|fuel IH]; intros pos fault t Hi Hr Hp Hr' Hf; cbn [trim_pass];
    pose proof (t_len_small t Hi) as Hl; destruct (Z.ltb_spec pos (t_len t)) as [Hlt|Hge]; [lia| | |];
    try (split; [exact Hi|lia]).
  rewrite (u32_id (_ - _)) by lia. set (n := Z.min remove_len _).
  assert (Hn : 0 < n <= t_len t - pos) by lia. assert (Hpos : 4 <= pos < t_len t) by lia.
  rewrite write_with_gap_eq by (unfold t_len in *; lia).
  destruct (fuzz_run_target _ _ _) as [[fault' trace] w].
  destruct (stop_soon w || bool_decide (fault' = FSRV_RUN_ERROR)) eqn:Estop.
  { split; [by destruct Hi; split|]. simpl. split; [lia|]. apply orb_true_iff in Estop as [?|?%bool_decide_eq_true]; auto. }
  destruct (Z.eqb_spec (hash64 (classify trace)) exec_cksum) as [Hck|Hck].
  - pose proof (remove_block_inv t pos n Hi Hpos Hn (classify trace) (u64 (trim_execs t + 1)) w Hck) as Hi1.
    rewrite Hck. set (t1 := remove_block _ _ _ _) in *.
    assert (Hl1 : t_len t1 = t_len t - n).
    { assert (Hb1 : t_buf t1 = without (t_buf t) pos n) by exact (remove_block_buf t pos n Hi Hpos Hn (classify trace)).
      unfold t_len at 1. rewrite Hb1. apply length_without; unfold t_len in *; lia. }
    eapply trim_ok_more; [|apply IH; [exact Hi1|lia|lia|lia|lia]].
    simpl. rewrite length_app. simpl. lia.
  - pose proof (skip_inv t pos n Hi Hpos Hn (u64 (trim_execs t + 1)) w (hash64 (classify trace))) as Hi1.
    rewrite (u32_id (pos + remove_len)) by lia.
    eapply trim_ok_more; [|apply IH; [exact Hi1|lia|lia|lia|unfold t_len in *; simpl; lia]].
    simpl. rewrite length_app. simpl. lia.
Qed.

(** A pass has at most 1023 steps. *)
Lemma pass_steps t remove_len :
  trim_inv t -> Z.max (t_len_p2 t / TRIM_END_STEPS) TRIM_MIN_BYTES <= remove_len ->
  t_len t - remove_len <= Z.of_nat 1023 * remove_len.
Proof using Hsmall.
  intros Hi Hr. destruct (t_len_p2_bounds t Hi) as (k & Hk & E & Hle). unfold TRIM_END_STEPS, TRIM_MIN_BYTES in Hr.
  rewrite E in Hr. destruct (decide (10 <= k)) as [H10|H10].
  - assert (Hd : 2 ^ k / 1024 = 2 ^ (k - 10)).
    { replace k with (k - 10 + 10) at 1 by lia. rewrite Z.pow_add_r by lia. apply Z.div_mul. lia. }
    assert (Hm : 2 ^ k = 2 ^ (k - 10) * 1024).
    { replace k with (k - 10 + 10) at 1 by lia. by rewrite Z.pow_add_r by lia. }
    lia.
  - pose proof (Z.pow_le_mono_r 2 k 9). lia.
Qed.

Lemma trim_passes_ok n passes remove_len fault t :
  trim_inv t -> 0 <= remove_len < 2 ^ (Z.of_nat n + 2) -> (n <= 25)%nat -> (n <= passes)%nat ->
  trim_ok t (Z.of_nat n * 1023) (trim_passes classify hash64 exec_tmout exec_cksum passes 1023 remove_len fault t).
Proof using Hsmall.
  revert passes remove_len fault t. induction n as [|n IH]; intros passes r fault t Hi Hr Hn Hp.
  - assert (E : (Z.max (t_len_p2 t / TRIM_END_STEPS) TRIM_MIN_BYTES <=? r) = false).
    { apply Z.leb_gt. change (2 ^ (Z.of_nat 0 + 2)) with 4 in Hr. unfold TRIM_MIN_BYTES. lia. }
    destruct passes; cbn [trim_passes]; rewrite E; (split; [exact Hi|lia]).
  - destruct passes as [|passes]; [lia|]. cbn [trim_passes].
    destruct (Z.leb_spec (Z.max (t_len_p2 t / TRIM_END_STEPS) TRIM_MIN_BYTES) r) as [Hge|Hlt]; [|split; [exact Hi|lia]].
    assert (Hpow : 2 ^ (Z.of_nat (S n) + 2) = 2 * 2 ^ (Z.of_nat n + 2)).
    { rewrite <- Z.pow_succ_r by lia. f_equal. lia. }
    pose proof (Z.pow_le_mono_r 2 (Z.of_nat n + 2) 27 ltac:(lia) ltac:(lia)).
    pose proof (pass_steps t r Hi Hge) as Hs. unfold TRIM_MIN_BYTES in Hge.
    pose proof (trim_pass_ok 1023 r r fault t Hi ltac:(lia) ltac:(lia) ltac:(lia) Hs) as Hpass.
    destruct (trim_pass _ _ _ _ _ _ _ _ _) as [fault1 t1|fault1 t1|]; [| |done].
    + destruct Hpass as [Hi1 Hc]. eapply trim_ok_more; [|apply IH; [exact Hi1| |lia|lia]]; [lia|].
      rewrite Z.shiftr_div_pow2 by lia. change (2 ^ 1) with 2. dlia.
    + destruct Hpass as (Hi1 & Hc & Hs1). split; [exact Hi1|]. split; [lia|exact Hs1].
Qed.
End proofs.

(** ** A target that does not look *)

Section blind.
Context {W : Type} `{!Executor W}.
Context (classify : list Z -> list Z) (hash64 : list Z -> Z) (exec_tmout exec_cksum : Z).
Context (b0 : list Z).
Hypothesis Hsmall : Z.of_nat (length b0) <= MAX_FILE.

(** Every run ends normally with the entry's checksum. *)
Definition blind : Prop := forall w input,
  let '(fault, trace, w') := fuzz_run_target w exec_tmout input in
  stop_soon w' = false /\ fault <> FSRV_RUN_ERROR /\ hash64 (classify trace) = exec_cksum.
Hypothesis Hblind : blind.

Lemma blind_pass fuel remove_len remove_pos fault t :
  trim_inv hash64 exec_cksum b0 t -> 4 <= remove_len <= remove_pos -> remove_pos <= 2 ^ 30 -> remove_len <= 2 ^ 30 ->
  t_len t - remove_pos <= Z.of_nat fuel * remove_len ->
  exists fault' t', trim_pass classify hash64 exec_tmout exec_cksum fuel remove_len remove_pos fault t = TrimDone fault' t'
    /\ trim_inv hash64 exec_cksum b0 t' /\ t_len t' = Z.min (t_len t) remove_pos.
Proof using Hsmall Hblind.
  revert fault t. induction fuel as [|fuel IH]; intros fault t Hi Hr Hp Hr' Hf; cbn [trim_pass];
    pose proof (t_len_small hash64 exec_cksum b0 Hsmall t Hi) as Hl;
    destruct (Z.ltb_spec remove_pos (t_len t)) as [Hlt|Hge]; [lia| | |];
    try (exists fault, t; split; [done|]; split; [done|lia]).
  rewrite (u32_id (_ - _)) by lia. set (n := Z.min remove_len _).
  assert (Hn : 0 < n <= t_len t - remove_pos) by lia. assert (Hpos : 4 <= remove_pos < t_len t) by lia.
  rewrite write_with_gap_eq by (unfold t_len in *; lia).
  pose proof (Hblind (t_world t) (without (t_buf t) remove_pos n)) as Hb.
  destruct (fuzz_run_target _ _ _) as [[fault' trace] w]. destruct Hb as (-> & Hne & Hck).
  rewrite bool_decide_eq_false_2 by done. cbn [orb]. rewrite (proj2 (Z.eqb_eq _ _) Hck).
  pose proof (remove_block_inv hash64 exec_cksum b0 Hsmall t remove_pos n Hi Hpos Hn (classify trace)
    (u64 (trim_execs t + 1)) w Hck) as Hi1.
  rewrite Hck. set (t1 := remove_block _ _ _ _) in *.
  assert (Hl1 : t_len t1 = t_len t - n).
  { assert (Hb1 : t_buf t1 = without (t_buf t) remove_pos n)
      by exact (remove_block_buf hash64 exec_cksum b0 Hsmall t remove_pos n Hi Hpos Hn (classify trace)).
    unfold t_len at 1. rewrite Hb1. apply length_without; unfold t_len in *; lia. }
  destruct (IH fault' t1 Hi1) as (f2 & t2 & -> & Hi2 & Hl2); [lia|lia|lia|lia|].
  exists f2, t2. split; [done|]. split; [done|]. lia.
Qed.

Lemma blind_passes n r passes fault t :
  r = 2 ^ (Z.of_nat n + 2) ->
  trim_inv hash64 exec_cksum b0 t -> t_len_p2 t <= 16 * r -> (n <= 24)%nat -> (n < passes)%nat ->
  exists fault' t', trim_passes classify hash64 exec_tmout exec_cksum passes 1023 r fault t
      = TrimDone fault' t' /\ trim_inv hash64 exec_cksum b0 t' /\ t_len t' = 4.
Proof using Hsmall Hblind.
  revert r passes fault t. induction n as [|n IH]; intros r passes fault t Er Hi Hp2 Hn Hp; (destruct passes as [|passes]; [lia|]);
    cbn [trim_passes]; pose proof (t_len_small hash64 exec_cksum b0 Hsmall t Hi) as Hl;
    assert (Hr : 4 <= r <= 2 ^ 26) by (rewrite Er; split; [change 4 with (2 ^ 2)|]; apply Z.pow_le_mono_r; lia);
    assert (Hge : Z.max (t_len_p2 t / TRIM_END_STEPS) TRIM_MIN_BYTES <= r)
      by (unfold TRIM_END_STEPS, TRIM_MIN_BYTES; apply Z.max_lub; [apply Z.div_le_upper_bound|]; lia);
    pose proof (pass_steps hash64 exec_cksum b0 Hsmall t r Hi Hge) as Hs; rewrite (proj2 (Z.leb_le _ _) Hge);
    destruct (blind_pass 1023 r r fault t Hi) as (f1 & t1 & -> & Hi1 & Hl1); try lia.
  - change (2 ^ (Z.of_nat 0 + 2)) with 4 in Er. subst r. change (4 ≫ 1) with 2.
    assert (E : (Z.max (t_len_p2 t1 / TRIM_END_STEPS) TRIM_MIN_BYTES <=? 2) = false)
      by (apply Z.leb_gt; unfold TRIM_MIN_BYTES; lia).
    destruct passes; cbn [trim_passes]; rewrite E; (exists f1, t1; split; [done|]; split; [done|lia]).
  - assert (Hdouble : r = 2 * 2 ^ (Z.of_nat n + 2)).
    { rewrite Er. replace (Z.of_nat (S n) + 2) with (Z.succ (Z.of_nat n + 2)) by lia. apply Z.pow_succ_r. lia. }
    assert (Hhalf : r ≫ 1 = 2 ^ (Z.of_nat n + 2)).
    { rewrite Z.shiftr_div_pow2 by lia. rewrite Hdouble, Z.mul_comm. apply Z.div_mul. lia. }
    apply IH; [done|done| |lia|lia].
    pose proof (t_len_small hash64 exec_cksum b0 Hsmall t1 Hi1) as Hl1'.
    destruct (next_pow2_least (t_len t1)) as (k1 & Hk1 & E1 & _ & Hmin); [lia|].
    assert (Hk1' : k1 <= Z.of_nat (S n) + 2) by (apply Hmin; [lia|rewrite <- Er; lia]).
    rewrite (ti_p2 _ _ _ t1 Hi1), E1.
    pose proof (Z.pow_le_mono_r 2 k1 (Z.of_nat (S n) + 2) ltac:(lia) Hk1') as Hle1. rewrite <- Er in Hle1.
    pose proof (Z.pow_nonneg 2 k1 ltac:(lia)). rewrite u32_id by lia. lia.
Qed.
End blind.

(** The first block is a power of two. *)
Lemma first_block len :
  5 <= len <= MAX_FILE ->
  exists n, (n <= 19)%nat /\ Z.max (u32 (next_pow2 len) / TRIM_START_STEPS) TRIM_MIN_BYTES = 2 ^ (Z.of_nat n + 2)
    /\ u32 (next_pow2 len) <= 16 * 2 ^ (Z.of_nat n + 2).
Proof.
  intros Hlen. unfold MAX_FILE in Hlen. destruct (next_pow2_least len) as (k & Hk & E & Hle & Hmin); [lia|].
  assert (Hk25 : k <= 25) by (apply Hmin; lia). rewrite E.
  pose proof (Z.pow_le_mono_r 2 k 25 ltac:(lia) Hk25) as Hb. pose proof (Z.pow_nonneg 2 k ltac:(lia)). rewrite u32_id by lia.
  unfold TRIM_START_STEPS, TRIM_MIN_BYTES. destruct (decide (6 <= k)) as [H6|H6].
  - assert (Hm : 2 ^ k = 2 ^ (k - 4) * 16).
    { replace k with (k - 4 + 4) at 1 by lia. by rewrite Z.pow_add_r by lia. }
    assert (Hd : 2 ^ k / 16 = 2 ^ (k - 4)) by (rewrite Hm; apply Z.div_mul; lia).
    pose proof (Z.pow_le_mono_r 2 2 (k - 4) ltac:(lia) ltac:(lia)).
    exists (Z.to_nat (k - 6)). replace (Z.of_nat (Z.to_nat (k - 6)) + 2) with (k - 4) by lia. split; [lia|]. lia.
  - pose proof (Z.pow_le_mono_r 2 k 5 ltac:(lia) ltac:(lia)). exists 0%nat. split; [lia|].
    change (2 ^ (Z.of_nat 0 + 2)) with 4. split; [|lia].
    assert (2 ^ k / 16 <= 4) by (apply Z.div_le_upper_bound; lia). lia.
Qed.

Lemma trim_start_inv {W} (hash64 : list Z -> Z) exec_cksum in_buf execs (w : W) :
  (5 <= length in_buf)%nat ->
  trim_inv hash64 exec_cksum in_buf (Trimming in_buf (u32 (next_pow2 (Z.of_nat (length in_buf)))) None execs w []).
Proof. intros H. split; simpl; [|done|done|by left|done]. split; [done|]. split; [done|lia]. Qed.

(** ** Properties *)

Section theorems.
Context {W : Type} `{!Executor W}.
Context (classify : list Z -> list Z) (hash64 : list Z -> Z) (exec_tmout exec_cksum : Z).

(** C23: with AFL_NO_UNLINK unset, trimming ends after at most 20 passes of 1023 runs each.  What is left is made of the
    bytes of the test case in their order, with the first four of them; if anything was
    removed, the target was run on exactly what is left and gave the entry's checksum.  The
    file then holds what is left (unless the fuzzer is stopping or the target cannot be
    run), and the trace for the scores has the entry's checksum. *)
Theorem trim_case_correct in_buf execs (w : W) :
  Z.of_nat (length in_buf) <= MAX_FILE ->
  exists r, trim_case classify hash64 exec_tmout exec_cksum 20 1023 None in_buf in_buf execs w = Some r
    /\ r_buf r `sublist_of` in_buf /\ take 4 (r_buf r) = take 4 in_buf
    /\ (r_buf r = in_buf \/ (r_buf r, exec_cksum) ∈ r_runs r)
    /\ Forall (fun i => i.1 `sublist_of` in_buf /\ take 4 i.1 = take 4 in_buf) (r_runs r)
    /\ Z.of_nat (length (r_runs r)) <= 20 * 1023
    /\ (r_file r = r_buf r \/ r_file r = in_buf /\ (stop_soon (r_world r) = true \/ r_fault r = FSRV_RUN_ERROR))
    /\ (forall trace, r_score r = Some trace -> hash64 trace = exec_cksum /\ r_file r = r_buf r).
Proof.
  intros Hsmall. unfold trim_case. destruct (Z.ltb_spec (Z.of_nat (length in_buf)) 5) as [Hlt|Hge].
  { eexists. split; [done|]. simpl. split_and!; [done|done|by left|done|lia|by left|done]. }
  destruct (first_block (Z.of_nat (length in_buf))) as (n & Hn & -> & _); [lia|].
  pose proof (trim_start_inv hash64 exec_cksum in_buf execs w ltac:(lia)) as Hi.
  pose proof (trim_passes_ok classify hash64 exec_tmout exec_cksum in_buf Hsmall (S n) 20 (2 ^ (Z.of_nat n + 2))
    FSRV_RUN_OK _ Hi) as H.
  assert (Hp : 0 <= 2 ^ (Z.of_nat n + 2) < 2 ^ (Z.of_nat (S n) + 2))
    by (split; [apply Z.pow_nonneg; lia|apply Z.pow_lt_mono_r; lia]).
  specialize (H Hp ltac:(lia) ltac:(lia)).
  assert (Hruns : forall l : list (list Z * Z), Forall (fun i => shorter in_buf i.1) l ->
    Forall (fun i => i.1 `sublist_of` in_buf /\ take 4 i.1 = take 4 in_buf) l).
  { intros l Hl. eapply Forall_impl; [exact Hl|]. intros i (H1 & H2 & _). by split. }
  destruct (trim_passes _ _ _ _ _ _ _ _) as [fault t|fault t|]; [| |done].
  - destruct H as [Hi' Hc]. simpl in Hc. destruct Hi' as [(H1 & H2 & _) _ H3 H4 H5].
    destruct (t_clean t) as [trace|]; simpl.
    + eexists. split; [done|]. simpl. split_and!; [done|done|done|by apply Hruns|lia|by left|].
      intros tr [= <-]. by split.
    + eexists. split; [done|]. simpl. split_and!; [done|done|done|by apply Hruns|lia|by left|done].
  - destruct H as (Hi' & Hc & Hs). simpl in Hc. destruct Hi' as [(H1 & H2 & _) _ H3 H4 H5].
    eexists. split; [done|]. simpl. split_and!; [done|done|done|by apply Hruns|lia|by right|done].
Qed.

(** If no byte matters to the target, trimming leaves the first four. *)
Theorem trim_case_minimal in_buf execs (w : W) :
  5 <= Z.of_nat (length in_buf) <= MAX_FILE ->
  blind classify hash64 exec_tmout exec_cksum ->
  exists r, trim_case classify hash64 exec_tmout exec_cksum 20 1023 None in_buf in_buf execs w = Some r
    /\ r_buf r = take 4 in_buf /\ r_file r = take 4 in_buf.
Proof.
  intros Hlen Hblind. unfold trim_case. rewrite (proj2 (Z.ltb_ge _ _)) by lia.
  destruct (first_block (Z.of_nat (length in_buf))) as (n & Hn & E & Hp2); [lia|].
  pose proof (trim_start_inv hash64 exec_cksum in_buf execs w ltac:(lia)) as Hi. rewrite E.
  destruct (blind_passes classify hash64 exec_tmout exec_cksum in_buf ltac:(lia) Hblind n (2 ^ (Z.of_nat n + 2)) 20
    FSRV_RUN_OK _ eq_refl Hi Hp2 ltac:(lia) ltac:(lia)) as (fault & t & -> & [(H1 & H2 & H3) _ Hc _ _] & Hl).
  unfold t_len in Hl.
  assert (Hbuf : t_buf t = take 4 in_buf) by (rewrite <- H2, take_ge by lia; done).
  destruct (t_clean t) as [trace|]; [|exfalso; rewrite Hc in Hl; lia].
  eexists. split; [done|]. simpl. done.
Qed.
End theorems.

(** With AFL_NO_UNLINK, if [write] accepts only part of the bytes, it is given the
    beginning of the buffer again: the file gets the accepted part twice instead of the
    rest. *)
Theorem short_write_repeats_beginning buf r :
  0 < r < Z.of_nat (length buf) -> Z.of_nat (length buf) < 2 ^ 32 ->
  write_in_place [r; Z.of_nat (length buf)] buf 0 []
  = Some (take (Z.to_nat r) buf ++ take (length buf - Z.to_nat r) buf).
Proof.
  intros Hr Hl. cbn [write_in_place]. rewrite (proj2 (Z.ltb_lt _ _)) by lia. rewrite Z.sub_0_r, (u32_id (Z.of_nat _)) by lia.
  rewrite Z.min_l by lia. rewrite (proj2 (Z.ltb_lt _ _)) by lia. rewrite Z.add_0_l, (u32_id r) by lia.
  rewrite (proj2 (Z.ltb_lt _ _)) by lia. rewrite u32_id by lia. rewrite Z.min_r by lia.
  rewrite (proj2 (Z.ltb_lt _ _)) by lia. replace (r + (Z.of_nat (length buf) - r)) with (Z.of_nat (length buf)) by lia.
  rewrite u32_id by lia. rewrite (proj2 (Z.ltb_ge _ _)) by lia. simpl.
  by replace (Z.to_nat (Z.of_nat (length buf) - r)) with (length buf - Z.to_nat r)%nat by lia.
Qed.

(** ** Witnesses: a target that counts the bytes above 100 *)

#[global] Instance sample_executor : Executor unit := {|
  fuzz_run_target w tmout input := (FSRV_RUN_OK, [Z.of_nat (length (filter (fun b => 100 < b) input))], w);
  stop_soon w := false;
|}.

Definition sample_input : list Z := [1; 2; 3; 4; 5; 6; 7; 8; 200; 10; 11; 12; 13; 14; 15; 16; 17; 18; 19; 20].
Definition first_byte (trace : list Z) : Z := default 0 (head trace).

Lemma trim_case_correct_witness :
  exists r, trim_case (W:=unit) id first_byte 1000 1 20 1023 None sample_input sample_input 0 tt = Some r
    /\ r_buf r `sublist_of` sample_input /\ take 4 (r_buf r) = take 4 sample_input
    /\ (r_buf r = sample_input \/ (r_buf r, 1) ∈ r_runs r)
    /\ Forall (fun i => i.1 `sublist_of` sample_input /\ take 4 i.1 = take 4 sample_input) (r_runs r)
    /\ Z.of_nat (length (r_runs r)) <= 20 * 1023
    /\ (r_file r = r_buf r \/ r_file r = sample_input /\ (stop_soon (r_world r) = true \/ r_fault r = FSRV_RUN_ERROR))
    /\ (forall trace, r_score r = Some trace -> first_byte trace = 1 /\ r_file r = r_buf r).
Proof. apply (trim_case_correct (W:=unit) id first_byte 1000 1 sample_input 0 tt). unfold MAX_FILE. simpl. lia. Defined.

Lemma sample_trimmed :
  r_buf <$> trim_case (W:=unit) id first_byte 1000 1 20 1023 None sample_input sample_input 0 tt
  = Some [1; 2; 3; 4; 200; 10; 11; 12].
Proof. reflexivity. Qed.

Lemma trim_case_minimal_witness :
  exists r, trim_case (W:=unit) id (fun _ => 7) 1000 7 20 1023 None sample_input sample_input 0 tt = Some r
    /\ r_buf r = [1; 2; 3; 4] /\ r_file r = [1; 2; 3; 4].
Proof.
  apply (trim_case_minimal (W:=unit) id (fun _ => 7) 1000 7 sample_input 0 tt); [unfold MAX_FILE; simpl; lia|].
  intros w input. simpl. done.
Defined.

Lemma short_write_repeats_beginning_witness :
  write_in_place [2; 5] [1; 2; 3; 4; 5] 0 [] = Some [1; 2; 1; 2; 3].
Proof. apply (short_write_repeats_beginning [1; 2; 3; 4; 5] 2); simpl; lia. Defined.
