(* ===== verification/CustomTrim.v ===== *)
(** * Trimming by custom mutators (src/aflplusplus/src/afl-fuzz-mutators.c, afl-fuzz-run.c)

    A custom mutator is a shared object or a Python module of the user that may bring its own
    trimmer and may process test cases before they are run.  Its functions are the class
    [CustomMutator]; [trim_case_custom] drives the trimmer, [write_to_testcase] the
    processing, and [trim_case] calls all trimmers of the list before (and instead of) the
    built-in one of [Trim]. *)
From S2P Require Import Prelude Alloc DetStages Trim.

Class CustomMutator (M : Type) := {
  (** whether [afl_custom_trim] and [afl_custom_post_process] are there *)
  has_trim : M -> bool;
  has_post_process : M -> bool;
  afl_custom_init_trim : M -> list Z -> Z * M;
  (** the buffer, if there is one *)
  afl_custom_trim : M -> option (list Z) * M;
  afl_custom_post_trim : M -> bool -> Z * M;
  (** the new buffer up to the size, if there is one and the size is positive *)
  afl_custom_post_process : M -> list Z -> option (list Z) * M;
}.

Section custom.
Context {W : Type} `{!Executor W} {M : Type} `{!CustomMutator M}.
(** [classify_counts] and [hash64] on a trace, the time limit, the bounds of the lengths,
    and what is in memory behind a buffer *)
Context (classify : list Z -> list Z) (hash64 : list Z -> Z) (exec_tmout min_length max_length : Z) (behind : Z -> Z).

(** [n] bytes from [mem] on *)
Definition bytes_from (mem : list Z) (n : Z) : list Z :=
  take (Z.to_nat n) mem ++ map behind (seqZ (Z.of_nat (length mem)) (n - Z.of_nat (length mem))).

(** The loop over [afl_custom_post_process]; the values are [new_mem] and [new_size]. *)
Fixpoint post_process (els : list M) (new_mem : list Z) (new_size : Z) : list M * list Z * Z :=
  match els with
  | [] => ([], new_mem, new_size)
  | el :: els =>
      if has_post_process el then
        let '(new_buf, el) := afl_custom_post_process el (bytes_from new_mem new_size) in
        let '(els, m, n) :=
          match new_buf with
          | None => post_process els new_mem 0
          | Some b => post_process els b (Z.of_nat (length b))
          end in (el :: els, m, n)
      else let '(els, m, n) := post_process els new_mem new_size in (el :: els, m, n)
  end.

(** [write_to_testcase] with custom mutators: what the target will read, [None] if nothing
    is written *)
Definition write_custom (els : list M) (fix_ : bool) (mem : list Z) : list M * option (list Z) :=
  let len := Z.of_nat (length mem) in
  let '(els, new_mem, new_size) := post_process els mem len in
  if (new_size =? 0) && negb fix_ then (els, None)
  else
    let new_size := if new_size =? 0 then len else new_size in
    let new_size :=
      if (new_size <? min_length) && negb fix_ then min_length
      else if max_length <? new_size then max_length else new_size in
    (els, Some (bytes_from new_mem new_size)).

(** The mutators, [stage_cur], [out_buf], [clean_trace_custom] once [out_buf] is there, the
    number of runs, the rest of the fuzzer, and the inputs run with their checksums *)
Record customs := Customs {
  c_els : list M;
  stage_cur : Z;
  out_buf : option (list Z);
  clean_trace_custom : option (list Z);
  c_trim_execs : Z;
  c_fault : fsrv_run_result;
  c_world : W;
  c_runs : list (list Z * Z);
}.

Inductive custom_out := CDone (c : customs) | CAborted (c : customs) | CFatal (message : string) | CNoFuel.

(** One call of the trimmer [k] of the list, and the run *)
Definition custom_step (exec_cksum : Z) (k : nat) (c : customs) : custom_out :=
  match c_els c !! k with
  | None => CFatal "no such mutator"
  | Some el =>
      let '(retbuf, el) := afl_custom_trim el in
      let els := <[k := el]> (c_els c) in
      match retbuf with
      | None => CFatal "custom_trim failed"
      | Some retbuf =>
          let '(els, sent) := match retbuf with [] => (els, None) | _ => write_custom els false retbuf end in
          (* the run, and whether the checksum is the same *)
          let '(aborted, c, same) :=
            match sent with
            | None | Some [] =>
                (false, Customs els (stage_cur c) (out_buf c) (clean_trace_custom c) (u64 (c_trim_execs c + 1))
                          (c_fault c) (c_world c) (c_runs c), None)
            | Some input =>
                let '(fault, trace, w) := fuzz_run_target (c_world c) exec_tmout input in
                let c := Customs els (stage_cur c) (out_buf c) (clean_trace_custom c) (u64 (c_trim_execs c + 1))
                           fault w (c_runs c) in
                if stop_soon w || bool_decide (fault = FSRV_RUN_ERROR) then (true, c, None)
                else
                  let trace := classify trace in
                  let cksum := hash64 trace in
                  (false, Customs els (stage_cur c) (out_buf c) (clean_trace_custom c) (c_trim_execs c) fault w
                            (c_runs c ++ [(input, cksum)]),
                   if cksum =? exec_cksum then Some (input, trace) else None)
            end in
          if aborted then CAborted c
          else
            match c_els c !! k with
            | None => CFatal "no such mutator"
            | Some el =>
                match same with
                | Some (input, trace) =>
                    let '(r, el) := afl_custom_post_trim el true in
                    CDone (Customs (<[k := el]> (c_els c)) (u32 r) (Some input)
                             (match out_buf c with None => Some trace | Some _ => clean_trace_custom c end)
                             (c_trim_execs c) (c_fault c) (c_world c) (c_runs c))
                | None =>
                    let '(r, el) := afl_custom_post_trim el false in
                    if r <? 0 then CFatal "Error ret in custom_post_trim"
                    else CDone (Customs (<[k := el]> (c_els c)) (u32 r) (out_buf c) (clean_trace_custom c)
                                  (c_trim_execs c) (c_fault c) (c_world c) (c_runs c))
                end
            end
      end
  end.

(** [while (afl->stage_cur < afl->stage_max)] *)
Fixpoint custom_loop (fuel : nat) (exec_cksum : Z) (k : nat) (stage_max : Z) (c : customs) : custom_out :=
  if stage_cur c <? stage_max then
    match fuel with
    | O => CNoFuel
    | S fuel =>
        match custom_step exec_cksum k c with
        | CDone c => custom_loop fuel exec_cksum k stage_max c
        | o => o
        end
    end
  else CDone c.

(** The queue entry's part: its file (with [q->len] its length), the trace that
    [update_bitmap_score] works on if it is called, the mutators and the rest *)
Record custom_trimmed := CustomTrimmed {
  ct_fault : fsrv_run_result;
  ct_file : list Z;
  ct_score : option (list Z);
  ct_els : list M;
  ct_execs : Z;
  ct_world : W;
  ct_runs : list (list Z * Z);
}.

(** [trim_case_custom(afl, q, in_buf, mutator)] with the trimmer [k].  The test
    [unlikely(retval) < 0] is one of [!!(retval)] and never true. *)
Definition trim_case_custom (fuel : nat) (exec_cksum : Z) (in_buf : list Z) (k : nat) (t : custom_trimmed)
    : custom_trimmed + (string + ()) :=
  match ct_els t !! k with
  | None => inr (inl "no such mutator"%string)
  | Some el =>
      let len := Z.of_nat (length (ct_file t)) in
      let '(retval, el) := afl_custom_init_trim el (bytes_from in_buf len) in
      let stage_max := u32 retval in
      match custom_loop fuel exec_cksum k stage_max
              (Customs (<[k := el]> (ct_els t)) 0 None None (ct_execs t) FSRV_RUN_OK (ct_world t) (ct_runs t)) with
      | CNoFuel => inr (inr ())
      | CFatal m => inr (inl m)
      | CAborted c => inl (CustomTrimmed (c_fault c) (ct_file t) (ct_score t) (c_els c) (c_trim_execs c) (c_world c) (c_runs c))
      | CDone c =>
          inl (match out_buf c with
               | Some b => CustomTrimmed (c_fault c) b (clean_trace_custom c) (c_els c) (c_trim_execs c) (c_world c) (c_runs c)
               | None => CustomTrimmed (c_fault c) (ct_file t) (ct_score t) (c_els c) (c_trim_execs c) (c_world c) (c_runs c)
               end)
      end
  end.

(** The beginning of [trim_case]: all trimmers of the list, in order *)
Fixpoint trim_customs (fuel : nat) (exec_cksum : Z) (in_buf : list Z) (ks : list nat) (t : custom_trimmed)
    : custom_trimmed + (string + ()) :=
  match ks with
  | [] => inl t
  | k :: ks =>
      if match ct_els t !! k with Some el => has_trim el | None => false end then
        match trim_case_custom fuel exec_cksum in_buf k t with
        | inl t => trim_customs fuel exec_cksum in_buf ks t
        | o => o
        end
      else trim_customs fuel exec_cksum in_buf ks t
  end.
End custom.

Arguments customs : clear implicits.
Arguments custom_out : clear implicits.
Arguments custom_trimmed : clear implicits.

(** What a trimmer that counts its steps promises: [init_trim] returns the number of steps
    and starts the count, [post_trim] returns the count, which grows, and nothing else
    changes it. *)
Class CountingTrimmer (M : Type) `{!CustomMutator M} := {
  index : M -> Z;
  init_index : forall m x, 0 <= (afl_custom_init_trim m x).1 < 2 ^ 31 /\ index (afl_custom_init_trim m x).2 = 0;
  trim_index : forall m, index (afl_custom_trim m).2 = index m;
  process_index : forall m x, index (afl_custom_post_process m x).2 = index m;
  post_index : forall m b, 0 <= index m < 2 ^ 31 - 1 ->
    (afl_custom_post_trim m b).1 = index (afl_custom_post_trim m b).2
    /\ index m < index (afl_custom_post_trim m b).2 < 2 ^ 31;
}.

(** ** What is written was run *)

Section theorems.
Context {W : Type} `{!Executor W} {M : Type} `{!CustomMutator M}.
Context (classify : list Z -> list Z) (hash64 : list Z -> Z) (exec_tmout min_length max_length : Z) (behind : Z -> Z).
Context (exec_cksum : Z) (k : nat).
Notation step := (custom_step classify hash64 exec_tmout min_length max_length behind exec_cksum k).
Notation loop := (fun fuel => custom_loop classify hash64 exec_tmout min_length max_length behind fuel exec_cksum k).
Notation trim_custom := (fun fuel => trim_case_custom classify hash64 exec_tmout min_length max_length behind fuel exec_cksum).

(** What is kept was run, with the checksum of the entry, and so was the trace. *)
Definition kept_ok (c : customs W M) : Prop :=
  match out_buf c with
  | None => True
  | Some b => (b, exec_cksum) ∈ c_runs c /\ exists trace, clean_trace_custom c = Some trace /\ hash64 trace = exec_cksum
  end.

Lemma custom_step_ok c c' :
  step c = CDone c' \/ step c = CAborted c' -> kept_ok c -> kept_ok c' /\ c_runs c `prefix_of` c_runs c'.
Proof.
  unfold custom_step, kept_ok. destruct (c_els c !! k) as [el|]; [|by intros [?|?]].
  destruct (afl_custom_trim el) as [[retbuf|] el1]; [|by intros [?|?]].
  destruct (match retbuf with [] => _ | _ => _ end) as [els sent].
  destruct sent as [[|x input]|]; cbn [c_els].
  - destruct (els !! k) as [el2|]; [|by intros [?|?]]. destruct (afl_custom_post_trim el2 false) as [r el3].
    destruct (r <? 0); [by intros [?|?]|]. intros [[= <-]|?] Hc; [|done]. done.
  - destruct (fuzz_run_target _ _ _) as [[fault trace] w]. destruct (_ || _); cbn.
    { intros [?|[= <-]] Hc; [done|]. done. }
    destruct (els !! k) as [el2|]; [|by intros [?|?]]. destruct (Z.eqb_spec (hash64 (classify trace)) exec_cksum) as [Heq|Hne].
    + destruct (afl_custom_post_trim el2 true) as [r el3]. intros [[= <-]|?] Hc; [|done]. cbn.
      split; [|by apply prefix_app_r]. split; [apply elem_of_app; right; rewrite Heq; left|].
      destruct (out_buf c); [by destruct Hc|eauto].
    + destruct (afl_custom_post_trim el2 false) as [r el3]. destruct (r <? 0); [by intros [?|?]|].
      intros [[= <-]|?] Hc; [|done]. cbn. split; [|by apply prefix_app_r]. destruct (out_buf c); [|done].
      destruct Hc as [? ?]. split; [apply elem_of_app; by left|done].
  - destruct (els !! k) as [el2|]; [|by intros [?|?]]. destruct (afl_custom_post_trim el2 false) as [r el3].
    destruct (r <? 0); [by intros [?|?]|]. intros [[= <-]|?] Hc; [|done]. done.
Qed.

Lemma custom_loop_ok fuel stage_max c c' :
  loop fuel stage_max c = CDone c' \/ loop fuel stage_max c = CAborted c' -> kept_ok c ->
  kept_ok c' /\ c_runs c `prefix_of` c_runs c'.
Proof.
  revert c. induction fuel as [|fuel IH]; intros c; cbn [custom_loop]; destruct (_ <? _);
    try (by intros [[= <-]|?] Hc).
  destruct (step c) as [c1|c1|m|] eqn:E; try (by intros [?|?]).
  - intros Hl Hc. destruct (custom_step_ok c c1 (or_introl E) Hc) as [H1 P1].
    destruct (IH c1 Hl H1) as [H2 P2]. split; [done|]. by etransitivity.
  - intros [?|[= <-]] Hc; [done|]. by apply (custom_step_ok c _ (or_intror E)).
Qed.

(** ** Progress *)

Context `{!CountingTrimmer M}.

Lemma post_process_index els mem n :
  let '(els', _, _) := post_process behind els mem n in
  length els' = length els /\ forall j m, els !! j = Some m -> exists m', els' !! j = Some m' /\ index m' = index m.
Proof.
  revert mem n. induction els as [|el els IH]; intros mem n; cbn [post_process]; [done|].
  destruct (has_post_process el).
  - pose proof (process_index el (bytes_from behind mem n)) as Hp.
    destruct (afl_custom_post_process el (bytes_from behind mem n)) as [[b|] el1]; cbn in Hp;
      [specialize (IH b (Z.of_nat (length b)))|specialize (IH mem 0)];
      destruct (post_process behind els _ _) as [[els' m'] n']; destruct IH as [Hl Hj];
      (split; [cbn; lia|]); intros [|j] m; cbn; [intros [= <-]; eauto|apply Hj|intros [= <-]; eauto|apply Hj].
  - specialize (IH mem n). destruct (post_process behind els mem n) as [[els' m'] n']. destruct IH as [Hl Hj].
    split; [cbn; lia|]. intros [|j] m; cbn; [intros [= <-]; eauto|apply Hj].
Qed.

Lemma write_custom_index els b mem m :
  els !! k = Some m -> exists m', (write_custom min_length max_length behind els b mem).1 !! k = Some m' /\ index m' = index m.
Proof.
  intros Hm. unfold write_custom. pose proof (post_process_index els mem (Z.of_nat (length mem))) as Hp.
  destruct (post_process _ _ _ _) as [[els' m'] n']. destruct Hp as [_ Hp]. by destruct (_ && _); apply Hp.
Qed.

Lemma custom_step_index c m :
  c_els c !! k = Some m -> 0 <= index m < 2 ^ 31 - 1 ->
  match step c with
  | CDone c' => exists m', c_els c' !! k = Some m' /\ stage_cur c' = index m' /\ index m < index m' < 2 ^ 31
  | CNoFuel => False
  | _ => True
  end.
Proof.
  intros Hm H0. unfold custom_step. rewrite Hm. pose proof (trim_index m) as Ht.
  destruct (afl_custom_trim m) as [[retbuf|] m1]; [|done]. cbn in Ht.
  assert (Hk : <[k := m1]> (c_els c) !! k = Some m1) by (by apply list_lookup_insert_eq, lookup_lt_Some with m).
  assert (exists m2, (match retbuf with [] => (<[k := m1]> (c_els c), None)
    | _ => write_custom min_length max_length behind (<[k := m1]> (c_els c)) false retbuf end).1 !! k = Some m2 /\ index m2 = index m)
    as (m2 & Hm2 & Hi2).
  { destruct retbuf; [by exists m1|]. destruct (write_custom_index _ false (z :: retbuf) m1 Hk) as (m2 & ? & ?).
    exists m2. split; [done|congruence]. }
  destruct (match retbuf with [] => _ | _ => _ end) as [els sent]. cbn in Hm2.
  assert (Hlast : forall b, let '(r, m3) := afl_custom_post_trim m2 b in
    exists m', <[k := m3]> els !! k = Some m' /\ u32 r = index m' /\ index m < index m' < 2 ^ 31).
  { intros b. destruct (post_index m2 b) as [Hr Hi]; [lia|]. destruct (afl_custom_post_trim m2 b) as [r m3]. cbn in Hr, Hi.
    exists m3. rewrite list_lookup_insert_eq by (by eapply lookup_lt_Some). rewrite Hr, u32_id by lia. split_and!; [done..|lia|lia]. }
  pose proof (Hlast true) as Hyes. pose proof (Hlast false) as Hno. revert Hyes Hno. clear Hlast.
  destruct sent as [[|x input]|]; cbn [c_els]; try destruct (fuzz_run_target _ _ _) as [[fault trace] w];
    try destruct (_ || _); cbn; rewrite ?Hm2; try done;
    destruct (afl_custom_post_trim m2 true) as [r3 m3], (afl_custom_post_trim m2 false) as [r4 m4]; intros Hyes Hno;
    try destruct (_ =? exec_cksum); try destruct (r4 <? 0); done.
Qed.

Lemma custom_loop_ends fuel stage_max c m :
  c_els c !! k = Some m -> stage_cur c = index m -> 0 <= index m -> stage_max < 2 ^ 31 ->
  stage_max - stage_cur c <= Z.of_nat fuel -> loop fuel stage_max c <> CNoFuel.
Proof.
  revert c m. induction fuel as [|fuel IH]; intros c m Hm Hc H0 Hmax Hf; cbn [custom_loop];
    destruct (Z.ltb_spec (stage_cur c) stage_max); try done; [lia|].
  pose proof (custom_step_index c m Hm ltac:(lia)) as Hs. destruct (step c) as [c1|c1|msg|]; try done.
  destruct Hs as (m1 & Hm1 & Hc1 & Hlt). apply (IH c1 m1); try done; lia.
Qed.
End theorems.

Section trimmers.
Context {W : Type} `{!Executor W} {M : Type} `{!CustomMutator M}.
Context (classify : list Z -> list Z) (hash64 : list Z -> Z) (exec_tmout min_length max_length : Z) (behind : Z -> Z).
Context (exec_cksum : Z).
Notation trim_custom := (fun fuel => trim_case_custom classify hash64 exec_tmout min_length max_length behind fuel exec_cksum).
Notation trim_all := (fun fuel => trim_customs classify hash64 exec_tmout min_length max_length behind fuel exec_cksum).

(** The entry's file is the one of [t0], or it was run on the target and had the checksum
    of the entry, as had the trace that the favored set is updated with. *)
Definition trimmed_ok (t0 t : custom_trimmed W M) : Prop :=
  (ct_file t = ct_file t0 /\ ct_score t = ct_score t0)
  \/ ((ct_file t, exec_cksum) ∈ ct_runs t /\ exists trace, ct_score t = Some trace /\ hash64 trace = exec_cksum).

Lemma trim_case_custom_ok fuel in_buf k t t' :
  trim_custom fuel in_buf k t = inl t' -> trimmed_ok t t' /\ ct_runs t `prefix_of` ct_runs t'.
Proof.
  unfold trim_case_custom. destruct (ct_els t !! k) as [el|]; [|done].
  destruct (afl_custom_init_trim _ _) as [retval el1]. set (c0 := Customs _ _ _ _ _ _ _ _).
  destruct (custom_loop _ _ _ _ _ _ fuel _ _ _ c0) as [c|c|msg|] eqn:E; intros [= <-];
    pose proof (custom_loop_ok classify hash64 exec_tmout min_length max_length behind exec_cksum k fuel (u32 retval) c0 c) as Hl.
  - destruct (Hl (or_introl E) I) as [Hk Hp]. unfold kept_ok in Hk. split; [|by destruct (out_buf c)].
    destruct (out_buf c) as [b|]; [by right|by left].
  - destruct (Hl (or_intror E) I) as [_ Hp]. split; [by left|done].
Qed.

Lemma trimmed_ok_trans t0 t1 t2 :
  trimmed_ok t0 t1 -> trimmed_ok t1 t2 -> ct_runs t1 `prefix_of` ct_runs t2 -> trimmed_ok t0 t2.
Proof.
  intros H1 [[Hf Hs]|?] Hp; [|by right]. unfold trimmed_ok. rewrite Hf, Hs.
  destruct H1 as [?|[Hr ?]]; [by left|right]. split; [by eapply elem_of_prefix|done].
Qed.

Lemma trim_customs_ok fuel in_buf ks t t' :
  trim_all fuel in_buf ks t = inl t' -> trimmed_ok t t' /\ ct_runs t `prefix_of` ct_runs t'.
Proof.
  revert t. induction ks as [|k ks IH]; intros t; cbn [trim_customs]; [intros [= <-]; split; [by left|done]|].
  destruct (match ct_els t !! k with Some _ => _ | None => _ end); [|apply IH].
  destruct (trim_case_custom _ _ _ _ _ _ _ _ _ k t) as [t1|] eqn:E; [|done].
  destruct (trim_case_custom_ok _ _ _ _ _ E) as [H1 P1]. intros Ht. destruct (IH t1 Ht) as [H2 P2].
  split; [by eapply trimmed_ok_trans|by etransitivity].
Qed.

Lemma trim_case_custom_ends `{!CountingTrimmer M} fuel in_buf k t :
  (forall m x, (afl_custom_init_trim m x).1 <= Z.of_nat fuel) -> trim_custom fuel in_buf k t <> inr (inr ()).
Proof.
  intros Hf. unfold trim_case_custom. destruct (ct_els t !! k) as [el|] eqn:Hk; [|done].
  set (x := bytes_from _ _ _). specialize (Hf el x). destruct (init_index el x) as [Hr Hi].
  destruct (afl_custom_init_trim el x) as [retval el1]. cbn in Hf, Hr, Hi. rewrite u32_id by lia.
  set (c0 := Customs _ _ _ _ _ _ _ _).
  assert (He : custom_loop classify hash64 exec_tmout min_length max_length behind fuel exec_cksum k retval c0 <> CNoFuel).
  { apply (custom_loop_ends _ _ _ _ _ _ _ _ _ _ _ el1); unfold c0; cbn; try lia.
    by apply list_lookup_insert_eq, lookup_lt_Some with el. }
  by destruct (custom_loop _ _ _ _ _ _ _ _ _ _ _).
Qed.

(** The trimmers of the custom mutators, called one after the other as at the start of
    [trim_case], end when each counts its steps and there is fuel for their number; and
    whatever they do, the entry's file afterwards is the one from before, or one of the inputs
    the target was run on with the checksum of the entry: the trace handed to
    [update_bitmap_score] has that checksum too, also when later trimmers gave up. *)
Theorem trim_customs_correct `{!CountingTrimmer M} fuel in_buf ks t :
  (forall m x, (afl_custom_init_trim m x).1 <= Z.of_nat fuel) ->
  trim_all fuel in_buf ks t <> inr (inr ())
  /\ forall t', trim_all fuel in_buf ks t = inl t' -> trimmed_ok t t' /\ ct_runs t `prefix_of` ct_runs t'.
Proof.
  intros Hf. split; [|intros t'; apply trim_customs_ok].
  revert t. induction ks as [|k ks IH]; intros t; cbn [trim_customs]; [done|].
  destruct (match ct_els t !! k with Some _ => _ | None => _ end); [|apply IH].
  pose proof (trim_case_custom_ends fuel in_buf k t Hf) as He.
  destruct (trim_case_custom _ _ _ _ _ _ _ _ _ k t) as [t1|o] eqn:E; [apply IH|].
  intros [= ->]. by apply He.
Qed.
End trimmers.

(** ** Examples: a trimmer that drops the last byte *)

(** The bytes kept so far, the number of steps to go at the start, and the count *)
Record dropper := Dropper { d_buf : list Z; d_steps : Z; d_index : Z }.

#[global] Instance dropper_mutator : CustomMutator dropper := {|
  has_trim _ := true;
  has_post_process _ := false;
  afl_custom_init_trim d x := (d_steps d, Dropper x (d_steps d) 0);
  afl_custom_trim d := (Some (removelast (d_buf d)), d);
  afl_custom_post_trim d success :=
    (d_index d + 1, Dropper (if success then removelast (d_buf d) else d_buf d) (d_steps d) (d_index d + 1));
  afl_custom_post_process d x := (Some x, d);
|}.

(** The same trimmer with always two steps counts them. *)
Record two_dropper := TwoDropper { two : dropper }.

#[global] Instance two_dropper_mutator : CustomMutator two_dropper := {|
  has_trim _ := true;
  has_post_process _ := false;
  afl_custom_init_trim d x := (2, TwoDropper (Dropper x 2 0));
  afl_custom_trim d := (Some (removelast (d_buf (two d))), d);
  afl_custom_post_trim d success :=
    let '(r, d) := afl_custom_post_trim (two d) success in (r, TwoDropper d);
  afl_custom_post_process d x := (Some x, d);
|}.

#[global] Program Instance two_dropper_counts : CountingTrimmer two_dropper := {| index d := d_index (two d) |}.
Next Obligation. cbn. lia. Qed.
Next Obligation. done. Qed.
Next Obligation. done. Qed.
Next Obligation. cbn. lia. Qed.

Definition fresh_trimmed {M} (els : list M) (file : list Z) : custom_trimmed unit M :=
  CustomTrimmed FSRV_RUN_OK file None els 0 tt [].

Lemma trim_customs_correct_witness :
  let t := fresh_trimmed [TwoDropper (Dropper [] 0 0)] [200; 1; 2] in
  let r := trim_customs id first_byte 1000 1 100 (fun _ => 0) 2 1 [200; 1; 2] [0%nat] t in
  r <> inr (inr ()) /\ forall t', r = inl t' -> trimmed_ok first_byte 1 t t' /\ ct_runs t `prefix_of` ct_runs t'.
Proof. apply (trim_customs_correct id first_byte 1000 1 100 (fun _ => 0) 1). intros m x. cbn. lia. Defined.

Example two_bytes_dropped :
  match trim_customs id first_byte 1000 1 100 (fun _ => 0) 2 1 [200; 1; 2] [0%nat]
          (fresh_trimmed [TwoDropper (Dropper [] 0 0)] [200; 1; 2]) with
  | inl t => ct_file t = [200] /\ ct_score t = Some [1]
  | _ => False
  end.
Proof. by vm_compute. Qed.

(** A negative result of [init_trim], which is to stop the fuzzer, is taken for four
    billion steps: this one of [-1] goes on for as long as the fuel lasts. *)
Example negative_init_trim_runs :
  let t := fresh_trimmed [Dropper [] (-1) 0] [1; 2] in
  trim_customs id first_byte 1000 1 100 (fun _ => 0) 1000 1 [1; 2] [0%nat] t = inr (inr ())
  /\ u32 (-1) = 4294967295.
Proof. by vm_compute. Qed.

(** The second trimmer is given the buffer from before the first one, cut to the new length:
    the first drops the first byte of the file, the second starts from the old first byte. *)
Record header_dropper := HeaderDropper { h_first : bool; h_buf : list Z; h_index : Z }.

#[global] Instance header_dropper_mutator : CustomMutator header_dropper := {|
  has_trim _ := true;
  has_post_process _ := false;
  afl_custom_init_trim d x := (1, HeaderDropper (h_first d) x 0);
  afl_custom_trim d := (Some (if h_first d then tail (h_buf d) else h_buf d), d);
  afl_custom_post_trim d success := (h_index d + 1, HeaderDropper (h_first d) (h_buf d) (h_index d + 1));
  afl_custom_post_process d x := (Some x, d);
|}.

Example second_trimmer_undoes_first :
  let trimmed ks :=
    match trim_customs id (fun _ => 7) 1000 1 100 (fun _ => 0) 5 7 [1; 2; 3] ks
            (fresh_trimmed [HeaderDropper true [] 0; HeaderDropper false [] 0] [1; 2; 3]) with
    | inl t => ct_file t
    | inr _ => []
    end in
  trimmed [0%nat] = [2; 3] /\ trimmed [0%nat; 1%nat] = [1; 2].
Proof. by vm_compute. Qed.
