(* ===== verification/Tmin.v ===== *)
(** * The test case minimizer (src/aflplusplus/src/afl-tmin.c)

    [afl-tmin] makes one test case smaller and simpler as long as the target still behaves
    the same: it overwrites blocks by ['0'], then repeats passes that delete blocks of
    halving size, replace whole symbols by ['0'] and replace single characters by ['0'],
    until a pass changes nothing.  The target is the interface [Executor] of [Trim]; every
    read of the buffer is checked ([Oob]), the messages are left out, and [NoFuel] stands
    for a loop that is not over. *)
From S2P Require Import Prelude Bitmap Alloc DetStages Trim.

Definition TMIN_MAX_FILE : Z := 10 * 1024 * 1024.
Definition TMIN_SET_MIN_SIZE : Z := 4.
Definition TMIN_SET_STEPS : Z := 128.

(** ['0'] *)
Definition zero : Z := 48.

Definition count_class_lookup : list Z :=
  [0; 1; 2; 4] ++ replicate 4 8 ++ replicate 8 16 ++ replicate 16 32 ++ replicate 96 64
  ++ replicate 128 128.

(** The first [i] words of [mem] without the bits of [mask]. *)
Fixpoint mask_words (i : nat) (mem mask : list Z) : list Z :=
  match i with
  | O => mem
  | S i => word_le 4 (Z.land (le_word (take 4 mem)) (u32 (Z.lnot (le_word (take 4 mask)))))
           ++ mask_words i (drop 4 mem) (drop 4 mask)
  end.

Definition apply_mask (mem : list Z) (mask : option (list Z)) : list Z :=
  match mask with
  | None => mem
  | Some mask => mask_words (Z.to_nat (Z.of_nat (length mem) ≫ 2)) mem mask
  end.

(** [classify_counts] of this tool: with [edges_only] every count is 1. *)
Definition tmin_classify_counts (edges_only : bool) (mem : list Z) : list Z :=
  map (fun b => if edges_only then if b =? 0 then b else 1
                else nth (Z.to_nat b) count_class_lookup 0) mem.

Fixpoint any_word (i : nat) (mem : list Z) : bool :=
  match i with
  | O => false
  | S i => if negb (le_word (take 4 mem) =? 0) then true else any_word i (drop 4 mem)
  end.

Definition anything_set (mem : list Z) : bool := any_word (Z.to_nat (Z.of_nat (length mem) ≫ 2)) mem.

(** The options of the command line and the environment. *)
Record options := Options {
  hang_mode : bool;
  exact_mode : bool;
  edges_only : bool;
  mask_bitmap : option (list Z);
}.

Section tmin.
Context {W : Type} `{!Executor W}.
Context (hash64 : list Z -> Z) (exec_tmout : Z) (opts : options).

(** The static variables: [in_data] up to [in_len], the counters of misses, the checksum
    and the mode the first run sets, [trace_bits] and [last_run_timed_out] of the fork server
    (which a run sets exactly if it returns [FSRV_RUN_TMOUT]), and the rest of it. *)
Record tmin := Tmin {
  in_data : list Z;
  missed_hangs : Z;
  missed_crashes : Z;
  missed_paths : Z;
  orig_cksum : Z;
  crash_mode : bool;
  tm_trace : list Z;
  last_run_timed_out : bool;
  tm_world : W;
}.

(** How a piece of the tool ends: with a value, with [exit(1)] after it wrote [file] on
    Ctrl-C, with [FATAL] or [PFATAL], or as described above. *)
Inductive out (A : Type) := Done (a : A) (s : tmin) | Aborted (file : list Z) | Fatal (message : string)
  | NoFuel | Oob.
Arguments Done {A} _ _.
Arguments Aborted {A} _.
Arguments Fatal {A} _.
Arguments NoFuel {A}.
Arguments Oob {A}.

Definition and_then {A B} (o : out A) (k : A -> tmin -> out B) : out B :=
  match o with
  | Done a s => k a s
  | Aborted f => Aborted f
  | Fatal m => Fatal m
  | NoFuel => NoFuel
  | Oob => Oob
  end.

Definition in_len (s : tmin) : Z := Z.of_nat (length (in_data s)).

Definition set_data (d : list Z) (s : tmin) : tmin :=
  Tmin d (missed_hangs s) (missed_crashes s) (missed_paths s) (orig_cksum s) (crash_mode s)
    (tm_trace s) (last_run_timed_out s) (tm_world s).
Definition set_run (trace : list Z) (timed_out : bool) (w : W) (s : tmin) : tmin :=
  Tmin (in_data s) (missed_hangs s) (missed_crashes s) (missed_paths s) (orig_cksum s) (crash_mode s)
    trace timed_out w.
Definition set_trace (trace : list Z) (s : tmin) : tmin := set_run trace (last_run_timed_out s) (tm_world s) s.
Definition miss_hang (s : tmin) : tmin :=
  Tmin (in_data s) (u32 (missed_hangs s + 1)) (missed_crashes s) (missed_paths s) (orig_cksum s)
    (crash_mode s) (tm_trace s) (last_run_timed_out s) (tm_world s).
Definition miss_crash (s : tmin) : tmin :=
  Tmin (in_data s) (missed_hangs s) (u32 (missed_crashes s + 1)) (missed_paths s) (orig_cksum s)
    (crash_mode s) (tm_trace s) (last_run_timed_out s) (tm_world s).
Definition miss_path (s : tmin) : tmin :=
  Tmin (in_data s) (missed_hangs s) (missed_crashes s) (u32 (missed_paths s + 1)) (orig_cksum s)
    (crash_mode s) (tm_trace s) (last_run_timed_out s) (tm_world s).
Definition set_crash_mode (s : tmin) : tmin :=
  Tmin (in_data s) (missed_hangs s) (missed_crashes s) (missed_paths s) (orig_cksum s) true
    (tm_trace s) (last_run_timed_out s) (tm_world s).
Definition set_cksum (c : Z) (s : tmin) : tmin :=
  Tmin (in_data s) (missed_hangs s) (missed_crashes s) (missed_paths s) c (crash_mode s)
    (tm_trace s) (last_run_timed_out s) (tm_world s).

(** The end of [tmin_run_target]: the checksum decides. *)
Definition compare_cksum (ret : fsrv_run_result) (first_run : bool) (s : tmin) : out bool :=
  if bool_decide (ret = FSRV_RUN_NOINST) then Fatal "Binary not instrumented?"
  else
    let cksum := hash64 (tm_trace s) in
    let s := if first_run then set_cksum cksum s else s in
    if orig_cksum s =? cksum then Done true s else Done false (miss_path s).

Definition tmin_run_target (mem : list Z) (first_run : bool) (s : tmin) : out bool :=
  let '(ret, trace, w) := fuzz_run_target (tm_world s) exec_tmout mem in
  let s := set_run trace (bool_decide (ret = FSRV_RUN_TMOUT)) w s in
  if bool_decide (ret = FSRV_RUN_ERROR) then Fatal "Couldn't run child"
  else if stop_soon w then Aborted (in_data s)
  else if hang_mode opts then
    match ret with
    | FSRV_RUN_TMOUT => Done true s
    | FSRV_RUN_CRASH => Done false (miss_crash s)
    | _ => Done false (miss_hang s)
    end
  else
    let s := set_trace (apply_mask (tmin_classify_counts (edges_only opts) trace) (mask_bitmap opts)) s in
    match ret with
    | FSRV_RUN_TMOUT => Done false (miss_hang s)
    | FSRV_RUN_CRASH =>
        let s := if first_run then set_crash_mode s else s in
        if crash_mode s then
          if negb (exact_mode opts) then Done true s else compare_cksum ret first_run s
        else Done false (miss_crash s)
    | _ =>
        if crash_mode s then Done false (miss_path s) else compare_cksum ret first_run s
    end.

(** ** Reading and writing the buffer *)

(** The [n] bytes from [pos] on, if they are there. *)
Definition block (l : list Z) (pos n : Z) : option (list Z) :=
  if n =? 0 then Some []
  else if (0 <=? pos) && (0 <=? n) && (pos + n <=? Z.of_nat (length l))
  then Some (take (Z.to_nat n) (drop (Z.to_nat pos) l))
  else None.

(** [memset(l + pos, '0', n)] *)
Definition set_block (l : list Z) (pos n : Z) : list Z :=
  take (Z.to_nat pos) l ++ replicate (Z.to_nat n) zero ++ drop (Z.to_nat (pos + n)) l.

(** ** The stages of [minimize] *)

(** Block normalization; the value is [alpha_del0]. *)
Fixpoint norm_blocks (fuel : nat) (set_len set_pos alpha_del0 : Z) (s : tmin) : out Z :=
  if set_pos <? in_len s then
    match fuel with
    | O => NoFuel
    | S fuel =>
        let use_len := Z.min set_len (u32 (in_len s - set_pos)) in
        match block (in_data s) set_pos use_len with
        | None => Oob
        | Some b =>
            if forallb (fun c => c =? zero) b
            then norm_blocks fuel set_len (u32 (set_pos + set_len)) alpha_del0 s
            else
              let tmp_buf := set_block (in_data s) set_pos use_len in
              and_then (tmin_run_target tmp_buf false s) (fun res s =>
                if res
                then norm_blocks fuel set_len (u32 (set_pos + set_len)) (u32 (alpha_del0 + use_len))
                       (set_data (set_block (in_data s) set_pos use_len) s)
                else norm_blocks fuel set_len (u32 (set_pos + set_len)) alpha_del0 s)
        end
    end
  else Done alpha_del0 s.

(** Is the step a no-op: the block before was kept, and this one is the same? *)
Definition same_as_previous (l : list Z) (prev_del : bool) (del_pos del_len tail_len : Z) : option bool :=
  if negb prev_del && negb (tail_len =? 0)
  then match block l (del_pos - del_len) del_len, block l del_pos del_len with
       | Some a, Some b => Some (bool_decide (a = b))
       | _, _ => None
       end
  else Some false.

(** [while (del_pos < in_len)]; the value is [changed_any]. *)
Fixpoint del_blocks (fuel : nat) (del_len del_pos : Z) (prev_del changed_any : bool) (s : tmin) : out bool :=
  if del_pos <? in_len s then
    match fuel with
    | O => NoFuel
    | S fuel =>
        let tail_len := Z.max (s32 (in_len s - del_pos - del_len)) 0 in
        match same_as_previous (in_data s) prev_del del_pos del_len tail_len,
              block (in_data s) 0 del_pos, block (in_data s) (del_pos + del_len) tail_len with
        | Some true, _, _ => del_blocks fuel del_len (u32 (del_pos + del_len)) prev_del changed_any s
        | Some false, Some head, Some tail =>
            and_then (tmin_run_target (head ++ tail) false s) (fun res s =>
              if res then del_blocks fuel del_len del_pos true true (set_data (head ++ tail) s)
              else del_blocks fuel del_len (u32 (del_pos + del_len)) false changed_any s)
        | _, _, _ => Oob
        end
    end
  else Done changed_any s.

(** From [next_del_blksize] on. *)
Fixpoint del_sizes (sizes : nat) (del_len : Z) (changed_any : bool) (s : tmin) : out bool :=
  match sizes with
  | O => NoFuel
  | S sizes =>
      let del_len := if del_len =? 0 then 1 else del_len in
      and_then (del_blocks (length (in_data s)) del_len 0 true changed_any s) (fun changed_any s =>
        if (1 <? del_len) && (1 <=? in_len s) then del_sizes sizes (del_len / 2) changed_any s
        else Done changed_any s)
  end.

(** [alpha_map]: how often each symbol occurs *)
Definition alpha_map (data : list Z) : list Z :=
  foldl (fun m b => alter (fun c => u32 (c + 1)) (Z.to_nat b) m) (replicate 256 0) data.

(** Alphabet minimization, for the symbols [syms]; the values are [alpha_del1] and
    [changed_any]. *)
Fixpoint min_symbols (syms : list Z) (amap : list Z) (alpha_del1 : Z) (changed_any : bool) (s : tmin)
    : out (Z * bool) :=
  match syms with
  | [] => Done (alpha_del1, changed_any) s
  | i :: syms =>
      let n := nth (Z.to_nat i) amap 0 in
      if (i =? zero) || (n =? 0) then min_symbols syms amap alpha_del1 changed_any s
      else
        let tmp_buf := map (fun b => if b =? i then zero else b) (in_data s) in
        and_then (tmin_run_target tmp_buf false s) (fun res s =>
          if res then min_symbols syms amap (u32 (alpha_del1 + n)) true (set_data tmp_buf s)
          else min_symbols syms amap alpha_del1 changed_any s)
  end.

(** Character minimization, at the positions [idxs]; the values are [alpha_del2] and
    [changed_any]. *)
Fixpoint min_chars (idxs : list nat) (tmp_buf : list Z) (alpha_del2 : Z) (changed_any : bool) (s : tmin)
    : out (Z * bool) :=
  match idxs with
  | [] => Done (alpha_del2, changed_any) s
  | i :: idxs =>
      match tmp_buf !! i with
      | None => Oob
      | Some orig =>
          if orig =? zero then min_chars idxs tmp_buf alpha_del2 changed_any s
          else
            let tmp_buf := <[i := zero]> tmp_buf in
            and_then (tmin_run_target tmp_buf false s) (fun res s =>
              if res
              then min_chars idxs tmp_buf (u32 (alpha_del2 + 1)) true (set_data (<[i := zero]> (in_data s)) s)
              else min_chars idxs (<[i := orig]> tmp_buf) alpha_del2 changed_any s)
      end
  end.

(** From [next_pass] on; the value is [alpha_d_total]. *)
Fixpoint passes (fuel : nat) (cur_pass alpha_d_total : Z) (s : tmin) : out Z :=
  match fuel with
  | O => NoFuel
  | S fuel =>
      let cur_pass := u32 (cur_pass + 1) in
      and_then (del_sizes 33 (u32 (next_pow2 (in_len s / TRIM_START_STEPS))) false s) (fun changed_any s =>
      if (1 <? cur_pass) && negb changed_any then Done alpha_d_total s
      else
        and_then (min_symbols (seqZ 0 256) (alpha_map (in_data s)) 0 changed_any s)
          (fun '(alpha_del1, changed_any) s =>
        let alpha_d_total := u32 (alpha_d_total + alpha_del1) in
        and_then (min_chars (seq 0 (length (in_data s))) (in_data s) 0 changed_any s)
          (fun '(alpha_del2, changed_any) s =>
        let alpha_d_total := u32 (alpha_d_total + alpha_del2) in
        if changed_any then passes fuel cur_pass alpha_d_total s else Done alpha_d_total s)))
  end.

Definition minimize (fuel : nat) (s : tmin) : out Z :=
  let set_len := Z.max (u32 (next_pow2 (in_len s / TMIN_SET_STEPS))) TMIN_SET_MIN_SIZE in
  and_then (norm_blocks (length (in_data s)) set_len 0 0 s) (fun alpha_del0 s => passes fuel 0 (u32 (0 + alpha_del0)) s).

(** ** The tool *)

Definition read_initial_file (file : option (list Z)) : list Z + string :=
  match file with
  | None => inr "Unable to open"%string
  | Some d =>
      if Z.of_nat (length d) =? 0 then inr "Zero-sized input file."%string
      else if TMIN_MAX_FILE <=? Z.of_nat (length d) then inr "Input file is too large"%string
      else inl d
  end.

(** [main] from [read_initial_file] on, once the fork server runs; the value is the file it
    writes. *)
Definition tmin_main (fuel : nat) (file : option (list Z)) (w : W) : out (list Z) :=
  match read_initial_file file with
  | inr m => Fatal m
  | inl d =>
      let s := Tmin d 0 0 0 0 false [] false w in
      and_then (tmin_run_target d true s) (fun _ s =>
      if hang_mode opts && negb (last_run_timed_out s) then Fatal "Target binary did not time out"
      else if last_run_timed_out s && negb (hang_mode opts) then Fatal "Target binary times out"
      else if negb (hang_mode opts) && negb (crash_mode s) && negb (anything_set (tm_trace s))
      then Fatal "No instrumentation detected."
      else and_then (minimize fuel s) (fun _ s => Done (in_data s) s))
  end.
End tmin.

Arguments tmin : clear implicits.
Arguments out : clear implicits.
Arguments Done {W A} _ _.
Arguments Aborted {W A} _.
Arguments Fatal {W A} _.
Arguments NoFuel {W A}.
Arguments Oob {W A}.
