(* ===== verification/TminTheorems.v ===== *)
(** * What the minimizer guarantees

    The loops of [Tmin] end for every target, never read outside the buffer, and only drop
    bytes and replace them by ['0'].  For a target that answers the same input always the
    same way the file written behaves like the one read, and loses that behaviour with any
    one byte removed. *)
From S2P Require Import Prelude Bitmap Alloc DetStages Trim Tmin.

(** ** Simplified inputs *)

(** [k] is [l] with bytes dropped or replaced by ['0']. *)
Inductive simplified : list Z -> list Z -> Prop :=
| simp_nil : simplified [] []
| simp_keep x l k : simplified l k -> simplified (x :: l) (x :: k)
| simp_zero x l k : simplified l k -> simplified (x :: l) (zero :: k)
| simp_drop x l k : simplified l k -> simplified (x :: l) k.
#[local] Hint Constructors simplified : core.

Lemma simplified_refl l : simplified l l.
Proof. induction l; auto. Qed.
#[local] Hint Resolve simplified_refl : core.

Lemma simplified_trans a b c : simplified a b -> simplified b c -> simplified a c.
Proof.
  intros Hab. revert c. induction Hab as [|x l k H IH|x l k H IH|x l k H IH]; intros c Hc; [done| | |by auto].
  - inversion Hc; subst; auto.
  - inversion Hc; subst; auto.
Qed.

Lemma simplified_app a b c d : simplified a b -> simplified c d -> simplified (a ++ c) (b ++ d).
Proof. induction 1; simpl; auto. Qed.

Lemma simplified_empty l : simplified l [].
Proof. induction l; auto. Qed.
#[local] Hint Resolve simplified_empty : core.

Lemma simplified_zeros l n : (n <= length l)%nat -> simplified l (replicate n zero).
Proof. revert n. induction l as [|x l IH]; intros [|n] Hn; simpl in *; try lia; auto with lia. Qed.

Lemma simplified_insert l i : simplified l (<[i := zero]> l).
Proof. revert i. induction l as [|x l IH]; intros [|i]; simpl; auto. Qed.

Lemma simplified_symbol l i : simplified l (map (fun b => if b =? i then zero else b) l).
Proof. induction l as [|x l IH]; simpl; [done|]. destruct (x =? i); auto. Qed.

Lemma simplified_drop_block l p n : simplified l (take p l ++ drop (p + n) l).
Proof.
  rewrite <- (take_drop p l) at 1. apply simplified_app; [done|].
  rewrite <- (drop_drop l n p). rewrite <- (take_drop n (drop p l)) at 1. by apply (simplified_app _ []).
Qed.

Lemma simplified_set_block l p n :
  0 <= p -> 0 <= n -> p + n <= Z.of_nat (length l) -> simplified l (set_block l p n).
Proof.
  intros Hp Hn Hl. unfold set_block. rewrite Z2Nat.inj_add by lia.
  rewrite <- (take_drop (Z.to_nat p) l) at 1. apply simplified_app; [done|].
  rewrite <- (drop_drop l). rewrite <- (take_drop (Z.to_nat n) (drop (Z.to_nat p) l)) at 1.
  apply simplified_app; [|done]. apply simplified_zeros. rewrite length_take, length_drop. lia.
Qed.

Lemma simplified_bytes l k : simplified l k -> Forall byte_ok l -> Forall byte_ok k.
Proof.
  induction 1; intros Hl; [done| | |]; apply Forall_cons in Hl as [??]; auto;
    apply Forall_cons; split; auto. unfold byte_ok, zero. lia.
Qed.

Lemma simplified_length l k : simplified l k -> (length k <= length l)%nat.
Proof. induction 1; simpl; lia. Qed.

(** The number of bytes and of bytes that are not ['0']: every change lowers it. *)
Definition weight (l : list Z) : nat := (length l + length (filter (fun b => b <> zero) l))%nat.

Lemma weight_cons x l : weight (x :: l) = (1 + (if decide (x = zero) then 0 else 1) + weight l)%nat.
Proof.
  unfold weight. rewrite filter_cons. destruct (decide (x = zero)) as [->|Hx].
  - rewrite decide_False by auto. simpl. lia.
  - rewrite decide_True by auto. simpl. lia.
Qed.

Lemma simplified_weight l k : simplified l k -> l = k \/ (weight k < weight l)%nat.
Proof.
  induction 1 as [|x l k H IH|x l k H IH|x l k H IH]; [by left| | |]; rewrite ?weight_cons.
  - destruct IH as [->|]; [by left|right; lia].
  - destruct (decide (x = zero)) as [->|]; destruct IH as [->|]; rewrite decide_True by done;
      first [by left | right; lia].
  - right. destruct IH as [->|]; lia.
Qed.

Lemma weight_bound l : (weight l <= 2 * length l)%nat.
Proof. unfold weight. pose proof (length_filter (fun b => b <> zero) l). lia. Qed.

(** ** The bitmap *)

Lemma tmin_classify_spec mem :
  Forall byte_ok mem -> tmin_classify_counts false mem = map count_class mem.
Proof.
  induction 1 as [|b mem Hb _ IH]; [done|]. simpl. f_equal; [|exact IH].
  apply (all_bytes_eq (fun b => nth (Z.to_nat b) count_class_lookup 0) count_class); [by vm_compute|done].
Qed.

Lemma land_lnot_u32 a b : 0 <= a < 2 ^ 32 -> Z.land a (u32 (Z.lnot b)) = Z.ldiff a b.
Proof.
  intros Ha. unfold u32. rewrite <- Z.land_ones by lia. zbits. cases_lt i 32.
  - rewrite Z.ones_spec_low by lia. btauto.
  - by rewrite (bounded_testbit_high a 32) by lia.
Qed.

Lemma take_4_ok mem : Forall byte_ok mem -> (4 <= length mem)%nat ->
  Forall byte_ok (take 4 mem) /\ length (take 4 mem) = 4%nat /\ 0 <= le_word (take 4 mem) < 2 ^ 32.
Proof.
  intros Hm Hl. assert (length (take 4 mem) = 4%nat) by (rewrite length_take; lia).
  assert (Forall byte_ok (take 4 mem)) by by apply Forall_take. split_and!; try done.
  - by apply le_word_bound.
  - pose proof (le_word_bound (take 4 mem) ltac:(done)). replace (length (take 4 mem)) with 4%nat in * by lia. lia.
Qed.

Lemma mask_words_spec i mem mask :
  Forall byte_ok mem -> Forall byte_ok mask -> length mem = (4 * i)%nat -> length mask = (4 * i)%nat ->
  mask_words i mem mask = zip_with Z.ldiff mem mask.
Proof.
  revert mem mask. induction i as [|i IH]; intros mem mask Hm Hk Hlm Hlk.
  - by destruct mem, mask.
  - destruct (take_4_ok mem Hm ltac:(lia)) as (Hm4 & Lm4 & Bm4).
    destruct (take_4_ok mask Hk ltac:(lia)) as (Hk4 & Lk4 & _).
    cbn [mask_words]. rewrite land_lnot_u32, <- le_word_ldiff by (done || lia).
    rewrite word_le_le_word; [|by apply (bitwise_bytes_ok _ (fun a b => a && negb b) Z.ldiff_spec)|rewrite length_zip_with; lia].
    rewrite IH by (first [by apply Forall_drop|rewrite length_drop; lia]).
    rewrite <- zip_with_app by lia. by rewrite !take_drop.
Qed.

Lemma any_word_spec i mem :
  Forall byte_ok mem -> length mem = (4 * i)%nat -> any_word i mem = existsb (fun b => negb (b =? 0)) mem.
Proof.
  revert mem. induction i as [|i IH]; intros mem Hm Hl; [by destruct mem|].
  destruct (take_4_ok mem Hm ltac:(lia)) as (Hm4 & _ & _). cbn [any_word].
  rewrite IH by (first [by apply Forall_drop|rewrite length_drop; lia]).
  trans (existsb (fun b => negb (b =? 0)) (take 4 mem ++ drop 4 mem)); [|by rewrite take_drop].
  rewrite existsb_app.
  assert (negb (le_word (take 4 mem) =? 0) = existsb (fun b => negb (b =? 0)) (take 4 mem)) as ->.
  { apply eq_true_iff_eq. rewrite negb_true_iff, Z.eqb_neq, le_word_eq_0, existsb_exists by done. split.
    - intros Hn. apply not_Forall_Exists in Hn; [|apply _]. apply Exists_exists in Hn as (b & Hb & Hb0).
      exists b. rewrite negb_true_iff, Z.eqb_neq. split; [by apply list_elem_of_In|done].
    - intros (b & Hb & Hb0) Hf. rewrite negb_true_iff, Z.eqb_neq in Hb0. apply Hb0.
      rewrite Forall_forall in Hf. apply Hf. by apply list_elem_of_In. }
  by destruct (existsb _ (take 4 mem)).
Qed.

(** The checks of the minimizer on whole words mean what they say of bytes: with a map of
    [4 * n] bytes, classification is that of the fuzzer, the mask clears its bits in every
    byte, and [anything_set] looks for a byte that is not 0. *)
Theorem tmin_bitmap_correct n mem mask :
  Forall byte_ok mem -> Forall byte_ok mask -> length mem = (4 * n)%nat -> length mask = (4 * n)%nat ->
  tmin_classify_counts false mem = map count_class mem
  /\ apply_mask mem (Some mask) = zip_with Z.ldiff mem mask
  /\ anything_set mem = existsb (fun b => negb (b =? 0)) mem.
Proof.
  intros Hm Hk Hlm Hlk. assert (Hn : Z.to_nat (Z.of_nat (length mem) ≫ 2) = n).
  { rewrite Hlm, Z.shiftr_div_pow2 by lia. change (2 ^ 2) with 4. dlia. }
  unfold apply_mask, anything_set. rewrite Hn.
  split_and!; [by apply tmin_classify_spec|by apply mask_words_spec|by apply any_word_spec].
Qed.

Lemma tmin_bitmap_correct_witness :
  apply_mask [255; 1; 0; 7] (Some [1; 0; 0; 6]) = [254; 1; 0; 1].
Proof.
  etransitivity; [exact (proj1 (proj2 (tmin_bitmap_correct 1 [255; 1; 0; 7] [1; 0; 0; 6]
    ltac:(byte_list) ltac:(byte_list) eq_refl eq_refl)))|reflexivity].
Defined.

(** ** The loops *)

Lemma block_in l pos n :
  0 <= pos -> 0 <= n -> pos + n <= Z.of_nat (length l) ->
  block l pos n = Some (take (Z.to_nat n) (drop (Z.to_nat pos) l)).
Proof.
  intros Hp Hn Hl. unfold block. destruct (n =? 0) eqn:H0; [apply Z.eqb_eq in H0 as ->; by rewrite take_0|].
  replace ((0 <=? pos) && (0 <=? n) && (pos + n <=? Z.of_nat (length l))) with true; [done|].
  symmetry. rewrite !andb_true_iff, !Z.leb_le. lia.
Qed.

(** How many bytes a file may have, as the bound the counters need. *)
Definition short (l : list Z) : Prop := Z.of_nat (length l) < TMIN_MAX_FILE.

Lemma tail_len_eq len pos n :
  0 <= pos < len -> len < TMIN_MAX_FILE -> 0 <= n <= 2 ^ 24 ->
  Z.max (s32 (len - pos - n)) 0 = Z.max (len - pos - n) 0.
Proof.
  unfold TMIN_MAX_FILE, s32. intros. rewrite Z.mod_small by lia. f_equal. lia.
Qed.

Lemma alpha_map_in data i :
  Forall byte_ok data -> 0 <= i -> nth (Z.to_nat i) (alpha_map data) 0 <> 0 -> i ∈ data.
Proof.
  intros Hd Hi. unfold alpha_map.
  assert (nth (Z.to_nat i) (replicate 256 0) 0 = 0) as Hz.
  { rewrite nth_lookup. destruct (replicate 256 0 !! Z.to_nat i) eqn:E; [|done].
    by apply lookup_replicate in E as [-> _]. }
  revert Hz. generalize (replicate 256 0). induction Hd as [|b data Hb Hd IH]; intros m Hm Hn; [done|].
  simpl in Hn. destruct (decide (i = b)) as [->|Hne]; [by left|]. right. apply (IH _) in Hn; [done|].
  rewrite nth_lookup, list_lookup_alter_ne, <- nth_lookup; [done|]. unfold byte_ok in Hb. lia.
Qed.

Section blocks.
Context (l : list Z) (pos n : Z).
Hypothesis Hpos : 0 <= pos < Z.of_nat (length l).
Hypothesis Hn : 1 <= n.
Let tail_len := Z.max (Z.of_nat (length l) - pos - n) 0.

Lemma del_parts : block l 0 pos = Some (take (Z.to_nat pos) l) /\ block l (pos + n) tail_len = Some (drop (Z.to_nat (pos + n)) l).
Proof using Hpos Hn.
  split; [rewrite block_in by lia; by rewrite drop_0|]. destruct (Z_lt_le_dec (pos + n) (Z.of_nat (length l))).
  - rewrite block_in by lia. f_equal. apply take_ge. rewrite length_drop. lia.
  - replace tail_len with 0 by lia. unfold block. simpl. rewrite drop_ge by lia. done.
Qed.

Lemma without_shorter : (length (without l pos n) < length l)%nat /\ Z.of_nat (length (without l pos n)) >= pos.
Proof using Hpos Hn. unfold without. rewrite length_app, length_take, length_drop. lia. Qed.

Lemma without_simplified : simplified l (without l pos n).
Proof using Hpos Hn. unfold without. rewrite Z2Nat.inj_add by lia. apply simplified_drop_block. Qed.

Lemma same_as_previous_in prev_del :
  (prev_del = false -> n <= pos) -> exists b, same_as_previous l prev_del pos n tail_len = Some b.
Proof using Hpos Hn.
  intros Hprev. unfold same_as_previous. destruct prev_del; [by eexists|]. specialize (Hprev eq_refl).
  destruct (Z.eqb_spec tail_len 0); [by eexists|]. simpl.
  rewrite !block_in by lia. by eexists.
Qed.
End blocks.

(** A byte like the one before it leaves the same bytes when it goes. *)
Lemma delete_repeated (l : list Z) p x :
  l !! p = Some x -> l !! S p = Some x -> delete (S p) l = delete p l.
Proof.
  revert p. induction l as [|y l IH]; intros p H1 H2; [done|]. destruct p as [|p].
  - destruct l as [|z l]; [done|]. simpl in *. congruence.
  - change (y :: delete (S p) l = y :: delete p l). f_equal. by apply IH.
Qed.

Lemma same_as_previous_delete l pos tail_len :
  1 <= pos < Z.of_nat (length l) -> same_as_previous l false pos 1 tail_len = Some true ->
  delete (Z.to_nat pos) l = delete (Z.to_nat (pos - 1)) l.
Proof.
  intros Hp. unfold same_as_previous. destruct (tail_len =? 0); [done|]. simpl.
  rewrite !block_in by lia. intros [= Heq%bool_decide_eq_true].
  replace (Z.to_nat pos) with (S (Z.to_nat (pos - 1))) in * by lia.
  destruct (lookup_lt_is_Some_2 l (Z.to_nat (pos - 1))) as [x Hx]; [lia|].
  destruct (lookup_lt_is_Some_2 l (S (Z.to_nat (pos - 1)))) as [y Hy]; [lia|].
  rewrite (drop_S l x), (drop_S l y) in Heq by done. simpl in Heq. simplify_eq. by eapply delete_repeated.
Qed.

Section loops.
Context {W : Type} `{!Executor W}.
Context (hash64 : list Z -> Z) (exec_tmout : Z) (opts : options).
Notation run := (tmin_run_target hash64 exec_tmout opts).

(** A test case [orig], what is known of a state between two runs, what a run says of its
    input, and whether the tool may end by [FATAL] or by Ctrl-C. *)
Context (orig : list Z) (Inv : tmin W -> Prop) (Good : list Z -> bool -> Prop) (F G : Prop).

Definition ok (d : list Z) : Prop := simplified orig d /\ (d = orig \/ Good d true).

(** [o] ends as it may: a value satisfies [Q], a file written on Ctrl-C is [ok]. *)
Definition post {A} (Q : A -> tmin W -> Prop) (o : out W A) : Prop :=
  match o with
  | Done a s => Q a s
  | Aborted f => G /\ ok f
  | Fatal _ => F
  | NoFuel | Oob => False
  end.

Hypothesis Horig : Forall byte_ok orig.
Hypothesis Hshort : short orig.
Hypothesis run_ok : forall x s, Inv s ->
  match run x false s with
  | Done b s' => in_data s' = in_data s /\ Inv s' /\ Good x b
  | Aborted f => G /\ f = in_data s
  | Fatal _ => F
  | NoFuel | Oob => False
  end.
Hypothesis Inv_data : forall d s, Inv s -> Inv (set_data d s).

Definition state_ok (s : tmin W) : Prop := Inv s /\ ok (in_data s).

Lemma post_and_then {A B} (P : A -> tmin W -> Prop) (Q : B -> tmin W -> Prop) o k :
  post P o -> (forall a s, P a s -> post Q (k a s)) -> post Q (and_then o k).
Proof. destruct o; simpl; auto. Qed.

Lemma post_weaken {A} (P Q : A -> tmin W -> Prop) o :
  post P o -> (forall a s, P a s -> Q a s) -> post Q o.
Proof. destruct o; simpl; auto. Qed.

Lemma post_run {B} (Q : B -> tmin W -> Prop) x s k :
  state_ok s ->
  (forall b s', state_ok s' -> in_data s' = in_data s -> Good x b -> post Q (k b s')) ->
  post Q (and_then (run x false s) k).
Proof using run_ok.
  intros [Hi Ho] Hk. pose proof (run_ok x s Hi) as Hr. destruct (run x false s) as [b s'|f|m| |]; simpl; auto.
  - destruct Hr as (Hd & Hi' & Hg). apply Hk; [|done..]. split; [done|]. by rewrite Hd.
  - destruct Hr as [? ->]. done.
Qed.

Lemma state_short s : state_ok s -> in_len s < TMIN_MAX_FILE.
Proof using Hshort.
  intros [_ [Hs _]]. apply simplified_length in Hs. unfold short in Hshort. unfold in_len. lia.
Qed.

Lemma state_bytes s : state_ok s -> Forall byte_ok (in_data s).
Proof using Horig. intros [_ [Hs _]]. by eapply simplified_bytes. Qed.

Lemma state_accept d s : state_ok s -> simplified (in_data s) d -> Good d true -> state_ok (set_data d s).
Proof using Inv_data.
  intros [Hi [Hs Ho]] Hd Hg. split; [by apply Inv_data|]. simpl. split; [|by right]. by eapply simplified_trans.
Qed.

(** What a stage does: [changed_any] tells whether the data are lighter or the same. *)
Definition moved (c : bool) (s : tmin W) (c' : bool) (s' : tmin W) : Prop :=
  state_ok s' /\ simplified (in_data s) (in_data s')
  /\ if c' then c = true \/ (weight (in_data s') < weight (in_data s))%nat else c = false /\ in_data s' = in_data s.

Lemma moved_same c s s' : state_ok s' -> in_data s' = in_data s -> moved c s c s'.
Proof. intros Hs Hd. unfold moved. rewrite Hd. split_and!; [done..|]. destruct c; auto. Qed.

Lemma moved_accept c d s s' :
  state_ok s' -> in_data s' = in_data s -> simplified (in_data s) d -> d <> in_data s -> Good d true ->
  moved c s true (set_data d s').
Proof using Inv_data.
  intros Hs Hd Hsim Hne Hg. split; [apply state_accept; by rewrite ?Hd|]. simpl. split; [done|].
  destruct (simplified_weight _ _ Hsim); [congruence|by right].
Qed.

Lemma moved_trans c s c1 s1 c2 s2 : moved c s c1 s1 -> moved c1 s1 c2 s2 -> moved c s c2 s2.
Proof.
  intros (H1 & S1 & C1) (H2 & S2 & C2). split; [done|]. split; [by eapply simplified_trans|].
  destruct (simplified_weight _ _ S1) as [E1|E1]; destruct (simplified_weight _ _ S2) as [E2|E2];
    destruct c1, c2; naive_solver (auto with lia || congruence).
Qed.

Lemma moved_false c s s' : moved c s false s' -> c = false /\ in_data s' = in_data s.
Proof. by intros (_ & _ & H). Qed.
(** *** Block normalization *)

Lemma norm_blocks_ok fuel set_len set_pos del s :
  state_ok s -> 4 <= set_len <= 2 ^ 24 -> 0 <= set_pos <= 2 ^ 25 -> in_len s - set_pos <= Z.of_nat fuel ->
  post (fun _ s' => state_ok s' /\ simplified (in_data s) (in_data s'))
    (norm_blocks hash64 exec_tmout opts fuel set_len set_pos del s).
Proof using Type*.
  revert set_pos del s. induction fuel as [|fuel IH]; intros set_pos del s Hs Hl Hp Hf;
    cbn [norm_blocks]; destruct (Z.ltb_spec set_pos (in_len s)) as [Hlt|]; try (by split); [lia|].
  pose proof (state_short s Hs) as Hb. unfold TMIN_MAX_FILE in Hb.
  rewrite (u32_id (in_len s - set_pos)), (u32_id (set_pos + set_len)) by lia.
  rewrite block_in by (unfold in_len in *; lia). destruct (forallb _ _); [apply IH; auto; lia|].
  apply post_run; [done|]. intros [] s' Hs' Hd Hg; [|rewrite <- Hd; apply IH; unfold in_len in *; rewrite ?Hd; auto; lia].
  assert (Hsim : simplified (in_data s) (set_block (in_data s) set_pos (Z.min set_len (in_len s - set_pos))))
    by (apply simplified_set_block; unfold in_len in *; lia).
  rewrite Hd. eapply post_weaken; [apply IH; [apply state_accept; by rewrite ?Hd|lia..|]|].
  - pose proof (simplified_length _ _ Hsim). unfold in_len in *. simpl. lia.
  - simpl. intros _ s2 [? ?]. split; [done|]. by eapply simplified_trans.
Qed.
(** *** Block deletion *)

(** Every byte before [pos] was tried alone and is needed. *)
Definition needed (s : tmin W) (pos : Z) : Prop :=
  forall p, Z.of_nat p < pos -> Good (delete p (in_data s)) false.

Lemma needed_data s s' pos : in_data s' = in_data s -> needed s pos -> needed s' pos.
Proof. intros Hd Hn p Hp. rewrite Hd. by apply Hn. Qed.

Lemma needed_next s pos :
  0 <= pos -> Good (delete (Z.to_nat pos) (in_data s)) false -> needed s pos -> needed s (pos + 1).
Proof.
  intros H0 Hg Hn p Hp. destruct (decide (Z.of_nat p = pos)) as [<-|]; [by rewrite Nat2Z.id in Hg|apply Hn; lia].
Qed.

Lemma without_one l pos : 0 <= pos -> without l pos 1 = delete (Z.to_nat pos) l.
Proof. intros. unfold without. rewrite delete_take_drop. do 2 f_equal. lia. Qed.

(** What is known when a block at [pos] is looked at. *)
Definition del_inv (n pos : Z) (prev c : bool) (s : tmin W) : Prop :=
  state_ok s /\ (prev = false -> n <= pos) /\ (c = false -> n = 1 -> needed s pos).

Lemma del_blocks_ok fuel n pos prev c s :
  del_inv n pos prev c s -> 1 <= n <= 2 ^ 24 -> 0 <= pos <= 2 ^ 25 -> in_len s - pos <= Z.of_nat fuel ->
  post (fun c' s' => moved c s c' s' /\ (c' = false -> n = 1 -> needed s' (in_len s')))
    (del_blocks hash64 exec_tmout opts fuel n pos prev c s).
Proof using Type*.
  revert pos prev c s. induction fuel as [|fuel IH]; intros pos prev c s (Hs & Hprev & Hneed) Hn Hp Hf;
    cbn [del_blocks]; destruct (Z.ltb_spec pos (in_len s)) as [Hlt|Hge]; try lia;
    try (split; [by apply moved_same|]; intros Hc H1 p Hp'; apply (Hneed Hc H1); lia).
  pose proof (state_short s Hs) as Hb. rewrite tail_len_eq by lia. unfold TMIN_MAX_FILE in Hb.
  rewrite (u32_id (pos + n)) by lia. pose proof Hlt as Hin. unfold in_len in Hin.
  destruct (del_parts (in_data s) pos n) as [-> Htail]; [lia..|]. fold (in_len s) in Htail. rewrite Htail. clear Htail.
  destruct (same_as_previous_in (in_data s) pos n ltac:(lia) ltac:(lia) prev Hprev) as [b Hsame].
  fold (in_len s) in Hsame. rewrite Hsame. destruct b.
  - apply IH; try lia. split_and!; [done|intros; lia|]. intros Hc ->.
    destruct prev; [unfold same_as_previous in Hsame; simpl in Hsame; done|].
    specialize (Hprev eq_refl). apply same_as_previous_delete in Hsame; [|lia].
    apply needed_next; [lia| |by apply Hneed]. rewrite Hsame. apply (Hneed Hc eq_refl). lia.
  - fold (without (in_data s) pos n).
    destruct (without_shorter (in_data s) pos n) as [Hsh Hge]; [lia..|].
    pose proof (without_simplified (in_data s) pos n ltac:(lia) ltac:(lia)) as Hsim.
    apply post_run; [done|]. intros [] s' Hs' Hd Hg.
    + eapply post_weaken; [apply IH; [|lia|lia|unfold in_len in *; simpl; lia]|].
      * split_and!; [apply state_accept; by rewrite ?Hd|done..].
      * intros c' s2 [Hm Hmin]. split; [|done]. eapply moved_trans; [|exact Hm].
        apply moved_accept; [done..| |done]. intros E. rewrite E in Hsh. lia.
    + eapply post_weaken; [apply (IH (pos + n) false c s'); [|lia|lia|unfold in_len in *; rewrite Hd; lia]|].
      * split_and!; [done|lia|]. intros Hc ->. rewrite without_one in Hg by lia.
        apply needed_next; [lia|by rewrite Hd|]. eapply needed_data; [done|auto].
      * intros c' s2 [Hm Hmin]. split; [|done]. eapply moved_trans; [by apply moved_same|exact Hm].
Qed.

Lemma del_sizes_ok sizes n c s :
  state_ok s -> 0 <= n <= 2 ^ 24 -> n < 2 ^ Z.of_nat sizes -> (1 <= sizes)%nat ->
  post (fun c' s' => moved c s c' s' /\ (c' = false -> needed s' (in_len s')))
    (del_sizes hash64 exec_tmout opts sizes n c s).
Proof using Type*.
  revert n c s. induction sizes as [|sizes IH]; intros n c s Hs Hn Hsz H1; [lia|]. cbn [del_sizes].
  set (n' := if n =? 0 then 1 else n).
  assert (1 <= n' <= 2 ^ 24 /\ (1 < n' -> n' = n)) as [Hn' Heq] by (unfold n'; destruct (Z.eqb_spec n 0); lia).
  eapply post_and_then.
  { apply (del_blocks_ok _ n' 0 true c s); [|done|lia|unfold in_len; lia].
    split_and!; [done|done|]. intros _ _ p Hp. lia. }
  intros c1 s1 [Hm Hneed]. destruct ((1 <? n') && (1 <=? in_len s1)) eqn:Hgo.
  - apply andb_true_iff in Hgo as [Hgo%Z.ltb_lt _]. rewrite Heq in * by done.
    rewrite Nat2Z.inj_succ, Z.pow_succ_r in Hsz by lia.
    assert (1 <= sizes)%nat by (destruct sizes; simpl in Hsz; lia).
    eapply post_weaken; [apply IH; [apply Hm|dlia|apply Z.div_lt_upper_bound; lia|done]|].
    intros c2 s2 [Hm2 Hneed2]. split; [by eapply moved_trans|done].
  - split; [done|]. intros Hc. apply andb_false_iff in Hgo as [Hgo%Z.ltb_ge|Hgo%Z.leb_gt].
    + apply Hneed; [done|lia].
    + intros p Hp. unfold in_len in *. lia.
Qed.
(** *** Symbols and characters *)

Lemma symbol_differs l i : i ∈ l -> i <> zero -> map (fun b => if b =? i then zero else b) l <> l.
Proof.
  intros Hi Hz. induction l as [|x l IH]; [by apply not_elem_of_nil in Hi|]. simpl. intros [= E1 E2].
  apply elem_of_cons in Hi as [->|Hi]; [|by apply IH]. rewrite Z.eqb_refl in E1. congruence.
Qed.

Lemma symbol_kept l i j : j ∈ l -> j <> i -> j ∈ map (fun b => if b =? i then zero else b) l.
Proof.
  intros Hj Hne. apply list_elem_of_fmap. exists j. split; [|done]. by destruct (Z.eqb_spec j i).
Qed.

Lemma min_symbols_ok syms amap del c s :
  state_ok s -> NoDup syms ->
  (forall i, i ∈ syms -> nth (Z.to_nat i) amap 0 <> 0 -> i ∈ in_data s) ->
  post (fun '(_, c') s' => moved c s c' s') (min_symbols hash64 exec_tmout opts syms amap del c s).
Proof using Type*.
  revert del c s. induction syms as [|i syms IH]; intros del c s Hs Hnd Hin; cbn [min_symbols].
  { by apply moved_same. }
  apply NoDup_cons in Hnd as [Hi Hnd].
  destruct (Z.eqb_spec i zero) as [|Hz]; [by apply IH; auto using list_elem_of_further|].
  destruct (Z.eqb_spec (nth (Z.to_nat i) amap 0) 0) as [|Hn]; [by apply IH; auto using list_elem_of_further|]. simpl.
  apply post_run; [done|]. intros [] s' Hs' Hd Hg.
  - pose proof (simplified_symbol (in_data s) i) as Hsim.
    eapply post_weaken; [apply IH; [apply state_accept; by rewrite ?Hd|done|]|].
    + intros j Hj Hj0. simpl. apply symbol_kept; [apply Hin; [by right|done]|]. by intros ->.
    + intros [d c'] s2 Hm. eapply moved_trans; [|exact Hm]. apply moved_accept; try done.
      apply symbol_differs; [|done]. apply Hin; [by left|done].
  - eapply post_weaken; [apply (IH del c s'); [done|done|]|].
    + intros j Hj Hj0. rewrite Hd. apply Hin; [by right|done].
    + intros [d c'] s2 Hm. eapply moved_trans; [by apply moved_same|exact Hm].
Qed.

Lemma min_chars_ok idxs del c s :
  state_ok s -> Forall (fun i => (i < length (in_data s))%nat) idxs ->
  post (fun '(_, c') s' => moved c s c' s') (min_chars hash64 exec_tmout opts idxs (in_data s) del c s).
Proof using Type*.
  revert del c s. induction idxs as [|i idxs IH]; intros del c s Hs Hall.
  { by apply moved_same. }
  cbn [min_chars].
  apply Forall_cons in Hall as [Hi Hall]. destruct (lookup_lt_is_Some_2 _ _ Hi) as [x Hx]. rewrite Hx.
  destruct (Z.eqb_spec x zero) as [|Hz]; [by apply IH|].
  apply post_run; [done|]. intros [] s' Hs' Hd Hg; rewrite ?Hd.
  - set (d := <[i := zero]> (in_data s)) in *. assert (Hsim : simplified (in_data s) d) by apply simplified_insert.
    eapply post_weaken; [apply (IH _ _ (set_data d s')); [apply state_accept; by rewrite ?Hd|]|].
    + apply (Forall_impl _ _ _ Hall). intros j.
      unfold d. change (in_data (set_data ?x s')) with x. by rewrite length_insert.
    + intros [? c'] s2 Hm. eapply moved_trans; [|exact Hm].
      apply moved_accept; [done..| |done]. intros E. apply (f_equal (.!! i)) in E. unfold d in E.
      rewrite list_lookup_insert_eq in E by done. congruence.
  - rewrite list_insert_insert_eq, list_insert_id, <- Hd by done.
    eapply post_weaken; [apply IH; [done|by rewrite Hd]|].
    intros [d c'] s2 Hm. eapply moved_trans; [by apply moved_same|exact Hm].
Qed.

(** *** The passes *)

Lemma del_start len : 0 <= len < TMIN_MAX_FILE -> 0 <= u32 (next_pow2 (len / TRIM_START_STEPS)) <= 2 ^ 24.
Proof.
  unfold TMIN_MAX_FILE, TRIM_START_STEPS. intros Hl. destruct (decide (len / 16 = 0)) as [->|Hne]; [vm_compute; split; congruence|].
  destruct (next_pow2_least (len / 16)) as (k & Hk & -> & _ & Hmin); [dlia|].
  assert (k <= 24) by (apply Hmin; [lia|dlia]).
  pose proof (Z.pow_le_mono_r 2 k 24 ltac:(lia) ltac:(lia)). pose proof (Z.pow_pos_nonneg 2 k).
  rewrite u32_id; lia.
Qed.

Lemma passes_ok fuel cur total s :
  state_ok s -> (weight (in_data s) < fuel)%nat ->
  post (fun _ s' => state_ok s' /\ needed s' (in_len s')) (passes hash64 exec_tmout opts fuel cur total s).
Proof using Type*.
  revert cur total s. induction fuel as [|fuel IH]; intros cur total s Hs Hf; [lia|]. cbn [passes].
  pose proof (del_start (in_len s) ltac:(split; [unfold in_len; lia|by apply state_short])) as Hdel.
  eapply post_and_then; [apply (del_sizes_ok 33 _ false s); [done|done|lia|lia]|].
  intros c1 s1 [Hm1 Hneed1]. destruct ((1 <? u32 (cur + 1)) && negb c1) eqn:Hend.
  { apply andb_true_iff in Hend as [_ ->%negb_true_iff]. split; [apply Hm1|auto]. }
  eapply post_and_then.
  { apply (min_symbols_ok (seqZ 0 256) _ 0 c1 s1); [apply Hm1|apply NoDup_seqZ|].
    intros i Hi Hn. apply elem_of_seqZ in Hi. eapply alpha_map_in; [apply state_bytes, Hm1|lia|exact Hn]. }
  intros [d1 c2] s2 Hm2. eapply post_and_then.
  { apply (min_chars_ok _ 0 c2 s2); [apply Hm2|]. apply Forall_seq. lia. }
  intros [d2 c3] s3 Hm3. pose proof (moved_trans _ _ _ _ _ _ Hm1 (moved_trans _ _ _ _ _ _ Hm2 Hm3)) as Hm.
  destruct c3.
  - apply IH; [apply Hm|]. destruct Hm as (_ & _ & [?|?]); [done|lia].
  - apply moved_false in Hm3 as [-> E3]. apply moved_false in Hm2 as [-> E2].
    split; [apply Hm|]. unfold in_len. rewrite E3, E2. apply (needed_data s1); [congruence|].
    by apply Hneed1.
Qed.

Lemma minimize_ok fuel s :
  state_ok s -> (weight orig < fuel)%nat ->
  post (fun _ s' => state_ok s' /\ needed s' (in_len s')) (minimize hash64 exec_tmout opts fuel s).
Proof using Type*.
  intros Hs Hf. unfold minimize. pose proof (state_short s Hs) as Hb.
  eapply post_and_then.
  { apply norm_blocks_ok; [done| |lia|unfold in_len; lia].
    unfold TMIN_SET_STEPS, TMIN_SET_MIN_SIZE. split; [lia|].
    assert (H8 : 0 <= in_len s / 8 < TMIN_MAX_FILE).
    { assert (0 <= in_len s) by (unfold in_len; lia). split; [dlia|]. unfold TMIN_MAX_FILE in *. dlia. }
    pose proof (del_start _ H8) as Hd.
    unfold TRIM_START_STEPS in Hd. rewrite Z.div_div in Hd by lia. change (8 * 16) with 128 in Hd. lia. }
  intros d s1 [Hs1 Hsim]. apply passes_ok; [done|]. destruct Hs1 as [_ [Hs1 _]].
  destruct (simplified_weight _ _ Hs1) as [<-|]; lia.
Qed.
End loops.

(** ** Any target *)

Section any_target.
Context {W : Type} `{!Executor W}.
Context (hash64 : list Z -> Z) (exec_tmout : Z) (opts : options).
Notation run := (tmin_run_target hash64 exec_tmout opts).

(** Some run of the target on [x] kept ([b]) or discarded it. *)
Definition tried (x : list Z) (b : bool) : Prop := exists s s', run x false s = Done b s'.

(** A run leaves the test case alone, and neither runs out of fuel nor reads it. *)
Lemma run_keeps x first s :
  match run x first s with
  | Done _ s' => in_data s' = in_data s
  | Aborted f => f = in_data s
  | Fatal _ => True
  | NoFuel | Oob => False
  end.
Proof.
  unfold tmin_run_target, compare_cksum. destruct (fuzz_run_target _ _ _) as [[ret trace] w].
  repeat (case_match; simplify_eq; try done).
Qed.

(** C21: The minimizer ends for every target, also one that answers differently each time: with
    more than [2 * n] passes for [n] bytes it never runs out of passes, and it never reads
    outside the test case.  What it writes, at the end or on Ctrl-C, is the test case with
    bytes dropped or replaced by ['0'], and is the test case itself or was kept by a run.
    At the end every single byte of it was removed in some run, which was discarded. *)
Theorem tmin_ends fuel d w :
  Forall byte_ok d -> (2 * length d < fuel)%nat ->
  match tmin_main hash64 exec_tmout opts fuel (Some d) w with
  | Done f _ =>
      simplified d f /\ (f = d \/ tried f true)
      /\ forall p, (p < length f)%nat -> tried (delete p f) false
  | Aborted f => simplified d f /\ (f = d \/ tried f true)
  | Fatal _ => True
  | NoFuel | Oob => False
  end.
Proof.
  intros Hd Hf. unfold tmin_main, read_initial_file. destruct (_ =? 0); [done|].
  destruct (Z.leb_spec TMIN_MAX_FILE (Z.of_nat (length d))) as [|Hlen]; [done|].
  set (s0 := Tmin d 0 0 0 0 false [] false w). pose proof (run_keeps d true s0) as Hk.
  destruct (run d true s0) as [b s|f|m| |] eqn:Hrun; simpl; try done; [|subst; by auto using simplified_refl].
  destruct (hang_mode opts && _); [done|]. destruct (last_run_timed_out s && _); [done|].
  destruct (_ && _ && _); [done|].
  assert (Hrun_ok : forall x s1, True -> match run x false s1 with
    | Done b s' => in_data s' = in_data s1 /\ True /\ tried x b
    | Aborted f => True /\ f = in_data s1 | Fatal _ => True | NoFuel | Oob => False end).
  { intros x s1 _. pose proof (run_keeps x false s1) as Hx. destruct (run x false s1) eqn:E; try done.
    split_and!; [done..|]. by eexists _, _. }
  pose proof (weight_bound d).
  pose proof (minimize_ok hash64 exec_tmout opts d (fun _ => True) tried True True Hd Hlen Hrun_ok (fun _ _ _ => I) fuel s
    ltac:(by split; [|rewrite Hk; split; [apply simplified_refl|left]]) ltac:(lia)) as Hmin.
  destruct (minimize _ _ _ fuel s) as [t s'|f|m| |]; simpl in *; try done; [|apply Hmin].
  destruct Hmin as [[_ [Hs Ho]] Hn]. split_and!; [done..|]. intros p Hp. apply Hn. unfold in_len. lia.
Qed.
End any_target.

(** ** Deterministic targets *)

(** A target that answers the input [x] by [T x], whatever it did before, and is not
    interrupted. *)
Class Deterministic (W : Type) `{!Executor W} (exec_tmout : Z) (T : list Z -> fsrv_run_result * list Z) :=
  det_run : forall w x, exists w', fuzz_run_target w exec_tmout x = (T x, w') /\ stop_soon w' = false.

Section deterministic.
Context {W : Type} `{!Executor W}.
Context (hash64 : list Z -> Z) (exec_tmout : Z) (opts : options).
Context (T : list Z -> fsrv_run_result * list Z) `{!Deterministic W exec_tmout T}.
Notation run := (tmin_run_target hash64 exec_tmout opts).

(** The checksum of what the target leaves behind on [x]. *)
Definition signature (x : list Z) : Z :=
  hash64 (apply_mask (tmin_classify_counts (edges_only opts) (T x).2) (mask_bitmap opts)).

(** [x] behaves as [y] does: it hangs too in hang mode; otherwise it crashes too if [y]
    does, with the same checksum in exact mode, or ends normally with the same checksum. *)
Definition same_behaviour (y x : list Z) : bool :=
  if hang_mode opts then bool_decide ((T x).1 = FSRV_RUN_TMOUT)
  else match (T x).1 with
       | FSRV_RUN_TMOUT => false
       | FSRV_RUN_CRASH =>
           bool_decide ((T y).1 = FSRV_RUN_CRASH) && (negb (exact_mode opts) || (signature y =? signature x))
       | _ => negb (bool_decide ((T y).1 = FSRV_RUN_CRASH)) && (signature y =? signature x)
       end.

(** What the tool asks of the first run. *)
Definition minimizable (y : list Z) : bool :=
  if hang_mode opts then bool_decide ((T y).1 = FSRV_RUN_TMOUT)
  else negb (bool_decide ((T y).1 = FSRV_RUN_TMOUT))
       && (bool_decide ((T y).1 = FSRV_RUN_CRASH)
           || anything_set (apply_mask (tmin_classify_counts (edges_only opts) (T y).2) (mask_bitmap opts))).

Hypothesis healthy : forall x, (T x).1 <> FSRV_RUN_ERROR /\ (T x).1 <> FSRV_RUN_NOINST.

(** The mode and the checksum the first run on [y] leaves. *)
Definition learned (y : list Z) (s : tmin W) : Prop :=
  hang_mode opts = false ->
  crash_mode s = bool_decide ((T y).1 = FSRV_RUN_CRASH)
  /\ ((T y).1 = FSRV_RUN_CRASH -> exact_mode opts = true -> orig_cksum s = signature y)
  /\ ((T y).1 <> FSRV_RUN_CRASH -> orig_cksum s = signature y).

Lemma later_run y x s :
  learned y s ->
  exists s', run x false s = Done (same_behaviour y x) s' /\ in_data s' = in_data s /\ learned y s'.
Proof using All.
  intros Hl. destruct (det_run (tm_world s) x) as (w & Hw & Hstop). destruct (healthy x) as [He Hi].
  unfold tmin_run_target, compare_cksum, same_behaviour, learned in *. unfold signature in *. rewrite Hw.
  destruct (T x) as [r t] eqn:ET. cbn [fst snd] in *.
  rewrite (bool_decide_eq_false_2 (r = FSRV_RUN_ERROR)), Hstop, (bool_decide_eq_false_2 (r = FSRV_RUN_NOINST)) by done.
  destruct (hang_mode opts); [destruct r; eexists; split; try reflexivity; done|].
  destruct (Hl eq_refl) as (Hc & H1 & H2). cbn.
  destruct r; try done; cbn; rewrite ?Hc; case_bool_decide as Hy; cbn;
    try (destruct (exact_mode opts) eqn:Hex; cbn); rewrite ?H1, ?H2 by done;
    try case_match; eexists; split_and!; reflexivity || (intros _; by split_and!).
Qed.

Lemma first_run y w :
  exists b s, run y true (Tmin y 0 0 0 0 false [] false w) = Done b s /\ in_data s = y
    /\ ((T y).1 <> FSRV_RUN_TMOUT \/ hang_mode opts = true -> learned y s)
    /\ last_run_timed_out s = bool_decide ((T y).1 = FSRV_RUN_TMOUT)
    /\ (hang_mode opts = false ->
        tm_trace s = apply_mask (tmin_classify_counts (edges_only opts) (T y).2) (mask_bitmap opts)
        /\ crash_mode s = bool_decide ((T y).1 = FSRV_RUN_CRASH)).
Proof using All.
  destruct (det_run w y) as (w' & Hw & Hstop). destruct (healthy y) as [He Hi].
  unfold tmin_run_target, compare_cksum, learned, signature. cbn [tm_world]. rewrite Hw.
  destruct (T y) as [r t] eqn:ET. cbn [fst snd] in *.
  rewrite (bool_decide_eq_false_2 (r = FSRV_RUN_ERROR)), Hstop, (bool_decide_eq_false_2 (r = FSRV_RUN_NOINST)) by done.
  destruct (hang_mode opts); [destruct r; try done; eexists _, _; split_and!; (reflexivity || done)|].
  destruct r; try done; cbn; rewrite ?Z.eqb_refl;
    try (destruct (exact_mode opts) eqn:Hex; cbn; rewrite ?Z.eqb_refl);
    eexists _, _; split_and!; reflexivity || naive_solver.
Qed.

(** The tool refuses exactly what is not [minimizable]. *)
Lemma first_run_judged y (s : tmin W) :
  last_run_timed_out s = bool_decide ((T y).1 = FSRV_RUN_TMOUT) ->
  (hang_mode opts = false ->
    tm_trace s = apply_mask (tmin_classify_counts (edges_only opts) (T y).2) (mask_bitmap opts)
    /\ crash_mode s = bool_decide ((T y).1 = FSRV_RUN_CRASH)) ->
  minimizable y = negb (hang_mode opts && negb (last_run_timed_out s))
    && negb (last_run_timed_out s && negb (hang_mode opts))
    && negb (negb (hang_mode opts) && negb (crash_mode s) && negb (anything_set (tm_trace s))).
Proof using Type.
  intros Ht Hm. unfold minimizable. rewrite Ht. destruct (hang_mode opts); cbn.
  - by destruct (bool_decide _).
  - destruct (Hm eq_refl) as [-> ->]. rewrite andb_true_r. repeat case_bool_decide; simplify_eq; cbn; try done;
      by rewrite ?negb_involutive.
Qed.

Lemma not_timed_out y (s : tmin W) :
  last_run_timed_out s = bool_decide ((T y).1 = FSRV_RUN_TMOUT) ->
  last_run_timed_out s && negb (hang_mode opts) = false ->
  (T y).1 <> FSRV_RUN_TMOUT \/ hang_mode opts = true.
Proof using Type. intros ->. destruct (hang_mode opts); [by right|]. case_bool_decide; [done|by left]. Qed.

(** C20: For a target that always answers the same input the same way, and fewer than 10 MB,
    the minimizer writes a file exactly if the first run is as the mode asks (it hangs in hang
    mode; otherwise it does not, and crashes or leaves a trace), and ends with an error
    otherwise.  The file is the test case with bytes dropped or replaced by ['0'], it behaves
    like the test case, and it no longer does once any one of its bytes is removed. *)
Theorem tmin_correct fuel y w :
  Forall byte_ok y -> 0 < Z.of_nat (length y) < TMIN_MAX_FILE -> (2 * length y < fuel)%nat ->
  match tmin_main hash64 exec_tmout opts fuel (Some y) w with
  | Done f _ =>
      minimizable y = true /\ simplified y f /\ same_behaviour y f = true
      /\ forall p, (p < length f)%nat -> same_behaviour y (delete p f) = false
  | Fatal _ => minimizable y = false
  | Aborted _ | NoFuel | Oob => False
  end.
Proof using All.
  intros Hy Hlen Hf. unfold tmin_main, read_initial_file.
  rewrite (proj2 (Z.eqb_neq _ 0)), (proj2 (Z.leb_gt _ _)) by lia.
  destruct (first_run y w) as (b & s & -> & Hd & Hl & Ht & Hm). cbn [and_then].
  pose proof (first_run_judged y s Ht Hm) as ->.
  destruct (hang_mode opts && negb (last_run_timed_out s)) eqn:E1; [done|].
  destruct (last_run_timed_out s && negb (hang_mode opts)) eqn:E2; [done|].
  destruct (_ && _ && _); [done|]. cbn [negb andb]. specialize (Hl (not_timed_out y s Ht E2)).
  assert (Hself : same_behaviour y y = true).
  { unfold same_behaviour. rewrite Z.eqb_refl, Ht in *. destruct (hang_mode opts); cbn in *.
    - by destruct (bool_decide _).
    - rewrite andb_true_r in E2. apply bool_decide_eq_false in E2.
      repeat case_bool_decide; destruct (T y).1; simplify_eq; cbn; try done. by rewrite orb_true_r. }
  assert (Hrun : forall x s1, learned y s1 -> match run x false s1 with
    | Done b s' => in_data s' = in_data s1 /\ learned y s' /\ same_behaviour y x = b
    | Aborted f => False /\ f = in_data s1 | Fatal _ => False | NoFuel | Oob => False end).
  { intros x s1 Hl1. by destruct (later_run y x s1 Hl1) as (s' & -> & -> & Hl'). }
  pose proof (weight_bound y).
  pose proof (minimize_ok hash64 exec_tmout opts y (learned y) (fun x b => same_behaviour y x = b) False False Hy (proj2 Hlen)
    Hrun (fun _ _ H => H) fuel s ltac:(by split; [|rewrite Hd; split; [apply simplified_refl|left]]) ltac:(lia)) as Hmin.
  destruct (minimize _ _ _ fuel s) as [t s'|f|m| |]; cbn in *; try done; [|by destruct Hmin].
  destruct Hmin as [[_ [Hs Ho]] Hn]. split_and!; [done|done|by destruct Ho as [->|]|].
  intros p Hp. apply Hn. unfold in_len. lia.
Qed.
End deterministic.

(** ** Examples *)

(** A target with the answers [T], and a target interrupted in its [n]th run. *)
Definition answering (T : list Z -> fsrv_run_result * list Z) : Executor unit :=
  {| fuzz_run_target w _ x := (T x, w); stop_soon _ := false |}.
#[export] Instance answering_det T : @Deterministic unit (answering T) 20 T.
Proof. intros [] x. by exists (). Qed.

Definition interrupted (n : nat) (T : list Z -> fsrv_run_result * list Z) : Executor nat :=
  {| fuzz_run_target w _ x := (T x, S w); stop_soon w := bool_decide (n <= w)%nat |}.

(** A program that crashes on inputs with an ['A'] and a ['B']. *)
Definition crashes_on_AB (x : list Z) : fsrv_run_result * list Z :=
  (if bool_decide (65 ∈ x /\ 66 ∈ x) then FSRV_RUN_CRASH else FSRV_RUN_OK, [1; 0; 0; 0]).

Definition plain : options := Options false false false None.
Definition AB_input : list Z := [120; 65; 65; 66; 120; 66; 48; 121].

Lemma tmin_correct_witness :
  exists f, simplified AB_input f /\ same_behaviour le_word plain crashes_on_AB AB_input f = true
    /\ forall p, (p < length f)%nat -> same_behaviour le_word plain crashes_on_AB AB_input (delete p f) = false.
Proof.
  assert (H := @tmin_correct unit (answering crashes_on_AB) le_word 20 plain crashes_on_AB (answering_det _)
    ltac:(intros x; simpl; case_bool_decide; done) 17 AB_input tt
    ltac:(byte_list) ltac:(vm_compute; done) ltac:(vm_compute; lia)).
  assert (minimizable plain crashes_on_AB AB_input = true) as Hm by reflexivity. rewrite Hm in H.
  destruct (tmin_main _ _ _ _ _ _) as [f s|f|m| |]; try done. exists f. apply H.
Defined.

(** The minimizer finds the two letters; interrupted in its fifth run it writes what it has. *)
Example AB_minimized :
  match @tmin_main unit (answering crashes_on_AB) le_word 20 plain 17 (Some AB_input) tt with
  | Done f _ => f = [65; 66]
  | _ => False
  end.
Proof. vm_compute. reflexivity. Qed.

Lemma tmin_ends_witness :
  match @tmin_main nat (interrupted 5 crashes_on_AB) le_word 20 plain 17 (Some AB_input) 0%nat with
  | Aborted f => simplified AB_input f
  | _ => False
  end.
Proof.
  assert (H := @tmin_ends nat (interrupted 5 crashes_on_AB) le_word 20 plain 17 AB_input 0%nat
    ltac:(byte_list) ltac:(vm_compute; lia)).
  destruct (tmin_main _ _ _ _ _ _) as [f s|f|m| |] eqn:E; vm_compute in E; try done. apply H.
Defined.

(** The number of bytes replaced that block normalization reports counts those that were
    ['0'] before: one of these four is replaced. *)
Example normalization_overcounts :
  match @norm_blocks unit (answering (fun _ => (FSRV_RUN_OK, [1; 0; 0; 0]))) (fun _ => 7) 20 plain 4 4 0 0
          (Tmin [48; 65; 48; 48] 0 0 0 7 false [] false tt) with
  | Done alpha_del0 s => alpha_del0 = 4 /\ in_data s = [48; 48; 48; 48]
  | _ => False
  end.
Proof. vm_compute. split; reflexivity. Qed.

(** In hang mode no run adds to [missed_paths], which the summary shows as the number of runs
    that ended; those are in [missed_hangs]. *)
Lemma hang_mode_counts_no_paths {W} `{!Executor W} hash64 exec_tmout opts x first (s s' : tmin W) b :
  hang_mode opts = true -> tmin_run_target hash64 exec_tmout opts x first s = Done b s' ->
  missed_paths s' = missed_paths s.
Proof.
  intros Hh. unfold tmin_run_target. rewrite Hh. destruct (fuzz_run_target _ _ _) as [[ret trace] w].
  destruct (bool_decide _), (stop_soon w), ret; intros [= <- <-]; done.
Qed.
