(* ===== verification/Analyze.v ===== *)
(** * The file format analyzer (src/aflplusplus/src/afl-analyze.c)

    [afl-analyze] changes every byte of a test case in four ways, runs the target on each,
    and tells from the checksums of the traces what kind of data the byte belongs to.  The
    tool has the same [classify_counts], [anything_set] and [read_initial_file] as [afl-tmin],
    which are taken from [Tmin]. *)
From S2P Require Import Prelude Bitmap Alloc Extras DetStages OneHelpers Trim Tmin.

Definition RESP_NONE : Z := 0.
Definition RESP_MINOR : Z := 1.
Definition RESP_VARIABLE : Z := 2.
Definition RESP_FIXED : Z := 3.
Definition RESP_LEN : Z := 4.
Definition RESP_CKSUM : Z := 5.
Definition RESP_SUSPECT : Z := 6.

Section analyze.
Context {W : Type} `{!Executor W}.
Context (hash64 : list Z -> Z) (exec_tmout : Z) (edges_only skip_bin_check : bool).

(** The static variables, and [trace_bits] and [last_run_timed_out] of the fork server. *)
Record analyzer := Analyzer {
  a_data : list Z;
  total_execs : Z;
  exec_hangs : Z;
  a_cksum : Z;
  a_trace : list Z;
  a_timed_out : bool;
  a_world : W;
}.

Inductive aout (A : Type) := AOk (a : A) (s : analyzer) | AInterrupted | AFatal (message : string) | AOob.
Arguments AOk {A} _ _.
Arguments AInterrupted {A}.
Arguments AFatal {A} _.
Arguments AOob {A}.

Definition abind {A B} (o : aout A) (k : A -> analyzer -> aout B) : aout B :=
  match o with
  | AOk a s => k a s
  | AInterrupted => AInterrupted
  | AFatal m => AFatal m
  | AOob => AOob
  end.

(** The value is what the function returns: a [u32]. *)
Definition analyze_run_target (mem : list Z) (first_run : bool) (s : analyzer) : aout Z :=
  let '(ret, trace, w) := fuzz_run_target (a_world s) exec_tmout mem in
  match ret with
  | FSRV_RUN_ERROR => AFatal "Error in forkserver"
  | FSRV_RUN_NOINST => AFatal "Target not instrumented"
  | FSRV_RUN_NOBITS => AFatal "Failed to run target"
  | _ =>
      let trace := tmin_classify_counts edges_only trace in
      let timed_out := bool_decide (ret = FSRV_RUN_TMOUT) in
      if stop_soon w then AInterrupted
      else if timed_out
      then AOk 0 (Analyzer (a_data s) (u32 (total_execs s + 1)) (u32 (exec_hangs s + 1)) (a_cksum s) trace true w)
      else
        let cksum := hash64 trace in
        let cksum := if bool_decide (ret = FSRV_RUN_CRASH) then Z.lxor cksum 0xffffffff else cksum in
        AOk (u32 cksum)
          (Analyzer (a_data s) (u32 (total_execs s + 1)) (exec_hangs s) (if first_run then cksum else a_cksum s)
             trace false w)
  end.

(** [in_data[i] = f(in_data[i])] *)
Definition poke (i : nat) (f : Z -> Z) (s : analyzer) : aout () :=
  match a_data s !! i with
  | None => AOob
  | Some x => AOk () (Analyzer (<[i := u8 (f x)]> (a_data s)) (total_execs s) (exec_hangs s) (a_cksum s)
                        (a_trace s) (a_timed_out s) (a_world s))
  end.

(** The four checksums of a byte: [xor_ff], [xor_01], [sub_10], [add_10]. *)
Record answers := Answers { xor_ff : Z; xor_01 : Z; sub_10 : Z; add_10 : Z }.

(** Walking byte adjustments at position [i]. *)
Definition probe (i : nat) (s : analyzer) : aout answers :=
  abind (poke i (fun x => Z.lxor x 0xff) s) (fun _ s =>
  abind (analyze_run_target (a_data s) false s) (fun xff s =>
  abind (poke i (fun x => Z.lxor x 0xfe) s) (fun _ s =>
  abind (analyze_run_target (a_data s) false s) (fun x01 s =>
  abind (poke i (fun x => Z.lxor x 0x01 - 0x10) s) (fun _ s =>
  abind (analyze_run_target (a_data s) false s) (fun s10 s =>
  abind (poke i (fun x => x + 0x20) s) (fun _ s =>
  abind (analyze_run_target (a_data s) false s) (fun a10 s =>
  abind (poke i (fun x => x - 0x10) s) (fun _ s => AOk (Answers xff x01 s10 a10) s))))))))).

(** "Classify current behavior"; whether [boring_len] is incremented *)
Definition response (orig_cksum : Z) (a : answers) : Z * bool :=
  let xff_orig := xor_ff a =? orig_cksum in
  let x01_orig := xor_01 a =? orig_cksum in
  let s10_orig := sub_10 a =? orig_cksum in
  let a10_orig := add_10 a =? orig_cksum in
  if xff_orig && x01_orig && s10_orig && a10_orig then (RESP_NONE, true)
  else if xff_orig || x01_orig || s10_orig || a10_orig then (RESP_MINOR, true)
  else if (xor_ff a =? xor_01 a) && (xor_ff a =? sub_10 a) && (xor_ff a =? add_10 a) then (RESP_FIXED, false)
  else (RESP_VARIABLE, false).

Definition all_change (prev a : answers) : bool :=
  negb (xor_ff prev =? xor_ff a) && negb (xor_01 prev =? xor_01 a)
  && negb (sub_10 prev =? sub_10 a) && negb (add_10 prev =? add_10 a).

(** The loop of [analyze] at the positions [idxs]; the values are [b_data] and [boring_len]. *)
Fixpoint analyze_bytes (idxs : list nat) (prev : answers) (seq_byte : Z) (b_data : list Z) (boring_len : Z)
    (s : analyzer) : aout (list Z * Z) :=
  match idxs with
  | [] => AOk (b_data, boring_len) s
  | i :: idxs =>
      abind (probe i s) (fun a s =>
        let '(b, boring) := response (a_cksum s) a in
        let seq_byte := if all_change prev a then Z.lxor seq_byte 0x80 else seq_byte in
        analyze_bytes idxs a seq_byte (<[i := Z.lor b seq_byte]> b_data)
          (if boring then u32 (boring_len + 1) else boring_len) s)
  end.

(** ** The report *)

(** A run of bytes: its offset, its length and its type *)
Record pattern := Pattern { p_off : nat; p_len : nat; p_type : Z }.

(** "Look ahead to determine the length of run", from the bytes behind [b]. *)
Fixpoint look_ahead (b : Z) (rest : list Z) (rtype : Z) (rlen : nat) : Z * nat :=
  match rest with
  | [] => (rtype, rlen)
  | c :: rest =>
      if b ≫ 7 =? c ≫ 7
      then look_ahead b rest (if rtype <? Z.land c 0x0f then Z.land c 0x0f else rtype) (S rlen)
      else (rtype, rlen)
  end.

(** "Try to do some further classification based on length & value" *)
Definition classify_run (data : list Z) (i rlen : nat) (rtype : Z) : option Z :=
  let in_len := Z.of_nat (length data) in
  if negb (rtype =? RESP_FIXED) then Some rtype
  else if (rlen =? 2)%nat then
    match block data (Z.of_nat i) 2 with
    | Some [x0; x1] =>
        let val := le_word [x0; x1] in
        Some (if negb (val =? 0) && ((val <=? in_len) || (SWAP16 val <=? in_len)) then RESP_LEN
              else if negb (val =? 0) && (32 <? Z.abs (x0 - x1)) then RESP_CKSUM
              else rtype)
    | _ => None
    end
  else if (rlen =? 4)%nat then
    match block data (Z.of_nat i) 4 with
    | Some [x0; x1; x2; x3] =>
        let val := le_word [x0; x1; x2; x3] in
        Some (if negb (val =? 0) && ((val <=? in_len) || (SWAP32 val <=? in_len)) then RESP_LEN
              else if negb (val =? 0) && (negb (x0 ≫ 7 =? x1 ≫ 7) || negb (x0 ≫ 7 =? x2 ≫ 7) || negb (x0 ≫ 7 =? x3 ≫ 7))
              then RESP_CKSUM
              else rtype)
    | _ => None
    end
  else if (rlen =? 1)%nat || (rlen =? 3)%nat
          || ((5 <=? Z.of_nat rlen) && (Z.of_nat rlen <=? MAX_AUTO_EXTRA - 1)) then Some rtype
  else Some RESP_SUSPECT.

(** [dump_hex]: the patterns it prints, from position [i] on; [None] for a read outside a
    buffer or missing fuel *)
Fixpoint dump_hex (fuel : nat) (data b_data : list Z) (i len : nat) : option (list pattern) :=
  if (i <? len)%nat then
    match fuel, drop i (take len b_data) with
    | S fuel, b :: rest =>
        let '(rtype, rlen) := look_ahead b rest (Z.land b 0x0f) 1 in
        rtype ← classify_run data i rlen rtype;
        ps ← dump_hex fuel data b_data (i + rlen) len;
        Some (Pattern i rlen rtype :: ps)
    | _, _ => None
    end
  else Some [].

(** The values are the patterns and [boring_len], which the last message shows. *)
Definition analyze (s : analyzer) : aout (list pattern * Z) :=
  let in_len := length (a_data s) in
  let b_data := <[in_len := 0xff]> (replicate (in_len + 1) 0) in
  abind (analyze_bytes (seq 0 in_len) (Answers 0 0 0 0) 0 b_data 0 s) (fun '(b_data, boring_len) s =>
  match dump_hex in_len (a_data s) b_data 0 in_len with
  | None => AOob
  | Some ps => AOk (ps, boring_len) s
  end).

(** [main] from [read_initial_file] on, once the fork server runs *)
Definition analyze_main (file : option (list Z)) (w : W) : aout (list pattern * Z) :=
  match read_initial_file file with
  | inr m => AFatal m
  | inl d =>
      abind (analyze_run_target d true (Analyzer d 0 0 0 [] false w)) (fun _ s =>
      if a_timed_out s then AFatal "Target binary times out"
      else if negb skip_bin_check && negb (anything_set (a_trace s)) then AFatal "No instrumentation detected."
      else analyze s)
  end.
End analyze.

Arguments analyzer : clear implicits.
Arguments aout : clear implicits.
Arguments AOk {W A} _ _.
Arguments AInterrupted {W A}.
Arguments AFatal {W A} _.
Arguments AOob {W A}.
