(* ===== verification/AnalyzeTheorems.v ===== *)
(** * What the analyzer reports

    The patterns cover the file from left to right; for a deterministic target the report is
    a function of the test case that is given here, and the test case is put back.  The last
    theorem shows what becomes of it with checksums of more than 32 bits. *)
From S2P Require Import Prelude Bitmap Alloc DetStages OneHelpers Trim Tmin TminTheorems Analyze.

(** ** The patterns *)

(** The patterns [ps] cover the positions from [i] to [len], one after the other. *)
Fixpoint covers (i len : nat) (ps : list pattern) : Prop :=
  match ps with
  | [] => i = len
  | p :: ps => p_off p = i /\ (1 <= p_len p)%nat /\ covers (i + p_len p) len ps
  end.

(** The longest beginning of [rest] with the highest bit of [b], and the largest type in it *)
Fixpoint alike (b : Z) (rest : list Z) : list Z :=
  match rest with
  | [] => []
  | c :: rest => if b ≫ 7 =? c ≫ 7 then c :: alike b rest else []
  end.
Definition type_of (b : Z) : Z := Z.land b 0x0f.

Lemma look_ahead_spec b rest rtype n :
  look_ahead b rest rtype n = (foldl Z.max rtype (map type_of (alike b rest)), (n + length (alike b rest))%nat).
Proof.
  revert rtype n. induction rest as [|c rest IH]; intros rtype n; simpl; [by rewrite Nat.add_0_r|].
  destruct (b ≫ 7 =? c ≫ 7); simpl; [|by rewrite Nat.add_0_r]. rewrite IH. f_equal; [|lia]. f_equal.
  unfold type_of. destruct (Z.ltb_spec rtype (Z.land c 15)); lia.
Qed.

Lemma length_alike b rest : (length (alike b rest) <= length rest)%nat.
Proof. induction rest as [|c rest IH]; simpl; [lia|]. destruct (_ =? _); simpl; lia. Qed.

Lemma alike_prefix b rest : take (length (alike b rest)) rest = alike b rest.
Proof. induction rest as [|c rest IH]; simpl; [done|]. destruct (_ =? _); simpl; by rewrite ?IH. Qed.

Lemma alike_bits b rest : Forall (fun c => c ≫ 7 = b ≫ 7) (alike b rest).
Proof. induction rest as [|c rest IH]; simpl; [done|]. destruct (Z.eqb_spec (b ≫ 7) (c ≫ 7)); auto. Qed.

Lemma classify_run_some data i rlen rtype :
  (i + rlen <= length data)%nat -> exists t, classify_run data i rlen rtype = Some t
    /\ (t = rtype \/ rtype = RESP_FIXED /\ t ∈ [RESP_LEN; RESP_CKSUM; RESP_SUSPECT]).
Proof.
  intros Hi. unfold classify_run. destruct (Z.eqb_spec rtype RESP_FIXED) as [->|]; cbn [negb]; [|eauto].
  assert (Hb : forall n, (n <= rlen)%nat -> block data (Z.of_nat i) (Z.of_nat n) = Some (take n (drop i data))).
  { intros n Hn. rewrite block_in by lia. by rewrite !Nat2Z.id. }
  assert (Hl : forall n, (n <= rlen)%nat -> length (take n (drop i data)) = n)
    by (intros n Hn; rewrite length_take, length_drop; lia).
  destruct (Nat.eqb_spec rlen 2) as [->|]; [|destruct (Nat.eqb_spec rlen 4) as [->|]].
  - change 2 with (Z.of_nat 2) at 1. rewrite (Hb 2%nat) by lia. specialize (Hl 2%nat ltac:(lia)).
    destruct (take 2 (drop i data)) as [|x0 [|x1 [|]]]; try done. eexists. split; [done|].
    repeat case_match; set_solver.
  - change 4 with (Z.of_nat 4) at 1. rewrite (Hb 4%nat) by lia. specialize (Hl 4%nat ltac:(lia)).
    destruct (length_4 _ Hl) as (x0 & x1 & x2 & x3 & ->). eexists. split; [done|].
    repeat case_match; set_solver.
  - case_match; eexists; (split; [done|]); set_solver.
Qed.

(** What a pattern says of [b_data]: its bytes agree in the highest bit, the byte behind it
    (if it is not the last) has the other, and its type is the largest of its bytes' types
    or a refinement of [RESP_FIXED]. *)
Definition pattern_ok (b_data : list Z) (len : nat) (p : pattern) : Prop :=
  exists b run, take (p_len p) (drop (p_off p) (take len b_data)) = b :: run
  /\ Forall (fun c => c ≫ 7 = b ≫ 7) run
  /\ (forall c, take len b_data !! (p_off p + p_len p)%nat = Some c -> c ≫ 7 <> b ≫ 7)
  /\ let t := foldl Z.max (type_of b) (map type_of run) in
     p_type p = t \/ t = RESP_FIXED /\ p_type p ∈ [RESP_LEN; RESP_CKSUM; RESP_SUSPECT].

Lemma alike_ends b rest c : rest !! length (alike b rest) = Some c -> c ≫ 7 <> b ≫ 7.
Proof.
  induction rest as [|x rest IH]; simpl; [done|]. destruct (Z.eqb_spec (b ≫ 7) (x ≫ 7)); simpl; [done|].
  intros [= ->]. done.
Qed.

Lemma dump_hex_ok fuel data b_data i len :
  length data = len -> (len <= length b_data)%nat -> (i <= len)%nat -> (len - i <= fuel)%nat ->
  exists ps, dump_hex fuel data b_data i len = Some ps /\ covers i len ps /\ Forall (pattern_ok b_data len) ps.
Proof.
  intros Hd Hb. revert i. induction fuel as [|fuel IH]; intros i Hi Hf; cbn [dump_hex];
    destruct (Nat.ltb_spec i len); try lia; try (exists []; split_and!; [done|simpl; lia|done]).
  assert (Hlen : length (drop i (take len b_data)) = (len - i)%nat) by (rewrite length_drop, length_take; lia).
  destruct (drop i (take len b_data)) as [|b rest] eqn:E; [simpl in Hlen; lia|]. simpl in Hlen.
  rewrite look_ahead_spec. pose proof (length_alike b rest) as Ha.
  destruct (classify_run_some data i (1 + length (alike b rest)) (foldl Z.max (type_of b) (map type_of (alike b rest))))
    as (t & Ht & Hty); [lia|]. unfold type_of at 1 in Ht. rewrite Ht. simpl.
  destruct (IH (i + S (length (alike b rest)))%nat) as (ps & Hps & Hc & Hall); [lia..|]. rewrite Hps. simpl.
  eexists. split; [done|]. split; [simpl; split_and!; [done|lia|done]|]. constructor; [|done].
  exists b, (alike b rest). cbn [p_len p_off p_type]. rewrite E. split_and!; [|apply alike_bits| |done].
  - simpl. by rewrite alike_prefix.
  - intros c Hcl. apply (alike_ends b rest). rewrite Nat.add_succ_r, <- Nat.add_succ_l in Hcl.
    rewrite <- lookup_drop in Hcl. replace (drop (S i) (take len b_data)) with rest in Hcl; [done|].
    rewrite <- (Nat.add_1_r i), <- drop_drop, E. done.
Qed.

(** ** The analysis of a deterministic target *)

Section deterministic.
Context {W : Type} `{!Executor W}.
Context (hash64 : list Z -> Z) (exec_tmout : Z) (edges_only skip_bin_check : bool).
Context (T : list Z -> fsrv_run_result * list Z) `{!Deterministic W exec_tmout T}.

(** The checksum of a run on [x], as it is computed and as it is returned *)
Definition full_cksum (x : list Z) : Z :=
  let c := hash64 (tmin_classify_counts edges_only (T x).2) in
  if bool_decide ((T x).1 = FSRV_RUN_CRASH) then Z.lxor c 0xffffffff else c.
Definition answer (x : list Z) : Z :=
  if bool_decide ((T x).1 = FSRV_RUN_TMOUT) then 0 else u32 (full_cksum x).

(** The answers to the four changes of byte [i] of [d] *)
Definition answers_at (d : list Z) (i : nat) : answers :=
  let x := d !!! i in
  Answers (answer (<[i := Z.lxor x 0xff]> d)) (answer (<[i := Z.lxor x 1]> d))
    (answer (<[i := u8 (x - 0x10)]> d)) (answer (<[i := u8 (x + 0x10)]> d)).

Definition prev_at (d : list Z) (i : nat) : answers :=
  match i with O => Answers 0 0 0 0 | S j => answers_at d j end.

(** The bit of byte [i] that changes from one run of bytes to the next *)
Fixpoint bit_at (d : list Z) (i : nat) : bool :=
  xorb (match i with O => false | S j => bit_at d j end) (all_change (prev_at d i) (answers_at d i)).

Definition byte_at (d : list Z) (i : nat) : Z :=
  Z.lor (response (full_cksum d) (answers_at d i)).1 (if bit_at d i then 0x80 else 0).
Definition boring_at (d : list Z) (i : nat) : bool := (response (full_cksum d) (answers_at d i)).2.

Hypothesis healthy : forall x, (T x).1 ∈ [FSRV_RUN_OK; FSRV_RUN_TMOUT; FSRV_RUN_CRASH].

(** A state of the analysis of [d]: the buffer holds [x]. *)
Definition analysing (d x : list Z) (s : analyzer W) : Prop := a_data s = x /\ a_cksum s = full_cksum d.

Lemma target_answers x s first :
  exists s', analyze_run_target hash64 exec_tmout edges_only x first s = AOk (answer x) s'
    /\ a_data s' = a_data s /\ a_timed_out s' = bool_decide ((T x).1 = FSRV_RUN_TMOUT)
    /\ a_trace s' = tmin_classify_counts edges_only (T x).2
    /\ ((T x).1 <> FSRV_RUN_TMOUT -> a_cksum s' = if first then full_cksum x else a_cksum s)
    /\ (first = false -> a_cksum s' = a_cksum s).
Proof using All.
  destruct (det_run (a_world s) x) as (w & Hw & Hstop). pose proof (healthy x) as Hh.
  unfold analyze_run_target, answer, full_cksum. rewrite Hw. destruct (T x) as [r t]. cbn [fst snd] in *.
  destruct r; try (exfalso; set_solver); rewrite Hstop; eexists; split_and!; (reflexivity || by intros; subst || done).
Qed.

Lemma run_analysing d x s :
  analysing d x s -> exists s', analyze_run_target hash64 exec_tmout edges_only (a_data s) false s = AOk (answer x) s'
    /\ analysing d x s'.
Proof using All.
  intros [Hx Hc]. rewrite Hx. destruct (target_answers x s false) as (s' & H & Hd & _ & _ & _ & Hc').
  exists s'. split; [done|]. split; [congruence|]. rewrite Hc'; done.
Qed.

Lemma poke_analysing d i x v f s :
  (i < length d)%nat -> analysing d (<[i := x]> d) s -> u8 (f x) = v ->
  exists s', poke i f s = AOk () s' /\ analysing d (<[i := v]> d) s'.
Proof using Type.
  intros Hi [Hx Hc] Hv. unfold poke. rewrite Hx, list_lookup_insert_eq by done. eexists. split; [done|].
  split; [|done]. cbn [a_data]. by rewrite list_insert_insert_eq, Hv.
Qed.

Lemma poked_values x : byte_ok x ->
  u8 (Z.lxor x 0xff) = Z.lxor x 0xff /\ u8 (Z.lxor (Z.lxor x 0xff) 0xfe) = Z.lxor x 1
  /\ u8 (Z.lxor (Z.lxor x 1) 1 - 0x10) = u8 (x - 0x10) /\ u8 (u8 (x - 0x10) + 0x20) = u8 (x + 0x10)
  /\ u8 (u8 (x + 0x10) - 0x10) = x.
Proof using Type.
  intros Hx. split_and!.
  - by apply (all_bytes_eq (fun x => u8 (Z.lxor x 0xff)) (fun x => Z.lxor x 0xff)).
  - by apply (all_bytes_eq (fun x => u8 (Z.lxor (Z.lxor x 0xff) 0xfe)) (fun x => Z.lxor x 1)).
  - by apply (all_bytes_eq (fun x => u8 (Z.lxor (Z.lxor x 1) 1 - 0x10)) (fun x => u8 (x - 0x10))).
  - by apply (all_bytes_eq (fun x => u8 (u8 (x - 0x10) + 0x20)) (fun x => u8 (x + 0x10))).
  - by apply (all_bytes_eq (fun x => u8 (u8 (x + 0x10) - 0x10)) (fun x => x)).
Qed.

Lemma probe_analysing d i s :
  Forall byte_ok d -> (i < length d)%nat -> analysing d d s ->
  exists s', probe hash64 exec_tmout edges_only i s = AOk (answers_at d i) s' /\ analysing d d s'.
Proof using All.
  intros Hd Hi Hs. destruct (lookup_lt_is_Some_2 d i Hi) as [x Hx].
  assert (byte_ok x) as Hb by (rewrite Forall_lookup in Hd; eauto).
  destruct (poked_values x Hb) as (V1 & V2 & V3 & V4 & V5).
  unfold answers_at. rewrite (list_lookup_total_correct _ _ _ Hx).
  assert (Hs0 : analysing d (<[i := x]> d) s) by (by rewrite list_insert_id).
  unfold probe.
  destruct (poke_analysing d i _ _ (fun x => Z.lxor x 0xff) s Hi Hs0 V1) as (s1 & -> & H1); cbn [abind].
  destruct (run_analysing _ _ _ H1) as (s2 & -> & H2); cbn [abind].
  destruct (poke_analysing d i _ _ (fun x => Z.lxor x 0xfe) s2 Hi H2 V2) as (s3 & -> & H3); cbn [abind].
  destruct (run_analysing _ _ _ H3) as (s4 & -> & H4); cbn [abind].
  destruct (poke_analysing d i _ _ (fun x => Z.lxor x 1 - 0x10) s4 Hi H4 V3) as (s5 & -> & H5); cbn [abind].
  destruct (run_analysing _ _ _ H5) as (s6 & -> & H6); cbn [abind].
  destruct (poke_analysing d i _ _ (fun x => x + 0x20) s6 Hi H6 V4) as (s7 & -> & H7); cbn [abind].
  destruct (run_analysing _ _ _ H7) as (s8 & -> & H8); cbn [abind].
  destruct (poke_analysing d i _ _ (fun x => x - 0x10) s8 Hi H8 V5) as (s9 & -> & H9); cbn [abind].
  eexists. split; [done|]. by rewrite list_insert_id in H9.
Qed.

Definition seq_before (d : list Z) (i : nat) : Z :=
  match i with O => 0 | S j => if bit_at d j then 0x80 else 0 end.

Lemma seq_step d i :
  (if all_change (prev_at d i) (answers_at d i) then Z.lxor (seq_before d i) 0x80 else seq_before d i)
  = if bit_at d i then 0x80 else 0.
Proof using Type.
  destruct i as [|j]; cbn [bit_at seq_before prev_at]; destruct (all_change _ _); try destruct (bit_at d j); reflexivity.
Qed.

Lemma analyze_bytes_ok d n i b boring s :
  Forall byte_ok d -> (i + n = length d)%nat -> Z.of_nat (length d) < 2 ^ 24 -> (length d <= length b)%nat ->
  0 <= boring <= Z.of_nat i -> analysing d d s ->
  exists s', analyze_bytes hash64 exec_tmout edges_only (seq i n) (prev_at d i) (seq_before d i) b boring s
    = AOk (take i b ++ map (byte_at d) (seq i n) ++ drop (i + n) b,
           boring + Z.of_nat (length (filter (boring_at d) (seq i n)))) s' /\ analysing d d s'.
Proof using All.
  intros Hd. revert i b boring s. induction n as [|n IH]; intros i b boring s Hlen Hsm Hbl Hbo Hs; cbn [seq analyze_bytes].
  { exists s. split; [|done]. cbn [map app filter length]. rewrite Nat.add_0_r, take_drop. do 2 f_equal. cbn. lia. }
  destruct (probe_analysing d i s Hd ltac:(lia) Hs) as (s1 & -> & Hs1). cbn [abind].
  rewrite (proj2 Hs1).
  destruct (response (full_cksum d) (answers_at d i)) as [r bo] eqn:Er. rewrite seq_step.
  set (boring' := if bo then _ else _).
  assert (Hbo' : boring' = boring + Z.of_nat (length (filter (boring_at d) [i]))).
  { unfold boring'. rewrite filter_cons, filter_nil. unfold boring_at. rewrite Er. simpl.
    destruct bo; simpl; [rewrite u32_id by lia; lia|lia]. }
  destruct (IH (S i) (<[i := Z.lor r (if bit_at d i then 128 else 0)]> b) boring' s1) as (s' & H & Hs');
    [lia|done|by rewrite length_insert| |done|].
  { rewrite Hbo'. pose proof (length_filter (boring_at d) [i]) as Hf. simpl in Hf. lia. }
  exists s'. split; [|done]. cbn [prev_at seq_before] in H. rewrite H. do 2 f_equal.
  - rewrite (take_S_r _ i (byte_at d i)) by (rewrite list_lookup_insert_eq by lia; unfold byte_at; by rewrite Er).
    rewrite take_insert_ge, drop_insert_lt by lia. cbn [map]. rewrite <- !app_assoc. cbn [app].
    by replace (i + S n)%nat with (S i + n)%nat by lia.
  - rewrite Hbo'. change (i :: seq (S i) n) with ([i] ++ seq (S i) n). rewrite filter_app, length_app. lia.
Qed.
(** What [b_data] holds at the end, and what the tool asks of the first run *)
Definition b_data_of (d : list Z) : list Z := map (byte_at d) (seq 0 (length d)).
Definition analyzable (d : list Z) : bool :=
  negb (bool_decide ((T d).1 = FSRV_RUN_TMOUT))
  && (skip_bin_check || anything_set (tmin_classify_counts edges_only (T d).2)).

Lemma analyze_ok d s :
  Forall byte_ok d -> Z.of_nat (length d) < 2 ^ 24 -> analysing d d s ->
  exists ps s', analyze hash64 exec_tmout edges_only s
    = AOk (ps, Z.of_nat (length (filter (boring_at d) (seq 0 (length d))))) s'
    /\ a_data s' = d /\ covers 0 (length d) ps /\ Forall (pattern_ok (b_data_of d) (length d)) ps.
Proof using All.
  intros Hd Hlen Hs. unfold analyze. rewrite (proj1 Hs).
  set (b := <[length d := 255]> (replicate (length d + 1) 0)).
  assert (Hb : length b = S (length d)) by (unfold b; rewrite length_insert, length_replicate; lia).
  destruct (analyze_bytes_ok d (length d) 0 b 0 s) as (s1 & H & Hs1); [done|done|done|lia|lia|done|].
  cbn [prev_at seq_before] in H. rewrite H. cbn [abind]. rewrite (proj1 Hs1).
  change (take 0 b ++ map (byte_at d) (seq 0 (length d)) ++ drop (0 + length d) b) with (b_data_of d ++ drop (length d) b).
  assert (Hl : length (b_data_of d) = length d) by (unfold b_data_of; by rewrite length_map, length_seq).
  destruct (dump_hex_ok (length d) d (b_data_of d ++ drop (length d) b) 0 (length d)) as (ps & -> & Hc & Hall);
    [done|rewrite length_app; lia|lia|lia|].
  eexists _, _. split; [done|]. split_and!; [apply Hs1|done|].
  eapply Forall_impl; [exact Hall|]. intros p Hp. unfold pattern_ok in *.
  by rewrite (take_app_le (b_data_of d)) in Hp by lia.
Qed.

(** C34: For a target that always answers the same input the same way, [afl-analyze] reports
    exactly if the first run ends in time and leaves a trace, and ends with an error otherwise.
    The patterns of the report cover the file from left to right; each of them holds bytes
    with the same sequence bit, the next one begins with the other, and its type is the
    largest of its bytes' types (or refines "fixed"), where a byte's type compares the four
    checksums [answers_at] with the first one; the test case is as it was. *)
Theorem analyze_correct d w :
  Forall byte_ok d -> 0 < Z.of_nat (length d) < TMIN_MAX_FILE ->
  match analyze_main hash64 exec_tmout edges_only skip_bin_check (Some d) w with
  | AOk (ps, boring_len) s =>
      analyzable d = true /\ a_data s = d
      /\ boring_len = Z.of_nat (length (filter (boring_at d) (seq 0 (length d))))
      /\ covers 0 (length d) ps /\ Forall (pattern_ok (b_data_of d) (length d)) ps
  | AFatal _ => analyzable d = false
  | AInterrupted | AOob => False
  end.
Proof using All.
  intros Hd Hlen. unfold analyze_main, read_initial_file, analyzable.
  rewrite (proj2 (Z.eqb_neq _ 0)), (proj2 (Z.leb_gt _ _)) by lia.
  destruct (target_answers d (Analyzer d 0 0 0 [] false w) true) as (s & -> & Hs & Hto & Htr & Hc & _).
  cbn [abind]. rewrite Hto, Htr.
  case_bool_decide as Ht; [done|]. cbn [negb andb].
  destruct (negb skip_bin_check && _) eqn:E; [by destruct skip_bin_check; simplify_eq/=; apply negb_true_iff in E|].
  destruct (analyze_ok d s) as (ps & s' & -> & Hd' & Hcov & Hall); [done|unfold TMIN_MAX_FILE in *; lia|by split; auto|].
  split_and!; try done. by destruct skip_bin_check; simplify_eq/=; [|apply negb_false_iff in E].
Qed.

(** ** Checksums of more than 32 bits *)

Lemma answer_bound x : 0 <= answer x < 2 ^ 32.
Proof using Type. unfold answer. case_bool_decide; [lia|]. apply Z.mod_pos_bound. lia. Qed.

Lemma wide_response d i :
  2 ^ 32 <= full_cksum d ->
  boring_at d i = false /\ (response (full_cksum d) (answers_at d i)).1 ∈ [RESP_VARIABLE; RESP_FIXED].
Proof using Type.
  intros Hc. unfold boring_at, response, answers_at. cbn [xor_ff xor_01 sub_10 add_10].
  assert (Hne : forall x, answer x =? full_cksum d = false)
    by (intros x; apply Z.eqb_neq; pose proof (answer_bound x); lia).
  rewrite !Hne. cbn. split; [by destruct (_ && _ && _)|].
  destruct (_ && _ && _); cbn; [right; left|left].
Qed.

Lemma wide_type d i : 2 ^ 32 <= full_cksum d -> 2 <= type_of (byte_at d i) <= 3.
Proof using Type.
  intros Hc. destruct (wide_response d i Hc) as [_ Hr]. unfold byte_at, type_of.
  rewrite !elem_of_cons in Hr. destruct Hr as [->|[->|[]%not_elem_of_nil]]; destruct (bit_at d i); vm_compute; split; congruence.
Qed.

Lemma foldl_max_bounds (l : list Z) lo hi x :
  lo <= x <= hi -> Forall (fun y => lo <= y <= hi) l -> lo <= foldl Z.max x l <= hi.
Proof using Type. intros Hx Hl. revert x Hx. induction Hl; intros z Hz; simpl; [done|]. apply IHHl. lia. Qed.

Lemma wide_pattern d p :
  2 ^ 32 <= full_cksum d -> pattern_ok (b_data_of d) (length d) p -> 2 <= p_type p.
Proof using Type.
  intros Hc (b & run & Hrun & _ & _ & Ht).
  assert (Hall : Forall (fun y => 2 <= type_of y <= 3) (b :: run)).
  { rewrite <- Hrun. apply Forall_take, Forall_drop, Forall_take. apply Forall_fmap, Forall_true. intros i.
    by apply wide_type. }
  apply Forall_cons in Hall as [Hb Hr].
  assert (2 <= foldl Z.max (type_of b) (map type_of run) <= 3)
    by (apply foldl_max_bounds; [done|by apply Forall_fmap]).
  destruct Ht as [->|[_ Hin]]; [lia|]. rewrite !elem_of_cons in Hin.
  destruct Hin as [->|[->|[->|[]%not_elem_of_nil]]]; vm_compute; congruence.
Qed.

(** C35: The checksum of the first run is kept with 64 bits, but those of later runs are returned
    with 32.  If the first does not fit into 32 bits (one in four billion does), no byte is
    ever found to be without effect: the share of interesting bytes is 100%, every pattern is
    "critical" or "magic" or a refinement, and for a program that ignores its input every
    byte is of the type "fixed". *)
Theorem wide_checksums_interesting d w :
  Forall byte_ok d -> 0 < Z.of_nat (length d) < TMIN_MAX_FILE -> analyzable d = true ->
  2 ^ 32 <= full_cksum d ->
  exists ps s, analyze_main hash64 exec_tmout edges_only skip_bin_check (Some d) w = AOk (ps, 0) s
    /\ covers 0 (length d) ps /\ Forall (fun p => RESP_VARIABLE <= p_type p) ps
    /\ ((forall x, T x = T d) -> Forall (fun b => type_of b = RESP_FIXED) (b_data_of d)).
Proof using All.
  intros Hd Hlen Hok Hc. unfold analyze_main, read_initial_file.
  rewrite (proj2 (Z.eqb_neq _ 0)), (proj2 (Z.leb_gt _ _)) by lia.
  destruct (target_answers d (Analyzer d 0 0 0 [] false w) true) as (s & -> & Hs & Hto & Htr & Hck & _).
  cbn [abind]. rewrite Hto, Htr. apply andb_true_iff in Hok as [Ht Hany]. rewrite (proj1 (negb_true_iff _) Ht).
  assert (negb skip_bin_check && negb (anything_set (tmin_classify_counts edges_only (T d).2)) = false) as ->
    by (by rewrite <- negb_orb, Hany).
  apply negb_true_iff, bool_decide_eq_false in Ht.
  destruct (analyze_ok d s) as (ps & s' & -> & _ & Hcov & Hall); [done|unfold TMIN_MAX_FILE in *; lia|by split; auto|].
  exists ps, s'. split; [|split_and!; [done| |]].
  - assert (forall l, filter (boring_at d) l = []) as ->; [|done].
    induction l as [|i l IH]; [done|]. rewrite filter_cons, decide_False; [done|].
    rewrite (proj1 (wide_response d i Hc)). by intros [].
  - apply (Forall_impl _ _ _ Hall). intros p. by apply wide_pattern.
  - intros Hsame. apply Forall_fmap, Forall_true. intros i. cbn. unfold byte_at.
    assert (Ha : forall x, answer x = answer d) by (intros x; unfold answer, full_cksum; by rewrite (Hsame x)).
    assert (full : (response (full_cksum d) (answers_at d i)).1 = RESP_FIXED).
    { assert (answers_at d i = Answers (answer d) (answer d) (answer d) (answer d)) as ->
        by (unfold answers_at; f_equal; apply Ha).
      unfold response. cbn [xor_ff xor_01 sub_10 add_10]. rewrite Z.eqb_refl.
      rewrite (proj2 (Z.eqb_neq (answer d) (full_cksum d))); [done|]. pose proof (answer_bound d). lia. }
    rewrite full. by destruct (bit_at d i).
Qed.
End deterministic.

(** ** Examples *)

(** A program that ignores its input, and one for which a byte 7 at the second place matters. *)
Definition ignoring (x : list Z) : fsrv_run_result * list Z := (FSRV_RUN_OK, [1; 0; 0; 0]).
Definition seven (x : list Z) : fsrv_run_result * list Z :=
  (FSRV_RUN_OK, if bool_decide (x !! 1%nat = Some 7) then [1; 0; 0; 0] else [0; 1; 0; 0]).

Lemma analyze_correct_witness :
  exists ps s, @analyze_main unit (answering seven) le_word 20 false false (Some [5; 7; 5]) tt = AOk (ps, 2) s
    /\ covers 0 3 ps /\ Forall (pattern_ok (b_data_of le_word false seven [5; 7; 5]) 3) ps.
Proof.
  assert (H := @analyze_correct unit (answering seven) le_word 20 false false seven (answering_det _)
    ltac:(intros x; left) [5; 7; 5] tt ltac:(byte_list) ltac:(vm_compute; done)).
  assert (exists ps s, @analyze_main unit (answering seven) le_word 20 false false (Some [5; 7; 5]) tt = AOk (ps, 2) s)
    as (ps & s & E) by (eexists _, _; vm_compute; reflexivity).
  rewrite E in H. destruct H as (_ & _ & _ & Hc & Hp). exists ps, s. by split_and!.
Defined.

(** Any hash whose values need more than 32 bits. *)
Definition wide_hash (l : list Z) : Z := 2 ^ 40 + le_word l.

Lemma wide_checksums_interesting_witness :
  exists ps s, @analyze_main unit (answering ignoring) wide_hash 20 false false (Some [5; 7; 5]) tt = AOk (ps, 0) s
    /\ Forall (fun p => RESP_VARIABLE <= p_type p) ps.
Proof.
  destruct (@wide_checksums_interesting unit (answering ignoring) wide_hash 20 false false ignoring (answering_det _)
    ltac:(intros x; left) [5; 7; 5] tt ltac:(byte_list) ltac:(vm_compute; done) eq_refl ltac:(vm_compute; done))
    as (ps & s & H & _ & Hp & _).
  exists ps, s. by split.
Defined.

(** Forty bytes that the program ignores are reported as a checksummed block. *)
Example ignored_input_suspect :
  match @analyze_main unit (answering ignoring) wide_hash 20 false false (Some (replicate 40 65)) tt with
  | AOk (ps, boring_len) _ => ps = [Pattern 0 40 RESP_SUSPECT] /\ boring_len = 0
  | _ => False
  end.
Proof. vm_compute. split; reflexivity. Qed.
