(* ===== verification/ItsStage.v ===== *)
(** * The input-to-state stage (src/aflplusplus/src/afl-fuzz-redqueen.c, input_to_state_stage)

    The stage colors the test case (or takes the coloring kept with the queue entry), runs
    the instrumented target on the original and on the colored input, which fills the log
    of comparisons, solves every comparison that has not failed too often, and tries the
    finds together.  What it keeps between calls is in the queue entry: the level reached
    ([colorized]), the colored input and its taints, both owned by the entry, and, per
    comparison, the counters [pass_stats]. *)
From S2P Require Import Prelude OneHelpers Rng DetStages ExtrasStages Colorize NumText Its CmpLog Rtn Trim.

Definition CMPLOG_LVL_MAX : Z := 3.
Definition CMPLOG_FAIL_MAX : Z := 96.
Definition CMP_TYPE_INS : Z := 1.
Definition CMP_TYPE_RTN : Z := 2.
Definition CMPLOG_TMOUT_LIMIT : Z := 250.   (* TMOUT_LIMIT *)

(** [struct cmp_map]: the headers, and the bytes of the log from that of a comparison on *)
Record cmp_map := CmpMap { headers : list cmp_header; log_of : nat -> list Z }.

(** A pointer the queue entry owns: after [ck_free] it is not null. *)
Inductive owned (A : Type) := Null | Owned (a : A) | Freed.
Arguments Null {A}. Arguments Owned {A}. Arguments Freed {A}.

(** What the stage uses of the rest of the fuzzer *)
Class CmplogTarget (W : Type) := {
  (** [write_to_testcase] and [fuzz_run_target(afl, &afl->cmplog_fsrv, ...)]: the target
      fills the map *)
  run_cmplog : W -> list Z -> cmp_map -> W * cmp_map * fsrv_run_result;
  stop_soon : W -> bool;
  skip_requested : W -> bool;
  clear_skip : W -> W;
  subseq_tmouts : W -> Z;
  set_subseq_tmouts : Z -> W -> W;
  skip_item : W -> W;                (* ++afl->cur_skipped_items *)
  virgin_bits : W -> list Z;
  set_virgin_bits : list Z -> W -> W;
  total_execs : W -> Z;
}.

Section stage.
Context {W : Type} `{!Fuzzer W} `{!Random W} `{!Coloring W} `{!Unspecified W} `{!CmplogTarget W}.
(** [afl->cmplog_enable_transform], [afl->cmplog_enable_arith], [afl->queue_cur->is_ascii] *)
Context (transform arith is_ascii : bool).

(** ** Running the instrumented target *)

(** [common_fuzz_cmplog_stuff]: [true] asks to stop *)
Definition common_fuzz_cmplog_stuff (w : W) (b : list Z) (m : cmp_map) : W * cmp_map * bool :=
  let '(w, m, fault) := run_cmplog w b m in
  if stop_soon w then (w, m, true)
  else
    let '(over, w) :=
      if bool_decide (fault = FSRV_RUN_TMOUT)
      then (CMPLOG_TMOUT_LIMIT <? subseq_tmouts w, set_subseq_tmouts (u32 (subseq_tmouts w + 1)) w)
      else (false, set_subseq_tmouts 0 w) in
    if (over : bool) then (skip_item w, m, true)
    else if skip_requested w then (skip_item (clear_skip w), m, true)
    else (w, m, false).

Definition no_header : cmp_header := CmpHeader 0 0 0 0.

(** [memset(afl->shm.cmp_map, 0, sizeof(struct cmp_map))] and
    [memset(afl->shm.cmp_map->headers, 0, ...)] *)
Definition clear_map (m : cmp_map) : cmp_map :=
  CmpMap (map (fun _ => no_header) (headers m)) (fun k => map (fun _ => 0) (log_of m k)).
Definition clear_headers (m : cmp_map) : cmp_map := CmpMap (map (fun _ => no_header) (headers m)) (log_of m).

(** ** The comparisons *)

(** The log of a comparison as [struct cmp_operands] *)
Fixpoint operands (n : nat) (bytes : list Z) : list cmp_operands :=
  match n with
  | O => []
  | S n =>
      let u64_at i := le_word (take 8 (drop i bytes)) in
      CmpOperands (u64_at 0%nat) (u64_at 8%nat) (u64_at 16%nat) (u64_at 24%nat) :: operands n (drop 32 bytes)
  end.

(** Comparisons that failed or were tried too often are ignored. *)
Definition worn_out (p : afl_pass_stat) : bool := (CMPLOG_FAIL_MAX <=? faileds p) || (CMPLOG_FAIL_MAX <=? total p).
Definition set_hits (k : Z) (h : cmp_header) : cmp_header := CmpHeader k (shape h) (type h) (attribute h).

(** The first loop over the headers: [hits] reset for what is worn out, and [stage_max] *)
Fixpoint select_headers (hs : list cmp_header) (ps : list afl_pass_stat) (stage_max : Z) : list cmp_header * Z :=
  match hs, ps with
  | h :: hs, p :: ps =>
      if hits h =? 0 then let '(hs, stage_max) := select_headers hs ps stage_max in (h :: hs, stage_max)
      else
        let h := if worn_out p then set_hits 0 h else h in
        let limit := if type h =? CMP_TYPE_INS then CMP_MAP_H else CMP_MAP_RTN_H in
        let '(hs, stage_max) := select_headers hs ps (u32 (stage_max + Z.min (hits h) limit)) in
        (h :: hs, stage_max)
  | _, _ => ([], stage_max)
  end.

Section solve.
Context (orig_buf : list Z) (lvl len : Z) (m orig_m : cmp_map) (taints : list tainted).

(** One comparison *)
Definition solve_key (k : nat) (h : cmp_header) (p : afl_pass_stat) : I W afl_pass_stat :=
  if type h =? CMP_TYPE_INS then
    cmp_fuzz transform arith is_ascii orig_buf lvl len h
      (operands (Z.to_nat CMP_MAP_H) (log_of m k)) (operands (Z.to_nat CMP_MAP_H) (log_of orig_m k)) taints p
  else if negb (Z.land lvl LVL1 =? 0) || (negb (Z.land lvl LVL3 =? 0) && transform) then
    rtn_fuzz transform orig_buf (u8 lvl) (SHAPE_BYTES (shape h)) len (log_of m k) (log_of orig_m k) taints is_ascii h p
  else mret p.

(** The second loop, from the comparison [k] on: the counters it leaves, and how it ends *)
Fixpoint solve_keys (k : nat) (hs : list cmp_header) (ps : list afl_pass_stat) (s : its W) : list afl_pass_stat * its_out W unit :=
  match hs, ps with
  | h :: hs, p :: ps =>
      if hits h =? 0 then let '(ps, o) := solve_keys (S k) hs ps s in (p :: ps, o)
      else
        match solve_key k h p s with
        | IRet p' s => let '(ps, o) := solve_keys (S k) hs ps s in (p' :: ps, o)
        | IStop s => (p :: ps, IStop s)
        | IOob => (p :: ps, IOob)
        | IFuel => (p :: ps, IFuel)
        end
  | _, _ => (ps, IRet tt s)
  end.
End solve.

(** ** The stage *)

(** What the queue entry keeps *)
Record its_entry := ItsEntry { colorized : Z; taint : owned (list tainted); colorinput : owned (list Z) }.

(** The state around the stage: [buf] of the caller, the entry, [pass_stats], the counters
    of the stage, the rest of the fuzzer, and the inputs run by the solver. *)
Record its_stage := ItsStage {
  st_buf : list Z;
  st_entry : its_entry;
  st_pass : list afl_pass_stat;
  st_finds : Z;
  st_cycles : Z;
  st_world : W;
  st_runs : list (list Z);
}.

Inductive its_result :=
| ItsReturn (r : bool) (st : its_stage)
| ItsOob
| ItsFreed          (* a freed pointer is used or freed again *)
| ItsStarved.

(** The colored input and its taints, and whether they are those of the entry *)
Inductive coloring_of :=
| Fresh (b : list Z) (t : list tainted) (w : W)
| Kept (b : list Z) (t : list tainted)
| NoTaint (b : list Z) (w : W)
| ColorStop (b : list Z) (w : W)
| ColorBad (r : its_result).

Definition get_coloring (patience fuel : nat) (st : its_stage) : coloring_of :=
  match taint (st_entry st), colorinput (st_entry st) with
  | Owned t, Owned b => Kept b t
  | Freed, Owned _ | Freed, Freed | Owned _, Freed => ColorBad ItsFreed
  | _, _ =>
      match colorization patience fuel (st_buf st) (st_world st) with
      | Colored c [] _ => NoTaint (co_buf c) (co_world c)
      | Colored c taints _ => Fresh (co_buf c) taints (co_world c)
      | ColorFailed c => ColorStop (co_buf c) (co_world c)
      | ColorOob => ColorBad ItsOob
      | ColorStarved => ColorBad ItsStarved
      end
  end.

(** [while (taint) { ... ck_free(taint) ... }] on the taints of the entry or on new ones *)
Definition free_taints (kept : bool) (e : its_entry) : its_entry :=
  if kept then ItsEntry (colorized e) Freed (colorinput e) else e.
Definition set_colorized (k : Z) (e : its_entry) : its_entry := ItsEntry k (taint e) (colorinput e).

(** [exit_its:] up to the combined run.  [buf] is the buffer of the caller, unless the coloring
    of the entry is used; it holds [b] now.  The result is the entry and the caller's buffer. *)
Definition leave (lvl_max kept : bool) (orig_buf b : list Z) (taints : list tainted) (caller : list Z) (e : its_entry)
    : option (its_entry * list Z) :=
  let caller := if kept then caller else b in
  let input := if kept then Owned b else colorinput e in
  if lvl_max then
    match input with
    | Freed => None                                  (* freed twice *)
    | Owned _ => Some (ItsEntry CMPLOG_LVL_MAX Null Freed, caller)
    | Null => Some (ItsEntry CMPLOG_LVL_MAX Null Null, caller)
    end
  else
    let t := match taint e with Null => Owned taints | t => t end in
    match input with
    | Null => Some (ItsEntry LVL2 t (Owned b), orig_buf)
    | _ => Some (ItsEntry LVL2 t input, caller)
    end.

(** [v[i] &= s[i]] over the words of the map *)
Definition and_words (v s : list Z) : list Z :=
  let n := (8 * (length v / 8))%nat in zip_with Z.land (take n v) (take n s) ++ drop n v.

(** [#ifdef CMPLOG_COMBINE]: try what was found together *)
Definition combine_finds (orig_hit_cnt : Z) (virgin_backup : list Z) (len : Z) (s : its W) : its W :=
  if orig_hit_cnt + 1 <? hit_cnt (i_world s) then
    let virgin_save := virgin_bits (i_world s) in
    let s := put_world (set_virgin_bits virgin_backup (i_world s)) s in
    let s := match its_fuzz (take (Z.to_nat len) (i_cbuf s)) s with IRet _ s | IStop s => s | _ => s end in
    put_world (set_virgin_bits (and_words (virgin_bits (i_world s)) virgin_save) (i_world s)) s
  else s.

(** From the cmplog runs on, with the coloring [b], [taints] *)
Definition its_body (kept : bool) (orig_buf b : list Z) (taints : list tainted) (w : W) (map0 : cmp_map) (st : its_stage) : its_result :=
  let len := Z.of_nat (length orig_buf) in
  let e := st_entry st in
  let stopped w := ItsReturn true (ItsStage (if kept then st_buf st else b) (free_taints kept (set_colorized CMPLOG_LVL_MAX e))
                     (st_pass st) (st_finds st) (st_cycles st) w (st_runs st)) in
  let '(w, orig_m, stop) := common_fuzz_cmplog_stuff w orig_buf (clear_map map0) in
  if (stop : bool) then stopped w
  else
    let '(w, m, stop) := common_fuzz_cmplog_stuff w b (clear_headers orig_m) in
    if (stop : bool) then stopped w
    else
      let orig_execs := total_execs w in
      let orig_hit_cnt := hit_cnt w in
      let lvl_max := cmplog_lvl w =? CMPLOG_LVL_MAX in
      let lvl := (if colorized e =? 0 then LVL1 else 0) + (if lvl_max then LVL3 else 0) in
      let cbuf := orig_buf ++ map fresh (seq (length orig_buf) 128) in
      let virgin_backup := virgin_bits w in
      let '(hs, _) := select_headers (headers m) (st_pass st) 0 in
      let '(pass, o) := solve_keys orig_buf lvl len m orig_m taints 0 hs (st_pass st) (Its b cbuf 0 false [] 0 w (st_runs st)) in
      match o with
      | IOob => ItsOob
      | IFuel => ItsStarved
      | IRet _ s | IStop s =>
          match leave lvl_max kept orig_buf (i_buf s) taints (st_buf st) e with
          | None => ItsFreed
          | Some (e, caller) =>
              let s := combine_finds orig_hit_cnt virgin_backup len s in
              ItsReturn (match o with IStop _ => true | _ => false end)
                (ItsStage caller e pass (st_finds st + (hit_cnt (i_world s) - orig_hit_cnt))
                   (st_cycles st + (total_execs (i_world s) - orig_execs)) (i_world s) (i_runs s))
          end
      end.

(** [input_to_state_stage(afl, orig_buf, buf, len)], with [buf] in [st_buf] *)
Definition input_to_state_stage (patience fuel : nat) (orig_buf : list Z) (map0 : cmp_map) (st : its_stage) : its_result :=
  match get_coloring patience fuel st with
  | Fresh b t w => its_body false orig_buf b t w map0 st
  | Kept b t => its_body true orig_buf b t (st_world st) map0 st
  | NoTaint b w =>
      ItsReturn false (ItsStage b (set_colorized CMPLOG_LVL_MAX (st_entry st)) (st_pass st) (st_finds st) (st_cycles st) w (st_runs st))
  | ColorStop b w =>
      ItsReturn true (ItsStage b (st_entry st) (st_pass st) (st_finds st) (st_cycles st) w (st_runs st))
  | ColorBad r => r
  end.
End stage.
