(* ===== verification/ItsTheorems.v ===== *)
(** * What the input-to-state stage guarantees

    The stage composes colorization and the two solvers.  Without the transformations of
    level 3 it is memory safe, gives the caller its test case back below the highest level,
    keeps a coloring in the queue entry that the next call can use, and keeps the counters
    of the comparisons in range. *)
From S2P Require Import Prelude OneHelpers Rng DetStages ExtrasStages Havoc HavocSpec Colorize ColorizeTheorems NumText Its CmpLog CmpLogTheorems Rtn RtnTheorems Trim ItsStage.

(** The log of the target: each comparison has 1024 bytes; instructions compare at most 16
    bytes; routines fill at most half of their part of the log, which ends in zero. *)
Definition LOG_BYTES : nat := 1024.

Record header_ok (h : cmp_header) : Prop := {
  ho_hits : 0 <= hits h < 2 ^ 24;
  ho_shape : 0 <= shape h < 32;
  ho_ins : type h = CMP_TYPE_INS -> shape h < 16;
  ho_attr : 0 <= attribute h < 16;
}.

Record map_ok (m : cmp_map) : Prop := {
  mo_headers : Forall header_ok (headers m);
  mo_log : forall k, length (log_of m k) = LOG_BYTES /\ Forall byte_ok (log_of m k);
  mo_zero : forall k h, headers m !! k = Some h -> hits h <> 0 -> type h <> CMP_TYPE_INS -> last (log_of m k) = Some 0;
}.

Lemma no_header_ok : header_ok no_header.
Proof. split; simpl; lia || done. Qed.

Lemma cleared_headers (hs : list cmp_header) : Forall header_ok (map (fun _ => no_header) hs).
Proof. apply Forall_fmap, Forall_true. intros ?. apply no_header_ok. Qed.

Lemma cleared_lookup (hs : list cmp_header) k h : map (fun _ => no_header) hs !! k = Some h -> h = no_header.
Proof. intros H. rewrite list_lookup_fmap in H. by apply fmap_Some in H as (x & _ & E). Qed.

Lemma clear_map_ok m : map_ok m -> map_ok (clear_map m).
Proof.
  intros [_ Hl _]. split.
  - apply cleared_headers.
  - intros k. simpl. rewrite length_map. split; [apply Hl|]. apply Forall_fmap, Forall_true. intros ?. unfold byte_ok. simpl. lia.
  - simpl. intros k h Hh Hn. apply cleared_lookup in Hh. by subst h.
Qed.

Lemma clear_headers_ok m : map_ok m -> map_ok (clear_headers m).
Proof.
  intros [_ Hl _]. split; [apply cleared_headers|done|].
  simpl. intros k h Hh Hn. apply cleared_lookup in Hh. by subst h.
Qed.

Lemma length_operands n bytes : length (operands n bytes) = n.
Proof. revert bytes. induction n as [|n IH]; intros bytes; [done|]. simpl. by rewrite IH. Qed.

(** What is left of the headers after the worn out ones *)
Lemma select_headers_ok hs ps z :
  Forall header_ok hs -> Forall header_ok (select_headers hs ps z).1
  /\ (forall k h, (select_headers hs ps z).1 !! k = Some h -> hits h <> 0 -> hs !! k = Some h)
  /\ (length (select_headers hs ps z).1 = length hs `min` length ps)%nat.
Proof.
  intros H. revert ps z. induction H as [|h hs Hh _ IH]; intros ps z; [by destruct ps; split_and!|].
  destruct ps as [|p ps]; [by split_and!|]. cbn [select_headers].
  assert (Hset : header_ok (set_hits 0 h)) by (destruct Hh; split; simpl; lia || done).
  destruct (hits h =? 0).
  - specialize (IH ps z). destruct (select_headers hs ps z) as [hs' z']. simpl in *. destruct IH as (I1 & I2 & I3).
    split; [by constructor|]. split; [|lia]. intros [|k] h'; simpl; [done|apply I2].
  - match goal with |- context [select_headers hs ps ?z'] => specialize (IH ps z'); destruct (select_headers hs ps z') as [hs' z''] end.
    simpl in *. destruct IH as (I1 & I2 & I3). split; [constructor; [by destruct (worn_out p)|done]|]. split; [|lia].
    intros [|k] h'; simpl; [|apply I2]. intros [= <-]. destruct (worn_out p); done.
Qed.

Section solve.
Context {W : Type} `{!Fuzzer W} `{!Unspecified W}.
Context (transform arith is_ascii : bool) (orig_buf b : list Z) (lvl len : Z) (cap : nat) (m orig_m : cmp_map) (taints : list tainted).
Hypothesis Hin : solver_input orig_buf b len cap taints.
Hypothesis Hm : map_ok m.
Hypothesis Horig : map_ok orig_m.
Hypothesis Hlvl : 0 <= lvl < 2 ^ 8.
Hypothesis Hplain : transform && negb (Z.land lvl LVL3 =? 0) = false.

(** The inputs the stage tries *)
Definition solved_its (b' : list Z) : Prop :=
  solved_cmp b len taints b' \/ exists k n, solved_rtn b (log_of m k) taints n b'.

Lemma logged_bound h max : header_ok h -> 0 <= max -> 0 <= logged h max <= max.
Proof using. clear. intros [[? ?] _ _ _] ?. unfold logged. destruct (Z.ltb_spec max (hits h)); lia. Qed.

Lemma solve_key_ok k h p (s : its W) :
  header_ok h -> (type h <> CMP_TYPE_INS -> last (log_of m k) = Some 0) -> counters_ok p -> i_buf s = b -> length (i_cbuf s) = cap ->
  match solve_key transform arith is_ascii orig_buf lvl len m orig_m taints k h p s with
  | IRet p' s' => i_buf s' = b /\ length (i_cbuf s') = cap /\ ran solved_its s s' /\ counters_ok p'
  | IStop s' => ran solved_its s s' /\ may_stop (W:=W)
  | IOob | IFuel => False
  end.
Proof using Hin Hm Horig Hlvl Hplain.
  intros Hh Hz Hp Hb Hc. unfold solve_key. destruct (Z.eqb_spec (type h) CMP_TYPE_INS) as [E|E].
  - pose proof (cmp_fuzz_restores transform arith is_ascii orig_buf b lvl len cap h (operands (Z.to_nat CMP_MAP_H) (log_of m k))
      (operands (Z.to_nat CMP_MAP_H) (log_of orig_m k)) taints Hin) as H.
    specialize (H ltac:(pose proof (ho_ins h Hh E); destruct Hh; lia) (ho_attr h Hh)).
    specialize (H ltac:(rewrite !length_operands; pose proof (logged_bound h CMP_MAP_H Hh ltac:(done)); lia) p s Hb Hc).
    unfold cmp_fuzz, mbind, I_bind, mret, I_ret in *. cbv zeta in *.
    destruct (cmp_entries _ _ _ _ _ _ _ _ _ _ _ _ s) as [f s'|s'| |]; [| |done..].
    + destruct H as (? & ? & Hr). split_and!; [done..| |by apply update_pass_ok]. refine (ran_weaken _ _ _ _ _ Hr). by left.
    + destruct H as [Hr ?]. split; [|done]. refine (ran_weaken _ _ _ _ _ Hr). by left.
  - destruct (negb _ || _); [|split_and!; done].
    set (n := Z.to_nat (logged h CMP_MAP_RTN_H)).
    assert (Hcalls : calls_ok (log_of m k) (log_of orig_m k) n).
    { destruct (mo_log m Hm k) as [L1 B1], (mo_log orig_m Horig k) as [L2 B2].
      pose proof (logged_bound h CMP_MAP_RTN_H Hh ltac:(done)) as Hl. change CMP_MAP_RTN_H with 8 in Hl.
      split; [congruence| |done|by apply Hz]. unfold n, OPERANDS. rewrite L1. unfold LOG_BYTES. change CMP_MAP_RTN_H with 8. lia. }
    pose proof (rtn_entries_restores transform is_ascii orig_buf b (u8 lvl) (SHAPE_BYTES (shape h)) len cap (log_of m k) (log_of orig_m k) taints Hin
      ltac:(unfold u8; by rewrite Z.mod_small) ltac:(destruct Hh; unfold SHAPE_BYTES; lia) n Hcalls (seq 0 n) false
      ltac:(apply Forall_seq; intros; lia) s Hb Hc) as H.
    unfold rtn_fuzz, mbind, I_bind, mret, I_ret. fold n.
    destruct (rtn_entries _ _ _ _ _ _ _ _ _ _ _ s) as [f s'|s'| |]; [| |done..].
    + destruct H as (? & ? & Hr). split_and!; [done..| |by apply update_pass_ok].
      refine (ran_weaken _ _ _ _ _ Hr). intros b' Hb'. right. by exists k, n.
    + destruct H as [Hr ?]. split; [|done]. refine (ran_weaken _ _ _ _ _ Hr). intros b' Hb'. right. by exists k, n.
Qed.

Lemma solve_keys_ok k hs ps (s : its W) :
  Forall header_ok hs -> (forall j h, hs !! j = Some h -> hits h <> 0 -> headers m !! (k + j)%nat = Some h) ->
  Forall counters_ok ps -> i_buf s = b -> length (i_cbuf s) = cap ->
  let '(ps', o) := solve_keys transform arith is_ascii orig_buf lvl len m orig_m taints k hs ps s in
  Forall counters_ok ps' /\ length ps' = length ps
  /\ match o with
     | IRet _ s' => i_buf s' = b /\ length (i_cbuf s') = cap /\ ran solved_its s s'
     | IStop s' => ran solved_its s s' /\ may_stop (W:=W)
     | IOob | IFuel => False
     end.
Proof using Hin Hm Horig Hlvl Hplain.
  intros Hhs. revert k ps s. induction Hhs as [|h hs Hh _ IH]; intros k ps s Hsub Hps Hb Hc; [by destruct ps; split_and!|].
  destruct ps as [|p ps]; [by split_and!|]. cbn [solve_keys]. inv_Forall.
  assert (Hsub' : forall j h0, hs !! j = Some h0 -> hits h0 <> 0 -> headers m !! (S k + j)%nat = Some h0).
  { intros j h0 Hj Hn. rewrite <- (Hsub (S j) h0 Hj Hn). f_equal. lia. }
  destruct (Z.eqb_spec (hits h) 0) as [E|E].
  - specialize (IH (S k) ps s Hsub' ltac:(done) Hb Hc). destruct (solve_keys _ _ _ _ _ _ _ _ _ (S k) hs ps s) as [ps' o].
    destruct IH as (I1 & I2 & I3). split; [by constructor|]. split; [simpl; lia|done].
  - pose proof (solve_key_ok k h p s Hh) as Hk.
    specialize (Hk ltac:(intros Ht; refine (mo_zero m Hm k h _ E Ht); rewrite <- (Hsub 0%nat h eq_refl E); f_equal; lia) ltac:(done) Hb Hc).
    destruct (solve_key _ _ _ _ _ _ _ _ _ k h p s) as [p' s'|s'| |]; [|split; [by constructor|split; [done|exact Hk]]|done..].
    destruct Hk as (Hb' & Hc' & Hr & Hp').
    specialize (IH (S k) ps s' Hsub' ltac:(done) Hb' Hc'). destruct (solve_keys _ _ _ _ _ _ _ _ _ (S k) hs ps s') as [ps' o].
    destruct IH as (I1 & I2 & I3). split; [by constructor|]. split; [simpl; lia|].
    destruct o as [? s''|s''| |]; [|destruct I3; split; [by etrans|done]|done..].
    destruct I3 as (? & ? & ?). split_and!; [done..|by etrans].
Qed.
End solve.

(** ** The stage *)

(** A coloring the solvers can work on *)
Record coloring_ok (len : Z) (b : list Z) (t : list tainted) : Prop := {
  cl_len : Z.of_nat (length b) = len;
  cl_bytes : Forall byte_ok b;
  cl_some : t <> [];
  cl_gaps : gaps t;
  cl_in : Forall (taint_in len) t;
}.

(** The entry has no coloring yet, or one of its own. *)
Definition entry_ok (len : Z) (e : its_entry) : Prop :=
  match taint e, colorinput e with
  | Null, Null => True
  | Owned t, Owned b => coloring_ok len b t
  | _, _ => False
  end.

Section stage.
Context {W : Type} `{!Fuzzer W} `{!Random W} `{!Coloring W} `{!Unspecified W} `{!CmplogTarget W}.
Context (transform arith is_ascii : bool).

Definition target_ok : Prop := forall (w : W) b m, map_ok m -> map_ok (run_cmplog w b m).1.2.

Lemma common_fuzz_cmplog_stuff_ok (w : W) b m : target_ok -> map_ok m -> map_ok (common_fuzz_cmplog_stuff w b m).1.2.
Proof using.
  intros Ht Hm. specialize (Ht w b m Hm). unfold common_fuzz_cmplog_stuff. destruct (run_cmplog w b m) as [[w1 m1] fault]. simpl in Ht.
  destruct (stop_soon w1); [done|]. destruct (bool_decide _).
  - destruct (_ <? _); [done|]. destruct (skip_requested _); done.
  - destruct (skip_requested _); done.
Qed.

(** The runs of the stage: rewritten colorings, then at most one input of combined finds *)
Definition stage_runs (len : Z) (before after : list (list Z)) : Prop :=
  exists b t m new comb, after = before ++ new ++ comb /\ coloring_ok len b t /\ Forall (solved_its b len m t) new /\ (length comb <= 1)%nat.

Lemma combine_finds_runs hc vb len (s : its W) :
  exists comb, i_runs (combine_finds hc vb len s) = i_runs s ++ comb /\ (length comb <= 1)%nat.
Proof using.
  unfold combine_finds. destruct (_ <? _); [|exists []; rewrite app_nil_r; simpl; auto].
  unfold its_fuzz. cbn. destruct (common_fuzz_stuff _ _) as [w [|]]; simpl; by eexists.
Qed.

(** What a return of the stage leaves *)
Definition stage_left (orig_buf : list Z) (st st' : its_stage (W:=W)) (r : bool) : Prop :=
  let len := Z.of_nat (length orig_buf) in
  Forall counters_ok (st_pass st') /\ length (st_pass st') = length (st_pass st)
  /\ (st_runs st' = st_runs st \/ stage_runs len (st_runs st) (st_runs st'))
  /\ (r = false -> colorized (st_entry st') <> CMPLOG_LVL_MAX ->
      st_buf st' = orig_buf /\ colorized (st_entry st') = LVL2
      /\ exists b t, st_entry st' = ItsEntry LVL2 (Owned t) (Owned b) /\ coloring_ok len b t
         /\ (forall b0 t0, taint (st_entry st) = Owned t0 -> colorinput (st_entry st) = Owned b0 -> b = b0 /\ t = t0)).

Lemma its_body_ok kept orig_buf b t w map0 st :
  target_ok -> (forall w : W, transform && (cmplog_lvl w =? CMPLOG_LVL_MAX) = false) ->
  0 < Z.of_nat (length orig_buf) < 2 ^ 31 -> map_ok map0 -> Forall counters_ok (st_pass st) ->
  coloring_ok (Z.of_nat (length orig_buf)) b t -> st_buf st = orig_buf ->
  (if (kept : bool) then taint (st_entry st) = Owned t /\ colorinput (st_entry st) = Owned b
   else taint (st_entry st) = Null /\ colorinput (st_entry st) = Null) ->
  match its_body transform arith is_ascii kept orig_buf b t w map0 st with
  | ItsReturn r st' => stage_left orig_buf st st' r
  | _ => False
  end.
Proof using.
  intros Ht Hpl Hlen Hmap Hps Hcol Hbuf He. unfold its_body. set (len := Z.of_nat (length orig_buf)) in *.
  pose proof (common_fuzz_cmplog_stuff_ok w orig_buf (clear_map map0) Ht (clear_map_ok _ Hmap)) as M1.
  destruct (common_fuzz_cmplog_stuff w orig_buf (clear_map map0)) as [[w1 orig_m] [|]];
    [split; [done|]; split; [done|]; split; [by left|done]|]. simpl in M1.
  pose proof (common_fuzz_cmplog_stuff_ok w1 b (clear_headers orig_m) Ht (clear_headers_ok _ M1)) as M2.
  destruct (common_fuzz_cmplog_stuff w1 b (clear_headers orig_m)) as [[w2 m] [|]];
    [split; [done|]; split; [done|]; split; [by left|done]|]. simpl in M2.
  set (lvl_max := cmplog_lvl w2 =? CMPLOG_LVL_MAX). set (lvl := _ + _).
  set (cbuf := orig_buf ++ map fresh (seq (length orig_buf) 128)). set (s0 := Its b cbuf 0 false [] 0 w2 (st_runs st)).
  pose proof (select_headers_ok (headers m) (st_pass st) 0 (mo_headers m M2)) as (S1 & S2 & _).
  destruct (select_headers (headers m) (st_pass st) 0) as [hs mx]. simpl in S1, S2.
  assert (Hin : solver_input orig_buf b len (length cbuf) t).
  { destruct Hcol. split; [done|done|lia| |lia|done|done|done]. unfold cbuf. rewrite length_app. lia. }
  assert (Hlvl : 0 <= lvl < 2 ^ 8) by (unfold lvl, LVL1, LVL3; destruct (_ =? 0), lvl_max; lia).
  assert (Hplain : transform && negb (Z.land lvl LVL3 =? 0) = false).
  { specialize (Hpl w2). fold lvl_max in Hpl. unfold lvl. destruct transform; [|done]. simpl in *. rewrite Hpl. by destruct (colorized (st_entry st) =? 0). }
  pose proof (solve_keys_ok transform arith is_ascii orig_buf b lvl len (length cbuf) m orig_m t Hin M2 M1 Hlvl Hplain 0 hs (st_pass st) s0
    S1 S2 Hps eq_refl eq_refl) as Hsolve.
  destruct (solve_keys _ _ _ _ _ _ _ _ _ 0 hs (st_pass st) s0) as [pass o]. destruct Hsolve as (P1 & P2 & Ho).
  assert (Hruns : forall hc vb s, ran (solved_its b len m t) s0 s -> stage_runs len (st_runs st) (i_runs (combine_finds hc vb len s))).
  { intros hc vb s (new & E & Hnew). destruct (combine_finds_runs hc vb len s) as (comb & -> & Hcomb).
    exists b, t, m, new, comb. split; [by rewrite E, app_assoc|done]. }
  destruct o as [[] s|s| |]; [| |done..].
  - destruct Ho as (Hb & _ & Hr). unfold leave. rewrite Hb.
    destruct kept, He as [He1 He2]; rewrite ?He1, ?He2, ?Hbuf; destruct lvl_max; cbn;
      (split; [done|]; split; [done|]; split; [right; by apply Hruns|]); try done; intros _ _;
      (split; [done|]; split; [done|]; exists b, t; split; [done|]; split; [done|]; intros b0 t0); rewrite ?He1, ?He2; by intros [= ->] [= ->].
  - destruct Ho as [Hr _]. unfold leave. destruct kept, He as [He1 He2]; rewrite ?He1, ?He2; destruct lvl_max; cbn;
      (split; [done|]; split; [done|]; split; [right; by apply Hruns|done]).
Qed.

Lemma input_to_state_stage_exact patience fuel orig_buf map0 st :
  fair (W:=W) patience -> target_ok -> (forall w : W, transform && (cmplog_lvl w =? CMPLOG_LVL_MAX) = false) ->
  Forall byte_ok orig_buf -> 0 < Z.of_nat (length orig_buf) < 2 ^ 31 -> (2 * length orig_buf <= fuel)%nat ->
  map_ok map0 -> Forall counters_ok (st_pass st) -> entry_ok (Z.of_nat (length orig_buf)) (st_entry st) -> st_buf st = orig_buf ->
  match input_to_state_stage transform arith is_ascii patience fuel orig_buf map0 st with
  | ItsReturn r st' => stage_left orig_buf st st' r
  | _ => False
  end.
Proof using.
  intros Hf Ht Hpl Hb Hlen Hfuel Hmap Hps He Hbuf. unfold input_to_state_stage, get_coloring, entry_ok in *.
  destruct (taint (st_entry st)) as [|t|] eqn:E1, (colorinput (st_entry st)) as [|b|] eqn:E2; try done; [|by apply its_body_ok].
  rewrite Hbuf. pose proof (colorization_exact patience fuel orig_buf (st_world st) Hf Hb Hlen Hfuel) as Hcol.
  destruct (colorization patience fuel orig_buf (st_world st)) as [c taints positions|c| |]; [| |done..].
  - destruct Hcol as (ck & Hl & _ & _ & _ & Hg & Hti & Hby & _). destruct taints as [|t taints].
    + split; [done|]. split; [done|]. split; [by left|]. intros _ Hne. by destruct Hne.
    + apply its_body_ok; try done. split; [by rewrite Hl|done..].
  - split; [done|]. split; [done|]. split; [by left|done].
Qed.
End stage.

(** C10: the input-to-state stage, without the transformations of level 3: it touches no byte
    outside its buffers and uses no freed memory; every input it runs is the coloring with
    a window of a tainted region rewritten, except a last one that combines the finds; the
    counters of the comparisons stay in range; and below the highest level the caller has
    its test case back, while the queue entry keeps a coloring for the next call, the same
    one if it had one. *)
Theorem input_to_state_stage_correct {W} `{!Fuzzer W} `{!Random W} `{!Coloring W} `{!Unspecified W} `{!CmplogTarget W}
    transform arith is_ascii patience fuel orig_buf map0 (st : its_stage (W:=W)) :
  fair (W:=W) patience -> target_ok (W:=W) -> (forall w : W, transform && (cmplog_lvl w =? CMPLOG_LVL_MAX) = false) ->
  Forall byte_ok orig_buf -> 0 < Z.of_nat (length orig_buf) < 2 ^ 31 -> (2 * length orig_buf <= fuel)%nat ->
  map_ok map0 -> Forall counters_ok (st_pass st) -> entry_ok (Z.of_nat (length orig_buf)) (st_entry st) -> st_buf st = orig_buf ->
  match input_to_state_stage transform arith is_ascii patience fuel orig_buf map0 st with
  | ItsReturn r st' => stage_left orig_buf st st' r
  | _ => False
  end.
Proof. apply input_to_state_stage_exact. Qed.

(** ** A target to try it on *)

(** Its path depends on the first byte; it compares the next four with a constant. *)
Definition logs_word (x y : Z) : list Z := word_le 8 x ++ word_le 8 y ++ replicate 1008 0.

#[local] Instance picky_unspecified : Unspecified (Z * Z) := {| errno_after _ := false; fresh _ := 0; shr_over x n := x |}.
#[local] Instance picky_target : CmplogTarget (Z * Z) := {|
  run_cmplog w b m :=
    (w, CmpMap [CmpHeader 1 3 CMP_TYPE_INS 1] (fun _ => logs_word (le_word (take 4 (drop 1 b))) 0xdeadbeef), FSRV_RUN_OK);
  stop_soon _ := false; skip_requested _ := false; clear_skip w := w;
  subseq_tmouts _ := 0; set_subseq_tmouts _ w := w; skip_item w := w;
  virgin_bits _ := [255; 255; 255; 255; 255; 255; 255; 255]; set_virgin_bits _ w := w; total_execs _ := 0;
|}.

Lemma picky_target_ok : target_ok (W:=Z * Z).
Proof.
  intros w b m _. split; cbn [run_cmplog picky_target fst snd headers log_of].
  - repeat constructor; simpl; (lia || done).
  - intros _. unfold logs_word. split; [rewrite !length_app, !length_word_le, length_replicate by lia; done|].
    rewrite !Forall_app. split; [|split]; [apply (word_le_ok 8); lia..|]. apply Forall_replicate. unfold byte_ok. lia.
  - intros [|k] h [= <-]; done.
Qed.

Definition hello : list Z := [65; 66; 67; 68; 69].
Definition fresh_stage : its_stage (W:=Z * Z) :=
  ItsStage hello (ItsEntry 0 Null Null) [PassStat 0 0] 0 0 (0, 0) [].
Definition empty_map : cmp_map := CmpMap [no_header] (fun _ => replicate 1024 0).

Lemma empty_map_ok : map_ok empty_map.
Proof.
  split; simpl; [constructor; [apply no_header_ok|constructor]| |].
  - intros _. split; [reflexivity|]. change (Forall byte_ok (replicate 1024 0)). apply Forall_replicate. unfold byte_ok. lia.
  - intros [|k] h [= <-]; done.
Qed.

Lemma input_to_state_stage_correct_witness :
  match input_to_state_stage true true true (Z.to_nat (2 ^ 32)) 10 hello empty_map fresh_stage with
  | ItsReturn r st' => stage_left hello fresh_stage st' r
  | _ => False
  end.
Proof.
  apply (input_to_state_stage_correct true true true (Z.to_nat (2 ^ 32)) 10 hello empty_map fresh_stage).
  - exact picky_fair.
  - exact picky_target_ok.
  - reflexivity.
  - byte_list.
  - simpl; lia.
  - simpl; lia.
  - exact empty_map_ok.
  - repeat constructor; simpl; lia.
  - exact Logic.I.
  - reflexivity.
Defined.

(** At level 2 the comparison is solved and the test case is given back. *)
Example stage_level_2 :
  match input_to_state_stage true true true 10 10 hello empty_map fresh_stage with
  | ItsReturn false st' => (st_buf st', bool_decide ([65; 0xef; 0xbe; 0xad; 0xde] ∈ st_runs st')) = (hello, true)
  | _ => False
  end.
Proof. vm_compute. reflexivity. Qed.

(** At the highest level it is not: the stages that follow mutate the coloring. *)
Example stage_level_3_keeps_the_coloring :
  match input_to_state_stage (Coloring0 := {|
          get_cur_time_us w := 0; cur_exec_us w := 100; fixed_seed w := false; cmplog_lvl w := 3; active_items w := 1;
          colorize_success w := 0; set_colorize_success k w := w |}) false true true 10 10 hello empty_map fresh_stage with
  | ItsReturn false st' => st_buf st' <> hello /\ take 1 (st_buf st') = [65]
  | _ => False
  end.
Proof. vm_compute. split; [discriminate|reflexivity]. Qed.
