(* ===== verification/Queue.v ===== *)
(** * The queue and its favored entries (src/aflplusplus/src/afl-fuzz-queue.c)

    [top_rated] holds, for every byte of the coverage map, the best entry that reaches
    it; entries are reference counted through it and keep a packed trace while they win
    a byte.  [update_bitmap_score] maintains it, [cull_queue] picks from it the favored
    entries.  AFLLive adds target functions to the entries, walks the targets in turns
    during the first cycle, and keeps their seeds favored for that long. *)
From S2P Require Import Prelude Bitmap Alloc.

(** include/config.h *)
Definition MAX_TARGETS : Z := 256.

(** Power schedules (include/afl-fuzz.h). *)
Definition EXPLORE : Z := 0.
Definition MMOPT : Z := 1.
Definition EXPLOIT : Z := 2.
Definition FAST : Z := 3.
Definition COE : Z := 4.
Definition LIN : Z := 5.
Definition QUAD : Z := 6.
Definition RARE : Z := 7.
Definition SEEK : Z := 8.

(** [struct queue_entry], the fields these functions use. *)
Record queue_entry := QEntry {
  q_targetFunctionIdx : Z;
  q_len : Z;
  q_exec_us : Z;
  q_fuzz_level : Z;
  q_n_fuzz_entry : Z;
  q_depth : Z;
  q_passed_det : bool;
  q_tc_ref : Z;
  q_trace_mini : option (list Z);
  q_favored : bool;
  q_was_fuzzed : bool;
  q_disabled : bool;
  q_fs_redundant : bool;
}.

(** The queue's part of [afl_state_t]; an entry is named by its index in [queue_buf]. *)
Record queue := Queue {
  queue_buf : list queue_entry;
  top_rated : list (option nat);
  n_fuzz : list Z;
  schedule : Z;
  fixed_seed : bool;
  score_changed : bool;
  queued_favored : Z;
  pending_favored : Z;
  pending_not_fuzzed : Z;
  active_items : Z;
  ready_for_splicing_count : Z;
  max_depth : Z;
  cur_depth : Z;
  entriesForTarget : list Z;
  amountOfTargets : Z;
  firstCycleDone : bool;
}.

Definition set_queue_buf (b : list queue_entry) (a : queue) : queue :=
  Queue b (top_rated a) (n_fuzz a) (schedule a) (fixed_seed a) (score_changed a) (queued_favored a)
    (pending_favored a) (pending_not_fuzzed a) (active_items a) (ready_for_splicing_count a)
    (max_depth a) (cur_depth a) (entriesForTarget a) (amountOfTargets a) (firstCycleDone a).
Definition set_top_rated (t : list (option nat)) (a : queue) : queue :=
  Queue (queue_buf a) t (n_fuzz a) (schedule a) (fixed_seed a) (score_changed a) (queued_favored a)
    (pending_favored a) (pending_not_fuzzed a) (active_items a) (ready_for_splicing_count a)
    (max_depth a) (cur_depth a) (entriesForTarget a) (amountOfTargets a) (firstCycleDone a).
Definition set_score_changed (c : bool) (a : queue) : queue :=
  Queue (queue_buf a) (top_rated a) (n_fuzz a) (schedule a) (fixed_seed a) c (queued_favored a)
    (pending_favored a) (pending_not_fuzzed a) (active_items a) (ready_for_splicing_count a)
    (max_depth a) (cur_depth a) (entriesForTarget a) (amountOfTargets a) (firstCycleDone a).
Definition set_favored_counts (qf pf : Z) (a : queue) : queue :=
  Queue (queue_buf a) (top_rated a) (n_fuzz a) (schedule a) (fixed_seed a) (score_changed a) qf
    pf (pending_not_fuzzed a) (active_items a) (ready_for_splicing_count a)
    (max_depth a) (cur_depth a) (entriesForTarget a) (amountOfTargets a) (firstCycleDone a).

Definition set_max_depth (x : Z) (a : queue) : queue :=
  Queue (queue_buf a) (top_rated a) (n_fuzz a) (schedule a) (fixed_seed a) (score_changed a) (queued_favored a)
    (pending_favored a) (pending_not_fuzzed a) (active_items a) (ready_for_splicing_count a)
    x (cur_depth a) (entriesForTarget a) (amountOfTargets a) (firstCycleDone a).

Definition set_trace_ref (ref : Z) (tm : option (list Z)) (q : queue_entry) : queue_entry :=
  QEntry (q_targetFunctionIdx q) (q_len q) (q_exec_us q) (q_fuzz_level q) (q_n_fuzz_entry q)
    (q_depth q) (q_passed_det q) ref tm (q_favored q) (q_was_fuzzed q) (q_disabled q)
    (q_fs_redundant q).
Definition set_favored (f : bool) (q : queue_entry) : queue_entry :=
  QEntry (q_targetFunctionIdx q) (q_len q) (q_exec_us q) (q_fuzz_level q) (q_n_fuzz_entry q)
    (q_depth q) (q_passed_det q) (q_tc_ref q) (q_trace_mini q) f (q_was_fuzzed q) (q_disabled q)
    (q_fs_redundant q).
Definition set_redundant (f : bool) (q : queue_entry) : queue_entry :=
  QEntry (q_targetFunctionIdx q) (q_len q) (q_exec_us q) (q_fuzz_level q) (q_n_fuzz_entry q)
    (q_depth q) (q_passed_det q) (q_tc_ref q) (q_trace_mini q) (q_favored q) (q_was_fuzzed q)
    (q_disabled q) f.
(** [q->fuzz_level = 0; q->was_fuzzed = false;] *)
Definition renew (q : queue_entry) : queue_entry :=
  QEntry (q_targetFunctionIdx q) (q_len q) (q_exec_us q) 0 (q_n_fuzz_entry q)
    (q_depth q) (q_passed_det q) (q_tc_ref q) (q_trace_mini q) (q_favored q) false (q_disabled q)
    (q_fs_redundant q).

(** ** [add_to_queue] *)

Definition add_to_queue (len : Z) (passed_det : bool) (funIdx : Z) (a : queue) : queue :=
  let depth := u32 (cur_depth a + 1) in
  let q := QEntry funIdx len 0 0 0 depth passed_det 0 None false false false false in
  Queue (queue_buf a ++ [q]) (top_rated a) (n_fuzz a) (schedule a) (fixed_seed a)
    (score_changed a) (queued_favored a) (pending_favored a) (u32 (pending_not_fuzzed a + 1))
    (u32 (active_items a + 1))
    (if 4 <? len then u32 (ready_for_splicing_count a + 1) else ready_for_splicing_count a)
    (if max_depth a <? depth then depth else max_depth a) (cur_depth a)
    (alter (fun n => u32 (n + 1)) (Z.to_nat funIdx) (entriesForTarget a))
    (amountOfTargets a) (firstCycleDone a).

Definition add_favored_to_queue (len : Z) (passed_det : bool) (funIdx : Z) (a : queue) : queue :=
  let a := add_to_queue len passed_det funIdx a in
  let a := set_queue_buf (alter (set_favored true) (length (queue_buf a) - 1)%nat (queue_buf a)) a in
  set_favored_counts (u32 (queued_favored a + 1)) (u32 (pending_favored a + 1)) a.

(** ** [update_bitmap_score] *)

(** [afl->n_fuzz[k]] *)
Definition n_fuzz_at (a : queue) (k : Z) : Z := default 0 (n_fuzz a !! Z.to_nat k).

(** The speed x size factor. *)
Definition fav_factor_of (a : queue) (q : queue_entry) : Z :=
  if (RARE <=? schedule a) || fixed_seed a then u32 (q_len q ≪ 2) else u64 (q_exec_us q * q_len q).

(** The newcomer's power of two, and the holder's. *)
Definition fuzz_p2_new (a : queue) (q : queue_entry) : Z :=
  if (FAST <=? schedule a) && (schedule a <? RARE) then 0
  else if schedule a =? RARE then next_pow2 (n_fuzz_at a (q_n_fuzz_entry q))
  else q_fuzz_level q.
Definition fuzz_p2_top (a : queue) (q : queue_entry) : Z :=
  if (FAST <=? schedule a) && (schedule a <=? RARE)
  then next_pow2 (n_fuzz_at a (q_n_fuzz_entry q)) else q_fuzz_level q.

(** Does the holder keep its byte?  The three [continue]s of the loop. *)
Definition keeps (a : queue) (fuzz_p2 fav_factor : Z) (top : queue_entry) : bool :=
  let top_rated_fav_factor := fav_factor_of a top in
  let top_rated_fuzz_p2 := fuzz_p2_top a top in
  if top_rated_fuzz_p2 <? fuzz_p2 then true
  else if (fuzz_p2 =? top_rated_fuzz_p2) && (top_rated_fav_factor <? fav_factor) then true
  else top_rated_fav_factor <? fav_factor.

(** [if (!--p->tc_ref) { ck_free(p->trace_mini); p->trace_mini = 0; }] *)
Definition drop_ref (q : queue_entry) : queue_entry :=
  let r := u32 (q_tc_ref q - 1) in
  set_trace_ref r (if r =? 0 then None else q_trace_mini q) q.

(** [++q->tc_ref; if (!q->trace_mini) { ...minimize_bits... }] *)
Definition take_ref (mini : list Z) (q : queue_entry) : queue_entry :=
  set_trace_ref (u32 (q_tc_ref q + 1)) (Some (default mini (q_trace_mini q))) q.

(** One byte [i] of the map, hit by the entry [k]. *)
Definition win_byte (k : nat) (mini : list Z) (i : nat) (a : queue) : queue :=
  let a := set_top_rated (<[i := Some k]> (top_rated a)) a in
  set_score_changed true (set_queue_buf (alter (take_ref mini) k (queue_buf a)) a).

Definition score_byte (k : nat) (fuzz_p2 fav_factor : Z) (mini : list Z) (i : nat) (a : queue) : queue :=
  match top_rated a !! i with
  | Some (Some p) =>
      match queue_buf a !! p with
      | Some top =>
          if keeps a fuzz_p2 fav_factor top then a
          else win_byte k mini i (set_queue_buf (alter drop_ref p (queue_buf a)) a)
      | None => a
      end
  | Some None => win_byte k mini i a
  | None => a
  end.

Fixpoint score_loop (k : nat) (fuzz_p2 fav_factor : Z) (mini : list Z) (i : nat) (trace : list Z)
    (a : queue) : queue :=
  match trace with
  | [] => a
  | b :: trace =>
      score_loop k fuzz_p2 fav_factor mini (S i) trace
        (if b =? 0 then a else score_byte k fuzz_p2 fav_factor mini i a)
  end.

(** The packed trace: [q->trace_mini = ck_alloc(map_size >> 3); minimize_bits(...)]. *)
Definition packed (fsrv : afl_forkserver_t) : list Z :=
  minimize_bits fsrv (replicate (Z.to_nat (map_size fsrv ≫ 3)) 0) (trace_bits fsrv).

Definition update_bitmap_score (fsrv : afl_forkserver_t) (k : nat) (a : queue) : queue :=
  match queue_buf a !! k with
  | Some q =>
      score_loop k (fuzz_p2_new a q) (fav_factor_of a q) (packed fsrv) 0
        (take (Z.to_nat (map_size fsrv)) (trace_bits fsrv)) a
  | None => a
  end.

(** ** [cull_queue] *)

(** [temp_v[i >> 3] & (1 << (i & 7))] *)
Definition bit_set (v : list Z) (i : nat) : bool :=
  Z.testbit (default 0 (v !! (i / 8)%nat)) (Z.of_nat (i mod 8)).

(** [while (j--) if (mini[j]) temp_v[j] &= ~mini[j];] *)
Definition clear_bits (mini temp_v : list Z) : list Z :=
  imap (fun j v => let m := default 0 (mini !! j) in if m =? 0 then v else Z.ldiff v m) temp_v.

(** The walk over the bytes of the map; [None] is the use of a missing [trace_mini]. *)
Fixpoint cull_loop (n i : nat) (temp_v : list Z) (a : queue) : option queue :=
  match n with
  | O => Some a
  | S n =>
      match top_rated a !! i with
      | Some (Some p) =>
          if bit_set temp_v i then
            q ← queue_buf a !! p;
            mini ← q_trace_mini q;
            let temp_v := clear_bits mini temp_v in
            let a :=
              if q_favored q then a
              else
                set_favored_counts (queued_favored a + 1)
                  (if q_was_fuzzed q then pending_favored a else pending_favored a + 1)
                  (set_queue_buf (alter (set_favored true) p (queue_buf a)) a) in
            cull_loop n (S i) temp_v a
          else cull_loop n (S i) temp_v a
      | _ => cull_loop n (S i) temp_v a
      end
  end.

(** [mark_as_redundant], up to the marker files. *)
Definition mark_as_redundant (state : bool) (q : queue_entry) : queue_entry :=
  if bool_decide (state = q_fs_redundant q) then q else set_redundant state q.

(** The last loop: redundancy marks, and the seeds during the first cycle. *)
Fixpoint cull_marks (first_cycle : bool) (targets : Z) (i : Z) (l : list queue_entry) (qf pf : Z)
  : list queue_entry * Z * Z :=
  match l with
  | [] => ([], qf, pf)
  | q :: l =>
      let q := if q_disabled q then q else mark_as_redundant (negb (q_favored q)) q in
      let '(q, qf, pf) :=
        if first_cycle && (i <? targets) then
          let q := renew q in
          if q_favored q then (q, qf, pf) else (set_favored true q, qf + 1, pf + 1)
        else (q, qf, pf) in
      let '(l, qf, pf) := cull_marks first_cycle targets (i + 1) l qf pf in
      (q :: l, qf, pf)
  end.

Definition cull_queue (fsrv : afl_forkserver_t) (non_instrumented_mode : bool) (a : queue)
  : option queue :=
  if negb (score_changed a) || non_instrumented_mode then Some a
  else
    let temp_v := replicate (Z.to_nat (map_size fsrv ≫ 3)) 255 in
    let a := set_favored_counts 0 0 (set_score_changed false a) in
    let a := set_queue_buf (map (set_favored false) (queue_buf a)) a in
    a ← cull_loop (Z.to_nat (map_size fsrv)) 0 temp_v a;
    let '(l, qf, pf) :=
      cull_marks (negb (firstCycleDone a)) (amountOfTargets a) 0 (queue_buf a)
        (queued_favored a) (pending_favored a) in
    Some (set_favored_counts qf pf (set_queue_buf l a)).

(** ** The end of [fuzz_one_original] *)

Definition set_was_fuzzed (q : queue_entry) : queue_entry :=
  QEntry (q_targetFunctionIdx q) (q_len q) (q_exec_us q) (q_fuzz_level q) (q_n_fuzz_entry q)
    (q_depth q) (q_passed_det q) (q_tc_ref q) (q_trace_mini q) (q_favored q) true (q_disabled q)
    (q_fs_redundant q).
Definition bump_fuzz_level (q : queue_entry) : queue_entry :=
  QEntry (q_targetFunctionIdx q) (q_len q) (q_exec_us q) (u32 (q_fuzz_level q + 1))
    (q_n_fuzz_entry q) (q_depth q) (q_passed_det q) (q_tc_ref q) (q_trace_mini q) (q_favored q)
    (q_was_fuzzed q) (q_disabled q) (q_fs_redundant q).
Definition set_pending (pnf pf : Z) (a : queue) : queue :=
  Queue (queue_buf a) (top_rated a) (n_fuzz a) (schedule a) (fixed_seed a) (score_changed a)
    (queued_favored a) pf pnf (active_items a) (ready_for_splicing_count a)
    (max_depth a) (cur_depth a) (entriesForTarget a) (amountOfTargets a) (firstCycleDone a).

(** The counters of pending entries when entry [k] ([queue_cur]) is left; the result says
    whether [reinit_table] is set. *)
Definition abandon_entry (stop_soon cal_failed : bool) (k : nat) (a : queue) : queue * bool :=
  match queue_buf a !! k with
  | Some q =>
      let '(a, reinit_table) :=
        if negb stop_soon && negb cal_failed && negb (q_was_fuzzed q) && negb (q_disabled q) then
          (set_pending (u32 (pending_not_fuzzed a - 1))
             (if q_favored q then u32 (pending_favored a - 1) else pending_favored a)
             (set_queue_buf (alter set_was_fuzzed k (queue_buf a)) a), true)
        else (a, false) in
      (set_queue_buf (alter bump_fuzz_level k (queue_buf a)) a, reinit_table)
  | None => (a, false)
  end.

(** ** Target selection *)

(** [do next = (next + 1) % targets; while (!active[next]);] *)
Fixpoint cycleTarget (fuel : nat) (active : list bool) (nextTarget : Z) : option Z :=
  match fuel with
  | O => None
  | S fuel =>
      let next := (nextTarget + 1) `mod` Z.of_nat (length active) in
      if default false (active !! Z.to_nat next) then Some next else cycleTarget fuel active next
  end.

(** The static variables of the target walk, and the flag that ends it. *)
Record target_walk := TargetWalk {
  nextTarget : Z;
  lastTargetSwitch : option Z;  (* [None]: [!lastTargetSwitchInitialized] *)
  walk_done : bool;  (* [afl->firstCycleDone] *)
}.

(** The head of [select_next_queue_entry_from_next_target]: [t0], [t1] and [t2] are what
    the three calls of [time(NULL)] return.  A target is fuzzed for a minute. *)
Definition switch_target (fuel : nat) (active : list bool) (t0 t1 t2 : Z) (w : target_walk)
  : option target_walk :=
  let last := default t0 (lastTargetSwitch w) in
  if 60 <? t1 - last then
    let prevTarget := nextTarget w in
    next ← cycleTarget fuel active prevTarget;
    Some (TargetWalk next (Some t2) (if next <? prevTarget then true else walk_done w))
  else Some (TargetWalk (nextTarget w) (Some last) (walk_done w)).

(** The [res]-th queue entry of a target, or [res] itself when there are fewer. *)
Fixpoint nth_of_target (target : Z) (i j res : Z) (l : list queue_entry) : Z :=
  match l with
  | [] => res
  | q :: l =>
      if q_targetFunctionIdx q =? target then
        if j =? res then i else nth_of_target target (i + 1) (j + 1) res l
      else nth_of_target target (i + 1) j res l
  end.

(** ** Reference counts *)

(** Bytes of the map the entry [p] holds. *)
Definition refs (p : nat) (t : list (option nat)) : Z :=
  Z.of_nat (length (filter (fun o => o = Some p) t)).

Lemma refs_nonneg p t : 0 <= refs p t.
Proof. unfold refs. lia. Qed.

Lemma refs_le p t : refs p t <= Z.of_nat (length t).
Proof. unfold refs. pose proof (length_filter (fun o => o = Some p) t). lia. Qed.

Lemma refs_insert p t i o k :
  t !! i = Some o ->
  refs p (<[i := Some k]> t)
  = refs p t - (if decide (o = Some p) then 1 else 0) + (if decide (k = p) then 1 else 0).
Proof.
  unfold refs. revert i. induction t as [|x t IH]; intros [|i] Hi; simplify_eq/=.
  - rewrite !filter_cons. destruct (decide (Some k = Some p)), (decide (o = Some p)),
      (decide (k = p)); simplify_eq; simpl; first [lia | exfalso; congruence].
  - rewrite !filter_cons. specialize (IH i Hi). destruct (decide (x = Some p)); cbn [length]; lia.
Qed.

Lemma refs_pos p t i : t !! i = Some (Some p) -> 0 < refs p t.
Proof.
  intros Hi. unfold refs.
  assert (Hin : Some p ∈ filter (fun o => o = Some p) t)
    by (apply list_elem_of_filter; split; [done|by eapply list_elem_of_lookup_2]).
  destruct (filter _ t); [by apply not_elem_of_nil in Hin|]. simpl. lia.
Qed.

(** Holders are entries of the queue, counts are exact, and an entry that holds a byte
    has its packed trace. *)
Record top_ok (a : queue) : Prop := {
  top_bound : Z.of_nat (length (top_rated a)) < 2 ^ 32;
  top_valid : forall i p, top_rated a !! i = Some (Some p) -> (p < length (queue_buf a))%nat;
  top_refs : forall p q, queue_buf a !! p = Some q ->
    q_tc_ref q = refs p (top_rated a) /\ (0 < refs p (top_rated a) -> is_Some (q_trace_mini q));
}.

(** The fields the comparison looks at. *)
Definition same_score (q q' : queue_entry) : Prop :=
  q_len q' = q_len q /\ q_exec_us q' = q_exec_us q /\ q_fuzz_level q' = q_fuzz_level q
  /\ q_n_fuzz_entry q' = q_n_fuzz_entry q.

Lemma keeps_same a a' p2 ff q q' :
  same_score q q' -> schedule a' = schedule a -> fixed_seed a' = fixed_seed a -> n_fuzz a' = n_fuzz a ->
  keeps a' p2 ff q' = keeps a p2 ff q.
Proof.
  intros (H1 & H2 & H3 & H4) Hs Hf Hn.
  unfold keeps, fav_factor_of, fuzz_p2_top, n_fuzz_at. by rewrite H1, H2, H3, H4, Hs, Hf, Hn.
Qed.

(** A step that only touches trace references, the holders and the change flag. *)
Definition same_frame (a a' : queue) : Prop :=
  schedule a' = schedule a /\ fixed_seed a' = fixed_seed a /\ n_fuzz a' = n_fuzz a
  /\ length (top_rated a') = length (top_rated a)
  /\ length (queue_buf a') = length (queue_buf a)
  /\ forall p q, queue_buf a !! p = Some q ->
       exists q', queue_buf a' !! p = Some q' /\ same_score q q'.

Lemma same_frame_refl a : same_frame a a.
Proof. repeat split; try done. intros p q H. by exists q. Qed.

Lemma same_frame_trans a b c : same_frame a b -> same_frame b c -> same_frame a c.
Proof.
  intros (H1 & H2 & H3 & H4 & H5 & H6) (K1 & K2 & K3 & K4 & K5 & K6).
  repeat split; try congruence. intros p q Hq. destruct (H6 p q Hq) as (q1 & Hq1 & S1).
  destruct (K6 p q1 Hq1) as (q2 & Hq2 & S2). exists q2. split; [done|].
  unfold same_score in *. intuition congruence.
Qed.

Definition entry_ok (c : Z) (q : queue_entry) : Prop :=
  q_tc_ref q = c /\ (0 < c -> is_Some (q_trace_mini q)).

Lemma drop_ref_ok c q : 0 < c < 2 ^ 32 -> entry_ok c q -> entry_ok (c - 1) (drop_ref q).
Proof.
  intros Hc [Hr Ht]. unfold entry_ok, drop_ref; simpl. rewrite Hr.
  unfold u32. rewrite Z.mod_small by lia. split; [done|]. intros Hp.
  destruct (Z.eqb_spec (c - 1) 0); [lia|]. apply Ht. lia.
Qed.

Lemma take_ref_ok c mini q : 0 <= c < 2 ^ 32 - 1 -> entry_ok c q -> entry_ok (c + 1) (take_ref mini q).
Proof.
  intros Hc [Hr Ht]. unfold entry_ok, take_ref; simpl. rewrite Hr.
  unfold u32. rewrite Z.mod_small by lia. split; [done|]. by eexists.
Qed.

Lemma top_rated_buf b t a : queue_buf (set_top_rated t (set_queue_buf b a)) = b.
Proof. done. Qed.

(** The holder's reference is dropped, if there is one. *)
Definition released (o : option nat) (l : list queue_entry) : list queue_entry :=
  match o with Some p => alter drop_ref p l | None => l end.

Lemma released_lookup o l p :
  released o l !! p = (if decide (o = Some p) then drop_ref <$> l !! p else l !! p).
Proof.
  destruct o as [p'|]; simpl; [|done].
  destruct (decide (p' = p)) as [->|Hne].
  - by rewrite list_lookup_alter_eq, decide_True.
  - rewrite list_lookup_alter_ne by done. by rewrite decide_False by congruence.
Qed.

(** Dropping the old holder's reference and taking a new one keeps the counts. *)
Lemma top_ok_swap a i o k mini :
  top_ok a -> top_rated a !! i = Some o -> (k < length (queue_buf a))%nat ->
  top_ok (win_byte k mini i (set_queue_buf (released o (queue_buf a)) a)).
Proof.
  intros [Hb Hv Hr] Hi Hk.
  assert (Hlen : length (released o (queue_buf a)) = length (queue_buf a))
    by (destruct o; simpl; by rewrite ?length_alter).
  unfold win_byte. split; simpl.
  - by rewrite length_insert.
  - intros j p Hj. rewrite length_alter, Hlen.
    destruct (decide (i = j)) as [->|Hne].
    + rewrite list_lookup_insert_eq in Hj by (by eapply lookup_lt_Some). by simplify_eq.
    + rewrite list_lookup_insert_ne in Hj by done. eauto.
  - intros p q Hq. pose proof (refs_insert p (top_rated a) i o k Hi) as Hc.
    pose proof (refs_le p (<[i := Some k]> (top_rated a))) as Hle. rewrite length_insert in Hle.
    pose proof (refs_nonneg p (top_rated a)) as Hnn. pose proof (refs_le p (top_rated a)) as Hle0.
    change (entry_ok (refs p (<[i := Some k]> (top_rated a))) q). rewrite Hc in Hle |- *.
    assert (Hrel : forall q1, released o (queue_buf a) !! p = Some q1 ->
      entry_ok (refs p (top_rated a) - (if decide (o = Some p) then 1 else 0)) q1).
    { intros q1 Hq1. rewrite released_lookup in Hq1. destruct (decide (o = Some p)) as [->|].
      - destruct (queue_buf a !! p) as [q0|] eqn:Hq0; simplify_eq/=.
        pose proof (refs_pos p _ _ Hi). apply drop_ref_ok; [lia|]. by apply Hr.
      - rewrite Z.sub_0_r. by apply Hr. }
    destruct (decide (k = p)) as [->|Hkp].
    + rewrite list_lookup_alter_eq in Hq.
      destruct (released o (queue_buf a) !! p) as [q1|]; simplify_eq/=.
      apply take_ref_ok; [|auto].
      destruct (decide (o = Some p)) as [->|]; [pose proof (refs_pos p _ _ Hi)|]; lia.
    + rewrite list_lookup_alter_ne in Hq by done. rewrite Z.add_0_r. auto.
Qed.

(** Who holds a byte that [o] held, once entry [k] with trace byte [b] has been scored. *)
Definition new_holder (a : queue) (k : nat) (p2 ff b : Z) (o : option nat) : option nat :=
  if b =? 0 then o
  else match o with
       | Some p =>
           if (match queue_buf a !! p with Some top => keeps a p2 ff top | None => true end)
           then Some p else Some k
       | None => Some k
       end.

Lemma same_frame_win a i o k mini :
  (i < length (top_rated a))%nat ->
  same_frame a (win_byte k mini i (set_queue_buf (released o (queue_buf a)) a)).
Proof.
  intros Hi. unfold win_byte. repeat split; simpl.
  - by rewrite length_insert.
  - rewrite length_alter. destruct o; simpl; by rewrite ?length_alter.
  - intros p q Hq.
    assert (H1 : exists q1, released o (queue_buf a) !! p = Some q1 /\ same_score q q1).
    { rewrite released_lookup. case_decide; rewrite Hq; simpl; eexists; (split; [done|]); done. }
    destruct H1 as (q1 & Hq1 & S1). destruct (decide (k = p)) as [->|].
    + rewrite list_lookup_alter_eq, Hq1. simpl. by eexists.
    + rewrite list_lookup_alter_ne by done. by exists q1.
Qed.

Lemma score_byte_spec k p2 ff mini i b a o :
  top_ok a -> (k < length (queue_buf a))%nat -> top_rated a !! i = Some o ->
  let a' := if b =? 0 then a else score_byte k p2 ff mini i a in
  top_ok a' /\ same_frame a a'
  /\ top_rated a' = <[i := new_holder a k p2 ff b o]> (top_rated a).
Proof.
  intros Hok Hk Hi. unfold new_holder.
  assert (Hil : (i < length (top_rated a))%nat) by (by eapply lookup_lt_Some).
  assert (Hstay : top_ok a /\ same_frame a a /\ top_rated a = <[i := o]> (top_rated a)).
  { split; [done|]. split; [apply same_frame_refl|]. by rewrite list_insert_id. }
  destruct (b =? 0); [done|]. unfold score_byte. rewrite Hi. destruct o as [p|].
  - assert (Hp : (p < length (queue_buf a))%nat) by (by eapply top_valid).
    destruct (lookup_lt_is_Some_2 _ _ Hp) as [top Htop]. rewrite Htop.
    destruct (keeps a p2 ff top); [done|].
    change (alter drop_ref p (queue_buf a)) with (released (Some p) (queue_buf a)).
    split; [by apply top_ok_swap|]. split; [by apply same_frame_win|done].
  - assert (Hw : win_byte k mini i a = win_byte k mini i (set_queue_buf (released None (queue_buf a)) a))
      by (by destruct a). rewrite Hw.
    split; [by apply top_ok_swap|]. split; [by apply same_frame_win|done].
Qed.

Lemma new_holder_frame a a' k p2 ff b o :
  same_frame a a' -> (forall p, o = Some p -> (p < length (queue_buf a))%nat) ->
  new_holder a' k p2 ff b o = new_holder a k p2 ff b o.
Proof.
  intros (Hs & Hf & Hn & _ & _ & Hq) Hp. unfold new_holder. destruct (b =? 0); [done|].
  destruct o as [p|]; [|done]. specialize (Hp p eq_refl).
  destruct (lookup_lt_is_Some_2 _ _ Hp) as [q Hqp]. destruct (Hq p q Hqp) as (q' & Hq' & Hsc).
  rewrite Hqp, Hq'. by rewrite (keeps_same a a' p2 ff q q').
Qed.

Lemma score_loop_spec k p2 ff mini i trace a :
  top_ok a -> (k < length (queue_buf a))%nat -> (i + length trace <= length (top_rated a))%nat ->
  let a' := score_loop k p2 ff mini i trace a in
  top_ok a' /\ same_frame a a'
  /\ forall j o, top_rated a !! j = Some o ->
     top_rated a' !! j = Some (match trace !! (j - i)%nat with
                               | Some b => if decide (i <= j)%nat then new_holder a k p2 ff b o else o
                               | None => o
                               end).
Proof.
  revert i a. induction trace as [|b trace IH]; intros i a Hok Hk Hl; simpl in *.
  { split; [done|]. split; [apply same_frame_refl|]. done. }
  destruct (lookup_lt_is_Some_2 (top_rated a) i) as [oi Hi]; [lia|].
  destruct (score_byte_spec k p2 ff mini i b a oi Hok Hk Hi) as (Hok1 & Hf1 & Ht1).
  set (a1 := if b =? 0 then a else score_byte k p2 ff mini i a) in *.
  destruct (IH (S i) a1) as (Hok2 & Hf2 & Ht2); [done| | |].
  { destruct Hf1 as (_ & _ & _ & _ & -> & _). done. }
  { destruct Hf1 as (_ & _ & _ & -> & _). lia. }
  split; [done|]. split; [by eapply same_frame_trans|]. intros j o Hj.
  destruct (decide (j = i)) as [->|Hne].
  - simplify_eq. rewrite (Ht2 i (new_holder a k p2 ff b oi)).
    + rewrite Nat.sub_diag. simpl. rewrite (decide_True _ _ (le_n i)).
      case_match; [|done]. by rewrite decide_False by lia.
    + rewrite Ht1. apply list_lookup_insert_eq. lia.
  - rewrite (Ht2 j o) by (by rewrite Ht1, list_lookup_insert_ne).
    destruct (decide (i <= j)%nat).
    + replace (j - i)%nat with (S (j - S i))%nat by lia. simpl.
      destruct (trace !! (j - S i)%nat); [|done]. rewrite decide_True by lia. f_equal.
      apply new_holder_frame; [done|]. intros p ->. by eapply top_valid.
    + replace (j - i)%nat with 0%nat by lia. replace (j - S i)%nat with 0%nat by lia. simpl.
      destruct trace; simpl; [done|]. by rewrite decide_False by lia.
Qed.

(** [update_bitmap_score] installs the entry as holder of exactly the bytes it hits
    and wins: bytes it does not hit keep their holder, a byte without a holder goes to
    the entry, and a holder is replaced iff the comparison of the schedule does not keep
    it.  Reference counts stay exact and every holder keeps its packed trace. *)
Theorem update_bitmap_score_correct fsrv k q a :
  top_ok a -> queue_buf a !! k = Some q -> (length (trace_bits fsrv) <= length (top_rated a))%nat ->
  let a' := update_bitmap_score fsrv k a in
  top_ok a' /\
  forall j o b, Z.of_nat j < map_size fsrv -> top_rated a !! j = Some o -> trace_bits fsrv !! j = Some b ->
    top_rated a' !! j = Some (new_holder a k (fuzz_p2_new a q) (fav_factor_of a q) b o).
Proof.
  intros Hok Hq Hl. unfold update_bitmap_score. rewrite Hq.
  destruct (score_loop_spec k (fuzz_p2_new a q) (fav_factor_of a q) (packed fsrv) 0
      (take (Z.to_nat (map_size fsrv)) (trace_bits fsrv)) a)
    as (H1 & _ & H3); [done|by eapply lookup_lt_Some|rewrite length_take; lia|].
  split; [done|]. intros j o b Hm Hj Hb. rewrite (H3 j o Hj).
  rewrite Nat.sub_0_r, lookup_take_lt, Hb by lia. by rewrite decide_True by lia.
Qed.

Lemma update_bitmap_score_correct_witness :
  let fsrv := {| trace_bits := replicate 64 1; map_size := 64; real_map_size := 64 |} in
  let a := add_to_queue 10 false 0
    (Queue [] (replicate 64 None) [] 0 false false 0 0 0 0 0 0 0 [0] 1 false) in
  top_rated (update_bitmap_score fsrv 0 a) !! 3%nat = Some (Some 0%nat).
Proof.
  intros fsrv a.
  refine (proj2 (update_bitmap_score_correct fsrv 0
    (QEntry 0 10 0 0 0 1 false 0 None false false false false) a _ eq_refl ltac:(simpl; lia))
    3%nat None 1 ltac:(simpl; lia) eq_refl eq_refl).
  split; [simpl; lia| |].
  - intros i p Hi. change (replicate 64 (@None nat) !! i = Some (Some p)) in Hi.
    apply lookup_replicate in Hi as [? _]. discriminate.
  - intros [|p] q Hq; [|discriminate Hq]. injection Hq as <-. split; [reflexivity|].
    intros H. vm_compute in H. discriminate H.
Defined.

(** ** [cull_queue] *)

Definition favs (l : list queue_entry) : Z :=
  Z.of_nat (length (List.filter q_favored l)).
Definition pending (l : list queue_entry) : Z :=
  Z.of_nat (length (List.filter (fun q => q_favored q && negb (q_was_fuzzed q)) l)).

Lemma filter_alter (f : queue_entry -> bool) (g : queue_entry -> queue_entry) l p q :
  l !! p = Some q -> f q = false ->
  Z.of_nat (length (List.filter f (alter g p l)))
  = Z.of_nat (length (List.filter f l)) + (if f (g q) then 1 else 0).
Proof.
  revert p. induction l as [|x l IH]; intros [|p] Hp Hf; simplify_eq/=.
  - rewrite Hf. destruct (f (g q)); simpl; lia.
  - specialize (IH p Hp Hf). unfold alter, list_alter in *. destruct (f x); cbn [length]; lia.
Qed.

(** What marking an entry as favored leaves alone. *)
Definition same_but_favored (l l' : list queue_entry) : Prop :=
  length l' = length l /\
  forall p q, l !! p = Some q -> exists q', l' !! p = Some q' /\ set_favored false q' = set_favored false q
    /\ (q_favored q = true -> q_favored q' = true).

Lemma same_but_favored_refl l : same_but_favored l l.
Proof. split; [done|]. intros p q H. by exists q. Qed.

Lemma same_but_favored_trans l1 l2 l3 :
  same_but_favored l1 l2 -> same_but_favored l2 l3 -> same_but_favored l1 l3.
Proof.
  intros [L1 H1] [L2 H2]. split; [congruence|]. intros p q Hq.
  destruct (H1 p q Hq) as (q1 & Hq1 & E1 & F1). destruct (H2 p q1 Hq1) as (q2 & Hq2 & E2 & F2).
  exists q2. split; [done|]. split; [congruence|auto].
Qed.

Lemma same_but_favored_alter l p : same_but_favored l (alter (set_favored true) p l).
Proof.
  split; [apply length_alter|]. intros p' q Hq. destruct (decide (p = p')) as [->|].
  - rewrite list_lookup_alter_eq, Hq. by eexists.
  - rewrite list_lookup_alter_ne by done. by exists q.
Qed.

Lemma set_favored_mini q q' : set_favored false q' = set_favored false q -> q_trace_mini q' = q_trace_mini q.
Proof. intros H. apply (f_equal q_trace_mini) in H. exact H. Qed.

(** Byte [j] of the map is covered by a favored entry's packed trace. *)
Definition covered (l : list queue_entry) (j : nat) : Prop :=
  exists p q mini, l !! p = Some q /\ q_favored q = true /\ q_trace_mini q = Some mini
    /\ bit_set mini j = true.

Lemma covered_mono l l' j : same_but_favored l l' -> covered l j -> covered l' j.
Proof.
  intros [_ H] (p & q & mini & Hq & Hf & Hm & Hb). destruct (H p q Hq) as (q' & Hq' & E & F).
  exists p, q', mini. split; [done|]. split; [auto|]. split; [|done].
  by rewrite (set_favored_mini q q').
Qed.

Lemma bit_set_clear mini v j :
  bit_set (clear_bits mini v) j = bit_set v j && negb (bit_set mini j).
Proof.
  unfold bit_set, clear_bits. rewrite list_lookup_imap.
  destruct (v !! (j / 8)%nat) as [x|]; cbn -[Nat.div Nat.modulo Z.testbit]; [|by rewrite Z.testbit_0_l].
  destruct (Z.eqb_spec (default 0 (mini !! (j / 8)%nat)) 0) as [->|].
  - by rewrite Z.testbit_0_l, andb_true_r.
  - by rewrite Z.ldiff_spec.
Qed.

Lemma clear_bits_length mini v : length (clear_bits mini v) = length v.
Proof. apply length_imap. Qed.

Lemma bit_set_full n j : (j < 8 * n)%nat -> bit_set (replicate n 255) j = true.
Proof.
  intros Hj. unfold bit_set. rewrite lookup_replicate_2 by (apply Nat.Div0.div_lt_upper_bound; lia).
  simpl. change 255 with (Z.ones 8). apply Z.ones_spec_low.
  pose proof (Nat.mod_upper_bound j 8). lia.
Qed.

(** The walk over the map: what is true before byte [i]. *)
Record cull_inv (a0 : queue) (i len : nat) (temp_v : list Z) (a : queue) : Prop := {
  cull_top : top_rated a = top_rated a0;
  cull_buf : same_but_favored (queue_buf a0) (queue_buf a);
  cull_rest : set_queue_buf [] (set_favored_counts 0 0 a) = set_queue_buf [] (set_favored_counts 0 0 a0);
  cull_temp : forall j, (j < 8 * len)%nat -> bit_set temp_v j = false -> covered (queue_buf a) j;
  cull_done : forall j p, (j < i)%nat -> (j < 8 * len)%nat -> top_rated a !! j = Some (Some p) ->
    covered (queue_buf a) j \/ exists q, queue_buf a !! p = Some q /\ q_favored q = true;
  cull_hold : forall p q, queue_buf a !! p = Some q -> q_favored q = true ->
    exists j, top_rated a !! j = Some (Some p);
  cull_count : queued_favored a = favs (queue_buf a) /\ pending_favored a = pending (queue_buf a);
}.

(** One byte that the walk takes. *)
Definition cull_take (p : nat) (q : queue_entry) (a : queue) : queue :=
  if q_favored q then a
  else
    set_favored_counts (queued_favored a + 1)
      (if q_was_fuzzed q then pending_favored a else pending_favored a + 1)
      (set_queue_buf (alter (set_favored true) p (queue_buf a)) a).

Lemma cull_take_buf p q a :
  queue_buf a !! p = Some q ->
  same_but_favored (queue_buf a) (queue_buf (cull_take p q a))
  /\ queue_buf (cull_take p q a) !! p = Some (set_favored true q)
  /\ (forall p' q', p' <> p -> queue_buf (cull_take p q a) !! p' = Some q' -> queue_buf a !! p' = Some q').
Proof.
  intros Hq. unfold cull_take. destruct (q_favored q) eqn:Hf.
  - split; [apply same_but_favored_refl|]. split; [|done]. destruct q; simpl in *; by subst.
  - simpl. split; [apply same_but_favored_alter|]. split; [by rewrite list_lookup_alter_eq, Hq|].
    intros p' q' Hne H. by rewrite list_lookup_alter_ne in H.
Qed.

Lemma cull_take_count p q a :
  queue_buf a !! p = Some q ->
  queued_favored a = favs (queue_buf a) /\ pending_favored a = pending (queue_buf a) ->
  queued_favored (cull_take p q a) = favs (queue_buf (cull_take p q a))
  /\ pending_favored (cull_take p q a) = pending (queue_buf (cull_take p q a)).
Proof.
  intros Hq [Hf Hp]. unfold cull_take. destruct (q_favored q) eqn:E; [done|].
  simpl. unfold favs, pending in *. rewrite !(filter_alter _ _ _ _ q) by (done || by rewrite E).
  simpl. rewrite <- Hf, <- Hp. destruct (q_was_fuzzed q); simpl; lia.
Qed.

Lemma cull_take_inv a0 i len temp_v a p q mini :
  cull_inv a0 i len temp_v a ->
  top_rated a !! i = Some (Some p) -> queue_buf a !! p = Some q -> q_trace_mini q = Some mini ->
  cull_inv a0 (S i) len (clear_bits mini temp_v) (cull_take p q a).
Proof.
  intros [Ht Hb Hr Hv Hd Hh Hc] Hi Hq Hm.
  destruct (cull_take_buf p q a Hq) as (Hs & Hp & Ho).
  assert (Htr : top_rated (cull_take p q a) = top_rated a) by (unfold cull_take; by case_match).
  split; rewrite ?Htr.
  - done.
  - by eapply same_but_favored_trans.
  - rewrite <- Hr. unfold cull_take. by case_match.
  - intros j Hj. rewrite bit_set_clear. intros H. destruct (bit_set temp_v j) eqn:E.
    + simpl in H. exists p, (set_favored true q), mini. repeat split; [done..|].
      by destruct (bit_set mini j).
    + eapply covered_mono; [done|auto].
  - intros j p' Hj Hj8 Htj. destruct (decide (j = i)) as [->|].
    + right. simplify_eq. eexists. by split.
    + destruct (Hd j p') as [H|(q' & Hq' & Hf')]; [lia|done..| |].
      * left. by eapply covered_mono.
      * right. destruct (proj2 Hs p' q' Hq') as (q2 & ? & _ & ?). eauto.
  - intros p' q' Hq' Hf'. destruct (decide (p' = p)) as [->|Hne]; [by exists i|].
    eapply Hh; [by apply Ho|done].
  - by apply cull_take_count.
Qed.

Lemma cull_skip_inv a0 i len temp_v a :
  cull_inv a0 i len temp_v a ->
  ((exists p, top_rated a !! i = Some (Some p)) -> bit_set temp_v i = false) ->
  cull_inv a0 (S i) len temp_v a.
Proof.
  intros [Ht Hb Hr Hv Hd Hh Hc] Hi. split; [done..| |done|done].
  intros j p Hj Hj8 Htj. destruct (decide (j = i)) as [->|]; [|apply Hd; [lia|done..]].
  left. apply Hv; [done|]. apply Hi. by exists p.
Qed.

Lemma cull_loop_spec a0 len n i temp_v a :
  top_ok a0 -> cull_inv a0 i len temp_v a ->
  exists a' temp_v', cull_loop n i temp_v a = Some a' /\ cull_inv a0 (i + n) len temp_v' a'.
Proof.
  intros Hok. revert i temp_v a. induction n as [|n IH]; intros i temp_v a HI; simpl.
  { exists a, temp_v. rewrite Nat.add_0_r. done. }
  replace (i + S n)%nat with (S i + n)%nat by lia.
  destruct (top_rated a !! i) as [[p|]|] eqn:Hi.
  - destruct (bit_set temp_v i) eqn:Hbit.
    + assert (Hi0 := Hi). rewrite (cull_top _ _ _ _ _ HI) in Hi0.
      destruct (lookup_lt_is_Some_2 _ _ (top_valid _ Hok _ _ Hi0)) as [q0 Hq0].
      destruct (top_refs _ Hok _ _ Hq0) as [_ Hmini].
      destruct (Hmini (refs_pos _ _ _ Hi0)) as [mini Hm0].
      destruct (proj2 (cull_buf _ _ _ _ _ HI) _ _ Hq0) as (q & Hq & E & _).
      assert (Hm : q_trace_mini q = Some mini) by (by rewrite (set_favored_mini q0 q)).
      rewrite Hq. simpl. rewrite Hm. simpl. apply IH. by apply cull_take_inv.
    + apply IH. by apply cull_skip_inv.
  - apply IH, cull_skip_inv; [done|]. intros [p Hp]. congruence.
  - apply IH, cull_skip_inv; [done|]. intros [p Hp]. congruence.
Qed.

(** What the last loop of [cull_queue] does to one entry. *)
Definition marked (first_cycle : bool) (targets i : Z) (q : queue_entry) : queue_entry :=
  let q := if q_disabled q then q else mark_as_redundant (negb (q_favored q)) q in
  if first_cycle && (i <? targets) then set_favored true (renew q) else q.

Lemma mark_as_redundant_eq s q : mark_as_redundant s q = set_redundant s q.
Proof.
  unfold mark_as_redundant. case_bool_decide as H; [|done]. subst s. by destruct q.
Qed.

Lemma set_favored_true q : q_favored q = true -> set_favored true q = q.
Proof. destruct q; simpl. by intros ->. Qed.

Lemma favs_cons q l : favs (q :: l) = (if q_favored q then 1 else 0) + favs l.
Proof. unfold favs. simpl. destruct (q_favored q); simpl; lia. Qed.

Lemma pending_cons q l :
  pending (q :: l) = (if q_favored q && negb (q_was_fuzzed q) then 1 else 0) + pending l.
Proof. unfold pending. simpl. destruct (q_favored q && _); simpl; lia. Qed.

Lemma marked_favored fc t i q :
  q_favored (marked fc t i q) = q_favored q || (fc && (i <? t)).
Proof.
  unfold marked. rewrite mark_as_redundant_eq.
  destruct (fc && (i <? t)); simpl; [by rewrite orb_true_r|].
  rewrite orb_false_r. by destruct (q_disabled q).
Qed.

Lemma cull_marks_spec fc t i l qf pf :
  let '(l', qf', pf') := cull_marks fc t i l qf pf in
  l' = imap (fun k q => marked fc t (i + Z.of_nat k) q) l
  /\ qf' - favs l' = qf - favs l
  /\ pf' - pending l' <= pf - pending l
  /\ (fc = false -> pf' = pf /\ pending l' = pending l).
Proof.
  revert i qf pf. induction l as [|q l IH]; intros i qf pf; simpl; [repeat split; lia|].
  set (q1 := if q_disabled q then q else mark_as_redundant (negb (q_favored q)) q).
  assert (Hq1 : q_favored q = q_favored q1 /\ q_was_fuzzed q = q_was_fuzzed q1)
    by (unfold q1; rewrite mark_as_redundant_eq; by destruct (q_disabled q)).
  destruct Hq1 as [Hf1 Hw1].
  assert (Hm : marked fc t (i + Z.of_nat 0) q
               = if fc && (i <? t) then set_favored true (renew q1) else q1)
    by (unfold marked; by rewrite Z.add_0_r).
  assert (Htl : imap ((fun k q => marked fc t (i + Z.of_nat k) q) ∘ S) l
                = imap (fun k q => marked fc t (i + 1 + Z.of_nat k) q) l)
    by (apply imap_ext; intros k x _; unfold compose; f_equal; lia).
  pose proof (set_favored_true (renew q1)) as Hrn.
  destruct (fc && (i <? t)) eqn:Hc; [destruct (q_favored q1) eqn:Hf|]; cbv beta iota;
    match goal with |- context [cull_marks fc t (i + 1) l ?x ?y] =>
      specialize (IH (i + 1) x y); destruct (cull_marks fc t (i + 1) l x y) as [[l2 qf2] pf2] end;
    destruct IH as (-> & H1 & H2 & H3); rewrite Hm, Htl, !favs_cons, !pending_cons; cbn [q_favored
      q_was_fuzzed set_favored renew]; rewrite ?Hf1, ?Hw1, ?Hf.
  - repeat split; [f_equal; symmetry; by apply Hrn|lia|destruct (q_was_fuzzed q1); simpl; lia| |];
      subst fc; discriminate Hc.
  - repeat split; [lia|simpl; lia| |]; subst fc; discriminate Hc.
  - repeat split; [lia|lia|by apply H3|]. intros. rewrite (proj2 (H3 H)). lia.
Qed.

(** The state [cull_queue] walks over: nothing favored, counters reset. *)
Definition cull_start (a : queue) : queue :=
  set_queue_buf (map (set_favored false) (queue_buf a))
    (set_favored_counts 0 0 (set_score_changed false a)).

Lemma cull_start_ok a : top_ok a -> top_ok (cull_start a).
Proof.
  intros [H1 H2 H3]. split; simpl.
  - done.
  - intros i p Hi. rewrite length_map. by eapply H2.
  - intros p q Hq. apply list_lookup_fmap_Some in Hq as (q0 & -> & Hq). exact (H3 p q0 Hq).
Qed.

Lemma favs_none l : favs (map (set_favored false) l) = 0 /\ pending (map (set_favored false) l) = 0.
Proof. induction l as [|q l [IH1 IH2]]; [done|]. simpl. rewrite favs_cons, pending_cons. simpl. lia. Qed.

Lemma cull_start_inv a len :
  cull_inv (cull_start a) 0 len (replicate len 255) (cull_start a).
Proof.
  destruct (favs_none (queue_buf a)) as [Hf Hp].
  split; [done|apply same_but_favored_refl|done| |lia| |done].
  - intros j Hj. by rewrite bit_set_full.
  - intros p q Hq Hfq. simpl in Hq. apply list_lookup_fmap_Some in Hq as (q0 & -> & _).
    discriminate Hfq.
Qed.

(** [cull_queue] as the walk followed by the marks. *)
Lemma cull_queue_run fsrv a :
  top_ok a -> score_changed a = true -> 0 <= map_size fsrv ->
  exists a1 temp_v,
    cull_inv (cull_start a) (Z.to_nat (map_size fsrv)) (Z.to_nat (map_size fsrv ≫ 3)) temp_v a1
    /\ let '(l, qf, pf) := cull_marks (negb (firstCycleDone a)) (amountOfTargets a) 0 (queue_buf a1)
          (queued_favored a1) (pending_favored a1) in
       cull_queue fsrv false a = Some (set_favored_counts qf pf (set_queue_buf l a1)).
Proof.
  intros Hok Hsc Hm.
  destruct (cull_loop_spec (cull_start a) (Z.to_nat (map_size fsrv ≫ 3)) (Z.to_nat (map_size fsrv)) 0
    (replicate (Z.to_nat (map_size fsrv ≫ 3)) 255) (cull_start a)) as (a1 & tv & H1 & H2).
  { by apply cull_start_ok. } { apply cull_start_inv. }
  exists a1, tv. split; [done|]. unfold cull_queue. rewrite Hsc.
  change (negb true || false) with false. cbv beta iota zeta.
  match goal with |- context [cull_loop ?n ?i ?t ?x] =>
    change (cull_loop n i t x) with (cull_loop n i t (cull_start a)) end.
  rewrite H1. cbn [mbind option_bind].
  pose proof (cull_rest _ _ _ _ _ H2) as Hr.
  assert (Hfc : firstCycleDone a1 = firstCycleDone a) by (apply (f_equal firstCycleDone) in Hr; exact Hr).
  assert (Hat : amountOfTargets a1 = amountOfTargets a) by (apply (f_equal amountOfTargets) in Hr; exact Hr).
  rewrite Hfc, Hat.
  by destruct (cull_marks _ _ _ _ _ _) as [[l qf] pf].
Qed.

Lemma marked_mini fc t i q : q_trace_mini (marked fc t i q) = q_trace_mini q.
Proof.
  unfold marked. rewrite mark_as_redundant_eq. by destruct (q_disabled q), (fc && (i <? t)).
Qed.

Lemma marked_redundant t i q :
  q_disabled q = false ->
  q_fs_redundant (marked false t i q) = negb (q_favored (marked false t i q)).
Proof. intros H. unfold marked. rewrite mark_as_redundant_eq, H. done. Qed.

Lemma marked_later fc t i q : fc && (i <? t) = false -> marked fc t i q = marked false t i q.
Proof. intros H. unfold marked. by rewrite H. Qed.

Lemma marked_disabled fc t i q : q_disabled (marked fc t i q) = q_disabled q.
Proof.
  unfold marked. rewrite mark_as_redundant_eq.
  destruct (fc && (i <? t)), (q_disabled q) eqn:E; simpl; by rewrite ?E.
Qed.

Definition marked_all (fc : bool) (t : Z) (l : list queue_entry) : list queue_entry :=
  imap (fun k q => marked fc t (0 + Z.of_nat k) q) l.

Lemma marked_all_lookup fc t l p q' :
  marked_all fc t l !! p = Some q' <-> exists q, l !! p = Some q /\ q' = marked fc t (0 + Z.of_nat p) q.
Proof.
  unfold marked_all. rewrite list_lookup_imap. split.
  - intros H. destruct (l !! p) as [q|]; simplify_eq/=. by exists q.
  - by intros (q & -> & ->).
Qed.

Lemma covered_marked fc t l j : covered l j -> covered (marked_all fc t l) j.
Proof.
  intros (p & q & mini & Hq & Hf & Hm & Hb). exists p, (marked fc t (0 + Z.of_nat p) q), mini.
  rewrite marked_all_lookup, marked_favored, marked_mini, Hf.
  repeat split; [by exists q|done..].
Qed.

(** What [cull_queue] promises of the state it leaves. *)
Record culled (a a' : queue) : Prop := {
  culled_top : top_rated a' = top_rated a;
  culled_score : score_changed a' = false;
  (* every byte of the map that some entry reaches is reached by a favored one *)
  culled_cover : forall j p, top_rated a' !! j = Some (Some p) ->
    covered (queue_buf a') j \/ exists q, queue_buf a' !! p = Some q /\ q_favored q = true;
  (* only holders are favored, and the seeds of the first cycle *)
  culled_hold : forall p q, queue_buf a' !! p = Some q -> q_favored q = true ->
    (exists j, top_rated a !! j = Some (Some p))
    \/ (firstCycleDone a = false /\ Z.of_nat p < amountOfTargets a);
  culled_seeds : forall p q, firstCycleDone a = false -> Z.of_nat p < amountOfTargets a ->
    queue_buf a' !! p = Some q ->
    q_favored q = true /\ q_was_fuzzed q = false /\ q_fuzz_level q = 0;
  culled_queued : queued_favored a' = favs (queue_buf a');
  culled_pending : pending_favored a' <= pending (queue_buf a');
  culled_pending_exact : firstCycleDone a = true -> pending_favored a' = pending (queue_buf a');
  culled_redundant : forall p q, firstCycleDone a = true \/ amountOfTargets a <= Z.of_nat p -> queue_buf a' !! p = Some q ->
    q_disabled q = false -> q_fs_redundant q = negb (q_favored q);
}.

(** C7: [cull_queue] never reads a missing packed trace, and leaves a queue in which every
    byte some entry holds is reached by a favored entry; only holders and, during the first
    cycle, the seeds are favored; [queued_favored] counts the favored entries.  Once the first
    cycle is over, [pending_favored] counts the favored entries not fuzzed yet and every enabled
    entry is marked redundant iff it is not favored.  Before, [pending_favored] is never more
    than that count (the seeds are put back to unfuzzed without being counted), and the marks
    are right for the entries behind the seeds. *)
Theorem cull_queue_correct fsrv a :
  top_ok a -> score_changed a = true -> 0 <= map_size fsrv -> map_size fsrv mod 8 = 0 ->
  length (top_rated a) = Z.to_nat (map_size fsrv) ->
  exists a', cull_queue fsrv false a = Some a' /\ culled a a'.
Proof.
  intros Hok Hsc Hm H8 Hlen.
  destruct (cull_queue_run fsrv a Hok Hsc Hm) as (a1 & tv & [Ht Hb Hr Hv Hd Hh [Hq Hp]] & Hrun).
  pose proof (cull_marks_spec (negb (firstCycleDone a)) (amountOfTargets a) 0 (queue_buf a1)
    (queued_favored a1) (pending_favored a1)) as Hs.
  destruct (cull_marks _ _ _ _ _ _) as [[l qf] pf]. destruct Hs as (Hl & H1 & H2 & H3).
  fold (marked_all (negb (firstCycleDone a)) (amountOfTargets a) (queue_buf a1)) in Hl. subst l.
  eexists. split; [exact Hrun|]. split; simpl in *.
  - done.
  - apply (f_equal score_changed) in Hr. exact Hr.
  - intros j p Hj. assert (Hjl := lookup_lt_Some _ _ _ Hj). rewrite Ht, Hlen in Hjl.
    rewrite Z.shiftr_div_pow2 in Hd by lia. change (2 ^ 3) with 8 in Hd.
    pose proof (Z.div_mod (map_size fsrv) 8).
    destruct (Hd j p) as [Hc|(q & Hq' & Hf)]; [lia|lia|done| |].
    + left. by apply covered_marked.
    + right. exists (marked (negb (firstCycleDone a)) (amountOfTargets a) (0 + Z.of_nat p) q).
      rewrite marked_all_lookup, marked_favored, Hf. split; [by exists q|done].
  - intros p q' Hq'. apply marked_all_lookup in Hq' as (q & Hq' & ->). rewrite marked_favored.
    intros [Hf|Hf]%orb_true_iff; [left|right].
    + destruct (Hh _ _ Hq' Hf) as [j Hj]. exists j. by rewrite <- Ht.
    + apply andb_true_iff in Hf as [Hf ?%Z.ltb_lt]. apply negb_true_iff in Hf. auto.
  - intros p q' Hfc Hlt Hq'. apply marked_all_lookup in Hq' as (q & Hq' & ->).
    unfold marked. rewrite Hfc, (proj2 (Z.ltb_lt _ _)) by lia. done.
  - lia.
  - lia.
  - intros Hfc. rewrite Hfc in *. destruct (H3 eq_refl) as [-> E]. simpl in E |- *. unfold negb. lia.
  - intros p q' Hfc Hq'. apply marked_all_lookup in Hq' as (q & Hq' & ->). rewrite marked_disabled.
    rewrite marked_later by (destruct Hfc as [-> |Hfc]; [done|apply andb_false_iff; right; lia]). apply marked_redundant.
Qed.

(** ** Reachable queues *)

Lemma top_ok_same a a' :
  top_rated a' = top_rated a -> length (queue_buf a') = length (queue_buf a) ->
  (forall p q', queue_buf a' !! p = Some q' ->
    exists q, queue_buf a !! p = Some q /\ q_tc_ref q' = q_tc_ref q /\ q_trace_mini q' = q_trace_mini q) ->
  top_ok a -> top_ok a'.
Proof.
  intros Ht Hl Hq [H1 H2 H3]. split; rewrite ?Ht, ?Hl; [done..|].
  intros p q' Hq'. destruct (Hq p q' Hq') as (q & Hp & -> & ->). by apply H3.
Qed.

Lemma alter_same (f : queue_entry -> queue_entry) (k : nat) (l : list queue_entry) :
  (forall q, q_tc_ref (f q) = q_tc_ref q /\ q_trace_mini (f q) = q_trace_mini q) ->
  forall (p : nat) q', alter f k l !! p = Some q' ->
  exists q, l !! p = Some q /\ q_tc_ref q' = q_tc_ref q /\ q_trace_mini q' = q_trace_mini q.
Proof.
  intros Hf p q' Hq'. destruct (decide (k = p)) as [->|].
  - rewrite list_lookup_alter_eq in Hq'. destruct (l !! p) as [q|]; simplify_eq/=. exists q.
    split; [done|]. apply Hf.
  - rewrite list_lookup_alter_ne in Hq' by done. by exists q'.
Qed.

Lemma refs_zero p t : (forall i, t !! i <> Some (Some p)) -> refs p t = 0.
Proof.
  intros H. unfold refs. destruct (filter _ t) as [|x l] eqn:E; [done|].
  assert (Hx : x ∈ filter (fun o => o = Some p) t) by (rewrite E; apply list_elem_of_here).
  apply list_elem_of_filter in Hx as [-> [i Hi]%list_elem_of_lookup_1]. by destruct (H i).
Qed.

Lemma add_to_queue_ok len det f a : top_ok a -> top_ok (add_to_queue len det f a).
Proof.
  intros [H1 H2 H3]. split; simpl.
  - done.
  - intros i p Hi. rewrite length_app. simpl. pose proof (H2 i p Hi). lia.
  - intros p q [Hq|[Hp Hq]]%lookup_app_Some; [by apply H3|].
    apply list_lookup_singleton_Some in Hq as [Hp0 <-]. simpl.
    assert (Hz : refs p (top_rated a) = 0) by (apply refs_zero; intros i Hi; pose proof (H2 i p Hi); lia).
    rewrite Hz. split; [done|lia].
Qed.

Lemma add_favored_to_queue_ok len det f a : top_ok a -> top_ok (add_favored_to_queue len det f a).
Proof.
  intros H. apply (add_to_queue_ok len det f) in H. revert H. apply top_ok_same; [done| |].
  - apply length_alter.
  - by apply alter_same.
Qed.

Lemma update_bitmap_score_ok fsrv k a :
  (length (trace_bits fsrv) <= length (top_rated a))%nat -> top_ok a -> top_ok (update_bitmap_score fsrv k a).
Proof.
  intros Hl Hok. unfold update_bitmap_score. destruct (queue_buf a !! k) as [q|] eqn:Hq; [|done].
  apply score_loop_spec; [done|by eapply lookup_lt_Some|rewrite length_take; lia].
Qed.

Lemma abandon_entry_ok s c k a : top_ok a -> top_ok (abandon_entry s c k a).1.
Proof.
  unfold abandon_entry. destruct (queue_buf a !! k) as [q|]; [|done].
  intros H. destruct (_ && negb (q_disabled q)); simpl.
  - eapply (top_ok_same (set_queue_buf (alter set_was_fuzzed k (queue_buf a)) a)); [done|apply length_alter| |].
    + by apply alter_same.
    + revert H. apply top_ok_same; [done|apply length_alter|by apply alter_same].
  - revert H. apply top_ok_same; [done|apply length_alter|by apply alter_same].
Qed.

Lemma marked_ref fc t i q : q_tc_ref (marked fc t i q) = q_tc_ref q.
Proof.
  unfold marked. rewrite mark_as_redundant_eq. by destruct (q_disabled q), (fc && (i <? t)).
Qed.

Lemma same_but_favored_rev l l' p q' :
  same_but_favored l l' -> l' !! p = Some q' ->
  exists q, l !! p = Some q /\ q_tc_ref q' = q_tc_ref q /\ q_trace_mini q' = q_trace_mini q.
Proof.
  intros [Hl H] Hq'. assert (Hp := lookup_lt_Some _ _ _ Hq'). rewrite Hl in Hp.
  destruct (lookup_lt_is_Some_2 _ _ Hp) as [q Hq]. destruct (H p q Hq) as (q2 & Hq2 & E & _).
  rewrite Hq' in Hq2. injection Hq2 as <-. exists q. split; [done|]. split.
  - apply (f_equal q_tc_ref) in E. exact E.
  - apply (f_equal q_trace_mini) in E. exact E.
Qed.

Lemma cull_queue_ok fsrv n a a' :
  top_ok a -> 0 <= map_size fsrv -> cull_queue fsrv n a = Some a' -> top_ok a'.
Proof.
  intros Hok Hm Hc. destruct (score_changed a) eqn:Hsc; [destruct n|];
    [unfold cull_queue in Hc; rewrite orb_true_r in Hc; by simplify_eq/=| |
     unfold cull_queue in Hc; rewrite Hsc in Hc; by simplify_eq/=].
  destruct (cull_queue_run fsrv a Hok Hsc Hm) as (a1 & tv & [Ht Hb _ _ _ _ _] & Hrun).
  pose proof (cull_marks_spec (negb (firstCycleDone a)) (amountOfTargets a) 0 (queue_buf a1)
    (queued_favored a1) (pending_favored a1)) as Hs.
  destruct (cull_marks _ _ _ _ _ _) as [[l qf] pf]. destruct Hs as (-> & _).
  rewrite Hrun in Hc. simplify_eq.
  fold (marked_all (negb (firstCycleDone a)) (amountOfTargets a) (queue_buf a1)).
  eapply (top_ok_same a1); simpl.
  - done.
  - unfold marked_all. apply length_imap.
  - intros p q' (q & Hq & ->)%marked_all_lookup. exists q. by rewrite marked_ref, marked_mini.
  - eapply (top_ok_same (cull_start a)); [done|apply Hb| |by apply cull_start_ok].
    intros p q'. by apply same_but_favored_rev.
Qed.

(** The operations on the queue, as the fuzzer interleaves them. *)
Inductive queue_step (fsrv : afl_forkserver_t) : queue -> queue -> Prop :=
| step_add len det f a : queue_step fsrv a (add_to_queue len det f a)
| step_add_favored len det f a : queue_step fsrv a (add_favored_to_queue len det f a)
| step_score trace k a :
    length trace = length (top_rated a) ->
    queue_step fsrv a
      (update_bitmap_score {| trace_bits := trace; map_size := map_size fsrv;
                              real_map_size := real_map_size fsrv |} k a)
| step_cull n a a' : cull_queue fsrv n a = Some a' -> queue_step fsrv a a'
| step_abandon s c k a : queue_step fsrv a (abandon_entry s c k a).1.

(** The queue before the first entry is added. *)
Definition queue_init (map_sz : Z) (sched : Z) (fixed : bool) (targets : list bool) : queue :=
  Queue [] (replicate (Z.to_nat map_sz) None) [] sched fixed false 0 0 0 0 0 0 0
    (replicate (length targets) 0) (Z.of_nat (length targets)) false.

Lemma queue_init_ok sz sched fixed ts : sz < 2 ^ 32 -> top_ok (queue_init sz sched fixed ts).
Proof.
  intros Hsz. split; simpl.
  - rewrite length_replicate. lia.
  - intros i p [? _]%lookup_replicate. discriminate.
  - intros p q Hq. by rewrite lookup_nil in Hq.
Qed.

Lemma score_loop_top_length k p2 ff mini i trace a :
  length (top_rated (score_loop k p2 ff mini i trace a)) = length (top_rated a).
Proof.
  revert i a. induction trace as [|b trace IH]; intros i a; simpl; [done|]. rewrite IH.
  destruct (b =? 0); [done|]. unfold score_byte, win_byte.
  repeat case_match; simpl; by rewrite ?length_insert.
Qed.

Lemma cull_queue_top fsrv n a a' : cull_queue fsrv n a = Some a' -> top_rated a' = top_rated a.
Proof.
  assert (Hloop : forall m i tv b b', cull_loop m i tv b = Some b' -> top_rated b' = top_rated b).
  { induction m as [|m IH]; intros i tv b b' H; simpl in H; [by simplify_eq|].
    destruct (top_rated b !! i) as [[p|]|]; [|by eapply IH..].
    destruct (bit_set tv i); [|by eapply IH].
    destruct (queue_buf b !! p) as [q|]; simplify_eq/=.
    destruct (q_trace_mini q); simplify_eq/=. apply IH in H as ->. by case_match. }
  unfold cull_queue. case_match; [by intros; simplify_eq|].
  destruct (cull_loop _ _ _ _) as [b|] eqn:E; [|done]. apply Hloop in E. simpl.
  destruct (cull_marks _ _ _ _ _ _) as [[l qf] pf]. intros [= <-]. exact E.
Qed.

Lemma abandon_entry_top s c k a : top_rated (abandon_entry s c k a).1 = top_rated a.
Proof. unfold abandon_entry. destruct (queue_buf a !! k) as [q|]; [|done]. by destruct (_ && negb (q_disabled q)). Qed.

Lemma queue_step_ok fsrv a a' :
  0 <= map_size fsrv -> queue_step fsrv a a' -> top_ok a ->
  top_ok a' /\ length (top_rated a') = length (top_rated a).
Proof.
  intros Hm. destruct 1 as [len det f a|len det f a|trace k a Hl|n a a' Hc|s c k a]; intros Hok.
  - split; [by apply add_to_queue_ok|done].
  - split; [by apply add_favored_to_queue_ok|done].
  - split; [apply update_bitmap_score_ok; [simpl; lia|done]|].
    unfold update_bitmap_score. case_match; [apply score_loop_top_length|done].
  - split; [by eapply cull_queue_ok|]. by rewrite (cull_queue_top _ _ _ _ Hc).
  - split; [by apply abandon_entry_ok|]. by rewrite abandon_entry_top.
Qed.

(** C30: in every queue the fuzzer can reach from the empty one by adding entries, scoring
    them against traces, culling and finishing entries in any order, the holders of the
    bytes are queue entries, the reference counts are exact and holders keep their packed
    trace, so that a further [cull_queue] finds every trace it needs. *)
Theorem reachable_queue_ok fsrv sched fixed ts a :
  0 <= map_size fsrv < 2 ^ 32 ->
  rtc (queue_step fsrv) (queue_init (map_size fsrv) sched fixed ts) a ->
  top_ok a /\ forall n, is_Some (cull_queue fsrv n a).
Proof.
  intros Hm Hr.
  assert (Hok : top_ok a).
  { assert (Hi := queue_init_ok (map_size fsrv) sched fixed ts ltac:(lia)).
    revert Hi. induction Hr as [|b b' c Hs _ IH]; [done|]. intros Hi. apply IH.
    apply (queue_step_ok fsrv b b'); [lia|done..]. }
  split; [done|]. intros n. destruct (score_changed a) eqn:Hsc; [destruct n|].
  - unfold cull_queue. rewrite orb_true_r. eauto.
  - destruct (cull_queue_run fsrv a Hok Hsc ltac:(lia)) as (a1 & tv & _ & Hrun).
    destruct (cull_marks _ _ _ _ _ _) as [[l qf] pf]. rewrite Hrun. eauto.
  - unfold cull_queue. rewrite Hsc. simpl. eauto.
Qed.

(** Two seeds of two targets; the first, fast one reaches both bytes. *)
Definition sample_fsrv : afl_forkserver_t :=
  {| trace_bits := replicate 64 1; map_size := 64; real_map_size := 64 |}.
Definition sample_start : queue := queue_init 64 EXPLORE false [true; true].
Definition sample_two : queue := add_to_queue 4 false 1 (add_to_queue 3 false 0 sample_start).
Definition sample_scored : queue :=
  update_bitmap_score sample_fsrv 1 (update_bitmap_score sample_fsrv 0 sample_two).

Lemma sample_scored_ok : top_ok sample_scored.
Proof.
  unfold sample_scored. do 2 (apply update_bitmap_score_ok; [vm_compute; lia|]).
  unfold sample_two. do 2 apply add_to_queue_ok. by apply queue_init_ok.
Qed.

Lemma cull_queue_correct_witness :
  exists a', cull_queue sample_fsrv false sample_scored = Some a' /\ culled sample_scored a'.
Proof.
  apply (cull_queue_correct sample_fsrv sample_scored).
  - exact sample_scored_ok.
  - vm_compute. reflexivity.
  - vm_compute. discriminate.
  - vm_compute. reflexivity.
  - vm_compute. reflexivity.
Defined.

Lemma reachable_queue_ok_witness :
  is_Some (cull_queue sample_fsrv false
    (add_to_queue 5 true 1 (update_bitmap_score sample_fsrv 0 sample_two))).
Proof.
  refine (proj2 (reachable_queue_ok sample_fsrv EXPLORE false [true; true] _ _ _) false).
  - vm_compute. split; [discriminate|reflexivity].
  - eapply rtc_l; [apply step_add|]. eapply rtc_l; [apply step_add|].
    eapply rtc_l; [apply (step_score sample_fsrv (replicate 64 1) 0); vm_compute; reflexivity|].
    eapply rtc_l; [apply step_add|]. apply rtc_refl.
Defined.

(** ** Pending counters *)

(** Entries not fuzzed yet. *)
Definition unfuzzed (l : list queue_entry) : Z :=
  Z.of_nat (length (List.filter (fun q => negb (q_was_fuzzed q)) l)).

Lemma unfuzzed_cons q l : unfuzzed (q :: l) = (if q_was_fuzzed q then 0 else 1) + unfuzzed l.
Proof. unfold unfuzzed. simpl. destruct (q_was_fuzzed q); simpl; lia. Qed.

Lemma counts_alter (g : queue_entry -> queue_entry) (k : nat) (l : list queue_entry) q :
  l !! k = Some q ->
  unfuzzed (alter g k l) = unfuzzed l + (if q_was_fuzzed (g q) then 0 else 1) - (if q_was_fuzzed q then 0 else 1)
  /\ pending (alter g k l) = pending l
       + (if q_favored (g q) && negb (q_was_fuzzed (g q)) then 1 else 0)
       - (if q_favored q && negb (q_was_fuzzed q) then 1 else 0).
Proof.
  revert k. induction l as [|x l IH]; intros [|k] Hk; simplify_eq/=.
  - rewrite !unfuzzed_cons, !pending_cons. lia.
  - specialize (IH k Hk). unfold alter, list_alter in *. rewrite !unfuzzed_cons, !pending_cons. lia.
Qed.

Lemma counts_bounds (k : nat) (l : list queue_entry) q :
  l !! k = Some q ->
  (if q_was_fuzzed q then 0 else 1) <= unfuzzed l <= Z.of_nat (length l)
  /\ (if q_favored q && negb (q_was_fuzzed q) then 1 else 0) <= pending l <= Z.of_nat (length l).
Proof.
  assert (Hu : forall l, 0 <= unfuzzed l <= Z.of_nat (length l) /\ 0 <= pending l <= Z.of_nat (length l)).
  { clear. induction l as [|x l IH]; [done|]. rewrite unfuzzed_cons, pending_cons. cbn [length].
    destruct (q_was_fuzzed x), (q_favored x); simpl; lia. }
  revert k. induction l as [|x l IH]; intros [|k] Hk; simplify_eq/=;
    rewrite unfuzzed_cons, pending_cons.
  - specialize (Hu l). destruct (q_was_fuzzed q), (q_favored q); simpl; lia.
  - specialize (IH k Hk). destruct (q_was_fuzzed x), (q_favored x); simpl; lia.
Qed.

Lemma alter_alter (f g : queue_entry -> queue_entry) (k : nat) (l : list queue_entry) :
  alter (f ∘ g) k l = alter f k (alter g k l).
Proof.
  revert k. induction l as [|x l IH]; intros [|k]; try done.
  change (x :: alter (f ∘ g) k l = x :: alter f k (alter g k l)). by rewrite IH.
Qed.

(** The pending counters agree with the entries. *)
Definition counters_ok (a : queue) : Prop :=
  pending_not_fuzzed a = unfuzzed (queue_buf a) /\ pending_favored a = pending (queue_buf a).

(** Finishing an entry keeps both pending counters exact: an entry that is fuzzed for
    the first time leaves them (unless the run is stopped, calibration failed or the entry
    is disabled), and its fuzz level goes up in every case. *)
Theorem abandon_entry_counters s c k q a :
  counters_ok a -> queue_buf a !! k = Some q ->
  Z.of_nat (length (queue_buf a)) < 2 ^ 32 ->
  let (a', reinit) := abandon_entry s c k a in
  counters_ok a' /\
  exists q', queue_buf a' !! k = Some q' /\ q_fuzz_level q' = u32 (q_fuzz_level q + 1)
    /\ q_was_fuzzed q' = q_was_fuzzed q || reinit
    /\ reinit = negb s && negb c && negb (q_was_fuzzed q) && negb (q_disabled q).
Proof.
  intros [Hn Hp] Hq Hlen. unfold abandon_entry. rewrite Hq.
  destruct (negb s && negb c && negb (q_was_fuzzed q) && negb (q_disabled q)) eqn:Hc; simpl.
  - apply andb_true_iff in Hc as [[_ Hw]%andb_true_iff Hd]. apply negb_true_iff in Hw.
    rewrite <- !alter_alter.
    destruct (counts_alter (bump_fuzz_level ∘ set_was_fuzzed) k _ _ Hq) as [E1 E2].
    destruct (counts_bounds _ _ _ Hq) as [B1 B2]. simpl in E1, E2. rewrite Hw in *. simpl in *.
    split.
    + split; simpl; [rewrite E1, Hn, u32_id; lia|].
      rewrite E2, Hp, andb_false_r, andb_true_r in *.
      destruct (q_favored q); [rewrite u32_id; lia|lia].
    + eexists. split; [by rewrite list_lookup_alter_eq, Hq|]. done.
  - destruct (counts_alter bump_fuzz_level k _ _ Hq) as [E1 E2]. simpl in E1, E2.
    split; [split; simpl; lia|]. eexists. split; [by rewrite list_lookup_alter_eq, Hq|].
    simpl. by rewrite orb_false_r.
Qed.

Lemma abandon_entry_counters_witness :
  counters_ok sample_two /\
  counters_ok (abandon_entry false false 0 sample_two).1.
Proof.
  assert (H : counters_ok sample_two) by (split; reflexivity). split; [exact H|].
  refine (proj1 (abandon_entry_counters false false 0
    (QEntry 0 3 0 0 0 1 false 0 None false false false false) sample_two H _ _)).
  - reflexivity.
  - vm_compute. reflexivity.
Defined.

(** A run of the first cycle: two seeds are scored and culled, both are fuzzed, the second
    is scored again and the queue culled again (which puts the seeds back to unfuzzed), and
    both are fuzzed once more. *)
Definition first_cycle_run : option queue :=
  a ← cull_queue sample_fsrv false sample_scored;
  let a := (abandon_entry false false 1 (abandon_entry false false 0 a).1).1 in
  a ← cull_queue sample_fsrv false (update_bitmap_score sample_fsrv 1 a);
  Some (abandon_entry false false 0 (abandon_entry false false 1 a).1).1.

Lemma step_rescore fsrv k a :
  length (trace_bits fsrv) = length (top_rated a) -> queue_step fsrv a (update_bitmap_score fsrv k a).
Proof. destruct fsrv as [tr ms rs]. apply step_score. Qed.

Lemma sample_scored_reach : rtc (queue_step sample_fsrv) sample_start sample_scored.
Proof.
  unfold sample_scored, sample_two. 
  eapply rtc_l; [apply (step_add _ 3 false 0)|]. eapply rtc_l; [apply (step_add _ 4 false 1)|].
  eapply rtc_l; [apply (step_rescore sample_fsrv 0); vm_compute; reflexivity|].
  eapply rtc_l; [apply (step_rescore sample_fsrv 1); vm_compute; reflexivity|].
  apply rtc_refl.
Qed.

Lemma first_cycle_reach a :
  first_cycle_run = Some a -> rtc (queue_step sample_fsrv) sample_start a.
Proof.
  unfold first_cycle_run. intros E.
  destruct (cull_queue sample_fsrv false sample_scored) as [a1|] eqn:E1; [|discriminate E].
  cbn [mbind option_bind] in E.
  destruct (cull_queue _ _ (update_bitmap_score _ _ _)) as [a2|] eqn:E2; [|discriminate E].
  cbn [mbind option_bind] in E. injection E as <-.
  transitivity sample_scored; [exact sample_scored_reach|].
  apply (rtc_l _ _ a1); [exact (step_cull _ false _ _ E1)|].
  eapply rtc_l; [apply (step_abandon _ false false 0)|]. eapply rtc_l; [apply (step_abandon _ false false 1)|].
  eapply rtc_l; [apply (step_rescore sample_fsrv 1)|].
  { rewrite !abandon_entry_top, (cull_queue_top _ _ _ _ E1). vm_compute. reflexivity. }
  apply (rtc_l _ _ a2); [exact (step_cull _ false _ _ E2)|].
  eapply rtc_l; [apply (step_abandon _ false false 1)|]. eapply rtc_l; [apply (step_abandon _ false false 0)|].
  apply rtc_refl.
Qed.

Lemma first_cycle_counts :
  (fun a => (pending_not_fuzzed a, pending_favored a)) <$> first_cycle_run
  = Some (2 ^ 32 - 2, 2 ^ 32 - 1).
Proof. vm_compute. reflexivity. Qed.

(** During the first cycle the pending counters are not exact.  [cull_queue] puts the
    seeds back to unfuzzed without counting them again, so a reachable run takes both
    32-bit counters below zero. *)
Theorem first_cycle_counters_wrap :
  exists a, rtc (queue_step sample_fsrv) sample_start a
    /\ first_cycle_run = Some a
    /\ pending_not_fuzzed a = 2 ^ 32 - 2 /\ pending_favored a = 2 ^ 32 - 1.
Proof.
  pose proof first_cycle_counts as H. pose proof first_cycle_reach as Hr.
  destruct first_cycle_run as [a|]; [|discriminate H].
  cbn [fmap option_fmap option_map] in H. injection H as H1 H2.
  exists a. split; [by apply Hr|]. split; [reflexivity|]. split; assumption.
Qed.

(** ** The walk over the targets *)

Lemma cycleTarget_run active fuel t d :
  0 <= t < Z.of_nat (length active) -> 0 < d <= Z.of_nat fuel ->
  active !! Z.to_nat ((t + d) `mod` Z.of_nat (length active)) = Some true ->
  exists e, 0 < e <= d
    /\ cycleTarget fuel active t = Some ((t + e) `mod` Z.of_nat (length active))
    /\ active !! Z.to_nat ((t + e) `mod` Z.of_nat (length active)) = Some true
    /\ forall e', 0 < e' < e -> active !! Z.to_nat ((t + e') `mod` Z.of_nat (length active)) = Some false.
Proof.
  set (n := Z.of_nat (length active)).
  revert t d. induction fuel as [|fuel IH]; intros t d Ht Hd Ha; [lia|]. simpl. fold n.
  pose proof (Z.mod_pos_bound (t + 1) n ltac:(lia)) as Hb.
  destruct (lookup_lt_is_Some_2 active (Z.to_nat ((t + 1) `mod` n))) as [x Hx]; [lia|].
  rewrite Hx. destruct x; simpl.
  { exists 1. repeat split; [lia..|done|lia]. }
  assert (d <> 1) by (intros ->; congruence).
  assert (Hadd : forall e, ((t + 1) `mod` n + e) `mod` n = (t + (1 + e)) `mod` n)
    by (intros e; rewrite Zplus_mod_idemp_l; f_equal; lia).
  destruct (IH ((t + 1) `mod` n) (d - 1)) as (e & He & Hr & Hae & Hne); [lia|lia| |].
  { rewrite Hadd. replace (1 + (d - 1)) with d by lia. done. }
  rewrite Hadd in Hr, Hae. exists (1 + e). repeat split; [lia..|done|done|].
  intros e' He'. destruct (decide (e' = 1)) as [->|]; [done|].
  replace e' with (1 + (e' - 1)) by lia. rewrite <- Hadd. apply Hne. lia.
Qed.

(** The distance from [t] to [j], going up and around. *)
Lemma around n t j : 0 <= t < n -> 0 <= j < n -> exists d, 0 < d <= n /\ (t + d) `mod` n = j.
Proof.
  intros Ht Hj. destruct (decide (t < j)).
  - exists (j - t). split; [lia|]. replace (t + (j - t)) with j by lia. by apply Z.mod_small.
  - exists (j - t + n). split; [lia|]. replace (t + (j - t + n)) with (j + 1 * n) by lia.
    rewrite Z.mod_add by lia. by apply Z.mod_small.
Qed.

(** As long as one target is active, [cycleTarget] terminates within one round over the
    targets and stops at the first active one after the current. *)
Theorem cycleTarget_next active t j :
  0 <= t < Z.of_nat (length active) -> active !! j = Some true ->
  exists e, 0 < e <= Z.of_nat (length active)
    /\ cycleTarget (length active) active t = Some ((t + e) `mod` Z.of_nat (length active))
    /\ active !! Z.to_nat ((t + e) `mod` Z.of_nat (length active)) = Some true
    /\ forall e', 0 < e' < e -> active !! Z.to_nat ((t + e') `mod` Z.of_nat (length active)) = Some false.
Proof.
  intros Ht Hj. assert (Hl := lookup_lt_Some _ _ _ Hj).
  destruct (around (Z.of_nat (length active)) t (Z.of_nat j)) as (d & Hd & E); [lia|lia|].
  destruct (cycleTarget_run active (length active) t d) as (e & He & H); [lia|lia| |].
  { by rewrite E, Nat2Z.id. }
  exists e. split; [lia|done].
Qed.

Lemma cycleTarget_next_witness :
  exists e, 0 < e <= 3
    /\ cycleTarget 3 [false; true; true] 2 = Some ((2 + e) `mod` 3)
    /\ [false; true; true] !! Z.to_nat ((2 + e) `mod` 3) = Some true
    /\ forall e', 0 < e' < e -> [false; true; true] !! Z.to_nat ((2 + e') `mod` 3) = Some false.
Proof. apply (cycleTarget_next [false; true; true] 2 1); [simpl; lia|reflexivity]. Defined.

(** Successive calls of the selection; each is given what its calls of [time] return. *)
Fixpoint walk_calls (active : list bool) (ts : list (Z * Z * Z)) (w : target_walk) : option target_walk :=
  match ts with
  | [] => Some w
  | (t0, t1, t2) :: ts => w ← switch_target (length active) active t0 t1 t2 w; walk_calls active ts w
  end.

(** Every call comes more than a minute after the last switch. *)
Fixpoint due (last : Z) (ts : list (Z * Z * Z)) : Prop :=
  match ts with [] => True | (_, t1, t2) :: ts => 60 < t1 - last /\ due t2 ts end.

Lemma switch_due active last t0 t1 t2 t d :
  60 < t1 - last ->
  switch_target (length active) active t0 t1 t2 (TargetWalk t (Some last) d)
  = next ← cycleTarget (length active) active t;
    Some (TargetWalk next (Some t2) (if next <? t then true else d)).
Proof. intros H. unfold switch_target. simpl. by rewrite (proj2 (Z.ltb_lt _ _) H). Qed.

(** The next target differs from the current one when another one is active. *)
Lemma cycleTarget_other active t (j : nat) :
  0 <= t < Z.of_nat (length active) -> active !! j = Some true -> Z.of_nat j <> t ->
  exists t', cycleTarget (length active) active t = Some t' /\ 0 <= t' < Z.of_nat (length active) /\ t' <> t.
Proof.
  intros Ht Hj Hne. assert (Hl := lookup_lt_Some _ _ _ Hj).
  set (n := Z.of_nat (length active)) in *.
  destruct (around n t (Z.of_nat j)) as (d & Hd & E); [lia|lia|].
  assert (d <> n).
  { intros ->. replace (t + n) with (t + 1 * n) in E by lia.
    rewrite Z.mod_add, Z.mod_small in E by lia. lia. }
  destruct (cycleTarget_run active (length active) t d) as (e & He & Hr & _); [done|lia| |].
  { fold n. by rewrite E, Nat2Z.id. }
  fold n in Hr. exists ((t + e) `mod` n). split; [done|].
  pose proof (Z.mod_pos_bound (t + e) n ltac:(lia)). split; [lia|]. intros Ht'.
  assert (Hmod : e `mod` n = 0).
  { replace e with ((t + e) - t) by lia. rewrite Zminus_mod, Ht', (Z.mod_small t n), Z.sub_diag by lia.
    apply Z.mod_0_l. lia. }
  rewrite Z.mod_small in Hmod; lia.
Qed.

Lemma walk_done_stays active ts last t :
  due last ts -> 0 <= t < Z.of_nat (length active) -> (exists j, active !! j = Some true) ->
  exists w, walk_calls active ts (TargetWalk t (Some last) true) = Some w /\ walk_done w = true.
Proof.
  revert last t. induction ts as [|[[t0 t1] t2] ts IH]; intros last t Hdue Ht [j Hj]; simpl; [eauto|].
  destruct Hdue as [Hd Hdue]. assert (Hl := lookup_lt_Some _ _ _ Hj).
  destruct (around (Z.of_nat (length active)) t (Z.of_nat j)) as (d & Hdd & E); [lia|lia|].
  destruct (cycleTarget_run active (length active) t d) as (e & He & Hr & _); [done|lia| |].
  { by rewrite E, Nat2Z.id. }
  rewrite switch_due, Hr by done. simpl. rewrite Tauto.if_same. apply IH; [done| |eauto].
  apply Z.mod_pos_bound. lia.
Qed.

Lemma walk_ends active ts last t (i j : nat) :
  active !! i = Some true -> active !! j = Some true -> i <> j ->
  due last ts -> 0 <= t < Z.of_nat (length active) ->
  Z.of_nat (length active) - t <= Z.of_nat (length ts) ->
  exists w, walk_calls active ts (TargetWalk t (Some last) false) = Some w /\ walk_done w = true.
Proof.
  intros Hi Hj Hij. revert last t. induction ts as [|[[t0 t1] t2] ts IH]; intros last t Hdue Ht Hlen.
  { simpl in Hlen. lia. }
  destruct Hdue as [Hd Hdue]. cbn [length] in Hlen.
  assert (Hot : exists k, active !! k = Some true /\ Z.of_nat k <> t)
    by (destruct (decide (Z.of_nat i = t)); [exists j|exists i]; split; [done|lia|done|lia]).
  destruct Hot as (k & Hk & Hkt). destruct (cycleTarget_other active t k Ht Hk Hkt) as (t' & Hc & Hb & Hne).
  cbn [walk_calls]. rewrite switch_due, Hc by done. cbn [mbind option_bind].
  destruct (Z.ltb_spec t' t).
  - apply walk_done_stays; eauto.
  - apply IH; [done|done|lia].
Qed.

(** With at least two active targets the round over the targets ends: after as many
    switches as there are targets, [firstCycleDone] is set. *)
Theorem target_walk_ends active ts last t (i j : nat) :
  active !! i = Some true -> active !! j = Some true -> i <> j ->
  due last ts -> 0 <= t < Z.of_nat (length active) -> (length active <= length ts)%nat ->
  exists w, walk_calls active ts (TargetWalk t (Some last) false) = Some w /\ walk_done w = true.
Proof. intros Hi Hj Hij Hdue Ht Hl. apply (walk_ends active ts last t i j); [done..|lia]. Qed.

Lemma target_walk_ends_witness :
  exists w, walk_calls [true; false; true] [(61, 61, 61); (122, 122, 122); (183, 183, 183)]
    (TargetWalk 0 (Some 0) false) = Some w /\ walk_done w = true.
Proof.
  apply (target_walk_ends _ _ 0 0 0 2); [reflexivity|reflexivity|lia|simpl; lia|simpl; lia|simpl; lia].
Defined.

(** With a single active target the round never ends: whatever the clock says,
    [firstCycleDone] stays unset, since the next target is never below the current one. *)
Theorem single_target_never_done active ts last (j : nat) :
  active !! j = Some true -> (forall i, active !! i = Some true -> i = j) ->
  exists w, walk_calls active ts (TargetWalk (Z.of_nat j) last false) = Some w
    /\ walk_done w = false /\ nextTarget w = Z.of_nat j.
Proof.
  intros Hj Honly. assert (Hl := lookup_lt_Some _ _ _ Hj).
  assert (Hc : cycleTarget (length active) active (Z.of_nat j) = Some (Z.of_nat j)).
  { destruct (around (Z.of_nat (length active)) (Z.of_nat j) (Z.of_nat j)) as (d & Hd & E); [lia|lia|].
    destruct (cycleTarget_run active (length active) (Z.of_nat j) d) as (e & He & Hr & Ha & _); [lia|lia| |].
    { by rewrite E, Nat2Z.id. }
    rewrite Hr. apply Honly in Ha. f_equal.
    pose proof (Z.mod_pos_bound (Z.of_nat j + e) (Z.of_nat (length active)) ltac:(lia)). lia. }
  revert last. induction ts as [|[[t0 t1] t2] ts IH]; intros last; [by eexists|].
  cbn [walk_calls]. unfold switch_target. cbn [nextTarget lastTargetSwitch walk_done].
  destruct (60 <? t1 - default t0 last); [|apply IH].
  rewrite Hc. cbn [mbind option_bind]. rewrite Z.ltb_irrefl. apply IH.
Qed.

Lemma single_target_never_done_witness :
  exists w, walk_calls [true] [(0, 0, 0); (100, 100, 100); (200, 200, 200)]
    (TargetWalk (Z.of_nat 0) None false) = Some w /\ walk_done w = false /\ nextTarget w = Z.of_nat 0.
Proof.
  apply (single_target_never_done [true]); [reflexivity|].
  intros [|i] H; [reflexivity|discriminate H].
Defined.

(** ** Entries of a target *)

Definition of_target (target : Z) (l : list queue_entry) : Z :=
  Z.of_nat (length (List.filter (fun q => q_targetFunctionIdx q =? target) l)).

Lemma of_target_cons target q l :
  of_target target (q :: l) = (if q_targetFunctionIdx q =? target then 1 else 0) + of_target target l.
Proof. unfold of_target. simpl. destruct (_ =? target); simpl; lia. Qed.

Lemma nth_of_target_spec target l i j res :
  j <= res < j + of_target target l ->
  exists (k : nat) q, nth_of_target target i j res l = i + Z.of_nat k /\ l !! k = Some q
    /\ q_targetFunctionIdx q = target /\ of_target target (take k l) = res - j.
Proof.
  revert i j. induction l as [|q l IH]; intros i j Hres; [unfold of_target in Hres; simpl in Hres; lia|].
  rewrite of_target_cons in Hres. simpl. destruct (Z.eqb_spec (q_targetFunctionIdx q) target) as [Ht|Ht].
  - destruct (Z.eqb_spec j res) as [->|].
    + exists 0%nat, q. split; [lia|]. split; [done|]. split; [done|]. unfold of_target. simpl. lia.
    + destruct (IH (i + 1) (j + 1)) as (k & q' & -> & Hk & Hq' & Hc); [lia|]. exists (S k), q'.
      split; [lia|]. split; [done|]. split; [done|]. simpl.
      rewrite of_target_cons, (proj2 (Z.eqb_eq _ _) Ht). lia.
  - destruct (IH (i + 1) j) as (k & q' & -> & Hk & Hq' & Hc); [lia|]. exists (S k), q'.
    split; [lia|]. split; [done|]. split; [done|]. simpl.
    rewrite of_target_cons, (proj2 (Z.eqb_neq _ _) Ht). lia.
Qed.

Lemma nth_of_target_none target l i j res :
  j + of_target target l <= res -> nth_of_target target i j res l = res.
Proof.
  revert i j. induction l as [|q l IH]; intros i j Hres; [done|]. rewrite of_target_cons in Hres. simpl.
  assert (Hn : 0 <= of_target target l) by (unfold of_target; lia).
  destruct (q_targetFunctionIdx q =? target); [|apply IH; lia].
  rewrite (proj2 (Z.eqb_neq j res)) by lia. apply IH. lia.
Qed.

(** The selection turns the number [res] drawn for a target into the queue index of
    the target's entry number [res] (counting from 0) when the target has that many
    entries, and leaves [res] alone otherwise. *)
Theorem nth_of_target_correct target l res :
  0 <= res ->
  if res <? of_target target l then
    exists (k : nat) q, nth_of_target target 0 0 res l = Z.of_nat k /\ l !! k = Some q
      /\ q_targetFunctionIdx q = target /\ of_target target (take k l) = res
  else nth_of_target target 0 0 res l = res.
Proof.
  intros Hres. destruct (Z.ltb_spec res (of_target target l)).
  - destruct (nth_of_target_spec target l 0 0 res) as (k & q & H1 & H2 & H3 & H4); [lia|].
    exists k, q. repeat split; [lia|done|done|lia].
  - apply nth_of_target_none. lia.
Qed.

Lemma nth_of_target_correct_witness :
  exists (k : nat) q, nth_of_target 1 0 0 0 (queue_buf sample_two) = Z.of_nat k
    /\ queue_buf sample_two !! k = Some q /\ q_targetFunctionIdx q = 1
    /\ of_target 1 (take k (queue_buf sample_two)) = 0.
Proof. exact (nth_of_target_correct 1 (queue_buf sample_two) 0 (Z.le_refl 0)). Defined.
