(* ===== verification/Alias.v ===== *)
(** * The alias method (src/aflplusplus/src/afl-fuzz-queue.c)

    [create_single_alias_table] and [create_multi_alias_table] turn the weights of the queue
    entries into a table from which an entry is drawn in constant time: entries lighter than
    the average lend the rest of their slot to a heavier one.  Both functions end in the same
    code, which this file models over the type of the numbers: the program runs it on
    doubles, the theorem that entries are drawn in proportion to their weights is about exact
    rationals.  The arrays are explicit, an access outside of one is [Oob]. *)
From Stdlib Require Import QArith Lqa Floats.SpecFloat.
From S2P Require Import Prelude.
#[local] Open Scope Z_scope.

(** ** Results: a value, or how the code fails *)

Inductive outcome (A : Type) :=
| Done (x : A)
| Oob      (* an access outside the part of an array that was written *)
| NoFuel   (* a loop of the model used up its fuel *)
| Fpe      (* an integer division by zero *)
| Fatal.   (* [FATAL] or [PFATAL] *)
Arguments Done {A}. Arguments Oob {A}. Arguments NoFuel {A}. Arguments Fpe {A}. Arguments Fatal {A}.

#[global] Instance outcome_ret : MRet outcome := fun A x => Done x.
#[global] Instance outcome_bind : MBind outcome := fun A B f m =>
  match m with Done x => f x | Oob => Oob | NoFuel => NoFuel | Fpe => Fpe | Fatal => Fatal end.

(** [l[i]] and [l[i] = v] *)
Definition rd {A} (l : list A) (i : Z) : outcome A :=
  if 0 <=? i then match l !! Z.to_nat i with Some x => Done x | None => Oob end else Oob.
Definition wr {A} (l : list A) (i : Z) (v : A) : outcome (list A) :=
  if (0 <=? i) && (i <? Z.of_nat (length l)) then Done (<[Z.to_nat i := v]> l) else Oob.

(** ** Numbers *)

Class Number (D : Type) := {
  of_int : Z -> D;
  nadd : D -> D -> D;
  nsub : D -> D -> D;
  nmul : D -> D -> D;
  ndiv : D -> D -> D;
  nlt : D -> D -> bool;
}.

(** The doubles of the program, with round to nearest *)
Definition double_of_int (z : Z) : spec_float := binary_normalize 53 1024 z 0 false.
#[global] Instance double_number : Number spec_float := {|
  of_int := double_of_int;
  nadd := SFadd 53 1024; nsub := SFsub 53 1024; nmul := SFmul 53 1024; ndiv := SFdiv 53 1024;
  nlt := SFltb |}.

(** Exact rationals *)
#[global] Instance rational_number : Number Q := {|
  of_int := inject_Z;
  nadd := Qplus; nsub := Qminus; nmul := Qmult; ndiv := Qdiv;
  nlt := fun x y => negb (Qle_bool y x) |}.

Section alias.
Context {D : Type} `{!Number D}.

(** [alias_probability] and [alias_table] *)
Record tables := Tables { alias_probability : list D; alias_table : list Z }.

(** The work arrays: scaled weights and the stacks of small and large slots *)
Record work := Work { arr_P : list D; arr_S : list Z; nS : Z; arr_L : list Z; nL : Z }.

(** [if (P[s] < 1) { S[nS++] = s; } else { L[nL++] = s; }] *)
Definition place (s : Z) (w : work) : outcome work :=
  p ← rd (arr_P w) s;
  if nlt p (of_int 1)
  then S ← wr (arr_S w) (nS w) s; Done (Work (arr_P w) S (nS w + 1) (arr_L w) (nL w))
  else L ← wr (arr_L w) (nL w) s; Done (Work (arr_P w) (arr_S w) (nS w) L (nL w + 1)).

(** [for (s = (s32)n - 1; s >= 0; --s)]; [k] is [s + 1] *)
Fixpoint split (k : nat) (w : work) : outcome work :=
  match k with
  | O => Done w
  | S k => w ← place (Z.of_nat k) w; split k w
  end.

(** [while (nS && nL)] *)
Fixpoint pair_up (fuel : nat) (w : work) (t : tables) : outcome (work * tables) :=
  if (nS w =? 0) || (nL w =? 0) then Done (w, t)
  else match fuel with
  | O => NoFuel
  | S fuel =>
      a ← rd (arr_S w) (nS w - 1);
      g ← rd (arr_L w) (nL w - 1);
      pa ← rd (arr_P w) a;
      prob ← wr (alias_probability t) a pa;
      alias ← wr (alias_table t) a g;
      pg ← rd (arr_P w) g;
      P ← wr (arr_P w) g (nsub (nadd pg pa) (of_int 1));
      w ← place g (Work P (arr_S w) (nS w - 1) (arr_L w) (nL w - 1));
      pair_up fuel w (Tables prob alias)
  end.

(** [while (k) probability[stack[--k]] = 1;] *)
Fixpoint ones (k : nat) (stack : list Z) (prob : list D) : outcome (list D) :=
  match k with
  | O => Done prob
  | S k => i ← rd stack (Z.of_nat k); prob ← wr prob i (of_int 1); ones k stack prob
  end.

(** The second half of both functions: the scaled weights are in [P], the stacks hold
    anything, the two tables are filled with zeros. *)
Definition fill_tables (n : Z) (P : list D) (S L : list Z) : outcome tables :=
  w ← split (Z.to_nat (s32 n)) (Work P S 0 L 0);
  '(w, t) ← pair_up (Z.to_nat n) w
    (Tables (replicate (Z.to_nat n) (of_int 0)) (replicate (Z.to_nat n) 0));
  prob ← ones (Z.to_nat (nL w)) (arr_L w) (alias_probability t);
  prob ← ones (Z.to_nat (nS w)) (arr_S w) prob;
  Done (Tables prob (alias_table t)).

(** [P[i] = (weight * n) / sum;] *)
Definition scaled (n : Z) (sum weight : D) : D := ndiv (nmul weight (of_int n)) sum.

(** [p < probability[s] ? s : alias_table[s]] *)
Definition pick (t : tables) (s : Z) (p : D) : outcome Z :=
  q ← rd (alias_probability t) s;
  if nlt p q then Done s else rd (alias_table t) s.
End alias.
Arguments tables : clear implicits.
Arguments work : clear implicits.

(** ** The stacks and the rounds of the loop *)

Section rounds.
Context {D : Type} `{!Number D}.
Implicit Types (P prob : list D) (ss ls : list nat).

Lemma rd_Some {A} (l : list A) (i : nat) x : l !! i = Some x -> rd l (Z.of_nat i) = Done x.
Proof. intros H. unfold rd. rewrite (proj2 (Z.leb_le _ _)) by lia. by rewrite Nat2Z.id, H. Qed.

Lemma wr_lt {A} (l : list A) (i : nat) v : (i < length l)%nat -> wr l (Z.of_nat i) v = Done (<[i := v]> l).
Proof.
  intros H. unfold wr. rewrite (proj2 (Z.leb_le _ _)), (proj2 (Z.ltb_lt _ _)) by lia. by rewrite Nat2Z.id.
Qed.

(** The array [st] holds the stack [xs], its top first, in its first cells. *)
Definition holds (st : list Z) (xs : list nat) : Prop :=
  take (length xs) st = Z.of_nat <$> reverse xs /\ (length xs <= length st)%nat.

Lemma holds_nil st : holds st [].
Proof. split; [done|simpl; lia]. Qed.

Lemma holds_push st xs (x : nat) :
  holds st xs -> (length xs < length st)%nat -> holds (<[length xs := Z.of_nat x]> st) (x :: xs).
Proof.
  intros [Ht _] Hl. split; [|rewrite length_insert; simpl; lia].
  assert (Hx : <[length xs := Z.of_nat x]> st !! length xs = Some (Z.of_nat x)) by (apply list_lookup_insert_eq; lia).
  cbn [length]. rewrite (take_S_r _ _ _ Hx), take_insert_ge by lia. by rewrite Ht, reverse_cons, fmap_app.
Qed.

Lemma holds_pop st (x : nat) xs : holds st (x :: xs) -> st !! length xs = Some (Z.of_nat x) /\ holds st xs.
Proof.
  intros [Ht Hl]. simpl in Hl.
  destruct (lookup_lt_is_Some_2 st (length xs)) as [y Hy]; [lia|].
  cbn [length] in Ht. rewrite (take_S_r _ _ _ Hy), reverse_cons, fmap_app in Ht.
  apply app_inj_tail in Ht as [Ht ->]. split; [done|]. split; [done|lia].
Qed.

(** The state of the second half, its stacks as lists *)
Record slots := Slots { sP : list D; small : list nat; large : list nat; sprob : list D; salias : list Z }.

Definition put (P : list D) (s : nat) (p : D) ss ls prob alias : slots :=
  if nlt p (of_int 1) then Slots P (s :: ss) ls prob alias else Slots P ss (s :: ls) prob alias.

(** One round of [while (nS && nL)] *)
Inductive round : slots -> slots -> Prop :=
| round_pair P a g pa pg ss ls prob alias :
    P !! a = Some pa -> P !! g = Some pg ->
    let p := nsub (nadd pg pa) (of_int 1) in
    round (Slots P (a :: ss) (g :: ls) prob alias)
      (put (<[g := p]> P) g p ss ls (<[a := pa]> prob) (<[a := Z.of_nat g]> alias)).

Definition remaining (x : slots) : list nat := small x ++ large x.

(** Every slot is in one place at most, and in range. *)
Record slots_ok (n : nat) (x : slots) : Prop := {
  ok_P : length (sP x) = n;
  ok_prob : length (sprob x) = n;
  ok_alias : length (salias x) = n;
  ok_alias_range : Forall (fun i => 0 <= i < Z.of_nat n) (salias x);
  ok_nodup : NoDup (remaining x);
  ok_range : Forall (fun i => i < n)%nat (remaining x);
}.

Lemma remaining_put P s p ss ls prob alias : remaining (put P s p ss ls prob alias) ≡ₚ s :: ss ++ ls.
Proof. unfold put, remaining. destruct (nlt _ _); simpl; [done|]. by rewrite Permutation_middle. Qed.

Lemma put_same P s p ss ls prob alias :
  sP (put P s p ss ls prob alias) = P /\ sprob (put P s p ss ls prob alias) = prob
  /\ salias (put P s p ss ls prob alias) = alias.
Proof. unfold put. by destruct (nlt _ _). Qed.

Lemma round_ok n x y : round x y -> slots_ok n x -> slots_ok n y /\ remaining x ≡ₚ hd O (small x) :: remaining y.
Proof.
  intros [P a g pa pg ss ls prob alias Ha Hg p] [HP Hpr Hal Har Hnd Hr].
  unfold remaining in *. cbn [sP small large sprob salias hd] in *.
  assert (Hperm : (a :: ss) ++ g :: ls ≡ₚ a :: g :: ss ++ ls) by (simpl; by rewrite <- Permutation_middle).
  rewrite Hperm in Hnd, Hr. apply NoDup_cons in Hnd as [_ Hnd]. apply Forall_cons in Hr as [_ Hr].
  destruct (put_same (<[g := p]> P) g p ss ls (<[a := pa]> prob) (<[a := Z.of_nat g]> alias)) as (E1 & E2 & E3).
  pose proof (remaining_put (<[g := p]> P) g p ss ls (<[a := pa]> prob) (<[a := Z.of_nat g]> alias)) as Hrem.
  split; [|unfold remaining in Hrem; by rewrite Hrem, Hperm].
  constructor; rewrite ?E1, ?E2, ?E3, ?length_insert; try done; try (by rewrite Hrem).
  apply Forall_insert; [done|]. apply Forall_cons in Hr as [Hr _]. lia.
Qed.

(** The arrays and the counters show the state. *)
Definition shows (n : nat) (w : work D) (t : tables D) (x : slots) : Prop :=
  w = Work (sP x) (arr_S w) (Z.of_nat (length (small x))) (arr_L w) (Z.of_nat (length (large x)))
  /\ t = Tables (sprob x) (salias x)
  /\ holds (arr_S w) (small x) /\ holds (arr_L w) (large x)
  /\ length (arr_S w) = n /\ length (arr_L w) = n.

Lemma place_shows n P s p S L ss ls prob alias :
  P !! s = Some p -> holds S ss -> holds L ls -> length S = n -> length L = n ->
  (length ss + length ls < n)%nat ->
  exists w, place (Z.of_nat s) (Work P S (Z.of_nat (length ss)) L (Z.of_nat (length ls))) = Done w
    /\ shows n w (Tables prob alias) (put P s p ss ls prob alias).
Proof.
  intros Hp HS HL HnS HnL Hroom. unfold place, put. cbn [arr_P arr_S arr_L nS nL].
  rewrite (rd_Some _ _ _ Hp). cbn [mbind outcome_bind].
  destruct (nlt p (of_int 1)); rewrite wr_lt by lia; cbn [mbind outcome_bind]; eexists; split; try done.
  all: unfold shows; cbn [sP small large sprob salias arr_S arr_L length]; rewrite ?length_insert.
  all: split_and!; try done; try (by apply holds_push; [|lia]). all: do 2 f_equal; lia.
Qed.

(** Each slot is on the stack its scaled weight belongs to. *)
Definition side (b : bool) (P : list D) (i : nat) : Prop :=
  exists p, P !! i = Some p /\ nlt p (of_int 1) = b.
Definition classified (x : slots) : Prop :=
  Forall (side true (sP x)) (small x) /\ Forall (side false (sP x)) (large x).

Lemma put_classified P s p ss ls prob alias :
  P !! s = Some p -> Forall (side true P) ss -> Forall (side false P) ls ->
  classified (put P s p ss ls prob alias).
Proof.
  intros Hp Hs Hl. unfold put, classified.
  destruct (nlt p (of_int 1)) eqn:E; cbn [sP small large]; split; try done;
    (apply Forall_cons; split; [by exists p|done]).
Qed.

Lemma round_classified n x y : round x y -> slots_ok n x -> classified x -> classified y.
Proof.
  intros [P a g pa pg ss ls prob alias Ha Hg p] Hok [Hs Hl].
  pose proof (ok_nodup _ _ Hok) as Hnd. pose proof (ok_P _ _ Hok) as HP.
  unfold remaining in Hnd. cbn [sP small large] in *.
  apply NoDup_app in Hnd as (Hss & Hdis & Hls). apply NoDup_cons in Hls as [Hgl _].
  apply Forall_cons in Hs as [_ Hs]. apply Forall_cons in Hl as [_ Hl].
  assert (Hkeep : forall b xs, g ∉ xs -> Forall (side b P) xs -> Forall (side b (<[g := p]> P)) xs).
  { intros b xs Hni H. apply Forall_forall. intros i Hi. rewrite Forall_forall in H.
    destruct (H i Hi) as (q & Hq & Hb). exists q. split; [|done].
    rewrite list_lookup_insert_ne; [done|]. by intros <-. }
  apply put_classified; [| |by apply Hkeep].
  - apply list_lookup_insert_eq. by apply lookup_lt_Some in Hg.
  - apply Hkeep; [|done]. intros Hin. apply (Hdis g); [by apply elem_of_cons; right|apply elem_of_cons; by left].
Qed.

Lemma split_shows n k w t x :
  shows n w t x -> (k <= n)%nat -> length (sP x) = n -> remaining x ≡ₚ seq k (n - k) -> classified x ->
  exists w' x', split k w = Done w' /\ shows n w' t x' /\ sP x' = sP x /\ sprob x' = sprob x
    /\ salias x' = salias x /\ remaining x' ≡ₚ seq 0 n /\ classified x'.
Proof.
  revert w x. induction k as [|k IH]; intros w x Hw Hk HP Hrem Hcl.
  { exists w, x. rewrite Nat.sub_0_r in Hrem. done. }
  destruct Hw as (-> & -> & HS & HL & HlS & HlL). cbn [arr_S arr_L] in *.
  destruct (lookup_lt_is_Some_2 (sP x) k) as [p Hp]; [lia|].
  assert (Hlen : (length (small x) + length (large x) < n)%nat).
  { apply Permutation_length in Hrem. unfold remaining in Hrem. rewrite length_app, length_seq in Hrem. lia. }
  destruct (place_shows n (sP x) k p (arr_S w) (arr_L w) (small x) (large x) (sprob x) (salias x)) as (w' & E & Hw');
    [done..|].
  cbn [split]. rewrite E. cbn [mbind outcome_bind].
  destruct (put_same (sP x) k p (small x) (large x) (sprob x) (salias x)) as (E1 & E2 & E3).
  destruct Hcl as [Hs Hl].
  destruct (IH w' (put (sP x) k p (small x) (large x) (sprob x) (salias x))) as (w'' & x' & H);
    [done|lia|by rewrite E1| |by apply put_classified|].
  - rewrite remaining_put. fold (remaining x). rewrite Hrem. by replace (n - k)%nat with (S (n - S k)) by lia.
  - exists w'', x'. by rewrite E1, E2, E3 in H.
Qed.

Lemma shows_counts n w t x :
  shows n w t x -> nS w = Z.of_nat (length (small x)) /\ nL w = Z.of_nat (length (large x)).
Proof. intros (-> & _). done. Qed.

Lemma pair_up_stops n fuel w t x :
  shows n w t x -> small x = [] \/ large x = [] -> pair_up fuel w t = Done (w, t).
Proof.
  intros Hw Hend. destruct (shows_counts _ _ _ _ Hw) as [ES EL].
  assert (E : (nS w =? 0) || (nL w =? 0) = true)
    by (rewrite ES, EL; destruct Hend as [-> | ->]; [done|apply orb_true_r]).
  destruct fuel; cbn [pair_up]; by rewrite E.
Qed.

Lemma remaining_short n x : slots_ok n x -> (length (remaining x) <= n)%nat.
Proof.
  intros Hok. rewrite <- (length_seq n 0). apply submseteq_length, NoDup_submseteq; [apply (ok_nodup _ _ Hok)|].
  intros i Hi. apply elem_of_seq. pose proof (ok_range _ _ Hok) as H. rewrite Forall_forall in H.
  specialize (H i Hi). lia.
Qed.

(** With both stacks filled the loop makes a round. *)
Lemma pair_up_step n fuel w t P a g ss ls prob alias :
  shows n w t (Slots P (a :: ss) (g :: ls) prob alias) -> slots_ok n (Slots P (a :: ss) (g :: ls) prob alias) ->
  exists w' t' y, pair_up (S fuel) w t = pair_up fuel w' t'
    /\ round (Slots P (a :: ss) (g :: ls) prob alias) y /\ shows n w' t' y.
Proof.
  intros (Hw & -> & HS & HL & HlS & HlL) Hok. pose proof (remaining_short n _ Hok) as Hroom.
  pose proof (ok_range _ _ Hok) as Hr. unfold remaining in Hr, Hroom. cbn [sP small large sprob salias app length] in *.
  rewrite length_app in Hroom. cbn [length] in Hroom.
  apply Forall_cons in Hr as [Hra Hr]. apply Forall_app in Hr as [_ Hr]. apply Forall_cons in Hr as [Hrg _].
  destruct (holds_pop _ _ _ HS) as [Ha HS']. destruct (holds_pop _ _ _ HL) as [Hg HL'].
  pose proof (ok_P _ _ Hok) as HP. pose proof (ok_prob _ _ Hok) as Hpr. pose proof (ok_alias _ _ Hok) as Hal.
  cbn [sP sprob salias] in *.
  destruct (lookup_lt_is_Some_2 P a) as [pa Hpa]; [lia|]. destruct (lookup_lt_is_Some_2 P g) as [pg Hpg]; [lia|].
  set (p := nsub (nadd pg pa) (of_int 1)).
  destruct (place_shows n (<[g := p]> P) g p (arr_S w) (arr_L w) ss ls (<[a := pa]> prob) (<[a := Z.of_nat g]> alias))
    as (w' & E & Hw'); [apply list_lookup_insert_eq; lia|done..|lia|].
  exists w'. do 2 eexists. split; [|split; [exact (round_pair P a g pa pg ss ls prob alias Hpa Hpg)|exact Hw']].
  cbn [pair_up]. rewrite Hw. cbn [nS nL arr_S arr_L arr_P].
  rewrite (proj2 (Z.eqb_neq (Z.of_nat (S (length ss))) 0)), (proj2 (Z.eqb_neq (Z.of_nat (S (length ls))) 0)) by lia. cbn [orb].
  replace (Z.of_nat (S (length ss)) - 1) with (Z.of_nat (length ss)) by lia.
  replace (Z.of_nat (S (length ls)) - 1) with (Z.of_nat (length ls)) by lia.
  rewrite (rd_Some _ _ _ Ha), (rd_Some _ _ _ Hg). cbn [mbind outcome_bind alias_probability alias_table].
  rewrite (rd_Some _ _ _ Hpa). cbn [mbind outcome_bind]. rewrite (wr_lt prob) by lia. cbn [mbind outcome_bind].
  rewrite (wr_lt alias) by lia. cbn [mbind outcome_bind]. rewrite (rd_Some _ _ _ Hpg). cbn [mbind outcome_bind].
  rewrite (wr_lt P) by lia. cbn [mbind outcome_bind]. fold p. rewrite E. done.
Qed.

Lemma pair_up_rounds n fuel w t x :
  shows n w t x -> slots_ok n x -> (length (remaining x) <= fuel)%nat ->
  exists w' t' x', pair_up fuel w t = Done (w', t') /\ shows n w' t' x' /\ rtc round x x'
    /\ (small x' = [] \/ large x' = []).
Proof.
  revert w t x. induction fuel as [|fuel IH]; intros w t x Hw Hok Hf.
  { assert (Hend : small x = [] \/ large x = []) by (left; apply length_zero_iff_nil;
      unfold remaining in Hf; rewrite length_app in Hf; lia).
    exists w, t, x. split; [by eapply pair_up_stops|done]. }
  destruct x as [P ss ls prob alias].
  destruct ss as [|a ss]; [|destruct ls as [|g ls]].
  1-2: exists w, t; eexists; split; [by eapply pair_up_stops; [done|auto]|]; split; [done|]; split; [done|auto].
  destruct (pair_up_step n fuel w t P a g ss ls prob alias Hw Hok) as (w' & t' & y & -> & Hround & Hw').
  destruct (round_ok n _ _ Hround Hok) as [Hok' Hperm].
  destruct (IH w' t' y Hw' Hok') as (w'' & t'' & x' & E' & Hsh & Hrtc & Hend).
  { apply Permutation_length in Hperm. cbn [length] in Hperm. lia. }
  exists w'', t'', x'. split; [exact E'|]. split; [done|]. split; [|done]. by eapply rtc_l.
Qed.

(** What the last two loops do *)
Definition set_ones (xs : list nat) (prob : list D) : list D := foldl (fun pr i => <[i := of_int 1]> pr) prob xs.

Lemma length_set_ones xs prob : length (set_ones xs prob) = length prob.
Proof. revert prob. induction xs as [|x xs IH]; intros prob; [done|]. simpl. by rewrite IH, length_insert. Qed.

Lemma ones_set stack xs prob :
  holds stack xs -> Forall (fun i => i < length prob)%nat xs ->
  ones (length xs) stack prob = Done (set_ones xs prob).
Proof.
  revert prob. induction xs as [|x xs IH]; intros prob Hh Hr; [done|].
  destruct (holds_pop _ _ _ Hh) as [Hx Hh']. apply Forall_cons in Hr as [Hrx Hr]. cbn [length ones].
  rewrite (rd_Some _ _ _ Hx). cbn [mbind outcome_bind]. rewrite wr_lt by done. cbn [mbind outcome_bind].
  apply IH; [done|]. by rewrite length_insert.
Qed.

Lemma rounds_ok n x y : rtc round x y -> slots_ok n x -> classified x -> slots_ok n y /\ classified y.
Proof.
  induction 1 as [|x y z Hxy _ IH]; intros Hok Hcl; [done|].
  apply IH; [by apply (round_ok n x y)|by eapply round_classified].
Qed.

(** The whole second half is a run of rounds on the slots. *)
Lemma fill_tables_rounds (n : nat) P S L :
  (Z.of_nat n < 2 ^ 31) -> length P = n -> length S = n -> length L = n ->
  exists x y, sP x = P /\ sprob x = replicate n (of_int 0) /\ remaining x ≡ₚ seq 0 n /\ slots_ok n x /\ classified x
    /\ rtc round x y /\ slots_ok n y /\ classified y /\ (small y = [] \/ large y = [])
    /\ fill_tables (Z.of_nat n) P S L = Done (Tables (set_ones (remaining y) (sprob y)) (salias y)).
Proof.
  intros Hn HP HS HL. unfold fill_tables. unfold s32. rewrite Z.mod_small by lia.
  replace (Z.of_nat n + 2 ^ 31 - 2 ^ 31) with (Z.of_nat n) by lia. rewrite Nat2Z.id.
  set (t0 := Tables _ _). set (x0 := Slots P [] [] (replicate n (of_int 0)) (replicate n 0)).
  destruct (split_shows n n (Work P S 0 L 0) t0 x0) as (w & x & E & Hw & EP & Epr & Eal & Hrem & Hcl).
  { split_and!; try done; apply holds_nil. }
  { done. } { done. } { by rewrite Nat.sub_diag. } { split; apply Forall_nil_2. }
  rewrite E. cbn [mbind outcome_bind].
  assert (Hok : slots_ok n x).
  { constructor; rewrite ?EP, ?Epr, ?Eal; cbn [sP sprob salias x0]; [done|by rewrite length_replicate..| | |].
    - apply Forall_forall. intros i Hi. apply elem_of_replicate in Hi as [-> ?]. lia.
    - rewrite Hrem. apply NoDup_seq.
    - rewrite Hrem. apply Forall_seq. lia. }
  destruct (pair_up_rounds n n w t0 x) as (w' & t' & y & E' & Hw' & Hrtc & Hend); [done|done| |].
  { by rewrite Hrem, length_seq. }
  rewrite E'. cbn [mbind outcome_bind].
  destruct (rounds_ok n x y Hrtc Hok Hcl) as [Hoky Hcly].
  destruct Hw' as (Hw' & -> & HhS & HhL & _). rewrite Hw'. cbn [nL nS arr_L arr_S alias_probability alias_table].
  rewrite !Nat2Z.id.
  exists x, y. split_and!; try done.
  pose proof (ok_range _ _ Hoky) as Hr. unfold remaining in Hr. apply Forall_app in Hr as [Hrs Hrl].
  pose proof (ok_prob _ _ Hoky) as Hpr.
  rewrite (ones_set _ _ _ HhL) by (by rewrite Hpr). cbn [mbind outcome_bind].
  rewrite (ones_set _ _ _ HhS) by (by rewrite length_set_ones, Hpr). cbn [mbind outcome_bind]. do 2 f_equal.
  unfold remaining. destruct Hend as [-> | ->]; [done|by rewrite app_nil_r].
Qed.
End rounds.
