(* ===== verification/Names.v ===== *)
(** * Names of test cases (src/aflplusplus/src/afl-fuzz-bitmap.c, afl-fuzz-init.c,
    include/afl-fuzz.h)

    AFLLive puts the name of the target in front of the name of a test case:
    [target-id:000001,src:000000,...].  This file models how names are made when a test case
    is saved ([describe_op], [save_if_interesting]) and when the initial ones are moved into
    the queue ([pivot_inputs]), and how target and number are read back.

    A name is the list of its characters, without the directory; the path of the output
    directory counts only where the code looks at the length of the whole path. *)
From S2P Require Import Prelude DetStages NumText Alias.
From Stdlib Require Import Ascii.
#[local] Open Scope Z_scope.

(** ** C strings *)

(** [strncmp(a, b, n) == 0]; a list ends like a string does. *)
Fixpoint strncmp_eq (n : nat) (a b : list Z) : bool :=
  match n with
  | O => true
  | S n =>
      let x := hd 0 a in
      let y := hd 0 b in
      if x =? y then if x =? 0 then true else strncmp_eq n (tl a) (tl b) else false
  end.

(** [strstr(h, s) != NULL], [h.find(s) != npos] *)
Fixpoint is_prefix (s h : list Z) : bool :=
  match s, h with
  | [], _ => true
  | x :: s, y :: h => (x =? y) && is_prefix s h
  | _, [] => false
  end.
Fixpoint contains (h s : list Z) : bool :=
  is_prefix s h || match h with [] => false | _ :: h => contains h s end.

(** The characters up to the terminator. *)
Fixpoint c_string (l : list Z) : list Z :=
  match l with [] => [] | c :: l => if c =? 0 then [] else c :: c_string l end.

(** A string literal *)
Definition text (s : string) : list Z := map (fun c => Z.of_N (N_of_ascii c)) (String.list_ascii_of_string s).

(** [strchr(s, c)], [strstr(s, t)]: what follows the first occurrence *)
Fixpoint after_char (c : Z) (s : list Z) : option (list Z) :=
  match s with [] => None | x :: s => if x =? c then Some s else after_char c s end.
Fixpoint after_text (t s : list Z) : option (list Z) :=
  if is_prefix t s then Some (drop (length t) s)
  else match s with [] => None | _ :: s => after_text t s end.

(** "%06u" (and "%06d" of a number that is not negative), "%+d" *)
Definition text_06 (n : Z) : list Z := let t := text_u n in replicate (6 - length t) 48 ++ t.
Definition text_plus (n : Z) : list Z := if n <? 0 then text_s n else 43 :: text_s n.

(** [sscanf(s, "%06u", &n)]: the number, of at most six characters after the blanks *)
Definition scan_06 (s : list Z) : option Z :=
  let s := take 6 (drop (count_while is_space s) s) in
  let '(neg, _, s) := split_sign s in
  if (count_while (digit_of 10) s =? 0)%nat then None
  else let n := read_digits 10 s 0 in Some (u32 (if neg then - n else n)).

(** ** Targets *)

(** [getTargetIdx] *)
Fixpoint getTargetIdx (names : list (list Z)) (name : list Z) (i : Z) : Z :=
  match names with
  | [] => 0
  | t :: names => if decide (t = name) then i else getTargetIdx names name (i + 1)
  end.

(** [getTargetName]: the characters before the first '-'.  Without one, [separator] is NULL
    and the length of the copy is the difference of unrelated pointers. *)
Fixpoint up_to (c : Z) (s : list Z) : list Z :=
  match s with [] => [] | x :: s => if x =? c then [] else x :: up_to c s end.
Definition getTargetName (fnName : list Z) : outcome (list Z) :=
  match after_char 45 fnName with Some _ => Done (up_to 45 fnName) | None => Oob end.

(** ** [describe_op] *)

Definition NAME_MAX : Z := 255.

(** What the fuzzer is doing *)
Record operation := Operation {
  syncing_party : option (list Z);
  syncing_case : Z;
  current_entry : Z;
  splicing_with : Z;
  cur_time : Z;              (* [get_cur_time() + prev_run_time - start_time] *)
  op_execs : Z;              (* [fsrv.total_execs] *)
  stage_short : list Z;
  op_cur_byte : Z;           (* [stage_cur_byte] *)
  op_val_type : stage_val;
  op_cur_val : Z;
}.

(** The description, without custom mutators.  It is written into a buffer of 256 bytes
    before its length is checked. *)
Definition describe_op (new_bits : Z) (max_description_len : Z) (p : operation) : outcome (list Z) :=
  let is_timeout := negb (Z.land new_bits 0xf0 =? 0) in
  let new_bits := if is_timeout then u8 (new_bits - 0x80) else new_bits in
  let ret :=
    match syncing_party p with
    | Some party => text "sync:" ++ party ++ text ",src:" ++ text_06 (syncing_case p)
    | None =>
        text "src:" ++ text_06 (current_entry p)
        ++ (if 0 <=? splicing_with p then text "+" ++ text_06 (splicing_with p) else [])
        ++ text ",time:" ++ text_u (cur_time p) ++ text ",execs:" ++ text_u (op_execs p)
        ++ text ",op:" ++ stage_short p
        ++ (if 0 <=? op_cur_byte p then
              text ",pos:" ++ text_s (op_cur_byte p)
              ++ match op_val_type p with
                 | STAGE_VAL_NONE => []
                 | STAGE_VAL_LE => text ",val:" ++ text_plus (op_cur_val p)
                 | STAGE_VAL_BE => text ",val:" ++ text "be:" ++ text_plus (op_cur_val p)
                 end
            else text ",rep:" ++ text_s (op_cur_val p))
    end
    ++ (if is_timeout then text ",+tout" else []) ++ (if new_bits =? 2 then text ",+cov" else []) in
  if 256 <=? Z.of_nat (length ret) then Oob
  else if max_description_len <=? Z.of_nat (length ret) then Fatal
  else Done ret.

(** The name of a new queue entry; a name the file system does not take ends the fuzzer. *)
Definition queue_fn (target : list Z) (queued_items : Z) (new_bits : Z) (p : operation) : outcome (list Z) :=
  d ← describe_op new_bits (NAME_MAX - 10) p;
  let name := target ++ text "-id:" ++ text_06 queued_items ++ text "," ++ d in
  if NAME_MAX <? Z.of_nat (length name) then Fatal else Done name.

(** ** [pivot_inputs]: the name of an initial test case in the queue *)

(** The part the number is looked for in: behind the first '-' of the name, or the path *)
Definition orsl (path name : list Z) : list Z := match after_char 45 name with Some s => s | None => path end.

(** [!strncmp(orsl, CASE_PREFIX, 3) && sscanf(orsl + 3, "%06u", &orig_id) == 1] *)
Definition orig_id (path name : list Z) : option Z :=
  let s := orsl path name in if strncmp_eq 3 s (text "id:") then scan_06 (drop 3 s) else None.

(** The number behind the next ':', taken for that of the parent *)
Definition src_id (path name : list Z) : option Z :=
  s ← after_char 58 (drop 3 (orsl path name)); scan_06 s.

(** A name made up, with the original one as a part; [out_len] is the length of the path of
    the queue directory. *)
Definition invented_name (out_len : Z) (target : list Z) (id execs : Z) (name : list Z) : list Z :=
  let use_name := match after_text (text ",orig:") name with Some s => s | None => name end in
  let front := target ++ text "-id:" ++ text_06 id ++ text ",time:0,execs:" ++ text_u execs ++ text ",orig:" in
  if 256 <? out_len + Z.of_nat (length (front ++ use_name)) then front ++ text "long" else front ++ use_name.

(** The new name, and whether the old one was kept *)
Definition pivot_name (out_len : Z) (target path name : list Z) (id execs : Z) : list Z * bool :=
  if bool_decide (orig_id path name = Some id) then (name, true)
  else (invented_name out_len target id execs name, false).

(** ** Lemmas: what is printed is read back *)

Lemma length_digits_small fuel k n : 0 <= n < 10 ^ Z.of_nat k -> (0 < k)%nat -> (length (digits fuel n) <= k)%nat.
Proof.
  revert k n. induction fuel as [|fuel IH]; intros k n Hn Hk; [simpl; lia|]. cbn [digits].
  destruct (Z.ltb_spec n 10); [simpl; lia|]. rewrite length_app. cbn [length]. destruct k as [|[|k]]; [lia|simpl in Hn; lia|].
  assert (length (digits fuel (n / 10)) <= S k)%nat; [|lia]. apply IH; [|lia]. split; [apply Z.div_pos; lia|].
  apply Z.div_lt_upper_bound; [lia|]. rewrite <- Z.pow_succ_r, <- Nat2Z.inj_succ by lia. lia.
Qed.

Lemma zeros_digits k : all_digits (replicate k 48).
Proof. apply Forall_replicate. exists 0. lia. Qed.

(** "%06u" of a number below a million has six digits. *)
Lemma text_06_spec n : 0 <= n < 10 ^ 6 -> length (text_06 n) = 6%nat /\ all_digits (text_06 n) /\ read_digits 10 (text_06 n) 0 = n.
Proof.
  intros Hn. pose proof (length_digits_small 20 6 n ltac:(simpl; lia) ltac:(lia)) as Hl. fold (text_u n) in Hl.
  destruct (digits_ok 20 n ltac:(simpl; lia)) as (H1 & H2 & _). fold (text_u n) in H1, H2. unfold text_06.
  split; [rewrite length_app, length_replicate; lia|]. split; [by apply Forall_app; split; [apply zeros_digits|]|].
  rewrite read_digits_app by apply zeros_digits. generalize (6 - length (text_u n))%nat. intros k.
  replace (read_digits 10 (replicate k 48) 0) with 0; [done|]. induction k; simpl; done.
Qed.

Lemma count_while_all p (l : list Z) : Forall (fun c => p c = true) l -> count_while p l = length l.
Proof. induction 1 as [|c l Hc _ IH]; [done|]. simpl. by rewrite Hc, IH. Qed.

(** Six digits are read as the number they show, whatever follows. *)
Lemma scan_digits l rest : length l = 6%nat -> all_digits l -> scan_06 (l ++ rest) = Some (u32 (read_digits 10 l 0)).
Proof.
  intros Hlen Hd. unfold scan_06. destruct l as [|c l]; [done|]. pose proof Hd as Hd'. apply Forall_cons in Hd' as [(d & -> & Hr) _].
  assert (Hsp : count_while is_space (((48 + d) :: l) ++ rest) = 0%nat).
  { apply count_while_stop. simpl. unfold is_space. lia. }
  rewrite Hsp, drop_0, take_app_le, take_ge by (simpl in *; lia).
  rewrite split_sign_digit by done. rewrite count_while_all by (by apply all_digits_of). done.
Qed.

Lemma scan_text_06 n rest : 0 <= n < 10 ^ 6 -> scan_06 (text_06 n ++ rest) = Some n.
Proof.
  intros Hn. destruct (text_06_spec n Hn) as (H1 & H2 & H3). rewrite scan_digits, H3 by done. f_equal. apply u32_id. lia.
Qed.

Definition free_of (c : Z) (s : list Z) : Prop := Forall (fun x => x <> c) s.

Lemma after_char_app c t s : free_of c t -> after_char c (t ++ c :: s) = Some s.
Proof.
  induction 1 as [|x t Hx _ IH]; simpl; [by rewrite Z.eqb_refl|]. by rewrite (proj2 (Z.eqb_neq x c) Hx).
Qed.

Lemma up_to_app c t s : free_of c t -> up_to c (t ++ c :: s) = t.
Proof.
  induction 1 as [|x t Hx _ IH]; simpl; [by rewrite Z.eqb_refl|]. by rewrite (proj2 (Z.eqb_neq x c) Hx), IH.
Qed.

Lemma digits_free c l : all_digits l -> c < 48 \/ 57 < c -> free_of c l.
Proof. intros H Hc. apply (Forall_impl _ _ _ H). intros x (d & -> & Hd). lia. Qed.

(** A name of the form [target-id:000001...] *)
Definition case_name (target : list Z) (id : Z) (rest : list Z) : list Z := target ++ text "-id:" ++ text_06 id ++ rest.

Lemma case_name_target target id rest : free_of 45 target -> getTargetName (case_name target id rest) = Done target.
Proof.
  intros Hf. unfold getTargetName, case_name. change (text "-id:") with (45 :: text "id:"). cbn [app].
  by rewrite after_char_app, up_to_app.
Qed.

Lemma case_name_orsl path target id rest : free_of 45 target ->
  orsl path (case_name target id rest) = text "id:" ++ text_06 id ++ rest.
Proof.
  intros Hf. unfold orsl, case_name. change (text "-id:") with (45 :: text "id:"). cbn [app]. by rewrite after_char_app.
Qed.

Lemma case_name_id path target id rest :
  free_of 45 target -> 0 <= id < 10 ^ 6 -> orig_id path (case_name target id rest) = Some id.
Proof. intros Hf Hid. unfold orig_id. rewrite case_name_orsl by done. cbn. by apply scan_text_06. Qed.

(** The parent of a test case is read from behind the next colon. *)
Lemma case_name_src path target id word rest :
  free_of 45 target -> 0 <= id < 10 ^ 6 -> free_of 58 word ->
  src_id path (case_name target id (word ++ 58 :: rest)) = scan_06 rest.
Proof.
  intros Hf Hid Hw. unfold src_id. rewrite case_name_orsl by done. destruct (text_06_spec id Hid) as (_ & Hd & _).
  change (drop 3 (text "id:" ++ ?l)) with l. rewrite app_assoc, after_char_app; [done|].
  apply Forall_app. split; [apply digits_free; [done|lia]|done].
Qed.

(** ** Theorems *)

Lemma queue_fn_shape target items nb p name :
  queue_fn target items nb p = Done name ->
  exists d, describe_op nb (NAME_MAX - 10) p = Done d /\ name = case_name target items (text "," ++ d)
    /\ Z.of_nat (length name) <= NAME_MAX.
Proof.
  unfold queue_fn. destruct (describe_op nb (NAME_MAX - 10) p) as [d| | | |]; cbn [mbind outcome_bind]; try done.
  destruct (Z.ltb_spec NAME_MAX (Z.of_nat (length (target ++ text "-id:" ++ text_06 items ++ text "," ++ d)))); [done|].
  intros [= <-]. by exists d.
Qed.

Lemma describe_op_src nb max p d :
  syncing_party p = None -> describe_op nb max p = Done d -> exists rest, d = text "src:" ++ text_06 (current_entry p) ++ rest.
Proof.
  intros Hs. unfold describe_op. cbv zeta. rewrite Hs. set (tail := if 0 <=? splicing_with p then _ else []).
  clearbody tail. set (more := (if 0 <=? op_cur_byte p then _ else _)). clearbody more.
  destruct (256 <=? _); [done|]. destruct (max <=? _); [done|]. intros [= <-]. rewrite <- !app_assoc. by eexists.
Qed.

Lemma invented_name_shape out_len target id execs name :
  exists rest, invented_name out_len target id execs name
    = case_name target id (text ",time" ++ 58 :: text "0,execs:" ++ rest).
Proof.
  unfold invented_name, case_name. cbv zeta. destruct (256 <? _); rewrite <- !app_assoc; by eexists.
Qed.

(** C28: target and number (below a million) can be read back from the name of a test case.  A name that
    [save_if_interesting] makes for a target whose name has no '-' gives that target, the
    number of the entry and, if it is not imported, the number of its parent; a name made up
    by [pivot_inputs] gives the target and the number.  But behind the number of a made-up
    name the first thing that looks like the number of a parent is the time, so every such
    entry is taken for a child of the first one. *)
Theorem names_roundtrip target id path :
  free_of 45 target -> 0 <= id < 10 ^ 6 ->
  (forall nb p name, queue_fn target id nb p = Done name ->
     getTargetName name = Done target /\ orig_id path name = Some id /\ Z.of_nat (length name) <= NAME_MAX
     /\ (syncing_party p = None -> 0 <= current_entry p < 10 ^ 6 -> src_id path name = Some (current_entry p)))
  /\ (forall out_len execs old, let name := invented_name out_len target id execs old in
     getTargetName name = Done target /\ orig_id path name = Some id /\ src_id path name = Some 0).
Proof.
  intros Hf Hid. split.
  - intros nb p name Hq. destruct (queue_fn_shape _ _ _ _ _ Hq) as (d & Hd & -> & Hlen).
    split; [by apply case_name_target|]. split; [by apply case_name_id|]. split; [done|].
    intros Hs Hc. destruct (describe_op_src _ _ _ _ Hs Hd) as [rest ->].
    change (text "," ++ text "src:" ++ ?l) with (text ",src" ++ 58 :: l). rewrite case_name_src by (done || by repeat constructor).
    by apply scan_text_06.
  - intros out_len execs old. cbv zeta. destruct (invented_name_shape out_len target id execs old) as [rest ->].
    split; [by apply case_name_target|]. split; [by apply case_name_id|].
    by rewrite case_name_src by (done || by repeat constructor).
Qed.

Definition sample_op : operation :=
  Operation None 0 3 (-1) 1200 5000 (text "havoc") (-1) STAGE_VAL_NONE 8.

Lemma names_roundtrip_witness :
  queue_fn (text "parse") 7 2 sample_op = Done (text "parse-id:000007,src:000003,time:1200,execs:5000,op:havoc,rep:8,+cov")
  /\ getTargetName (text "parse-id:000007,src:000003,time:1200,execs:5000,op:havoc,rep:8,+cov") = Done (text "parse")
  /\ src_id [] (text "parse-id:000007,src:000003,time:1200,execs:5000,op:havoc,rep:8,+cov") = Some 3.
Proof.
  assert (E : queue_fn (text "parse") 7 2 sample_op
    = Done (text "parse-id:000007,src:000003,time:1200,execs:5000,op:havoc,rep:8,+cov")) by (vm_compute; reflexivity).
  destruct (names_roundtrip (text "parse") 7 []) as [H _]; [by repeat constructor|lia|].
  destruct (H 2 sample_op _ E) as (H1 & _ & _ & H2). split; [exact E|]. split; [exact H1|]. by apply H2.
Defined.

(** Seven digits are printed for a million, six are read: the numbers of later entries are
    not recognised when a session is resumed. *)
Example million_not_recognised :
  orig_id [] (case_name (text "parse") 1000000 (text ",src:000000")) = Some 100000.
Proof. vm_compute. reflexivity. Qed.

(** The room [describe_op] is given does not count the name of the target: a description it
    accepts makes a name that cannot be created when the target's name is long. *)
Example long_target_ends_fuzzer :
  (exists d, describe_op 2 (NAME_MAX - 10) sample_op = Done d) /\ queue_fn (replicate 200 102) 7 2 sample_op = Fatal.
Proof. split; [eexists; vm_compute; reflexivity|vm_compute; reflexivity]. Qed.

(** A name without a '-' has no target: the pointer arithmetic of [getTargetName] goes wrong. *)
Lemma getTargetName_plain name : free_of 45 name -> getTargetName name = Oob.
Proof.
  intros Hf. unfold getTargetName. replace (after_char 45 name) with (@None (list Z)); [done|].
  induction Hf as [|x l Hx _ IH]; [done|]. simpl. by rewrite (proj2 (Z.eqb_neq x 45) Hx).
Qed.
