(* ===== verification/Startup.v ===== *)
(** * Reading the initial test cases and moving them into the queue
    (src/aflplusplus/src/afl-fuzz-init.c)

    [read_testcases] walks through the input directory and adds an entry for every file;
    [pivot_inputs] then gives the entries their names in the queue directory and works out
    their depth from the names.  Files of the queue that a resumed session finds go through
    both.

    A directory is the list of what [scandir] returns, in its order; the queue is not
    shuffled (AFL_SHUFFLE_QUEUE is not set).  The file of an entry is known by its path and
    its name, the names in the queue directory are a list. *)
From S2P Require Import Prelude DetStages Queue NumText Alias Names.
#[local] Open Scope Z_scope.

(** ** State *)

Record input := Input {
  in_path : list Z;    (* [fname], and its part behind the last '/' *)
  in_name : list Z;
  in_target : list Z;  (* [targetFunctionName] *)
}.

Record startup := Startup {
  s_queue : queue;
  s_inputs : list input;              (* per entry *)
  s_queue_dir : list (list Z);        (* names in the queue directory *)
  s_det_done : list (list Z);         (* names in .state/deterministic_done *)
  s_resuming : bool;
  cmplog_max_filesize : Z;
}.

Definition set_squeue (q : queue) (s : startup) : startup :=
  Startup q (s_inputs s) (s_queue_dir s) (s_det_done s) (s_resuming s) (cmplog_max_filesize s).
Definition set_inputs (l : list input) (s : startup) : startup :=
  Startup (s_queue s) l (s_queue_dir s) (s_det_done s) (s_resuming s) (cmplog_max_filesize s).
Definition set_dirs (q d : list (list Z)) (s : startup) : startup :=
  Startup (s_queue s) (s_inputs s) q d (s_resuming s) (cmplog_max_filesize s).
Definition set_resuming (s : startup) : startup :=
  Startup (s_queue s) (s_inputs s) (s_queue_dir s) (s_det_done s) true (cmplog_max_filesize s).
Definition set_filesize (n : Z) (s : startup) : startup :=
  Startup (s_queue s) (s_inputs s) (s_queue_dir s) (s_det_done s) (s_resuming s) n.

(** ** [read_testcases] *)

(** What [lstat] and [access] find *)
Inductive node :=
| Regular (name : list Z) (size : Z)
| Directory (name : list Z) (entries : list node)
| Other (name : list Z)
| Unreadable (name : list Z).

Section read.
(** The level of RedQueen if it is on, the names of the targets, and whether a name is in
    .state/deterministic_done of the input directory *)
Context (cmplog_lvl : option Z) (targetNames : list (list Z)) (det_done : list Z -> bool).

(** The bound on the size of test cases for RedQueen *)
Definition note_size (size : Z) (s : startup) : startup :=
  let m := cmplog_max_filesize s in
  match cmplog_lvl with
  | Some 1 => if (m =? 0) || (m <? size) then set_filesize size s else s
  | Some 2 => if (m =? 0) || (size <? m) then set_filesize size s else s
  | _ => s
  end.
Definition round_size (s : startup) : startup :=
  match cmplog_lvl with
  | None => s
  | Some _ =>
      let m := cmplog_max_filesize s in
      set_filesize (if m <? 1024 then 1024 else ((m ≫ 10) + 1) ≪ 10) s
  end.

(** A file of the directory [dir] *)
Definition read_file (dir name : list Z) (size : Z) (s : startup) : outcome startup :=
  let path := dir ++ text "/" ++ name in
  if (size =? 0) || contains path (text "/README.txt") then Done s
  else
    target ← getTargetName name;
    let q := add_to_queue (if MAX_FILE <=? size then MAX_FILE else size) (det_done name)
               (getTargetIdx targetNames target 0) (s_queue s) in
    Done (note_size size (set_inputs (s_inputs s ++ [Input path name target]) (set_squeue q s))).

(** One entry; [subdirs] says whether to go into directories.  The loop runs from the last
    entry to the first. *)
Fixpoint read_node (subdirs : bool) (dir : list Z) (x : node) (s : startup) : outcome startup :=
  match x with
  | Unreadable _ => Fatal
  | Other _ => Done s
  | Directory name l =>
      if subdirs && negb (hd 0 name =? 46) then
        s ← (fix go (l : list node) (s : startup) : outcome startup :=
               match l with
               | [] => Done s
               | y :: l => s ← go l s; read_node true (dir ++ text "/" ++ name) y s
               end) l s;
        Done (round_size s)
      else Done s
  | Regular name size => read_file dir name size s
  end.

Fixpoint read_nodes (subdirs : bool) (dir : list Z) (l : list node) (s : startup) : outcome startup :=
  match l with
  | [] => Done s
  | y :: l => s ← read_nodes subdirs dir l s; read_node subdirs dir y s
  end.

(** [read_testcases(afl, NULL)]; [queue_dir] is the contents of in_dir/queue, if it exists. *)
Definition read_testcases (in_dir : list Z) (queue_dir : option (list node)) (l : list node) (s : startup)
  : outcome startup :=
  s ← match queue_dir with
      | Some q => read_nodes false (in_dir ++ text "/queue") q s
      | None => read_nodes true in_dir l s
      end;
  if (length (queue_buf (s_queue s)) =? 0)%nat then Fatal else Done (round_size s).
End read.

(** ** [pivot_inputs] *)

Definition set_depth (x : Z) (q : queue_entry) : queue_entry :=
  QEntry (q_targetFunctionIdx q) (q_len q) (q_exec_us q) (q_fuzz_level q) (q_n_fuzz_entry q)
    x (q_passed_det q) (q_tc_ref q) (q_trace_mini q) (q_favored q) (q_was_fuzzed q) (q_disabled q) (q_fs_redundant q).

(** The depth of entry [k] from the number of its parent *)
Definition depth_from (k : nat) (src : option Z) (a : queue) : queue :=
  match src with
  | None => a
  | Some src =>
      let buf := match queue_buf a !! Z.to_nat src with
                 | Some parent => alter (set_depth (u32 (q_depth parent + 1))) k (queue_buf a)
                 | None => queue_buf a
                 end in
      let a := set_queue_buf buf a in
      match buf !! k with
      | Some q => if max_depth a <? q_depth q then set_max_depth (q_depth q) a else a
      | None => a
      end
  end.

(** [link_or_copy] to a name and [mark_as_det_done]: files that exist are not overwritten *)
Definition create (name : list Z) (dir : list (list Z)) : outcome (list (list Z)) :=
  if bool_decide (name ∈ dir) then Fatal else Done (name :: dir).

(** Entry [k], which gets the number [id] *)
Definition pivot_one (out_dir : list Z) (execs : Z) (k : nat) (id : Z) (s : startup) : outcome startup :=
  i ← rd (s_inputs s) (Z.of_nat k);
  q ← rd (queue_buf (s_queue s)) (Z.of_nat k);
  let '(name, kept) := pivot_name (Z.of_nat (length (out_dir ++ text "/queue/"))) (in_target i) (in_path i) (in_name i) id execs in
  let s := if (kept : bool)
           then set_squeue (depth_from k (src_id (in_path i) (in_name i)) (s_queue s)) (set_resuming s) else s in
  dir ← create name (s_queue_dir s);
  det ← (if q_passed_det q then create name (s_det_done s) else Done (s_det_done s));
  Done (set_dirs dir det
    (set_inputs (<[k := Input (out_dir ++ text "/queue/" ++ name) name (in_target i)]> (s_inputs s)) s)).

(** [for (i = 0; i < afl->queued_items; i++)], with [n] entries left *)
Fixpoint pivot_loop (out_dir : list Z) (execs : Z) (n k : nat) (id : Z) (s : startup) : outcome startup :=
  match n with
  | O => Done s
  | S n =>
      q ← rd (queue_buf (s_queue s)) (Z.of_nat k);
      if q_disabled q then pivot_loop out_dir execs n (S k) id s
      else s ← pivot_one out_dir execs k id s; pivot_loop out_dir execs n (S k) (id + 1) s
  end.

(** Removing the directory of a session that was resumed in place is not modelled. *)
Definition pivot_inputs (out_dir : list Z) (execs : Z) (s : startup) : outcome startup :=
  pivot_loop out_dir execs (length (queue_buf (s_queue s))) 0 0 s.

(** ** Lemmas on [pivot_inputs] *)

(** An entry whose target is the one in its name *)
Definition input_ok (i : input) : Prop := getTargetName (in_name i) = Done (in_target i).

Lemma up_to_free c s : free_of c (up_to c s).
Proof.
  unfold free_of. induction s as [|x s IH]; simpl; [constructor|]. destruct (Z.eqb_spec x c); [constructor|by constructor].
Qed.

Lemma input_ok_target i : input_ok i -> free_of 45 (in_target i).
Proof. unfold input_ok, getTargetName. destruct (after_char 45 (in_name i)); [|done]. intros [= <-]. apply up_to_free. Qed.

(** In a name that has a target, the number does not depend on the path. *)
Lemma orig_id_path t path path' name : getTargetName name = Done t -> orig_id path name = orig_id path' name.
Proof. unfold getTargetName, orig_id, orsl. by destruct (after_char 45 name). Qed.

(** The new name has the number [id] and the target of the old one. *)
Lemma pivot_name_ok out_len i id execs path :
  input_ok i -> 0 <= id < 10 ^ 6 -> let name := (pivot_name out_len (in_target i) (in_path i) (in_name i) id execs).1 in
  orig_id path name = Some id /\ getTargetName name = Done (in_target i).
Proof.
  intros Hi Hid. pose proof (input_ok_target i Hi) as Hf. unfold pivot_name. case_bool_decide as E; cbv zeta; cbn [fst].
  - split; [|done]. by rewrite (orig_id_path _ path (in_path i) _ Hi).
  - destruct (invented_name_shape out_len (in_target i) id execs (in_name i)) as [rest ->].
    split; [by apply case_name_id|by apply case_name_target].
Qed.

(** Names in a directory have the numbers that have been given out. *)
Definition numbered (id : Z) (dir : list (list Z)) : Prop :=
  NoDup dir /\ forall name, name ∈ dir -> exists i, orig_id [] name = Some i /\ 0 <= i < id.

Lemma numbered_create id dir name :
  numbered id dir -> orig_id [] name = Some id -> 0 <= id ->
  create name dir = Done (name :: dir) /\ numbered (id + 1) (name :: dir).
Proof.
  intros [Hn Hd] Hid H0. assert (Hnot : name ∉ dir).
  { intros Hin. destruct (Hd name Hin) as (i & Hi & Hlt). rewrite Hid in Hi. injection Hi as <-. lia. }
  unfold create. rewrite bool_decide_eq_false_2 by done. split; [done|]. split; [by constructor|].
  intros x [->|Hx]%elem_of_cons; [exists id; split; [done|lia]|]. destruct (Hd x Hx) as (i & Hi & Hlt). exists i. split; [done|lia].
Qed.

Lemma numbered_mono id id' dir : id <= id' -> numbered id dir -> numbered id' dir.
Proof. intros Hle [Hn Hd]. split; [done|]. intros x Hx. destruct (Hd x Hx) as (i & Hi & ?). exists i. split; [done|lia]. Qed.

(** The depth is all that changes in the queue. *)
Definition same_flags (a a' : queue) : Prop :=
  Forall2 (fun q q' => set_depth 0 q' = set_depth 0 q) (queue_buf a) (queue_buf a').

#[export] Instance same_flags_preorder : PreOrder same_flags.
Proof.
  split.
  - intros a. unfold same_flags. induction (queue_buf a); by constructor.
  - intros a b c H1 H2. unfold same_flags in *. revert H2. generalize (queue_buf c). clear c.
    induction H1 as [|x y l l' Hxy _ IH]; intros m Hm; inversion Hm as [|? z ? ? Hyz Hm']; subst; constructor; [congruence|by apply IH].
Qed.

Lemma alter_depth_flags x (k : nat) l :
  Forall2 (fun q q' => set_depth 0 q' = set_depth 0 q) l (alter (set_depth x) k l).
Proof.
  apply Forall2_same_length_lookup_2; [by rewrite length_alter|]. intros i q q' Hq Hq'. rewrite list_lookup_alter, Hq in Hq'.
  case_decide; subst; rewrite ?Hq in Hq'; by simplify_eq/=.
Qed.

Lemma depth_from_flags k src a : same_flags a (depth_from k src a).
Proof.
  unfold depth_from. destruct src as [src|]; [|reflexivity].
  set (buf := match queue_buf a !! Z.to_nat src with Some parent => _ | None => _ end).
  assert (Hb : Forall2 (fun q q' => set_depth 0 q' = set_depth 0 q) (queue_buf a) buf).
  { unfold buf. destruct (queue_buf a !! Z.to_nat src) as [p|]; [apply alter_depth_flags|].
    exact (same_flags_preorder.(PreOrder_Reflexive) a). }
  clearbody buf. cbv zeta. destruct (buf !! k) as [q|]; [|exact Hb]. destruct (max_depth _ <? q_depth q); exact Hb.
Qed.

Lemma flags_lookup a a' (k : nat) q : same_flags a a' -> queue_buf a !! k = Some q ->
  exists q', queue_buf a' !! k = Some q' /\ q_disabled q' = q_disabled q /\ q_passed_det q' = q_passed_det q.
Proof.
  intros H Hq. destruct (Forall2_lookup_l _ _ _ _ _ H Hq) as (q' & Hq' & E). exists q'.
  split; [done|]. unfold set_depth in E. by injection E.
Qed.

(** The number of entries in use among the first ones: the number an entry is given *)
Definition rank (a : queue) (k : nat) : Z := Z.of_nat (length (filter (fun q => q_disabled q = false) (take k (queue_buf a)))).

Lemma rank_S a k q : queue_buf a !! k = Some q -> rank a (S k) = rank a k + (if q_disabled q then 0 else 1).
Proof.
  intros Hq. unfold rank. rewrite (take_S_r _ _ _ Hq), filter_app, filter_cons, filter_nil, length_app.
  destruct (q_disabled q); [rewrite decide_False|rewrite decide_True]; cbn [length]; try done; lia.
Qed.

Lemma rank_le a k : 0 <= rank a k <= Z.of_nat k.
Proof. unfold rank. pose proof (length_filter (fun q => q_disabled q = false) (take k (queue_buf a))). rewrite length_take in *. lia. Qed.

(** What has become of entry [k] of [s] *)
Definition pivoted (out_len execs : Z) (s : startup) (s' : startup) (k : nat) : Prop :=
  forall i q, s_inputs s !! k = Some i -> queue_buf (s_queue s) !! k = Some q -> q_disabled q = false ->
  exists i', s_inputs s' !! k = Some i' /\ in_target i' = in_target i
    /\ in_name i' = (pivot_name out_len (in_target i) (in_path i) (in_name i) (rank (s_queue s) k) execs).1
    /\ in_name i' ∈ s_queue_dir s'.

Record pivot_inv (out_len execs : Z) (s0 : startup) (k : nat) (s : startup) : Prop := {
  pv_flags : same_flags (s_queue s0) (s_queue s);
  pv_length : length (s_inputs s) = length (s_inputs s0);
  pv_left : forall j, (k <= j)%nat -> s_inputs s !! j = s_inputs s0 !! j;
  pv_done : forall j, (j < k)%nat -> pivoted out_len execs s0 s j;
  pv_dir : numbered (rank (s_queue s0) k) (s_queue_dir s);
  pv_det : numbered (rank (s_queue s0) k) (s_det_done s);
  pv_count : Z.of_nat (length (s_queue_dir s)) = rank (s_queue s0) k;
}.

Lemma pivoted_frame out_len execs s0 s s' j :
  s_inputs s' !! j = s_inputs s !! j -> (forall x, x ∈ s_queue_dir s -> x ∈ s_queue_dir s') ->
  pivoted out_len execs s0 s j -> pivoted out_len execs s0 s' j.
Proof.
  intros Ei Hd H i q Hi Hq Hdis. destruct (H i q Hi Hq Hdis) as (i' & Hi' & Ht & Hn & Hin).
  exists i'. rewrite Ei. auto.
Qed.

Lemma rd_lookup {A} (l : list A) (k : nat) x : l !! k = Some x -> rd l (Z.of_nat k) = Done x.
Proof. intros E. unfold rd. rewrite (proj2 (Z.leb_le _ _)) by lia. by rewrite Nat2Z.id, E. Qed.

(** One entry in use *)
Lemma pivot_one_ok out_dir execs s0 k s i q :
  let out_len := Z.of_nat (length (out_dir ++ text "/queue/")) in
  pivot_inv out_len execs s0 k s -> s_inputs s0 !! k = Some i -> queue_buf (s_queue s0) !! k = Some q ->
  q_disabled q = false -> input_ok i -> rank (s_queue s0) k < 10 ^ 6 ->
  exists s', pivot_one out_dir execs k (rank (s_queue s0) k) s = Done s' /\ pivot_inv out_len execs s0 (S k) s'.
Proof.
  intros out_len [P1 P2 P3 P4 P5 P6 P7] Hi Hq Hd Hok Hr. pose proof (rank_le (s_queue s0) k) as [Hr0 _].
  destruct (flags_lookup _ _ _ _ P1 Hq) as (q1 & Hq1 & Hd1 & Hdet1).
  unfold pivot_one. fold out_len. rewrite (rd_lookup (s_inputs s) k i) by (by rewrite P3). cbn [mbind outcome_bind].
  rewrite (rd_lookup _ _ _ Hq1). cbn [mbind outcome_bind].
  destruct (pivot_name_ok out_len i (rank (s_queue s0) k) execs [] Hok ltac:(lia)) as [Hid _].
  set (pn := pivot_name out_len (in_target i) (in_path i) (in_name i) (rank (s_queue s0) k) execs) in *.
  destruct pn as [name kept] eqn:Epn. cbn [fst] in Hid. cbv zeta.
  set (s1 := if kept then _ else s).
  assert (H1 : same_flags (s_queue s0) (s_queue s1) /\ s_inputs s1 = s_inputs s /\ s_queue_dir s1 = s_queue_dir s /\ s_det_done s1 = s_det_done s).
  { unfold s1. destruct kept; [|done]. split; [|done]. simpl. etrans; [exact P1|]. apply depth_from_flags. }
  destruct H1 as (F1 & I1 & D1 & T1). clearbody s1. rewrite D1, T1, I1.
  destruct (numbered_create _ _ name P5 Hid ltac:(lia)) as [-> N1]. cbn [mbind outcome_bind].
  destruct (numbered_create _ _ name P6 Hid ltac:(lia)) as [Ec N2].
  assert (Hrk : rank (s_queue s0) (S k) = rank (s_queue s0) k + 1) by (rewrite (rank_S _ _ _ Hq), Hd; lia).
  assert (Hdet : exists det, (if q_passed_det q1 then create name (s_det_done s) else Done (s_det_done s)) = Done det
    /\ numbered (rank (s_queue s0) k + 1) det).
  { destruct (q_passed_det q1); [by eexists|]. eexists. split; [done|]. eapply numbered_mono; [|exact P6]. lia. }
  destruct Hdet as (det & -> & N3). cbn [mbind outcome_bind]. eexists. split; [done|].
  pose proof (lookup_lt_Some _ _ _ Hi) as Hlt. split; cbn [s_queue s_inputs s_queue_dir s_det_done set_dirs set_inputs]; rewrite ?Hrk; try done.
  - by rewrite length_insert.
  - intros j Hj. rewrite list_lookup_insert_ne by lia. apply P3. lia.
  - intros j Hj. destruct (decide (j = k)) as [->|].
    + intros i2 q2 Hi2 _ _. rewrite Hi in Hi2. injection Hi2 as <-. eexists. simpl.
      split; [apply list_lookup_insert_eq; lia|]. fold pn. rewrite Epn. split; [done|]. split; [done|]. simpl. set_solver.
    + apply (pivoted_frame _ _ _ s); [simpl; by rewrite list_lookup_insert_ne|simpl; set_solver|]. apply P4. lia.
  - cbn [length]. lia.
Qed.

Lemma pivot_loop_ok out_dir execs s0 n k s :
  let out_len := Z.of_nat (length (out_dir ++ text "/queue/")) in
  pivot_inv out_len execs s0 k s -> (k + n)%nat = length (queue_buf (s_queue s0)) ->
  length (s_inputs s0) = length (queue_buf (s_queue s0)) -> Forall input_ok (s_inputs s0) ->
  Z.of_nat (length (queue_buf (s_queue s0))) <= 10 ^ 6 ->
  exists s', pivot_loop out_dir execs n k (rank (s_queue s0) k) s = Done s'
    /\ pivot_inv out_len execs s0 (length (queue_buf (s_queue s0))) s'.
Proof.
  intros out_len. revert k s. induction n as [|n IH]; intros k s Hv Hk Hl Hok Hsz; cbn [pivot_loop].
  { exists s. split; [done|]. by rewrite <- Hk, Nat.add_0_r. }
  destruct (lookup_lt_is_Some_2 (queue_buf (s_queue s0)) k) as [q Hq]; [lia|].
  destruct (lookup_lt_is_Some_2 (s_inputs s0) k) as [i Hi]; [lia|].
  destruct (flags_lookup _ _ _ _ (pv_flags _ _ _ _ _ Hv) Hq) as (q1 & Hq1 & Hd1 & _).
  rewrite (rd_lookup _ _ _ Hq1). cbn [mbind outcome_bind]. rewrite Hd1.
  pose proof (rank_S _ _ _ Hq) as HS. destruct (q_disabled q) eqn:Hd.
  - rewrite Z.add_0_r in HS. rewrite <- HS. apply IH; try done; [|lia].
    destruct Hv as [P1 P2 P3 P4 P5 P6 P7]. split; rewrite ?HS; try done.
    + intros j Hj. apply P3. lia.
    + intros j Hj. destruct (decide (j = k)) as [->|]; [|apply P4; lia]. intros i2 q2 _ Hq2 Hd2. congruence.
  - pose proof (rank_le (s_queue s0) k). destruct (pivot_one_ok out_dir execs s0 k s i q Hv Hi Hq Hd) as (s' & -> & Hv').
    { by apply (Forall_lookup_1 _ _ _ _ Hok Hi). } { lia. }
    cbn [mbind outcome_bind]. rewrite <- HS. apply IH; try done. lia.
Qed.

(** The state [pivot_inputs] starts in: an input for every entry, with its target in its
    name, and a queue directory without files *)
Record pivot_ready (s : startup) : Prop := {
  pr_inputs : length (s_inputs s) = length (queue_buf (s_queue s));
  pr_names : Forall input_ok (s_inputs s);
  pr_size : Z.of_nat (length (queue_buf (s_queue s))) <= 10 ^ 6;
  pr_dir : s_queue_dir s = [];
  pr_det : s_det_done s = [];
}.

Lemma pivot_inputs_ok out_dir execs s :
  pivot_ready s -> exists s', pivot_inputs out_dir execs s = Done s'
    /\ pivot_inv (Z.of_nat (length (out_dir ++ text "/queue/"))) execs s (length (queue_buf (s_queue s))) s'.
Proof.
  intros [R1 R2 R3 R4 R5]. unfold pivot_inputs. apply (pivot_loop_ok out_dir execs s _ 0 s); try done.
  assert (Hn : numbered (rank (s_queue s) 0) []) by (split; [constructor|]; by intros ? ?%elem_of_nil).
  split; rewrite ?R4, ?R5; try done; lia.
Qed.

(** ** Lemmas on [read_testcases] *)

Section reading.
Context (cmplog_lvl : option Z) (targetNames : list (list Z)) (det_done : list Z -> bool).

(** A file that becomes an entry *)
Definition usable (dir : list Z) (f : list Z * Z) : Prop :=
  f.2 <> 0 /\ contains (dir ++ text "/" ++ f.1) (text "/README.txt") = false /\ exists t, getTargetName f.1 = Done t.

Definition as_input (dir : list Z) (f : list Z * Z) : input := Input (dir ++ text "/" ++ f.1) f.1 (up_to 45 f.1).

Lemma target_is_front name t : getTargetName name = Done t -> t = up_to 45 name.
Proof. unfold getTargetName. destruct (after_char 45 name); [by intros [= <-]|done]. Qed.

(** Only the entries, their inputs and the bound on the size change. *)
Definition reads (dir : list Z) (l : list (list Z * Z)) (s s' : startup) : Prop :=
  s_inputs s' = s_inputs s ++ map (as_input dir) l
  /\ (exists new, queue_buf (s_queue s') = queue_buf (s_queue s) ++ new /\ length new = length l
        /\ Forall (fun q => q_disabled q = false) new)
  /\ s_queue_dir s' = s_queue_dir s /\ s_det_done s' = s_det_done s.

Lemma note_size_same size s :
  s_inputs (note_size cmplog_lvl size s) = s_inputs s /\ s_queue (note_size cmplog_lvl size s) = s_queue s
  /\ s_queue_dir (note_size cmplog_lvl size s) = s_queue_dir s /\ s_det_done (note_size cmplog_lvl size s) = s_det_done s.
Proof. unfold note_size. repeat case_match; done. Qed.

Lemma read_file_ok dir f s :
  usable dir f -> exists s', read_file cmplog_lvl targetNames det_done dir f.1 f.2 s = Done s' /\ reads dir [f] s s'.
Proof.
  intros (Hs & Hr & t & Ht). unfold read_file. cbv zeta. rewrite (proj2 (Z.eqb_neq _ _) Hs), Hr, Ht. cbn [orb mbind outcome_bind].
  eexists. split; [done|]. match goal with |- reads _ _ _ (note_size _ ?z ?x) => destruct (note_size_same z x) as (E1 & E2 & E3 & E4) end.
  unfold reads. rewrite E1, E2, E3, E4. cbn [s_inputs s_queue s_queue_dir s_det_done set_inputs set_squeue]. apply target_is_front in Ht as ->.
  split; [done|]. split; [|done]. unfold add_to_queue. simpl. eexists. split; [done|]. split; [done|]. by repeat constructor.
Qed.

Lemma reads_trans dir l1 l2 s1 s2 s3 : reads dir l1 s1 s2 -> reads dir l2 s2 s3 -> reads dir (l1 ++ l2) s1 s3.
Proof.
  intros (A1 & (n1 & A2 & A3 & A4) & A5 & A6) (B1 & (n2 & B2 & B3 & B4) & B5 & B6).
  split; [by rewrite B1, A1, map_app, app_assoc|]. split; [|by rewrite B5, B6].
  exists (n1 ++ n2). rewrite B2, A2, app_assoc, !length_app, A3, B3. split; [done|]. split; [done|]. by apply Forall_app.
Qed.

(** The files of a directory become entries in reverse order. *)
Lemma read_nodes_ok subdirs dir l s :
  Forall (usable dir) l ->
  exists s', read_nodes cmplog_lvl targetNames det_done subdirs dir (map (fun f => Regular f.1 f.2) l) s = Done s'
    /\ reads dir (reverse l) s s'.
Proof.
  induction 1 as [|f l Hf _ IH].
  { exists s. split; [done|]. split; [by rewrite reverse_nil, app_nil_r|]. split; [|done]. exists []. by rewrite app_nil_r. }
  destruct IH as (s1 & E1 & H1). destruct (read_file_ok dir f s1 Hf) as (s2 & E2 & H2).
  exists s2. cbn [map read_nodes]. rewrite E1. cbn [mbind outcome_bind read_node]. split; [exact E2|].
  rewrite reverse_cons. by eapply reads_trans.
Qed.

Lemma round_size_same s :
  s_inputs (round_size cmplog_lvl s) = s_inputs s /\ s_queue (round_size cmplog_lvl s) = s_queue s
  /\ s_queue_dir (round_size cmplog_lvl s) = s_queue_dir s /\ s_det_done (round_size cmplog_lvl s) = s_det_done s.
Proof. unfold round_size. by destruct cmplog_lvl. Qed.

Lemma read_testcases_ok in_dir other l s :
  Forall (usable (in_dir ++ text "/queue")) l -> l <> [] ->
  exists s', read_testcases cmplog_lvl targetNames det_done in_dir (Some (map (fun f => Regular f.1 f.2) l)) other s = Done s'
    /\ reads (in_dir ++ text "/queue") (reverse l) s s'.
Proof.
  intros Hl Hne. unfold read_testcases. destruct (read_nodes_ok false (in_dir ++ text "/queue") l s Hl) as (s1 & -> & H1).
  cbn [mbind outcome_bind]. destruct H1 as (A1 & (n1 & A2 & A3 & A4) & A5 & A6). rewrite A2, length_app, A3, length_reverse.
  destruct l as [|f l]; [done|]. rewrite (proj2 (Nat.eqb_neq _ _)) by (cbn [length]; lia).
  eexists. split; [done|]. destruct (round_size_same s1) as (E1 & E2 & E3 & E4). unfold reads. rewrite E1, E2, E3, E4, A5, A6.
  split; [exact A1|]. split; [|done]. exists n1. by rewrite length_reverse in *.
Qed.
End reading.

Lemma rank_all a k : Forall (fun q => q_disabled q = false) (queue_buf a) -> (k <= length (queue_buf a))%nat -> rank a k = Z.of_nat k.
Proof.
  intros Hf Hk. unfold rank. f_equal. rewrite <- (length_take_le (queue_buf a) k) at 2 by done.
  apply (Forall_take _ k) in Hf. generalize dependent (take k (queue_buf a)). intros l Hf. clear Hk.
  induction Hf as [|q l Hq _ IH]; [done|]. rewrite filter_cons, decide_True by done. cbn [length]. by rewrite IH.
Qed.

(** ** Theorems *)

(** C27: [pivot_inputs] gives every entry in use a name of its own in the queue directory and
    never fails on a name that exists.  The name has the target of the entry, and as its
    number the position of the entry among those in use; a name that had this number already
    is kept. *)
Theorem pivot_inputs_correct out_dir execs s :
  pivot_ready s -> exists s', pivot_inputs out_dir execs s = Done s'
    /\ same_flags (s_queue s) (s_queue s') /\ length (s_inputs s') = length (s_inputs s)
    /\ NoDup (s_queue_dir s') /\ Z.of_nat (length (s_queue_dir s')) = rank (s_queue s) (length (queue_buf (s_queue s)))
    /\ forall k i q, s_inputs s !! k = Some i -> queue_buf (s_queue s) !! k = Some q -> q_disabled q = false ->
       exists i', s_inputs s' !! k = Some i' /\ in_name i' ∈ s_queue_dir s' /\ input_ok i' /\ in_target i' = in_target i
         /\ orig_id (in_path i') (in_name i') = Some (rank (s_queue s) k)
         /\ (orig_id (in_path i) (in_name i) = Some (rank (s_queue s) k) -> in_name i' = in_name i).
Proof.
  intros Hr. destruct (pivot_inputs_ok out_dir execs s Hr) as (s' & E & [P1 P2 P3 P4 P5 P6 P7]).
  exists s'. split; [done|]. split; [done|]. split; [done|]. split; [apply P5|]. split; [done|].
  intros k i q Hi Hq Hd. pose proof (lookup_lt_Some _ _ _ Hq) as Hlt. destruct (P4 k Hlt i q Hi Hq Hd) as (i' & Hi' & Ht & Hn & Hin).
  pose proof (Forall_lookup_1 _ _ _ _ (pr_names _ Hr) Hi) as Hok. pose proof (rank_le (s_queue s) k) as Hrk.
  pose proof (pr_size _ Hr) as Hsz.
  destruct (pivot_name_ok (Z.of_nat (length (out_dir ++ text "/queue/"))) i (rank (s_queue s) k) execs (in_path i') Hok ltac:(lia)) as [H1 H2].
  exists i'. split; [done|]. split; [done|]. unfold input_ok. rewrite Hn, Ht. split; [done|]. split; [done|]. split; [done|].
  intros Ho. unfold pivot_name. by rewrite bool_decide_eq_true_2.
Qed.

(** Reading back the queue of a session reverses it.  The files of one directory, whose
    numbers are their positions, come back in the opposite order; [pivot_inputs] gives them
    new numbers, and keeps the name only of the one in the middle. *)
Theorem resume_renumbers lvl targets det in_dir out_dir other execs (files : list (list Z * Z)) s :
  queue_buf (s_queue s) = [] -> s_inputs s = [] -> s_queue_dir s = [] -> s_det_done s = [] ->
  files <> [] -> Z.of_nat (length files) <= 10 ^ 6 -> Forall (usable (in_dir ++ text "/queue")) files ->
  (forall k f, files !! k = Some f -> orig_id [] f.1 = Some (Z.of_nat k)) ->
  exists s1 s2, read_testcases lvl targets det in_dir (Some (map (fun f => Regular f.1 f.2) files)) other s = Done s1
    /\ pivot_inputs out_dir execs s1 = Done s2
    /\ forall k f, (k < length files)%nat -> files !! (length files - 1 - k)%nat = Some f ->
         exists i, s_inputs s2 !! k = Some i /\ in_target i = up_to 45 f.1
           /\ orig_id (in_path i) (in_name i) = Some (Z.of_nat k)
           /\ (in_name i = f.1 <-> (length files - 1 - k)%nat = k).
Proof.
  intros Hq0 Hi0 Hd0 Ht0 Hne Hsz Hu Hnum.
  destruct (read_testcases_ok lvl targets det in_dir other files s Hu Hne) as (s1 & E1 & A1 & (new & A2 & A3 & A4) & A5 & A6).
  rewrite Hq0 in A2. rewrite Hi0 in A1. simpl in A1, A2. rewrite length_reverse in A3.
  assert (Hready : pivot_ready s1).
  { split; rewrite ?A1, ?A2, ?A5, ?A6, ?length_map, ?length_reverse, ?A3; try done. apply Forall_map, Forall_reverse.
    apply (Forall_impl _ _ _ Hu). intros f (_ & _ & t & Ht). unfold input_ok. simpl. by rewrite Ht, <- (target_is_front _ _ Ht). }
  destruct (pivot_inputs_ok out_dir execs s1 Hready) as (s2 & E2 & [P1 P2 P3 P4 P5 P6 P7]).
  exists s1, s2. split; [done|]. split; [done|]. intros k f Hk Hf. rewrite A2, A3 in P4.
  destruct (lookup_lt_is_Some_2 new k) as [q Hq]; [lia|]. assert (Hin : s_inputs s1 !! k = Some (as_input (in_dir ++ text "/queue") f)).
  { rewrite A1. change (map ?g) with (fmap (M:=list) g). rewrite list_lookup_fmap, reverse_lookup by done.
    replace (length files - S k)%nat with (length files - 1 - k)%nat by lia. by rewrite Hf. }
  assert (Hr : rank (s_queue s1) k = Z.of_nat k) by (apply rank_all; rewrite A2; [done|lia]).
  destruct (P4 k Hk _ q Hin ltac:(by rewrite A2) (Forall_lookup_1 _ _ _ _ A4 Hq)) as (i & Hi & Ht & Hn & _). rewrite Hr in Hn.
  pose proof (Forall_lookup_1 _ _ _ _ (pr_names _ Hready) Hin) as Hok.
  destruct (pivot_name_ok (Z.of_nat (length (out_dir ++ text "/queue/"))) (as_input (in_dir ++ text "/queue") f) (Z.of_nat k) execs (in_path i)
    Hok ltac:(lia)) as [Ho _]. rewrite <- Hn in Ho.
  assert (Hof : forall path, orig_id path f.1 = Some (Z.of_nat (length files - 1 - k))).
  { intros path. rewrite <- (Hnum _ _ Hf). exact (orig_id_path _ path [] _ Hok). }
  exists i. split; [done|]. split; [done|]. split; [done|]. split.
  - intros Ef. rewrite Ef, Hof in Ho. injection Ho as Ho. lia.
  - intros Em. rewrite Hn. unfold pivot_name. simpl. by rewrite bool_decide_eq_true_2 by (rewrite Hof; f_equal; lia).
Qed.

(** ** Examples *)

Definition empty_startup : startup := Startup (queue_init 64 EXPLORE false [true]) [] [] [] false 0.
Definition sample_files : list (list Z * Z) :=
  [(text "parse-id:000000,time:0,execs:0,orig:a", 4); (text "parse-id:000001,src:000000,time:9,execs:5,op:havoc,rep:2", 7);
   (text "parse-id:000002,src:000001,time:9,execs:8,op:flip1,pos:3", 7)].

Lemma resume_renumbers_witness :
  exists s1 s2, read_testcases None [text "parse"] (fun _ => false) (text "in")
      (Some (map (fun f => Regular f.1 f.2) sample_files)) [] empty_startup = Done s1
    /\ pivot_inputs (text "out") 0 s1 = Done s2
    /\ exists i, s_inputs s2 !! 0%nat = Some i /\ in_name i <> text "parse-id:000002,src:000001,time:9,execs:8,op:flip1,pos:3".
Proof.
  destruct (resume_renumbers None [text "parse"] (fun _ => false) (text "in") (text "out") [] 0 sample_files empty_startup
    eq_refl eq_refl eq_refl eq_refl ltac:(done) ltac:(done)) as (s1 & s2 & E1 & E2 & H).
  - repeat (apply Forall_cons; split; [split; [done|]; split; [vm_compute; reflexivity|]; eexists; vm_compute; reflexivity|]). apply Forall_nil_2.
  - intros k f Hf. destruct k as [|[|[|k]]]; simplify_eq/=; vm_compute; reflexivity.
  - exists s1, s2. split; [exact E1|]. split; [exact E2|].
    destruct (H 0%nat _ ltac:(vm_compute; lia) eq_refl) as (i & Hi & _ & _ & Hn). exists i. split; [exact Hi|].
    intros Hname. apply Hn in Hname. discriminate Hname.
Defined.

(** The names that result: the queue is turned around, the middle one keeps its name. *)
Example sample_resumed :
  match read_testcases None [text "parse"] (fun _ => false) (text "in") (Some (map (fun f => Regular f.1 f.2) sample_files)) [] empty_startup with
  | Done s1 => match pivot_inputs (text "out") 0 s1 with Done s2 => map in_name (s_inputs s2) | _ => [] end
  | _ => []
  end = [text "parse-id:000000,time:0,execs:0,orig:parse-id:000002,src:000001,time:9,execs:8,op:flip1,pos:3";
         text "parse-id:000001,src:000000,time:9,execs:5,op:havoc,rep:2";
         text "parse-id:000002,time:0,execs:0,orig:a"].
Proof. vm_compute. reflexivity. Qed.

(** A directory with a file that has no target in its name cannot be read. *)
Example plain_seed_crashes :
  read_testcases None [text "parse"] (fun _ => false) (text "in") None [Regular (text "seed1") 4] empty_startup = Oob.
Proof. vm_compute. reflexivity. Qed.

Definition sample_seeds : startup :=
  Startup (add_to_queue 7 true 0 (add_to_queue 4 false 0 (queue_init 64 EXPLORE false [true])))
    [Input (text "/tmp/parse-initialAB12Cd") (text "parse-initialAB12Cd") (text "parse");
     Input (text "/tmp/parse-id:000001,src:000000") (text "parse-id:000001,src:000000") (text "parse")] [] [] false 0.

Lemma pivot_inputs_correct_witness :
  exists s', pivot_inputs (text "out") 0 sample_seeds = Done s' /\ NoDup (s_queue_dir s')
    /\ exists i', s_inputs s' !! 1%nat = Some i' /\ in_name i' = text "parse-id:000001,src:000000".
Proof.
  destruct (pivot_inputs_correct (text "out") 0 sample_seeds) as (s' & E & _ & _ & Hn & _ & H).
  - split; [done| |done|done|done]. repeat (apply Forall_cons; split; [vm_compute; reflexivity|]). apply Forall_nil_2.
  - exists s'. split; [exact E|]. split; [exact Hn|].
    destruct (H 1%nat _ _ eq_refl eq_refl eq_refl) as (i' & Hi' & _ & _ & _ & _ & Hk). exists i'. split; [exact Hi'|].
    apply Hk. vm_compute. reflexivity.
Defined.
