(* ===== verification/AliasTheorems.v ===== *)
(** * The alias method draws entries in proportion to their weights

    For numbers of any kind, NaN included, the construction of [Alias] stays within its
    arrays, ends and leaves tables whose aliases are slots.  For exact rationals the tables
    realise the weights: [exact_slots] follows the rounds with every scaled weight as an
    integer over the sum of the weights, so that the reasoning is on integers. *)
From Stdlib Require Import QArith Lqa.
From S2P Require Import Prelude Alias.
#[local] Open Scope Z_scope.

(** ** Numbers of any kind *)

Lemma fill_tables_safe {D} `{!Number D} (n : nat) (P : list D) S L :
  Z.of_nat n < 2 ^ 31 -> length P = n -> length S = n -> length L = n ->
  exists t, fill_tables (Z.of_nat n) P S L = Done t
    /\ length (alias_probability t) = n /\ length (alias_table t) = n
    /\ Forall (fun i => 0 <= i < Z.of_nat n) (alias_table t).
Proof.
  intros Hn HP HS HL.
  destruct (fill_tables_rounds n P S L Hn HP HS HL) as (x & y & _ & _ & _ & _ & _ & _ & Hok & _ & _ & E).
  eexists. split; [exact E|]. cbn [alias_probability alias_table]. rewrite length_set_ones.
  split_and!; apply Hok.
Qed.

Lemma pick_in_range {D} `{!Number D} (n : nat) (t : tables D) s p :
  length (alias_probability t) = n -> length (alias_table t) = n ->
  Forall (fun i => 0 <= i < Z.of_nat n) (alias_table t) -> 0 <= s < Z.of_nat n ->
  exists i, pick t s p = Done i /\ 0 <= i < Z.of_nat n.
Proof.
  intros Hp Ha Hr Hs. unfold pick. rewrite <- (Z2Nat.id s) by lia.
  destruct (lookup_lt_is_Some_2 (alias_probability t) (Z.to_nat s)) as [q Hq]; [lia|].
  destruct (lookup_lt_is_Some_2 (alias_table t) (Z.to_nat s)) as [g Hg]; [lia|].
  rewrite (rd_Some _ _ _ Hq), (rd_Some _ _ _ Hg). cbn [mbind outcome_bind].
  destruct (nlt p q); [exists (Z.of_nat (Z.to_nat s)); split; [done|lia]|].
  exists g. split; [done|]. rewrite Forall_forall in Hr. apply Hr. by eapply list_elem_of_lookup_2.
Qed.

(** ** Sums over lists of slots *)

Definition zsum {A} (f : A -> Z) (l : list A) : Z := foldr (fun s acc => f s + acc) 0 l.

Lemma zsum_cons {A} (f : A -> Z) x l : zsum f (x :: l) = f x + zsum f l.
Proof. done. Qed.

Lemma zsum_app {A} (f : A -> Z) l k : zsum f (l ++ k) = zsum f l + zsum f k.
Proof. induction l as [|x l IH]; simpl; lia. Qed.

#[global] Instance zsum_perm {A} (f : A -> Z) : Proper ((≡ₚ) ==> (=)) (zsum f).
Proof. induction 1; simpl; lia. Qed.

Lemma zsum_ext {A} (f g : A -> Z) l : (forall s, s ∈ l -> f s = g s) -> zsum f l = zsum g l.
Proof.
  induction l as [|x l IH]; intros H; [done|]. simpl. rewrite (H x) by apply list_elem_of_here.
  rewrite IH; [done|]. intros s Hs. apply H. by apply list_elem_of_further.
Qed.

(** ** Exact numbers *)

Section exact.
(** The sum of the weights, and the scaled weights times this sum *)
Context (W : Z) (n : nat) (z0 : nat -> Z).
Hypothesis HW : 0 < W.

(** The number [q] is [z] over the sum of the weights. *)
Definition over (q : Q) (z : Z) : Prop := Qeq q (Qdiv (inject_Z z) (inject_Z W)).

Lemma over_W : ~ Qeq (inject_Z W) 0%Q.
Proof using HW. intros E. apply (inject_Z_injective W 0) in E. lia. Qed.

Lemma over_one : over (of_int 1) W.
Proof using HW. unfold over. simpl. symmetry. apply Qmult_inv_r, over_W. Qed.

Lemma over_step q1 z1 q2 z2 :
  over q1 z1 -> over q2 z2 -> over (nsub (nadd q1 q2) (of_int 1)) (z1 + z2 - W).
Proof using HW.
  intros H1 H2. pose proof over_one as H3. unfold over in *. cbn [nsub nadd of_int rational_number] in *.
  rewrite H1, H2, H3. unfold Z.sub. rewrite !inject_Z_plus, inject_Z_opp. field. exact over_W.
Qed.

Lemma over_lt q1 z1 q2 z2 : over q1 z1 -> over q2 z2 -> nlt q1 q2 = (z1 <? z2).
Proof using HW.
  intros H1 H2. unfold over in *. cbn [nlt rational_number].
  assert (HWq : Qlt 0 (inject_Z W)) by (unfold Qlt; simpl; lia).
  destruct (Qle_bool q2 q1) eqn:E; symmetry; simpl.
  - apply Z.ltb_ge. apply Qle_bool_iff in E. rewrite H1, H2 in E. unfold Qdiv in E.
    apply Qmult_le_r in E; [by rewrite <- Zle_Qle in E|by apply Qinv_lt_0_compat].
  - apply Z.ltb_lt. apply Z.nle_gt. intros Hle. apply not_true_iff_false in E. apply E, Qle_bool_iff.
    rewrite H1, H2. unfold Qdiv. apply Qmult_le_compat_r; [by rewrite <- Zle_Qle|].
    apply Qlt_le_weak, Qinv_lt_0_compat, HWq.
Qed.

(** What the slot [s] contributes to the entry [i] *)
Definition contrib (ms al : list Z) (i s : nat) : Z :=
  (if (s =? i)%nat then ms !!! s else 0) + (if al !!! s =? Z.of_nat i then W - ms !!! s else 0).

(** The slots [settled] so far and the remaining ones share out the weights. *)
Record exact_slots (x : slots) (settled : list nat) (zs ms : list Z) : Prop := {
  ex_P : Forall2 over (sP x) zs;
  ex_prob : Forall2 over (sprob x) ms;
  ex_all : settled ++ remaining x ≡ₚ seq 0 n;
  ex_share : forall i, zsum (contrib ms (salias x) i) settled
    + zsum (fun s => if (s =? i)%nat then zs !!! s else 0) (remaining x) = z0 i;
  ex_sum : zsum (fun s => zs !!! s) (remaining x) = W * Z.of_nat (length (remaining x));
  ex_pos : forall s, s ∈ remaining x -> 0 <= zs !!! s;
  ex_settled : forall s, s ∈ settled -> 0 <= ms !!! s <= W;
}.

Lemma over_lookup P zs i p : Forall2 over P zs -> P !! i = Some p -> over p (zs !!! i).
Proof using Type.
  intros H Hp. destruct (Forall2_lookup_l _ _ _ _ _ H Hp) as (z & Hz & Hover).
  by rewrite (list_lookup_total_correct _ _ _ Hz).
Qed.

Lemma side_lt P zs i b : Forall2 over P zs -> side b P i -> (zs !!! i <? W) = b.
Proof using HW.
  intros H (p & Hp & Hb). rewrite <- Hb. symmetry.
  apply over_lt; [by eapply over_lookup|exact over_one].
Qed.

(** Moving the weight [W - za] from [g] to the slot [a] changes nobody's share. *)
Lemma settle_shares alias settled a g rest zs ms :
  NoDup (settled ++ a :: g :: rest) ->
  (a < length ms)%nat -> (a < length alias)%nat -> (g < length zs)%nat ->
  let za := zs !!! a in
  let zs' := <[g := zs !!! g + za - W]> zs in
  (forall i, zsum (contrib (<[a := za]> ms) (<[a := Z.of_nat g]> alias) i) (a :: settled)
      + zsum (fun s => if (s =? i)%nat then zs' !!! s else 0) (g :: rest)
    = zsum (contrib ms alias i) settled
      + zsum (fun s => if (s =? i)%nat then zs !!! s else 0) (a :: g :: rest))
  /\ zsum (fun s => zs' !!! s) (g :: rest) = zsum (fun s => zs !!! s) (a :: g :: rest) - W
  /\ (forall s, s ∈ rest -> zs' !!! s = zs !!! s) /\ zs' !!! g = zs !!! g + za - W
  /\ (forall s, s ∈ settled -> <[a := za]> ms !!! s = ms !!! s) /\ <[a := za]> ms !!! a = za.
Proof using Type.
  intros Hnd Ha Hal Hg za zs'.
  apply NoDup_app in Hnd as (_ & Hdis & Hnd). apply NoDup_cons in Hnd as [Hna Hnd].
  apply NoDup_cons in Hnd as [Hng _]. apply not_elem_of_cons in Hna as [Hag Hna].
  assert (Hsa : forall s, s ∈ settled -> a <> s) by (intros s Hs' ->; by eapply Hdis; [exact Hs'|apply list_elem_of_here]).
  assert (Hma : <[a := za]> ms !!! a = za) by (by apply list_lookup_total_insert_eq).
  assert (Hala : <[a := Z.of_nat g]> alias !!! a = Z.of_nat g) by (by apply list_lookup_total_insert_eq).
  assert (Hzg : zs' !!! g = zs !!! g + za - W) by (by apply list_lookup_total_insert_eq).
  assert (Hrest : forall s, s ∈ rest -> zs' !!! s = zs !!! s)
    by (intros s Hs'; apply list_lookup_total_insert_ne; by intros ->).
  assert (Hset : forall s, s ∈ settled -> <[a := za]> ms !!! s = ms !!! s)
    by (intros s Hs'; by apply list_lookup_total_insert_ne, Hsa).
  split_and!; try done.
  - intros i. rewrite !zsum_cons. rewrite (zsum_ext (contrib (<[a := za]> ms) _ i) (contrib ms alias i) settled).
    2: { intros s Hs'. unfold contrib. rewrite (Hset s Hs'), list_lookup_total_insert_ne by (by apply Hsa). done. }
    rewrite (zsum_ext (fun s => if (s =? i)%nat then zs' !!! s else 0) (fun s => if (s =? i)%nat then zs !!! s else 0) rest)
      by (intros s Hs'; by rewrite Hrest).
    unfold contrib at 1. rewrite Hma, Hala, Hzg.
    destruct (Nat.eqb_spec a i), (Nat.eqb_spec g i), (Z.eqb_spec (Z.of_nat g) (Z.of_nat i)); fold za; lia.
  - rewrite !zsum_cons, Hzg. rewrite (zsum_ext (fun s => zs' !!! s) (fun s => zs !!! s) rest) by done. fold za. lia.
Qed.

(** A round settles a small slot. *)
Lemma round_exact x y settled zs ms :
  round x y -> slots_ok n x -> classified x -> exact_slots x settled zs ms ->
  exists a zs' ms', exact_slots y (a :: settled) zs' ms'.
Proof using HW.
  intros Hround Hok [Hs Hl] Hex. destruct (round_ok n x y Hround Hok) as [_ Hperm].
  destruct Hround as [P a g pa pg ss ls prob alias Ha Hg p].
  destruct Hex as [HP Hpr Hall Hshare Hsum Hpos Hset]. cbn [sP small large sprob salias hd] in *.
  set (y := put _ _ _ _ _ _ _) in *. set (rest := ss ++ ls).
  destruct (put_same (<[g := p]> P) g p ss ls (<[a := pa]> prob) (<[a := Z.of_nat g]> alias)) as (E1 & E2 & E3).
  pose proof (remaining_put (<[g := p]> P) g p ss ls (<[a := pa]> prob) (<[a := Z.of_nat g]> alias)) as Hrem.
  fold y in E1, E2, E3, Hrem. fold rest in Hrem. rewrite Hrem in Hperm.
  setoid_rewrite Hperm in Hshare. setoid_rewrite Hperm in Hpos. rewrite Hperm in Hall, Hsum.
  pose proof (over_lookup _ _ _ _ HP Ha) as Hoa. pose proof (over_lookup _ _ _ _ HP Hg) as Hog.
  pose proof (Forall2_length _ _ _ HP) as HlP. pose proof (Forall2_length _ _ _ Hpr) as Hlpr.
  pose proof (ok_prob _ _ Hok) as Hnpr. pose proof (ok_P _ _ Hok) as HnP. pose proof (ok_alias _ _ Hok) as Hnal.
  cbn [sP sprob salias] in *. apply lookup_lt_Some in Ha as Hla. apply lookup_lt_Some in Hg as Hlg.
  destruct (settle_shares alias settled a g rest zs ms) as (Hsh & Hsm & Hr & Hzg & Hms & Hma); [|lia..|].
  { rewrite Hall. apply NoDup_seq. }
  apply Forall_cons in Hs as [Hs _]. apply (side_lt P zs a true HP) in Hs. apply Z.ltb_lt in Hs.
  apply Forall_cons in Hl as [Hl _]. apply (side_lt P zs g false HP) in Hl. apply Z.ltb_ge in Hl.
  pose proof (Hpos a (list_elem_of_here _ _)) as Hpa.
  exists a, (<[g := zs !!! g + zs !!! a - W]> zs), (<[a := zs !!! a]> ms).
  constructor; rewrite ?E1, ?E2, ?E3.
  - apply Forall2_insert; [done|]. by apply over_step.
  - by apply Forall2_insert.
  - rewrite Hrem, <- Hall. apply Permutation_middle.
  - intros i. rewrite Hrem, Hsh. apply Hshare.
  - rewrite Hrem, Hsm, Hsum. cbn [length]. lia.
  - intros s. rewrite Hrem, elem_of_cons. intros [->|Hs']; [lia|]. rewrite Hr by done.
    apply Hpos. by do 2 apply list_elem_of_further.
  - intros s. rewrite elem_of_cons. intros [->|Hs']; [lia|]. rewrite Hms by done. by apply Hset.
Qed.

Lemma rounds_exact x y settled zs ms :
  rtc round x y -> slots_ok n x -> classified x -> exact_slots x settled zs ms ->
  exists settled' zs' ms', exact_slots y settled' zs' ms'.
Proof using HW.
  intros Hr. revert settled zs ms. induction Hr as [|x y z Hxy _ IH]; intros settled zs ms Hok Hcl Hex; [eauto|].
  destruct (round_exact x y settled zs ms Hxy Hok Hcl Hex) as (a & zs' & ms' & Hex').
  eapply IH; [by apply (round_ok n x y)|by eapply round_classified|exact Hex'].
Qed.

(** When a stack is empty, the slots that are left have exactly the average weight. *)
Lemma rest_is_average y settled zs ms :
  exact_slots y settled zs ms -> classified y -> small y = [] \/ large y = [] ->
  forall s, s ∈ remaining y -> zs !!! s = W.
Proof using HW.
  intros [HP _ _ _ Hsum _ _] [Hs Hl] Hend. unfold remaining in *.
  assert (Hsm : Forall (fun s => zs !!! s < W) (small y)).
  { eapply Forall_impl; [exact Hs|]. intros s H. apply Z.ltb_lt. by eapply side_lt. }
  assert (Hlg : Forall (fun s => W <= zs !!! s) (large y)).
  { eapply Forall_impl; [exact Hl|]. intros s H. apply Z.ltb_ge. by eapply side_lt. }
  destruct Hend as [E|E]; rewrite E in Hsum |- *; rewrite ?app_nil_r in Hsum |- *; clear E Hs Hl.
  - cbn [app] in *. apply Forall_forall.
    assert (Hge : forall l, Forall (fun s => W <= zs !!! s) l ->
      W * Z.of_nat (length l) <= zsum (fun s => zs !!! s) l).
    { induction 1; [simpl; lia|]. rewrite zsum_cons. cbn [length]. lia. }
    induction Hlg as [|x l Hx Hlg IH]; [done|]. rewrite zsum_cons in Hsum. cbn [length] in Hsum.
    pose proof (Hge l Hlg). apply Forall_cons. split; [lia|]. apply IH. lia.
  - assert (Hle : forall l, Forall (fun s => zs !!! s < W) l ->
      zsum (fun s => zs !!! s) l <= W * Z.of_nat (length l)).
    { induction 1; [simpl; lia|]. rewrite zsum_cons. cbn [length]. lia. }
    destruct Hsm as [|x l Hx Hsm]; [intros s Hs; by apply not_elem_of_nil in Hs|].
    rewrite zsum_cons in Hsum. cbn [length] in Hsum. pose proof (Hle l Hsm). lia.
Qed.

Lemma set_ones_over xs prob ms :
  Forall2 over prob ms -> Forall (fun i => i < length ms)%nat xs ->
  exists ms', Forall2 over (set_ones xs prob) ms'
    /\ (forall s, s ∈ xs -> ms' !!! s = W) /\ (forall s, s ∉ xs -> ms' !!! s = ms !!! s).
Proof using HW.
  intros H. revert prob ms H. induction xs as [|x xs IH]; intros prob ms H Hr.
  { exists ms. split; [done|]. split; [|done]. intros s Hs. by apply not_elem_of_nil in Hs. }
  apply Forall_cons in Hr as [Hx Hr].
  destruct (IH (<[x := of_int 1]> prob) (<[x := W]> ms)) as (ms' & Ho & Hin & Hout).
  { apply Forall2_insert; [done|exact over_one]. } { by rewrite length_insert. }
  exists ms'. split; [exact Ho|]. split.
  - intros s. rewrite elem_of_cons. intros Hs. destruct (decide (s ∈ xs)) as [Hs'|Hs']; [by apply Hin|].
    destruct Hs as [->|Hs]; [|done]. rewrite Hout by done. by apply list_lookup_total_insert_eq.
  - intros s. rewrite not_elem_of_cons. intros [Hsx Hs]. rewrite Hout by done. by apply list_lookup_total_insert_ne.
Qed.

(** The final tables share out the weights. *)
Lemma final_shares y settled zs ms :
  exact_slots y settled zs ms -> slots_ok n y -> classified y -> small y = [] \/ large y = [] ->
  exists ms', Forall2 over (set_ones (remaining y) (sprob y)) ms'
    /\ (forall s, (s < n)%nat -> 0 <= ms' !!! s <= W)
    /\ forall i, zsum (contrib ms' (salias y) i) (seq 0 n) = z0 i.
Proof using HW.
  intros Hex Hok Hcl Hend. pose proof (rest_is_average y settled zs ms Hex Hcl Hend) as Havg.
  destruct Hex as [HP Hpr Hall Hshare _ _ Hset].
  destruct (set_ones_over (remaining y) (sprob y) ms Hpr) as (ms' & Ho & Hin & Hout).
  { rewrite <- (Forall2_length _ _ _ Hpr), (ok_prob _ _ Hok). apply Hok. }
  assert (Hnd : NoDup (settled ++ remaining y)) by (rewrite Hall; apply NoDup_seq).
  apply NoDup_app in Hnd as (_ & Hdis & _).
  assert (Hsettled : forall s, s ∈ settled -> ms' !!! s = ms !!! s) by (intros s Hs; apply Hout; by apply Hdis).
  exists ms'. split; [done|]. split.
  - intros s Hs. assert (Hs' : s ∈ settled ++ remaining y) by (rewrite Hall; apply elem_of_seq; lia).
    apply elem_of_app in Hs' as [Hs'|Hs']; [rewrite Hsettled by done; by apply Hset|]. rewrite Hin by done. lia.
  - intros i. rewrite <- Hall, zsum_app, <- (Hshare i). f_equal.
    + apply zsum_ext. intros s Hs. unfold contrib. by rewrite Hsettled.
    + apply zsum_ext. intros s Hs. unfold contrib. rewrite Hin, Havg by done.
      destruct (Nat.eqb_spec s i), (salias y !!! s =? Z.of_nat i); lia.
Qed.
End exact.

(** ** Drawing *)

(** Out of the draws of a slot [s < n] and a number [p = k/W] with [k < W], those that pick
    the entry [i] *)
Definition picks (t : tables Q) (W i s k : Z) : bool :=
  match pick t s (Qdiv (inject_Z k) (inject_Z W)) with Done j => j =? i | _ => false end.
Definition draws (t : tables Q) (n W i : Z) : Z :=
  zsum (fun s => zsum (fun k => if picks t W i s k then 1 else 0) (seqZ 0 W)) (seqZ 0 n).

Lemma zsum_const {A} (c : Z) (l : list A) : zsum (fun _ => c) l = Z.of_nat (length l) * c.
Proof. induction l as [|x l IH]; [done|]. rewrite zsum_cons, IH. cbn [length]. lia. Qed.

Lemma zsum_map {A B} (f : B -> Z) (g : A -> B) l : zsum f (g <$> l) = zsum (fun x => f (g x)) l.
Proof. induction l as [|x l IH]; [done|]. rewrite fmap_cons, !zsum_cons. by rewrite IH. Qed.

Lemma zsum_mul {A} (f : A -> Z) c l : zsum (fun x => f x * c) l = zsum f l * c.
Proof. induction l as [|x l IH]; [done|]. rewrite !zsum_cons, IH. lia. Qed.

Lemma zsum_threshold (m W a b : Z) :
  0 <= m <= W -> zsum (fun k => if k <? m then a else b) (seqZ 0 W) = m * a + (W - m) * b.
Proof.
  intros Hm. replace W with (m + (W - m)) at 1 by lia. rewrite seqZ_app by lia. rewrite zsum_app. f_equal.
  - rewrite (zsum_ext _ (fun _ => a)); [by rewrite zsum_const, length_seqZ, Z2Nat.id by lia|].
    intros k Hk. apply elem_of_seqZ in Hk. by rewrite (proj2 (Z.ltb_lt _ _)) by lia.
  - rewrite (zsum_ext _ (fun _ => b)); [by rewrite zsum_const, length_seqZ, Z2Nat.id by lia|].
    intros k Hk. apply elem_of_seqZ in Hk. by rewrite (proj2 (Z.ltb_ge _ _)) by lia.
Qed.

Lemma zsum_single (f : nat -> Z) n i :
  zsum (fun s => if (s =? i)%nat then f s else 0) (seq 0 n) = if (i <? n)%nat then f i else 0.
Proof.
  induction n as [|n IH]; [done|]. rewrite seq_S, zsum_app, IH, zsum_cons. cbn [zsum foldr Nat.add].
  destruct (Nat.ltb_spec i n), (Nat.ltb_spec i (S n)), (Nat.eqb_spec n i); subst; lia.
Qed.

Lemma zsum_lookup (l : list Z) : zsum (fun s => l !!! s) (seq 0 (length l)) = zsum id l.
Proof.
  induction l as [|x l IH]; [done|]. cbn [length]. rewrite <- cons_seq, !zsum_cons, <- fmap_S_seq, zsum_map.
  by rewrite <- IH.
Qed.

Lemma draws_contrib W n t ms i :
  0 < W -> length (alias_table t) = n -> Forall2 (over W) (alias_probability t) ms ->
  length (alias_probability t) = n -> (forall s, (s < n)%nat -> 0 <= ms !!! s <= W) ->
  draws t (Z.of_nat n) W (Z.of_nat i) = zsum (contrib W ms (alias_table t) i) (seq 0 n).
Proof.
  intros HW Hal Hpr Hlen Hms. unfold draws, seqZ at 2. rewrite Nat2Z.id, zsum_map. apply zsum_ext.
  intros s Hs. apply elem_of_seq in Hs. specialize (Hms s ltac:(lia)). rewrite Z.add_0_r.
  destruct (lookup_lt_is_Some_2 (alias_probability t) s) as [q Hq]; [lia|].
  destruct (lookup_lt_is_Some_2 (alias_table t) s) as [g Hg]; [lia|].
  pose proof (over_lookup _ _ _ _ _ Hpr Hq) as Ho.
  rewrite (zsum_ext _ (fun k => if k <? ms !!! s then (if (s =? i)%nat then 1 else 0)
    else (if g =? Z.of_nat i then 1 else 0))).
  - rewrite zsum_threshold by done. unfold contrib. rewrite (list_lookup_total_correct _ _ _ Hg).
    destruct (s =? i)%nat, (g =? Z.of_nat i); lia.
  - intros k Hk. unfold picks, pick. rewrite (rd_Some _ _ _ Hq), (rd_Some _ _ _ Hg). cbn [mbind outcome_bind].
    rewrite (over_lt W HW _ k q (ms !!! s)) by done. destruct (k <? ms !!! s); [|done].
    destruct (Nat.eqb_spec s i), (Z.eqb_spec (Z.of_nat s) (Z.of_nat i)); lia || done.
Qed.

(** C18: [create_single_alias_table] in exact arithmetic: the tables built from whole weights draw
    every entry in proportion to its weight.  Of all the equally likely draws of a slot and of
    a number [k/W] below 1, where [W] is the sum of the weights of [n] entries, exactly [n]
    times its weight pick the entry. *)
Theorem alias_draws_by_weight (w : list Z) S L (i : nat) wi :
  Z.of_nat (length w) < 2 ^ 31 -> length S = length w -> length L = length w ->
  Forall (fun x => 0 <= x) w -> 0 < zsum id w -> w !! i = Some wi ->
  exists t, fill_tables (Z.of_nat (length w))
      ((fun x => scaled (Z.of_nat (length w)) (of_int (zsum id w)) (of_int x)) <$> w) S L = Done t
    /\ draws t (Z.of_nat (length w)) (zsum id w) (Z.of_nat i) = wi * Z.of_nat (length w).
Proof.
  intros Hn HS HL Hw HW Hi. set (n := length w) in *. set (W := zsum id w) in *.
  set (P := _ <$> w). assert (HP : length P = n) by apply length_fmap.
  destruct (fill_tables_rounds n P S L Hn HP HS HL)
    as (x & y & EP & Epr & Hrem & Hok & Hcl & Hrtc & Hoky & Hcly & Hend & E).
  set (zs := (fun x => x * Z.of_nat n) <$> w).
  assert (Hlz : length zs = n) by apply length_fmap.
  assert (Hzs : forall s ws, w !! s = Some ws -> zs !!! s = ws * Z.of_nat n).
  { intros s ws Hs. apply list_lookup_total_correct. unfold zs. by rewrite list_lookup_fmap, Hs. }
  assert (Hex : exact_slots W n (fun i => default 0 (zs !! i)) x [] zs (replicate n 0)).
  { constructor.
    - rewrite EP. unfold P, zs. apply Forall2_fmap, Forall_Forall2_diag, Forall_true. intros u. unfold over, scaled.
      cbn [ndiv nmul of_int rational_number]. by rewrite inject_Z_mult.
    - rewrite Epr. apply Forall2_replicate. reflexivity.
    - done.
    - intros j. rewrite Hrem, zsum_single. cbn [zsum foldr Z.add].
      destruct (Nat.ltb_spec j n) as [Hj|Hj].
      + destruct (lookup_lt_is_Some_2 zs j) as [z Hz]; [lia|]. by rewrite (list_lookup_total_correct _ _ _ Hz), Hz.
      + by rewrite lookup_ge_None_2 by lia.
    - rewrite Hrem, length_seq, <- Hlz, zsum_lookup. unfold zs. rewrite zsum_map. unfold id at 1.
      rewrite zsum_mul, length_fmap. done.
    - intros s Hs. rewrite Hrem in Hs. apply elem_of_seq in Hs.
      destruct (lookup_lt_is_Some_2 w s) as [ws Hws]; [unfold n in *; lia|]. rewrite (Hzs _ _ Hws).
      pose proof (Forall_lookup_1 _ _ _ _ Hw Hws). simpl in *. lia.
    - intros s Hs. by apply not_elem_of_nil in Hs. }
  destruct (rounds_exact W n _ HW x y [] zs _ Hrtc Hok Hcl Hex) as (settled & zs' & ms & Hey).
  destruct (final_shares W n _ HW y settled zs' ms Hey Hoky Hcly Hend) as (ms' & Ho & Hb & Hsh).
  eexists. split; [exact E|].
  rewrite (draws_contrib W n _ ms'); cbn [alias_table alias_probability]; [|done|apply Hoky|done| |done].
  - rewrite Hsh. unfold zs. by rewrite list_lookup_fmap, Hi.
  - rewrite length_set_ones. apply Hoky.
Qed.

Lemma alias_draws_by_weight_witness :
  exists t, fill_tables 4 ((fun x => scaled 4 (of_int 6) (of_int x)) <$> [1; 3; 0; 2]) [9; 9; 9; 9] [-1; -1; -1; -1] = Done t
    /\ draws t 4 6 1 = 12.
Proof.
  apply (alias_draws_by_weight [1; 3; 0; 2] [9; 9; 9; 9] [-1; -1; -1; -1] 1 3);
    [simpl; lia|reflexivity|reflexivity|repeat (apply List.Forall_cons; [lia|]); apply List.Forall_nil|simpl; lia|reflexivity].
Defined.
