(* ===== verification/Schedule.v ===== *)
(** * Power schedules and the choice of the next entry (src/aflplusplus/src/afl-fuzz-queue.c)

    [calculate_score] gives a queue entry its energy, [compute_weight] its weight in the
    choice of the next entry, [create_alias_table] turns the weights into alias tables (one
    for the whole queue, or one per target function during the first cycle of AFLLive) and
    [select_next_queue_entry] draws from them.  [next_entry] is the head of the main loop in
    afl-fuzz.c that calls them.  Doubles are those of [SpecFloat]; integers wrap at the
    width C gives them; the integer divisions of the code fail with [Fpe] on zero. *)
From Stdlib Require Import Floats.SpecFloat.
From S2P Require Import Prelude Rng Queue FloatBits Alias.
#[local] Open Scope Z_scope.

Definition POWER_BETA : Z := 1.
Definition MAX_FACTOR : Z := POWER_BETA * 32.

(** What the C library and the compiler decide: the logarithms, the conversion of a double
    out of range to u32, what fresh memory holds and whether there is memory. *)
Class Platform := {
  log : spec_float -> spec_float;
  log10 : spec_float -> spec_float;
  log2 : spec_float -> spec_float;
  cast_out : spec_float -> Z;
  cast_out_u32 : forall f, 0 <= cast_out f < 2 ^ 32;
  heap_double : Z -> spec_float;
  heap_int : Z -> Z;
  can_alloc : Z -> bool;
}.

(** ** Doubles *)

(** The literal [a / b], rounded to nearest *)
Definition lit (a b : Z) : spec_float := ndiv (of_int a) (of_int b).

(** The integral part of a finite number *)
Definition trunc (f : spec_float) : option Z :=
  match f with
  | S754_zero _ => Some 0
  | S754_finite s m e => Some (cond_Zopp s (if 0 <=? e then Zpos m * 2 ^ e else Zpos m / 2 ^ (- e)))
  | _ => None
  end.

(** Long doubles: the extended format of x86 *)
Definition ld_of_double (f : spec_float) : spec_float := round_to 64 16384 f.
Definition ld_add : spec_float -> spec_float -> spec_float := SFadd 64 16384.
Definition ld_div : spec_float -> spec_float -> spec_float := SFdiv 64 16384.
Definition ld_of_int (z : Z) : spec_float := binary_normalize 64 16384 z 0 false.

(** [a / b] on unsigned integers *)
Definition udiv (a b : Z) : outcome Z := if b =? 0 then Fpe else Done (a `div` b).

(** ** State *)

(** The fields of [struct queue_entry] that only the schedules use *)
Record entry_score := EScore {
  bitmap_size : Z;
  handicap : Z;
  perf_score : spec_float;
  weight : spec_float;
}.

(** The schedules' part of [afl_state_t]; [scores] runs in parallel with [queue_buf]. *)
Record sched := Sched {
  sq : queue;
  scores : list entry_score;
  total_cal_us : list Z;
  total_cal_cycles : list Z;
  total_bitmap_size : list Z;
  total_bitmap_entries : list Z;
  total_execs : Z;
  limit_time_sig : Z;
  havoc_max_mult : Z;
  targetActive : list bool;
  next_target : Z;               (* the static [nextTarget] *)
  last_switch : option Z;        (* the static [lastTargetSwitch], once it is initialised *)
  single : tables spec_float;    (* [alias_probability], [alias_table] *)
  multi : option (list (tables spec_float));  (* [multi_alias_*]; [None] is NULL *)
  reinit_table : bool;
}.

Definition set_scores (es : list entry_score) (a : sched) : sched :=
  Sched (sq a) es (total_cal_us a) (total_cal_cycles a) (total_bitmap_size a) (total_bitmap_entries a)
    (total_execs a) (limit_time_sig a) (havoc_max_mult a) (targetActive a) (next_target a) (last_switch a)
    (single a) (multi a) (reinit_table a).
Definition set_single (t : tables spec_float) (a : sched) : sched :=
  Sched (sq a) (scores a) (total_cal_us a) (total_cal_cycles a) (total_bitmap_size a) (total_bitmap_entries a)
    (total_execs a) (limit_time_sig a) (havoc_max_mult a) (targetActive a) (next_target a) (last_switch a)
    t (multi a) (reinit_table a).
Definition set_multi (ts : list (tables spec_float)) (a : sched) : sched :=
  Sched (sq a) (scores a) (total_cal_us a) (total_cal_cycles a) (total_bitmap_size a) (total_bitmap_entries a)
    (total_execs a) (limit_time_sig a) (havoc_max_mult a) (targetActive a) (next_target a) (last_switch a)
    (single a) (Some ts) (reinit_table a).
(** [afl->reinit_table = 0;] *)
Definition clear_reinit (a : sched) : sched :=
  Sched (sq a) (scores a) (total_cal_us a) (total_cal_cycles a) (total_bitmap_size a) (total_bitmap_entries a)
    (total_execs a) (limit_time_sig a) (havoc_max_mult a) (targetActive a) (next_target a) (last_switch a)
    (single a) (multi a) false.
Definition set_first_done (d : bool) (q : queue) : queue :=
  Queue (queue_buf q) (top_rated q) (n_fuzz q) (schedule q) (fixed_seed q) (score_changed q) (queued_favored q)
    (pending_favored q) (pending_not_fuzzed q) (active_items q) (ready_for_splicing_count q)
    (max_depth q) (cur_depth q) (entriesForTarget q) (amountOfTargets q) d.
(** The walk of [Queue] as it is left by a call *)
Definition set_walk (w : target_walk) (a : sched) : sched :=
  Sched (set_first_done (walk_done w) (sq a)) (scores a) (total_cal_us a) (total_cal_cycles a) (total_bitmap_size a)
    (total_bitmap_entries a) (total_execs a) (limit_time_sig a) (havoc_max_mult a) (targetActive a)
    (nextTarget w) (lastTargetSwitch w) (single a) (multi a) (reinit_table a).

Definition set_handicap (h : Z) (e : entry_score) : entry_score :=
  EScore (bitmap_size e) h (perf_score e) (weight e).
Definition set_perf_score (p : spec_float) (e : entry_score) : entry_score :=
  EScore (bitmap_size e) (handicap e) p (weight e).
Definition set_weight (w : spec_float) (e : entry_score) : entry_score :=
  EScore (bitmap_size e) (handicap e) (perf_score e) w.

Section schedule.
Context `{!Platform}.

(** [(u32)f] *)
Definition to_u32 (f : spec_float) : Z :=
  match trunc f with
  | Some z => if (0 <=? z) && (z <? 2 ^ 32) then z else cast_out f
  | None => cast_out f
  end.

(** [perf_score *= f;] for a double [f] *)
Definition scale (p : Z) (f : spec_float) : Z := to_u32 (nmul (of_int p) f).

(** ** [calculate_score] *)

(** Execution speed: [q->exec_us * 0.1 > avg_exec_us] and so on *)
Definition speed_score (exec_us avg_exec_us : Z) : Z :=
  let slower f := nlt (of_int avg_exec_us) (nmul (of_int exec_us) f) in
  let faster k := u64 (exec_us * k) <? avg_exec_us in
  if slower (lit 1 10) then 10
  else if slower (lit 1 4) then 25
  else if slower (lit 1 2) then 50
  else if slower (lit 3 4) then 75
  else if faster 4 then 300
  else if faster 3 then 200
  else if faster 2 then 150
  else 100.

(** Bitmap size *)
Definition size_score (bitmap_size avg_bitmap_size p : Z) : Z :=
  let above f := nlt (of_int avg_bitmap_size) (nmul (of_int bitmap_size) f) in
  if above (lit 3 10) then u32 (p * 3)
  else if above (lit 1 2) then u32 (p * 2)
  else if above (lit 3 4) then scale p (lit 3 2)
  else if u32 (bitmap_size * 3) <? avg_bitmap_size then scale p (lit 1 4)
  else if u32 (bitmap_size * 2) <? avg_bitmap_size then scale p (lit 1 2)
  else if nlt (nmul (of_int bitmap_size) (lit 3 2)) (of_int avg_bitmap_size) then scale p (lit 3 4)
  else p.

(** Handicap: the new score and the new handicap *)
Definition handicap_score (h p : Z) : Z * Z :=
  if 4 <=? h then (u32 (p * 4), h - 4)
  else if negb (h =? 0) then (u32 (p * 2), h - 1)
  else (p, h).

(** Depth *)
Definition depth_score (depth p : Z) : Z :=
  if depth <=? 3 then p
  else if depth <=? 7 then u32 (p * 2)
  else if depth <=? 13 then u32 (p * 3)
  else if depth <=? 25 then u32 (p * 4)
  else u32 (p * 5).

(** [case FAST:] *)
Definition fast_factor (q : queue_entry) (hits : Z) : spec_float :=
  if q_fuzz_level q =? 0 then of_int 1
  else
    let k := to_u32 (log2 (of_int hits)) in
    let factor :=
      if k <=? 1 then of_int 4
      else if k <=? 3 then of_int 3
      else if k =? 4 then of_int 2
      else if k =? 5 then of_int 1
      else if q_favored q then of_int 1
      else if k =? 6 then lit 8 10
      else if k =? 7 then lit 6 10
      else lit 4 10 in
    if q_favored q then nmul factor (lit 115 100) else factor.

(** The loop of [case COE:] over the enabled entries: [fuzz_mu] and [n_items] *)
Fixpoint coe_mean (a : queue) (l : list queue_entry) (fuzz_mu : spec_float) (n_items : Z) : spec_float * Z :=
  match l with
  | [] => (fuzz_mu, n_items)
  | q :: l =>
      if negb (q_disabled q)
      then coe_mean a l (ld_add fuzz_mu (ld_of_double (log2 (of_int (n_fuzz_at a (q_n_fuzz_entry q))))))
             (u32 (n_items + 1))
      else coe_mean a l fuzz_mu n_items
  end.

(** [case COE:], with the fall through to [case FAST:] *)
Definition coe_factor (a : queue) (q : queue_entry) : outcome spec_float :=
  if q_fuzz_level q =? 0 then Done (of_int 1)
  else
    let hits := n_fuzz_at a (q_n_fuzz_entry q) in
    let '(fuzz_mu, n_items) := coe_mean a (queue_buf a) (S754_zero false) 0 in
    if n_items =? 0 then Fatal
    else
      let fuzz_mu := ld_div fuzz_mu (ld_of_int n_items) in
      if SFltb fuzz_mu (ld_of_double (log2 (of_int hits)))
      then Done (if negb (q_favored q) then of_int 0 else of_int 1)
      else Done (fast_factor q hits).

(** The switch over the schedules: the score and the factor *)
Definition schedule_score (a : sched) (q : queue_entry) (p : Z) : outcome (Z * spec_float) :=
  let s := schedule (sq a) in
  let hits := n_fuzz_at (sq a) (q_n_fuzz_entry q) in
  if (s =? EXPLORE) || (s =? SEEK) then Done (p, of_int 1)
  else if s =? EXPLOIT then Done (p, of_int MAX_FACTOR)
  else if s =? COE then factor ← coe_factor (sq a) q; Done (p, factor)
  else if s =? FAST then Done (p, fast_factor q hits)
  else if s =? LIN then f ← udiv (q_fuzz_level q) (u32 (hits + 1)); Done (p, of_int f)
  else if s =? QUAD then
    f ← udiv (u32 (q_fuzz_level q * q_fuzz_level q)) (u32 (hits + 1)); Done (p, of_int f)
  else if s =? MMOPT then
    Done (if u64 (max_depth (sq a) - q_depth q) <? 5 then u32 (p * 2) else p, of_int 1)
  else if s =? RARE then
    let p := u32 (p + u32 (q_tc_ref q * 10)) in
    Done (scale p (nsub (of_int 1) (ndiv (of_int hits) (of_int (total_execs a)))), of_int 1)
  else Fatal.

(** The factor, the bonus of MOpt and the limits *)
Definition final_score (a : sched) (q : queue_entry) (p : Z) (factor : spec_float) : Z :=
  let s := schedule (sq a) in
  let p :=
    if (EXPLOIT <=? s) && (s <=? QUAD) then
      let factor := if nlt (of_int MAX_FACTOR) factor then of_int MAX_FACTOR else factor in
      scale p (ndiv factor (of_int POWER_BETA))
    else p in
  let p :=
    if negb (limit_time_sig a =? 0) && (u64 (max_depth (sq a) - q_depth q) <? 3) then u32 (p * 2)
    else if negb (s =? COE) && (p <? 1) then 1
    else p in
  if havoc_max_mult a * 100 <? p then havoc_max_mult a * 100 else p.

(** [calculate_score] of an entry: its score and its new handicap *)
Definition calculate_score (a : sched) (q : queue_entry) (e : entry_score) : outcome (Z * Z) :=
  let s := schedule (sq a) in
  let t := q_targetFunctionIdx q in
  cal_us ← rd (total_cal_us a) t;
  cal_cycles ← rd (total_cal_cycles a) t;
  avg_us ← udiv cal_us cal_cycles;
  let avg_exec_us := u32 avg_us in
  map_size ← rd (total_bitmap_size a) t;
  map_entries ← rd (total_bitmap_entries a) t;
  avg_size ← udiv map_size map_entries;
  let avg_bitmap_size := u32 avg_size in
  let p := if (s <? RARE) && negb (fixed_seed (sq a)) then speed_score (q_exec_us q) avg_exec_us else 100 in
  let p := size_score (bitmap_size e) avg_bitmap_size p in
  let '(p, h) := handicap_score (handicap e) p in
  let p := depth_score (q_depth q) p in
  '(p, factor) ← schedule_score a q p;
  Done (final_score a q p factor, h).

(** ** [compute_weight] *)

Definition compute_weight (a : queue) (q : queue_entry) (bitmap_size : Z)
  (avg_exec_us avg_bitmap_size avg_top_size : spec_float) : spec_float :=
  let s := schedule a in
  let hits := n_fuzz_at a (q_n_fuzz_entry q) in
  let w := of_int 1 in
  let w :=
    if (FAST <=? s) && (s <=? RARE) && negb (hits =? 0)
    then nmul w (nadd (log10 (of_int hits)) (of_int 1)) else w in
  let w := if s <? RARE then nmul w (ndiv avg_exec_us (of_int (q_exec_us q))) else w in
  let w := nmul w (ndiv (log (of_int bitmap_size)) avg_bitmap_size) in
  let w := nmul w (nadd (of_int 1) (ndiv (of_int (q_tc_ref q)) avg_top_size)) in
  let w := if q_favored q then nmul w (of_int 5) else w in
  if negb (q_was_fuzzed q) then nmul w (of_int 2) else w.

(** ** The alias tables *)

(** The averages over the entries [sel] selects *)
Fixpoint sums (sel : queue_entry -> bool) (l : list queue_entry) (es : list entry_score)
  (us size top : spec_float) (active : Z) : spec_float * spec_float * spec_float * Z :=
  match l, es with
  | q :: l, e :: es =>
      if sel q
      then sums sel l es (nadd us (of_int (q_exec_us q))) (nadd size (log (of_int (bitmap_size e))))
             (nadd top (of_int (q_tc_ref q))) (u32 (active + 1))
      else sums sel l es us size top active
  | _, _ => (us, size, top, active)
  end.

(** The second loop of the schedules below RARE: weights and scores, and the sum of the
    weights *)
Fixpoint weigh (a : sched) (sel : queue_entry -> bool) (avg_us avg_size avg_top : spec_float)
  (l : list queue_entry) (es : list entry_score) (sum : spec_float) : outcome (list entry_score * spec_float) :=
  match l, es with
  | q :: l, e :: es =>
      if sel q then
        let e := set_weight (compute_weight (sq a) q (bitmap_size e) avg_us avg_size avg_top) e in
        '(p, h) ← calculate_score a q e;
        let e := set_perf_score (of_int p) (set_handicap h e) in
        '(es, sum) ← weigh a sel avg_us avg_size avg_top l es (nadd sum (weight e));
        Done (e :: es, sum)
      else
        '(es, sum) ← weigh a sel avg_us avg_size avg_top l es sum;
        Done (e :: es, sum)
  | _, es => Done (es, sum)
  end.

(** The loop of the other schedules; [summed] tells which scores are added up. *)
Fixpoint rescore (a : sched) (sel summed : queue_entry -> bool) (l : list queue_entry)
  (es : list entry_score) (sum : spec_float) : outcome (list entry_score * spec_float) :=
  match l, es with
  | q :: l, e :: es =>
      e ← (if sel q then '(p, h) ← calculate_score a q e; Done (set_perf_score (of_int p) (set_handicap h e))
           else Done e);
      let sum := if summed q then nadd sum (perf_score e) else sum in
      '(es, sum) ← rescore a sel summed l es sum;
      Done (e :: es, sum)
  | _, es => Done (es, sum)
  end.

(** [P[j] = (value * n) / sum; j++;] for the entries of the table *)
Fixpoint fill_P (n : Z) (sum : spec_float) (inn : queue_entry -> bool) (value : entry_score -> spec_float)
  (j : Z) (l : list queue_entry) (es : list entry_score) (P : list spec_float) : outcome (list spec_float) :=
  match l, es with
  | q :: l, e :: es =>
      if inn q then P ← wr P j (scaled n sum (value e)); fill_P n sum inn value (j + 1) l es P
      else fill_P n sum inn value j l es P
  | _, _ => Done P
  end.

(** The body both functions share: the entries [inn] are in the table, those [sel] get new
    scores, and [summed] counts in the schedules from RARE on.  The result is the table and
    the new scores. *)
Definition build_table (a : sched) (n : Z) (inn sel summed : queue_entry -> bool)
  : outcome (list entry_score * tables spec_float) :=
  let l := queue_buf (sq a) in
  if negb (can_alloc n) then Fatal
  else
    let P := heap_double <$> seqZ 0 n in
    '(es, P) ←
      (if schedule (sq a) <? RARE then
        let '(us, size, top, active) := sums sel l (scores a) (of_int 0) (of_int 0) (of_int 0) 0 in
        let avg x := ndiv x (of_int active) in
        '(es, sum) ← weigh a sel (avg us) (avg size) (avg top) l (scores a) (of_int 0);
        P ← fill_P n sum inn weight 0 l es P;
        Done (es, P)
      else
        '(es, sum) ← rescore a sel summed l (scores a) (of_int 0);
        P ← fill_P n sum inn perf_score 0 l es P;
        Done (es, P));
    t ← fill_tables n P (heap_int <$> seqZ 0 n) (heap_int <$> seqZ 0 n);
    Done (es, t).

Definition enabled (q : queue_entry) : bool := negb (q_disabled q).
Definition of_this (target : Z) (q : queue_entry) : bool := q_targetFunctionIdx q =? target.

Definition create_single_alias_table (a : sched) : outcome sched :=
  '(es, t) ← build_table a (Z.of_nat (length (queue_buf (sq a)))) (fun _ => true) enabled (fun _ => true);
  Done (clear_reinit (set_single t (set_scores es a))).

(** [for (size_t target = 0; target < MAX_TARGETS; target++)]; [k] targets are left. *)
Fixpoint multi_loop (k : nat) (ts : list (tables spec_float)) (a : sched) : outcome sched :=
  match k with
  | O => Done (set_multi ts a)
  | S k =>
      let target := MAX_TARGETS - Z.of_nat (S k) in
      n ← rd (entriesForTarget (sq a)) target;
      let sel q := enabled q && of_this target q in
      '(es, t) ← build_table a n (of_this target) sel sel;
      ts ← wr ts target t;
      multi_loop k ts (clear_reinit (set_scores es a))
  end.

Definition create_multi_alias_table (a : sched) : outcome sched :=
  multi_loop (Z.to_nat MAX_TARGETS)
    (match multi a with Some ts => ts | None => replicate (Z.to_nat MAX_TARGETS) (Tables [] []) end) a.

Definition create_alias_table (a : sched) : outcome sched :=
  if firstCycleDone (sq a) then create_single_alias_table a else create_multi_alias_table a.

(** ** [select_next_queue_entry] *)

Context {W : Type} `{!Random W} (percent : W -> spec_float * W).

Definition select_next_queue_entry_from_all_targets (a : sched) (w : W) : outcome (Z * W) :=
  let '(s, w) := below w (Z.of_nat (length (queue_buf (sq a)))) in
  let '(p, w) := percent w in
  res ← pick (single a) s p;
  Done (res, w).

(** [t0], [t1], [t2] are what the calls of [time(NULL)] return. *)
Definition select_next_queue_entry_from_next_target (t0 t1 t2 : Z) (a : sched) (w : W)
  : outcome (Z * sched * W) :=
  match switch_target (length (targetActive a)) (targetActive a) t0 t1 t2
          (TargetWalk (next_target a) (last_switch a) (firstCycleDone (sq a))) with
  | None => NoFuel
  | Some walk =>
      let wrapped := walk_done walk in
      let a := set_walk walk a in
      a ← (if wrapped then create_single_alias_table a else Done a);
      n ← rd (entriesForTarget (sq a)) (next_target a);
      let '(s, w) := below w n in
      let '(p, w) := percent w in
      t ← (match multi a with Some ts => rd ts (next_target a) | None => Oob end);
      res ← pick t s p;
      Done (nth_of_target (next_target a) 0 0 res (queue_buf (sq a)), a, w)
  end.

Definition select_next_queue_entry (t0 t1 t2 : Z) (a : sched) (w : W) : outcome (Z * sched * W) :=
  if negb (firstCycleDone (sq a)) then select_next_queue_entry_from_next_target t0 t1 t2 a w
  else
    '(res, w) ← select_next_queue_entry_from_all_targets a w;
    Done (res, a, w).

(** ** The head of the main loop (afl-fuzz.c): the entry to fuzz next, and whether the fork
    server is restarted for another target.  [prev] is [prev_queued_items], [cur] the target
    of [queue_cur]. *)
Definition next_entry (t0 t1 t2 prev : Z) (cur : option Z) (a : sched) (w : W)
  : outcome (nat * bool * Z * sched * W) :=
  let items := Z.of_nat (length (queue_buf (sq a))) in
  '(prev, a) ← (if (prev <? items) || reinit_table a then a ← create_alias_table a; Done (items, a)
                else Done (prev, a));
  '(i, a, w) ← select_next_queue_entry t0 t1 t2 a w;
  q ← rd (queue_buf (sq a)) i;
  let prevIdx := default 0xffffffff cur in
  Done (Z.to_nat i, negb (prevIdx =? q_targetFunctionIdx q), prev, a, w).
End schedule.

(** ** [rand_next_percent] *)

Definition percent_of (r : Z) : spec_float := ndiv (of_int r) (of_int UINT64_MAX).
Definition rand_next_percent (g : rng) : spec_float * rng := let '(r, g) := rand_next g in (percent_of r, g).
(** On 32-bit machines *)
Definition rand_next_percent_32 (g : rng) : spec_float * rng := let '(r, g) := rand_next_32 g in (percent_of r, g).
