(* ===== verification/ScheduleTheorems.v ===== *)
(** * Scores are bounded, tables fit the queue, the entry that is chosen exists

    [sched_ok] is what the schedules rely on: the counters of a target with enabled entries
    are not zero, the array [entriesForTarget] counts the entries of the targets, active
    targets have entries.  Under it the scores stay in their range, the alias tables are
    built without leaving an array, whatever the doubles are, and [next_entry] finds an entry
    of the queue; during the first cycle it belongs to the target whose turn it is. *)
From Stdlib Require Import Floats.SpecFloat.
From S2P Require Import Prelude Bitmap Rng Queue FloatBits Alias AliasTheorems Schedule.
#[local] Open Scope Z_scope.

Section scores.
Context `{Hplatform : !Platform}.

Lemma to_u32_range f : 0 <= to_u32 f < 2 ^ 32.
Proof.
  unfold to_u32. destruct (trunc f) as [z|]; [|apply cast_out_u32].
  destruct ((0 <=? z) && (z <? 2 ^ 32)) eqn:E; [|apply cast_out_u32]. lia.
Qed.

Lemma udiv_Done x y : y <> 0 -> udiv x y = Done (x `div` y).
Proof. intros H. unfold udiv. by rewrite (proj2 (Z.eqb_neq _ _) H). Qed.

Lemma u32_range z : 0 <= u32 z < 2 ^ 32.
Proof. apply Z.mod_pos_bound. lia. Qed.

Lemma if_u32 (b : bool) x y : 0 <= x < 2 ^ 32 -> 0 <= y < 2 ^ 32 -> 0 <= (if b then x else y) < 2 ^ 32.
Proof. by destruct b. Qed.

Lemma handicap_score_next h p :
  (handicap_score h p).2 = if 4 <=? h then h - 4 else if h =? 0 then 0 else h - 1.
Proof. unfold handicap_score. destruct (4 <=? h); [done|]. by destruct (Z.eqb_spec h 0) as [->|]. Qed.

(** What [calculate_score] relies on *)
Record score_ok (a : sched) : Prop := {
  so_schedule : EXPLORE <= schedule (sq a) <= SEEK;
  so_mult : 1 <= havoc_max_mult a < 2 ^ 8;
  so_items : Z.of_nat (length (queue_buf (sq a))) < 2 ^ 31;
  so_cal : forall q, q ∈ queue_buf (sq a) -> q_disabled q = false ->
    exists us cycles size entries, rd (total_cal_us a) (q_targetFunctionIdx q) = Done us
      /\ rd (total_cal_cycles a) (q_targetFunctionIdx q) = Done cycles /\ cycles <> 0
      /\ rd (total_bitmap_size a) (q_targetFunctionIdx q) = Done size
      /\ rd (total_bitmap_entries a) (q_targetFunctionIdx q) = Done entries /\ entries <> 0;
  so_hits : schedule (sq a) = LIN \/ schedule (sq a) = QUAD ->
    forall q, q ∈ queue_buf (sq a) -> 0 <= n_fuzz_at (sq a) (q_n_fuzz_entry q) < 2 ^ 32 - 1;
}.

(** The loop of COE counts the enabled entries. *)
Lemma coe_mean_count a l mu n :
  0 <= n -> n + Z.of_nat (length l) < 2 ^ 32 ->
  (coe_mean a l mu n).2 = n + Z.of_nat (length (List.filter enabled l)).
Proof.
  revert mu n. induction l as [|q l IH]; intros mu n H0 Hn; [simpl; lia|]. cbn [length] in Hn.
  cbn [coe_mean List.filter]. unfold enabled at 1. destruct (negb (q_disabled q)).
  - rewrite u32_id by lia. rewrite IH by lia. cbn [length]. lia.
  - apply IH; lia.
Qed.

Lemma coe_factor_total a q :
  Z.of_nat (length (queue_buf a)) < 2 ^ 31 -> q ∈ queue_buf a -> q_disabled q = false ->
  exists f, coe_factor a q = Done f.
Proof.
  intros Hn Hq Hd. unfold coe_factor. destruct (q_fuzz_level q =? 0); [by eexists|].
  pose proof (coe_mean_count a (queue_buf a) (S754_zero false) 0 ltac:(lia) ltac:(lia)) as Hc.
  destruct (coe_mean _ _ _ _) as [mu n]. simpl in Hc.
  assert (Hpos : (0 < length (List.filter enabled (queue_buf a)))%nat).
  { assert (Hin : In q (List.filter enabled (queue_buf a))).
    { apply filter_In. split; [by apply list_elem_of_In|]. unfold enabled. by rewrite Hd. }
    destruct (List.filter _ _); [done|simpl; lia]. }
  rewrite (proj2 (Z.eqb_neq n 0)) by lia. case_match; by eexists.
Qed.

Lemma schedule_score_total a q p :
  score_ok a -> q ∈ queue_buf (sq a) -> q_disabled q = false -> 0 <= p < 2 ^ 32 ->
  exists p' f, schedule_score a q p = Done (p', f) /\ 0 <= p' < 2 ^ 32.
Proof.
  intros Hok Hq Hd Hp. pose proof (so_schedule a Hok) as Hs. pose proof (so_hits a Hok) as Hh.
  assert (Hdiv : forall x, schedule (sq a) = LIN \/ schedule (sq a) = QUAD ->
    exists f, udiv x (u32 (n_fuzz_at (sq a) (q_n_fuzz_entry q) + 1)) = Done f).
  { intros x Hl. specialize (Hh Hl q Hq). rewrite u32_id, udiv_Done by lia. by eexists. }
  unfold schedule_score. set (s := schedule (sq a)) in *. unfold EXPLORE, SEEK in Hs.
  destruct ((s =? EXPLORE) || (s =? SEEK)) eqn:E1; [eauto|].
  destruct (Z.eqb_spec s EXPLOIT); [eauto|]. destruct (Z.eqb_spec s COE).
  { destruct (coe_factor_total (sq a) q (so_items a Hok) Hq Hd) as [f ->]. simpl. eauto. }
  destruct (Z.eqb_spec s FAST); [eauto|]. destruct (Z.eqb_spec s LIN) as [El|].
  { destruct (Hdiv (q_fuzz_level q) (or_introl El)) as [f ->]. simpl. eauto. }
  destruct (Z.eqb_spec s QUAD) as [El|].
  { destruct (Hdiv (u32 (q_fuzz_level q * q_fuzz_level q)) (or_intror El)) as [f ->]. simpl. eauto. }
  destruct (Z.eqb_spec s MMOPT).
  { do 2 eexists. split; [done|]. case_match; auto using u32_range. }
  destruct (Z.eqb_spec s RARE).
  { do 2 eexists. split; [done|]. apply to_u32_range. }
  apply orb_false_iff in E1 as [E1 E2]. unfold EXPLORE, SEEK, EXPLOIT, COE, FAST, LIN, QUAD, MMOPT, RARE in *. lia.
Qed.

Lemma final_score_range a q p f :
  score_ok a -> 0 <= p < 2 ^ 32 ->
  0 <= final_score a q p f <= havoc_max_mult a * 100
  /\ (schedule (sq a) <> COE -> limit_time_sig a = 0 -> 1 <= final_score a q p f).
Proof.
  intros Hok Hp. pose proof (so_mult a Hok) as Hm. unfold final_score.
  set (p6 := if _ && _ then scale _ _ else p).
  assert (Hp6 : 0 <= p6 < 2 ^ 32) by (apply if_u32; [apply to_u32_range|done]).
  set (p7 := if _ && _ then u32 _ else _).
  assert (Hp7 : 0 <= p7 < 2 ^ 32) by (do 2 (apply if_u32; [first [apply u32_range|lia]|]); done).
  split; [destruct (Z.ltb_spec (havoc_max_mult a * 100) p7); lia|]. intros Hs Hl.
  assert (Hp8 : 1 <= p7).
  { unfold p7. rewrite Hl. cbn [Z.eqb negb andb]. rewrite (proj2 (Z.eqb_neq _ _) Hs). cbn [negb andb].
    destruct (Z.ltb_spec p6 1); lia. }
  destruct (Z.ltb_spec (havoc_max_mult a * 100) p7); lia.
Qed.
End scores.

(** ** The scores before the schedule *)

(** Speed, bitmap size, handicap and depth leave one of finitely many scores. *)
Definition speed_scores : list Z := [10; 25; 50; 75; 300; 200; 150; 100].
Section base.
Context `{Hplatform : !Platform}.

Definition size_scores (p : Z) : list Z :=
  [u32 (p * 3); u32 (p * 2); scale p (lit 3 2); scale p (lit 1 4); scale p (lit 1 2); scale p (lit 3 4); p].
Definition handicap_scores (p : Z) : list Z := [u32 (p * 4); u32 (p * 2); p].
Definition depth_scores (p : Z) : list Z := [p; u32 (p * 2); u32 (p * 3); u32 (p * 4); u32 (p * 5)].
Definition base_scores : list Z :=
  flat_map depth_scores (flat_map handicap_scores (flat_map size_scores speed_scores)).

Lemma base_score_in us avg_us b avg_b h d (timed : bool) :
  depth_score d (handicap_score h (size_score b avg_b (if timed then speed_score us avg_us else 100))).1 ∈ base_scores.
Proof.
  set (p1 := if timed then _ else _). set (p2 := size_score b avg_b p1). set (p3 := (handicap_score h p2).1).
  assert (H1 : In p1 speed_scores)
    by (unfold p1, speed_score, speed_scores; cbv zeta; repeat destruct (nlt _ _); repeat destruct (_ <? _);
        destruct timed; cbn [In]; tauto).
  assert (H2 : In p2 (size_scores p1)) by (unfold p2, size_score, size_scores; cbv zeta; clearbody p1;
    repeat destruct (nlt _ _); repeat destruct (_ <? _); cbn [In]; tauto).
  assert (H3 : In p3 (handicap_scores p2)) by (unfold p3, handicap_score, handicap_scores; clearbody p2;
    destruct (4 <=? h); [|destruct (h =? 0)]; cbn [In negb fst]; tauto).
  assert (H4 : In (depth_score d p3) (depth_scores p3)) by (unfold depth_score, depth_scores; clearbody p3;
    repeat destruct (d <=? _); cbn [In]; tauto).
  apply list_elem_of_In, in_flat_map. exists p3. split; [|done].
  apply in_flat_map. exists p2. split; [|done]. apply in_flat_map. by exists p1.
Qed.

(** None of them is zero, and a factor of zero takes each of them to zero. *)
Lemma base_scores_check :
  forallb (fun p => (2 <=? p) && (p <=? 18000) && (scale p (ndiv (of_int 0) (of_int POWER_BETA)) =? 0)) base_scores = true.
Proof. vm_compute. reflexivity. Qed.

(** [calculate_score] up to the schedule: one of the base scores, and the smaller handicap *)
Lemma calculate_score_base a q e :
  score_ok a -> q ∈ queue_buf (sq a) -> q_disabled q = false ->
  exists p, p ∈ base_scores /\ calculate_score a q e
    = '(p, factor) ← schedule_score a q p;
      Done (final_score a q p factor,
        if 4 <=? handicap e then handicap e - 4 else if handicap e =? 0 then 0 else handicap e - 1).
Proof.
  intros Hok Hq Hd. destruct (so_cal a Hok q Hq Hd) as (us & cy & sz & en & E1 & E2 & H2 & E3 & E4 & H4).
  unfold calculate_score. rewrite E1, E2, E3, E4. cbn [mbind outcome_bind].
  rewrite (udiv_Done us cy H2). cbn [mbind outcome_bind]. rewrite (udiv_Done sz en H4). cbn [mbind outcome_bind].
  pose proof (base_score_in (q_exec_us q) (u32 (us `div` cy)) (bitmap_size e) (u32 (sz `div` en)) (handicap e) (q_depth q)
    ((schedule (sq a) <? RARE) && negb (fixed_seed (sq a)))) as Hin.
  rewrite <- handicap_score_next with (p := size_score (bitmap_size e) (u32 (sz `div` en))
    (if (schedule (sq a) <? RARE) && negb (fixed_seed (sq a)) then speed_score (q_exec_us q) (u32 (us `div` cy)) else 100)).
  destruct (handicap_score _ _) as [p3 h]. eexists. by split; [exact Hin|].
Qed.

Lemma base_scores_facts p :
  p ∈ base_scores -> 2 <= p <= 18000 /\ scale p (ndiv (of_int 0) (of_int POWER_BETA)) = 0.
Proof.
  intros Hp. pose proof base_scores_check as Hc. rewrite forallb_forall in Hc.
  apply list_elem_of_In in Hp. specialize (Hc p Hp). rewrite !andb_true_iff in Hc. lia.
Qed.

Lemma calculate_score_total a q e :
  score_ok a -> q ∈ queue_buf (sq a) -> q_disabled q = false ->
  exists p h, calculate_score a q e = Done (p, h)
    /\ 0 <= p <= havoc_max_mult a * 100
    /\ (schedule (sq a) <> COE -> limit_time_sig a = 0 -> 1 <= p)
    /\ h = if 4 <=? handicap e then handicap e - 4 else if handicap e =? 0 then 0 else handicap e - 1.
Proof.
  intros Hok Hq Hd. destruct (calculate_score_base a q e Hok Hq Hd) as (p & Hp & ->).
  apply base_scores_facts in Hp as [Hp _].
  destruct (schedule_score_total a q p Hok Hq Hd ltac:(lia)) as (p' & f & -> & Hp'). cbn [mbind outcome_bind].
  destruct (final_score_range a q p' f Hok Hp') as [H1 H2]. do 2 eexists. split; [done|]. split; [exact H1|]. split; [exact H2|done].
Qed.
End base.

(** ** The tables *)

(** A table of [n] slots from which any draw gives a slot *)
Record table_ok (n : Z) (t : tables spec_float) : Prop := {
  tb_prob : Z.of_nat (length (alias_probability t)) = n;
  tb_alias : Z.of_nat (length (alias_table t)) = n;
  tb_range : Forall (fun i => 0 <= i < n) (alias_table t);
}.

Lemma table_ok_pick n t s p : table_ok n t -> 0 <= s < n -> exists i, pick t s p = Done i /\ 0 <= i < n.
Proof.
  intros [Hp Ha Hr] Hs. subst n. apply (pick_in_range (length (alias_probability t))); [done|lia|done|done].
Qed.

(** A state that differs in scores and tables only *)
Definition retabled (a a' : sched) : Prop :=
  length (scores a') = length (scores a)
  /\ a' = Sched (sq a) (scores a') (total_cal_us a) (total_cal_cycles a) (total_bitmap_size a)
       (total_bitmap_entries a) (total_execs a) (limit_time_sig a) (havoc_max_mult a) (targetActive a)
       (next_target a) (last_switch a) (single a') (multi a') (reinit_table a').

#[global] Instance retabled_preorder : PreOrder retabled.
Proof.
  split; [by intros []|]. intros a b c [L1 E1] [L2 E2]. split; [congruence|]. rewrite E2 at 1. rewrite E1. done.
Qed.

Lemma retabled_score_ok a a' : retabled a a' -> score_ok a -> score_ok a'.
Proof. intros [_ ->] []. by constructor. Qed.

Section tables.
Context `{Hplatform : !Platform}.
Hypothesis memory : forall n, can_alloc n = true.

Definition number_of (inn : queue_entry -> bool) (l : list queue_entry) : nat := length (List.filter inn l).

Lemma number_of_cons inn q l : number_of inn (q :: l) = ((if inn q then 1 else 0) + number_of inn l)%nat.
Proof. unfold number_of. simpl. by destruct (inn q). Qed.

Lemma weigh_total a sel us size top l es sum :
  score_ok a -> l ⊆ queue_buf (sq a) -> (forall q, sel q = true -> q_disabled q = false) -> length es = length l ->
  exists es' sum', weigh a sel us size top l es sum = Done (es', sum') /\ length es' = length l.
Proof using Type.
  intros Hok Hl Hsel. revert es sum. induction l as [|q l IH]; intros [|e es] sum Hlen; try discriminate Hlen.
  { by do 2 eexists. }
  injection Hlen as Hlen. assert (Hq : q ∈ queue_buf (sq a)) by (apply Hl, list_elem_of_here).
  assert (Hl' : l ⊆ queue_buf (sq a)) by (intros x Hx; by apply Hl, list_elem_of_further).
  cbn [weigh]. destruct (sel q) eqn:Es.
  - set (e' := set_weight _ e).
    destruct (calculate_score_total a q e' Hok Hq (Hsel q Es)) as (p & h & -> & _). cbn [mbind outcome_bind].
    destruct (IH Hl' es (nadd sum (weight (set_perf_score (of_int p) (set_handicap h e')))) Hlen) as (es' & sum' & -> & Hes).
    cbn [mbind outcome_bind]. do 2 eexists. split; [done|]. simpl. by f_equal.
  - destruct (IH Hl' es sum Hlen) as (es' & sum' & -> & Hes). cbn [mbind outcome_bind].
    do 2 eexists. split; [done|]. simpl. by f_equal.
Qed.

Lemma rescore_total a sel summed l es sum :
  score_ok a -> l ⊆ queue_buf (sq a) -> (forall q, sel q = true -> q_disabled q = false) -> length es = length l ->
  exists es' sum', rescore a sel summed l es sum = Done (es', sum') /\ length es' = length l.
Proof using Type.
  intros Hok Hl Hsel. revert es sum. induction l as [|q l IH]; intros [|e es] sum Hlen; try discriminate Hlen.
  { by do 2 eexists. }
  injection Hlen as Hlen. assert (Hq : q ∈ queue_buf (sq a)) by (apply Hl, list_elem_of_here).
  assert (Hl' : l ⊆ queue_buf (sq a)) by (intros x Hx; by apply Hl, list_elem_of_further).
  assert (He : exists e', (if sel q then '(p, h) ← calculate_score a q e; Done (set_perf_score (of_int p) (set_handicap h e))
    else Done e) = Done e').
  { destruct (sel q) eqn:Es; [|by eexists].
    destruct (calculate_score_total a q e Hok Hq (Hsel q Es)) as (p & h & -> & _). by eexists. }
  destruct He as [e' He]. cbn [rescore]. rewrite He. cbn [mbind outcome_bind].
  edestruct (IH Hl' es) as (es' & sum' & -> & Hes); [done|]. cbn [mbind outcome_bind].
  do 2 eexists. split; [done|]. simpl. by f_equal.
Qed.

Lemma fill_P_total n sum inn value j l es P :
  length es = length l -> (j + number_of inn l <= length P)%nat ->
  exists P', fill_P n sum inn value (Z.of_nat j) l es P = Done P' /\ length P' = length P.
Proof using Type.
  revert es j P. induction l as [|q l IH]; intros [|e es] j P Hlen Hj; try discriminate Hlen.
  { by eexists. }
  injection Hlen as Hlen. rewrite number_of_cons in Hj. cbn [fill_P]. destruct (inn q); [|by apply IH].
  rewrite wr_lt by lia. cbn [mbind outcome_bind]. replace (Z.of_nat j + 1) with (Z.of_nat (S j)) by lia.
  destruct (IH es (S j) (<[j := scaled n sum (value e)]> P)) as (P' & -> & HP'); [done|rewrite length_insert; lia|].
  eexists. split; [done|]. by rewrite HP', length_insert.
Qed.

Lemma number_of_le inn l : (number_of inn l <= length l)%nat.
Proof using Type. unfold number_of. apply filter_length_le. Qed.

Lemma build_table_total a inn sel summed :
  score_ok a -> length (scores a) = length (queue_buf (sq a)) -> (forall q, sel q = true -> q_disabled q = false) ->
  let n := Z.of_nat (number_of inn (queue_buf (sq a))) in
  exists es t, build_table a n inn sel summed = Done (es, t)
    /\ length es = length (queue_buf (sq a)) /\ table_ok n t.
Proof using memory.
  intros Hok Hlen Hsel n. pose proof (so_items a Hok) as Hit.
  pose proof (number_of_le inn (queue_buf (sq a))) as Hle. unfold build_table. rewrite memory. cbn [negb].
  set (stage := if schedule (sq a) <? RARE then _ else _).
  assert (Hst : exists es P, stage = Done (es, P) /\ length es = length (queue_buf (sq a))
    /\ length P = number_of inn (queue_buf (sq a))).
  { assert (Hfill : forall sum value es, length es = length (queue_buf (sq a)) ->
      exists P, fill_P n sum inn value 0 (queue_buf (sq a)) es (heap_double <$> seqZ 0 n) = Done P
        /\ length P = number_of inn (queue_buf (sq a))).
    { intros sum value es Hes. assert (HP : length (heap_double <$> seqZ 0 n) = number_of inn (queue_buf (sq a)))
        by (rewrite length_fmap, length_seqZ; lia).
      destruct (fill_P_total n sum inn value 0 (queue_buf (sq a)) es (heap_double <$> seqZ 0 n)) as (P & EP & HlP);
        [done|by rewrite HP|]. exists P. split; [exact EP|congruence]. }
    unfold stage. destruct (schedule (sq a) <? RARE).
    - destruct (sums _ _ _ _ _ _ _) as [[[us size] top] active].
      edestruct (weigh_total a sel) as (es & sum & -> & Hes); [done|reflexivity|done|done|]. cbn [mbind outcome_bind].
      destruct (Hfill sum weight es Hes) as (P & -> & HlP). by do 2 eexists.
    - edestruct (rescore_total a sel summed) as (es & sum & -> & Hes); [done|reflexivity|done|done|]. cbn [mbind outcome_bind].
      destruct (Hfill sum perf_score es Hes) as (P & -> & HlP). by do 2 eexists. }
  destruct Hst as (es & P & -> & Hes & HlP). cbn [mbind outcome_bind].
  destruct (fill_tables_safe (number_of inn (queue_buf (sq a))) P (heap_int <$> seqZ 0 n) (heap_int <$> seqZ 0 n))
    as (t & Et & Hp & Ha & Hr); [lia|done|rewrite length_fmap, length_seqZ; lia..|].
  fold n in Et. rewrite Et. cbn [mbind outcome_bind]. exists es, t. split; [done|]. split; [done|].
  constructor; [by rewrite Hp|by rewrite Ha|done].
Qed.

(** What the choice of the next entry relies on *)
Record sched_ok (a : sched) : Prop := {
  sk_score : score_ok a;
  sk_scores : length (scores a) = length (queue_buf (sq a));
  sk_entries : forall t, 0 <= t < MAX_TARGETS ->
    rd (entriesForTarget (sq a)) t = Done (of_target t (queue_buf (sq a)));
  sk_targets : Z.of_nat (length (targetActive a)) <= MAX_TARGETS;
  sk_active : forall t, targetActive a !! t = Some true -> 0 < of_target (Z.of_nat t) (queue_buf (sq a));
  sk_next : 0 <= next_target a /\ targetActive a !! Z.to_nat (next_target a) = Some true;
  sk_multi : forall ts, multi a = Some ts -> Z.of_nat (length ts) = MAX_TARGETS;
}.

(** The tables fit the queue. *)
Definition single_ok (a : sched) : Prop := table_ok (Z.of_nat (length (queue_buf (sq a)))) (single a).
Definition multi_ok (a : sched) : Prop :=
  exists ts, multi a = Some ts /\ forall t, 0 <= t < MAX_TARGETS ->
    exists tab, rd ts t = Done tab /\ table_ok (of_target t (queue_buf (sq a))) tab.
Definition tables_ok (a : sched) : Prop := if firstCycleDone (sq a) then single_ok a else multi_ok a.

Lemma retabled_ok a a' :
  retabled a a' -> (forall ts, multi a' = Some ts -> Z.of_nat (length ts) = MAX_TARGETS) -> sched_ok a -> sched_ok a'.
Proof using Type.
  intros Hr Hm []. pose proof (retabled_score_ok a a' Hr sk_score0). destruct Hr as [Hl Hr].
  rewrite Hr in *. cbn [sq scores targetActive next_target multi] in *. constructor; try done. simpl. congruence.
Qed.

Lemma create_single_total a :
  sched_ok a -> exists a', create_single_alias_table a = Done a' /\ retabled a a' /\ sched_ok a'
    /\ single_ok a' /\ multi a' = multi a /\ reinit_table a' = false.
Proof using memory.
  intros Hok. pose proof (sk_scores a Hok) as Hlen. unfold create_single_alias_table.
  destruct (build_table_total a (fun _ => true) enabled (fun _ => true) (sk_score a Hok) Hlen) as (es & t & E & Hes & Ht).
  { intros q Hq. unfold enabled in Hq. by destruct (q_disabled q). }
  assert (En : number_of (fun _ => true) (queue_buf (sq a)) = length (queue_buf (sq a)))
    by (unfold number_of; f_equal; apply List.filter_true).
  rewrite En in E, Ht. rewrite E. cbn [mbind outcome_bind]. eexists. split; [done|].
  assert (Hr : retabled a (clear_reinit (set_single t (set_scores es a)))) by (split; [simpl; congruence|done]).
  split; [done|]. split; [|done]. apply (retabled_ok a); [done|exact (sk_multi a Hok)|done].
Qed.

Lemma wr_rd {A} (l l' : list A) i v j : wr l i v = Done l' -> rd l' j = if j =? i then Done v else rd l j.
Proof using Type.
  unfold wr. intros H. destruct ((0 <=? i) && (i <? Z.of_nat (length l))) eqn:E; [|done]. injection H as <-.
  unfold rd. destruct (Z.eqb_spec j i) as [->|Hne].
  - rewrite (proj2 (Z.leb_le 0 i)) by lia. by rewrite list_lookup_insert_eq by lia.
  - destruct (Z.leb_spec 0 j); [|done]. by rewrite list_lookup_insert_ne by lia.
Qed.

Lemma multi_loop_total k ts a :
  sched_ok a -> (k <= Z.to_nat MAX_TARGETS)%nat -> Z.of_nat (length ts) = MAX_TARGETS ->
  (forall t, 0 <= t < MAX_TARGETS - Z.of_nat k ->
     exists tab, rd ts t = Done tab /\ table_ok (of_target t (queue_buf (sq a))) tab) ->
  exists a', multi_loop k ts a = Done a' /\ retabled a a' /\ sched_ok a' /\ multi_ok a'
    /\ (reinit_table a = false \/ k <> O -> reinit_table a' = false).
Proof using memory.
  revert ts a. induction k as [|k IH]; intros ts a Hok Hk Hts Htab.
  { cbn [multi_loop]. eexists. split; [done|]. assert (Hr : retabled a (set_multi ts a)) by done. split; [done|].
    split; [apply (retabled_ok a); [done|intros ? [= <-]; done|done]|].
    split; [exists ts; split; [done|]; intros t Ht; apply Htab; lia|]. by intros [?|?]. }
  cbn [multi_loop]. set (target := MAX_TARGETS - Z.of_nat (S k)).
  assert (Htr : 0 <= target < MAX_TARGETS) by lia. rewrite (sk_entries a Hok target Htr). cbn [mbind outcome_bind].
  set (sel := fun q => enabled q && of_this target q).
  destruct (build_table_total a (of_this target) sel sel (sk_score a Hok) (sk_scores a Hok)) as (es & t & E & Hes & Ht).
  { intros q Hq. unfold sel, enabled in Hq. by destruct (q_disabled q). }
  change (Z.of_nat (number_of (of_this target) (queue_buf (sq a)))) with (of_target target (queue_buf (sq a))) in E, Ht.
  rewrite E. cbn [mbind outcome_bind].
  assert (Hw : exists ts', wr ts target t = Done ts' /\ length ts' = length ts).
  { rewrite <- (Z2Nat.id target) by lia. rewrite wr_lt by lia. eexists. split; [done|]. apply length_insert. }
  destruct Hw as (ts' & Ew & Hl'). rewrite Ew. cbn [mbind outcome_bind].
  set (b := clear_reinit (set_scores es a)).
  assert (Hb : retabled a b) by (split; [simpl; rewrite Hes; symmetry; apply Hok|done]).
  destruct (IH ts' b) as (a' & E' & Hr & Hok' & Hm & Hre).
  { apply (retabled_ok a); [done|exact (sk_multi a Hok)|done]. } { lia. } { lia. }
  { intros u Hu. rewrite (wr_rd _ _ _ _ u Ew). cbn [b clear_reinit set_scores sq].
    destruct (Z.eqb_spec u target) as [->|]; [by exists t|]. apply Htab. lia. }
  exists a'. split; [done|]. split; [by transitivity b|]. split; [done|]. split; [done|]. intros _. apply Hre. by left.
Qed.

Lemma create_alias_total a :
  sched_ok a -> exists a', create_alias_table a = Done a' /\ retabled a a' /\ sched_ok a' /\ tables_ok a'
    /\ reinit_table a' = false.
Proof using memory.
  intros Hok. unfold create_alias_table, tables_ok. destruct (firstCycleDone (sq a)) eqn:Ef.
  - destruct (create_single_total a Hok) as (a' & E & Hr & Hok' & Hs & _ & Hre). exists a'.
    split; [done|]. split; [done|]. split; [done|]. destruct Hr as [_ Hr]. rewrite Hr in *.
    cbn [sq reinit_table] in *. by rewrite Ef.
  - unfold create_multi_alias_table. set (ts := match multi a with Some ts => ts | None => _ end).
    assert (Hts : Z.of_nat (length ts) = MAX_TARGETS).
    { unfold ts. destruct (multi a) eqn:Em; [by apply Hok|]. by rewrite length_replicate. }
    destruct (multi_loop_total (Z.to_nat MAX_TARGETS) ts a Hok) as (a' & E & Hr & Hok' & Hm & Hre).
    { done. } { done. } { intros t Ht. unfold MAX_TARGETS in Ht. lia. }
    exists a'. split; [done|]. split; [done|]. split; [done|]. split; [|by apply Hre; right].
    destruct Hr as [_ Hr]. rewrite Hr in *. cbn [sq] in *. by rewrite Ef.
Qed.
End tables.

(** ** The choice of the next entry *)

Section choice.
Context `{Hplatform : !Platform}.
Hypothesis memory : forall n, can_alloc n = true.
Context {W : Type} `{!Random W} (percent : W -> spec_float * W).

(** A walk that ends at an active target *)
Lemma switch_total a t0 t1 t2 :
  sched_ok a -> exists walk,
    switch_target (length (targetActive a)) (targetActive a) t0 t1 t2
      (TargetWalk (next_target a) (last_switch a) (firstCycleDone (sq a))) = Some walk
    /\ 0 <= nextTarget walk /\ targetActive a !! Z.to_nat (nextTarget walk) = Some true.
Proof using Type.
  intros Hok. destruct (sk_next a Hok) as [H0 Hn]. pose proof (lookup_lt_Some _ _ _ Hn) as Hlt.
  unfold switch_target. cbn [nextTarget lastTargetSwitch walk_done]. destruct (60 <? _); [|by eexists].
  destruct (cycleTarget_next (targetActive a) (next_target a) (Z.to_nat (next_target a))) as (e & He & -> & Ha & _);
    [lia|done|].
  eexists. split; [done|]. cbn [nextTarget]. split; [|done]. apply Z.mod_pos_bound. lia.
Qed.

Lemma set_walk_ok a walk :
  sched_ok a -> 0 <= nextTarget walk -> targetActive a !! Z.to_nat (nextTarget walk) = Some true ->
  sched_ok (set_walk walk a).
Proof using Type. intros [Hs] Hn Ha. constructor; try done. destruct Hs. by constructor. Qed.

(** From the queue as a whole *)
Lemma select_all_total a w :
  single_ok a -> queue_buf (sq a) <> [] ->
  exists i w', select_next_queue_entry_from_all_targets percent a w = Done (i, w')
    /\ 0 <= i < Z.of_nat (length (queue_buf (sq a))).
Proof using Type.
  intros Hs Hne. unfold select_next_queue_entry_from_all_targets.
  assert (Hpos : 0 < Z.of_nat (length (queue_buf (sq a)))) by (destruct (queue_buf (sq a)); [done|simpl; lia]).
  pose proof (below_bound w _ Hpos) as Hb. destruct (below w _) as [s w1]. cbn [fst] in Hb.
  destruct (percent w1) as [p w2]. destruct (table_ok_pick _ _ s p Hs Hb) as (i & -> & Hi). cbn [mbind outcome_bind]. eauto.
Qed.

(** From the target whose turn it is.  The table of the whole queue is made when the walk has
    come around. *)
Lemma select_next_total a t0 t1 t2 w :
  sched_ok a -> firstCycleDone (sq a) = false -> multi_ok a ->
  exists i a' w' q, select_next_queue_entry_from_next_target percent t0 t1 t2 a w = Done (Z.of_nat i, a', w')
    /\ queue_buf (sq a') = queue_buf (sq a) /\ queue_buf (sq a') !! i = Some q
    /\ q_targetFunctionIdx q = next_target a' /\ targetActive a' !! Z.to_nat (next_target a') = Some true
    /\ sched_ok a' /\ tables_ok a' /\ (reinit_table a = false -> reinit_table a' = false).
Proof using memory.
  intros Hok Hf Hm. unfold select_next_queue_entry_from_next_target.
  destruct (switch_total a t0 t1 t2 Hok) as (walk & -> & Hn0 & Hact).
  pose proof (set_walk_ok a walk Hok Hn0 Hact) as Hok1. set (b := set_walk walk a) in *.
  assert (Hb : exists a', (if walk_done walk then create_single_alias_table b else Done b) = Done a'
    /\ retabled b a' /\ sched_ok a' /\ multi a' = multi a /\ tables_ok a' /\ (reinit_table a = false -> reinit_table a' = false)).
  { destruct (walk_done walk) eqn:Ed.
    - destruct (create_single_total memory b Hok1) as (a' & E & Hr & Hok' & Hs & Hmu & Hre). exists a'.
      split; [done|]. split; [done|]. split; [done|]. split; [done|]. split; [|done]. unfold tables_ok.
      assert (Efc : firstCycleDone (sq a') = true) by (destruct Hr as [_ Hr]; rewrite Hr; exact Ed). by rewrite Efc.
    - exists b. split; [done|]. split; [reflexivity|]. split; [done|]. split; [done|]. split; [|done]. unfold tables_ok.
      cbn [b set_walk sq set_first_done firstCycleDone]. rewrite Ed. exact Hm. }
  destruct Hb as (a' & -> & Hr & Hok' & Hmu & Htab & Hre). cbn [mbind outcome_bind].
  assert (Esq : sq a' = sq b /\ next_target a' = nextTarget walk /\ targetActive a' = targetActive a)
    by (destruct Hr as [_ Hr]; rewrite Hr; done).
  destruct Esq as (Esq & Enx & Eact).
  assert (Eq : queue_buf (sq a') = queue_buf (sq a)) by (by rewrite Esq).
  assert (Hrange : 0 <= next_target a' < MAX_TARGETS).
  { pose proof (lookup_lt_Some _ _ _ Hact). pose proof (sk_targets a Hok). rewrite Enx. lia. }
  rewrite (sk_entries a' Hok' _ Hrange), Eq. cbn [mbind outcome_bind].
  assert (Hpos : 0 < of_target (next_target a') (queue_buf (sq a))).
  { rewrite Enx, <- (Z2Nat.id (nextTarget walk)) by done. by apply (sk_active a Hok). }
  pose proof (below_bound w _ Hpos) as Hbel. destruct (below w _) as [s w1]. cbn [fst] in Hbel.
  destruct (percent w1) as [p w2]. rewrite Hmu. destruct Hm as (ts & Ets & Hts). rewrite Ets.
  destruct (Hts _ Hrange) as (tab & Etab & Hto). rewrite Etab. cbn [mbind outcome_bind].
  destruct (table_ok_pick _ _ s p Hto Hbel) as (i & -> & Hi). cbn [mbind outcome_bind].
  destruct (nth_of_target_spec (next_target a') (queue_buf (sq a)) 0 0 i) as (k & q & -> & Hk & Hq & _); [lia|].
  exists k, a', w2, q. rewrite Eq, Enx, Eact. rewrite Enx in Hq. by split_and!.
Qed.

(** C17: the head of the main loop always finds an entry.  It makes the tables anew when the
    queue has grown or an entry was fuzzed for the first time, so that they fit the queue, and
    the entry it draws is one of the queue; during the first cycle it belongs to the target
    whose turn it is, and that target is active.  The fork server is restarted exactly when
    the target changes.  The tables it leaves fit the queue again. *)
Theorem next_entry_correct t0 t1 t2 prev cur a w :
  sched_ok a -> queue_buf (sq a) <> [] -> prev <= Z.of_nat (length (queue_buf (sq a))) ->
  (Z.of_nat (length (queue_buf (sq a))) = prev -> reinit_table a = false -> tables_ok a) ->
  exists i restart a' w' q,
    next_entry percent t0 t1 t2 prev cur a w
      = Done (i, restart, Z.of_nat (length (queue_buf (sq a))), a', w')
    /\ queue_buf (sq a') = queue_buf (sq a) /\ queue_buf (sq a) !! i = Some q
    /\ (firstCycleDone (sq a) = false ->
          q_targetFunctionIdx q = next_target a' /\ targetActive a' !! Z.to_nat (next_target a') = Some true)
    /\ (restart = false <-> q_targetFunctionIdx q = default 0xffffffff cur)
    /\ sched_ok a' /\ tables_ok a' /\ reinit_table a' = false.
Proof using memory.
  intros Hok Hne Hprev Htab. unfold next_entry. set (items := Z.of_nat _) in *.
  assert (Hb : exists b, (if (prev <? items) || reinit_table a then a ← create_alias_table a; Done (items, a)
      else Done (prev, a)) = Done (items, b)
    /\ sq b = sq a /\ sched_ok b /\ tables_ok b /\ reinit_table b = false).
  { destruct ((prev <? items) || reinit_table a) eqn:E.
    - destruct (create_alias_total memory a Hok) as (b & -> & Hr & H). exists b. split; [done|].
      split; [by destruct Hr as [_ ->]|done].
    - apply orb_false_iff in E as [E1 E2]. apply Z.ltb_ge in E1. assert (prev = items) as -> by lia.
      exists a. split; [done|]. split; [done|]. split; [done|]. by split; [apply Htab|]. }
  destruct Hb as (b & -> & Esq & Hokb & Htb & Hreb). cbn [mbind outcome_bind].
  unfold select_next_queue_entry. rewrite Esq. destruct (firstCycleDone (sq a)) eqn:Ef; cbn [negb].
  - unfold tables_ok in Htb. rewrite Esq, Ef in Htb.
    destruct (select_all_total b w Htb) as (i & w' & -> & Hi); [by rewrite Esq|]. rewrite Esq in Hi. cbn [mbind outcome_bind].
    destruct (lookup_lt_is_Some_2 (queue_buf (sq a)) (Z.to_nat i)) as [q Hq]; [lia|].
    rewrite Esq, <- (Z2Nat.id i), (rd_Some _ _ _ Hq) by lia. cbn [mbind outcome_bind]. rewrite Nat2Z.id.
    do 5 eexists. split; [done|]. rewrite Esq. split; [done|]. split; [done|]. split; [done|].
    split; [rewrite negb_false_iff, Z.eqb_eq; naive_solver|]. split; [done|]. split; [|done].
    unfold tables_ok. by rewrite Esq, Ef.
  - unfold tables_ok in Htb. rewrite Esq, Ef in Htb.
    destruct (select_next_total b t0 t1 t2 w Hokb) as (i & a' & w' & q & -> & Eq & Hq & Ht & Hact & Hok' & Htab' & Hre);
      [by rewrite Esq|done|].
    cbn [mbind outcome_bind]. rewrite (rd_Some _ _ _ Hq). cbn [mbind outcome_bind]. rewrite Nat2Z.id.
    do 5 eexists. split; [done|]. rewrite Eq, Esq in *. split; [done|]. split; [done|]. split; [done|].
    split; [rewrite negb_false_iff, Z.eqb_eq; naive_solver|]. split; [done|]. split; [done|by apply Hre].
Qed.
End choice.

(** ** [entriesForTarget] counts the entries of the targets *)

(** The operations on the queue keep the targets of the entries and the counts. *)
Definition targets (a : queue) : list Z := map q_targetFunctionIdx (queue_buf a).
Definition same_targets (a a' : queue) : Prop :=
  targets a' = targets a /\ entriesForTarget a' = entriesForTarget a.

#[global] Instance same_targets_preorder : PreOrder same_targets.
Proof. split; [done|]. intros a b c [H1 H2] [H3 H4]. split; congruence. Qed.

Lemma map_alter_same {A B} (f : A -> B) (g : A -> A) p (l : list A) :
  (forall x, f (g x) = f x) -> map f (alter g p l) = map f l.
Proof.
  intros H. revert p. induction l as [|x l IH]; intros [|p]; [done|done|simpl; by rewrite H|].
  simpl. f_equal. apply IH.
Qed.

Lemma alter_targets g p a : (forall q, q_targetFunctionIdx (g q) = q_targetFunctionIdx q) ->
  same_targets a (set_queue_buf (alter g p (queue_buf a)) a).
Proof. intros H. split; [|done]. by apply map_alter_same. Qed.

Lemma win_byte_targets k mini i a : same_targets a (win_byte k mini i a).
Proof. split; [|done]. by apply map_alter_same. Qed.

Lemma score_byte_targets k p2 ff mini i a : same_targets a (score_byte k p2 ff mini i a).
Proof.
  unfold score_byte. destruct (top_rated a !! i) as [[p|]|]; [|apply win_byte_targets|done].
  destruct (queue_buf a !! p); [|done]. destruct (keeps _ _ _ _); [done|].
  etransitivity; [by apply (alter_targets drop_ref p)|apply win_byte_targets].
Qed.

Lemma score_loop_targets k p2 ff mini i trace a : same_targets a (score_loop k p2 ff mini i trace a).
Proof.
  revert i a. induction trace as [|b trace IH]; intros i a; [done|]. simpl. etransitivity; [|apply IH].
  destruct (b =? 0); [done|apply score_byte_targets].
Qed.

Lemma cull_loop_targets n i v a a' : cull_loop n i v a = Some a' -> same_targets a a'.
Proof.
  revert i v a. induction n as [|n IH]; intros i v a H; simpl in H; [by simplify_eq|].
  destruct (top_rated a !! i) as [[p|]|]; [|by eapply IH..]. destruct (bit_set v i); [|by eapply IH].
  destruct (queue_buf a !! p) as [q|]; [|done]. simpl in H. destruct (q_trace_mini q); [|done]. simpl in H.
  etransitivity; [|by eapply IH]. destruct (q_favored q); [done|]. split; [|done]. by apply map_alter_same.
Qed.

Lemma cull_queue_targets fsrv n a a' : cull_queue fsrv n a = Some a' -> same_targets a a'.
Proof.
  unfold cull_queue. destruct (_ || n); [by intros [= <-]|]. set (b := set_queue_buf _ _).
  assert (Hb : same_targets a b) by (split; [|done]; unfold targets; simpl; by rewrite map_map).
  intros H. destruct (cull_loop _ _ _ b) as [c|] eqn:E; [|done]. apply cull_loop_targets in E. simpl in H.
  pose proof (cull_marks_spec (negb (firstCycleDone c)) (amountOfTargets c) 0 (queue_buf c) (queued_favored c)
    (pending_favored c)) as Hs.
  destruct (cull_marks _ _ _ _ _ _) as [[l qf] pf]. destruct Hs as [-> _]. injection H as <-.
  etransitivity; [exact Hb|]. etransitivity; [exact E|]. split; [|done]. unfold targets. simpl.
  change (map ?f ?l) with (f <$> l). rewrite fmap_imap. rewrite <- (imap_const q_targetFunctionIdx).
  apply imap_ext. intros k q _. simpl. unfold marked. rewrite mark_as_redundant_eq.
  by destruct (q_disabled q), (_ && _).
Qed.

Lemma abandon_targets s c k a : same_targets a (abandon_entry s c k a).1.
Proof.
  unfold abandon_entry. destruct (queue_buf a !! k); [|done].
  destruct (_ && negb (q_disabled _)); split; try done; unfold targets; simpl; by rewrite !map_alter_same.
Qed.

Definition counts_exact (a : queue) : Prop :=
  forall (t : nat) n, entriesForTarget a !! t = Some n -> n = of_target (Z.of_nat t) (queue_buf a).

Lemma of_target_targets t a a' : targets a' = targets a -> of_target t (queue_buf a') = of_target t (queue_buf a).
Proof.
  unfold targets. generalize (queue_buf a), (queue_buf a'). intros l. induction l as [|q l IH]; intros [|q' l'] E;
    try discriminate E; [done|]. simpl in E. injection E as Eq El. by rewrite !of_target_cons, Eq, (IH l').
Qed.

Lemma same_targets_counts a a' : same_targets a a' -> counts_exact a -> counts_exact a'.
Proof. intros [Ht He] H t n Hn. rewrite He in Hn. rewrite (of_target_targets _ _ _ Ht). by apply H. Qed.

Lemma of_target_app t l k : of_target t (l ++ k) = of_target t l + of_target t k.
Proof. induction l as [|q l IH]; [done|]. simpl. rewrite !of_target_cons, IH. lia. Qed.

Lemma of_target_le t l : 0 <= of_target t l <= Z.of_nat (length l).
Proof. induction l as [|q l IH]; [done|]. rewrite of_target_cons. cbn [length]. destruct (_ =? t); lia. Qed.

Lemma add_counts len det f a :
  0 <= f -> Z.of_nat (length (queue_buf a)) + 1 < 2 ^ 32 -> counts_exact a -> counts_exact (add_to_queue len det f a).
Proof.
  intros Hf Hl H t n. unfold add_to_queue. cbn [entriesForTarget queue_buf]. intros Hn.
  rewrite of_target_app, of_target_cons. cbn [q_targetFunctionIdx].
  pose proof (of_target_le (Z.of_nat t) (queue_buf a)) as Hle.
  change (of_target (Z.of_nat t) []) with 0. destruct (decide (Z.to_nat f = t)) as [<-|Hne].
  - rewrite list_lookup_alter_eq in Hn. destruct (entriesForTarget a !! Z.to_nat f) as [m|] eqn:E; [|done].
    injection Hn as <-. apply H in E. rewrite Z2Nat.id in * by done. rewrite Z.eqb_refl. rewrite u32_id; lia.
  - rewrite list_lookup_alter_ne in Hn by done. apply H in Hn. rewrite (proj2 (Z.eqb_neq _ _)) by lia. lia.
Qed.

Lemma queue_step_counts fsrv a a' :
  queue_step fsrv a a' ->
  (Forall (fun t => 0 <= t) (targets a) -> Z.of_nat (length (queue_buf a)) < 2 ^ 32 -> counts_exact a) ->
  Forall (fun t => 0 <= t) (targets a') -> Z.of_nat (length (queue_buf a')) < 2 ^ 32 -> counts_exact a'.
Proof.
  assert (Hsame : forall b b', same_targets b b' ->
    (Forall (fun t => 0 <= t) (targets b) -> Z.of_nat (length (queue_buf b)) < 2 ^ 32 -> counts_exact b) ->
    Forall (fun t => 0 <= t) (targets b') -> Z.of_nat (length (queue_buf b')) < 2 ^ 32 -> counts_exact b').
  { intros b b' Hs Hb Ht Hl. apply (same_targets_counts b); [done|]. destruct Hs as [Et _].
    apply Hb; [by rewrite <- Et|]. apply (f_equal length) in Et. unfold targets in Et. rewrite !length_map in Et. lia. }
  assert (Hadd : forall len det f b,
    (Forall (fun t => 0 <= t) (targets b) -> Z.of_nat (length (queue_buf b)) < 2 ^ 32 -> counts_exact b) ->
    Forall (fun t => 0 <= t) (targets (add_to_queue len det f b)) ->
    Z.of_nat (length (queue_buf (add_to_queue len det f b))) < 2 ^ 32 -> counts_exact (add_to_queue len det f b)).
  { intros len det f b Hb Ht Hl. unfold targets in Ht. cbn [add_to_queue queue_buf] in Ht, Hl.
    rewrite map_app in Ht. apply Forall_app in Ht as [Ht Hf]. apply Forall_cons in Hf as [Hf _].
    rewrite length_app in Hl. cbn [length q_targetFunctionIdx] in *. apply add_counts; [done|lia|]. apply Hb; [done|lia]. }
  destruct 1 as [len det f a|len det f a|trace k a Hl|n a a' Hc|s c k a]; intros Ha.
  - by apply Hadd.
  - apply (Hsame (add_to_queue len det f a)); [|by apply Hadd]. split; [|done]. by apply map_alter_same.
  - apply (Hsame a); [|done]. unfold update_bitmap_score. destruct (queue_buf a !! k); [apply score_loop_targets|done].
  - apply (Hsame a); [by eapply cull_queue_targets|done].
  - apply (Hsame a); [apply abandon_targets|done].
Qed.

(** In every queue the fuzzer can reach, whatever it adds, scores, culls and finishes, the
    counts that size the tables of the targets are the numbers of their entries. *)
Theorem reachable_counts fsrv sched fixed ts a :
  rtc (queue_step fsrv) (queue_init (map_size fsrv) sched fixed ts) a ->
  Forall (fun t => 0 <= t) (targets a) -> Z.of_nat (length (queue_buf a)) < 2 ^ 32 -> counts_exact a.
Proof.
  intros Hr. assert (Hi : counts_exact (queue_init (map_size fsrv) sched fixed ts)).
  { intros t n Hn. cbn [queue_init entriesForTarget queue_buf] in *. by apply lookup_replicate in Hn as [-> _]. }
  revert Hr. generalize (queue_init (map_size fsrv) sched fixed ts), Hi. clear Hi. intros b Hi Hr.
  assert (Hi' : Forall (fun t => 0 <= t) (targets b) -> Z.of_nat (length (queue_buf b)) < 2 ^ 32 -> counts_exact b) by done.
  clear Hi. induction Hr as [b|b b' c Hs _ IH]; [exact Hi'|]. apply IH. by eapply queue_step_counts.
Qed.

(** ** Scores *)

Section score_theorems.
Context `{Hplatform : !Platform}.

(** C32: [calculate_score] gives every enabled entry of the queue a score, for every schedule: it is
    at most [havoc_max_mult * 100], and at least 1 unless the schedule is COE, the one that may
    skip an entry, or MOpt is at work; the handicap shrinks by what was paid for.  The score is
    computed only from calibrated targets: the division by [total_cal_cycles] is one by zero
    for an entry of a target that never was calibrated. *)
Theorem calculate_score_correct a q e :
  (score_ok a -> q ∈ queue_buf (sq a) -> q_disabled q = false ->
   exists p h, calculate_score a q e = Done (p, h)
     /\ 0 <= p <= havoc_max_mult a * 100
     /\ (schedule (sq a) <> COE -> limit_time_sig a = 0 -> 1 <= p)
     /\ h = if 4 <=? handicap e then handicap e - 4 else if handicap e =? 0 then 0 else handicap e - 1)
  /\ (forall us, rd (total_cal_us a) (q_targetFunctionIdx q) = Done us ->
      rd (total_cal_cycles a) (q_targetFunctionIdx q) = Done 0 -> calculate_score a q e = Fpe).
Proof.
  split; [apply calculate_score_total|]. intros us E1 E2. unfold calculate_score. by rewrite E1, E2.
Qed.

(** In the linear schedule the factor is a division of integers: an entry that was fuzzed at
    most as often as its path was seen gets the factor 0 and the smallest score, whatever its
    speed, coverage and depth. *)
Theorem lin_score_collapses a q e :
  score_ok a -> q ∈ queue_buf (sq a) -> q_disabled q = false -> schedule (sq a) = LIN -> limit_time_sig a = 0 ->
  0 <= q_fuzz_level q <= n_fuzz_at (sq a) (q_n_fuzz_entry q) ->
  exists h, calculate_score a q e = Done (1, h).
Proof.
  intros Hok Hq Hd Hs Hl Hf. destruct (calculate_score_base a q e Hok Hq Hd) as (p & Hp & ->).
  apply base_scores_facts in Hp as [_ Hp]. pose proof (so_hits a Hok (or_introl Hs) q Hq) as Hh.
  pose proof (so_mult a Hok) as Hm.
  assert (E : schedule_score a q p = Done (p, of_int 0)).
  { unfold schedule_score. rewrite Hs. cbn -[u32 udiv of_int]. rewrite u32_id, udiv_Done, Z.div_small by lia. done. }
  rewrite E. cbn [mbind outcome_bind]. eexists. f_equal. f_equal. unfold final_score. rewrite Hs, Hl.
  change (nlt (of_int MAX_FACTOR) (of_int 0)) with false. cbn -[scale of_int ndiv Z.mul]. rewrite Hp. cbn -[Z.mul].
  destruct (Z.ltb_spec (havoc_max_mult a * 100) 1); lia.
Qed.
End score_theorems.

(** ** Witnesses *)

#[local] Instance plain_platform : Platform := {|
  log f := f; log10 f := f; log2 f := f; cast_out _ := 0;
  cast_out_u32 _ := conj (Z.le_refl 0) eq_refl;
  heap_double _ := S754_nan; heap_int _ := -1; can_alloc _ := true |}.

(** Two targets with a seed each *)
Definition sample_sched (s : Z) : sched :=
  let q := add_to_queue 4 false 1 (add_to_queue 3 false 0 (queue_init 64 s false (replicate 256 true))) in
  Sched q (replicate 2 (EScore 5 7 (S754_zero false) (S754_zero false))) (replicate 256 900) (replicate 256 9)
    (replicate 256 40) (replicate 256 8) 100 0 64 [true; true] 0 None (Tables [] []) None false.

Lemma sample_score_ok s : EXPLORE <= s <= SEEK -> score_ok (sample_sched s).
Proof.
  intros Hs. constructor; [done|simpl; lia|simpl; lia| |].
  - intros q Hq _. exists 900, 9, 40, 8. cbn [sample_sched sq] in Hq.
    assert (Ht : q_targetFunctionIdx q = 0 \/ q_targetFunctionIdx q = 1).
    { apply list_elem_of_In in Hq as [<-|[<-|[]]]; [by left|by right]. }
    destruct Ht as [-> | ->]; split_and!; done.
  - intros _ q Hq. apply list_elem_of_In in Hq as [<-|[<-|[]]]; split; done.
Qed.

Lemma sample_sched_ok s : EXPLORE <= s <= SEEK -> sched_ok (sample_sched s).
Proof.
  intros Hs. constructor; [by apply sample_score_ok|done| |done| |done|done].
  - intros t Ht.
    assert (Hall : forallb (fun t => match entriesForTarget (sq (sample_sched EXPLORE)) !! Z.to_nat t with
      | Some n => n =? of_target t (queue_buf (sq (sample_sched EXPLORE))) | None => false end) (seqZ 0 256) = true)
      by (vm_compute; reflexivity).
    rewrite forallb_forall in Hall. specialize (Hall t). rewrite <- list_elem_of_In, elem_of_seqZ in Hall.
    unfold MAX_TARGETS in Ht. specialize (Hall ltac:(lia)). unfold rd. rewrite (proj2 (Z.leb_le 0 t)) by lia.
    change (entriesForTarget (sq (sample_sched s))) with (entriesForTarget (sq (sample_sched EXPLORE))).
    change (queue_buf (sq (sample_sched s))) with (queue_buf (sq (sample_sched EXPLORE))).
    destruct (entriesForTarget _ !! _); [|done]. f_equal. by apply Z.eqb_eq.
  - intros [|[|t]] H; [done|done|discriminate H].
Qed.

Lemma calculate_score_correct_witness :
  exists p h, calculate_score (sample_sched FAST) (QEntry 1 4 0 0 0 1 false 0 None false false false false)
    (EScore 5 7 (S754_zero false) (S754_zero false)) = Done (p, h) /\ 0 <= p <= 6400 /\ 1 <= p /\ h = 3.
Proof.
  destruct (proj1 (calculate_score_correct (sample_sched FAST) (QEntry 1 4 0 0 0 1 false 0 None false false false false)
    (EScore 5 7 (S754_zero false) (S754_zero false)))) as (p & h & E & H1 & H2 & H3).
  - apply sample_score_ok. done.
  - apply list_elem_of_In. right. left. reflexivity.
  - reflexivity.
  - exists p, h. split; [exact E|]. split; [exact H1|]. split; [apply H2; done|exact H3].
Defined.

Lemma lin_score_collapses_witness :
  exists h, calculate_score (sample_sched LIN) (QEntry 1 4 0 0 0 1 false 0 None false false false false)
    (EScore 5 7 (S754_zero false) (S754_zero false)) = Done (1, h).
Proof.
  apply lin_score_collapses; [by apply sample_score_ok| |reflexivity|reflexivity|reflexivity|done].
  apply list_elem_of_In. right. left. reflexivity.
Defined.

Lemma next_entry_correct_witness :
  exists i restart a' w' q,
    next_entry (fun w => (lit 1 2, w)) 5 6 7 0 (Some 1) (sample_sched EXPLORE) 3 = Done (i, restart, 2, a', w')
    /\ queue_buf (sq (sample_sched EXPLORE)) !! i = Some q /\ q_targetFunctionIdx q = next_target a' /\ tables_ok a'.
Proof.
  destruct (next_entry_correct (Hplatform := plain_platform) (fun _ => eq_refl) (fun w => (lit 1 2, w)) 5 6 7 0 (Some 1) (sample_sched EXPLORE) 3)
    as (i & r & a' & w' & q & E & _ & Hq & Ht & _ & _ & Htab & _).
  - by apply sample_sched_ok.
  - discriminate.
  - simpl. lia.
  - intros H. discriminate H.
  - exists i, r, a', w', q. split; [exact E|]. split; [exact Hq|]. split; [by apply Ht|exact Htab].
Defined.

Lemma reachable_counts_witness : counts_exact sample_scored.
Proof.
  apply (reachable_counts sample_fsrv EXPLORE false [true; true]).
  - exact sample_scored_reach.
  - assert (E : targets sample_scored = [0; 1]) by (vm_compute; reflexivity). rewrite E.
    apply List.Forall_cons; [lia|]. apply List.Forall_cons; [lia|]. apply List.Forall_nil.
  - vm_compute. reflexivity.
Defined.
