(* ===== verification/Swarm.v ===== *)
(** * The swarm of MOpt (src/aflplusplus/src/afl-fuzz-one.c, afl-fuzz.c, afl-fuzz-state.c)

    MOpt adapts the distribution from which its havoc stage draws the operators.  In the pilot
    module the five particles of the swarm take turns; when each has had its period the
    fittest one serves the core module for a period; then [pso_updating] moves all particles
    and the pilot module starts again.  [leave_period] is the end of [mopt_common_fuzzing],
    [fuzz_one_mopt] the dispatch over the modules in [fuzz_one]; what the random stages in
    between do to the counters is that of MoptHavoc.v.  The numbers are those of [Alias]:
    doubles in the program, rationals where a theorem is about exact arithmetic. *)
From Stdlib Require Import QArith Lqa Floats.SpecFloat.
From S2P Require Import Prelude Alias MoptHavoc.
#[local] Open Scope Z_scope.

Definition swarm_num : Z := 5.
Definition period_core : Z := 500000.
Definition period_pilot : Z := 50000.
Definition period_pilot_tmp : Z := 5000.
Definition g_max : Z := 5000.

(** [rand()] and [random()] of the C library *)
Class CRand (R : Type) := {
  crand : R -> Z * R;
  crand_nonneg : forall r, 0 <= (crand r).1;
}.

(** The counters of one row, one cell per operator *)
Record counters := Counters {
  c_finds : list Z;
  c_finds_v2 : list Z;
  c_cycles : list Z;
  c_cycles_v2 : list Z;
  c_cycles_v3 : list Z;
}.

Section swarm.
Context {D : Type} `{!Number D} {R : Type} `{!CRand R}.

(** The literal [a / b] *)
Definition frac (a b : Z) : D := ndiv (of_int a) (of_int b).
Definition w_init : D := frac 9 10.
Definition w_end : D := frac 3 10.
Definition v_max : D := of_int 1.
Definition v_min : D := frac 5 100.

(** The rows [tmp_swarm] of the arrays of [afl_state_t] *)
Record particle := Particle {
  x_now : list D;
  v_now : list D;
  L_best : list D;
  eff_best : list D;
  probability_now : list D;
  swarm_fitness : D;
  stage_counts : counters;
}.

(** MOpt's part of [afl_state_t]; [pilot_at] is the row the pointers of [mopt_globals_pilot]
    point to. *)
Record mopt := MOpt {
  parts : list particle;
  core_counts : counters;
  G_best : list D;
  operator_finds_puppet : list Z;
  swarm_now : Z;
  key_module : Z;
  pilot_at : Z;
  g_now : Z;
  w_now : D;
  tmp_pilot_time : Z;
  tmp_core_time : Z;
  total_pacemaker_time : Z;
  total_find : Z;              (* [total_puppet_find] *)
  temp_puppet_find : Z;
  old_hit_count : Z;
}.

Definition set_counts (c : counters) (p : particle) : particle :=
  Particle (x_now p) (v_now p) (L_best p) (eff_best p) (probability_now p) (swarm_fitness p) c.

(** ** The end of a period *)

(** [finds[i] = finds_v2[i]; cycles[i] = cycles_v2[i];] *)
Definition roll (c : counters) : counters :=
  Counters (c_finds_v2 c) (c_finds_v2 c) (c_cycles_v2 c) (c_cycles_v2 c) (c_cycles_v3 c).

(** [temp_eff] of every operator *)
Definition efficiency (c : counters) : list D :=
  zip_with (fun '(f2, f) '(c2, c1) =>
      if c1 <? c2 then ndiv (of_int (u64 (f2 - f))) (of_int (u64 (c2 - c1))) else of_int 0)
    (zip (c_finds_v2 c) (c_finds c)) (zip (c_cycles_v2 c) (c_cycles c)).

(** The best efficiencies seen, and where they were seen *)
Definition note_best (effs : list D) (fit : D) (p : particle) : particle :=
  Particle (x_now p) (v_now p)
    (zip_with (fun '(e, t) '(l, x) => if nlt e t then x else l) (zip (eff_best p) effs) (zip (L_best p) (x_now p)))
    (zip_with (fun e t => if nlt e t then t else e) (eff_best p) effs)
    (probability_now p) fit (stage_counts p).

(** [(double)finds / ((double)(tmp_pilot_time) / period_pilot_tmp)] *)
Definition fitness_of (finds time : Z) : D := ndiv (of_int finds) (ndiv (of_int time) (of_int period_pilot_tmp)).

(** The fittest particle *)
Fixpoint fittest (fits : list D) (i : Z) (swarm_eff : D) (best : Z) : Z :=
  match fits with
  | [] => best
  | f :: fits => if nlt swarm_eff f then fittest fits (i + 1) f i else fittest fits (i + 1) swarm_eff best
  end.

(** [core_operator_*_v2 = core_operator_*] *)
Definition restart_core (c : counters) : counters :=
  Counters (c_finds c) (c_finds c) (c_cycles c) (c_cycles c) (c_cycles c).

(** The end of [mopt_common_fuzzing]: nothing happens before the period is over.  The time of
    the pilot module is set to 0 before the fitness is computed from it. *)
Definition leave_period (is_pilot_mode : bool) (new_hit_cnt : Z) (a : mopt) : outcome mopt :=
  let time := if is_pilot_mode then tmp_pilot_time a else tmp_core_time a in
  if negb ((if is_pilot_mode then period_pilot else period_core) <? time) then Done a
  else
    let pacemaker := u64 (total_pacemaker_time a + time) in
    if is_pilot_mode then
      let pilot_time := 0 in
      let fit := fitness_of (u64 (total_find a - temp_puppet_find a)) pilot_time in
      row ← rd (parts a) (pilot_at a);
      p ← rd (parts a) (swarm_now a);
      ps ← wr (parts a) (swarm_now a) (note_best (efficiency (stage_counts row)) fit p);
      row ← rd ps (pilot_at a);
      ps ← wr ps (pilot_at a) (set_counts (roll (stage_counts row)) row);
      let now := swarm_now a + 1 in
      if now =? swarm_num then
        let best := fittest (swarm_fitness <$> ps) 0 (of_int 0) 0 in
        if (best <? 0) || (swarm_num - 1 <? best) then Fatal
        else
          Done (MOpt ps (restart_core (core_counts a)) (G_best a) (operator_finds_puppet a) best 1 best (g_now a)
            (w_now a) pilot_time (tmp_core_time a) pacemaker (total_find a) (total_find a) (old_hit_count a))
      else
        Done (MOpt ps (core_counts a) (G_best a) (operator_finds_puppet a) now (key_module a) now (g_now a)
          (w_now a) pilot_time (tmp_core_time a) pacemaker (total_find a) (total_find a) (old_hit_count a))
    else
      Done (MOpt (parts a) (roll (core_counts a)) (G_best a) (operator_finds_puppet a) (swarm_now a) 2 (pilot_at a)
        (g_now a) (w_now a) (tmp_pilot_time a) 0 pacemaker (total_find a) (total_find a) new_hit_cnt).

(** ** Moving the particles *)

(** [RAND_C] *)
Definition RAND_C (r : R) : D * R :=
  let '(k, r) := crand r in (nmul (of_int (k `mod` 1000)) (frac 1 1000), r).

Definition clamp (x : D) : D := if nlt v_max x then v_max else if nlt x v_min then v_min else x.

(** The new velocities and places, with the sum of the places *)
Fixpoint move (w : D) (vs ls gs xs : list D) (x_temp : D) (r : R) : list D * list D * D * R :=
  match vs, ls, gs, xs with
  | v :: vs, l :: ls, g :: gs, x :: xs =>
      let '(c1, r) := RAND_C r in
      let '(c2, r) := RAND_C r in
      let v := nadd (nadd (nmul w v) (nmul c1 (nsub l x))) (nmul c2 (nsub g x)) in
      let x := clamp (nadd x v) in
      let '(vs, xs, x_temp, r) := move w vs ls gs xs (nadd x_temp x) r in
      (v :: vs, x :: xs, x_temp, r)
  | _, _, _, _ => ([], [], x_temp, r)
  end.

(** [probability_now[i] = probability_now[i - 1] + x_now[i]] after the first *)
Fixpoint cumulate (prev : option D) (xs : list D) : list D :=
  match xs with
  | [] => []
  | x :: xs => let p := match prev with None => x | Some q => nadd q x end in p :: cumulate (Some p) xs
  end.

(** One particle: move, normalise, cumulate, check *)
Definition move_particle (w : D) (gs : list D) (p : particle) (r : R) : outcome (particle * R) :=
  let '(vs, xs, x_temp, r) := move w (v_now p) (L_best p) gs (x_now p) (of_int 0) r in
  let xs := (fun x => ndiv x x_temp) <$> xs in
  let prob := cumulate None xs in
  last ← rd prob (Z.of_nat operator_num - 1);
  if nlt last (frac 99 100) || nlt (frac 101 100) last then Fatal
  else Done (Particle xs vs (L_best p) (eff_best p) prob (swarm_fitness p) (stage_counts p), r).

Fixpoint move_all (w : D) (gs : list D) (ps : list particle) (r : R) : outcome (list particle * R) :=
  match ps with
  | [] => Done ([], r)
  | p :: ps =>
      '(p, r) ← move_particle w gs p r;
      '(ps, r) ← move_all w gs ps r;
      Done (p :: ps, r)
  end.

Definition inertia (g : Z) : D :=
  nadd (ndiv (nmul (nsub w_init w_end) (of_int (g_max - g))) (of_int g_max)) w_end.

(** The finds of every operator, in the core and in all particles *)
Definition all_finds (a : mopt) : list Z :=
  foldl (fun fs p => zip_with (fun f g => u64 (f + g)) fs (c_finds (stage_counts p)))
    (c_finds (core_counts a)) (parts a).

Definition pso_updating (a : mopt) (r : R) : outcome (mopt * R) :=
  let g := if g_max <? g_now a + 1 then 0 else g_now a + 1 in
  let w := inertia g in
  let finds := all_finds a in
  let total := foldl (fun t f => u64 (t + f)) 0 finds in
  let gs := zip_with (fun f b => if f =? 0 then b else ndiv (of_int f) (of_int total)) finds (G_best a) in
  '(ps, r) ← move_all w gs (parts a) r;
  Done (MOpt ps (core_counts a) gs finds 0 0 (pilot_at a) g w (tmp_pilot_time a) (tmp_core_time a)
          (total_pacemaker_time a) (total_find a) (temp_puppet_find a) (old_hit_count a), r).

(** ** [fuzz_one] in MOpt mode *)

(** The counters the random stages work on *)
Definition counts_of (is_pilot_mode : bool) (a : mopt) : outcome mopt_counts :=
  if is_pilot_mode then
    p ← rd (parts a) (pilot_at a);
    let c := stage_counts p in
    Done (MoptCounts (c_cycles_v2 c) (c_cycles_v3 c) (c_finds_v2 c) (total_find a) (tmp_pilot_time a))
  else
    let c := core_counts a in
    Done (MoptCounts (c_cycles_v2 c) (c_cycles_v3 c) (c_finds_v2 c) (total_find a) (tmp_core_time a)).

Definition with_v2 (m : mopt_counts) (c : counters) : counters :=
  Counters (c_finds c) (finds_v2 m) (c_cycles c) (cycles_v2 m) (cycles_v3 m).

(** The state after the random stages left them at [m] *)
Definition spend (is_pilot_mode : bool) (m : mopt_counts) (a : mopt) : outcome mopt :=
  if is_pilot_mode then
    p ← rd (parts a) (pilot_at a);
    ps ← wr (parts a) (pilot_at a) (set_counts (with_v2 m (stage_counts p)) p);
    Done (MOpt ps (core_counts a) (G_best a) (operator_finds_puppet a) (swarm_now a) (key_module a) (pilot_at a)
      (g_now a) (w_now a) (pTime m) (tmp_core_time a) (total_pacemaker_time a) (total_puppet_find m)
      (temp_puppet_find a) (old_hit_count a))
  else
    Done (MOpt (parts a) (with_v2 m (core_counts a)) (G_best a) (operator_finds_puppet a) (swarm_now a) (key_module a)
      (pilot_at a) (g_now a) (w_now a) (tmp_pilot_time a) (pTime m) (total_pacemaker_time a) (total_puppet_find m)
      (temp_puppet_find a) (old_hit_count a)).

(** [mopt_common_fuzzing] for an entry that it does not skip; [stages] is what its random
    stages do to the counters. *)
Definition mopt_common_fuzzing (is_pilot_mode : bool) (stages : mopt_counts -> mopt_counts) (new_hit_cnt : Z)
  (a : mopt) : outcome mopt :=
  m ← counts_of is_pilot_mode a;
  a ← spend is_pilot_mode (stages m) a;
  leave_period is_pilot_mode new_hit_cnt a.

Definition fuzz_one_mopt (stages : mopt_counts -> mopt_counts) (new_hit_cnt : Z) (a : mopt) (r : R)
  : outcome (mopt * R) :=
  if key_module a =? 0 then a ← mopt_common_fuzzing true stages new_hit_cnt a; Done (a, r)
  else if key_module a =? 1 then a ← mopt_common_fuzzing false stages new_hit_cnt a; Done (a, r)
  else if key_module a =? 2 then pso_updating a r
  else Done (a, r).

(** [select_algorithm] with its draw: [k] is what [rand_below(afl, 10000)] returns. *)
Definition draw_operator (p : particle) (max_algorithm k : Z) : outcome Z :=
  range_sele ← rd (probability_now p) (max_algorithm - 1);
  let sele := nmul (nmul (of_int k) (frac 1 10000)) range_sele in
  match select_algorithm nlt (probability_now p) sele with
  | Some i => Done (Z.of_nat i)
  | None => Fatal
  end.

(** ** The pacemaker *)

Record pacemaker := Pacemaker { key_puppet : Z; orig_hit_cnt_puppet : Z; last_limit_time_start : Z }.

(** Does MOpt skip the deterministic stages?  [find] and [crash] are the times of the last find
    and the last crash, [limit] is [limit_time_puppet]. *)
Definition enter_pacemaker (now find crash limit : Z) (k : pacemaker) : bool * pacemaker :=
  if negb ((key_puppet k =? 0)
           && ((u64 (now - find) <? u32 limit) || (negb (crash =? 0) && (u64 (now - crash) <? u32 limit)) || (find =? 0)))
  then (true, Pacemaker 1 (orig_hit_cnt_puppet k) (last_limit_time_start k))
  else (false, k).

(** The start of the random stages; [hits] is [queued_items + saved_crashes]. *)
Definition start_pacemaker (hits now : Z) (k : pacemaker) : pacemaker :=
  if (key_puppet k =? 1) && (orig_hit_cnt_puppet k =? 0) then Pacemaker (key_puppet k) hits now else k.

(** Their end *)
Definition leave_pacemaker (hits : Z) (k : pacemaker) : pacemaker :=
  if (key_puppet k =? 1)
     && nlt (nadd (nmul (of_int hits) (frac 11 10)) (of_int (orig_hit_cnt_puppet k))) (of_int hits)
  then Pacemaker 0 0 0 else k.

(** ** The start (option -L) *)

Definition zeros : list Z := replicate operator_num 0.
Definition no_counts : counters := Counters zeros zeros zeros zeros zeros.

(** [x_now = ((double)(random() % 7000) * 0.0001 + 0.1)] for [k] operators, with the sum *)
Fixpoint scatter (k : nat) (total : D) (r : R) : list D * D * R :=
  match k with
  | O => ([], total, r)
  | S k =>
      let '(z, r) := crand r in
      let x := nadd (nmul (of_int (z `mod` 7000)) (frac 1 10000)) (frac 1 10) in
      let '(xs, total, r) := scatter k (nadd total x) r in
      (x :: xs, total, r)
  end.

Definition init_particle (w : D) (r : R) : outcome (particle * R) :=
  let '(xs, total, r) := scatter operator_num (of_int 0) r in
  let half := replicate operator_num (frac 5 10) in
  move_particle w half
    (Particle ((fun x => ndiv x total) <$> xs) (replicate operator_num (frac 1 10)) half
       (replicate operator_num (of_int 0)) (replicate operator_num (of_int 0)) (of_int 0) no_counts) r.

Fixpoint init_particles (k : nat) (w : D) (r : R) : outcome (list particle * R) :=
  match k with
  | O => Done ([], r)
  | S k =>
      '(p, r) ← init_particle w r;
      '(ps, r) ← init_particles k w r;
      Done (p :: ps, r)
  end.

(** The state after the option is read; everything else is still zero. *)
Definition init_mopt (r : R) : outcome (mopt * R) :=
  let w := inertia 0 in
  '(ps, r) ← init_particles (Z.to_nat swarm_num) w r;
  Done (MOpt ps no_counts (replicate operator_num (frac 5 10)) zeros 0 0 0 0 w 0 0 0 0 0 0, r).
End swarm.
Arguments particle : clear implicits.
Arguments mopt : clear implicits.
