(* ===== verification/SwarmTheorems.v ===== *)
(** * What the swarm of MOpt does

    [fuzz_one_mopt] keeps the state in shape and goes through its modules in order, for
    numbers of any kind.  In exact arithmetic [pso_updating] never stops the fuzzer, and leaves
    tables of probabilities that sum to 1 and from which every operator is drawn.  On doubles
    the fitness of a particle is an infinity or not a number, since the time it is divided by
    is always 0. *)
From Stdlib Require Import QArith Lqa Floats.SpecFloat.
From S2P Require Import Prelude Alias MoptHavoc Swarm.
#[local] Open Scope Z_scope.

(** ** The shape of the state *)

Definition counters_ok (c : counters) : Prop :=
  length (c_finds c) = operator_num /\ length (c_finds_v2 c) = operator_num
  /\ length (c_cycles c) = operator_num /\ length (c_cycles_v2 c) = operator_num /\ length (c_cycles_v3 c) = operator_num.

Definition counts_ok (m : mopt_counts) : Prop :=
  length (finds_v2 m) = operator_num /\ length (cycles_v2 m) = operator_num /\ length (cycles_v3 m) = operator_num.

Section shape.
Context {D : Type} `{!Number D} {R : Type} `{!CRand R}.

Record particle_ok (p : particle D) : Prop := {
  po_x : length (x_now p) = operator_num;
  po_v : length (v_now p) = operator_num;
  po_L : length (L_best p) = operator_num;
  po_eff : length (eff_best p) = operator_num;
  po_prob : length (probability_now p) = operator_num;
  po_counts : counters_ok (stage_counts p);
}.

Record mopt_ok (a : mopt D) : Prop := {
  mo_parts : Z.of_nat (length (parts a)) = swarm_num;
  mo_particles : Forall particle_ok (parts a);
  mo_core : counters_ok (core_counts a);
  mo_G : length (G_best a) = operator_num;
  mo_swarm : 0 <= swarm_now a < swarm_num;
  mo_pilot : 0 <= pilot_at a < swarm_num;
  mo_module : key_module a = 0 \/ key_module a = 1 \/ key_module a = 2;
}.

Lemma rd_range {A} (l : list A) i : 0 <= i < Z.of_nat (length l) -> exists x, rd l i = Done x /\ x ∈ l.
Proof.
  intros Hi. destruct (lookup_lt_is_Some_2 l (Z.to_nat i)) as [x Hx]; [lia|].
  exists x. rewrite <- (Z2Nat.id i) by lia. split; [by apply rd_Some|by eapply list_elem_of_lookup_2].
Qed.

Lemma wr_range {A} (l : list A) i v : 0 <= i < Z.of_nat (length l) ->
  exists l', wr l i v = Done l' /\ l' = <[Z.to_nat i := v]> l.
Proof.
  intros Hi. unfold wr. rewrite (proj2 (Z.leb_le 0 i)), (proj2 (Z.ltb_lt i _)) by lia. by eexists.
Qed.

Lemma rd_inv {A} (l : list A) i x : rd l i = Done x -> l !! Z.to_nat i = Some x.
Proof. unfold rd. destruct (0 <=? i); [|done]. destruct (l !! Z.to_nat i); [|done]. by intros [= ->]. Qed.

Lemma roll_ok c : counters_ok c -> counters_ok (roll c).
Proof. intros (H1 & H2 & H3 & H4 & H5). by split_and!. Qed.

Lemma efficiency_length (c : counters) : counters_ok c -> length (efficiency c : list D) = operator_num.
Proof. intros (H1 & H2 & H3 & H4 & H5). unfold efficiency. rewrite length_zip_with, !length_zip, H1, H2, H3, H4. done. Qed.

Lemma note_best_ok effs fit p : length effs = operator_num -> particle_ok p -> particle_ok (note_best effs fit p).
Proof.
  intros He []. constructor; cbn [x_now v_now L_best eff_best probability_now stage_counts note_best]; try done.
  - rewrite length_zip_with, !length_zip, po_eff0, He, po_L0, po_x0. done.
  - rewrite length_zip_with, po_eff0, He. done.
Qed.

Lemma set_counts_ok c p : counters_ok c -> particle_ok p -> particle_ok (set_counts c p).
Proof. intros Hc []. by constructor. Qed.

Lemma fittest_range (fits : list D) i eff best :
  0 <= best -> 0 <= i -> 0 <= fittest fits i eff best < Z.max (best + 1) (i + Z.of_nat (length fits)).
Proof.
  revert i eff best. induction fits as [|f fits IH]; intros i eff best Hb Hi; cbn [fittest length]; [lia|].
  destruct (nlt eff f); [pose proof (IH (i + 1) f i)|pose proof (IH (i + 1) eff best)]; lia.
Qed.

(** The module and the particle after a call *)
Definition next_phase (a a' : mopt D) : Prop :=
  (key_module a' = key_module a /\ swarm_now a' = swarm_now a)
  \/ (key_module a = 0 /\ swarm_now a < swarm_num - 1 /\ key_module a' = 0 /\ swarm_now a' = swarm_now a + 1)
  \/ (key_module a = 0 /\ swarm_now a = swarm_num - 1 /\ key_module a' = 1)
  \/ (key_module a = 1 /\ key_module a' = 2 /\ swarm_now a' = swarm_now a)
  \/ (key_module a = 2 /\ key_module a' = 0 /\ swarm_now a' = 0).

(** The rows after a period of the pilot module *)
Lemma pilot_rows a :
  mopt_ok a -> exists row p row', rd (parts a) (pilot_at a) = Done row /\ rd (parts a) (swarm_now a) = Done p
    /\ (let ps1 := <[Z.to_nat (swarm_now a) := note_best (efficiency (stage_counts row))
           (fitness_of (u64 (total_find a - temp_puppet_find a)) 0) p]> (parts a) in
        let ps := <[Z.to_nat (pilot_at a) := set_counts (roll (stage_counts row')) row']> ps1 in
        rd ps1 (pilot_at a) = Done row' /\ Forall particle_ok ps /\ Z.of_nat (length ps) = swarm_num
        /\ forall hits, key_module a = 0 -> period_pilot < tmp_pilot_time a ->
           exists a', leave_period true hits a = Done a' /\ parts a' = ps /\ mopt_ok a' /\ pilot_at a' = swarm_now a'
             /\ if swarm_now a =? swarm_num - 1
                then key_module a' = 1 /\ swarm_now a' = fittest (swarm_fitness <$> ps) 0 (of_int 0) 0
                else key_module a' = 0 /\ swarm_now a' = swarm_now a + 1).
Proof.
  intros Hok. pose proof (mo_parts a Hok) as Hlen. pose proof (mo_particles a Hok) as Hps.
  pose proof (mo_swarm a Hok) as Hs. pose proof (mo_pilot a Hok) as Hp.
  destruct (rd_range (parts a) (pilot_at a)) as (row & Er & Hrow); [lia|].
  destruct (rd_range (parts a) (swarm_now a)) as (p & Ep & Hpin); [lia|].
  rewrite Forall_forall in Hps. pose proof (Hps row Hrow) as Hrok. pose proof (Hps p Hpin) as Hpok.
  rewrite <- Forall_forall in Hps.
  set (ps1 := <[Z.to_nat (swarm_now a) := note_best (efficiency (stage_counts row))
    (fitness_of (u64 (total_find a - temp_puppet_find a)) 0) p]> (parts a)).
  assert (Hps1 : Forall particle_ok ps1)
    by (apply Forall_insert; [done|]; apply note_best_ok; [apply efficiency_length, Hrok|done]).
  assert (Hl1 : length ps1 = length (parts a)) by apply length_insert.
  destruct (rd_range ps1 (pilot_at a)) as (row' & Er' & Hrow'); [lia|].
  assert (Hrok' : particle_ok row') by (rewrite Forall_forall in Hps1; auto).
  exists row, p, row'. split; [done|]. split; [done|]. cbv zeta. fold ps1.
  set (ps := <[Z.to_nat (pilot_at a) := set_counts (roll (stage_counts row')) row']> ps1).
  assert (Hpsok : Forall particle_ok ps)
    by (apply Forall_insert; [done|]; apply set_counts_ok; [apply roll_ok, Hrok'|done]).
  assert (Hl : Z.of_nat (length ps) = swarm_num) by (unfold ps; rewrite length_insert, Hl1; done).
  split; [done|]. split; [done|]. split; [done|]. intros hits Hm Ht.
  pose proof (fittest_range (swarm_fitness <$> ps) 0 (of_int 0) 0 ltac:(lia) ltac:(lia)) as Hbest.
  rewrite length_fmap in Hbest. rewrite Hl in Hbest. change (Z.max (0 + 1) (0 + swarm_num)) with swarm_num in Hbest.
  unfold leave_period. rewrite (proj2 (Z.ltb_lt _ _) Ht). cbn [negb]. rewrite Er, Ep. cbn [mbind outcome_bind].
  destruct (wr_range (parts a) (swarm_now a) (note_best (efficiency (stage_counts row))
    (fitness_of (u64 (total_find a - temp_puppet_find a)) 0) p)) as (l1 & -> & ->); [lia|].
  cbn [mbind outcome_bind]. fold ps1. rewrite Er'. cbn [mbind outcome_bind].
  destruct (wr_range ps1 (pilot_at a) (set_counts (roll (stage_counts row')) row')) as (l2 & -> & ->); [lia|].
  cbn [mbind outcome_bind]. fold ps. unfold swarm_num in *.
  destruct (Z.eqb_spec (swarm_now a + 1) 5), (Z.eqb_spec (swarm_now a) (5 - 1)); try lia.
  - set (best := fittest _ _ _ _) in *. rewrite (proj2 (Z.ltb_ge best 0)), (proj2 (Z.ltb_ge (5 - 1) best)) by lia. cbn [orb].
    eexists. split; [done|]. split; [done|]. split; [|done].
    constructor; cbn [parts core_counts G_best swarm_now pilot_at key_module]; try done; [|apply Hok|by auto].
    destruct (mo_core a Hok) as (C1 & C2 & C3 & C4 & C5). by split_and!.
  - eexists. split; [done|]. split; [done|]. split; [|done].
    constructor; cbn [parts core_counts G_best swarm_now pilot_at key_module]; try done; try apply Hok; unfold swarm_num; lia.
Qed.

Lemma leave_core_total hits a :
  mopt_ok a -> key_module a = 1 -> exists a', leave_period false hits a = Done a' /\ mopt_ok a' /\ next_phase a a'.
Proof.
  intros Hok Hm. unfold leave_period. destruct (negb _).
  - exists a. split; [done|]. split; [done|by left].
  - eexists. split; [done|]. split; [|right; right; right; left; by split_and!].
    destruct Hok. constructor; cbn [parts core_counts G_best swarm_now pilot_at key_module]; auto using roll_ok.
Qed.

Lemma counts_total b a : mopt_ok a -> exists m, counts_of b a = Done m /\ counts_ok m.
Proof.
  intros Hok. unfold counts_of. destruct b.
  - pose proof (mo_pilot a Hok). pose proof (mo_parts a Hok).
    destruct (rd_range (parts a) (pilot_at a)) as (p & -> & Hp); [lia|]. cbn [mbind outcome_bind].
    pose proof (mo_particles a Hok) as Hps. rewrite Forall_forall in Hps.
    destruct (po_counts p (Hps p Hp)) as (C1 & C2 & C3 & C4 & C5). eexists. split; [done|]. by split_and!.
  - destruct (mo_core a Hok) as (C1 & C2 & C3 & C4 & C5). eexists. split; [done|]. by split_and!.
Qed.

Lemma with_v2_ok m c : counts_ok m -> counters_ok c -> counters_ok (with_v2 m c).
Proof. intros (H1 & H2 & H3) (C1 & C2 & C3 & C4 & C5). by split_and!. Qed.

Lemma spend_total b m a :
  mopt_ok a -> counts_ok m -> exists a', spend b m a = Done a' /\ mopt_ok a'
    /\ key_module a' = key_module a /\ swarm_now a' = swarm_now a.
Proof.
  intros Hok Hm. unfold spend. destruct b.
  - pose proof (mo_pilot a Hok). pose proof (mo_parts a Hok) as Hl.
    destruct (rd_range (parts a) (pilot_at a)) as (p & -> & Hp); [lia|]. cbn [mbind outcome_bind].
    destruct (wr_range (parts a) (pilot_at a) (set_counts (with_v2 m (stage_counts p)) p)) as (ps & -> & ->); [lia|].
    cbn [mbind outcome_bind]. eexists. split; [done|]. split; [|done].
    pose proof (mo_particles a Hok) as Hps. pose proof Hps as Hps'. rewrite Forall_forall in Hps'. specialize (Hps' p Hp).
    destruct Hok. constructor; cbn [parts core_counts G_best swarm_now pilot_at key_module]; try done.
    + by rewrite length_insert.
    + apply Forall_insert; [done|]. apply set_counts_ok; [apply with_v2_ok; [done|apply Hps']|done].
  - eexists. split; [done|]. split; [|done]. destruct Hok.
    constructor; cbn [parts core_counts G_best swarm_now pilot_at key_module]; auto using with_v2_ok.
Qed.

(** ** The update, up to the check of the probabilities *)

Lemma move_lengths w vs ls gs xs t (r : R) n :
  length vs = n -> length ls = n -> length gs = n -> length xs = n ->
  let '(vs', xs', _, _) := move w vs ls gs xs t r in length vs' = n /\ length xs' = n.
Proof.
  revert vs ls gs xs t r. induction n as [|n IH]; intros [|v vs] [|l ls] [|g gs] [|x xs] t r H1 H2 H3 H4; try done.
  cbn [move]. destruct (RAND_C r) as [c1 r1]. destruct (RAND_C r1) as [c2 r2].
  match goal with |- context [move w vs ls gs xs ?t' ?r'] =>
    specialize (IH vs ls gs xs t' r'); destruct (move w vs ls gs xs t' r') as [[[vs' xs'] t1] r3] end.
  destruct IH as [I1 I2]; [by injection H1|by injection H2|by injection H3|by injection H4|].
  cbn [length]. split; by f_equal.
Qed.

Lemma length_cumulate prev (xs : list D) : length (cumulate prev xs) = length xs.
Proof. revert prev. induction xs as [|x xs IH]; intros prev; [done|]. simpl. by rewrite IH. Qed.

Lemma move_particle_total w gs p (r : R) :
  particle_ok p -> length gs = operator_num ->
  move_particle w gs p r = Fatal
  \/ exists p' r', move_particle w gs p r = Done (p', r') /\ particle_ok p' /\ stage_counts p' = stage_counts p.
Proof.
  intros [] Hg. unfold move_particle.
  pose proof (move_lengths w (v_now p) (L_best p) gs (x_now p) (of_int 0) r operator_num) as Hm.
  destruct (move _ _ _ _ _ _ _) as [[[vs xs] t] r']. destruct Hm as [Hv Hx]; [done..|].
  assert (Hl : length (cumulate None ((fun x => ndiv x t) <$> xs)) = operator_num)
    by (by rewrite length_cumulate, length_fmap).
  destruct (rd_range (cumulate None ((fun x => ndiv x t) <$> xs)) (Z.of_nat operator_num - 1)) as (last & -> & _).
  { rewrite Hl. unfold operator_num. lia. }
  cbn [mbind outcome_bind]. destruct (_ || _); [by left|]. right. do 2 eexists. split; [done|]. split; [|done].
  constructor; cbn [x_now v_now L_best eff_best probability_now stage_counts]; try done. by rewrite length_fmap.
Qed.

Lemma move_all_total w gs ps (r : R) :
  Forall particle_ok ps -> length gs = operator_num ->
  move_all w gs ps r = Fatal
  \/ exists ps' r', move_all w gs ps r = Done (ps', r') /\ Forall particle_ok ps' /\ length ps' = length ps
       /\ stage_counts <$> ps' = stage_counts <$> ps.
Proof.
  intros Hps Hg. revert r. induction Hps as [|p ps Hp Hps IH]; intros r.
  { right. by do 2 eexists. }
  cbn [move_all]. destruct (move_particle_total w gs p r Hp Hg) as [-> | (p' & r' & -> & Hp' & Hc)]; [by left|].
  cbn [mbind outcome_bind]. destruct (IH r') as [-> | (ps' & r'' & -> & Hps' & Hl & Hcs)]; [by left|].
  right. cbn [mbind outcome_bind]. do 2 eexists. split; [done|]. split; [by apply Forall_cons|].
  split; [simpl; congruence|]. rewrite !fmap_cons. congruence.
Qed.

Lemma all_finds_length a : mopt_ok a -> length (all_finds a) = operator_num.
Proof.
  intros Hok. unfold all_finds. destruct (mo_core a Hok) as (C1 & _). revert C1.
  generalize (c_finds (core_counts a)). pose proof (mo_particles a Hok) as Hps.
  induction Hps as [|p ps Hp Hps IH]; intros l Hl; [done|]. simpl. apply IH.
  rewrite length_zip_with, Hl. destruct (po_counts p Hp) as (-> & _). done.
Qed.

Lemma pso_updating_total a (r : R) :
  mopt_ok a ->
  pso_updating a r = Fatal
  \/ exists a' r', pso_updating a r = Done (a', r') /\ mopt_ok a' /\ key_module a' = 0 /\ swarm_now a' = 0
       /\ pilot_at a' = pilot_at a /\ tmp_pilot_time a' = tmp_pilot_time a
       /\ stage_counts <$> parts a' = stage_counts <$> parts a.
Proof.
  intros Hok. unfold pso_updating. set (gs := zip_with _ _ _).
  assert (Hg : length gs = operator_num).
  { unfold gs. rewrite length_zip_with, all_finds_length, (mo_G a Hok) by done. done. }
  destruct (move_all_total (inertia (if g_max <? g_now a + 1 then 0 else g_now a + 1)) gs (parts a) r (mo_particles a Hok) Hg)
    as [-> | (ps' & r' & -> & Hps' & Hl & Hcs)]; [by left|].
  right. cbn [mbind outcome_bind]. do 2 eexists. split; [done|]. split; [|done].
  constructor; cbn [parts core_counts G_best swarm_now pilot_at key_module]; try done; try apply Hok; [|by left].
  rewrite Hl. apply Hok.
Qed.

Lemma mopt_common_total (b : bool) stages hits a :
  mopt_ok a -> (forall m, counts_ok m -> counts_ok (stages m)) -> key_module a = (if b then 0 else 1) ->
  exists a', mopt_common_fuzzing b stages hits a = Done a' /\ mopt_ok a' /\ next_phase a a'.
Proof.
  intros Hok Hst Hm. unfold mopt_common_fuzzing. destruct (counts_total b a Hok) as (m & -> & Hmok).
  cbn [mbind outcome_bind]. destruct (spend_total b (stages m) a Hok (Hst m Hmok)) as (a1 & -> & Hok1 & Ek & Es).
  cbn [mbind outcome_bind]. assert (Hph : forall a', next_phase a1 a' -> next_phase a a')
    by (intros a' H; unfold next_phase in *; by rewrite Ek, Es in H).
  destruct b.
  - destruct (Z_lt_le_dec period_pilot (tmp_pilot_time a1)) as [Ht|Ht].
    + destruct (pilot_rows a1 Hok1) as (row & p & row' & _ & _ & _ & _ & _ & H).
      destruct (H hits) as (a' & -> & _ & Hok' & _ & Hnx); [congruence|done|].
      exists a'. split; [done|]. split; [done|]. apply Hph. unfold next_phase. pose proof (mo_swarm a1 Hok1) as Hs.
      destruct (Z.eqb_spec (swarm_now a1) (swarm_num - 1)); destruct Hnx as [H1 H2]; [right; right; left|right; left];
        split_and!; congruence || lia.
    + exists a1. unfold leave_period. rewrite (proj2 (Z.ltb_ge _ _)) by lia. split; [done|]. split; [done|]. apply Hph. by left.
  - destruct (leave_core_total hits a1 Hok1) as (a' & -> & Hok' & Hnx); [congruence|]. exists a'. auto.
Qed.
End shape.

(** MOpt goes through its modules in order: five periods of the pilot module, one for each
    particle in turn, one of the core module, one update of the swarm.  Whatever the numbers
    are, no access leaves an array and [swarm_now] is a particle; only [pso_updating] can stop
    the fuzzer. *)
Theorem mopt_modules {D} `{!Number D} {R} `{!CRand R} stages hits (a : mopt D) (r : R) :
  mopt_ok a -> (forall m, counts_ok m -> counts_ok (stages m)) ->
  (exists a' r', fuzz_one_mopt stages hits a r = Done (a', r') /\ mopt_ok a' /\ next_phase a a')
  \/ (key_module a = 2 /\ fuzz_one_mopt stages hits a r = Fatal).
Proof.
  intros Hok Hst. unfold fuzz_one_mopt. destruct (mo_module a Hok) as [E|[E|E]]; rewrite E; cbn [Z.eqb Pos.eqb].
  - destruct (mopt_common_total true stages hits a Hok Hst E) as (a' & -> & H). left. cbn [mbind outcome_bind]. eauto.
  - destruct (mopt_common_total false stages hits a Hok Hst E) as (a' & -> & H). left. cbn [mbind outcome_bind]. eauto.
  - destruct (pso_updating_total a r Hok) as [H|(a' & r' & H & Hok' & Hk & Hs & _)]; [by right|].
    left. exists a', r'. split; [done|]. split; [done|]. unfold next_phase. by do 4 right.
Qed.

(** ** The update in exact arithmetic *)

Section exact.
Context {R : Type} `{!CRand R}.
#[local] Open Scope Q_scope.

Definition qsum (l : list Q) : Q := foldr Qplus 0 l.

Lemma qsum_cons x l : qsum (x :: l) = x + qsum l.
Proof. done. Qed.

Lemma nlt_true x y : nlt x y = true <-> x < y.
Proof.
  cbn [nlt rational_number]. rewrite negb_true_iff, <- not_true_iff_false, Qle_bool_iff. split; [apply Qnot_le_lt|apply Qlt_not_le].
Qed.

Lemma nlt_false x y : nlt x y = false <-> y <= x.
Proof. cbn [nlt rational_number]. by rewrite negb_false_iff, Qle_bool_iff. Qed.

Lemma clamp_range x : 1 # 20 <= clamp x <= 1.
Proof.
  unfold clamp, v_max, v_min, frac. cbn [of_int ndiv rational_number].
  destruct (nlt (inject_Z 1) x) eqn:E1; [split; [discriminate|apply Qle_refl]|].
  destruct (nlt x (inject_Z 5 / inject_Z 100)) eqn:E2; [split; discriminate|].
  apply nlt_false in E1, E2. unfold Qdiv, Qinv, Qmult, Qle, inject_Z in *. cbn in *. lia.
Qed.

Lemma move_exact w vs ls gs xs t (r : R) :
  let '(_, xs', t', _) := move w vs ls gs xs t r in Forall (fun x => 1 # 20 <= x <= 1) xs' /\ t' == t + qsum xs'.
Proof.
  revert ls gs xs t r. induction vs as [|v vs IH]; intros [|l ls] [|g gs] [|x xs] t r;
    try (split; [apply Forall_nil_2|unfold qsum; simpl; lra]).
  cbn [move]. destruct (RAND_C r) as [c1 r1]. destruct (RAND_C r1) as [c2 r2].
  match goal with |- context [move w vs ls gs xs (nadd t (clamp ?y)) ?r'] =>
    set (x' := clamp y); pose proof (clamp_range y) as Hx; fold x' in Hx;
    specialize (IH ls gs xs (nadd t x') r');
    destruct (move w vs ls gs xs (nadd t x') r') as [[[vs' xs'] t1] r3] end.
  destruct IH as [I1 I2]. split; [by apply Forall_cons|]. rewrite qsum_cons.
  cbn [nadd rational_number] in I2. rewrite I2. lra.
Qed.

Definition start_of (prev : option Q) : Q := match prev with None => 0 | Some q => q end.

Lemma cumulate_lookup prev xs k p :
  cumulate prev xs !! k = Some p -> p == start_of prev + qsum (take (S k) xs).
Proof.
  revert prev k. induction xs as [|x xs IH]; intros prev k H; [done|]. cbn [cumulate] in H.
  assert (E : match prev with None => x | Some q => nadd q x end == start_of prev + x)
    by (destruct prev; cbn [start_of nadd rational_number]; lra).
  destruct k as [|k].
  - injection H as <-. rewrite E. rewrite firstn_cons, take_0, qsum_cons. unfold qsum. simpl. lra.
  - apply IH in H. cbn [start_of] in H. rewrite H, E. rewrite (firstn_cons (S k)), qsum_cons. lra.
Qed.

Lemma qsum_nonneg l : Forall (fun x => 0 <= x) l -> 0 <= qsum l.
Proof. induction 1; [apply Qle_refl|]. rewrite qsum_cons. lra. Qed.

Lemma qsum_take_mono (i j : nat) l : (i <= j)%nat -> Forall (fun x => 0 <= x) l -> qsum (take i l) <= qsum (take j l).
Proof.
  intros Hij Hl. revert i j Hij. induction Hl as [|x l Hx Hl IH]; intros [|i] [|j] Hij; try lia; try apply Qle_refl.
  - rewrite firstn_cons, qsum_cons. pose proof (qsum_nonneg (take j l) (Forall_take _ _ _ Hl)). unfold qsum at 1. simpl. lra.
  - rewrite !firstn_cons, !qsum_cons. specialize (IH i j ltac:(lia)). lra.
Qed.

Lemma cumulate_cumulative xs : Forall (fun x => 0 <= x) xs -> cumulative nlt (cumulate None xs).
Proof.
  intros Hxs i j p q Hij Hp Hq. apply nlt_false. apply cumulate_lookup in Hp, Hq. rewrite Hp, Hq.
  cbn [start_of]. pose proof (qsum_take_mono (S i) (S j) xs ltac:(lia) Hxs). lra.
Qed.

Lemma qsum_div l t : ~ t == 0 -> qsum ((fun x => ndiv x t) <$> l) == qsum l / t.
Proof.
  intros Ht. induction l as [|x l IH]; [unfold qsum; simpl; field; done|].
  rewrite fmap_cons, !qsum_cons, IH. cbn [ndiv rational_number]. field. done.
Qed.

Lemma qsum_bounds l : Forall (fun x => 1 # 20 <= x <= 1) l ->
  (1 # 20) * inject_Z (Z.of_nat (length l)) <= qsum l <= inject_Z (Z.of_nat (length l)).
Proof.
  induction 1 as [|x l Hx Hl IH]; [split; discriminate|]. rewrite qsum_cons. cbn [length].
  rewrite Nat2Z.inj_succ. unfold Z.succ. rewrite inject_Z_plus. change (inject_Z 1) with 1. lra.
Qed.

(** A table from which every operator is drawn: the probabilities cumulate to 1, each operator
    has its share, and a draw among the first operators gives one of them. *)
Record fair_table (p : particle Q) : Prop := {
  ft_share : Forall (fun x => 1 # 380 <= x) (x_now p);
  ft_cumulative : cumulative nlt (probability_now p);
  ft_cells : forall k q, probability_now p !! k = Some q -> q == qsum (take (S k) (x_now p));
  ft_total : qsum (x_now p) == 1;
  ft_draw : forall n k, (1 <= n <= Z.of_nat operator_num)%Z -> (0 <= k < 10000)%Z ->
    exists i, draw_operator p n k = Done i /\ (0 <= i < n)%Z;
}.

Lemma draw_fair p :
  length (probability_now p) = operator_num -> cumulative nlt (probability_now p) ->
  (forall k q, probability_now p !! k = Some q -> 0 < q) ->
  forall n k, (1 <= n <= Z.of_nat operator_num)%Z -> (0 <= k < 10000)%Z ->
  exists i, draw_operator p n k = Done i /\ (0 <= i < n)%Z.
Proof.
  intros Hl Hc Hpos n k Hn Hk. unfold draw_operator.
  destruct (lookup_lt_is_Some_2 (probability_now p) (Z.to_nat (n - 1))) as [q Hq]; [lia|].
  replace (n - 1)%Z with (Z.of_nat (Z.to_nat (n - 1))) by lia. rewrite (rd_Some _ _ _ Hq). cbn [mbind outcome_bind].
  set (sele := nmul _ q).
  assert (Hs : sele < q).
  { unfold sele, frac. cbn [nmul ndiv of_int rational_number]. specialize (Hpos _ _ Hq).
    assert (Hk1 : inject_Z k * (inject_Z 1 / inject_Z 10000) < 1).
    { assert (Hk2 : inject_Z k < inject_Z 10000) by (rewrite <- Zlt_Qlt; lia).
      assert (E : inject_Z 1 / inject_Z 10000 == 1 # 10000) by reflexivity. rewrite E.
      change (inject_Z 10000) with 10000 in Hk2. lra. }
    apply (Qmult_lt_r _ _ q Hpos) in Hk1. lra. }
  destruct (select_algorithm_total nlt (probability_now p) sele) as (i & -> & Hi & Hlow & _); [|done|].
  { intros x y z. rewrite nlt_true, !nlt_false. intros. lra. }
  exists (Z.of_nat i). split; [done|]. destruct (decide (Z.to_nat (n - 1) < i)%nat) as [Hlt|]; [|lia].
  specialize (Hlow _ _ Hlt Hq). apply nlt_false in Hlow. lra.
Qed.

Lemma shares_fair xs t :
  Forall (fun x => 1 # 20 <= x <= 1) xs -> t == of_int 0 + qsum xs -> length xs = operator_num ->
  let ys := (fun x => ndiv x t) <$> xs in
  Forall (fun y => 1 # 380 <= y) ys /\ qsum ys == 1 /\ length ys = operator_num.
Proof.
  intros Hxs Ht Hx ys. cbn [of_int rational_number] in Ht. change (inject_Z 0) with 0 in Ht.
  pose proof (qsum_bounds xs Hxs) as Hb. rewrite Hx in Hb. change (inject_Z (Z.of_nat operator_num)) with 19 in Hb.
  split; [|split].
  - unfold ys. apply Forall_fmap. eapply Forall_impl; [exact Hxs|]. intros x Hx'. simpl in *.
    apply Qle_shift_div_l; lra.
  - unfold ys. rewrite qsum_div by lra. rewrite Ht. field. lra.
  - unfold ys. by rewrite length_fmap.
Qed.

Lemma move_particle_fair w gs p (r : R) :
  particle_ok p -> length gs = operator_num ->
  exists p' r', move_particle w gs p r = Done (p', r') /\ particle_ok p' /\ fair_table p'.
Proof.
  intros Hok Hg. unfold move_particle. pose proof (move_exact w (v_now p) (L_best p) gs (x_now p) (of_int 0) r) as Hm.
  pose proof (move_lengths w (v_now p) (L_best p) gs (x_now p) (of_int 0) r operator_num (po_v p Hok) (po_L p Hok) Hg
    (po_x p Hok)) as Hl.
  destruct (move _ _ _ _ _ _ _) as [[[vs xs] t] r1]. destruct Hm as [Hxs Ht]. destruct Hl as [Hv Hx].
  destruct (shares_fair xs t Hxs Ht Hx) as (Hys & Hsum & Hly). set (ys := (fun x => ndiv x t) <$> xs) in *.
  assert (Hpos : Forall (fun y => 0 <= y) ys) by (eapply Forall_impl; [exact Hys|]; simpl; intros; lra).
  assert (Hlc : length (cumulate None ys) = operator_num) by (by rewrite length_cumulate).
  destruct (lookup_lt_is_Some_2 (cumulate None ys) 18) as [last Hlast]; [rewrite Hlc; unfold operator_num; lia|].
  change (Z.of_nat operator_num - 1)%Z with (Z.of_nat 18). rewrite (rd_Some _ _ _ Hlast). cbn [mbind outcome_bind].
  apply cumulate_lookup in Hlast. cbn [start_of] in Hlast. rewrite take_ge, Hsum in Hlast by (rewrite Hly; unfold operator_num; lia).
  assert (E : nlt last (frac 99 100) || nlt (frac 101 100) last = false).
  { apply orb_false_iff. split; apply nlt_false; rewrite Hlast; unfold frac; cbn [ndiv of_int rational_number]; discriminate. }
  rewrite E. do 2 eexists. split; [done|].
  assert (Hok' : particle_ok (Particle ys vs (L_best p) (eff_best p) (cumulate None ys) (swarm_fitness p) (stage_counts p)))
    by (destruct Hok; by constructor).
  split; [done|]. pose proof (cumulate_cumulative ys Hpos) as Hcum.
  constructor; cbn [x_now probability_now]; try done.
  - intros k q Hq. apply cumulate_lookup in Hq. cbn [start_of] in Hq. lra.
  - apply draw_fair; [done|done|]. cbn [probability_now]. intros k q Hq. apply cumulate_lookup in Hq. cbn [start_of] in Hq.
    destruct ys as [|y ys']; [done|]. apply Forall_cons in Hys as [Hy _]. apply Forall_cons in Hpos as [_ Hpos].
    rewrite firstn_cons, qsum_cons in Hq. pose proof (qsum_nonneg (take k ys') (Forall_take _ _ _ Hpos)). lra.
Qed.

Lemma move_all_fair w gs ps (r : R) :
  Forall particle_ok ps -> length gs = operator_num ->
  exists ps' r', move_all w gs ps r = Done (ps', r') /\ Forall fair_table ps'.
Proof.
  intros Hps Hg. revert r. induction Hps as [|p ps Hp Hps IH]; intros r; [by do 2 eexists|].
  cbn [move_all]. destruct (move_particle_fair w gs p r Hp Hg) as (p' & r' & -> & _ & Hf). cbn [mbind outcome_bind].
  destruct (IH r') as (ps' & r'' & -> & Hfs). cbn [mbind outcome_bind]. do 2 eexists. split; [done|]. by apply Forall_cons.
Qed.

Lemma pso_updating_fair (a : mopt Q) (r : R) :
  mopt_ok a ->
  exists a' r', pso_updating a r = Done (a', r') /\ mopt_ok a' /\ key_module a' = 0%Z /\ swarm_now a' = 0%Z
    /\ Forall fair_table (parts a').
Proof.
  intros Hok. destruct (pso_updating_total a r Hok) as [Hf|(a' & r' & E & Hok' & Hk & Hs & _)].
  - exfalso. revert Hf. unfold pso_updating. set (gs := zip_with _ _ _).
    destruct (move_all_fair (inertia (if (g_max <? g_now a + 1)%Z then 0%Z else (g_now a + 1)%Z)) gs (parts a) r)
      as (ps' & r' & -> & _); [apply Hok| |done].
    unfold gs. rewrite length_zip_with, all_finds_length, (mo_G a Hok) by done. done.
  - exists a', r'. split; [done|]. split; [done|]. split; [done|]. split; [done|]. revert E. unfold pso_updating.
    set (gs := zip_with _ _ _).
    destruct (move_all_fair (inertia (if (g_max <? g_now a + 1)%Z then 0%Z else (g_now a + 1)%Z)) gs (parts a) r)
      as (ps' & r'' & -> & Hfair); [apply Hok| |].
    { unfold gs. rewrite length_zip_with, all_finds_length, (mo_G a Hok) by done. done. }
    cbn [mbind outcome_bind]. intros [= <- <-]. done.
Qed.

Lemma scatter_length k (t : Q) (r : R) : length (scatter k t r).1.1 = k.
Proof.
  revert t r. induction k as [|k IH]; intros t r; [done|]. cbn [scatter]. destruct (crand r) as [z r1].
  match goal with |- context [scatter k ?t' r1] => specialize (IH t' r1); destruct (scatter k t' r1) as [[xs t1] r2] end.
  simpl in *. by f_equal.
Qed.

Lemma init_particle_fair w (r : R) :
  exists p r', init_particle w r = Done (p, r') /\ particle_ok p /\ fair_table p.
Proof.
  unfold init_particle. pose proof (scatter_length operator_num (of_int 0) r) as Hl.
  destruct (scatter operator_num (of_int 0) r) as [[xs t] r1]. cbn [fst] in Hl.
  apply move_particle_fair; [|done]. constructor; try done. cbn [x_now]. by rewrite length_fmap.
Qed.

Lemma init_particles_fair k w (r : R) :
  exists ps r', init_particles k w r = Done (ps, r') /\ length ps = k /\ Forall particle_ok ps /\ Forall fair_table ps.
Proof.
  revert r. induction k as [|k IH]; intros r; [by do 2 eexists|]. cbn [init_particles].
  destruct (init_particle_fair w r) as (p & r1 & -> & Hp & Hf). cbn [mbind outcome_bind].
  destruct (IH r1) as (ps & r2 & -> & Hl & Hps & Hfs). cbn [mbind outcome_bind]. do 2 eexists. split; [done|].
  split; [simpl; by f_equal|]. split; by apply Forall_cons.
Qed.

(** C33: mOpt in exact arithmetic: neither its start nor [pso_updating] reports an error, and both
    leave every particle a table of probabilities that cumulate to 1, in which each of the 19
    operators has a share of at least 1/380 and from which [select_algorithm] draws one of the
    operators in use. *)
Theorem swarm_tables_fair (r : R) :
  (exists a r', init_mopt r = Done (a, r') /\ mopt_ok a /\ Forall fair_table (parts a))
  /\ forall a, mopt_ok a ->
     exists a' r', pso_updating a r = Done (a', r') /\ mopt_ok a' /\ key_module a' = 0%Z /\ swarm_now a' = 0%Z
       /\ Forall fair_table (parts a').
Proof.
  split; [|intros a; apply pso_updating_fair]. unfold init_mopt.
  destruct (init_particles_fair (Z.to_nat swarm_num) (inertia 0) r) as (ps & r' & -> & Hl & Hps & Hf).
  cbn [mbind outcome_bind]. do 2 eexists. split; [done|]. split; [|done].
  constructor; cbn [parts core_counts G_best swarm_now pilot_at key_module]; try done; [|by left].
  rewrite Hl. reflexivity.
Qed.
End exact.

(** ** The fitness on doubles *)

(** An integer below 2^53 is a double. *)
Lemma digits2_shift d m : Zpos (digits2_pos (Pos.iter xO m d)) = Zpos d + Zpos (digits2_pos m).
Proof.
  induction d as [|d IH] using Pos.peano_ind; [simpl; lia|]. rewrite Pos.iter_succ. simpl. lia.
Qed.

Lemma double_of_pos p : Zpos (digits2_pos p) <= 53 -> exists m e, double_of_int (Zpos p) = S754_finite false m e.
Proof.
  intros Hd.
  assert (Hround : forall mz ez, fexp 53 1024 (Zpos (digits2_pos mz) + ez) - ez <= 0 -> ez <= 971 ->
    binary_round_aux 53 1024 false (Zpos mz) ez loc_Exact = S754_finite false mz ez).
  { intros mz ez H He.
    assert (E : shr_fexp 53 1024 (Zpos mz) ez loc_Exact = (Build_shr_record (Zpos mz) false false, ez)).
    { unfold shr_fexp, shr, Zdigits2. destruct (_ - ez); [done|lia|done]. }
    unfold binary_round_aux. rewrite E. cbn [shr_m loc_of_shr_record shr_r shr_s round_nearest_even]. rewrite E. cbn [shr_m].
    by rewrite (proj2 (Z.leb_le _ _)) by (simpl; lia). }
  unfold double_of_int, binary_normalize, binary_round, shl_align. rewrite Z.add_0_r.
  set (k := fexp 53 1024 (Zpos (digits2_pos p))).
  assert (Hk : k = Zpos (digits2_pos p) - 53) by (unfold k, fexp, emin; lia).
  destruct (k - 0) as [|q|q] eqn:Eq; [|lia|].
  - rewrite Hround; [eauto| |lia]. unfold fexp, emin. lia.
  - rewrite Hround; [eauto| |lia]. rewrite digits2_shift. unfold fexp, emin. lia.
Qed.

Lemma digits2_bound p n : Zpos p < 2 ^ Zpos n -> Zpos (digits2_pos p) <= Zpos n.
Proof.
  intros H. enough (Hlow : 2 ^ (Zpos (digits2_pos p) - 1) <= Zpos p).
  { destruct (Z_lt_le_dec (Zpos n) (Zpos (digits2_pos p))) as [Hlt|]; [|done].
    pose proof (Z.pow_le_mono_r 2 (Zpos n) (Zpos (digits2_pos p) - 1) ltac:(lia) ltac:(lia)). lia. }
  clear H. induction p as [p IH|p IH|]; simpl digits2_pos; [| |done].
  all: rewrite Pos2Z.inj_succ, <- Z.add_1_r, Z.add_simpl_r;
    replace (Zpos (digits2_pos p)) with (Zpos (digits2_pos p) - 1 + 1) by lia; rewrite Z.pow_add_r by lia; lia.
Qed.

(** The fitness of a period in which [d] test cases were found: the time is 0. *)
Lemma fitness_degenerate d :
  0 <= d < 2 ^ 53 -> fitness_of d 0 = if d =? 0 then S754_nan else S754_infinity false.
Proof.
  intros Hd. unfold fitness_of. change (ndiv (of_int 0) (of_int period_pilot_tmp)) with (S754_zero false : spec_float).
  destruct d as [|p|p]; [done| |lia]. cbn [Z.eqb].
  destruct (double_of_pos p) as (m & e & E); [apply (digits2_bound p 53); lia|]. cbn [ndiv of_int double_number].
  rewrite E. done.
Qed.

Definition degenerate (f : spec_float) : Prop := f = S754_nan \/ f = S754_infinity false.

Lemma fittest_infinite fits i best : Forall degenerate fits -> fittest fits i (S754_infinity false) best = best.
Proof. intros H. revert i. induction H as [|f fits [-> | ->] _ IH]; intros i; [done|..]; simpl; apply IH. Qed.

(** Among degenerate values the fittest is the first infinity, and the particle 0 if there is
    none. *)
Lemma fittest_first fits i :
  Forall degenerate fits ->
  let best := fittest fits i (of_int 0) 0 in
  (best = 0 /\ Forall (fun f => f = S754_nan) fits)
  \/ exists k : nat, best = i + Z.of_nat k /\ fits !! k = Some (S754_infinity false)
       /\ forall j, (j < k)%nat -> fits !! j = Some S754_nan.
Proof.
  intros H. revert i. induction H as [|f fits [-> | ->] Hf IH]; intros i; [by left| |].
  - change (fittest (S754_nan :: fits) i (of_int 0) 0) with (fittest fits (i + 1) (of_int 0) 0).
    destruct (IH (i + 1)) as [[-> Ha]|(k & -> & Hk & Hj)]; [left; split; [done|by apply Forall_cons]|].
    right. exists (S k). split; [lia|]. split; [done|]. intros [|j] Hjk; [done|]. apply Hj. lia.
  - change (fittest (S754_infinity false :: fits) i (of_int 0) 0) with (fittest fits (i + 1) (S754_infinity false) i).
    rewrite fittest_infinite by done. right. exists 0%nat. split; [lia|]. split; [done|]. intros j Hj. lia.
Qed.

(** The fitness of a particle says nothing about its efficiency.  [leave_period] sets the time
    of the period to 0 before it divides by it, so the fitness is an infinity if the period
    found anything and not a number otherwise; the particle that serves the core module is the
    first one that found anything, however little. *)
Theorem fitness_ignores_efficiency hits (a : mopt spec_float) :
  mopt_ok a -> key_module a = 0 -> period_pilot < tmp_pilot_time a ->
  u64 (total_find a - temp_puppet_find a) < 2 ^ 53 ->
  (forall j p, parts a !! j = Some p -> Z.of_nat j <> swarm_now a -> degenerate (swarm_fitness p)) ->
  exists a' p, leave_period true hits a = Done a'
    /\ parts a' !! Z.to_nat (swarm_now a) = Some p
    /\ swarm_fitness p = (if u64 (total_find a - temp_puppet_find a) =? 0 then S754_nan else S754_infinity false)
    /\ (swarm_now a = swarm_num - 1 ->
        key_module a' = 1
        /\ ((swarm_now a' = 0 /\ Forall (fun p => swarm_fitness p = S754_nan) (parts a'))
            \/ exists q, parts a' !! Z.to_nat (swarm_now a') = Some q /\ swarm_fitness q = S754_infinity false
               /\ forall j q', Z.of_nat j < swarm_now a' -> parts a' !! j = Some q' -> swarm_fitness q' = S754_nan)).
Proof.
  intros Hok Hm Ht Hd Hdeg. destruct (pilot_rows a Hok) as (row & p & row' & Er & Ep & H). cbv zeta in H.
  set (fit := fitness_of (u64 (total_find a - temp_puppet_find a)) 0) in *.
  set (ps1 := <[Z.to_nat (swarm_now a) := note_best _ fit p]> (parts a)) in H.
  set (ps := <[Z.to_nat (pilot_at a) := _]> ps1) in H. destruct H as (Er' & Hpsok & Hl & H).
  destruct (H hits Hm Ht) as (a' & E & Eps & _ & _ & Hnx). clear H.
  pose proof (mo_swarm a Hok) as Hs. pose proof (mo_parts a Hok) as Hlp.
  assert (Hfits : swarm_fitness <$> ps = <[Z.to_nat (swarm_now a) := fit]> (swarm_fitness <$> parts a)).
  { unfold ps, ps1. apply rd_inv in Er'. rewrite !list_fmap_insert. apply list_insert_id.
    apply (f_equal (fmap swarm_fitness)) in Er'. rewrite <- list_lookup_fmap in Er'. unfold ps1 in Er'.
    rewrite list_fmap_insert in Er'. exact Er'. }
  assert (Hfit : fit = if u64 (total_find a - temp_puppet_find a) =? 0 then S754_nan else S754_infinity false).
  { apply fitness_degenerate. split; [apply Z.mod_pos_bound; lia|done]. }
  destruct (lookup_lt_is_Some_2 ps (Z.to_nat (swarm_now a))) as [p' Hp']; [lia|].
  assert (Hp'f : swarm_fitness p' = fit).
  { apply (f_equal (fmap swarm_fitness)) in Hp'. rewrite <- list_lookup_fmap, Hfits in Hp'.
    rewrite list_lookup_insert_eq in Hp' by (rewrite length_fmap; lia). by injection Hp'. }
  exists a', p'. rewrite Eps. split; [done|]. split; [done|]. split; [congruence|]. intros Hlast.
  rewrite (proj2 (Z.eqb_eq _ _) Hlast) in Hnx. destruct Hnx as [Hk Hbest]. split; [done|].
  assert (Hall : Forall degenerate (swarm_fitness <$> ps)).
  { rewrite Hfits. apply Forall_lookup. intros j f Hj. apply list_lookup_insert_Some in Hj as [(<- & <- & _)|(Hne & Hj)].
    - rewrite Hfit. destruct (_ =? 0); [by left|by right].
    - apply list_lookup_fmap_Some in Hj as (q & -> & Hq). apply (Hdeg j q Hq). lia. }
  destruct (fittest_first _ 0 Hall) as [[Hb Hnan]|(k & Hb & Hkk & Hj)]; rewrite <- Hbest in Hb.
  - left. split; [done|]. by apply Forall_fmap in Hnan.
  - right. apply list_lookup_fmap_Some in Hkk as (q & Eq & Hq). exists q. rewrite Hb, Z.add_0_l, Nat2Z.id. split; [done|].
    split; [done|]. intros j q' Hjk Hq'. specialize (Hj j ltac:(lia)). rewrite list_lookup_fmap, Hq' in Hj. by injection Hj.
Qed.

(** ** The counters of the first period after an update *)

Lemma spend_keeps {D} `{!Number D} stages hits (a a' : mopt D) j :
  mopt_common_fuzzing true stages hits a = Done a' -> Z.of_nat j <> pilot_at a ->
  stage_counts <$> (parts a' !! j) = stage_counts <$> (parts a !! j).
Proof.
  unfold mopt_common_fuzzing, counts_of, spend, leave_period. intros H Hj.
  destruct (rd (parts a) (pilot_at a)) as [p| | | |] eqn:Ep; try discriminate H. cbn [mbind outcome_bind] in H.
  assert (Hw : forall l l' (i : Z) (v : particle D), wr l i v = Done l' -> Z.of_nat j <> i -> l' !! j = l !! j).
  { intros l l' i v Hwr Hne. unfold wr in Hwr. destruct ((0 <=? i) && (i <? Z.of_nat (length l))) eqn:E; [|discriminate Hwr].
    injection Hwr as <-. apply list_lookup_insert_ne. lia. }
  destruct (wr (parts a) (pilot_at a) _) as [ps| | | |] eqn:E1; try discriminate H. cbn [mbind outcome_bind] in H.
  apply Hw in E1; [|done]. cbn [parts tmp_pilot_time pilot_at swarm_now] in H.
  destruct (negb _); [injection H as <-; cbn [parts]; by rewrite E1|].
  destruct (rd ps (pilot_at a)) as [row| | | |] eqn:Er; try discriminate H. cbn [mbind outcome_bind] in H.
  destruct (rd ps (swarm_now a)) as [q| | | |] eqn:Eq; try discriminate H. cbn [mbind outcome_bind] in H.
  destruct (wr ps (swarm_now a) _) as [ps2| | | |] eqn:E2; try discriminate H. cbn [mbind outcome_bind] in H.
  destruct (rd ps2 (pilot_at a)) as [row'| | | |] eqn:Er'; try discriminate H. cbn [mbind outcome_bind] in H.
  destruct (wr ps2 (pilot_at a) _) as [ps3| | | |] eqn:E3; try discriminate H. cbn [mbind outcome_bind] in H.
  apply Hw in E3; [|done].
  assert (Hps3 : stage_counts <$> (ps3 !! j) = stage_counts <$> (parts a !! j)).
  { rewrite E3, <- E1. unfold wr in E2. destruct (_ && _); [|discriminate E2]. injection E2 as <-. apply rd_inv in Eq.
    destruct (decide (Z.to_nat (swarm_now a) = j)) as [<-|Hne].
    - rewrite Eq, list_lookup_insert_eq by (by eapply lookup_lt_Some). done.
    - by rewrite list_lookup_insert_ne. }
  destruct (_ =? swarm_num); [destruct (_ || _); [discriminate H|]|]; injection H as <-; exact Hps3.
Qed.

(** [pso_updating] goes back to the particle 0, but leaves the pointers of the pilot module at
    the particle that served the core module: in the period that follows, the uses and finds of
    the particle 0 are counted for that other particle, and its own counters stay as they are. *)
Theorem update_leaves_pointers {D} `{!Number D} {R} `{!CRand R} stages hits (a a1 a2 : mopt D) (r r1 : R) :
  mopt_ok a -> pilot_at a <> 0 -> pso_updating a r = Done (a1, r1) ->
  mopt_common_fuzzing true stages hits a1 = Done a2 ->
  swarm_now a1 = 0 /\ pilot_at a1 = pilot_at a
  /\ stage_counts <$> (parts a2 !! 0%nat) = stage_counts <$> (parts a !! 0%nat).
Proof.
  intros Hok Hp E1 E2. destruct (pso_updating_total a r Hok) as [Hf|(a' & r' & E & _ & _ & Hs & Hpa & _ & Hc)]; [congruence|].
  rewrite E1 in E. injection E as <- <-. split; [done|]. split; [done|].
  rewrite (spend_keeps stages hits a1 a2 0 E2) by lia.
  apply (f_equal (lookup 0%nat)) in Hc. by rewrite !list_lookup_fmap in Hc.
Qed.

(** ** The pacemaker is never left *)

(** Once MOpt is in the pacemaker mode it stays there: the condition to leave it asks the
    number of finds to exceed a multiple of itself. *)
Theorem pacemaker_never_left hits k :
  0 <= hits -> 0 <= orig_hit_cnt_puppet k -> leave_pacemaker (D := Q) hits k = k.
Proof.
  intros Hh Ho. unfold leave_pacemaker.
  assert (E : nlt (nadd (nmul (of_int hits) (frac 11 10)) (of_int (orig_hit_cnt_puppet k))) (of_int hits : Q) = false).
  { apply nlt_false. unfold frac. cbn [nadd nmul ndiv of_int rational_number].
    assert (Eq : Qeq (inject_Z 11 / inject_Z 10) (11 # 10)) by reflexivity. rewrite Eq.
    assert (H1 : Qle 0 (inject_Z hits)) by (change 0%Q with (inject_Z 0); by rewrite <- Zle_Qle).
    assert (H2 : Qle 0 (inject_Z (orig_hit_cnt_puppet k))) by (change 0%Q with (inject_Z 0); by rewrite <- Zle_Qle). lra. }
  by rewrite E, andb_false_r.
Qed.

(** ** The random stages keep the counters in shape *)

Lemma credit_ok before now m : counts_ok m -> counts_ok (credit before now m).
Proof.
  intros (H1 & H2 & H3). unfold credit. destruct (before <? now); [|done]. split_and!; try done. cbn [finds_v2].
  by rewrite length_zip_with, length_zip, H1, H2, H3.
Qed.

Lemma bump_ok k m :
  counts_ok m -> counts_ok (MoptCounts (bump_cycle k (cycles_v2 m)) (cycles_v2 m) (finds_v2 m) (total_puppet_find m) (pTime m)).
Proof.
  intros (H1 & H2 & H3). split_and!; try done. cbn [cycles_v2]. destruct k; [|done]. simpl. by rewrite length_alter.
Qed.

(** ** Witnesses *)

#[local] Instance counting_rand : CRand Z := {| crand r := (Z.abs r, r + 7); crand_nonneg r := Z.abs_nonneg r |}.

Definition sample_particle {D} `{!Number D} (f : D) : particle D :=
  let half := replicate operator_num (frac 5 10) in Particle half half half half half f no_counts.
Definition sample_mopt {D} `{!Number D} (s m p time : Z) (f : D) : mopt D :=
  MOpt (replicate 5 (sample_particle f)) no_counts (replicate operator_num (frac 5 10)) zeros s m p 0 (frac 9 10)
    time 0 0 3 2 0.

Lemma sample_mopt_ok {D} `{!Number D} s m p time (f : D) :
  0 <= s < 5 -> 0 <= p < 5 -> m = 0 \/ m = 1 \/ m = 2 -> mopt_ok (sample_mopt s m p time f).
Proof.
  intros Hs Hp Hm. constructor; try done. apply Forall_replicate. by constructor.
Qed.

Definition busy_stages (m : mopt_counts) : mopt_counts :=
  credit 2 3 (MoptCounts (bump_cycle (Some 4%nat) (cycles_v2 m)) (cycles_v2 m) (finds_v2 m) (total_puppet_find m) (pTime m + 60000)).

Lemma busy_stages_ok m : counts_ok m -> counts_ok (busy_stages m).
Proof. intros Hm. apply credit_ok. exact (bump_ok (Some 4%nat) (MoptCounts (cycles_v2 m) (cycles_v3 m) (finds_v2 m) _ _) Hm). Qed.

Lemma mopt_modules_witness :
  let a := sample_mopt 4 0 4 0 (of_int 0 : Q) in
  (exists a' r', fuzz_one_mopt busy_stages 7 a 1 = Done (a', r') /\ mopt_ok a' /\ next_phase a a')
  \/ (key_module a = 2 /\ fuzz_one_mopt busy_stages 7 a 1 = Fatal).
Proof.
  apply (mopt_modules busy_stages 7 (sample_mopt 4 0 4 0 (of_int 0 : Q)) 1);
    [apply sample_mopt_ok; [lia|lia|auto]|exact busy_stages_ok].
Defined.

Lemma swarm_tables_fair_witness :
  exists a' r', pso_updating (sample_mopt 0 2 3 0 (of_int 0 : Q)) 1 = Done (a', r') /\ Forall fair_table (parts a').
Proof.
  destruct (proj2 (swarm_tables_fair 1) (sample_mopt 0 2 3 0 (of_int 0 : Q))) as (a' & r' & E & _ & _ & _ & Hf).
  - apply sample_mopt_ok; [lia|lia|auto].
  - exists a', r'. split; [exact E|exact Hf].
Defined.

Lemma fitness_ignores_efficiency_witness :
  exists a' p, leave_period true 7 (sample_mopt 4 0 4 60000 S754_nan) = Done a'
    /\ parts a' !! 4%nat = Some p /\ swarm_fitness p = S754_infinity false.
Proof.
  destruct (fitness_ignores_efficiency 7 (sample_mopt 4 0 4 60000 S754_nan)) as (a' & p & E & Hp & Hf & _).
  - apply sample_mopt_ok; [lia|lia|auto].
  - reflexivity.
  - reflexivity.
  - reflexivity.
  - intros j p Hj _. left. apply lookup_replicate in Hj as [-> _]. reflexivity.
  - exists a', p. split; [exact E|]. split; [exact Hp|exact Hf].
Defined.

Lemma update_leaves_pointers_witness :
  exists a1 a2 r1, pso_updating (sample_mopt 3 2 3 0 (of_int 0 : Q)) 1 = Done (a1, r1)
    /\ mopt_common_fuzzing true busy_stages 7 a1 = Done a2 /\ swarm_now a1 = 0 /\ pilot_at a1 = 3
    /\ stage_counts <$> (parts a2 !! 0%nat) = Some no_counts.
Proof.
  assert (Hok : mopt_ok (sample_mopt 3 2 3 0 (of_int 0 : Q))) by (apply sample_mopt_ok; [lia|lia|auto]).
  destruct (pso_updating_fair (sample_mopt 3 2 3 0 (of_int 0 : Q)) 1 Hok) as (a1 & r1 & E1 & Hok1 & Hk & _ & _).
  destruct (mopt_common_total true busy_stages 7 a1 Hok1 busy_stages_ok Hk) as (a2 & E2 & _).
  exists a1, a2, r1. split; [exact E1|]. split; [exact E2|].
  refine (update_leaves_pointers busy_stages 7 _ a1 a2 1 r1 Hok _ E1 E2). discriminate.
Defined.

Lemma pacemaker_never_left_witness : leave_pacemaker (D := Q) 12 (Pacemaker 1 3 99) = Pacemaker 1 3 99.
Proof. apply (pacemaker_never_left 12 (Pacemaker 1 3 99)); simpl; lia. Defined.
