(* ===== verification/Run.v ===== *)
(** * Running a test case and judging the result (src/aflplusplus/src/afl-fuzz-run.c,
    src/aflplusplus/src/afl-fuzz-bitmap.c)

    [common_fuzz_stuff] runs the target on a modified test case; [save_if_interesting]
    compares the trace with what has been seen (Bitmap.v), adds the test case to the queue
    (Queue.v) and keeps samples of crashes and hangs; [calibrate_case] runs a new entry
    several times to find bytes of the map that vary.  The target is the interface
    [Forkserver]; AFLLive restarts the fork server when the entry's target function is not
    the one it runs.

    Custom mutators are not loaded.  A FATAL error is [RFatal].  Files are the lists of
    their contents, in the order they are created.  Putting a new entry into the cache of
    test cases is [save_entry] of TestCache.v. *)
From S2P Require Import Prelude Bitmap Alloc Queue Trim.

Definition CAL_CYCLES : Z := 8.
Definition CAL_CYCLES_LONG : Z := 20.
Definition CAL_TMOUT_ADD : Z := 50.
Definition CAL_TMOUT_PERC : Z := 125.
Definition KEEP_UNIQUE_HANG : Z := 500.
Definition KEEP_UNIQUE_CRASH : Z := 10000.
Definition TMOUT_LIMIT : Z := 250.
Definition N_FUZZ_SIZE : Z := 2 ^ 21.

Class Forkserver (W : Type) `{!Executor W} := {
  (** the target function the running fork server was started for, if there is one *)
  fsrv_target : W -> option Z;
  (** [afl_fsrv_kill], if one is running, and [afl_fsrv_start] for a target function *)
  afl_fsrv_start : W -> Z -> W;
  (** [get_cur_time_us()] *)
  get_cur_time_us : W -> Z;
  (** [afl->skip_requested], which SIGUSR1 sets, and its reset *)
  skip_requested : W -> bool;
  clear_skip : W -> W;
}.

(** ** State *)

(** The fields of [struct queue_entry] that calibration fills. *)
Record cal_info := CalInfo {
  ci_exec_cksum : Z;
  ci_cal_failed : Z;
  ci_has_new_cov : bool;
  ci_var_behavior : bool;
  ci_handicap : Z;
  ci_bitmap_size : Z;
}.

(** Counters of [afl_state_t], each modulo its width, and totals per target function. *)
Inductive counter := total_tmouts | total_crashes | saved_hangs | saved_crashes | saved_tmouts
  | queued_with_cov | queued_variable | var_byte_count | queued_discovered | cur_skipped_items
  | subseq_tmouts.
Inductive total := total_cal_us | total_cal_cycles | total_bitmap_size | total_bitmap_entries.
#[export] Instance counter_dec : EqDecision counter.
Proof. solve_decision. Defined.
#[export] Instance total_dec : EqDecision total.
Proof. solve_decision. Defined.

Definition width (c : counter) : Z :=
  match c with
  | total_tmouts | total_crashes | saved_hangs | saved_crashes | saved_tmouts => 64
  | _ => 32
  end.

Record afl_state (W : Type) := Afl {
  af_queue : queue;
  af_cal : list cal_info;
  af_virgin : virgin_maps;
  af_fsrv : afl_forkserver_t;
  var_bytes : list Z;
  first_trace : list Z;
  af_count : counter -> Z;
  af_total : total -> list Z;
  queue_files : list (list Z);
  hang_files : list (list Z);
  crash_files : list (list Z);
  af_world : W;
}.
Arguments Afl {W}. Arguments af_queue {W}. Arguments af_cal {W}. Arguments af_virgin {W}. Arguments af_fsrv {W}.
Arguments var_bytes {W}. Arguments first_trace {W}. Arguments af_count {W}. Arguments af_total {W}.
Arguments queue_files {W}. Arguments hang_files {W}. Arguments crash_files {W}. Arguments af_world {W}.

Record run_cfg := RunCfg {
  crash_mode : fsrv_run_result;    (* FSRV_RUN_OK, or FSRV_RUN_CRASH with -C *)
  non_instrumented_mode : bool;
  exec_tmout : Z;
  hang_tmout : Z;
  cal_fast : bool;                 (* AFL_CAL_FAST *)
  keep_timeouts : bool;            (* AFL_KEEP_TIMEOUTS *)
  resuming_fuzz : bool;
  cmplog_mode : bool;
  min_length : Z;
  max_length : Z;
  queue_cycle : Z;
}.

Inductive rout (W A : Type) := RDone (x : A) (a : afl_state W) | RFatal | RNoFuel.
Arguments RDone {W A}. Arguments RFatal {W A}. Arguments RNoFuel {W A}.

Section state.
Context {W : Type}.
Implicit Types a : afl_state W.

Definition set_queue (q : queue) a : afl_state W :=
  Afl q (af_cal a) (af_virgin a) (af_fsrv a) (var_bytes a) (first_trace a) (af_count a) (af_total a)
    (queue_files a) (hang_files a) (crash_files a) (af_world a).
Definition set_cal (l : list cal_info) a : afl_state W :=
  Afl (af_queue a) l (af_virgin a) (af_fsrv a) (var_bytes a) (first_trace a) (af_count a) (af_total a)
    (queue_files a) (hang_files a) (crash_files a) (af_world a).
Definition set_virgins (v : virgin_maps) a : afl_state W :=
  Afl (af_queue a) (af_cal a) v (af_fsrv a) (var_bytes a) (first_trace a) (af_count a) (af_total a)
    (queue_files a) (hang_files a) (crash_files a) (af_world a).
Definition set_fsrv (f : afl_forkserver_t) a : afl_state W :=
  Afl (af_queue a) (af_cal a) (af_virgin a) f (var_bytes a) (first_trace a) (af_count a) (af_total a)
    (queue_files a) (hang_files a) (crash_files a) (af_world a).
Definition set_var (v : list Z) a : afl_state W :=
  Afl (af_queue a) (af_cal a) (af_virgin a) (af_fsrv a) v (first_trace a) (af_count a) (af_total a)
    (queue_files a) (hang_files a) (crash_files a) (af_world a).
Definition set_first (t : list Z) a : afl_state W :=
  Afl (af_queue a) (af_cal a) (af_virgin a) (af_fsrv a) (var_bytes a) t (af_count a) (af_total a)
    (queue_files a) (hang_files a) (crash_files a) (af_world a).
Definition set_count (c : counter) (n : Z) a : afl_state W :=
  Afl (af_queue a) (af_cal a) (af_virgin a) (af_fsrv a) (var_bytes a) (first_trace a)
    (fun d => if decide (d = c) then n `mod` 2 ^ width c else af_count a d) (af_total a)
    (queue_files a) (hang_files a) (crash_files a) (af_world a).
Definition add_total (t : total) (k n : Z) a : afl_state W :=
  Afl (af_queue a) (af_cal a) (af_virgin a) (af_fsrv a) (var_bytes a) (first_trace a) (af_count a)
    (fun d => if decide (d = t) then alter (fun x => u64 (x + n)) (Z.to_nat k) (af_total a t) else af_total a d)
    (queue_files a) (hang_files a) (crash_files a) (af_world a).
Definition set_files (q h c : list (list Z)) a : afl_state W :=
  Afl (af_queue a) (af_cal a) (af_virgin a) (af_fsrv a) (var_bytes a) (first_trace a) (af_count a) (af_total a)
    q h c (af_world a).
Definition set_world (w : W) a : afl_state W :=
  Afl (af_queue a) (af_cal a) (af_virgin a) (af_fsrv a) (var_bytes a) (first_trace a) (af_count a) (af_total a)
    (queue_files a) (hang_files a) (crash_files a) w.

(** [++afl->c] *)
Definition incr (c : counter) a : afl_state W := set_count c (af_count a c + 1) a.
Definition on_cal (f : cal_info -> cal_info) (k : nat) a : afl_state W := set_cal (alter f k (af_cal a)) a.
End state.

Definition set_cksum (x : Z) (c : cal_info) : cal_info :=
  CalInfo x (ci_cal_failed c) (ci_has_new_cov c) (ci_var_behavior c) (ci_handicap c) (ci_bitmap_size c).
Definition set_cal_failed (x : Z) (c : cal_info) : cal_info :=
  CalInfo (ci_exec_cksum c) x (ci_has_new_cov c) (ci_var_behavior c) (ci_handicap c) (ci_bitmap_size c).
Definition set_new_cov (c : cal_info) : cal_info :=
  CalInfo (ci_exec_cksum c) (ci_cal_failed c) true (ci_var_behavior c) (ci_handicap c) (ci_bitmap_size c).
(** [mark_as_variable], up to the symbolic link *)
Definition mark_as_variable (c : cal_info) : cal_info :=
  CalInfo (ci_exec_cksum c) (ci_cal_failed c) (ci_has_new_cov c) true (ci_handicap c) (ci_bitmap_size c).
Definition set_stats (handicap bitmap_size : Z) (c : cal_info) : cal_info :=
  CalInfo (ci_exec_cksum c) 0 (ci_has_new_cov c) (ci_var_behavior c) handicap bitmap_size.
Definition set_exec_us (us : Z) (q : queue_entry) : queue_entry :=
  QEntry (q_targetFunctionIdx q) (q_len q) us (q_fuzz_level q) (q_n_fuzz_entry q) (q_depth q) (q_passed_det q)
    (q_tc_ref q) (q_trace_mini q) (q_favored q) (q_was_fuzzed q) (q_disabled q) (q_fs_redundant q).
Definition set_n_fuzz_entry (n : Z) (q : queue_entry) : queue_entry :=
  QEntry (q_targetFunctionIdx q) (q_len q) (q_exec_us q) (q_fuzz_level q) n (q_depth q) (q_passed_det q)
    (q_tc_ref q) (q_trace_mini q) (q_favored q) (q_was_fuzzed q) (q_disabled q) (q_fs_redundant q).
Definition set_n_fuzz (l : list Z) (a : queue) : queue :=
  Queue (queue_buf a) (top_rated a) l (schedule a) (fixed_seed a) (score_changed a) (queued_favored a)
    (pending_favored a) (pending_not_fuzzed a) (active_items a) (ready_for_splicing_count a)
    (max_depth a) (cur_depth a) (entriesForTarget a) (amountOfTargets a) (firstCycleDone a).

(** ** Running the target *)

Section run.
Context {W : Type} `{!Executor W} `{!Forkserver W}.
(** Bytes per machine word, [hash64] (XXH3), and what lies behind a buffer. *)
Context (wb : nat) (hash64 : list Z -> Z) (junk : Z).
Context (g : run_cfg).
Implicit Types a : afl_state W.

Definition trace a : list Z := trace_bits (af_fsrv a).
Definition classified_trace a : afl_state W := set_fsrv (classify_counts wb init_count_class16 (af_fsrv a)) a.

(** [write_to_testcase(afl, &mem, len, fix)]: the bytes the target will read.  A length
    below [min_length] is raised, so that bytes behind the buffer are read. *)
Definition write_to_testcase (fix_ : bool) (mem : list Z) : list Z :=
  let len := Z.of_nat (length mem) in
  let len :=
    if (len <? min_length g) && negb fix_ then min_length g
    else if max_length g <? len then max_length g else len in
  take (Z.to_nat len) (mem ++ replicate (Z.to_nat len - length mem) junk).

(** [fuzz_run_target(afl, &afl->fsrv, timeout)] *)
Definition run_target (timeout : Z) (input : list Z) a : fsrv_run_result * afl_state W :=
  let '(fault, t, w) := fuzz_run_target (af_world a) timeout input in
  (fault, set_world w (set_fsrv (set_trace t (af_fsrv a)) a)).

(** ** [calibrate_case] *)

(** The variable bytes of the map: marked, and taken out of the virgin map. *)
Fixpoint mark_variable (first cur var virgin : list Z) : list Z * list Z :=
  match first, cur, var, virgin with
  | f :: first, c :: cur, x :: var, v :: virgin =>
      let '(var', virgin') := mark_variable first cur var virgin in
      if (x =? 0) && negb (f =? c) then (1 :: var', 0 :: virgin') else (x :: var', v :: virgin')
  | _, _, _, _ => (var, virgin)
  end.

(** The local variables of the loop. *)
Record calib := Calib { c_afl : afl_state W; c_new_bits : Z; c_var : bool; c_max : Z }.

Inductive cal_out := CalRan (c : calib) | CalAborted (fault : fsrv_run_result) (c : calib) | CalNoFuel.

Definition cksum_of (k : nat) a : Z := match af_cal a !! k with Some i => ci_exec_cksum i | None => 0 end.

(** [hnb = has_new_bits(afl, afl->virgin_bits); if (hnb > new_bits) { new_bits = hnb; }] *)
Definition note_bits (c : calib) : calib :=
  let a := c_afl c in
  let '(hnb, vm) := has_new_bits wb (af_fsrv a) VirginBits (af_virgin a) in
  Calib (set_virgins vm a) (if c_new_bits c <? hnb then hnb else c_new_bits c) (c_var c) (c_max c).

(** After a run of entry [k]: its checksum, or the bytes that differ from the first run. *)
Definition compare_run (k : nat) (c : calib) : calib :=
  let a := classified_trace (c_afl c) in
  let cksum := hash64 (trace a) in
  let c := Calib a (c_new_bits c) (c_var c) (c_max c) in
  if cksum_of k a =? cksum then c
  else
    let c := note_bits c in
    let a := c_afl c in
    if negb (cksum_of k a =? 0) then
      let '(var, virgin) := mark_variable (first_trace a) (trace a) (var_bytes a) (virgin_bits (af_virgin a)) in
      Calib (set_var var (set_virgins (set_virgin VirginBits virgin (af_virgin a)) a)) (c_new_bits c) true
        (if cal_fast g then CAL_CYCLES else CAL_CYCLES_LONG)
    else Calib (set_first (trace a) (on_cal (set_cksum cksum) k a)) (c_new_bits c) (c_var c) (c_max c).

(** One run, and the reasons to give up. *)
Definition cal_run (use_tmout : Z) (mem : list Z) (cur : Z) (c : calib) : cal_out :=
  let '(fault, a) := run_target use_tmout (write_to_testcase true mem) (c_afl c) in
  let c := Calib a (c_new_bits c) (c_var c) (c_max c) in
  if stop_soon (af_world a) || negb (bool_decide (fault = crash_mode g)) then CalAborted fault c
  else if negb (non_instrumented_mode g) && (cur =? 0) && (count_bytes (af_fsrv a) (trace a) =? 0)
  then CalAborted FSRV_RUN_NOINST c
  else CalRan c.

(** [for (stage_cur = 0; stage_cur < stage_max; ++stage_cur)] *)
Fixpoint cal_loop (fuel : nat) (k : nat) (use_tmout : Z) (mem : list Z) (cur : Z) (c : calib) : cal_out :=
  if cur <? c_max c then
    match fuel with
    | O => CalNoFuel
    | S fuel =>
        match cal_run use_tmout mem cur c with
        | CalRan c => cal_loop fuel k use_tmout mem (cur + 1) (compare_run k c)
        | o => o
        end
    end
  else CalRan c.

(** The fork server for the entry's target function. *)
Definition select_target (idx : Z) a : afl_state W :=
  if bool_decide (fsrv_target (af_world a) = Some idx) then a
  else set_world (afl_fsrv_start (af_world a) idx) a.

(** The statistics of a calibration that ran to its end, which took [diff_us]. *)
Definition cal_stats (k : nat) (idx handicap diff_us : Z) (stage_max : Z) a : afl_state W :=
  let a := add_total total_cal_us idx diff_us a in
  let a := add_total total_cal_cycles idx stage_max a in
  let size := count_bytes (af_fsrv a) (trace a) in
  let q := set_queue_buf (alter (set_exec_us (diff_us / stage_max)) k (queue_buf (af_queue a))) (af_queue a) in
  let a := on_cal (set_stats handicap size) k (set_queue q a) in
  let a := add_total total_bitmap_size idx size a in
  let a := add_total total_bitmap_entries idx 1 a in
  set_queue (update_bitmap_score (af_fsrv a) k (af_queue a)) a.

(** From the label [abort_calibration] on. *)
Definition cal_finish (k : nat) (fault : fsrv_run_result) (c : calib) : fsrv_run_result * afl_state W :=
  let a := c_afl c in
  let info := af_cal a !! k in
  let a :=
    if (c_new_bits c =? 2) && negb (default false (ci_has_new_cov <$> info))
    then incr queued_with_cov (on_cal set_new_cov k a) else a in
  let a :=
    if c_var c then
      let a := set_count var_byte_count (count_bytes (af_fsrv a) (var_bytes a)) a in
      if negb (default false (ci_var_behavior <$> info))
      then incr queued_variable (on_cal mark_as_variable k a) else a
    else a in
  (fault, a).

(** [calibrate_case(afl, q, use_mem, handicap, from_queue)] on entry [k]; [stage_cur] is
    the position in the stage that is running, and [None] stands for missing fuel. *)
Definition calibrate_case (fuel : nat) (k : nat) (mem : list Z) (handicap : Z) (from_queue : bool) (stage_cur : Z) a
    : option (fsrv_run_result * afl_state W) :=
  let idx := match queue_buf (af_queue a) !! k with Some q => q_targetFunctionIdx q | None => 0 end in
  let first_run := cksum_of k a =? 0 in
  let a := if cmplog_mode g then on_cal (set_cksum 0) k a else a in
  let use_tmout :=
    if negb from_queue || resuming_fuzz g
    then Z.max (u32 (exec_tmout g + CAL_TMOUT_ADD)) (u32 (exec_tmout g * CAL_TMOUT_PERC) / 100)
    else exec_tmout g in
  let a := on_cal (fun i => set_cal_failed (u8 (ci_cal_failed i + 1)) i) k a in
  let stage_max := if cal_fast g then 3 else CAL_CYCLES in
  let c := Calib (select_target idx a) 0 false stage_max in
  match (if cmplog_mode g then cal_run use_tmout mem stage_cur c else CalRan c) with
  | CalNoFuel => None
  | CalAborted fault c => Some (cal_finish k fault c)
  | CalRan c =>
      let c :=
        if negb (cksum_of k (c_afl c) =? 0)
        then note_bits (Calib (set_first (trace (c_afl c)) (c_afl c)) (c_new_bits c) (c_var c) (c_max c)) else c in
      let start_us := get_cur_time_us (af_world (c_afl c)) in
      match cal_loop fuel k use_tmout mem 0 c with
      | CalNoFuel => None
      | CalAborted fault c => Some (cal_finish k fault c)
      | CalRan c =>
          let a := c_afl c in
          let diff_us :=
            if fixed_seed (af_queue a) then u64 (u32 (exec_tmout g - 1) * c_max c)
            else let d := u64 (get_cur_time_us (af_world a) - start_us) in if d =? 0 then 1 else d in
          let c := Calib (cal_stats k idx handicap diff_us (c_max c) a) (c_new_bits c) (c_var c) (c_max c) in
          let fault :=
            if negb (non_instrumented_mode g) && first_run && bool_decide (crash_mode g = FSRV_RUN_OK)
               && (c_new_bits c =? 0)
            then FSRV_RUN_NOBITS else crash_mode g in
          Some (cal_finish k fault c)
      end
  end.

(** ** [save_if_interesting] *)

(** The path frequency, for the schedules FAST to RARE: the checksum, or 0. *)
Definition count_path a : Z * afl_state W :=
  let q := af_queue a in
  if (FAST <=? schedule q) && (schedule q <=? RARE) then
    let cksum := hash64 (trace a) in
    let i := Z.to_nat (cksum `mod` N_FUZZ_SIZE) in
    (cksum, set_queue (set_n_fuzz (alter (fun n => if n <? 0xFFFFFFFF then n + 1 else n) i (n_fuzz q)) q) a)
  else (0, a).

(** The file, and the entry at the end of the queue. *)
Definition new_entry (mem : list Z) (funIdx : Z) a : afl_state W :=
  let a := set_files (queue_files a ++ [mem]) (hang_files a) (crash_files a) a in
  let a := set_queue (add_to_queue (Z.of_nat (length mem)) false funIdx (af_queue a)) a in
  set_cal (af_cal a ++ [CalInfo 0 0 false false 0 0]) a.

(** From the label [save_to_queue]: a new entry, calibrated. *)
Definition save_to_queue (fuel : nat) (mem : list Z) (cksum new_bits stage_cur funIdx : Z) a : rout W unit :=
  let k := length (queue_buf (af_queue a)) in
  let a := new_entry mem funIdx a in
  let a := if new_bits =? 2 then incr queued_with_cov (on_cal set_new_cov k a) else a in
  let a :=
    if negb (cksum =? 0) then
      let e := cksum `mod` N_FUZZ_SIZE in
      let q := af_queue a in
      set_queue (set_n_fuzz (<[Z.to_nat e := 1]> (n_fuzz q))
        (set_queue_buf (alter (set_n_fuzz_entry e) k (queue_buf q)) q)) a
    else a in
  let a := on_cal (set_cksum (hash64 (trace a))) k a in
  match calibrate_case fuel k mem (u32 (queue_cycle g - 1)) false stage_cur a with
  | None => RNoFuel
  | Some (FSRV_RUN_ERROR, _) => RFatal
  | Some (_, a) => RDone tt a
  end.

(** [simplify_trace(afl, afl->fsrv.trace_bits); has_new_bits(afl, ...)] after
    [classify_counts] where that is missing. *)
Definition unique_trace (sel : virgin_sel) (classified : bool) a : bool * afl_state W :=
  if non_instrumented_mode g then (true, a)
  else
    let a := if classified then a else classified_trace a in
    let a := set_fsrv (set_trace (simplify_trace wb (af_fsrv a) (trace a)) (af_fsrv a)) a in
    let '(hnb, vm) := has_new_bits wb (af_fsrv a) sel (af_virgin a) in
    (negb (hnb =? 0), set_virgins vm a).

(** [case FSRV_RUN_CRASH], from the label [keep_as_crash] *)
Definition keep_crash (mem : list Z) (keeping classified : bool) a : rout W bool :=
  let a := incr total_crashes a in
  if KEEP_UNIQUE_CRASH <=? af_count a saved_crashes then RDone keeping a
  else
    let '(unique, a) := unique_trace VirginCrash classified a in
    if unique
    then RDone keeping (incr saved_crashes (set_files (queue_files a) (hang_files a) (crash_files a ++ [mem]) a))
    else RDone keeping a.

(** What a second run with the longer time limit says of a timeout. *)
Inductive retried := Hang | Crashed | Queue_it | Drop.

Definition retry (mem : list Z) a : retried * list Z * afl_state W :=
  if exec_tmout g <? hang_tmout g then
    let mem := write_to_testcase false mem in
    let '(new_fault, a) := run_target (hang_tmout g) mem a in
    let a := classified_trace a in
    let stop := stop_soon (af_world a) in
    if negb stop && bool_decide (new_fault = FSRV_RUN_CRASH) then (Crashed, mem, a)
    else if stop || negb (bool_decide (new_fault = FSRV_RUN_TMOUT))
    then (if keep_timeouts g then Queue_it else Drop, mem, a)
    else (Hang, mem, a)
  else (Hang, mem, a).

(** [case FSRV_RUN_TMOUT]: what becomes of the test case. *)
Definition check_hang (mem : list Z) (classified : bool) a : retried * list Z * afl_state W :=
  let a := incr total_tmouts a in
  if KEEP_UNIQUE_HANG <=? af_count a saved_hangs then (Drop, mem, a)
  else
    let '(unique, a) := unique_trace VirginTmout classified a in
    if unique then retry mem a else (Drop, mem, a).

(** [switch (fault)]; [goto save_to_queue] comes back to it, which takes one of [rounds]. *)
Fixpoint judge (rounds fuel : nat) (fault : fsrv_run_result) (mem : list Z) (cksum new_bits stage_cur funIdx : Z)
    (keeping classified : bool) a : rout W bool :=
  match fault with
  | FSRV_RUN_TMOUT =>
      let '(r, mem, a) := check_hang mem classified a in
      let classified := classified || negb (non_instrumented_mode g) in
      match r with
      | Hang => RDone keeping (incr saved_hangs (set_files (queue_files a) (hang_files a ++ [mem]) (crash_files a) a))
      | Crashed => keep_crash mem keeping classified a
      | Drop => RDone keeping a
      | Queue_it =>
          match rounds with
          | O => RNoFuel
          | S rounds =>
              match save_to_queue fuel mem cksum new_bits stage_cur funIdx (incr saved_tmouts a) with
              | RDone _ a => judge rounds fuel fault mem cksum new_bits stage_cur funIdx true classified a
              | RFatal => RFatal
              | RNoFuel => RNoFuel
              end
          end
      end
  | FSRV_RUN_CRASH => keep_crash mem keeping classified a
  | FSRV_RUN_ERROR => RFatal
  | _ => RDone keeping a
  end.

(** [save_if_interesting(afl, mem, len, fault, target, funIdx)]: is the test case queued? *)
Definition save_if_interesting (rounds fuel : nat) (mem : list Z) (fault : fsrv_run_result) (stage_cur funIdx : Z) a
    : rout W bool :=
  if Nat.eqb (length mem) 0 then RDone false a
  else
    let '(cksum, a) := count_path a in
    if bool_decide (fault = crash_mode g) then
      let '(new_bits, fsrv, vm) := has_new_bits_unclassified wb init_count_class16 (af_fsrv a) VirginBits (af_virgin a) in
      let a := set_virgins vm (set_fsrv fsrv a) in
      if new_bits =? 0
      then RDone false (if bool_decide (crash_mode g = FSRV_RUN_OK) then a else incr total_crashes a)
      else
        match save_to_queue fuel mem cksum new_bits stage_cur funIdx a with
        | RDone _ a => judge rounds fuel fault mem cksum new_bits stage_cur funIdx true true a
        | RFatal => RFatal
        | RNoFuel => RNoFuel
        end
    else judge rounds fuel fault mem cksum 0 stage_cur funIdx false false a.

(** ** [common_fuzz_stuff] *)

(** [true] asks to abandon the entry. *)
Definition common_fuzz_stuff (rounds fuel : nat) (stage_cur funIdx : Z) (out_buf : list Z) a : rout W bool :=
  let input := write_to_testcase false out_buf in
  if Nat.eqb (length input) 0 then RDone false a
  else
    let '(fault, a) := run_target (exec_tmout g) input a in
    if stop_soon (af_world a) then RDone true a
    else
      let '(over, a) :=
        if bool_decide (fault = FSRV_RUN_TMOUT)
        then (TMOUT_LIMIT <? af_count a subseq_tmouts, incr subseq_tmouts a)
        else (false, set_count subseq_tmouts 0 a) in
      if over then RDone true (incr cur_skipped_items a)
      else if skip_requested (af_world a)
      then RDone true (incr cur_skipped_items (set_world (clear_skip (af_world a)) a))
      else
        match save_if_interesting rounds fuel input fault stage_cur funIdx a with
        | RDone kept a =>
            RDone false (set_count queued_discovered (af_count a queued_discovered + (if kept then 1 else 0)) a)
        | RFatal => RFatal
        | RNoFuel => RNoFuel
        end.
End run.
