(* ===== verification/RunTheorems.v ===== *)
(** * Running a test case and judging the result: the theorems

    Every operation of Run.v keeps the state well formed ([afl_ok]) and only moves forward
    ([later]): virgin maps lose bits, files are added.  From this: all of it ends, entries
    are queued exactly for new coverage, and no trace is queued twice. *)
From S2P Require Import Prelude Bitmap Alloc Queue Trim Run.

(** ** Bits only disappear *)

Definition fewer : list Z -> list Z -> Prop :=
  Forall2 (fun v v' => forall n, 0 <= n -> Z.testbit v' n = true -> Z.testbit v n = true).

#[export] Instance fewer_preorder : PreOrder fewer.
Proof.
  split.
  - intros l. induction l; constructor; auto.
  - intros l1 l2 l3 H1. revert l3. induction H1 as [|v v' l l' Hv _ IH]; intros l3 H2;
      inversion H2 as [|? v2 ? l2 Hv2 Hl2]; subst; constructor; [|by apply IH].
    intros n Hn Hb. apply Hv, Hv2; done.
Qed.

Lemma fewer_length l l' : fewer l l' -> length l' = length l.
Proof. intros H. symmetry. by eapply Forall2_length. Qed.

Lemma clear_seen_fewer cur vir : length cur = length vir -> fewer vir (clear_seen cur vir).
Proof.
  revert vir. induction cur as [|c cur IH]; intros [|v vir] Hl; try done.
  unfold clear_seen. simpl. constructor; [|apply IH; simpl in Hl; lia].
  intros n Hn. rewrite Z.ldiff_spec, andb_true_iff. tauto.
Qed.

Lemma zero_fewer v : (forall n, 0 <= n -> Z.testbit v n = true -> Z.testbit 0 n = true) -> v = 0.
Proof.
  intros H. apply Z.bits_inj'. intros n Hn. destruct (Z.testbit v n) eqn:E; [|by rewrite Z.testbit_0_l].
  rewrite <- E. specialize (H n Hn E). by rewrite Z.testbit_0_l in H.
Qed.

(** A trace with no bit left in a map has none in a later one. *)
Lemma no_hit_fewer cur vir vir' :
  fewer vir vir' -> existsb hit (zip cur vir) = false -> existsb hit (zip cur vir') = false.
Proof.
  intros H. revert cur. induction H as [|v v' l l' Hv _ IH]; intros [|c cur]; try done. simpl.
  intros [H1 H2]%orb_false_iff. apply orb_false_iff. split; [|by apply IH].
  unfold hit in *. simpl in *. apply negb_false_iff, Z.eqb_eq in H1. apply negb_false_iff, Z.eqb_eq.
  apply Z.bits_inj'. intros n Hn. rewrite Z.land_spec, Z.testbit_0_l. apply andb_false_iff.
  pose proof (f_equal (fun z => Z.testbit z n) H1) as Hb. simpl in Hb. rewrite Z.land_spec, Z.testbit_0_l in Hb.
  destruct (Z.testbit c n); [|by left]. right. destruct (Z.testbit v' n) eqn:E; [|done]. apply Hv in E; [|done].
  by rewrite E in Hb.
Qed.

Lemma fewer_take n l l' : fewer l l' -> fewer (take n l) (take n l').
Proof. apply Forall2_take. Qed.

(** ** Well-formed states *)

(** [n] is the size of the map. *)
Record afl_ok {W} (n : Z) (a : afl_state W) : Prop := {
  ok_size : map_size (af_fsrv a) = n;
  ok_maps : maps_ok (af_fsrv a) (af_virgin a);
  ok_first : Z.of_nat (length (first_trace a)) = map_size (af_fsrv a);
  (** a byte that varies from run to run is not waited for any more *)
  ok_var : Forall2 (fun x v => x <> 0 -> v = 0) (var_bytes a) (virgin_bits (af_virgin a));
  ok_top : top_ok (af_queue a);
  ok_rated : Z.of_nat (length (top_rated (af_queue a))) = map_size (af_fsrv a);
  ok_cal : length (af_cal a) = length (queue_buf (af_queue a));
  ok_files : map (fun f => Z.of_nat (length f)) (queue_files a) = map q_len (queue_buf (af_queue a));
  ok_hangs : af_count a saved_hangs = Z.of_nat (length (hang_files a)) /\ af_count a saved_hangs <= KEEP_UNIQUE_HANG;
  ok_crashes : af_count a saved_crashes = Z.of_nat (length (crash_files a))
               /\ af_count a saved_crashes <= KEEP_UNIQUE_CRASH;
}.

Record later {W} (a a' : afl_state W) : Prop := {
  lt_virgin : forall sel, fewer (get_virgin sel (af_virgin a)) (get_virgin sel (af_virgin a'));
  lt_queue : queue_files a `prefix_of` queue_files a';
  lt_hangs : hang_files a `prefix_of` hang_files a';
  lt_crashes : crash_files a `prefix_of` crash_files a';
  lt_size : map_size (af_fsrv a') = map_size (af_fsrv a);
  lt_real : real_map_size (af_fsrv a') = real_map_size (af_fsrv a);
}.

#[export] Instance later_preorder W : PreOrder (@later W).
Proof.
  split; [by split|]. intros a b c [] []. split; try congruence; try (by etrans).
  intros sel. by transitivity (get_virgin sel (af_virgin b)).
Qed.

Definition advances {W} (n : Z) (a a' : afl_state W) : Prop := afl_ok n a -> afl_ok n a' /\ later a a'.

#[export] Instance advances_preorder W n : PreOrder (@advances W n).
Proof.
  split; [by split|]. intros a b c H1 H2 Ha. destruct (H1 Ha) as [Hb L1]. destruct (H2 Hb) as [Hc L2].
  split; [done|by etrans].
Qed.

Section steps.
Context {W : Type} (n : Z) (wb : nat) (Hwb : wb = 4%nat \/ wb = 8%nat).
Implicit Types a : afl_state W.

(** Two states that differ in nothing the invariant looks at. *)
Lemma advances_same a a' :
  af_fsrv a' = af_fsrv a -> af_virgin a' = af_virgin a -> first_trace a' = first_trace a -> var_bytes a' = var_bytes a ->
  af_queue a' = af_queue a -> length (af_cal a') = length (af_cal a) -> queue_files a' = queue_files a ->
  hang_files a' = hang_files a -> crash_files a' = crash_files a ->
  af_count a' saved_hangs = af_count a saved_hangs -> af_count a' saved_crashes = af_count a saved_crashes ->
  advances n a a'.
Proof.
  intros E1 E2 E3 E4 E5 E6 E7 E8 E9 E10 E11 [].
  split; [split|split; try intros sel]; rewrite ?E1, ?E2, ?E3, ?E4, ?E5, ?E6, ?E7, ?E8, ?E9, ?E10, ?E11; done.
Qed.

Lemma set_world_adv w a : advances n a (set_world w a).
Proof. by apply advances_same. Qed.
Lemma add_total_adv t k x a : advances n a (add_total t k x a).
Proof. by apply advances_same. Qed.
Lemma on_cal_adv f k a : advances n a (on_cal f k a).
Proof. apply advances_same; try done. simpl. apply length_alter. Qed.
Lemma set_count_adv c x a : c <> saved_hangs -> c <> saved_crashes -> advances n a (set_count c x a).
Proof. intros H1 H2. apply advances_same; try done; simpl; by rewrite decide_False by done. Qed.
Lemma incr_adv c a : c <> saved_hangs -> c <> saved_crashes -> advances n a (incr c a).
Proof. apply set_count_adv. Qed.

(** A trace of the right size. *)
Lemma set_trace_adv t a :
  Z.of_nat (length t) = n -> Forall byte_ok t ->
  advances n a (set_fsrv (set_trace t (af_fsrv a)) a).
Proof.
  intros Hl Hb [? [? ? ? ? ? ?] ? ? ? ? ? ? ? ?]. subst n. split; [by split|by split].
Qed.

Lemma classified_adv a : advances n a (classified_trace wb a).
Proof using Hwb.
  intros Ha. pose proof (classify_counts_ok wb Hwb _ _ (ok_maps n a Ha)) as Hm. destruct Ha. split; [by split|by split].
Qed.

Lemma set_first_adv a : advances n a (set_first (trace a) a).
Proof. intros Ha. destruct (ok_maps n a Ha) as [? ? Ht ? ? ?]. destruct Ha. split; [split; try done|by split]. Qed.

(** Comparing the trace with a virgin map. *)
Lemma compare_adv sel a r vm :
  has_new_bits wb (af_fsrv a) sel (af_virgin a) = (r, vm) -> advances n a (set_virgins vm a).
Proof using Hwb.
  intros E Ha. pose proof (has_new_bits_compared wb (af_fsrv a) sel (af_virgin a) Hwb (ok_maps n a Ha)) as Hc.
  rewrite E in Hc. destruct Hc as [_ Hmap Hoth Hok].
  pose proof (scanned_le wb Hwb _ _ (ok_maps n a Ha)) as Hn. destruct (ok_maps n a Ha) as [? ? Ht Hv ? ?].
  assert (Hf : forall s, fewer (get_virgin s (af_virgin a)) (get_virgin s vm)).
  { intros s. destruct (decide (s = sel)) as [->|Hne]; [|by rewrite (Hoth s Hne)].
    rewrite Hmap. rewrite <- (take_drop (scanned wb (af_fsrv a)) (get_virgin sel (af_virgin a))) at 1.
    apply Forall2_app; [|done]. apply clear_seen_fewer. rewrite !length_take. specialize (Hv sel). lia. }
  destruct Ha as [Ha0 Ha1 Ha2 Ha3 Ha4 Ha5 Ha6 Ha7 Ha8 Ha9]. split; [split; try done|by split]. simpl.
  specialize (Hf VirginBits). simpl in Hf. revert Hf. generalize (virgin_bits vm). clear -Ha3.
  induction Ha3 as [|x v l l' Hx _ IH]; intros m Hf; inversion Hf as [|? v' ? ? Hv' Hf']; subst; constructor; [|by apply IH].
  intros Hne. rewrite (Hx Hne) in Hv'. by apply zero_fewer.
Qed.

(** ** Bytes that vary *)

Lemma mark_variable_ok first cur var virgin :
  length cur = length first -> length var = length first -> length virgin = length first -> Forall byte_ok virgin ->
  Forall2 (fun x v => x <> 0 -> v = 0) var virgin ->
  let '(var', virgin') := mark_variable first cur var virgin in
  fewer virgin virgin' /\ Forall byte_ok virgin' /\ Forall2 (fun x v => x <> 0 -> v = 0) var' virgin'.
Proof.
  clear Hwb. revert cur var virgin. induction first as [|f first IH]; intros [|c cur] [|x var] [|v virgin] H1 H2 H3 Hb Hv; try done.
  simpl in *. apply Forall_cons in Hb as [Hb0 Hb]. inversion Hv as [|? ? ? ? Hxv Hv']; subst.
  specialize (IH cur var virgin ltac:(lia) ltac:(lia) ltac:(lia) Hb Hv').
  destruct (mark_variable first cur var virgin) as [var' virgin'], IH as (I1 & I2 & I3).
  destruct ((x =? 0) && negb (f =? c)).
  - split; [constructor; [|done]|]. { intros m Hm. by rewrite Z.testbit_0_l. }
    split; [constructor; [unfold byte_ok; lia|done]|]. by constructor.
  - split; [by constructor|]. split; by constructor.
Qed.

Lemma mark_adv a var virgin :
  mark_variable (first_trace a) (trace a) (var_bytes a) (virgin_bits (af_virgin a)) = (var, virgin) ->
  advances n a (set_var var (set_virgins (set_virgin VirginBits virgin (af_virgin a)) a)).
Proof.
  clear Hwb. intros E Ha. destruct Ha as [H0 [M1 M2 M3 M4 M5 M6] H1 H2 H3 H4 H5 H6 H7 H8].
  pose proof (mark_variable_ok (first_trace a) (trace a) (var_bytes a) (virgin_bits (af_virgin a))) as Hm.
  rewrite E in Hm. pose proof (Forall2_length _ _ _ H2) as Hl. pose proof (M4 VirginBits) as M4v. simpl in M4v.
  destruct Hm as (I1 & I2 & I3); [unfold trace; lia|lia|lia|apply (M6 VirginBits)|done|].
  pose proof (fewer_length _ _ I1) as Hl'.
  split; [split; try done|split; try done].
  - split; try done; intros [| |]; simpl; [lia|apply (M4 VirginTmout)|apply (M4 VirginCrash)|done|
      apply (M6 VirginTmout)|apply (M6 VirginCrash)].
  - by intros [| |].
Qed.

(** ** The queue *)

(** The queue replaced by one with as many entries of the same lengths. *)
Lemma set_queue_adv q a :
  top_ok q -> length (top_rated q) = length (top_rated (af_queue a)) ->
  map q_len (queue_buf q) = map q_len (queue_buf (af_queue a)) -> advances n a (set_queue q a).
Proof.
  intros Ht Hl Hq [H0 H1 H2 H3 H4 H5 H6 H7 H8 H9]. pose proof (f_equal length Hq) as Hlen. rewrite !length_map in Hlen.
  split; [split; simpl; try done; [by rewrite Hl|by rewrite Hlen|by rewrite Hq]|by split].
Qed.

Lemma alter_q_len (f : queue_entry -> queue_entry) k l :
  (forall q, q_len (f q) = q_len q) -> map q_len (alter f k l) = map q_len l.
Proof. intros Hf. revert k. induction l as [|q l IH]; intros [|k]; simpl; try done; [by rewrite Hf|f_equal; apply IH]. Qed.

(** One entry changed in nothing that matters for the holders. *)
Lemma alter_entry_adv f k nf a :
  (forall q, q_len (f q) = q_len q) -> (forall q, q_tc_ref (f q) = q_tc_ref q /\ q_trace_mini (f q) = q_trace_mini q) ->
  advances n a (set_queue (set_n_fuzz nf (set_queue_buf (alter f k (queue_buf (af_queue a))) (af_queue a))) a).
Proof.
  intros H1 H2 Ha. apply set_queue_adv; [|done|by apply alter_q_len|done]. apply (top_ok_same (af_queue a)); [done|apply length_alter| |apply Ha].
  by apply alter_same.
Qed.

Lemma score_adv k a : advances n a (set_queue (update_bitmap_score (af_fsrv a) k (af_queue a)) a).
Proof.
  clear Hwb. intros Ha. pose proof Ha as [H0 [M1 M2 M3 M4 M5 M6] H1 H2 H3 H4 H5 H6 H7 H8]. unfold update_bitmap_score.
  destruct (queue_buf (af_queue a) !! k) as [q|] eqn:Eq; [|by apply set_queue_adv].
  destruct (score_loop_spec k (fuzz_p2_new (af_queue a) q) (fav_factor_of (af_queue a) q) (packed (af_fsrv a)) 0
    (take (Z.to_nat (map_size (af_fsrv a))) (trace_bits (af_fsrv a))) (af_queue a)) as (T1 & (_ & _ & _ & T2 & T3 & T4) & _).
  { done. } { by eapply lookup_lt_Some. } { rewrite length_take. lia. }
  apply set_queue_adv; [done|done| |done].
  apply list_eq. intros i. change (map q_len) with (fmap (M:=list) q_len). rewrite !list_lookup_fmap.
  destruct (queue_buf (af_queue a) !! i) as [p|] eqn:Ep.
  - destruct (T4 i p Ep) as (p' & Hp' & (Hpl & _)). rewrite Hp'. simpl. by rewrite Hpl.
  - apply lookup_ge_None_1 in Ep. rewrite lookup_ge_None_2 by lia. done.
Qed.

(** ** Calibration *)

Lemma cal_stats_adv k idx handicap diff stage_max a : advances n a (cal_stats k idx handicap diff stage_max a).
Proof using Hwb.
  unfold cal_stats. cbv zeta. etrans; [|apply score_adv].
  etrans; [|apply add_total_adv]. etrans; [|apply add_total_adv]. etrans; [|apply on_cal_adv].
  etrans; [apply (add_total_adv total_cal_us idx diff)|]. etrans; [apply (add_total_adv total_cal_cycles idx stage_max)|].
  match goal with |- advances _ ?b (set_queue ?q ?b) => change q with (set_n_fuzz (n_fuzz (af_queue b)) q) end.
  by apply alter_entry_adv.
Qed.

Lemma note_bits_adv (c : calib (W:=W)) : advances n (c_afl c) (c_afl (note_bits wb c)).
Proof using Hwb.
  unfold note_bits. destruct (has_new_bits _ _ _ _) as [r vm] eqn:E. simpl. by eapply compare_adv.
Qed.

Lemma cal_finish_adv k fault (c : calib (W:=W)) : advances n (c_afl c) (cal_finish k fault c).2.
Proof.
  unfold cal_finish. cbn [snd].
  set (a1 := if _ && _ then _ else _).
  assert (H1 : advances n (c_afl c) a1).
  { unfold a1. destruct (_ && _); [|reflexivity]. etrans; [apply on_cal_adv|]. by apply incr_adv. }
  etrans; [exact H1|]. clearbody a1. destruct (c_var c); [|reflexivity].
  set (a2 := set_count var_byte_count _ a1). assert (H2 : advances n a1 a2) by (by apply set_count_adv).
  etrans; [exact H2|]. destruct (negb _); [|reflexivity].
  etrans; [apply on_cal_adv|]. by apply incr_adv.
Qed.
End steps.

(** ** The bits of a map run out *)

Definition weight (l : list Z) : Z := foldr Z.add 0 l.

Lemma fewer_le v v' : 0 <= v -> (forall m, 0 <= m -> Z.testbit v' m = true -> Z.testbit v m = true) -> v' <= v.
Proof.
  intros Hv H. apply Z.ldiff_le; [done|]. apply Z.bits_inj'. intros m Hm. rewrite Z.ldiff_spec, Z.testbit_0_l.
  destruct (Z.testbit v' m) eqn:E; [|done]. by rewrite (H m Hm E).
Qed.

Lemma fewer_weight l l' : Forall byte_ok l -> fewer l l' -> weight l' <= weight l.
Proof.
  intros Hb H. induction H as [|v v' l l' Hv _ IH]; [done|]. apply Forall_cons in Hb as [Hb0 Hb]. simpl.
  specialize (IH Hb). pose proof (fewer_le v v' (proj1 Hb0) Hv). lia.
Qed.

Lemma hit_weight cur vir :
  Forall byte_ok vir -> length cur = length vir -> existsb hit (zip cur vir) = true ->
  weight (clear_seen cur vir) < weight vir.
Proof.
  revert vir. induction cur as [|c cur IH]; intros [|v vir] Hb Hl Hh; try done.
  apply Forall_cons in Hb as [Hb0 Hb]. simpl in Hl. unfold clear_seen. simpl. fold (clear_seen cur vir).
  pose proof (clear_seen_fewer cur vir ltac:(lia)) as Hf. apply fewer_weight in Hf; [|done].
  assert (Hle : Z.ldiff v c <= v).
  { apply fewer_le; [apply Hb0|]. intros m Hm. rewrite Z.ldiff_spec, andb_true_iff. tauto. }
  simpl in Hh. apply orb_true_iff in Hh as [Hh|Hh].
  - assert (Z.ldiff v c <> v); [|lia]. intros E. unfold hit in Hh. simpl in Hh. apply negb_true_iff, Z.eqb_neq in Hh.
    apply Hh. rewrite <- E. apply Z.bits_inj'. intros m Hm. rewrite Z.land_spec, Z.ldiff_spec, Z.testbit_0_l.
    by destruct (Z.testbit c m), (Z.testbit v m).
  - specialize (IH vir Hb ltac:(lia) Hh). lia.
Qed.

Lemma weight_app l l' : weight (l ++ l') = weight l + weight l'.
Proof. unfold weight. induction l as [|x l IH]; simpl; lia. Qed.

Lemma weight_nonneg l : Forall byte_ok l -> 0 <= weight l.
Proof. induction 1 as [|x l [Hx _] _ IH]; simpl; [done|]. lia. Qed.

(** ** In terms of single bytes *)

(** Every bucket of the trace was seen before. *)
Definition all_seen (k : nat) (t virgin : list Z) : Prop :=
  forall i c v, (i < k)%nat -> t !! i = Some c -> virgin !! i = Some v -> Z.land (bucket c) v = 0.

Lemma no_hit_all_seen k t virgin :
  Forall byte_ok t ->
  existsb hit (zip (map count_class (take k t)) (take k virgin)) = false <-> all_seen k t virgin.
Proof.
  intros Ht. unfold all_seen. revert t virgin Ht.
  induction k as [|k IH]; intros t virgin Ht; [split; [intros _ i c v Hi; lia|done]|].
  destruct t as [|c t]; [split; [by intros _ [|i]|done]|].
  destruct virgin as [|v virgin]; [split; [by intros _ [|i]|done]|].
  apply Forall_cons in Ht as [Hc Ht]. simpl. rewrite orb_false_iff, IH by done. unfold hit at 1. simpl.
  rewrite negb_false_iff, Z.eqb_eq, count_class_bucket by done. split.
  - intros [H0 H] [|i] c' v' Hi; simpl; [by intros [= <-] [= <-]|]. intros E1 E2. apply (H i); [lia|done|done].
  - intros H. split; [by apply (H 0%nat); [lia|..]|]. intros i c' v' Hi. apply (H (S i)). lia.
Qed.

Section running.
Context {W : Type} `{!Executor W} `{!Forkserver W}.
Context (n : Z) (wb : nat) (Hwb : wb = 4%nat \/ wb = 8%nat) (hash64 : list Z -> Z) (junk : Z) (g : run_cfg).
Implicit Types (a : afl_state W) (c : calib (W:=W)).

(** The target writes traces of the size of the map. *)
Definition traces_ok : Prop := forall (w : W) timeout input,
  Z.of_nat (length (fuzz_run_target w timeout input).1.2) = n /\ Forall byte_ok (fuzz_run_target w timeout input).1.2.
Hypothesis Htraces : traces_ok.

Lemma run_target_adv timeout input a : advances n a (run_target timeout input a).2.
Proof using Htraces.
  unfold run_target. pose proof (Htraces (af_world a) timeout input) as [H1 H2].
  destruct (fuzz_run_target _ _ _) as [[fault t] w]. simpl in *.
  etrans; [by apply set_trace_adv|]. apply set_world_adv.
Qed.

(** What [cal_run] and [cal_loop] lead to. *)
Definition cal_adv a (o : cal_out) : Prop :=
  match o with
  | CalRan c | CalAborted _ c => advances n a (c_afl c)
  | CalNoFuel => False
  end.

Lemma cal_run_adv use_tmout mem cur c : cal_adv (c_afl c) (cal_run junk g use_tmout mem cur c).
Proof using Htraces.
  unfold cal_run. pose proof (run_target_adv use_tmout (write_to_testcase junk g true mem) (c_afl c)) as H.
  destruct (run_target _ _ _) as [fault a]. simpl in H. by repeat case_match.
Qed.

Lemma cal_run_max use_tmout mem cur c c1 : cal_run junk g use_tmout mem cur c = CalRan c1 -> c_max c1 = c_max c.
Proof.
  unfold cal_run. destruct (run_target _ _ _) as [fault a]. cbv zeta. destruct (_ || _); [done|].
  destruct (_ && (_ =? 0)); [done|]. by intros [= <-].
Qed.

Lemma compare_run_adv k c : advances n (c_afl c) (c_afl (compare_run wb hash64 g k c)).
Proof using Hwb.
  unfold compare_run. cbv zeta. set (c1 := Calib (classified_trace wb (c_afl c)) _ _ _).
  assert (H0 : advances n (c_afl c) (c_afl c1)) by apply (classified_adv n wb Hwb).
  destruct (_ =? _); [exact H0|]. etrans; [exact H0|]. pose proof (note_bits_adv n wb Hwb c1) as H1.
  etrans; [exact H1|]. set (c2 := note_bits wb c1). destruct (negb _).
  - destruct (mark_variable _ _ _ _) as [var virgin] eqn:E. simpl. by apply mark_adv.
  - simpl. etrans; [apply on_cal_adv|]. apply (set_first_adv n (on_cal _ k (c_afl c2))).
Qed.

(** The number of cycles never exceeds 20, so 20 runs are enough. *)
Lemma compare_run_max k c : c_max c <= CAL_CYCLES_LONG -> c_max (compare_run wb hash64 g k c) <= CAL_CYCLES_LONG.
Proof using Type.
  clear Hwb. intros H. unfold compare_run, note_bits, CAL_CYCLES_LONG, CAL_CYCLES in *. repeat case_match; simplify_eq/=; lia.
Qed.

Lemma cal_loop_adv fuel k use_tmout mem cur c :
  c_max c <= CAL_CYCLES_LONG -> CAL_CYCLES_LONG - cur <= Z.of_nat fuel ->
  cal_adv (c_afl c) (cal_loop wb hash64 junk g fuel k use_tmout mem cur c).
Proof using Htraces Hwb.
  revert cur c. induction fuel as [|fuel IH]; intros cur c Hm Hf; cbn [cal_loop];
    destruct (Z.ltb_spec cur (c_max c)); [lia|simpl; reflexivity| |simpl; reflexivity].
  pose proof (cal_run_adv use_tmout mem cur c) as Hr.
  pose proof (cal_run_max use_tmout mem cur c) as Hmax.
  destruct (cal_run _ _ _ _ _ _) as [c1|fault c1|]; [|done|done]. simpl in Hr. specialize (Hmax c1 eq_refl).
  pose proof (compare_run_adv k c1) as Hc. pose proof (compare_run_max k c1 ltac:(lia)) as Hm1.
  specialize (IH (cur + 1) (compare_run wb hash64 g k c1) Hm1 ltac:(lia)).
  destruct (cal_loop _ _ _ _ _ _ _ _ _ _) as [c2|fault c2|]; [| |done]; simpl in *; (etrans; [exact Hr|]; by etrans).
Qed.

Lemma select_target_adv idx a : advances n a (select_target idx a).
Proof. unfold select_target. case_bool_decide; [reflexivity|apply set_world_adv]. Qed.

(** Twenty runs are enough for a calibration, which keeps the state in order. *)
Lemma calibrate_case_adv k mem handicap from_queue stage_cur a fuel :
  (20 <= fuel)%nat ->
  exists fault a', calibrate_case wb hash64 junk g fuel k mem handicap from_queue stage_cur a = Some (fault, a')
    /\ advances n a a'.
Proof using Htraces Hwb.
  intros Hfuel. unfold calibrate_case. cbv zeta.
  set (a1 := if cmplog_mode g then _ else a).
  assert (H1 : advances n a a1) by (unfold a1; destruct (cmplog_mode g); [apply on_cal_adv|reflexivity]).
  set (use_tmout := if negb from_queue || _ then _ else _).
  set (idx := match queue_buf _ !! k with Some q => _ | None => _ end).
  set (a2 := on_cal _ k a1). assert (H2 : advances n a a2) by (etrans; [exact H1|apply on_cal_adv]).
  set (c := Calib (select_target idx a2) _ _ _).
  assert (Hc : advances n a (c_afl c)) by (etrans; [exact H2|apply select_target_adv]).
  assert (Hmax : c_max c <= 8) by (simpl; unfold CAL_CYCLES; destruct (cal_fast g); lia).
  set (o := if cmplog_mode g then _ else _).
  assert (Ho : cal_adv a o /\ match o with CalRan c1 => c_max c1 <= 8 | _ => True end).
  { unfold o. destruct (cmplog_mode g); [|split; [exact Hc|exact Hmax]].
    pose proof (cal_run_adv use_tmout mem stage_cur c) as Hr. split.
    - destruct (cal_run _ _ _ _ _ _); [| |done]; simpl; (etrans; [exact Hc|exact Hr]).
    - destruct (cal_run _ _ _ _ _ _) as [c1| |] eqn:Er; [|done|done]. by rewrite (cal_run_max _ _ _ _ _ Er). }
  clearbody o use_tmout. destruct o as [c1|fault c1|]; destruct Ho as [Ho Ho']; [| |done]; simpl in Ho.
  2:{ eexists _, _. split; [apply (f_equal Some), surjective_pairing|]. etrans; [exact Ho|apply cal_finish_adv]. }
  set (c2 := if negb _ then _ else c1).
  assert (H2c : advances n a (c_afl c2) /\ c_max c2 <= 8).
  { unfold c2. destruct (negb _); [|by split]. split.
    - etrans; [exact Ho|]. etrans; [apply set_first_adv|]. apply (note_bits_adv n wb Hwb (Calib _ _ _ _)).
    - unfold note_bits. by destruct (has_new_bits _ _ _ _). }
  destruct H2c as [H2c Hm2].
  pose proof (cal_loop_adv fuel k use_tmout mem 0 c2 ltac:(unfold CAL_CYCLES_LONG; lia) ltac:(unfold CAL_CYCLES_LONG; lia)) as Hl.
  destruct (cal_loop _ _ _ _ _ _ _ _ _ _) as [c3|fault c3|]; [| |done]; simpl in Hl;
    (eexists _, _; split; [apply (f_equal Some), surjective_pairing|]).
  - etrans; [exact H2c|]. etrans; [exact Hl|]. etrans; [apply (cal_stats_adv n wb Hwb)|].
    apply (cal_finish_adv n _ _ (Calib _ _ _ _)).
  - etrans; [exact H2c|]. etrans; [exact Hl|]. apply cal_finish_adv.
Qed.

(** ** What calibration leaves alone *)

(** An observation of the state that no assignment of [calibrate_case] changes. *)
Record untouched {X} (F : afl_state W -> X) : Prop := {
  un_world : forall w a, F (set_world w a) = F a;
  un_fsrv : forall f a, F (set_fsrv f a) = F a;
  un_virgins : forall v a, F (set_virgins v a) = F a;
  un_var : forall v a, F (set_var v a) = F a;
  un_first : forall t a, F (set_first t a) = F a;
  un_count : forall ct x a, F (set_count ct x a) = F a;
  un_total : forall t k x a, F (add_total t k x a) = F a;
  un_cal : forall f k a, F (on_cal f k a) = F a;
  un_us : forall us k a,
    F (set_queue (set_queue_buf (alter (set_exec_us us) k (queue_buf (af_queue a))) (af_queue a)) a) = F a;
  un_score : forall k a, F (set_queue (update_bitmap_score (af_fsrv a) k (af_queue a)) a) = F a;
}.

Section untouched.
Context {X : Type} (F : afl_state W -> X) (HF : untouched F).

Definition cal_same a (o : cal_out) : Prop :=
  match o with
  | CalRan c | CalAborted _ c => F (c_afl c) = F a
  | CalNoFuel => True
  end.

Lemma run_target_same_of timeout input a : F (run_target timeout input a).2 = F a.
Proof using HF.
  unfold run_target. destruct (fuzz_run_target _ _ _) as [[fault t] w]. cbn [snd].
  by rewrite (un_world F HF), (un_fsrv F HF).
Qed.

Lemma cal_run_same use_tmout mem cur c : cal_same (c_afl c) (cal_run junk g use_tmout mem cur c).
Proof using HF.
  unfold cal_run. pose proof (run_target_same_of use_tmout (write_to_testcase junk g true mem) (c_afl c)) as H.
  destruct (run_target _ _ _) as [fault a]. cbv zeta. destruct (_ || _); [done|]. by destruct (_ && (_ =? 0)).
Qed.

Lemma note_bits_same c : F (c_afl (note_bits wb c)) = F (c_afl c).
Proof using HF. unfold note_bits. destruct (has_new_bits _ _ _ _). apply (un_virgins F HF). Qed.

Lemma compare_run_same k c : F (c_afl (compare_run wb hash64 g k c)) = F (c_afl c).
Proof using HF.
  unfold compare_run. cbv zeta. destruct (_ =? _); [apply (un_fsrv F HF)|].
  set (c2 := note_bits _ _). assert (H : F (c_afl c2) = F (c_afl c)).
  { unfold c2. rewrite note_bits_same. apply (un_fsrv F HF). }
  destruct (negb _); [destruct (mark_variable _ _ _ _)|]; cbn [c_afl].
  - by rewrite (un_var F HF), (un_virgins F HF).
  - by rewrite (un_first F HF), (un_cal F HF).
Qed.

Lemma cal_loop_same fuel k use_tmout mem cur c :
  cal_same (c_afl c) (cal_loop wb hash64 junk g fuel k use_tmout mem cur c).
Proof using HF.
  revert cur c. induction fuel as [|fuel IH]; intros cur c; cbn [cal_loop]; destruct (cur <? c_max c); try done.
  pose proof (cal_run_same use_tmout mem cur c) as Hr.
  destruct (cal_run _ _ _ _ _ _) as [c1|fault c1|]; [|done|done]. simpl in Hr.
  pose proof (compare_run_same k c1) as Hc. specialize (IH (cur + 1) (compare_run wb hash64 g k c1)).
  destruct (cal_loop _ _ _ _ _ _ _ _ _ _) as [c2|fault c2|]; simpl in *; congruence.
Qed.

Lemma cal_finish_same k fault c : F (cal_finish k fault c).2 = F (c_afl c).
Proof using HF.
  unfold cal_finish, incr. cbn [snd]. destruct (c_var c); repeat (destruct (_ && _) || destruct (negb _));
    by rewrite ?(un_count F HF), ?(un_cal F HF), ?(un_count F HF), ?(un_cal F HF), ?(un_count F HF).
Qed.

Lemma cal_stats_same k idx handicap diff stage_max a : F (cal_stats k idx handicap diff stage_max a) = F a.
Proof using HF.
  unfold cal_stats. cbv zeta.
  by rewrite (un_score F HF), !(un_total F HF), (un_cal F HF), (un_us F HF), !(un_total F HF).
Qed.

Lemma select_target_same idx a : F (select_target idx a) = F a.
Proof using HF. unfold select_target. case_bool_decide; [done|apply (un_world F HF)]. Qed.

Lemma calibrate_case_same fuel k mem handicap from_queue stage_cur a fault a' :
  calibrate_case wb hash64 junk g fuel k mem handicap from_queue stage_cur a = Some (fault, a') -> F a' = F a.
Proof using HF.
  unfold calibrate_case. cbv zeta. set (use_tmout := if negb from_queue || _ then _ else _). clearbody use_tmout.
  set (c := Calib (select_target _ _) _ _ _).
  assert (Hc : F (c_afl c) = F a).
  { cbn [c_afl c]. rewrite select_target_same, (un_cal F HF). destruct (cmplog_mode g); [apply (un_cal F HF)|done]. }
  clearbody c. set (o := if cmplog_mode g then _ else _).
  assert (Ho : cal_same a o).
  { unfold o. destruct (cmplog_mode g); [|exact Hc]. pose proof (cal_run_same use_tmout mem stage_cur c) as Hr.
    destruct (cal_run _ _ _ _ _ _); simpl in *; congruence. }
  clearbody o. destruct o as [c1|fault1 c1|]; simpl in Ho; [| |done].
  2:{ intros E. apply (inj Some) in E. by rewrite <- (cal_finish_same k fault1 c1), E in Ho. }
  set (c2 := if negb _ then _ else c1).
  assert (H2 : F (c_afl c2) = F a).
  { unfold c2. destruct (negb _); [|done]. rewrite note_bits_same. cbn [c_afl]. by rewrite (un_first F HF). }
  pose proof (cal_loop_same fuel k use_tmout mem 0 c2) as Hl.
  destruct (cal_loop _ _ _ _ _ _ _ _ _ _) as [c3|fault3 c3|]; simpl in Hl; [| |done]; intros E; apply (inj Some) in E;
    apply (f_equal (fun x => F x.2)) in E; rewrite cal_finish_same in E; cbn [snd c_afl] in E.
  - by rewrite <- E, cal_stats_same, Hl.
  - by rewrite <- E, Hl.
Qed.
End untouched.

(** Calibration creates no files. *)
Definition files_of a : list (list Z) * list (list Z) * list (list Z) := (queue_files a, hang_files a, crash_files a).

Lemma files_untouched : untouched files_of.
Proof. by split. Qed.

Lemma run_target_files timeout input a : files_of (run_target timeout input a).2 = files_of a.
Proof. exact (run_target_same_of _ files_untouched timeout input a). Qed.

Lemma calibrate_case_files fuel k mem handicap from_queue stage_cur a fault a' :
  calibrate_case wb hash64 junk g fuel k mem handicap from_queue stage_cur a = Some (fault, a') ->
  files_of a' = files_of a.
Proof. exact (calibrate_case_same _ files_untouched fuel k mem handicap from_queue stage_cur a fault a'). Qed.

(** ** New entries *)

Lemma new_entry_adv mem funIdx a : advances n a (new_entry mem funIdx a).
Proof.
  clear Hwb Htraces. intros [H0 H1 H2 H3 H4 H5 H6 H7 H8 H9]. split; [split; simpl; try done|split; simpl; try done].
  - by apply add_to_queue_ok.
  - rewrite !length_app. simpl. lia.
  - by rewrite !map_app, H7.
  - by apply prefix_app_r.
Qed.

(** What follows adding a file to the queue. *)
Definition queued a mem (o : rout W unit) : Prop :=
  match o with
  | RDone _ a' =>
      advances n a a' /\ queue_files a' = queue_files a ++ [mem] /\ hang_files a' = hang_files a
      /\ crash_files a' = crash_files a
  | RFatal => True
  | RNoFuel => False
  end.

Lemma save_to_queue_queued fuel mem cksum new_bits stage_cur funIdx a :
  (20 <= fuel)%nat -> queued a mem (save_to_queue wb hash64 junk g fuel mem cksum new_bits stage_cur funIdx a).
Proof using Htraces Hwb.
  intros Hfuel. unfold save_to_queue. cbv zeta.
  set (k := length (queue_buf (af_queue a))). set (a0 := new_entry mem funIdx a).
  assert (Ha0 : advances n a a0) by apply new_entry_adv.
  set (a1 := if new_bits =? 2 then _ else a0).
  assert (Ha1 : advances n a a1 /\ files_of a1 = files_of a0).
  { unfold a1. destruct (new_bits =? 2); [|by split]. split; [|done].
    etrans; [exact Ha0|]. etrans; [apply on_cal_adv|]. by apply incr_adv. }
  set (a2 := if negb (cksum =? 0) then _ else a1).
  assert (Ha2 : advances n a a2 /\ files_of a2 = files_of a0).
  { destruct Ha1 as [Ha1 Hf]. unfold a2. destruct (negb (cksum =? 0)); [|by split]. split; [|exact Hf].
    etrans; [exact Ha1|]. by apply alter_entry_adv. }
  clearbody a1 a2. set (a3 := on_cal _ k a2). destruct Ha2 as [Ha2 Hf2].
  destruct (calibrate_case_adv k mem (u32 (queue_cycle g - 1)) false stage_cur a3 fuel Hfuel) as (fault & a4 & E & Ha4).
  pose proof (calibrate_case_files _ _ _ _ _ _ _ _ _ E) as Hf4. rewrite E.
  assert (Hdone : queued a mem (RDone tt a4)).
  { split; [etrans; [exact Ha2|]; etrans; [apply on_cal_adv|exact Ha4]|].
    assert (Hf : files_of a4 = (queue_files a ++ [mem], hang_files a, crash_files a)) by (rewrite Hf4; exact Hf2).
    unfold files_of in Hf. by simplify_eq. }
  by destruct fault.
Qed.

(** ** Judging *)

Lemma unique_trace_adv sel cl a : advances n a (unique_trace wb g sel cl a).2 /\ files_of (unique_trace wb g sel cl a).2 = files_of a.
Proof using Hwb.
  unfold unique_trace. destruct (non_instrumented_mode g); [split; [reflexivity|done]|].
  set (a1 := if cl then a else _).
  assert (Ha1 : advances n a a1 /\ files_of a1 = files_of a).
  { unfold a1. destruct cl; [split; [reflexivity|done]|]. split; [by apply classified_adv|done]. }
  clearbody a1. destruct Ha1 as [Ha1 Hf]. cbv zeta.
  set (a2 := set_fsrv _ a1).
  assert (Ha2 : advances n a1 a2).
  { intros H1. pose proof (ok_maps n a1 H1) as Hm. unfold a2, trace. apply set_trace_adv; [| |done].
    - rewrite (simplify_trace_bytewise wb _ _ Hwb Hm), length_map. rewrite (mo_trace _ _ Hm). apply H1.
    - rewrite (simplify_trace_bytewise wb _ _ Hwb Hm). apply Forall_map, Forall_true.
      intros b. unfold byte_ok. destruct (b =? 0); lia. }
  destruct (has_new_bits _ _ _ _) as [r vm] eqn:E. simpl. split; [|exact Hf].
  etrans; [exact Ha1|]. etrans; [exact Ha2|]. by apply (compare_adv n wb Hwb sel a2 r).
Qed.

(** One more crash sample, one more hang sample. *)
Lemma crash_adv mem a :
  af_count a saved_crashes < KEEP_UNIQUE_CRASH ->
  advances n a (incr saved_crashes (set_files (queue_files a) (hang_files a) (crash_files a ++ [mem]) a)).
Proof.
  clear Hwb Htraces. unfold KEEP_UNIQUE_CRASH. intros Hlt [H0 H1 H2 H3 H4 H5 H6 H7 H8 [H9 H9']].
  split; [split; simpl; try done|split; simpl; try done].
  - unfold KEEP_UNIQUE_CRASH. rewrite length_app. simpl. rewrite Z.mod_small by lia. lia.
  - by apply prefix_app_r.
Qed.

Lemma hang_adv mem a :
  af_count a saved_hangs < KEEP_UNIQUE_HANG ->
  advances n a (incr saved_hangs (set_files (queue_files a) (hang_files a ++ [mem]) (crash_files a) a)).
Proof.
  clear Hwb Htraces. unfold KEEP_UNIQUE_HANG. intros Hlt [H0 H1 H2 H3 H4 H5 H6 H7 [H8 H8'] H9].
  split; [split; simpl; try done|split; simpl; try done].
  - unfold KEEP_UNIQUE_HANG. rewrite length_app. simpl. rewrite Z.mod_small by lia. lia.
  - by apply prefix_app_r.
Qed.

(** A trace that is unique uses bits up. *)
Lemma unique_trace_weight sel cl a :
  afl_ok n a -> non_instrumented_mode g = false -> (unique_trace wb g sel cl a).1 = true ->
  weight (get_virgin sel (af_virgin (unique_trace wb g sel cl a).2)) < weight (get_virgin sel (af_virgin a)).
Proof using Hwb.
  intros Ha Hni. unfold unique_trace. rewrite Hni. cbv zeta.
  set (a1 := if cl then a else _).
  assert (Ha1 : afl_ok n a1) by (unfold a1; destruct cl; [done|by apply (classified_adv n wb Hwb)]).
  assert (Hv1 : af_virgin a1 = af_virgin a) by (unfold a1; by destruct cl). clearbody a1.
  set (f := set_trace _ _). cbn [af_fsrv af_virgin set_fsrv].
  assert (Hm : maps_ok f (af_virgin a1)).
  { pose proof (ok_maps n a1 Ha1) as Hm. unfold f, trace. rewrite (simplify_trace_bytewise wb _ _ Hwb Hm).
    destruct Hm. split; try done; simpl; [by rewrite length_map|]. apply Forall_map, Forall_true.
    intros b. unfold byte_ok. destruct (b =? 0); lia. }
  pose proof (has_new_bits_compared wb f sel (af_virgin a1) Hwb Hm) as Hc.
  pose proof (scanned_le wb Hwb _ _ Hm) as Hn.
  destruct (has_new_bits wb f sel (af_virgin a1)) as [r vm], Hc as [Hr Hmap _ _]. simpl.
  intros Hne%negb_true_iff%Z.eqb_neq. rewrite Hmap, <- Hv1. destruct Hm as [_ _ Ht Hv Htb Hvb].
  set (k := scanned wb f) in *. set (vir := get_virgin sel (af_virgin a1)) in *.
  assert (Hw : weight vir = weight (take k vir) + weight (drop k vir)) by (by rewrite <- weight_app, take_drop).
  rewrite weight_app, Hw. apply Z.add_lt_mono_r.
  apply hit_weight; [apply Forall_take, Hvb|unfold vir; rewrite !length_take; specialize (Hv sel); lia|].
  destruct (existsb hit _) eqn:E; [done|]. exfalso. apply Hne. rewrite Hr. apply no_hit_verdict; [by apply Forall_take|done].
Qed.

Lemma retry_adv mem a :
  advances n a (retry wb junk g mem a).2 /\ files_of (retry wb junk g mem a).2 = files_of a
  /\ af_count (retry wb junk g mem a).2 = af_count a.
Proof using Htraces Hwb.
  unfold retry. destruct (exec_tmout g <? hang_tmout g); [|split; [reflexivity|done]].
  pose proof (run_target_adv (hang_tmout g) (write_to_testcase junk g false mem) a) as H1.
  pose proof (run_target_files (hang_tmout g) (write_to_testcase junk g false mem) a) as H2.
  assert (H3 : af_count (run_target (hang_tmout g) (write_to_testcase junk g false mem) a).2 = af_count a).
  { unfold run_target. by destruct (fuzz_run_target _ _ _) as [[? ?] ?]. }
  destruct (run_target _ _ _) as [fault a1]. cbn [snd] in *. cbv zeta.
  assert (Ha : advances n a (classified_trace wb a1)) by (etrans; [exact H1|by apply classified_adv]).
  set (a2 := classified_trace wb a1) in *.
  assert (K : advances n a a2 /\ files_of a2 = files_of a /\ af_count a2 = af_count a) by done. clearbody a2.
  destruct (_ && _); [exact K|]. destruct (_ || _); exact K.
Qed.

Lemma unique_trace_count sel cl a : af_count (unique_trace wb g sel cl a).2 = af_count a.
Proof.
  unfold unique_trace. destruct (non_instrumented_mode g); [done|]. cbv zeta. destruct (has_new_bits _ _ _ _). by destruct cl.
Qed.

(** What a judgement leads to: the state in order, and a queue that grows only if the test
    case is reported as queued. *)
Definition judged a (o : rout W bool) : Prop :=
  match o with
  | RDone kept a' => afl_ok n a' /\ later a a' /\ (kept = false -> queue_files a' = queue_files a)
  | RFatal => True
  | RNoFuel => False
  end.

Lemma keep_crash_judged mem keeping cl a :
  afl_ok n a ->
  match keep_crash wb g mem keeping cl a with
  | RDone kept a' => kept = keeping /\ afl_ok n a' /\ later a a' /\ queue_files a' = queue_files a
  | _ => False
  end.
Proof using Hwb.
  intros Ha. unfold keep_crash. cbv zeta.
  assert (H1 : advances n a (incr total_crashes a)) by (by apply incr_adv).
  set (a1 := incr total_crashes a) in *. destruct (H1 Ha) as [Ha1 L1]. assert (Hf1 : files_of a1 = files_of a) by done.
  clearbody a1. destruct (Z.leb_spec KEEP_UNIQUE_CRASH (af_count a1 saved_crashes)) as [_|Hlt].
  { split; [done|]. split; [done|]. split; [done|]. by injection Hf1. }
  pose proof (unique_trace_adv VirginCrash cl a1) as [H2 Hf2]. pose proof (unique_trace_count VirginCrash cl a1) as Hc.
  destruct (unique_trace _ _ _ _ a1) as [unique a2]. cbn [snd] in *. destruct (H2 Ha1) as [Ha2 L2].
  assert (Hq : queue_files a2 = queue_files a) by (unfold files_of in *; congruence).
  destruct unique.
  - destruct (crash_adv mem a2 ltac:(by rewrite Hc) Ha2) as [Ha3 L3]. split; [done|]. split; [done|].
    split; [|exact Hq]. etrans; [exact L1|]. by etrans.
  - split; [done|]. split; [done|]. split; [by etrans|done].
Qed.

(** [goto save_to_queue] cannot go on for ever. *)
Definition patient (rounds : nat) a : Prop :=
  keep_timeouts g = false
  \/ non_instrumented_mode g = false /\ weight (virgin_tmout (af_virgin a)) < Z.of_nat rounds.

Lemma patient_later rounds a a' : afl_ok n a -> later a a' -> patient rounds a -> patient rounds a'.
Proof.
  clear Hwb Htraces. intros Ha L [H|[Hni H]]; [by left|right; split; [done|]].
  pose proof (fewer_weight _ _ (mo_virgin_ok _ _ (ok_maps n _ Ha) VirginTmout) (lt_virgin _ _ L VirginTmout)) as Hle.
  simpl in Hle. lia.
Qed.

Lemma retry_queue mem a : (retry wb junk g mem a).1.1 = Queue_it -> keep_timeouts g = true.
Proof.
  unfold retry. destruct (exec_tmout g <? hang_tmout g); [|done]. destruct (run_target _ _ _) as [fault a1]. cbv zeta.
  destruct (_ && _); [done|]. destruct (_ || _); [|done]. by destruct (keep_timeouts g).
Qed.

Lemma check_hang_ok mem cl a :
  afl_ok n a ->
  let '(r, mem', a') := check_hang wb junk g mem cl a in
  afl_ok n a' /\ later a a' /\ files_of a' = files_of a
  /\ (r = Hang -> af_count a' saved_hangs < KEEP_UNIQUE_HANG)
  /\ (r = Queue_it -> keep_timeouts g = true)
  /\ (r <> Drop -> non_instrumented_mode g = false ->
      weight (virgin_tmout (af_virgin a')) < weight (virgin_tmout (af_virgin a))).
Proof using Htraces Hwb.
  intros Ha. unfold check_hang. cbv zeta.
  assert (H1 : advances n a (incr total_tmouts a)) by (by apply incr_adv).
  set (a1 := incr total_tmouts a) in *. destruct (H1 Ha) as [Ha1 L1].
  assert (Hf1 : files_of a1 = files_of a) by done. assert (Hv1 : af_virgin a1 = af_virgin a) by done. clearbody a1.
  destruct (Z.leb_spec KEEP_UNIQUE_HANG (af_count a1 saved_hangs)) as [_|Hlt]; [done|].
  pose proof (unique_trace_adv VirginTmout cl a1) as [H2 Hf2]. pose proof (unique_trace_count VirginTmout cl a1) as Hc2.
  pose proof (fun Hni => unique_trace_weight VirginTmout cl a1 Ha1 Hni) as Hw.
  destruct (unique_trace _ _ _ _ a1) as [unique a2]. cbn [fst snd] in *. destruct (H2 Ha1) as [Ha2 L2].
  destruct unique; [|split; [done|]; split; [by etrans|]; split; [congruence|done]].
  pose proof (retry_adv mem a2) as (H3 & Hf3 & Hc3). pose proof (retry_queue mem a2) as Hq.
  destruct (retry _ _ _ mem a2) as [[r mem'] a3] eqn:Er. cbn [fst snd] in *. destruct (H3 Ha2) as [Ha3 L3].
  split; [done|]. split; [etrans; [exact L1|]; by etrans|]. split; [congruence|]. split; [by rewrite Hc3, Hc2|].
  split; [done|]. intros _ Hni. specialize (Hw Hni eq_refl). rewrite Hv1 in Hw. simpl in Hw.
  pose proof (fewer_weight _ _ (mo_virgin_ok _ _ (ok_maps n a2 Ha2) VirginTmout) (lt_virgin _ _ L3 VirginTmout)) as Hle.
  simpl in Hle. clear Hwb. lia.
Qed.

Lemma judge_judged rounds fuel fault mem cksum new_bits stage_cur funIdx keeping cl a :
  (20 <= fuel)%nat -> afl_ok n a -> patient rounds a ->
  match judge wb hash64 junk g rounds fuel fault mem cksum new_bits stage_cur funIdx keeping cl a with
  | RDone kept a' => afl_ok n a' /\ later a a' /\ (kept = keeping /\ queue_files a' = queue_files a \/ kept = true)
  | RFatal => True
  | RNoFuel => False
  end.
Proof using Htraces Hwb.
  intros Hfuel. revert mem keeping cl a. induction rounds as [|rounds IH]; intros mem keeping cl a Ha Hp; cbn [judge];
    (destruct fault; [split; [done|]; split; [reflexivity|by left]| |pose proof (keep_crash_judged mem keeping cl a Ha) as Hk;
       destruct (keep_crash _ _ _ _ _ _); [|done|done]; destruct Hk as (-> & H1 & H2 & H3); split; [done|]; split; [done|by left]|done|split; [done|]; split; [reflexivity|by left]|
       split; [done|]; split; [reflexivity|by left]]);
    pose proof (check_hang_ok mem cl a Ha) as Hc; destruct (check_hang _ _ _ _ _ _) as [[r mem'] a1];
    destruct Hc as (Ha1 & L1 & Hf1 & Hh & Hk & Hw); injection Hf1 as Hq1 _ _;
    (destruct r; [| | |split; [done|]; split; [done|by left]]).
  1, 4: destruct (hang_adv mem' a1 (Hh eq_refl) Ha1) as [Ha2 L2]; split; [done|]; split; [by etrans|by left].
  1, 3: pose proof (keep_crash_judged mem' keeping (cl || negb (non_instrumented_mode g)) a1 Ha1) as Hkc;
    destruct (keep_crash _ _ _ _ _ _); [|done|done]; destruct Hkc as (-> & H1 & H2 & H3);
    split; [done|]; split; [by etrans|left; split; [done|congruence]].
  - destruct Hp as [Hp|[Hni Hp]]; [rewrite Hk in Hp by done; done|]. specialize (Hw ltac:(done) Hni).
    pose proof (weight_nonneg _ (mo_virgin_ok _ _ (ok_maps n a1 Ha1) VirginTmout)) as Hpos. simpl in Hpos. clear Hwb. lia.
  - assert (H2 : advances n a1 (incr saved_tmouts a1)) by (by apply incr_adv). destruct (H2 Ha1) as [Ha2 L2].
    pose proof (save_to_queue_queued fuel mem' cksum new_bits stage_cur funIdx (incr saved_tmouts a1) Hfuel) as Hs.
    destruct (save_to_queue _ _ _ _ _ _ _ _ _ _ _) as [u a3| |]; [|done|done]. destruct Hs as (Hs & _).
    destruct (Hs Ha2) as [Ha3 L3].
    assert (Hp3 : patient rounds a3).
    { destruct Hp as [Hp|[Hni Hp]]; [by left|right; split; [done|]]. specialize (Hw ltac:(done) Hni).
      pose proof (fewer_weight _ _ (mo_virgin_ok _ _ (ok_maps n _ Ha2) VirginTmout) (lt_virgin _ _ L3 VirginTmout)) as Hle.
      simpl in Hle, Hw. clear Hwb. lia. }
    specialize (IH mem' true (cl || negb (non_instrumented_mode g)) a3 Ha3 Hp3).
    destruct (judge _ _ _ _ _ _ _ _ _ _ _ _ _ _ _) as [kept a4| |]; [|done|done]. destruct IH as (Ha4 & L4 & Hk4).
    split; [done|]. split; [|right; by destruct Hk4 as [[-> _]| ->]].
    etrans; [exact L1|]. etrans; [exact L2|]. by etrans.
Qed.

(** ** Saving *)

Lemma count_path_adv a :
  advances n a (count_path hash64 a).2 /\ files_of (count_path hash64 a).2 = files_of a
  /\ af_fsrv (count_path hash64 a).2 = af_fsrv a /\ af_virgin (count_path hash64 a).2 = af_virgin a.
Proof.
  unfold count_path. destruct (_ && _); [|split; [reflexivity|done]]. cbn [snd]. split; [|done].
  intros Ha. apply set_queue_adv; [|done|done|done]. apply (top_ok_same (af_queue a)); [done|done| |apply Ha].
  intros p q' Hq'. by exists q'.
Qed.

(** Is a bit of the classified trace still in a virgin map? *)
Definition hits a : bool :=
  existsb hit (zip (map count_class (take (scanned wb (af_fsrv a)) (trace a)))
                   (take (scanned wb (af_fsrv a)) (virgin_bits (af_virgin a)))).

(** The comparison at the start of [save_if_interesting]. *)
Lemma compare_unclassified a r f vm :
  afl_ok n a -> has_new_bits_unclassified wb init_count_class16 (af_fsrv a) VirginBits (af_virgin a) = (r, f, vm) ->
  afl_ok n (set_virgins vm (set_fsrv f a)) /\ later a (set_virgins vm (set_fsrv f a))
  /\ (r =? 0) = negb (hits a)
  /\ existsb hit (zip (map count_class (take (scanned wb (af_fsrv a)) (trace a)))
                      (take (scanned wb (af_fsrv a)) (virgin_bits vm))) = false.
Proof using Hwb.
  intros Ha E. pose proof (ok_maps n a Ha) as Hm.
  pose proof (unclassified_compared wb (af_fsrv a) VirginBits (af_virgin a) Hwb Hm) as Hu. rewrite E in Hu.
  set (cl := classify_counts wb init_count_class16 (af_fsrv a)) in *. destruct Hu as (Heq & Hf & _).
  pose proof (classify_counts_ok wb Hwb _ _ Hm) as Hmc. fold cl in Hmc.
  pose proof (classify_counts_map wb Hwb _ _ Hm) as Hmap. fold cl in Hmap.
  pose proof (has_new_bits_compared wb cl VirginBits (af_virgin a) Hwb Hmc) as Hc. rewrite <- Heq in Hc.
  destruct Hc as [Hr Hv _ _]. pose proof (scanned_le wb Hwb _ _ Hm) as Hn.
  change (scanned wb cl) with (scanned wb (af_fsrv a)) in *. set (k := scanned wb (af_fsrv a)) in *.
  rewrite Hmap in Hr, Hv. change (get_virgin VirginBits vm) with (virgin_bits vm) in Hv.
  change (get_virgin VirginBits (af_virgin a)) with (virgin_bits (af_virgin a)) in *. rewrite firstn_map in Hr, Hv.
  set (cur := map count_class (take k (trace_bits (af_fsrv a)))) in *.
  assert (Hcur : Forall byte_ok cur).
  { unfold cur. rewrite <- firstn_map, <- Hmap. apply Forall_take, Hmc. }
  assert (Hlen : length cur = length (take k (virgin_bits (af_virgin a)))).
  { unfold cur. rewrite length_map, !length_take. pose proof (mo_trace _ _ Hm). pose proof (mo_virgin _ _ Hm VirginBits) as Hl.
    simpl in Hl. clear Hwb. lia. }
  destruct (compare_adv n wb Hwb VirginBits (classified_trace wb a) r vm (eq_sym Heq)) as [Ha' L'];
    [by apply (classified_adv n wb Hwb)|].
  assert (Hstep : afl_ok n (set_virgins vm (set_fsrv f a)) /\ later a (set_virgins vm (set_fsrv f a))).
  { destruct Hf as [[-> Hr0]| ->].
    - split; [|by destruct L'; split]. destruct Ha' as [? [] ? ? ? ? ? ? ? ?], Ha as [? [] ? ? ? ? ? ? ? ?]. split; done.
    - split; [exact Ha'|]. by destruct L'; split. }
  split; [apply Hstep|]. split; [apply Hstep|]. split.
  - rewrite Hr. unfold hits, trace. fold k cur. destruct (existsb hit _) eqn:Eh.
    + apply Z.eqb_neq. intros H0. apply no_hit_verdict in H0; [congruence|done].
    + apply Z.eqb_eq. by apply no_hit_verdict.
  - unfold trace. fold k cur. rewrite Hv, take_app_length'.
    + apply no_hit_verdict; [done|]. by apply verdict_cleared.
    + unfold clear_seen. rewrite length_zip_with, Hlen, length_take. pose proof (mo_virgin _ _ Hm VirginBits) as Hl.
      simpl in Hl. clear Hwb. lia.
Qed.

Lemma save_judged rounds fuel mem fault stage_cur funIdx a :
  (20 <= fuel)%nat -> afl_ok n a -> patient rounds a ->
  match save_if_interesting wb hash64 junk g rounds fuel mem fault stage_cur funIdx a with
  | RDone kept a' => afl_ok n a' /\ later a a'
  | RFatal => True
  | RNoFuel => False
  end.
Proof using Htraces Hwb.
  intros Hfuel Ha Hp. unfold save_if_interesting. destruct (Nat.eqb _ 0); [by split|].
  pose proof (count_path_adv a) as (H1 & _ & _ & Hv1). destruct (count_path hash64 a) as [cksum a1]. cbn [snd] in *.
  destruct (H1 Ha) as [Ha1 L1]. assert (Hp1 : patient rounds a1) by (unfold patient; by rewrite Hv1).
  case_bool_decide as Hcm.
  - destruct (has_new_bits_unclassified _ _ _ _ _) as [[r f] vm] eqn:Eu. cbv zeta.
    destruct (compare_unclassified a1 r f vm Ha1 Eu) as (Ha2 & L2 & _). set (a2 := set_virgins vm _) in *.
    assert (Hp2 : patient rounds a2) by (by apply (patient_later rounds a1)).
    destruct (r =? 0).
    + destruct (bool_decide _); [split; [done|by etrans]|].
      assert (H3 : advances n a2 (incr total_crashes a2)) by (by apply incr_adv).
      destruct (H3 Ha2) as [Ha3 L3]. split; [done|]. etrans; [exact L1|]. by etrans.
    + pose proof (save_to_queue_queued fuel mem cksum r stage_cur funIdx a2 Hfuel) as Hs.
      destruct (save_to_queue _ _ _ _ _ _ _ _ _ _ _) as [u a3| |]; [|done|done]. destruct Hs as (Hs & _).
      destruct (Hs Ha2) as [Ha3 L3].
      assert (Hp3 : patient rounds a3) by (by apply (patient_later rounds a2)).
      pose proof (judge_judged rounds fuel fault mem cksum r stage_cur funIdx true true a3 Hfuel Ha3 Hp3) as Hj.
      destruct (judge _ _ _ _ _ _ _ _ _ _ _ _ _ _ _); [|done|done]. destruct Hj as (Ha4 & L4 & _). split; [done|].
      etrans; [exact L1|]. etrans; [exact L2|]. by etrans.
  - pose proof (judge_judged rounds fuel fault mem cksum 0 stage_cur funIdx false false a1 Hfuel Ha1 Hp1) as Hj.
    destruct (judge _ _ _ _ _ _ _ _ _ _ _ _ _ _ _); [|done|done]. destruct Hj as (Ha4 & L4 & _). split; [done|by etrans].
Qed.

(** A normal result: the test case is queued exactly if the trace has a new bit. *)
Lemma save_normal rounds fuel mem stage_cur funIdx a :
  (20 <= fuel)%nat -> afl_ok n a -> mem <> [] -> crash_mode g = FSRV_RUN_OK ->
  match save_if_interesting wb hash64 junk g rounds fuel mem FSRV_RUN_OK stage_cur funIdx a with
  | RDone kept a' =>
      kept = hits a /\ afl_ok n a' /\ later a a'
      /\ queue_files a' = queue_files a ++ (if kept then [mem] else [])
      /\ hang_files a' = hang_files a /\ crash_files a' = crash_files a
      /\ existsb hit (zip (map count_class (take (scanned wb (af_fsrv a)) (trace a)))
                          (take (scanned wb (af_fsrv a)) (virgin_bits (af_virgin a')))) = false
  | RFatal => hits a = true
  | RNoFuel => False
  end.
Proof using Htraces Hwb.
  intros Hfuel Ha Hmem Hcm. unfold save_if_interesting.
  destruct (Nat.eqb_spec (length mem) 0) as [H0|_]; [by destruct mem|].
  pose proof (count_path_adv a) as (H1 & Hf1 & Hs1 & Hv1). destruct (count_path hash64 a) as [cksum a1]. cbn [snd] in *.
  destruct (H1 Ha) as [Ha1 L1]. rewrite bool_decide_eq_true_2 by done.
  assert (Hh : hits a1 = hits a) by (unfold hits, trace; by rewrite Hs1, Hv1).
  destruct (has_new_bits_unclassified _ _ _ _ _) as [[r f] vm] eqn:Eu. cbv zeta.
  destruct (compare_unclassified a1 r f vm Ha1 Eu) as (Ha2 & L2 & Hr & Hno). unfold trace in Hno. rewrite Hs1 in Hno.
  rewrite Hh in Hr. rewrite Hr. set (a2 := set_virgins vm _) in *.
  assert (Hf2 : files_of a2 = files_of a) by exact Hf1. injection Hf2 as Hq2 Hg2 Hc2.
  destruct (hits a) eqn:Ehit; cbn [negb].
  - pose proof (save_to_queue_queued fuel mem cksum r stage_cur funIdx a2 Hfuel) as Hs.
    destruct (save_to_queue _ _ _ _ _ _ _ _ _ _ _) as [u a3| |]; [|done|done]. destruct Hs as (Hs & Hq & Hg & Hc).
    destruct (Hs Ha2) as [Ha3 L3]. destruct rounds; cbn [judge]; (split_and!; [done|done| |by rewrite Hq; exact (f_equal (.++ [mem]) Hq2)|by rewrite Hg|by rewrite Hc|]).
    1, 3: etrans; [exact L1|]; by etrans.
    all: refine (no_hit_fewer _ _ _ _ Hno); apply fewer_take; apply (lt_virgin _ _ L3 VirginBits).
  - rewrite bool_decide_eq_true_2 by done. split_and!; [done|done|by etrans|by rewrite app_nil_r|done|done|exact Hno].
Qed.

Lemma common_fuzz_stuff_ok rounds fuel stage_cur funIdx out_buf a :
  (20 <= fuel)%nat -> afl_ok n a -> patient rounds a ->
  match common_fuzz_stuff wb hash64 junk g rounds fuel stage_cur funIdx out_buf a with
  | RDone _ a' => afl_ok n a' /\ later a a'
  | RFatal => True
  | RNoFuel => False
  end.
Proof using Htraces Hwb.
  intros Hfuel Ha Hp. unfold common_fuzz_stuff. cbv zeta. destruct (Nat.eqb _ 0); [by split|].
  pose proof (run_target_adv (exec_tmout g) (write_to_testcase junk g false out_buf) a) as H1.
  destruct (run_target _ _ _) as [fault a1]. cbn [snd] in H1. destruct (H1 Ha) as [Ha1 L1].
  destruct (stop_soon _); [by split|].
  set (x := if bool_decide (fault = FSRV_RUN_TMOUT) then _ else _).
  assert (H2 : advances n a1 x.2) by (unfold x; destruct (bool_decide _); simpl; by apply set_count_adv).
  destruct x as [over a2]. cbn [snd] in H2. destruct (H2 Ha1) as [Ha2 L2]. assert (L12 : later a a2) by (by etrans).
  destruct over.
  { assert (H3 : advances n a2 (incr cur_skipped_items a2)) by (by apply incr_adv).
    destruct (H3 Ha2) as [Ha3 L3]. split; [done|by etrans]. }
  destruct (skip_requested _).
  { assert (H3 : advances n a2 (incr cur_skipped_items (set_world (clear_skip (af_world a2)) a2)))
      by (etrans; [apply (set_world_adv n (clear_skip (af_world a2)))|by apply incr_adv]).
    destruct (H3 Ha2) as [Ha3 L3]. split; [done|by etrans]. }
  pose proof (save_judged rounds fuel (write_to_testcase junk g false out_buf) fault stage_cur funIdx a2 Hfuel Ha2
    (patient_later _ _ _ Ha L12 Hp)) as Hs.
  destruct (save_if_interesting _ _ _ _ _ _ _ _ _ _ _) as [kept a3| |]; [|done|done]. destruct Hs as [Ha3 L3].
  match goal with |- afl_ok n ?a4 /\ _ => assert (H4 : advances n a3 a4) by (by apply set_count_adv) end.
  destruct (H4 Ha3) as [Ha4 L4]. split; [done|]. etrans; [exact L12|]. by etrans.
Qed.

(** ** Sequences of test cases *)

Definition fuzz_step (rounds fuel : nat) a a' : Prop :=
  exists stage_cur funIdx buf abandon,
    common_fuzz_stuff wb hash64 junk g rounds fuel stage_cur funIdx buf a = RDone abandon a'.

Lemma fuzz_steps_ok rounds fuel a a' :
  (20 <= fuel)%nat -> afl_ok n a -> patient rounds a -> rtc (fuzz_step rounds fuel) a a' ->
  afl_ok n a' /\ later a a' /\ patient rounds a'.
Proof using Htraces Hwb.
  intros Hfuel Ha Hp Hs. induction Hs as [a|a b a' (stage_cur & funIdx & buf & r & E) _ IH]; [done|].
  pose proof (common_fuzz_stuff_ok rounds fuel stage_cur funIdx buf a Hfuel Ha Hp) as Hc. rewrite E in Hc.
  destruct Hc as [Hb L]. destruct (IH Hb (patient_later _ _ _ Ha L Hp)) as (H1 & H2 & H3).
  split; [done|]. split; [by etrans|done].
Qed.

Lemma run_target_same timeout input a :
  af_virgin (run_target timeout input a).2 = af_virgin a
  /\ queue_files (run_target timeout input a).2 = queue_files a.
Proof. unfold run_target. by destruct (fuzz_run_target _ _ _) as [[? ?] ?]. Qed.

(** After a test case that ended normally, nothing of its trace is new. *)
Lemma fuzzed_seen rounds fuel stage_cur funIdx buf a a1 b :
  (20 <= fuel)%nat -> afl_ok n a -> crash_mode g = FSRV_RUN_OK -> write_to_testcase junk g false buf <> [] ->
  run_target (exec_tmout g) (write_to_testcase junk g false buf) a = (FSRV_RUN_OK, b) ->
  common_fuzz_stuff wb hash64 junk g rounds fuel stage_cur funIdx buf a = RDone false a1 ->
  all_seen (scanned wb (af_fsrv b)) (trace b) (virgin_bits (af_virgin a1)).
Proof using Htraces Hwb.
  intros Hfuel Ha Hcm Hne Er. unfold common_fuzz_stuff. cbv zeta. destruct (Nat.eqb_spec (length (write_to_testcase junk g false buf)) 0) as [H0|_].
  { by apply length_zero_iff_nil in H0. }
  pose proof (run_target_adv (exec_tmout g) (write_to_testcase junk g false buf) a) as H1. rewrite Er in H1 |- *. cbn [snd] in H1.
  destruct (H1 Ha) as [Hb _]. destruct (stop_soon _); [done|]. rewrite bool_decide_eq_false_2 by done.
  set (b' := set_count _ _ b). assert (H2 : advances n b b') by (by apply set_count_adv). destruct (H2 Hb) as [Hb' _].
  destruct (skip_requested _); [done|].
  pose proof (save_normal rounds fuel (write_to_testcase junk g false buf) stage_cur funIdx b' Hfuel Hb' Hne Hcm) as Hs.
  destruct (save_if_interesting _ _ _ _ _ _ _ _ _ _ _) as [kept a3| |]; [|done|done].
  destruct Hs as (_ & _ & _ & _ & _ & _ & Hno). intros E. apply (f_equal (fun o => match o with RDone _ x => virgin_bits (af_virgin x) | _ => [] end)) in E.
  simpl in E. rewrite <- E. apply no_hit_all_seen; [|exact Hno]. apply (ok_maps n b Hb).
Qed.

(** A test case whose trace was seen is not queued. *)
Lemma seen_fuzzed rounds fuel stage_cur funIdx buf a a1 b r :
  (20 <= fuel)%nat -> afl_ok n a -> crash_mode g = FSRV_RUN_OK ->
  run_target (exec_tmout g) (write_to_testcase junk g false buf) a = (FSRV_RUN_OK, b) ->
  all_seen (scanned wb (af_fsrv b)) (trace b) (virgin_bits (af_virgin b)) ->
  common_fuzz_stuff wb hash64 junk g rounds fuel stage_cur funIdx buf a = RDone r a1 ->
  queue_files a1 = queue_files a.
Proof using Htraces Hwb.
  intros Hfuel Ha Hcm Er Hall. unfold common_fuzz_stuff. cbv zeta.
  destruct (Nat.eqb_spec (length (write_to_testcase junk g false buf)) 0) as [H0|Hne]; [by intros [= _ <-]|].
  pose proof (run_target_adv (exec_tmout g) (write_to_testcase junk g false buf) a) as H1.
  pose proof (run_target_same (exec_tmout g) (write_to_testcase junk g false buf) a) as [_ Hq].
  rewrite Er in H1, Hq |- *. cbn [snd] in H1, Hq. rewrite <- Hq.
  destruct (H1 Ha) as [Hb _]. destruct (stop_soon _); [by intros [= _ <-]|]. rewrite bool_decide_eq_false_2 by done.
  set (b' := set_count _ _ b). assert (H2 : advances n b b') by (by apply set_count_adv). destruct (H2 Hb) as [Hb' _].
  destruct (skip_requested _); [by intros [= _ <-]|].
  pose proof (save_normal rounds fuel (write_to_testcase junk g false buf) stage_cur funIdx b' Hfuel Hb') as Hs.
  specialize (Hs ltac:(intros E; by rewrite E in Hne) Hcm).
  assert (Hh : hits b' = false).
  { apply no_hit_all_seen; [apply (ok_maps n b Hb)|exact Hall]. }
  destruct (save_if_interesting _ _ _ _ _ _ _ _ _ _ _) as [kept a3| |]; [|done|done].
  destruct Hs as (-> & _ & _ & Hqf & _). rewrite Hh, app_nil_r in Hqf. intros E.
  apply (f_equal (fun o => match o with RDone _ x => queue_files x | _ => [] end)) in E. simpl in E. by rewrite <- E, Hqf.
Qed.
End running.
