(* ===== verification/FuzzLoop.v ===== *)
(** * The judgement of test cases, over whole sequences of them

    Theorems on [save_if_interesting] and [common_fuzz_stuff] (Run.v), from the lemmas of
    RunTheorems.v: what is queued, that nothing is queued twice, that the judgement ends,
    and the configuration in which it does not. *)
From S2P Require Import Prelude Bitmap Alloc Queue Trim Run RunTheorems.

(** ** Time limits that are not kept *)

Section timeouts.
Context {W : Type} `{!Executor W} `{!Forkserver W}.
Context (n : Z) (wb : nat) (Hwb : wb = 4%nat \/ wb = 8%nat) (hash64 : list Z -> Z) (junk : Z) (g : run_cfg).
Hypothesis Htraces : traces_ok (W:=W) n.
(** The target starts, and nobody stops the fuzzer. *)
Hypothesis Hstarts : forall (w : W) timeout input, (fuzz_run_target w timeout input).1.1 <> FSRV_RUN_ERROR.
Hypothesis Hgoes_on : forall w : W, stop_soon w = false.
Hypothesis Hmode : crash_mode g = FSRV_RUN_OK.
Implicit Types (a : afl_state W) (c : calib (W:=W)).

Definition not_error (o : cal_out (W:=W)) : Prop :=
  match o with CalAborted fault _ => fault <> FSRV_RUN_ERROR | _ => True end.

Lemma cal_run_not_error use_tmout mem cur c : not_error (cal_run junk g use_tmout mem cur c).
Proof using Hstarts.
  unfold cal_run, run_target. pose proof (Hstarts (af_world (c_afl c)) use_tmout (write_to_testcase junk g true mem)) as H.
  destruct (fuzz_run_target _ _ _) as [[fault t] w]. cbn [fst] in H. cbv zeta. destruct (_ || _); [exact H|].
  by destruct (_ && (_ =? 0)).
Qed.

Lemma cal_loop_not_error fuel k use_tmout mem cur c :
  not_error (cal_loop wb hash64 junk g fuel k use_tmout mem cur c).
Proof using Hstarts.
  revert cur c. induction fuel as [|fuel IH]; intros cur c; cbn [cal_loop]; destruct (cur <? c_max c); try done.
  pose proof (cal_run_not_error use_tmout mem cur c) as H. destruct (cal_run _ _ _ _ _ _); [apply IH|exact H|done].
Qed.

Lemma calibrate_case_not_error fuel k mem handicap from_queue stage_cur a fault a' :
  calibrate_case wb hash64 junk g fuel k mem handicap from_queue stage_cur a = Some (fault, a') ->
  fault <> FSRV_RUN_ERROR.
Proof using Hstarts Hmode.
  unfold calibrate_case. cbv zeta. set (use_tmout := if negb from_queue || _ then _ else _). clearbody use_tmout.
  set (c := Calib (select_target _ _) _ _ _). clearbody c. set (o := if cmplog_mode g then _ else _).
  assert (Ho : not_error o) by (unfold o; destruct (cmplog_mode g); [apply cal_run_not_error|done]).
  clearbody o. destruct o as [c1|fault1 c1|]; [| |done].
  2:{ intros E. apply (inj Some) in E. unfold cal_finish in E. apply (f_equal fst) in E. simpl in E. by subst. }
  set (c2 := if negb _ then _ else c1). pose proof (cal_loop_not_error fuel k use_tmout mem 0 c2) as Hl.
  destruct (cal_loop _ _ _ _ _ _ _ _ _ _) as [c3|fault3 c3|]; [| |done]; intros E; apply (inj Some) in E;
    unfold cal_finish in E; apply (f_equal fst) in E; simpl in E; subst fault; [|exact Hl].
  destruct (_ && _); [done|]. by rewrite Hmode.
Qed.

Lemma save_to_queue_done fuel mem cksum new_bits stage_cur funIdx a :
  (20 <= fuel)%nat ->
  exists a', save_to_queue wb hash64 junk g fuel mem cksum new_bits stage_cur funIdx a = RDone tt a'
    /\ advances n a a' /\ queue_files a' = queue_files a ++ [mem] /\ hang_files a' = hang_files a.
Proof using Hwb Htraces Hstarts Hmode.
  intros Hfuel. pose proof (save_to_queue_queued n wb Hwb hash64 junk g Htraces fuel mem cksum new_bits stage_cur funIdx a Hfuel) as Hs.
  destruct (save_to_queue _ _ _ _ _ _ _ _ _ _ a) as [[] a'| |] eqn:E; [|exfalso|done].
  - exists a'. by destruct Hs as (? & ? & ? & _).
  - unfold save_to_queue in E. cbv zeta in E.
    destruct (calibrate_case _ _ _ _ _ _ _ _ _ _ _) as [[fault b]|] eqn:Ec; [|done].
    apply calibrate_case_not_error in Ec. by destruct fault.
Qed.

(** A normal run of a test case ends in a new state, never in a fatal error. *)
Lemma save_done rounds fuel mem stage_cur funIdx a :
  (20 <= fuel)%nat -> afl_ok n a ->
  save_if_interesting wb hash64 junk g rounds fuel mem FSRV_RUN_OK stage_cur funIdx a <> RFatal.
Proof using Hwb Htraces Hstarts Hmode.
  intros Hfuel Ha. unfold save_if_interesting. destruct (Nat.eqb _ 0); [done|].
  destruct (count_path hash64 a) as [cksum a1]. rewrite bool_decide_eq_true_2 by done.
  destruct (has_new_bits_unclassified _ _ _ _ _) as [[r f] vm]. cbv zeta. destruct (r =? 0); [done|].
  destruct (save_to_queue_done fuel mem cksum r stage_cur funIdx (set_virgins vm (set_fsrv f a1)) Hfuel) as (a3 & -> & _).
  by destruct rounds.
Qed.

(** The target needs more than [exec_tmout], but less than [hang_tmout]. *)
Hypothesis Hslow : forall (w : W) input,
  (fuzz_run_target w (hang_tmout g) input).1.1 = FSRV_RUN_OK.

Lemma check_hang_again mem cl a :
  non_instrumented_mode g = true -> keep_timeouts g = true -> exec_tmout g < hang_tmout g ->
  af_count a saved_hangs < KEEP_UNIQUE_HANG ->
  (check_hang wb junk g mem cl a).1.1 = Queue_it.
Proof using Hgoes_on Hslow.
  intros Hni Hk Hlt Hs. unfold check_hang, unique_trace, retry. rewrite Hni. cbv zeta.
  replace (KEEP_UNIQUE_HANG <=? _) with false by (symmetry; apply Z.leb_gt; exact Hs).
  replace (exec_tmout g <? hang_tmout g) with true by (symmetry; by apply Z.ltb_lt).
  unfold run_target. pose proof (Hslow (af_world (incr total_tmouts a)) (write_to_testcase junk g false mem)) as H.
  destruct (fuzz_run_target _ _ _) as [[fault t] w]. cbn [fst] in H. subst fault. rewrite Hgoes_on, Hk. done.
Qed.

Lemma judge_again rounds fuel mem cksum new_bits stage_cur funIdx keeping cl a :
  (20 <= fuel)%nat -> afl_ok n a ->
  non_instrumented_mode g = true -> keep_timeouts g = true -> exec_tmout g < hang_tmout g ->
  af_count a saved_hangs < KEEP_UNIQUE_HANG ->
  judge wb hash64 junk g rounds fuel FSRV_RUN_TMOUT mem cksum new_bits stage_cur funIdx keeping cl a = RNoFuel.
Proof using Hwb Htraces Hstarts Hgoes_on Hmode Hslow.
  intros Hfuel Ha Hni Hk Hlt. revert mem keeping cl a Ha.
  induction rounds as [|rounds IH]; intros mem keeping cl a Ha Hs; cbn [judge];
    pose proof (check_hang_again mem cl a Hni Hk Hlt Hs) as Hq;
    pose proof (check_hang_ok n wb Hwb junk g Htraces mem cl a Ha) as Hc;
    destruct (check_hang _ _ _ _ _ _) as [[r mem'] a1]; cbn [fst] in Hq; subst r; [done|].
  destruct Hc as (Ha1 & _ & Hf1 & _). injection Hf1 as _ Hh1 _.
  assert (H2 : advances n a1 (incr saved_tmouts a1)) by (by apply incr_adv). destruct (H2 Ha1) as [Ha2 _].
  destruct (save_to_queue_done fuel mem' cksum new_bits stage_cur funIdx (incr saved_tmouts a1) Hfuel) as (a3 & -> & H3 & _ & Hh3).
  destruct (H3 Ha2) as [Ha3 _]. apply IH; [done|].
  rewrite (proj1 (ok_hangs n a3 Ha3)), Hh3. rewrite (proj1 (ok_hangs n a Ha)) in Hs.
  change (hang_files (incr saved_tmouts a1)) with (hang_files a1). by rewrite Hh1.
Qed.
End timeouts.

(** ** The state before the first test case *)

Section start.
Context {W : Type}.

Definition afl_start (n : Z) (sched : Z) (fixed : bool) (targets : list bool) (w : W) : afl_state W :=
  Afl (queue_init n sched fixed targets) []
    {| virgin_bits := replicate (Z.to_nat n) 255; virgin_tmout := replicate (Z.to_nat n) 255;
       virgin_crash := replicate (Z.to_nat n) 255; bitmap_changed := 0 |}
    {| trace_bits := replicate (Z.to_nat n) 0; map_size := n; real_map_size := n |}
    (replicate (Z.to_nat n) 0) (replicate (Z.to_nat n) 0) (fun _ => 0) (fun _ => map (fun _ => 0) targets) [] [] [] w.

Lemma afl_start_ok n sched fixed targets w :
  0 <= n < 2 ^ 32 -> n `mod` 64 = 0 -> afl_ok n (afl_start n sched fixed targets w).
Proof.
  intros Hn Hd. split; simpl; rewrite ?length_replicate; try done; try lia.
  - split; simpl; rewrite ?length_replicate; try done; try lia; [intros []|apply Forall_replicate|intros []];
      simpl; rewrite ?length_replicate; try lia; try (apply Forall_replicate); unfold byte_ok; lia.
  - apply Forall2_same_length_lookup_2; [by rewrite !length_replicate|].
    intros i x v Hx%lookup_replicate Hv. by destruct Hx as [-> _].
  - apply queue_init_ok. lia.
Qed.
End start.

(** ** Theorems *)

Lemma map_count_class t : Forall byte_ok t -> map count_class t = map bucket t.
Proof. intros H. apply map_ext_Forall. by refine (Forall_impl _ _ _ H count_class_bucket). Qed.

Section theorems.
Context {W : Type} `{!Executor W} `{!Forkserver W}.
Context (n : Z) (wb : nat) (hash64 : list Z -> Z) (junk : Z) (g : run_cfg).
Implicit Types a : afl_state W.

(** C4: for a test case that the target ends normally on, [save_if_interesting] queues it
    exactly if some byte of the trace has a hit count in a bucket that the virgin map still
    waits for; nothing becomes a hang or crash sample, the trace is then known, and the
    function returns.  (It gives up only if the target cannot be started again to calibrate
    the new entry.) *)
Theorem save_if_interesting_correct rounds fuel mem stage_cur funIdx a :
  wb = 4%nat \/ wb = 8%nat -> traces_ok (W:=W) n -> (20 <= fuel)%nat -> afl_ok n a -> mem <> [] ->
  crash_mode g = FSRV_RUN_OK ->
  let k := scanned wb (af_fsrv a) in
  match save_if_interesting wb hash64 junk g rounds fuel mem FSRV_RUN_OK stage_cur funIdx a with
  | RDone kept a' =>
      (kept = false <-> all_seen k (trace a) (virgin_bits (af_virgin a)))
      /\ queue_files a' = queue_files a ++ (if kept then [mem] else [])
      /\ hang_files a' = hang_files a /\ crash_files a' = crash_files a
      /\ all_seen k (trace a) (virgin_bits (af_virgin a')) /\ afl_ok n a'
  | RFatal => ~ all_seen k (trace a) (virgin_bits (af_virgin a))
  | RNoFuel => False
  end.
Proof.
  intros Hwb Ht Hfuel Ha Hmem Hcm k.
  pose proof (save_normal n wb Hwb hash64 junk g Ht rounds fuel mem stage_cur funIdx a Hfuel Ha Hmem Hcm) as Hs.
  assert (Hh : hits wb a = false <-> all_seen k (trace a) (virgin_bits (af_virgin a))).
  { apply no_hit_all_seen. apply (ok_maps n a Ha). }
  destruct (save_if_interesting _ _ _ _ _ _ _ _ _ _ _) as [kept a'| |]; [| |done].
  - destruct Hs as (-> & Ha' & _ & Hq & Hg & Hc & Hno). apply no_hit_all_seen in Hno; [|apply (ok_maps n a Ha)]. done.
  - rewrite <- Hh, Hs. done.
Qed.

(** C14: outside crash mode, if a test case ran normally and was judged, then, however many
    test cases run in between, another one that runs normally and whose trace has the same
    buckets is not queued. *)
Theorem same_coverage_never_queued rounds fuel buf buf' a a1 a2 a3 b b' i i' f f' r :
  wb = 4%nat \/ wb = 8%nat -> traces_ok (W:=W) n -> (20 <= fuel)%nat -> afl_ok n a -> patient g rounds a ->
  crash_mode g = FSRV_RUN_OK -> write_to_testcase junk g false buf <> [] ->
  run_target (exec_tmout g) (write_to_testcase junk g false buf) a = (FSRV_RUN_OK, b) ->
  common_fuzz_stuff wb hash64 junk g rounds fuel i f buf a = RDone false a1 ->
  rtc (fuzz_step wb hash64 junk g rounds fuel) a1 a2 ->
  run_target (exec_tmout g) (write_to_testcase junk g false buf') a2 = (FSRV_RUN_OK, b') ->
  map bucket (trace b') = map bucket (trace b) ->
  common_fuzz_stuff wb hash64 junk g rounds fuel i' f' buf' a2 = RDone r a3 ->
  queue_files a3 = queue_files a2.
Proof.
  intros Hwb Ht Hfuel Ha Hp Hcm Hne Er Ec Hs Er' Eb Ec'.
  pose proof (fuzzed_seen n wb Hwb hash64 junk g Ht rounds fuel i f buf a a1 b Hfuel Ha Hcm Hne Er Ec) as Hseen.
  pose proof (common_fuzz_stuff_ok n wb Hwb hash64 junk g Ht rounds fuel i f buf a Hfuel Ha Hp) as H1. rewrite Ec in H1.
  destruct H1 as [Ha1 L1]. pose proof (patient_later n g _ _ _ Ha L1 Hp) as Hp1.
  destruct (fuzz_steps_ok n wb Hwb hash64 junk g Ht rounds fuel a1 a2 Hfuel Ha1 Hp1 Hs) as (Ha2 & L2 & _).
  pose proof (run_target_adv n Ht (exec_tmout g) (write_to_testcase junk g false buf) a Ha) as [Hb Lb].
  pose proof (run_target_adv n Ht (exec_tmout g) (write_to_testcase junk g false buf') a2 Ha2) as [Hb' Lb'].
  rewrite Er in Hb, Lb. rewrite Er' in Hb', Lb'. cbn [snd] in *.
  apply (seen_fuzzed n wb Hwb hash64 junk g Ht rounds fuel i' f' buf' a2 a3 b' r Hfuel Ha2 Hcm Er'); [|exact Ec'].
  assert (Hk : scanned wb (af_fsrv b') = scanned wb (af_fsrv b)).
  { unfold scanned. do 2 f_equal.
    rewrite (lt_real _ _ Lb'), (lt_real _ _ L2), (lt_real _ _ L1). symmetry. apply (lt_real _ _ Lb). }
  rewrite Hk. apply no_hit_all_seen; [apply (ok_maps n b' Hb')|]. apply no_hit_all_seen in Hseen; [|apply (ok_maps n b Hb)].
  assert (Hmap : map count_class (trace b') = map count_class (trace b)).
  { rewrite !map_count_class; [exact Eb|apply (ok_maps n b Hb)|apply (ok_maps n b' Hb')]. }
  rewrite <- firstn_map, Hmap, firstn_map. refine (no_hit_fewer _ _ _ _ Hseen). apply fewer_take.
  etrans; [exact (lt_virgin _ _ L2 VirginBits)|]. exact (lt_virgin _ _ Lb' VirginBits).
Qed.

(** C15: from a well-formed state, every sequence of test cases leads to a well-formed state:
    the maps keep their sizes, a byte that varies is not in the virgin map, the holders of
    the favored set refer to entries, there is one file and one calibration record for each
    queue entry and it has the entry's length, and hangs and crashes stay within their
    limits; virgin maps only lose bits and files are only added.  If AFL_KEEP_TIMEOUTS
    is not set, or the mode is instrumented and there are more rounds than bits left in the map
    of timeouts ([patient]), the next test case in every such state is judged in a bounded
    number of runs. *)
Theorem fuzzing_invariant rounds fuel a a' :
  wb = 4%nat \/ wb = 8%nat -> traces_ok (W:=W) n -> (20 <= fuel)%nat -> afl_ok n a -> patient g rounds a ->
  rtc (fuzz_step wb hash64 junk g rounds fuel) a a' ->
  afl_ok n a' /\ later a a'
  /\ forall i f buf, common_fuzz_stuff wb hash64 junk g rounds fuel i f buf a' <> RNoFuel.
Proof.
  intros Hwb Ht Hfuel Ha Hp Hs.
  destruct (fuzz_steps_ok n wb Hwb hash64 junk g Ht rounds fuel a a' Hfuel Ha Hp Hs) as (Ha' & L & Hp').
  split; [done|]. split; [done|]. intros i f buf E.
  pose proof (common_fuzz_stuff_ok n wb Hwb hash64 junk g Ht rounds fuel i f buf a' Hfuel Ha' Hp') as H. by rewrite E in H.
Qed.

(** With AFL_KEEP_TIMEOUTS in non-instrumented mode, a test case that exceeds [exec_tmout]
    but not [hang_tmout] is judged for ever: after [goto save_to_queue] the [switch] sees
    the same timeout again, and no number of rounds is enough. *)
Theorem keep_timeouts_never_ends rounds fuel mem stage_cur funIdx a :
  wb = 4%nat \/ wb = 8%nat -> traces_ok (W:=W) n -> (20 <= fuel)%nat -> afl_ok n a -> mem <> [] ->
  crash_mode g = FSRV_RUN_OK -> non_instrumented_mode g = true -> keep_timeouts g = true ->
  exec_tmout g < hang_tmout g -> af_count a saved_hangs < KEEP_UNIQUE_HANG ->
  (forall (w : W) timeout input, (fuzz_run_target w timeout input).1.1 <> FSRV_RUN_ERROR) ->
  (forall w : W, stop_soon w = false) ->
  (forall (w : W) input, (fuzz_run_target w (hang_tmout g) input).1.1 = FSRV_RUN_OK) ->
  save_if_interesting wb hash64 junk g rounds fuel mem FSRV_RUN_TMOUT stage_cur funIdx a = RNoFuel.
Proof.
  intros Hwb Ht Hfuel Ha Hmem Hcm Hni Hk Hlt Hs He Hst Hok. unfold save_if_interesting.
  destruct (Nat.eqb_spec (length mem) 0) as [H0|_]; [by destruct mem|].
  pose proof (count_path_adv n hash64 a) as (H1 & _). assert (Hc1 : af_count (count_path hash64 a).2 = af_count a).
  { unfold count_path. by destruct (_ && _). }
  destruct (count_path hash64 a) as [cksum a1]. cbn [snd] in *. destruct (H1 Ha) as [Ha1 _].
  rewrite bool_decide_eq_false_2 by (by rewrite Hcm).
  apply (judge_again n wb Hwb hash64 junk g Ht He Hst Hcm Hok); try done. by rewrite Hc1.
Qed.
End theorems.

(** ** A target *)

(** The first byte of the input selects the counter that becomes 1; inputs that start with
    9 take a long time. *)
#[local] Instance toy_executor : Executor unit := {
  fuzz_run_target w timeout input :=
    let c := (hd 0 input) `mod` 64 in
    (if (c =? 9) && (timeout <? 100) then FSRV_RUN_TMOUT else FSRV_RUN_OK, <[Z.to_nat c := 1]> (replicate 64 0), tt);
  stop_soon w := false;
}.
#[local] Instance toy_forkserver : Forkserver unit := {
  fsrv_target w := Some 0;
  afl_fsrv_start w _ := tt;
  get_cur_time_us w := 0;
  skip_requested w := false;
  clear_skip w := tt;
}.

Definition toy_cfg (non_instrumented keep : bool) : run_cfg :=
  RunCfg FSRV_RUN_OK non_instrumented 20 100 false keep false false 1 1000 1.
Definition toy_hash (t : list Z) : Z := foldl (fun h x => (h * 31 + x) `mod` 2 ^ 64) 7 t.
Definition toy_start : afl_state unit := afl_start 64 EXPLORE false [true] tt.

Lemma toy_start_ok : afl_ok 64 toy_start.
Proof. apply afl_start_ok; [lia|done]. Qed.

Lemma toy_traces : traces_ok (W:=unit) 64.
Proof.
  intros w timeout input. unfold fuzz_run_target, toy_executor. cbn [fst snd].
  split; [by rewrite length_insert, length_replicate|].
  apply Forall_insert; [apply Forall_replicate|]; unfold byte_ok; lia.
Qed.

Lemma toy_patient a : patient (W:=unit) (toy_cfg false false) 1 a.
Proof. by left. Qed.

(** A test case after its run. *)
Definition toy_ran (buf : list Z) : afl_state unit := (run_target 20 buf toy_start).2.

Lemma toy_ran_ok buf : afl_ok 64 (toy_ran buf).
Proof. apply (run_target_adv 64 toy_traces), toy_start_ok. Qed.

Lemma save_if_interesting_correct_witness :
  exists a', save_if_interesting 8 toy_hash 0 (toy_cfg false false) 1 20 [5; 6] FSRV_RUN_OK 0 0 (toy_ran [5; 6]) = RDone true a'
    /\ queue_files a' = [[5; 6]] /\ afl_ok 64 a'.
Proof.
  pose proof (save_if_interesting_correct 64 8 toy_hash 0 (toy_cfg false false) 1 20 [5; 6] 0 0 (toy_ran [5; 6])
    (or_intror eq_refl) toy_traces ltac:(lia) (toy_ran_ok _) ltac:(done) eq_refl) as H.
  cbv zeta in H.
  assert (Hk : exists a', save_if_interesting 8 toy_hash 0 (toy_cfg false false) 1 20 [5; 6] FSRV_RUN_OK 0 0 (toy_ran [5; 6])
    = RDone true a') by (eexists; vm_compute; reflexivity).
  destruct Hk as [a' E]. rewrite E in H. exists a'. destruct H as (_ & Hq & _ & _ & _ & Ha). split; [exact E|]. by split.
Defined.

Definition toy_next (buf : list Z) (a : afl_state unit) : afl_state unit :=
  match common_fuzz_stuff 8 toy_hash 0 (toy_cfg false false) 1 20 0 0 buf a with RDone _ a' => a' | _ => a end.

Lemma toy_next_done buf a :
  is_Some (match common_fuzz_stuff 8 toy_hash 0 (toy_cfg false false) 1 20 0 0 buf a with RDone false _ => Some tt | _ => None end) ->
  common_fuzz_stuff 8 toy_hash 0 (toy_cfg false false) 1 20 0 0 buf a = RDone false (toy_next buf a).
Proof. unfold toy_next. destruct (common_fuzz_stuff _ _ _ _ _ _ _ _ _ _) as [[] a'| |]; by intros [? ?]. Qed.

Definition toy_1 : afl_state unit := toy_next [5; 6] toy_start.
Definition toy_2 : afl_state unit := toy_next [7] toy_1.
Definition toy_3 : afl_state unit := toy_next [5; 1] toy_2.

Lemma same_coverage_never_queued_witness : queue_files toy_3 = queue_files toy_2.
Proof.
  refine (same_coverage_never_queued 64 8 toy_hash 0 (toy_cfg false false) 1 20 [5; 6] [5; 1] toy_start
    toy_1 toy_2 toy_3 (run_target 20 [5; 6] toy_start).2 (run_target 20 [5; 1] toy_2).2 0 0 0 0 false
    (or_intror eq_refl) toy_traces _ toy_start_ok (toy_patient _) eq_refl _ _ _ _ _ _ _).
  - lia.
  - done.
  - reflexivity.
  - apply toy_next_done. vm_compute. eauto.
  - apply rtc_once. exists 0, 0, [7], false. apply toy_next_done. vm_compute. eauto.
  - reflexivity.
  - vm_compute. reflexivity.
  - apply toy_next_done. vm_compute. eauto.
Defined.

Lemma toy_queue :
  queue_files toy_3 = [[5; 6]; [7]].
Proof. vm_compute. reflexivity. Qed.

Lemma fuzzing_invariant_witness :
  afl_ok 64 (toy_next [9; 9] toy_1).
Proof.
  refine (proj1 (fuzzing_invariant 64 8 toy_hash 0 (toy_cfg false false) 1 20 toy_start _
    (or_intror eq_refl) toy_traces _ toy_start_ok (toy_patient _) _)); [lia|].
  apply (rtc_l _ _ toy_1); [exists 0, 0, [5; 6], false; apply toy_next_done; vm_compute; eauto|].
  apply rtc_once. exists 0, 0, [9; 9], false. apply toy_next_done. vm_compute. eauto.
Defined.

Lemma keep_timeouts_never_ends_witness :
  save_if_interesting 8 toy_hash 0 (toy_cfg true true) 3 20 [9] FSRV_RUN_TMOUT 0 0 (toy_ran [9]) = RNoFuel.
Proof.
  refine (keep_timeouts_never_ends 64 8 toy_hash 0 (toy_cfg true true) 3 20 [9] 0 0 (toy_ran [9])
    (or_intror eq_refl) toy_traces _ (toy_ran_ok _) _ eq_refl eq_refl eq_refl eq_refl eq_refl _ _ _).
  - lia.
  - done.
  - intros w timeout input. unfold fuzz_run_target, toy_executor. cbn [fst]. by destruct (_ && _).
  - done.
  - intros w input. unfold fuzz_run_target, toy_executor. cbn [fst]. by rewrite andb_false_r.
Defined.
