(* ===== verification/DryRun.v ===== *)
(** * The dry run (src/aflplusplus/src/afl-fuzz-init.c)

    Before fuzzing starts, [perform_dry_run] calibrates every entry of the initial queue.
    It takes out of the queue what crashes or is too slow, and all but the shortest of the
    entries of a target that leave the same trace; it activates the targets whose seeds ran,
    and moves on to an active target if the first one is not.

    An entry is named by its index in [queue_buf]; its file is the one of the same index in
    [queue_files].  Loops over the queue are over its entries; [FATAL] is [Fatal]. *)
From Stdlib Require Import Floats.SpecFloat.
From S2P Require Import Prelude Bitmap Alloc Queue DetStages ItsStage Trim Run Alias.
#[local] Open Scope Z_scope.

Definition CAL_CHANCES : Z := 3.

(** The options the dry run looks at *)
Record dry_cfg := DryCfg {
  timeout_given : bool;            (* -t *)
  exit_on_seed_issues : bool;      (* AFL_EXIT_ON_SEED_ISSUES *)
  cmplog_only_new : bool;          (* AFL_CMPLOG_ONLY_NEW *)
  arg_mode : bool;
}.

(** The state of the fuzzer, with what only the dry run and the schedules use *)
Record dry (W : Type) := Dry {
  d_afl : afl_state W;
  d_perf_score : list spec_float;  (* per entry *)
  d_colorized : list Z;            (* per entry *)
  d_targetActive : list bool;      (* the array of MAX_TARGETS flags *)
  d_nextTarget : Z;
  d_queue : nat;                   (* [afl->queue] *)
  d_queue_top : nat;
  useless_at_start : Z;
  cal_failures : Z;
}.
Arguments Dry {W}. Arguments d_afl {W}. Arguments d_perf_score {W}. Arguments d_colorized {W}.
Arguments d_targetActive {W}. Arguments d_nextTarget {W}. Arguments d_queue {W}. Arguments d_queue_top {W}.
Arguments useless_at_start {W}. Arguments cal_failures {W}.

(** [q->was_fuzzed = 1; q->disabled = 1;] *)
Definition set_disabled (q : queue_entry) : queue_entry :=
  QEntry (q_targetFunctionIdx q) (q_len q) (q_exec_us q) (q_fuzz_level q) (q_n_fuzz_entry q)
    (q_depth q) (q_passed_det q) (q_tc_ref q) (q_trace_mini q) (q_favored q) true true (q_fs_redundant q).

(** [if (!q->was_fuzzed) { q->was_fuzzed = 1; --pending_not_fuzzed; --active_items; }
    q->disabled = 1;] for entry [k] of the queue *)
Definition disable_entry (k : nat) (a : queue) : queue :=
  match queue_buf a !! k with
  | None => a
  | Some q =>
      let n := if q_was_fuzzed q then 0 else 1 in
      Queue (alter set_disabled k (queue_buf a)) (top_rated a) (n_fuzz a) (schedule a) (fixed_seed a)
        (score_changed a) (queued_favored a) (pending_favored a) (u32 (pending_not_fuzzed a - n))
        (u32 (active_items a - n)) (ready_for_splicing_count a) (max_depth a) (cur_depth a)
        (entriesForTarget a) (amountOfTargets a) (firstCycleDone a)
  end.

(** [afl->max_depth = 0; for (...) if (!disabled && depth > max_depth) max_depth = depth;] *)
Definition deepest (l : list queue_entry) : Z :=
  foldl (fun m q => if negb (q_disabled q) && (m <? q_depth q) then q_depth q else m) 0 l.

(** The first entry that is not disabled, or the first entry *)
Fixpoint first_enabled (i : nat) (l : list queue_entry) : nat :=
  match l with
  | [] => O
  | q :: l => if q_disabled q then first_enabled (S i) l else i
  end.

Section state.
Context {W : Type}.
Implicit Types d : dry W.

Definition dq d : queue := af_queue (d_afl d).

Definition set_afl (a : afl_state W) d : dry W :=
  Dry a (d_perf_score d) (d_colorized d) (d_targetActive d) (d_nextTarget d) (d_queue d) (d_queue_top d)
    (useless_at_start d) (cal_failures d).
Definition set_perf_score (l : list spec_float) d : dry W :=
  Dry (d_afl d) l (d_colorized d) (d_targetActive d) (d_nextTarget d) (d_queue d) (d_queue_top d)
    (useless_at_start d) (cal_failures d).
Definition set_colorized (l : list Z) d : dry W :=
  Dry (d_afl d) (d_perf_score d) l (d_targetActive d) (d_nextTarget d) (d_queue d) (d_queue_top d)
    (useless_at_start d) (cal_failures d).
Definition set_active (l : list bool) d : dry W :=
  Dry (d_afl d) (d_perf_score d) (d_colorized d) l (d_nextTarget d) (d_queue d) (d_queue_top d)
    (useless_at_start d) (cal_failures d).
Definition set_next (t : Z) d : dry W :=
  Dry (d_afl d) (d_perf_score d) (d_colorized d) (d_targetActive d) t (d_queue d) (d_queue_top d)
    (useless_at_start d) (cal_failures d).
Definition set_heads (q top : nat) d : dry W :=
  Dry (d_afl d) (d_perf_score d) (d_colorized d) (d_targetActive d) (d_nextTarget d) q top
    (useless_at_start d) (cal_failures d).
Definition set_tallies (useless failures : Z) d : dry W :=
  Dry (d_afl d) (d_perf_score d) (d_colorized d) (d_targetActive d) (d_nextTarget d) (d_queue d) (d_queue_top d)
    useless failures.

Definition on_queue (f : queue -> queue) d : dry W := set_afl (set_queue (f (dq d)) (d_afl d)) d.

(** Entry [k] leaves the fuzzing queue; its score is 0. *)
Definition disable (k : nat) d : dry W :=
  set_perf_score (alter (fun _ => S754_zero false) k (d_perf_score d)) (on_queue (disable_entry k) d).

(** The depth of the entries that are left *)
Definition recount_depth d : dry W := on_queue (fun a => set_max_depth (deepest (queue_buf a)) a) d.
End state.

Section dry_run.
Context {W : Type} `{!Executor W} `{!Forkserver W}.
Context (wb : nat) (hash64 : list Z -> Z) (junk : Z) (g : run_cfg) (o : dry_cfg).
Implicit Types d : dry W.

(** [switch (res)] for the entry [k], whose target is [target] *)
Definition dry_verdict (res : fsrv_run_result) (k : nat) (target : Z) d : outcome (dry W) :=
  match res with
  | FSRV_RUN_OK =>
      if negb (bool_decide (crash_mode g = FSRV_RUN_OK)) then Fatal
      else active ← wr (d_targetActive d) target true; Done (set_active active d)
  | FSRV_RUN_TMOUT =>
      if timeout_given o && negb (exit_on_seed_issues o) then
        let d := set_tallies (useless_at_start d) (u32 (cal_failures d + 1)) d in
        Done (disable k (set_afl (on_cal (set_cal_failed CAL_CHANCES) k (d_afl d)) d))
      else Fatal
  | FSRV_RUN_CRASH =>
      if negb (bool_decide (crash_mode g = FSRV_RUN_OK)) then Done d
      else if exit_on_seed_issues o then Fatal
      else
        let d := disable k d in
        let d := set_heads (first_enabled 0 (queue_buf (dq d))) (d_queue_top d) d in
        Done (recount_depth d)
  | FSRV_RUN_ERROR | FSRV_RUN_NOINST => Fatal
  | FSRV_RUN_NOBITS => Done (set_tallies (u32 (useless_at_start d + 1)) (cal_failures d) d)
  end.

(** One entry; the flag says that [afl->stop_soon] ended the dry run. *)
Definition dry_seed (fuel : nat) (k : nat) d : outcome (dry W * bool) :=
  q ← rd (queue_buf (dq d)) (Z.of_nat k);
  if q_disabled q || (q_len q =? 0) then Done (d, false)
  else
    let d := if cmplog_only_new o then set_colorized (alter (fun _ => CMPLOG_LVL_MAX) k (d_colorized d)) d else d in
    file ← rd (queue_files (d_afl d)) (Z.of_nat k);
    let read_len := Z.to_nat (Z.min (q_len q) MAX_FILE) in
    if (length file <? read_len)%nat then Fatal   (* ck_read *)
    else
      match calibrate_case wb hash64 junk g fuel k (take read_len file) 0 true 0 (d_afl d) with
      | None => NoFuel
      | Some (res, a) =>
          let d := set_afl a d in
          if stop_soon (af_world a) then Done (d, true)
          else d ← dry_verdict res k (q_targetFunctionIdx q) d; Done (d, false)
      end.

(** [for (idx = 0; idx < afl->queued_items; idx++)] *)
Fixpoint dry_loop (fuel n : nat) (k : nat) d : outcome (dry W * bool) :=
  match n with
  | O => Done (d, false)
  | S n =>
      r ← dry_seed fuel k d;
      if (r.2 : bool) then Done r else dry_loop fuel n (S k) r.1
  end.

(** ** Entries with the same trace *)

(** [!(q->disabled || q->cal_failed || !q->exec_cksum)] *)
Definition comparable (q : queue_entry) (i : cal_info) : bool :=
  negb (q_disabled q) && (ci_cal_failed i =? 0) && negb (ci_exec_cksum i =? 0).

Definition entry_at (k : nat) d : option (queue_entry * cal_info) :=
  q ← queue_buf (dq d) !! k; i ← af_cal (d_afl d) !! k; Some (q, i).

(** [p->exec_cksum == q->exec_cksum && q->targetFunctionIdx == p->targetFunctionIdx] *)
Definition same_trace (e e' : queue_entry * cal_info) : bool :=
  (ci_exec_cksum e'.2 =? ci_exec_cksum e.2) && (q_targetFunctionIdx e.1 =? q_targetFunctionIdx e'.1).

(** The inner loop for the entry [idx], from [i] on, with [n] entries left.  The entry [e]
    is what [idx] was when the loop began: only its flags change, and they end the loop. *)
Fixpoint dup_inner (n : nat) (idx : nat) (e : queue_entry * cal_info) (i : nat) (dups : bool) d : bool * dry W :=
  match n with
  | O => (dups, d)
  | S n =>
      match entry_at i d with
      | None => (dups, d)
      | Some e' =>
          if negb (comparable e'.1 e'.2) then dup_inner n idx e (S i) dups d
          else if same_trace e e' then
            if q_len e.1 <=? q_len e'.1 then dup_inner n idx e (S i) true (disable i d)
            else (true, disable idx d)   (* done = 1 *)
          else dup_inner n idx e (S i) dups d
      end
  end.

(** The outer loop, with [n] entries left *)
Fixpoint dup_outer (n : nat) (idx : nat) (dups : bool) d : bool * dry W :=
  match n with
  | O => (dups, d)
  | S n =>
      match entry_at idx d with
      | None => (dups, d)
      | Some e =>
          if negb (comparable e.1 e.2) then dup_outer n (S idx) dups d
          else let '(dups, d) := dup_inner n idx e (S idx) dups d in dup_outer n (S idx) dups d
      end
  end.

Definition remove_duplicates d : dry W :=
  let '(dups, d) := dup_outer (length (queue_buf (dq d))) 0 false d in
  if dups then let d := recount_depth d in set_heads (d_queue d) (d_queue d) d else d.

(** The step to an active target; the flags of the targets there are *)
Definition targets_of d : list bool := take (Z.to_nat (amountOfTargets (dq d))) (d_targetActive d).

Definition first_target (fuel : nat) d : outcome (dry W) :=
  if arg_mode o && (0 <? amountOfTargets (dq d)) then
    active ← rd (d_targetActive d) 0;
    if negb active then
      match cycleTarget fuel (targets_of d) (d_nextTarget d) with
      | None => NoFuel
      | Some t => Done (set_next t d)
      end
    else Done d
  else Done d.

Definition perform_dry_run (fuel : nat) d : outcome (dry W * bool) :=
  let d := set_tallies (useless_at_start d) 0 d in
  r ← dry_loop fuel (length (queue_buf (dq d))) 0 d;
  let d := r.1 in
  if (r.2 : bool) then Done r
  else if negb (cal_failures d =? 0) && (cal_failures d =? Z.of_nat (length (queue_buf (dq d)))) then Fatal
  else d ← first_target fuel (remove_duplicates d); Done (d, false).
End dry_run.
