(* ===== verification/DryRunTheorems.v ===== *)
(** * The dry run: the theorems

    [dry_inv] is what every step of the dry run keeps: the invariant of the fuzzer
    ([afl_ok]), the entries apart from their flags, counters that are exact, flags of targets
    within their array.  From it: the dry run ends as it should, each trace of a target is
    left with one entry, the shortest, and active targets have entries. *)
From Stdlib Require Import Floats.SpecFloat.
From S2P Require Import Prelude Bitmap Alloc Queue DetStages ItsStage Trim Run RunTheorems FuzzLoop Alias DryRun.
#[local] Open Scope Z_scope.

(** ** The queue *)

Definition enabled (l : list queue_entry) : Z := Z.of_nat (length (filter (fun q => q_disabled q = false) l)).

(** The queue before fuzzing: an entry counts as fuzzed only if it is disabled. *)
Record tidy (a : queue) : Prop := {
  td_flags : Forall (fun q => q_was_fuzzed q = q_disabled q) (queue_buf a);
  td_pending : pending_not_fuzzed a = enabled (queue_buf a);
  td_active : active_items a = enabled (queue_buf a);
  td_size : Z.of_nat (length (queue_buf a)) < 2 ^ 32;
}.

(** An entry whose flags may have changed *)
Definition same_entry (q q' : queue_entry) : Prop :=
  q_targetFunctionIdx q' = q_targetFunctionIdx q /\ q_len q' = q_len q /\ q_depth q' = q_depth q
  /\ (q_disabled q = true -> q_disabled q' = true).

#[export] Instance same_entry_preorder : PreOrder same_entry.
Proof. split; [done|]. intros q1 q2 q3 (?&?&?&?) (?&?&?&?). repeat split; try congruence; auto. Qed.

Lemma enabled_cons q l : enabled (q :: l) = (if q_disabled q then 0 else 1) + enabled l.
Proof. unfold enabled. rewrite filter_cons. destruct (q_disabled q) eqn:E; [rewrite decide_False|rewrite decide_True]; cbn [length]; try done; lia. Qed.

Lemma enabled_bounds l : 0 <= enabled l <= Z.of_nat (length l).
Proof. unfold enabled. pose proof (length_filter (fun q => q_disabled q = false) l). lia. Qed.

Lemma enabled_disable k l q :
  l !! k = Some q -> enabled (alter set_disabled k l) = enabled l - (if q_disabled q then 0 else 1).
Proof.
  revert k. induction l as [|p l IH]; intros [|k] E; simplify_eq/=; rewrite !enabled_cons; simpl; [lia|].
  rewrite (IH k E). lia.
Qed.

Lemma same_disable k l : Forall2 same_entry l (alter set_disabled k l).
Proof.
  revert k. induction l as [|p l IH]; intros k; [by destruct k|]. destruct k as [|k]; (apply Forall2_cons; split; [done|]).
  - by apply Forall_Forall2_diag, Forall_true.
  - apply IH.
Qed.

Lemma alter_outside {A} (f : A -> A) (k : nat) (l : list A) : l !! k = None -> alter f k l = l.
Proof.
  intros E. apply list_eq. intros i. rewrite list_lookup_alter. case_decide; [subst; by rewrite E|done].
Qed.

Lemma disable_entry_buf k a : queue_buf (disable_entry k a) = alter set_disabled k (queue_buf a).
Proof. unfold disable_entry. destruct (queue_buf a !! k) eqn:E; [done|]. by rewrite alter_outside. Qed.

Lemma enabled_after k l q n :
  Forall (fun q => q_was_fuzzed q = q_disabled q) l -> Z.of_nat (length l) < 2 ^ 32 -> l !! k = Some q -> n = enabled l ->
  u32 (n - (if q_was_fuzzed q then 0 else 1)) = enabled (alter set_disabled k l).
Proof.
  intros Hf Hs E ->. rewrite (enabled_disable k _ q E), (Forall_lookup_1 _ _ _ _ Hf E). apply u32_id.
  pose proof (enabled_bounds (alter set_disabled k l)) as Hb. rewrite (enabled_disable k _ q E) in Hb.
  pose proof (enabled_bounds l). destruct (q_disabled q); lia.
Qed.

Lemma disable_entry_tidy k a : tidy a -> tidy (disable_entry k a).
Proof.
  intros [Hf Hp Ha Hs]. split; rewrite ?disable_entry_buf, ?length_alter; try done.
  - apply Forall_alter; [done|]. by intros.
  - unfold disable_entry. destruct (queue_buf a !! k) as [q|] eqn:E; [by apply enabled_after|by rewrite alter_outside].
  - unfold disable_entry. destruct (queue_buf a !! k) as [q|] eqn:E; [by apply enabled_after|by rewrite alter_outside].
Qed.

Lemma disable_entry_amount k a : amountOfTargets (disable_entry k a) = amountOfTargets a.
Proof. unfold disable_entry. by destruct (queue_buf a !! k). Qed.

(** ** One entry per trace *)

Section duplicates.
Context {W : Type}.
Implicit Types d : dry W.

(** An entry that takes part in the comparison *)
Definition live d (k : nat) (e : queue_entry * cal_info) : Prop :=
  entry_at k d = Some e /\ comparable e.1 e.2 = true.

(** The entry that should be kept of those with its trace: the first of the shortest *)
Definition best d (k : nat) (e : queue_entry * cal_info) : Prop :=
  live d k e /\ forall j e', live d j e' -> same_trace e e' = true ->
    q_len e.1 <= q_len e'.1 /\ (q_len e'.1 = q_len e.1 -> (k <= j)%nat).

Lemma same_trace_sym e e' : same_trace e e' = same_trace e' e.
Proof. unfold same_trace. by rewrite (Z.eqb_sym (ci_exec_cksum e'.2)), (Z.eqb_sym (q_targetFunctionIdx e.1)). Qed.

Lemma same_trace_trans e1 e2 e3 : same_trace e1 e2 = true -> same_trace e2 e3 = same_trace e1 e3.
Proof.
  unfold same_trace. rewrite andb_true_iff, !Z.eqb_eq. intros [E1 E2]. by rewrite E1, E2.
Qed.

Lemma live_fun d k e e' : live d k e -> live d k e' -> e' = e.
Proof. intros [H _] [H' _]. congruence. Qed.

Lemma entry_at_lt d k e : entry_at k d = Some e -> (k < length (queue_buf (dq d)))%nat.
Proof. unfold entry_at. destruct (queue_buf (dq d) !! k) eqn:E; [|done]. intros _. by eapply lookup_lt_Some. Qed.

(** The first of the least among the numbers below [n] with a property *)
Lemma first_least (P : nat -> bool) (f : nat -> Z) n :
  (exists k, (k < n)%nat /\ P k = true) ->
  exists k, (k < n)%nat /\ P k = true
    /\ forall j, (j < n)%nat -> P j = true -> f k <= f j /\ (f j = f k -> (k <= j)%nat).
Proof.
  induction n as [|n IH]; [intros (k & Hk & _); lia|]. intros Hex.
  assert (Hlt : forall j, (j < S n)%nat -> j = n \/ (j < n)%nat) by lia.
  destruct (existsb P (seq 0 n)) eqn:E.
  - destruct IH as (k & Hk & Pk & Hmin).
    { apply existsb_exists in E as (k & Hk & Pk). apply in_seq in Hk. exists k. split; [lia|done]. }
    destruct (P n && (f n <? f k)) eqn:En.
    + apply andb_true_iff in En as [Pn Hn%Z.ltb_lt]. exists n. split; [lia|]. split; [done|].
      intros j [->|Hj]%Hlt Pj; [lia|]. destruct (Hmin j Hj Pj). lia.
    + exists k. split; [lia|]. split; [done|]. intros j [->|Hj]%Hlt Pj; [|by apply Hmin].
      rewrite Pj in En. simpl in En. apply Z.ltb_ge in En. lia.
  - assert (Hno : forall j, (j < n)%nat -> P j = true -> False).
    { intros j Hj Pj. apply not_true_iff_false in E. apply E, existsb_exists. exists j. split; [apply in_seq; lia|done]. }
    destruct Hex as (k & [->|Hk]%Hlt & Pk); [|by exfalso; eauto]. exists n. split; [lia|]. split; [done|].
    intros j [->|Hj]%Hlt Pj; [lia|]. exfalso; eauto.
Qed.

Lemma best_exists d k e : live d k e -> exists k' b, best d k' b /\ same_trace e b = true.
Proof.
  set (P k := match entry_at k d with Some e' => comparable e'.1 e'.2 && same_trace e e' | None => false end).
  set (f k := match entry_at k d with Some e' => q_len e'.1 | None => 0 end).
  assert (HP : forall j e', live d j e' -> same_trace e e' = true -> P j = true /\ (j < length (queue_buf (dq d)))%nat /\ f j = q_len e'.1).
  { intros j e' [E Hc] Hs. unfold P, f. rewrite E, Hc, Hs. split; [done|]. split; [by eapply entry_at_lt|done]. }
  intros Hl. destruct (first_least P f (length (queue_buf (dq d)))) as (k' & Hk' & Pk & Hmin).
  { exists k. destruct (HP k e Hl) as (? & ? & _); [|done]. unfold same_trace. by rewrite !Z.eqb_refl. }
  unfold P in Pk. destruct (entry_at k' d) as [b|] eqn:Eb; [|done]. apply andb_true_iff in Pk as [Hc Hs].
  exists k', b. split; [|done]. split; [done|]. intros j e' Hj Hs'. rewrite (same_trace_trans e b e' Hs) in Hs'.
  destruct (HP j e' Hj Hs') as (Pj & Hlt & Ej). destruct (HP k' b) as (_ & _ & Eb'); [done|done|].
  rewrite <- Ej, <- Eb'. by apply Hmin.
Qed.

Lemma disable_entry_at d k j :
  entry_at j (disable k d) = if decide (k = j) then (fun e => (set_disabled e.1, e.2)) <$> entry_at j d else entry_at j d.
Proof.
  unfold entry_at, disable, dq. simpl. rewrite disable_entry_buf, list_lookup_alter.
  case_decide; [subst|done]. fold (dq d). destruct (queue_buf (dq d) !! j); [|done]. by destruct (af_cal (d_afl d) !! j).
Qed.

Lemma live_disable d k j e : live (disable k d) j e <-> k <> j /\ live d j e.
Proof.
  unfold live. rewrite disable_entry_at. case_decide as Hd; [subst|tauto]. split; [|tauto].
  intros [E Hc]. exfalso. destruct (entry_at j d); [|done]. apply (inj Some) in E as <-. done.
Qed.

(** [d] with the entries of [ks] disabled, the last one first *)
Definition disable_all (ks : list nat) d : dry W := foldr disable d ks.

Lemma live_disable_all ks d j e : live (disable_all ks d) j e <-> j ∉ ks /\ live d j e.
Proof.
  induction ks as [|k ks IH]; simpl; [set_solver|]. rewrite live_disable, IH. set_solver.
Qed.

(** The state of the loops: the entries [ks] have been disabled, none of them is to be
    kept, and those below [idx] that are left have their trace for themselves. *)
Record dup_inv d (ks : list nat) (idx : nat) : Prop := {
  di_live : forall k, k ∈ ks -> exists e, live d k e;
  di_best : forall k e, best d k e -> k ∉ ks;
  di_once : forall j j' e e', (j < idx)%nat -> live (disable_all ks d) j e -> live (disable_all ks d) j' e' ->
    same_trace e e' = true -> j' = j;
}.

(** An entry that loses against [e'] is not to be kept. *)
Lemma dup_inv_disable d ks idx k e j e' :
  dup_inv d ks idx -> live d k e -> live d j e' -> same_trace e e' = true ->
  q_len e'.1 < q_len e.1 \/ (q_len e'.1 = q_len e.1 /\ (j < k)%nat) -> dup_inv d (k :: ks) idx.
Proof.
  intros [H1 H2 H3] Hk Hj Hs Hlen. split.
  - intros k' [->|Hin]%elem_of_cons; [by exists e|by apply H1].
  - intros k' b Hb [->|Hin]%elem_of_cons; [|by apply (H2 k' b)]. destruct Hb as [Hbl Hb].
    rewrite (live_fun _ _ _ _ Hk Hbl) in Hb. destruct (Hb j e' Hj Hs). lia.
  - intros i i' x x' Hi [_ Hx]%live_disable [_ Hx']%live_disable. by apply H3.
Qed.

Lemma disable_all_length ks d : length (queue_buf (dq (disable_all ks d))) = length (queue_buf (dq d)).
Proof. induction ks as [|k ks IH]; [done|]. rewrite <- IH. unfold dq. simpl. by rewrite disable_entry_buf, length_alter. Qed.

Lemma disable_all_cal ks d : af_cal (d_afl (disable_all ks d)) = af_cal (d_afl d).
Proof. by induction ks. Qed.

Lemma entry_at_some ks d i :
  length (af_cal (d_afl d)) = length (queue_buf (dq d)) -> (i < length (queue_buf (dq d)))%nat ->
  is_Some (entry_at i (disable_all ks d)).
Proof.
  intros Hcal Hi. unfold entry_at. rewrite disable_all_cal.
  destruct (lookup_lt_is_Some_2 (queue_buf (dq (disable_all ks d))) i) as [q ->]; [by rewrite disable_all_length|].
  destruct (lookup_lt_is_Some_2 (af_cal (d_afl d)) i) as [c ->]; [lia|]. by eexists.
Qed.

Lemma dup_inner_spec d idx e n i dups ks :
  length (af_cal (d_afl d)) = length (queue_buf (dq d)) ->
  dup_inv d ks idx -> live (disable_all ks d) idx e -> (idx < i)%nat -> (i + n)%nat = length (queue_buf (dq d)) ->
  (forall j e', (idx < j < i)%nat -> live (disable_all ks d) j e' -> same_trace e e' = false) ->
  exists dups' ks', dup_inner n idx e i dups (disable_all ks d) = (dups', disable_all ks' d) /\ dup_inv d ks' (S idx).
Proof.
  intros Hcal. revert i dups ks. induction n as [|n IH]; intros i dups ks Hinv Hl Hi Hn Hno.
  - exists dups, ks. split; [done|]. destruct Hinv as [H1 H2 H3]. split; [done|done|]. intros j j' x x' Hj Hx Hx' Hs.
    destruct (decide (j = idx)) as [->|]; [|apply (H3 j j' x x'); [lia|done..]].
    rewrite (live_fun _ _ _ _ Hl Hx) in Hs. destruct (decide (j' < idx)%nat).
    { symmetry. apply (H3 j' idx x' e); [lia|done|done|]. by rewrite same_trace_sym. }
    destruct (decide (j' = idx)) as [|]; [done|]. exfalso. rewrite (Hno j' x') in Hs; [done| |done].
    assert (j' < length (queue_buf (dq d)))%nat; [|lia]. apply live_disable_all in Hx' as [_ [Hx' _]]. by eapply entry_at_lt.
  - cbn [dup_inner]. destruct (entry_at_some ks d i Hcal ltac:(lia)) as [e' Ei]. rewrite Ei.
    assert (Hnext : forall x, live (disable_all ks d) i x -> x = e') by (intros x [Hx _]; congruence).
    assert (Hskip : (comparable e'.1 e'.2 = true -> same_trace e e' = false) -> forall j x, (idx < j < S i)%nat ->
      live (disable_all ks d) j x -> same_trace e x = false).
    { intros Hne j x Hj Hx. destruct (decide (j = i)) as [->|]; [|apply (Hno j x); [lia|done]].
      pose proof (Hnext x Hx) as ->. apply Hne, Hx. }
    destruct (comparable e'.1 e'.2) eqn:Hc; simpl; [|by apply IH; [done|done|lia|lia|apply Hskip]].
    destruct (same_trace e e') eqn:Hs; [|by apply IH; [done|done|lia|lia|apply Hskip]].
    assert (Hi' : live (disable_all ks d) i e') by done.
    pose proof (proj2 (proj1 (live_disable_all ks d idx e) Hl)) as Hl0.
    pose proof (proj2 (proj1 (live_disable_all ks d i e') Hi')) as Hi0.
    destruct (Z.leb_spec (q_len e.1) (q_len e'.1)).
    + apply (IH (S i) true (i :: ks)); [|apply live_disable; split; [lia|done]|lia|lia|].
      * apply (dup_inv_disable d ks idx i e' idx e); [done..|by rewrite same_trace_sym|lia].
      * intros j x Hj [Hne Hx]%live_disable. apply (Hno j x); [lia|done].
    + exists true, (idx :: ks). split; [done|].
      pose proof (dup_inv_disable d ks idx idx e i e' Hinv Hl0 Hi0 Hs ltac:(lia)) as [H1 H2 H3]. split; [done|done|].
      intros j j' x x' Hj Hx Hx'. apply (H3 j j' x x'); [|done|done]. apply live_disable in Hx as [Hne _]. lia.
Qed.

Lemma dup_outer_spec d n idx dups ks :
  length (af_cal (d_afl d)) = length (queue_buf (dq d)) ->
  dup_inv d ks idx -> (idx + n)%nat = length (queue_buf (dq d)) ->
  exists dups' ks', dup_outer n idx dups (disable_all ks d) = (dups', disable_all ks' d)
    /\ dup_inv d ks' (length (queue_buf (dq d))).
Proof.
  intros Hcal. revert idx dups ks. induction n as [|n IH]; intros idx dups ks Hinv Hn.
  { exists dups, ks. split; [done|]. by rewrite <- Hn, Nat.add_0_r. }
  cbn [dup_outer]. destruct (entry_at_some ks d idx Hcal ltac:(lia)) as [e Ee]. rewrite Ee.
  destruct (comparable e.1 e.2) eqn:Hc; simpl.
  - destruct (dup_inner_spec d idx e n (S idx) dups ks Hcal Hinv) as (dups1 & ks1 & -> & Hinv1); [done|lia|lia|lia|].
    apply IH; [done|lia].
  - apply IH; [|lia]. destruct Hinv as [H1 H2 H3]. split; [done|done|]. intros j j' x x' Hj Hx.
    apply H3; [|done]. destruct (decide (j = idx)) as [->|]; [|lia]. destruct Hx as [Hx Hcx]. congruence.
Qed.

(** What is left of the comparable entries: of each trace of a target exactly the first of
    the shortest entries. *)
Lemma remove_duplicates_spec d :
  length (af_cal (d_afl d)) = length (queue_buf (dq d)) ->
  exists ks, let d' := disable_all ks d in
    (remove_duplicates d = d' \/ remove_duplicates d = set_heads (d_queue d') (d_queue d') (recount_depth d'))
    /\ (forall k, k ∈ ks -> exists e, live d k e) /\ (forall k e, live d' k e <-> best d k e).
Proof.
  intros Hcal. unfold remove_duplicates.
  destruct (dup_outer_spec d (length (queue_buf (dq d))) 0 false [] Hcal) as (dups & ks & E & [H1 H2 H3]).
  { split; [by intros ? ?%elem_of_nil|by intros ? ? _ ?%elem_of_nil|lia]. } { done. }
  exists ks. simpl in E. rewrite E. split; [destruct dups; [by right|by left]|]. split; [done|].
  assert (Hb : forall k e, best d k e -> live (disable_all ks d) k e).
  { intros k e Hb. apply live_disable_all. split; [by eapply H2|by destruct Hb]. }
  intros k e. split; [|apply Hb]. intros Hl. pose proof (proj1 (live_disable_all ks d k e) Hl) as [_ Hl0].
  destruct (best_exists d k e Hl0) as (k' & b & Hbest & Hs).
  assert (k' = k) as ->.
  { apply (H3 k k' e b); [|done|by apply Hb|done]. by apply (entry_at_lt d k e), Hl0. }
  by rewrite (live_fun _ _ _ _ (proj1 Hbest) Hl0).
Qed.
End duplicates.

(** ** What the dry run keeps *)

Definition flags (q : queue_entry) : Z * Z * Z * bool * bool :=
  (q_targetFunctionIdx q, q_len q, q_depth q, q_was_fuzzed q, q_disabled q).

Definition outline_of (a : queue) : list (Z * Z * Z * bool * bool) * Z * Z * Z * list Z :=
  (map flags (queue_buf a), pending_not_fuzzed a, active_items a, amountOfTargets a, entriesForTarget a).
Definition outline {W} (a : afl_state W) := outline_of (af_queue a).

Lemma flags_alter (f : queue_entry -> queue_entry) (k : nat) l :
  (forall q, flags (f q) = flags q) -> map flags (alter f k l) = map flags l.
Proof. intros Hf. revert k. induction l as [|q l IH]; intros [|k]; simpl; try done; [by rewrite Hf|f_equal; apply IH]. Qed.

Lemma score_byte_outline k p2 ff mini i a : outline_of (score_byte k p2 ff mini i a) = outline_of a.
Proof.
  unfold score_byte, win_byte, outline_of. destruct (top_rated a !! i) as [[p|]|]; [|simpl; by rewrite flags_alter|done].
  destruct (queue_buf a !! p); [|done]. destruct (keeps _ _ _ _); [done|]. simpl. by rewrite !flags_alter.
Qed.

Lemma score_loop_outline k p2 ff mini i t a : outline_of (score_loop k p2 ff mini i t a) = outline_of a.
Proof.
  revert i a. induction t as [|b t IH]; intros i a; [done|]. simpl. rewrite IH.
  destruct (b =? 0); [done|]. apply score_byte_outline.
Qed.

Lemma outline_untouched W : untouched (@outline W).
Proof.
  split; try done.
  - intros us k a. unfold outline, outline_of. simpl. by rewrite flags_alter.
  - intros k a. unfold outline, update_bitmap_score. simpl. destruct (queue_buf _ !! k); [|done]. apply score_loop_outline.
Qed.

Lemma flags_same l l' : map flags l' = map flags l -> Forall2 same_entry l l'.
Proof.
  revert l'. induction l as [|q l IH]; intros [|q' l'] E; try done. simpl in E.
  apply Forall2_cons. injection E as E1 E2 E3 E4 E5 E. split; [|by apply IH]. repeat split; try done. by rewrite E5.
Qed.

Lemma flags_tidy a a' : outline_of a' = outline_of a -> tidy a -> tidy a'.
Proof.
  intros E [Hf Hp Ha Hs]. unfold outline_of in E. injection E as E1 E2 E3 _ _.
  assert (Hl : length (queue_buf a') = length (queue_buf a)) by (rewrite <- !(length_map flags); congruence).
  assert (He : enabled (queue_buf a') = enabled (queue_buf a)).
  { clear -E1. revert E1. generalize (queue_buf a). induction (queue_buf a') as [|q' l' IH]; intros [|q l] E; try done.
    simpl in E. injection E as _ _ _ _ E5 E. by rewrite !enabled_cons, (IH l E), E5. }
  split; [|congruence|congruence|congruence]. apply Forall_lookup. intros i q' Hi.
  pose proof (f_equal (fun x => x !! i) E1) as Ei. simpl in Ei.
  change (map flags) with (fmap (M:=list) flags) in Ei. rewrite !list_lookup_fmap, Hi in Ei.
  destruct (queue_buf a !! i) as [q|] eqn:Eq; [|done]. simpl in Ei. injection Ei as _ _ _ E4 E5.
  rewrite E4, E5. exact (Forall_lookup_1 _ _ _ _ Hf Eq).
Qed.

Section keeps.
Context {W : Type} (n : Z).
Implicit Types (a : afl_state W) (d : dry W).

(** A state [d] of a dry run that began in [d0] *)
Record dry_inv d0 d : Prop := {
  dv_ok : afl_ok n (d_afl d);
  dv_later : later (d_afl d0) (d_afl d);
  dv_same : Forall2 same_entry (queue_buf (dq d0)) (queue_buf (dq d));
  dv_tidy : tidy (dq d);
  dv_amount : amountOfTargets (dq d) = amountOfTargets (dq d0);
  dv_entries : entriesForTarget (dq d) = entriesForTarget (dq d0);
  dv_flags : length (d_targetActive d) = length (d_targetActive d0);
  dv_next : d_nextTarget d = d_nextTarget d0;
}.

(** A step that leaves the outline of the queue *)
Lemma inv_outline d0 d d' :
  dry_inv d0 d -> outline (d_afl d') = outline (d_afl d) -> advances n (d_afl d) (d_afl d') ->
  length (d_targetActive d') = length (d_targetActive d) -> d_nextTarget d' = d_nextTarget d -> dry_inv d0 d'.
Proof.
  intros [H1 H2 H3 H4 H5 H6 H7 H8] Ho Ha Hl Hn. destruct (Ha H1) as [Ha1 Ha2].
  unfold outline, outline_of in Ho. fold (dq d) (dq d') in Ho. injection Ho as E1 E2 E3 E4 E5.
  split; [done|by etrans| |apply (flags_tidy (dq d)); [unfold outline_of; congruence|done]|congruence..].
  etrans; [exact H3|]. by apply flags_same.
Qed.

Lemma disable_adv k a : advances n a (set_queue (disable_entry k (af_queue a)) a).
Proof.
  intros Ha. apply set_queue_adv; [| | |done].
  - apply (top_ok_same (af_queue a)); [..|apply Ha].
    + unfold disable_entry. by destruct (queue_buf (af_queue a) !! k).
    + by rewrite disable_entry_buf, length_alter.
    + rewrite disable_entry_buf. by apply alter_same.
  - unfold disable_entry. by destruct (queue_buf (af_queue a) !! k).
  - rewrite disable_entry_buf. by apply alter_q_len.
Qed.

Lemma inv_disable d0 d k : dry_inv d0 d -> dry_inv d0 (disable k d).
Proof.
  intros [H1 H2 H3 H4 H5 H6 H7 H8]. destruct (disable_adv k (d_afl d) H1) as [Ha1 Ha2]. split; try done; unfold dq; simpl.
  - by etrans.
  - rewrite disable_entry_buf. etrans; [exact H3|]. apply same_disable.
  - by apply disable_entry_tidy.
  - by rewrite disable_entry_amount.
  - etrans; [|exact H6]. unfold disable_entry, dq. by destruct (queue_buf _ !! k).
Qed.

Lemma set_max_depth_adv x a : advances n a (set_queue (set_max_depth x (af_queue a)) a).
Proof. intros Ha. apply set_queue_adv; try done. apply (top_ok_same (af_queue a)); try done; [|apply Ha]. intros p q Hq. by exists q. Qed.

Lemma inv_recount d0 d : dry_inv d0 d -> dry_inv d0 (recount_depth d).
Proof. intros H. apply (inv_outline d0 d); try done. apply set_max_depth_adv. Qed.
End keeps.

(** ** The loop over the seeds *)

Lemma lookup_map {A B} (f : A -> B) (l : list A) (k : nat) : map f l !! k = f <$> l !! k.
Proof. apply list_lookup_fmap. Qed.

(** The file of an entry is as long as the entry. *)
Lemma entry_file {W} n (a : afl_state W) k q :
  afl_ok n a -> queue_buf (af_queue a) !! k = Some q ->
  exists file, queue_files a !! k = Some file /\ Z.of_nat (length file) = q_len q.
Proof.
  intros Hok Hq. pose proof (f_equal (fun l => l !! k) (ok_files n a Hok)) as E. simpl in E.
  rewrite !lookup_map, Hq in E. destruct (queue_files a !! k) as [file|]; [|done]. exists file. by injection E.
Qed.

Section running.
Context {W : Type} `{!Executor W} `{!Forkserver W}.
Context (n : Z) (wb : nat) (Hwb : wb = 4%nat \/ wb = 8%nat) (hash64 : list Z -> Z) (junk : Z) (g : run_cfg) (o : dry_cfg).
Hypothesis Htraces : traces_ok (W:=W) n.
Implicit Types d : dry W.

(** Results of a calibration for which the options ask to give up *)
Definition fatal_verdict (res : fsrv_run_result) : Prop :=
  match res with
  | FSRV_RUN_OK => crash_mode g <> FSRV_RUN_OK
  | FSRV_RUN_TMOUT => timeout_given o = false \/ exit_on_seed_issues o = true
  | FSRV_RUN_CRASH => crash_mode g = FSRV_RUN_OK /\ exit_on_seed_issues o = true
  | FSRV_RUN_ERROR | FSRV_RUN_NOINST => True
  | FSRV_RUN_NOBITS => False
  end.

(** The bytes of the entry [k], if it is a seed the dry run of [d] looks at *)
Definition seed d (k : nat) (mem : list Z) : Prop :=
  exists q file, queue_buf (dq d) !! k = Some q /\ q_disabled q = false /\ q_len q <> 0
    /\ queue_files (d_afl d) !! k = Some file /\ mem = take (Z.to_nat (Z.min (q_len q) MAX_FILE)) file.

(** A seed was calibrated with this result. *)
Definition calibrated (fuel : nat) d (res : fsrv_run_result) : Prop :=
  exists k mem (a a' : afl_state W), seed d k mem /\ calibrate_case wb hash64 junk g fuel k mem 0 true 0 a = Some (res, a').

Definition fatal_seed (fuel : nat) d : Prop := exists res, calibrated fuel d res /\ fatal_verdict res.

(** The seeds stay what they are. *)
Lemma seed_later d0 d k q file :
  afl_ok n (d_afl d0) -> dry_inv n d0 d -> queue_buf (dq d) !! k = Some q -> q_disabled q = false -> q_len q <> 0 ->
  queue_files (d_afl d) !! k = Some file -> seed d0 k (take (Z.to_nat (Z.min (q_len q) MAX_FILE)) file).
Proof using Type.
  clear Hwb. intros Hok Hv Hq Hd Hz Hf. destruct (Forall2_lookup_r _ _ _ _ _ (dv_same n _ _ Hv) Hq) as (q0 & Hq0 & _ & Hl & _ & Hd0).
  pose proof (lookup_lt_Some _ _ _ Hq0) as Hlt. exists q0, file. rewrite <- Hl. split_and!; [done| |done| |done].
  - destruct (q_disabled q0); [|done]. rewrite Hd0 in Hd; done.
  - destruct (lt_queue _ _ (dv_later n _ _ Hv)) as [rest Hr]. rewrite Hr, lookup_app_l in Hf; [done|].
    assert (length (queue_buf (dq d0)) = length (queue_files (d_afl d0))); [|lia].
    pose proof (f_equal length (ok_files n _ Hok)) as E. by rewrite !length_map in E.
Qed.

(** Entries of a target that are in use, among the first [k] *)
Definition in_use d (k : nat) (t : Z) : Prop :=
  exists j q, (j < k)%nat /\ queue_buf (dq d) !! j = Some q /\ q_targetFunctionIdx q = t /\ q_disabled q = false.

(** Active targets have an entry, and each timeout has taken one out of use. *)
Record seeds_inv (fuel : nat) d0 (k : nat) d : Prop := {
  sv_inv : dry_inv n d0 d;
  sv_active : forall t, d_targetActive d !! t = Some true -> in_use d k (Z.of_nat t);
  sv_failures : 0 <= cal_failures d /\ cal_failures d + enabled (queue_buf (dq d)) <= Z.of_nat (length (queue_buf (dq d)));
  sv_crash : crash_mode g <> FSRV_RUN_OK -> d_targetActive d = d_targetActive d0;
  sv_ran : d_targetActive d = d_targetActive d0 \/ calibrated fuel d0 FSRV_RUN_OK;
  sv_tmout : cal_failures d = 0 \/ calibrated fuel d0 FSRV_RUN_TMOUT;
}.

Lemma in_use_outline d d' k t : outline (d_afl d') = outline (d_afl d) -> in_use d k t -> in_use d' k t.
Proof using Type.
  clear Hwb. intros Ho (j & q & Hj & Hq & Ht & Hd). unfold outline, outline_of in Ho. fold (dq d) (dq d') in Ho. injection Ho as E _ _ _ _.
  apply (f_equal (fun l => l !! j)) in E. rewrite !lookup_map, Hq in E. destruct (queue_buf (dq d') !! j) as [q'|] eqn:Eq; [|done].
  simpl in E. injection E as E1 _ _ _ E5. exists j, q'. repeat split; try done; congruence.
Qed.

Lemma in_use_disable d k t : in_use d k t -> in_use (disable k d) k t.
Proof using Type.
  clear Hwb. intros (j & q & Hj & Hq & Ht & Hd). exists j, q. split; [done|]. split; [|done].
  unfold dq. simpl. rewrite disable_entry_buf, list_lookup_alter_ne by lia. exact Hq.
Qed.

Lemma in_use_mono d k k' t : (k <= k')%nat -> in_use d k t -> in_use d k' t.
Proof using Type. clear Hwb. intros Hk (j & q & Hj & H). exists j, q. split; [lia|done]. Qed.

(** A step that leaves the outline of the queue and the tallies *)
Lemma seeds_outline fuel d0 k d d' :
  seeds_inv fuel d0 k d -> outline (d_afl d') = outline (d_afl d) -> advances n (d_afl d) (d_afl d') ->
  d_targetActive d' = d_targetActive d -> d_nextTarget d' = d_nextTarget d -> cal_failures d' = cal_failures d ->
  seeds_inv fuel d0 k d'.
Proof using Type.
  clear Hwb. intros [H1 H2 H3 H4 H5 H6] Ho Ha Et En Ef.
  assert (El : map flags (queue_buf (dq d')) = map flags (queue_buf (dq d))) by (unfold outline, outline_of in Ho; unfold dq; congruence).
  pose proof (f_equal length El) as Hlen. rewrite !length_map in Hlen.
  assert (Hv : dry_inv n d0 d') by (apply (inv_outline n d0 d); rewrite ?Et; done).
  split; [done| | |by rewrite Et|by rewrite Et|by rewrite Ef].
  - rewrite Et. intros t Ht. apply (in_use_outline d); [done|by apply H2].
  - rewrite Ef, Hlen. replace (enabled (queue_buf (dq d'))) with (enabled (queue_buf (dq d))); [done|].
    rewrite <- (td_pending _ (dv_tidy n _ _ H1)), <- (td_pending _ (dv_tidy n _ _ Hv)).
    unfold outline, outline_of in Ho. unfold dq. congruence.
Qed.

(** An entry taken out of use, with or without counting it as a failure *)
Lemma seeds_disable fuel d0 k d f q :
  seeds_inv fuel d0 k d -> queue_buf (dq d) !! k = Some q -> q_disabled q = false ->
  f = 0 \/ (f = 1 /\ calibrated fuel d0 FSRV_RUN_TMOUT) ->
  seeds_inv fuel d0 (S k) (set_tallies (useless_at_start d) (u32 (cal_failures d + f)) (disable k d)).
Proof using Type.
  clear Hwb. intros [H1 H2 [H3 H3'] H4 H5 H6] Hq Hd Hf. pose proof (inv_disable n d0 d k H1) as Hv.
  assert (Hdq : dq (set_tallies (useless_at_start d) (u32 (cal_failures d + f)) (disable k d)) = disable_entry k (dq d)) by done.
  pose proof (enabled_bounds (queue_buf (disable_entry k (dq d)))) as Hb.
  rewrite disable_entry_buf, (enabled_disable k _ q Hq), Hd in Hb. pose proof (td_size _ (dv_tidy n _ _ H1)) as Hs.
  split; [by destruct Hv| | |done|done|].
  - intros t Ht. apply (in_use_mono _ k); [lia|]. exact (in_use_disable d k _ (H2 t Ht)).
  - rewrite Hdq. cbn [cal_failures set_tallies]. rewrite disable_entry_buf, length_alter, (enabled_disable k _ q Hq), Hd.
    rewrite u32_id by lia. lia.
  - destruct Hf as [->|[-> ?]]; [|by right]. destruct H6 as [H6|]; [left; simpl; by rewrite H6|by right].
Qed.

Lemma seeds_mono fuel d0 k k' d : (k <= k')%nat -> seeds_inv fuel d0 k d -> seeds_inv fuel d0 k' d.
Proof using Type. clear Hwb. intros Hk []. split; try done. intros t Ht. apply (in_use_mono _ k); auto. Qed.

Lemma seeds_failures_small fuel d0 k d : seeds_inv fuel d0 k d -> 0 <= cal_failures d < 2 ^ 32.
Proof using Type.
  clear Hwb. intros [H1 _ [H3 H4] _ _ _]. pose proof (enabled_bounds (queue_buf (dq d))).
  pose proof (td_size _ (dv_tidy n _ _ H1)). lia.
Qed.

Lemma wr_done {A} (l : list A) i v : 0 <= i < Z.of_nat (length l) -> wr l i v = Done (<[Z.to_nat i := v]> l).
Proof using Type. clear Hwb. intros Hi. unfold wr. rewrite (proj2 (andb_true_iff _ _)); [done|]. lia. Qed.

Lemma rd_done {A} (l : list A) (k : nat) x : l !! k = Some x -> rd l (Z.of_nat k) = Done x.
Proof using Type. clear Hwb. intros E. unfold rd. rewrite (proj2 (Z.leb_le _ _)) by lia. by rewrite Nat2Z.id, E. Qed.

(** The verdict on the entry [k] *)
Lemma dry_verdict_spec fuel d0 k d q res :
  seeds_inv fuel d0 k d -> calibrated fuel d0 res -> queue_buf (dq d) !! k = Some q -> q_disabled q = false ->
  0 <= q_targetFunctionIdx q < Z.of_nat (length (d_targetActive d)) ->
  match dry_verdict g o res k (q_targetFunctionIdx q) d with
  | Done d' => seeds_inv fuel d0 (S k) d'
  | Fatal => fatal_verdict res
  | _ => False
  end.
Proof using Type.
  clear Hwb. intros Hv Hcal Hq Hd Ht. assert (HS : seeds_inv fuel d0 (S k) d) by (apply (seeds_mono fuel d0 k); [lia|done]).
  destruct res; unfold dry_verdict; try done.
  - case_bool_decide as Hc; [|done]. cbn [negb]. rewrite wr_done by done. cbn [mbind outcome_bind].
    destruct HS as [[V1 V2 V3 V4 V5 V6 V7 V8] H2 H3 H4 H5 H6]. split; [split; try done| |done|done|by right|done].
    + simpl. by rewrite length_insert.
    + intros t Hta. cbn [d_targetActive set_active] in Hta. destruct (decide (t = Z.to_nat (q_targetFunctionIdx q))) as [->|].
      * exists k, q. split; [lia|]. split; [done|]. split; [lia|done].
      * rewrite list_lookup_insert_ne in Hta by done. exact (H2 t Hta).
  - destruct (timeout_given o) eqn:E1; destruct (exit_on_seed_issues o) eqn:E2; simpl; auto.
    apply (seeds_disable fuel d0 k (set_afl (on_cal (set_cal_failed CAL_CHANCES) k (d_afl d)) d) 1 q); [|done|done|by right].
    apply (seeds_outline fuel d0 k d); try done. apply on_cal_adv.
  - case_bool_decide as Hc; [|done]. cbn [negb]. destruct (exit_on_seed_issues o) eqn:E2; [done|].
    pose proof (seeds_disable fuel d0 k d 0 q Hv Hq Hd ltac:(by left)) as Hdis.
    eapply seeds_outline; [exact Hdis|done|apply set_max_depth_adv|done|done|].
    simpl. rewrite u32_id; [lia|]. pose proof (seeds_failures_small _ _ _ _ Hv). lia.
  - eapply seeds_outline; [exact HS|done|reflexivity|done|done|done].
Qed.

(** One seed *)
Lemma dry_seed_spec d0 k d fuel :
  (20 <= fuel)%nat -> afl_ok n (d_afl d0) -> seeds_inv fuel d0 k d -> (k < length (queue_buf (dq d)))%nat ->
  Forall (fun q => 0 <= q_targetFunctionIdx q < Z.of_nat (length (d_targetActive d0))) (queue_buf (dq d0)) ->
  match dry_seed wb hash64 junk g o fuel k d with
  | Done (d', false) => seeds_inv fuel d0 (S k) d'
  | Done (d', true) => dry_inv n d0 d'
  | Fatal => fatal_seed fuel d0
  | _ => False
  end.
Proof using Hwb Htraces.
  intros Hfuel Hok Hv Hk Htg. unfold dry_seed.
  destruct (lookup_lt_is_Some_2 _ _ Hk) as [q Hq]. rewrite (rd_done _ _ _ Hq). cbn [mbind outcome_bind].
  destruct (q_disabled q) eqn:Hd; [apply (seeds_mono fuel d0 k); [lia|done]|].
  destruct (Z.eqb_spec (q_len q) 0) as [|Hz]; [apply (seeds_mono fuel d0 k); [lia|done]|]. cbn [orb]. cbv zeta.
  set (d1 := if cmplog_only_new o then _ else d).
  assert (H1 : seeds_inv fuel d0 k d1 /\ d_afl d1 = d_afl d).
  { unfold d1. destruct (cmplog_only_new o); [|done]. split; [|done]. by apply (seeds_outline fuel d0 k d). }
  destruct H1 as [H1 Ea]. clearbody d1. rewrite Ea.
  destruct (entry_file n (d_afl d) k q) as (file & Ef & Hlen); [apply (sv_inv _ _ _ _ Hv)|done|].
  rewrite (rd_done _ _ _ Ef). cbn [mbind outcome_bind]. rewrite (proj2 (Nat.ltb_ge _ _)) by lia.
  set (mem := take _ file).
  destruct (calibrate_case_adv n wb Hwb hash64 junk g Htraces k mem 0 true 0 (d_afl d) fuel Hfuel) as (res & a' & E & Hadv).
  rewrite E. pose proof (calibrate_case_same wb hash64 junk g _ (outline_untouched W) _ _ _ _ _ _ _ _ _ E) as Ho.
  assert (H2 : seeds_inv fuel d0 k (set_afl a' d1)).
  { apply (seeds_outline fuel d0 k d1); cbn [d_afl set_afl]; rewrite ?Ea; done. }
  destruct (stop_soon (af_world a')); [apply H2|].
  injection Ho as Em _ _ _ _. apply (f_equal (fun l => l !! k)) in Em. fold (dq d) in Em. rewrite !lookup_map, Hq in Em.
  destruct (queue_buf (af_queue a') !! k) as [q'|] eqn:Eq'; [|done]. simpl in Em. injection Em as E1 _ _ _ E5.
  destruct (Forall2_lookup_r _ _ _ _ _ (dv_same n _ _ (sv_inv _ _ _ _ H2)) Eq') as (q0 & Hq0 & Hs).
  pose proof (Forall_lookup_1 _ _ _ _ Htg Hq0) as Ht. simpl in Ht.
  assert (Hcal : calibrated fuel d0 res).
  { exists k, mem, (d_afl d), a'. split; [|done]. apply (seed_later d0 d k q file Hok (sv_inv _ _ _ _ Hv)); done. }
  pose proof (dry_verdict_spec fuel d0 k (set_afl a' d1) q' res H2 Hcal Eq' ltac:(congruence)) as Hres.
  rewrite (dv_flags n _ _ (sv_inv _ _ _ _ H2)), <- (proj1 Hs) in *. specialize (Hres Ht). rewrite E1 in Hres.
  destruct (dry_verdict _ _ _ _ _ _) as [d'| | | |]; cbn [mbind outcome_bind]; try done. by exists res.
Qed.

Lemma dry_loop_spec d0 m k d fuel :
  (20 <= fuel)%nat -> afl_ok n (d_afl d0) -> seeds_inv fuel d0 k d -> (k + m)%nat = length (queue_buf (dq d0)) ->
  Forall (fun q => 0 <= q_targetFunctionIdx q < Z.of_nat (length (d_targetActive d0))) (queue_buf (dq d0)) ->
  match dry_loop wb hash64 junk g o fuel m k d with
  | Done (d', false) => seeds_inv fuel d0 (length (queue_buf (dq d0))) d'
  | Done (d', true) => dry_inv n d0 d'
  | Fatal => fatal_seed fuel d0
  | _ => False
  end.
Proof using Hwb Htraces.
  intros Hfuel Hok Hv Hk Htg. revert k d Hv Hk. induction m as [|m IH]; intros k d Hv Hk; cbn [dry_loop].
  { replace (length (queue_buf (dq d0))) with k by lia. done. }
  pose proof (Forall2_length _ _ _ (dv_same n _ _ (sv_inv _ _ _ _ Hv))) as Hl.
  pose proof (dry_seed_spec d0 k d fuel Hfuel Hok Hv ltac:(lia) Htg) as Hs.
  destruct (dry_seed _ _ _ _ _ _ _ _) as [[d' [|]]| | | |]; cbn [mbind outcome_bind fst snd]; try done. apply IH; [done|lia].
Qed.

(** ** After the loop *)

Lemma disable_all_inv d0 d ks : dry_inv n d0 d -> dry_inv n d0 (disable_all ks d).
Proof using Type. clear Hwb. intros H. induction ks as [|k ks IH]; [done|]. by apply inv_disable. Qed.

Lemma disable_all_other ks d j : j ∉ ks -> queue_buf (dq (disable_all ks d)) !! j = queue_buf (dq d) !! j.
Proof using Type.
  clear Hwb. induction ks as [|k ks IH]; [done|]. intros [Hne Hj]%not_elem_of_cons. rewrite <- (IH Hj). unfold dq. simpl.
  rewrite disable_entry_buf. by apply list_lookup_alter_ne.
Qed.

Lemma live_in_use d k e : live d k e -> in_use d (length (queue_buf (dq d))) (q_targetFunctionIdx e.1).
Proof using Type.
  clear Hwb. intros [E Hc]. pose proof (entry_at_lt d k e E) as Hk. unfold entry_at in E.
  destruct (queue_buf (dq d) !! k) as [q|] eqn:Eq; [|done]. simpl in E. destruct (af_cal (d_afl d) !! k); [|done].
  simpl in E. injection E as <-. exists k, q. split; [done|]. split; [done|]. split; [done|].
  unfold comparable in Hc. simpl in Hc. by destruct (q_disabled q).
Qed.

(** A target that has entries in use keeps one. *)
Lemma disable_all_in_use d ks t :
  length (af_cal (d_afl d)) = length (queue_buf (dq d)) ->
  (forall k, k ∈ ks -> exists e, live d k e) -> (forall k e, live (disable_all ks d) k e <-> best d k e) ->
  in_use d (length (queue_buf (dq d))) t -> in_use (disable_all ks d) (length (queue_buf (dq d))) t.
Proof using Type.
  clear Hwb. intros Hcal Hks Hbest (j & q & Hj & Hq & Ht & Hd). destruct (decide (j ∈ ks)) as [Hin|Hin].
  - destruct (Hks j Hin) as [e He]. destruct (best_exists d j e He) as (k' & b & Hb & Hs).
    apply Hbest, live_in_use in Hb. rewrite disable_all_length in Hb.
    replace t with (q_targetFunctionIdx b.1); [done|]. destruct He as [He _]. unfold entry_at in He. rewrite Hq in He.
    simpl in He. destruct (af_cal (d_afl d) !! j); [|done]. simpl in He. injection He as <-.
    unfold same_trace in Hs. apply andb_true_iff in Hs as [_ Hs%Z.eqb_eq]. simpl in Hs. congruence.
  - exists j, q. rewrite disable_all_other by done. done.
Qed.

(** The state after duplicates are gone *)
Record deduplicated (fuel : nat) d0 d : Prop := {
  dd_inv : dry_inv n d0 d;
  dd_active : forall t, d_targetActive d !! t = Some true -> in_use d (length (queue_buf (dq d0))) (Z.of_nat t);
  dd_once : forall k k' e e', live d k e -> live d k' e' -> same_trace e e' = true -> k' = k;
  dd_crash : crash_mode g <> FSRV_RUN_OK -> d_targetActive d = d_targetActive d0;
  dd_ran : d_targetActive d = d_targetActive d0 \/ calibrated fuel d0 FSRV_RUN_OK;
}.

Lemma remove_duplicates_ok fuel d0 d :
  seeds_inv fuel d0 (length (queue_buf (dq d0))) d -> deduplicated fuel d0 (remove_duplicates d).
Proof using Type.
  clear Hwb. intros [H1 H2 H3 H4 H5 _]. pose proof (ok_cal n _ (dv_ok n _ _ H1)) as Hcal. fold (dq d) in Hcal.
  pose proof (Forall2_length _ _ _ (dv_same n _ _ H1)) as Hl.
  destruct (remove_duplicates_spec d Hcal) as (ks & Hd' & Hks & Hbest). cbv zeta in *.
  assert (Et : d_targetActive (disable_all ks d) = d_targetActive d) by (clear; by induction ks).
  assert (HD : deduplicated fuel d0 (disable_all ks d)).
  { split; rewrite ?Et; try done.
    - by apply disable_all_inv.
    - intros t Ht. rewrite Hl in *. apply disable_all_in_use; try done. by apply H2.
    - intros k k' e e' Hk Hk' Hs. apply Hbest in Hk as [Hk Hmin], Hk' as [Hk' Hmin'].
      destruct (Hmin k' e' Hk' Hs). destruct (Hmin' k e Hk); [by rewrite same_trace_sym|]. lia. }
  destruct Hd' as [->| ->]; [done|]. destruct HD as [D1 D2 D3 D4 D5]. split; [|done|done|done|done].
  destruct (inv_recount n _ _ D1). by split.
Qed.

(** [cycleTarget] on flags that are all clear never returns. *)
Lemma cycleTarget_none fuel active t : Forall (fun b => b = false) active -> cycleTarget fuel active t = None.
Proof using Type.
  clear Hwb. intros Ha. revert t. induction fuel as [|fuel IH]; intros t; [done|]. cbn [cycleTarget].
  destruct (active !! _) as [[|]|] eqn:E; simpl; [|apply IH..]. by apply (Forall_lookup_1 _ _ _ _ Ha) in E.
Qed.

(** ... and on others it returns an active target. *)
Lemma cycleTarget_some fuel active t :
  0 <= t < Z.of_nat (length active) -> (length active <= fuel)%nat -> ~ Forall (fun b => b = false) active ->
  exists t', cycleTarget fuel active t = Some t' /\ 0 <= t' /\ active !! Z.to_nat t' = Some true.
Proof using Type.
  clear Hwb. intros Ht Hfuel Hn. apply (not_Forall_Exists _), Exists_exists in Hn as (b & (j & Hj)%list_elem_of_lookup & Hb).
  destruct b; [|by destruct Hb]. pose proof (lookup_lt_Some _ _ _ Hj) as Hl.
  destruct (around (Z.of_nat (length active)) t (Z.of_nat j)) as (e & He & E); [lia|lia|].
  destruct (cycleTarget_run active fuel t e) as (e' & He' & Hr & Ha & _); [lia|lia|by rewrite E, Nat2Z.id|].
  eexists. split; [exact Hr|]. split; [|exact Ha]. apply Z.mod_pos_bound. lia.
Qed.

Lemma first_target_ok fuel fuel' d0 d :
  (Z.to_nat MAX_TARGETS <= fuel)%nat -> deduplicated fuel' d0 d ->
  d_nextTarget d0 = 0 -> Z.of_nat (length (d_targetActive d0)) = MAX_TARGETS -> amountOfTargets (dq d0) <= MAX_TARGETS ->
  match first_target o fuel d with
  | Done d' => d' = set_next (d_nextTarget d') d
      /\ (arg_mode o = true -> 0 < amountOfTargets (dq d0) ->
            0 <= d_nextTarget d' /\ targets_of d !! Z.to_nat (d_nextTarget d') = Some true)
  | NoFuel => arg_mode o = true /\ 0 < amountOfTargets (dq d0) /\ Forall (fun b => b = false) (targets_of d)
  | _ => False
  end.
Proof using Type.
  clear Hwb. intros Hfuel [[V1 V2 V3 V4 V5 V6 V7 V8] _ _ _ _] Hn Hl Hm. unfold first_target. rewrite V5.
  destruct (arg_mode o); simpl; [|by destruct d].
  destruct (Z.ltb_spec 0 (amountOfTargets (dq d0))); [|split; [by destruct d|lia]].
  assert (Hlen : Z.of_nat (length (targets_of d)) = amountOfTargets (dq d0)).
  { unfold targets_of. rewrite length_take, V5, V7. lia. }
  destruct (lookup_lt_is_Some_2 (targets_of d) 0) as [b0 Hb0]; [lia|]. pose proof Hb0 as Hb0'. unfold targets_of in Hb0'.
  rewrite lookup_take_lt in Hb0' by lia.
  pose proof (rd_done (d_targetActive d) 0 b0 Hb0') as Hrd. change (Z.of_nat 0) with 0 in Hrd. rewrite Hrd. cbn [mbind outcome_bind]. destruct b0; cbn [negb].
  { split; [by destruct d|]. intros _ _. rewrite V8, Hn. split; [lia|done]. }
  destruct (decide (Forall (fun b => b = false) (targets_of d))) as [Hf|Hf].
  { by rewrite cycleTarget_none. }
  destruct (cycleTarget_some fuel (targets_of d) (d_nextTarget d)) as (t & -> & Ht & Ha); [lia|lia|done|]. done.
Qed.

(** What the dry run relies on: a queue in order before fuzzing, with no target active *)
Record dry_ready d : Prop := {
  dr_ok : afl_ok n (d_afl d);
  dr_tidy : tidy (dq d);
  dr_targets : Forall (fun q => 0 <= q_targetFunctionIdx q < MAX_TARGETS) (queue_buf (dq d));
  dr_flags : d_targetActive d = replicate (Z.to_nat MAX_TARGETS) false;
  dr_amount : amountOfTargets (dq d) <= MAX_TARGETS;
  dr_next : d_nextTarget d = 0;
}.

Lemma dry_ready_flags d : dry_ready d -> Z.of_nat (length (d_targetActive d)) = MAX_TARGETS.
Proof using Type. clear Hwb. intros Hr. rewrite (dr_flags _ Hr), length_replicate. done. Qed.

Lemma dry_ready_seeds fuel d : dry_ready d -> seeds_inv fuel d 0 (set_tallies (useless_at_start d) 0 d).
Proof using Type.
  clear Hwb. intros Hr. split; [by split; try done; apply Hr| | |done|by left|by left].
  - intros t Ht. simpl in Ht. rewrite (dr_flags _ Hr) in Ht. by apply lookup_replicate in Ht as [? _].
  - simpl. pose proof (enabled_bounds (queue_buf (dq d))). change (dq (set_tallies (useless_at_start d) 0 d)) with (dq d). lia.
Qed.

(** The results of the dry run *)
Definition dry_result (fuel : nat) d (r : outcome (dry W * bool)) : Prop :=
  match r with
  | Done (d', true) => dry_inv n d (set_next 0 d')
  | Done (d', false) =>
      dry_inv n d (set_next 0 d')
      /\ (forall t, d_targetActive d' !! t = Some true -> in_use d' (length (queue_buf (dq d))) (Z.of_nat t))
      /\ (forall k k' e e', live d' k e -> live d' k' e' -> same_trace e e' = true -> k' = k)
      /\ (arg_mode o = true -> 0 < amountOfTargets (dq d) ->
            crash_mode g = FSRV_RUN_OK /\ calibrated fuel d FSRV_RUN_OK
            /\ 0 <= d_nextTarget d' /\ targets_of d' !! Z.to_nat (d_nextTarget d') = Some true)
  | NoFuel => arg_mode o = true /\ 0 < amountOfTargets (dq d)
      /\ exists d', dry_inv n d d' /\ Forall (fun b => b = false) (targets_of d')
  | Fatal => fatal_seed fuel d
      \/ (calibrated fuel d FSRV_RUN_TMOUT /\ exists d', dry_inv n d d' /\ enabled (queue_buf (dq d')) = 0)
  | Oob | Fpe => False
  end.

Lemma clear_flags d d' : dry_ready d -> d_targetActive d' = d_targetActive d -> Forall (fun b => b = false) (targets_of d').
Proof using Type.
  clear Hwb. intros Hr E. unfold targets_of. rewrite E, (dr_flags _ Hr). apply Forall_take, Forall_replicate. done.
Qed.

Lemma perform_dry_run_ok fuel d :
  (Z.to_nat MAX_TARGETS <= fuel)%nat -> dry_ready d -> dry_result fuel d (perform_dry_run wb hash64 junk g o fuel d).
Proof using Hwb Htraces.
  intros Hfuel Hr. pose proof (dry_ready_flags d Hr) as Hflags. unfold perform_dry_run. cbv zeta.
  set (d1 := set_tallies (useless_at_start d) 0 d). change (dq d1) with (dq d).
  pose proof (dry_loop_spec d (length (queue_buf (dq d))) 0 d1 fuel ltac:(unfold MAX_TARGETS in *; lia)
    (dr_ok _ Hr) (dry_ready_seeds fuel d Hr) eq_refl) as Hl. rewrite Hflags in Hl. specialize (Hl (dr_targets _ Hr)).
  destruct (dry_loop _ _ _ _ _ _ _ _ _) as [[d2 [|]]| | | |]; cbn [mbind outcome_bind fst snd dry_result]; try done; [| |by left].
  { destruct Hl as [V1 V2 V3 V4 V5 V6 V7 V8]. split; try done. by rewrite (dr_next _ Hr). }
  destruct (negb _ && _) eqn:Ef.
  - apply andb_true_iff in Ef as [E1%negb_true_iff%Z.eqb_neq E2%Z.eqb_eq]. right. destruct Hl as [H1 _ [H3 H3'] _ _ [H6|H6]]; [done|].
    split; [done|]. exists d2. split; [done|]. pose proof (enabled_bounds (queue_buf (dq d2))). lia.
  - pose proof (remove_duplicates_ok fuel d d2 Hl) as Hdd. set (d3 := remove_duplicates d2) in *.
    pose proof (first_target_ok fuel fuel d d3 Hfuel Hdd (dr_next _ Hr) Hflags (dr_amount _ Hr)) as Hft.
    destruct (first_target o fuel d3) as [d4| | | |]; cbn [mbind outcome_bind dry_result]; try done.
    2:{ destruct Hft as (? & ? & ?). split; [done|]. split; [done|]. exists d3. split; [apply Hdd|done]. }
    destruct Hft as [Ed4 Hnext]. destruct Hdd as [[V1 V2 V3 V4 V5 V6 V7 V8] D2 D3 D4 D5]. rewrite Ed4.
    split; [split; try done; simpl; by rewrite (dr_next _ Hr)|]. split; [done|]. split; [done|].
    intros Ham Hamt. destruct (Hnext Ham Hamt) as [Hn0 Hna].
    assert (Hno : d_targetActive d3 = d_targetActive d -> False).
    { intros E. by apply (Forall_lookup_1 _ _ _ _ (clear_flags d d3 Hr E)) in Hna. }
    split; [destruct (decide (crash_mode g = FSRV_RUN_OK)); [done|by exfalso; auto]|].
    split; [destruct D5; [by exfalso; auto|done]|done].
Qed.
End running.

(** ** Theorems *)

Section theorems.
Context {W : Type} `{!Executor W} `{!Forkserver W}.

(** C16: the dry run of a queue that is in order returns, and never leaves an array.  What it
    leaves is in order: the invariant of the fuzzer holds, the entries are those from before
    apart from their flags, the counters of pending and active entries are exact.  A target is
    active only if one of its entries is in use; no two entries of a target that are compared
    have the same trace; and with targets, the one to begin with is active and a seed of an
    active target ran normally.  It gives up only if a seed had a result for which the options
    ask that, or all of them timed out.  It does not return at all only if there are targets
    and none of them is active. *)
Theorem dry_run_correct n wb hash64 junk g o fuel (d : dry W) :
  wb = 4%nat \/ wb = 8%nat -> traces_ok (W:=W) n -> (Z.to_nat MAX_TARGETS <= fuel)%nat -> dry_ready n d ->
  dry_result n wb hash64 junk g o fuel d (perform_dry_run wb hash64 junk g o fuel d).
Proof. intros Hwb Ht. by apply perform_dry_run_ok. Qed.

(** C26: of the entries of a target with one trace, the dry run leaves exactly the first of
    the shortest; entries it does not compare stay as they are. *)
Theorem dry_run_keeps_shortest (d : dry W) :
  length (af_cal (d_afl d)) = length (queue_buf (dq d)) ->
  (forall k e, live (remove_duplicates d) k e <-> best d k e)
  /\ (forall k e, entry_at k d = Some e -> comparable e.1 e.2 = false -> entry_at k (remove_duplicates d) = Some e).
Proof.
  intros Hcal. destruct (remove_duplicates_spec d Hcal) as (ks & Hd & Hks & Hb). cbv zeta in Hd, Hb.
  assert (He : forall k, entry_at k (remove_duplicates d) = entry_at k (disable_all ks d)) by (by destruct Hd as [->| ->]).
  split; [intros k e; rewrite <- Hb; unfold live; by rewrite He|].
  intros k e Ek Hc. rewrite He. assert (Hk : k ∉ ks).
  { intros Hin. destruct (Hks k Hin) as (e' & Ek' & Hc'). rewrite Ek' in Ek. injection Ek as ->. congruence. }
  unfold entry_at. rewrite disable_all_other, disable_all_cal by done. exact Ek.
Qed.

(** ** Seeds that all crash *)

Lemma calibrate_crash wb hash64 junk g fuel k mem (a a' : afl_state W) res :
  crash_mode g = FSRV_RUN_OK ->
  (forall (w : W) t, (fuzz_run_target w t (write_to_testcase junk g true mem)).1.1 = FSRV_RUN_CRASH) ->
  calibrate_case wb hash64 junk g fuel k mem 0 true 0 a = Some (res, a') -> res = FSRV_RUN_CRASH.
Proof.
  intros Hc Hrun. assert (Hcal : forall t cur c, exists c', cal_run junk g t mem cur c = CalAborted FSRV_RUN_CRASH c').
  { intros t cur c. unfold cal_run, run_target. pose proof (Hrun (af_world (c_afl c)) t) as Hr.
    destruct (fuzz_run_target _ _ _) as [[f tr] w]. simpl in Hr. subst f. cbn [fst snd]. rewrite Hc.
    rewrite bool_decide_eq_false_2 by done. rewrite orb_true_r. by eexists. }
  unfold calibrate_case. cbv zeta. set (t := if negb true || _ then _ else _). set (c := Calib (select_target _ _) _ _ _).
  assert (Hmax : 0 < c_max c) by (simpl; unfold CAL_CYCLES; destruct (cal_fast g); lia). clearbody c t.
  destruct (cmplog_mode g).
  { destruct (Hcal t 0 c) as [c' ->]. by intros [= <- _]. }
  set (c2 := if negb _ then _ else c). assert (Hm2 : 0 < c_max c2).
  { unfold c2. destruct (negb _); [|done]. unfold note_bits. by destruct (has_new_bits _ _ _ _). }
  clearbody c2. destruct fuel as [|fuel]; cbn [cal_loop]; rewrite (proj2 (Z.ltb_lt _ _) Hm2); [done|].
  destruct (Hcal t 0 c2) as [c' ->]. by intros [= <- _].
Qed.

Lemma dry_loop_not_stopped wb hash64 junk g o fuel m k (d d' : dry W) :
  (forall w : W, stop_soon w = false) -> dry_loop wb hash64 junk g o fuel m k d <> Done (d', true).
Proof.
  intros Hs. revert k d. induction m as [|m IH]; intros k d; cbn [dry_loop]; [done|].
  assert (Hseed : forall x, dry_seed wb hash64 junk g o fuel k d <> Done (x, true)).
  { intros x. unfold dry_seed. destruct (rd (queue_buf _) _) as [q| | | |]; cbn [mbind outcome_bind]; try done.
    destruct (_ || _); [done|]. cbv zeta. destruct (rd (queue_files _) _) as [f| | | |]; cbn [mbind outcome_bind]; try done.
    destruct (_ <? _)%nat; [done|]. destruct (calibrate_case _ _ _ _ _ _ _ _ _ _ _) as [[res a]|]; [|done].
    rewrite Hs. by destruct (dry_verdict _ _ _ _ _ _). }
  destruct (dry_seed _ _ _ _ _ _ _ _) as [[x [|]]| | | |]; cbn [mbind outcome_bind fst snd]; try done.
Qed.

(** C40: if the target crashes on every seed, the dry run of a program with targets never
    returns, however long it runs, unless AFL_EXIT_ON_SEED_ISSUES or crash mode is set or the
    user stops it: crashes are not counted as failures, so the check that gives up when all
    test cases time out or crash does not fire, and the search for an active target has none
    to find. *)
Theorem crashing_seeds_never_end n wb hash64 junk g o fuel (d : dry W) :
  wb = 4%nat \/ wb = 8%nat -> traces_ok (W:=W) n -> dry_ready n d ->
  (forall k mem (w : W) t, seed d k mem -> (fuzz_run_target w t (write_to_testcase junk g true mem)).1.1 = FSRV_RUN_CRASH) ->
  (forall w : W, stop_soon w = false) ->
  crash_mode g = FSRV_RUN_OK -> exit_on_seed_issues o = false -> arg_mode o = true -> 0 < amountOfTargets (dq d) ->
  (Z.to_nat MAX_TARGETS <= fuel)%nat -> perform_dry_run wb hash64 junk g o fuel d = NoFuel.
Proof.
  intros Hwb Ht Hr Hcrash Hstop Hc He Ham Hamt Hfuel.
  pose proof (perform_dry_run_ok n wb Hwb hash64 junk g o Ht fuel d Hfuel Hr) as H.
  assert (Hcal : forall res, calibrated (W:=W) wb hash64 junk g fuel d res -> res = FSRV_RUN_CRASH).
  { intros res (k & mem & a & a' & Hs & E). eapply calibrate_crash; [done| |exact E]. intros w t. by apply (Hcrash k). }
  destruct (perform_dry_run _ _ _ _ _ _ _) as [[d' [|]]| | | |] eqn:E; simpl in H; try done.
  - exfalso. unfold perform_dry_run in E. cbv zeta in E.
    destruct (dry_loop _ _ _ _ _ _ _ _ _) as [[x [|]]| | | |] eqn:El; cbn [mbind outcome_bind fst snd] in E; try done.
    + by apply dry_loop_not_stopped in El.
    + destruct (negb _ && _); [done|]. by destruct (first_target _ _ _).
  - destruct H as (_ & _ & _ & H). destruct (H Ham Hamt) as (_ & Hok & _). by apply Hcal in Hok.
  - destruct H as [(res & Hres & Hf)|[Hto _]]; [|by apply Hcal in Hto]. apply Hcal in Hres as ->. simpl in Hf.
    destruct Hf. congruence.
Qed.
End theorems.

(** ** A target *)

(** The first byte of the input selects the counter that becomes 1; inputs that start with
    9 crash, those that start with 8 take too long. *)
#[local] Instance probe_executor : Executor unit := {
  fuzz_run_target w timeout input :=
    let c := (hd 0 input) `mod` 64 in
    (if c =? 9 then FSRV_RUN_CRASH else if c =? 8 then FSRV_RUN_TMOUT else FSRV_RUN_OK,
     <[Z.to_nat c := 1]> (replicate 64 0), tt);
  stop_soon w := false;
}.
#[local] Instance probe_forkserver : Forkserver unit := {
  fsrv_target w := Some 0;
  afl_fsrv_start w _ := tt;
  get_cur_time_us w := 0;
  skip_requested w := false;
  clear_skip w := tt;
}.

Lemma probe_traces : traces_ok (W:=unit) 64.
Proof.
  intros w timeout input. unfold fuzz_run_target, probe_executor. cbn [fst snd].
  split; [by rewrite length_insert, length_replicate|].
  apply Forall_insert; [apply Forall_replicate|]; unfold byte_ok; lia.
Qed.

(** A queue of seeds, with their targets; two targets *)
Definition probe_seeds (l : list (list Z * Z)) : afl_state unit :=
  foldl (fun a s => new_entry s.1 s.2 a) (afl_start 64 EXPLORE false [true; true] tt) l.
Definition probe_dry (l : list (list Z * Z)) : dry unit :=
  Dry (probe_seeds l) (map (fun _ => S754_zero false) l) (map (fun _ => 0) l)
    (replicate (Z.to_nat MAX_TARGETS) false) 0 0 0 0 0.
Definition probe_opts : dry_cfg := DryCfg true false false true.

Lemma probe_seeds_ok l : afl_ok 64 (probe_seeds l).
Proof.
  unfold probe_seeds. assert (H : afl_ok 64 (afl_start 64 EXPLORE false [true; true] tt)) by (by apply afl_start_ok).
  revert H. generalize (afl_start 64 EXPLORE false [true; true] tt). induction l as [|s l IH]; intros a H; [done|].
  simpl. by apply IH, new_entry_adv.
Qed.

Lemma probe_ready l :
  tidy (dq (probe_dry l)) -> Forall (fun q => 0 <= q_targetFunctionIdx q < MAX_TARGETS) (queue_buf (dq (probe_dry l))) ->
  amountOfTargets (dq (probe_dry l)) <= MAX_TARGETS -> dry_ready 64 (probe_dry l).
Proof. intros H1 H2 H3. split; try done. apply probe_seeds_ok. Qed.

Definition mixed_seeds : list (list Z * Z) := [([5; 6], 0); ([5], 0); ([9], 1); ([7; 7], 1); ([8], 1)].

Lemma mixed_ready : dry_ready 64 (probe_dry mixed_seeds).
Proof.
  apply probe_ready; [|unfold MAX_TARGETS; repeat (apply Forall_cons; split; [simpl; lia|]); by apply Forall_nil|done].
  by split; [repeat (apply Forall_cons; split; [done|]); by apply Forall_nil| | |].
Qed.

(** Of the five seeds two are left: the shorter one of the first two, and the one of the
    second target that neither crashes nor takes too long.  Both targets are active. *)
Lemma dry_run_correct_witness :
  exists d', perform_dry_run 8 toy_hash 0 (toy_cfg false false) probe_opts 256 (probe_dry mixed_seeds) = Done (d', false)
    /\ map q_disabled (queue_buf (dq d')) = [true; false; true; false; true] /\ targets_of d' = [true; true]
    /\ tidy (dq d').
Proof.
  pose proof (dry_run_correct 64 8 toy_hash 0 (toy_cfg false false) probe_opts 256 (probe_dry mixed_seeds)
    (or_intror eq_refl) probe_traces ltac:(unfold MAX_TARGETS; lia) mixed_ready) as H.
  assert (Hk : match perform_dry_run 8 toy_hash 0 (toy_cfg false false) probe_opts 256 (probe_dry mixed_seeds) with
    | Done (d', false) => (map q_disabled (queue_buf (dq d')), targets_of d')
    | _ => ([], []) end = ([true; false; true; false; true], [true; true])) by (vm_compute; reflexivity).
  destruct (perform_dry_run _ _ _ _ _ _ _) as [[d' [|]]| | | |]; try done. injection Hk as H1 H2.
  exists d'. destruct H as [Hv _]. split; [done|]. split; [done|]. split; [done|]. apply (dv_tidy _ _ _ Hv).
Defined.

(** Three entries with one trace, and one that could not be calibrated *)
Definition three_alike : dry unit :=
  set_afl (set_cal [CalInfo 7 0 true false 0 1; CalInfo 7 0 false false 0 1; CalInfo 7 0 false false 0 1; CalInfo 7 1 false false 0 0]
    (probe_seeds [([5; 6], 0); ([5], 0); ([5; 6; 7], 0); ([9], 0)])) (probe_dry []).

Lemma dry_run_keeps_shortest_witness :
  (exists e, best three_alike 1 e /\ forall k e', live (remove_duplicates three_alike) k e' -> k = 1%nat)
  /\ map q_disabled (queue_buf (dq (remove_duplicates three_alike))) = [true; false; true; false].
Proof.
  destruct (dry_run_keeps_shortest three_alike eq_refl) as [H _]. split; [|vm_compute; reflexivity].
  set (r := remove_duplicates three_alike) in *.
  assert (Hr : map (fun k => match entry_at k r with Some e => comparable e.1 e.2 | None => false end) (seq 0 4)
    = [false; true; false; false]) by (vm_compute; reflexivity).
  assert (Hl : length (queue_buf (dq r)) = 4%nat) by (vm_compute; reflexivity).
  assert (Hat : forall k, (k < 4)%nat -> [false; true; false; false] !! k
    = Some (match entry_at k r with Some e => comparable e.1 e.2 | None => false end)).
  { intros k Hk. rewrite <- Hr, lookup_map, lookup_seq_lt by done. done. }
  pose proof (Hat 1%nat ltac:(lia)) as H1. destruct (entry_at 1 r) as [e|] eqn:E1; [|done]. injection H1 as H1.
  exists e. split; [by apply H|]. intros k e' [Ek Hc]. pose proof (entry_at_lt r k e' Ek) as Hk. rewrite Hl in Hk.
  pose proof (Hat k Hk) as H2. rewrite Ek, Hc in H2. by destruct k as [|[|[|[|k]]]].
Defined.

(** Three seeds on which the target crashes: it does so on what starts with 9. *)
Definition crashing_seeds : list (list Z * Z) := [([9; 1], 0); ([9], 1); ([9; 9; 9], 1)].

Lemma crashing_ready : dry_ready 64 (probe_dry crashing_seeds).
Proof.
  apply probe_ready; [|unfold MAX_TARGETS; repeat (apply Forall_cons; split; [simpl; lia|]); by apply Forall_nil|done].
  by split; [repeat (apply Forall_cons; split; [done|]); by apply Forall_nil| | |].
Qed.

Lemma crashing_seeds_never_end_witness :
  perform_dry_run 8 toy_hash 0 (toy_cfg false false) probe_opts 300 (probe_dry crashing_seeds) = NoFuel.
Proof.
  apply (crashing_seeds_never_end 64); try done.
  - by right.
  - exact probe_traces.
  - exact crashing_ready.
  - intros k mem w t (q & file & Hq & _ & _ & Hf & ->). destruct k as [|[|[|k]]]; try discriminate Hf;
      injection Hq as <-; injection Hf as <-; vm_compute; reflexivity.
  - unfold MAX_TARGETS. lia.
Defined.

(** A seed that shows nothing new does not activate its target, although it ran normally
    and stays in the queue: the second target here is left out. *)
Example useless_seed_leaves_target_out :
  match perform_dry_run 8 toy_hash 0 (toy_cfg false false) probe_opts 256 (probe_dry [([5], 0); ([5; 6], 1)]) with
  | Done (d', false) => (map q_disabled (queue_buf (dq d')), targets_of d', useless_at_start d')
  | _ => ([], [], 0)
  end = ([false; false], [true; false], 1).
Proof. vm_compute. reflexivity. Qed.
