(* ===== verification/Sync.v ===== *)
(** * Synchronisation with other fuzzers (src/aflplusplus/src/afl-fuzz-run.c)

    Fuzzers that share a directory read each other's queues: [sync_fuzzers] runs the test
    cases of the others that it has not seen and keeps the interesting ones.  A secondary
    node reads only from the main node; if there is none it takes that part itself.

    Of the shared directory the model has what is read: for each other fuzzer its name,
    whether it is marked as a main node, and its queue directory as [scandir] returns it, with
    the contents of the files that can be opened.  The numbers of the next test case to read,
    in the files of .synced, are a map.  No foreign directories are read (-F). *)
From S2P Require Import Prelude Bitmap Alloc Queue DetStages Trim Run NumText Alias Names FuzzLoop.
#[local] Open Scope Z_scope.

Record peer := Peer {
  p_name : list Z;
  p_is_main : bool;                                      (* the file is_main_node exists *)
  p_queue : option (list (list Z * option (list Z)));    (* [None]: no queue directory *)
}.

Record syncing (W : Type) := Syncing {
  y_afl : afl_state W;
  y_next : gmap (list Z) Z;    (* .synced *)
  y_is_main_node : bool;
  queued_imported : Z;
}.
Arguments Syncing {W}. Arguments y_afl {W}. Arguments y_next {W}. Arguments y_is_main_node {W}. Arguments queued_imported {W}.

Section sync.
Context {W : Type} `{!Executor W} `{!Forkserver W}.
Context (wb : nat) (hash64 : list Z -> Z) (junk : Z) (g : run_cfg).
Context (sync_id : list Z) (is_secondary_node : bool) (targetNames : list (list Z)) (rounds fuel : nat).
Implicit Types s : syncing W.

Definition set_yafl (a : afl_state W) s : syncing W := Syncing a (y_next s) (y_is_main_node s) (queued_imported s).
Definition set_ynext (p : list Z) (n : Z) s : syncing W :=
  Syncing (y_afl s) (<[p := n]> (y_next s)) (y_is_main_node s) (queued_imported s).
Definition set_main (b : bool) s : syncing W := Syncing (y_afl s) (y_next s) b (queued_imported s).
Definition set_imported (n : Z) s : syncing W := Syncing (y_afl s) (y_next s) (y_is_main_node s) n.
Definition set_cur_depth (x : Z) (a : queue) : queue :=
  Queue (queue_buf a) (top_rated a) (n_fuzz a) (schedule a) (fixed_seed a) (score_changed a) (queued_favored a)
    (pending_favored a) (pending_not_fuzzed a) (active_items a) (ready_for_splicing_count a)
    (max_depth a) x (entriesForTarget a) (amountOfTargets a) (firstCycleDone a).

(** One test case of another fuzzer, run by the fork server that is running; the flag says
    that [afl->stop_soon] is set. *)
Definition import_case (name mem : list Z) s : outcome (syncing W * bool) :=
  target ← getTargetName name;
  let '(fault, a) := run_target (exec_tmout g) (write_to_testcase junk g true mem) (y_afl s) in
  if stop_soon (af_world a) then Done (set_yafl a s, true)
  else
    match save_if_interesting wb hash64 junk g rounds fuel mem fault 0 (getTargetIdx targetNames target 0) a with
    | RDone kept a => Done (set_imported (u32 (queued_imported s + if (kept : bool) then 1 else 0)) (set_yafl a s), false)
    | RFatal => Fatal
    | RNoFuel => NoFuel
    end.

(** [for (o = m; o < n; o++)]: the number of the next test case, unless stopped *)
Fixpoint import_cases (l : list (list Z * option (list Z))) (next : Z) s : outcome (syncing W * option Z) :=
  match l with
  | [] => Done (s, Some next)
  | (name, content) :: l =>
      let next := u32 (next + 1) in
      match content with
      | Some mem =>
          if negb (length mem =? 0)%nat && (Z.of_nat (length mem) <=? MAX_FILE) then
            r ← import_case name mem s;
            if (r.2 : bool) then Done (r.1, None) else import_cases l next r.1
          else import_cases l next s
      | None => import_cases l next s
      end
  end.

(** [while (m < n) { if (strncmp(namelist[m]->d_name, entry, 9)) { m++; } else { break; } }] *)
Fixpoint skip_to (entry : list Z) (l : list (list Z * option (list Z))) : list (list Z * option (list Z)) :=
  match l with
  | [] => []
  | x :: l' => if strncmp_eq 9 x.1 entry then l else skip_to entry l'
  end.

(** The queue of one fuzzer *)
Definition sync_queue (p : peer) s : outcome (syncing W) :=
  match p_queue p with
  | None | Some [] => Done s
  | Some namelist =>
      let min_accept := default 0 (y_next s !! p_name p) in
      match skip_to (text "id:" ++ text_06 min_accept) namelist with
      | [] => Done s   (* nothing new *)
      | new =>
          r ← import_cases new min_accept s;
          match r.2 with
          | Some next => Done (set_ynext (p_name p) next r.1)
          | None => Done r.1
          end
      end
  end.

(** [while ((sd_ent = readdir(sd)))]: the counters [entries] and [synced] *)
Fixpoint sync_peers (l : list peer) (entries synced : Z) s : outcome (syncing W * Z * Z) :=
  match l with
  | [] => Done (s, entries, synced)
  | p :: l =>
      if (hd 0 (p_name p) =? 46) || bool_decide (p_name p = sync_id) then sync_peers l entries synced s
      else
        let entries := u32 (entries + 1) in
        if is_secondary_node && negb (y_is_main_node s) && negb (p_is_main p) then sync_peers l entries synced s
        else
          let s := if is_secondary_node && y_is_main_node s && p_is_main p then set_main false s else s in
          s ← sync_queue p s; sync_peers l entries (u32 (synced + 1)) s
  end.

Definition sync_fuzzers (l : list peer) s : outcome (syncing W) :=
  let s := set_yafl (set_queue (set_cur_depth 0 (af_queue (y_afl s))) (y_afl s)) s in
  r ← sync_peers l 0 0 s;
  let '(s, entries, synced) := r in
  Done (if (synced =? 0) && negb (entries =? 0) && is_secondary_node then set_main true s else s).
End sync.

(** ** Names are not recognised *)

(** A name of a test case of AFLLive, whose target is a C identifier, or a hidden file *)
Definition afllive_name (name : list Z) : Prop :=
  hd 0 name = 46 \/ exists target id rest, name = case_name target id rest /\ free_of 58 target.

Lemma afllive_name_skipped name x : afllive_name name -> strncmp_eq 9 name (text "id:" ++ x) = false.
Proof.
  change (text "id:") with [105; 100; 58]. cbn [app]. intros [Hh|(target & id & rest & -> & Hf)].
  { destruct name as [|c name]; simpl in Hh; [done|]. subst c. done. }
  unfold case_name. change (text "-id:") with [45; 105; 100; 58].
  assert (Hstep : forall n c c' l l', strncmp_eq (S n) (c :: l) (c' :: l')
    = if c =? c' then if c =? 0 then true else strncmp_eq n l l' else false) by done.
  destruct target as [|c1 [|c2 [|c3 target]]]; cbn [app]; rewrite Hstep; try done; destruct (Z.eqb_spec c1 105) as [->|]; try done;
    change (105 =? 0) with false; cbv iota; rewrite Hstep; try done; destruct (Z.eqb_spec c2 100) as [->|]; try done;
    change (100 =? 0) with false; cbv iota; rewrite Hstep; try done.
  destruct (Z.eqb_spec c3 58) as [->|]; [|done]. repeat (apply Forall_cons in Hf as [? Hf]). done.
Qed.

Lemma skip_to_none x l : Forall (fun e => afllive_name e.1) l -> skip_to (text "id:" ++ x) l = [].
Proof. induction 1 as [|e l He _ IH]; [done|]. cbn [skip_to]. by rewrite afllive_name_skipped. Qed.

(** The names that [save_if_interesting] and [pivot_inputs] make are of this form. *)
Lemma made_names target id nb p name out_len execs old :
  free_of 58 target -> (queue_fn target id nb p = Done name -> afllive_name name)
  /\ afllive_name (invented_name out_len target id execs old).
Proof.
  intros Hf. split.
  - intros Hq. destruct (queue_fn_shape _ _ _ _ _ Hq) as (d & _ & -> & _). right. by eexists _, _, _.
  - destruct (invented_name_shape out_len target id execs old) as [rest ->]. right. by eexists _, _, _.
Qed.

(** The fuzzers that are looked at *)
Definition others (sync_id : list Z) (l : list peer) : list peer :=
  filter (fun p => hd 0 (p_name p) <> 46 /\ p_name p <> sync_id) l.

Lemma others_cons sync_id p l :
  others sync_id (p :: l) = if (hd 0 (p_name p) =? 46) || bool_decide (p_name p = sync_id) then others sync_id l else p :: others sync_id l.
Proof.
  unfold others. rewrite filter_cons. destruct (Z.eqb_spec (hd 0 (p_name p)) 46); simpl.
  - by rewrite decide_False by tauto.
  - case_bool_decide; [by rewrite decide_False by tauto|by rewrite decide_True].
Qed.

Section theorems.
Context {W : Type} `{!Executor W} `{!Forkserver W}.
Context (wb : nat) (hash64 : list Z -> Z) (junk : Z) (g : run_cfg).
Context (sync_id : list Z) (targetNames : list (list Z)) (rounds fuel : nat).
Implicit Types s : syncing W.

Definition plain_queue (p : peer) : Prop :=
  match p_queue p with Some l => Forall (fun e => afllive_name e.1) l | None => True end.

Lemma sync_queue_plain p s :
  plain_queue p -> sync_queue wb hash64 junk g targetNames rounds fuel p s = Done s.
Proof.
  unfold plain_queue, sync_queue. destruct (p_queue p) as [l|]; [|done]. intros Hl. rewrite skip_to_none by done.
  by destruct l.
Qed.

Lemma sync_peers_plain sec l entries synced s :
  Forall plain_queue l -> 0 <= entries -> 0 <= synced -> entries + Z.of_nat (length l) < 2 ^ 32 -> synced <= entries ->
  let any := existsb p_is_main (others sync_id l) in
  exists synced', sync_peers wb hash64 junk g sync_id sec targetNames rounds fuel l entries synced s
    = Done (set_main (y_is_main_node s && negb (sec && any)) s, entries + Z.of_nat (length (others sync_id l)), synced')
    /\ (0 < synced' <-> 0 < synced \/ (others sync_id l <> [] /\ (sec = false \/ y_is_main_node s = true \/ any = true))) /\ 0 <= synced'.
Proof.
  intros Hl. revert entries synced s. induction Hl as [|p l Hp _ IH]; intros entries synced s He Hs Hb Hle; cbv zeta in *.
  { exists synced. cbn. rewrite andb_false_r, andb_true_r, Z.add_0_r.
    split; [by destruct s|]. split; [|done]. split; [by left|by intros [?|[[] _]]]. }
  cbn [sync_peers]. rewrite others_cons. cbn [length] in Hb. destruct (_ || _).
  { destruct (IH entries synced s) as (y & H); [lia..|]. by exists y. }
  rewrite (u32_id (entries + 1)) by lia. cbn [existsb length].
  assert (Hlen : entries + 1 + Z.of_nat (length (others sync_id l)) = entries + Z.of_nat (S (length (others sync_id l)))) by lia.
  destruct (sec && negb (y_is_main_node s) && negb (p_is_main p)) eqn:Eskip.
  - apply andb_true_iff in Eskip as [[-> Em%negb_true_iff]%andb_true_iff Ep%negb_true_iff]. rewrite Em, Ep.
    destruct (IH (entries + 1) synced s) as (y & E & Hy & Hy0); [lia..|]. exists y. rewrite E, Em, Hlen. cbn [orb].
    split; [done|]. split; [|done]. rewrite Hy, Em. clear -Hs.
    destruct (others sync_id l) eqn:Eo; [|naive_solver]. simpl. naive_solver.
  - rewrite sync_queue_plain by done. cbn [mbind outcome_bind]. rewrite (u32_id (synced + 1)) by lia.
    set (s0 := if _ && _ then set_main false s else s).
    destruct (IH (entries + 1) (synced + 1) s0) as (y & E & Hy & Hy0); [lia..|]. exists y. rewrite E, Hlen. split.
    + do 3 f_equal. unfold s0. clear. destruct sec, (y_is_main_node s) eqn:Em, (p_is_main p); simpl;
        rewrite ?Em, ?andb_false_r, ?andb_true_r; try done; by destruct s; simplify_eq/=.
    + split; [|done]. rewrite Hy. split; [|intros _; left; lia]. intros _. right. split; [done|].
      destruct sec, (y_is_main_node s), (p_is_main p); simpl in *; auto.
Qed.

(** C38: synchronisation of AFLLive imports nothing.  Test cases are named after their target,
    [sync_fuzzers] looks for names that begin with their number, so that whatever the other
    fuzzers have found, no test case is run, and the state of the fuzzer and the numbers to
    continue from stay as they are.  The choice of the main node does work: a secondary node
    that sees other fuzzers is the main node afterwards exactly if none of them is. *)
Theorem sync_imports_nothing sec l s :
  Forall plain_queue l -> Z.of_nat (length l) < 2 ^ 32 ->
  exists s', sync_fuzzers wb hash64 junk g sync_id sec targetNames rounds fuel l s = Done s'
    /\ y_afl s' = set_queue (set_cur_depth 0 (af_queue (y_afl s))) (y_afl s)
    /\ y_next s' = y_next s /\ queued_imported s' = queued_imported s
    /\ y_is_main_node s' = if sec && negb (bool_decide (others sync_id l = []))
                           then negb (existsb p_is_main (others sync_id l)) else y_is_main_node s.
Proof.
  intros Hl Hb. unfold sync_fuzzers. cbv zeta. set (s0 := set_yafl _ s).
  destruct (sync_peers_plain sec l 0 0 s0 Hl) as (y & -> & Hy & Hy0); [lia..|]. cbn [mbind outcome_bind].
  eexists. split; [done|]. change (y_is_main_node s0) with (y_is_main_node s) in *. rewrite Z.add_0_l.
  assert (Hlen : (Z.of_nat (length (others sync_id l)) =? 0) = bool_decide (others sync_id l = [])).
  { destruct (others sync_id l); [done|]. rewrite bool_decide_eq_false_2 by done. apply Z.eqb_neq. cbn [length]. lia. }
  rewrite Hlen. set (b := _ && _ && sec). split; [by destruct b|]. split; [by destruct b|]. split; [by destruct b|].
  subst b. case_bool_decide as Hn; cbn [negb]; rewrite ?andb_false_r; cbn [andb y_is_main_node set_main].
  { rewrite Hn. cbn [existsb]. by rewrite andb_false_r, andb_true_r. }
  destruct sec; rewrite ?andb_true_r, ?andb_false_r; cbn [andb negb]; [|by rewrite ?andb_true_r].
  destruct (Z.eqb_spec y 0) as [->|Hne]; cbn [andb y_is_main_node set_main].
  - destruct (existsb p_is_main (others sync_id l)); [|done]. exfalso. assert (0 < 0); [|lia]. apply Hy. by auto.
  - assert (Hpos : 0 < y) by lia. apply Hy in Hpos as [?|(_ & [?|[->|Ha]])]; [lia|done|done|]. by rewrite Ha, andb_false_r.
Qed.
End theorems.

(** ** Examples *)

#[local] Instance idle_executor : Executor unit := {
  fuzz_run_target w timeout input := (FSRV_RUN_OK, <[Z.to_nat (hd 0 input `mod` 64) := 1]> (replicate 64 0), tt);
  stop_soon w := false;
}.
#[local] Instance idle_forkserver : Forkserver unit := {
  fsrv_target w := Some 0; afl_fsrv_start w _ := tt; get_cur_time_us w := 0; skip_requested w := false; clear_skip w := tt;
}.

Definition sample_peers : list peer :=
  [Peer (text ".") false None; Peer (text "main") true None;
   Peer (text "other") false (Some [(text ".", None); (text "parse-id:000000,time:0,execs:0,orig:a", Some [5; 6]);
                                    (text "parse-id:000001,src:000000,time:1,execs:2,op:havoc,rep:4", Some [7])])].

Definition sync_start (main : bool) : syncing unit := Syncing (afl_start 64 EXPLORE false [true] tt) ∅ main 0.

Lemma sync_imports_nothing_witness :
  exists s', sync_fuzzers 8 toy_hash 0 (toy_cfg false false) (text "main") true [text "parse"] 1 20 sample_peers (sync_start false) = Done s'
    /\ queue_files (y_afl s') = [] /\ y_is_main_node s' = true.
Proof.
  destruct (sync_imports_nothing 8 toy_hash 0 (toy_cfg false false) (text "main") [text "parse"] 1 20 true sample_peers (sync_start false))
    as (s' & E & Ha & _ & _ & Hm).
  - apply Forall_cons. split; [done|]. apply Forall_cons. split; [done|]. apply Forall_cons. split; [|by apply Forall_nil].
    apply Forall_cons. split; [by left|]. apply Forall_cons. split; [|apply Forall_cons; split; [|by apply Forall_nil]].
    + right. exists (text "parse"), 0, (text ",time:0,execs:0,orig:a"). split; [done|]. by repeat constructor.
    + right. exists (text "parse"), 1, (text ",src:000000,time:1,execs:2,op:havoc,rep:4"). split; [done|]. by repeat constructor.
  - vm_compute. reflexivity.
  - exists s'. split; [exact E|]. split; [by rewrite Ha|]. rewrite Hm. vm_compute. reflexivity.
Defined.

(** A name of the form the loop looks for has no target in front: reading it goes wrong. *)
Example numbered_name_crashes :
  sync_fuzzers 8 toy_hash 0 (toy_cfg false false) (text "main") false [text "parse"] 1 20
    [Peer (text "other") false (Some [(text "id:000000,time:0,execs:0,orig:a", Some [5; 6])])] (sync_start false) = Oob.
Proof. vm_compute. reflexivity. Qed.
