(* ===== verification/FuzzOne.v ===== *)
(** * The stages of fuzz_one on the fuzzer itself

    The stages are written against the interface [Fuzzer] (DetStages.v); this file supplies
    it with the state and operations of Run.v and the dictionaries of Extras.v.  An
    invariant that every run of the target keeps is carried through all deterministic and
    dictionary stages, and gives what the stages are for: after them, the coverage of every
    input they are meant to try is known to the fuzzer. *)
From S2P Require Import Prelude Bitmap OneHelpers Alloc Rng Extras DetStages DetTriples DetFlips DetTheorems ExtrasStages Queue Trim Run RunTheorems FuzzLoop.

(** ** Invariants of the stages *)

Create HintDb follows discriminated.

Section follows.
Context {W : Type} `{!Fuzzer W} `{!Random W}.
(** An invariant of the rest of the fuzzer and the inputs run so far, which every operation
    of the interface keeps. *)
Context (Inv : W -> list (list Z) -> Prop).
Hypothesis Hrun : forall w l b, Inv w l ->
  (DetStages.common_fuzz_stuff w b).2 = false /\ Inv (DetStages.common_fuzz_stuff w b).1 (l ++ [b]).
Hypothesis Hauto : forall w l t, Inv w l -> Inv (DetStages.maybe_add_auto w t) l.
Hypothesis Hbelow : forall w l limit, Inv w l -> Inv (below w limit).2 l.

Definition holds (s : det W) : Prop := Inv (world s) (inputs s).

Definition follows {A} (m : M W A) : Prop := forall s, holds s ->
  match m s with
  | Ret _ s' => holds s'
  | Abandon _ => False
  | UB => True
  end.

Lemma follows_ret {A} (x : A) : follows (mret x).
Proof. by intros s Hs. Qed.

Lemma follows_bind {A B} (m : M W A) (k : A -> M W B) :
  follows m -> (forall x, follows (k x)) -> follows (m ≫= k).
Proof.
  intros Hm Hk s Hs. unfold mbind, M_bind. specialize (Hm s Hs). destruct (m s); [|done..]. by apply Hk.
Qed.

Lemma follows_if {A} (b : bool) (m k : M W A) : follows m -> follows k -> follows (if b then m else k).
Proof. by destruct b. Qed.

Lemma follows_modify f : (forall s, world (f s) = world s) -> (forall s, runs (f s) = runs s) -> follows (modify f).
Proof. intros H1 H2 s Hs. unfold modify, holds, inputs in *. by rewrite H1, H2. Qed.

Lemma follows_gets {A} (f : det W -> A) : follows (gets f).
Proof. by intros s Hs. Qed.

Lemma follows_run : follows run.
Proof using Hrun.
  intros s Hs. unfold run. pose proof (Hrun (world s) (inputs s) (out_buf s) Hs) as [H1 H2].
  destruct (DetStages.common_fuzz_stuff _ _) as [w r]. simpl in *. subst r. unfold holds, inputs in *. simpl. by rewrite fmap_app.
Qed.

Lemma follows_run_on b : follows (run_on b).
Proof using Hrun.
  intros s Hs. unfold run_on. pose proof (Hrun (world s) (inputs s) b Hs) as [H1 H2].
  destruct (DetStages.common_fuzz_stuff _ _) as [w r]. simpl in *. subst r. unfold holds, inputs in *. simpl. by rewrite fmap_app.
Qed.

(** Accesses to the buffers. *)
Lemma follows_load k i : follows (load k i).
Proof. intros s Hs. unfold load. case_decide; [exact Hs|done]. Qed.
Lemma follows_store k i v : follows (store k i v).
Proof. intros s Hs. unfold store. case_decide; [exact Hs|done]. Qed.
Lemma follows_eff i : follows (eff i).
Proof. intros s Hs. unfold eff. destruct (eff_map s !! _); [exact Hs|done]. Qed.
Lemma follows_set_eff_at k : follows (set_eff_at k).
Proof. intros s Hs. unfold set_eff_at. case_decide; [exact Hs|done]. Qed.
Lemma follows_put_collect l k b : follows (put_collect l k b).
Proof. intros s Hs. unfold put_collect. case_decide; [exact Hs|done]. Qed.
Lemma follows_memcpy_out i l : follows (memcpy_out i l).
Proof. intros s Hs. unfold memcpy_out. case_decide; [exact Hs|done]. Qed.
Lemma follows_memeq_out i l : follows (memeq_out i l).
Proof. intros s Hs. unfold memeq_out. case_decide; [exact Hs|done]. Qed.
Lemma follows_memchr_eff i l : follows (memchr_eff i l).
Proof. intros s Hs. unfold memchr_eff. case_decide; [exact Hs|done]. Qed.
Lemma follows_memcpy_ex t i l : follows (memcpy_ex t i l).
Proof. intros s Hs. unfold memcpy_ex. case_decide; [exact Hs|done]. Qed.
Lemma follows_read_out o i : follows (read_out o i).
Proof. intros s Hs. unfold read_out. destruct (_ !! _); [exact Hs|done]. Qed.

(** Loops. *)
Lemma follows_for_range k i body : (forall j, follows (body j)) -> follows (for_range k i body).
Proof.
  intros H. revert i. induction k as [|k IH]; intros i; [apply follows_ret|]. by apply follows_bind.
Qed.
Lemma follows_for_each l body : (forall x, follows (body x)) -> follows (for_each l body).
Proof. intros H. induction l as [|x l IH]; [apply follows_ret|]. by apply follows_bind. Qed.

(** ** The stages *)

(** One step of a stage: sequencing, a choice, a loop, or a rule from the hints. *)
Ltac follow :=
  match goal with
  | |- follows (mret _) => apply follows_ret
  | |- follows (_ ≫= _) => apply follows_bind; [|intros ?]
  | |- follows (if _ then _ else _) => apply follows_if
  | |- follows (let '(_, _) := ?x in _) => destruct x
  | |- follows (modify _) => apply follows_modify; done
  | |- follows (for_range _ _ _) => apply follows_for_range; intros ?
  | |- follows (for_each _ _) => apply follows_for_each; intros ?
  | |- follows _ => solve [eauto with follows]
  end.
Ltac follow_all := repeat follow.

#[local] Hint Resolve follows_gets follows_run follows_run_on follows_load follows_store follows_eff
  follows_set_eff_at follows_put_collect follows_memcpy_out follows_memeq_out follows_memchr_eff follows_memcpy_ex
  follows_read_out : follows.

Lemma follows_end_stage k : follows (end_stage k).
Proof. by apply follows_modify. Qed.
Lemma follows_inc_cur : follows inc_cur.
Proof. by apply follows_modify. Qed.
Lemma follows_sub_max d : follows (sub_max d).
Proof. by apply follows_modify. Qed.
#[local] Hint Resolve follows_end_stage follows_inc_cur follows_sub_max : follows.

Lemma follows_flip i : follows (FLIP_BIT i).
Proof. unfold FLIP_BIT. follow_all. Qed.
Lemma follows_xor k i m : follows (xor_at k i m).
Proof. unfold xor_at. follow_all. Qed.
Lemma follows_attempt k skip v i x : follows (attempt k skip v i x).
Proof using Hrun. unfold attempt. follow_all. Qed.
Lemma follows_no_eff k i : follows (no_eff k i).
Proof. revert i. induction k as [|k IH]; intros i; cbn [no_eff]; follow_all. Qed.
#[local] Hint Resolve follows_flip follows_xor follows_attempt follows_no_eff : follows.

Lemma follows_for_stage body : (forall i, follows (body i)) -> follows (for_stage body).
Proof. intros H. unfold for_stage. follow_all. Qed.

Lemma follows_offer_token l k : follows (offer_token l k).
Proof using Hauto.
  unfold offer_token. apply follows_if; [|apply follows_ret]. intros s Hs. by apply Hauto.
Qed.
#[local] Hint Resolve follows_offer_token : follows.

Lemma follows_collect_byte i l k : follows (collect_byte i l k).
Proof. unfold collect_byte. follow_all. Qed.
#[local] Hint Resolve follows_collect_byte : follows.

Lemma follows_detect_token i p p0 l k : follows (detect_token i p p0 l k).
Proof using Hauto. unfold detect_token. follow_all. Qed.
#[local] Hint Resolve follows_detect_token : follows.

Lemma follows_flip1_loop k i nim p p0 l m : follows (flip1_loop k i nim p p0 l m).
Proof using Hrun Hauto.
  revert i p l m. induction k as [|k IH]; intros i p l m; cbn [flip1_loop]; follow_all.
Qed.
Lemma follows_flag_byte i len nim p c : follows (flag_byte i len nim p c).
Proof. unfold flag_byte. follow_all. Qed.
#[local] Hint Resolve follows_flip1_loop follows_flag_byte : follows.

Lemma follows_flip8_loop k i len nim p c : follows (flip8_loop k i len nim p c).
Proof using Hrun. revert i c. induction k as [|k IH]; intros i c; cbn [flip8_loop]; follow_all. Qed.
#[local] Hint Resolve follows_flip8_loop : follows.

Lemma follows_settle len c : follows (settle_eff_map len c).
Proof. unfold settle_eff_map. follow_all. Qed.
Lemma follows_walk_words k m len : follows (walk_words k m len).
Proof using Hrun. unfold walk_words. follow_all. Qed.
#[local] Hint Resolve follows_settle follows_walk_words : follows.

Lemma follows_stage_flips len nim p :
  follows (stage_flip1 len nim) /\ follows (stage_flip2 len) /\ follows (stage_flip4 len)
  /\ follows (stage_flip8 len nim p) /\ follows (stage_flip16 len) /\ follows (stage_flip32 len).
Proof using Hrun Hauto.
  unfold stage_flip1, stage_flip2, stage_flip4, stage_flip8, init_eff_map, stage_flip16, stage_flip32.
  split_and!; repeat (follow || (apply follows_for_stage; intros ?)).
Qed.

Lemma follows_stage_ariths len :
  follows (stage_arith8 len) /\ follows (stage_arith16 len) /\ follows (stage_arith32 len).
Proof using Hrun. unfold stage_arith8, stage_arith16, stage_arith32. split_and!; cbv zeta; follow_all. Qed.

Lemma follows_stage_interests len :
  follows (stage_interest8 len) /\ follows (stage_interest16 len) /\ follows (stage_interest32 len).
Proof using Hrun. unfold stage_interest8, stage_interest16, stage_interest32. split_and!; follow_all. Qed.

Lemma follows_det_stages len nim no_arith : follows (det_stages len nim no_arith).
Proof using Hrun Hauto.
  destruct (follows_stage_flips len nim 0) as (F1 & F2 & F3 & _ & F5 & F6).
  assert (F4 : forall p, follows (stage_flip8 len nim p)) by (intros p; apply follows_stage_flips).
  destruct (follows_stage_ariths len) as (A1 & A2 & A3), (follows_stage_interests len) as (I1 & I2 & I3).
  unfold det_stages. follow_all.
Qed.

(** ** The dictionary stages *)

Lemma follows_rand_skip c m : follows (rand_skip c m).
Proof using Hbelow.
  unfold rand_skip. apply follows_if; [|apply follows_ret]. intros s Hs.
  pose proof (Hbelow (world s) (inputs s) c Hs) as H. by destruct (below _ _).
Qed.
Lemma follows_over_skip rnd len i d : follows rnd -> follows (over_skip rnd len i d).
Proof. intros H. unfold over_skip. follow_all. Qed.
#[local] Hint Resolve follows_over_skip follows_rand_skip : follows.
Lemma follows_over_loop rnd len i l k : follows rnd -> follows (over_loop rnd len i l k).
Proof using Hrun. intros H. revert k. induction l as [|d l IH]; intros k; cbn [over_loop]; follow_all. Qed.
#[local] Hint Resolve follows_over_loop : follows.
Lemma follows_extras_over rnd len b l : follows rnd -> follows (extras_over rnd len b l).
Proof using Hrun.
  intros H. unfold extras_over, over_at, restore_from. follow_all. case_decide; [follow_all|by intros s Hs].
Qed.
Lemma follows_insert_loop len i l t : follows (insert_loop len i l t).
Proof using Hrun. revert t. induction l as [|d l IH]; intros t; cbn [insert_loop]; cbv zeta; follow_all. Qed.
#[local] Hint Resolve follows_extras_over follows_insert_loop : follows.
Lemma follows_extras_insert k i len o l t : follows (extras_insert k i len o l t).
Proof using Hrun. revert i t. induction k as [|k IH]; intros i t; cbn [extras_insert]; follow_all. Qed.
#[local] Hint Resolve follows_extras_insert : follows.

Lemma follows_dictionary_stages len b o t t' m x ax : follows (dictionary_stages len b o t t' m x ax).
Proof using Hrun Hbelow.
  unfold dictionary_stages, stage_extras_UO, stage_extras_UI, stage_extras_AO, stage_extras_AI. cbv zeta.
  apply follows_bind; [|intros ?]; case_match; follow_all.
Qed.
End follows.

(** ** The fuzzer behind the interface *)

(** The state of Run.v, the dictionaries, the source of random numbers, and whether a fatal
    error has ended the program. *)
Record fuzzer (X G : Type) := Fuzz { fz_afl : afl_state X; fz_dict : dict; fz_rng : G; fz_ended : bool }.
Arguments Fuzz {X G}. Arguments fz_afl {X G}. Arguments fz_dict {X G}. Arguments fz_rng {X G}. Arguments fz_ended {X G}.

Section fuzzer.
Context {X G : Type} `{!Executor X} `{!Forkserver X} `{!Random G} {HQ : Qsort}.
Context (wb : nat) (hash64 : list Z -> Z) (junk : Z) (g : run_cfg) (rounds fuel : nat).

(** [funIdx] is the target function of the entry being fuzzed.  The position in the stage,
    which [calibrate_case] looks at in CmpLog mode only, is left at 0. *)
Definition fuzzer_run (funIdx : Z) (w : fuzzer X G) (b : list Z) : fuzzer X G * bool :=
  match common_fuzz_stuff wb hash64 junk g rounds fuel 0 funIdx b (fz_afl w) with
  | RDone abandon a => (Fuzz a (fz_dict w) (fz_rng w) (fz_ended w), abandon)
  | RFatal | RNoFuel => (Fuzz (fz_afl w) (fz_dict w) (fz_rng w) true, true)
  end.

Definition fuzzer_auto (w : fuzzer X G) (t : list Z) : fuzzer X G :=
  let '(d, r) := Extras.maybe_add_auto t (fz_dict w) (fz_rng w) in Fuzz (fz_afl w) d r (fz_ended w).

Definition fuzzer_of (funIdx : Z) : Fuzzer (fuzzer X G) := {|
  DetStages.common_fuzz_stuff := fuzzer_run funIdx;
  DetStages.trace_cksum w := hash64 (trace (fz_afl w));
  DetStages.maybe_add_auto := fuzzer_auto;
  DetStages.hit_cnt w :=
    Z.of_nat (length (queue_buf (af_queue (fz_afl w)))) + af_count (fz_afl w) saved_crashes;
|}.

Definition fuzzer_below (w : fuzzer X G) (limit : Z) : Z * fuzzer X G :=
  let '(r, r') := below (fz_rng w) limit in (r, Fuzz (fz_afl w) (fz_dict w) r' (fz_ended w)).

#[program] Definition fuzzer_random : Random (fuzzer X G) := {| below := fuzzer_below |}.
Next Obligation.
  intros [a d r e] limit H. unfold fuzzer_below. simpl. by rewrite (below_small r limit H).
Qed.
Next Obligation.
  intros [a d r e] limit H. unfold fuzzer_below. simpl. pose proof (below_range r limit H) as Hr. by destruct (below r limit).
Qed.

(** ** Exploration *)

Section explore.
Context (n : Z) (Hwb : wb = 4%nat \/ wb = 8%nat) (Hfuel : (20 <= fuel)%nat).
Hypothesis Htraces : traces_ok (W:=X) n.
(** The target ends normally on every input, with a trace that depends on the input only,
    and nobody stops the fuzzer or asks it to go on to the next entry. *)
Context (coverage : list Z -> list Z).
Hypothesis Hnormal : forall (x : X) timeout input,
  (fuzz_run_target x timeout input).1 = (FSRV_RUN_OK, coverage input).
Hypothesis Hgoes_on : forall x : X, stop_soon x = false.
Hypothesis Hstays : forall x : X, skip_requested x = false.
Hypothesis Hmode : crash_mode g = FSRV_RUN_OK.
Context (a0 : afl_state X).

(** What the target reads when a stage runs it on [b]. *)
Definition tested (b : list Z) : list Z := write_to_testcase junk g false b.

(** The trace of each input run so far is known; what was queued is among these inputs. *)
Record explored (w : fuzzer X G) (l : list (list Z)) : Prop := {
  ex_ok : afl_ok n (fz_afl w);
  ex_later : later a0 (fz_afl w);
  ex_seen : forall b, b ∈ l -> tested b <> [] ->
    all_seen (scanned wb (af_fsrv a0)) (coverage (tested b)) (virgin_bits (af_virgin (fz_afl w)));
  ex_queue : exists new, queue_files (fz_afl w) = queue_files a0 ++ new /\ new `sublist_of` map tested l;
  ex_running : fz_ended w = false;
}.

Lemma run_target_normal timeout input (a : afl_state X) :
  (run_target timeout input a).1 = FSRV_RUN_OK
  /\ trace (run_target timeout input a).2 = coverage input.
Proof using Hnormal.
  unfold run_target. pose proof (Hnormal (af_world a) timeout input) as H.
  destruct (fuzz_run_target _ _ _) as [[fault t] x]. simpl in *. by simplify_eq.
Qed.

(** One test case: it is judged, and queued or not. *)
Lemma fuzz_normal funIdx b (a : afl_state X) :
  afl_ok n a ->
  exists a', common_fuzz_stuff wb hash64 junk g rounds fuel 0 funIdx b a = RDone false a'
    /\ afl_ok n a' /\ later a a'
    /\ (exists new, queue_files a' = queue_files a ++ new /\ new `sublist_of` [tested b])
    /\ (tested b <> [] -> all_seen (scanned wb (af_fsrv a)) (coverage (tested b)) (virgin_bits (af_virgin a'))).
Proof using Hwb Hfuel Htraces Hnormal Hgoes_on Hstays Hmode.
  intros Ha. unfold common_fuzz_stuff. fold (tested b). cbv zeta.
  destruct (Nat.eqb_spec (length (tested b)) 0) as [H0|Hne].
  { apply length_zero_iff_nil in H0. exists a. split; [done|]. split; [done|]. split; [done|].
    split; [exists []; by rewrite app_nil_r; split; [|apply sublist_nil_l]|done]. }
  assert (Hb : tested b <> []) by (intros E; by rewrite E in Hne).
  pose proof (run_target_adv n Htraces (exec_tmout g) (tested b) a Ha) as [Hb1 L1].
  pose proof (run_target_normal (exec_tmout g) (tested b) a) as [Hf Ht].
  pose proof (run_target_same (exec_tmout g) (tested b) a) as [_ Hq].
  destruct (run_target _ _ _) as [fault a1]. cbn [fst snd] in *. subst fault.
  rewrite Hgoes_on. rewrite bool_decide_eq_false_2 by done. rewrite Hstays.
  set (a2 := set_count _ _ a1). assert (H2 : advances n a1 a2) by (by apply set_count_adv). destruct (H2 Hb1) as [Ha2 L2].
  pose proof (save_normal n wb Hwb hash64 junk g Htraces rounds fuel (tested b) 0 funIdx a2 Hfuel Ha2 Hb Hmode) as Hs.
  assert (Hstarts : forall (w : X) timeout input, (fuzz_run_target w timeout input).1.1 <> FSRV_RUN_ERROR)
    by (intros; by rewrite Hnormal).
  pose proof (save_done n wb Hwb hash64 junk g Htraces Hstarts Hmode rounds fuel (tested b) 0 funIdx a2 Hfuel Ha2) as Hd.
  destruct (save_if_interesting _ _ _ _ _ _ _ _ _ _ _) as [kept a3| |]; [|done|done].
  destruct Hs as (_ & Ha3 & L3 & Hqf & _ & _ & Hno).
  set (a4 := set_count queued_discovered _ a3). assert (H4 : advances n a3 a4) by (by apply set_count_adv).
  destruct (H4 Ha3) as [Ha4 L4]. exists a4. split; [done|]. split; [done|].
  split; [etrans; [exact L1|]; etrans; [exact L2|]; by etrans|]. split.
  - exists (if kept then [tested b] else []). split.
    + change (queue_files a4) with (queue_files a3). rewrite Hqf. change (queue_files a2) with (queue_files a1). by rewrite Hq.
    + destruct kept; [done|apply sublist_nil_l].
  - intros _. apply no_hit_all_seen in Hno; [|apply (ok_maps n a2 Ha2)].
    change (trace a2) with (trace a1) in Hno. rewrite Ht in Hno.
    replace (scanned wb (af_fsrv a)) with (scanned wb (af_fsrv a2)); [exact Hno|].
    unfold scanned. change (af_fsrv a2) with (af_fsrv a1). by rewrite (lt_real _ _ L1).
Qed.

Lemma all_seen_fewer k t v v' : Forall byte_ok t -> fewer v v' -> all_seen k t v -> all_seen k t v'.
Proof.
  intros Ht Hf H. apply no_hit_all_seen in H; [|done]. apply no_hit_all_seen; [done|].
  refine (no_hit_fewer _ _ _ _ H). by apply fewer_take.
Qed.

Lemma coverage_ok (x : X) input : Forall byte_ok (coverage input).
Proof using Htraces Hnormal.
  pose proof (Htraces x 0 input) as [_ H]. by rewrite Hnormal in H.
Qed.

Lemma explored_run funIdx w l b :
  explored w l -> (fuzzer_run funIdx w b).2 = false /\ explored (fuzzer_run funIdx w b).1 (l ++ [b]).
Proof using Hwb Hfuel Htraces Hnormal Hgoes_on Hstays Hmode.
  intros [Ha L Hs (new & Hq & Hsub) Hr]. unfold fuzzer_run.
  destruct (fuzz_normal funIdx b (fz_afl w) Ha) as (a' & -> & Ha' & L' & (new' & Hq' & Hsub') & Hseen).
  split; [done|]. split; simpl; [done|by etrans| | |done].
  - intros c [Hc| ->%list_elem_of_singleton]%elem_of_app Hne.
    + refine (all_seen_fewer _ _ _ _ (coverage_ok (af_world a0) _) _ (Hs c Hc Hne)). apply (lt_virgin _ _ L' VirginBits).
    + replace (scanned wb (af_fsrv a0)) with (scanned wb (af_fsrv (fz_afl w))); [by apply Hseen|].
      unfold scanned. by rewrite (lt_real _ _ L).
  - exists (new ++ new'). rewrite Hq', Hq, app_assoc. split; [done|]. rewrite map_app. by apply sublist_app.
Qed.

Lemma explored_auto w l t : explored w l -> explored (fuzzer_auto w t) l.
Proof. unfold fuzzer_auto. by destruct (Extras.maybe_add_auto _ _ _); intros []. Qed.
End explore.
End fuzzer.

(** ** Theorems *)

Section theorems.
Context {X G : Type} `{!Executor X} `{!Forkserver X} `{!Random G} {HQ : Qsort}.
Context (wb : nat) (hash64 : list Z -> Z) (junk : Z) (g : run_cfg) (rounds fuel : nat).

(** A target that ends normally on every input, with a trace of [n] bytes that depends on
    the input only, in a fuzzer that nobody interrupts. *)
Record well_behaved (n : Z) (coverage : list Z -> list Z) : Prop := {
  wb_normal : forall (x : X) timeout input, (fuzz_run_target x timeout input).1 = (FSRV_RUN_OK, coverage input);
  wb_size : forall input, Z.of_nat (length (coverage input)) = n /\ Forall byte_ok (coverage input);
  wb_goes_on : forall x : X, stop_soon x = false;
  wb_stays : forall x : X, skip_requested x = false;
}.

Lemma well_behaved_traces n coverage : well_behaved n coverage -> traces_ok (W:=X) n.
Proof. intros [H1 H2 _ _] w timeout input. rewrite H1. apply H2. Qed.

(** C3: the deterministic stages, run on the fuzzer itself: for a well-behaved target they end
    without giving up, give the test case back, and afterwards the trace of every input of
    their enumeration is known to the virgin map; what they added to the queue are inputs
    of the enumeration, in its order; the state of the fuzzer is well formed. *)
Theorem det_stages_explore n coverage funIdx len nim no_arith buf e a0 d r (s : det (fuzzer X G)) :
  wb = 4%nat \/ wb = 8%nat -> (20 <= fuel)%nat -> well_behaved n coverage ->
  crash_mode g = FSRV_RUN_OK -> cmplog_mode g = false -> afl_ok n a0 ->
  buf_ok len buf -> eff_ok len e -> 1 <= len -> mem_is buf e s -> world s = Fuzz a0 d r false -> runs s = [] ->
  exists s' e', det_stages (Fuzzer0 := fuzzer_of wb hash64 junk g rounds fuel funIdx) len nim no_arith s = Ret tt s'
    /\ mem_is buf e' s'
    /\ let cands := first_cands len buf ++ later_cands len no_arith e' buf in
       let a := fz_afl (world s') in
       (forall b, b ∈ cands -> tested junk g b <> [] ->
          all_seen (scanned wb (af_fsrv a0)) (coverage (tested junk g b)) (virgin_bits (af_virgin a)))
       /\ (exists new, queue_files a = queue_files a0 ++ new /\ new `sublist_of` map (tested junk g) cands)
       /\ afl_ok n a /\ later a0 a.
Proof.
  intros Hwb Hfuel Hw Hm _ Ha Hb He Hl Hs Hworld Hruns. pose proof (well_behaved_traces _ _ Hw) as Ht. destruct Hw as [Hn _ Hg Hst].
  pose proof (det_stages_exact (Fuzzer0 := fuzzer_of wb hash64 junk g rounds fuel funIdx) len nim no_arith buf e s Hb He Hl Hs) as Hd.
  pose proof (follows_det_stages (Fuzzer0 := fuzzer_of wb hash64 junk g rounds fuel funIdx)
    (explored wb junk g n coverage a0)
    (fun w l b => explored_run wb hash64 junk g rounds fuel n Hwb Hfuel Ht coverage Hn Hg Hst Hm a0 funIdx w l b)
    (fun w l t => explored_auto wb junk g n coverage a0 w l t) len nim no_arith s) as Hf.
  assert (H0 : explored wb junk g n coverage a0 (Fuzz a0 d r false) []).
  { split; simpl; [done|done| | |done]; [by intros b Hb'%elem_of_nil|]. exists []. by rewrite app_nil_r. }
  unfold holds, inputs in Hf. rewrite Hworld, Hruns in Hf. specialize (Hf H0).
  destruct (det_stages _ _ _ _) as [[] s'|s'|]; [|done|done].
  destruct Hd as (e' & Hmem & Hin & _). unfold inputs in Hin at 2. rewrite Hruns in Hin. simpl in Hin.
  unfold inputs in Hin. rewrite Hin in Hf. destruct Hf as [F1 F2 F3 F4 _]. exists s', e'. by split_and!.
Qed.

(** The stages that insert the user's tokens: every token at every offset, its coverage
    known afterwards. *)
Theorem insertions_explored n coverage funIdx len slack ex extras buf e a0 d r (s : det (fuzzer X G)) :
  wb = 4%nat \/ wb = 8%nat -> (20 <= fuel)%nat -> well_behaved n coverage ->
  crash_mode g = FSRV_RUN_OK -> cmplog_mode g = false -> afl_ok n a0 ->
  buf_ok len buf -> mem_is buf e s -> is_Some slack ->
  Forall (fun d => Z.of_nat (length d) <= MAX_DICT_FILE) extras -> len + MAX_DICT_FILE <= Z.of_nat (length ex) ->
  world s = Fuzz a0 d r false -> runs s = [] ->
  exists s', stage_extras_UI (Fuzzer0 := fuzzer_of wb hash64 junk g rounds fuel funIdx) len slack ex extras s = Ret tt s'
    /\ mem_is buf e s' /\ afl_ok n (fz_afl (world s'))
    /\ forall i b, 0 <= i <= len -> b ∈ insert_cands_at len buf extras i -> tested junk g b <> [] ->
         all_seen (scanned wb (af_fsrv a0)) (coverage (tested junk g b)) (virgin_bits (af_virgin (fz_afl (world s')))).
Proof.
  intros Hwb Hfuel Hw Hm _ Ha Hb Hs Hsl Hx Hlen Hworld Hruns. pose proof (well_behaved_traces _ _ Hw) as Ht. destruct Hw as [Hn _ Hg Hst].
  destruct (extras_insert_exact (Fuzzer0 := fuzzer_of wb hash64 junk g rounds fuel funIdx) len buf e slack ex extras s Hb Hs Hsl Hx Hlen)
    as [Hd _]. specialize (Hd s Hs).
  assert (Hf : follows (explored wb junk g n coverage a0)
    (stage_extras_UI (Fuzzer0 := fuzzer_of wb hash64 junk g rounds fuel funIdx) len slack ex extras)).
  { unfold stage_extras_UI. cbv zeta. apply follows_bind; [by apply follows_modify|]. intros _.
    apply follows_bind; [|intros _; by apply follows_end_stage]. apply follows_extras_insert.
    intros w l b. by apply explored_run. }
  specialize (Hf s). unfold holds, inputs in Hf. rewrite Hworld, Hruns in Hf.
  assert (H0 : explored wb junk g n coverage a0 (Fuzz a0 d r false) []).
  { split; simpl; [done|done| | |done]; [by intros b Hb'%elem_of_nil|]. exists []. by rewrite app_nil_r. }
  specialize (Hf H0). destruct (stage_extras_UI _ _ _ _ _) as [[] s'|s'|]; [|done|done].
  destruct Hd as ([Hmem _] & Hin & _). unfold inputs in Hin. rewrite Hruns in Hin. simpl in Hin. rewrite Hin in Hf.
  exists s'. split; [done|]. split; [done|]. split; [apply Hf|]. intros i b Hi Hbi. apply (ex_seen _ _ _ _ _ _ _ _ Hf).
  apply list_elem_of_In, in_flat_map. exists i. split; [apply list_elem_of_In, elem_of_seqZ; lia|by apply list_elem_of_In].
Qed.
End theorems.

(** ** A target *)

(** The first byte of the input selects the counter that becomes 1. *)
Definition first_byte_coverage (input : list Z) : list Z := <[Z.to_nat (hd 0 input `mod` 64) := 1]> (replicate 64 0).
#[local] Instance calm_executor : Executor unit := {
  fuzz_run_target w timeout input := (FSRV_RUN_OK, first_byte_coverage input, tt);
  stop_soon w := false;
}.
#[local] Instance calm_forkserver : Forkserver unit := {
  fsrv_target w := Some 0;
  afl_fsrv_start w _ := tt;
  get_cur_time_us w := 0;
  skip_requested w := false;
  clear_skip w := tt;
}.

Lemma calm_well_behaved : well_behaved (X:=unit) 64 first_byte_coverage.
Proof.
  split; [done| |done|done]. intros input. unfold first_byte_coverage.
  split; [by rewrite length_insert, length_replicate|]. apply Forall_insert; [apply Forall_replicate|]; unfold byte_ok; lia.
Qed.

Definition calm_start : det (fuzzer unit Z) :=
  Det [0x41; 0x42] (Fuzz (afl_start 64 EXPLORE false [true] tt) (Dict [] [] false) 0 false) [0] 0 0 0 0 STAGE_VAL_NONE 0
    (fun _ => 0) (fun _ => 0) 0 0 [].

Lemma det_stages_explore_witness :
  exists s', det_stages (Fuzzer0 := fuzzer_of (X:=unit) (G:=Z) 8 toy_hash 0 (toy_cfg false false) 1 20 0) 2 false false calm_start
    = Ret tt s' /\ out_buf s' = [0x41; 0x42]
    /\ all_seen 64 (first_byte_coverage [0x41; 0x42]) (virgin_bits (af_virgin (fz_afl (world s')))).
Proof.
  destruct (det_stages_explore (X:=unit) (G:=Z) 8 toy_hash 0 (toy_cfg false false) 1 20 64 first_byte_coverage 0 2 false false
    [0x41; 0x42] [0] (afl_start 64 EXPLORE false [true] tt) (Dict [] [] false) 0 calm_start)
    as (s' & e' & E & [Hb _] & Hseen & _).
  - by right.
  - lia.
  - exact calm_well_behaved.
  - done.
  - done.
  - apply afl_start_ok; [lia|done].
  - split; [byte_list|reflexivity].
  - vm_compute. discriminate.
  - lia.
  - split; reflexivity.
  - reflexivity.
  - reflexivity.
  - exists s'. split; [exact E|]. split; [exact Hb|].
    exact (Hseen [0x41; 0x42] ltac:(apply elem_of_app; left; left) ltac:(done)).
Defined.
