(* ===== verification/Libgen.v ===== *)
(** * The argument generator (src/libgen: buff_utils.cc, types.cc, ConstraintFactory.cc)

    AFLLive fuzzes a function by rebuilding its arguments from the bytes of a test case
    ([populateFromBuffer]), after it recorded the original arguments of a run as the
    first test case ([serializeToBuffer]).  This file models the type descriptions, both
    directions over an explicit heap, and the constraints between arguments.

    A [shared_ptr<Type>] is an index into the table of types, so that recursive types
    (a list node that points to itself) are representable, as they are in the program;
    the recursion of the two directions therefore carries fuel. *)
From S2P Require Import Prelude.

(** ** Outcomes: undefined behaviour, [abort()], exhausted fuel *)

Inductive res (A : Type) := Ok (a : A) | UB | Aborted | NoFuel.
Arguments Ok {A} a.
Arguments UB {A}.
Arguments Aborted {A}.
Arguments NoFuel {A}.

Definition rbind {A B} (r : res A) (f : A -> res B) : res B :=
  match r with Ok a => f a | UB => UB | Aborted => Aborted | NoFuel => NoFuel end.
Definition of_option {A} (o : option A) : res A := match o with Some a => Ok a | None => UB end.

Declare Scope res_scope.
Delimit Scope res_scope with res.
Notation "'let!' x := r 'in' e" := (rbind r (fun x => e))
  (at level 200, x pattern, r at level 100, e at level 200) : res_scope.
Open Scope res_scope.

(** ** Heap *)

(** Bytes by address, and the address of the next block [malloc] hands out. *)
Record heap := Heap { cells : gmap Z Z; brk : Z }.

Fixpoint load (n : nat) (a : Z) (h : gmap Z Z) : option (list Z) :=
  match n with
  | O => Some []
  | S n => b ← h !! a; bs ← load n (a + 1) h; Some (b :: bs)
  end.

(** A store is defined on mapped addresses only. *)
Fixpoint store (a : Z) (bs : list Z) (h : gmap Z Z) : option (gmap Z Z) :=
  match bs with
  | [] => Some h
  | b :: bs =>
      match h !! a with
      | Some _ => store (a + 1) bs (<[a := b]> h)
      | None => None
      end
  end.

Fixpoint alloc_cells (a : Z) (bs : list Z) (h : gmap Z Z) : gmap Z Z :=
  match bs with [] => h | b :: bs => alloc_cells (a + 1) bs (<[a := b]> h) end.

(** Blocks are 16-byte aligned; a fresh block holds [junk]. *)
Definition block (n : Z) : Z := (n `div` 16 + 1) * 16.

Definition malloc (junk : Z) (n : Z) (h : heap) : Z * heap :=
  (brk h, Heap (alloc_cells (brk h) (replicate (Z.to_nat n) junk) (cells h)) (brk h + block n)).

Definition store_heap (a : Z) (bs : list Z) (h : heap) : res heap :=
  let! c := of_option (store a bs (cells h)) in Ok (Heap c (brk h)).

(** ** Types *)

Inductive type_desc :=
| StructType (size : Z) (fields : list (nat * Z))
| PointerType (pointee : nat)
| IntegerType (bitWidth : Z)
| FloatingType (bitWidth : Z)
| ArrayType (elem : nat) (numElems : Z).

(** [getSize]; only arrays recurse.  An unsupported type is a null pointer. *)
Fixpoint getSize (fuel : nat) (ts : list type_desc) (t : nat) : res Z :=
  match fuel with
  | O => NoFuel
  | S fuel =>
      match ts !! t with
      | Some (StructType size _) => Ok size
      | Some (PointerType _) => Ok 8
      | Some (IntegerType w) | Some (FloatingType w) => Ok (w `div` 8)
      | Some (ArrayType e n) => let! k := getSize fuel ts e in Ok (u32 (k * n))
      | None => UB
      end
  end.

(** ** buff_utils.cc: reading the test case *)

Definition getBuffOne (buffer : list Z) (off : Z) : Z * Z :=
  if off <? Z.of_nat (length buffer) then (buffer !!! Z.to_nat off, off + 1) else (0, off).

Definition getBuffTwo (buffer : list Z) (off : Z) : Z * Z :=
  let '(a, off) := getBuffOne buffer off in
  let '(b, off) := getBuffOne buffer off in
  (Z.lor a (b ≪ 8), off).

Definition getBuffFour (buffer : list Z) (off : Z) : Z * Z :=
  let '(a, off) := getBuffTwo buffer off in
  let '(b, off) := getBuffTwo buffer off in
  (Z.lor a (b ≪ 16), off).

(** The definition returns [unsigned int]. *)
Definition getBuffEight (buffer : list Z) (off : Z) : Z * Z :=
  let '(a, off) := getBuffFour buffer off in
  let '(b, off) := getBuffFour buffer off in
  (u32 (Z.lor a (b ≪ 32)), off).

(** ** ConstraintFactory.cc *)

Inductive Kind := EQ | LE | GE.
#[export] Instance Kind_eq_dec : EqDecision Kind.
Proof. solve_decision. Defined.
Inductive rhs := Constant (c : Z) | Arg (ptr : Z).
Record constraint := Constraint { c_kind : Kind; c_signed : bool; c_rhs : rhs }.

(** [memcpy(lhs, rhs, n)] on the 8-byte local [lhs] points to *)
Definition copy_low (n v r : Z) : Z := v - v `mod` 2 ^ (8 * n) + r `mod` 2 ^ (8 * n).

(** The [n] bytes behind the right-hand side. *)
Definition rhs_bytes (h : gmap Z Z) (n : Z) (r : rhs) : res Z :=
  match r with
  | Constant c => Ok (c `mod` 2 ^ (8 * n))
  | Arg p => let! bs := of_option (load (Z.to_nat n) p h) in Ok (le_word bs)
  end.

(** A [w]-bit pattern as a signed number. *)
Definition signed_of (n v : Z) : Z := (v + 2 ^ (8 * n - 1)) `mod` 2 ^ (8 * n) - 2 ^ (8 * n - 1).

(** IEEE comparison of bit patterns: exponent width [e], mantissa width [m]. *)
Definition float_nan (e m v : Z) : bool := (2 ^ e - 1) * 2 ^ m <? v `mod` 2 ^ (e + m).
Definition float_key (e m v : Z) : Z :=
  if Z.testbit v (e + m) then - (v `mod` 2 ^ (e + m)) else v `mod` 2 ^ (e + m).
Definition float_lt (e m a b : Z) : bool :=
  negb (float_nan e m a) && negb (float_nan e m b) && (float_key e m a <? float_key e m b).

(** [lhs > rhs] for LE, [lhs < rhs] for GE *)
Definition beyond (k : Kind) (lt : Z -> Z -> bool) (l r : Z) : bool :=
  match k with LE => lt r l | _ => lt l r end.

(** [ConstraintFactory::constrain] *)
Definition constrain (h : gmap Z Z) (t : type_desc) (k : Kind) (isSigned : bool) (r : rhs) (v : Z) : res Z :=
  match t with
  | PointerType _ =>
      let! bound := rhs_bytes h 4 r in
      Ok (if beyond k Z.ltb (u32 v) bound then copy_low 4 v bound else v)
  | FloatingType w =>
      let n := w `div` 8 in
      if n =? 4 then
        let! b := rhs_bytes h 4 r in
        Ok (if beyond k (float_lt 8 23) (u32 v) b then copy_low 4 v b else v)
      else if n =? 8 then
        let! b := rhs_bytes h 8 r in
        Ok (if beyond k (float_lt 11 52) (u64 v) b then copy_low 8 v b else v)
      else Ok v
  | IntegerType w =>
      let n := w `div` 8 in
      if (n =? 1) || (n =? 2) || (n =? 4) || (n =? 8) then
        let! b := rhs_bytes h n r in
        let l := v `mod` 2 ^ (8 * n) in
        Ok (if (if isSigned then beyond k Z.ltb (signed_of n l) (signed_of n b) else beyond k Z.ltb l b)
            then copy_low n v b else v)
      else Ok v
  | _ => Ok v
  end.

(** The function a factory returns, applied. *)
Definition apply_constraint (h : gmap Z Z) (t : type_desc) (size : Z) (c : constraint) (v : Z) : res Z :=
  match c_kind c with
  | EQ =>
      let n := match t with PointerType _ => 4 | _ => size end in
      let! b := rhs_bytes h n (c_rhs c) in Ok (copy_low n v b)
  | k => constrain h t k (c_signed c) (c_rhs c) v
  end.

Fixpoint apply_constraints (h : gmap Z Z) (t : type_desc) (size : Z) (cs : list constraint) (v : Z) : res Z :=
  match cs with
  | [] => Ok v
  | c :: cs => let! v := apply_constraint h t size c v in apply_constraints h t size cs v
  end.

(** ** types.cc: from the test case to the arguments *)

(** The heap, the read position in the test case, and the contents of the file at [filein]. *)
Record gen := Gen { g_heap : heap; g_off : Z; g_file : option (list Z) }.

Fixpoint each {A S} (f : A -> S -> res S) (l : list A) (s : S) : res S :=
  match l with
  | [] => Ok s
  | x :: l => let! s := f x s in each f l s
  end.

(** The tag bits of an argument address: bit 0 asks to constrain what the pointer points
    to, bit 63 says that the argument is the name of a file. *)
Definition deref_tag (where_ : Z) : bool := Z.testbit where_ 0.
Definition file_tag (where_ : Z) : bool := Z.testbit where_ 63.
Definition untagged (where_ : Z) : Z := Z.land where_ 0x7ffffffffffffffe.

Definition is_scalar (t : type_desc) : bool :=
  match t with IntegerType _ | FloatingType _ => true | _ => false end.

Section generator.
(** Bytes of a fresh block; whether [malloc] serves a request; the name in [filein]. *)
Context (junk : Z) (avail : Z -> bool) (filein : list Z).

Definition set_heap (h : heap) (s : gen) : gen := Gen h (g_off s) (g_file s).
Definition set_off (o : Z) (s : gen) : gen := Gen (g_heap s) o (g_file s).

Definition gen_store (a : Z) (bs : list Z) (s : gen) : res gen :=
  let! h := store_heap a bs (g_heap s) in Ok (set_heap h s).
Definition gen_malloc (n : Z) (s : gen) : res (Z * gen) :=
  if avail n then let '(a, h) := malloc junk n (g_heap s) in Ok (a, set_heap h s) else UB.

(** [IntegerType::populateFromBuffer] and [FloatingType::populateFromBuffer] *)
Definition populate_scalar (buffer : list Z) (t : type_desc) (w : Z) (floating : bool) (where_ : Z)
    (cs : list constraint) (s : gen) : res gen :=
  let! (v, off) :=
    (if (w =? 8) && negb floating then Ok (getBuffOne buffer (g_off s))
     else if (w =? 16) && negb floating then Ok (getBuffTwo buffer (g_off s))
     else if w =? 32 then Ok (getBuffFour buffer (g_off s))
     else if w =? 64 then Ok (getBuffEight buffer (g_off s))
     else Aborted) in
  let! v := apply_constraints (cells (g_heap s)) t (w `div` 8) cs v in
  gen_store where_ (word_le (w `div` 8) v) (set_off off s).

(** [memcpy(res, buffer + *offset, bytes); *offset += bytes;] *)
Definition copy_from_buffer (buffer : list Z) (a bytes : Z) (s : gen) : res gen :=
  if (bytes =? 0) || (g_off s + bytes <=? Z.of_nat (length buffer)) then
    let! s' := gen_store a (take (Z.to_nat bytes) (drop (Z.to_nat (g_off s)) buffer)) s in
    Ok (set_off (u32 (g_off s + bytes)) s')
  else UB.

(** The branch for names of files. *)
Definition populate_file (buffer : list Z) (where_ : Z) (s : gen) : res gen :=
  let s := Gen (g_heap s) (Z.of_nat (length buffer)) (Some (drop (Z.to_nat (g_off s)) buffer)) in
  let! (a, s) := gen_malloc (Z.of_nat (length filein) + 1) s in
  let! s := gen_store a (filein ++ [0]) s in
  gen_store where_ (word_le 8 a) s.

Fixpoint populateFromBuffer (fuel : nat) (ts : list type_desc) (buffer : list Z) (t : nat)
    (where_ : Z) (cs : list constraint) (s : gen) : res gen :=
  match fuel with
  | O => NoFuel
  | S fuel =>
      match ts !! t with
      | None => UB
      | Some (StructType _ fields) =>
          each (fun '(f, o) => populateFromBuffer fuel ts buffer f (where_ + o) []) fields s
      | Some (ArrayType e n) =>
          each (fun i s =>
            let! k := getSize fuel ts e in
            populateFromBuffer fuel ts buffer e (where_ + u32 (i * k)) [] s) (seqZ 0 n) s
      | Some (IntegerType w) => populate_scalar buffer (IntegerType w) w false where_ cs s
      | Some (FloatingType w) => populate_scalar buffer (FloatingType w) w true where_ cs s
      | Some (PointerType pointee) =>
          let deref := deref_tag where_ in
          let is_file := file_tag where_ in
          let where_ := untagged where_ in
          if is_file then populate_file buffer where_ s
          else
            let '(numElems, off) := getBuffFour buffer (g_off s) in
            let s := set_off off s in
            let! numElems :=
              (if deref then Ok 1
               else apply_constraints (cells (g_heap s)) (PointerType pointee) 8 cs numElems) in
            let! pointeeSize := getSize fuel ts pointee in
            let! (a, s) := gen_malloc (u64 (pointeeSize * (numElems + 1))) s in
            let! pt := of_option (ts !! pointee) in
            let! s :=
              (if (negb deref || bool_decide (cs = [])) && is_scalar pt
               then copy_from_buffer buffer a (u32 (numElems * pointeeSize)) s
               else
                 each (fun i s =>
                   populateFromBuffer fuel ts buffer pointee (a + u32 (i * pointeeSize))
                     (if deref then cs else []) s) (seqZ 0 numElems) s) in
            let! s := gen_store (a + numElems * pointeeSize) (replicate (Z.to_nat pointeeSize) 0) s in
            gen_store where_ (word_le 8 a) s
      end
  end.
End generator.

(** ** types.cc: from the arguments to the recorded test case *)

(** The recorded bytes, the write position, and [__ah_arg_rec_failed]. *)
Record rec := Rec { r_buf : list Z; r_off : Z; r_failed : bool }.

Definition rec_write (bs : list Z) (r : rec) : res rec :=
  if r_off r + Z.of_nat (length bs) <=? Z.of_nat (length (r_buf r)) then
    Ok (Rec (take (Z.to_nat (r_off r)) (r_buf r) ++ bs
             ++ drop (Z.to_nat (r_off r) + length bs) (r_buf r))
          (u32 (r_off r + Z.of_nat (length bs))) (r_failed r))
  else UB.

(** [Type::constraintsImplyEquality] *)
Definition pathologicalValues : list Z :=
  [0; 127; 128; 255; 32767; 32768; 65535; 2147483647; 2147483648; 4294967295].

Fixpoint images (h : gmap Z Z) (t : type_desc) (size : Z) (cs : list constraint) (vs : list Z) : res (list Z) :=
  match vs with
  | [] => Ok []
  | v :: vs =>
      let! x := apply_constraints h t size cs v in
      let! xs := images h t size cs vs in Ok (x :: xs)
  end.

Definition constraintsImplyEquality (h : gmap Z Z) (t : type_desc) (size : Z) (cs : list constraint) : res bool :=
  let! xs := images h t size cs pathologicalValues in
  Ok (match xs with [] => true | x :: xs => forallb (fun y => x =? y) xs end).

(** [getStringLength]: up to the first zero byte.  The fuel covers the mapped cells: a
    longer run leaves them. *)
Fixpoint string_run (fuel : nat) (h : gmap Z Z) (p n : Z) : res Z :=
  match fuel with
  | O => NoFuel
  | S fuel =>
      let! b := of_option (h !! p) in
      if b =? 0 then Ok n else string_run fuel h (p + 1) (n + 1)
  end.

Definition load_ptr (h : gmap Z Z) (where_ : Z) : res Z :=
  let! bs := of_option (load 8 where_ h) in Ok (le_word bs).

Definition getStringLength (h : gmap Z Z) (where_ : Z) : res Z :=
  let! p := load_ptr h where_ in
  let! n := string_run (S (size h)) h p 0 in
  if n <? 2 ^ 32 - 1 then Ok n else Aborted.

(** The number of elements [PointerType::serializeToBuffer] takes. *)
Definition recorded_length (h : gmap Z Z) (pt : type_desc) (pointee : nat) (psize where_ : Z)
    (deref : bool) (cs : list constraint) : res Z :=
  let! p := load_ptr h where_ in
  let numElems := if p =? 0 then 0 else 1 in
  let! eq := constraintsImplyEquality h (PointerType pointee) 8 cs in
  let is_byte := match pt with IntegerType _ => psize =? 1 | _ => false end in
  if negb eq && is_byte && negb (numElems =? 0) then getStringLength h where_
  else if deref then Ok numElems
  else
    let! n := apply_constraints h (PointerType pointee) 8 cs numElems in
    if (n =? 0xffffffff) || (n =? 0xffffffffffffffff) then getStringLength h where_ else Ok n.

Section recorder.
(** The contents of the file with a given name, if it can be opened. *)
Context (files : list Z -> option (list Z)).

(** The branch for names of files. *)
Definition serialize_file (h : gmap Z Z) (where_ : Z) (r : rec) : res rec :=
  let! p := load_ptr h where_ in
  let! n := string_run (S (size h)) h p 0 in
  let! name := of_option (load (Z.to_nat n) p h) in
  match files name with
  | None => Ok (Rec (r_buf r) (r_off r) true)
  | Some contents => rec_write contents r
  end.

Fixpoint serializeToBuffer (fuel : nat) (ts : list type_desc) (h : gmap Z Z) (t : nat)
    (where_ : Z) (cs : list constraint) (r : rec) : res rec :=
  match fuel with
  | O => NoFuel
  | S fuel =>
      match ts !! t with
      | None => UB
      | Some (StructType _ fields) =>
          each (fun '(f, o) => serializeToBuffer fuel ts h f (where_ + o) []) fields r
      | Some (ArrayType e n) =>
          each (fun i r =>
            let! k := getSize fuel ts e in
            serializeToBuffer fuel ts h e (where_ + u32 (i * k)) [] r) (seqZ 0 n) r
      | Some (IntegerType w) | Some (FloatingType w) =>
          let! bs := of_option (load (Z.to_nat (w `div` 8)) where_ h) in rec_write bs r
      | Some (PointerType pointee) =>
          let deref := deref_tag where_ in
          let is_file := file_tag where_ in
          let where_ := untagged where_ in
          if is_file then serialize_file h where_ r
          else
            let! psize := getSize fuel ts pointee in
            let! pt := of_option (ts !! pointee) in
            let! numElems := recorded_length h pt pointee psize where_ deref cs in
            let! r := rec_write (word_le 4 numElems) r in
            let! p := load_ptr h where_ in
            each (fun i r =>
              serializeToBuffer fuel ts h pointee (p + i * psize) (if deref then cs else []) r)
              (seqZ 0 numElems) r
      end
  end.
End recorder.

(** [recordConstraintValue]: the value a "rec" constraint compares with, as written to [to]
    (nothing for structs and arrays). *)
Definition recordConstraintValue (fuel : nat) (ts : list type_desc) (h : gmap Z Z) (t : nat) (from : Z)
  : res (option (list Z)) :=
  match ts !! t with
  | None => UB
  | Some (IntegerType w) | Some (FloatingType w) =>
      let! bs := of_option (load (Z.to_nat (w `div` 8)) from h) in Ok (Some bs)
  | Some (PointerType pointee) =>
      let! p := load_ptr h from in
      let! pt := of_option (ts !! pointee) in
      let! psize := getSize fuel ts pointee in
      let! n :=
        (if negb (p =? 0) && (match pt with IntegerType _ => psize =? 1 | _ => false end)
         then getStringLength h from else Ok (if p =? 0 then 0 else 1)) in
      Ok (Some (word_le 4 n))
  | Some _ => Ok None
  end.
