(* ===== verification/LibgenTheorems.v ===== *)
(** * The argument generator: what it guarantees

    Recorded arguments are rebuilt: [serializeToBuffer] writes the encoding of the tree of
    values an argument reaches, and [populateFromBuffer] rebuilds that tree from it in
    another heap.  On arbitrary test cases the generator terminates, for recursive types
    too, and constrained scalars satisfy their constraint. *)
From S2P Require Import Prelude Libgen.

(** ** Loads and stores *)

Definition mapped (h : gmap Z Z) (a k : Z) : Prop := forall x, a <= x < a + k -> is_Some (h !! x).
Definition agree (h h' : gmap Z Z) (lo hi : Z) : Prop := forall x, lo <= x < hi -> h' !! x = h !! x.

Lemma load_agree n a h h' : agree h h' a (a + Z.of_nat n) -> load n a h' = load n a h.
Proof.
  revert a. induction n as [|n IH]; intros a H; simpl; [done|]. rewrite (H a) by lia.
  rewrite IH; [done|]. intros x Hx. apply H. lia.
Qed.

Lemma load_length n a h bs : load n a h = Some bs -> length bs = n.
Proof.
  revert a bs. induction n as [|n IH]; intros a bs H; simplify_eq/=; [done|].
  apply bind_Some in H as (b & _ & (bs' & H & [= <-])%bind_Some). simpl. f_equal. eauto.
Qed.

Lemma load_app n m a h bs cs :
  load n a h = Some bs -> load m (a + Z.of_nat n) h = Some cs -> load (n + m) a h = Some (bs ++ cs).
Proof.
  revert a bs. induction n as [|n IH]; intros a bs H1 H2; simplify_eq/=.
  { by rewrite Z.add_0_r in H2. }
  apply bind_Some in H1 as (b & Hb & (bs' & H1 & [= <-])%bind_Some).
  rewrite Hb. simpl. rewrite (IH _ bs'); [done|done|].
  by replace (a + 1 + Z.of_nat n) with (a + Z.of_nat (S n)) by lia.
Qed.

Lemma load_split n m a h bs :
  load (n + m) a h = Some bs ->
  load n a h = Some (take n bs) /\ load m (a + Z.of_nat n) h = Some (drop n bs).
Proof.
  revert a bs. induction n as [|n IH]; intros a bs H; simpl in *.
  { rewrite Z.add_0_r, drop_0. done. }
  apply bind_Some in H as (b & Hb & (bs' & H & [= <-])%bind_Some).
  destruct (IH _ _ H) as [H1 H2]. rewrite Hb. simpl. rewrite H1. simpl. split; [done|].
  by replace (a + Z.of_nat (S n)) with (a + 1 + Z.of_nat n) by lia.
Qed.

(** What a store does. *)
Record stored (a : Z) (bs : list Z) (h h' : gmap Z Z) : Prop := {
  stored_here : load (length bs) a h' = Some bs;
  stored_frame : forall x, ~ a <= x < a + Z.of_nat (length bs) -> h' !! x = h !! x;
  stored_mapped : forall x, is_Some (h !! x) -> is_Some (h' !! x);
}.

Lemma store_ok a bs h : mapped h a (Z.of_nat (length bs)) -> exists h', store a bs h = Some h' /\ stored a bs h h'.
Proof.
  revert a h. induction bs as [|b bs IH]; intros a h Hm; simpl.
  { exists h. split; [done|]. by split. }
  destruct (Hm a) as [c Hc]; [simpl; lia|]. rewrite Hc.
  destruct (IH (a + 1) (<[a := b]> h)) as (h' & -> & [H1 H2 H3]).
  { intros x Hx. rewrite lookup_insert_is_Some'. right. apply Hm. simpl. lia. }
  exists h'. split; [done|]. split.
  - simpl. rewrite H2, lookup_insert_eq by lia. simpl. by rewrite H1.
  - intros x Hx. cbn [length] in Hx. rewrite H2 by lia. apply lookup_insert_ne. lia.
  - intros x Hx. apply H3. rewrite lookup_insert_is_Some'. by right.
Qed.

Lemma alloc_ok a bs h : stored a bs h (alloc_cells a bs h).
Proof.
  revert a h. induction bs as [|b bs IH]; intros a h; simpl; [by split|].
  destruct (IH (a + 1) (<[a := b]> h)) as [H1 H2 H3]. split.
  - simpl. rewrite H2, lookup_insert_eq by lia. simpl. by rewrite H1.
  - intros x Hx. cbn [length] in Hx. rewrite H2 by lia. apply lookup_insert_ne. lia.
  - intros x Hx. apply H3. rewrite lookup_insert_is_Some'. by right.
Qed.

Lemma load_mapped n a h bs x : load n a h = Some bs -> a <= x < a + Z.of_nat n -> is_Some (h !! x).
Proof.
  revert a bs. induction n as [|n IH]; intros a bs H Hx; [lia|]. simpl in H.
  apply bind_Some in H as (b & Hb & (bs' & H & _)%bind_Some).
  destruct (decide (x = a)) as [->|]; [by eexists|]. eapply IH; [done|lia].
Qed.

Lemma block_spec n : 0 <= n -> n < block n <= n + 16 /\ block n mod 16 = 0.
Proof.
  intros Hn. unfold block. split.
  - pose proof (Z.div_mod n 16). pose proof (Z.mod_pos_bound n 16). lia.
  - apply Z.mod_mul. lia.
Qed.

(** ** Reading the test case *)

Lemma lookup_drop_0 (l : list Z) off b rest :
  0 <= off -> drop (Z.to_nat off) l = b :: rest ->
  getBuffOne l off = (b, off + 1) /\ drop (Z.to_nat (off + 1)) l = rest.
Proof.
  intros Ho H. assert (Hl : l !! Z.to_nat off = Some b)
    by (pose proof (lookup_drop l (Z.to_nat off) 0) as E; rewrite H, Nat.add_0_r in E; done).
  split.
  - unfold getBuffOne. apply lookup_lt_Some in Hl as Hlt. rewrite (proj2 (Z.ltb_lt _ _)) by lia.
    by rewrite (list_lookup_total_correct _ _ _ Hl).
  - replace (Z.to_nat (off + 1)) with (Z.to_nat off + 1)%nat by lia. by rewrite <- drop_drop, H.
Qed.

Lemma getBuffTwo_read l off a b rest :
  0 <= off -> drop (Z.to_nat off) l = a :: b :: rest ->
  getBuffTwo l off = (le_word [a; b], off + 2) /\ drop (Z.to_nat (off + 2)) l = rest.
Proof.
  intros Ho H. unfold getBuffTwo.
  destruct (lookup_drop_0 l off a (b :: rest) Ho H) as [-> H1].
  destruct (lookup_drop_0 l (off + 1) b rest ltac:(lia) H1) as [-> H2].
  replace (off + 1 + 1) with (off + 2) in * by lia. split; [|done]. f_equal.
  unfold le_word. simpl. by rewrite Z.shiftl_0_l, Z.lor_0_r.
Qed.

Lemma getBuffFour_read l off a b c d rest :
  0 <= off -> drop (Z.to_nat off) l = a :: b :: c :: d :: rest ->
  getBuffFour l off = (le_word [a; b; c; d], off + 4) /\ drop (Z.to_nat (off + 4)) l = rest.
Proof.
  intros Ho H. unfold getBuffFour.
  destruct (getBuffTwo_read l off a b (c :: d :: rest) Ho H) as [-> H1].
  destruct (getBuffTwo_read l (off + 2) c d rest ltac:(lia) H1) as [-> H2].
  replace (off + 2 + 2) with (off + 4) in * by lia. split; [|done]. f_equal.
  change [a; b; c; d] with ([a; b] ++ [c; d]). unfold le_word. simpl.
  rewrite !Z.shiftl_0_l, !Z.lor_0_r, !Z.shiftl_lor, !Z.shiftl_shiftl, !Z.lor_assoc by lia. done.
Qed.

Lemma getBuffEight_read l off bs rest :
  0 <= off -> length bs = 8%nat -> Forall byte_ok bs -> drop (Z.to_nat off) l = bs ++ rest ->
  getBuffEight l off = (le_word (take 4 bs), off + 8) /\ drop (Z.to_nat (off + 8)) l = rest.
Proof.
  intros Ho Hl Hb H.
  destruct bs as [|a [|b [|c [|d [|e [|f [|g [|i [|? ?]]]]]]]]]; try discriminate Hl.
  unfold getBuffEight.
  destruct (getBuffFour_read l off a b c d (e :: f :: g :: i :: rest) Ho H) as [-> H1].
  destruct (getBuffFour_read l (off + 4) e f g i rest ltac:(lia) H1) as [-> H2].
  replace (off + 4 + 4) with (off + 8) in * by lia. split; [|done]. f_equal. simpl.
  assert (Hlo : 0 <= le_word [a; b; c; d] < 2 ^ 32).
  { apply (le_word_bound [a; b; c; d]). rewrite !Forall_cons in *. naive_solver. }
  unfold u32. rewrite <- Z.land_ones, Z.land_lor_distr_l by lia.
  rewrite Z.land_ones, Z.mod_small by lia.
  rewrite Z.land_ones, Z.shiftl_mul_pow2, Z.mod_mul, Z.lor_0_r by lia. done.
Qed.

Lemma le_word_zeros bs n : le_word (bs ++ replicate n 0) = le_word bs.
Proof.
  unfold le_word. induction bs as [|b bs IH]; simpl; [|by rewrite IH].
  induction n as [|n IH]; simpl; [done|]. by rewrite IH.
Qed.

(** ** Values *)

(** What an argument reaches: scalars as their bytes, the elements behind a pointer, the
    members of a struct or array. *)
Inductive val :=
| VBytes (bs : list Z)
| VPtr (vs : list val)
| VNode (vs : list val).

Section val_induction.
Context (P : val -> Prop).
Hypothesis Hb : forall bs, P (VBytes bs).
Hypothesis Hp : forall vs, Forall P vs -> P (VPtr vs).
Hypothesis Hn : forall vs, Forall P vs -> P (VNode vs).
Fixpoint val_induction (v : val) : P v :=
  let fix go vs : Forall P vs :=
    match vs with [] => Forall_nil_2 P | v :: vs => Forall_cons_2 P v vs (val_induction v) (go vs) end in
  match v with VBytes bs => Hb bs | VPtr vs => Hp vs (go vs) | VNode vs => Hn vs (go vs) end.
End val_induction.

(** The bytes a value has in a test case. *)
Fixpoint encode (v : val) : list Z :=
  match v with
  | VBytes bs => bs
  | VPtr vs => word_le 4 (Z.of_nat (length vs)) ++ mjoin (map encode vs)
  | VNode vs => mjoin (map encode vs)
  end.

Fixpoint depth (v : val) : nat :=
  match v with
  | VBytes _ => 1
  | VPtr vs | VNode vs => S (max_list (map depth vs))
  end.

Lemma depth_le v vs : v ∈ vs -> (depth v <= max_list (map depth vs))%nat.
Proof.
  induction vs as [|w vs IH]; intros Hv; [by apply not_elem_of_nil in Hv|]. simpl.
  apply elem_of_cons in Hv as [->|Hv]; [lia|]. specialize (IH Hv). lia.
Qed.

Section pointwise.
Context (P : nat -> Z -> val -> Prop) (f : nat -> val -> Z).
Fixpoint all2 (l : list (nat * Z)) (vs : list val) {struct vs} : Prop :=
  match vs with
  | [] => l = []
  | v :: vs => match l with [] => False | tx :: l => P tx.1 tx.2 v /\ all2 l vs end
  end.
Fixpoint sum2 (l : list (nat * Z)) (vs : list val) {struct vs} : Z :=
  match vs with
  | [] => 0
  | v :: vs => match l with [] => 0 | tx :: l => f tx.1 v + sum2 l vs end
  end.
End pointwise.

Fixpoint map2 (f : nat -> val -> val) (l : list (nat * Z)) (vs : list val) {struct vs} : list val :=
  match vs with
  | [] => []
  | v :: vs => match l with [] => v :: vs | tx :: l => f tx.1 v :: map2 f l vs end
  end.

Lemma length_map2 f l vs : length (map2 f l vs) = length vs.
Proof. revert l. induction vs as [|v vs IH]; intros [|tx l]; simpl; by rewrite ?IH. Qed.

Lemma all2_map2 P f l vs : all2 P l (map2 f l vs) <-> all2 (fun t x v => P t x (f t v)) l vs.
Proof. revert l. induction vs as [|v vs IH]; intros [|tx l]; simpl; try done. by rewrite IH. Qed.

Section typed.
Context (ts : list type_desc).

(** The size of a type; as many steps as there are types suffice. *)
Definition sizeof (t : nat) : res Z := getSize (S (length ts)) ts t.
Definition size_ok (t : nat) (k : Z) : Prop := sizeof t = Ok k /\ 0 <= k.

Lemma getSize_mono fuel fuel' t k : getSize fuel ts t = Ok k -> (fuel <= fuel')%nat -> getSize fuel' ts t = Ok k.
Proof.
  revert fuel' t k. induction fuel as [|fuel IH]; intros [|fuel'] t k H Hle; try done; [lia|].
  simpl in *. destruct (ts !! t) as [[| | | |e n]|]; try done.
  destruct (getSize fuel ts e) as [k'| | |] eqn:E; try done.
  rewrite (IH fuel' e k') by (done || lia). done.
Qed.

(** The parts of a value and where they are: [a] is the address of a struct or array, or
    the address a pointer holds. *)
Definition kids (t : nat) (a : Z) (n : nat) : list (nat * Z) :=
  match ts !! t with
  | Some (StructType _ fs) => map (fun '(f, o) => (f, a + o)) fs
  | Some (ArrayType e _) | Some (PointerType e) =>
      match sizeof e with
      | Ok k => map (fun i => (e, a + i * k)) (seqZ 0 (Z.of_nat n))
      | _ => []
      end
  | _ => []
  end.

(** Parts in ascending order, disjoint, inside [lo, hi). *)
Fixpoint laid (lo hi : Z) (l : list (nat * Z)) : Prop :=
  match l with
  | [] => lo <= hi
  | (t, x) :: l => lo <= x /\ exists k, size_ok t k /\ laid (x + k) hi l
  end.

(** The value fits the type when it is placed at [a]: scalars have the right number of
    bytes, struct members are laid out inside the struct, pointers are at even addresses and
    arrays are shorter than 2^32 bytes. *)
Definition scalar_ok (w : Z) (bs : list Z) : Prop :=
  Z.of_nat (length bs) = w `div` 8 /\ Forall byte_ok bs.

Fixpoint fits (t : nat) (a : Z) (v : val) : Prop :=
  match v, ts !! t with
  | VBytes bs, Some (IntegerType w) => w ∈ [8; 16; 32; 64] /\ scalar_ok w bs
  | VBytes bs, Some (FloatingType w) => w ∈ [32; 64] /\ scalar_ok w bs
  | VPtr vs, Some (PointerType e) =>
      Z.even a = true /\
      exists k, size_ok e k /\ 0 < k /\ (Z.of_nat (length vs) + 1) * k < 2 ^ 32
        /\ all2 fits (kids t 0 (length vs)) vs
  | VNode vs, Some (StructType size _) => laid a (a + size) (kids t a (length vs)) /\ all2 fits (kids t a (length vs)) vs
  | VNode vs, Some (ArrayType e n) =>
      Z.of_nat (length vs) = n /\
      exists k, size_ok e k /\ n * k < 2 ^ 32 /\ all2 fits (kids t a (length vs)) vs
  | _, _ => False
  end.

(** What becomes of the value on its way through a test case.  [getBuffEight] returns
    [unsigned int]: a 64-bit number that is an argument, a member of a struct or an element of
    an array loses its upper half.  Numbers behind a pointer are copied as they are. *)
Definition low_half (bs : list Z) : list Z := take 4 bs ++ replicate 4 0.

Definition scalar_elems (t : nat) : bool :=
  match ts !! t with
  | Some (PointerType e) => match ts !! e with Some pt => is_scalar pt | None => false end
  | _ => false
  end.

Fixpoint rebuilt (t : nat) (v : val) : val :=
  match v with
  | VBytes bs =>
      VBytes (match ts !! t with
              | Some (IntegerType w) | Some (FloatingType w) => if w =? 64 then low_half bs else bs
              | _ => bs
              end)
  | VPtr vs => VPtr (if scalar_elems t then vs else map2 rebuilt (kids t 0 (length vs)) vs)
  | VNode vs => VNode (map2 rebuilt (kids t 0 (length vs)) vs)
  end.

(** Every 64-bit number that would lose its upper half has none. *)
Fixpoint small (t : nat) (v : val) : Prop :=
  match v with
  | VBytes bs =>
      ts !! t = Some (IntegerType 64) \/ ts !! t = Some (FloatingType 64) -> drop 4 bs = replicate 4 0
  | VPtr vs => scalar_elems t = false -> all2 (fun t _ v => small t v) (kids t 0 (length vs)) vs
  | VNode vs => all2 (fun t _ v => small t v) (kids t 0 (length vs)) vs
  end.

(** The heap below [hi] and from [lo] on, together with the argument's own bytes, holds the
    value at [a]; behind the elements a pointer points to there is a zero element. *)
Fixpoint rep (h : gmap Z Z) (lo hi : Z) (t : nat) (a : Z) (v : val) : Prop :=
  match v with
  | VBytes bs => load (length bs) a h = Some bs
  | VPtr vs =>
      exists p, load 8 a h = Some (word_le 8 p) /\ Z.even p = true /\ lo <= p
        /\ (forall e k, ts !! t = Some (PointerType e) -> size_ok e k ->
             p + (Z.of_nat (length vs) + 1) * k <= hi
             /\ load (Z.to_nat k) (p + Z.of_nat (length vs) * k) h = Some (replicate (Z.to_nat k) 0))
        /\ all2 (rep h lo hi) (kids t p (length vs)) vs
  | VNode vs => all2 (rep h lo hi) (kids t a (length vs)) vs
  end.

(** Memory [populateFromBuffer] takes from [malloc]. *)
Fixpoint need (t : nat) (v : val) : Z :=
  match v with
  | VBytes _ => 0
  | VPtr vs =>
      match ts !! t with
      | Some (PointerType e) =>
          match sizeof e with
          | Ok k => block ((Z.of_nat (length vs) + 1) * k) + sum2 need (kids t 0 (length vs)) vs
          | _ => 0
          end
      | _ => 0
      end
  | VNode vs => sum2 need (kids t 0 (length vs)) vs
  end.


(** ** Layout *)

Lemma size_ok_unique t k k' : size_ok t k -> size_ok t k' -> k = k'.
Proof. intros [H _] [H' _]. congruence. Qed.

Lemma laid_le lo hi l : laid lo hi l -> lo <= hi.
Proof.
  revert lo. induction l as [|[t x] l IH]; intros lo; simpl; [done|].
  intros (H & k & [_ Hk] & Hl). apply IH in Hl. lia.
Qed.

Lemma laid_in lo hi l t x : laid lo hi l -> (t, x) ∈ l -> exists k, size_ok t k /\ lo <= x /\ x + k <= hi.
Proof.
  revert lo. induction l as [|[t' x'] l IH]; intros lo Hl Hin; [by apply not_elem_of_nil in Hin|].
  destruct Hl as (Hx & k & Hk & Hl). apply elem_of_cons in Hin as [[= -> ->]|Hin].
  - exists k. split; [done|]. split; [done|]. by eapply laid_le.
  - destruct (IH _ Hl Hin) as (k' & Hk' & H1 & H2). exists k'. destruct Hk. split; [done|]. lia.
Qed.

Lemma laid_weaken lo lo' hi hi' l : laid lo hi l -> lo' <= lo -> hi <= hi' -> laid lo' hi' l.
Proof.
  revert lo lo'. induction l as [|[t x] l IH]; intros lo lo'; simpl; [lia|].
  intros (H & k & Hk & Hl) H1 H2. split; [lia|]. exists k. split; [done|]. eapply IH; [done|lia|done].
Qed.

Definition shift (d : Z) (l : list (nat * Z)) : list (nat * Z) := map (fun tx => (tx.1, tx.2 + d)) l.

Lemma laid_shift d lo hi l : laid lo hi l -> laid (lo + d) (hi + d) (shift d l).
Proof.
  revert lo. induction l as [|[t x] l IH]; intros lo; simpl; [lia|].
  intros (H & k & Hk & Hl). split; [lia|]. exists k. split; [done|].
  replace (x + d + k) with (x + k + d) by lia. by apply IH.
Qed.

Lemma kids_shift t a d n : kids t (a + d) n = shift d (kids t a n).
Proof.
  unfold kids, shift. destruct (ts !! t) as [[size fs|e|w|w|e m]|]; try done.
  - rewrite map_map. apply map_ext. intros [f o]. simpl. f_equal. lia.
  - destruct (sizeof e); try done. rewrite map_map. apply map_ext. intros i. simpl. f_equal. lia.
  - destruct (sizeof e); try done. rewrite map_map. apply map_ext. intros i. simpl. f_equal. lia.
Qed.

Lemma laid_elems e k a n : size_ok e k -> forall j,
  laid (a + j * k) (a + (j + Z.of_nat n) * k) (map (fun i => (e, a + i * k)) (seqZ j (Z.of_nat n))).
Proof.
  intros Hk. induction n as [|n IH]; intros j.
  { change (seqZ j (Z.of_nat 0)) with (@nil Z). simpl. destruct Hk. nia. }
  rewrite seqZ_cons by lia. simpl. split; [lia|]. exists k. split; [done|].
  replace (Z.pred (Z.of_nat (S n))) with (Z.of_nat n) by lia.
  specialize (IH (j + 1)). replace (a + (j + 1) * k) with (a + j * k + k) in IH by lia.
  replace (Z.succ j) with (j + 1) by lia.
  replace (a + (j + Z.of_nat (S n)) * k) with (a + (j + 1 + Z.of_nat n) * k) by lia. exact IH.
Qed.

(** ** Pointwise predicates *)

Lemma all2_Forall2 P l vs : all2 P l vs <-> Forall2 (fun tx v => P tx.1 tx.2 v) l vs.
Proof.
  revert l. induction vs as [|v vs IH]; intros [|tx l]; simpl.
  - done.
  - split; [done|]. intros H. by apply Forall2_cons_nil_inv in H.
  - split; [done|]. intros H. by apply Forall2_nil_cons_inv in H.
  - rewrite Forall2_cons, IH. done.
Qed.

Lemma all2_impl (P Q : nat -> Z -> val -> Prop) l vs :
  all2 P l vs -> (forall t x v, (t, x) ∈ l -> v ∈ vs -> P t x v -> Q t x v) -> all2 Q l vs.
Proof.
  revert l. induction vs as [|v vs IH]; intros [|[t x] l]; simpl; try done.
  intros [H1 H2] Himp. split; [apply Himp; [left|left|done]|].
  apply IH; [done|]. intros. apply Himp; [by right|by right|done].
Qed.

Lemma all2_impl2 (P R Q : nat -> Z -> val -> Prop) l vs :
  all2 P l vs -> all2 R l vs ->
  (forall t x v, (t, x) ∈ l -> v ∈ vs -> P t x v -> R t x v -> Q t x v) -> all2 Q l vs.
Proof.
  revert l. induction vs as [|v vs IH]; intros [|[t x] l]; simpl; try done.
  intros [H1 H2] [H3 H4] Himp. split; [apply Himp; [left|left|done|done]|].
  apply IH; [done|done|]. intros. apply Himp; [by right|by right|done|done].
Qed.

Lemma all2_shift d (P : nat -> Z -> val -> Prop) l vs :
  all2 (fun t x v => P t (x + d) v) l vs -> all2 P (shift d l) vs.
Proof.
  revert l. induction vs as [|v vs IH]; intros [|[t x] l]; simpl; try done.
  intros [H1 H2]. auto.
Qed.

Lemma sum2_shift d f l vs : sum2 f (shift d l) vs = sum2 f l vs.
Proof. revert l. induction vs as [|v vs IH]; intros [|tx l]; simpl; try done. by rewrite IH. Qed.

Lemma map2_shift d f l vs : map2 f (shift d l) vs = map2 f l vs.
Proof. revert l. induction vs as [|v vs IH]; intros [|tx l]; simpl; try done. by rewrite IH. Qed.

Lemma Forall_elem {A} (P : A -> Prop) l x : Forall P l -> x ∈ l -> P x.
Proof. rewrite Forall_forall. auto. Qed.

(** A value fits wherever the parity is the same. *)
Lemma fits_shift v : forall t a d, Z.even d = true -> fits t a v -> fits t (a + d) v.
Proof.
  induction v as [bs|vs IH|vs IH] using val_induction; intros t a d Hd; simpl.
  - done.
  - destruct (ts !! t) as [[]|]; try done. intros [Ha H]. split; [|done].
    by rewrite Z.even_add, Ha, Hd.
  - assert (Hall : all2 fits (kids t a (length vs)) vs -> all2 fits (kids t (a + d) (length vs)) vs).
    { intros H. rewrite kids_shift. apply all2_shift. eapply all2_impl; [done|].
      intros t' x v' _ Hv Hf. by apply (Forall_elem _ _ _ IH Hv). }
    destruct (ts !! t) as [[size fs| | | |e n]|] eqn:Et; try done.
    + intros [Hl H]. split; [|auto]. rewrite kids_shift.
      replace (a + d + size) with (a + size + d) by lia. by apply laid_shift.
    + intros (Hn & k & H1 & H2 & H3). split; [done|]. exists k. auto.
Qed.

Lemma length_low_half bs : length bs = 8%nat -> length (low_half bs) = 8%nat.
Proof. intros H. unfold low_half. rewrite length_app, length_take, length_replicate. lia. Qed.

Lemma low_half_ok bs : scalar_ok 64 bs -> scalar_ok 64 (low_half bs).
Proof.
  intros [Hl Hb]. change (64 `div` 8) with 8 in Hl. split; [by rewrite length_low_half by lia|].
  unfold low_half. apply Forall_app. split; [by apply Forall_take|]. by apply Forall_replicate.
Qed.

(** What is rebuilt fits the type as well. *)
Lemma fits_rebuilt v : forall t a, fits t a v -> fits t a (rebuilt t v).
Proof.
  assert (Hscalar : forall w bs, scalar_ok w bs -> scalar_ok w (if w =? 64 then low_half bs else bs)).
  { intros w bs H. destruct (Z.eqb_spec w 64) as [->|]; [by apply low_half_ok|done]. }
  induction v as [bs|vs IH|vs IH] using val_induction; intros t a.
  - simpl. destruct (ts !! t) as [[| |w|w|]|]; try done; intros [Hw Hs]; split; auto.
  - assert (Hall : forall x, all2 fits (kids t x (length vs)) vs -> all2 fits (kids t x (length vs)) (map2 rebuilt (kids t x (length vs)) vs)).
    { intros x H. apply all2_map2. eapply all2_impl; [exact H|]. intros t' y v _ Hv. by apply (Forall_elem _ _ _ IH Hv). }
    simpl. destruct (ts !! t) as [[|e| | |]|]; try done. intros (Ha & k & Hk & Hpos & Hlt & H). split; [done|].
    exists k. destruct (scalar_elems t); [done|]. rewrite length_map2. auto.
  - assert (Hall : all2 fits (kids t a (length vs)) vs -> all2 fits (kids t a (length vs)) (map2 rebuilt (kids t 0 (length vs)) vs)).
    { intros H. rewrite <- (map2_shift a), <- kids_shift. apply all2_map2. eapply all2_impl; [exact H|].
      intros t' y v _ Hv. by apply (Forall_elem _ _ _ IH Hv). }
    simpl. rewrite length_map2. destruct (ts !! t) as [[| | | |]|]; try done; naive_solver.
Qed.

Lemma rebuilt_small v : forall t, small t v -> rebuilt t v = v.
Proof.
  assert (Hmap : forall vs l, Forall (fun v => forall t, small t v -> rebuilt t v = v) vs ->
    all2 (fun t _ v => small t v) l vs -> map2 rebuilt l vs = vs).
  { clear v. induction vs as [|v vs IH]; intros [|tx l] HF; simpl; try done. apply Forall_cons in HF as [Hv HF].
    intros [H1 H2]. by rewrite Hv, IH. }
  assert (Hlow : forall bs, drop 4 bs = replicate 4 0 -> low_half bs = bs)
    by (intros bs H; unfold low_half; rewrite <- H; apply take_drop).
  induction v as [bs|vs IH|vs IH] using val_induction; intros t Hs; simpl in *.
  - destruct (ts !! t) as [[| |w|w|]|]; try done; destruct (Z.eqb_spec w 64) as [->|]; try done; rewrite Hlow; auto.
  - destruct (scalar_elems t); [done|]. by rewrite Hmap by auto.
  - by rewrite Hmap.
Qed.

(** ** Represented values are stable *)

Lemma rep_weaken h lo hi lo' hi' v : lo' <= lo -> hi <= hi' ->
  forall t a, rep h lo hi t a v -> rep h lo' hi' t a v.
Proof.
  intros H1 H2. induction v as [bs|vs IH|vs IH] using val_induction; intros t a; simpl.
  - done.
  - intros (p & Hp & Hev & Hlo & Hhi & Hall). exists p. split; [done|]. split; [done|]. split; [lia|]. split.
    + intros e k He Hk. specialize (Hhi e k He Hk). split; [lia|apply Hhi].
    + eapply all2_impl; [done|]. intros. by eapply (Forall_elem _ _ _ IH).
  - intros Hall. eapply all2_impl; [done|]. intros. by eapply (Forall_elem _ _ _ IH).
Qed.

Lemma kids_elems t e k a n :
  (ts !! t = Some (PointerType e) \/ exists m, ts !! t = Some (ArrayType e m)) -> size_ok e k ->
  kids t a n = map (fun i => (e, a + i * k)) (seqZ 0 (Z.of_nat n))
  /\ laid a (a + Z.of_nat n * k) (kids t a n).
Proof.
  intros Ht Hk. assert (E : kids t a n = map (fun i => (e, a + i * k)) (seqZ 0 (Z.of_nat n)))
    by (unfold kids; destruct Ht as [->|[m ->]]; by rewrite (proj1 Hk)).
  split; [done|]. rewrite E. pose proof (laid_elems e k a n Hk 0) as H.
  by rewrite Z.mul_0_l, Z.add_0_r, Z.add_0_l in H.
Qed.

(** The parts of a struct or array are inside it. *)
Lemma kids_laid t a k vs :
  fits t a (VNode vs) -> size_ok t k -> laid a (a + k) (kids t a (length vs)).
Proof.
  simpl. intros Hf [Hk Hk0]. destruct (ts !! t) as [[size fs| | | |e n]|] eqn:Et; try done.
  - destruct Hf as [Hl _]. unfold sizeof in Hk. simpl in Hk. rewrite Et in Hk. by simplify_eq.
  - destruct Hf as (Hn & k' & Hk' & Hlt & _).
    destruct (kids_elems t e k' a (length vs)) as [_ Hl]; [by right; exists n|done|].
    unfold sizeof in Hk. cbn [getSize] in Hk. rewrite Et in Hk.
    destruct (getSize (length ts) ts e) as [k2| | |] eqn:E2; try done. cbn [rbind] in Hk.
    assert (k2 = k') as ->.
    { destruct Hk' as [Hk' _]. unfold sizeof in Hk'. apply (getSize_mono _ (S (length ts))) in E2; [|lia].
      congruence. }
    injection Hk as <-. destruct Hk' as [_ Hk'].
    unfold u32. rewrite Z.mod_small by nia. rewrite <- Hn, Z.mul_comm. exact Hl.
Qed.

Lemma fits_kids t a vs : fits t a (VNode vs) -> all2 fits (kids t a (length vs)) vs.
Proof. simpl. destruct (ts !! t) as [[]|]; naive_solver. Qed.

Lemma scalar_size t a bs k : fits t a (VBytes bs) -> size_ok t k -> Z.of_nat (length bs) = k.
Proof.
  simpl. intros Hf [Hk _]. unfold sizeof in Hk. simpl in Hk.
  destruct (ts !! t) as [[]|]; try done; destruct Hf as [_ [Hl _]]; by simplify_eq.
Qed.

Lemma pointer_size t e k : ts !! t = Some (PointerType e) -> size_ok t k -> k = 8.
Proof. intros Ht [Hk _]. unfold sizeof in Hk. simpl in Hk. rewrite Ht in Hk. by simplify_eq. Qed.

(** The elements behind a pointer fit where the pointer points. *)
Lemma fits_elems t e a p vs :
  ts !! t = Some (PointerType e) -> fits t a (VPtr vs) -> Z.even p = true ->
  all2 fits (kids t p (length vs)) vs.
Proof.
  intros Et Hf Hp. simpl in Hf. rewrite Et in Hf. destruct Hf as (_ & k & _ & _ & _ & Hall).
  change p with (0 + p). rewrite kids_shift. apply all2_shift. eapply all2_impl; [done|].
  intros. by apply fits_shift.
Qed.

Lemma all_rep_frame h h' lo hi lo' hi' l vs :
  Forall (fun v => forall t a k, fits t a v -> size_ok t k -> agree h h' a (a + k) ->
    rep h lo hi t a v -> rep h' lo hi t a v) vs ->
  laid lo' hi' l -> agree h h' lo' hi' -> all2 fits l vs ->
  all2 (rep h lo hi) l vs -> all2 (rep h' lo hi) l vs.
Proof.
  intros IH Hl Ha Hf Hr. eapply all2_impl2; [exact Hf|exact Hr|]. intros t x v Hin Hv Hfv Hrv.
  destruct (laid_in _ _ _ _ _ Hl Hin) as (k & Hk & H1 & H2).
  apply (Forall_elem _ _ _ IH Hv t x k); [done|done|intros y Hy; apply Ha; lia|done].
Qed.

Lemma rep_frame h h' lo hi v :
  agree h h' lo hi ->
  forall t a k, fits t a v -> size_ok t k -> agree h h' a (a + k) -> rep h lo hi t a v -> rep h' lo hi t a v.
Proof.
  intros Hr. induction v as [bs|vs IH|vs IH] using val_induction; intros t a k Hf Hk Ha.
  - simpl. rewrite <- (load_agree _ _ h h'); [done|]. by rewrite (scalar_size t a bs k).
  - destruct (ts !! t) as [[|e| | |]|] eqn:Et; try (simpl in Hf; by rewrite Et in Hf).
    intros (p & Hp & Hev & Hlo & Hhi & Hrep).
    exists p. rewrite (pointer_size t e k Et Hk) in Ha. rewrite (load_agree _ _ h h') by done.
    split; [done|]. split; [done|]. split; [done|].
    assert (Hke : exists ke, size_ok e ke)
      by (simpl in Hf; rewrite Et in Hf; destruct Hf as (_ & ke & Hke & _); eauto).
    destruct Hke as [ke Hke]. specialize (Hhi e ke Et Hke) as [Hend Hzero]. pose proof (proj2 Hke) as Hke0. split.
    { intros e' k' He' Hk'. rewrite Et in He'. injection He' as <-. rewrite (size_ok_unique _ _ _ Hk' Hke).
      split; [done|]. rewrite (load_agree _ _ h h'); [done|]. intros x Hx. apply Hr. nia. }
    destruct (kids_elems t e ke p (length vs) (or_introl Et) Hke) as [_ Hl].
    eapply (all_rep_frame h h' lo hi lo hi); [done|eapply laid_weaken; [done|lia|lia]|done|by eapply fits_elems|done].
  - eapply (all_rep_frame h h' lo hi a (a + k)); [done|by apply kids_laid|done|by apply fits_kids].
Qed.

(** ** Rebuilding a value *)

(** Only [lo, hi) and fresh memory is written. *)
Record grown (h h' : heap) (lo hi : Z) : Prop := {
  grown_brk : brk h <= brk h';
  grown_frame : forall x, x < brk h -> ~ lo <= x < hi -> cells h' !! x = cells h !! x;
  grown_mapped : forall x, is_Some (cells h !! x) -> is_Some (cells h' !! x);
}.

Lemma grown_refl h lo hi : grown h h lo hi.
Proof. by split. Qed.

Lemma grown_trans h1 h2 h3 lo hi lo1 hi1 lo2 hi2 :
  grown h1 h2 lo1 hi1 -> grown h2 h3 lo2 hi2 ->
  (forall x, lo1 <= x < hi1 \/ lo2 <= x < hi2 -> lo <= x < hi \/ brk h1 <= x) -> grown h1 h3 lo hi.
Proof.
  intros [B1 F1 M1] [B2 F2 M2] Hsub. split; [lia| |auto]. intros x Hx Hn.
  rewrite F2, F1; [done|done|..]; [|lia|]; intros H; destruct (Hsub x); tauto || lia.
Qed.

Lemma store_grown h a bs :
  mapped (cells h) a (Z.of_nat (length bs)) ->
  exists c, store_heap a bs h = Ok (Heap c (brk h)) /\ stored a bs (cells h) c
    /\ grown h (Heap c (brk h)) a (a + Z.of_nat (length bs)).
Proof.
  intros Hm. destruct (store_ok a bs (cells h) Hm) as (c & Hc & Hs). exists c.
  unfold store_heap. rewrite Hc. split; [done|]. split; [done|]. destruct Hs. split; simpl; [lia| |done].
  intros x _ Hx. auto.
Qed.

Lemma malloc_grown junk h n : 0 <= n ->
  grown h (malloc junk n h).2 0 0 /\ mapped (cells (malloc junk n h).2) (brk h) n
  /\ brk (malloc junk n h).2 = brk h + block n.
Proof.
  intros Hn. destruct (block_spec n Hn) as [Hb _].
  destruct (alloc_ok (brk h) (replicate (Z.to_nat n) junk) (cells h)) as [H1 H2 H3].
  rewrite length_replicate in *. split; [|split; [|done]].
  - split; simpl; [lia| |done]. intros x Hx _. apply H2. lia.
  - intros x Hx. eapply load_mapped; [exact H1|lia].
Qed.

Definition chunk (n : Z) : Prop := 0 <= n /\ n mod 16 = 0.

Lemma chunk_add n m : chunk n -> chunk m -> chunk (n + m).
Proof. intros [H1 H2] [H3 H4]. split; [lia|]. rewrite Z.add_mod, H2, H4 by lia. done. Qed.

Lemma sum2_chunk l vs :
  Forall (fun v => forall t a, fits t a v -> chunk (need t v)) vs -> all2 fits l vs -> chunk (sum2 need l vs).
Proof.
  revert l. induction vs as [|v vs IH]; intros [|[t x] l] HI Hf; simpl in *; try done.
  apply Forall_cons in HI as [Hv HI]. destruct Hf as [Hf1 Hf2]. apply chunk_add; [by eapply Hv|auto].
Qed.

Lemma need_chunk v : forall t a, fits t a v -> chunk (need t v).
Proof.
  induction v as [bs|vs IH|vs IH] using val_induction; intros t a Hf.
  - done.
  - destruct (ts !! t) as [[|e| | |]|] eqn:Et; try (simpl in Hf; by rewrite Et in Hf).
    pose proof (fits_elems t e a 0 vs Et Hf eq_refl) as Hall.
    simpl in Hf |- *. rewrite Et in Hf |- *. destruct Hf as (_ & k & [Hk Hk0] & Hpos & Hlen & _).
    rewrite Hk. apply chunk_add; [|by apply sum2_chunk].
    destruct (block_spec ((Z.of_nat (length vs) + 1) * k)); [lia|]. split; [lia|done].
  - apply fits_kids in Hf. simpl. change a with (0 + a) in Hf. rewrite kids_shift in Hf.
    rewrite <- (sum2_shift a). by apply sum2_chunk.
Qed.

Section populate.
Context (junk : Z) (avail : Z -> bool) (filein buffer : list Z).

Let populate fuel t a s := populateFromBuffer junk avail filein fuel ts buffer t a [] s.

(** The next bytes of the test case. *)
Definition reads (s : gen) (bs : list Z) : Prop := exists rest, drop (Z.to_nat (g_off s)) buffer = bs ++ rest.

(** The heap is ready for a value at [a, a + k). *)
Record ready (s : gen) (a k : Z) : Prop := {
  ready_addr : 0 <= a /\ a + k <= brk (g_heap s);
  ready_mapped : mapped (cells (g_heap s)) a k;
  ready_brk : brk (g_heap s) mod 16 = 0;
  ready_off : 0 <= g_off s <= Z.of_nat (length buffer);
}.

Record built (s s' : gen) (lo hi need_ off_ : Z) (r : gmap Z Z -> Z -> Z -> Prop) : Prop := {
  built_grown : grown (g_heap s) (g_heap s') lo hi;
  built_brk : brk (g_heap s') = brk (g_heap s) + need_;
  built_off : g_off s' = g_off s + off_;
  built_file : g_file s' = g_file s;
  built_rep : r (cells (g_heap s')) (brk (g_heap s)) (brk (g_heap s'));
}.

Lemma reads_app s bs cs : reads s (bs ++ cs) -> reads s bs.
Proof. intros [rest H]. exists (cs ++ rest). by rewrite app_assoc. Qed.

Lemma reads_next s s' bs cs :
  0 <= g_off s -> g_off s' = g_off s + Z.of_nat (length bs) -> reads s (bs ++ cs) -> reads s' cs.
Proof.
  intros Ho Hs [rest H]. exists rest. rewrite Hs.
  replace (Z.to_nat (g_off s + Z.of_nat (length bs))) with (Z.to_nat (g_off s) + length bs)%nat by lia.
  rewrite <- drop_drop, H, <- app_assoc. apply drop_app_length.
Qed.

Lemma reads_bound s bs : 0 <= g_off s <= Z.of_nat (length buffer) -> reads s bs ->
  g_off s + Z.of_nat (length bs) <= Z.of_nat (length buffer).
Proof. intros Ho [rest H]. apply (f_equal length) in H. rewrite length_drop, length_app in H. lia. Qed.

Lemma scalar_read w bs s :
  w ∈ [8; 16; 32; 64] -> scalar_ok w bs -> 0 <= g_off s -> reads s bs ->
  exists v, (if w =? 8 then getBuffOne buffer (g_off s)
     else if w =? 16 then getBuffTwo buffer (g_off s)
     else if w =? 32 then getBuffFour buffer (g_off s)
     else getBuffEight buffer (g_off s)) = (v, g_off s + Z.of_nat (length bs))
    /\ word_le (w `div` 8) v = if w =? 64 then low_half bs else bs.
Proof.
  intros Hw Hs Ho [rest H]. exists (le_word (if w =? 64 then low_half bs else bs)).
  assert (Hs' : scalar_ok w (if w =? 64 then low_half bs else bs))
    by (destruct (Z.eqb_spec w 64) as [->|]; [by apply low_half_ok|done]).
  destruct Hs as [Hl Hb], Hs' as [Hl' Hb'].
  rewrite (word_le_le_word (w `div` 8)) by done. split; [|done].
  assert (Hn : length bs = Z.to_nat (w `div` 8)) by lia.
  rewrite !elem_of_cons, elem_of_nil in Hw.
  destruct Hw as [->|[->|[->|[->|[]]]]]; simpl.
  - change (Z.to_nat _) with 1%nat in Hn.
    destruct bs as [|a [|? ?]]; try discriminate Hn. destruct (lookup_drop_0 _ _ _ _ Ho H) as [-> _].
    unfold le_word. simpl. by rewrite Z.shiftl_0_l, Z.lor_0_r.
  - change (Z.to_nat _) with 2%nat in Hn. destruct bs as [|a [|b [|? ?]]]; try discriminate Hn.
    by destruct (getBuffTwo_read _ _ _ _ _ Ho H) as [-> _].
  - change (Z.to_nat _) with 4%nat in Hn. destruct bs as [|a [|b [|c [|d [|? ?]]]]]; try discriminate Hn.
    by destruct (getBuffFour_read _ _ _ _ _ _ _ Ho H) as [-> _].
  - change (Z.to_nat _) with 8%nat in Hn.
    destruct (getBuffEight_read buffer (g_off s) bs rest Ho Hn Hb H) as [-> _].
    f_equal; [|lia]. unfold low_half. by rewrite le_word_zeros.
Qed.

Lemma gen_store_ok s a bs :
  mapped (cells (g_heap s)) a (Z.of_nat (length bs)) ->
  exists s', gen_store a bs s = Ok s' /\ stored a bs (cells (g_heap s)) (cells (g_heap s'))
    /\ grown (g_heap s) (g_heap s') a (a + Z.of_nat (length bs))
    /\ brk (g_heap s') = brk (g_heap s) /\ g_off s' = g_off s /\ g_file s' = g_file s.
Proof.
  intros Hm. destruct (store_grown (g_heap s) a bs Hm) as (c & Hc & Hs & Hg).
  unfold gen_store. rewrite Hc. by eexists.
Qed.

Definition builds (fuel : nat) (v : val) : Prop := forall t a k s,
  fits t a v -> size_ok t k -> ready s a k -> brk (g_heap s) + need t v < 2 ^ 63 -> reads s (encode v) ->
  exists s', populate fuel t a s = Ok s'
    /\ built s s' a (a + k) (need t v) (Z.of_nat (length (encode v))) (fun h lo hi => rep h lo hi t a (rebuilt t v)).

Lemma builds_bytes fuel bs : builds (S fuel) (VBytes bs).
Proof.
  intros t a k s Hf Hk [Ha Hm Hb Ho] _ Hr. pose proof (scalar_size t a bs k Hf Hk) as Hlen.
  assert (Hs : exists w td floating, populate (S fuel) t a s = populate_scalar buffer td w floating a [] s
    /\ w ∈ [8; 16; 32; 64] /\ (floating = true -> w ∈ [32; 64]) /\ scalar_ok w bs
    /\ rebuilt t (VBytes bs) = VBytes (if w =? 64 then low_half bs else bs)).
  { simpl in Hf |- *. unfold populate. cbn [populateFromBuffer].
    destruct (ts !! t) as [[| |w|w|]|]; try done; destruct Hf as [Hw Hs].
    - by exists w, (IntegerType w), false.
    - exists w, (FloatingType w), true. split; [done|]. split; [set_solver|done]. }
  destruct Hs as (w & td & fl & -> & Hw & Hfl & Hs & Hreb).
  pose proof (scalar_size t a _ k ltac:(rewrite <- Hreb; by apply fits_rebuilt) Hk) as Hlen'.
  destruct (scalar_read w bs s Hw Hs (proj1 Ho) Hr) as (v & Hv & Hbs). rewrite Hreb.
  set (bs' := if w =? 64 then low_half bs else bs) in *.
  destruct (gen_store_ok (set_off (g_off s + Z.of_nat (length bs)) s) a bs') as (s' & H1 & H2 & H3 & H4 & H5 & H6).
  { by rewrite Hlen'. }
  exists s'. split.
  - rewrite <- H1. unfold populate_scalar. rewrite !elem_of_cons, elem_of_nil in Hw. clear Hreb.
    destruct fl; [specialize (Hfl eq_refl); rewrite !elem_of_cons, elem_of_nil in Hfl|];
      [destruct Hfl as [->|[->|[]]]|destruct Hw as [->|[->|[->|[->|[]]]]]];
      cbn -[Z.div gen_store word_le bs'] in Hv |- *; rewrite Hv; cbn -[Z.div gen_store word_le bs']; by rewrite Hbs.
  - cbn [need encode rep]. split; [by rewrite <- Hlen'|simpl in *; lia|simpl in *; lia|done|apply H2].
Qed.

Lemma built_ready s s' lo1 hi1 n off r lo hi a k :
  built s s' lo1 hi1 n off r -> chunk n -> 0 <= off -> g_off s + off <= Z.of_nat (length buffer) -> ready s lo (hi - lo) -> lo <= a -> a + k <= hi ->
  ready s' a k.
Proof.
  intros [[B F M] Hb Hoff _ _] [Hn Hn16] Hof Hle [Ha Hm Hb16 Ho] H1 H2. split.
  - lia.
  - intros x Hx. apply M, Hm. lia.
  - rewrite Hb, Z.add_mod, Hb16, Hn16 by lia. done.
  - lia.
Qed.

Lemma populate_items fuel vs :
  Forall (builds fuel) vs -> forall l lo hi s,
  laid lo hi l -> all2 fits l vs -> ready s lo (hi - lo) -> brk (g_heap s) + sum2 need l vs < 2 ^ 63 ->
  reads s (mjoin (map encode vs)) ->
  exists s', each (fun '(t, x) => populate fuel t x) l s = Ok s'
    /\ built s s' lo hi (sum2 need l vs) (Z.of_nat (length (mjoin (map encode vs))))
         (fun h lo' hi' => all2 (rep h lo' hi') l (map2 rebuilt l vs)).
Proof.
  induction vs as [|v vs IH]; intros HB [|[t x] l] lo hi s Hl Hf Hrd Hn Hr; try done.
  { exists s. split; [done|]. split; simpl; [apply grown_refl|lia|lia|done|done]. }
  apply Forall_cons in HB as [Hv HB]. simpl in Hf. destruct Hf as [Hfv Hf].
  destruct Hl as (Hlo & k & Hk & Hl). pose proof (laid_le _ _ _ Hl) as Hle. destruct (Hk) as [_ Hk0].
  simpl in Hn, Hr. cbn [sum2 fst] in *.
  pose proof (need_chunk v t x Hfv) as Hc.
  assert (Hcs : chunk (sum2 need l vs)) by (apply sum2_chunk; [apply Forall_forall; intros ? _; apply need_chunk|done]).
  destruct (Hv t x k s) as (s1 & E1 & B1); [done|done| |destruct Hcs; lia|by eapply reads_app|].
  { destruct Hrd as [Ha Hm Hb Ho]. split; [lia| |done|done]. intros y Hy. apply Hm. lia. }
  assert (Hrd1 : ready s1 (x + k) (hi - (x + k))).
  { eapply (built_ready s s1 _ _ _ _ _ lo hi); [exact B1|done|lia| |done|lia|lia].
    apply reads_bound; [apply Hrd|by eapply reads_app]. }
  destruct (IH HB l (x + k) hi s1) as (s2 & E2 & B2); [done|done|done| | |].
  { destruct B1 as [_ -> _ _ _]. lia. }
  { eapply reads_next; [apply Hrd|apply B1|exact Hr]. }
  exists s2. simpl. rewrite E1. simpl. split; [exact E2|].
  destruct Hrd as [Ha Hm Hb Ho]. destruct B1 as [G1 N1 O1 F1 R1], B2 as [G2 N2 O2 F2 R2]. destruct Hc as [Hc _], Hcs as [Hcs _].
  split.
  - eapply grown_trans; [exact G1|exact G2|]. intros y Hy. left. lia.
  - lia.
  - rewrite length_app. lia.
  - congruence.
  - split.
    + eapply (rep_weaken _ (brk (g_heap s)) (brk (g_heap s1))); [lia|lia|].
      apply (rep_frame (cells (g_heap s1)) _ _ _ (rebuilt t v)) with (k := k); [|by apply fits_rebuilt|done| |exact R1];
        intros y Hy; apply G2; lia.
    + eapply all2_impl; [exact R2|]. intros. eapply rep_weaken; [| |done]; lia.
Qed.

(** ** Pointers *)

Lemma tags_none a : Z.even a = true -> 0 <= a < 2 ^ 63 ->
  deref_tag a = false /\ file_tag a = false /\ untagged a = a.
Proof.
  intros He Ha. assert (H0 : Z.testbit a 0 = false) by (rewrite Z.bit0_odd, <- Z.negb_even, He; done).
  split; [done|]. split.
  - unfold file_tag. apply (bounded_testbit_high a 63); lia.
  - unfold untagged. apply Z.bits_inj'. intros i Hi. rewrite Z.land_spec.
    destruct (decide (i = 0)) as [->|]; [by rewrite H0|].
    destruct (decide (i < 63)).
    + replace 0x7ffffffffffffffe with (Z.ones 62 ≪ 1) by done.
      rewrite Z.shiftl_spec, Z.ones_spec_low, andb_true_r by lia. done.
    + rewrite (bounded_testbit_high a 63) by lia. done.
Qed.

Lemma scalar_fits e pt x v : ts !! e = Some pt -> is_scalar pt = true -> fits e x v -> exists bs, v = VBytes bs.
Proof. intros E Hs Hf. destruct v; [eauto|..]; simpl in Hf; rewrite E in Hf; by destruct pt. Qed.

Lemma fits_scalars t e pt a p vs :
  ts !! t = Some (PointerType e) -> ts !! e = Some pt -> is_scalar pt = true -> fits t a (VPtr vs) ->
  all2 fits (kids t p (length vs)) vs.
Proof.
  intros Ht Hpt Hs Hf. pose proof (fits_elems t e a 0 vs Ht Hf eq_refl) as Hall.
  assert (Hk : exists k, size_ok e k) by (simpl in Hf; rewrite Ht in Hf; destruct Hf as (_ & k & Hk & _); by exists k).
  destruct Hk as [k Hk]. destruct (kids_elems t e k 0 (length vs) (or_introl Ht) Hk) as [E0 _].
  change p with (0 + p). rewrite kids_shift. apply all2_shift. eapply all2_impl; [exact Hall|].
  intros t' x v Hin _ Hfv. rewrite E0 in Hin. apply list_elem_of_fmap in Hin as (i & [= -> ->] & _).
  destruct (scalar_fits e pt _ v Hpt Hs Hfv) as [bs ->]. exact Hfv.
Qed.

Lemma elems_cons e p k j n :
  map (fun i => (e, p + i * k)) (seqZ j (Z.of_nat (S n)))
  = (e : nat, p + j * k) :: map (fun i => (e, p + i * k)) (seqZ (j + 1) (Z.of_nat n)).
Proof. rewrite seqZ_cons by lia. cbn [map]. do 3 f_equal; lia. Qed.

(** Scalars packed one behind the other. *)
Lemma rep_bulk h lo hi e pt k p vs :
  size_ok e k -> ts !! e = Some pt -> is_scalar pt = true -> forall j,
  all2 fits (map (fun i => (e, p + i * k)) (seqZ j (Z.of_nat (length vs)))) vs ->
  length (mjoin (map encode vs)) = (length vs * Z.to_nat k)%nat
  /\ sum2 need (map (fun i => (e, p + i * k)) (seqZ j (Z.of_nat (length vs)))) vs = 0
  /\ (load (length (mjoin (map encode vs))) (p + j * k) h = Some (mjoin (map encode vs)) ->
      all2 (rep h lo hi) (map (fun i => (e, p + i * k)) (seqZ j (Z.of_nat (length vs)))) vs).
Proof.
  intros Hk E Hs. induction vs as [|v vs IH]; intros j Hf; [done|].
  cbn [length] in *. rewrite elems_cons in *. cbn [all2 sum2 fst snd] in *. destruct Hf as [Hfv Hf].
  destruct (scalar_fits e pt _ v E Hs Hfv) as [bs ->]. pose proof (scalar_size _ _ _ _ Hfv Hk) as Hbs.
  destruct (IH (j + 1) Hf) as (I2 & I3 & I1).
  change (mjoin (map encode (VBytes bs :: vs))) with (bs ++ mjoin (map encode vs)).
  rewrite length_app. split; [rewrite I2; lia|]. split; [rewrite I3; done|].
  intros [L1 L2]%load_split. rewrite take_app_length in L1. rewrite drop_app_length in L2.
  split; [exact L1|]. apply I1. by replace (p + (j + 1) * k) with (p + j * k + Z.of_nat (length bs)) by lia.
Qed.

Hypothesis Havail : forall n, avail n = true.
Hypothesis Hbuffer : Z.of_nat (length buffer) < 2 ^ 32.

Lemma each_ext {A S} (f g : A -> S -> res S) l s : (forall x s, x ∈ l -> f x s = g x s) -> each f l s = each g l s.
Proof.
  revert s. induction l as [|x l IH]; intros s H; simpl; [done|]. rewrite (H x) by left.
  destruct (g x s); simpl; try done. apply IH. intros. apply H. by right.
Qed.

Lemma each_map {A B S} (f : B -> S -> res S) (g : A -> B) l s : each f (map g l) s = each (fun x => f (g x)) l s.
Proof. revert s. induction l as [|x l IH]; intros s; simpl; [done|]. destruct (f (g x) s); simpl; auto. Qed.

Lemma need_node t a vs : need t (VNode vs) = sum2 need (kids t a (length vs)) vs.
Proof. simpl. change a with (0 + a). by rewrite kids_shift, sum2_shift. Qed.

Lemma size_fuel fuel e k : (S (length ts) <= fuel)%nat -> size_ok e k -> getSize fuel ts e = Ok k.
Proof. intros Hf [Hk _]. by apply (getSize_mono (S (length ts))). Qed.

(** The loops over the members run over the parts. *)
Lemma populate_node fuel t a vs s :
  (S (length ts) <= fuel)%nat -> fits t a (VNode vs) ->
  populate (S fuel) t a s = each (fun '(t, x) => populate fuel t x) (kids t a (length vs)) s.
Proof.
  intros Hfu Hf. unfold populate. cbn [populateFromBuffer]. simpl in Hf. unfold kids.
  destruct (ts !! t) as [[size fs| | | |e n]|]; try done.
  - rewrite each_map. apply each_ext. intros [f o] s' _. done.
  - destruct Hf as (Hn & k & Hk & Hlt & _). rewrite (proj1 Hk), each_map, Hn. apply each_ext.
    intros i s' Hi. apply elem_of_seqZ in Hi. rewrite (size_fuel fuel e k Hfu Hk). simpl.
    destruct Hk as [_ Hk0]. unfold u32. rewrite Z.mod_small by nia. done.
Qed.

Lemma builds_node fuel vs :
  (S (length ts) <= fuel)%nat -> Forall (builds fuel) vs -> builds (S fuel) (VNode vs).
Proof.
  intros Hfu HB t a k s Hf Hk Hrd Hn Hr.
  rewrite (need_node t a) in *. rewrite (populate_node fuel t a vs s Hfu Hf).
  destruct (populate_items fuel vs HB (kids t a (length vs)) a (a + k) s) as (s' & E & B).
  - by apply kids_laid.
  - by apply fits_kids.
  - by replace (a + k - a) with k by lia.
  - done.
  - exact Hr.
  - exists s'. split; [exact E|]. cbn [rep rebuilt]. rewrite length_map2, <- (map2_shift a), <- kids_shift. exact B.
Qed.

(** What the elements behind a pointer become, by the bulk copy or one by one. *)
Definition fill (fuel : nat) (pointee : nat) (pt : type_desc) (p pointeeSize numElems : Z) (s : gen) : res gen :=
  if is_scalar pt then copy_from_buffer buffer p (u32 (numElems * pointeeSize)) s
  else each (fun i s => populate fuel pointee (p + u32 (i * pointeeSize)) s) (seqZ 0 numElems) s.

Lemma fill_ok fuel t e k pt p vs s :
  (S (length ts) <= fuel)%nat -> Forall (builds fuel) vs ->
  ts !! t = Some (PointerType e) -> ts !! e = Some pt -> size_ok e k -> 0 < k ->
  Z.of_nat (length vs) * k < 2 ^ 32 -> all2 fits (kids t p (length vs)) vs ->
  ready s p (Z.of_nat (length vs) * k) -> brk (g_heap s) + sum2 need (kids t p (length vs)) vs < 2 ^ 63 ->
  reads s (mjoin (map encode vs)) ->
  exists s', fill fuel e pt p k (Z.of_nat (length vs)) s = Ok s'
    /\ built s s' p (p + Z.of_nat (length vs) * k) (sum2 need (kids t p (length vs)) vs)
         (Z.of_nat (length (mjoin (map encode vs))))
         (fun h lo hi => all2 (rep h lo hi) (kids t p (length vs))
            (if is_scalar pt then vs else map2 rebuilt (kids t p (length vs)) vs)).
Proof using Type Hbuffer.
  intros Hfu HB Ht Hpt Hk Hpos Hlt Hf Hrd Hn Hr.
  destruct (kids_elems t e k p (length vs) (or_introl Ht) Hk) as [Ek Hl].
  unfold fill. destruct (is_scalar pt) eqn:Hsc.
  - rewrite Ek in *. set (l := map _ (seqZ 0 _)) in *.
    destruct (rep_bulk ∅ 0 0 e pt k p vs Hk Hpt Hsc 0 Hf) as (Hlen & Hnd & _). fold l in Hnd.
    set (bs := mjoin (map encode vs)) in *. destruct Hrd as [Ha Hm Hb Ho].
    assert (Hbs : Z.of_nat (length bs) = Z.of_nat (length vs) * k) by lia.
    destruct (gen_store_ok s p bs) as (s1 & H1 & H2 & H3 & H4 & H5 & H6); [by rewrite Hbs|].
    exists (set_off (g_off s + Z.of_nat (length bs)) s1). split.
    + unfold copy_from_buffer, u32. rewrite <- Hbs, (Z.mod_small (Z.of_nat _)) by lia.
      pose proof (reads_bound s bs Ho Hr) as Hin. rewrite (proj2 (Z.leb_le _ _) Hin), orb_true_r, Nat2Z.id. destruct Hr as [rest Hr]. rewrite Hr, take_app_length, H1. simpl.
      rewrite Z.mod_small; [done|lia].
    + split; simpl; [by rewrite Hbs in H3|lia|lia|done|].
      destruct (rep_bulk (cells (g_heap s1)) (brk (g_heap s)) (brk (g_heap s1)) e pt k p vs Hk Hpt Hsc 0 Hf)
        as (_ & _ & Hrep). apply Hrep. rewrite Z.mul_0_l, Z.add_0_r. apply H2.
  - destruct (populate_items fuel vs HB (kids t p (length vs)) p (p + Z.of_nat (length vs) * k) s)
      as (s' & E & B); [done|done|by replace (p + Z.of_nat (length vs) * k - p) with (Z.of_nat (length vs) * k) by lia
                       |done|done|].
    exists s'. split; [|done]. rewrite <- E, Ek, each_map. apply each_ext. intros i s1 Hi.
    apply elem_of_seqZ in Hi. unfold u32. rewrite Z.mod_small by nia. done.
Qed.

(** The pointer branch as fill, terminate, store. *)
Lemma populate_ptr fuel t e k pt a vs s :
  (S (length ts) <= fuel)%nat -> fits t a (VPtr vs) -> 0 <= a < 2 ^ 63 ->
  ts !! t = Some (PointerType e) -> ts !! e = Some pt -> size_ok e k -> 0 < k ->
  (Z.of_nat (length vs) + 1) * k < 2 ^ 32 ->
  0 <= g_off s -> reads s (word_le 4 (Z.of_nat (length vs))) ->
  populate (S fuel) t a s
  = (let s1 := Gen (malloc junk ((Z.of_nat (length vs) + 1) * k) (g_heap s)).2 (g_off s + 4) (g_file s) in
     let! s2 := fill fuel e pt (brk (g_heap s)) k (Z.of_nat (length vs)) s1 in
     let! s3 := gen_store (brk (g_heap s) + Z.of_nat (length vs) * k) (replicate (Z.to_nat k) 0) s2 in
     gen_store a (word_le 8 (brk (g_heap s))) s3).
Proof using Type Havail.
  intros Hfu Hf Ha Ht Hpt Hk Hpos Hlt Ho [rest Hr]. unfold populate. cbn [populateFromBuffer]. rewrite Ht.
  simpl in Hf. rewrite Ht in Hf. destruct Hf as [Hev _].
  destruct (tags_none a Hev Ha) as (-> & -> & ->).
  set (n := Z.of_nat (length vs)) in *.
  pose proof (length_word_le 4 n ltac:(lia)) as Hlw.
  assert (Hn : le_word (word_le 4 n) = n) by (apply le_word_word_le; nia).
  destruct (word_le 4 n) as [|b0 [|b1 [|b2 [|b3 [|? ?]]]]]; try discriminate Hlw.
  destruct (getBuffFour_read buffer (g_off s) b0 b1 b2 b3 rest Ho Hr) as [-> _]. rewrite Hn.
  cbn [apply_constraints rbind]. rewrite (size_fuel fuel e k Hfu Hk). cbn [rbind].
  unfold gen_malloc. rewrite Havail.
  replace (u64 (k * (n + 1))) with ((n + 1) * k) by (unfold u64; rewrite Z.mod_small; lia).
  cbn [rbind malloc fst snd]. rewrite Hpt. cbn [of_option rbind negb orb andb]. unfold fill. done.
Qed.

(** The pointer and what was built behind it, seen from the heap after the last two stores. *)
Lemma rebuilt_ptr_rep t e k p vs h1 h2 c4 lo hi a :
  ts !! t = Some (PointerType e) -> size_ok e k -> all2 fits (kids t p (length vs)) vs -> Z.even p = true ->
  lo <= p -> p + (Z.of_nat (length vs) + 1) * k <= hi -> lo <= brk h1 -> brk h2 <= hi ->
  all2 (rep (cells h2) (brk h1) (brk h2)) (kids t p (length vs)) vs ->
  load 8 a c4 = Some (word_le 8 p) ->
  load (Z.to_nat k) (p + Z.of_nat (length vs) * k) c4 = Some (replicate (Z.to_nat k) 0) ->
  (forall x, p <= x < p + Z.of_nat (length vs) * k \/ brk h1 <= x < brk h2 -> c4 !! x = cells h2 !! x) ->
  rep c4 lo hi t a (VPtr vs).
Proof.
  intros Ht Hk Hall Hev Hlo Hhi Hb1 Hb2 Hrep Hload Hzero Hag. exists p. split_and!; [done..| |].
  { intros e' k' He' Hk'. rewrite Ht in He'. injection He' as <-. by rewrite (size_ok_unique _ _ _ Hk' Hk). }
  destruct (kids_elems t e k p (length vs) (or_introl Ht) Hk) as [_ Hlaid].
  eapply (all2_impl (rep c4 (brk h1) (brk h2))); [|intros; by eapply rep_weaken].
  eapply (all_rep_frame (cells h2)); [|exact Hlaid| |done|exact Hrep].
  - apply Forall_forall. intros v _. apply rep_frame. intros x Hx. apply Hag. by right.
  - intros x Hx. apply Hag. by left.
Qed.

Lemma rebuilt_ptr t e pt p vs :
  ts !! t = Some (PointerType e) -> ts !! e = Some pt ->
  exists vs', rebuilt t (VPtr vs) = VPtr vs' /\ length vs' = length vs
    /\ vs' = if is_scalar pt then vs else map2 rebuilt (kids t p (length vs)) vs.
Proof.
  intros Ht Hpt. eexists. cbn [rebuilt]. unfold scalar_elems. rewrite Ht, Hpt, <- (map2_shift p), <- kids_shift.
  split; [done|]. split; [|done]. destruct (is_scalar pt); [done|]. apply length_map2.
Qed.

Lemma builds_ptr fuel vs :
  (S (length ts) <= fuel)%nat -> Forall (builds fuel) vs -> builds (S fuel) (VPtr vs).
Proof using Type Havail Hbuffer.
  intros Hfu HB t a k8 s Hf Hk8 [Ha Hm Hb Ho] Hn Hr.
  destruct (ts !! t) as [[|e| | |]|] eqn:Ht; try (simpl in Hf; by rewrite Ht in Hf).
  pose proof (pointer_size t e k8 Ht Hk8) as ->.
  assert (He := Hf). simpl in He. rewrite Ht in He. destruct He as (_ & k & Hk & Hpos & Hlt & _).
  assert (Hpt : exists pt, ts !! e = Some pt)
    by (destruct Hk as [Hk _]; unfold sizeof in Hk; simpl in Hk; destruct (ts !! e); eauto; done).
  destruct Hpt as [pt Hpt]. set (n := Z.of_nat (length vs)) in *. set (p := brk (g_heap s)) in *.
  assert (Hp16 : Z.even p = true).
  { rewrite (Z.div_mod p 16), Hb by lia. rewrite Z.add_0_r, Z.even_mul. done. }
  assert (Hneed : need t (VPtr vs) = block ((n + 1) * k) + sum2 need (kids t p (length vs)) vs).
  { simpl. rewrite Ht, (proj1 Hk). f_equal. change p with (0 + p). by rewrite kids_shift, sum2_shift. }
  pose proof (fits_elems t e a p vs Ht Hf Hp16) as Hall.
  assert (Hcs : chunk (sum2 need (kids t p (length vs)) vs))
    by (apply sum2_chunk; [apply Forall_forall; intros ? _; apply need_chunk|done]).
  destruct (block_spec ((n + 1) * k)) as [Hbl Hbl16]; [lia|]. cbn [encode] in Hr. fold n in Hr.
  pose proof (reads_app s _ _ Hr) as Hr4. pose proof (reads_bound s _ Ho Hr4) as Hb4.
  rewrite (length_word_le 4) in Hb4 by lia.
  rewrite (populate_ptr fuel t e k pt a vs s Hfu Hf ltac:(destruct Hcs; lia) Ht Hpt Hk Hpos Hlt (proj1 Ho) Hr4).
  cbv zeta. fold n p. set (s1 := Gen _ _ _).
  pose proof (malloc_grown junk (g_heap s) ((n + 1) * k) ltac:(lia)) as (G1 & M1 & B1).
  change (malloc junk ((n + 1) * k) (g_heap s)).2 with (g_heap s1) in G1, M1, B1. fold p in M1, B1.
  destruct (fill_ok fuel t e k pt p vs s1) as (s2 & E2 & [G2 N2 O2 F2 R2]); [done..| |done| | | |].
  { lia. }
  { split; [lia|intros x Hx; apply M1; lia| |simpl; lia]. rewrite B1, Z.add_mod, Hb, Hbl16 by lia. done. }
  { rewrite B1. lia. }
  { eapply (reads_next s s1); [apply Ho| |exact Hr]. by rewrite length_word_le. }
  fold n in E2, G2. rewrite E2. cbn [rbind].
  destruct (gen_store_ok s2 (p + n * k) (replicate (Z.to_nat k) 0)) as (s3 & -> & S3 & G3 & B3 & O3 & F3).
  { rewrite length_replicate. intros x Hx. apply G2, M1. lia. }
  cbn [rbind]. rewrite length_replicate in G3.
  pose proof (length_word_le 8 p ltac:(lia)) as Hlw.
  destruct (gen_store_ok s3 a (word_le 8 p)) as (s4 & -> & S4 & G4 & B4 & O4 & F4).
  { rewrite Hlw. intros x Hx. apply G3, G2, G1, Hm. lia. }
  rewrite Hlw in G4. change (Z.of_nat (Z.to_nat 8)) with 8 in G4.
  exists s4. split; [done|]. destruct Hcs as [Hcs _]. split.
  - assert (G12 : grown (g_heap s) (g_heap s2) a (a + 8))
      by (eapply grown_trans; [exact G1|exact G2|]; intros x Hx; right; lia).
    assert (G13 : grown (g_heap s) (g_heap s3) a (a + 8))
      by (eapply grown_trans; [exact G12|exact G3|]; intros x Hx; lia).
    eapply grown_trans; [exact G13|exact G4|]. intros x Hx. lia.
  - rewrite B4, B3, N2, B1, Hneed. lia.
  - rewrite O4, O3, O2. cbn [encode g_off s1]. rewrite length_app, length_word_le by lia. simpl. lia.
  - rewrite F4, F3, F2. done.
  - destruct (rebuilt_ptr t e pt p vs Ht Hpt) as (vs' & Hreb & Hlen & Hvs').
    pose proof (fits_elems t e a p vs' Ht ltac:(rewrite <- Hreb; by apply fits_rebuilt) Hp16) as Hall'.
    rewrite Hreb. rewrite <- Hvs' in R2. subst n. rewrite <- Hlen in *.
    eapply (rebuilt_ptr_rep t e k p vs' (g_heap s1) (g_heap s2)); [done..|lia|lia|lia|lia|exact R2| | |].
    + rewrite <- (stored_here _ _ _ _ S4), Hlw. done.
    + pose proof (stored_here _ _ _ _ S3) as Hz. rewrite length_replicate in Hz. rewrite <- Hz.
      apply load_agree. intros x Hx. apply (stored_frame _ _ _ _ S4). rewrite Hlw. lia.
    + intros x Hx. rewrite (stored_frame _ _ _ _ S4), (stored_frame _ _ _ _ S3); [done|..]; rewrite ?length_replicate, ?Hlw; lia.
Qed.

Lemma builds_val v fuel : (depth v + S (length ts) <= fuel)%nat -> builds fuel v.
Proof using Type Havail Hbuffer.
  revert fuel. induction v as [bs|vs IH|vs IH] using val_induction; intros [|fuel] Hfu; simpl in Hfu; try lia.
  - apply builds_bytes.
  - apply builds_ptr; [lia|]. apply Forall_forall. intros v Hv. apply (Forall_elem _ _ _ IH Hv).
    pose proof (depth_le v vs Hv). lia.
  - apply builds_node; [lia|]. apply Forall_forall. intros v Hv. apply (Forall_elem _ _ _ IH Hv).
    pose proof (depth_le v vs Hv). lia.
Qed.
End populate.

(** ** Recording a value *)

Section record.
Context (files : list Z -> option (list Z)) (h : gmap Z Z).

Let serialize fuel t a r := serializeToBuffer files fuel ts h t a [] r.

Definition is_byte_type (e : nat) : bool :=
  match ts !! e with Some (IntegerType w) => w `div` 8 =? 1 | _ => false end.

(** The value the recorder takes from the heap: a null pointer has no elements, a pointer
    to bytes is a string up to its terminator, another pointer points to one element. *)
Fixpoint recorded (t : nat) (a : Z) (v : val) : Prop :=
  match v with
  | VBytes bs => load (length bs) a h = Some bs
  | VPtr vs =>
      exists p, load 8 a h = Some (word_le 8 p) /\ 0 <= a < 2 ^ 63 /\ 0 <= p < 2 ^ 63
        /\ forall e, ts !! t = Some (PointerType e) ->
           if p =? 0 then vs = []
           else
             (if is_byte_type e
              then (forall i, 0 <= i < Z.of_nat (length vs) -> exists b, h !! (p + i) = Some b /\ b <> 0)
                   /\ h !! (p + Z.of_nat (length vs)) = Some 0
              else length vs = 1%nat /\ Z.even p = true)
             /\ all2 recorded (kids t p (length vs)) vs
  | VNode vs => all2 recorded (kids t a (length vs)) vs
  end.

Record wrote (bs : list Z) (r r' : rec) : Prop := {
  wrote_bytes : take (Z.to_nat (r_off r')) (r_buf r') = take (Z.to_nat (r_off r)) (r_buf r) ++ bs;
  wrote_off : r_off r' = r_off r + Z.of_nat (length bs);
  wrote_length : length (r_buf r') = length (r_buf r);
  wrote_failed : r_failed r' = r_failed r;
}.

Definition room (n : nat) (r : rec) : Prop :=
  0 <= r_off r /\ r_off r + Z.of_nat n <= Z.of_nat (length (r_buf r)) /\ r_off r + Z.of_nat n < 2 ^ 32.

Lemma wrote_app bs cs r1 r2 r3 : wrote bs r1 r2 -> wrote cs r2 r3 -> wrote (bs ++ cs) r1 r3.
Proof.
  intros [W1 O1 L1 F1] [W2 O2 L2 F2]. split; [|rewrite length_app; lia|congruence|congruence].
  by rewrite W2, W1, app_assoc.
Qed.

Lemma wrote_room bs n m r r' : wrote bs r r' -> room n r -> (length bs + m <= n)%nat -> room m r'.
Proof. intros [W O L F] [H1 H2] Hm. unfold room. rewrite O, L. lia. Qed.

Lemma rec_write_ok bs r : room (length bs) r -> exists r', rec_write bs r = Ok r' /\ wrote bs r r'.
Proof.
  intros [Ho Hr]. unfold rec_write. rewrite (proj2 (Z.leb_le _ _)) by lia. eexists. split; [done|].
  assert (Hoff : u32 (r_off r + Z.of_nat (length bs)) = r_off r + Z.of_nat (length bs))
    by (unfold u32; apply Z.mod_small; lia).
  split; simpl; rewrite ?Hoff; [|done|rewrite !length_app, length_take, length_drop; lia|done].
  rewrite app_assoc, take_app_le by (rewrite length_app, length_take; lia).
  apply take_ge. rewrite length_app, length_take. lia.
Qed.

Definition records (fuel : nat) (v : val) : Prop := forall t a r,
  fits t a v -> recorded t a v -> room (length (encode v)) r ->
  exists r', serialize fuel t a r = Ok r' /\ wrote (encode v) r r'.

Lemma wrote_nil r : wrote [] r r.
Proof. split; rewrite ?app_nil_r; simpl; try lia; done. Qed.

Lemma serialize_items fuel vs :
  Forall (records fuel) vs -> forall l r,
  all2 fits l vs -> all2 recorded l vs -> room (length (mjoin (map encode vs))) r ->
  exists r', each (fun '(t, x) => serialize fuel t x) l r = Ok r' /\ wrote (mjoin (map encode vs)) r r'.
Proof.
  induction vs as [|v vs IH]; intros HR [|[t x] l] r Hf Hc Hr; try done.
  { exists r. split; [done|apply wrote_nil]. }
  apply Forall_cons in HR as [Hv HR]. destruct Hf as [Hf1 Hf2], Hc as [Hc1 Hc2]. cbn [fst snd] in *.
  change (mjoin (map encode (v :: vs))) with (encode v ++ mjoin (map encode vs)) in *.
  rewrite length_app in Hr.
  destruct (Hv t x r) as (r1 & E1 & W1); [done|done|unfold room in *; lia|].
  destruct (IH HR l r1) as (r2 & E2 & W2); [done|done|eapply wrote_room; [exact W1|exact Hr|lia]|].
  exists r2. simpl. rewrite E1. split; [exact E2|]. by eapply wrote_app.
Qed.

Lemma records_bytes fuel bs : records (S fuel) (VBytes bs).
Proof.
  intros t a r Hf Hc Hr. simpl in Hc.
  assert (Hl : forall w, scalar_ok w bs -> Z.to_nat (w `div` 8) = length bs) by (intros w [H _]; lia).
  unfold serialize. cbn [serializeToBuffer]. simpl in Hf.
  destruct (ts !! t) as [[| |w|w|]|]; try done; destruct Hf as [_ Hs];
    rewrite (Hl w Hs), Hc; cbn [of_option rbind]; by apply rec_write_ok.
Qed.

Lemma serialize_node fuel t a vs r :
  (S (length ts) <= fuel)%nat -> fits t a (VNode vs) ->
  serialize (S fuel) t a r = each (fun '(t, x) => serialize fuel t x) (kids t a (length vs)) r.
Proof.
  intros Hfu Hf. unfold serialize. cbn [serializeToBuffer]. simpl in Hf. unfold kids.
  destruct (ts !! t) as [[size fs| | | |e n]|]; try done.
  - rewrite each_map. apply each_ext. intros [f o] s' _. done.
  - destruct Hf as (Hn & k & Hk & Hlt & _). rewrite (proj1 Hk), each_map, Hn. apply each_ext.
    intros i s' Hi. apply elem_of_seqZ in Hi. rewrite (size_fuel fuel e k Hfu Hk). simpl.
    destruct Hk as [_ Hk0]. unfold u32. rewrite Z.mod_small by nia. done.
Qed.

Lemma records_node fuel vs :
  (S (length ts) <= fuel)%nat -> Forall (records fuel) vs -> records (S fuel) (VNode vs).
Proof.
  intros Hfu HR t a r Hf Hc Hr. rewrite (serialize_node fuel t a vs r Hfu Hf).
  apply serialize_items; [done|by apply fits_kids|done|done].
Qed.

(** A string is found within the mapped cells. *)
Lemma string_run_ok fuel p n m :
  (forall i, 0 <= i < Z.of_nat n -> exists b, h !! (p + i) = Some b /\ b <> 0) ->
  h !! (p + Z.of_nat n) = Some 0 -> (n < fuel)%nat ->
  string_run fuel h p m = Ok (m + Z.of_nat n).
Proof.
  revert fuel p m. induction n as [|n IH]; intros [|fuel] p m Hb Hz Hfu; [lia| |lia|]; simpl.
  - rewrite Z.add_0_r in Hz. rewrite Hz. simpl. f_equal. lia.
  - destruct (Hb 0) as (b & Hb0 & Hne); [lia|]. rewrite Z.add_0_r in Hb0. rewrite Hb0. simpl.
    rewrite (proj2 (Z.eqb_neq b 0)) by done. rewrite IH; [f_equal; lia| | |lia].
    + intros i Hi. replace (p + 1 + i) with (p + (i + 1)) by lia. apply Hb. lia.
    + by replace (p + 1 + Z.of_nat n) with (p + Z.of_nat (S n)) by lia.
Qed.

Lemma mapped_size p n : mapped h p (Z.of_nat n) -> (n <= size h)%nat.
Proof.
  intros Hm. rewrite <- size_dom.
  replace n with (size (list_to_set (C := gset Z) (seqZ p (Z.of_nat n)))).
  - apply subseteq_size. intros x Hx. apply elem_of_list_to_set, elem_of_seqZ in Hx.
    apply elem_of_dom, Hm. lia.
  - rewrite size_list_to_set by apply NoDup_seqZ. rewrite length_seqZ. lia.
Qed.

Lemma getStringLength_ok a p n :
  load 8 a h = Some (word_le 8 p) -> 0 <= p < 2 ^ 63 ->
  (forall i, 0 <= i < Z.of_nat n -> exists b, h !! (p + i) = Some b /\ b <> 0) ->
  h !! (p + Z.of_nat n) = Some 0 -> Z.of_nat n < 2 ^ 32 - 1 ->
  getStringLength h a = Ok (Z.of_nat n).
Proof.
  intros Hl Hp Hb Hz Hn. unfold getStringLength, load_ptr. rewrite Hl. cbn [of_option rbind].
  rewrite le_word_word_le by lia.
  assert (S n <= size h)%nat.
  { apply (mapped_size p). intros x Hx. destruct (decide (x = p + Z.of_nat n)) as [->|]; [by rewrite Hz|].
    destruct (Hb (x - p)) as (b & Hx' & _); [lia|]. replace (p + (x - p)) with x in Hx' by lia. by rewrite Hx'. }
  rewrite (string_run_ok _ p n 0 Hb Hz) by lia. cbn [rbind].
  rewrite (proj2 (Z.ltb_lt _ _)) by lia. done.
Qed.

Lemma no_constraints pointee : constraintsImplyEquality h (PointerType pointee) 8 [] = Ok false.
Proof. reflexivity. Qed.

(** The length the recorder takes is the number of elements. *)
Lemma recorded_length_ok t e k pt a p (vs : list val) :
  ts !! t = Some (PointerType e) -> ts !! e = Some pt -> size_ok e k ->
  (Z.of_nat (length vs) + 1) * k < 2 ^ 32 -> 0 < k ->
  load 8 a h = Some (word_le 8 p) -> 0 <= p < 2 ^ 63 ->
  (if p =? 0 then vs = []
   else
     if is_byte_type e
     then (forall i, 0 <= i < Z.of_nat (length vs) -> exists b, h !! (p + i) = Some b /\ b <> 0)
          /\ h !! (p + Z.of_nat (length vs)) = Some 0
     else length vs = 1%nat /\ Z.even p = true) ->
  recorded_length h pt e k a false [] = Ok (Z.of_nat (length vs)).
Proof.
  intros Ht Hpt [Hk _] Hlt Hpos Hl Hp Hv. unfold recorded_length, load_ptr. rewrite Hl. cbn [of_option rbind].
  rewrite le_word_word_le by lia. rewrite no_constraints. cbn [rbind negb andb].
  assert (Hby : is_byte_type e = match pt with IntegerType _ => k =? 1 | _ => false end).
  { unfold is_byte_type, sizeof in *. rewrite Hpt. cbn [getSize] in Hk. rewrite Hpt in Hk.
    destruct pt; try done. by simplify_eq. }
  rewrite <- Hby. destruct (Z.eqb_spec p 0) as [->|Hp0].
  { subst vs. rewrite andb_false_r. done. }
  rewrite andb_true_r. destruct (is_byte_type e) eqn:Hb.
  - destruct Hv as [H1 H2]. eapply getStringLength_ok; [done|done|done|done|nia].
  - destruct Hv as [-> _]. done.
Qed.

Lemma records_ptr fuel vs :
  (S (length ts) <= fuel)%nat -> Forall (records fuel) vs -> records (S fuel) (VPtr vs).
Proof.
  intros Hfu HR t a r Hf (p & Hl & Ha & Hp & Hc) Hr.
  destruct (ts !! t) as [[|e| | |]|] eqn:Ht; try (simpl in Hf; by rewrite Ht in Hf).
  specialize (Hc e eq_refl).
  assert (He := Hf). simpl in He. rewrite Ht in He. destruct He as (Hev & k & Hk & Hpos & Hlt & _).
  assert (Hpt : exists pt, ts !! e = Some pt)
    by (destruct Hk as [Hk _]; unfold sizeof in Hk; simpl in Hk; destruct (ts !! e); eauto; done).
  destruct Hpt as [pt Hpt]. cbn [encode] in Hr |- *. rewrite length_app in Hr.
  unfold serialize. cbn [serializeToBuffer]. rewrite Ht. destruct (tags_none a Hev Ha) as (-> & -> & ->).
  rewrite (size_fuel fuel e k Hfu Hk), Hpt. cbn [of_option rbind].
  rewrite (recorded_length_ok t e k pt a p vs Ht Hpt Hk Hlt Hpos Hl Hp)
    by (destruct (p =? 0); [done|apply Hc]).
  cbn [rbind].
  destruct (rec_write_ok (word_le 4 (Z.of_nat (length vs))) r) as (r1 & -> & W1); [unfold room in *; lia|].
  cbn [rbind]. unfold load_ptr. rewrite Hl. cbn [of_option rbind]. rewrite le_word_word_le by lia.
  assert (Hr1 : room (length (mjoin (map encode vs))) r1) by (eapply wrote_room; [exact W1|exact Hr|lia]).
  destruct (kids_elems t e k p (length vs) (or_introl Ht) Hk) as [Ek _].
  assert (Hkids : all2 fits (kids t p (length vs)) vs /\ all2 recorded (kids t p (length vs)) vs).
  { destruct (Z.eqb_spec p 0) as [->|]; [subst vs; by rewrite Ek|]. destruct Hc as [Hc Hall]. split; [|done].
    destruct (is_byte_type e) eqn:Hb; [|apply (fits_elems t e a); [done|done|apply Hc]].
    apply (fits_scalars t e pt a); [done|done| |done]. unfold is_byte_type in Hb. rewrite Hpt in Hb.
    by destruct pt. }
  destruct Hkids as [Hfk Hck].
  destruct (serialize_items fuel vs HR (kids t p (length vs)) r1 Hfk Hck Hr1) as (r2 & E2 & W2).
  exists r2. split; [|by eapply wrote_app]. rewrite <- E2, Ek, each_map. done.
Qed.

Lemma records_val v fuel : (depth v + S (length ts) <= fuel)%nat -> records fuel v.
Proof.
  revert fuel. induction v as [bs|vs IH|vs IH] using val_induction; intros [|fuel] Hfu; simpl in Hfu; try lia.
  - apply records_bytes.
  - apply records_ptr; [lia|]. apply Forall_forall. intros v Hv. apply (Forall_elem _ _ _ IH Hv).
    pose proof (depth_le v vs Hv). lia.
  - apply records_node; [lia|]. apply Forall_forall. intros v Hv. apply (Forall_elem _ _ _ IH Hv).
    pose proof (depth_le v vs Hv). lia.
Qed.
End record.
End typed.

(** ** The round trip *)

(** C9: recorded arguments are rebuilt.  When the heap holds, at an argument without
    constraints, a value the recorder can see (numbers, null pointers, strings, pointers to one
    element, structs and arrays of these), [serializeToBuffer] succeeds if the bytes fit into
    the map and the offset behind them into 32 bits; and [populateFromBuffer] run on the bytes
    it wrote succeeds in any other heap: it consumes them exactly, leaves the memory outside
    the argument alone, and the new argument holds the [rebuilt] value.  That is the value
    itself (its pointers leading to fresh memory, with a zero element behind the last one),
    except that 64-bit numbers which are not behind a pointer lose their upper half; the
    value of a null pointer is the one of an empty array, so it comes back as a pointer to a
    zero element. *)
Theorem recorded_value_is_rebuilt ts files h r junk avail filein s t v a a' k fuel :
  fits ts t a v -> recorded ts h t a v -> room (length (encode v)) r ->
  size_ok ts t k -> Z.even (a' - a) = true -> (forall n, avail n = true) ->
  g_off s = 0 -> 0 <= a' -> a' + k <= brk (g_heap s) -> mapped (cells (g_heap s)) a' k ->
  brk (g_heap s) mod 16 = 0 -> brk (g_heap s) + need ts t v < 2 ^ 63 ->
  (depth v + S (length ts) <= fuel)%nat ->
  exists r' s',
    serializeToBuffer files fuel ts h t a [] r = Ok r' /\
    let testcase := drop (Z.to_nat (r_off r)) (take (Z.to_nat (r_off r')) (r_buf r')) in
    populateFromBuffer junk avail filein fuel ts testcase t a' [] s = Ok s'
    /\ g_off s' = Z.of_nat (length testcase)
    /\ rep ts (cells (g_heap s')) (brk (g_heap s)) (brk (g_heap s')) t a' (rebuilt ts t v)
    /\ (small ts t v -> rebuilt ts t v = v)
    /\ forall x, x < brk (g_heap s) -> ~ a' <= x < a' + k -> cells (g_heap s') !! x = cells (g_heap s) !! x.
Proof.
  intros Hf Hc Hr Hk Hev Hav Ho Ha Hbrk Hm H16 Hn Hfu.
  destruct (records_val ts files h v fuel Hfu t a r Hf Hc Hr) as (r' & E & W).
  assert (Ht : drop (Z.to_nat (r_off r)) (take (Z.to_nat (r_off r')) (r_buf r')) = encode v).
  { rewrite (wrote_bytes _ _ _ W), drop_app_length'; [done|]. rewrite length_take. unfold room in Hr. lia. }
  assert (Hf' : fits ts t a' v)
    by (replace a' with (a + (a' - a)) by lia; by apply fits_shift).
  destruct (builds_val ts junk avail filein (encode v) Hav ltac:(unfold room in Hr; lia) v fuel Hfu t a' k s)
    as (s' & E' & [[_ HF _] _ Hoff _ Hrep]); [done|done| |done| |].
  { split; [lia|done|done|lia]. }
  { exists []. by rewrite Ho, app_nil_r. }
  exists r', s'. split; [exact E|]. cbv zeta. rewrite Ht. split; [exact E'|]. split; [lia|]. split; [exact Hrep|].
  split; [apply rebuilt_small|done].
Qed.

(** A struct of a number and a string, [{ int n; char *name; }], with the value {7, "hi"}. *)
Definition sample_types : list type_desc :=
  [IntegerType 32; IntegerType 8; PointerType 1; StructType 16 [(0%nat, 0); (2%nat, 8)]].
Definition sample_value : val :=
  VNode [VBytes [7; 0; 0; 0]; VPtr [VBytes [104]; VBytes [105]]].
Definition sample_source : gmap Z Z :=
  alloc_cells 64 [7; 0; 0; 0; 0; 0; 0; 0; 128; 0; 0; 0; 0; 0; 0; 0] (alloc_cells 128 [104; 105; 0] ∅).
Definition sample_gen : gen := Gen (Heap (alloc_cells 16 (replicate 16 170) ∅) 48) 0 None.

Lemma sample_fits : fits sample_types 3 64 sample_value.
Proof.
  assert (Hb : forall b, 0 <= b < 256 -> byte_ok b) by done.
  simpl. split.
  { split; [lia|]. exists 4. split; [done|]. split; [lia|]. exists 8. split; [done|]. simpl. lia. }
  split; [|split; [|done]].
  - split; [set_solver|]. split; [reflexivity|]. repeat constructor; apply Hb; lia.
  - split; [reflexivity|]. exists 1. split; [done|]. split; [lia|]. split; [simpl; lia|]. simpl.
    split; [|split; [|done]]; (split; [set_solver|]; split; [reflexivity|];
      repeat constructor; apply Hb; lia).
Qed.

Lemma sample_recorded : recorded sample_types sample_source 3 64 sample_value.
Proof.
  unfold sample_value. cbn [recorded length].
  change (kids sample_types 3 64 2) with [(0%nat, 64); (2%nat, 72)]. cbn [all2 recorded fst snd length].
  split; [vm_compute; reflexivity|]. split; [|reflexivity].
  exists 128. split; [vm_compute; reflexivity|]. split; [lia|]. split; [lia|].
  intros e He. injection He as <-. change (128 =? 0) with false. cbv beta iota.
  change (is_byte_type sample_types 1) with true. cbv beta iota.
  change (kids sample_types 2 128 2) with [(1%nat, 128); (1%nat, 129)]. cbn [all2 recorded fst snd length].
  split; [split; [|vm_compute; reflexivity]|].
  - intros i Hi. assert (i = 0 \/ i = 1) as [->| ->] by lia; [exists 104|exists 105];
      (split; [vm_compute; reflexivity|lia]).
  - repeat split; vm_compute; reflexivity.
Qed.

Lemma recorded_value_is_rebuilt_witness :
  exists r' s',
    serializeToBuffer (fun _ => None) 10 sample_types sample_source 3 64 [] (Rec (replicate 32 0) 0 false) = Ok r' /\
    let testcase := drop 0 (take (Z.to_nat (r_off r')) (r_buf r')) in
    populateFromBuffer 170 (fun _ => true) [] 10 sample_types testcase 3 16 [] sample_gen = Ok s'
    /\ g_off s' = Z.of_nat (length testcase)
    /\ rep sample_types (cells (g_heap s')) 48 (brk (g_heap s')) 3 16 (rebuilt sample_types 3 sample_value)
    /\ (small sample_types 3 sample_value -> rebuilt sample_types 3 sample_value = sample_value)
    /\ forall x, x < 48 -> ~ 16 <= x < 16 + 16 -> cells (g_heap s') !! x = cells (g_heap sample_gen) !! x.
Proof.
  apply (recorded_value_is_rebuilt sample_types (fun _ => None) sample_source (Rec (replicate 32 0) 0 false)
    170 (fun _ => true) [] sample_gen 3 sample_value 64 16 16 10).
  - exact sample_fits.
  - exact sample_recorded.
  - unfold room. simpl. lia.
  - done.
  - reflexivity.
  - reflexivity.
  - reflexivity.
  - lia.
  - simpl. lia.
  - intros x Hx. change (is_Some (alloc_cells 16 (replicate 16 170) (∅ : gmap Z Z) !! x)).
    eapply load_mapped; [apply alloc_ok|]. rewrite length_replicate. lia.
  - reflexivity.
  - vm_compute. reflexivity.
  - simpl. lia.
Defined.
