(* ===== verification/LibgenLimits.v ===== *)
(** * The argument generator on arbitrary test cases

    Whatever the test case holds, [populateFromBuffer] ends, for recursive types too,
    provided pointers are at even addresses; the constraints hold of the scalars they are
    applied to; and where the generator does not do what it is meant to. *)
From S2P Require Import Prelude Libgen LibgenTheorems.

(** ** Termination *)

(** [rk] ranks types by containment, [al] says which types contain a pointer. *)
Record layout (ts : list type_desc) (rk : nat -> nat) (al : nat -> bool) (R : nat) : Prop := {
  lay_bound : forall t, (rk t <= R)%nat;
  lay_struct : forall t size fs f o, ts !! t = Some (StructType size fs) -> (f, o) ∈ fs ->
    (rk f < rk t)%nat /\ (al f = true -> al t = true /\ Z.even o = true);
  lay_array : forall t e n, ts !! t = Some (ArrayType e n) ->
    (rk e < rk t)%nat /\ (al e = true -> al t = true);
  lay_pointer : forall t e, ts !! t = Some (PointerType e) -> al t = true;
  lay_even : forall t k fuel, al t = true -> getSize fuel ts t = Ok k -> Z.even k = true;
}.

Lemma getSize_fuel ts rk al R fuel t : layout ts rk al R -> (rk t < fuel)%nat -> getSize fuel ts t <> NoFuel.
Proof.
  intros HL. revert t. induction fuel as [|fuel IH]; intros t Hf; [lia|]. simpl.
  destruct (ts !! t) as [[| | | |e n]|] eqn:Et; try done.
  destruct (lay_array _ _ _ _ HL t e n Et) as [Hrk _]. specialize (IH e ltac:(lia)).
  by destruct (getSize fuel ts e).
Qed.

Lemma getBuffOne_off buffer off :
  0 <= off <= Z.of_nat (length buffer) ->
  let '(b, off') := getBuffOne buffer off in
  off <= off' <= Z.of_nat (length buffer) /\ (off' = off -> b = 0).
Proof. intros Ho. unfold getBuffOne. destruct (Z.ltb_spec off (Z.of_nat (length buffer))); lia. Qed.

Lemma getBuffFour_off buffer off :
  0 <= off <= Z.of_nat (length buffer) ->
  let '(v, off') := getBuffFour buffer off in
  off <= off' <= Z.of_nat (length buffer) /\ (off' = off -> v = 0).
Proof.
  intros Ho. unfold getBuffFour, getBuffTwo.
  pose proof (getBuffOne_off buffer off Ho) as H1. destruct (getBuffOne buffer off) as [b1 o1].
  pose proof (getBuffOne_off buffer o1 ltac:(lia)) as H2. destruct (getBuffOne buffer o1) as [b2 o2].
  pose proof (getBuffOne_off buffer o2 ltac:(lia)) as H3. destruct (getBuffOne buffer o2) as [b3 o3].
  pose proof (getBuffOne_off buffer o3 ltac:(lia)) as H4. destruct (getBuffOne buffer o3) as [b4 o4].
  split; [lia|]. intros E.
  rewrite (proj2 H1), (proj2 H2), (proj2 H3), (proj2 H4) by lia. done.
Qed.

Lemma getBuffTwo_off buffer off :
  0 <= off <= Z.of_nat (length buffer) -> off <= (getBuffTwo buffer off).2 <= Z.of_nat (length buffer).
Proof.
  intros Ho. unfold getBuffTwo.
  pose proof (getBuffOne_off buffer off Ho) as H1. destruct (getBuffOne buffer off) as [b1 o1].
  pose proof (getBuffOne_off buffer o1 ltac:(lia)) as H2. destruct (getBuffOne buffer o1) as [b2 o2]. simpl. lia.
Qed.

Lemma getBuffEight_off buffer off :
  0 <= off <= Z.of_nat (length buffer) -> off <= (getBuffEight buffer off).2 <= Z.of_nat (length buffer).
Proof.
  intros Ho. unfold getBuffEight.
  pose proof (getBuffFour_off buffer off Ho) as H1. destruct (getBuffFour buffer off) as [b1 o1].
  pose proof (getBuffFour_off buffer o1 ltac:(lia)) as H2. destruct (getBuffFour buffer o1) as [b2 o2]. simpl. lia.
Qed.

Lemma apply_constraints_fuel h t size cs v : apply_constraints h t size cs v <> NoFuel.
Proof.
  assert (Hrhs : forall n r, rhs_bytes h n r <> NoFuel)
    by (intros n [c|p]; simpl; [done|]; by destruct (load _ p h)).
  assert (Hone : forall c v, apply_constraint h t size c v <> NoFuel).
  { clear - Hrhs. intros [k sg r] v. unfold apply_constraint, constrain. simpl.
    destruct k; [specialize (Hrhs (match t with PointerType _ => 4 | _ => size end) r); by destruct (rhs_bytes _ _ r)|..];
      destruct t; repeat case_match; try done;
      match goal with |- context [rhs_bytes h ?n ?r] => specialize (Hrhs n r); by destruct (rhs_bytes h n r) end. }
  revert v. induction cs as [|c cs IH]; intros v; simpl; [done|]. specialize (Hone c v).
  destruct (apply_constraint h t size c v); simpl; done.
Qed.

Lemma even_u32 z : Z.even z = true -> Z.even (u32 z) = true.
Proof.
  intros Hz. unfold u32. rewrite Z.mod_eq, Z.even_sub, Z.even_mul by lia. by rewrite Hz.
Qed.

Lemma even_16 a : a mod 16 = 0 -> Z.even a = true.
Proof. intros H. rewrite (Z.div_mod a 16), H, Z.add_0_r, Z.even_mul by lia. done. Qed.

Lemma pointer_or_not (ts : list type_desc) (t : nat) :
  (exists e, ts !! t = Some (PointerType e)) \/ (forall e, ts !! t <> Some (PointerType e)).
Proof. destruct (ts !! t) as [[|e| | |]|]; [right|left|right..]; naive_solver. Qed.

Section terminates.
Context (ts : list type_desc) (rk : nat -> nat) (al : nat -> bool) (R : nat).
Hypothesis HL : layout ts rk al R.
Context (junk : Z) (avail : Z -> bool) (filein buffer : list Z).
Hypothesis Hbuffer : Z.of_nat (length buffer) < 2 ^ 32.

Let populate fuel t a cs s := populateFromBuffer junk avail filein fuel ts buffer t a cs s.

Definition good (s : gen) : Prop :=
  0 <= g_off s <= Z.of_nat (length buffer) /\ brk (g_heap s) mod 16 = 0.

(** A step keeps the state good and never moves back in the test case. *)
Definition steps (f : gen -> res gen) : Prop := forall s s',
  good s -> f s = Ok s' -> good s' /\ g_off s <= g_off s'.

Lemma steps_store a bs : steps (gen_store a bs).
Proof using Type.
  intros s s' Hs H. unfold gen_store, store_heap in H. destruct (store a bs (cells (g_heap s))); [|done].
  simpl in H. injection H as <-. unfold good in *. simpl. split; [done|lia].
Qed.

Lemma steps_malloc n s a s' : good s -> gen_malloc junk avail n s = Ok (a, s') ->
  good s' /\ g_off s' = g_off s /\ a mod 16 = 0.
Proof using Type.
  intros [Ho Hb] H. unfold gen_malloc in H. destruct (avail n); [|done]. simpl in H. injection H as <- <-.
  unfold good. simpl. split; [|done]. split; [done|]. rewrite Z.add_mod, Hb by lia.
  unfold block. rewrite Z.mod_mul by lia. done.
Qed.

Lemma steps_each {A} (f : A -> gen -> res gen) l : (forall x, x ∈ l -> steps (f x)) -> steps (each f l).
Proof using Type.
  induction l as [|x l IH]; intros Hf s s' Hs H; simpl in H; [injection H as <-; split; [done|lia]|].
  destruct (f x s) as [s1| | |] eqn:E; try done. destruct (Hf x ltac:(left) s s1 Hs E) as [H1 H2].
  destruct (IH (fun y Hy => Hf y (list_elem_of_further _ _ _ Hy)) s1 s' H1 H) as [H3 H4]. split; [done|lia].
Qed.

Lemma steps_scalar td w fl a cs : steps (populate_scalar buffer td w fl a cs).
Proof using Type.
  intros s s' [Ho Hb] H. unfold populate_scalar in H.
  assert (Hread : forall v off, (if (w =? 8) && negb fl then Ok (getBuffOne buffer (g_off s))
     else if (w =? 16) && negb fl then Ok (getBuffTwo buffer (g_off s))
     else if w =? 32 then Ok (getBuffFour buffer (g_off s))
     else if w =? 64 then Ok (getBuffEight buffer (g_off s)) else Aborted) = Ok (v, off) ->
     g_off s <= off <= Z.of_nat (length buffer)).
  { intros v off. pose proof (getBuffOne_off buffer _ Ho) as G1. pose proof (getBuffTwo_off buffer _ Ho) as G2.
    pose proof (getBuffFour_off buffer _ Ho) as G4. pose proof (getBuffEight_off buffer _ Ho) as G8.
    repeat case_match; intros E; try discriminate E; injection E as E; rewrite E in *; simpl in *; lia. }
  destruct (if (w =? 8) && negb fl then _ else _) as [[v off]| | |]; try done.
  specialize (Hread v off eq_refl). cbn [rbind] in H.
  destruct (apply_constraints _ td _ cs v); try done. cbn [rbind] in H.
  apply steps_store in H; [|split; [simpl; lia|done]]. destruct H as [H1 H2]. simpl in H2. split; [done|lia].
Qed.

Lemma steps_copy a n : 0 <= n -> steps (copy_from_buffer buffer a n).
Proof using Type Hbuffer.
  intros Hn s s' Hs H. unfold copy_from_buffer in H.
  destruct ((n =? 0) || (g_off s + n <=? Z.of_nat (length buffer))) eqn:E; [|done].
  destruct (gen_store a _ s) as [s1| | |] eqn:E1; try done. simpl in H. injection H as <-.
  destruct (steps_store _ _ _ _ Hs E1) as [[_ H1] _]. destruct Hs as [Ho Hb].
  assert (g_off s + n <= Z.of_nat (length buffer)) by (apply orb_true_iff in E as [?%Z.eqb_eq|?%Z.leb_le]; lia).
  unfold good, u32. simpl. rewrite Z.mod_small by lia. split; [split; [lia|done]|lia].
Qed.

Lemma steps_bind {A} (f : gen -> res (A * gen)) (g : A -> gen -> res gen) :
  (forall s x s', good s -> f s = Ok (x, s') -> good s' /\ g_off s <= g_off s') ->
  (forall x, steps (g x)) -> steps (fun s => let! (x, s) := f s in g x s).
Proof using Type.
  intros Hf Hg s s' Hs H. destruct (f s) as [[x s1]| | |] eqn:E; try done. simpl in H.
  destruct (Hf s x s1 Hs E) as [H1 H2]. destruct (Hg x s1 s' H1 H) as [H3 H4]. split; [done|lia].
Qed.

Lemma steps_seq (f g : gen -> res gen) : steps f -> steps g -> steps (fun s => let! s := f s in g s).
Proof using Type.
  intros Hf Hg s s' Hs H. destruct (f s) as [s1| | |] eqn:E; try done. simpl in H.
  destruct (Hf s s1 Hs E) as [H1 H2]. destruct (Hg s1 s' H1 H) as [H3 H4]. split; [done|lia].
Qed.

Lemma steps_file a : steps (populate_file junk avail filein buffer a).
Proof using Type.
  intros s s' [Ho Hb] H. unfold populate_file in H.
  set (s0 := Gen _ _ _) in H.
  assert (G0 : good s0 /\ g_off s <= g_off s0) by (split; [split; [simpl; lia|done]|simpl; lia]).
  destruct (gen_malloc _ _ _ s0) as [[p s1]| | |] eqn:E1; try done. cbn [rbind] in H.
  destruct (steps_malloc _ _ _ _ (proj1 G0) E1) as (G1 & O1 & _).
  apply (steps_seq _ _ (steps_store p (filein ++ [0])) (steps_store a (word_le 8 p)) s1 s' G1) in H.
  destruct H. split; [done|lia].
Qed.

(** The rest of the pointer branch, once the number of elements is known. *)
Definition point (fuel pointee : nat) (deref : bool) (cs : list constraint) (a numElems : Z) (s : gen) : res gen :=
  let! pointeeSize := getSize fuel ts pointee in
  let! (p, s) := gen_malloc junk avail (u64 (pointeeSize * (numElems + 1))) s in
  let! pt := of_option (ts !! pointee) in
  let! s :=
    (if (negb deref || bool_decide (cs = [])) && is_scalar pt
     then copy_from_buffer buffer p (u32 (numElems * pointeeSize)) s
     else
       each (fun i s => populate fuel pointee (p + u32 (i * pointeeSize)) (if deref then cs else []) s)
         (seqZ 0 numElems) s) in
  let! s := gen_store (p + numElems * pointeeSize) (replicate (Z.to_nat pointeeSize) 0) s in
  gen_store a (word_le 8 p) s.

Lemma steps_point fuel e deref cs a n :
  (forall t a cs, steps (populate fuel t a cs)) -> steps (point fuel e deref cs a n).
Proof using Type Hbuffer.
  intros IH s s' Hs H. unfold point in H. destruct (getSize fuel ts e) as [k| | |]; try done. cbn [rbind] in H.
  destruct (gen_malloc _ _ _ s) as [[p s1]| | |] eqn:E1; try done. cbn [rbind] in H.
  destruct (steps_malloc _ _ _ _ Hs E1) as (G1 & O1 & _).
  destruct (ts !! e) as [pt|]; [|done]. cbn [of_option rbind] in H.
  destruct (if _ && is_scalar pt then _ else _) as [s2| | |] eqn:E2 in H; try done. cbn [rbind] in H.
  assert (G2 : good s2 /\ g_off s1 <= g_off s2).
  { destruct (_ && is_scalar pt).
    - eapply steps_copy; [|exact G1|exact E2]. apply Z.mod_pos_bound. lia.
    - eapply steps_each; [|exact G1|exact E2]. intros i _. apply IH. }
  apply (steps_seq _ _ (steps_store _ _) (steps_store _ _) s2 s' (proj1 G2)) in H. destruct H. split; [done|lia].
Qed.

Lemma populate_pointer fuel t e a cs s :
  ts !! t = Some (PointerType e) ->
  populate (S fuel) t a cs s =
  if file_tag a then populate_file junk avail filein buffer (untagged a) s
  else
    let '(n, off) := getBuffFour buffer (g_off s) in
    let! n := (if deref_tag a then Ok 1
               else apply_constraints (cells (g_heap s)) (PointerType e) 8 cs n) in
    point fuel e (deref_tag a) cs (untagged a) n (set_off off s).
Proof using Type.
  intros Ht. unfold populate. cbn [populateFromBuffer]. rewrite Ht. destruct (file_tag a); [done|].
  by destruct (getBuffFour buffer (g_off s)) as [n off].
Qed.

Lemma steps_populate fuel : forall t a cs, steps (populate fuel t a cs).
Proof using Type Hbuffer.
  induction fuel as [|fuel IH]; intros t a cs s s' Hs H; [done|].
  destruct (ts !! t) as [[size fs|e|w|w|e n]|] eqn:Et;
    [|rewrite (populate_pointer _ _ _ _ _ _ Et) in H
     |unfold populate in H; cbn [populateFromBuffer] in H; rewrite Et in H..];
    [unfold populate in H; cbn [populateFromBuffer] in H; rewrite Et in H|..].
  - eapply steps_each; [|exact Hs|exact H]. intros [f o] _. apply IH.
  - destruct (file_tag a); [by eapply steps_file|].
    destruct Hs as [Ho Hb]. pose proof (getBuffFour_off buffer (g_off s) Ho) as Hf.
    destruct (getBuffFour buffer (g_off s)) as [n off].
    destruct (if deref_tag a then _ else _) as [n'| | |]; try done. cbn [rbind] in H.
    apply (steps_point fuel e _ cs _ n' IH) in H; [|split; [simpl; lia|done]]. simpl in H. destruct H. split; [done|lia].
  - by eapply steps_scalar.
  - by eapply steps_scalar.
  - eapply steps_each; [|exact Hs|exact H]. intros i _ s1 s2 G1 E1.
    destruct (getSize fuel ts e) as [k| | |]; try done. by eapply IH.
  - done.
Qed.

(** Bytes left in the test case, and the fuel that covers them. *)
Definition left_ (s : gen) : nat := Z.to_nat (Z.of_nat (length buffer) - g_off s).
Definition enough (m r : nat) : nat := ((R + 2) * (m + 1) + r + 1)%nat.

Lemma each_ends {A} (f : A -> gen -> res gen) l m :
  (forall x, x ∈ l -> steps (f x)) ->
  (forall x s, x ∈ l -> good s -> (left_ s <= m)%nat -> f x s <> NoFuel) ->
  forall s, good s -> (left_ s <= m)%nat -> each f l s <> NoFuel.
Proof using Type.
  induction l as [|x l IH]; intros Hst Hf s Hs Hl; simpl; [done|].
  destruct (f x s) as [s1| | |] eqn:E; try done; [|by destruct (Hf x s ltac:(left) Hs Hl)].
  destruct (Hst x ltac:(left) s s1 Hs E) as [G1 O1]. simpl. apply IH; [..|done|unfold left_ in *; lia].
  - intros y Hy. apply Hst. by right.
  - intros y s' Hy. apply Hf. by right.
Qed.

Lemma even_elem e k fuel p i :
  p mod 16 = 0 -> getSize fuel ts e = Ok k -> al e = true -> Z.even (p + u32 (i * k)) = true.
Proof using Type HL.
  intros Hp Hk He. rewrite Z.even_add, (even_16 p Hp), even_u32; [done|].
  by rewrite Z.even_mul, (lay_even _ _ _ _ HL e k fuel He Hk), orb_true_r.
Qed.

Lemma store_ends a bs s : gen_store a bs s <> NoFuel.
Proof using Type. unfold gen_store, store_heap. by destruct (store a bs _). Qed.

Lemma point_ends fuel e (deref : bool) cs a n m s :
  (rk e < fuel)%nat -> good s -> (left_ s <= m)%nat ->
  (forall x s, 0 < n -> (al e = true -> Z.even x = true) -> good s -> (left_ s <= m)%nat ->
    populate fuel e x (if deref then cs else []) s <> NoFuel) ->
  point fuel e deref cs a n s <> NoFuel.
Proof using Type HL Hbuffer.
  intros Hrk Hs Hl HP. unfold point. pose proof (getSize_fuel ts rk al R fuel e HL Hrk) as Hk.
  destruct (getSize fuel ts e) as [k| | |] eqn:Ek; try done. cbn [rbind].
  destruct (gen_malloc _ _ _ s) as [[p s1]| | |] eqn:E1; cbn [rbind]; try done;
    [|unfold gen_malloc in E1; by destruct (avail _)].
  destruct (steps_malloc _ _ _ _ Hs E1) as (G1 & O1 & P1).
  destruct (ts !! e) as [pt|]; [|done]. cbn [of_option rbind].
  assert (Hfill : (if (negb deref || bool_decide (cs = [])) && is_scalar pt
     then copy_from_buffer buffer p (u32 (n * k)) s1
     else each (fun i s => populate fuel e (p + u32 (i * k)) (if deref then cs else []) s) (seqZ 0 n) s1) <> NoFuel).
  { destruct (_ && is_scalar pt).
    - unfold copy_from_buffer. destruct (_ || _); [|done].
      pose proof (store_ends p (take (Z.to_nat (u32 (n * k))) (drop (Z.to_nat (g_off s1)) buffer)) s1) as H.
      by destruct (gen_store p _ s1).
    - apply each_ends with (m := m); [intros; apply steps_populate| |done|unfold left_ in *; lia].
      intros i s2 Hi G2 L2. apply elem_of_seqZ in Hi. apply HP; [lia| |done|done].
      intros He. by eapply even_elem. }
  destruct (if _ && is_scalar pt then _ else _) as [s2| | |]; try done. cbn [rbind].
  pose proof (store_ends (p + n * k) (replicate (Z.to_nat k) 0) s2) as H3.
  destruct (gen_store (p + n * k) _ s2) as [s3| | |]; try done. cbn [rbind]. apply store_ends.
Qed.

Lemma file_ends a s : populate_file junk avail filein buffer a s <> NoFuel.
Proof using Type.
  unfold populate_file. set (s0 := Gen _ _ _).
  destruct (gen_malloc _ _ _ s0) as [[p s1]| | |] eqn:E1; try done;
    [|unfold gen_malloc in E1; by destruct (avail _)].
  cbn [rbind]. pose proof (store_ends p (filein ++ [0]) s1) as H.
  destruct (gen_store p _ s1) as [s2| | |]; try done. apply store_ends.
Qed.

Lemma scalar_ends td w fl a cs s : populate_scalar buffer td w fl a cs s <> NoFuel.
Proof using Type.
  unfold populate_scalar. destruct (if (w =? 8) && negb fl then _ else _) as [[v off]| | |] eqn:E; try done.
  - cbn [rbind]. pose proof (apply_constraints_fuel (cells (g_heap s)) td (w `div` 8) cs v) as H.
    destruct (apply_constraints _ td _ cs v); try done. apply store_ends.
  - by repeat case_match.
Qed.

(** Structs and arrays, given that their members end. *)
Lemma members_end fuel t a cs m s :
  (forall e, ts !! t <> Some (PointerType e)) ->
  good s -> (left_ s <= m)%nat -> (al t = true -> Z.even a = true) -> (rk t < fuel)%nat ->
  (forall f x s, (rk f < rk t)%nat -> (al f = true -> Z.even x = true) -> good s -> (left_ s <= m)%nat ->
    populate fuel f x [] s <> NoFuel) ->
  populate (S fuel) t a cs s <> NoFuel.
Proof using Type HL Hbuffer.
  intros Hp Hs Hl Ha Hrk HP. unfold populate. cbn [populateFromBuffer].
  destruct (ts !! t) as [[size fs|e|w|w|e n]|] eqn:Et.
  - apply each_ends with (m := m); [intros [f o] _; apply (steps_populate fuel f)| |done|done].
    intros [f o] s1 Hin G1 L1. destruct (lay_struct _ _ _ _ HL t size fs f o Et Hin) as [Hr Hal].
    apply HP; [done| |done|done]. intros Hf. destruct (Hal Hf) as [Ht Ho]. by rewrite Z.even_add, (Ha Ht), Ho.
  - by destruct (Hp e).
  - apply scalar_ends.
  - apply scalar_ends.
  - destruct (lay_array _ _ _ _ HL t e n Et) as [Hr Hal].
    pose proof (getSize_fuel ts rk al R fuel e HL ltac:(lia)) as Hk.
    destruct (getSize fuel ts e) as [k| | |] eqn:Ek; try done; [|by destruct (seqZ 0 n)..].
    apply each_ends with (m := m); [intros i _; apply (steps_populate fuel e)| |done|done].
    intros i s1 _ G1 L1. cbn [rbind]. apply HP; [done| |done|done]. intros He.
    rewrite Z.even_add, (Ha (Hal He)), even_u32; [done|].
    by rewrite Z.even_mul, (lay_even _ _ _ _ HL e k fuel He Ek), orb_true_r.
  - done.
Qed.

Lemma even_not_deref a : Z.even a = true -> deref_tag a = false.
Proof using Type. intros H. unfold deref_tag. by rewrite Z.bit0_odd, <- Z.negb_even, H. Qed.

(** Without constraints: a pointer that has elements has consumed a byte. *)
Lemma plain_ends fuel : forall m t a s,
  good s -> (left_ s <= m)%nat -> (al t = true -> Z.even a = true) -> (enough m (rk t) <= fuel)%nat ->
  populate fuel t a [] s <> NoFuel.
Proof using Type HL Hbuffer.
  induction fuel as [|fuel IH]; intros m t a s Hs Hl Ha Hfu; unfold enough in Hfu; [lia|].
  assert (HR : forall t, (rk t <= R)%nat) by apply HL.
  destruct (pointer_or_not ts t) as [[e Et]|Hp].
  - rewrite (populate_pointer _ _ _ _ _ _ Et). destruct (file_tag a); [apply file_ends|].
    rewrite (even_not_deref a (Ha (lay_pointer _ _ _ _ HL t e Et))). cbn [apply_constraints].
    destruct Hs as [Ho Hb]. pose proof (getBuffFour_off buffer (g_off s) Ho) as Hf.
    destruct (getBuffFour buffer (g_off s)) as [n off]. cbn [rbind]. specialize (HR e).
    apply point_ends with (m := (left_ (set_off off s))); [lia|split; [simpl; lia|done]|lia|].
    intros x s1 Hn Hx G1 L1. destruct m as [|m].
    + unfold left_ in Hl. assert (n = 0) by (apply Hf; lia). lia.
    + apply (IH m); [done| |done|unfold enough; lia]. assert (off <> g_off s) by (intros E; apply Hf in E; lia).
      unfold left_ in *. simpl in *. lia.
  - apply (members_end fuel t a [] m); [exact Hp|done|done|done|specialize (HR t); lia|].
    intros f x s1 Hr Hx G1 L1. apply (IH m); [done|done|done|unfold enough; lia].
Qed.

(** With constraints, at an even address. *)
Lemma constrained_ends fuel m t a cs s :
  good s -> (left_ s <= m)%nat -> (al t = true -> Z.even a = true) -> (enough (m + 1) (rk t) <= fuel)%nat ->
  populate fuel t a cs s <> NoFuel.
Proof using Type HL Hbuffer.
  intros Hs Hl Ha Hfu. unfold enough in Hfu. destruct fuel as [|fuel]; [lia|].
  assert (HR : forall t, (rk t <= R)%nat) by apply HL.
  destruct (pointer_or_not ts t) as [[e Et]|Hp].
  - rewrite (populate_pointer _ _ _ _ _ _ Et). destruct (file_tag a); [apply file_ends|].
    rewrite (even_not_deref a (Ha (lay_pointer _ _ _ _ HL t e Et))).
    destruct Hs as [Ho Hb]. pose proof (getBuffFour_off buffer (g_off s) Ho) as Hf.
    destruct (getBuffFour buffer (g_off s)) as [n off]. specialize (HR e).
    pose proof (apply_constraints_fuel (cells (g_heap s)) (PointerType e) 8 cs n) as Hc.
    destruct (apply_constraints _ _ 8 cs n) as [n'| | |]; try done. cbn [rbind].
    apply point_ends with (m := m); [lia|split; [simpl; lia|done]|unfold left_ in *; simpl; lia|].
    intros x s1 Hn Hx G1 L1. apply (plain_ends fuel m); [done|done|done|unfold enough; lia].
  - apply (members_end fuel t a cs m); [exact Hp|done|done|done|specialize (HR t); lia|].
    intros f x s1 Hr Hx G1 L1. apply (plain_ends fuel m); [done|done|done|unfold enough; lia].
Qed.

Lemma any_ends fuel m t a cs s :
  good s -> (left_ s <= m)%nat ->
  ((exists e, ts !! t = Some (PointerType e)) \/ (al t = true -> Z.even a = true)) ->
  (enough (m + 2) (rk t) <= fuel)%nat -> populate fuel t a cs s <> NoFuel.
Proof using Type HL Hbuffer.
  intros Hs Hl Ha Hfu. unfold enough in Hfu.
  destruct Ha as [[e Et]|Ha]; [|apply (constrained_ends fuel m); [done|done|done|unfold enough; lia]].
  destruct (deref_tag a) eqn:Hd.
  - destruct fuel as [|fuel]; [lia|]. assert (HR : (rk e <= R)%nat) by apply HL.
    rewrite (populate_pointer _ _ _ _ _ _ Et), Hd. destruct (file_tag a); [apply file_ends|].
    destruct Hs as [Ho Hb]. pose proof (getBuffFour_off buffer (g_off s) Ho) as Hf.
    destruct (getBuffFour buffer (g_off s)) as [n off]. cbn [rbind].
    apply point_ends with (m := m); [lia|split; [simpl; lia|done]|unfold left_ in *; simpl; lia|].
    intros x s1 Hn Hx G1 L1. apply (constrained_ends fuel m); [done|done|done|unfold enough; lia].
  - apply (constrained_ends fuel m); [done|done| |unfold enough; lia]. intros _.
    unfold deref_tag in Hd. rewrite Z.bit0_odd, <- Z.negb_even in Hd. by apply negb_false_iff in Hd.
Qed.
End terminates.

(** C36: the generator terminates on every test case.  For types whose containment is well
    founded (pointers may form cycles) and whose pointers are at even offsets, a recursion
    depth linear in the length of the test case suffices, whatever the constraints and the
    tag bits of the argument: every element behind an unconstrained pointer costs at least
    one byte of the test case. *)
Theorem populate_terminates ts rk al R junk avail filein buffer fuel t a cs s :
  layout ts rk al R -> Z.of_nat (length buffer) < 2 ^ 32 ->
  0 <= g_off s <= Z.of_nat (length buffer) -> brk (g_heap s) mod 16 = 0 ->
  (exists e, ts !! t = Some (PointerType e)) \/ (al t = true -> Z.even a = true) ->
  ((R + 2) * (length buffer + 3) + R + 1 <= fuel)%nat ->
  populateFromBuffer junk avail filein fuel ts buffer t a cs s <> NoFuel.
Proof.
  intros HL Hbuf Ho Hb Ha Hfu.
  apply (any_ends ts rk al R HL junk avail filein buffer Hbuf fuel (length buffer)); [done| |done|].
  - unfold left_. lia.
  - assert (rk t <= R)%nat by apply HL. unfold enough. lia.
Qed.

(** A list node [{ int n; struct node *next; }]. *)
Definition node_types : list type_desc :=
  [IntegerType 32; PointerType 2; StructType 16 [(0%nat, 0); (1%nat, 8)]].

Lemma node_layout : layout node_types (fun t => if decide (t = 2%nat) then 1 else 0)%nat
  (fun t => negb (bool_decide (t = 0%nat))) 1.
Proof.
  split.
  - intros t. case_decide; lia.
  - intros [|[|[|t]]] size fs f o Ht; try discriminate Ht. injection Ht as <- <-.
    rewrite !elem_of_cons, elem_of_nil. intros [[= -> ->]|[[= -> ->]|[]]]; simpl; split; try lia; done.
  - intros [|[|[|t]]] e n Ht; discriminate Ht.
  - intros [|[|[|t]]] e Ht; try discriminate Ht. done.
  - intros [|[|[|t]]] k [|fuel] Ht Hk; try discriminate Ht; try discriminate Hk; by injection Hk as <-.
Qed.

Lemma populate_terminates_witness :
  populateFromBuffer 0 (fun _ => true) [] 30 node_types [1; 0; 0; 0; 9] 1 32 []
    (Gen (Heap (alloc_cells 32 (replicate 8 0) ∅) 48) 0 None) <> NoFuel.
Proof.
  apply (populate_terminates node_types (fun t => if decide (t = 2%nat) then 1 else 0)%nat
    (fun t => negb (bool_decide (t = 0%nat))) 1).
  - exact node_layout.
  - simpl. lia.
  - simpl. lia.
  - reflexivity.
  - left. exists 2%nat. reflexivity.
  - simpl. lia.
Defined.

(** ** Pointers at odd addresses *)

(** A packed list node [{ char c; struct node *next; }]: the pointer is at an odd address,
    which the generator takes for the tag that asks for one constrained element. *)
Definition packed_types : list type_desc :=
  [IntegerType 8; PointerType 2; StructType 9 [(0%nat, 0); (1%nat, 1)]].

Lemma odd_tags a : Z.even a = true -> 0 <= a < 2 ^ 62 ->
  deref_tag (a + 1) = true /\ file_tag (a + 1) = false.
Proof.
  intros He Ha. split.
  - unfold deref_tag. rewrite Z.bit0_odd, Z.odd_add, <- Z.negb_even, He. done.
  - unfold file_tag. apply (bounded_testbit_high (a + 1) 63); lia.
Qed.

(** On a packed list node the generator never stops, on any test case, the empty one
    included: at the odd address of [next] it always builds one more node.  No recursion
    depth is enough as long as the addresses stay below 2^62. *)
Theorem packed_list_never_ends junk filein buffer fuel : forall a s,
  Z.even a = true -> 0 <= a -> a + 9 <= brk (g_heap s) -> mapped (cells (g_heap s)) a 9 ->
  brk (g_heap s) mod 16 = 0 -> brk (g_heap s) + 32 * Z.of_nat fuel < 2 ^ 62 ->
  populateFromBuffer junk (fun _ => true) filein fuel packed_types buffer 2 a [] s = NoFuel.
Proof.
  induction fuel as [fuel IH] using lt_wf_ind. intros a s He Ha Hab Hm Hb Hlt.
  destruct fuel as [|[|fuel]]; [done|done|].
  set (pop := populateFromBuffer junk (fun _ => true) filein) in *.
  change (pop (S (S fuel)) packed_types buffer 2%nat a [] s) with
    (let! s1 := populate_scalar buffer (IntegerType 8) 8 false (a + 0) [] s in
     let! s2 := pop (S fuel) packed_types buffer 1%nat (a + 1) [] s1 in Ok s2).
  rewrite Z.add_0_r. unfold populate_scalar. cbn [Z.eqb Pos.eqb andb negb rbind].
  destruct (getBuffOne buffer (g_off s)) as [v off]. cbn [rbind apply_constraints].
  change (8 `div` 8) with 1.
  destruct (gen_store_ok (set_off off s) a (word_le 1 v)) as (s1 & -> & _ & [B1 _ M1] & E1 & _).
  { rewrite length_word_le by lia. intros x Hx. apply Hm. lia. }
  cbn [rbind]. destruct (odd_tags a He ltac:(lia)) as [Hd Hf].
  unfold pop. rewrite (populate_pointer packed_types junk (fun _ => true) filein buffer fuel 1 2 (a + 1) [] s1 eq_refl), Hf, Hd.
  destruct (getBuffFour buffer (g_off s1)) as [n off1]. cbn [rbind].
  unfold point. destruct fuel as [|fuel]; [done|]. cbn [getSize packed_types lookup list_lookup rbind].
  unfold gen_malloc. cbn [rbind]. destruct (malloc_grown junk (g_heap (set_off off1 s1)) (u64 (9 * (1 + 1))) ltac:(done))
    as (G2 & M2 & B2).
  simpl in E1, B1. cbn [malloc fst snd]. cbn [of_option rbind negb orb andb is_scalar].
  change (seqZ 0 1) with [0]. cbn [each]. change (u32 (0 * 9)) with 0. rewrite Z.add_0_r.
  rewrite IH; [done|lia|..].
  - apply even_16. simpl. by rewrite E1.
  - simpl. lia.
  - cbn [malloc snd set_heap g_heap brk]. change (block (u64 (9 * (1 + 1)))) with 32. simpl. lia.
  - intros x Hx. apply M2. change (u64 (9 * (1 + 1))) with 18. simpl in *. lia.
  - cbn [malloc snd set_heap g_heap brk]. change (block (u64 (9 * (1 + 1)))) with 32.
    simpl. rewrite E1, Z.add_mod, Hb by lia. done.
  - cbn [malloc snd set_heap g_heap brk]. change (block (u64 (9 * (1 + 1)))) with 32. simpl. lia.
Qed.

Lemma packed_list_never_ends_witness :
  populateFromBuffer 0 (fun _ => true) [] 1000 packed_types [] 2 16 []
    (Gen (Heap (alloc_cells 16 (replicate 9 0) ∅) 32) 0 None) = NoFuel.
Proof.
  apply (packed_list_never_ends 0 [] [] 1000).
  - reflexivity.
  - lia.
  - simpl. lia.
  - intros x Hx. change (is_Some (alloc_cells 16 (replicate 9 0) (∅ : gmap Z Z) !! x)).
    eapply load_mapped; [apply alloc_ok|]. rewrite length_replicate. lia.
  - reflexivity.
  - vm_compute. reflexivity.
Defined.

(** ** Constraints *)

(** The number an [n]-byte pattern stands for. *)
Definition number (isSigned : bool) (n v : Z) : Z :=
  let l := v `mod` 2 ^ (8 * n) in if isSigned then signed_of n l else l.

Definition holds (k : Kind) (l r : Z) : Prop :=
  match k with EQ => l = r | LE => l <= r | GE => r <= l end.

(** The width and signedness of the comparison for a type: lengths of arrays are
    unsigned 32-bit numbers. *)
Definition compared (t : type_desc) (sg : bool) : option (Z * bool) :=
  match t with
  | PointerType _ => Some (4, false)
  | IntegerType w => if decide (w ∈ [8; 16; 32; 64]) then Some (w `div` 8, sg) else None
  | _ => None
  end.

Lemma copy_low_mod n v b : 0 <= n -> 0 <= b < 2 ^ (8 * n) -> copy_low n v b `mod` 2 ^ (8 * n) = b.
Proof.
  intros Hn Hb. unfold copy_low. set (m := 2 ^ (8 * n)) in *.
  assert (Hm : 0 < m) by (apply Z.pow_pos_nonneg; lia).
  rewrite (Z.mod_small b) by done. rewrite Z.add_mod by lia.
  rewrite (Z.mod_eq v m) by lia. replace (v - (v - m * (v `div` m))) with (v `div` m * m) by lia.
  rewrite Z.mod_mul, Z.add_0_l by lia. rewrite Z.mod_mod by lia. by apply Z.mod_small.
Qed.

Lemma copy_low_high n v b : 0 <= n -> 0 <= b < 2 ^ (8 * n) ->
  copy_low n v b `div` 2 ^ (8 * n) = v `div` 2 ^ (8 * n).
Proof.
  intros Hn Hb. unfold copy_low. set (m := 2 ^ (8 * n)) in *.
  assert (Hm : 0 < m) by (apply Z.pow_pos_nonneg; lia).
  rewrite (Z.mod_small b) by done. rewrite (Z.mod_eq v m) by lia.
  replace (v - (v - m * (v `div` m)) + b) with (b + v `div` m * m) by lia.
  rewrite Z.div_add, Z.div_small by lia. lia.
Qed.

Lemma rhs_bytes_bound h n r b : 0 <= n ->
  (forall a x, h !! a = Some x -> byte_ok x) -> rhs_bytes h n r = Ok b -> 0 <= b < 2 ^ (8 * n).
Proof.
  intros Hn Hh. destruct r as [c|p]; simpl.
  - intros [= <-]. apply Z.mod_pos_bound, Z.pow_pos_nonneg; lia.
  - destruct (load (Z.to_nat n) p h) as [bs|] eqn:E; [|done]. intros [= <-].
    assert (Hl := load_length _ _ _ _ E). replace n with (Z.of_nat (length bs)) by lia.
    apply le_word_bound. clear Hl. revert p E. generalize (Z.to_nat n). clear -Hh. intros m p E.
    revert m p E. induction bs as [|b bs IH]; intros [|m] p E; [constructor|constructor|done|].
    simpl in E. apply bind_Some in E as (b' & Hb & (bs' & E & [= -> ->])%bind_Some).
    constructor; [by eapply Hh|by eapply IH].
Qed.

(** What one comparison and copy does. *)
Lemma enforce k (sg : bool) n v b :
  0 < n -> 0 <= b < 2 ^ (8 * n) -> k <> EQ ->
  let l := v `mod` 2 ^ (8 * n) in
  let r := if (if sg then beyond k Z.ltb (signed_of n l) (signed_of n b) else beyond k Z.ltb l b)
           then copy_low n v b else v in
  holds k (number sg n r) (number sg n b) /\ (holds k (number sg n v) (number sg n b) -> r = v).
Proof.
  intros Hn Hb Hk l r.
  assert (Hbb : b `mod` 2 ^ (8 * n) = b) by (by apply Z.mod_small).
  assert (Hcopy : number sg n (copy_low n v b) = number sg n b)
    by (unfold number; by rewrite copy_low_mod, Hbb by lia).
  assert (Hv : number sg n v = if sg then signed_of n l else l) by done.
  assert (Hnb : number sg n b = if sg then signed_of n b else b) by (unfold number; by rewrite Hbb).
  subst r. rewrite Hv, Hnb in *. fold l in Hv. destruct k; [done|..]; simpl; destruct sg;
    (match goal with |- context [?x <? ?y] => destruct (Z.ltb_spec x y) end;
     [rewrite Hcopy|rewrite Hv]); split; try lia; intros; lia.
Qed.

(** A constraint on an integer argument, or on the length of an array, is enforced: the
    value that leaves it stands in the asked relation to the other side (compared as
    numbers of the type's width, signed if asked for), values that satisfy LE or GE already
    are not touched, and the bytes beyond the width are kept. *)
Theorem constraint_enforced h t c v n sg b :
  compared t (c_signed c) = Some (n, sg) -> (forall a x, h !! a = Some x -> byte_ok x) ->
  rhs_bytes h n (c_rhs c) = Ok b ->
  exists r, apply_constraint h t n c v = Ok r
    /\ holds (c_kind c) (number sg n r) (number sg n b)
    /\ (c_kind c <> EQ -> holds (c_kind c) (number sg n v) (number sg n b) -> r = v)
    /\ r `div` 2 ^ (8 * n) = v `div` 2 ^ (8 * n).
Proof.
  intros Hc Hh Hb.
  assert (Hn : 0 < n /\ (n =? 1) || (n =? 2) || (n =? 4) || (n =? 8) = true /\
    (t = PointerType (match t with PointerType e => e | _ => 0%nat end) /\ n = 4 /\ sg = false
     \/ exists w, t = IntegerType w /\ w `div` 8 = n /\ sg = c_signed c)).
  { destruct t as [|e|w| |]; simpl in Hc; try done.
    - injection Hc as <- <-. split; [lia|]. split; [done|]. by left.
    - destruct (decide _) as [Hw|]; [|done]. injection Hc as <- <-.
      rewrite !elem_of_cons, elem_of_nil in Hw.
      destruct Hw as [->|[->|[->|[->|[]]]]]; (split; [done|]; split; [done|]; right; by eexists). }
  destruct Hn as (Hpos & Hw & Ht). pose proof (rhs_bytes_bound h n _ b ltac:(lia) Hh Hb) as Hbb.
  destruct c as [k s r0]. simpl in *. unfold apply_constraint. simpl. destruct (decide (k = EQ)) as [->|Hk].
  - assert (Hnn : match t with PointerType _ => 4 | _ => n end = n)
      by (destruct Ht as [(-> & -> & _)|(w & -> & _)]; done).
    rewrite Hnn, Hb. cbn [rbind]. eexists. split; [done|]. split; [|split; [done|by apply copy_low_high; [lia|]]].
    simpl. unfold number. rewrite copy_low_mod, (Z.mod_small b) by lia. done.
  - pose proof (enforce k sg n v b Hpos Hbb Hk) as [E1 E2].
    match type of E1 with holds _ (number _ _ ?r) _ => set (res := r) in * end.
    assert (Hres : constrain h t k s r0 v = Ok res).
    { subst res. destruct Ht as [(-> & -> & ->)|(w & -> & Hwn & ->)]; simpl.
      - rewrite Hb. done.
      - rewrite Hwn, Hw, Hb. done. }
    exists res. split; [by destruct k|]. split; [done|]. split; [auto|].
    subst res. destruct (if sg then _ else _); [by apply copy_low_high; [lia|]|done].
Qed.

Lemma constraint_enforced_witness :
  exists r, apply_constraint ∅ (IntegerType 16) 2 (Constraint LE true (Constant 100)) 0x7fff = Ok r
    /\ holds LE (number true 2 r) (number true 2 100)
    /\ (LE <> EQ -> holds LE (number true 2 0x7fff) (number true 2 100) -> r = 0x7fff)
    /\ r `div` 2 ^ (8 * 2) = 0x7fff `div` 2 ^ (8 * 2).
Proof.
  apply (constraint_enforced ∅ (IntegerType 16) (Constraint LE true (Constant 100)) 0x7fff 2 true 100).
  - reflexivity.
  - intros a x Hx. rewrite lookup_empty in Hx. discriminate Hx.
  - reflexivity.
Defined.

(** ** Where the generator falls short *)

Lemma store_some a bs h h' : store a bs h = Some h' -> stored a bs h h'.
Proof.
  intros H. assert (Hm : mapped h a (Z.of_nat (length bs))).
  { clear -H. revert a h H. induction bs as [|b bs IH]; intros a h H x Hx; cbn [length] in Hx; [lia|].
    simpl in H. destruct (h !! a) as [c|] eqn:Ec; [|done]. destruct (decide (x = a)) as [->|]; [by eexists|].
    specialize (IH _ _ H x ltac:(lia)). by rewrite lookup_insert_ne in IH by lia. }
  destruct (store_ok a bs h Hm) as (h2 & H2 & Hs). by simplify_eq.
Qed.

Lemma word_le_half v : 0 <= v < 2 ^ 32 -> word_le 8 v = word_le 4 v ++ replicate 4 0.
Proof.
  intros Hv. rewrite <- (word_le_le_word 8 (word_le 4 v ++ replicate 4 0)).
  - rewrite le_word_zeros, le_word_word_le by lia. done.
  - apply Forall_app. split; [apply Z_to_little_endian_bound; lia|]. repeat constructor; unfold byte_ok; lia.
  - rewrite length_app, length_word_le by lia. done.
Qed.

(** The upper half of every 64-bit integer argument is lost.  [getBuffEight] reads eight
    bytes of the test case but returns them as an [unsigned int], so whatever they are, the
    four upper bytes of the argument come out as zero. *)
Theorem int64_upper_half_lost junk avail filein fuel ts buffer t a s s' :
  ts !! t = Some (IntegerType 64) ->
  populateFromBuffer junk avail filein (S fuel) ts buffer t a [] s = Ok s' ->
  exists bs, load 8 a (cells (g_heap s')) = Some bs /\ drop 4 bs = replicate 4 0.
Proof.
  intros Ht H. cbn [populateFromBuffer] in H. rewrite Ht in H. unfold populate_scalar in H.
  cbn [Z.eqb Pos.eqb andb rbind] in H. unfold getBuffEight in H.
  destruct (getBuffFour buffer (g_off s)) as [lo o1]. destruct (getBuffFour buffer o1) as [hi o2].
  cbn [rbind apply_constraints] in H. change (64 `div` 8) with 8 in H.
  set (v := u32 _) in H. assert (Hv : 0 <= v < 2 ^ 32) by (apply Z.mod_pos_bound; lia).
  unfold gen_store, store_heap in H. destruct (store a (word_le 8 v) _) as [c|] eqn:Hc; [|done].
  injection H as <-. apply store_some in Hc as [Hl _ _]. rewrite length_word_le in Hl by lia.
  exists (word_le 8 v). split; [exact Hl|]. rewrite word_le_half by done.
  apply drop_app_length'. by rewrite length_word_le.
Qed.

Lemma int64_upper_half_lost_witness :
  exists s', populateFromBuffer 0 (fun _ => true) [] 1 [IntegerType 64] [1; 2; 3; 4; 5; 6; 7; 8] 0 16 []
      (Gen (Heap (alloc_cells 16 (replicate 8 0) ∅) 32) 0 None) = Ok s'
    /\ exists bs, load 8 16 (cells (g_heap s')) = Some bs /\ drop 4 bs = replicate 4 0.
Proof.
  eexists. split; [vm_compute; reflexivity|].
  eapply (int64_upper_half_lost 0 (fun _ => true) [] 0 [IntegerType 64] [1; 2; 3; 4; 5; 6; 7; 8] 0 16
    (Gen (Heap (alloc_cells 16 (replicate 8 0) ∅) 32) 0 None)); [reflexivity|vm_compute; reflexivity].
Defined.

(** The bulk copy of an array of scalars trusts the length in the test case: when the
    test case holds fewer bytes than the length it announces, [memcpy] reads behind it. *)
Theorem bulk_copy_overreads junk avail filein fuel ts buffer t e w a s n off :
  ts !! t = Some (PointerType e) -> ts !! e = Some (IntegerType w) -> 0 < w ->
  Z.even a = true -> 0 <= a < 2 ^ 63 ->
  getBuffFour buffer (g_off s) = (n, off) -> 0 < n * (w `div` 8) < 2 ^ 32 ->
  Z.of_nat (length buffer) < off + n * (w `div` 8) ->
  populateFromBuffer junk avail filein (S (S fuel)) ts buffer t a [] s = UB.
Proof.
  intros Ht He Hw Hev Ha Hn Hb Hover.
  rewrite (populate_pointer ts junk avail filein buffer (S fuel) t e a [] s Ht).
  destruct (tags_none a Hev Ha) as (-> & -> & ->). rewrite Hn. cbn [apply_constraints rbind].
  unfold point. cbn [getSize]. rewrite He. cbn [rbind]. unfold gen_malloc.
  destruct (avail _); [|done]. cbn [rbind malloc of_option negb orb andb is_scalar].
  unfold copy_from_buffer. cbn [set_heap set_off g_off].
  unfold u32. rewrite Z.mod_small by lia.
  rewrite (proj2 (Z.eqb_neq _ 0)), (proj2 (Z.leb_gt _ _)) by lia. done.
Qed.

Lemma bulk_copy_overreads_witness :
  populateFromBuffer 0 (fun _ => true) [] 2 [IntegerType 8; PointerType 0] [255; 255; 0; 0; 1] 1 16 []
    (Gen (Heap (alloc_cells 16 (replicate 8 0) ∅) 32) 0 None) = UB.
Proof.
  apply (bulk_copy_overreads 0 (fun _ => true) [] 0 [IntegerType 8; PointerType 0] [255; 255; 0; 0; 1] 1 0 8 16
    (Gen (Heap (alloc_cells 16 (replicate 8 0) ∅) 32) 0 None) 65535 4); try reflexivity.
  - lia.
  - change (65535 * (8 `div` 8)) with 65535. lia.
Defined.
