(* ===== verification/Depend.v ===== *)
(** * The order of the arguments (src/libgen/src/Dependencies.cc)

    A constraint between two arguments makes one depend on the other.  [DependencyManager]
    collects the dependencies of a call and visits the arguments so that each comes behind
    those it depends on; the sorting is done by [boost::topological_sort], which is the class
    [TopologicalSort] here, with its documented contract. *)
From S2P Require Import Prelude Libgen.

(** [u] comes before [v] in [l]. *)
Definition before (l : list nat) (u v : nat) : Prop :=
  exists i j, (i < j)%nat /\ l !! i = Some u /\ l !! j = Some v.

(** The graph has no cycles: the vertices can be ranked along the edges. *)
Definition acyclic (es : list (nat * nat)) : Prop :=
  exists rank : nat -> nat, forall u v, (u, v) ∈ es -> (rank u < rank v)%nat.

Definition edges_in (n : nat) (es : list (nat * nat)) : Prop :=
  forall u v, (u, v) ∈ es -> (u < n)%nat /\ (v < n)%nat.

(** The vertices written to the output, and whether [not_a_dag] was thrown: for a graph
    without cycles the output has every vertex once, in reverse topological order; otherwise
    the exception is thrown. *)
Class TopologicalSort := {
  topological_sort : nat -> list (nat * nat) -> list nat * bool;
  sort_acyclic : forall n es, edges_in n es -> acyclic es ->
    exists vs, topological_sort n es = (vs, false) /\ vs ≡ₚ seq 0 n
      /\ forall u v, (u, v) ∈ es -> before vs v u;
  sort_cyclic : forall n es, edges_in n es -> ~ acyclic es -> (topological_sort n es).2 = true;
}.

Record DependencyManager := Dependencies { nodeCount : nat; edges : list (nat * nat) }.

Definition addDependency (dependency dependant : nat) (d : DependencyManager) : DependencyManager :=
  Dependencies (nodeCount d) (edges d ++ [(dependency, dependant)]).

(** [visitInOrder].  When the sort throws, the name of the function that is recorded is printed
    as a C string from [&__ah_arg_fuzz_ptr[ahArgOffset-256-4]], an index that is an [unsigned
    int]; [print] reads the string at an index of the map of recorded arguments.  The vertices
    that were written so far are visited all the same. *)
Definition visitInOrder `{!TopologicalSort} {S} (print : Z -> res ()) (ahArgOffset : Z) (action : nat -> S -> res S)
    (d : DependencyManager) (s : S) : res S :=
  let '(vertices, thrown) := topological_sort (nodeCount d) (edges d) in
  let! _ := (if thrown then print (u32 (ahArgOffset - 256 - 4)) else Ok ()) in
  each action (reverse vertices) s.

(** The string in a map of which the bytes are known, and behind a pointer into memory *)
Definition print_map (m : list Z) (i : Z) : res () :=
  let! _ := of_option (list_find (fun b => b = 0) (drop (Z.to_nat i) m)) in Ok ().
Definition print_at (h : gmap Z Z) (ah_arg_fuzz_ptr i : Z) : res () :=
  let! _ := string_run (S (size h)) h (ah_arg_fuzz_ptr + i) 0 in Ok ().

(** ** The visit *)

Lemma before_reverse l u v : before l v u -> before (reverse l) u v.
Proof.
  intros (i & j & Hij & Hi & Hj). pose proof (lookup_lt_Some _ _ _ Hi). pose proof (lookup_lt_Some _ _ _ Hj).
  exists (length l - S j)%nat, (length l - S i)%nat. split; [lia|].
  rewrite !reverse_lookup by lia. split; [rewrite <- Hj|rewrite <- Hi]; f_equal; lia.
Qed.

(** For dependencies without cycles, the visit is one of every argument, each behind those
    it depends on. *)
Lemma visitInOrder_acyclic `{!TopologicalSort} {S} print offset (action : nat -> S -> res S) d s :
  edges_in (nodeCount d) (edges d) -> acyclic (edges d) ->
  exists order, visitInOrder print offset action d s = each action order s
    /\ order ≡ₚ seq 0 (nodeCount d) /\ forall u v, (u, v) ∈ edges d -> before order u v.
Proof.
  intros Hin Hac. destruct (sort_acyclic (nodeCount d) (edges d) Hin Hac) as (vs & Hs & Hp & Hb).
  exists (reverse vs). unfold visitInOrder. rewrite Hs. cbn [rbind]. split; [done|].
  split; [by rewrite reverse_Permutation|]. intros u v Huv. by apply before_reverse, Hb.
Qed.

(** ** A sort with this contract *)

Section kahn.
Context (es : list (nat * nat)).

(** Every successor of [u] is in [done]. *)
Definition ready (done : list nat) (u : nat) : bool :=
  forallb (fun '(x, y) => negb (x =? u)%nat || bool_decide (y ∈ done)) es.

Fixpoint kahn (fuel : nat) (todo done : list nat) : list nat * bool :=
  match fuel with
  | O => (done, bool_decide (todo <> []))
  | S fuel =>
      match filter (fun u => ready done u) todo with
      | [] => (done, bool_decide (todo <> []))
      | u :: _ => kahn fuel (filter (fun v => v <> u) todo) (done ++ [u])
      end
  end.

Lemma ready_spec done u : ready done u <-> forall v, (u, v) ∈ es -> v ∈ done.
Proof.
  unfold ready. rewrite Is_true_true, forallb_forall. split.
  - intros H v Hv. specialize (H (u, v) ltac:(by apply list_elem_of_In)).
    apply orb_true_iff in H as [H|H]; [|by apply bool_decide_eq_true in H].
    by rewrite Nat.eqb_refl in H.
  - intros H [x y] Hxy%list_elem_of_In. destruct (Nat.eqb_spec x u) as [->|]; [|done]. simpl.
    by apply bool_decide_eq_true, H.
Qed.

(** What is done comes in the right order, and nothing is lost. *)
Definition sorted (done : list nat) : Prop := forall u v, (u, v) ∈ es -> u ∈ done -> before done v u.

Lemma before_app l k u v : before l u v -> before (l ++ k) u v.
Proof. intros (i & j & Hij & Hi & Hj). exists i, j. split; [done|]. split; by apply lookup_app_l_Some. Qed.

Lemma before_elem l u v : before l u v -> u ∈ l /\ v ∈ l.
Proof. intros (i & j & _ & Hi & Hj). split; by eapply list_elem_of_lookup_2. Qed.

Lemma before_last l u v : u ∈ l -> before (l ++ [v]) u v.
Proof.
  intros [i Hi]%list_elem_of_lookup. exists i, (length l). pose proof (lookup_lt_Some _ _ _ Hi). split; [lia|].
  split; [by apply lookup_app_l_Some|]. by apply list_lookup_middle.
Qed.

Lemma sorted_snoc done u : sorted done -> ready done u -> sorted (done ++ [u]).
Proof.
  intros Hs Hr x y Hxy [Hx|Hx%list_elem_of_singleton]%elem_of_app; [by apply before_app, Hs|]. subst x.
  apply before_last. by eapply ready_spec.
Qed.

Lemma remove_one (todo : list nat) u : NoDup todo -> u ∈ todo -> todo ≡ₚ u :: filter (fun v => v <> u) todo.
Proof.
  intros Hnd Hu. apply elem_of_Permutation in Hu as [k Hk].
  assert (Hu : u ∉ k) by (rewrite Hk in Hnd; by apply NoDup_cons in Hnd as [? _]).
  rewrite Hk, filter_cons, decide_False by auto. f_equiv. symmetry.
  clear -Hu. induction k as [|x k IH]; [done|]. apply not_elem_of_cons in Hu as [? ?].
  rewrite filter_cons, decide_True by done. by rewrite IH.
Qed.

(** The loop, from any point: it ends with everything done or throws; it does not throw if
    the graph has no cycles. *)
Lemma kahn_ok fuel todo done n :
  done ++ todo ≡ₚ seq 0 n -> sorted done -> (length todo <= fuel)%nat ->
  (forall vs, kahn fuel todo done = (vs, false) -> vs ≡ₚ seq 0 n /\ sorted vs)
  /\ (edges_in n es -> acyclic es -> (kahn fuel todo done).2 = false).
Proof.
  revert todo done. induction fuel as [|fuel IH]; intros todo done Hp Hs Hl; cbn [kahn].
  { destruct todo; [|simpl in Hl; lia]. rewrite app_nil_r in Hp. split; [by intros vs [= <-]|done]. }
  destruct (filter _ todo) as [|u rest] eqn:E.
  - split.
    + intros vs [= <- Ht%bool_decide_eq_false%dec_stable]. rewrite Ht, app_nil_r in Hp. done.
    + intros Hin [rank Hr]. cbn. apply bool_decide_eq_false. intros Hne.
      assert (exists u, u ∈ todo /\ forall v, v ∈ todo -> (rank v <= rank u)%nat) as (u & Hu & Hmax).
      { clear -Hne. induction todo as [|x [|y todo] IH]; [done| |].
        - exists x. split; [by left|]. by intros v Hv%list_elem_of_singleton; subst.
        - destruct IH as (u & Hu & Hmax); [done|]. destruct (decide (rank u <= rank x)%nat).
          + exists x. split; [by left|]. intros v [->|Hv]%elem_of_cons; [done|]. specialize (Hmax v Hv). lia.
          + exists u. split; [by right|]. intros v [->|Hv]%elem_of_cons; [lia|auto]. }
      assert (u ∈ filter (fun u => ready done u) todo) as H; [|by rewrite E in H; apply not_elem_of_nil in H].
      apply list_elem_of_filter. split; [|done]. apply ready_spec. intros v Hv.
      destruct (Hin u v Hv) as [_ Hvn]. assert (v ∈ done ++ todo) as Hall by (rewrite Hp; apply elem_of_seq; lia).
      apply elem_of_app in Hall as [?|Ht]; [done|]. specialize (Hmax v Ht). specialize (Hr u v Hv). lia.
  - assert (u ∈ filter (fun u => ready done u) todo) as [Hu Hin]%list_elem_of_filter by (rewrite E; left).
    assert (Hnd : NoDup (done ++ todo)) by (rewrite Hp; apply NoDup_seq).
    apply NoDup_app in Hnd as (_ & _ & Hnd). pose proof (remove_one todo u Hnd Hin) as Hrm.
    apply IH; [|by apply sorted_snoc|].
    + rewrite <- app_assoc. cbn [app]. by rewrite <- Hrm.
    + apply Permutation_length in Hrm. simpl in Hrm. lia.
Qed.
End kahn.

#[export] Program Instance kahn_sort : TopologicalSort := {|
  topological_sort n es := kahn es n (seq 0 n) [] |}.
Next Obligation.
  intros n es Hin Hac. destruct (kahn_ok es n (seq 0 n) [] n) as [H1 H2]; [done| |by rewrite length_seq|].
  { by intros u v _ ?%not_elem_of_nil. }
  specialize (H2 Hin Hac). destruct (kahn es n (seq 0 n) []) as [vs b]. cbn in H2. subst b.
  destruct (H1 vs eq_refl) as [Hp Hs]. exists vs. split_and!; [done..|]. intros u v Huv. apply Hs; [done|].
  rewrite Hp. apply elem_of_seq. specialize (Hin u v Huv). lia.
Qed.
Next Obligation.
  intros n es Hin Hac. destruct (kahn_ok es n (seq 0 n) [] n) as [H1 _]; [done| |by rewrite length_seq|].
  { by intros u v _ ?%not_elem_of_nil. }
  destruct (kahn es n (seq 0 n) []) as [vs []]; [done|]. destruct (H1 vs eq_refl) as [Hp Hs].
  destruct Hac. assert (Hnd : NoDup vs) by (rewrite Hp; apply NoDup_seq).
  (* the rank of a vertex is its distance from the end *)
  exists (fun u => (length vs - from_option fst 0 (list_find (eq u) vs))%nat). intros u v Huv.
  assert (u ∈ vs) as Hu by (rewrite Hp; apply elem_of_seq; specialize (Hin u v Huv); lia).
  destruct (Hs u v Huv Hu) as (i & j & Hij & Hi & Hj).
  assert (Hfind : forall w k, vs !! k = Some w -> list_find (eq w) vs = Some (k, w)).
  { intros w k Hk. apply list_find_Some. split_and!; [done..|]. intros j' y Hy Hlt ->.
    pose proof (NoDup_lookup vs k j' y Hnd Hk Hy). lia. }
  rewrite (Hfind u j Hj), (Hfind v i Hi). cbn. pose proof (lookup_lt_Some _ _ _ Hj). lia.
Qed.
