(* ===== verification/ArgMap.v ===== *)
(** * Recorded arguments as seeds (src/libgen/src/main.cc, src/aflplusplus/src/afl-fuzz-init.c)

    The instrumented program writes the arguments it records into a shared map, one entry
    per function: a name of 256 bytes, a 32-bit length, the serialized arguments
    ([gen_values]).  The fuzzer walks that map to find the seed of each target
    ([get_seeds_from_runtime]).  The two sides share nothing but the layout; this file
    models both and proves that they agree on it. *)
From S2P Require Import Prelude NumText Alias Names Libgen LibgenTheorems.

Definition MAX_TARGETS : nat := 256.
Definition MAX_TARGETNAME_LENGTH : nat := 256.

(** ** The recording side: [gen_values] *)

(** Bytes stored at a position, which must be inside the buffer. *)
Definition put (off : Z) (bs : list Z) (b : list Z) : res (list Z) :=
  if (0 <=? off) && (off + Z.of_nat (length bs) <=? Z.of_nat (length b)) then
    Ok (take (Z.to_nat off) b ++ bs ++ drop (Z.to_nat off + length bs) b)
  else UB.

(** [memset(..., 0, 256); strncpy(..., fnName, 255);] *)
Definition name_field (fnName : list Z) : list Z :=
  let n := take 255 (c_string fnName) in n ++ replicate (256 - length n) 0.

(** One recorded call; [serialize] is the visit of the arguments in dependency order. *)
Definition record_call (fnName : list Z) (serialize : rec -> res rec) (r : rec) : res rec :=
  let! b := put (r_off r) (name_field fnName) (r_buf r) in
  let previousAhArgOffset := u32 (r_off r + 256) in
  let! r := serialize (Rec b (u32 (previousAhArgOffset + 4)) false) in
  if r_failed r then
    let off := u32 (previousAhArgOffset - 256) in
    let! b := put off (replicate 256 0) (r_buf r) in Ok (Rec b off true)
  else
    let! b := put previousAhArgOffset (word_le 4 (r_off r - (previousAhArgOffset + 4))) (r_buf r) in
    Ok (Rec b (r_off r) false).

(** The arguments, visited in the order the dependencies give. *)
Definition serialize_args (files : list Z -> option (list Z)) (fuel : nat) (ts : list type_desc)
    (h : gmap Z Z) (order : list (nat * Z * list constraint)) : rec -> res rec :=
  each (fun '(t, a, cs) r => serializeToBuffer files fuel ts h t a cs r) order.

(** ** The fuzzer's side: [get_targets], [get_seeds_from_runtime] *)

(** Names of the type information that are not blacklisted, at most MAX_TARGETS. *)
Fixpoint get_targets (blacklist : option (list Z)) (names : list (list Z)) (n : nat) : list (list Z) :=
  match names with
  | [] => []
  | t :: names =>
      match n with
      | O => []
      | S n' =>
          if match blacklist with Some b => contains b ([58] ++ t ++ [58]) | None => false end
          then get_targets blacklist names n
          else t :: get_targets blacklist names n'
      end
  end.

(** [*(u32* )(entry + MAX_TARGETNAME_LENGTH)] *)
Definition entry_len (m : list Z) (entry : nat) : res Z :=
  if decide (entry + 260 <= length m)%nat
  then Ok (le_word (take 4 (drop (entry + 256) m))) else UB.

(** The entry of a target: its data. *)
Fixpoint find_entry (n : nat) (m : list Z) (entry : nat) (name : list Z) : res (option (list Z)) :=
  match n with
  | O => Ok None
  | S n =>
      let! len := entry_len m entry in
      if strncmp_eq MAX_TARGETNAME_LENGTH (drop entry m) name
      then
        if decide (entry + 260 + Z.to_nat len <= length m)%nat
        then Ok (Some (take (Z.to_nat len) (drop (entry + 260) m))) else UB
      else find_entry n m (entry + 260 + Z.to_nat len) name
  end.

(** The first function whose arguments were not written when the program crashed. *)
Fixpoint blame (n : nat) (m : list Z) (entry : nat) : res (option (list Z)) :=
  match n with
  | O => Ok None
  | S n =>
      let! len := entry_len m entry in
      if len =? 0 then Ok (Some (c_string (drop entry m)))
      else blame n m (entry + 260 + Z.to_nat len)
  end.

Inductive run_result := RUN_OK | RUN_TMOUT | RUN_CRASH | RUN_NOBITS.
#[export] Instance run_result_eq_dec : EqDecision run_result.
Proof. solve_decision. Defined.

(** One execution of the program under a blacklist: its verdict and the map it leaves. *)
Definition runner := list Z -> run_result * list Z.

(** The loop that blacklists the culprits of crashes; the number of targets goes down
    with each. *)
Fixpoint record_runs (fuel : nat) (run : runner) (blacklist : list Z) (amountOfTargets : nat)
  : res (run_result * list Z * nat) :=
  match fuel with
  | O => NoFuel
  | S fuel =>
      let '(r, m) := run blacklist in
      if decide (r = RUN_CRASH) then
        let! culprit := blame amountOfTargets m 0 in
        match culprit with
        | None => Ok (r, m, amountOfTargets)
        | Some name => record_runs fuel run (blacklist ++ [58] ++ name ++ [58]) (amountOfTargets - 1)%nat
        end
      else Ok (r, m, amountOfTargets)
  end.

(** The seeds added to the queue: name, bytes, index of the target.  [None] is
    [atLeastOneTarget == false]. *)
Fixpoint seeds (names all : list (list Z)) (n : nat) (m : list Z) : res (list (list Z * list Z * Z) * bool) :=
  match names with
  | [] => Ok ([], false)
  | t :: names =>
      let! e := find_entry n m 0 t in
      let! (l, found) := seeds names all n m in
      match e with
      | None => Ok (l, found)
      | Some [] => Ok (l, true)
      | Some d => Ok ((t, d, getTargetIdx all t 0) :: l, true)
      end
  end.

(** [FATAL] is [Aborted]. *)
Definition get_seeds_from_runtime (run : runner) (blacklist : list Z) (targetNames : list (list Z))
  : res (list (list Z * list Z * Z)) :=
  let! (r, m, n) := record_runs (S (length targetNames)) run blacklist (length targetNames) in
  match r with
  | RUN_TMOUT | RUN_CRASH => Aborted
  | _ =>
      let names := take n targetNames in
      let! (l, atLeastOneTarget) := seeds names names n m in
      if (atLeastOneTarget : bool) then Ok l else Aborted
  end.

(** ** The layout both sides agree on *)

Definition entry_bytes (name data : list Z) : list Z :=
  name_field name ++ word_le 4 (Z.of_nat (length data)) ++ data.

(** Names the map can tell apart: C strings that fit the field. *)
Definition name_ok (name : list Z) : Prop := (length name <= 255)%nat /\ Forall (fun c => c <> 0) name.

Lemma c_string_id l : Forall (fun c => c <> 0) l -> c_string l = l.
Proof.
  induction 1 as [|c l Hc _ IH]; simpl; [done|]. rewrite (proj2 (Z.eqb_neq c 0) Hc). by rewrite IH.
Qed.

Lemma name_field_eq name : name_ok name -> name_field name = name ++ replicate (256 - length name) 0.
Proof. intros [Hl Hn]. unfold name_field. by rewrite c_string_id, take_ge. Qed.

Lemma length_name_field name : length (name_field name) = 256%nat.
Proof. unfold name_field. rewrite length_app, length_replicate, length_take. lia. Qed.

Lemma length_entry name data : length (entry_bytes name data) = (260 + length data)%nat.
Proof. unfold entry_bytes. rewrite !length_app, length_name_field, length_word_le by lia. lia. Qed.

Lemma strncmp_field n a b z rest :
  Forall (fun c => c <> 0) a -> Forall (fun c => c <> 0) b -> (length a < n)%nat ->
  strncmp_eq n (a ++ replicate (S z) 0 ++ rest) b = bool_decide (a = b).
Proof.
  revert a b. induction n as [|n IH]; intros a b Ha Hb Hl; [lia|]. simpl.
  destruct Ha as [|x a Hx Ha], Hb as [|y b Hy Hb]; simpl in *.
  - done.
  - by destruct y.
  - by destruct x.
  - destruct (Z.eqb_spec x y) as [->|Hne].
    + rewrite (proj2 (Z.eqb_neq y 0)) by done. rewrite IH by (done || lia).
      apply bool_decide_ext. naive_solver.
    + symmetry. apply bool_decide_eq_false. congruence.
Qed.

Lemma strncmp_name a b rest :
  name_ok a -> name_ok b ->
  strncmp_eq MAX_TARGETNAME_LENGTH (name_field a ++ rest) b = bool_decide (a = b).
Proof.
  intros Ha Hb. rewrite (name_field_eq a Ha), <- app_assoc. destruct Ha as [Hl Ha], Hb as [_ Hb].
  replace (256 - length a)%nat with (S (255 - length a)) by lia.
  apply strncmp_field; [done|done|]. unfold MAX_TARGETNAME_LENGTH. lia.
Qed.

Lemma entry_here pre name data rest :
  Z.of_nat (length data) < 2 ^ 32 ->
  let m := pre ++ entry_bytes name data ++ rest in
  entry_len m (length pre) = Ok (Z.of_nat (length data))
  /\ drop (length pre) m = name_field name ++ (word_le 4 (Z.of_nat (length data)) ++ data) ++ rest
  /\ drop (length pre + 260) m = data ++ rest
  /\ (length pre + 260 + length data <= length m)%nat.
Proof.
  intros Hd m. pose proof (length_name_field name) as Hn. pose proof (length_word_le 4 (Z.of_nat (length data)) ltac:(lia)) as Hw.
  assert (H0 : drop (length pre) m = name_field name ++ (word_le 4 (Z.of_nat (length data)) ++ data) ++ rest)
    by (unfold m, entry_bytes; rewrite drop_app_length, <- app_assoc; done).
  assert (H1 : drop (length pre + 256) m = word_le 4 (Z.of_nat (length data)) ++ data ++ rest)
    by (rewrite <- drop_drop, H0, drop_app_length', <- app_assoc by done; done).
  assert (Hlm : length m = (length pre + (260 + length data) + length rest)%nat)
    by (unfold m; rewrite !length_app, length_entry; lia).
  split; [|split; [done|split; [|lia]]].
  - unfold entry_len. rewrite decide_True by lia. rewrite H1, take_app_length' by (rewrite Hw; done).
    by rewrite le_word_word_le by lia.
  - replace (length pre + 260)%nat with ((length pre + 256) + 4)%nat by lia.
    rewrite <- drop_drop, H1, drop_app_length' by (rewrite Hw; done). done.
Qed.

(** The walk over the entries finds the first with the name. *)
Lemma find_entry_spec n es pre rest name :
  Forall (fun '(a, d) => name_ok a /\ Z.of_nat (length d) < 2 ^ 32) es -> name_ok name ->
  (length es <= n)%nat ->
  forall d, list_find (fun e => e.1 = name) es = Some d ->
  find_entry n (pre ++ mjoin (map (fun '(a, d) => entry_bytes a d) es) ++ rest) (length pre) name = Ok (Some d.2.2).
Proof.
  revert n pre. induction es as [|[a d] es IH]; intros n pre Hes Hname Hn r Hr; [done|].
  apply Forall_cons in Hes as [[Ha Hd] Hes]. destruct n as [|n]; [simpl in Hn; lia|].
  change (mjoin (map (fun '(a, d) => entry_bytes a d) ((a, d) :: es)))
    with (entry_bytes a d ++ mjoin (map (fun '(a, d) => entry_bytes a d) es)).
  rewrite <- app_assoc. set (rest' := mjoin _ ++ rest).
  destruct (entry_here pre a d rest' Hd) as (E1 & E2 & E3 & E4). cbn [find_entry]. rewrite E1. cbn [rbind].
  rewrite E2, strncmp_name by done. rewrite Nat2Z.id. simpl in Hr. case_decide as Hc.
  - simplify_eq/=. rewrite bool_decide_true by done. rewrite decide_True by lia.
    by rewrite E3, take_app_length.
  - rewrite bool_decide_false by done. apply fmap_Some in Hr as ([i x] & Hr & ->). simpl.
    specialize (IH n (pre ++ entry_bytes a d) Hes Hname ltac:(simpl in Hn; lia) (i, x) Hr).
    rewrite length_app, length_entry, <- app_assoc in IH.
    by replace (length pre + (260 + length d))%nat with (length pre + 260 + length d)%nat in IH by lia.
Qed.

(** ** Recording *)

(** What the visit of the arguments does: it appends bytes, or gives up. *)
Definition appends (serialize : rec -> res rec) (bs : list Z) : Prop := forall r,
  room (length bs) r -> exists r', serialize r = Ok r' /\ wrote bs r r'.
Definition gives_up (serialize : rec -> res rec) (n : nat) : Prop := forall r,
  room n r -> exists r', serialize r = Ok r' /\ r_failed r' = true
    /\ length (r_buf r') = length (r_buf r)
    /\ take (Z.to_nat (r_off r)) (r_buf r') = take (Z.to_nat (r_off r)) (r_buf r).

Lemma put_ok off bs b :
  0 <= off -> off + Z.of_nat (length bs) <= Z.of_nat (length b) ->
  exists b', put off bs b = Ok b' /\ length b' = length b
    /\ take (Z.to_nat off) b' = take (Z.to_nat off) b
    /\ take (Z.to_nat off + length bs) b' = take (Z.to_nat off) b ++ bs
    /\ drop (Z.to_nat off + length bs) b' = drop (Z.to_nat off + length bs) b.
Proof.
  intros Ho Hl. unfold put. rewrite (proj2 (Z.leb_le _ _) Ho), (proj2 (Z.leb_le _ _) Hl). cbn [andb].
  assert (Hlt : length (take (Z.to_nat off) b) = Z.to_nat off) by (rewrite length_take; lia).
  eexists. split; [done|]. split; [|split; [|split]].
  - rewrite !length_app, length_drop, Hlt. lia.
  - by rewrite take_app_length'.
  - rewrite app_assoc, take_app_length' by (rewrite length_app, Hlt; done). done.
  - rewrite app_assoc, drop_app_length' by (rewrite length_app, Hlt; done). done.
Qed.

Lemma take_take_eq {A} (n m : nat) (b b' : list A) :
  (n <= m)%nat -> take m b' = take m b -> take n b' = take n b.
Proof.
  intros H E. apply (f_equal (take n)) in E. by rewrite !take_take, Nat.min_l in E.
Qed.

Lemma record_call_ok name serialize data r :
  appends serialize data -> room (260 + length data) r ->
  exists r', record_call name serialize r = Ok r' /\ r_failed r' = false
    /\ r_off r' = r_off r + Z.of_nat (length (entry_bytes name data))
    /\ length (r_buf r') = length (r_buf r)
    /\ take (Z.to_nat (r_off r')) (r_buf r') = take (Z.to_nat (r_off r)) (r_buf r) ++ entry_bytes name data.
Proof.
  intros Hs [Ho Hr]. unfold record_call. pose proof (length_name_field name) as Hn.
  destruct (put_ok (r_off r) (name_field name) (r_buf r)) as (b1 & -> & L1 & _ & T1 & _); [lia|lia|]. cbn [rbind].
  replace (u32 (r_off r + 256)) with (r_off r + 256) by (unfold u32; rewrite Z.mod_small; lia).
  replace (u32 (r_off r + 256 + 4)) with (r_off r + 260) by (unfold u32; rewrite Z.mod_small; lia).
  destruct (Hs (Rec b1 (r_off r + 260) false)) as (r2 & -> & [W2 O2 L2 F2]); [unfold room; simpl; lia|].
  simpl in O2, L2, F2, W2. cbn [rbind]. rewrite F2.
  set (len := r_off r2 - (r_off r + 256 + 4)). pose proof (length_word_le 4 len ltac:(lia)) as Hw.
  destruct (put_ok (r_off r + 256) (word_le 4 len) (r_buf r2)) as (b3 & -> & L3 & _ & T3 & D3); [lia|rewrite Hw; lia|].
  cbn [rbind]. eexists. split; [done|]. simpl. split; [done|].
  rewrite length_entry. split; [lia|]. split; [lia|].
  rewrite Hw in T3, D3. change (Z.to_nat 4) with 4%nat in T3, D3.
  rewrite <- (take_drop (Z.to_nat (r_off r + 256) + 4) b3), T3, D3.
  set (o := Z.to_nat (r_off r)) in *.
  replace (Z.to_nat (r_off r + 256)) with (o + 256)%nat by lia.
  replace (Z.to_nat (r_off r + 260)) with (o + 260)%nat in W2 by lia.
  replace (Z.to_nat (r_off r2)) with (o + 260 + length data)%nat in * by lia.
  rewrite Hn in T1.
  assert (T2 : take (o + 260) (r_buf r2) = take (o + 260) b1).
  { pose proof (f_equal (take (o + 260)) W2) as E. rewrite take_take, Nat.min_l in E by lia.
    rewrite E, take_app_length' by (rewrite length_take; lia). done. }
  assert (T4 : take (o + 256) (r_buf r2) = take o (r_buf r) ++ name_field name)
    by (rewrite <- T1; eapply take_take_eq; [|exact T2]; lia).
  assert (D2 : take (length data) (drop (o + 256 + 4) (r_buf r2)) = data).
  { replace (o + 256 + 4)%nat with (o + 260)%nat by lia. rewrite take_drop_commute.
    replace (o + 260 + length data)%nat with (o + 260 + length data)%nat by lia. rewrite W2.
    apply drop_app_length'. rewrite length_take. lia. }
  rewrite T4. unfold entry_bytes.
  replace (Z.of_nat (length data)) with len by (unfold len; lia).
  rewrite <- !app_assoc.
  assert (Hto : length (take o (r_buf r)) = o) by (rewrite length_take; lia).
  rewrite take_app_ge by lia. f_equal. rewrite Hto.
  rewrite take_app_ge by lia. f_equal. rewrite Hn.
  rewrite take_app_ge by (rewrite Hw; lia). f_equal. rewrite Hw.
  rewrite <- D2 at 2. f_equal. lia.
Qed.

Lemma record_call_fails name serialize n r :
  gives_up serialize n -> room (260 + n) r ->
  exists r', record_call name serialize r = Ok r' /\ r_failed r' = true /\ r_off r' = r_off r
    /\ length (r_buf r') = length (r_buf r)
    /\ take (Z.to_nat (r_off r)) (r_buf r') = take (Z.to_nat (r_off r)) (r_buf r).
Proof.
  intros Hs [Ho Hr]. unfold record_call. pose proof (length_name_field name) as Hn.
  destruct (put_ok (r_off r) (name_field name) (r_buf r)) as (b1 & -> & L1 & T0 & T1 & _); [lia|lia|]. cbn [rbind].
  replace (u32 (r_off r + 256)) with (r_off r + 256) by (unfold u32; rewrite Z.mod_small; lia).
  replace (u32 (r_off r + 256 + 4)) with (r_off r + 260) by (unfold u32; rewrite Z.mod_small; lia).
  destruct (Hs (Rec b1 (r_off r + 260) false)) as (r2 & -> & F2 & L2 & T2); [unfold room; simpl; lia|].
  simpl in L2, T2. cbn [rbind]. rewrite F2.
  replace (u32 (r_off r + 256 - 256)) with (r_off r) by (unfold u32; rewrite Z.mod_small; lia).
  destruct (put_ok (r_off r) (replicate 256 0) (r_buf r2)) as (b3 & -> & L3 & T3 & _);
    [lia|rewrite length_replicate; lia|].
  cbn [rbind]. eexists. split; [done|]. simpl. split; [done|]. split; [done|]. split; [lia|].
  rewrite T3, <- T0. eapply take_take_eq; [|exact T2]. lia.
Qed.

(** A run of the program: the recorded functions in the order they are first called, each
    with the bytes its arguments serialize to, or the space an attempt takes that fails. *)
Record call := Call { c_name : list Z; c_serialize : rec -> res rec; c_result : list Z + nat }.

Definition call_ok (c : call) : Prop :=
  name_ok (c_name c) /\
  match c_result c with inl d => appends (c_serialize c) d | inr n => gives_up (c_serialize c) n end.

Definition call_size (c : call) : nat := 260 + match c_result c with inl d => length d | inr n => n end.
Definition total (cs : list call) : nat := sum_list (map call_size cs).

Lemma total_cons c cs : total (c :: cs) = (call_size c + total cs)%nat.
Proof. done. Qed.

Definition record_calls (cs : list call) (r : rec) : res rec :=
  each (fun c r => record_call (c_name c) (c_serialize c) r) cs r.

(** The entries of the calls that succeeded. *)
Definition successes (cs : list call) : list (list Z * list Z) :=
  omap (fun c => match c_result c with inl d => Some (c_name c, d) | inr _ => None end) cs.

Lemma successes_cons c cs :
  successes (c :: cs) = match c_result c with inl d => (c_name c, d) :: successes cs | inr _ => successes cs end.
Proof. unfold successes. simpl. by destruct (c_result c). Qed.

Lemma record_calls_ok cs r :
  Forall call_ok cs -> room (total cs) r ->
  exists r', record_calls cs r = Ok r' /\ length (r_buf r') = length (r_buf r) /\ 0 <= r_off r'
    /\ take (Z.to_nat (r_off r')) (r_buf r')
       = take (Z.to_nat (r_off r)) (r_buf r) ++ mjoin (map (fun '(a, d) => entry_bytes a d) (successes cs)).
Proof.
  revert r. induction cs as [|c cs IH]; intros r Hcs Hr.
  { exists r. split; [done|]. split; [done|]. split; [apply Hr|]. simpl. by rewrite app_nil_r. }
  apply Forall_cons in Hcs as [[Hn Hc] Hcs]. rewrite total_cons in Hr.
  unfold call_size in Hr. unfold record_calls. cbn [each].
  destruct c as [name ser [d|n]]; cbn [c_name c_serialize c_result] in *.
  - destruct (record_call_ok name ser d r Hc) as (r1 & -> & _ & O1 & L1 & T1); [unfold room in *; lia|].
    rewrite length_entry in O1. cbn [rbind].
    destruct (IH r1 Hcs) as (r2 & E2 & L2 & O2 & T2); [unfold room in *; lia|].
    exists r2. split; [exact E2|]. split; [lia|]. split; [done|]. by rewrite T2, T1, <- app_assoc.
  - destruct (record_call_fails name ser n r Hc) as (r1 & -> & _ & O1 & L1 & T1); [unfold room in *; lia|].
    cbn [rbind]. destruct (IH r1 Hcs) as (r2 & E2 & L2 & O2 & T2); [unfold room in *; lia|].
    exists r2. split; [exact E2|]. split; [lia|]. split; [done|]. by rewrite T2, O1, T1.
Qed.

Lemma successes_find cs c d :
  NoDup (map c_name cs) -> c ∈ cs -> c_result c = inl d ->
  exists i, list_find (fun e => e.1 = c_name c) (successes cs) = Some (i, (c_name c, d)).
Proof.
  induction cs as [|c' cs IH]; intros Hnd Hin Hr; [by apply not_elem_of_nil in Hin|].
  apply NoDup_cons in Hnd as [Hni Hnd]. apply elem_of_cons in Hin as [->|Hin].
  - rewrite successes_cons, Hr. simpl. rewrite decide_True by done. by eexists.
  - destruct (IH Hnd Hin Hr) as [i Hi].
    assert (Hne : c_name c' <> c_name c) by (intros E; apply Hni; rewrite E; by apply list_elem_of_fmap_2).
    rewrite successes_cons. destruct (c_result c') as [d'|n]; [|by exists i].
    simpl. rewrite decide_False by done. rewrite Hi. by eexists.
Qed.

Lemma successes_ok cs :
  Forall call_ok cs -> Z.of_nat (total cs) < 2 ^ 32 ->
  Forall (fun '(a, d) => name_ok a /\ Z.of_nat (length d) < 2 ^ 32) (successes cs)
  /\ (length (successes cs) <= length cs)%nat.
Proof.
  induction 1 as [|c cs [Hn Hc] _ IH]; intros Ht; [done|]. rewrite total_cons in Ht. unfold call_size in Ht.
  destruct IH as [H1 H2]; [lia|]. rewrite successes_cons. cbn [length].
  destruct (c_result c) as [d|n]; [|split; [done|lia]]. split; [|simpl; lia].
  constructor; [|done]. split; [done|lia].
Qed.

Lemma seed_found cs c d size n :
  Forall call_ok cs -> NoDup (map c_name cs) -> c ∈ cs -> c_result c = inl d ->
  (total cs <= size)%nat -> Z.of_nat (total cs) < 2 ^ 32 -> (length cs <= n)%nat ->
  exists r, record_calls cs (Rec (replicate size 0) 0 false) = Ok r
    /\ find_entry n (r_buf r) 0 (c_name c) = Ok (Some d).
Proof.
  intros Hcs Hnd Hin Hd Hsize Hlt Hn.
  destruct (record_calls_ok cs (Rec (replicate size 0) 0 false) Hcs) as (r & E & L & O & T).
  { unfold room. simpl. rewrite length_replicate. lia. }
  exists r. split; [done|]. simpl in T.
  destruct (successes_find cs c d Hnd Hin Hd) as [i Hi].
  destruct (successes_ok cs Hcs ltac:(lia)) as [Hes Hle].
  rewrite <- (take_drop (Z.to_nat (r_off r)) (r_buf r)), T.
  exact (find_entry_spec n (successes cs) [] (drop (Z.to_nat (r_off r)) (r_buf r)) (c_name c) Hes
    ltac:(rewrite Forall_forall in Hcs; apply (Hcs c Hin)) ltac:(lia) _ Hi).
Qed.

(** The fuzzer finds what the program recorded.  After any run that records distinct
    functions into an empty map large enough, some of them failing half way, walking the
    map for the name of a function that succeeded returns exactly its serialized arguments. *)
Theorem recorded_seed_found cs c d size n :
  Forall call_ok cs -> NoDup (map c_name cs) -> c ∈ cs -> c_result c = inl d ->
  (total cs <= size)%nat -> Z.of_nat (total cs) < 2 ^ 32 -> (length cs <= n)%nat ->
  exists r, record_calls cs (Rec (replicate size 0) 0 false) = Ok r
    /\ find_entry n (r_buf r) 0 (c_name c) = Ok (Some d).
Proof. intros. by apply seed_found. Qed.

(** Two functions, "f" with an integer argument and "g" whose file cannot be opened. *)
Definition sample_calls : list call :=
  [Call [103] (fun r => Ok (Rec (r_buf r) (r_off r) true)) (inr 0%nat);
   Call [102] (rec_write [1; 0; 0; 0]) (inl [1; 0; 0; 0])].

Lemma recorded_seed_found_witness :
  exists r, record_calls sample_calls (Rec (replicate 600 0) 0 false) = Ok r
    /\ find_entry 2 (r_buf r) 0 [102] = Ok (Some [1; 0; 0; 0]).
Proof.
  apply (recorded_seed_found sample_calls (Call [102] (rec_write [1; 0; 0; 0]) (inl [1; 0; 0; 0])) [1; 0; 0; 0] 600 2).
  - apply Forall_cons. split; [|apply Forall_cons; split; [|apply Forall_nil_2]].
    + split; [split; [simpl; lia|by apply Forall_singleton]|]. intros r Hr. eexists. by split.
    + split; [split; [simpl; lia|by apply Forall_singleton]|]. intros r Hr. by apply rec_write_ok.
  - simpl. apply NoDup_cons. split; [set_solver|]. apply NoDup_singleton.
  - right. left.
  - reflexivity.
  - apply Nat.leb_le. vm_compute. reflexivity.
  - vm_compute. reflexivity.
  - simpl. lia.
Defined.

(** ** From the arguments of one run to the arguments of the next *)

(** Arguments the recorder can see are appended, one behind the other. *)
Lemma serialize_args_appends files ts h fuel (args : list (nat * Z * val)) :
  Forall (fun '(t, a, v) => fits ts t a v /\ recorded ts h t a v /\ (depth v + S (length ts) <= fuel)%nat) args ->
  appends (serialize_args files fuel ts h (map (fun '(t, a, _) => (t, a, [])) args))
    (mjoin (map (fun '(_, _, v) => encode v) args)).
Proof.
  induction args as [|[[t a] v] args IH]; intros Hargs r Hr.
  { exists r. split; [done|apply wrote_nil]. }
  apply Forall_cons in Hargs as [(Hf & Hc & Hd) Hargs].
  change (mjoin (map _ ((t, a, v) :: args))) with (encode v ++ mjoin (map (fun '(_, _, v) => encode v) args)) in *.
  rewrite length_app in Hr. unfold serialize_args. cbn [map each].
  destruct (records_val ts files h v fuel Hd t a r Hf Hc) as (r1 & -> & W1); [unfold room in *; lia|]. cbn [rbind].
  destruct (IH Hargs r1) as (r2 & E2 & W2); [eapply wrote_room; [exact W1|exact Hr|lia]|].
  exists r2. split; [exact E2|]. by eapply wrote_app.
Qed.

(** An argument survives the whole way: recorded by the program among other functions,
    found in the map by the fuzzer under the function's name, and handed back as the test
    case, it is rebuilt in the next run, up to the upper halves of 64-bit numbers. *)
Theorem argument_survives cs name files ts h fuel t a v size n junk avail filein s a' k :
  Forall call_ok cs -> name_ok name -> NoDup (map c_name cs) ->
  fits ts t a v -> recorded ts h t a v -> (depth v + S (length ts) <= fuel)%nat ->
  Call name (serialize_args files fuel ts h [(t, a, [])]) (inl (encode v)) ∈ cs ->
  (total cs <= size)%nat -> Z.of_nat (total cs) < 2 ^ 32 -> (length cs <= n)%nat ->
  size_ok ts t k -> Z.even (a' - a) = true -> (forall n, avail n = true) ->
  g_off s = 0 -> 0 <= a' -> a' + k <= brk (g_heap s) -> mapped (cells (g_heap s)) a' k ->
  brk (g_heap s) mod 16 = 0 -> brk (g_heap s) + need ts t v < 2 ^ 63 ->
  exists r testcase s',
    record_calls cs (Rec (replicate size 0) 0 false) = Ok r
    /\ find_entry n (r_buf r) 0 name = Ok (Some testcase)
    /\ populateFromBuffer junk avail filein fuel ts testcase t a' [] s = Ok s'
    /\ rep ts (cells (g_heap s')) (brk (g_heap s)) (brk (g_heap s')) t a' (rebuilt ts t v).
Proof.
  intros Hcs Hname Hnd Hf Hc Hd Hin Hsz Hlt Hn Hk Hev Hav Ho Ha Hbrk Hm H16 Hneed.
  destruct (seed_found cs _ (encode v) size n Hcs Hnd Hin eq_refl Hsz Hlt Hn) as (r & E & F).
  assert (Hlen : Z.of_nat (length (encode v)) < 2 ^ 32).
  { destruct (successes_ok cs Hcs ltac:(lia)) as [Hes _].
    destruct (successes_find cs _ (encode v) Hnd Hin eq_refl) as [i [Hi _]%list_find_Some].
    rewrite Forall_lookup in Hes. apply (Hes i _ Hi). }
  assert (Hf' : fits ts t a' v) by (replace a' with (a + (a' - a)) by lia; by apply fits_shift).
  destruct (builds_val ts junk avail filein (encode v) Hav Hlen v fuel Hd t a' k s)
    as (s' & E' & [_ _ _ _ Hrep]); [done|done|split; [lia|done|done|lia]|done| |].
  { exists []. by rewrite Ho, app_nil_r. }
  exists r, (encode v), s'. done.
Qed.

Lemma argument_survives_witness :
  let c := Call [102] (serialize_args (fun _ => None) 10 sample_types sample_source [(3%nat, 64, [])])
             (inl (encode sample_value)) in
  exists r testcase s',
    record_calls [c] (Rec (replicate 600 0) 0 false) = Ok r
    /\ find_entry 1 (r_buf r) 0 [102] = Ok (Some testcase)
    /\ populateFromBuffer 170 (fun _ => true) [] 10 sample_types testcase 3 16 [] sample_gen = Ok s'
    /\ rep sample_types (cells (g_heap s')) (brk (g_heap sample_gen)) (brk (g_heap s')) 3 16 (rebuilt sample_types 3 sample_value).
Proof.
  intros c.
  apply (argument_survives [c] [102] (fun _ => None) sample_types sample_source 10 3 64 sample_value 600 1
    170 (fun _ => true) [] sample_gen 16 16).
  - apply Forall_singleton. split; [split; [simpl; lia|by apply Forall_singleton]|].
    pose proof (serialize_args_appends (fun _ => None) sample_types sample_source 10 [(3%nat, 64, sample_value)]) as H.
    change (mjoin (map _ [(3%nat, 64, sample_value)])) with (encode sample_value ++ []) in H.
    rewrite app_nil_r in H. apply H.
    apply Forall_singleton. split; [exact sample_fits|]. split; [exact sample_recorded|]. simpl. lia.
  - split; [simpl; lia|by apply Forall_singleton].
  - apply NoDup_singleton.
  - exact sample_fits.
  - exact sample_recorded.
  - simpl. lia.
  - left.
  - apply Nat.leb_le. vm_compute. reflexivity.
  - vm_compute. reflexivity.
  - simpl. lia.
  - done.
  - reflexivity.
  - reflexivity.
  - reflexivity.
  - lia.
  - simpl. lia.
  - intros x Hx. change (is_Some (alloc_cells 16 (replicate 16 170) (∅ : gmap Z Z) !! x)).
    eapply load_mapped; [apply alloc_ok|]. rewrite length_replicate. lia.
  - reflexivity.
  - vm_compute. reflexivity.
Defined.

(** ** Crashes during the recording *)

Lemma record_runs_fuel run fuel : forall bl n, (n < fuel)%nat -> record_runs fuel run bl n <> NoFuel.
Proof.
  assert (Hb : forall n m entry, blame n m entry <> NoFuel).
  { induction n as [|n IH]; intros m entry; cbn [blame]; [discriminate|]. unfold entry_len.
    case_decide; [|discriminate]. cbn [rbind]. destruct (_ =? 0); [discriminate|]. apply IH. }
  induction fuel as [|fuel IH]; intros bl n Hn; [lia|]. cbn [record_runs]. destruct (run bl) as [r m].
  case_decide as Hcr; [|discriminate]. destruct n as [|n]; [discriminate|]. pose proof (Hb (S n) m 0%nat) as H.
  destruct (blame (S n) m 0) as [[name|]| | |]; cbn [rbind]; try discriminate; [|done]. apply IH. lia.
Qed.

Lemma seeds_fuel names all n m : seeds names all n m <> NoFuel.
Proof.
  assert (Hf : forall n m entry name, find_entry n m entry name <> NoFuel).
  { clear. induction n as [|n IH]; intros m entry name; cbn [find_entry]; [discriminate|]. unfold entry_len.
    case_decide; [|discriminate]. cbn [rbind].
    destruct (strncmp_eq _ _ _); [case_decide; discriminate|]. apply IH. }
  induction names as [|t names IH]; cbn [seeds]; [discriminate|]. specialize (Hf n m 0%nat t).
  destruct (find_entry n m 0 t) as [e| | |]; cbn [rbind]; try discriminate; [|done].
  destruct (seeds names all n m) as [[l found]| | |]; cbn [rbind]; try discriminate; [|done].
  by destruct e as [[|]|].
Qed.

(** The recording loop ends: every crash takes one target off the count, so one run
    more than there are targets is the most it can take. *)
Theorem recording_terminates run blacklist names : get_seeds_from_runtime run blacklist names <> NoFuel.
Proof.
  unfold get_seeds_from_runtime.
  pose proof (record_runs_fuel run (S (length names)) blacklist (length names) ltac:(lia)) as H.
  destruct (record_runs _ run blacklist (length names)) as [[[r m] n]| | |]; try done. simpl.
  destruct r; try done; (pose proof (seeds_fuel (take n names) (take n names) n m) as Hs;
    destruct (seeds _ _ n m) as [[l [|]]| | |]; done).
Qed.

(** A program in which recording the arguments of "a" crashes, and those of "b" are recorded
    when "a" is blacklisted. *)
Definition crashing_run : runner := fun blacklist =>
  if contains blacklist [97]
  then (RUN_OK, entry_bytes [98] [7; 0; 0; 0] ++ replicate 260 0)
  else (RUN_CRASH, entry_bytes [97] [] ++ replicate 260 0).

(** Blacklisting loses the wrong target.  The count of targets goes down but the names
    stay, so the last target is given up and the blacklisted one kept: with targets "a" and
    "b", a crash in "a" makes the fuzzer stop for want of seeds, although the next run
    recorded "b" and its entry is in the map; with the names in the other order the same
    program yields the seed. *)
Theorem blacklisting_loses_last_target :
  get_seeds_from_runtime crashing_run [] [[97]; [98]] = Aborted
  /\ find_entry 1 (crashing_run [58; 97; 58]).2 0 [98] = Ok (Some [7; 0; 0; 0])
  /\ get_seeds_from_runtime crashing_run [] [[98]; [97]] = Ok [([98], [7; 0; 0; 0], 0)].
Proof. vm_compute. auto. Qed.

Lemma is_prefix_app s h : is_prefix s (s ++ h) = true.
Proof. induction s as [|x s IH]; simpl; [done|]. by rewrite Z.eqb_refl. Qed.

Lemma contains_mid a s h : contains (a ++ s ++ h) s = true.
Proof.
  induction a as [|x a IH]; simpl.
  - destruct (s ++ h) eqn:E; simpl; rewrite <- E, is_prefix_app; done.
  - by rewrite IH, orb_true_r.
Qed.

Lemma contains_no_colon l s :
  Forall (fun c => c <> 58) l -> contains (l ++ [58]) (58 :: s ++ [58]) = false.
Proof.
  induction 1 as [|c l Hc _ IH].
  - simpl. by destruct s.
  - cbn [app contains is_prefix]. rewrite (proj2 (Z.eqb_neq 58 c)) by congruence. done.
Qed.

Lemma is_prefix_longer name c extra :
  c <> 58 -> is_prefix (name ++ [58]) (name ++ c :: extra) = false.
Proof.
  intros Hc. induction name as [|x name IH]; cbn [app is_prefix].
  - by rewrite (proj2 (Z.eqb_neq 58 c)) by congruence.
  - rewrite Z.eqb_refl. exact IH.
Qed.

(** [blacklist.find(fnName) == std::string::npos] *)
Definition not_blacklisted (blacklist fnName : list Z) : bool := negb (contains blacklist fnName).

(** The two sides read the blacklist differently.  The fuzzer looks for ":name:", the
    program for the bare name anywhere in the list, so a function whose name is the
    beginning of a blacklisted one stays a target of the fuzzer but is never recorded. *)
Theorem blacklist_mismatch name c extra :
  Forall (fun c => c <> 58) (name ++ c :: extra) ->
  let blacklist := [58] ++ (name ++ c :: extra) ++ [58] in
  get_targets (Some blacklist) [name] MAX_TARGETS = [name] /\ not_blacklisted blacklist name = false.
Proof.
  intros Hf blacklist. split.
  - cbn [get_targets MAX_TARGETS]. unfold blacklist. cbn [app contains is_prefix].
    rewrite Z.eqb_refl. cbn [andb]. rewrite contains_no_colon, orb_false_r by done.
    rewrite <- app_assoc. cbn [app]. rewrite is_prefix_longer; [done|].
    apply Forall_app in Hf as [_ Hf]. by apply Forall_cons in Hf as [Hc _].
  - unfold not_blacklisted, blacklist. rewrite <- app_assoc. by rewrite (contains_mid [58] name).
Qed.

Lemma blacklist_mismatch_witness :
  let blacklist := [58] ++ ([97] ++ [98]) ++ [58] in
  get_targets (Some blacklist) [[97]] MAX_TARGETS = [[97]] /\ not_blacklisted blacklist [97] = false.
Proof. apply (blacklist_mismatch [97] 98 []). repeat constructor; lia. Defined.
