(* ===== verification/Args.v ===== *)
(** * The arguments of a call (src/libgen/src/main.cc, src/libgen/inc/utils_common.h)

    What [gen_values] does with the arguments of the call it records or fuzzes: it finds the
    user's constraints for the function, turns them into constraints on the arguments, tags
    on their addresses and dependencies between them, and visits the arguments in the order
    of the dependencies, to record them or to build new ones.  Which call that is, is in
    [Session]; the visit of one argument is in [Libgen]. *)
From S2P Require Import Prelude NumText Alias Names Libgen LibgenTheorems LibgenLimits Depend ArgMap.

(** ** Names of functions *)

(** [value.ends_with(ending)] *)
Definition ends_with (value ending : list Z) : bool :=
  (length ending <=? length value)%nat
  && bool_decide (take (length ending) (reverse value) = reverse ending).

(** ['/'] and [':'] *)
Definition slash : Z := 47.
Definition colon : Z := 58.

Definition absolute (a : list Z) : bool := bool_decide (head a = Some slash).

Definition areModulesEquivalent (a b : list Z) : bool :=
  bool_decide (a = b)
  || (negb (bool_decide (a = [])) && negb (bool_decide (b = [])) && absolute a && negb (absolute b)
      && ends_with a (slash :: b))
  || (negb (bool_decide (a = [])) && negb (bool_decide (b = [])) && absolute b && negb (absolute a)
      && ends_with b (slash :: a)).

(** The module, which may be empty, and the function of a name *)
Definition split_name (a : list Z) : list Z * list Z :=
  match list_find (fun c => c = colon) a with
  | Some (i, _) => (take i a, drop (S i) a)
  | None => ([], a)
  end.

Definition areModuleColonFunctionNamesEquivalent (a b : list Z) : bool :=
  let '(aMod, aFunc) := split_name a in
  let '(bMod, bFunc) := split_name b in
  let sameMod :=
    if negb (bool_decide (aMod = [])) && negb (bool_decide (bMod = [])) then areModulesEquivalent aMod bMod else true in
  sameMod && bool_decide (aFunc = bFunc).

(** ** The user's constraints *)

(** ["rhs"]: the number of an argument, ["rec"], or an object with a ["constant"] *)
Inductive right_side := RhsArg (i : nat) | RhsRec | RhsConstant (c : Z).

(** An entry of the configuration: [lhs] with ["is_file"], or with ["rel"], ["signed"],
    ["rhs"] and ["deref"] *)
Record entry := Entry {
  e_lhs : nat;
  e_is_file : bool;
  e_rel : list Z;
  e_signed : bool;
  e_rhs : right_side;
  e_deref : bool;
}.

Definition rel_eq : list Z := [101; 113].
Definition rel_le : list Z := [108; 101].
Definition rel_ge : list Z := [103; 101].

(** [k] stays uninitialised for any other relation. *)
Definition kind_of (rel : list Z) : res Kind :=
  if bool_decide (rel = rel_eq) then Ok EQ
  else if bool_decide (rel = rel_le) then Ok LE
  else if bool_decide (rel = rel_ge) then Ok GE
  else UB.

(** The first entry of [userConstraints], in the order of its keys, whose key is equivalent. *)
Definition constraints_for (userConstraints : list (list Z * list entry)) (fnName : list Z) : list entry :=
  match list_find (fun kv => areModuleColonFunctionNamesEquivalent kv.1 fnName = true) userConstraints with
  | Some (_, (_, es)) => es
  | None => []
  end.

(** [addressOfArg], [constraintsOfArg] and [dm] *)
Record arguments := Arguments_ {
  addressOfArg : list Z;
  constraintsOfArg : list (list constraint);
  dm : DependencyManager;
}.

Section gen_values.
Context {sorting : TopologicalSort}.
(** The table of types, [argTypes[fnName]], and the depth of recursion *)
Context (fuel : nat) (ts : list type_desc) (types : list nat).

Definition start_arguments (args : list Z) : arguments :=
  Arguments_ args (map (fun _ => []) args) (Dependencies (length args) []).

(** One entry of the constraints, with the memory of the program *)
Definition add_entry (h : gmap Z Z) (e : entry) (s : arguments) : res arguments :=
  let! adr := of_option (addressOfArg s !! e_lhs e) in
  if e_is_file e
  then Ok (Arguments_ (<[e_lhs e := Z.lor adr 0x8000000000000000]> (addressOfArg s)) (constraintsOfArg s) (dm s))
  else
    let! k := kind_of (e_rel e) in
    let! (r, d) :=
      match e_rhs e with
      | RhsArg j =>
          let! rhsPtr := of_option (addressOfArg s !! j) in
          Ok (Arg rhsPtr, addDependency j (e_lhs e) (dm s))
      | RhsRec =>
          let! t := of_option (types !! e_lhs e) in
          let! bs := recordConstraintValue fuel ts h t adr in
          Ok (Constant (match bs with Some bs => le_word bs | None => 0 end), dm s)
      | RhsConstant c => Ok (Constant c, dm s)
      end in
    Ok (Arguments_ (if e_deref e then <[e_lhs e := Z.lor adr 1]> (addressOfArg s) else addressOfArg s)
          (alter (fun cs => cs ++ [Constraint k (e_signed e) r]) (e_lhs e) (constraintsOfArg s)) d).

Definition add_entries (h : gmap Z Z) (es : list entry) (s : arguments) : res arguments := each (add_entry h) es s.

(** The visit of argument [arg] *)
Definition visit {S} (action : nat -> Z -> list constraint -> S -> res S) (a : arguments) (arg : nat) (s : S) : res S :=
  let! t := of_option (types !! arg) in
  let! adr := of_option (addressOfArg a !! arg) in
  let! cs := of_option (constraintsOfArg a !! arg) in
  action t adr cs s.

(** [gen_values] on a call it records: [r] is the map of recorded arguments. *)
Definition record_arguments (files : list Z -> option (list Z)) (fnName : list Z) (es : list entry) (args : list Z)
    (h : gmap Z Z) (r : rec) : res rec :=
  let! a := add_entries h es (start_arguments args) in
  record_call fnName
    (fun r => visitInOrder (print_map (r_buf r)) (r_off r) (visit (serializeToBuffer files fuel ts h) a) (dm a) r) r.

(** [gen_values] on a call it fuzzes, with the address of the map of recorded arguments (null
    unless the process records, too) and the offset in it, which is moved by four here too. *)
Definition fuzz_arguments (ah_arg_fuzz_ptr ahArgOffset : Z) (junk : Z) (avail : Z -> bool) (filein : list Z) (es : list entry)
    (args : list Z) (buffer : list Z) (s : gen) : res gen :=
  let! a := add_entries (cells (g_heap s)) es (start_arguments args) in
  visitInOrder (print_at (cells (g_heap s)) ah_arg_fuzz_ptr) (u32 (ahArgOffset + 4)) (visit (populateFromBuffer junk avail filein fuel ts buffer) a) (dm a) (set_off 0 s).
End gen_values.
