(* ===== verification/ArgsTheorems.v ===== *)
(** * Generated arguments meet the user's constraints

    For a call with integer arguments and constraints whose dependencies have no cycle, the
    arguments that [gen_values] builds from any test case satisfy every constraint; and how
    the constraints of a consistent configuration can fail to be met all the same. *)
From S2P Require Import Prelude NumText Alias Names Libgen LibgenTheorems LibgenLimits Depend ArgMap Args.

(** ** Names of functions *)

Lemma areModulesEquivalent_sym a b : areModulesEquivalent a b = areModulesEquivalent b a.
Proof.
  unfold areModulesEquivalent. rewrite (bool_decide_ext (a = b) (b = a)) by done.
  set (x := bool_decide (a = [])). set (y := bool_decide (b = [])).
  rewrite <- !orb_assoc. f_equal. rewrite orb_comm. by rewrite (andb_comm (negb x)).
Qed.

(** The comparison of names is reflexive and symmetric, and a name without a module stands
    for the function in every module. *)
Lemma names_equivalent a b m f :
  colon ∉ m -> colon ∉ f ->
  areModuleColonFunctionNamesEquivalent a a = true
  /\ areModuleColonFunctionNamesEquivalent a b = areModuleColonFunctionNamesEquivalent b a
  /\ areModuleColonFunctionNamesEquivalent f (m ++ colon :: f) = true.
Proof.
  intros Hm Hf. unfold areModuleColonFunctionNamesEquivalent. split_and!.
  - destruct (split_name a) as [ma fa]. rewrite (bool_decide_eq_true_2 (fa = fa)), andb_true_r by done.
    destruct (_ && _); [|done]. unfold areModulesEquivalent. by rewrite (bool_decide_eq_true_2 (ma = ma)).
  - destruct (split_name a) as [ma fa], (split_name b) as [mb fb].
    rewrite (bool_decide_ext (fa = fb) (fb = fa)), areModulesEquivalent_sym, andb_comm by done.
    rewrite (andb_comm (negb (bool_decide (ma = [])))). apply andb_comm.
  - assert (split_name f = ([], f)) as ->.
    { unfold split_name. destruct (list_find _ f) as [[i c]|] eqn:E; [|done].
      apply list_find_Some in E as (Hi & -> & _). by apply list_elem_of_lookup_2 in Hi. }
    assert (split_name (m ++ colon :: f) = (m, f)) as ->.
    { unfold split_name. rewrite (proj2 (list_find_Some _ _ (length m) colon)).
      - rewrite take_app_length, drop_app_ge by lia. by replace (S (length m) - length m)%nat with 1%nat by lia.
      - split_and!; [by apply list_lookup_middle|done|]. intros j y Hy Hj ->. rewrite lookup_app_l in Hy by done.
        by apply list_elem_of_lookup_2 in Hy. }
    rewrite (bool_decide_eq_true_2 ([] = [])) by done. simpl. by rewrite bool_decide_eq_true_2.
Qed.

(** ** Memory *)

Definition bytes_ok (h : gmap Z Z) : Prop := forall a x, h !! a = Some x -> byte_ok x.

Lemma load_lookup n a h bs i : load n a h = Some bs -> (i < n)%nat -> h !! (a + Z.of_nat i) = bs !! i.
Proof.
  revert a bs i. induction n as [|n IH]; intros a bs i H Hi; [lia|]. simpl in H.
  apply bind_Some in H as (b & Hb & (bs' & H & [= <-])%bind_Some). destruct i as [|i].
  - by rewrite Z.add_0_r.
  - simpl. rewrite <- (IH _ _ i H) by lia. f_equal. lia.
Qed.

Lemma load_defined n a h : mapped h a (Z.of_nat n) -> exists bs, load n a h = Some bs.
Proof.
  revert a. induction n as [|n IH]; intros a Hm; [by eexists|]. simpl.
  destruct (Hm a ltac:(lia)) as [b ->]. destruct (IH (a + 1)) as [bs ->]; [|by eexists].
  intros x Hx. apply Hm. lia.
Qed.

Lemma stored_bytes_ok a bs h h' : stored a bs h h' -> Forall byte_ok bs -> bytes_ok h -> bytes_ok h'.
Proof.
  intros [Hl Hf _] Hb Hok x y Hxy. destruct (decide (a <= x < a + Z.of_nat (length bs))) as [Hx|Hx].
  - replace x with (a + Z.of_nat (Z.to_nat (x - a))) in Hxy by lia.
    rewrite (load_lookup _ _ _ _ _ Hl) in Hxy by lia. rewrite Forall_lookup in Hb. eauto.
  - rewrite Hf in Hxy by done. eauto.
Qed.

Lemma number_le_word sg n v : 0 <= n -> number sg n (le_word (word_le n v)) = number sg n v.
Proof.
  intros Hn. unfold number, le_word, word_le. rewrite little_endian_to_Z_to_little_endian by lia.
  replace (n * 8) with (8 * n) by lia. by rewrite Z.mod_mod by lia.
Qed.

(** ** Integer arguments *)

Section ints.
Context (ts : list type_desc) (types : list nat) (args : list Z).

(** The bytes of argument [i], if it is an integer *)
Definition arg_bytes (i : nat) : Z :=
  match types !! i ≫= (fun t => ts !! t) with
  | Some (IntegerType w) => w `div` 8
  | _ => 0
  end.

(** Argument [i] is an integer at [a], in memory. *)
Definition int_arg (h : gmap Z Z) (i : nat) (a : Z) : Prop :=
  exists t w, types !! i = Some t /\ ts !! t = Some (IntegerType w) /\ w ∈ [8; 16; 32; 64] /\ mapped h a (w `div` 8).

Definition apart (i j : nat) (a b : Z) : Prop := a + arg_bytes i <= b \/ b + arg_bytes j <= a.

Record int_args (h : gmap Z Z) : Prop := {
  ia_ints : forall i a, args !! i = Some a -> int_arg h i a;
  ia_apart : forall i j a b, i <> j -> args !! i = Some a -> args !! j = Some b -> apart i j a b;
  ia_bytes : bytes_ok h;
}.

Lemma int_arg_bytes i t w sg :
  types !! i = Some t -> ts !! t = Some (IntegerType w) -> w ∈ [8; 16; 32; 64] ->
  arg_bytes i = w `div` 8 /\ 1 <= w `div` 8 <= 8 /\ compared (IntegerType w) sg = Some (w `div` 8, sg).
Proof.
  intros Ht Hw Hin. unfold arg_bytes, compared. rewrite Ht. cbn. rewrite Hw. split; [done|].
  rewrite decide_True by done. rewrite !elem_of_cons, elem_of_nil in Hin.
  destruct Hin as [->|[->|[->|[->|[]]]]]; vm_compute; (split; [split; congruence|done]).
Qed.

(** An entry that the configuration may have: a relation between integers, the right side at
    least as wide as the left. *)
Record entry_ok (e : entry) : Prop := {
  eo_lhs : (e_lhs e < length args)%nat;
  eo_plain : e_is_file e = false /\ e_deref e = false;
  eo_rel : e_rel e ∈ [rel_eq; rel_le; rel_ge];
  eo_rhs : forall j, e_rhs e = RhsArg j -> (j < length args)%nat /\ arg_bytes (e_lhs e) <= arg_bytes j;
}.

Definition entry_kind (e : entry) : Kind :=
  if bool_decide (e_rel e = rel_eq) then EQ else if bool_decide (e_rel e = rel_le) then LE else GE.

(** The value on the right side of an entry, before ([h0]) and after ([h]) the call *)
Definition right_value (h0 h : gmap Z Z) (e : entry) (y : Z) : Prop :=
  let n := Z.to_nat (arg_bytes (e_lhs e)) in
  match e_rhs e with
  | RhsArg j => exists b bs, args !! j = Some b /\ load n b h = Some bs /\ y = le_word bs
  | RhsRec => exists a bs, args !! e_lhs e = Some a /\ load n a h0 = Some bs /\ y = le_word bs
  | RhsConstant c => y = c
  end.

(** The constraint of [e] is met in [h]. *)
Definition meets (h0 h : gmap Z Z) (e : entry) : Prop :=
  let n := arg_bytes (e_lhs e) in
  exists a bs y, args !! e_lhs e = Some a /\ load (Z.to_nat n) a h = Some bs /\ right_value h0 h e y
    /\ holds (entry_kind e) (number (e_signed e) n (le_word bs)) (number (e_signed e) n y).

Definition edges_of (es : list entry) : list (nat * nat) :=
  omap (fun e => match e_rhs e with RhsArg j => Some (j, e_lhs e) | _ => None end) es.

(** The right side of the constraint that an entry becomes *)
Definition rhs_of (h : gmap Z Z) (e : entry) (r : rhs) : Prop :=
  match e_rhs e with
  | RhsArg j => exists b, args !! j = Some b /\ r = Arg b
  | RhsRec => exists a bs, args !! e_lhs e = Some a /\ load (Z.to_nat (arg_bytes (e_lhs e))) a h = Some bs
                /\ r = Constant (le_word bs)
  | RhsConstant c => r = Constant c
  end.

Lemma kind_of_ok e : e_rel e ∈ [rel_eq; rel_le; rel_ge] -> kind_of (e_rel e) = Ok (entry_kind e).
Proof.
  intros H. unfold kind_of, entry_kind. rewrite !elem_of_cons, elem_of_nil in H.
  destruct H as [->|[->|[->|[]]]]; reflexivity.
Qed.

(** An entry is added: the constraint goes to its argument, the dependency to the graph. *)
Lemma add_entry_ok fuel h e s :
  int_args h -> entry_ok e -> addressOfArg s = args ->
  exists r, rhs_of h e r /\ add_entry fuel ts types h e s =
    Ok (Arguments_ args
          (alter (fun cs => cs ++ [Constraint (entry_kind e) (e_signed e) r]) (e_lhs e) (constraintsOfArg s))
          (Dependencies (nodeCount (dm s)) (edges (dm s) ++ edges_of [e]))).
Proof.
  intros Hi [Hl [Hf Hd] Hrel Hr] Ha. unfold add_entry. rewrite Ha.
  destruct (lookup_lt_is_Some_2 args (e_lhs e) Hl) as [a Hla]. rewrite Hla. cbn [of_option rbind].
  rewrite Hf, Hd, (kind_of_ok e Hrel). cbn [rbind]. unfold rhs_of, edges_of.
  destruct (e_rhs e) as [j| |c] eqn:Er; simpl; rewrite ?Er.
  - destruct (lookup_lt_is_Some_2 args j (proj1 (Hr j eq_refl))) as [b Hb]. rewrite Hb.
    exists (Arg b). split; [eauto|done].
  - destruct (ia_ints _ Hi _ _ Hla) as (t & w & Ht & Hw & Hin & Hm). rewrite Ht. simpl.
    unfold recordConstraintValue. rewrite Hw. destruct (int_arg_bytes _ t w true Ht Hw Hin) as (Hn & Hb & _).
    destruct (load_defined (Z.to_nat (w `div` 8)) a h) as [bs Hbs]; [by rewrite Z2Nat.id by lia|].
    rewrite Hbs. simpl. exists (Constant (le_word bs)). rewrite Hn, app_nil_r. split; [eauto 10|]. by destruct (dm s).
  - exists (Constant c). rewrite app_nil_r. split; [done|]. by destruct (dm s).
Qed.
Lemma add_entries_ok fuel h es s :
  int_args h -> Forall entry_ok es -> NoDup (map e_lhs es) -> addressOfArg s = args ->
  (forall e, e ∈ es -> constraintsOfArg s !! e_lhs e = Some []) ->
  exists a, add_entries fuel ts types h es s = Ok a /\ addressOfArg a = args
    /\ dm a = Dependencies (nodeCount (dm s)) (edges (dm s) ++ edges_of es)
    /\ (forall e, e ∈ es -> exists r, rhs_of h e r
          /\ constraintsOfArg a !! e_lhs e = Some [Constraint (entry_kind e) (e_signed e) r])
    /\ (forall i, i ∉ map e_lhs es -> constraintsOfArg a !! i = constraintsOfArg s !! i).
Proof.
  intros Hi. revert s. induction es as [|e es IH]; intros s Hes Hnd Ha Hcs.
  { exists s. split_and!; [done|done| |by intros e ?%not_elem_of_nil|done]. cbn. rewrite app_nil_r. by destruct (dm s). }
  apply Forall_cons in Hes as [He Hes]. cbn [map] in Hnd. apply NoDup_cons in Hnd as [Hne Hnd].
  destruct (add_entry_ok fuel h e s Hi He Ha) as (r & Hr & Hadd). unfold add_entries. cbn [each]. rewrite Hadd. cbn [rbind].
  match type of Hadd with _ = Ok ?x => set (s1 := x) in * end.
  assert (Hs1 : constraintsOfArg s1 !! e_lhs e = Some [Constraint (entry_kind e) (e_signed e) r]).
  { cbn. rewrite list_lookup_alter, decide_True by done. by rewrite (Hcs e ltac:(left)). }
  assert (Hother : forall i, i <> e_lhs e -> constraintsOfArg s1 !! i = constraintsOfArg s !! i)
    by (intros i Hii; cbn; by rewrite list_lookup_alter_ne by done).
  destruct (IH s1 Hes Hnd eq_refl) as (a & E & Haa & Hdm & Hin & Hout).
  { intros e' He'. rewrite Hother; [apply Hcs; by right|]. intros Heq. apply Hne. rewrite <- Heq.
    by apply list_elem_of_fmap_2. }
  exists a. split_and!; [exact E|done| | |].
  - rewrite Hdm. cbn [dm nodeCount edges s1]. f_equal. rewrite <- app_assoc. f_equal. unfold edges_of. cbn.
    by destruct (e_rhs e).
  - intros e' [->|He']%elem_of_cons; [|by apply Hin]. exists r. split; [done|]. by rewrite Hout.
  - intros j Hj. cbn [map] in Hj. apply not_elem_of_cons in Hj as [Hj1 Hj2]. by rewrite Hout, Hother.
Qed.

(** *** A store to one argument *)

Lemma int_args_stored h h' a bs :
  int_args h -> stored a bs h h' -> Forall byte_ok bs -> int_args h'.
Proof.
  intros [H1 H2 H3] Hs Hb. split; [|done|by eapply stored_bytes_ok].
  intros j b Hj. destruct (H1 j b Hj) as (t & w & ? & ? & ? & Hm). exists t, w. split_and!; [done..|].
  intros x Hx. apply (stored_mapped _ _ _ _ Hs). by apply Hm.
Qed.

(** Another argument, or part of it, is loaded as before. *)
Lemma load_other h h' i j a b bs n :
  int_args h -> stored a bs h h' -> Z.of_nat (length bs) = arg_bytes i -> i <> j ->
  args !! i = Some a -> args !! j = Some b -> Z.of_nat n <= arg_bytes j -> load n b h' = load n b h.
Proof.
  intros [_ Hap _] Hs Hl Hij Ha Hb Hn. apply load_agree. intros x Hx. apply (stored_frame _ _ _ _ Hs).
  destruct (Hap i j a b Hij Ha Hb); lia.
Qed.

Lemma arg_bytes_range h i a : int_args h -> args !! i = Some a -> 1 <= arg_bytes i <= 8.
Proof.
  intros Hi Ha. destruct (ia_ints _ Hi _ _ Ha) as (t & w & Ht & Hw & Hin & _).
  by destruct (int_arg_bytes i t w true Ht Hw Hin) as (-> & ? & _).
Qed.

Lemma meets_stored h0 h h' e i a bs :
  int_args h -> entry_ok e -> stored a bs h h' -> Z.of_nat (length bs) = arg_bytes i -> args !! i = Some a ->
  i <> e_lhs e -> (forall j, e_rhs e = RhsArg j -> i <> j) -> meets h0 h e -> meets h0 h' e.
Proof.
  intros Hi He Hs Hl Ha Hne Hnr (al & bl & y & Hal & Hbl & Hy & Hh).
  pose proof (arg_bytes_range h _ _ Hi Hal) as Hr. exists al, bl, y. split_and!; [done| | |done].
  - rewrite <- Hbl. eapply load_other; [done..|]. by rewrite Z2Nat.id by lia.
  - unfold right_value in *. destruct (e_rhs e) as [j| |c] eqn:Er; [|done..].
    destruct Hy as (b & bs' & Hb & Hload & ->). exists b, bs'. split_and!; [done| |done].
    rewrite <- Hload. destruct (eo_rhs _ He j Er) as [_ Hw].
    eapply load_other; [done|done|done|by apply Hnr|done|done|]. rewrite Z2Nat.id; lia.
Qed.

(** *** The visit of one argument *)

Section visit.
Context (fuel : nat) (junk : Z) (avail : Z -> bool) (filein buffer : list Z).
Notation build := (visit types (populateFromBuffer junk avail filein (S fuel) ts buffer)).

(** A value is drawn, constrained and stored. *)
Lemma visit_int s a i adr cs :
  int_args (cells (g_heap s)) -> addressOfArg a = args -> args !! i = Some adr -> constraintsOfArg a !! i = Some cs ->
  exists t, (forall sg, compared t sg = Some (arg_bytes i, sg)) /\
    ((forall v, exists v', apply_constraints (cells (g_heap s)) t (arg_bytes i) cs v = Ok v') ->
     exists v v' s', build a i s = Ok s' /\ apply_constraints (cells (g_heap s)) t (arg_bytes i) cs v = Ok v'
      /\ stored adr (word_le (arg_bytes i) v') (cells (g_heap s)) (cells (g_heap s'))).
Proof.
  intros Hi Ha Hadr Hcs. destruct (ia_ints _ Hi _ _ Hadr) as (t & w & Ht & Hw & Hin & Hm).
  destruct (int_arg_bytes i t w true Ht Hw Hin) as (Hn & Hr & _). exists (IntegerType w).
  split; [intros sg; rewrite Hn; by apply (int_arg_bytes i t w sg)|]. intros Happ. unfold visit.
  rewrite Ha, Ht, Hadr, Hcs. cbn [of_option rbind populateFromBuffer]. rewrite Hw. unfold populate_scalar.
  assert (exists v off, (if (w =? 8) && negb false then Ok (getBuffOne buffer (g_off s))
     else if (w =? 16) && negb false then Ok (getBuffTwo buffer (g_off s))
     else if w =? 32 then Ok (getBuffFour buffer (g_off s))
     else if w =? 64 then Ok (getBuffEight buffer (g_off s)) else Aborted) = Ok (v, off)) as (v & off & ->).
  { rewrite !elem_of_cons, elem_of_nil in Hin. destruct Hin as [->|[->|[->|[->|[]]]]]; cbn [Z.eqb Pos.eqb andb negb];
      match goal with |- context [Ok ?x] => destruct x as [v off]; by exists v, off end. }
  destruct (Happ v) as [v' Hv']. rewrite Hn in Hv'. cbn [rbind]. rewrite Hv'. cbn [rbind].
  assert (Hlen : length (word_le (w `div` 8) v') = Z.to_nat (w `div` 8)) by (apply length_word_le; lia).
  destruct (gen_store_ok (set_off off s) adr (word_le (w `div` 8) v')) as (s' & E & Hs & _).
  { cbn. rewrite Hlen, Z2Nat.id by lia. exact Hm. }
  exists v, v', s'. rewrite Hn. split_and!; [exact E|done|exact Hs].
Qed.
(** What the constraint of an entry compares with is the right side of the entry, also after
    the left side was stored. *)
Lemma right_side_read h0 s e r adr :
  int_args (cells (g_heap s)) -> entry_ok e -> args !! e_lhs e = Some adr -> rhs_of h0 e r ->
  (forall j, e_rhs e = RhsArg j -> e_lhs e <> j) ->
  let n := arg_bytes (e_lhs e) in
  exists b, rhs_bytes (cells (g_heap s)) n r = Ok b /\ forall h' v',
    stored adr (word_le n v') (cells (g_heap s)) h' ->
    exists y, right_value h0 h' e y /\ number (e_signed e) n y = number (e_signed e) n b.
Proof.
  intros Hi He Hadr Hr Hne n. pose proof (arg_bytes_range _ _ _ Hi Hadr) as Hn. fold n in Hn.
  unfold rhs_of, right_value in *. fold n in Hr |- *. destruct (e_rhs e) as [j| |c] eqn:Er.
  - destruct Hr as (bj & Hbj & ->). destruct (eo_rhs _ He j Er) as [_ Hw]. fold n in Hw.
    destruct (ia_ints _ Hi _ _ Hbj) as (tj & wj & Htj & Hwj & Hinj & Hmj).
    destruct (int_arg_bytes j tj wj true Htj Hwj Hinj) as (Hnj & _).
    destruct (load_defined (Z.to_nat n) bj (cells (g_heap s))) as [bs Hbs]; [intros x Hx; apply Hmj; lia|].
    cbn. rewrite Hbs. exists (le_word bs). split; [done|]. intros h' v' Hs. exists (le_word bs). split; [|done].
    exists bj, bs. split_and!; [done| |done]. rewrite <- Hbs.
    eapply load_other; [done|done| |by apply Hne|done|done|lia]. rewrite length_word_le by lia. fold n. lia.
  - destruct Hr as (a0 & bs & Ha0 & Hbs & ->). cbn. eexists. split; [done|]. intros h' v' _. exists (le_word bs).
    split; [eauto|]. unfold number. by rewrite Z.mod_mod by lia.
  - subst r. cbn. eexists. split; [done|]. intros h' v' _. exists c. split; [done|]. unfold number. by rewrite Z.mod_mod by lia.
Qed.

(** The visit of the left side of an entry leaves it met. *)
Lemma visit_entry h0 s a e r :
  int_args (cells (g_heap s)) -> int_args h0 -> entry_ok e -> addressOfArg a = args -> rhs_of h0 e r ->
  (forall j, e_rhs e = RhsArg j -> e_lhs e <> j) ->
  constraintsOfArg a !! e_lhs e = Some [Constraint (entry_kind e) (e_signed e) r] ->
  exists adr v' s', build a (e_lhs e) s = Ok s' /\ args !! e_lhs e = Some adr
    /\ stored adr (word_le (arg_bytes (e_lhs e)) v') (cells (g_heap s)) (cells (g_heap s'))
    /\ meets h0 (cells (g_heap s')) e.
Proof.
  intros Hi Hi0 He Ha Hr Hne Hcs. destruct (lookup_lt_is_Some_2 args _ (eo_lhs _ He)) as [adr Hadr].
  pose proof (arg_bytes_range _ _ _ Hi Hadr) as Hn. set (n := arg_bytes (e_lhs e)) in *.
  destruct (visit_int s a _ adr _ Hi Ha Hadr Hcs) as (t & Ht & Hvisit). fold n in Ht, Hvisit.
  destruct (right_side_read h0 s e r adr Hi He Hadr Hr Hne) as (b & Hb & Hright). fold n in Hb, Hright.
  assert (Henf : forall v, exists v', apply_constraint (cells (g_heap s)) t n (Constraint (entry_kind e) (e_signed e) r) v = Ok v'
    /\ holds (entry_kind e) (number (e_signed e) n v') (number (e_signed e) n b)).
  { intros v. destruct (constraint_enforced _ t (Constraint (entry_kind e) (e_signed e) r) v n (e_signed e) b
      (Ht _) (ia_bytes _ Hi) Hb) as (v' & ? & ? & _). eauto. }
  destruct Hvisit as (v & v' & s' & Hs' & Hv' & Hst).
  { intros v. destruct (Henf v) as (v' & E & _). exists v'. cbn [apply_constraints]. by rewrite E. }
  exists adr, v', s'. split_and!; [done..|]. destruct (Henf v) as (v2 & E & Hh).
  cbn [apply_constraints] in Hv'. rewrite E in Hv'. injection Hv' as ->.
  destruct (Hright _ v' Hst) as (y & Hy & Hyb). exists adr, (word_le n v'), y. split_and!; [done| |done|].
  - pose proof (stored_here _ _ _ _ Hst) as Hl. by rewrite length_word_le in Hl by lia.
  - fold n. by rewrite number_le_word, Hyb by lia.
Qed.
(** *** The whole visit *)

(** Every entry of [es] whose left side is in [vs] is met. *)
Definition met_in (h0 h : gmap Z Z) (es : list entry) (vs : list nat) : Prop :=
  forall e, e ∈ es -> e_lhs e ∈ vs -> meets h0 h e.

Lemma before_prefix (vs rest : list nat) u v :
  NoDup (vs ++ rest) -> before (vs ++ rest) u v -> v ∈ vs -> u ∈ vs.
Proof.
  intros Hnd (i & j & Hij & Hi & Hj) [k Hk]%list_elem_of_lookup.
  assert (j = k) as -> by (eapply NoDup_lookup; [done|done|by apply lookup_app_l_Some]).
  pose proof (lookup_lt_Some _ _ _ Hk). rewrite lookup_app_l in Hi by lia. by eapply list_elem_of_lookup_2.
Qed.

Lemma before_ne (l : list nat) u v : NoDup l -> before l u v -> u <> v.
Proof. intros Hnd (i & j & Hij & Hi & Hj) ->. pose proof (NoDup_lookup _ _ _ _ Hnd Hi Hj). lia. Qed.

Lemma edges_of_in es e j : e ∈ es -> e_rhs e = RhsArg j -> (j, e_lhs e) ∈ edges_of es.
Proof. intros He Hr. apply list_elem_of_omap. exists e. by rewrite Hr. Qed.

Context (h0 : gmap Z Z) (es : list entry) (a : arguments).
Hypothesis Hint0 : int_args h0.
Hypothesis Hes : Forall entry_ok es.
Hypothesis Hnd : NoDup (map e_lhs es).
Hypothesis Haddr : addressOfArg a = args.
Hypothesis Hin : forall e, e ∈ es -> exists r, rhs_of h0 e r
  /\ constraintsOfArg a !! e_lhs e = Some [Constraint (entry_kind e) (e_signed e) r].
Hypothesis Hout : forall i, (i < length args)%nat -> i ∉ map e_lhs es -> constraintsOfArg a !! i = Some [].

(** One argument, of which those it depends on are in [vs]. *)
Lemma visit_step vs i s :
  (i < length args)%nat -> i ∉ vs -> int_args (cells (g_heap s)) ->
  (forall e j, e ∈ es -> e_rhs e = RhsArg j -> e_lhs e ∈ vs ++ [i] -> j ∈ vs) ->
  met_in h0 (cells (g_heap s)) es vs ->
  exists s', build a i s = Ok s' /\ int_args (cells (g_heap s')) /\ met_in h0 (cells (g_heap s')) es (vs ++ [i]).
Proof using Hint0 Hes Hnd Haddr Hin Hout.
  intros Hi Hvs Hint Hdep Hmet.
  assert (exists adr v' s', build a i s = Ok s' /\ args !! i = Some adr
    /\ stored adr (word_le (arg_bytes i) v') (cells (g_heap s)) (cells (g_heap s'))
    /\ forall e, e ∈ es -> e_lhs e = i -> meets h0 (cells (g_heap s')) e) as (adr & v' & s' & E & Hadr & Hst & Hnew).
  { destruct (decide (i ∈ map e_lhs es)) as [(e & Hei & He)%list_elem_of_fmap|Hni].
    - destruct (Hin e He) as (r & Hr & Hc). rewrite Forall_forall in Hes.
      destruct (visit_entry h0 s a e r Hint Hint0 (Hes e He) Haddr Hr) as (adr & v' & s' & E & Hadr & Hst & Hm); [|done|].
      { intros j Hj <-. apply Hvs. rewrite Hei. apply (Hdep e (e_lhs e)); [done|done|]. rewrite Hei. set_solver. }
      rewrite <- Hei in *. exists adr, v', s'. split_and!; [done..|]. intros e' He' Heq.
      apply list_elem_of_lookup in He as [k1 Hk1]. apply list_elem_of_lookup in He' as [k2 Hk2].
      assert (k1 = k2) as ->; [|congruence]. eapply NoDup_lookup; [exact Hnd| |].
      + rewrite list_lookup_fmap, Hk1. cbn. done.
      + rewrite list_lookup_fmap, Hk2. cbn. by rewrite Heq, Hei.
    - destruct (lookup_lt_is_Some_2 args i Hi) as [adr Hadr].
      destruct (visit_int s a i adr [] Hint Haddr Hadr (Hout i Hi Hni)) as (t & _ & Hv).
      destruct Hv as (v & v' & s' & E & _ & Hst); [by eexists|].
      exists adr, v', s'. split_and!; [done..|]. intros e He Heq. destruct Hni. rewrite <- Heq. by apply list_elem_of_fmap_2. }
  pose proof (arg_bytes_range _ _ _ Hint Hadr) as Hn. exists s'. split; [done|].
  split; [eapply int_args_stored; [done..|]; apply word_le_ok; lia|].
  intros e He [Hl|Hl%list_elem_of_singleton]%elem_of_app; [|by apply Hnew].
  eapply (meets_stored h0 (cells (g_heap s))); [done|by rewrite Forall_forall in Hes; apply Hes|exact Hst| |done| | |by apply Hmet].
  - rewrite length_word_le by lia. lia.
  - intros ->. done.
  - intros j Hj ->. apply Hvs. eapply Hdep; [done|done|]. apply elem_of_app. by left.
Qed.

Lemma visits_ok rest vs s :
  NoDup (vs ++ rest) -> Forall (fun i => (i < length args)%nat) rest ->
  (forall u v, (u, v) ∈ edges_of es -> before (vs ++ rest) u v) ->
  int_args (cells (g_heap s)) -> met_in h0 (cells (g_heap s)) es vs ->
  exists s', each (build a) rest s = Ok s' /\ met_in h0 (cells (g_heap s')) es (vs ++ rest).
Proof using Hint0 Hes Hnd Haddr Hin Hout.
  revert vs s. induction rest as [|i rest IH]; intros vs s Hnd' Hlt Hbef Hint Hmet.
  { exists s. by rewrite app_nil_r. }
  apply Forall_cons in Hlt as [Hi Hlt].
  replace (vs ++ i :: rest) with ((vs ++ [i]) ++ rest) in * by (by rewrite <- app_assoc).
  destruct (visit_step vs i s) as (s1 & E & Hint1 & Hmet1); [done| |done| |done|].
  - rewrite <- app_assoc in Hnd'. apply NoDup_app in Hnd' as (_ & Hx & _). intros Hv. apply (Hx i Hv). left.
  - intros e j He Hj Hl. pose proof (Hbef _ _ (edges_of_in es e j He Hj)) as Hb.
    pose proof (before_prefix _ _ _ _ Hnd' Hb Hl) as [?|Hji%list_elem_of_singleton]%elem_of_app; [done|]. subst j.
    apply elem_of_app in Hl as [Hl|Hl%list_elem_of_singleton].
    + rewrite <- app_assoc in Hnd', Hb. by pose proof (before_prefix _ _ _ _ Hnd' Hb Hl).
    + by pose proof (before_ne _ _ _ Hnd' Hb).
  - cbn [each]. rewrite E. cbn [rbind]. by apply IH.
Qed.
End visit.
End ints.

(** ** The call *)

Section call.
Context {sorting : TopologicalSort} (fuel : nat) (ts : list type_desc) (types : list nat) (args : list Z).
Context (ptr offset : Z) (junk : Z) (avail : Z -> bool) (filein : list Z) (es : list entry) (buffer : list Z) (s : gen).
Hypothesis Hint : int_args ts types args (cells (g_heap s)).
Hypothesis Hes : Forall (entry_ok ts types args) es.
Hypothesis Hnd : NoDup (map e_lhs es).

(** The constraints of the call, as they are visited *)
Lemma prepared :
  exists a, add_entries (S fuel) ts types (cells (g_heap s)) es (start_arguments args) = Ok a
    /\ addressOfArg a = args /\ dm a = Dependencies (length args) (edges_of es)
    /\ (forall e, e ∈ es -> exists r, rhs_of ts types args (cells (g_heap s)) e r
          /\ constraintsOfArg a !! e_lhs e = Some [Constraint (entry_kind e) (e_signed e) r])
    /\ (forall i, (i < length args)%nat -> i ∉ map e_lhs es -> constraintsOfArg a !! i = Some []).
Proof using Hint Hes Hnd.
  assert (Hstart : forall i, (i < length args)%nat -> constraintsOfArg (start_arguments args) !! i = Some []).
  { intros i Hi. cbn. rewrite list_lookup_fmap. by destruct (lookup_lt_is_Some_2 args i Hi) as [x ->]. }
  destruct (add_entries_ok ts types args (S fuel) (cells (g_heap s)) es (start_arguments args))
    as (a & E & Ha & Hdm & Hin & Hout); [done..| |].
  { intros e He. apply Hstart. rewrite Forall_forall in Hes. apply (eo_lhs _ _ _ _ (Hes e He)). }
  exists a. split_and!; [done..|]. intros i Hi Hni. rewrite Hout by done. by apply Hstart.
Qed.

Lemma edges_of_bound : edges_in (length args) (edges_of es).
Proof using Hes.
  intros u v (e & He & Hr)%list_elem_of_omap. rewrite Forall_forall in Hes. specialize (Hes e He).
  destruct (e_rhs e) as [j| |c] eqn:E; simplify_eq. split; [by apply (eo_rhs _ _ _ _ Hes)|apply (eo_lhs _ _ _ _ Hes)].
Qed.

(** C8: Whatever the test case, the arguments [gen_values] builds for a call with integer
    arguments satisfy the user's constraints: if the dependencies have no cycle, every
    argument is constrained at most once and no right side is narrower than the left, the
    visit ends without leaving the memory of the arguments, and each constraint (with another
    argument, the recorded value or a constant, signed or not) holds between the numbers that
    are in memory afterwards. *)
Theorem fuzzed_integers_meet_constraints :
  acyclic (edges_of es) ->
  exists s', fuzz_arguments (S fuel) ts types ptr offset junk avail filein es args buffer s = Ok s'
    /\ forall e, e ∈ es -> meets ts types args (cells (g_heap s)) (cells (g_heap s')) e.
Proof using Hint Hes Hnd.
  intros Hac. destruct prepared as (a & E & Ha & Hdm & Hin & Hout). unfold fuzz_arguments. rewrite E. cbn [rbind].
  destruct (visitInOrder_acyclic (print_at (cells (g_heap s)) ptr) (u32 (offset + 4))
    (visit types (populateFromBuffer junk avail filein (S fuel) ts buffer) a) (dm a) (set_off 0 s)) as (order & -> & Hp & Hbef); [rewrite Hdm; apply edges_of_bound|by rewrite Hdm|].
  rewrite Hdm in Hp, Hbef. cbn [nodeCount edges] in *.
  destruct (visits_ok ts types args fuel junk avail filein buffer (cells (g_heap s)) es a Hint Hes Hnd Ha Hin Hout
    order [] (set_off 0 s)) as (s' & E' & Hmet); [|  |done|done| |].
  - cbn. rewrite Hp. apply NoDup_seq.
  - rewrite Hp. apply Forall_seq. lia.
  - by intros e _ ?%not_elem_of_nil.
  - exists s'. split; [done|]. intros e He. apply Hmet; [done|]. cbn. rewrite Hp. apply elem_of_seq.
    rewrite Forall_forall in Hes. pose proof (eo_lhs _ _ _ _ (Hes e He)). lia.
Qed.

(** Constraints whose dependencies have a cycle (such as "a <= b" together with "b >= a", which
    say the same) end the call in undefined behaviour in a process that has recorded nothing:
    the exception of the sort is answered by printing the string at index 4 - 260 of the map of
    recorded arguments, which is modulo 2^32 and from a null pointer. *)
Theorem cyclic_constraints_crash :
  ~ acyclic (edges_of es) -> ptr = 0 -> offset = 0 -> cells (g_heap s) !! (2 ^ 32 - 256) = None ->
  fuzz_arguments (S fuel) ts types ptr offset junk avail filein es args buffer s = UB.
Proof using Hint Hes Hnd.
  intros Hcy -> -> Hnull. destruct prepared as (a & E & _ & Hdm & _). unfold fuzz_arguments, visitInOrder. rewrite E. cbn [rbind].
  rewrite Hdm. cbn [nodeCount edges]. pose proof (sort_cyclic (length args) (edges_of es) edges_of_bound Hcy) as Ht.
  destruct (topological_sort _ _) as [vs thrown]. cbn in Ht. rewrite Ht. unfold print_at.
  change (0 + u32 (u32 (0 + 4) - 256 - 4)) with (2 ^ 32 - 256). cbn [string_run]. by rewrite Hnull.
Qed.
End call.

(** ** From one run to the next *)

(** An argument: its type, where it is in the run that records it and in the run that is
    fuzzed, and its value in the first. *)
Record argument := Argument { x_type : nat; x_from : Z; x_to : Z; x_val : val }.

Section survive.
Context {sorting : TopologicalSort} (ts : list type_desc) (fuel : nat).
Context (junk : Z) (avail : Z -> bool) (filein : list Z).
Hypothesis Havail : forall n, avail n = true.

Notation types xs := (map x_type xs).

(** The arguments in the order in which they are visited. *)
Definition visited (xs : list argument) : list argument :=
  omap (fun i => xs !! i) (reverse (topological_sort (length xs) []).1).

Definition data_of (xs : list argument) : list Z := mjoin (map (fun x => encode (x_val x)) (visited xs)).

Lemma omap_seq {A} (xs : list A) : omap (fun i => xs !! i) (seq 0 (length xs)) = xs.
Proof.
  induction xs as [|x xs IH]; [done|]. cbn [length seq omap list_omap]. cbn. f_equal.
  rewrite <- IH at 2. rewrite <- fmap_S_seq. generalize (seq 0 (length xs)). intros l.
  induction l as [|j l IHl]; [done|]. cbn. destruct (xs !! j); [f_equal|]; done.
Qed.

Lemma order_ok (xs : list argument) : exists order, topological_sort (length xs) [] = (order, false) /\ order ≡ₚ seq 0 (length xs).
Proof.
  destruct (sort_acyclic (length xs) []) as (vs & E & Hp & _).
  - by intros u v ?%not_elem_of_nil.
  - exists (fun _ => 0%nat). by intros u v ?%not_elem_of_nil.
  - by exists vs.
Qed.

Lemma visited_perm xs : visited xs ≡ₚ xs.
Proof.
  unfold visited. destruct (order_ok xs) as (order & -> & Hp). cbn [fst].
  trans (omap (fun i => xs !! i) (seq 0 (length xs))); [|by rewrite omap_seq].
  apply omap_Permutation. trans order; [apply reverse_Permutation|done].
Qed.

(** A call without constraints visits [visited xs]. *)
Lemma visit_all {S} print offset (action : nat -> Z -> list constraint -> S -> res S) (addr : argument -> Z) xs s :
  let a := start_arguments (map addr xs) in
  visitInOrder print offset (visit (types xs) action a) (dm a) s
  = each (fun x => action (x_type x) (addr x) []) (visited xs) s.
Proof.
  cbn. unfold visitInOrder, visited. cbn [nodeCount edges]. rewrite length_map.
  destruct (order_ok xs) as (order & -> & Hp). cbn [fst rbind].
  assert (Hlt : Forall (fun i => (i < length xs)%nat) (reverse order)).
  { rewrite reverse_Permutation, Hp. apply Forall_seq. lia. }
  revert s. induction Hlt as [|i l Hi _ IH]; intros s; [done|].
  destruct (lookup_lt_is_Some_2 xs i Hi) as [x Hx]. cbn. unfold visit at 1. cbn.
  rewrite !list_lookup_fmap, Hx. cbn. destruct (action _ _ _ s); cbn; [apply IH|done..].
Qed.
(** What is asked of an argument in the run that is fuzzed: its place is below the heap, and
    apart from those of the others. *)
Definition placed (s : gen) (x : argument) : Prop :=
  exists k, size_ok ts (x_type x) k /\ 0 <= x_to x /\ x_to x + k <= brk (g_heap s)
    /\ mapped (cells (g_heap s)) (x_to x) k.
Definition separate (x y : argument) : Prop :=
  forall k l, size_ok ts (x_type x) k -> size_ok ts (x_type y) l -> x_to x + k <= x_to y \/ x_to y + l <= x_to x.

Definition needs (xs : list argument) : Z := foldr (fun x n => need ts (x_type x) (x_val x) + n) 0 xs.

Lemma needs_nonneg xs :
  Forall (fun x => fits ts (x_type x) (x_to x) (x_val x) /\ (depth (x_val x) + S (length ts) <= fuel)%nat) xs ->
  0 <= needs xs.
Proof.
  induction 1 as [|y ys [Hy _] _ IHy]; cbn; [lia|]. pose proof (need_chunk ts _ _ _ Hy) as [? _]. fold (needs ys). lia.
Qed.

(** The arguments [xs] are built one after the other; [lo] is where the heap was at first. *)
Lemma populate_all buffer xs lo s :
  Z.of_nat (length buffer) < 2 ^ 32 ->
  Forall (fun x => fits ts (x_type x) (x_to x) (x_val x) /\ (depth (x_val x) + S (length ts) <= fuel)%nat) xs ->
  Forall (fun x => exists k, size_ok ts (x_type x) k /\ 0 <= x_to x /\ x_to x + k <= lo
    /\ mapped (cells (g_heap s)) (x_to x) k) xs ->
  ForallOrdPairs separate xs ->
  lo <= brk (g_heap s) -> brk (g_heap s) mod 16 = 0 -> brk (g_heap s) + needs xs < 2 ^ 63 ->
  0 <= g_off s <= Z.of_nat (length buffer) -> reads buffer s (mjoin (map (fun x => encode (x_val x)) xs)) ->
  exists s', each (fun x => populateFromBuffer junk avail filein fuel ts buffer (x_type x) (x_to x) []) xs s = Ok s'
    /\ brk (g_heap s) <= brk (g_heap s')
    /\ (forall z, z < brk (g_heap s) -> (forall x k, x ∈ xs -> size_ok ts (x_type x) k -> ~ x_to x <= z < x_to x + k) ->
        cells (g_heap s') !! z = cells (g_heap s) !! z)
    /\ Forall (fun x => rep ts (cells (g_heap s')) lo (brk (g_heap s')) (x_type x) (x_to x) (rebuilt ts (x_type x) (x_val x))) xs.
Proof using Havail.
  intros Hbl Hfit. revert s. induction Hfit as [|x xs [Hf Hd] Hfit IH]; intros s Hpl Hsep Hlo H16 Hneed Hoff Hrd.
  { exists s. split_and!; [done|lia|done|done]. }
  apply Forall_cons in Hpl as [(k & Hk & Hx0 & Hxk & Hm) Hpl]. inversion Hsep as [|? ? Hsx Hsep']; subst.
  cbn [map needs foldr] in *. fold (needs xs) in Hneed.
  change (mjoin (_ :: ?l)) with (encode (x_val x) ++ mjoin l) in Hrd.
  pose proof (need_chunk ts _ _ _ Hf) as [Hn0 Hn16].
  pose proof (needs_nonneg xs Hfit) as Hns.
  destruct (builds_val ts junk avail filein buffer Havail Hbl (x_val x) fuel Hd (x_type x) (x_to x) k s)
    as (s1 & E1 & [[B1 F1 M1] Hb1 Ho1 _ R1]); [done|done|by split; [lia|done..]|lia|by eapply reads_app|].
  assert (Hle : g_off s + Z.of_nat (length (encode (x_val x))) <= Z.of_nat (length buffer))
    by (apply reads_bound; [done|by eapply reads_app]).
  destruct (IH s1) as (s2 & E2 & B2 & F2 & R2).
  - apply (Forall_impl _ _ _ Hpl). intros y (l & Hl & ? & ? & Hml). exists l. split_and!; [done..|].
    intros z Hz. by apply M1, Hml.
  - done.
  - lia.
  - rewrite Hb1, Z.add_mod, H16, Hn16 by lia. done.
  - lia.
  - lia.
  - eapply reads_next; [apply Hoff|exact Ho1|exact Hrd].
  - exists s2. cbn [each]. rewrite E1. cbn [rbind]. split_and!; [done|lia| |].
    + intros z Hz Hout. rewrite F2; [|lia|intros y l Hy; apply Hout; by right].
      apply F1; [done|]. apply (Hout x k); [by left|done].
    + constructor; [|exact R2]. eapply (rep_weaken _ _ (brk (g_heap s)) (brk (g_heap s1))); [lia|lia|].
      eapply rep_frame; [|exact (fits_rebuilt ts _ _ _ Hf)|exact Hk| |exact R1]; intros z Hz; apply F2; try lia; intros y l Hy Hl.
      * rewrite Forall_forall in Hpl. destruct (Hpl y Hy) as (l' & Hl' & ? & ? & _).
        rewrite (size_ok_unique ts _ _ _ Hl Hl'). lia.
      * rewrite Forall_forall in Hsx. destruct (Hsx y Hy k l Hk Hl); lia.
Qed.

Lemma each_app {A S} (f : A -> S -> res S) l k s : each f (l ++ k) s = rbind (each f l s) (each f k).
Proof.
  revert s. induction l as [|x l IH]; intros s; [done|]. cbn. destruct (f x s); cbn; [apply IH|done..].
Qed.

Lemma separate_sym x y : separate x y -> separate y x.
Proof. intros H k l Hk Hl. destruct (H l k Hl Hk); auto. Qed.

Lemma separate_perm xs ys : xs ≡ₚ ys -> ForallOrdPairs separate xs -> ForallOrdPairs separate ys.
Proof.
  induction 1 as [|x l k Hp IH|x y l|l1 l2 l3 _ IH1 _ IH2]; intros H; [done| | |by auto].
  - inversion H as [|? ? Hx Hl]; subst. constructor; [by rewrite <- Hp|auto].
  - inversion H as [|? ? Hx Hl]; subst. apply Forall_cons in Hx as [Hxy Hx]. inversion Hl as [|? ? Hy Hl']; subst.
    constructor; [constructor; [by apply separate_sym|done]|]. by constructor.
Qed.

Lemma needs_perm xs ys : xs ≡ₚ ys -> needs xs = needs ys.
Proof. unfold needs. induction 1; cbn in *; lia. Qed.

(** Recording [xs] as a call without constraints *)
Definition recorder (files : list Z -> option (list Z)) (h : gmap Z Z) (xs : list argument) : rec -> res rec :=
  let a := start_arguments (map x_from xs) in
  fun r => visitInOrder (print_map (r_buf r)) (r_off r) (visit (types xs) (serializeToBuffer files fuel ts h) a) (dm a) r.

Lemma recorder_appends files h xs :
  Forall (fun x => fits ts (x_type x) (x_from x) (x_val x) /\ recorded ts h (x_type x) (x_from x) (x_val x)
    /\ (depth (x_val x) + S (length ts) <= fuel)%nat) xs ->
  appends (recorder files h xs) (data_of xs).
Proof.
  intros Hxs. rewrite <- (visited_perm xs) in Hxs. unfold recorder, data_of.
  pose proof (serialize_args_appends files ts h fuel (map (fun x => (x_type x, x_from x, x_val x)) (visited xs))) as Ha.
  rewrite !map_map in Ha. intros r Hr. rewrite visit_all.
  destruct (Ha ltac:(by apply Forall_fmap) r Hr) as (r' & E & Hw). exists r'. split; [|exact Hw].
  rewrite <- E. unfold serialize_args. by rewrite each_map.
Qed.

(** C2: The arguments of a whole call without constraints survive from one run to the next.
    The program records the call among others (some of which fail half way); if all of them
    fit into the map and the offset behind them into 32 bits, the fuzzer finds the bytes under
    the name of the function and uses them as the test case; and in the next run [gen_values]
    builds from them, at places that are apart from each other, arguments with the values they
    had, up to what [rebuilt] says: 64-bit numbers that are not behind a pointer lose their
    upper half.  (A null pointer has the value of an empty array, and is rebuilt as one.) *)
Theorem call_survives files h xs name cs1 cs2 size n ptr offset s :
  Forall call_ok (cs1 ++ cs2) -> name_ok name -> NoDup (name :: map c_name (cs1 ++ cs2)) ->
  Forall (fun x => fits ts (x_type x) (x_from x) (x_val x) /\ recorded ts h (x_type x) (x_from x) (x_val x)
    /\ fits ts (x_type x) (x_to x) (x_val x) /\ (depth (x_val x) + S (length ts) <= fuel)%nat) xs ->
  Forall (placed s) xs -> ForallOrdPairs separate xs ->
  (total (cs1 ++ cs2) + 260 + length (data_of xs) <= size)%nat ->
  Z.of_nat (total (cs1 ++ cs2) + 260 + length (data_of xs)) < 2 ^ 32 ->
  (length (cs1 ++ cs2) < n)%nat -> brk (g_heap s) mod 16 = 0 -> brk (g_heap s) + needs xs < 2 ^ 63 ->
  exists r testcase s',
    (let! r := record_calls cs1 (Rec (replicate size 0) 0 false) in
     let! r := record_arguments fuel ts (types xs) files name [] (map x_from xs) h r in
     record_calls cs2 r) = Ok r
    /\ find_entry n (r_buf r) 0 name = Ok (Some testcase)
    /\ fuzz_arguments fuel ts (types xs) ptr offset junk avail filein [] (map x_to xs) testcase s = Ok s'
    /\ Forall (fun x => rep ts (cells (g_heap s')) (brk (g_heap s)) (brk (g_heap s')) (x_type x) (x_to x) (rebuilt ts (x_type x) (x_val x))) xs.
Proof using Havail.
  intros Hcs Hname Hnd Hxs Hpl Hsep Hsize Hlt Hn H16 Hneed.
  set (c := Call name (recorder files h xs) (inl (data_of xs))).
  assert (Hrec : appends (recorder files h xs) (data_of xs))
    by (apply recorder_appends; apply (Forall_impl _ _ _ Hxs); naive_solver).
  assert (Hmid : cs1 ++ c :: cs2 ≡ₚ c :: (cs1 ++ cs2)) by (symmetry; apply Permutation_middle).
  assert (Htotal : total (cs1 ++ c :: cs2) = (total (cs1 ++ cs2) + 260 + length (data_of xs))%nat).
  { unfold total. rewrite Hmid. cbn [map sum_list]. unfold call_size at 1. cbn [c_result c]. simpl. lia. }
  destruct (seed_found (cs1 ++ c :: cs2) c (data_of xs) size n) as (r & Er & Hfind).
  - rewrite Hmid. by constructor.
  - rewrite Hmid. exact Hnd.
  - rewrite Hmid. by left.
  - done.
  - rewrite Htotal. lia.
  - rewrite Htotal. lia.
  - apply Permutation_length in Hmid. rewrite Hmid. simpl. lia.
  - assert (Hlen : Z.of_nat (length (data_of xs)) < 2 ^ 32) by lia.
    assert (Hfuel : Forall (fun x => fits ts (x_type x) (x_to x) (x_val x) /\ (depth (x_val x) + S (length ts) <= fuel)%nat) xs)
      by (apply (Forall_impl _ _ _ Hxs); naive_solver).
    destruct (populate_all (data_of xs) (visited xs) (brk (g_heap s)) (set_off 0 s)) as (s' & Es & _ & _ & Hrep);
      [done|by rewrite visited_perm|by rewrite visited_perm| |done|done| |cbn; lia|by exists []; cbn; rewrite drop_0, app_nil_r|].
    { by eapply separate_perm; [symmetry; apply visited_perm|]. }
    { cbn. by rewrite (needs_perm _ _ (visited_perm xs)). }
    exists r, (data_of xs), s'. split_and!; [|exact Hfind| |by rewrite <- (visited_perm xs)].
    + unfold record_calls in *. rewrite each_app in Er. exact Er.
    + unfold fuzz_arguments. cbn [add_entries each rbind]. rewrite visit_all. exact Es.
Qed.
End survive.

(** ** Examples *)

(** Two 16-bit integers at 32 and 48, and a 32-bit one at 64. *)
Definition pair_types : list type_desc := [IntegerType 16; IntegerType 32].
Definition pair_memory : gmap Z Z :=
  alloc_cells 32 [1; 0] (alloc_cells 48 [9; 0] (alloc_cells 64 [0; 0; 0; 0] ∅)).
Definition pair_gen : gen := Gen (Heap pair_memory 128) 0 None.

Definition le_entry (l r : nat) : entry := Entry l false rel_le false (RhsArg r) false.
Definition ge_entry (l r : nat) : entry := Entry l false rel_ge false (RhsArg r) false.

Lemma pair_mapped a n : (a, n) ∈ [(32, 2); (48, 2); (64, 4)] -> mapped pair_memory a n.
Proof.
  intros Hin x Hx. rewrite !elem_of_cons, elem_of_nil in Hin.
  destruct Hin as [[= -> ->]|[[= -> ->]|[[= -> ->]|[]]]].
  - assert (x = 32 \/ x = 33) as [->| ->] by lia; eexists; vm_compute; reflexivity.
  - assert (x = 48 \/ x = 49) as [->| ->] by lia; eexists; vm_compute; reflexivity.
  - assert (x = 64 \/ x = 65 \/ x = 66 \/ x = 67) as [->|[->|[->| ->]]] by lia; eexists; vm_compute; reflexivity.
Qed.

Lemma pair_int_args : int_args pair_types [0; 0; 1]%nat [32; 48; 64] pair_memory.
Proof.
  split.
  - intros [|[|[|]]] a [= <-]; eexists _, _; (split_and!; [reflexivity..|set_solver|]);
      apply pair_mapped; set_solver.
  - intros [|[|[|]]] [|[|[|]]] a b Hne [= <-] [= <-]; try done; unfold apart; vm_compute; (by left) || (by right).
  - intros a x Hx. apply (map_Forall_lookup_1 (fun _ => byte_ok) pair_memory a x); [|done].
    refine (bool_decide_unpack _ _). vm_compute. exact I.
Qed.

Lemma pair_entry e : e ∈ [le_entry 0 1; ge_entry 1 0; le_entry 1 2] -> entry_ok pair_types [0; 0; 1]%nat [32; 48; 64] e.
Proof.
  intros He. rewrite !elem_of_cons, elem_of_nil in He.
  destruct He as [->|[->|[->|[]]]]; (split; [cbn; lia|done|cbn; set_solver|intros j [= <-]; vm_compute; split; [lia|congruence]]).
Qed.

Lemma fuzzed_integers_meet_constraints_witness :
  exists s', fuzz_arguments 1 pair_types [0; 0; 1]%nat 0 0 0 (fun _ => true) [] [le_entry 0 1; le_entry 1 2] [32; 48; 64]
    [255; 255; 7; 0; 5] pair_gen = Ok s'
    /\ forall e, e ∈ [le_entry 0 1; le_entry 1 2] -> meets pair_types [0; 0; 1]%nat [32; 48; 64] pair_memory (cells (g_heap s')) e.
Proof.
  apply (fuzzed_integers_meet_constraints 0 pair_types [0; 0; 1]%nat [32; 48; 64] 0 0 0 (fun _ => true) []
    [le_entry 0 1; le_entry 1 2] [255; 255; 7; 0; 5] pair_gen).
  - exact pair_int_args.
  - apply Forall_forall. intros e He. apply pair_entry. set_solver.
  - refine (bool_decide_unpack _ _). vm_compute. exact I.
  - exists (fun i => 2 - i)%nat. intros u v Huv. cbn in Huv. set_solver by lia.
Defined.

Lemma cyclic_constraints_crash_witness :
  fuzz_arguments 1 pair_types [0; 0; 1]%nat 0 0 0 (fun _ => true) [] [le_entry 0 1; ge_entry 1 0] [32; 48; 64]
    [1; 2; 3; 4] pair_gen = UB.
Proof.
  apply (cyclic_constraints_crash 0 pair_types [0; 0; 1]%nat [32; 48; 64] 0 0 0 (fun _ => true) []
    [le_entry 0 1; ge_entry 1 0] [1; 2; 3; 4] pair_gen).
  - exact pair_int_args.
  - apply Forall_forall. intros e He. apply pair_entry. set_solver.
  - refine (bool_decide_unpack _ _). vm_compute. exact I.
  - intros [rank Hr]. pose proof (Hr 1%nat 0%nat ltac:(left)). pose proof (Hr 0%nat 1%nat ltac:(right; left)). lia.
  - reflexivity.
  - reflexivity.
  - vm_compute. reflexivity.
Defined.

(** A right side that is narrower than the left is read beyond its end: nothing is mapped
    behind the 16-bit integer at 48. *)
Example narrow_right_side_overreads :
  fuzz_arguments 1 pair_types [0; 0; 1]%nat 0 0 0 (fun _ => true) [] [le_entry 2 1] [32; 48; 64] [1; 2; 3; 4] pair_gen = UB.
Proof. vm_compute. reflexivity. Qed.

(** The struct of [LibgenTheorems] and the number in it, as two arguments. *)
Definition two_arguments : list argument :=
  [Argument 3 64 16 sample_value; Argument 0 64 32 (VBytes [7; 0; 0; 0])].
Definition two_places : gen := Gen (Heap (alloc_cells 16 (replicate 32 170) ∅) 48) 0 None.

Lemma two_arguments_ok :
  Forall (fun x => fits sample_types (x_type x) (x_from x) (x_val x)
    /\ recorded sample_types sample_source (x_type x) (x_from x) (x_val x)
    /\ fits sample_types (x_type x) (x_to x) (x_val x) /\ (depth (x_val x) + S (length sample_types) <= 10)%nat) two_arguments.
Proof.
  constructor; [|constructor; [|done]]; cbn [x_type x_from x_to x_val].
  - split_and!; [exact sample_fits|exact sample_recorded| |cbn; lia].
    apply (fits_shift sample_types sample_value 3 64 (-48)); [done|exact sample_fits].
  - assert (fits sample_types 0 64 (VBytes [7; 0; 0; 0])) as Hf.
    { cbn. split; [set_solver|]. split; [done|]. byte_list. }
    split_and!; [exact Hf|vm_compute; reflexivity|exact Hf|cbn; lia].
Qed.

Lemma call_survives_witness :
  exists r testcase s',
    (let! r := record_calls [] (Rec (replicate 600 0) 0 false) in
     let! r := record_arguments 10 sample_types [3; 0]%nat (fun _ => None) [102] [] [64; 64] sample_source r in
     record_calls [] r) = Ok r
    /\ find_entry 1 (r_buf r) 0 [102] = Ok (Some testcase)
    /\ fuzz_arguments 10 sample_types [3; 0]%nat 0 0 170 (fun _ => true) [] [] [16; 32] testcase two_places = Ok s'
    /\ Forall (fun x => rep sample_types (cells (g_heap s')) 48 (brk (g_heap s')) (x_type x) (x_to x) (rebuilt sample_types (x_type x) (x_val x))) two_arguments.
Proof.
  apply (call_survives sample_types 10 170 (fun _ => true) [] (fun _ => eq_refl) (fun _ => None) sample_source
    two_arguments [102] [] [] 600 1 0 0 two_places).
  - apply List.Forall_nil.
  - split; [simpl; lia|by apply Forall_singleton].
  - apply NoDup_singleton.
  - exact two_arguments_ok.
  - assert (Hm : forall a k, 16 <= a -> a + k <= 48 -> mapped (cells (g_heap two_places)) a k).
    { intros a k Ha Hk x Hx. change (is_Some (alloc_cells 16 (replicate 32 170) (∅ : gmap Z Z) !! x)).
      eapply load_mapped; [apply alloc_ok|]. rewrite length_replicate. lia. }
    constructor; [|constructor; [|done]]; [exists 16|exists 4]; cbn [x_type x_to];
      (split_and!; [split; [reflexivity|lia]|lia|simpl; lia|apply Hm; lia]).
  - constructor; [constructor; [|done]|constructor; [done|constructor]].
    intros k l Hk Hl. left. cbn [x_type x_to] in *.
    rewrite (size_ok_unique sample_types 3 k 16); [lia|done|]. by split.
  - apply Nat.leb_le. vm_compute. reflexivity.
  - vm_compute. reflexivity.
  - simpl. lia.
  - reflexivity.
  - vm_compute. reflexivity.
Defined.
