(* ===== verification/Session.v ===== *)
(** * A fuzzed execution of the program (src/libgen/src/main.cc)

    The instrumented program calls [gen_values] on entry to each function it may fuzz and
    [__ah_epilogue] on return.  Together they decide which call is recorded, which call
    gets the arguments of the test case, and when the process exits: a state machine over
    calls and returns, modelled here with the parts of the state that decide.  What the
    chosen call does with its arguments is in Libgen.v and ArgMap.v. *)
From S2P Require Import Prelude Libgen LibgenTheorems ArgMap.

(** The settings [gen_init] reads, and the target the fuzzer asked for. *)
Record settings := Settings {
  userTarget : option (list Z);
  ah_current_target : option (list Z);
  userRecording : bool;
  ah_recording : bool;
  blacklist : list Z;
  exitOnReturn : bool;
  exitOnMaxCalls : bool;
  maxCalls : Z;
  maxFuzz : Z;
  forkOnInit : bool;
  forkOnCallNr : Z;
}.

(** The globals the two hooks share. *)
Record session := Session {
  ah_in_fuzz : bool;
  ah_shadow_function_name : option (list Z);
  ah_shadow_recurse : Z;
  fuzzIdx : Z;
  currentCalls : Z;
  recordedFunctions : list (list Z);
  libraryCall : Z;
  inits : Z;  (* calls of [__AFL_INIT] *)
}.

Definition session_init : session := Session false None 0 0 0 [] 0 0.

Inductive action := Nothing | Fuzz | Record_.
Inductive outcome := Exited | Running (act : action) (s : session).

Definition is_target (c : settings) (fnName : list Z) : bool :=
  bool_decide (userTarget c = Some fnName) || bool_decide (ah_current_target c = Some fnName).

(** "__AH_NON_EXISTENT__" *)
Definition NON_EXISTENT : list Z :=
  [95; 95; 65; 72; 95; 78; 79; 78; 95; 69; 88; 73; 83; 84; 69; 78; 84; 95; 95].

Definition ah_beforeLoop (s : session) : session :=
  Session false (ah_shadow_function_name s) (ah_shadow_recurse s) 0 0 (recordedFunctions s)
    (libraryCall s) (inits s).

Definition gen_values (c : settings) (fnName : list Z) (s : session) : outcome :=
  let calls := if ah_in_fuzz s && exitOnMaxCalls c then u32 (currentCalls s + 1) else currentCalls s in
  if ah_in_fuzz s && exitOnMaxCalls c && (maxCalls c <? calls) then Exited
  else
    let rec1 :=
      if ah_in_fuzz s && bool_decide (ah_shadow_function_name s = Some fnName)
      then u32 (ah_shadow_recurse s + 1) else ah_shadow_recurse s in
    let shouldRecord :=
      (userRecording c || ah_recording c) && negb (bool_decide (fnName ∈ recordedFunctions s))
      && not_blacklisted (blacklist c) fnName in
    let shouldFuzz :=
      is_target c fnName && negb shouldRecord && (negb (ah_in_fuzz s) || (fuzzIdx s <? maxFuzz c)) in
    let init :=
      negb (forkOnInit c) && (forkOnCallNr c =? 0)
      && (shouldFuzz || shouldRecord || bool_decide (ah_current_target c = Some NON_EXISTENT)) in
    let inits := if init then inits s + 1 else inits s in
    if shouldFuzz then
      Running Fuzz (Session true (Some fnName) 1 (u64 (fuzzIdx s + 1)) calls (recordedFunctions s)
        (libraryCall s) inits)
    else if shouldRecord then
      Running Record_ (Session (ah_in_fuzz s) (Some fnName) rec1 (fuzzIdx s) calls
        (fnName :: recordedFunctions s) (libraryCall s) inits)
    else
      Running Nothing (Session (ah_in_fuzz s) (ah_shadow_function_name s) rec1 (fuzzIdx s) calls
        (recordedFunctions s) (libraryCall s) inits).

Definition ah_library_function (c : settings) (s : session) : session :=
  let n := u64 (libraryCall s + 1) in
  Session (ah_in_fuzz s) (ah_shadow_function_name s) (ah_shadow_recurse s) (fuzzIdx s) (currentCalls s)
    (recordedFunctions s) n
    (if negb (forkOnCallNr c =? 0) && (forkOnCallNr c =? n) then inits s + 1 else inits s).

Definition ah_epilogue (c : settings) (fnName : list Z) (s : session) : outcome :=
  if exitOnReturn c && negb (ah_recording c) && ah_in_fuzz s
     && bool_decide (ah_shadow_function_name s = Some fnName) then
    let r := u32 (ah_shadow_recurse s - 1) in
    if r =? 0 then Exited
    else Running Nothing (Session (ah_in_fuzz s) (ah_shadow_function_name s) r (fuzzIdx s) (currentCalls s)
           (recordedFunctions s) (libraryCall s) (inits s))
  else Running Nothing s.

(** ** Traces *)

Inductive event := Enter (f : list Z) | Leave (f : list Z) | Library.

Definition react (c : settings) (e : event) (s : session) : outcome :=
  match e with
  | Enter f => gen_values c f s
  | Leave f => ah_epilogue c f s
  | Library => Running Nothing (ah_library_function c s)
  end.

(** The process over a trace: [None] when it has exited. *)
Fixpoint process (c : settings) (tr : list event) (s : session) : option session :=
  match tr with
  | [] => Some s
  | e :: tr => match react c e s with Exited => None | Running _ s => process c tr s end
  end.

(** Calls and returns nest, given the stack of functions on entry. *)
Fixpoint nested (stack : list (list Z)) (tr : list event) : Prop :=
  match tr with
  | [] => True
  | Enter f :: tr => nested (f :: stack) tr
  | Leave f :: tr => match stack with [] => False | g :: stack => f = g /\ nested stack tr end
  | Library :: tr => nested stack tr
  end.

(** ** The contract: exit when the fuzzed call returns *)

(** [None]: no call was fuzzed yet.  [Some above]: the functions entered since, and not
    left, innermost first. *)
Fixpoint contract (c : settings) (tr : list event) (st : option (list (list Z))) : bool :=
  match tr with
  | [] => true
  | e :: tr =>
      match e, st with
      | Enter f, None => contract c tr (if is_target c f then Some [] else None)
      | Enter f, Some above => contract c tr (Some (f :: above))
      | Leave _, None => contract c tr None
      | Leave _, Some [] => false
      | Leave _, Some (_ :: above) => contract c tr (Some above)
      | Library, st => contract c tr st
      end
  end.

Definition count_fn (f : list Z) (l : list (list Z)) : nat := length (filter (fun g => g = f) l).

(** What the globals say about the calls since the fuzzed one, [f]. *)
Record fuzzing (c : settings) (f : list Z) (above : list (list Z)) (s : session) : Prop := {
  fz_in : ah_in_fuzz s = true;
  fz_name : ah_shadow_function_name s = Some f;
  fz_depth : ah_shadow_recurse s = 1 + Z.of_nat (count_fn f above);
  fz_idx : fuzzIdx s = 1;
}.

Lemma count_fn_cons f g l : count_fn f (g :: l) = ((if decide (g = f) then 1 else 0) + count_fn f l)%nat.
Proof. unfold count_fn. rewrite filter_cons. by case_decide. Qed.

Section once.
Context (c : settings).
Hypothesis Hret : exitOnReturn c = true.
Hypothesis Hrec : ah_recording c = false.
Hypothesis Huser : userRecording c = false.
Hypothesis Hmax : exitOnMaxCalls c = false.
Hypothesis Honce : maxFuzz c <= 1.

Lemma enter_fuzzing f above g s :
  fuzzing c f above s -> Z.of_nat (length above) + 2 < 2 ^ 32 ->
  exists s', gen_values c g s = Running Nothing s' /\ fuzzing c f (g :: above) s'.
Proof using All.
  intros [H1 H2 H3 H4] Hb. unfold gen_values. rewrite H1, H2, H4, Hmax, Hrec, Huser.
  rewrite (proj2 (Z.ltb_ge 1 (maxFuzz c)) Honce). cbn [andb orb negb]. rewrite !andb_false_r.
  eexists. split; [done|]. split; simpl; [done|done| |done].
  rewrite count_fn_cons, H3. assert (count_fn f above <= length above)%nat by apply length_filter.
  case_bool_decide as E; [injection E as ->; rewrite decide_True by done|].
  - unfold u32. rewrite Z.mod_small; lia.
  - rewrite decide_False by congruence. lia.
Qed.

Lemma enter_idle g s :
  ah_in_fuzz s = false -> fuzzIdx s = 0 ->
  exists act s', gen_values c g s = Running act s' /\
    if is_target c g then fuzzing c g [] s' else ah_in_fuzz s' = false /\ fuzzIdx s' = 0.
Proof using Hrec Huser.
  intros H1 H4. unfold gen_values. rewrite H1, H4, Hrec, Huser. cbn [andb orb negb].
  rewrite andb_true_r. cbn [andb]. rewrite andb_true_r. destruct (is_target c g).
  - eexists _, _. split; [done|]. by split.
  - eexists _, _. split; [done|]. by split.
Qed.

Lemma leave_fuzzing f above g s :
  fuzzing c f (g :: above) s -> Z.of_nat (length above) + 3 < 2 ^ 32 ->
  exists s', ah_epilogue c g s = Running Nothing s' /\ fuzzing c f above s'.
Proof using Hret Hrec.
  intros [H1 H2 H3 H4] Hb. unfold ah_epilogue. rewrite Hret, Hrec, H1, H2. cbn [andb negb].
  assert (count_fn f above <= length above)%nat by apply length_filter.
  rewrite count_fn_cons in H3. case_bool_decide as E.
  - injection E as ->. rewrite decide_True in H3 by done. rewrite H3.
    replace (u32 _) with (1 + Z.of_nat (count_fn g above)) by (unfold u32; rewrite Z.mod_small; lia).
    rewrite (proj2 (Z.eqb_neq _ 0)) by lia. eexists. split; [done|]. by split.
  - rewrite decide_False in H3 by congruence. eexists. split; [done|]. split; [done|done|lia|done].
Qed.

Lemma leave_fuzzed f s : fuzzing c f [] s -> ah_epilogue c f s = Exited.
Proof using Hret Hrec.
  intros [H1 H2 H3 H4]. unfold ah_epilogue. rewrite Hret, Hrec, H1, H2, H3. cbn [andb negb].
  by rewrite bool_decide_true.
Qed.

Lemma fuzzing_contract tr : forall f above below s,
  fuzzing c f above s -> nested (above ++ f :: below) tr ->
  Z.of_nat (length above + length tr) + 3 < 2 ^ 32 ->
  bool_decide (is_Some (process c tr s)) = contract c tr (Some above).
Proof using All.
  induction tr as [|[g|g|] tr IH]; intros f above below s Hs Hn Hb; cbn [length] in Hb.
  - done.
  - cbn [process react contract]. destruct (enter_fuzzing f above g s Hs ltac:(lia)) as (s' & -> & Hs').
    apply (IH f (g :: above) below); [done|exact Hn|cbn [length]; lia].
  - cbn [process react contract]. destruct above as [|h above]; simpl in Hn; destruct Hn as [-> Hn].
    + by rewrite (leave_fuzzed f s Hs).
    + cbn [length] in Hb. destruct (leave_fuzzing f above h s Hs ltac:(lia)) as (s' & -> & Hs').
      apply (IH f above below); [done|exact Hn|lia].
  - cbn [process react contract]. apply (IH f above below); [|exact Hn|lia]. destruct Hs. by split.
Qed.

Lemma idle_contract tr : forall stack s,
  ah_in_fuzz s = false -> fuzzIdx s = 0 -> nested stack tr -> Z.of_nat (length tr) + 3 < 2 ^ 32 ->
  bool_decide (is_Some (process c tr s)) = contract c tr None.
Proof using All.
  induction tr as [|[g|g|] tr IH]; intros stack s H1 H4 Hn Hb; cbn [length] in Hb.
  - done.
  - cbn [process react contract]. destruct (enter_idle g s H1 H4) as (act & s' & -> & Hs').
    destruct (is_target c g).
    + apply (fuzzing_contract tr g [] stack); [done|exact Hn|simpl; lia].
    + apply (IH (g :: stack)); [apply Hs'|apply Hs'|exact Hn|lia].
  - cbn [process react contract]. unfold ah_epilogue. rewrite H1, andb_false_r. cbn [andb].
    destruct stack as [|h stack]; [done|]. destruct Hn as [-> Hn]. by apply (IH stack); [done|done|done|lia].
  - cbn [process react contract]. by apply (IH stack); [done|done|done|lia].
Qed.
End once.

(** C25: with "exit_on_ret", a single call to fuzz, no limit on the calls and no recording, the
    process runs on exactly until the fuzzed call returns.  Over every properly nested trace of calls and returns, recursive
    calls of the target and library calls included, the counter the hooks keep agrees with
    the stack: the process has exited iff the activation that got the test case was left. *)
Theorem exits_with_fuzzed_call c tr :
  exitOnReturn c = true -> ah_recording c = false -> userRecording c = false ->
  exitOnMaxCalls c = false -> maxFuzz c <= 1 ->
  nested [] tr -> Z.of_nat (length tr) + 3 < 2 ^ 32 ->
  bool_decide (is_Some (process c tr session_init)) = contract c tr None.
Proof. intros. by eapply idle_contract. Qed.

Definition sample_settings : settings :=
  Settings (Some [102]) None false false [] true false 5 1 false 0.

Lemma exits_with_fuzzed_call_witness :
  let tr := [Enter [103]; Enter [102]; Enter [102]; Leave [102]; Library; Leave [102]] in
  bool_decide (is_Some (process sample_settings tr session_init)) = contract sample_settings tr None
  /\ contract sample_settings tr None = false.
Proof.
  split; [|reflexivity].
  apply (exits_with_fuzzed_call sample_settings).
  1-4: reflexivity.
  - simpl. lia.
  - simpl. auto.
  - simpl. lia.
Defined.

(** ** Invariants of all executions *)

(** The session after a trace that did not exit, and the calls it fuzzed and recorded. *)
Inductive reaches (c : settings) : session -> nat -> Prop :=
| reaches_init : reaches c session_init 0
| reaches_step e act s s' n : reaches c s n -> react c e s = Running act s' ->
    reaches c s' (match act with Fuzz => S n | _ => n end).

Lemma react_recorded c e act s s' :
  react c e s = Running act s' -> NoDup (recordedFunctions s) ->
  NoDup (recordedFunctions s')
  /\ (act = Record_ -> exists f, e = Enter f /\ f ∉ recordedFunctions s /\ recordedFunctions s' = f :: recordedFunctions s
        /\ not_blacklisted (blacklist c) f = true)
  /\ (act <> Record_ -> recordedFunctions s' = recordedFunctions s).
Proof.
  destruct e as [f|f|]; cbn [react].
  - unfold gen_values. cbv zeta.
    match goal with |- (if ?b then Exited else _) = _ -> _ => destruct b; [done|] end.
    match goal with |- (if ?b then Running Fuzz _ else _) = _ -> _ =>
      destruct b; [intros [= <- <-]; simpl; by auto|] end.
    match goal with |- (if ?b then _ else _) = _ -> _ => destruct b eqn:Hb end; intros [= <- <-] Hnd; simpl.
    + apply andb_true_iff in Hb as [[_ Hni%negb_true_iff%bool_decide_eq_false]%andb_true_iff Hbl].
      split; [by apply NoDup_cons|]. split; [|done]. intros _. by exists f.
    + by auto.
  - unfold ah_epilogue. repeat case_match; try done; intros [= <- <-]; simpl; by auto.
  - intros [= <- <-]. simpl. by auto.
Qed.

Lemma react_idx c e act s s' n :
  react c e s = Running act s' -> 0 <= maxFuzz c < 2 ^ 32 ->
  (ah_in_fuzz s = false -> fuzzIdx s = 0) -> fuzzIdx s = Z.of_nat n -> fuzzIdx s <= Z.max 1 (maxFuzz c) ->
  let n' := match act with Fuzz => S n | _ => n end in
  (ah_in_fuzz s' = false -> fuzzIdx s' = 0) /\ fuzzIdx s' = Z.of_nat n' /\ fuzzIdx s' <= Z.max 1 (maxFuzz c).
Proof.
  intros Hr Hm Hidle Hn Hle. destruct e as [f|f|]; cbn [react] in Hr.
  - unfold gen_values in Hr. cbv zeta in Hr.
    match type of Hr with (if ?b then Exited else _) = _ => destruct b; [done|] end.
    match type of Hr with (if ?b then _ else _) = _ => destruct b eqn:Hb end.
    + injection Hr as <- <-. simpl. apply andb_true_iff in Hb as [_ Hb]. split; [done|].
      assert (fuzzIdx s + 1 <= Z.max 1 (maxFuzz c)).
      { apply orb_true_iff in Hb as [Hb%negb_true_iff|Hb%Z.ltb_lt]; [rewrite (Hidle Hb)|]; lia. }
      unfold u64. rewrite Z.mod_small by lia. lia.
    + destruct (_ && not_blacklisted _ f); injection Hr as <- <-; simpl; auto.
  - unfold ah_epilogue in Hr. repeat case_match; simplify_eq/=; auto.
  - injection Hr as <- <-. simpl. auto.
Qed.

(** In every execution at most [max_fuzz] calls get the test case (one, if that is 0),
    the index of the fuzzed call counts them, and no function is recorded twice. *)
Theorem session_invariant c s n :
  0 <= maxFuzz c < 2 ^ 32 -> reaches c s n ->
  NoDup (recordedFunctions s) /\ fuzzIdx s = Z.of_nat n /\ Z.of_nat n <= Z.max 1 (maxFuzz c)
  /\ (ah_in_fuzz s = false -> n = 0%nat).
Proof.
  intros Hm Hr.
  assert (H : NoDup (recordedFunctions s) /\ (ah_in_fuzz s = false -> fuzzIdx s = 0)
    /\ fuzzIdx s = Z.of_nat n /\ fuzzIdx s <= Z.max 1 (maxFuzz c)).
  { induction Hr as [|e act s s' n _ (I1 & I2 & I3 & I4) Hs]; [simpl; split; [constructor|]; split; [done|]; lia|].
    destruct (react_recorded c e act s s' Hs I1) as [H1 _].
    destruct (react_idx c e act s s' n Hs Hm I2 I3 I4) as (H2 & H3 & H4). auto. }
  destruct H as (H1 & H2 & H3 & H4). split; [done|]. split; [done|]. split; [lia|]. intros Hf. specialize (H2 Hf). lia.
Qed.

Definition sample_session : session := Session true (Some [102]) 1 1 0 [] 0 1.

Lemma session_invariant_witness : reaches sample_settings sample_session 1 /\ fuzzIdx sample_session = Z.of_nat 1.
Proof.
  assert (Hr : reaches sample_settings sample_session 1).
  { apply (reaches_step sample_settings (Enter [102]) Fuzz session_init sample_session 0); [apply reaches_init|].
    vm_compute. reflexivity. }
  split; [exact Hr|].
  exact (proj1 (proj2 (session_invariant sample_settings sample_session 1
    ltac:(vm_compute; split; [discriminate|reflexivity]) Hr))).
Defined.
